(* ===== verification/_CoqProject ===== *)
-Q . S2P
Prelude.v
Bignum.v
Ieee.v
IntParse.v
FloatParse.v
FloatFormat.v
Utf.v
CodeConvert.v
FloatText.v
Format.v
FormatSpec.v
FormatParse.v
FormatTemplate.v
Hashing.v
Sha256.v
Memory.v
Vector.v
Refine.v
VectorSpec.v
Deque.v
UnorderedMap.v
UnorderedMapSpec.v
HashMap.v
HashMapSpec.v
MpscQueue.v
RedBlackTree.v
RedBlackHeap.v
RedBlackInsert.v
RedBlackErase.v
RedBlackRemove.v
RedBlackWalk.v
OrderedMap.v
OrderedMapSpec.v
CMemory.v
BaseString.v
BaseStringRep.v
BaseStringModify.v
BaseStringConstruct.v
BaseStringSearch.v
BaseStringSpec.v
BaseStringRefine.v
EqPageTable.v
EqAllocator.v
Bits.v
EqBucket.v
EqPages.v
EqHeap.v
EqHeapLaws.v
EqRouter.v
EqInit.v
Algorithm.v
AlgorithmSort.v
Bitsets.v
BitsetsSpec.v
SpinningMutex.v
Interleaving.v
LockFreeHashMap.v
LockFreeHashMapSpec.v
Ebr.v
LockFreeOrderedMap.v
LockFreeOrderedMapSpec.v
StringSearch.v
StringRef.v
SharedPointer.v
Links.v
LinkedList.v
ConcurrentOrderedMap.v
Options.v
ConditionVariable.v
Random.v
SmallString.v
SmallStringRep.v
SmallStringSpec.v
Path.v
FileOs.v
FileIo.v
FileIoSpec.v
FileIoPrograms.v
