(* ===== verification/Prelude.v ===== *)
(** * Verification of the [base] library of Equilibrium

    [src/base] is a standard library in C++: numbers and their texts, encodings, hashing,
    containers, strings, an allocator of its own, locks and lock-free maps, option files and
    paths.  This development translates that code into Rocq, file by file, and proves what
    each part promises.  Every file opens with the source it models and the shape of its
    model; a theorem that states a property of the program as a whole is numbered in the comment before it.

    ** Conventions

    A [w]-bit integer is a [Z]; every operation that can leave its range is followed by [wrap]
    or [swrap] of this file.  Loops are structural recursions, or recursions over a number of
    turns ([fuel]); where the code only ends under a condition, a theorem says that the fuel the
    model starts with is enough, so that [None] or [Undef] never stands for a loop cut short.
    Code that can break a rule of the language (an access outside a block, a read of a
    destroyed object, an overlapping [memcpy], a failed [BASE_DCHECK] or [BASE_BUGCHECK]) ends
    in [Undef]; the library's own refusal of a request it cannot serve ends in [Fatal]
    ([Memory.v]).  Definitions keep the names of the source; a Section holds the parameters of
    a template (element type, hasher, comparator) and of the platform.

    ** The parts, in the order of the files

    - Text and numbers ([src/base/strings/decimal_bignum.h], [number_parse.cc],
      [float_format.cc], [format.cc], [format.h]).  [Bignum] is [BigUInt] over its limbs, [Ieee]
      the meaning of a double in integers, [IntParse] and [FloatParse] the parsers,
      [FloatFormat] and [FloatText] the exact decimal printing.  [Format] is the [{}] formatter
      over an arbitrary sink ([Sink]; the bounded buffer and the growing string are instances);
      [FormatSpec], [FormatParse] and [FormatTemplate] give it a semantics as text: the contract
      of [snprintf], integers that parse back, templates.  The parser rounds correctly and the
      printer prints the exactly rounded decimal for all doubles; limb counts and digit buffers
      are proved large enough.
    - Encodings ([src/base/external/icu/icu_utf.h], [src/base/text]).  [Utf] has the code unit
      macros, [CodeConvert] the three decoders, the converters, the validators and the iterator.
    - Hashes ([src/base/hashing]).  [Hashing] has CRC, FNV-1a, Jenkins, djb2, ELF and the integer
      mixer; [Sha256] the incremental context against the one-shot digest.
    - Containers with element lifetimes ([src/base/memory/allocation_size.h], [cxx_lifetime.h],
      [src/base/containers]).  [Memory] is storage of raw cells and live objects; [Vector],
      [Deque], [UnorderedMap] and [HashMap] run on it or on their own slots and nodes.
      [MpscQueue] is the queue of many producers, step by step.
    - Ordered containers ([src/base/containers/tree/red_black_tree_2.h], [map.h], [set.h]).
      [RedBlackTree] is the pointer program; [RedBlackHeap], [RedBlackInsert], [RedBlackErase],
      [RedBlackRemove] and [RedBlackWalk] relate it to trees and zippers; [OrderedMap] is the map
      and the set over it.
    - Strings ([src/base/strings/base_string.h], [small_string.h], [string_ref.h],
      [string_search.h], [char_algorithms.h], [src/base/memory/mem_ops.h]).  [CMemory] is byte
      memory with pointers; the [BaseString] files model the 24-byte string with its inline
      representation, the [SmallString] files the inline string of [N] characters;
      [StringSearch] and [StringRef] are the search and the views.
    - The allocator ([src/base/allocator/eq_alloc], [memory_context.cc],
      [src/base/containers/builtins_bit.h]).  [EqPageTable] reserves pages; [EqAllocator] is the
      interface every allocator offers ([Class] with laws, and the theorem that its clients see
      independent arrays); [EqBucket], [EqPages] and [EqHeap] with [EqHeapLaws] implement it;
      [EqRouter] sends requests to them and [EqInit] is their construction by racing threads.
      [Bits] counts bits.
    - Algorithms and bit sets ([src/base/algorithm.h], [src/base/containers/bitsets]):
      [Algorithm] and [AlgorithmSort] (introsort and the rest on ranges), [Bitsets] and
      [BitsetsSpec].
    - Concurrency ([src/base/threading], [src/base/containers], [src/base/memory]):
      [SpinningMutex] and [ConditionVariable] over a futex; [Interleaving], a language of atomic
      accesses with a rely-guarantee logic; on it [LockFreeHashMap] and [LockFreeOrderedMap], the
      latter with its epochs ([Ebr]); [SharedPointer]; [ConcurrentOrderedMap] under its mutex.
    - Lists of linked nodes ([src/base/containers/linked_list.h]): [Links] says what the links of
      a list are, [LinkedList] is the intrusive list; [ConcurrentOrderedMap] uses [Links] too.
    - Options, random numbers, paths and files ([src/base/option.h], [option_file.cc],
      [src/base/random], [src/base/filesystem]): [Options], [Random], [Path].  [FileOs] says what
      system calls do to regular files (a class of kernels that may interrupt, shorten and fail
      them, with one that runs), [FileIo] is [File] over such a kernel, [FileIoSpec] what its
      members do, [FileIoPrograms] the contract of whole programs.

    ** How states correspond

    A class is a [Record] of its fields, a member function a definition from the state to the
    new state and the answer.  Pointers into an array are indices with the array; pointers to
    nodes are addresses in a [gmap] of nodes; pointers to bytes are a block and an offset
    ([CMemory]).  Concurrent code is a step relation or a program of atomic accesses: a thread
    between two steps is the value that says where it stands and what its locals hold.

    ** Contracts

    Most components have a file or a part that states their contract: an abstract state (a list,
    a [gmap], a text with its capacity, a list per root), the meaning of every operation on it,
    [None] where the caller breaks a precondition, and the theorem that every program the
    abstract semantics accepts runs in the model without breaking a rule and gives the same
    answers ([Refine.v] has the general part).  The theorems named [..._programs] are of this
    kind.  [EqAllocator] does the same for the allocators, [Format] for its sinks, and the
    concurrent components state safety under every interleaving.

    ** Bounds

    - [FloatParse] and [FloatFormat]: exponents are clamped by the code; the limb capacity is
      shown to suffice for every input the code lets through.
    - [RedBlackTree]: the fuel of a loop is the number of nodes of the heap; a search takes at
      most [2 log2 (n + 1) + 1] turns.
    - [UnorderedMap]: a probe gets as many turns as there are buckets; the load factor leaves an
      empty slot, except after [clear] on a table with tombstones, where it does not end.
    - [AlgorithmSort]: the depth limit of the code bounds the introsort.
    - [LockFreeHashMap], [LockFreeOrderedMap]: loops have a number of turns per call; a thread
      that uses it up stops, which is a prefix of a real run.  Run alone, linear bounds suffice.
    - [EqHeap]: requests up to 2^47 bytes, the width of the address space.
    - [Random]: an unbiased draw repeats with no bound in the code; the model takes a number of
      turns, and the share of values that end the loop is counted.
    - [FileIo]: a call is retried as often as the kernel interrupts it (the build with checks gives
      up after 100 retries); a transfer gets one turn more than bytes are asked for, and every
      turn moves at least one.

    ** What is not modelled

    - Memory orders: atomic accesses interleave under sequential consistency.
    - The operating system: what a futex, a page reservation or a file does is a parameter or a
      step with the documented behaviour; files are regular files of one process.  Wrappers that
      only call it, and the Windows code, are left out.
    - Operations of eq_alloc run under their locks and are one step; headers of slabs and blocks
      are records beside the bytes they describe.
    - Exceptions: the library is built without them; [operator new] either succeeds or stops the
      process.
    - Strings and views for [char] only; the wider instances differ in the size of a character.
    - Templates, macros, type traits, logging, profiling, tests, and the sketches of the library
      in other languages. *)

From Stdlib Require Export ZArith Lia List Bool.
From stdpp Require Export base tactics list numbers.

#[global] Open Scope Z_scope.

(** ** Machine integers

    A [w]-bit unsigned integer is a [Z] in [[0, 2^w)]; every operation of the
    source that can leave that range is followed by [wrap w]. *)

Definition wrap (w z : Z) : Z := z mod 2 ^ w.

Abbreviation u8 := (wrap 8).
Abbreviation u16 := (wrap 16).
Abbreviation u32 := (wrap 32).
Abbreviation u64 := (wrap 64).

(** The value of the low [w] bits of [z] read as two's complement. *)
Definition swrap (w z : Z) : Z :=
  let r := wrap w z in if r <? 2 ^ (w - 1) then r else r - 2 ^ w.

Abbreviation i32 := (swrap 32).
Abbreviation i64 := (swrap 64).

Definition fits (w z : Z) : Prop := 0 <= z < 2 ^ w.

(** ** Integer lemmas *)

Lemma wrap_range w z : 0 <= w -> fits w (wrap w z).
Proof. intros. apply Z.mod_pos_bound. apply Z.pow_pos_nonneg; lia. Qed.

Lemma wrap_small w z : fits w z -> wrap w z = z.
Proof. apply Z.mod_small. Qed.

Lemma wrap_add_idemp w a b : wrap w (wrap w a + b) = wrap w (a + b).
Proof. apply Zplus_mod_idemp_l. Qed.

Lemma wrap_wrap w z : wrap w (wrap w z) = wrap w z.
Proof. apply Zmod_mod. Qed.

Lemma swrap_range w z : 0 < w -> - 2 ^ (w - 1) <= swrap w z < 2 ^ (w - 1).
Proof.
  intros Hw. unfold swrap.
  pose proof (wrap_range w z ltac:(lia)) as H. unfold fits in H.
  replace w with (w - 1 + 1) in H |- * at 2 by lia.
  assert (E : 2 ^ w = 2 * 2 ^ (w - 1)).
  { rewrite <- (Z.pow_succ_r 2 (w - 1)) by lia. f_equal. lia. }
  replace (w - 1 + 1) with w in * by lia.
  destruct (Z.ltb_spec (wrap w z) (2 ^ (w - 1))); lia.
Qed.

Lemma swrap_small w z :
  0 < w -> - 2 ^ (w - 1) <= z < 2 ^ (w - 1) -> swrap w z = z.
Proof.
  intros Hw Hz. unfold swrap, wrap.
  assert (E : 2 ^ w = 2 * 2 ^ (w - 1)).
  { rewrite <- (Z.pow_succ_r 2 (w - 1)) by lia. f_equal. lia. }
  destruct (Z_lt_ge_dec z 0).
  - rewrite <- (Z.mod_unique z (2 ^ w) (-1) (z + 2 ^ w)) by lia.
    destruct (Z.ltb_spec (z + 2 ^ w) (2 ^ (w - 1))); lia.
  - rewrite Z.mod_small by lia.
    destruct (Z.ltb_spec z (2 ^ (w - 1))); lia.
Qed.

Lemma pow2_pos n : 0 <= n -> 0 < 2 ^ n.
Proof. intros. apply Z.pow_pos_nonneg; lia. Qed.

Lemma pow_le_root a b n : 0 < n -> 0 <= b -> a ^ n <= b ^ n -> a <= b.
Proof.
  intros Hn Hb H. destruct (Z.le_gt_cases a b) as [|Hlt]; [done|]. exfalso.
  pose proof (Z.pow_lt_mono_l b a n ltac:(lia) ltac:(lia)). lia.
Qed.

(** [10^59] is just below [2^196] and [10^28] just above [2^93]: close enough to compare
    the powers of two and of ten the conversions meet without computing them. *)
Lemma pow10_le_pow2 k p : 0 <= p -> 0 <= k -> 196 * p <= 59 * k -> 10 ^ p <= 2 ^ k.
Proof.
  intros Hp Hk H. apply (pow_le_root _ _ 59); [lia|apply Z.pow_nonneg; lia|].
  rewrite <- !Z.pow_mul_r by lia. rewrite (Z.mul_comm p), Z.pow_mul_r by lia.
  transitivity ((2 ^ 196) ^ p).
  - apply Z.pow_le_mono_l. split; [apply Z.pow_nonneg; lia|]. apply Z.leb_le. vm_compute. reflexivity.
  - rewrite <- Z.pow_mul_r by lia. apply Z.pow_le_mono_r; lia.
Qed.

Lemma pow2_le_pow10 k p : 0 <= k -> 0 <= p -> 28 * k <= 93 * p -> 2 ^ k <= 10 ^ p.
Proof.
  intros Hk Hp H. apply (pow_le_root _ _ 28); [lia|apply Z.pow_nonneg; lia|].
  rewrite <- !Z.pow_mul_r by lia. rewrite (Z.mul_comm p), (Z.pow_mul_r 10) by lia.
  transitivity ((2 ^ 93) ^ p).
  - rewrite <- Z.pow_mul_r by lia. apply Z.pow_le_mono_r; lia.
  - apply Z.pow_le_mono_l. split; [apply Z.pow_nonneg; lia|]. apply Z.leb_le. vm_compute. reflexivity.
Qed.

Lemma pow5_le_pow2 k p : 0 <= p -> 0 <= k -> 7 * p <= 3 * k -> 5 ^ p <= 2 ^ k.
Proof.
  intros Hp Hk H. apply (pow_le_root _ _ 3); [lia|apply Z.pow_nonneg; lia|].
  rewrite <- !Z.pow_mul_r by lia. rewrite (Z.mul_comm p), Z.pow_mul_r by lia.
  transitivity ((2 ^ 7) ^ p).
  - apply Z.pow_le_mono_l. split; [apply Z.pow_nonneg; lia|]. apply Z.leb_le. vm_compute. reflexivity.
  - rewrite <- Z.pow_mul_r by lia. apply Z.pow_le_mono_r; lia.
Qed.

Lemma pow2_split n k : 0 <= k <= n -> 2 ^ n = 2 ^ k * 2 ^ (n - k).
Proof. intros. rewrite <- Z.pow_add_r by lia. by replace (k + (n - k)) with n by lia. Qed.

Lemma land_low_mask a k : 0 <= k -> Z.land a (2 ^ k - 1) = a mod 2 ^ k.
Proof.
  intros. rewrite <- Z.land_ones, Z.ones_equiv by lia.
  by replace (Z.pred (2 ^ k)) with (2 ^ k - 1) by lia.
Qed.

Lemma testbit_high b k i : 0 <= k <= i -> 0 <= b < 2 ^ k -> Z.testbit b i = false.
Proof.
  intros Hk Hb. rewrite <- (Z.mod_small b (2 ^ k)) by done.
  apply Z.mod_pow2_bits_high. lia.
Qed.

Lemma bits_fits w z : 0 <= w -> (forall i, w <= i -> Z.testbit z i = false) -> fits w z.
Proof.
  intros Hw H. assert (E : z = wrap w z); [|rewrite E; by apply wrap_range].
  apply Z.bits_inj'. intros i Hi. unfold wrap. destruct (Z_lt_ge_dec i w).
  - by rewrite Z.mod_pow2_bits_low by lia.
  - rewrite Z.mod_pow2_bits_high, H by lia. done.
Qed.

Lemma land_fits w a b : 0 <= w -> fits w a -> fits w (Z.land a b).
Proof.
  intros Hw Ha. apply bits_fits; [done|]. intros i Hi. by rewrite Z.land_spec, (testbit_high a w) by (done || lia).
Qed.

Lemma lor_fits w a b : 0 <= w -> fits w a -> fits w b -> fits w (Z.lor a b).
Proof.
  intros Hw Ha Hb. apply bits_fits; [done|]. intros i Hi.
  by rewrite Z.lor_spec, (testbit_high a w), (testbit_high b w) by (done || lia).
Qed.

Lemma lxor_fits w a b : 0 <= w -> fits w a -> fits w b -> fits w (Z.lxor a b).
Proof.
  intros Hw Ha Hb. apply bits_fits; [done|]. intros i Hi.
  by rewrite Z.lxor_spec, (testbit_high a w), (testbit_high b w) by (done || lia).
Qed.

Lemma lor_disjoint_add a b k :
  0 <= k -> 0 <= b < 2 ^ k -> Z.lor (Z.shiftl a k) b = a * 2 ^ k + b.
Proof.
  intros Hk Hb. rewrite <- Z.shiftl_mul_pow2 by lia.
  assert (D : Z.land (Z.shiftl a k) b = 0).
  { apply Z.bits_inj'. intros i Hi. rewrite Z.land_spec, Z.bits_0.
    destruct (Z_lt_ge_dec i k).
    - by rewrite Z.shiftl_spec_low.
    - rewrite (testbit_high b k i) by lia. apply andb_false_r. }
  rewrite Z.add_nocarry_lxor by done. symmetry. by apply Z.lxor_lor.
Qed.

(** The same with the summands the other way round: low part first. *)
Lemma lor_low_high a b k :
  0 <= k -> 0 <= b < 2 ^ k -> Z.lor b (Z.shiftl a k) = b + 2 ^ k * a.
Proof. intros. rewrite Z.lor_comm, lor_disjoint_add by done. lia. Qed.

(** Clearing the low bits with a mask of the high ones. *)
Lemma land_high_mask w k c :
  0 <= k <= w -> 0 <= c < 2 ^ w -> Z.land c (2 ^ w - 2 ^ k) = c / 2 ^ k * 2 ^ k.
Proof.
  intros Hk Hc. rewrite <- Z.shiftr_div_pow2, <- Z.shiftl_mul_pow2 by lia.
  replace (2 ^ w - 2 ^ k) with (Z.shiftl (Z.ones (w - k)) k).
  2: { rewrite Z.shiftl_mul_pow2, Z.ones_equiv by lia. rewrite (pow2_split w k) by lia. lia. }
  apply Z.bits_inj'. intros i Hi. rewrite Z.land_spec, !Z.shiftl_spec by lia.
  destruct (Z_lt_ge_dec i k); [rewrite !(Z.testbit_neg_r _ (i - k)) by lia; apply andb_false_r|].
  rewrite Z.shiftr_spec by lia. replace (i - k + k) with i by lia.
  destruct (Z_lt_ge_dec i w); [rewrite Z.ones_spec_low by lia; apply andb_true_r|].
  by rewrite (testbit_high c w i) by lia.
Qed.

(** A property of all small integers, by evaluation. *)
Lemma range_check (n : nat) (P : Z -> bool) :
  forallb P (map Z.of_nat (seq 0 n)) = true -> forall z, 0 <= z < Z.of_nat n -> P z = true.
Proof.
  intros H z Hz. rewrite forallb_forall in H. apply H. apply in_map_iff.
  exists (Z.to_nat z). split; [lia|]. apply in_seq. lia.
Qed.

Lemma range_check2 (n m : nat) (P : Z -> Z -> bool) :
  forallb (fun a => forallb (P a) (map Z.of_nat (seq 0 m))) (map Z.of_nat (seq 0 n)) = true ->
  forall a b, 0 <= a < Z.of_nat n -> 0 <= b < Z.of_nat m -> P a b = true.
Proof.
  intros H a b Ha Hb. apply (range_check m (P a)); [|done].
  apply (range_check n (fun a => forallb (P a) (map Z.of_nat (seq 0 m)))); done.
Qed.

Lemma shiftr_div z k : 0 <= k -> Z.shiftr z k = z / 2 ^ k.
Proof. intros. by apply Z.shiftr_div_pow2. Qed.

Lemma div_pow2_add z a b : 0 <= a -> 0 <= b -> z / 2 ^ (a + b) = z / 2 ^ a / 2 ^ b.
Proof.
  intros. pose proof (pow2_pos a ltac:(lia)). pose proof (pow2_pos b ltac:(lia)).
  rewrite Z.pow_add_r, Z.div_div by lia. done.
Qed.

Lemma testbit_div z i : 0 <= i -> Z.testbit z i = Z.testbit (z / 2 ^ i) 0.
Proof. intros. by rewrite Z.div_pow2_bits, Z.add_0_l by lia. Qed.

Lemma div_small_iff a b : 0 < b -> 0 <= a -> a / b = 0 <-> a < b.
Proof. intros. rewrite Z.div_small_iff by lia. lia. Qed.

Lemma div_mul_mod a b q r : 0 < b -> 0 <= r < b -> a = b * q + r -> a / b = q /\ a mod b = r.
Proof.
  intros Hb Hr ->. rewrite (Z.mul_comm b q).
  rewrite Z.div_add_l, Z.div_small, (Z.add_comm _ r), Z_mod_plus_full, Z.mod_small by lia. lia.
Qed.

(** Dividing by [b] and then by [c] leaves a remainder exactly when dividing by
    [b * c] does: chunked division loses nothing. *)
Lemma div_div_exact a b c :
  0 < b -> 0 < c ->
  (a mod b = 0 /\ (a / b) mod c = 0) <-> a mod (b * c) = 0.
Proof.
  intros Hb Hc. rewrite (Z.rem_mul_r a b c) by lia.
  pose proof (Z.mod_pos_bound a b Hb). pose proof (Z.mod_pos_bound (a / b) c Hc). nia.
Qed.

(** ** Booleans and case analysis *)

Lemma bool_eq_iff (a b : bool) : (a = true <-> b = true) -> a = b.
Proof. destruct a, b; intuition congruence. Qed.

(** Turns the boolean comparisons of the context and goal into propositions. *)
Ltac bprop :=
  repeat match goal with
  | H : _ && _ = true |- _ => apply andb_true_iff in H as [? ?]
  | H : _ || _ = false |- _ => apply orb_false_iff in H as [? ?]
  | H : negb _ = true |- _ => apply negb_true_iff in H
  | H : negb _ = false |- _ => apply negb_false_iff in H
  | H : (_ <? _) = true |- _ => apply Z.ltb_lt in H
  | H : (_ <? _) = false |- _ => apply Z.ltb_ge in H
  | H : (_ <=? _) = true |- _ => apply Z.leb_le in H
  | H : (_ <=? _) = false |- _ => apply Z.leb_gt in H
  | H : (_ =? _) = true |- _ => apply Z.eqb_eq in H
  | H : (_ =? _) = false |- _ => apply Z.eqb_neq in H
  end.

(** Case analysis on the innermost condition of a source-level [if]. *)
Ltac case_if :=
  match goal with
  | |- context [if ?b then _ else _] =>
      lazymatch b with context [if _ then _ else _] => fail | _ => idtac end;
      let E := fresh "E" in destruct b eqn:E; bprop
  end.

Ltac case_if_in H :=
  match type of H with
  | context [if ?b then _ else _] =>
      lazymatch b with context [if _ then _ else _] => fail | _ => idtac end;
      let E := fresh "E" in destruct b eqn:E; bprop
  end.

(** Evaluates the powers of two of the machine widths, so that [lia] sees literals. *)
Ltac pow_lit :=
  change (2 ^ 8) with 256 in *; change (2 ^ 16) with 65536 in *;
  change (2 ^ 31) with 2147483648 in *; change (2 ^ 32) with 4294967296 in *;
  change (2 ^ 52) with 4503599627370496 in *; change (2 ^ 53) with 9007199254740992 in *;
  change (2 ^ 63) with 9223372036854775808 in *; change (2 ^ 64) with 18446744073709551616 in *.

(** [lia] with quotients and remainders by literals. *)
Ltac dlia := pow_lit; Z.to_euclidean_division_equations; lia.

(** ** Text

    A [const char*] argument is the list of the character codes before the
    terminating zero; [deref] reads the character under the cursor (zero at
    the end of the text, where C reads the terminator). *)

Definition deref (p : list Z) : Z := List.hd 0 p.
Definition deref_at (p : list Z) (i : nat) : Z := List.nth i p 0.

(** ** Numbers as digit lists *)

(** Little-endian value of a digit list in base [b]. *)
Fixpoint lval (b : Z) (l : list Z) : Z :=
  match l with [] => 0 | d :: l => d + b * lval b l end.

(** Big-endian value: what reading the digits left to right accumulates. *)
Definition bval (b : Z) (l : list Z) : Z := fold_left (fun v d => v * b + d) l 0.

Lemma lval_app b l1 l2 : lval b (l1 ++ l2) = lval b l1 + b ^ Z.of_nat (length l1) * lval b l2.
Proof.
  induction l1 as [|d l1 IH]; cbn [lval app length]; [lia|].
  rewrite IH, Nat2Z.inj_succ, Z.pow_succ_r by lia. ring.
Qed.

Lemma lval_bound b l :
  0 < b -> Forall (fun d => 0 <= d < b) l -> 0 <= lval b l < b ^ Z.of_nat (length l).
Proof.
  intros Hb. induction 1 as [|d l Hd _ IH]; cbn [lval length]; [lia|].
  rewrite Nat2Z.inj_succ, Z.pow_succ_r by lia. nia.
Qed.

Lemma lval_zeros b n : lval b (replicate n 0) = 0.
Proof. induction n; cbn [replicate lval]; lia. Qed.

Lemma bval_acc b l v :
  fold_left (fun v d => v * b + d) l v = v * b ^ Z.of_nat (length l) + bval b l.
Proof.
  unfold bval. revert v. induction l as [|d l IH]; intros v; cbn [fold_left length]; [lia|].
  rewrite IH, (IH (0 * b + d)), Nat2Z.inj_succ, Z.pow_succ_r by lia. ring.
Qed.

Lemma bval_cons b d l : bval b (d :: l) = d * b ^ Z.of_nat (length l) + bval b l.
Proof. unfold bval at 1. cbn [fold_left]. rewrite bval_acc. lia. Qed.

Lemma bval_app b l1 l2 : bval b (l1 ++ l2) = bval b l1 * b ^ Z.of_nat (length l2) + bval b l2.
Proof. unfold bval at 1. rewrite fold_left_app, bval_acc. done. Qed.

Lemma bval_snoc b l d : bval b (l ++ [d]) = bval b l * b + d.
Proof. rewrite bval_app, bval_cons. cbn. lia. Qed.

Lemma bval_rev b l : bval b (rev l) = lval b l.
Proof.
  induction l as [|d l IH]; cbn [rev lval]; [done|].
  rewrite bval_snoc, IH. lia.
Qed.

Lemma bval_bound b l :
  0 < b -> Forall (fun d => 0 <= d < b) l -> 0 <= bval b l < b ^ Z.of_nat (length l).
Proof.
  intros Hb Hl. rewrite <- (rev_involutive l), bval_rev, length_rev.
  apply lval_bound; [done|]. by apply Forall_rev.
Qed.

(** ** Hints *)

Create HintDb eqi discriminated.
Create Rewrite HintDb eqi_len.
#[export] Hint Resolve pow2_pos wrap_range : eqi.
#[export] Hint Rewrite @length_app @length_replicate @length_rev @length_map @length_take @length_drop : eqi_len.
