(* ===== verification/Bignum.v ===== *)
(** * [src/base/strings/decimal_bignum.h]: the fixed-capacity big integer

    [BigUInt] keeps [used_] 32-bit limbs of an array of [kMaxLimbs], least
    significant first.  The model keeps the limbs in use, [limb_[0..used_)], as a
    list: every read of the source is below [used_], and every step that raises
    [used_] stores the limbs it uncovers, so limbs above [used_] are never seen.
    [val] is the number the limbs stand for; the theorems say that every
    operation acts on [val] as its name promises, up to the capacity. *)

From S2P Require Import Prelude.

Definition kLimbBits : Z := 32.
Definition kMaxLimbs : nat := 224.

Abbreviation BigUInt := (list Z).

Definition used_ (n : BigUInt) : Z := Z.of_nat (length n).

(** ** Operations *)

Fixpoint SetU64_loop (fuel : nat) (value : Z) : BigUInt :=
  match fuel with
  | O => []
  | S fuel => if value =? 0 then []
              else Z.land value 0xFFFFFFFF :: SetU64_loop fuel (Z.shiftr value 32)
  end.

(** Two rounds empty any 64-bit value. *)
Definition SetU64 (value : Z) : BigUInt := SetU64_loop 2 value.

Definition IsZero (n : BigUInt) : bool := used_ n =? 0.

Fixpoint mul_add_loop (l : BigUInt) (multiplier carry : Z) : BigUInt * Z :=
  match l with
  | [] => ([], carry)
  | x :: l =>
      let product := u64 (x * multiplier + carry) in
      let '(r, c) := mul_add_loop l multiplier (Z.shiftr product 32) in
      (Z.land product 0xFFFFFFFF :: r, c)
  end.

Fixpoint push_carry (fuel : nat) (l : BigUInt) (carry : Z) : BigUInt :=
  match fuel with
  | O => l
  | S fuel =>
      if negb (carry =? 0) && (length l <? kMaxLimbs)%nat
      then push_carry fuel (l ++ [Z.land carry 0xFFFFFFFF]) (Z.shiftr carry 32)
      else l
  end.

Definition MulAddSmall (n : BigUInt) (multiplier addend : Z) : BigUInt :=
  let '(l, carry) := mul_add_loop n multiplier addend in push_carry 2 l carry.

Definition MulSmall (n : BigUInt) (multiplier : Z) : BigUInt := MulAddSmall n multiplier 0.

Fixpoint shift_part (l : BigUInt) (part carry : Z) : BigUInt * Z :=
  match l with
  | [] => ([], carry)
  | x :: l =>
      let next := Z.shiftr x (kLimbBits - part) in
      let '(r, c) := shift_part l part next in
      (Z.lor (u32 (Z.shiftl x part)) carry :: r, c)
  end.

(** The sub-limb part of the shift, with the carry stored when there is room. *)
Definition shift_bits (n : BigUInt) (part : Z) : BigUInt :=
  let '(l, carry) := shift_part n part 0 in
  if negb (carry =? 0) && (length l <? kMaxLimbs)%nat then l ++ [carry] else l.

(** The whole-limb move copies upwards only below [kMaxLimbs], zeroes the
    vacated limbs and clamps [used_]. *)
Definition shift_whole (l : BigUInt) (whole : nat) : BigUInt :=
  take kMaxLimbs (replicate whole 0 ++ l).

Definition ShiftLeft (n : BigUInt) (bits : Z) : BigUInt :=
  if IsZero n || (bits <=? 0) then n
  else
    let whole := bits / kLimbBits in
    let part := bits mod kLimbBits in
    let n := if negb (part =? 0) then shift_bits n part else n in
    if negb (whole =? 0) then shift_whole n (Z.to_nat whole) else n.

Fixpoint Trim (l : BigUInt) : BigUInt :=
  match l with
  | [] => []
  | x :: l => match Trim l with
              | [] => if x =? 0 then [] else [x]
              | t => x :: t
              end
  end.

(** The loop runs from the top limb down, so the remainder comes out of the tail. *)
Fixpoint div_loop (l : BigUInt) (divisor : Z) : BigUInt * Z :=
  match l with
  | [] => ([], 0)
  | x :: l =>
      let '(q, remainder) := div_loop l divisor in
      let current := Z.lor (u64 (Z.shiftl remainder 32)) x in
      (u32 (current / divisor) :: q, current mod divisor)
  end.

(** The quotient left in place, and the returned remainder. *)
Definition DivModSmall (n : BigUInt) (divisor : Z) : BigUInt * Z :=
  let '(q, remainder) := div_loop n divisor in (Trim q, u32 remainder).

Fixpoint count_bits (fuel : nat) (v : Z) : Z :=
  match fuel with
  | O => 0
  | S fuel => if v =? 0 then 0 else 1 + count_bits fuel (Z.shiftr v 1)
  end.

Definition BitLength (n : BigUInt) : Z :=
  if used_ n =? 0 then 0
  else (used_ n - 1) * kLimbBits + count_bits 32 (List.last n 0).

Definition BitAt (n : BigUInt) (index : Z) : bool :=
  if (index <? 0) || (index >=? used_ n * kLimbBits) then false
  else Z.land (Z.shiftr (List.nth (Z.to_nat (index / kLimbBits)) n 0) (index mod kLimbBits)) 1 =? 1.

Fixpoint any_bit (n : BigUInt) (count : nat) (i : Z) : bool :=
  match count with
  | O => false
  | S count => if BitAt n i then true else any_bit n count (i + 1)
  end.

Definition AnyBitBelow (n : BigUInt) (index : Z) : bool :=
  if index <=? 0 then false
  else
    let limit := if index <? used_ n * kLimbBits then index else used_ n * kLimbBits in
    any_bit n (Z.to_nat limit) 0.

(** [count] rounds of [value = (value << 1) | bit] from bit [i] downwards. *)
Fixpoint high_bits_loop (n : BigUInt) (count : nat) (i value : Z) : Z :=
  match count with
  | O => value
  | S count =>
      high_bits_loop n count (i - 1)
        (Z.lor (u64 (Z.shiftl value 1)) (if BitAt n i then 1 else 0))
  end.

(** The value and [dropped_nonzero].  The loop runs while [i >= 0] and
    [i >= lowest], which is [min count length] rounds. *)
Definition HighBits (n : BigUInt) (count : Z) : Z * bool :=
  let length := BitLength n in
  let lowest := length - count in
  (high_bits_loop n (Z.to_nat (Z.min count length)) (length - 1) 0,
   any_bit n (Z.to_nat lowest) 0).

(** ** The number the limbs stand for *)

Abbreviation val := (lval (2 ^ 32)).

Definition limbs_ok (n : BigUInt) : Prop := Forall (fits 32) n.

(** No leading zero limb: what makes [IsZero] and [BitLength] meaningful. *)
Definition normal (n : BigUInt) : Prop := List.last n 1 <> 0.

Record big_ok (n : BigUInt) : Prop := {
  ok_limbs : limbs_ok n;
  ok_len : (length n <= kMaxLimbs)%nat;
  ok_normal : normal n
}.

Definition capacity : Z := 2 ^ (32 * Z.of_nat kMaxLimbs).

(** ** Limb lists as numbers *)

Lemma val_bound n : limbs_ok n -> 0 <= val n < 2 ^ (32 * used_ n).
Proof.
  intros H. rewrite Z.pow_mul_r by (unfold used_; lia).
  apply lval_bound; [lia|exact H].
Qed.

Lemma val_cons x l : val (x :: l) = x + 2 ^ 32 * val l.
Proof. done. Qed.

Lemma used_cons x l : used_ (x :: l) = used_ l + 1.
Proof. unfold used_. cbn [length]. lia. Qed.

Lemma used_snoc l x : used_ (l ++ [x]) = used_ l + 1.
Proof. unfold used_. rewrite length_app. cbn [length]. lia. Qed.

Lemma used_nonneg l : 0 <= used_ l.
Proof. unfold used_. lia. Qed.

Lemma used_zero l : used_ l = 0 -> l = [].
Proof. unfold used_. destruct l; [done|]. cbn [length]. lia. Qed.

Lemma pow_used_cons x l : 2 ^ (32 * used_ (x :: l)) = 2 ^ 32 * 2 ^ (32 * used_ l).
Proof. rewrite used_cons, <- Z.pow_add_r by (pose proof (used_nonneg l); lia). f_equal. lia. Qed.

Lemma val_snoc l x : val (l ++ [x]) = val l + 2 ^ (32 * used_ l) * x.
Proof.
  rewrite lval_app. cbn [lval]. unfold used_. rewrite Z.pow_mul_r by lia. lia.
Qed.

Lemma limbs_snoc l x : limbs_ok l -> fits 32 x -> limbs_ok (l ++ [x]).
Proof. intros. apply Forall_app. split; [done|]. by constructor. Qed.

Lemma normal_snoc l x : x <> 0 -> normal (l ++ [x]).
Proof. unfold normal. by rewrite last_last. Qed.

(** The top limb is nonzero exactly when the value needs all of them. *)
Lemma normal_iff n : limbs_ok n -> normal n <-> (n = [] \/ 2 ^ (32 * (used_ n - 1)) <= val n).
Proof.
  intros H. induction n as [|x l _] using rev_ind.
  - split; [by left|]. intros _. unfold normal. cbn. lia.
  - apply Forall_app in H as [Hl Hx]. apply Forall_cons_1 in Hx as [Hx _].
    unfold normal. rewrite last_last, val_snoc, used_snoc.
    replace (32 * (used_ l + 1 - 1)) with (32 * used_ l) by lia.
    pose proof (val_bound l Hl). pose proof (pow2_pos (32 * used_ l) ltac:(pose proof (used_nonneg l); lia)).
    unfold fits in Hx. split.
    + intros ?. right. nia.
    + intros [E|?]; [destruct l; discriminate|]. intros ->. lia.
Qed.

Lemma capacity_used l : (length l <= kMaxLimbs)%nat -> 2 ^ (32 * used_ l) <= capacity.
Proof. intros. apply Z.pow_le_mono_r; unfold used_; lia. Qed.

(** ** Multiply and add *)

Lemma product_fits x m c :
  fits 32 x -> fits 32 m -> fits 32 c ->
  let p := x * m + c in u64 p = p /\ fits 32 (Z.shiftr p 32) /\
  fits 32 (Z.land p 0xFFFFFFFF) /\ p = Z.land p 0xFFFFFFFF + 2 ^ 32 * Z.shiftr p 32.
Proof.
  intros Hx Hm Hc p. unfold fits in *. assert (0 <= p < 2 ^ 64) by (unfold p; nia).
  change 0xFFFFFFFF with (2 ^ 32 - 1). rewrite land_low_mask, shiftr_div by lia.
  split; [by apply wrap_small|]. clearbody p. dlia.
Qed.

Lemma mul_add_loop_spec l m c :
  limbs_ok l -> fits 32 m -> fits 32 c ->
  forall r c', mul_add_loop l m c = (r, c') ->
  length r = length l /\ limbs_ok r /\ fits 32 c' /\
  val r + 2 ^ (32 * used_ l) * c' = val l * m + c.
Proof.
  intros Hl Hm. revert c. induction Hl as [|x l Hx Hl IH]; intros c Hc r c'; cbn [mul_add_loop].
  - intros [= <- <-]. change (2 ^ (32 * used_ [])) with 1. cbn [lval length].
    repeat split; [constructor|apply Hc..|lia].
  - destruct (product_fits x m c Hx Hm Hc) as (-> & Hs & Hlo & E).
    destruct (mul_add_loop l m _) as [r0 c0] eqn:L. intros [= <- <-].
    destruct (IH _ Hs _ _ L) as (Hlen & Hok & Hc0 & Hv).
    split; [cbn [length]; by rewrite Hlen|]. split; [by constructor|]. split; [done|].
    rewrite pow_used_cons, !val_cons. lia.
Qed.

Lemma push_carry_eq l c :
  fits 32 c ->
  push_carry 2 l c =
  if negb (c =? 0) && (length l <? kMaxLimbs)%nat then l ++ [c] else l.
Proof.
  intros Hc. cbn [push_carry].
  replace (Z.land c 0xFFFFFFFF) with c
    by (change 0xFFFFFFFF with (2 ^ 32 - 1); rewrite land_low_mask by lia; symmetry; by apply Z.mod_small).
  replace (Z.shiftr c 32) with 0 by (rewrite shiftr_div by lia; symmetry; by apply Z.div_small).
  by destruct (_ && _).
Qed.

(** What [MulAddSmall] computes for every operand: the product modulo the
    capacity, the carry out of the last limb being dropped. *)
Lemma MulAddSmall_mod n m a :
  limbs_ok n -> (length n <= kMaxLimbs)%nat -> fits 32 m -> fits 32 a ->
  limbs_ok (MulAddSmall n m a) /\ (length (MulAddSmall n m a) <= kMaxLimbs)%nat /\
  val (MulAddSmall n m a) = (val n * m + a) mod capacity.
Proof.
  intros Hn Hlen Hm Ha. unfold MulAddSmall.
  destruct (mul_add_loop n m a) as [l c] eqn:E.
  destruct (mul_add_loop_spec _ _ _ Hn Hm Ha _ _ E) as (Hl & Hok & Hc & Hv).
  rewrite push_carry_eq by done.
  pose proof (val_bound l Hok) as Hb. assert (Hu : used_ l = used_ n) by (unfold used_; lia).
  destruct (_ && _) eqn:B.
  - bprop. apply Nat.ltb_lt in H0. assert (Hs : limbs_ok (l ++ [c])) by by apply limbs_snoc.
    split; [done|]. assert (Hll : (length (l ++ [c]) <= kMaxLimbs)%nat).
    { rewrite length_app. cbn [length]. lia. }
    split; [done|]. rewrite <- Hv, <- Hu, <- val_snoc, Z.mod_small; [done|].
    pose proof (val_bound _ Hs). pose proof (capacity_used _ Hll). lia.
  - split; [done|]. split; [lia|]. rewrite <- Hv, <- Hu.
    apply andb_false_iff in B as [B|B]; bprop.
    + subst c. rewrite Z.mul_0_r, Z.add_0_r, Z.mod_small; [done|].
      pose proof (capacity_used l ltac:(lia)). lia.
    + apply Nat.ltb_ge in B. assert (E' : 2 ^ (32 * used_ l) = capacity).
      { unfold capacity, used_. repeat f_equal. lia. }
      rewrite E' in *. rewrite (Z.mul_comm capacity), Z_mod_plus_full, Z.mod_small; lia.
Qed.

(** ** Refinement: a bignum represents a number

    [represents n v] is the contract the parser and the formatter use: [n] is a
    well-formed, trimmed bignum whose value is [v]. *)

Definition represents (n : BigUInt) (v : Z) : Prop := big_ok n /\ val n = v.

Lemma represents_bound n v : represents n v -> 0 <= v < capacity.
Proof.
  intros [[Hl Hlen Hn] <-].
  pose proof (val_bound n Hl). pose proof (capacity_used n Hlen). lia.
Qed.

Lemma represents_nil : represents [] 0.
Proof. split; [|done]. split; [constructor|unfold kMaxLimbs; cbn; lia|]. unfold normal. cbn. lia. Qed.

Lemma represents_zero n v : represents n v -> v = 0 <-> n = [].
Proof.
  intros [[Hl Hlen Hn] <-]. split; [|by intros ->].
  intros E. apply normal_iff in Hn as [Hn|Hn]; [done| |done].
  destruct n as [|x n]; [done|]. rewrite used_cons in Hn.
  pose proof (pow2_pos (32 * (used_ n + 1 - 1)) ltac:(pose proof (used_nonneg n); lia)). lia.
Qed.

Lemma represents_IsZero n v : represents n v -> IsZero n = (v =? 0).
Proof.
  intros H. apply bool_eq_iff. unfold IsZero. rewrite !Z.eqb_eq, (represents_zero n v H).
  split; [apply used_zero|]. by intros ->.
Qed.

Lemma represents_intro n v :
  limbs_ok n -> (length n <= kMaxLimbs)%nat -> val n = v ->
  (n = [] \/ 2 ^ (32 * (used_ n - 1)) <= v) -> represents n v.
Proof. intros Hl Hlen <- Hn. split; [|done]. split; [done..|]. by apply normal_iff. Qed.

(** The product has at least as many limbs as the operand when it does not vanish. *)
Lemma represents_grow n v w r :
  represents n v -> v <= w -> limbs_ok r -> (length r <= kMaxLimbs)%nat -> val r = w ->
  (used_ r = used_ n \/ normal r) -> represents r w.
Proof.
  intros [[Hl Hlen Hn] <-] Hw Hr Hrl Hv [Hu|Hu].
  - apply represents_intro; [done..|]. apply normal_iff in Hn as [->|Hn]; [left| |done].
    + apply used_zero. exact Hu.
    + right. rewrite Hu. lia.
  - split; [|done]. by split.
Qed.

Lemma MulAddSmall_represents n v m a :
  represents n v -> 0 < m < 2 ^ 32 -> fits 32 a -> v * m + a < capacity ->
  represents (MulAddSmall n m a) (v * m + a).
Proof.
  intros H Hm Ha Hcap. pose proof (represents_bound n v H). pose proof H as [[Hl Hlen _] Hv].
  assert (Hm' : fits 32 m) by (unfold fits; lia).
  destruct (MulAddSmall_mod n m a Hl Hlen Hm' Ha) as (Hr & Hrl & Hrv).
  unfold fits in Ha. rewrite Hv, Z.mod_small in Hrv by nia.
  eapply represents_grow; [exact H|nia|done..|].
  unfold MulAddSmall in *. destruct (mul_add_loop n m a) as [l c] eqn:E.
  destruct (mul_add_loop_spec _ _ _ Hl Hm' Ha _ _ E) as (Hll & _ & Hc & _).
  rewrite push_carry_eq in * by done. destruct (_ && _) eqn:B; bprop.
  - right. by apply normal_snoc.
  - left. unfold used_. lia.
Qed.

Lemma MulSmall_represents n v m :
  represents n v -> 0 < m < 2 ^ 32 -> v * m < capacity -> represents (MulSmall n m) (v * m).
Proof.
  intros H Hm Hc. unfold MulSmall. rewrite <- (Z.add_0_r (v * m)).
  apply MulAddSmall_represents; [done..|unfold fits; lia|lia].
Qed.

Lemma SetU64_represents v : fits 64 v -> represents (SetU64 v) v.
Proof.
  unfold fits, SetU64. intros Hv. cbn [SetU64_loop].
  change 0xFFFFFFFF with (2 ^ 32 - 1). rewrite !land_low_mask, !shiftr_div by lia.
  repeat case_if; subst; try by apply represents_nil.
  - apply represents_intro; [repeat constructor; dlia|unfold kMaxLimbs; cbn; lia| |].
    + cbn [lval]. dlia.
    + right. change (2 ^ (32 * _)) with 1. lia.
  - apply represents_intro; [repeat constructor; dlia|unfold kMaxLimbs; cbn; lia| |].
    + cbn [lval]. dlia.
    + right. change (2 ^ (32 * _)) with (2 ^ 32). dlia.
Qed.

(** ** Shifting left *)

Lemma shift_limb x part c :
  fits 32 x -> 0 < part < 32 -> fits part c ->
  let r := Z.lor (u32 (Z.shiftl x part)) c in
  let next := Z.shiftr x (kLimbBits - part) in
  fits 32 r /\ fits part next /\ r + 2 ^ 32 * next = x * 2 ^ part + c.
Proof.
  intros Hx Hp Hc r next. unfold fits in *.
  assert (E : u32 (Z.shiftl x part) = Z.shiftl (x mod 2 ^ (32 - part)) part).
  { rewrite !Z.shiftl_mul_pow2 by lia. unfold wrap.
    rewrite (pow2_split 32 part), (Z.mul_comm (2 ^ part)) by lia.
    apply Zmult_mod_distr_r. }
  assert (R : r = x mod 2 ^ (32 - part) * 2 ^ part + c).
  { unfold r. rewrite E, lor_disjoint_add by lia. done. }
  pose proof (pow2_split 32 part ltac:(lia)) as P.
  pose proof (pow2_pos (32 - part) ltac:(lia)). pose proof (pow2_pos part ltac:(lia)).
  pose proof (Z.mod_pos_bound x (2 ^ (32 - part)) ltac:(lia)).
  assert (N : next = x / 2 ^ (32 - part)) by (unfold next, kLimbBits; apply shiftr_div; lia).
  pose proof (Z.div_mod x (2 ^ (32 - part)) ltac:(lia)) as D. rewrite <- N in D.
  split; [nia|]. split; [|rewrite R; nia].
  rewrite N. split; [apply Z.div_pos; lia|]. apply Z.div_lt_upper_bound; lia.
Qed.

Lemma shift_part_spec l part c :
  limbs_ok l -> 0 < part < 32 -> fits part c ->
  forall r c', shift_part l part c = (r, c') ->
  length r = length l /\ limbs_ok r /\ fits part c' /\
  val r + 2 ^ (32 * used_ l) * c' = val l * 2 ^ part + c.
Proof.
  intros Hl Hp. revert c. induction Hl as [|x l Hx Hl IH]; intros c Hc r c'; cbn [shift_part].
  - intros [= <- <-]. change (2 ^ (32 * used_ [])) with 1. cbn [lval].
    repeat split; [constructor|apply Hc..|lia].
  - destruct (shift_limb x part c Hx Hp Hc) as (Hlo & Hs & E).
    destruct (shift_part l part _) as [r0 c0] eqn:L. intros [= <- <-].
    destruct (IH _ Hs _ _ L) as (Hlen & Hok & Hc0 & Hv).
    split; [cbn [length]; by rewrite Hlen|]. split; [by constructor|]. split; [done|].
    rewrite pow_used_cons, !val_cons. lia.
Qed.

Lemma replicate_limbs k : limbs_ok (replicate k 0).
Proof. apply Forall_replicate. unfold fits. lia. Qed.

(** A value below the capacity, in trimmed limbs, has a limb count within it. *)
Lemma fit_capacity l : limbs_ok l -> normal l -> val l < capacity -> (length l <= kMaxLimbs)%nat.
Proof.
  intros Hl Hn Hc. apply normal_iff in Hn as [->|Hn]; [cbn; unfold kMaxLimbs; lia| |done].
  assert (used_ l - 1 < 224); [|unfold used_ in *; unfold kMaxLimbs; lia].
  apply Z.nle_gt. intros Hge. enough (capacity <= val l) by lia.
  transitivity (2 ^ (32 * (used_ l - 1))); [|exact Hn]. apply Z.pow_le_mono_r; unfold kMaxLimbs; lia.
Qed.

Lemma shift_whole_represents n v whole :
  represents n v -> v * 2 ^ (32 * Z.of_nat whole) < capacity ->
  n <> [] -> represents (shift_whole n whole) (v * 2 ^ (32 * Z.of_nat whole)).
Proof.
  intros [[Hl Hlen Hn] <-] Hc Hne. unfold shift_whole.
  assert (Hr : limbs_ok (replicate whole 0 ++ n)) by (apply Forall_app; split; [apply replicate_limbs|done]).
  assert (Hv : val (replicate whole 0 ++ n) = val n * 2 ^ (32 * Z.of_nat whole)).
  { rewrite lval_app, lval_zeros, length_replicate, <- Z.pow_mul_r by lia. lia. }
  assert (Hnn : normal (replicate whole 0 ++ n)).
  { unfold normal in *. induction n as [|x n _] using rev_ind; [done|].
    rewrite app_assoc, last_last. by rewrite last_last in Hn. }
  rewrite take_ge by (apply fit_capacity; [done..|lia]).
  split; [|done]. split; [done| |done]. apply fit_capacity; [done..|lia].
Qed.

Lemma shift_bits_represents n v part :
  represents n v -> 0 < part < 32 -> v * 2 ^ part < capacity ->
  represents (shift_bits n part) (v * 2 ^ part).
Proof.
  intros H Hp Hcap. unfold shift_bits. destruct (shift_part n part 0) as [l c] eqn:L.
  pose proof (represents_bound n v H). pose proof (pow2_pos part ltac:(lia)).
  pose proof H as [[Hl Hlen _] Hvn].
  destruct (shift_part_spec n part 0 Hl Hp ltac:(split; lia) _ _ L) as (Hll & Hok & Hcc & Hlv).
  assert (Hu : used_ n = used_ l) by (unfold used_; lia). rewrite Hu in Hlv.
  assert (Hc32 : fits 32 c).
  { destruct Hcc. split; [done|]. eapply Z.lt_le_trans; [done|]. apply Z.pow_le_mono_r; lia. }
  destruct (Z.eqb_spec c 0) as [->|Hcn]; cbn [negb andb].
  { eapply represents_grow; [exact H|nia|done|lia|lia|by left]. }
  assert (Hs : limbs_ok (l ++ [c])) by by apply limbs_snoc.
  assert (Hsv : val (l ++ [c]) = v * 2 ^ part) by (rewrite val_snoc; lia).
  assert (Hsn : normal (l ++ [c])) by by apply normal_snoc.
  assert (Hsl := fit_capacity _ Hs Hsn ltac:(lia)).
  rewrite length_app in Hsl. cbn [length] in Hsl.
  destruct (Nat.ltb_spec (length l) kMaxLimbs); [|lia].
  split; [|done]. split; [done|rewrite length_app; cbn [length]; lia|done].
Qed.

Lemma ShiftLeft_represents n v bits :
  represents n v -> 0 <= bits -> v * 2 ^ bits < capacity ->
  represents (ShiftLeft n bits) (v * 2 ^ bits).
Proof.
  intros H Hb Hc. unfold ShiftLeft. pose proof (represents_bound n v H).
  rewrite (represents_IsZero n v H).
  destruct (Z.eqb_spec v 0) as [->|Hv0]; cbn [orb]; [done|].
  destruct (Z.leb_spec bits 0) as [?|Hbp].
  { replace bits with 0 by lia. by rewrite Z.mul_1_r. }
  change kLimbBits with 32.
  pose proof (Z.mod_pos_bound bits 32 ltac:(lia)) as Hp.
  pose proof (Z.div_pos bits 32 ltac:(lia) ltac:(lia)) as Hq.
  set (m := if negb (bits mod 32 =? 0) then _ else n).
  assert (E : 2 ^ bits = 2 ^ (bits mod 32) * 2 ^ (32 * (bits / 32))).
  { rewrite <- Z.pow_add_r by lia. f_equal. pose proof (Z.div_mod bits 32 ltac:(lia)). lia. }
  pose proof (pow2_pos (bits mod 32) ltac:(lia)). pose proof (pow2_pos (32 * (bits / 32)) ltac:(lia)).
  assert (Hm : represents m (v * 2 ^ (bits mod 32))).
  { subst m. destruct (Z.eqb_spec (bits mod 32) 0) as [->|Hpn]; cbn [negb].
    - by rewrite Z.mul_1_r.
    - apply shift_bits_represents; [done|lia|nia]. }
  destruct (Z.eqb_spec (bits / 32) 0) as [Hz|Hz]; cbn [negb].
  - rewrite E, Hz, Z.mul_1_r. exact Hm.
  - rewrite E, Z.mul_assoc. replace (bits / 32) with (Z.of_nat (Z.to_nat (bits / 32))) at 2 by lia.
    apply shift_whole_represents; [done|rewrite Z2Nat.id by lia; nia|].
    intros Hnil. apply (represents_zero _ _ Hm) in Hnil. nia.
Qed.

(** ** Division by a small number *)

Lemma Trim_val l : val (Trim l) = val l.
Proof.
  induction l as [|x l IH]; [done|]. cbn [Trim]. rewrite (val_cons x l), <- IH.
  destruct (Trim l); [|done]. case_if; cbn [lval]; lia.
Qed.

Lemma Trim_ok l : limbs_ok l -> limbs_ok (Trim l) /\ (length (Trim l) <= length l)%nat.
Proof.
  induction 1 as [|x l Hx Hl [IH1 IH2]]; [split; [constructor|done]|].
  cbn [Trim]. destruct (Trim l) as [|y t]; [case_if|]; cbn [length] in *;
    (split; [unfold limbs_ok in *; rewrite ?Forall_cons; auto|lia]).
Qed.

Lemma Trim_normal l : normal (Trim l).
Proof.
  induction l as [|x l IH]; [by unfold normal|]. cbn [Trim].
  destruct (Trim l) as [|y t] eqn:E; [case_if; unfold normal; cbn; lia|exact IH].
Qed.

Lemma div_loop_spec l d :
  limbs_ok l -> 0 < d < 2 ^ 32 ->
  forall q r, div_loop l d = (q, r) ->
  length q = length l /\ limbs_ok q /\ val q = val l / d /\ r = val l mod d.
Proof.
  intros Hl Hd. induction Hl as [|x l Hx Hl IH]; intros q r; cbn [div_loop].
  - intros [= <- <-]. cbn [lval]. rewrite Z.div_0_l, Z.mod_0_l by lia.
    split; [done|]. split; [constructor|done].
  - destruct (div_loop l d) as [q0 r0]. intros [= <- <-].
    destruct (IH q0 r0 eq_refl) as (Hlen & Hok & Hq & Hr).
    pose proof (Z.mod_pos_bound (val l) d ltac:(lia)) as Hrb. rewrite <- Hr in Hrb.
    pose proof (Z.div_mod (val l) d ltac:(lia)) as D. rewrite <- Hr, <- Hq in D.
    unfold fits in Hx.
    replace (u64 (Z.shiftl r0 32)) with (Z.shiftl r0 32)
      by (symmetry; apply wrap_small; unfold fits; rewrite Z.shiftl_mul_pow2 by lia; dlia).
    rewrite lor_disjoint_add by lia.
    set (cur := r0 * 2 ^ 32 + x).
    assert (Hcq : 0 <= cur / d < 2 ^ 32).
    { split; [apply Z.div_pos; lia|]. apply Z.div_lt_upper_bound; [lia|]. unfold cur. nia. }
    rewrite wrap_small by exact Hcq.
    pose proof (Z.mod_pos_bound cur d ltac:(lia)) as Hcm.
    pose proof (Z.div_mod cur d ltac:(lia)) as Dc.
    assert (E : val (x :: l) = d * (cur / d + 2 ^ 32 * val q0) + cur mod d)
      by (rewrite val_cons, D; transitivity (cur + 2 ^ 32 * (d * val q0));
          [unfold cur; ring|rewrite Dc at 1; ring]).
    destruct (div_mul_mod (val (x :: l)) d _ _ ltac:(lia) Hcm E) as [-> ->].
    split; [cbn [length]; by rewrite Hlen|]. split; [by constructor|]. done.
Qed.

Lemma DivModSmall_represents n v d :
  represents n v -> 0 < d < 2 ^ 32 ->
  represents (fst (DivModSmall n d)) (v / d) /\ snd (DivModSmall n d) = v mod d.
Proof.
  intros [[Hl Hlen Hn] <-] Hd. unfold DivModSmall.
  destruct (div_loop n d) as [q r] eqn:E.
  destruct (div_loop_spec n d Hl Hd _ _ E) as (Hql & Hok & Hq & ->). cbn [fst snd].
  destruct (Trim_ok q Hok) as [Ht1 Ht2]. split.
  - split; [|by rewrite Trim_val]. split; [done|lia|apply Trim_normal].
  - apply wrap_small. pose proof (Z.mod_pos_bound (val n) d ltac:(lia)). unfold fits. lia.
Qed.

(** ** Reading bits *)

Lemma count_bits_log2 fuel v :
  0 < v < 2 ^ Z.of_nat fuel -> count_bits fuel v = Z.log2 v + 1.
Proof.
  revert v. induction fuel as [|fuel IH]; intros v Hv; [cbn in Hv; lia|].
  rewrite Nat2Z.inj_succ, Z.pow_succ_r in Hv by lia. cbn [count_bits]. case_if; [lia|].
  rewrite shiftr_div by lia. change (2 ^ 1) with 2.
  destruct (Z_lt_ge_dec v 2).
  - replace v with 1 by lia. change (1 / 2) with 0. by destruct fuel.
  - rewrite IH by (split; [apply Z.div_str_pos; lia|apply Z.div_lt_upper_bound; lia]).
    replace (v / 2) with (Z.shiftr v 1) by by rewrite shiftr_div by lia.
    rewrite Z.log2_shiftr by lia.
    pose proof (Z.log2_le_mono 2 v ltac:(lia)) as L. change (Z.log2 2) with 1 in L. lia.
Qed.

Lemma BitLength_val n v :
  represents n v -> BitLength n = if v =? 0 then 0 else Z.log2 v + 1.
Proof.
  intros H. unfold BitLength.
  change (used_ n =? 0) with (IsZero n). rewrite (represents_IsZero n v H).
  destruct (Z.eqb_spec v 0) as [|Hv]; [done|]. pose proof (represents_bound _ _ H).
  destruct H as [[Hl Hlen Hn] Hval].
  induction n as [|x l _] using rev_ind; [cbn in Hval; lia|].
  apply Forall_app in Hl as [Hl Hx]. apply Forall_cons_1 in Hx as [Hx _].
  unfold normal in Hn. rewrite last_last in *. rewrite used_snoc. unfold fits in Hx.
  rewrite count_bits_log2 by (change (Z.of_nat 32) with 32; lia).
  rewrite val_snoc in Hval. pose proof (val_bound l Hl). pose proof (used_nonneg l).
  pose proof (pow2_pos (32 * used_ l) ltac:(lia)).
  rewrite (Z.log2_unique v (32 * used_ l + Z.log2 x)).
  - unfold kLimbBits. lia.
  - pose proof (Z.log2_nonneg x). lia.
  - pose proof (Z.log2_spec x ltac:(lia)) as [L1 L2].
    pose proof (Z.log2_nonneg x).
    rewrite <- Z.add_succ_r, !Z.pow_add_r by lia. split; nia.
Qed.

Lemma val_nth n k :
  limbs_ok n -> Z.of_nat k < used_ n ->
  List.nth k n 0 = (val n / 2 ^ (32 * Z.of_nat k)) mod 2 ^ 32.
Proof.
  intros H. revert k. induction H as [|x n Hx Hn IH]; intros k Hk; [unfold used_ in Hk; cbn in Hk; lia|].
  rewrite val_cons. destruct k as [|k]; cbn [List.nth].
  - change (2 ^ (32 * Z.of_nat 0)) with 1. rewrite Z.div_1_r, (Z.mul_comm (2 ^ 32)), Z_mod_plus_full.
    symmetry. by apply Z.mod_small.
  - rewrite used_cons in Hk. rewrite IH by lia. f_equal.
    replace (32 * Z.of_nat (S k)) with (32 + 32 * Z.of_nat k) by lia.
    rewrite div_pow2_add by lia. f_equal.
    unfold fits in Hx. dlia.
Qed.

Lemma BitAt_val n i : limbs_ok n -> BitAt n i = Z.testbit (val n) i.
Proof.
  intros H. unfold BitAt, kLimbBits. pose proof (val_bound n H) as Hb.
  destruct (Z.ltb_spec i 0); [by rewrite Z.testbit_neg_r|].
  rewrite Z.geb_leb. destruct (Z.leb_spec (used_ n * 32) i); cbn [orb].
  { symmetry. apply (testbit_high _ (32 * used_ n)); [pose proof (used_nonneg n)|]; lia. }
  pose proof (Z.mod_pos_bound i 32 ltac:(lia)). pose proof (Z.div_mod i 32 ltac:(lia)).
  rewrite val_nth by (try done; dlia).
  replace (Z.of_nat (Z.to_nat (i / 32))) with (i / 32) by (pose proof (Z.div_pos i 32); lia).
  assert (E : Z.land (Z.shiftr ((val n / 2 ^ (32 * (i / 32))) mod 2 ^ 32) (i mod 32)) 1
    = Z.b2z (Z.testbit (val n) i)).
  { change 1 with (Z.ones 1). rewrite Z.land_ones by lia. change (2 ^ 1) with 2.
    rewrite <- Z.bit0_mod, Z.shiftr_spec, Z.add_0_l, Z.mod_pow2_bits_low by lia.
    rewrite Z.div_pow2_bits by lia. f_equal. f_equal. lia. }
  rewrite E. by destruct (Z.testbit (val n) i).
Qed.

Lemma any_bit_val n count i :
  limbs_ok n -> 0 <= i ->
  any_bit n count i = negb ((val n / 2 ^ i) mod 2 ^ Z.of_nat count =? 0).
Proof.
  intros H. revert i. induction count as [|count IH]; intros i Hi; cbn [any_bit].
  - by rewrite Z.mod_1_r.
  - rewrite IH, BitAt_val by (done || lia).
    rewrite Nat2Z.inj_succ, Z.pow_succ_r, Z.rem_mul_r by lia.
    replace (val n / 2 ^ i / 2) with (val n / 2 ^ (i + 1)) by by rewrite div_pow2_add by lia.
    rewrite testbit_div, Z.bit0_odd, Zmod_odd by lia.
    pose proof (pow2_pos (Z.of_nat count) ltac:(lia)).
    pose proof (Z.mod_pos_bound (val n / 2 ^ (i + 1)) (2 ^ Z.of_nat count) ltac:(lia)).
    destruct (Z.odd _); [|f_equal; apply bool_eq_iff; rewrite !Z.eqb_eq; lia].
    symmetry. apply negb_true_iff, Z.eqb_neq. lia.
Qed.

(** Bits strictly below [index]: exactly the remainder modulo [2 ^ index]. *)
Lemma AnyBitBelow_val n index :
  limbs_ok n -> 0 <= index -> AnyBitBelow n index = negb (val n mod 2 ^ index =? 0).
Proof.
  intros H Hi. unfold AnyBitBelow, kLimbBits. pose proof (used_nonneg n).
  destruct (Z.leb_spec index 0).
  { replace index with 0 by lia. by rewrite Z.mod_1_r. }
  rewrite any_bit_val by (done || lia). rewrite Z.div_1_r.
  pose proof (val_bound n H) as Hb. destruct (Z.ltb_spec index (used_ n * 32)).
  - by rewrite Z2Nat.id by lia.
  - rewrite Z2Nat.id by lia. rewrite (Z.mul_comm (used_ n)).
    rewrite !Z.mod_small; [done| |lia]. split; [lia|].
    eapply Z.lt_le_trans; [apply Hb|]. apply Z.pow_le_mono_r; lia.
Qed.

Lemma high_bits_loop_val n count i value :
  limbs_ok n -> value = val n / 2 ^ (i + 1) -> 0 <= i + 1 - Z.of_nat count ->
  val n / 2 ^ (i + 1 - Z.of_nat count) < 2 ^ 64 ->
  high_bits_loop n count i value = val n / 2 ^ (i + 1 - Z.of_nat count).
Proof.
  intros H. revert i value. induction count as [|count IH]; intros i value Hv Hi Hb; cbn [high_bits_loop].
  - rewrite Hv. f_equal. f_equal. lia.
  - pose proof (val_bound n H) as [Hpos _].
    assert (Hstep : Z.lor (u64 (Z.shiftl value 1)) (if BitAt n i then 1 else 0) = val n / 2 ^ i).
    { rewrite BitAt_val by done.
      assert (D : val n / 2 ^ i = value * 2 + Z.b2z (Z.testbit (val n) i)).
      { rewrite Hv, div_pow2_add by lia. change (2 ^ 1) with 2.
        rewrite testbit_div, Z.bit0_mod by lia.
        pose proof (Z.div_mod (val n / 2 ^ i) 2 ltac:(lia)). lia. }
      assert (Hle : val n / 2 ^ i <= val n / 2 ^ (i + 1 - Z.of_nat (S count))).
      { apply Z.div_le_compat_l; [lia|]. split; [apply pow2_pos; lia|]. apply Z.pow_le_mono_r; lia. }
      assert (0 <= value) by (rewrite Hv; apply Z.div_pos; [lia|apply pow2_pos; lia]).
      rewrite wrap_small.
      - change (if Z.testbit (val n) i then 1 else 0) with (Z.b2z (Z.testbit (val n) i)).
        rewrite lor_disjoint_add, D by (destruct (Z.testbit (val n) i); cbn; lia). lia.
      - rewrite Z.shiftl_mul_pow2 by lia. unfold fits. destruct (Z.testbit (val n) i); cbn [Z.b2z] in D; lia. }
    rewrite Hstep. replace (i + 1 - Z.of_nat (S count)) with (i - 1 + 1 - Z.of_nat count) in * by lia.
    apply IH; [f_equal; f_equal; lia|lia|done].
Qed.

(** The top [count] bits, and whether a bit below them is set. *)
Lemma HighBits_val n v count :
  represents n v -> 0 <= count -> Z.min count (BitLength n) <= 64 ->
  let lowest := Z.max 0 (BitLength n - count) in
  HighBits n count = (v / 2 ^ lowest, negb (v mod 2 ^ lowest =? 0)).
Proof.
  intros H Hc Hm lowest. pose proof (represents_bound n v H) as Hb.
  pose proof (BitLength_val n v H) as HL. destruct H as [[Hl Hlen Hn] Hv].
  assert (Hlen' : 0 <= BitLength n /\ v < 2 ^ BitLength n).
  { rewrite HL. case_if; [lia|]. pose proof (Z.log2_nonneg v).
    pose proof (Z.log2_spec v ltac:(lia)). rewrite Z.add_1_r. lia. }
  unfold HighBits. f_equal.
  - rewrite (high_bits_loop_val n _ _ 0); rewrite ?Hv, ?Z2Nat.id by lia.
    + f_equal. f_equal. unfold lowest. lia.
    + done.
    + rewrite Z.sub_add. symmetry. apply Z.div_small. lia.
    + lia.
    + apply Z.div_lt_upper_bound; [apply pow2_pos; lia|].
      eapply Z.lt_le_trans; [apply Hlen'|]. rewrite <- Z.pow_add_r by lia. apply Z.pow_le_mono_r; lia.
  - rewrite any_bit_val by (done || lia). rewrite Z.div_1_r, Hv. repeat f_equal. unfold lowest. lia.
Qed.
