(* ===== verification/Ieee.v ===== *)
(** * Binary64: the specification the number conversions are held to

    Nothing here models a source function.  It says what "the double nearest to a
    rational" and "the value of a double" mean, in integers: every finite double
    is a multiple of [2^-1074], so a non-negative double with encoding [b] is worth
    [dec b] units of [2^-1074], and [nearest_double n d] is the encoding of [n/d]
    rounded to nearest, ties to even, overflowing to infinity. *)

From S2P Require Import Prelude.

(** ** Rounding a quotient to an integer, ties to even *)

Definition rne (a b : Z) : Z :=
  let q := a / b in
  let r := a mod b in
  if (2 * r >? b) || ((2 * r =? b) && Z.odd q) then q + 1 else q.

Lemma rne_bounds a b : 0 < b -> a / b <= rne a b <= a / b + 1.
Proof. intros. unfold rne. case_if; lia. Qed.

(** The result is within half a unit of the quotient. *)
Lemma rne_half a b : 0 < b -> 2 * Z.abs (a - b * rne a b) <= b.
Proof.
  intros Hb. pose proof (Z.mod_pos_bound a b Hb). pose proof (Z.div_mod a b ltac:(lia)).
  unfold rne. destruct (_ || _) eqn:E.
  - apply orb_true_iff in E as [E|E]; [apply Z.gtb_lt in E; lia|bprop; lia].
  - bprop. rewrite Z.gtb_ltb in H1. bprop. lia.
Qed.

Lemma rne_exact q b : 0 < b -> rne (b * q) b = q.
Proof.
  intros. unfold rne. rewrite (Z.mul_comm b), Z.div_mul, Z.mod_mul by lia.
  rewrite Z.gtb_ltb, Z.mul_0_r. destruct (Z.ltb_spec b 0); [lia|].
  destruct (Z.eqb_spec 0 b); [lia|]. done.
Qed.

(** Scaling numerator and denominator changes nothing. *)
Lemma rne_scale a b k : 0 < b -> 0 < k -> rne (a * k) (b * k) = rne a b.
Proof.
  intros. unfold rne. rewrite Z.div_mul_cancel_r, Zmult_mod_distr_r by lia.
  replace ((2 * (a mod b * k) >? b * k)) with (2 * (a mod b) >? b)
    by (apply bool_eq_iff; rewrite !Z.gtb_lt; nia).
  replace ((2 * (a mod b * k) =? b * k)) with (2 * (a mod b) =? b)
    by (apply bool_eq_iff; rewrite !Z.eqb_eq; nia).
  done.
Qed.

Lemma rne_cross a b c d : 0 < b -> 0 < d -> a * d = c * b -> rne a b = rne c d.
Proof.
  intros Hb Hd E. rewrite <- (rne_scale a b d), E, (Z.mul_comm b d) by done.
  by rewrite rne_scale.
Qed.

(** ** Doubles *)

Definition infinity_bits : Z := 0x7FF * 2 ^ 52.
Definition sign_bits (negative : bool) : Z := if negative then 2 ^ 63 else 0.

(** The unit [2^-1074] as a denominator.  It is a constant of its own, and not the
    literal power, so that arithmetic tactics treat it as an atom. *)
Definition ulp_den : Z := 2 ^ 1074.

Lemma ulp_den_pos : 0 < ulp_den.
Proof. by apply pow2_pos. Qed.

Lemma ulp_den_add k : 0 <= k -> 2 ^ (1074 + k) = ulp_den * 2 ^ k.
Proof. intros. by rewrite Z.pow_add_r by lia. Qed.

Lemma ulp_den_sub k : 0 <= k <= 1074 -> ulp_den = 2 ^ k * 2 ^ (1074 - k).
Proof. intros. unfold ulp_den. by apply pow2_split. Qed.

(** The binade a positive rational [m/d] (in units of [2^-1074]) is rounded in. *)
Definition binade (m d : Z) : Z := Z.max 0 (Z.log2 (m / d) - 52).

Definition nearest_double (n d : Z) : Z :=
  let m := n * ulp_den in
  let s := binade m d in
  Z.min infinity_bits (s * 2 ^ 52 + rne m (d * 2 ^ s)).

(** The value of a finite non-negative encoding, in units of [2^-1074]. *)
Definition dec (b : Z) : Z :=
  if b <? 2 ^ 52 then b else (2 ^ 52 + b mod 2 ^ 52) * 2 ^ (b / 2 ^ 52 - 1).

(** A significand written into the fraction field with the exponent [s]: the
    carry of [2^53] lands in the exponent field by itself. *)
Lemma dec_assemble s n :
  0 <= s -> 0 <= n <= 2 ^ 53 -> (0 < s -> 2 ^ 52 <= n) -> dec (s * 2 ^ 52 + n) = n * 2 ^ s.
Proof.
  intros Hs Hn Hsn. unfold dec.
  destruct (Z.ltb_spec (s * 2 ^ 52 + n) (2 ^ 52)) as [Hlt|Hge].
  { assert (s = 0) as -> by (pow_lit; lia). lia. }
  assert (Hn52 : 2 ^ 52 <= n) by (destruct (Z.eq_dec s 0); [subst; pow_lit; lia|apply Hsn; lia]).
  destruct (Z.eq_dec n (2 ^ 53)) as [->|Hn53].
  - destruct (div_mul_mod (s * 2 ^ 52 + 2 ^ 53) (2 ^ 52) (s + 2) 0) as [-> ->]; [pow_lit; lia..|].
    replace (s + 2 - 1) with (Z.succ s) by lia. rewrite Z.pow_succ_r by lia. pow_lit. lia.
  - destruct (div_mul_mod (s * 2 ^ 52 + n) (2 ^ 52) (s + 1) (n - 2 ^ 52)) as [-> ->]; [pow_lit; lia..|].
    replace (s + 1 - 1) with s by lia. f_equal. lia.
Qed.

(** Every finite encoding is such an assembly. *)
Lemma dec_form b :
  0 <= b -> exists s n, 0 <= s /\ 0 <= n < 2 ^ 53 /\ dec b = n * 2 ^ s.
Proof.
  intros Hb. unfold dec. case_if; [exists 0, b; pow_lit; lia|].
  exists (b / 2 ^ 52 - 1), (2 ^ 52 + b mod 2 ^ 52).
  pose proof (Z.mod_pos_bound b (2 ^ 52) ltac:(lia)).
  split; [dlia|]. split; [pow_lit; lia|done].
Qed.

Lemma rne_nearest a b k : 0 < b -> Z.abs (a - b * rne a b) <= Z.abs (a - b * k).
Proof.
  intros Hb. pose proof (rne_half a b Hb).
  destruct (Z.eq_dec k (rne a b)) as [->|]; [lia|].
  assert (b <= Z.abs (b * (rne a b - k))) by (rewrite Z.abs_mul; nia). lia.
Qed.

(** The significand stays within 53 bits, one carry included. *)
Lemma rne_binade m d :
  0 <= m -> 0 < d ->
  let s := binade m d in
  0 <= rne m (d * 2 ^ s) <= 2 ^ 53 /\ (0 < s -> 2 ^ 52 <= rne m (d * 2 ^ s) /\ 2 ^ 52 * 2 ^ s <= m / d).
Proof.
  intros Hm Hd s. pose proof (pow2_pos s ltac:(unfold s, binade; lia)) as Hp.
  pose proof (rne_bounds m (d * 2 ^ s) ltac:(nia)) as Hr.
  rewrite <- Z.div_div in Hr by lia.
  pose proof (Z.div_pos m d Hm Hd) as Hq.
  assert (Hup : m / d < 2 ^ 53 * 2 ^ s).
  { destruct (Z.eq_dec (m / d) 0) as [->|]; [pow_lit; nia|].
    pose proof (Z.log2_spec (m / d) ltac:(lia)) as [_ L].
    rewrite <- Z.pow_add_r by (unfold s, binade; lia).
    eapply Z.lt_le_trans; [exact L|]. apply Z.pow_le_mono_r; unfold s, binade; lia. }
  assert (Hq2 : m / d / 2 ^ s < 2 ^ 53) by (apply Z.div_lt_upper_bound; lia).
  pose proof (Z.div_pos (m / d) (2 ^ s) Hq Hp). split; [lia|]. intros Hs.
  assert (Hlo : 2 ^ 52 * 2 ^ s <= m / d).
  { rewrite <- Z.pow_add_r by lia.
    assert (0 < m / d).
    { destruct (Z.eq_dec (m / d) 0) as [E|]; [|lia]. unfold s, binade in Hs. rewrite E in Hs. cbn in Hs. lia. }
    etransitivity; [|apply Z.log2_spec; lia]. apply Z.pow_le_mono_r; unfold s, binade in *; lia. }
  split; [|done]. etransitivity; [|apply Hr]. apply Z.div_le_lower_bound; lia.
Qed.

(** The specification is what "nearest" means: when [nearest_double n d] is
    finite, no finite double is closer to [n/d]. *)
Lemma nearest_double_is_nearest n d b :
  0 <= n -> 0 < d -> nearest_double n d < infinity_bits -> 0 <= b ->
  Z.abs (n * ulp_den - d * dec (nearest_double n d)) <= Z.abs (n * ulp_den - d * dec b).
Proof.
  unfold nearest_double. set (m := n * ulp_den). intros Hn Hd Hfin Hb.
  assert (Hm : 0 <= m) by (unfold m; pose proof (ulp_den_pos); nia). clearbody m.
  destruct (rne_binade m d Hm Hd) as [Hr Hs]. set (s := binade m d) in *.
  assert (Hs0 : 0 <= s) by (unfold s, binade; lia).
  pose proof (pow2_pos s Hs0) as Hp.
  rewrite Z.min_r by lia. rewrite dec_assemble by (try lia; intros; apply Hs; lia).
  replace (d * (rne m (d * 2 ^ s) * 2 ^ s)) with (d * 2 ^ s * rne m (d * 2 ^ s)) by ring.
  destruct (dec_form b Hb) as (s' & n' & Hs' & Hn' & ->).
  destruct (Z_le_gt_dec s s') as [Hle|Hgt].
  - replace (d * (n' * 2 ^ s')) with (d * 2 ^ s * (n' * 2 ^ (s' - s)))
      by (rewrite (pow2_split s' s) by lia; ring).
    apply rne_nearest. nia.
  - destruct (Hs ltac:(lia)) as [_ Hlo].
    pose proof (rne_nearest m (d * 2 ^ s) (2 ^ 52) ltac:(nia)) as Hk.
    assert (Hb' : n' * 2 ^ s' <= 2 ^ 52 * 2 ^ s).
    { rewrite (pow2_split s (s' + 1)) by lia. rewrite Z.pow_add_r by lia.
      pose proof (pow2_pos s' Hs'). pose proof (pow2_pos (s - (s' + 1)) ltac:(lia)).
      pow_lit. change (2 ^ 1) with 2. nia. }
    pose proof (Z.mul_div_le m d Hd). nia.
Qed.

(** ** Rounding from truncated bits

    [v] is the truncation of [A/D]; cutting [cut] bits off it, the round bit, the
    bits below it and the remainder decide the rounding exactly. *)
Lemma rne_of_bits A D v r cut :
  0 < D -> A = v * D + r -> 0 <= r < D -> 0 <= v -> 1 <= cut ->
  rne A (D * 2 ^ cut) =
  let q := v / 2 ^ cut in
  if Z.testbit v (cut - 1) && ((negb (r =? 0) || negb (v mod 2 ^ (cut - 1) =? 0)) || Z.odd q)
  then q + 1 else q.
Proof.
  intros HD HA Hr Hv Hcut. cbn zeta.
  destruct (div_mul_mod A D v r HD Hr ltac:(lia)) as [Eq Er].
  pose proof (pow2_pos (cut - 1) ltac:(lia)) as Hh.
  assert (E2 : 2 ^ cut = 2 ^ (cut - 1) * 2) by (rewrite (pow2_split cut (cut - 1)) by lia; f_equal; replace (cut - (cut - 1)) with 1 by lia; done).
  assert (Em : v mod 2 ^ cut = v mod 2 ^ (cut - 1) + 2 ^ (cut - 1) * Z.b2z (Z.testbit v (cut - 1))).
  { rewrite E2 at 1. rewrite (Z.rem_mul_r v (2 ^ (cut - 1)) 2) by lia.
    by rewrite <- Z.bit0_mod, <- testbit_div by lia. }
  unfold rne. rewrite <- (Z.div_div A D (2 ^ cut)), (Z.rem_mul_r A D (2 ^ cut)) by lia.
  rewrite Eq, Er, Em. set (q := v / 2 ^ cut). rewrite E2.
  pose proof (Z.mod_pos_bound v (2 ^ (cut - 1)) Hh) as Hl.
  set (low := v mod 2 ^ (cut - 1)) in *. set (h := 2 ^ (cut - 1)) in *.
  assert (Hsum : 0 <= r + D * low < D * h) by nia.
  assert (Hz : negb (r =? 0) || negb (low =? 0) = negb (r + D * low =? 0)).
  { destruct (Z.eqb_spec r 0), (Z.eqb_spec low 0), (Z.eqb_spec (r + D * low) 0); cbn; try done; nia. }
  rewrite Hz. set (x := r + D * low) in *.
  destruct (Z.testbit v (cut - 1)); cbn [Z.b2z andb].
  - replace (2 * (r + D * (low + h * 1))) with (2 * x + D * (h * 2)) by (unfold x; ring).
    destruct (Z.eqb_spec x 0) as [->|]; cbn [negb orb].
    + rewrite Z.mul_0_r, Z.add_0_l, Z.gtb_ltb, Z.ltb_irrefl. cbn. by rewrite Z.eqb_refl.
    + rewrite Z.gtb_ltb. destruct (Z.ltb_spec (D * (h * 2)) (2 * x + D * (h * 2))); [done|lia].
  - rewrite Z.mul_0_r, Z.add_0_r. fold x. rewrite Z.gtb_ltb.
    destruct (Z.ltb_spec (D * (h * 2)) (2 * x)); [lia|].
    destruct (Z.eqb_spec (2 * x) (D * (h * 2))); [lia|done].
Qed.

(** The binade of a rational, read off the truncation [v] of [n * 2^sh / d]. *)
Lemma binade_of_bits n d sh v :
  0 <= n -> 0 < d -> 0 <= sh -> v = n * 2 ^ sh / d -> 0 < v ->
  binade (n * ulp_den) d = Z.max 0 (Z.log2 v - sh + 1022).
Proof.
  intros Hn Hd Hsh Hv Hv0. unfold binade.
  destruct (Z_le_gt_dec sh 1074) as [Hle|Hgt].
  - assert (E : Z.log2 (n * ulp_den / d) = Z.log2 v + (1074 - sh)); [|lia].
    rewrite (ulp_den_sub sh) by lia. set (k := 1074 - sh) in *.
    pose proof (pow2_pos k ltac:(lia)). pose proof (Z.log2_nonneg v).
    pose proof (Z.log2_spec v Hv0) as [L1 L2].
    pose proof (Z.mod_pos_bound (n * 2 ^ sh) d Hd). pose proof (Z.div_mod (n * 2 ^ sh) d ltac:(lia)).
    rewrite <- Hv in *.
    assert (v * 2 ^ k <= n * (2 ^ sh * 2 ^ k) / d) by (apply Z.div_le_lower_bound; nia).
    assert (n * (2 ^ sh * 2 ^ k) / d < (v + 1) * 2 ^ k) by (apply Z.div_lt_upper_bound; nia).
    apply Z.log2_unique; [lia|]. rewrite <- Z.add_succ_l, !Z.pow_add_r by lia. nia.
  - assert (E : n * ulp_den / d = Z.shiftr v (sh - 1074)).
    { assert (P : 2 ^ sh = ulp_den * 2 ^ (sh - 1074)) by (rewrite <- ulp_den_add by lia; f_equal; lia).
      rewrite shiftr_div, Hv, P by lia.
      pose proof (pow2_pos (sh - 1074) ltac:(lia)) as Hk.
      rewrite Z.div_div, Z.mul_assoc by lia. rewrite Z.div_mul_cancel_r by lia. done. }
    rewrite E, Z.log2_shiftr by lia. lia.
Qed.

Lemma nearest_double_unfold n d :
  nearest_double n d =
  Z.min infinity_bits (binade (n * ulp_den) d * 2 ^ 52 + rne (n * ulp_den) (d * 2 ^ binade (n * ulp_den) d)).
Proof. done. Qed.

(** The rounding may be done on the scaled quotient instead. *)
Lemma rne_rescale n d sh s cut :
  0 < d -> 0 <= sh -> 0 <= s -> sh + s = 1074 + cut ->
  rne (n * ulp_den) (d * 2 ^ s) =
  if 0 <? cut then rne (n * 2 ^ sh) (d * 2 ^ cut) else rne (n * 2 ^ sh * 2 ^ (- cut)) d.
Proof.
  intros Hd Hsh Hs E. pose proof (pow2_pos s Hs). case_if.
  - pose proof (pow2_pos cut ltac:(lia)).
    apply rne_cross; [nia..|].
    replace (n * ulp_den * (d * 2 ^ cut)) with (n * d * (ulp_den * 2 ^ cut)) by ring.
    rewrite <- ulp_den_add, <- E, Z.pow_add_r by lia. ring.
  - apply rne_cross; [nia..|].
    assert (C : ulp_den = 2 ^ sh * (2 ^ s * 2 ^ (- cut))).
    { rewrite <- !Z.pow_add_r by lia. unfold ulp_den. f_equal. lia. }
    rewrite C. ring.
Qed.

(** ** Out of range *)

Lemma nearest_tiny n d : 0 <= n -> 0 < d -> 2 * (n * ulp_den) < d -> nearest_double n d = 0.
Proof.
  intros Hn Hd H. rewrite nearest_double_unfold. pose proof (ulp_den_pos).
  set (m := n * ulp_den) in *. assert (Hm : 0 <= m) by (unfold m; nia). clearbody m.
  unfold binade. rewrite Z.div_small by lia. change (Z.max 0 (Z.log2 0 - 52)) with 0.
  rewrite Z.pow_0_r, Z.mul_1_r. unfold rne. rewrite Z.div_small, Z.mod_small by lia.
  rewrite Z.gtb_ltb. destruct (Z.ltb_spec d (2 * m)); [lia|].
  destruct (Z.eqb_spec (2 * m) d); [lia|]. done.
Qed.

(** The first power of two past the largest double. *)
Definition overflow_num : Z := 2 ^ 1024.

Lemma nearest_huge n d : 0 < d -> d * overflow_num <= n -> nearest_double n d = infinity_bits.
Proof.
  intros Hd H. rewrite nearest_double_unfold. apply Z.min_l.
  pose proof (ulp_den_pos). assert (0 < overflow_num) by by apply pow2_pos.
  destruct (rne_binade (n * ulp_den) d ltac:(nia) Hd) as [_ Hs].
  assert (Hb : 2046 <= binade (n * ulp_den) d).
  { unfold binade. assert (2098 <= Z.log2 (n * ulp_den / d)); [|lia].
    apply Z.log2_le_pow2; [apply Z.div_str_pos; nia|].
    apply Z.div_le_lower_bound; [done|]. replace (2 ^ 2098) with (ulp_den * overflow_num) by (symmetry; by apply (ulp_den_add 1024)). nia. }
  destruct (Hs ltac:(lia)) as [Hr _]. unfold infinity_bits. pow_lit. lia.
Qed.

(** An integer strictly within half a unit is the rounding. *)
Lemma rne_unique a b k : 0 < b -> 2 * Z.abs (a - b * k) < b -> rne a b = k.
Proof. intros Hb H. pose proof (rne_half a b Hb). nia. Qed.
