(* ===== verification/IntParse.v ===== *)
(** * [src/base/strings/number_parse.cc], first half: integers

    [ParseInteger] and [ParseUnsigned] with their helpers.  A [const char*] is
    the list of codes before the terminator; a null pointer is [None].  The
    result is [None] for [return false], and otherwise the written [out] with the
    rest of the text that [*end] points at. *)

From S2P Require Import Prelude.

Definition IsSpace (c : Z) : bool :=
  (c =? 32) || (c =? 9) || (c =? 10) || (c =? 11) || (c =? 12) || (c =? 13).

Definition Lower (c : Z) : Z :=
  if (65 <=? c) && (c <=? 90) then c - 65 + 97 else c.

Definition DigitValue (c radix : Z) : Z :=
  let in_radix value := if value <? radix then value else -1 in
  if (48 <=? c) && (c <=? 57) then in_radix (c - 48)
  else if (97 <=? c) && (c <=? 122) then in_radix (c - 97 + 10)
  else if (65 <=? c) && (c <=? 90) then in_radix (c - 65 + 10)
  else -1.

Fixpoint skip_space (p : list Z) : list Z :=
  match p with
  | c :: p' => if IsSpace c then skip_space p' else p
  | [] => []
  end.

(** The cursor past blanks and sign, and whether the sign was a minus. *)
Definition SkipSpaceAndSign (text : list Z) : list Z * bool :=
  let p := skip_space text in
  if (deref p =? 43) || (deref p =? 45) then (List.tl p, deref p =? 45) else (p, false).

(** The cursor past a [0x] prefix, and the resolved radix. *)
Definition ApplyRadixPrefix (p : list Z) (radix : Z) : list Z * Z :=
  if ((radix =? 0) || (radix =? 16)) && (deref_at p 0 =? 48)
     && (Lower (deref_at p 1) =? 120) && (0 <=? DigitValue (deref_at p 2) 16)
  then (skipn 2 p, 16)
  else if radix =? 0
  then (p, if (deref_at p 0 =? 48) && (0 <=? DigitValue (deref_at p 1) 8) then 8 else 10)
  else (p, radix).

Record Accum := mkAccum { acc_p : list Z; acc_out : Z; acc_any : bool; acc_saturated : bool }.

Fixpoint accumulate_loop (p : list Z) (radix limit cutoff cutoff_digit : Z)
    (value : Z) (any saturated : bool) : Accum :=
  match p with
  | [] => mkAccum [] value any saturated
  | c :: p' =>
      let digit := DigitValue c radix in
      if digit <? 0 then mkAccum p value any saturated
      else if saturated
      then accumulate_loop p' radix limit cutoff cutoff_digit value true saturated
      else if (value >? cutoff) || ((value =? cutoff) && (digit >? cutoff_digit))
      then accumulate_loop p' radix limit cutoff cutoff_digit limit true true
      else accumulate_loop p' radix limit cutoff cutoff_digit
             (u64 (value * radix + digit)) true saturated
  end.

Definition AccumulateDigits (p : list Z) (radix limit : Z) : Accum :=
  accumulate_loop p radix limit (limit / radix) (limit mod radix) 0 false false.

Definition ParseInteger (text : option (list Z)) (base_radix : Z) : option (Z * list Z) :=
  match text with
  | None => None
  | Some text =>
      let '(cursor, negative) := SkipSpaceAndSign text in
      let '(p, radix) := ApplyRadixPrefix cursor base_radix in
      if (radix <? 2) || (radix >? 36) then None
      else
        let limit := if negative then 2 ^ 63 - 1 + 1 else 2 ^ 63 - 1 in
        let a := AccumulateDigits p radix limit in
        if negb (acc_any a) then None
        else Some (if negative then i64 (u64 (u64 (Z.lnot (acc_out a)) + 1)) else i64 (acc_out a),
                   acc_p a)
  end.

Definition ParseUnsigned (text : option (list Z)) (base_radix : Z) : option (Z * list Z) :=
  match text with
  | None => None
  | Some text =>
      let '(cursor, negative) := SkipSpaceAndSign text in
      let '(p, radix) := ApplyRadixPrefix cursor base_radix in
      if (radix <? 2) || (radix >? 36) then None
      else
        let a := AccumulateDigits p radix (2 ^ 64 - 1) in
        if negb (acc_any a) then None
        else Some (if negative then u64 (u64 (Z.lnot (acc_out a)) + 1) else acc_out a, acc_p a)
  end.

(** ** What the digits mean *)

(** The longest prefix of [p] that consists of digits in [radix], as values. *)
Fixpoint digit_run (p : list Z) (radix : Z) : list Z :=
  match p with
  | c :: p' => if DigitValue c radix <? 0 then [] else DigitValue c radix :: digit_run p' radix
  | [] => []
  end.

Definition after_digits (p : list Z) (radix : Z) : list Z := skipn (length (digit_run p radix)) p.

Lemma DigitValue_range c radix : -1 <= DigitValue c radix /\ (0 <= DigitValue c radix -> DigitValue c radix < radix).
Proof. unfold DigitValue. repeat case_if; lia. Qed.

Lemma digit_run_range p radix : Forall (fun d => 0 <= d < radix) (digit_run p radix).
Proof.
  induction p as [|c p IH]; cbn [digit_run]; [constructor|].
  pose proof (DigitValue_range c radix). case_if; constructor; [lia|done].
Qed.

Lemma bval_nonneg_run p radix : 0 < radix -> 0 <= bval radix (digit_run p radix).
Proof. intros. apply bval_bound; [done|apply digit_run_range]. Qed.

(** Once saturated the loop only moves the cursor to the end of the number. *)
Lemma accumulate_saturated p radix limit q r value any :
  accumulate_loop p radix limit q r value any true =
  mkAccum (after_digits p radix) value (any || negb (bool_decide (digit_run p radix = []))) true.
Proof.
  unfold after_digits. revert any.
  induction p as [|c p IH]; intros any; cbn [accumulate_loop digit_run].
  - by rewrite orb_false_r.
  - case_if; cbn [length skipn]; [by rewrite orb_false_r|].
    rewrite IH. by rewrite (bool_decide_eq_false_2 (_ :: _ = [])), orb_true_r by done.
Qed.

(** One step overflows the limit exactly when the guard of the loop says so. *)
Lemma overflow_guard value digit radix limit :
  0 < radix -> 0 <= digit < radix -> 0 <= value ->
  (value >? limit / radix) || ((value =? limit / radix) && (digit >? limit mod radix)) =
  (limit <? value * radix + digit).
Proof.
  intros Hr Hd Hv. pose proof (Z.mod_pos_bound limit radix Hr).
  pose proof (Z.div_mod limit radix ltac:(lia)) as D.
  apply bool_eq_iff. rewrite orb_true_iff, andb_true_iff, Z.eqb_eq, !Z.gtb_lt, Z.ltb_lt. nia.
Qed.

Lemma accumulate_loop_spec p radix limit value any :
  0 < radix -> 0 <= value <= limit -> limit < 2 ^ 64 ->
  accumulate_loop p radix limit (limit / radix) (limit mod radix) value any false =
  let total := fold_left (fun v d => v * radix + d) (digit_run p radix) value in
  mkAccum (after_digits p radix) (Z.min total limit)
    (any || negb (bool_decide (digit_run p radix = []))) (limit <? total).
Proof.
  intros Hr. revert value any. unfold after_digits.
  induction p as [|c p IH]; intros value any Hv Hl; cbn [accumulate_loop digit_run].
  { cbn. rewrite orb_false_r, Z.min_l by lia. f_equal. symmetry. apply Z.ltb_ge. lia. }
  destruct (DigitValue_range c radix) as [_ Hd].
  destruct (Z.ltb_spec (DigitValue c radix) 0) as [?|Hd0]; cbn [length skipn fold_left].
  { rewrite orb_false_r, Z.min_l by lia. f_equal. symmetry. apply Z.ltb_ge. lia. }
  rewrite overflow_guard by lia. rewrite (bool_decide_eq_false_2 (_ :: _ = [])), orb_true_r by done.
  destruct (Z.ltb_spec limit (value * radix + DigitValue c radix)).
  - rewrite accumulate_saturated. cbn [orb].
    assert (limit < fold_left (fun v d => v * radix + d) (digit_run p radix) (value * radix + DigitValue c radix)).
    { rewrite bval_acc. pose proof (bval_nonneg_run p radix Hr).
      pose proof (Z.pow_pos_nonneg radix (Z.of_nat (length (digit_run p radix))) Hr ltac:(lia)). nia. }
    rewrite Z.min_r by lia. f_equal. symmetry. by apply Z.ltb_lt.
  - rewrite wrap_small by (unfold fits; nia). rewrite IH by nia. done.
Qed.

(** [AccumulateDigits] consumes the whole run of digits and returns its value
    capped at the limit, whatever the length of the run. *)
Lemma AccumulateDigits_spec p radix limit :
  0 < radix -> 0 <= limit < 2 ^ 64 ->
  AccumulateDigits p radix limit =
  mkAccum (after_digits p radix) (Z.min (bval radix (digit_run p radix)) limit)
    (negb (bool_decide (digit_run p radix = []))) (limit <? bval radix (digit_run p radix)).
Proof. intros. unfold AccumulateDigits. by rewrite accumulate_loop_spec by lia. Qed.

(** ** The public parsers *)

Definition clamp_i64 (z : Z) : Z := Z.max (- 2 ^ 63) (Z.min (2 ^ 63 - 1) z).

(** Two's complement negation of a magnitude that fits the negative limit. *)
Lemma negate_u64 m : 0 <= m <= 2 ^ 63 -> i64 (u64 (u64 (Z.lnot m) + 1)) = - m.
Proof.
  intros Hm. rewrite wrap_add_idemp. replace (Z.lnot m + 1) with (- m) by (unfold Z.lnot; lia).
  unfold swrap. rewrite wrap_wrap.
  destruct (Z.eq_dec m 0) as [->|]; [done|].
  unfold wrap. rewrite <- (Z.mod_unique (- m) (2 ^ 64) (-1) (2 ^ 64 - m)) by lia.
  change (2 ^ (64 - 1)) with (2 ^ 63). pow_lit. case_if; lia.
Qed.

(** The digits a parser sees: text past blanks, sign and radix prefix, and the
    radix they are read in. *)
Definition number_text (text : list Z) (base_radix : Z) : list Z * Z :=
  ApplyRadixPrefix (fst (SkipSpaceAndSign text)) base_radix.

Definition parses (text : list Z) (base_radix : Z) : bool :=
  let '(p, radix) := number_text text base_radix in
  (2 <=? radix) && (radix <=? 36) && negb (bool_decide (digit_run p radix = [])).

Definition magnitude_of (text : list Z) (base_radix : Z) : Z :=
  let '(p, radix) := number_text text base_radix in bval radix (digit_run p radix).

Definition rest_of (text : list Z) (base_radix : Z) : list Z :=
  let '(p, radix) := number_text text base_radix in after_digits p radix.

Lemma radix_guard radix : (radix <? 2) || (radix >? 36) = negb ((2 <=? radix) && (radix <=? 36)).
Proof. rewrite negb_andb, Z.gtb_ltb, !Z.ltb_antisym. done. Qed.

Lemma ParseInteger_clamps' text base_radix :
  ParseInteger (Some text) base_radix =
  if parses text base_radix then
    Some (clamp_i64 (if snd (SkipSpaceAndSign text) then - magnitude_of text base_radix
                     else magnitude_of text base_radix),
          rest_of text base_radix)
  else None.
Proof.
  unfold ParseInteger, parses, magnitude_of, rest_of, number_text.
  destruct (SkipSpaceAndSign text) as [cursor neg]. cbn [fst snd].
  destruct (ApplyRadixPrefix cursor base_radix) as [p radix].
  rewrite radix_guard. destruct ((2 <=? radix) && (radix <=? 36)) eqn:E; cbn [negb andb]; [bprop|done].
  rewrite AccumulateDigits_spec by (destruct neg; lia). cbn [acc_any acc_out acc_p].
  rewrite negb_involutive. destruct (bool_decide _); [done|]. cbn [negb].
  pose proof (bval_nonneg_run p radix ltac:(lia)). unfold clamp_i64. f_equal. f_equal.
  destruct neg.
  - rewrite negate_u64 by lia. lia.
  - unfold swrap. rewrite wrap_small by (unfold fits; lia).
    change (2 ^ (64 - 1)) with (2 ^ 63). pow_lit. case_if; lia.
Qed.

(** C3. [ParseInteger] on any non-null text: it succeeds exactly when the radix is
    in 2..36 and at least one digit follows blanks, sign and prefix; the result is
    the signed value of the whole digit run clamped to the range of [i64] (so a
    number too long for 64 bits saturates), and the reported end is the first
    character past the run, however long it is. *)
Theorem ParseInteger_clamps text base_radix :
  ParseInteger (Some text) base_radix =
  if parses text base_radix then
    Some (clamp_i64 (if snd (SkipSpaceAndSign text) then - magnitude_of text base_radix
                     else magnitude_of text base_radix),
          rest_of text base_radix)
  else None.
Proof. apply ParseInteger_clamps'. Qed.

Lemma ParseUnsigned_wraps' text base_radix :
  ParseUnsigned (Some text) base_radix =
  if parses text base_radix then
    let m := Z.min (magnitude_of text base_radix) (2 ^ 64 - 1) in
    Some (if snd (SkipSpaceAndSign text) then (- m) mod 2 ^ 64 else m, rest_of text base_radix)
  else None.
Proof.
  unfold ParseUnsigned, parses, magnitude_of, rest_of, number_text.
  destruct (SkipSpaceAndSign text) as [cursor neg]. cbn [fst snd].
  destruct (ApplyRadixPrefix cursor base_radix) as [p radix].
  rewrite radix_guard. destruct ((2 <=? radix) && (radix <=? 36)) eqn:E; cbn [negb andb]; [bprop|done].
  rewrite AccumulateDigits_spec by lia. cbn [acc_any acc_out acc_p].
  rewrite negb_involutive. destruct (bool_decide _); [done|]. cbn [negb]. f_equal. f_equal.
  destruct neg; [|done]. rewrite wrap_add_idemp. unfold wrap. f_equal. unfold Z.lnot. lia.
Qed.

(** [ParseUnsigned] on any non-null text: same acceptance as [ParseInteger];
    the magnitude saturates at [2^64 - 1] and a minus sign negates it modulo
    [2^64], as strtoull does. *)
Theorem ParseUnsigned_wraps text base_radix :
  ParseUnsigned (Some text) base_radix =
  if parses text base_radix then
    let m := Z.min (magnitude_of text base_radix) (2 ^ 64 - 1) in
    Some (if snd (SkipSpaceAndSign text) then (- m) mod 2 ^ 64 else m, rest_of text base_radix)
  else None.
Proof. apply ParseUnsigned_wraps'. Qed.
