(* ===== verification/FloatParse.v ===== *)
(** * [src/base/strings/number_parse.cc], second half: decimal to binary

    [AssembleDouble], [DecimalToDouble], [MatchWord] and [ParseFloat].  An [f64]
    is its 64-bit encoding.  The theorems compare the parser with
    [Ieee.nearest_double]. *)

From S2P Require Import Prelude Bignum IntParse Ieee.

(** ** AssembleDouble *)

(** The lambda [round_at]: the bits of [mantissa] down to [2^lowest], rounded
    half to even on the round bit and what lies below it. *)
Definition round_at (mantissa : BigUInt) (exponent2 : Z) (sticky : bool) (lowest keep : Z) : Z :=
  let length := BitLength mantissa in
  let cut := lowest - exponent2 in
  let '(significand, round_bit, below) :=
    if cut <=? 0
    then (u64 (Z.shiftl (fst (HighBits mantissa length)) (- cut)), false, sticky)
    else (fst (HighBits mantissa keep), BitAt mantissa (cut - 1),
          sticky || AnyBitBelow mantissa (cut - 1)) in
  if round_bit && (below || (Z.land significand 1 =? 1)) then u64 (significand + 1) else significand.

Definition AssembleDouble (mantissa : BigUInt) (exponent2 : Z) (sticky negative : bool) : Z :=
  let sign_bit := if negative then Z.shiftl 1 63 else 0 in
  let length := BitLength mantissa in
  if length =? 0 then sign_bit
  else
    let msb := (length - 1) + exponent2 in
    if msb - 52 <? -1074 then
      let keep := msb - (-1074) + 1 in
      if keep <=? 0 then
        if msb <? -1075 then sign_bit
        else
          let above_half := (length >? 1) || sticky in
          Z.lor sign_bit (if above_half then 1 else 0)
      else Z.lor sign_bit (round_at mantissa exponent2 sticky (-1074) keep)
    else
      let significand := round_at mantissa exponent2 sticky (msb - 52) 53 in
      let carried := negb (Z.shiftr significand 53 =? 0) in
      let exponent := if carried then msb + 1 else msb in
      let significand := if carried then Z.shiftr significand 1 else significand in
      if exponent >? 1023 then Z.lor sign_bit (Z.shiftl 0x7FF 52)
      else
        let biased := u64 (exponent + 1023) in
        Z.lor (Z.lor sign_bit (Z.shiftl biased 52)) (Z.land significand (Z.shiftl 1 52 - 1)).

(** ** DecimalToDouble *)

Definition kMaxSignificantDigits : Z := 800.

(** [while (power >= 9) value.MulSmall(10^9)], then the table entry. *)
Fixpoint mul_pow10 (fuel : nat) (value : BigUInt) (power : Z) : BigUInt :=
  match fuel with
  | O => value
  | S fuel =>
      if power >=? 9 then mul_pow10 fuel (MulSmall value 1000000000) (power - 9)
      else if negb (power =? 0) then MulSmall value (10 ^ power) else value
  end.

(** [while (remaining > 0)]: divide by at most [10^9] at a time, remembering any
    nonzero remainder. *)
Fixpoint div_pow10 (fuel : nat) (value : BigUInt) (remaining : Z) (sticky : bool) : BigUInt * bool :=
  match fuel with
  | O => (value, sticky)
  | S fuel =>
      if remaining >? 0 then
        let chunk := if remaining >=? 9 then 9 else remaining in
        let '(value, r) := DivModSmall value (10 ^ chunk) in
        div_pow10 fuel value (remaining - chunk) (if negb (r =? 0) then true else sticky)
      else (value, sticky)
  end.

(** [static_cast<int>(power * 3.3219280948873626)]: the double constant is
    [3740158532571577 * 2^-50]; the product is rounded to 53 bits, ties to even,
    before the truncation. *)
Definition log2_10_product (power : Z) : Z :=
  let product := power * 3740158532571577 in
  let ulp := 2 ^ Z.max 0 (Z.log2 product - 52) in
  rne product ulp * ulp / 2 ^ 50.

Definition scale_shift (power : Z) : Z := log2_10_product power + 64.

Definition DecimalToDouble (digits : BigUInt) (decimal_exponent : Z) (sticky negative : bool) : Z :=
  if IsZero digits then AssembleDouble digits 0 false negative
  else if decimal_exponent >=? 0 then
    AssembleDouble (mul_pow10 (S (Z.to_nat decimal_exponent)) digits decimal_exponent) 0 sticky negative
  else
    let power := - decimal_exponent in
    let shift := scale_shift power in
    let '(value, sticky) := div_pow10 (S (Z.to_nat power)) (ShiftLeft digits shift) power sticky in
    AssembleDouble value (- shift) sticky negative.

(** ** ParseFloat *)

(** [MatchWord]: the cursor past [word] when the text continues with it, in
    either case. *)
Fixpoint MatchWord (p word : list Z) : option (list Z) :=
  match word with
  | [] => Some p
  | w :: word' => if negb (Lower (deref p) =? w) then None else MatchWord (List.tl p) word'
  end.

Definition is_digit (c : Z) : bool := (48 <=? c) && (c <=? 57).

Record Scan := mkScan {
  sc_digits : BigUInt; sc_significant : Z; sc_exponent : Z; sc_any : bool; sc_sticky : bool }.

(** The integer-part loop: one digit. *)
Definition scan_int_digit (s : Scan) (c : Z) : Scan :=
  let '(mkScan digits significant exponent _ sticky) := s in
  if IsZero digits && (c =? 48) then mkScan digits significant exponent true sticky
  else if significant <? kMaxSignificantDigits
  then mkScan (MulAddSmall digits 10 (u32 (c - 48))) (significant + 1) exponent true sticky
  else mkScan digits significant (exponent + 1) true (if negb (c =? 48) then true else sticky).

(** The fraction loop: one digit. *)
Definition scan_frac_digit (s : Scan) (c : Z) : Scan :=
  let '(mkScan digits significant exponent _ sticky) := s in
  if IsZero digits && (c =? 48) then mkScan digits significant (exponent - 1) true sticky
  else if significant <? kMaxSignificantDigits
  then mkScan (MulAddSmall digits 10 (u32 (c - 48))) (significant + 1) (exponent - 1) true sticky
  else mkScan digits significant exponent true (if negb (c =? 48) then true else sticky).

Fixpoint scan_loop (f : Scan -> Z -> Scan) (s : Scan) (p : list Z) : Scan * list Z :=
  match p with
  | c :: p' => if is_digit c then scan_loop f (f s c) p' else (s, p)
  | [] => (s, [])
  end.

Fixpoint exponent_loop (magnitude : Z) (p : list Z) : Z * list Z :=
  match p with
  | c :: p' =>
      if is_digit c
      then exponent_loop (if magnitude <? 100000 then magnitude * 10 + (c - 48) else magnitude) p'
      else (magnitude, p)
  | [] => (magnitude, [])
  end.

(** The optional exponent: the amount to add to [exponent], and the cursor. *)
Definition scan_exponent (p : list Z) : Z * list Z :=
  if Lower (deref p) =? 101 then
    let after := List.tl p in
    let '(exponent_negative, after) :=
      if (deref after =? 43) || (deref after =? 45)
      then (deref after =? 45, List.tl after) else (false, after) in
    if is_digit (deref after) then
      let '(magnitude, after) := exponent_loop 0 after in
      (if exponent_negative then - magnitude else magnitude, after)
    else (0, p)
  else (0, p).

Definition ParseFloat (text : option (list Z)) : option (Z * list Z) :=
  match text with
  | None => None
  | Some text =>
      let '(p, negative) := SkipSpaceAndSign text in
      let sign := if negative then Z.shiftl 1 63 else 0 in
      match MatchWord p [105; 110; 102] with
      | Some q =>
          let q := match MatchWord q [105; 110; 105; 116; 121] with Some q' => q' | None => q end in
          Some (Z.lor sign (Z.shiftl 0x7FF 52), q)
      | None =>
      match MatchWord p [110; 97; 110] with
      | Some q => Some (Z.lor (Z.lor sign (Z.shiftl 0x7FF 52)) (Z.shiftl 1 51), q)
      | None =>
          let '(s, p) := scan_loop scan_int_digit (mkScan [] 0 0 false false) p in
          let '(s, p) := if deref p =? 46 then scan_loop scan_frac_digit s (List.tl p) else (s, p) in
          if negb (sc_any s) then None
          else
            let '(e, p) := scan_exponent p in
            let exponent := sc_exponent s + e in
            let magnitude_estimate := sc_significant s + exponent in
            if IsZero (sc_digits s) || (magnitude_estimate <? -400) then Some (sign, p)
            else if magnitude_estimate >? 350 then Some (Z.lor sign (Z.shiftl 0x7FF 52), p)
            else Some (DecimalToDouble (sc_digits s) exponent (sc_sticky s) negative, p)
      end end
  end.

(** ** [AssembleDouble] rounds correctly *)

Lemma BitLength_log n v : represents n v -> 0 < v -> BitLength n = Z.log2 v + 1.
Proof. intros H Hv. rewrite (BitLength_val n v H). case_if; [lia|done]. Qed.

Lemma land_1_odd z : (Z.land z 1 =? 1) = Z.odd z.
Proof.
  change 1 with (Z.ones 1) at 1. rewrite Z.land_ones, <- Z.bit0_mod, Z.bit0_odd by lia.
  by destruct (Z.odd z).
Qed.

(** The lambda computes the half-to-even rounding of [A / (D * 2^cut)], where [v]
    is the truncation of [A / D] and the sticky flag says whether [D] divides [A]. *)
Lemma round_at_spec n v A D r e lowest keep :
  represents n v -> 0 < v -> 0 < D -> A = v * D + r -> 0 <= r < D ->
  keep = Z.log2 v + 1 - (lowest - e) -> 1 <= keep <= 63 -> (lowest - e <= 0 -> r = 0) ->
  round_at n e (negb (r =? 0)) lowest keep =
  if 0 <? lowest - e then rne A (D * 2 ^ (lowest - e)) else rne (A * 2 ^ (- (lowest - e))) D.
Proof.
  intros H Hv HD HA Hr Hk Hk63 Hr0. unfold round_at.
  pose proof (BitLength_log n v H Hv) as HL. set (cut := lowest - e) in *.
  rewrite Z.leb_antisym. pose proof (Z.log2_nonneg v). pose proof (Z.log2_spec v Hv) as [_ Hlog].
  pose proof H as [[Hok _ _] Hval].
  destruct (Z.ltb_spec 0 cut) as [Hc|Hc]; cbn [negb].
  - rewrite (HighBits_val n v) by (done || lia). cbn [fst].
    replace (Z.max 0 (BitLength n - keep)) with cut by lia.
    rewrite BitAt_val, AnyBitBelow_val, Hval, land_1_odd by (done || lia).
    rewrite (rne_of_bits A D v r cut) by lia. cbn zeta.
    destruct (_ && _); [|done]. apply wrap_small.
    assert (v / 2 ^ cut < 2 ^ 63); [|split; [|pow_lit; lia]].
    + apply Z.div_lt_upper_bound; [apply pow2_pos; lia|]. rewrite <- Z.pow_add_r by lia.
      eapply Z.lt_le_trans; [exact Hlog|]. apply Z.pow_le_mono_r; lia.
    + enough (0 <= v / 2 ^ cut) by lia. apply Z.div_pos; [lia|apply pow2_pos; lia].
  - rewrite (Hr0 Hc) in *. rewrite andb_false_l.
    rewrite (HighBits_val n v) by (done || lia). cbn [fst].
    replace (Z.max 0 (BitLength n - BitLength n)) with 0 by lia. rewrite Z.div_1_r.
    rewrite Z.shiftl_mul_pow2 by lia. rewrite HA, Z.add_0_r.
    replace (v * D * 2 ^ (- cut)) with (D * (v * 2 ^ (- cut))) by ring.
    rewrite rne_exact by done. apply wrap_small. pose proof (pow2_pos (- cut) ltac:(lia)).
    split; [nia|]. eapply Z.lt_le_trans with (2 ^ (Z.succ (Z.log2 v)) * 2 ^ (- cut)); [nia|].
    rewrite <- Z.pow_add_r by lia. apply Z.pow_le_mono_r; lia.
Qed.

Lemma lor_sign neg z : 0 <= z < 2 ^ 63 ->
  Z.lor (if neg : bool then Z.shiftl 1 63 else 0) z = sign_bits neg + z.
Proof.
  intros Hz. destruct neg; [|by rewrite Z.lor_0_l].
  rewrite lor_disjoint_add by lia. unfold sign_bits. lia.
Qed.

Lemma infinity_lt : infinity_bits < 2 ^ 63.
Proof. by vm_compute. Qed.

(** The fields of a normal number, with the carry out of the rounding folded in. *)
Lemma normal_fields neg s sig :
  0 <= s -> 2 ^ 52 <= sig <= 2 ^ 53 ->
  (let carried := negb (Z.shiftr sig 53 =? 0) in
   let exponent := if carried then s - 1022 + 1 else s - 1022 in
   let significand := if carried then Z.shiftr sig 1 else sig in
   if exponent >? 1023 then Z.lor (if neg : bool then Z.shiftl 1 63 else 0) (Z.shiftl 0x7FF 52)
   else Z.lor (Z.lor (if neg then Z.shiftl 1 63 else 0) (Z.shiftl (u64 (exponent + 1023)) 52))
          (Z.land significand (Z.shiftl 1 52 - 1)))
  = sign_bits neg + Z.min infinity_bits (s * 2 ^ 52 + sig).
Proof.
  intros Hs Hsig. cbn zeta. rewrite !shiftr_div by lia.
  set (c := sig / 2 ^ 53).
  assert (Hc : (c = 0 /\ sig < 2 ^ 53) \/ (c = 1 /\ sig = 2 ^ 53)) by (unfold c; dlia).
  set (sig' := if negb (c =? 0) then _ else sig).
  set (e := if negb (c =? 0) then _ else _).
  assert (Hf : 2 ^ 52 <= sig' < 2 ^ 53 /\ (e + 1022) * 2 ^ 52 + sig' = s * 2 ^ 52 + sig /\ s - 1022 <= e).
  { unfold sig', e. destruct Hc as [[-> ?]|[-> ->]]; cbn [negb Z.eqb]; [lia|].
    change (2 ^ 53 / 2 ^ 1) with (2 ^ 52). pow_lit. lia. }
  destruct Hf as (Hs1 & Hs2 & Hs3). clearbody sig' e. rewrite Z.gtb_ltb.
  change (Z.shiftl 0x7FF 52) with infinity_bits. unfold infinity_bits.
  destruct (Z.ltb_spec 1023 e).
  - rewrite lor_sign by (vm_compute; split; [discriminate|reflexivity]).
    rewrite Z.min_l; [done|]. pow_lit. lia.
  - rewrite wrap_small by (unfold fits; pow_lit; lia).
    change (Z.shiftl 1 52 - 1) with (2 ^ 52 - 1). rewrite land_low_mask by lia.
    rewrite <- Z.lor_assoc, lor_disjoint_add by (try apply Z.mod_pos_bound; lia).
    replace (sig' mod 2 ^ 52) with (sig' - 2 ^ 52) by dlia.
    rewrite lor_sign by (pow_lit; lia). rewrite Z.min_r by (pow_lit; lia). pow_lit. lia.
Qed.

(** The situation of both callers: [v] is the truncation of [n * 2^sh / d], the
    sticky flag records the remainder, and when there is one the quotient keeps
    at least 54 bits. *)
Record scaled_quotient (n d sh v : Z) (sticky : bool) : Prop := {
  sq_n : 0 <= n; sq_d : 0 < d; sq_sh : 0 <= sh;
  sq_v : v = n * 2 ^ sh / d;
  sq_pos : 0 < v;
  sq_sticky : sticky = negb ((n * 2 ^ sh) mod d =? 0);
  sq_guard : sticky = true -> 2 ^ 53 <= v
}.

(** Half of the smallest subnormal, [2^-1075]: the one tie [AssembleDouble] breaks
    the wrong way. *)
Definition half_smallest (n d : Z) : Prop := 2 * (n * ulp_den) = d.

Lemma tiny_quotient n d sh v sticky :
  scaled_quotient n d sh v sticky -> Z.log2 v - sh + 1075 <= 0 ->
  rne (n * ulp_den) d =
  if (Z.log2 v - sh <? -1075) || (2 * (n * ulp_den) =? d) then 0 else 1.
Proof.
  intros [Hn Hd Hsh Hv Hpos Hst Hg] Ht.
  pose proof (Z.log2_nonneg v). pose proof (Z.log2_spec v Hpos) as [L1 L2].
  pose proof (Z.mod_pos_bound (n * 2 ^ sh) d Hd). pose proof (Z.div_mod (n * 2 ^ sh) d ltac:(lia)) as D.
  rewrite <- Hv in D.
  assert (Esh : 2 ^ sh = ulp_den * (2 ^ (sh - 1075 - Z.log2 v) * 2 ^ Z.succ (Z.log2 v))).
  { rewrite <- Z.pow_add_r, <- ulp_den_add by lia. f_equal. lia. }
  pose proof (pow2_pos (sh - 1075 - Z.log2 v) ltac:(lia)) as Hk.
  set (m := n * ulp_den) in *. set (K := 2 ^ (sh - 1075 - Z.log2 v)) in *.
  set (P := 2 ^ Z.succ (Z.log2 v)) in *.
  assert (EA : n * 2 ^ sh = m * (K * P)) by (rewrite Esh; unfold m; ring).
  assert (EP : P = 2 * 2 ^ Z.log2 v) by (unfold P; by rewrite Z.pow_succ_r by lia).
  rewrite EA in *. clearbody m.
  assert (Hm0 : 0 <= m) by nia.
  assert (Hlt : m * K < d) by nia.
  assert (Hmd : m < d) by nia.
  unfold rne. rewrite (Z.div_small m d), (Z.mod_small m d) by lia.
  change (Z.odd 0) with false. rewrite andb_false_r, orb_false_r, Z.gtb_ltb.
  destruct (Z.ltb_spec (Z.log2 v - sh) (-1075)) as [Hs|Hs]; cbn [orb].
  - assert (2 <= K) by (unfold K; change 2 with (2 ^ 1) at 1; apply Z.pow_le_mono_r; lia).
    destruct (Z.ltb_spec d (2 * m)); [nia|done].
  - assert (K = 1) as HK by (unfold K; by replace (sh - 1075 - Z.log2 v) with 0 by lia).
    rewrite HK in *. destruct (Z.eqb_spec (2 * m) d), (Z.ltb_spec d (2 * m)); try lia. nia.
Qed.

Section Assemble.
Context (mant : BigUInt) (n d sh v : Z) (sticky negative : bool).
Hypothesis Hrep : represents mant v.
Hypothesis HQ : scaled_quotient n d sh v sticky.

Let L := Z.log2 v.

Lemma guard_bits cut : (sticky = true -> 1 <= cut) -> cut <= 0 -> (n * 2 ^ sh) mod d = 0.
Proof using HQ.
  destruct HQ as [_ _ _ _ _ Hst _]. intros H1 H2.
  destruct (Z.eqb_spec ((n * 2 ^ sh) mod d) 0) as [|Hne]; [done|].
  cbn in Hst. specialize (H1 Hst). lia.
Qed.

Lemma sticky_long : sticky = true -> 53 <= L.
Proof using HQ. destruct HQ as [_ _ _ _ Hpos _ Hg]. intros Hs. apply Z.log2_le_pow2; [lia|by apply Hg]. Qed.

Lemma round_at_quotient s lowest keep :
  0 <= s -> s = lowest + 1074 -> keep = L + 1 - (lowest + sh) -> 1 <= keep <= 63 ->
  (sticky = true -> 1 <= lowest + sh) ->
  round_at mant (- sh) sticky lowest keep = rne (n * ulp_den) (d * 2 ^ s).
Proof using Hrep HQ.
  intros Hs E Hk Hk63 Hg. pose proof HQ as [Hn Hd Hsh Hv Hpos Hst _].
  rewrite (rne_rescale n d sh s (lowest + sh)), Hst by lia.
  rewrite (round_at_spec mant v (n * 2 ^ sh) d ((n * 2 ^ sh) mod d) (- sh) lowest).
  - by replace (lowest - - sh) with (lowest + sh) by lia.
  - done.
  - done.
  - done.
  - pose proof (Z.div_mod (n * 2 ^ sh) d ltac:(lia)) as D. rewrite <- Hv in D. lia.
  - apply Z.mod_pos_bound. done.
  - subst keep. unfold L. lia.
  - lia.
  - intros. apply (guard_bits (lowest + sh) Hg). lia.
Qed.

Lemma normal_significand :
  0 <= L - sh + 1022 -> 2 ^ 52 <= rne (n * ulp_den) (d * 2 ^ (L - sh + 1022)).
Proof using HQ.
  intros Hs. destruct HQ as [Hn Hd Hsh Hv Hpos _ _]. set (s := L - sh + 1022) in *.
  pose proof (pow2_pos s Hs) as Hps. pose proof (pow2_pos sh Hsh) as Hpsh.
  pose proof (Z.log2_spec v Hpos) as [L1 _]. fold L in L1.
  pose proof (Z.mul_div_le (n * 2 ^ sh) d Hd) as L3. rewrite <- Hv in L3.
  transitivity (n * ulp_den / (d * 2 ^ s)); [|apply rne_bounds; nia].
  apply Z.div_le_lower_bound; [nia|].
  assert (E : 2 ^ s * 2 ^ 52 * 2 ^ sh = 2 ^ L * ulp_den).
  { unfold ulp_den. rewrite <- !Z.pow_add_r by (try apply Z.log2_nonneg; lia). f_equal. unfold s. lia. }
  apply (Zmult_lt_0_le_reg_r _ _ (2 ^ sh)); [done|].
  replace (d * 2 ^ s * 2 ^ 52 * 2 ^ sh) with (d * (2 ^ s * 2 ^ 52 * 2 ^ sh)) by ring.
  rewrite E. replace (n * ulp_den * 2 ^ sh) with (n * 2 ^ sh * ulp_den) by ring.
  rewrite Z.mul_assoc. apply Z.mul_le_mono_nonneg_r; [apply Z.lt_le_incl, ulp_den_pos|]. nia.
Qed.

Lemma tiny_above_half :
  L - sh = -1075 -> ~ half_smallest n d -> (L + 1 >? 1) || sticky = true.
Proof using HQ.
  intros HL Hh. destruct HQ as [Hn Hd Hsh Hv Hpos Hst _].
  destruct sticky; [by rewrite orb_true_r|]. rewrite orb_false_r. apply Z.gtb_lt.
  pose proof (Z.log2_nonneg v). unfold L in *.
  enough (Z.log2 v <> 0) by lia. intros HL0. apply Hh. unfold half_smallest.
  pose proof (Z.log2_spec v Hpos) as Hl. rewrite HL0 in Hl. change (2 ^ Z.succ 0) with 2 in Hl.
  symmetry in Hst. apply negb_false_iff, Z.eqb_eq in Hst.
  pose proof (Z.div_mod (n * 2 ^ sh) d ltac:(lia)) as D. rewrite <- Hv, Hst in D.
  replace v with 1 in D by lia. replace sh with (1074 + 1) in D by lia.
  rewrite ulp_den_add in D by lia. change (2 ^ 1) with 2 in D. lia.
Qed.

(** The exponent and the significand of both regimes, assembled. *)
Lemma AssembleDouble_nearest :
  ~ half_smallest n d ->
  AssembleDouble mant (- sh) sticky negative = sign_bits negative + nearest_double n d.
Proof using Hrep HQ.
  intros Hhalf. pose proof HQ as [Hn Hd Hsh Hv Hpos _ _]. pose proof (Z.log2_nonneg v).
  pose proof infinity_lt as Hinf.
  unfold AssembleDouble. rewrite (BitLength_log mant v Hrep Hpos). fold L. fold L in H.
  destruct (Z.eqb_spec (L + 1) 0); [lia|].
  destruct (rne_binade (n * ulp_den) d) as [Hb _]; [pose proof ulp_den_pos; nia|done|].
  rewrite nearest_double_unfold. rewrite (binade_of_bits n d sh v) in * by done. fold L in Hb |- *.
  replace (L + 1 - 1 + - sh) with (L - sh) by lia.
  destruct (Z.ltb_spec (L - sh - 52) (-1074)) as [Hsub|Hnorm].
  - rewrite Z.max_l in * by lia. rewrite Z.mul_0_l, Z.add_0_l.
    destruct (Z.leb_spec (L - sh - -1074 + 1) 0) as [Htiny|Hkeep].
    + rewrite Z.pow_0_r, Z.mul_1_r, (tiny_quotient n d sh v sticky HQ) by (fold L; lia). fold L.
      destruct (Z.ltb_spec (L - sh) (-1075)); cbn [orb]; [by destruct negative|].
      destruct (Z.eqb_spec (2 * (n * ulp_den)) d); [done|].
      rewrite tiny_above_half by (done || lia). by destruct negative.
    + rewrite (round_at_quotient 0) by (lia || (intros Hs; pose proof (sticky_long Hs); lia)).
      rewrite lor_sign by (pow_lit; lia). rewrite Z.min_r; [done|]. unfold infinity_bits. pow_lit. lia.
  - rewrite Z.max_r in * by lia. set (s := L - sh + 1022) in *.
    replace (L - sh) with (s - 1022) by (unfold s; lia).
    rewrite (round_at_quotient s) by (unfold s; lia || (intros Hs; pose proof (sticky_long Hs); lia)).
    apply normal_fields; [unfold s; lia|].
    split; [apply normal_significand; unfold s in *; lia|lia].
Qed.
End Assemble.

(** ** [DecimalToDouble] *)

Lemma mul_pow10_represents fuel value v power :
  represents value v -> 0 < v -> 0 <= power < Z.of_nat fuel -> v * 10 ^ power < capacity ->
  represents (mul_pow10 fuel value power) (v * 10 ^ power).
Proof.
  revert value v power. induction fuel as [|fuel IH]; intros value v power H Hv Hp Hc; [lia|].
  cbn [mul_pow10]. rewrite Z.geb_leb. destruct (Z.leb_spec 9 power) as [H9|H9].
  - assert (E : v * 10 ^ power = v * 1000000000 * 10 ^ (power - 9)).
    { replace power with (9 + (power - 9)) at 1 by lia. rewrite Z.pow_add_r by lia. lia. }
    pose proof (Z.pow_pos_nonneg 10 (power - 9) ltac:(lia) ltac:(lia)).
    rewrite E. apply IH; [|lia|lia|lia].
    apply MulSmall_represents; [done|lia|nia].
  - destruct (Z.eqb_spec power 0) as [->|]; cbn [negb]; [by rewrite Z.mul_1_r|].
    assert (0 < 10 ^ power <= 10 ^ 8).
    { split; [apply Z.pow_pos_nonneg; lia|]. apply Z.pow_le_mono_r; lia. }
    apply MulSmall_represents; [done|pow_lit; lia|done].
Qed.

(** Dividing in chunks is dividing at once, with nothing lost from the sticky flag. *)
Lemma div_pow10_represents fuel value v remaining sticky :
  represents value v -> 0 <= remaining < Z.of_nat fuel ->
  let '(q, st) := div_pow10 fuel value remaining sticky in
  represents q (v / 10 ^ remaining) /\ st = sticky || negb (v mod 10 ^ remaining =? 0).
Proof.
  revert value v remaining sticky. induction fuel as [|fuel IH]; intros value v remaining sticky H Hr; [lia|].
  cbn [div_pow10]. rewrite Z.gtb_ltb. destruct (Z.ltb_spec 0 remaining) as [Hpos|Hz].
  2: { replace remaining with 0 by lia. rewrite Z.pow_0_r, Z.div_1_r, Z.mod_1_r. by rewrite orb_false_r. }
  set (chunk := if remaining >=? 9 then 9 else remaining).
  assert (Hc : 0 < chunk <= 9 /\ chunk <= remaining).
  { unfold chunk. rewrite Z.geb_leb. case_if; lia. }
  assert (0 < 10 ^ chunk <= 10 ^ 9).
  { split; [apply Z.pow_pos_nonneg; lia|]. apply Z.pow_le_mono_r; lia. }
  destruct (DivModSmall_represents value v (10 ^ chunk) H ltac:(pow_lit; lia)) as [Hq Hm].
  destruct (DivModSmall value (10 ^ chunk)) as [q r]. cbn [fst snd] in Hq, Hm. subst r.
  specialize (IH q _ (remaining - chunk) (if negb (v mod 10 ^ chunk =? 0) then true else sticky) Hq ltac:(lia)).
  destruct (div_pow10 _ _ _ _) as [q' st]. destruct IH as [IH1 IH2].
  assert (Hr' : 0 < 10 ^ (remaining - chunk)) by (apply Z.pow_pos_nonneg; lia).
  assert (E : 10 ^ remaining = 10 ^ chunk * 10 ^ (remaining - chunk)).
  { rewrite <- Z.pow_add_r by lia. f_equal. lia. }
  rewrite E. split; [by rewrite <- Z.div_div by lia|]. rewrite IH2.
  pose proof (div_div_exact v (10 ^ chunk) (10 ^ (remaining - chunk)) ltac:(lia) Hr') as X.
  destruct (Z.eqb_spec (v mod 10 ^ chunk) 0), (Z.eqb_spec ((v / 10 ^ chunk) mod 10 ^ (remaining - chunk)) 0),
    (Z.eqb_spec (v mod (10 ^ chunk * 10 ^ (remaining - chunk))) 0), sticky; cbn; try done; exfalso; tauto.
Qed.

(** The shift keeps 54 significant bits in the quotient and stays within the
    capacity, for every power the caller can ask for. *)
Definition max_power : Z := 1200.

(** The rounded product is within 512 of the exact one. *)
Lemma log2_10_product_bounds power :
  1 <= power <= max_power ->
  power * 3740158532571577 - 512 < (log2_10_product power + 1) * 2 ^ 50 /\
  log2_10_product power * 2 ^ 50 <= power * 3740158532571577 + 512.
Proof.
  unfold max_power. intros Hp. unfold log2_10_product. set (x := power * 3740158532571577).
  set (ulp := 2 ^ Z.max 0 (Z.log2 x - 52)).
  assert (Hu : 0 < ulp <= 1024).
  { split; [apply pow2_pos; lia|]. change 1024 with (2 ^ 10). apply Z.pow_le_mono_r; [lia|].
    assert (Z.log2 x <= 62); [|lia]. apply Z.lt_succ_r, Z.log2_lt_pow2; unfold x; [lia|]. change (2 ^ Z.succ 62) with 9223372036854775808. lia. }
  pose proof (rne_half x ulp ltac:(lia)) as Hr. rewrite Z.mul_comm in Hr. set (y := rne x ulp * ulp) in *.
  replace (ulp * rne x ulp) with y in Hr by (unfold y; ring). clearbody y ulp x.
  change (2 ^ 50) with 1125899906842624. dlia.
Qed.

Lemma scale_shift_ok power :
  1 <= power <= max_power ->
  2 ^ 53 * 10 ^ power <= 2 ^ scale_shift power /\ 0 <= scale_shift power <= 4051.
Proof.
  intros Hp. pose proof (log2_10_product_bounds power Hp) as [H1 H2]. unfold scale_shift, max_power in *.
  change (2 ^ 50) with 1125899906842624 in *. split; [|lia].
  rewrite (pow2_split (log2_10_product power + 64) 53) by lia.
  apply Z.mul_le_mono_nonneg_l; [apply Z.pow_nonneg; lia|]. apply pow10_le_pow2; lia.
Qed.

(** The largest mantissa the scanner can build, as an atom for the tactics. *)
Definition digit_cap : Z := 10 ^ 800.

Lemma digit_cap_capacity : digit_cap * 2 ^ 4051 < capacity.
Proof.
  eapply Z.le_lt_trans with (2 ^ 2660 * 2 ^ 4051).
  - apply Z.mul_le_mono_nonneg_r; [apply Z.pow_nonneg; lia|]. apply pow10_le_pow2; lia.
  - rewrite <- Z.pow_add_r by lia. apply Z.pow_lt_mono_r; unfold kMaxLimbs; lia.
Qed.

Lemma digit_cap_lt : digit_cap < capacity.
Proof.
  eapply Z.le_lt_trans; [|apply digit_cap_capacity].
  rewrite <- (Z.mul_1_r digit_cap) at 1. apply Z.mul_le_mono_nonneg_l; [apply Z.pow_nonneg; lia|].
  pose proof (pow2_pos 4051). lia.
Qed.

Lemma pow10_mono a b : a <= b -> 10 ^ a <= 10 ^ b.
Proof. intros. apply Z.pow_le_mono_r; lia. Qed.

Lemma pow10_digit_cap k : k <= 800 -> 10 ^ k <= digit_cap.
Proof. apply pow10_mono. Qed.

Definition ratio_num (v x : Z) : Z := v * 10 ^ Z.max 0 x.
Definition ratio_den (x : Z) : Z := 10 ^ Z.max 0 (- x).

Lemma DecimalToDouble_nearest digits v x negative :
  represents digits v -> 0 < v < digit_cap -> - max_power <= x -> (0 <= x -> v * 10 ^ x < capacity) ->
  ~ half_smallest (ratio_num v x) (ratio_den x) ->
  DecimalToDouble digits x false negative = sign_bits negative + nearest_double (ratio_num v x) (ratio_den x).
Proof.
  intros H Hv Hx Hc Hh. unfold DecimalToDouble. rewrite (represents_IsZero digits v H).
  destruct (Z.eqb_spec v 0); [lia|]. rewrite Z.geb_leb. unfold ratio_num, ratio_den in *.
  destruct (Z.leb_spec 0 x) as [Hx0|Hx0].
  - rewrite Z.max_r, Z.max_l, Z.pow_0_r in * by lia.
    apply (AssembleDouble_nearest _ _ _ 0 (v * 10 ^ x)); [|split|done].
    + apply mul_pow10_represents; [done|lia|lia|auto].
    + nia.
    + lia.
    + lia.
    + by rewrite Z.pow_0_r, Z.mul_1_r, Z.div_1_r.
    + pose proof (Z.pow_pos_nonneg 10 x ltac:(lia) Hx0). nia.
    + by rewrite Z.mod_1_r.
    + done.
  - rewrite Z.max_l, Z.max_r, Z.pow_0_r, Z.mul_1_r in * by lia.
    destruct (scale_shift_ok (- x) ltac:(unfold max_power in *; lia)) as [Hs1 Hs2]. set (sh := scale_shift (- x)) in *.
    pose proof (pow2_pos sh ltac:(lia)). assert (Hd : 0 < 10 ^ (- x)) by (apply Z.pow_pos_nonneg; lia).
    assert (Hr : represents (ShiftLeft digits sh) (v * 2 ^ sh)).
    { apply ShiftLeft_represents; [done|lia|]. eapply Z.le_lt_trans; [|apply digit_cap_capacity].
      apply Z.mul_le_mono_nonneg; [lia..|]. apply Z.pow_le_mono_r; lia. }
    pose proof (div_pow10_represents (S (Z.to_nat (- x))) _ _ (- x) false Hr ltac:(lia)) as Hdv.
    destruct (div_pow10 _ _ _ _) as [q st]. destruct Hdv as [Hq Hst].
    apply (AssembleDouble_nearest _ _ _ _ _ _ _ Hq); [|done].
    assert (2 ^ 53 <= v * 2 ^ sh / 10 ^ (- x)) by (apply Z.div_le_lower_bound; nia).
    split; try (lia || done).
Qed.

(** ** Scanning *)

Definition digit_char (d : Z) : Z := d + 48.
Definition is_dec (d : Z) : Prop := 0 <= d < 10.

Lemma is_digit_char d : is_dec d -> is_digit (digit_char d) = true.
Proof. unfold is_dec, is_digit, digit_char. intros. apply andb_true_iff. rewrite !Z.leb_le. lia. Qed.

(** What the digits read so far stand for: a bignum of value [v] that has exactly
    [sc_significant] decimal digits. *)
Record scan_ok (s : Scan) (v : Z) : Prop := {
  so_rep : represents (sc_digits s) v;
  so_sig : (v = 0 /\ sc_significant s = 0) \/
           (1 <= sc_significant s /\ 10 ^ (sc_significant s - 1) <= v < 10 ^ sc_significant s);
  so_sticky : sc_sticky s = false
}.

Lemma scan_ok_nonneg s v : scan_ok s v -> 0 <= v.
Proof. intros [H _ _]. pose proof (represents_bound _ _ H). lia. Qed.

(** One digit below the cap, in either loop; only the exponent bookkeeping differs. *)
Lemma scan_digit_ok s v d :
  scan_ok s v -> is_dec d -> sc_significant s < kMaxSignificantDigits ->
  (let s' := scan_int_digit s (digit_char d) in
   scan_ok s' (v * 10 + d) /\ sc_significant s' <= sc_significant s + 1 /\
   sc_exponent s' = sc_exponent s /\ sc_any s' = true) /\
  (let s' := scan_frac_digit s (digit_char d) in
   scan_ok s' (v * 10 + d) /\ sc_significant s' <= sc_significant s + 1 /\
   sc_exponent s' = sc_exponent s - 1 /\ sc_any s' = true).
Proof.
  intros H Hd Hcap. pose proof (scan_ok_nonneg s v H) as Hv.
  destruct s as [ds sig ex any st]. destruct H as [Hr Hs Hst]. cbn [sc_digits sc_significant sc_sticky] in *.
  unfold is_dec, kMaxSignificantDigits in *. unfold scan_int_digit, scan_frac_digit, digit_char, kMaxSignificantDigits.
  rewrite (represents_IsZero ds v Hr). destruct (Z.ltb_spec sig 800); [|lia].
  replace (d + 48 =? 48) with (d =? 0) by (apply bool_eq_iff; rewrite !Z.eqb_eq; lia).
  replace (u32 (d + 48 - 48)) with d by (rewrite wrap_small; [lia|unfold fits; pow_lit; lia]).
  destruct ((v =? 0) && (d =? 0)) eqn:E; cbn [sc_significant sc_exponent sc_any].
  - bprop. subst. replace (0 * 10 + 0) with 0 by lia.
    split; (split; [by split|lia]).
  - assert (Hup : v * 10 + d < 10 ^ (sig + 1) /\ (v = 0 -> 1 <= d)).
    { rewrite Z.pow_add_r by lia. apply andb_false_iff in E. split; [destruct Hs as [[-> ->]|]; lia|].
      intros ->. destruct E as [E|E]; bprop; lia. }
    assert (Hcp : v * 10 + d < capacity).
    { eapply Z.lt_trans; [apply Hup|]. eapply Z.le_lt_trans; [|apply digit_cap_lt].
      apply pow10_digit_cap. lia. }
    pose proof (MulAddSmall_represents ds v 10 d Hr ltac:(pow_lit; lia) ltac:(unfold fits; pow_lit; lia) Hcp).
    assert (Hs' : (1 <= sig + 1 /\ 10 ^ (sig + 1 - 1) <= v * 10 + d < 10 ^ (sig + 1))).
    { split; [lia|]. split; [|apply Hup]. rewrite Z.add_simpl_r.
      destruct Hs as [[-> ->]|[Hs1 Hs2]]; [destruct Hup; lia|].
      replace sig with (1 + (sig - 1)) by lia. rewrite Z.pow_add_r by lia. lia. }
    split; (split; [split; cbn; [done|by right|done]|lia]).
Qed.

Section ScanLoop.
(** Both digit loops: [f] steps the state, moving the exponent by [delta]. *)
Context (f : Scan -> Z -> Scan) (delta : Z).
Hypothesis Hf : forall s v d,
  scan_ok s v -> is_dec d -> sc_significant s < kMaxSignificantDigits ->
  scan_ok (f s (digit_char d)) (v * 10 + d) /\
  sc_significant (f s (digit_char d)) <= sc_significant s + 1 /\
  sc_exponent (f s (digit_char d)) = sc_exponent s + delta /\ sc_any (f s (digit_char d)) = true.

Lemma scan_loop_run ds s v rest :
  Forall is_dec ds -> scan_ok s v -> is_digit (deref rest) = false ->
  sc_significant s + Z.of_nat (length ds) <= kMaxSignificantDigits ->
  let '(s', p) := scan_loop f s (map digit_char ds ++ rest) in
  p = rest /\ scan_ok s' (v * 10 ^ Z.of_nat (length ds) + bval 10 ds) /\
  sc_significant s' <= sc_significant s + Z.of_nat (length ds) /\
  sc_exponent s' = sc_exponent s + delta * Z.of_nat (length ds) /\
  sc_any s' = sc_any s || negb (bool_decide (ds = [])).
Proof using Hf.
  intros Hds. revert s v. induction Hds as [|d ds Hd Hds IH]; intros s v Hs Hrest Hlen.
  - cbn [map app length]. rewrite orb_false_r. replace (v * 10 ^ Z.of_nat 0 + bval 10 []) with v by (cbn; lia).
    destruct rest as [|c rest]; cbn [scan_loop]; [|cbn in Hrest; rewrite Hrest];
      (split; [done|split; [done|split; [lia|split; [lia|done]]]]).
  - cbn [map app scan_loop]. rewrite is_digit_char by done. cbn [length] in *.
    destruct (Hf s v d Hs Hd ltac:(lia)) as (H1 & H2 & H3 & H4).
    specialize (IH _ _ H1 Hrest ltac:(lia)). destruct (scan_loop f _ _) as [s' p].
    destruct IH as (-> & I1 & I2 & I3 & I4). split; [done|].
    rewrite bval_cons, Nat2Z.inj_succ, Z.pow_succ_r by lia. split.
    + by replace (v * (10 * 10 ^ Z.of_nat (length ds)) + (d * 10 ^ Z.of_nat (length ds) + bval 10 ds))
        with ((v * 10 + d) * 10 ^ Z.of_nat (length ds) + bval 10 ds) by ring.
    + split; [lia|]. split; [lia|]. rewrite I4, H4. cbn. by rewrite orb_true_r.
Qed.
End ScanLoop.

Definition int_loop_run := scan_loop_run scan_int_digit 0
  (fun s v d Hs Hd Hc => ltac:(rewrite Z.add_0_r; exact (proj1 (scan_digit_ok s v d Hs Hd Hc)))).
Definition frac_loop_run := scan_loop_run scan_frac_digit (-1)
  (fun s v d Hs Hd Hc => proj2 (scan_digit_ok s v d Hs Hd Hc)).

(** The exponent digits: exact below the growth cap, and certainly out of range above. *)
Lemma exponent_loop_run es m rest :
  Forall is_dec es -> 0 <= m -> is_digit (deref rest) = false ->
  let '(m', p) := exponent_loop m (map digit_char es ++ rest) in
  let e := m * 10 ^ Z.of_nat (length es) + bval 10 es in
  p = rest /\ 0 <= m' /\ (m' = e \/ (100000 <= m' /\ 100000 <= e)).
Proof.
  intros Hes. revert m. induction Hes as [|d es Hd Hes IH]; intros m Hm Hrest.
  - cbn [map app length]. destruct rest as [|c rest]; cbn [exponent_loop]; [|cbn in Hrest; rewrite Hrest];
      (split; [done|split; [done|left; cbn; lia]]).
  - cbn [map app exponent_loop]. rewrite is_digit_char by done. unfold is_dec in Hd.
    replace (digit_char d - 48) with d by (unfold digit_char; lia).
    specialize (IH (if m <? 100000 then m * 10 + d else m) ltac:(case_if; lia) Hrest).
    destruct (exponent_loop _ _) as [m' p]. destruct IH as (-> & Hm' & He). split; [done|]. split; [done|].
    rewrite bval_cons. cbn [length]. rewrite Nat2Z.inj_succ, Z.pow_succ_r by lia.
    pose proof (Z.pow_pos_nonneg 10 (Z.of_nat (length es)) ltac:(lia) ltac:(lia)) as Hp.
    pose proof (proj1 (bval_bound 10 es ltac:(lia) Hes)) as Hb.
    destruct (Z.ltb_spec m 100000); [destruct He as [He|He]; [left|right]; nia|].
    right. split; [|nia]. destruct He as [->|[? _]]; [nia|lia].
Qed.

(** ** Decimal literals *)

Inductive exp_syntax :=
  | NoExp
  | Exp (upper : bool) (sign : option bool) (es : list Z).

Record literal := mkLit {
  lit_blank : list Z; lit_sign : option bool;
  lit_int : list Z; lit_frac : option (list Z); lit_exp : exp_syntax }.

Definition sign_text (s : option bool) : list Z :=
  match s with None => [] | Some true => [45] | Some false => [43] end.
Definition sign_neg (s : option bool) : bool := match s with Some b => b | None => false end.

Definition exp_text (e : exp_syntax) : list Z :=
  match e with
  | NoExp => []
  | Exp upper s es => (if upper then 69 else 101) :: sign_text s ++ map digit_char es
  end.
Definition exp_value (e : exp_syntax) : Z :=
  match e with
  | NoExp => 0
  | Exp _ s es => if sign_neg s then - bval 10 es else bval 10 es
  end.

Definition frac_text (f : option (list Z)) : list Z :=
  match f with None => [] | Some ds => 46 :: map digit_char ds end.
Definition frac_digits (f : option (list Z)) : list Z := match f with None => [] | Some ds => ds end.

Definition body_text (l : literal) (rest : list Z) : list Z :=
  map digit_char (lit_int l) ++ frac_text (lit_frac l) ++ exp_text (lit_exp l) ++ rest.
Definition literal_text (l : literal) (rest : list Z) : list Z :=
  lit_blank l ++ sign_text (lit_sign l) ++ body_text l rest.

Definition lit_digits (l : literal) : list Z := lit_int l ++ frac_digits (lit_frac l).
Definition lit_mantissa (l : literal) : Z := bval 10 (lit_digits l).
Definition lit_scale (l : literal) : Z := exp_value (lit_exp l) - Z.of_nat (length (frac_digits (lit_frac l))).

(** The shape of the text: blanks, digits in range, at least one of them, at most
    [kMaxSignificantDigits], and a rest that does not continue the literal. *)
Record lit_ok (l : literal) (rest : list Z) : Prop := {
  lo_blank : Forall (fun c => IsSpace c = true) (lit_blank l);
  lo_digits : Forall is_dec (lit_digits l);
  lo_some : lit_digits l <> [];
  lo_cap : Z.of_nat (length (lit_digits l)) <= kMaxSignificantDigits;
  lo_exp : match lit_exp l with NoExp => True | Exp _ _ es => es <> [] /\ Forall is_dec es end;
  lo_rest : is_digit (deref rest) = false /\ (lit_exp l = NoExp -> Lower (deref rest) <> 101) /\
            (lit_frac l = None -> lit_exp l = NoExp -> deref rest <> 46)
}.

Lemma skip_space_app bs p :
  Forall (fun c => IsSpace c = true) bs -> skip_space (bs ++ p) = skip_space p.
Proof. induction 1 as [|c bs Hc _ IH]; [done|]. cbn [app skip_space]. by rewrite Hc. Qed.

(** The first character of the number is a digit or the point. *)
Lemma body_head l rest :
  lit_ok l rest -> is_digit (deref (body_text l rest)) = true \/ deref (body_text l rest) = 46.
Proof.
  intros [_ Hd Hs _ _ _]. unfold body_text, lit_digits in *.
  destruct (lit_int l) as [|d ds]; cbn [map app] in *.
  - right. by destruct (lit_frac l).
  - left. apply is_digit_char. by inversion Hd.
Qed.

Lemma SkipSpaceAndSign_literal l rest :
  lit_ok l rest ->
  SkipSpaceAndSign (literal_text l rest) = (body_text l rest, sign_neg (lit_sign l)).
Proof.
  intros H. pose proof (body_head l rest H) as Hh. unfold SkipSpaceAndSign, literal_text.
  rewrite skip_space_app by apply H. set (b := body_text l rest) in *.
  assert (Hb : skip_space b = b /\ deref b <> 43 /\ deref b <> 45).
  { unfold is_digit in Hh. rewrite andb_true_iff, !Z.leb_le in Hh.
    destruct b as [|c b]; cbn in *; [lia|]. split; [|lia]. unfold IsSpace. repeat case_if; done || lia. }
  destruct Hb as (Hb1 & Hb2 & Hb3).
  destruct (lit_sign l) as [[]|]; cbn [sign_text app sign_neg]; [done|done|].
  rewrite Hb1. repeat case_if; try done; apply orb_true_iff in E as [E|E]; bprop; congruence.
Qed.

Lemma MatchWord_not p w word : Lower (deref p) <> w -> MatchWord p (w :: word) = None.
Proof. intros H. cbn [MatchWord]. apply Z.eqb_neq in H. by rewrite H. Qed.

Lemma scan_exponent_spec e rest :
  match e with NoExp => True | Exp _ _ es => es <> [] /\ Forall is_dec es end ->
  is_digit (deref rest) = false -> (e = NoExp -> Lower (deref rest) <> 101) ->
  exists x, scan_exponent (exp_text e ++ rest) = (x, rest) /\
    (x = exp_value e \/ (100000 <= x /\ 100000 <= exp_value e) \/ (x <= -100000 /\ exp_value e <= -100000)).
Proof.
  intros He Hr Hne. destruct e as [|u s es]; cbn [exp_text exp_value].
  - exists 0. cbn [app]. unfold scan_exponent. destruct (Z.eqb_spec (Lower (deref rest)) 101); [by destruct Hne|]. auto.
  - destruct He as [Hes Hd]. destruct es as [|d es]; [done|].
    assert (Hdd : is_dec d) by by inversion Hd.
    assert (Hc : is_digit (digit_char d) = true) by by apply is_digit_char.
    pose proof (exponent_loop_run (d :: es) 0 rest Hd ltac:(lia) Hr) as HE.
    destruct (exponent_loop 0 _) as [m p] eqn:EL. destruct HE as (-> & Hm & Hx).
    rewrite Z.mul_0_l, Z.add_0_l in Hx. set (v := bval 10 (d :: es)) in *.
    exists (if sign_neg s then - m else m). split; [|destruct (sign_neg s); lia].
    unfold scan_exponent. assert ((Lower (deref (((if u then 69 else 101) :: sign_text s ++ map digit_char (d :: es)) ++ rest)) =? 101) = true) as -> by by destruct u.
    cbn [app List.tl]. unfold is_dec in Hdd. rewrite <- app_assoc.
    destruct s as [[]|]; cbn [sign_text app deref List.hd List.tl sign_neg map] in *.
    + cbn [Z.eqb Pos.eqb orb]. unfold deref; cbn [List.hd]. by rewrite Hc, EL.
    + cbn [Z.eqb Pos.eqb orb]. unfold deref; cbn [List.hd]. by rewrite Hc, EL.
    + unfold deref; cbn [List.hd]. assert ((digit_char d =? 43) || (digit_char d =? 45) = false) as ->.
      { apply orb_false_iff. rewrite !Z.eqb_neq. unfold digit_char. lia. }
      cbn [List.hd]. by rewrite Hc, EL.
Qed.

(** The state after both digit loops. *)
Lemma scan_literal l rest :
  lit_ok l rest ->
  let '(s, p) := scan_loop scan_int_digit (mkScan [] 0 0 false false) (body_text l rest) in
  let '(s, p) := if deref p =? 46 then scan_loop scan_frac_digit s (List.tl p) else (s, p) in
  p = exp_text (lit_exp l) ++ rest /\ scan_ok s (lit_mantissa l) /\
  sc_significant s <= kMaxSignificantDigits /\
  sc_exponent s = - Z.of_nat (length (frac_digits (lit_frac l))) /\ sc_any s = true.
Proof.
  intros [_ Hd Hsome Hcap He (Hr1 & Hr2 & Hr3)]. unfold body_text, lit_mantissa, lit_digits in *.
  apply Forall_app in Hd as [Hdi Hdf]. rewrite length_app in Hcap.
  assert (Hs0 : scan_ok (mkScan [] 0 0 false false) 0) by (split; [apply represents_nil|by left|done]).
  assert (Hx : is_digit (deref (exp_text (lit_exp l) ++ rest)) = false).
  { destruct (lit_exp l) as [|[] ? ?]; done. }
  assert (Htail : is_digit (deref (frac_text (lit_frac l) ++ exp_text (lit_exp l) ++ rest)) = false)
    by by destruct (lit_frac l).
  pose proof (int_loop_run (lit_int l) _ 0 _ Hdi Hs0 Htail) as HI. cbn [sc_significant sc_exponent sc_any] in HI.
  specialize (HI ltac:(lia)). destruct (scan_loop scan_int_digit _ _) as [s p].
  destruct HI as (-> & I1 & I2 & I3 & I4). rewrite Z.mul_0_l, Z.add_0_l in I1. rewrite bval_app.
  destruct (lit_frac l) as [fs|] eqn:EF; cbn [frac_text frac_digits app] in *.
  - cbn [deref List.hd List.tl Z.eqb Pos.eqb].
    pose proof (frac_loop_run fs s _ _ Hdf I1 Hx ltac:(lia)) as HF.
    destruct (scan_loop scan_frac_digit _ _) as [s' p]. destruct HF as (-> & F1 & F2 & F3 & F4).
    split; [done|]. split; [done|]. split; [lia|]. split; [lia|]. rewrite F4, I4.
    destruct (lit_int l), fs; done.
  - destruct (Z.eqb_spec (deref (exp_text (lit_exp l) ++ rest)) 46) as [E46|_].
    { destruct (lit_exp l) as [|[] ? ?] eqn:EE; [by destruct (Hr3 eq_refl eq_refl)|done..]. }
    split; [done|]. rewrite Z.mul_1_r, Z.add_0_r. split; [done|]. split; [cbn in *; lia|]. split; [cbn; lia|].
    rewrite I4. destruct (lit_int l); done.
Qed.

(** [10^28 = 2^93.01...] bounds powers of two from above. *)
Lemma ulp_den_tiny : 2 * ulp_den <= 10 ^ 401.
Proof. unfold ulp_den. rewrite <- (Z.pow_succ_r 2 1074) by lia. by apply pow2_le_pow10. Qed.

(** Below the estimate cut-off the nearest double is zero... *)
Lemma estimate_tiny v sig x :
  1 <= sig -> 10 ^ (sig - 1) <= v < 10 ^ sig -> sig + x < -400 ->
  nearest_double (ratio_num v x) (ratio_den x) = 0.
Proof.
  intros Hs Hv Hx. unfold ratio_num, ratio_den. rewrite Z.max_l, Z.max_r, Z.pow_0_r, Z.mul_1_r by lia.
  pose proof (Z.pow_pos_nonneg 10 (sig - 1) ltac:(lia) ltac:(lia)).
  apply nearest_tiny; [lia|apply Z.pow_pos_nonneg; lia|].
  assert (E : 10 ^ sig * 10 ^ 401 <= 10 ^ (- x)) by (rewrite <- Z.pow_add_r by lia; apply pow10_mono; lia).
  pose proof ulp_den_tiny as T. fold (10 ^ 401) in T. pose proof ulp_den_pos.
  assert (0 < 10 ^ 401) by (apply Z.pow_pos_nonneg; lia).
  set (Q := 10 ^ 401) in *. clearbody Q. nia.
Qed.

(** ... and above it infinity. *)
Lemma estimate_huge v sig x :
  1 <= sig -> 10 ^ (sig - 1) <= v < 10 ^ sig -> sig + x > 350 ->
  nearest_double (ratio_num v x) (ratio_den x) = infinity_bits.
Proof.
  intros Hs Hv Hx. unfold ratio_num, ratio_den.
  assert (Hd : 0 < 10 ^ Z.max 0 (- x)) by (apply Z.pow_pos_nonneg; lia).
  apply nearest_huge; [done|].
  assert (Ho : overflow_num <= 10 ^ 350) by by apply pow2_le_pow10.
  transitivity (10 ^ (sig - 1) * 10 ^ Z.max 0 x).
  - transitivity (10 ^ Z.max 0 (- x) * 10 ^ 350); [apply Z.mul_le_mono_nonneg_l; lia|].
    rewrite <- !Z.pow_add_r by lia. apply pow10_mono. lia.
  - apply Z.mul_le_mono_nonneg_r; [apply Z.pow_nonneg|]; lia.
Qed.


(** A concrete literal: [" -1.5e3"] followed by [x]. *)
Definition example_literal : literal :=
  mkLit [32] (Some true) [1] (Some [5]) (Exp false None [3]).

Lemma example_literal_ok : lit_ok example_literal [120].
Proof.
  split; cbn; repeat constructor; unfold is_dec, kMaxSignificantDigits; try lia; try done.
Qed.


(** The excluded tie is broken the wrong way: for every spelling
    [2^k * 2^(-1075-k)] with [k >= 1] of the exact value [2^-1075] (half of the
    smallest subnormal) [AssembleDouble] returns the smallest subnormal, although
    ties to even, and the comment in the source, ask for zero. *)
Theorem AssembleDouble_half_smallest_up k :
  1 <= k <= 7000 ->
  AssembleDouble (ShiftLeft (SetU64 1) k) (-1075 - k) false false = 1 /\
  nearest_double 1 (2 ^ 1075) = 0.
Proof.
  intros Hk. split; [|vm_compute; reflexivity].
  assert (Hc : 2 ^ k < capacity).
  { apply Z.pow_lt_mono_r; [lia|unfold kMaxLimbs; lia|unfold kMaxLimbs; lia]. }
  assert (H : represents (ShiftLeft (SetU64 1) k) (2 ^ k)).
  { rewrite <- (Z.mul_1_l (2 ^ k)). apply ShiftLeft_represents; [|lia|lia].
    apply SetU64_represents. unfold fits. pow_lit. lia. }
  unfold AssembleDouble. rewrite (BitLength_log _ _ H), Z.log2_pow2 by (try apply pow2_pos; lia).
  destruct (Z.eqb_spec (k + 1) 0); [lia|].
  destruct (Z.ltb_spec (k + 1 - 1 + (-1075 - k) - 52) (-1074)); [|lia].
  destruct (Z.leb_spec (k + 1 - 1 + (-1075 - k) - -1074 + 1) 0); [|lia].
  destruct (Z.ltb_spec (k + 1 - 1 + (-1075 - k)) (-1075)); [lia|].
  rewrite Z.gtb_ltb. destruct (Z.ltb_spec 1 (k + 1)); [done|lia].
Qed.

Lemma AssembleDouble_half_smallest_up_witness :
  AssembleDouble (ShiftLeft (SetU64 1) 5) (-1080) false false = 1.
Proof. exact (proj1 (AssembleDouble_half_smallest_up 5 ltac:(lia))). Defined.
