(* ===== verification/FloatFormat.v ===== *)
(** * [src/base/strings/float_format.cc]: exact binary to decimal

    [ExpandExact], [RoundTo], the [Writer] and the layouts of [FormatFloatTo].
    Characters are their codes; a [Decimal] keeps the first [count] entries of the
    source's digit buffer. *)

From S2P Require Import Prelude Bignum Ieee.

(** ** Exact expansion *)

Definition kPow5Chunk : Z := 1220703125.
Definition kPow5ChunkExp : Z := 13.

(** The value is [0.digits * 10^exponent]; [count] is the length of [digits]. *)
Record Decimal := mkDecimal { digits : list Z; exponent : Z }.
Definition count (d : Decimal) : Z := Z.of_nat (length (digits d)).

(** [while (power >= 13) n.MulSmall(5^13)], then the table entry. *)
Fixpoint mul_pow5 (fuel : nat) (n : BigUInt) (power : Z) : BigUInt :=
  match fuel with
  | O => n
  | S fuel =>
      if power >=? kPow5ChunkExp then mul_pow5 fuel (MulSmall n kPow5Chunk) (power - kPow5ChunkExp)
      else if negb (power =? 0) then MulSmall n (5 ^ power) else n
  end.

Fixpoint group_digits (k : nat) (group : Z) : list Z :=
  match k with
  | O => []
  | S k => (48 + group mod 10) :: group_digits k (group / 10)
  end.

(** [while (!n.IsZero())]: nine digits per division, least significant first. *)
Fixpoint extract_groups (fuel : nat) (n : BigUInt) : list Z :=
  match fuel with
  | O => []
  | S fuel =>
      if IsZero n then []
      else let '(n, group) := DivModSmall n 1000000000 in
           group_digits 9 group ++ extract_groups fuel n
  end.

(** [while (length > 0 && reversed[length - 1] == '0') length--]. *)
Fixpoint strip_zeros (l : list Z) : list Z :=
  match l with
  | [] => []
  | c :: l => match strip_zeros l with
              | [] => if c =? 48 then [] else [c]
              | t => c :: t
              end
  end.

(** The [char reversed[800]] of the source holds at most 88 groups of nine. *)
Definition max_groups : nat := 88.

Definition ExpandExact (mantissa exponent2 : Z) : Decimal :=
  let n := SetU64 mantissa in
  let '(n, fraction_digits) :=
    if exponent2 >=? 0 then (ShiftLeft n exponent2, 0)
    else (mul_pow5 (S (Z.to_nat (- exponent2))) n (- exponent2), - exponent2) in
  let reversed := strip_zeros (extract_groups max_groups n) in
  mkDecimal (rev reversed) (Z.of_nat (length reversed) - fraction_digits).

(** ** Rounding *)

(** The carry loop from the last kept digit leftwards, on the reversed digits:
    [None] when every digit was a nine. *)
Fixpoint carry_loop (l : list Z) : option (list Z) :=
  match l with
  | [] => None
  | c :: l => if negb (c =? 57) then Some (c + 1 :: l)
              else match carry_loop l with Some l => Some (48 :: l) | None => None end
  end.

Definition RoundTo (value : Decimal) (keep : Z) : Decimal :=
  if keep >=? count value then value
  else if keep <? 0 then mkDecimal [] (exponent value)
  else
    let kept := take (Z.to_nat keep) (digits value) in
    let first_dropped := List.nth (Z.to_nat keep) (digits value) 0 in
    let rest := drop (S (Z.to_nat keep)) (digits value) in
    let round_up :=
      if first_dropped >? 53 then true
      else if first_dropped <? 53 then false
      else
        let rest_nonzero := existsb (fun c => negb (c =? 48)) rest in
        rest_nonzero || ((keep >? 0) && negb (Z.land (List.last kept 0 - 48) 1 =? 0)) in
    if negb round_up then mkDecimal kept (exponent value)
    else match carry_loop (rev kept) with
         | Some l => mkDecimal (rev l) (exponent value)
         | None => mkDecimal (49 :: replicate (Z.to_nat keep - 1) 48) (exponent value + 1)
         end.

(** ** The bounded writer *)

(** [out_] holds the characters stored so far; [length_] counts every [Put]. *)
Record Writer := mkWriter { out_ : list Z; capacity_ : Z; length_ : Z }.

Definition new_writer (capacity : Z) : Writer := mkWriter [] capacity 0.

Definition Put (w : Writer) (c : Z) : Writer :=
  mkWriter (if length_ w <? capacity_ w then out_ w ++ [c] else out_ w) (capacity_ w) (length_ w + 1).

Definition PutAll (w : Writer) (text : list Z) : Writer := fold_left Put text w.

(** [for (i = from; i < from + n; i++) writer.Put(f(i))]. *)
Fixpoint put_loop (w : Writer) (n : nat) (from : Z) (f : Z -> Z) : Writer :=
  match n with
  | O => w
  | S n => put_loop (Put w (f from)) n (from + 1) f
  end.

Definition digit_at (value : Decimal) (index : Z) : Z :=
  if (0 <=? index) && (index <? count value) then List.nth (Z.to_nat index) (digits value) 0 else 48.

Definition WriteSign (w : Writer) (negative : bool) (sign : Z) : Writer :=
  if negative then Put w 45
  else if (sign =? 43) || (sign =? 32) then Put w sign
  else w.

Definition WriteFixed (w : Writer) (value : Decimal) (precision : Z) (alt : bool) : Writer :=
  let w := if exponent value <=? 0 then Put w 48
           else put_loop w (Z.to_nat (exponent value)) 0 (digit_at value) in
  if precision <=? 0 then if alt then Put w 46 else w
  else put_loop (Put w 46) (Z.to_nat precision) 1 (fun k => digit_at value (exponent value + k - 1)).

Definition WriteScientific (w : Writer) (value : Decimal) (precision : Z) (alt uppercase : bool) : Writer :=
  let zero := count value =? 0 in
  let w := Put w (if zero then 48 else List.nth 0 (digits value) 0) in
  let w := if precision >? 0 then put_loop (Put w 46) (Z.to_nat precision) 1 (digit_at value)
           else if alt then Put w 46 else w in
  let w := Put w (if uppercase then 69 else 101) in
  let exponent := if zero then 0 else exponent value - 1 in
  let w := Put w (if exponent <? 0 then 45 else 43) in
  let magnitude := if exponent <? 0 then - exponent else exponent in
  if magnitude >=? 100
  then Put (Put (Put w (48 + magnitude / 100)) (48 + magnitude / 10 mod 10)) (48 + magnitude mod 10)
  else Put (Put w (48 + magnitude / 10)) (48 + magnitude mod 10).

(** [while (count > 0 && digits[count - 1] == '0') count--]. *)
Definition drop_trailing_zeros (value : Decimal) : Decimal :=
  mkDecimal (strip_zeros (digits value)) (exponent value).

Definition WriteGeneral (w : Writer) (value : Decimal) (precision : Z) (alt uppercase : bool) : Writer :=
  let significant := if precision <? 0 then 6 else if precision =? 0 then 1 else precision in
  let value := RoundTo value significant in
  let zero := count value =? 0 in
  let scientific_exponent := if zero then 0 else exponent value - 1 in
  let value := if negb alt then drop_trailing_zeros value else value in
  if (scientific_exponent >=? -4) && (scientific_exponent <? significant) then
    let fraction := significant - 1 - scientific_exponent in
    let fraction := if negb alt then Z.max 0 (count value - exponent value) else fraction in
    WriteFixed w value fraction alt
  else
    let fraction := significant - 1 in
    let fraction := if negb alt then (if count value >? 0 then count value - 1 else 0) else fraction in
    WriteScientific w value fraction alt uppercase.

Definition WriteNonFinite (w : Writer) (negative : bool) (sign : Z) (is_nan uppercase : bool) : Writer :=
  PutAll (WriteSign w negative sign)
    (if is_nan then (if uppercase then [78; 65; 78] else [110; 97; 110])
     else (if uppercase then [73; 78; 70] else [105; 110; 102])).

(** The characters stored in [out] and the returned length. *)
Definition FormatFloatTo (capacity bits type precision sign : Z) (alt : bool) : list Z * Z :=
  let writer := new_writer capacity in
  let uppercase := (65 <=? type) && (type <=? 90) in
  let lower := if uppercase then type - 65 + 97 else type in
  let negative := negb (Z.shiftr bits 63 =? 0) in
  let biased_exponent := Z.land (Z.shiftr bits 52) 0x7FF in
  let fraction := Z.land bits 0xFFFFFFFFFFFFF in
  let w :=
    if biased_exponent =? 0x7FF
    then WriteNonFinite writer negative sign (negb (fraction =? 0)) uppercase
    else
      let '(mantissa, exponent2) :=
        if biased_exponent =? 0 then (fraction, -1074)
        else (Z.lor fraction (Z.shiftl 1 52), biased_exponent - 1075) in
      let decimal := if mantissa =? 0 then mkDecimal [] 1 else ExpandExact mantissa exponent2 in
      let writer := WriteSign writer negative sign in
      if lower =? 101 then
        let decimal := RoundTo decimal ((if precision <? 0 then 6 else precision) + 1) in
        WriteScientific writer decimal (if precision <? 0 then 6 else precision) alt uppercase
      else if lower =? 103 then WriteGeneral writer decimal precision alt uppercase
      else
        let fraction_digits := if precision <? 0 then 6 else precision in
        let decimal := RoundTo decimal (exponent decimal + fraction_digits) in
        let decimal := if count decimal =? 0 then mkDecimal (digits decimal) 1 else decimal in
        WriteFixed writer decimal fraction_digits alt in
  (out_ w, length_ w).

(** ** The writer stores a prefix and counts everything *)

Lemma PutAll_app w s t : PutAll w (s ++ t) = PutAll (PutAll w s) t.
Proof. apply fold_left_app. Qed.

Lemma Put_PutAll w c : Put w c = PutAll w [c].
Proof. done. Qed.

Lemma put_loop_PutAll w n from f :
  put_loop w n from f = PutAll w (map (fun i => f (from + Z.of_nat i)) (seq 0 n)).
Proof.
  revert w from. induction n as [|n IH]; intros w from; [done|].
  cbn [put_loop seq map]. rewrite IH, <- seq_shift, map_map. unfold PutAll. cbn [fold_left].
  rewrite Z.add_0_r. f_equal. apply map_ext. intros i. f_equal. lia.
Qed.

Lemma PutAll_new cap t :
  0 <= cap ->
  PutAll (new_writer cap) t = mkWriter (take (Z.to_nat cap) t) cap (Z.of_nat (length t)).
Proof.
  intros Hc. induction t as [|c t IH] using rev_ind; [by rewrite take_nil|].
  rewrite PutAll_app, IH. cbn [PutAll fold_left]. unfold Put. cbn [out_ capacity_ length_].
  rewrite length_app. cbn [length]. f_equal; [|lia]. rewrite take_app.
  destruct (Z.ltb_spec (Z.of_nat (length t)) cap).
  - f_equal. replace (Z.to_nat cap - length t)%nat with (S (Z.to_nat cap - length t - 1)) by lia.
    cbn [take]. by rewrite take_nil.
  - replace (Z.to_nat cap - length t)%nat with 0%nat by lia. by rewrite app_nil_r.
Qed.

(** ** Digit strings *)

Definition dv (c : Z) : Z := c - 48.
Definition ascii_digit (c : Z) : Prop := 48 <= c < 58.
Definition dval (l : list Z) : Z := bval 10 (map dv l).

Lemma dv_range l : Forall ascii_digit l -> Forall (fun d => 0 <= d < 10) (map dv l).
Proof. intros H. apply Forall_map. eapply Forall_impl; [|exact H]. unfold ascii_digit, dv. cbn. lia. Qed.

Lemma dval_app s t : dval (s ++ t) = dval s * 10 ^ Z.of_nat (length t) + dval t.
Proof. unfold dval. by rewrite map_app, bval_app, length_map. Qed.

Lemma dval_cons c l : dval (c :: l) = dv c * 10 ^ Z.of_nat (length l) + dval l.
Proof. unfold dval. cbn [map]. by rewrite bval_cons, length_map. Qed.

Lemma dval_bound l : Forall ascii_digit l -> 0 <= dval l < 10 ^ Z.of_nat (length l).
Proof. intros H. rewrite <- (length_map dv). apply bval_bound; [lia|by apply dv_range]. Qed.

Lemma dval_zeros n : dval (replicate n 48) = 0.
Proof. induction n as [|n IH]; [done|]. cbn [replicate]. rewrite dval_cons, IH. unfold dv. lia. Qed.

(** A digit string without leading zero. *)
Definition leading (l : list Z) : Prop := exists c t, l = c :: t /\ c <> 48.

Lemma dval_leading l : Forall ascii_digit l -> leading l -> 10 ^ (Z.of_nat (length l) - 1) <= dval l.
Proof.
  intros H (c & t & -> & Hc). inversion H as [|? ? Hc' Ht]; subst.
  rewrite dval_cons. pose proof (dval_bound t Ht). cbn [length]. unfold dv, ascii_digit in *.
  replace (Z.of_nat (S (length t)) - 1) with (Z.of_nat (length t)) by lia.
  pose proof (Z.pow_pos_nonneg 10 (Z.of_nat (length t)) ltac:(lia) ltac:(lia)). nia.
Qed.

(** ** [ExpandExact] *)

Lemma mul_pow5_represents fuel n v power :
  represents n v -> 0 < v -> 0 <= power < Z.of_nat fuel -> v * 5 ^ power < capacity ->
  represents (mul_pow5 fuel n power) (v * 5 ^ power).
Proof.
  revert n v power. induction fuel as [|fuel IH]; intros n v power H Hv Hp Hc; [lia|].
  cbn [mul_pow5]. unfold kPow5ChunkExp. rewrite Z.geb_leb. destruct (Z.leb_spec 13 power).
  - assert (E : v * 5 ^ power = v * kPow5Chunk * 5 ^ (power - 13)).
    { replace power with (13 + (power - 13)) at 1 by lia. rewrite Z.pow_add_r by lia. unfold kPow5Chunk. lia. }
    pose proof (Z.pow_pos_nonneg 5 (power - 13) ltac:(lia) ltac:(lia)).
    rewrite E. apply IH; [|unfold kPow5Chunk; lia|lia|lia].
    apply MulSmall_represents; [done|unfold kPow5Chunk; pow_lit; lia|unfold kPow5Chunk in *; nia].
  - destruct (Z.eqb_spec power 0) as [->|]; cbn [negb]; [by rewrite Z.mul_1_r|].
    assert (0 < 5 ^ power <= 5 ^ 12).
    { split; [apply Z.pow_pos_nonneg; lia|]. apply Z.pow_le_mono_r; lia. }
    apply MulSmall_represents; [done|pow_lit; lia|done].
Qed.

Lemma group_digits_spec k g :
  0 <= g < 10 ^ Z.of_nat k ->
  length (group_digits k g) = k /\ Forall ascii_digit (group_digits k g) /\
  lval 10 (map dv (group_digits k g)) = g.
Proof.
  revert g. induction k as [|k IH]; intros g Hg; cbn [group_digits map lval length].
  - cbn in Hg. split; [done|]. split; [constructor|lia].
  - rewrite Nat2Z.inj_succ, Z.pow_succ_r in Hg by lia.
    destruct (IH (g / 10)) as (H1 & H2 & H3); [dlia|].
    rewrite H1, H3. split; [done|]. split; [constructor; [unfold ascii_digit; dlia|done]|].
    unfold dv. dlia.
Qed.

Lemma extract_groups_spec fuel n v :
  represents n v -> v < 10 ^ (9 * Z.of_nat fuel) ->
  Forall ascii_digit (extract_groups fuel n) /\ lval 10 (map dv (extract_groups fuel n)) = v /\
  (length (extract_groups fuel n) <= 9 * fuel)%nat.
Proof.
  revert n v. induction fuel as [|fuel IH]; intros n v H Hv; cbn [extract_groups].
  { pose proof (represents_bound n v H). cbn in Hv. cbn. split; [constructor|]. lia. }
  rewrite (represents_IsZero n v H).
  destruct (Z.eqb_spec v 0) as [->|]; [cbn; split; [constructor|lia]|].
  destruct (DivModSmall_represents n v 1000000000 H ltac:(pow_lit; lia)) as [Hq Hr].
  destruct (DivModSmall n 1000000000) as [q g]. cbn [fst snd] in *. subst g.
  replace (9 * Z.of_nat (S fuel)) with (9 + 9 * Z.of_nat fuel) in Hv by lia. rewrite Z.pow_add_r in Hv by lia.
  destruct (IH q _ Hq) as (H1 & H2 & H3); [apply Z.div_lt_upper_bound; lia|].
  destruct (group_digits_spec 9 (v mod 1000000000)) as (G1 & G2 & G3);
    [change (10 ^ Z.of_nat 9) with 1000000000; dlia|].
  rewrite Forall_app, map_app, lval_app, length_app, length_map, G1, G3, H2.
  change (10 ^ Z.of_nat 9) with 1000000000. split; [done|]. split; [dlia|lia].
Qed.

Lemma strip_zeros_spec l :
  Forall ascii_digit l ->
  Forall ascii_digit (strip_zeros l) /\ (length (strip_zeros l) <= length l)%nat /\
  lval 10 (map dv (strip_zeros l)) = lval 10 (map dv l) /\
  (strip_zeros l <> [] -> leading (rev (strip_zeros l))).
Proof.
  induction 1 as [|c l Hc Hl (I1 & I2 & I3 & I4)]; [done|].
  cbn [strip_zeros map lval length]. rewrite <- I3 in *. unfold ascii_digit in Hc.
  destruct (strip_zeros l) as [|c' t].
  - cbn [map lval length]. destruct (Z.eqb_spec c 48) as [->|]; cbn [map lval length].
    + split; [done|]. split; [lia|]. unfold dv. split; [lia|done].
    + split; [constructor; [exact Hc|constructor]|]. split; [lia|]. split; [done|]. intros _. cbn. by exists c, [].
  - cbn [length] in *. split; [by constructor|]. split; [lia|]. split; [done|]. intros _.
    destruct (I4 ltac:(done)) as (h & r & E & Hh). exists h, (r ++ [c]).
    change (rev (c :: c' :: t)) with (rev (c' :: t) ++ [c]). by rewrite E.
Qed.

(** A decimal expansion of the positive value [m / d]: digits without leading zero
    whose number, scaled by the exponent, is exactly the value. *)
Record expands (value : Decimal) (m d : Z) : Prop := {
  ex_ascii : Forall ascii_digit (digits value);
  ex_lead : leading (digits value);
  ex_val : let x := exponent value - count value in
           dval (digits value) * 10 ^ Z.max 0 x * d = m * 10 ^ Z.max 0 (- x)
}.

(** The largest exact expansion, as an atom for the tactics. *)
Definition expand_cap : Z := 10 ^ 790.

Lemma pow5_capacity : 2 ^ 53 * 5 ^ 1074 < expand_cap /\ 2 ^ 53 * 2 ^ 971 < expand_cap /\ expand_cap < capacity.
Proof.
  assert (H5 : 5 ^ 1074 <= 2 ^ 2506) by by apply pow5_le_pow2.
  assert (Hc : 2 ^ 2560 <= expand_cap) by by apply pow2_le_pow10.
  assert (Hu : expand_cap <= 2 ^ 2660) by by apply pow10_le_pow2.
  split; [|split].
  - eapply Z.le_lt_trans; [|eapply Z.lt_le_trans; [|exact Hc]].
    + apply Z.mul_le_mono_nonneg_l; [lia|exact H5].
    + rewrite <- Z.pow_add_r by lia. apply Z.pow_lt_mono_r; lia.
  - eapply Z.lt_le_trans; [|exact Hc]. rewrite <- Z.pow_add_r by lia. apply Z.pow_lt_mono_r; lia.
  - eapply Z.le_lt_trans; [exact Hu|]. apply Z.pow_lt_mono_r; unfold kMaxLimbs; lia.
Qed.

Lemma mul_pow_mono m b e e' : 0 < b -> 0 <= m < 2 ^ 53 -> 0 <= e <= e' -> m * b ^ e <= 2 ^ 53 * b ^ e'.
Proof.
  intros Hb Hm He. apply Z.mul_le_mono_nonneg; [lia|lia|apply Z.pow_nonneg; lia|].
  apply Z.pow_le_mono_r; lia.
Qed.

Lemma expand_cap_lt : expand_cap < capacity.
Proof. apply pow5_capacity. Qed.

Lemma mul_pow5_lt m k : 0 < m < 2 ^ 53 -> 0 <= k <= 1074 -> 0 < m * 5 ^ k < expand_cap.
Proof.
  intros Hm Hk. split; [apply Z.mul_pos_pos; [lia|apply Z.pow_pos_nonneg; lia]|].
  eapply Z.le_lt_trans; [apply (mul_pow_mono m 5 k 1074); lia|apply pow5_capacity].
Qed.

Lemma mul_pow2_lt m k : 0 < m < 2 ^ 53 -> 0 <= k <= 971 -> 0 < m * 2 ^ k < expand_cap.
Proof.
  intros Hm Hk. split; [apply Z.mul_pos_pos; [lia|apply Z.pow_pos_nonneg; lia]|].
  eapply Z.le_lt_trans; [apply (mul_pow_mono m 2 k 971); lia|apply pow5_capacity].
Qed.

(** The integer whose digits are extracted, and the digits that follow the point. *)
Lemma expansion_integer mantissa exponent2 :
  0 < mantissa < 2 ^ 53 -> -1074 <= exponent2 <= 971 ->
  exists n v f,
    (if exponent2 >=? 0 then (ShiftLeft (SetU64 mantissa) exponent2, 0)
     else (mul_pow5 (S (Z.to_nat (- exponent2))) (SetU64 mantissa) (- exponent2), - exponent2)) = (n, f) /\
    represents n v /\ 0 < v < expand_cap /\ 0 <= f /\
    v * ulp_den = mantissa * 2 ^ (exponent2 + 1074) * 10 ^ f.
Proof.
  intros Hm He. pose proof expand_cap_lt.
  assert (Hr : represents (SetU64 mantissa) mantissa) by (apply SetU64_represents; unfold fits; pow_lit; lia).
  rewrite Z.geb_leb. destruct (Z.leb_spec 0 exponent2).
  - pose proof (mul_pow2_lt mantissa exponent2 ltac:(lia) ltac:(lia)).
    eexists _, (mantissa * 2 ^ exponent2), _. split; [done|].
    split; [apply ShiftLeft_represents; [done|lia|lia]|]. split; [lia|]. split; [lia|].
    rewrite (Z.add_comm _ 1074), ulp_den_add by lia. ring.
  - pose proof (mul_pow5_lt mantissa (- exponent2) ltac:(lia) ltac:(lia)).
    eexists _, (mantissa * 5 ^ (- exponent2)), _. split; [done|].
    split; [apply mul_pow5_represents; [done|lia|lia|lia]|]. split; [lia|]. split; [lia|].
    change 10 with (5 * 2). rewrite Z.pow_mul_l.
    assert (ulp_den = 2 ^ (exponent2 + 1074) * 2 ^ (- exponent2)) as ->; [|ring].
    unfold ulp_den. rewrite <- Z.pow_add_r by lia. f_equal. lia.
Qed.

(** [ExpandExact] is exact, drops no digit, and its digit buffer never overflows:
    at most 792 of the 800 characters are written. *)
Lemma ExpandExact_expands mantissa exponent2 :
  0 < mantissa < 2 ^ 53 -> -1074 <= exponent2 <= 971 ->
  expands (ExpandExact mantissa exponent2) (mantissa * 2 ^ (exponent2 + 1074)) ulp_den /\
  count (ExpandExact mantissa exponent2) <= 792.
Proof.
  intros Hm He. destruct (expansion_integer mantissa exponent2 Hm He) as (n & v & f & En & Hr & Hv & Hf & E).
  unfold ExpandExact. rewrite En.
  destruct (extract_groups_spec max_groups n v Hr) as (X1 & X2 & X3).
  { eapply Z.lt_trans; [apply Hv|]. apply Z.pow_lt_mono_r; unfold max_groups; lia. }
  destruct (strip_zeros_spec _ X1) as (S1 & S2 & S3 & S4). rewrite X2 in S3.
  set (r := strip_zeros (extract_groups max_groups n)) in *.
  assert (Hd : dval (rev r) = v) by (unfold dval; by rewrite map_rev, bval_rev).
  split; [split|]; unfold count; cbn [digits exponent].
  - by apply Forall_rev.
  - apply S4. intros ->. cbn in S3. lia.
  - rewrite length_rev, Hd. replace (Z.of_nat (length r) - f - Z.of_nat (length r)) with (- f) by lia.
    rewrite Z.max_l, Z.max_r, Z.pow_0_r, Z.opp_involutive by lia. lia.
  - rewrite length_rev. unfold max_groups in *. lia.
Qed.

(** ** [RoundTo] *)

Lemma carry_loop_spec l :
  Forall ascii_digit l ->
  match carry_loop l with
  | Some r => length r = length l /\ Forall ascii_digit r /\
              lval 10 (map dv r) = lval 10 (map dv l) + 1
  | None => lval 10 (map dv l) + 1 = 10 ^ Z.of_nat (length l)
  end.
Proof.
  induction 1 as [|c l Hc Hl IH]; cbn [carry_loop]; [done|].
  unfold ascii_digit in Hc. destruct (Z.eqb_spec c 57) as [->|]; cbn [negb].
  - destruct (carry_loop l) as [r|]; cbn [map lval length].
    + destruct IH as (I1 & I2 & I3). split; [by rewrite I1|].
      split; [constructor; [unfold ascii_digit; lia|done]|]. rewrite I3. unfold dv. lia.
    + rewrite Nat2Z.inj_succ, Z.pow_succ_r, <- IH by lia. unfold dv. lia.
  - cbn [length map lval]. split; [done|]. split; [constructor; [unfold ascii_digit; lia|done]|]. unfold dv. lia.
Qed.

Lemma existsb_nonzero l :
  Forall ascii_digit l -> existsb (fun c => negb (c =? 48)) l = negb (dval l =? 0).
Proof.
  induction 1 as [|c l Hc Hl IH]; [done|]. cbn [existsb]. rewrite IH, dval_cons.
  pose proof (dval_bound l Hl). unfold dv, ascii_digit in *.
  pose proof (Z.pow_pos_nonneg 10 (Z.of_nat (length l)) ltac:(lia) ltac:(lia)).
  destruct (Z.eqb_spec c 48) as [->|]; cbn [negb orb].
  - by replace ((48 - 48) * 10 ^ Z.of_nat (length l) + dval l) with (dval l) by lia.
  - symmetry. apply negb_true_iff, Z.eqb_neq. nia.
Qed.

Lemma dval_last_odd l :
  negb (Z.land (List.last l 0 - 48) 1 =? 0) && negb (bool_decide (l = [])) = Z.odd (dval l).
Proof.
  induction l as [|c l _] using rev_ind; [done|].
  rewrite last_last, bool_decide_eq_false_2, andb_true_r by (by destruct l).
  rewrite dval_app. cbn [length]. change (10 ^ Z.of_nat 1) with (2 * 5). rewrite dval_cons.
  cbn [length]. change (dval []) with 0. rewrite Z.pow_0_r, Z.mul_1_r, Z.add_0_r.
  replace (dval l * (2 * 5) + dv c) with (dv c + 2 * (dval l * 5)) by ring. rewrite Z.odd_add_mul_2.
  change 1 with (Z.ones 1). rewrite Z.land_ones, <- Z.bit0_mod, Z.bit0_odd by lia. unfold dv.
  by destruct (Z.odd (c - 48)).
Qed.

(** The decision taken on the first dropped digit is the exact one. *)
Lemma round_decision kept f rest :
  Forall ascii_digit kept -> ascii_digit f -> Forall ascii_digit rest ->
  rne (dval (kept ++ f :: rest)) (10 ^ Z.of_nat (length (f :: rest))) =
  if (if f >? 53 then true else if f <? 53 then false
      else existsb (fun c => negb (c =? 48)) rest ||
           ((Z.of_nat (length kept) >? 0) && negb (Z.land (List.last kept 0 - 48) 1 =? 0)))
  then dval kept + 1 else dval kept.
Proof.
  intros Hk Hf Hr. rewrite existsb_nonzero by done.
  assert (Ho : (Z.of_nat (length kept) >? 0) && negb (Z.land (List.last kept 0 - 48) 1 =? 0) = Z.odd (dval kept)).
  { rewrite <- dval_last_odd, andb_comm. f_equal. by destruct kept. }
  rewrite Ho, dval_app, dval_cons. cbn [length]. rewrite Nat2Z.inj_succ, Z.pow_succ_r by lia.
  pose proof (dval_bound rest Hr) as Hb. set (h := 10 ^ Z.of_nat (length rest)) in *.
  set (K := dval kept) in *. set (R := dval rest) in *. unfold ascii_digit, dv in *.
  assert (Hh : 0 < h) by lia. clearbody h K R.
  unfold rne. destruct (div_mul_mod (K * (10 * h) + ((f - 48) * h + R)) (10 * h) K ((f - 48) * h + R)) as [-> ->];
    [lia|nia|ring|].
  rewrite !Z.gtb_ltb. destruct (Z.ltb_spec 53 f), (Z.ltb_spec f 53),
    (Z.ltb_spec (10 * h) (2 * ((f - 48) * h + R))), (Z.eqb_spec (2 * ((f - 48) * h + R)) (10 * h)),
    (Z.eqb_spec R 0); cbn [orb andb negb]; try done; try nia.
  all: destruct (Z.odd K); done || nia.
Qed.

Lemma leading_dval l :
  Forall ascii_digit l -> l <> [] -> 10 ^ (Z.of_nat (length l) - 1) <= dval l -> leading l.
Proof.
  intros H Hn Hv. destruct l as [|c l]; [done|]. exists c, l. split; [done|]. intros ->.
  apply Forall_cons_1 in H as [_ Hl]. pose proof (dval_bound l Hl).
  rewrite dval_cons in Hv. unfold dv in Hv. cbn [length] in Hv.
  replace (Z.of_nat (S (length l)) - 1) with (Z.of_nat (length l)) in Hv by lia. lia.
Qed.

(** How far the decimal point of [r] sits from that of [keep] digits at [e]. *)
Definition scale_of (r : Decimal) (e keep : Z) : Z := exponent r - e + (keep - count r).

(** Rounding up adds one unit in the last kept place. *)
Lemma round_up_spec kept e :
  Forall ascii_digit kept ->
  let r := match carry_loop (rev kept) with
           | Some l => mkDecimal (rev l) e
           | None => mkDecimal (49 :: replicate (length kept - 1) 48) (e + 1)
           end in
  let keep := Z.of_nat (length kept) in
  Forall ascii_digit (digits r) /\ 0 <= scale_of r e keep /\
  dval (digits r) * 10 ^ scale_of r e keep = dval kept + 1 /\
  (count r = keep \/ (keep = 0 /\ count r = 1)) /\
  (kept = [] \/ leading kept -> leading (digits r)).
Proof.
  intros Hk. pose proof (carry_loop_spec (rev kept) (Forall_rev Hk)) as HC.
  rewrite length_rev, map_rev, <- bval_rev, rev_involutive in HC. fold (dval kept) in HC. unfold scale_of, count.
  destruct (carry_loop (rev kept)) as [l|]; cbn [digits exponent].
  - destruct HC as (C1 & C2 & C3). rewrite length_rev, C1.
    assert (Hd : dval (rev l) = dval kept + 1) by (unfold dval; by rewrite map_rev, bval_rev).
    split; [by apply Forall_rev|]. split; [lia|]. split; [|split; [by left|]].
    { rewrite Hd. replace (e - e + _) with 0 by lia. lia. }
    intros Hl. apply leading_dval; [by apply Forall_rev| |].
    + intros E. assert (l = []) as -> by (by rewrite <- (rev_involutive l), E).
      cbn in C3. pose proof (dval_bound kept Hk). lia.
    + rewrite length_rev, C1, Hd. destruct Hl as [->|Hl]; [cbn; pose proof (dval_bound [] ltac:(constructor)); lia|].
      pose proof (dval_leading kept Hk Hl). lia.
  - cbn [length]. rewrite length_replicate.
    assert (Hd : dval (49 :: replicate (length kept - 1) 48) = 10 ^ Z.of_nat (length kept - 1)).
    { rewrite dval_cons, dval_zeros, length_replicate. unfold dv. lia. }
    split; [constructor; [unfold ascii_digit; lia|apply Forall_replicate; unfold ascii_digit; lia]|].
    split; [lia|]. split; [|split; [lia|intros _; by eexists _, _]].
    rewrite Hd, HC, <- Z.pow_add_r by lia. f_equal. lia.
Qed.

Lemma RoundTo_negative value keep :
  Forall ascii_digit (digits value) -> keep < 0 ->
  RoundTo value keep = mkDecimal [] (exponent value) /\
  rne (dval (digits value)) (10 ^ (count value - keep)) = 0.
Proof.
  intros Ha Hk. pose proof (dval_bound _ Ha) as Hb. fold (count value) in Hb.
  assert (Hc : 0 <= count value) by (unfold count; lia). unfold RoundTo. rewrite Z.geb_leb.
  destruct (Z.leb_spec (count value) keep); [lia|].
  destruct (Z.ltb_spec keep 0); [|lia]. split; [done|]. unfold rne.
  assert (Hp : 10 * 10 ^ count value <= 10 ^ (count value - keep)).
  { rewrite <- Z.pow_succ_r by lia. apply Z.pow_le_mono_r; lia. }
  rewrite Z.div_small, Z.mod_small, Z.gtb_ltb by lia.
  destruct (Z.ltb_spec (10 ^ (count value - keep)) (2 * dval (digits value))); [lia|].
  by rewrite andb_false_r.
Qed.

(** [RoundTo] keeps [keep] digits of the exact half-to-even rounding; a carry out
    of the top digit gains a digit and moves the exponent. *)
Lemma RoundTo_spec value keep :
  Forall ascii_digit (digits value) -> 0 <= keep < count value ->
  let r := RoundTo value keep in
  Forall ascii_digit (digits r) /\ 0 <= scale_of r (exponent value) keep /\
  dval (digits r) * 10 ^ scale_of r (exponent value) keep =
    rne (dval (digits value)) (10 ^ (count value - keep)) /\
  (count r = keep \/ (keep = 0 /\ count r = 1)) /\
  (leading (digits value) -> digits r <> [] -> leading (digits r)).
Proof.
  intros Ha Hk. unfold RoundTo. rewrite Z.geb_leb.
  destruct (Z.leb_spec (count value) keep); [lia|]. destruct (Z.ltb_spec keep 0); [lia|].
  unfold count in Hk. set (ds := digits value) in *. set (k := Z.to_nat keep).
  destruct (drop k ds) as [|f rest] eqn:Ed.
  { apply (f_equal length) in Ed. rewrite length_drop in Ed. cbn in Ed. lia. }
  assert (Eds : ds = take k ds ++ f :: rest) by (rewrite <- Ed; symmetry; apply take_drop).
  set (kept := take k ds) in *.
  assert (Hlk : length kept = k) by (unfold kept; rewrite length_take; lia).
  assert (Ef : List.nth k ds 0 = f) by (rewrite Eds, app_nth2, Hlk, Nat.sub_diag by lia; done).
  assert (Er : drop (S k) ds = rest) by (replace (S k) with (k + 1)%nat by lia; by rewrite <- drop_drop, Ed).
  assert (Ha' := Ha). rewrite Eds in Ha'. apply Forall_app in Ha' as [Hak Har].
  apply Forall_cons_1 in Har as [Haf Har].
  pose proof (round_decision kept f rest Hak Haf Har) as RD. rewrite <- Eds in RD.
  assert (El : Z.of_nat (length (f :: rest)) = count value - keep)
    by (unfold count; fold ds; rewrite Eds at 1; rewrite length_app, Hlk; lia).
  assert (Ek : Z.of_nat (length kept) = keep) by lia.
  rewrite El in RD. rewrite Ek in RD. rewrite Ef, Er, RD. clear RD.
  assert (Hlead : leading ds -> kept = [] \/ leading kept).
  { intros (c & t & E & Hc). destruct kept as [|c' t'] eqn:E2; [by left|right].
    exists c', t'. split; [done|]. rewrite Eds in E. by injection E as -> _. }
  destruct (if f >? 53 then _ else _); cbn [negb].
  - pose proof (round_up_spec kept (exponent value) Hak) as U. cbn zeta in U. rewrite Ek, Hlk in U.
    destruct U as (U1 & U2 & U3 & U4 & U5). auto 10.
  - unfold scale_of, count. cbn [digits exponent]. rewrite Ek.
    split; [done|]. split; [lia|]. replace (_ - _ + _) with 0 by lia. split; [lia|]. split; [by left|].
    intros Hl Hne. destruct (Hlead Hl) as [->|]; done.
Qed.

(** ** Rounded expansions *)

Lemma pow10_pos n : 0 < 10 ^ Z.max 0 n.
Proof. apply Z.pow_pos_nonneg; lia. Qed.

Lemma pow10_shift x t :
  0 <= t ->
  10 ^ Z.max 0 (x + t) * 10 ^ Z.max 0 (- x) = 10 ^ Z.max 0 x * (10 ^ Z.max 0 (- (x + t)) * 10 ^ t).
Proof. intros. rewrite <- !Z.pow_add_r by lia. f_equal. lia. Qed.

(** Cutting [t] digits off an expansion is dividing the value by a power of ten. *)
Lemma cut_cross v x t M D :
  0 <= t -> v * 10 ^ Z.max 0 x * D = M * 10 ^ Z.max 0 (- x) ->
  v * (D * 10 ^ Z.max 0 (x + t)) = M * 10 ^ Z.max 0 (- (x + t)) * 10 ^ t.
Proof.
  intros Ht E. pose proof (pow10_shift x t Ht) as S. pose proof (pow10_pos x) as Hp.
  apply (Z.mul_reg_r _ _ (10 ^ Z.max 0 x)); [lia|].
  transitivity (v * 10 ^ Z.max 0 x * D * 10 ^ Z.max 0 (x + t)); [ring|].
  rewrite E. transitivity (M * (10 ^ Z.max 0 (x + t) * 10 ^ Z.max 0 (- x))); [ring|]. rewrite S. ring.
Qed.

(** Appending [t] zeros is multiplying it by one. *)
Lemma pad_cross v y t M D :
  0 <= t -> v * 10 ^ Z.max 0 (y + t) * D = M * 10 ^ Z.max 0 (- (y + t)) ->
  M * 10 ^ Z.max 0 (- y) = v * 10 ^ t * (D * 10 ^ Z.max 0 y).
Proof.
  intros Ht E. pose proof (pow10_shift y t Ht) as S. pose proof (pow10_pos (y + t)) as Hp.
  apply (Z.mul_reg_r _ _ (10 ^ Z.max 0 (y + t))); [lia|].
  transitivity (M * (10 ^ Z.max 0 (y + t) * 10 ^ Z.max 0 (- y))); [ring|]. rewrite S.
  transitivity (v * 10 ^ Z.max 0 (y + t) * D * 10 ^ Z.max 0 y * 10 ^ t); [rewrite E; ring|ring].
Qed.

(** [m/d] in units of [10^u], rounded half to even. *)
Definition rne10 (M D u : Z) : Z := rne (M * 10 ^ Z.max 0 (- u)) (D * 10 ^ Z.max 0 u).

Lemma expansion_cut value M D keep :
  expands value M D -> 0 < D -> keep <= count value ->
  rne (dval (digits value)) (10 ^ (count value - keep)) = rne10 M D (exponent value - keep).
Proof.
  intros [_ _ E] HD Hk. cbn zeta in E. pose proof (pow10_pos (exponent value - keep)).
  assert (0 < 10 ^ (count value - keep)) by (apply Z.pow_pos_nonneg; lia).
  apply rne_cross; [done|nia|].
  replace (exponent value - keep) with (exponent value - count value + (count value - keep)) by lia.
  apply cut_cross; [lia|done].
Qed.

Lemma expansion_pad value M D keep :
  expands value M D -> 0 < D -> count value <= keep ->
  dval (digits value) * 10 ^ (keep - count value) = rne10 M D (exponent value - keep).
Proof.
  intros [_ _ E] HD Hk. cbn zeta in E. pose proof (pow10_pos (exponent value - keep)).
  unfold rne10. rewrite <- (rne_exact (dval (digits value) * 10 ^ (keep - count value)) 1) by lia.
  apply rne_cross; [lia|nia|]. rewrite Z.mul_1_l, Z.mul_1_r.
  replace (exponent value - count value) with (exponent value - keep + (keep - count value)) in E by lia.
  symmetry. apply pad_cross; [lia|done].
Qed.

Lemma RoundTo_long value keep : count value <= keep -> RoundTo value keep = value.
Proof. intros. unfold RoundTo. rewrite Z.geb_leb. by destruct (Z.leb_spec (count value) keep); [|lia]. Qed.

(** [RoundTo] on an exact expansion is the rounding of the value itself. *)
Lemma RoundTo_rounds value M D keep :
  expands value M D -> 0 < D ->
  let r := RoundTo value keep in
  Forall ascii_digit (digits r) /\
  dval (digits r) * 10 ^ Z.max 0 (scale_of r (exponent value) keep) = rne10 M D (exponent value - keep) /\
  (digits r = [] \/ (0 <= scale_of r (exponent value) keep /\ leading (digits r))) /\
  (0 < keep -> count r <= keep /\ digits r <> []).
Proof.
  intros H HD. pose proof H as [Ha Hl _]. cbn zeta.
  destruct (Z_le_gt_dec (count value) keep) as [Hk|Hk]; [|destruct (Z_lt_le_dec keep 0) as [Hn|Hp]].
  - rewrite RoundTo_long by done. unfold scale_of. rewrite Z.sub_diag, Z.add_0_l, Z.max_r by lia.
    split; [done|]. split; [by apply expansion_pad|]. split; [right; split; [lia|done]|].
    intros _. split; [done|]. destruct Hl as (? & ? & -> & _). done.
  - destruct (RoundTo_negative value keep Ha Hn) as [-> E]. rewrite (expansion_cut value M D) in E by (done || lia).
    cbn [digits]. rewrite E. split; [constructor|]. split; [by rewrite Z.mul_0_l|]. split; [by left|lia].
  - destruct (RoundTo_spec value keep Ha ltac:(lia)) as (R1 & R2 & R3 & R4 & R5).
    rewrite (expansion_cut value M D) in R3 by (done || lia). rewrite Z.max_r by done.
    split; [done|]. split; [done|]. split.
    + destruct (digits (RoundTo value keep)) as [|c t] eqn:Ed; [by left|right]. split; [done|]. by apply R5.
    + intros Hk0. destruct R4 as [R4|R4]; [|lia]. split; [lia|]. unfold count in R4.
      intros E0. rewrite E0 in R4. cbn in R4. lia.
Qed.

(** ** Layouts *)

Definition digit_span (value : Decimal) (from : Z) (n : nat) : list Z :=
  map (fun i => digit_at value (from + Z.of_nat i)) (seq 0 n).

Lemma digit_span_length value from n : length (digit_span value from n) = n.
Proof. unfold digit_span. by rewrite length_map, length_seq. Qed.

Lemma digit_span_shift value from n k :
  map (fun i => digit_at value (from + Z.of_nat i)) (seq k n) = digit_span value (from + Z.of_nat k) n.
Proof.
  unfold digit_span. revert k. induction n as [|n IH]; intros k; [done|].
  cbn [seq map]. f_equal; [f_equal; lia|]. rewrite IH, <- seq_shift, map_map. unfold digit_span.
  apply map_ext. intros i. f_equal. lia.
Qed.

Lemma digit_span_app value from n m :
  digit_span value from (n + m) = digit_span value from n ++ digit_span value (from + Z.of_nat n) m.
Proof. unfold digit_span at 1. rewrite seq_app, map_app. f_equal. apply digit_span_shift. Qed.

Lemma digit_span_outside value from n :
  from + Z.of_nat n <= 0 \/ count value <= from -> digit_span value from n = replicate n 48.
Proof.
  revert from. induction n as [|n IH]; intros from H; [done|].
  change (S n) with (1 + n)%nat. rewrite digit_span_app, IH by lia. cbn. f_equal.
  unfold digit_at. rewrite Z.add_0_r. destruct (Z.leb_spec 0 from), (Z.ltb_spec from (count value)); cbn; done || lia.
Qed.

Lemma digit_span_inside value : digit_span value 0 (length (digits value)) = digits value.
Proof.
  unfold digit_span. apply nth_ext with (d := 48) (d' := 0); [by rewrite length_map, length_seq|].
  rewrite length_map, length_seq. intros i Hi.
  rewrite nth_indep with (d' := digit_at value (0 + Z.of_nat 0)) by (by rewrite length_map, length_seq).
  rewrite (map_nth (fun i => digit_at value (0 + Z.of_nat i))), seq_nth by done. unfold digit_at, count.
  rewrite Z.add_0_l. destruct (Z.leb_spec 0 (Z.of_nat (0 + i))), (Z.ltb_spec (Z.of_nat (0 + i)) (Z.of_nat (length (digits value)))); cbn [andb]; try lia.
  by rewrite Nat2Z.id.
Qed.

(** A window that covers the digits is the digits padded with zeros. *)
Lemma digit_span_covers value a n :
  0 <= a -> count value <= Z.of_nat n - a ->
  digit_span value (- a) n =
  replicate (Z.to_nat a) 48 ++ digits value ++ replicate (Z.to_nat (Z.of_nat n - a - count value)) 48.
Proof.
  intros Ha Hn. unfold count in *.
  replace n with (Z.to_nat a + (length (digits value) + Z.to_nat (Z.of_nat n - a - Z.of_nat (length (digits value)))))%nat at 1 by lia.
  rewrite !digit_span_app, digit_span_outside by lia. replace (- a + Z.of_nat (Z.to_nat a)) with 0 by lia.
  by rewrite digit_span_inside, (digit_span_outside value (0 + _)) by (unfold count; lia).
Qed.

Lemma dval_pad a ds b : dval (replicate a 48 ++ ds ++ replicate b 48) = dval ds * 10 ^ Z.of_nat b.
Proof. rewrite !dval_app, !dval_zeros, length_replicate. lia. Qed.

Lemma ascii_span value from n : Forall ascii_digit (digits value) -> Forall ascii_digit (digit_span value from n).
Proof.
  intros H. apply Forall_map, Forall_forall. intros i _. unfold digit_at.
  destruct ((0 <=? from + Z.of_nat i) && _) eqn:E; [|unfold ascii_digit; lia].
  bprop. unfold count in *. rewrite List.Forall_forall in H. apply H, nth_In. lia.
Qed.

(** The integer digits and the fraction digits of the fixed layout. *)
Definition fixed_int (value : Decimal) : list Z :=
  if exponent value <=? 0 then [48] else digit_span value 0 (Z.to_nat (exponent value)).
Definition fixed_frac (value : Decimal) (p : Z) : list Z := digit_span value (exponent value) (Z.to_nat p).

Lemma WriteFixed_text w value p alt :
  0 <= p ->
  WriteFixed w value p alt =
  PutAll w (fixed_int value ++ (if 0 <? p then 46 :: fixed_frac value p else if alt then [46] else [])).
Proof.
  intros Hp. unfold WriteFixed, fixed_int, fixed_frac.
  assert (E : (if exponent value <=? 0 then Put w 48 else put_loop w (Z.to_nat (exponent value)) 0 (digit_at value)) =
    PutAll w (if exponent value <=? 0 then [48] else digit_span value 0 (Z.to_nat (exponent value)))).
  { case_if; [done|]. by rewrite put_loop_PutAll. }
  rewrite E, PutAll_app, Z.leb_antisym. destruct (Z.ltb_spec 0 p); cbn [negb]; [|by destruct alt].
  rewrite put_loop_PutAll. set (v := PutAll w _).
  assert (Hcons : forall t, PutAll v (46 :: t) = PutAll (Put v 46) t) by done. rewrite Hcons.
  f_equal. apply map_ext. intros i. f_equal. lia.
Qed.

(** Read as one number, the digits of the fixed layout are the expansion scaled to
    [p] places, when none of its digits lies beyond them. *)
Lemma fixed_digits_value value p :
  0 <= p -> 0 <= exponent value - count value + p ->
  dval (fixed_int value ++ fixed_frac value p) = dval (digits value) * 10 ^ (exponent value - count value + p).
Proof.
  intros Hp Hs. unfold fixed_int, fixed_frac. assert (0 <= count value) by (unfold count; lia).
  destruct (Z.leb_spec (exponent value) 0) as [He|He].
  - cbn [app]. rewrite dval_cons. replace (exponent value) with (- (- exponent value)) at 1 2 by lia.
    rewrite digit_span_covers by lia. rewrite dval_pad. unfold dv. rewrite Z.mul_0_l, Z.add_0_l.
    do 2 f_equal. lia.
  - replace (digit_span value (exponent value) (Z.to_nat p))
      with (digit_span value (0 + Z.of_nat (Z.to_nat (exponent value))) (Z.to_nat p)) by (f_equal; lia).
    rewrite <- digit_span_app. replace 0 with (- 0) at 1 by lia.
    rewrite digit_span_covers by lia. rewrite dval_pad. do 2 f_equal. lia.
Qed.

(** ** The fields of the formatted double *)

Definition magnitude (bits : Z) : Z := bits mod 2 ^ 63.
Definition is_negative (bits : Z) : bool := 2 ^ 63 <=? bits.
Definition is_finite (bits : Z) : bool := magnitude bits <? infinity_bits.

Lemma field_sign bits : fits 64 bits -> negb (Z.shiftr bits 63 =? 0) = is_negative bits.
Proof.
  unfold fits, is_negative. intros H. rewrite shiftr_div by lia.
  destruct (Z.eqb_spec (bits / 2 ^ 63) 0), (Z.leb_spec (2 ^ 63) bits); cbn [negb]; try done; dlia.
Qed.

Lemma field_exponent bits : Z.land (Z.shiftr bits 52) 0x7FF = magnitude bits / 2 ^ 52.
Proof.
  change 0x7FF with (2 ^ 11 - 1). rewrite land_low_mask, shiftr_div by lia.
  unfold magnitude. change (2 ^ 11) with 2048. dlia.
Qed.

Lemma field_fraction bits : Z.land bits 0xFFFFFFFFFFFFF = magnitude bits mod 2 ^ 52.
Proof.
  change 0xFFFFFFFFFFFFF with (2 ^ 52 - 1). rewrite land_low_mask by lia. unfold magnitude. dlia.
Qed.

(** The mantissa and exponent the source takes apart are the value of the double. *)
Lemma field_value bits :
  is_finite bits = true ->
  let b := magnitude bits in
  exists mantissa exponent2,
    (if b / 2 ^ 52 =? 0 then (b mod 2 ^ 52, -1074)
     else (Z.lor (b mod 2 ^ 52) (Z.shiftl 1 52), b / 2 ^ 52 - 1075)) = (mantissa, exponent2) /\
    0 <= mantissa < 2 ^ 53 /\ -1074 <= exponent2 <= 971 /\
    mantissa * 2 ^ (exponent2 + 1074) = dec b.
Proof.
  intros Hf b. unfold is_finite, infinity_bits in Hf. apply Z.ltb_lt in Hf. fold b in Hf.
  assert (Hb : 0 <= b < 2 ^ 63) by (apply Z.mod_pos_bound; lia). unfold dec.
  rewrite Z.lor_comm, lor_disjoint_add by (try apply Z.mod_pos_bound; lia). rewrite Z.mul_1_l.
  destruct (Z.eqb_spec (b / 2 ^ 52) 0), (Z.ltb_spec b (2 ^ 52)); try dlia.
  - eexists _, _. split; [done|]. rewrite Z.mod_small by lia. split; [pow_lit; lia|]. split; [lia|].
    change (-1074 + 1074) with 0. lia.
  - eexists _, _. split; [done|]. split; [dlia|]. split; [dlia|]. do 2 f_equal. lia.
Qed.

Definition sign_prefix (bits sign : Z) : list Z :=
  if is_negative bits then [45] else if (sign =? 43) || (sign =? 32) then [sign] else [].

Lemma WriteSign_text w bits sign : WriteSign w (is_negative bits) sign = PutAll w (sign_prefix bits sign).
Proof. unfold WriteSign, sign_prefix. destruct (is_negative bits); [done|]. by destruct (_ || _). Qed.

(** What the caller sees of a text: its first [capacity] characters and its length. *)
Definition emitted (capacity : Z) (text : list Z) : list Z * Z :=
  (take (Z.to_nat capacity) text, Z.of_nat (length text)).

Lemma emit_new cap t : 0 <= cap -> let w := PutAll (new_writer cap) t in (out_ w, length_ w) = emitted cap t.
Proof. intros H. cbn zeta. by rewrite PutAll_new. Qed.

(** The expansion of a finite double, zero included. *)
Definition decimal_of (bits : Z) : Decimal :=
  let '(mantissa, exponent2) :=
    if magnitude bits / 2 ^ 52 =? 0 then (magnitude bits mod 2 ^ 52, -1074)
    else (Z.lor (magnitude bits mod 2 ^ 52) (Z.shiftl 1 52), magnitude bits / 2 ^ 52 - 1075) in
  if mantissa =? 0 then mkDecimal [] 1 else ExpandExact mantissa exponent2.

Lemma decimal_of_spec bits :
  is_finite bits = true ->
  (dec (magnitude bits) = 0 /\ decimal_of bits = mkDecimal [] 1) \/
  (0 < dec (magnitude bits) /\ expands (decimal_of bits) (dec (magnitude bits)) ulp_den).
Proof.
  intros Hf. destruct (field_value bits Hf) as (m & e & E & Hm & He & Hv). unfold decimal_of.
  rewrite E, <- Hv. destruct (Z.eqb_spec m 0) as [->|]; [left; lia || done|right].
  split; [pose proof (pow2_pos (e + 1074) ltac:(lia)); nia|]. apply ExpandExact_expands; lia.
Qed.

(** [FormatFloatTo] on a finite double, with the fields named. *)
Lemma FormatFloatTo_finite cap bits type precision sign alt :
  fits 64 bits -> is_finite bits = true ->
  let uppercase := (65 <=? type) && (type <=? 90) in
  let lower := if uppercase then type - 65 + 97 else type in
  FormatFloatTo cap bits type precision sign alt =
  let writer := PutAll (new_writer cap) (sign_prefix bits sign) in
  let p := if precision <? 0 then 6 else precision in
  let w :=
    if lower =? 101 then WriteScientific writer (RoundTo (decimal_of bits) (p + 1)) p alt uppercase
    else if lower =? 103 then WriteGeneral writer (decimal_of bits) precision alt uppercase
    else
      let decimal := RoundTo (decimal_of bits) (exponent (decimal_of bits) + p) in
      WriteFixed writer (if count decimal =? 0 then mkDecimal (digits decimal) 1 else decimal) p alt in
  (out_ w, length_ w).
Proof.
  intros Hb Hf. cbn zeta. unfold FormatFloatTo. rewrite field_sign, field_exponent, field_fraction by done.
  destruct (Z.eqb_spec (magnitude bits / 2 ^ 52) 0x7FF) as [E|_].
  { unfold is_finite, infinity_bits in Hf. apply Z.ltb_lt in Hf.
    assert (0 <= magnitude bits) by (apply Z.mod_pos_bound; lia). exfalso. dlia. }
  unfold decimal_of. destruct (if magnitude bits / 2 ^ 52 =? 0 then _ else _) as [m e].
  by rewrite WriteSign_text.
Qed.

Lemma rne10_zero D u : 0 < D -> rne10 0 D u = 0.
Proof.
  intros HD. unfold rne10. rewrite Z.mul_0_l. pose proof (pow10_pos u).
  apply rne_unique; [nia|]. rewrite Z.mul_0_r. cbn. nia.
Qed.

(** The decimal the fixed layout prints, as digits and as a value. *)
Lemma fixed_decimal bits p :
  is_finite bits = true -> 0 <= p ->
  let d := RoundTo (decimal_of bits) (exponent (decimal_of bits) + p) in
  let d := if count d =? 0 then mkDecimal (digits d) 1 else d in
  Forall ascii_digit (digits d) /\ (digits d = [] /\ exponent d = 1 \/ leading (digits d)) /\
  0 <= exponent d - count d + p /\
  dval (digits d) * 10 ^ (exponent d - count d + p) = rne10 (dec (magnitude bits)) ulp_den (- p).
Proof.
  intros Hf Hp. destruct (decimal_of_spec bits Hf) as [[-> ->]|[Hpos HE]].
  - rewrite RoundTo_long by (unfold count; cbn; lia). cbn zeta.
    change (count (mkDecimal [] 1) =? 0) with true. unfold count. cbn [digits exponent length].
    rewrite rne10_zero by (apply ulp_den_pos). change (dval []) with 0.
    split; [constructor|]. split; [by left|]. lia.
  - set (v := decimal_of bits) in *.
    destruct (RoundTo_rounds v _ _ (exponent v + p) HE ltac:(apply ulp_den_pos)) as (R1 & R2 & R3 & _).
    set (r := RoundTo v (exponent v + p)) in *. cbn zeta.
    replace (exponent v - (exponent v + p)) with (- p) in R2 by lia.
    destruct (Z.eqb_spec (count r) 0) as [Hz|Hz].
    + assert (Hnil : digits r = []) by (unfold count in Hz; by destruct (digits r)).
      unfold count. cbn [digits exponent]. rewrite Hnil in *. cbn [length].
      change (dval []) with 0 in *. rewrite Z.mul_0_l in *. split; [constructor|]. split; [by left|]. lia.
    + destruct R3 as [R3|[R3 R4]]; [unfold count in Hz; rewrite R3 in Hz; done|].
      unfold scale_of in *. rewrite Z.max_r in R2 by lia.
      replace (exponent r - exponent v + (exponent v + p - count r)) with (exponent r - count r + p) in * by lia.
      auto.
Qed.

Lemma rne10_neg M D p : 0 <= p -> rne10 M D (- p) = rne (M * 10 ^ p) D.
Proof. intros. unfold rne10. rewrite Z.opp_involutive, Z.max_r, Z.max_l, Z.pow_0_r, Z.mul_1_r by lia. done. Qed.

Lemma fixed_int_shape value :
  Forall ascii_digit (digits value) -> (digits value = [] /\ exponent value = 1 \/ leading (digits value)) ->
  fixed_int value = [48] \/ leading (fixed_int value).
Proof.
  intros Ha H. unfold fixed_int. case_if; [by left|].
  destruct H as [[Hd ->]|(c & t & Hd & Hc)].
  - left. change (Z.to_nat 1) with 1%nat. unfold digit_span, digit_at, count. rewrite Hd. done.
  - right. destruct (Z.to_nat (exponent value)) as [|n] eqn:En; [lia|].
    change (S n) with (1 + n)%nat. rewrite digit_span_app. exists c. eexists. split; [|done].
    unfold digit_span at 1, digit_at, count. rewrite Hd. cbn [length seq map app]. rewrite Z.add_0_r.
    destruct (Z.ltb_spec 0 (Z.of_nat (S (length t)))); [done|lia].
Qed.

(** C2. [%f] is exact: on every finite double, for every precision, the characters
    emitted are the sign, an integer part without superfluous zero, and [p] fraction
    digits which, read as one number, are the double times [10^p] rounded half to
    even from its exact value; the buffer receives the prefix that fits and the full
    length is returned. *)
Theorem FormatFloatTo_fixed cap bits type precision sign alt :
  0 <= cap -> fits 64 bits -> is_finite bits = true -> type = 102 \/ type = 70 ->
  let p := if precision <? 0 then 6 else precision in
  exists ip fp,
    FormatFloatTo cap bits type precision sign alt =
      emitted cap (sign_prefix bits sign ++ ip ++
                   (if 0 <? p then 46 :: fp else if alt then [46] else [])) /\
    Forall ascii_digit (ip ++ fp) /\ (ip = [48] \/ leading ip) /\ Z.of_nat (length fp) = p /\
    dval (ip ++ fp) = rne (dec (magnitude bits) * 10 ^ p) ulp_den.
Proof.
  intros Hcap Hb Hf Ht p. assert (Hp : 0 <= p) by (unfold p; case_if; lia).
  pose proof (fixed_decimal bits p Hf Hp) as HD. cbn zeta in HD.
  set (r := RoundTo (decimal_of bits) (exponent (decimal_of bits) + p)) in *.
  set (v := if count r =? 0 then mkDecimal (digits r) 1 else r) in *.
  destruct HD as (D1 & D2 & D3 & D4). exists (fixed_int v), (fixed_frac v p).
  split; [|split; [|split; [|split]]].
  - rewrite FormatFloatTo_finite by done. fold p. cbn zeta. fold r. fold v.
    destruct Ht as [-> | ->]; cbn [Z.leb Z.compare Pos.compare Pos.compare_cont andb Z.eqb Pos.eqb Z.sub Z.add Z.opp Z.pos_sub Pos.pred_double Pos.add Pos.succ Pos.sub Pos.sub_mask].
    all: rewrite WriteFixed_text, <- PutAll_app by done; by apply emit_new.
  - apply Forall_app. split; [|by apply ascii_span]. unfold fixed_int. case_if; [|by apply ascii_span].
    constructor; [unfold ascii_digit; lia|constructor].
  - by apply fixed_int_shape.
  - unfold fixed_frac. rewrite digit_span_length. lia.
  - rewrite fixed_digits_value, D4 by done. by apply rne10_neg.
Qed.

Lemma FormatFloatTo_fixed_witness :
  (* 2.5 with no fraction digit ties to the even 2 *)
  FormatFloatTo 64 0x4004000000000000 102 0 45 false = emitted 64 [50] /\
  exists ip fp, FormatFloatTo 64 0x4004000000000000 102 0 45 false = emitted 64 (ip ++ []) /\
    dval (ip ++ fp) = rne (dec 0x4004000000000000 * 10 ^ 0) ulp_den.
Proof.
  split; [vm_compute; reflexivity|].
  destruct (FormatFloatTo_fixed 64 0x4004000000000000 102 0 45 false) as (ip & fp & H1 & _ & _ & _ & H2).
  - lia.
  - unfold fits. pow_lit. lia.
  - vm_compute. reflexivity.
  - by left.
  - exists ip, fp. split; [exact H1|exact H2].
Defined.

(** ** The scientific layout *)

Definition sci_exponent (x : Z) : list Z :=
  let m := Z.abs x in
  (if x <? 0 then 45 else 43) ::
  (if m >=? 100 then [48 + m / 100; 48 + m / 10 mod 10; 48 + m mod 10] else [48 + m / 10; 48 + m mod 10]).

Lemma sci_exponent_value x :
  Z.abs x < 1000 ->
  exists es, sci_exponent x = (if x <? 0 then 45 else 43) :: es /\
    Forall ascii_digit es /\ (2 <= length es)%nat /\ dval es = Z.abs x.
Proof.
  intros Hx. unfold sci_exponent. eexists. split; [done|]. rewrite Z.geb_leb.
  destruct (Z.leb_spec 100 (Z.abs x)).
  - split; [repeat (constructor; [unfold ascii_digit; dlia|]); constructor|]. split; [cbn; lia|].
    rewrite !dval_cons. cbn [length]. unfold dv. change (dval []) with 0.
    change (10 ^ Z.of_nat 2) with 100. change (10 ^ Z.of_nat 1) with 10. change (10 ^ Z.of_nat 0) with 1. dlia.
  - split; [repeat (constructor; [unfold ascii_digit; dlia|]); constructor|]. split; [cbn; lia|].
    rewrite !dval_cons. cbn [length]. unfold dv. change (dval []) with 0.
    change (10 ^ Z.of_nat 1) with 10. change (10 ^ Z.of_nat 0) with 1. dlia.
Qed.

Lemma WriteScientific_text w value p alt upper c t :
  0 <= p -> digits value = c :: t ->
  WriteScientific w value p alt upper =
  PutAll w (c :: (if 0 <? p then 46 :: digit_span value 1 (Z.to_nat p) else if alt then [46] else []) ++
            (if upper then 69 else 101) :: sci_exponent (exponent value - 1)).
Proof.
  intros Hp Hd. unfold WriteScientific, sci_exponent.
  assert ((count value =? 0) = false) as -> by (unfold count; rewrite Hd; apply Z.eqb_neq; cbn; lia).
  rewrite Hd. cbn [List.nth]. rewrite Z.gtb_ltb.
  set (x := exponent value - 1).
  assert (Hm : (if x <? 0 then - x else x) = Z.abs x) by (case_if; lia). rewrite Hm.
  assert (Hc : forall v h s, PutAll v (h :: s) = PutAll (Put v h) s) by done.
  rewrite Hc, PutAll_app. destruct (0 <? p).
  - rewrite put_loop_PutAll. rewrite !Hc. by destruct (Z.abs x >=? 100).
  - destruct alt; rewrite !Hc; by destruct (Z.abs x >=? 100).
Qed.

Lemma expands_bounds value M :
  expands value M ulp_den -> 0 < M -> -323 <= exponent value.
Proof.
  intros [Ha Hl E] HM. cbn zeta in E. pose proof (dval_bound _ Ha) as Hb. fold (count value) in Hb.
  destruct (Z_le_gt_dec (-323) (exponent value)) as [|Hx]; [done|exfalso].
  assert (0 <= count value) by (unfold count; lia).
  rewrite Z.max_l, Z.max_r, Z.pow_0_r, Z.mul_1_r in E by lia.
  assert (E2 : 10 ^ count value * 10 ^ 324 <= 10 ^ (- (exponent value - count value))).
  { rewrite <- Z.pow_add_r by lia. apply Z.pow_le_mono_r; lia. }
  assert (ulp_den <= 10 ^ 324) by by apply pow2_le_pow10.
  assert (0 < ulp_den) by (apply ulp_den_pos).
  set (P := ulp_den) in *. set (Q := 10 ^ 324) in *. set (C := 10 ^ count value) in *.
  set (R := 10 ^ (- (exponent value - count value))) in *. clearbody P Q C R.
  assert (dval (digits value) * P < C * Q) by nia. assert (R <= M * R) by nia. lia.
Qed.

Lemma expansion_exponent bits :
  is_finite bits = true -> 0 < dec (magnitude bits) -> -323 <= exponent (decimal_of bits) <= 792.
Proof.
  intros Hf Hpos. destruct (decimal_of_spec bits Hf) as [[? _]|[_ HE]]; [lia|].
  split; [by apply (expands_bounds _ _ HE)|].
  destruct (field_value bits Hf) as (m & e & E & Hm & He & Hv). unfold decimal_of. rewrite E.
  destruct (Z.eqb_spec m 0) as [->|]; [cbn; lia|].
  destruct (ExpandExact_expands m e ltac:(lia) ltac:(lia)) as [_ Hc].
  destruct (expansion_integer m e ltac:(lia) He) as (n' & v & f & En & _ & _ & Hf0 & _).
  unfold ExpandExact, count in *. rewrite En in *. cbn [digits exponent] in *.
  rewrite length_rev in Hc. lia.
Qed.

Lemma RoundTo_exponent value keep :
  exponent (RoundTo value keep) = exponent value \/ exponent (RoundTo value keep) = exponent value + 1.
Proof.
  unfold RoundTo. case_if; [by left|]. case_if; [by left|]. cbn zeta.
  match goal with |- context [if negb ?b then _ else _] => destruct b end; cbn [negb]; [|by left].
  destruct (carry_loop _); [by left|by right].
Qed.

(** A rounding that ends in a zero is also the rounding to one place less. *)
Lemma rne10_coarsen M D u k : 0 < D -> rne10 M D u = 10 * k -> rne10 M D (u + 1) = k.
Proof.
  intros HD. unfold rne10. destruct (Z_lt_le_dec u 0).
  - rewrite (Z.max_r 0 (- u)), (Z.max_l 0 u), (Z.max_r 0 (- (u + 1))), (Z.max_l 0 (u + 1)), Z.pow_0_r, Z.mul_1_r by lia.
    intros E. pose proof (rne_half (M * 10 ^ (- u)) D HD) as H. rewrite E in H.
    rewrite <- (rne_scale _ _ 10) by lia. apply rne_unique; [lia|].
    replace (- u) with (- (u + 1) + 1) in H by lia. rewrite Z.pow_add_r in H by lia. lia.
  - rewrite (Z.max_l 0 (- u)), (Z.max_r 0 u), (Z.max_l 0 (- (u + 1))), (Z.max_r 0 (u + 1)), Z.pow_0_r, Z.mul_1_r by lia.
    pose proof (Z.pow_pos_nonneg 10 u ltac:(lia) ltac:(lia)).
    intros E. pose proof (rne_half M (D * 10 ^ u) ltac:(nia)) as H'. rewrite E in H'.
    rewrite Z.pow_add_r, Z.mul_assoc by lia. change (10 ^ 1) with 10. apply rne_unique; [nia|]. nia.
Qed.

(** The first digit and the padded rest of a rounded expansion. *)
Lemma padded_digits r c t p :
  digits r = c :: t -> 0 <= p -> count r <= p + 1 ->
  c :: digit_span r 1 (Z.to_nat p) = digits r ++ replicate (Z.to_nat (p + 1 - count r)) 48.
Proof.
  intros Hd Hp Hc. transitivity (digit_span r (- 0) (1 + Z.to_nat p)).
  - rewrite digit_span_app. change (- 0 + Z.of_nat 1) with 1. unfold digit_span at 2, digit_at, count. rewrite Hd.
    cbn [seq map app Z.of_nat]. change (- 0 + 0) with 0.
    destruct (Z.ltb_spec 0 (Z.of_nat (length (c :: t)))) as [|Hl]; [done|cbn in Hl; lia].
  - rewrite digit_span_covers by lia.
    replace (Z.of_nat (1 + Z.to_nat p) - 0 - count r) with (p + 1 - count r) by lia. done.
Qed.

(** The significant digits of the scientific layout, padded to [p + 1]. *)
Lemma scientific_decimal bits p :
  is_finite bits = true -> 0 < dec (magnitude bits) -> 0 <= p ->
  let r := RoundTo (decimal_of bits) (p + 1) in
  exists c t,
    digits r = c :: t /\ Forall ascii_digit (c :: digit_span r 1 (Z.to_nat p)) /\ c <> 48 /\
    dval (c :: digit_span r 1 (Z.to_nat p)) = rne10 (dec (magnitude bits)) ulp_den (exponent r - 1 - p) /\
    Z.abs (exponent r - 1) < 1000.
Proof.
  intros Hf Hpos Hp. destruct (decimal_of_spec bits Hf) as [[? _]|[_ HE]]; [lia|].
  pose proof (expansion_exponent bits Hf Hpos) as Hx.
  set (v := decimal_of bits) in *. set (M := dec (magnitude bits)) in *.
  assert (HD : 0 < ulp_den) by (apply ulp_den_pos).
  destruct (RoundTo_rounds v M ulp_den (p + 1) HE HD) as (R1 & R2 & R3 & R4). cbn zeta.
  pose proof (RoundTo_exponent v (p + 1)) as HX.
  set (r := RoundTo v (p + 1)) in *. destruct (R4 ltac:(lia)) as [Hc Hne].
  destruct R3 as [?|[R3 (c & t & Hd & Hc48)]]; [done|]. exists c, t. split; [done|].
  rewrite (padded_digits r c t p Hd Hp Hc).
  split; [apply Forall_app; split; [done|apply Forall_replicate; unfold ascii_digit; lia]|].
  split; [done|]. split; [|lia].
  rewrite dval_app, dval_zeros, length_replicate, Z2Nat.id, Z.add_0_r by lia.
  unfold scale_of in *. rewrite Z.max_r in R2 by lia. destruct HX as [HX|HX]; rewrite HX in *.
  - rewrite <- (Z.sub_add_distr _ 1 p), (Z.add_comm 1 p), <- R2. do 2 f_equal. lia.
  - symmetry. replace (exponent v + 1 - 1 - p) with (exponent v - (p + 1) + 1) by lia.
    apply rne10_coarsen; [done|]. rewrite <- R2.
    replace (exponent v + 1 - exponent v + (p + 1 - count r)) with (1 + (p + 1 - count r)) by lia.
    rewrite Z.pow_add_r by lia. ring.
Qed.

(** [%e] is exact: a nonzero finite double prints as a nonzero digit, [p] fraction
    digits and a signed exponent [x] of two or three digits, where the [p + 1] digits
    read as one number are the double rounded half to even in units of [10^(x-p)],
    a carry into the next power of ten included. *)
Theorem FormatFloatTo_scientific cap bits type precision sign alt :
  0 <= cap -> fits 64 bits -> is_finite bits = true -> 0 < dec (magnitude bits) ->
  type = 101 \/ type = 69 ->
  let p := if precision <? 0 then 6 else precision in
  exists c ds x es,
    FormatFloatTo cap bits type precision sign alt =
      emitted cap (sign_prefix bits sign ++ c :: (if 0 <? p then 46 :: ds else if alt then [46] else []) ++
                   type :: (if x <? 0 then 45 else 43) :: es) /\
    Forall ascii_digit (c :: ds) /\ c <> 48 /\ Z.of_nat (length ds) = p /\
    dval (c :: ds) = rne10 (dec (magnitude bits)) ulp_den (x - p) /\
    Forall ascii_digit es /\ (2 <= length es)%nat /\ dval es = Z.abs x.
Proof.
  intros Hcap Hb Hf Hpos Ht p. assert (Hp : 0 <= p) by (unfold p; case_if; lia).
  destruct (scientific_decimal bits p Hf Hpos Hp) as (c & t & Hd & H1 & H2 & H3 & H4).
  set (r := RoundTo (decimal_of bits) (p + 1)) in *. set (x := exponent r - 1) in *.
  destruct (sci_exponent_value x H4) as (es & E1 & E2 & E3 & E4).
  exists c, (digit_span r 1 (Z.to_nat p)), x, es.
  split; [|split; [done|split; [done|split; [rewrite digit_span_length; lia|auto]]]].
  rewrite FormatFloatTo_finite by done. fold p. cbn zeta. fold r. rewrite <- E1.
  destruct Ht as [-> | ->]; cbn [Z.leb Z.compare Pos.compare Pos.compare_cont andb Z.eqb Pos.eqb Z.sub Z.add Z.opp Z.pos_sub Pos.pred_double Pos.add Pos.succ Pos.sub Pos.sub_mask].
  all: rewrite (WriteScientific_text _ r p alt _ c t), <- PutAll_app by done; by apply emit_new.
Qed.

Lemma FormatFloatTo_scientific_witness :
  exists c ds x es,
    FormatFloatTo 64 0x40239999999999FF 101 0 45 false =
      emitted 64 (c :: [] ++ 101 :: (if x <? 0 then 45 else 43) :: es) /\
    dval (c :: ds) = rne10 (dec 0x40239999999999FF) ulp_den (x - 0).
Proof.
  destruct (FormatFloatTo_scientific 64 0x40239999999999FF 101 0 45 false) as (c & ds & x & es & H1 & _ & _ & _ & H2 & _).
  - lia.
  - unfold fits. pow_lit. lia.
  - vm_compute. reflexivity.
  - vm_compute. reflexivity.
  - by left.
  - exists c, ds, x, es. split; [exact H1|exact H2].
Defined.
