(* ===== verification/Utf.v ===== *)
(** * [src/base/external/icu/icu_utf.h]: UTF-8 and UTF-16 code units

    The macros of the header as functions on a list of code units with an index.
    A macro that advances its index argument returns the advanced index; a macro that
    appends returns the grown output.  [utf8] and [utf16] are the reference encodings
    of the Unicode standard; the theorems relate the macros to them. *)

From S2P Require Import Prelude.

(** The code unit at an index (the text is read in bounds: see [CBU8_NEXT_progress]). *)
Definition at_ (s : list Z) (i : Z) : Z := List.nth (Z.to_nat i) s 0.

Definition CBU_SENTINEL : Z := -1.

Definition CBU_IS_UNICODE_NONCHAR (c : Z) : bool :=
  (0xfdd0 <=? c) && ((c <=? 0xfdef) || (Z.land c 0xfffe =? 0xfffe)) && (c <=? 0x10ffff).

Definition CBU_IS_UNICODE_CHAR (c : Z) : bool :=
  (u32 c <? 0xd800) || ((0xdfff <? c) && (c <=? 0x10ffff) && negb (CBU_IS_UNICODE_NONCHAR c)).

Definition CBU_IS_SURROGATE (c : Z) : bool := Z.land c 0xfffff800 =? 0xd800.
Definition CBU_IS_SURROGATE_LEAD (c : Z) : bool := Z.land c 0x400 =? 0.

(** ** UTF-8 macros *)

Definition CBU8_LEAD3_T1_BITS : list Z :=
  [0x20; 0x30; 0x30; 0x30; 0x30; 0x30; 0x30; 0x30; 0x30; 0x30; 0x30; 0x30; 0x30; 0x10; 0x30; 0x30].

Definition CBU8_LEAD4_T1_BITS : list Z :=
  [0x00; 0x00; 0x00; 0x00; 0x00; 0x00; 0x00; 0x00; 0x1E; 0x0F; 0x0F; 0x0F; 0x00; 0x00; 0x00; 0x00].

Definition CBU8_IS_VALID_LEAD3_AND_T1 (lead t1 : Z) : bool :=
  negb (Z.land (at_ CBU8_LEAD3_T1_BITS (Z.land lead 0xf)) (Z.shiftl 1 (Z.shiftr (u8 t1) 5)) =? 0).

Definition CBU8_IS_VALID_LEAD4_AND_T1 (lead t1 : Z) : bool :=
  negb (Z.land (at_ CBU8_LEAD4_T1_BITS (Z.shiftr (u8 t1) 4)) (Z.shiftl 1 (Z.land lead 7)) =? 0).

Definition CBU8_IS_SINGLE (c : Z) : bool := Z.land c 0x80 =? 0.
Definition CBU8_IS_LEAD (c : Z) : bool := u8 (c - 0xc2) <=? 0x32.
Definition CBU8_IS_TRAIL (c : Z) : bool := swrap 8 c <? -0x40.

Definition CBU8_LENGTH (c : Z) : Z :=
  if u32 c <=? 0x7f then 1
  else if u32 c <=? 0x7ff then 2
  else if u32 c <=? 0xd7ff then 3
  else if (u32 c <=? 0xdfff) || (u32 c >? 0x10ffff) then 0
  else if u32 c <=? 0xffff then 3 else 4.

(** The last conjuncts of the macro's condition: the final trail byte. *)
Definition next_last (s : list Z) (i c sub : Z) : Z * Z :=
  let t := u8 (at_ s i - 0x80) in
  if t <=? 0x3f then (i + 1, Z.lor (Z.shiftl c 6) t) else (i, sub).

(** The advanced index, and the code point or [sub]. *)
Definition CBU8_INTERNAL_NEXT_OR_SUB (s : list Z) (i length sub : Z) : Z * Z :=
  let c := u8 (at_ s i) in
  let i := i + 1 in
  if CBU8_IS_SINGLE c then (i, c)
  else if i =? length then (i, sub)
  else if 0xe0 <=? c then
    if c <? 0xf0 then
      let c := Z.land c 0xf in
      let t := u8 (at_ s i) in
      if Z.land (at_ CBU8_LEAD3_T1_BITS c) (Z.shiftl 1 (Z.shiftr t 5)) =? 0 then (i, sub)
      else
        let c := Z.lor (Z.shiftl c 6) (Z.land t 0x3f) in
        let i := i + 1 in
        if i =? length then (i, sub) else next_last s i c sub
    else
      let c := c - 0xf0 in
      if negb (c <=? 4) then (i, sub)
      else
        let t := u8 (at_ s i) in
        if Z.land (at_ CBU8_LEAD4_T1_BITS (Z.shiftr t 4)) (Z.shiftl 1 c) =? 0 then (i, sub)
        else
          let c := Z.lor (Z.shiftl c 6) (Z.land t 0x3f) in
          let i := i + 1 in
          if i =? length then (i, sub)
          else
            let t := u8 (at_ s i - 0x80) in
            if negb (t <=? 0x3f) then (i, sub)
            else
              let c := Z.lor (Z.shiftl c 6) t in
              let i := i + 1 in
              if i =? length then (i, sub) else next_last s i c sub
  else if 0xc2 <=? c then next_last s i (Z.land c 0x1f) sub
  else (i, sub).

Definition CBU8_NEXT (s : list Z) (i length : Z) : Z * Z :=
  CBU8_INTERNAL_NEXT_OR_SUB s i length CBU_SENTINEL.

(** The output grown by the bytes written at its end. *)
Definition CBU8_APPEND_UNSAFE (s : list Z) (c : Z) : list Z :=
  let uc := u32 c in
  if uc <=? 0x7f then s ++ [u8 uc]
  else
    let s :=
      if uc <=? 0x7ff then s ++ [u8 (Z.lor (Z.shiftr uc 6) 0xc0)]
      else
        let s :=
          if uc <=? 0xffff then s ++ [u8 (Z.lor (Z.shiftr uc 12) 0xe0)]
          else (s ++ [u8 (Z.lor (Z.shiftr uc 18) 0xf0)])
                 ++ [u8 (Z.lor (Z.land (Z.shiftr uc 12) 0x3f) 0x80)] in
        s ++ [u8 (Z.lor (Z.land (Z.shiftr uc 6) 0x3f) 0x80)] in
    s ++ [u8 (Z.lor (Z.land uc 0x3f) 0x80)].

(** ** UTF-16 macros *)

Definition CBU16_IS_SINGLE (c : Z) : bool := negb (CBU_IS_SURROGATE c).
Definition CBU16_IS_LEAD (c : Z) : bool := Z.land c 0xfffffc00 =? 0xd800.
Definition CBU16_IS_TRAIL (c : Z) : bool := Z.land c 0xfffffc00 =? 0xdc00.
Definition CBU16_IS_SURROGATE (c : Z) : bool := CBU_IS_SURROGATE c.
Definition CBU16_IS_SURROGATE_LEAD (c : Z) : bool := Z.land c 0x400 =? 0.
Definition CBU16_SURROGATE_OFFSET : Z := Z.shiftl 0xd800 10 + 0xdc00 - 0x10000.
Definition CBU16_GET_SUPPLEMENTARY (lead trail : Z) : Z :=
  Z.shiftl lead 10 + trail - CBU16_SURROGATE_OFFSET.
Definition CBU16_LEAD (supplementary : Z) : Z := u16 (Z.shiftr supplementary 10 + 0xd7c0).
Definition CBU16_TRAIL (supplementary : Z) : Z := u16 (Z.lor (Z.land supplementary 0x3ff) 0xdc00).
Definition CBU16_LENGTH (c : Z) : Z := if u32 c <=? 0xffff then 1 else 2.

Definition CBU16_GET (s : list Z) (start i length : Z) : Z :=
  let c := at_ s i in
  if CBU16_IS_SURROGATE c then
    if CBU16_IS_SURROGATE_LEAD c then
      if negb (i + 1 =? length) && CBU16_IS_TRAIL (at_ s (i + 1))
      then CBU16_GET_SUPPLEMENTARY c (at_ s (i + 1)) else c
    else if (i >? start) && CBU16_IS_LEAD (at_ s (i - 1))
    then CBU16_GET_SUPPLEMENTARY (at_ s (i - 1)) c else c
  else c.

Definition CBU16_NEXT (s : list Z) (i length : Z) : Z * Z :=
  let c := at_ s i in
  let i := i + 1 in
  if CBU16_IS_LEAD c then
    if negb (i =? length) && CBU16_IS_TRAIL (at_ s i)
    then (i + 1, CBU16_GET_SUPPLEMENTARY c (at_ s i)) else (i, c)
  else (i, c).

Definition CBU16_APPEND_UNSAFE (s : list Z) (c : Z) : list Z :=
  if u32 c <=? 0xffff then s ++ [u16 c]
  else (s ++ [u16 (Z.shiftr c 10 + 0xd7c0)]) ++ [u16 (Z.lor (Z.land c 0x3ff) 0xdc00)].

Definition CBU16_SET_CP_START (s : list Z) (start i : Z) : Z :=
  if CBU16_IS_TRAIL (at_ s i) && (i >? start) && CBU16_IS_LEAD (at_ s (i - 1)) then i - 1 else i.

Definition CBU16_PREV (s : list Z) (start i : Z) : Z * Z :=
  let i := i - 1 in
  let c := at_ s i in
  if CBU16_IS_TRAIL c then
    if (i >? start) && CBU16_IS_LEAD (at_ s (i - 1))
    then (i - 1, CBU16_GET_SUPPLEMENTARY (at_ s (i - 1)) c) else (i, c)
  else (i, c).

Definition CBU16_SET_CP_LIMIT (s : list Z) (start i length : Z) : Z :=
  if (start <? i) && ((i <? length) || (length <? 0))
     && CBU16_IS_LEAD (at_ s (i - 1)) && CBU16_IS_TRAIL (at_ s i) then i + 1 else i.

(** ** The reference encodings *)

(** A Unicode scalar value. *)
Definition scalar (c : Z) : Prop := 0 <= c < 0xD800 \/ 0xE000 <= c <= 0x10FFFF.

Definition utf8 (c : Z) : list Z :=
  if c <=? 0x7F then [c]
  else if c <=? 0x7FF then [0xC0 + c / 2 ^ 6; 0x80 + c mod 2 ^ 6]
  else if c <=? 0xFFFF then [0xE0 + c / 2 ^ 12; 0x80 + c / 2 ^ 6 mod 2 ^ 6; 0x80 + c mod 2 ^ 6]
  else [0xF0 + c / 2 ^ 18; 0x80 + c / 2 ^ 12 mod 2 ^ 6; 0x80 + c / 2 ^ 6 mod 2 ^ 6; 0x80 + c mod 2 ^ 6].

Definition utf16 (c : Z) : list Z :=
  if c <=? 0xFFFF then [c]
  else [0xD800 + (c - 0x10000) / 2 ^ 10; 0xDC00 + (c - 0x10000) mod 2 ^ 10].

Definition byte (b : Z) : Prop := 0 <= b < 256.
Definition unit16 (u : Z) : Prop := 0 <= u < 65536.

(** ** Masks as ranges *)

Lemma IS_SINGLE_byte c : byte c -> CBU8_IS_SINGLE c = (c <? 128).
Proof.
  intros H. apply eqb_prop.
  apply (range_check 256 (fun c => eqb (CBU8_IS_SINGLE c) (c <? 128))); [vm_compute; reflexivity|exact H].
Qed.

Lemma lead3_check l q :
  0 <= l < 16 -> 0 <= q < 8 ->
  (Z.land (at_ CBU8_LEAD3_T1_BITS l) (Z.shiftl 1 q) =? 0)
  = negb ((q =? 4) && negb (l =? 0) || (q =? 5) && negb (l =? 13)).
Proof.
  intros Hl Hq. apply eqb_prop.
  apply (range_check2 16 8 (fun l q => eqb (Z.land (at_ CBU8_LEAD3_T1_BITS l) (Z.shiftl 1 q) =? 0)
    (negb ((q =? 4) && negb (l =? 0) || (q =? 5) && negb (l =? 13))))); [vm_compute; reflexivity|lia|lia].
Qed.

Lemma lead4_check l q :
  0 <= l < 5 -> 0 <= q < 16 ->
  (Z.land (at_ CBU8_LEAD4_T1_BITS q) (Z.shiftl 1 l) =? 0)
  = negb ((q =? 8) && negb (l =? 0) || (9 <=? q) && (q <=? 11) && negb (l =? 4)).
Proof.
  intros Hl Hq. apply eqb_prop.
  apply (range_check2 5 16 (fun l q => eqb (Z.land (at_ CBU8_LEAD4_T1_BITS q) (Z.shiftl 1 l) =? 0)
    (negb ((q =? 8) && negb (l =? 0) || (9 <=? q) && (q <=? 11) && negb (l =? 4))))); [vm_compute; reflexivity|lia|lia].
Qed.

Lemma u8_byte b : byte b -> u8 b = b.
Proof. exact (wrap_small 8 b). Qed.

Lemma lor6 c t : 0 <= t < 64 -> Z.lor (Z.shiftl c 6) t = c * 64 + t.
Proof. intros. by rewrite lor_disjoint_add by lia. Qed.

Lemma land_3f t : Z.land t 0x3f = t mod 64.
Proof. exact (land_low_mask t 6 ltac:(lia)). Qed.

Lemma land_1f t : Z.land t 0x1f = t mod 32.
Proof. exact (land_low_mask t 5 ltac:(lia)). Qed.

Lemma land_0f t : Z.land t 0xf = t mod 16.
Proof. exact (land_low_mask t 4 ltac:(lia)). Qed.

Lemma drop_at s i :
  0 <= i < Z.of_nat (length s) -> drop (Z.to_nat i) s = at_ s i :: drop (Z.to_nat (i + 1)) s.
Proof.
  intros Hi. rewrite Z2Nat.inj_add by lia. replace (Z.to_nat i + Z.to_nat 1)%nat with (S (Z.to_nat i)) by lia.
  assert (Hn : (Z.to_nat i < length s)%nat) by lia. unfold at_. clear Hi. revert Hn. generalize (Z.to_nat i).
  induction s as [|c s IH]; intros n Hn; cbn in Hn; [lia|].
  destruct n as [|n]; [done|]. apply IH. lia.
Qed.

Lemma at_byte s i : Forall byte s -> byte (at_ s i).
Proof.
  intros H. unfold at_. revert H. generalize (Z.to_nat i).
  induction s as [|c s IH]; intros [|n] H; try (cbn; unfold byte; lia).
  - by inversion H.
  - apply IH. by inversion H.
Qed.

(** The final trail byte: consumed exactly when it is one. *)
Lemma next_last_spec s i c :
  byte (at_ s i) -> 0 <= c ->
  next_last s i c CBU_SENTINEL =
    if (128 <=? at_ s i) && (at_ s i <? 192) then (i + 1, c * 64 + (at_ s i - 128)) else (i, CBU_SENTINEL).
Proof.
  intros Hb Hc. unfold next_last. unfold byte in Hb.
  assert (E : (u8 (at_ s i - 128) <=? 63) = (128 <=? at_ s i) && (at_ s i <? 192)).
  { apply bool_eq_iff. rewrite andb_true_iff, !Z.leb_le, Z.ltb_lt. unfold wrap. dlia. }
  rewrite E. case_if; [|done]. rewrite wrap_small by (unfold fits; pow_lit; lia). by rewrite lor6 by lia.
Qed.

Definition trail (b : Z) : bool := (128 <=? b) && (b <? 192).

(** [CBU8_NEXT] with its masks, table look-ups and shifts read as arithmetic. *)
Definition next_arith (s : list Z) (i n : Z) : Z * Z :=
  let b := at_ s i in
  let t k := at_ s (i + k) in
  let last k c := if trail (t k) then (i + k + 1, c * 64 + (t k - 128)) else (i + k, -1) in
  if b <? 128 then (i + 1, b)
  else if i + 1 =? n then (i + 1, -1)
  else if 224 <=? b then
    if b <? 240 then
      if negb (trail (t 1) && (negb (b =? 224) || (160 <=? t 1)) && (negb (b =? 237) || (t 1 <? 160))) then (i + 1, -1)
      else if i + 2 =? n then (i + 2, -1) else last 2 ((b - 224) * 64 + (t 1 - 128))
    else if 244 <? b then (i + 1, -1)
    else if negb (trail (t 1) && (negb (b =? 240) || (144 <=? t 1)) && (negb (b =? 244) || (t 1 <? 144))) then (i + 1, -1)
    else if i + 2 =? n then (i + 2, -1)
    else if negb (trail (t 2)) then (i + 2, -1)
    else if i + 3 =? n then (i + 3, -1)
    else last 3 (((b - 240) * 64 + (t 1 - 128)) * 64 + (t 2 - 128))
  else if 194 <=? b then last 1 (b - 192)
  else (i + 1, -1).

Lemma trail_u8 b : byte b -> (u8 (b - 0x80) <=? 0x3f) = trail b.
Proof.
  intros H. unfold byte in H. apply bool_eq_iff. unfold trail.
  rewrite andb_true_iff, !Z.leb_le, Z.ltb_lt. unfold wrap. dlia.
Qed.

Lemma lead3_arith b t :
  224 <= b < 240 -> byte t ->
  (Z.land (at_ CBU8_LEAD3_T1_BITS (b mod 16)) (Z.shiftl 1 (Z.shiftr t 5)) =? 0)
  = negb (trail t && (negb (b =? 224) || (160 <=? t)) && (negb (b =? 237) || (t <? 160))).
Proof.
  intros Hb Ht. unfold byte in Ht. rewrite shiftr_div, lead3_check by dlia. f_equal. unfold trail.
  apply bool_eq_iff. rewrite !andb_true_iff, !orb_true_iff, !andb_true_iff, !negb_true_iff, !Z.eqb_neq, !Z.eqb_eq,
    !Z.leb_le, !Z.ltb_lt. dlia.
Qed.

Lemma lead4_arith b t :
  240 <= b <= 244 -> byte t ->
  (Z.land (at_ CBU8_LEAD4_T1_BITS (Z.shiftr t 4)) (Z.shiftl 1 (b - 240)) =? 0)
  = negb (trail t && (negb (b =? 240) || (144 <=? t)) && (negb (b =? 244) || (t <? 144))).
Proof.
  intros Hb Ht. unfold byte in Ht. rewrite shiftr_div, lead4_check by dlia. f_equal. unfold trail.
  apply bool_eq_iff. rewrite !orb_true_iff, !andb_true_iff, !orb_true_iff, !negb_true_iff, !Z.eqb_neq, !Z.eqb_eq,
    !Z.leb_le, !Z.ltb_lt. dlia.
Qed.

Lemma CBU8_NEXT_arith s i n : Forall byte s -> CBU8_NEXT s i n = next_arith s i n.
Proof.
  intros Hs. pose proof (at_byte s i Hs) as H0. pose proof (at_byte s (i + 1) Hs) as H1.
  pose proof (at_byte s (i + 1 + 1) Hs) as H2. pose proof (at_byte s (i + 1 + 1 + 1) Hs) as H3.
  unfold CBU8_NEXT, CBU8_INTERNAL_NEXT_OR_SUB, next_arith. cbn zeta.
  replace (i + 3) with (i + 1 + 1 + 1) by lia. replace (i + 2) with (i + 1 + 1) by lia.
  rewrite !u8_byte, IS_SINGLE_byte, land_0f, land_1f, land_3f, !trail_u8 by done.
  destruct (Z.ltb_spec (at_ s i) 128); [done|]. destruct (i + 1 =? n); [done|]. unfold byte in *.
  destruct (Z.leb_spec 224 (at_ s i)).
  - destruct (Z.ltb_spec (at_ s i) 240).
    + rewrite lead3_arith by done. case_if; [done|]. destruct (i + 1 + 1 =? n); [done|].
      rewrite lor6 by dlia. unfold trail in *. bprop.
      replace (at_ s i mod 16 * 64 + at_ s (i + 1) mod 64) with ((at_ s i - 224) * 64 + (at_ s (i + 1) - 128)) by dlia.
      by rewrite next_last_spec by (unfold byte; lia).
    + destruct (Z.leb_spec (at_ s i - 240) 4), (Z.ltb_spec 244 (at_ s i)); cbn [negb]; try lia; [|done].
      rewrite lead4_arith by (unfold byte; lia). case_if; [done|]. destruct (i + 1 + 1 =? n); [done|].
      case_if; [done|]. destruct (i + 1 + 1 + 1 =? n); [done|]. unfold trail in *. bprop.
      rewrite !lor6 by (unfold wrap; dlia). rewrite (wrap_small 8) by (unfold fits; pow_lit; lia).
      replace (at_ s (i + 1) mod 64) with (at_ s (i + 1) - 128) by dlia.
      by rewrite next_last_spec by (unfold byte; lia).
  - case_if; [|done]. replace (at_ s i mod 32) with (at_ s i - 192) by dlia.
    by rewrite next_last_spec by (unfold byte; lia).
Qed.

Lemma trail_range t : trail t = true -> 128 <= t < 192.
Proof. unfold trail. intros. bprop. lia. Qed.

(** Assembled code points are encoded by the bytes they came from. *)
Lemma utf8_assemble1 b : 0 <= b < 128 -> utf8 b = [b].
Proof. intros. unfold utf8. case_if; [done|lia]. Qed.

Lemma utf8_assemble2 b t : 194 <= b < 224 -> 128 <= t < 192 -> utf8 ((b - 192) * 64 + (t - 128)) = [b; t].
Proof. intros. unfold utf8. repeat case_if; try lia. f_equal; [dlia|f_equal; dlia]. Qed.

Lemma utf8_assemble3 b t1 t2 :
  224 <= b < 240 -> 128 <= t1 < 192 -> 128 <= t2 < 192 -> (b = 224 -> 160 <= t1) ->
  utf8 (((b - 224) * 64 + (t1 - 128)) * 64 + (t2 - 128)) = [b; t1; t2].
Proof.
  intros. unfold utf8. repeat case_if; try lia. change (2 ^ 12) with 4096. f_equal; [dlia|f_equal; [dlia|f_equal; dlia]].
Qed.

Lemma utf8_assemble4 b t1 t2 t3 :
  240 <= b <= 244 -> 128 <= t1 < 192 -> 128 <= t2 < 192 -> 128 <= t3 < 192 -> (b = 240 -> 144 <= t1) ->
  utf8 ((((b - 240) * 64 + (t1 - 128)) * 64 + (t2 - 128)) * 64 + (t3 - 128)) = [b; t1; t2; t3].
Proof.
  intros. unfold utf8. repeat case_if; try lia. change (2 ^ 12) with 4096. change (2 ^ 18) with 262144.
  f_equal; [dlia|f_equal; [dlia|f_equal; [dlia|f_equal; dlia]]].
Qed.

(** The bytes of an encoded scalar value, with the ranges a decoder checks. *)
Inductive utf8_shape : Z -> list Z -> Prop :=
| shape1 b : 0 <= b < 128 -> utf8_shape b [b]
| shape2 b t : 194 <= b < 224 -> 128 <= t < 192 -> utf8_shape ((b - 192) * 64 + (t - 128)) [b; t]
| shape3 b t1 t2 :
    224 <= b < 240 -> 128 <= t1 < 192 -> 128 <= t2 < 192 -> (b = 224 -> 160 <= t1) -> (b = 237 -> t1 < 160) ->
    utf8_shape (((b - 224) * 64 + (t1 - 128)) * 64 + (t2 - 128)) [b; t1; t2]
| shape4 b t1 t2 t3 :
    240 <= b <= 244 -> 128 <= t1 < 192 -> 128 <= t2 < 192 -> 128 <= t3 < 192 ->
    (b = 240 -> 144 <= t1) -> (b = 244 -> t1 < 144) ->
    utf8_shape ((((b - 240) * 64 + (t1 - 128)) * 64 + (t2 - 128)) * 64 + (t3 - 128)) [b; t1; t2; t3].

Lemma utf8_shape_scalar c l : utf8_shape c l -> scalar c /\ utf8 c = l.
Proof.
  destruct 1; (split; [unfold scalar; lia|]); auto using utf8_assemble1, utf8_assemble2, utf8_assemble3, utf8_assemble4.
Qed.

Lemma scalar_utf8_shape c : scalar c -> utf8_shape c (utf8 c).
Proof.
  unfold scalar, utf8. intros H. change (2 ^ 12) with 4096. change (2 ^ 18) with 262144. change (2 ^ 6) with 64.
  repeat case_if.
  - apply shape1. lia.
  - replace c with ((192 + c / 64 - 192) * 64 + (128 + c mod 64 - 128)) at 1 by dlia. apply shape2; dlia.
  - replace c with (((224 + c / 4096 - 224) * 64 + (128 + c / 64 mod 64 - 128)) * 64 + (128 + c mod 64 - 128)) at 1 by dlia.
    apply shape3; dlia.
  - replace c with ((((240 + c / 262144 - 240) * 64 + (128 + c / 4096 mod 64 - 128)) * 64 + (128 + c / 64 mod 64 - 128)) * 64
      + (128 + c mod 64 - 128)) at 1 by dlia.
    apply shape4; dlia.
Qed.

Lemma utf8_bytes c : scalar c -> Forall byte (utf8 c).
Proof. intros H. destruct (scalar_utf8_shape c H); repeat constructor; unfold byte; lia. Qed.

(** [CBU8_NEXT] advances, stays inside the text, and returns a code point only for
    the bytes that are its shortest encoding. *)
Lemma CBU8_NEXT_sound s i :
  Forall byte s -> 0 <= i < Z.of_nat (length s) ->
  let '(i', c) := CBU8_NEXT s i (Z.of_nat (length s)) in
  i < i' <= Z.of_nat (length s) /\ i' <= i + 4 /\
  (c = -1 \/ scalar c /\ drop (Z.to_nat i) s = utf8 c ++ drop (Z.to_nat i') s).
Proof.
  intros Hs Hi. rewrite CBU8_NEXT_arith by done. set (n := Z.of_nat (length s)) in *.
  pose proof (drop_at s i Hi) as D0. pose proof (at_byte s i Hs) as H0. unfold byte in *.
  assert (D : forall k k', k' = k + 1 -> 0 <= k -> i + k < n ->
    drop (Z.to_nat (i + k)) s = at_ s (i + k) :: drop (Z.to_nat (i + k')) s).
  { intros k k' -> Hk Hl. rewrite drop_at by lia. do 3 f_equal. lia. }
  pose proof (D 1 2 eq_refl ltac:(lia)) as D1. pose proof (D 2 3 eq_refl ltac:(lia)) as D2.
  pose proof (D 3 4 eq_refl ltac:(lia)) as D3. clear D.
  unfold next_arith. cbn zeta.
  assert (R : forall c l k, utf8_shape c l -> drop (Z.to_nat i) s = l ++ drop (Z.to_nat (i + k)) s ->
    c = -1 \/ scalar c /\ drop (Z.to_nat i) s = utf8 c ++ drop (Z.to_nat (i + k)) s).
  { intros c l k Hsh E. right. apply utf8_shape_scalar in Hsh as [Hc <-]. done. }
  repeat (case_if; try (split; [lia|split; [lia|by left]])).
  all: rewrite ?orb_true_iff in *; repeat match goal with H : trail _ = true |- _ => apply trail_range in H end.
  - split; [lia|split; [lia|]]. apply (R _ [at_ s i]); [apply shape1; lia|done].
  - split; [lia|split; [lia|]]. replace (i + 2 + 1) with (i + 3) in * by lia.
    eapply (R _ [at_ s i; at_ s (i + 1); at_ s (i + 2)]); [apply shape3; lia|].
    rewrite D0, D1, D2 by lia. done.
  - split; [lia|split; [lia|]]. replace (i + 3 + 1) with (i + 4) in * by lia.
    eapply (R _ [at_ s i; at_ s (i + 1); at_ s (i + 2); at_ s (i + 3)]); [apply shape4; lia|].
    rewrite D0, D1, D2, D3 by lia. done.
  - split; [lia|split; [lia|]]. replace (i + 1 + 1) with (i + 2) in * by lia.
    eapply (R _ [at_ s i; at_ s (i + 1)]); [apply shape2; lia|]. rewrite D0, D1 by lia. done.
Qed.

(** Every scalar value is read back from its encoding, wherever it stands. *)
Lemma CBU8_NEXT_complete s i c rest :
  Forall byte s -> 0 <= i <= Z.of_nat (length s) -> scalar c -> drop (Z.to_nat i) s = utf8 c ++ rest ->
  CBU8_NEXT s i (Z.of_nat (length s)) = (i + Z.of_nat (length (utf8 c)), c).
Proof.
  intros Hs Hi Hc E. rewrite CBU8_NEXT_arith by done. set (n := Z.of_nat (length s)) in *.
  assert (Hl : n - i = Z.of_nat (length (utf8 c)) + Z.of_nat (length rest)).
  { pose proof (f_equal length E) as X. rewrite length_drop, length_app in X. lia. }
  assert (A : forall k, 0 <= k < Z.of_nat (length (utf8 c)) -> at_ s (i + k) = List.nth (Z.to_nat k) (utf8 c) 0).
  { intros k Hk. unfold at_. rewrite Z2Nat.inj_add by lia.
    rewrite <- (take_drop (Z.to_nat i) s), app_nth2; rewrite length_take_le by lia; [|lia].
    rewrite E. replace (Z.to_nat i + Z.to_nat k - Z.to_nat i)%nat with (Z.to_nat k) by lia. rewrite app_nth1 by lia. done. }
  pose proof (A 0) as A0. pose proof (A 1) as A1. pose proof (A 2) as A2. pose proof (A 3) as A3. clear A E.
  change (Z.to_nat 0) with 0%nat in A0. change (Z.to_nat 1) with 1%nat in A1.
  change (Z.to_nat 2) with 2%nat in A2. change (Z.to_nat 3) with 3%nat in A3.
  rewrite Z.add_0_r in A0. unfold next_arith. cbn zeta.
  destruct (scalar_utf8_shape c Hc) as [b ?|b t ? ?|b t1 t2 ? ? ? ? ?|b t1 t2 t3 ? ? ? ? ? ?]; cbn [length] in *.
  all: cbn [List.nth] in A0, A1, A2, A3; rewrite ?A0, ?A1, ?A2, ?A3 by lia; unfold trail.
  all: repeat (case_if; try lia); try (f_equal; lia).
Qed.

(** The appending macro writes the reference encoding. *)
Lemma CBU8_APPEND_spec s c : scalar c -> CBU8_APPEND_UNSAFE s c = s ++ utf8 c.
Proof.
  intros Hc. unfold CBU8_APPEND_UNSAFE. rewrite wrap_small by (unfold scalar in Hc; unfold fits; pow_lit; lia).
  rewrite !shiftr_div, !land_3f, !(Z.lor_comm _ 0x80), !(Z.lor_comm _ 0xc0), !(Z.lor_comm _ 0xe0), !(Z.lor_comm _ 0xf0) by lia.
  change 0x80 with (Z.shiftl 2 6). change 0xc0 with (Z.shiftl 3 6). change 0xe0 with (Z.shiftl 14 4). change 0xf0 with (Z.shiftl 30 3).
  unfold utf8. unfold scalar in Hc. cbn zeta.
  change (2 ^ 6) with 64. change (2 ^ 12) with 4096. change (2 ^ 18) with 262144.
  repeat case_if; rewrite ?lor_disjoint_add by dlia; rewrite ?(wrap_small 8) by (unfold fits; dlia);
    rewrite <- ?app_assoc; done.
Qed.

(** ** UTF-16 *)

Lemma IS_LEAD_range u : unit16 u -> CBU16_IS_LEAD u = (0xD800 <=? u) && (u <? 0xDC00).
Proof.
  unfold unit16. intros H. unfold CBU16_IS_LEAD. change 0xfffffc00 with (2 ^ 32 - 2 ^ 10).
  rewrite land_high_mask by (pow_lit; lia). change (2 ^ 10) with 1024.
  apply bool_eq_iff. rewrite andb_true_iff, Z.eqb_eq, Z.leb_le, Z.ltb_lt. dlia.
Qed.

Lemma IS_TRAIL_range u : unit16 u -> CBU16_IS_TRAIL u = (0xDC00 <=? u) && (u <? 0xE000).
Proof.
  unfold unit16. intros H. unfold CBU16_IS_TRAIL. change 0xfffffc00 with (2 ^ 32 - 2 ^ 10).
  rewrite land_high_mask by (pow_lit; lia). change (2 ^ 10) with 1024.
  apply bool_eq_iff. rewrite andb_true_iff, Z.eqb_eq, Z.leb_le, Z.ltb_lt. dlia.
Qed.

Lemma IS_SINGLE_range u : unit16 u -> CBU16_IS_SINGLE u = negb ((0xD800 <=? u) && (u <? 0xE000)).
Proof.
  unfold unit16. intros H. unfold CBU16_IS_SINGLE, CBU_IS_SURROGATE. change 0xfffff800 with (2 ^ 32 - 2 ^ 11).
  rewrite land_high_mask by (pow_lit; lia). change (2 ^ 11) with 2048. f_equal.
  apply bool_eq_iff. rewrite andb_true_iff, Z.eqb_eq, Z.leb_le, Z.ltb_lt. dlia.
Qed.

Lemma GET_SUPPLEMENTARY_value l t :
  CBU16_GET_SUPPLEMENTARY l t = 0x10000 + (l - 0xD800) * 1024 + (t - 0xDC00).
Proof.
  unfold CBU16_GET_SUPPLEMENTARY, CBU16_SURROGATE_OFFSET. rewrite !Z.shiftl_mul_pow2 by lia.
  change (2 ^ 10) with 1024. lia.
Qed.

Lemma utf16_units c : scalar c -> Forall unit16 (utf16 c).
Proof. unfold scalar, utf16, unit16. intros H. change (2 ^ 10) with 1024. case_if; repeat constructor; dlia. Qed.

Lemma CBU16_APPEND_spec s c : scalar c -> CBU16_APPEND_UNSAFE s c = s ++ utf16 c.
Proof.
  intros Hc. unfold CBU16_APPEND_UNSAFE, utf16. unfold scalar in Hc.
  rewrite (wrap_small 32) by (unfold fits; pow_lit; lia). case_if.
  - by rewrite wrap_small by (unfold fits; pow_lit; lia).
  - rewrite shiftr_div by lia. change 0x3ff with (2 ^ 10 - 1). rewrite land_low_mask, Z.lor_comm by lia.
    change 0xdc00 with (Z.shiftl 55 10) at 1. rewrite lor_disjoint_add by (change (2 ^ 10) with 1024; dlia).
    change (2 ^ 10) with 1024. rewrite !wrap_small by (unfold fits; dlia).
    rewrite <- app_assoc. cbn [app]. do 2 f_equal; [|f_equal]; dlia.
Qed.

(** A pair of surrogates is the encoding of the code point it assembles. *)
Lemma utf16_pair l t :
  0xD800 <= l < 0xDC00 -> 0xDC00 <= t < 0xE000 ->
  scalar (CBU16_GET_SUPPLEMENTARY l t) /\ utf16 (CBU16_GET_SUPPLEMENTARY l t) = [l; t].
Proof.
  intros Hl Ht. rewrite GET_SUPPLEMENTARY_value. unfold scalar, utf16. change (2 ^ 10) with 1024.
  split; [lia|]. case_if; [lia|]. f_equal; [dlia|f_equal; dlia].
Qed.

Lemma utf16_single u : 0 <= u < 0xD800 \/ 0xE000 <= u < 0x10000 -> scalar u /\ utf16 u = [u].
Proof. intros H. unfold scalar, utf16. split; [lia|]. case_if; [done|lia]. Qed.

(** An encoded scalar value is one unit outside the surrogates, or a pair. *)
Inductive utf16_shape : Z -> list Z -> Prop :=
| single16 u : 0 <= u < 0xD800 \/ 0xE000 <= u < 0x10000 -> utf16_shape u [u]
| pair16 l t : 0xD800 <= l < 0xDC00 -> 0xDC00 <= t < 0xE000 -> utf16_shape (CBU16_GET_SUPPLEMENTARY l t) [l; t].

Lemma scalar_utf16_shape c : scalar c -> utf16_shape c (utf16 c).
Proof.
  unfold scalar, utf16. intros H. change (2 ^ 10) with 1024. case_if; [apply single16; lia|].
  replace c with (CBU16_GET_SUPPLEMENTARY (55296 + (c - 65536) / 1024) (56320 + (c - 65536) mod 1024)) at 1
    by (rewrite GET_SUPPLEMENTARY_value; dlia).
  apply pair16; dlia.
Qed.
