(* ===== verification/CodeConvert.v ===== *)
(** * [src/base/text]: conversions between encodings and their validation

    [code_convert.cc] with the decoders of its three source encodings,
    [code_point_validation.h] and [utf8_codepoint_iterator.h].  A string reference is
    the list of its code units; where the code looks at the alignment of the data, its
    address is an argument.  The destination string is the list of the units written;
    that they fit the resized destination is the bound of the theorems. *)

From S2P Require Import Prelude Utf.

(** ** [code_point_validation.h] *)

Definition IsValidUTF8Character (code_point : Z) : bool :=
  (0 <=? code_point) && (code_point <? 0xD800)
  || (0xE000 <=? code_point) && (code_point <? 0xFDD0)
  || (0xFDEF <? code_point) && (code_point <=? 0x10FFFF) && negb (Z.land code_point 0xFFFE =? 0xFFFE).

Fixpoint utf8_valid_loop (fuel : nat) (src : list Z) (char_index : Z) : bool :=
  match fuel with
  | O => true
  | S fuel =>
      if char_index <? Z.of_nat (length src) then
        let '(char_index, code_point) := CBU8_NEXT src char_index (Z.of_nat (length src)) in
        if negb (IsValidUTF8Character code_point) then false
        else utf8_valid_loop fuel src char_index
      else true
  end.

Definition DoIsStringUTF8 (src : list Z) : bool := utf8_valid_loop (S (length src)) src 0.

Fixpoint utf8_report_loop (fuel : nat) (src : list Z) (char_index : Z) : Z :=
  match fuel with
  | O => 0
  | S fuel =>
      if char_index <? Z.of_nat (length src) then
        let old_char_index := char_index in
        let '(char_index, code_point) := CBU8_NEXT src char_index (Z.of_nat (length src)) in
        if negb (IsValidUTF8Character code_point) then old_char_index
        else utf8_report_loop fuel src char_index
      else 0
  end.

Definition IsStringUTF8AndReportIdx (src : list Z) : Z := utf8_report_loop (S (length src)) src 0.

Definition IsValidCodepoint (code_point : Z) : bool :=
  let code_point := u32 code_point in
  (code_point <? 0xD800) || (0xE000 <=? code_point) && (code_point <=? 0x10FFFF).

Definition IsMachineWordAligned (pointer : Z) : bool := Z.land pointer (8 - 1) =? 0.

(** The code unit types: their size in bytes and their signedness. *)
Inductive CharT := char | char8_t | char16_t | wchar_t.

Section Build.

(** [WCHAR_T_IS_UTF32] of the build: [wchar_t] is a signed 32-bit type where it is
    defined (POSIX) and an unsigned 16-bit one where it is not (Windows). *)
Variable WCHAR_T_IS_UTF32 : bool.

Definition char_size (t : CharT) : Z :=
  match t with char | char8_t => 1 | char16_t => 2 | wchar_t => if WCHAR_T_IS_UTF32 then 4 else 2 end.

Definition char_signed (t : CharT) : bool :=
  match t with char => true | wchar_t => WCHAR_T_IS_UTF32 | _ => false end.

Definition char_bits (t : CharT) : Z := 8 * char_size t.

(** The conversion of a unit to [MachineWord], sign extension included. *)
Definition to_word (t : CharT) (c : Z) : Z := if char_signed t then u64 (swrap (char_bits t) c) else c.

Definition NonASCIIMask (t : CharT) : Z :=
  if char_size t =? 1 then 0x8080808080808080
  else if char_size t =? 2 then 0xFF80FF80FF80FF80
  else 0xFFFFFF80FFFFFF80.

(** [while (!IsMachineWordAligned(characters) && characters < end)]. *)
Fixpoint align_loop (t : CharT) (pointer : Z) (characters : list Z) (all_char_bits : Z) : list Z * Z :=
  match characters with
  | [] => ([], all_char_bits)
  | c :: rest =>
      if negb (IsMachineWordAligned pointer)
      then align_loop t (pointer + char_size t) rest (Z.lor all_char_bits (to_word t c))
      else (characters, all_char_bits)
  end.

Definition chars_per_word (t : CharT) : nat := Z.to_nat (8 / char_size t).

(** The little-endian machine word at the cursor. *)
Definition read_word (t : CharT) (characters : list Z) : Z :=
  lval (2 ^ char_bits t) (take (chars_per_word t) characters).

Fixpoint or_words (t : CharT) (n : nat) (characters : list Z) (all_char_bits : Z) : list Z * Z :=
  match n with
  | O => (characters, all_char_bits)
  | S n => or_words t n (drop (chars_per_word t) characters) (Z.lor all_char_bits (read_word t characters))
  end.

Definition batch_count : nat := 16.

(** [None] for the [return false] inside the loop. *)
Fixpoint batch_loop (t : CharT) (fuel : nat) (characters : list Z) : option (list Z) :=
  match fuel with
  | O => Some characters
  | S fuel =>
      if Nat.leb (batch_count * chars_per_word t) (length characters) then
        let '(characters, all_char_bits) := or_words t batch_count characters 0 in
        if negb (Z.land all_char_bits (NonASCIIMask t) =? 0) then None else batch_loop t fuel characters
      else Some characters
  end.

Fixpoint word_loop (t : CharT) (fuel : nat) (characters : list Z) (all_char_bits : Z) : list Z * Z :=
  match fuel with
  | O => (characters, all_char_bits)
  | S fuel =>
      if Nat.leb (chars_per_word t) (length characters)
      then word_loop t fuel (drop (chars_per_word t) characters) (Z.lor all_char_bits (read_word t characters))
      else (characters, all_char_bits)
  end.

Definition DoIsStringASCII (t : CharT) (pointer : Z) (characters : list Z) : bool :=
  if Nat.eqb (length characters) 0 then true
  else
    let '(rest, all_char_bits) := align_loop t pointer characters 0 in
    if negb (Z.land all_char_bits (NonASCIIMask t) =? 0) then false
    else
      match batch_loop t (S (length rest)) rest with
      | None => false
      | Some rest =>
          let '(rest, all_char_bits) := word_loop t (S (length rest)) rest 0 in
          let all_char_bits := fold_left (fun bits c => Z.lor bits (to_word t c)) rest all_char_bits in
          Z.land all_char_bits (NonASCIIMask t) =? 0
      end.

(** ** [code_convert.cc] *)

Definition kErrorCodePoint : Z := 0xFFFD.

Definition SizeCoefficient (src dest : CharT) : Z :=
  match src, dest with
  | char16_t, char | char16_t, char8_t => 3
  | wchar_t, char | wchar_t, char8_t => if WCHAR_T_IS_UTF32 then 4 else 1
  | wchar_t, char16_t => if WCHAR_T_IS_UTF32 then 2 else 1
  | _, _ => 1
  end.

Definition UnicodeAppendUnsafe (t : CharT) (out : list Z) (code_point : Z) : list Z :=
  if char_bits t =? 8 then CBU8_APPEND_UNSAFE out code_point
  else if char_bits t =? 16 then CBU16_APPEND_UNSAFE out code_point
  else out ++ [code_point].

(** A decoded code point, or the replacement and [success = false]. *)
Definition checked (cp : Z) (success : bool) : Z * bool :=
  if negb (IsValidCodepoint cp) then (kErrorCodePoint, false) else (cp, success).

Fixpoint decode_utf8_loop (fuel : nat) (t : CharT) (src : list Z) (src_len i : Z) (dest : list Z)
    (success : bool) : bool * list Z :=
  match fuel with
  | O => (success, dest)
  | S fuel =>
      if i <? src_len then
        let '(i, cp) := CBU8_NEXT src i src_len in
        let '(cp, success) := checked cp success in
        decode_utf8_loop fuel t src src_len i (UnicodeAppendUnsafe t dest cp) success
      else (success, dest)
  end.

Definition DecodeUtf8 (t : CharT) (src : list Z) (src_len : Z) : bool * list Z :=
  decode_utf8_loop (S (Z.to_nat src_len)) t src src_len 0 [] true.

(** The branch for a unit that starts no pair. *)
Definition single_unit (c : Z) (success : bool) : Z * bool :=
  if negb (CBU16_IS_SINGLE c) || negb (IsValidCodepoint c) then (kErrorCodePoint, false) else (c, success).

Fixpoint decode_utf16_loop (fuel : nat) (t : CharT) (src : list Z) (src_len i : Z) (dest : list Z)
    (success : bool) : Z * list Z * bool :=
  match fuel with
  | O => (i, dest, success)
  | S fuel =>
      if i <? src_len - 1 then
        if CBU16_IS_LEAD (at_ src i) && CBU16_IS_TRAIL (at_ src (i + 1)) then
          let '(cp, success) := checked (CBU16_GET_SUPPLEMENTARY (at_ src i) (at_ src (i + 1))) success in
          decode_utf16_loop fuel t src src_len (i + 2) (UnicodeAppendUnsafe t dest cp) success
        else
          let '(cp, success) := single_unit (at_ src i) success in
          decode_utf16_loop fuel t src src_len (i + 1) (UnicodeAppendUnsafe t dest cp) success
      else (i, dest, success)
  end.

Definition DecodeUtf16 (t : CharT) (src : list Z) (src_len : Z) : bool * list Z :=
  let '(i, dest, success) := decode_utf16_loop (S (Z.to_nat src_len)) t src src_len 0 [] true in
  if i <? src_len then
    let '(cp, success) := single_unit (at_ src i) success in
    (success, UnicodeAppendUnsafe t dest cp)
  else (success, dest).

Fixpoint decode_utf32_loop (n : nat) (t : CharT) (src : list Z) (i : Z) (dest : list Z)
    (success : bool) : bool * list Z :=
  match n with
  | O => (success, dest)
  | S n =>
      let '(cp, success) := checked (i32 (at_ src i)) success in
      decode_utf32_loop n t src (i + 1) (UnicodeAppendUnsafe t dest cp) success
  end.

Definition DecodeUtf32 (t : CharT) (src : list Z) (src_len : Z) : bool * list Z :=
  decode_utf32_loop (Z.to_nat src_len) t src 0 [] true.

Definition Convert (src_t : CharT) (pointer : Z) (src : list Z)
    (decoder : list Z -> Z -> bool * list Z) : bool * list Z :=
  if Nat.eqb (length src) 0 then (true, [])
  else if DoIsStringASCII src_t pointer src then (true, src)
  else decoder src (i32 (Z.of_nat (length src))).

Definition UTF8ToUTF16 (pointer : Z) (src : list Z) : bool * list Z :=
  Convert char pointer src (DecodeUtf8 char16_t).
Definition UTF16ToUTF8 (pointer : Z) (src : list Z) : bool * list Z :=
  Convert char16_t pointer src (DecodeUtf16 char8_t).
Definition UTF8ToWide (pointer : Z) (src : list Z) : bool * list Z :=
  Convert char pointer src (DecodeUtf8 wchar_t).
Definition UTF8ToWide_u8 (pointer : Z) (src : list Z) : bool * list Z :=
  Convert char8_t pointer src (DecodeUtf8 wchar_t).
Definition WideToUTF8 (pointer : Z) (src : list Z) : bool * list Z :=
  if WCHAR_T_IS_UTF32 then Convert wchar_t pointer src (DecodeUtf32 char8_t) else UTF16ToUTF8 pointer src.
Definition WideToUTF16 (pointer : Z) (src : list Z) : bool * list Z :=
  if WCHAR_T_IS_UTF32 then Convert wchar_t pointer src (DecodeUtf32 char16_t) else (true, src).
Definition UTF16ToWide (pointer : Z) (src : list Z) : bool * list Z :=
  if WCHAR_T_IS_UTF32 then Convert char16_t pointer src (DecodeUtf16 wchar_t) else (true, src).

Definition ASCIIToWide (ascii : list Z) : list Z := ascii.

(** [None] where [BASE_BUGCHECK] fails. *)
Definition WideToASCII (pointer : Z) (wide : list Z) : option (list Z) :=
  if DoIsStringASCII wchar_t pointer wide then Some (map (fun c => Z.land c 0x7F) wide) else None.

(** ** The ASCII scan sees every unit *)

Definition unit_of (t : CharT) (c : Z) : Prop := 0 <= c < 2 ^ char_bits t.

(** The mask of one unit: everything but its low seven bits. *)
Definition unit_mask (t : CharT) : Z := 2 ^ char_bits t - 128.

Lemma NonASCIIMask_units t : NonASCIIMask t = lval (2 ^ char_bits t) (replicate (chars_per_word t) (unit_mask t)).
Proof. unfold NonASCIIMask, chars_per_word, unit_mask, char_bits, char_size. by destruct t, WCHAR_T_IS_UTF32. Qed.

Lemma char_bits_cases t : char_bits t = 8 \/ char_bits t = 16 \/ char_bits t = 32.
Proof. unfold char_bits, char_size. destruct t, WCHAR_T_IS_UTF32; auto. Qed.

Lemma land_step w a b c m :
  0 <= w -> 0 <= c < 2 ^ w -> 0 <= m < 2 ^ w ->
  Z.land (c + 2 ^ w * a) (m + 2 ^ w * b) = Z.land c m + 2 ^ w * Z.land a b.
Proof.
  intros Hw Hc Hm. pose proof (land_fits w c m Hw Hc) as Hl. unfold fits in Hl.
  rewrite <- !lor_low_high by done. apply Z.bits_inj'. intros i Hi. rewrite !Z.land_spec, !Z.lor_spec, Z.land_spec.
  destruct (Z_lt_ge_dec i w).
  - rewrite !Z.shiftl_spec_low by lia. by rewrite !orb_false_r.
  - rewrite (testbit_high c w i), (testbit_high m w i), !Z.shiftl_spec, Z.land_spec by lia. done.
Qed.

Lemma lval_nonneg b l : 0 < b -> Forall (fun d => 0 <= d < b) l -> 0 <= lval b l.
Proof. intros Hb H. apply (lval_bound b l Hb H). Qed.

(** A word has no bit under the mask exactly when no unit has. *)
Lemma land_lval_zero w l m :
  0 <= w -> 0 <= m < 2 ^ w -> Forall (fun c => 0 <= c < 2 ^ w) l ->
  (Z.land (lval (2 ^ w) l) (lval (2 ^ w) (replicate (length l) m)) =? 0) = forallb (fun c => Z.land c m =? 0) l.
Proof.
  intros Hw Hm. pose proof (pow2_pos w Hw). induction 1 as [|c l Hc Hl IH]; [done|].
  cbn [lval length replicate forallb]. rewrite land_step by done. rewrite <- IH.
  assert (0 <= Z.land c m) by (apply Z.land_nonneg; lia).
  assert (0 <= Z.land (lval (2 ^ w) l) (lval (2 ^ w) (replicate (length l) m))).
  { apply Z.land_nonneg. left. apply lval_nonneg; [lia|done]. }
  apply bool_eq_iff. rewrite andb_true_iff, !Z.eqb_eq. nia.
Qed.

Lemma unit_mask_test t c : unit_of t c -> (Z.land c (unit_mask t) =? 0) = (c <? 128).
Proof.
  unfold unit_of, unit_mask. intros H. change 128 with (2 ^ 7) at 1. rewrite land_high_mask; [|destruct (char_bits_cases t) as [E|[E|E]]; rewrite E; lia|done].
  change (2 ^ 7) with 128. apply bool_eq_iff. rewrite Z.eqb_eq, Z.ltb_lt. dlia.
Qed.

Lemma unit_mask_range t : 0 <= unit_mask t < 2 ^ char_bits t.
Proof. unfold unit_mask. destruct (char_bits_cases t) as [E|[E|E]]; rewrite E; pow_lit; lia. Qed.

Definition ascii (l : list Z) : bool := forallb (fun c => c <? 128) l.

Lemma word_ascii t l :
  Forall (unit_of t) l -> length l = chars_per_word t ->
  (Z.land (lval (2 ^ char_bits t) l) (NonASCIIMask t) =? 0) = ascii l.
Proof.
  intros Hl Hn. rewrite NonASCIIMask_units, <- Hn, land_lval_zero; [|destruct (char_bits_cases t) as [E|[E|E]]; rewrite E; lia|apply unit_mask_range|done].
  unfold ascii. clear Hn. induction Hl as [|c l Hc _ IH]; [done|]. cbn [forallb]. by rewrite unit_mask_test, IH.
Qed.

(** A unit converted to a word keeps its test, sign extended or not. *)
Lemma to_word_ascii t c : unit_of t c -> (Z.land (to_word t c) (NonASCIIMask t) =? 0) = (c <? 128).
Proof.
  intros Hc. pose proof (unit_mask_test t c Hc) as T. unfold unit_of in Hc.
  assert (Hn : exists n, chars_per_word t = S n /\ char_bits t * Z.of_nat (S n) = 64).
  { unfold chars_per_word, char_bits, char_size. destruct t, WCHAR_T_IS_UTF32; eexists; (split; [reflexivity|done]). }
  destruct Hn as (n & En & Hn).
  rewrite NonASCIIMask_units, En. cbn [replicate lval].
  assert (Hw : 0 <= char_bits t) by (destruct (char_bits_cases t) as [E|[E|E]]; rewrite E; lia).
  assert (H2 : 0 < 2 ^ char_bits t) by (by apply pow2_pos).
  assert (E : exists h, 0 <= h /\ to_word t c = c + 2 ^ char_bits t * h /\ (h = 0 \/ 128 <= c)).
  { unfold to_word, swrap. destruct (char_signed t); [|exists 0; lia].
    rewrite (wrap_small (char_bits t)) by done. case_if.
    - exists 0. rewrite wrap_small; [lia|]. unfold fits. destruct (char_bits_cases t) as [E'|[E'|E']]; rewrite E' in *; pow_lit; lia.
    - exists (2 ^ (64 - char_bits t) - 1).
      assert (E2 : 2 ^ 64 = 2 ^ char_bits t * 2 ^ (64 - char_bits t)) by (apply pow2_split; destruct (char_bits_cases t) as [E'|[E'|E']]; rewrite E'; lia).
      assert (0 < 2 ^ (64 - char_bits t)) by (apply pow2_pos; destruct (char_bits_cases t) as [E'|[E'|E']]; rewrite E'; lia).
      split; [lia|]. split; [|right; destruct (char_bits_cases t) as [E'|[E'|E']]; rewrite E' in E; cbn in E; lia].
      unfold wrap. symmetry. apply (Z.mod_unique _ _ (-1)); [nia|nia]. }
  destruct E as (h & Hh & -> & Hor). rewrite land_step by (try done; apply unit_mask_range).
  set (M := lval _ _). assert (0 <= M).
  { apply lval_nonneg; [lia|]. apply Forall_replicate. apply unit_mask_range. }
  assert (0 <= Z.land h M) by (apply Z.land_nonneg; lia).
  assert (0 <= Z.land c (unit_mask t)) by (apply Z.land_nonneg; lia).
  rewrite <- T in *. apply bool_eq_iff. rewrite !Z.eqb_eq. split; [nia|]. intros Z0. rewrite Z0.
  destruct Hor as [->|Hor]; [rewrite Z.land_0_l; lia|]. rewrite Z0 in T. symmetry in T. bprop. lia.
Qed.

Definition clean (t : CharT) (bits : Z) : bool := Z.land bits (NonASCIIMask t) =? 0.

Lemma clean_lor t a b : clean t (Z.lor a b) = clean t a && clean t b.
Proof.
  unfold clean. apply bool_eq_iff. rewrite andb_true_iff, !Z.eqb_eq, Z.land_lor_distr_l. apply Z.lor_eq_0_iff.
Qed.

Lemma ascii_app l1 l2 : ascii (l1 ++ l2) = ascii l1 && ascii l2.
Proof. apply forallb_app. Qed.

Lemma align_loop_ascii t p l bits :
  Forall (unit_of t) l ->
  let '(rest, bits') := align_loop t p l bits in
  (exists pre, l = pre ++ rest /\ clean t bits' = clean t bits && ascii pre).
Proof.
  revert p bits. induction l as [|c l IH]; intros p bits H; cbn [align_loop].
  - exists []. by rewrite andb_true_r.
  - inversion_clear H as [|? ? Hc Hl]. destruct (IsMachineWordAligned p); cbn [negb].
    { exists []. by rewrite andb_true_r. }
    specialize (IH (p + char_size t) (Z.lor bits (to_word t c)) Hl). destruct (align_loop _ _ _ _) as [rest bits'].
    destruct IH as (pre & -> & ->). exists (c :: pre). split; [done|].
    rewrite clean_lor. unfold clean at 2. rewrite to_word_ascii by done. cbn [ascii forallb]. by rewrite andb_assoc.
Qed.

Lemma read_word_ascii t l :
  Forall (unit_of t) l -> (chars_per_word t <= length l)%nat ->
  clean t (read_word t l) = ascii (take (chars_per_word t) l).
Proof. intros Hl Hn. apply word_ascii; [by apply Forall_take|by apply length_take_le]. Qed.

Lemma or_words_ascii t n l bits :
  Forall (unit_of t) l -> (n * chars_per_word t <= length l)%nat ->
  let '(rest, bits') := or_words t n l bits in
  rest = drop (n * chars_per_word t) l /\ clean t bits' = clean t bits && ascii (take (n * chars_per_word t) l).
Proof.
  revert l bits. induction n as [|n IH]; intros l bits Hl Hn; cbn [or_words].
  { by rewrite andb_true_r. }
  cbn [Nat.mul] in *. specialize (IH (drop (chars_per_word t) l) (Z.lor bits (read_word t l))).
  destruct (or_words _ _ _ _) as [rest bits']. destruct IH as [-> ->].
  - by apply Forall_drop.
  - rewrite length_drop. lia.
  - rewrite drop_drop, clean_lor, read_word_ascii by (done || lia). split; [done|].
    rewrite <- andb_assoc, <- ascii_app. f_equal. f_equal.
    rewrite <- (take_drop (chars_per_word t) (take (chars_per_word t + n * chars_per_word t) l)) at 1.
    rewrite take_take, Nat.min_l, skipn_firstn_comm by lia. do 2 f_equal. lia.
Qed.

Lemma batch_loop_ascii t fuel l :
  Forall (unit_of t) l ->
  match batch_loop t fuel l with
  | None => ascii l = false
  | Some rest => exists pre, l = pre ++ rest /\ ascii pre = true
  end.
Proof.
  revert l. induction fuel as [|fuel IH]; intros l Hl; cbn [batch_loop]; [by exists []|].
  destruct (Nat.leb_spec (batch_count * chars_per_word t) (length l)); [|by exists []].
  pose proof (or_words_ascii t batch_count l 0 Hl ltac:(lia)) as W. destruct (or_words _ _ _ _) as [rest bits].
  destruct W as [-> W]. unfold clean at 1 2 in W. rewrite W, Z.land_0_l, Z.eqb_refl. cbn [andb].
  set (k := (batch_count * chars_per_word t)%nat) in *.
  destruct (ascii (take k l)) eqn:E; cbn [negb].
  - specialize (IH (drop k l) (Forall_drop _ _ _ Hl)). destruct (batch_loop t fuel (drop k l)) as [rest|].
    + destruct IH as (pre & E1 & E2). exists (take k l ++ pre). rewrite <- app_assoc, <- E1, take_drop, ascii_app, E, E2. done.
    + rewrite <- (take_drop k l), ascii_app, E, IH. done.
  - by rewrite <- (take_drop k l), ascii_app, E.
Qed.

Lemma word_loop_ascii t fuel l bits :
  Forall (unit_of t) l ->
  let '(rest, bits') := word_loop t fuel l bits in
  exists pre, l = pre ++ rest /\ clean t bits' = clean t bits && ascii pre.
Proof.
  revert l bits. induction fuel as [|fuel IH]; intros l bits Hl; cbn [word_loop].
  { exists []. by rewrite andb_true_r. }
  destruct (Nat.leb_spec (chars_per_word t) (length l)); [|exists []; by rewrite andb_true_r].
  specialize (IH (drop (chars_per_word t) l) (Z.lor bits (read_word t l)) (Forall_drop _ _ _ Hl)).
  destruct (word_loop _ _ _ _) as [rest bits']. destruct IH as (pre & E & ->).
  exists (take (chars_per_word t) l ++ pre). rewrite <- app_assoc, <- E, take_drop, clean_lor, read_word_ascii, ascii_app by done.
  by rewrite andb_assoc.
Qed.

Lemma tail_ascii t l bits :
  Forall (unit_of t) l ->
  clean t (fold_left (fun bits c => Z.lor bits (to_word t c)) l bits) = clean t bits && ascii l.
Proof.
  intros H. revert bits. induction H as [|c l Hc _ IH]; intros bits; cbn [fold_left ascii forallb]; [by rewrite andb_true_r|].
  rewrite IH, clean_lor. unfold clean at 2. rewrite to_word_ascii by done. by rewrite andb_assoc.
Qed.

Lemma clean_0 t : clean t 0 = true.
Proof. unfold clean. by rewrite Z.land_0_l. Qed.

Lemma DoIsStringASCII_correct' t pointer l :
  Forall (unit_of t) l -> DoIsStringASCII t pointer l = ascii l.
Proof.
  intros Hl. unfold DoIsStringASCII. destruct (Nat.eqb_spec (length l) 0) as [E|_]; [by destruct l|].
  pose proof (align_loop_ascii t pointer l 0 Hl) as A. destruct (align_loop _ _ _ _) as [rest bits].
  destruct A as (pre & -> & A). fold (clean t bits). rewrite A, clean_0, ascii_app. cbn [andb].
  destruct (ascii pre); cbn [negb andb]; [|done]. apply Forall_app in Hl as [_ Hl].
  pose proof (batch_loop_ascii t (S (length rest)) rest Hl) as B. destruct (batch_loop _ _ _) as [rest2|]; [|done].
  destruct B as (pre2 & -> & B). rewrite ascii_app, B. apply Forall_app in Hl as [_ Hl]. cbn [andb].
  pose proof (word_loop_ascii t (S (length rest2)) rest2 0 Hl) as W. destruct (word_loop _ _ _ _) as [rest3 bits3].
  destruct W as (pre3 & -> & W). apply Forall_app in Hl as [_ Hl]. change (clean t (fold_left (λ bits0 c, Z.lor bits0 (to_word t c)) rest3 bits3) = ascii (pre3 ++ rest3)).
  by rewrite tail_ascii, W, clean_0, ascii_app.
Qed.

(** The word-at-a-time scan agrees with looking at every code unit, whatever the
    unit type, the alignment of the data and the length: prologue, batches, words and
    tail together cover each unit exactly, and sign extension never hides one. *)
Theorem DoIsStringASCII_correct t pointer l :
  Forall (unit_of t) l -> DoIsStringASCII t pointer l = ascii l.
Proof. apply DoIsStringASCII_correct'. Qed.

(** ** Decoding *)

(** The reference encoding of a destination unit type. *)
Definition enc (t : CharT) (c : Z) : list Z :=
  if char_bits t =? 8 then utf8 c else if char_bits t =? 16 then utf16 c else [c].

Definition flat (t : CharT) (cs : list Z) : list Z := concat (map (enc t) cs).

Lemma Append_enc t out c : scalar c -> UnicodeAppendUnsafe t out c = out ++ enc t c.
Proof.
  intros H. unfold UnicodeAppendUnsafe, enc. repeat case_if; [by apply CBU8_APPEND_spec|by apply CBU16_APPEND_spec|done].
Qed.

Lemma flat_cons t c cs : flat t (c :: cs) = enc t c ++ flat t cs.
Proof. done. Qed.

Lemma flat_app t cs1 cs2 : flat t (cs1 ++ cs2) = flat t cs1 ++ flat t cs2.
Proof. unfold flat. by rewrite map_app, concat_app. Qed.

Lemma enc_length t c : (1 <= length (enc t c) <= 4)%nat.
Proof. unfold enc, utf8, utf16. repeat case_if; cbn; lia. Qed.

Lemma IsValidCodepoint_scalar c : -1 <= c < 2 ^ 31 -> (IsValidCodepoint c = true <-> scalar c).
Proof.
  intros H. unfold IsValidCodepoint, scalar. rewrite orb_true_iff, andb_true_iff, !Z.leb_le, !Z.ltb_lt.
  unfold wrap. dlia.
Qed.

Lemma scalar_lt c : scalar c -> -1 <= c < 2 ^ 31.
Proof. unfold scalar. pow_lit. lia. Qed.

Lemma checked_scalar c success :
  -1 <= c < 2 ^ 31 -> scalar c \/ c = -1 ->
  exists cp, checked c success = (cp, success && IsValidCodepoint c) /\ scalar cp /\
    (IsValidCodepoint c = true -> cp = c) /\ (IsValidCodepoint c = false -> cp = kErrorCodePoint).
Proof.
  intros Hr H. unfold checked. destruct (IsValidCodepoint c) eqn:E; cbn [negb]; eexists; rewrite ?andb_true_r, ?andb_false_r.
  - split; [done|]. split; [by apply IsValidCodepoint_scalar|done].
  - split; [done|]. split; [unfold scalar, kErrorCodePoint; lia|done].
Qed.

Lemma error_scalar : scalar kErrorCodePoint.
Proof. unfold scalar, kErrorCodePoint. lia. Qed.

(** What a decoder promises on every input, well-formed or not: its output is the
    encoding of scalar values, it is at most [k] units per source unit, and it
    reports success exactly on the encodings of scalar values, which it then
    translates. *)
Record decodes (src_t dest_t : CharT) (k : Z) (src : list Z) (r : bool * list Z) : Prop := {
  dec_out : exists cs, Forall scalar cs /\ snd r = flat dest_t cs /\ (fst r = true -> src = flat src_t cs);
  dec_bound : Z.of_nat (length (snd r)) <= k * Z.of_nat (length src);
  dec_ok : forall cs, Forall scalar cs -> src = flat src_t cs -> r = (true, flat dest_t cs)
}.

Lemma flat_drop_step t s i c cs :
  0 <= i -> drop (Z.to_nat i) s = enc t c ++ flat t cs ->
  drop (Z.to_nat (i + Z.of_nat (length (enc t c)))) s = flat t cs.
Proof.
  intros Hi E. rewrite Z2Nat.inj_add, Nat2Z.id, <- drop_drop, E by lia. by rewrite drop_app_length.
Qed.

(** The loop invariant shared by the decoders, from position [i] on. *)
Definition loop_inv (src_t dest_t : CharT) (k : Z) (src : list Z) (i : Z) (dest : list Z) (success : bool)
    (r : bool * list Z) : Prop :=
  (exists cs, Forall scalar cs /\ snd r = dest ++ flat dest_t cs /\
     (fst r = true -> success = true /\ drop (Z.to_nat i) src = flat src_t cs) /\
     Z.of_nat (length (flat dest_t cs)) <= k * (Z.of_nat (length src) - i)) /\
  (forall cs, Forall scalar cs -> drop (Z.to_nat i) src = flat src_t cs -> r = (success, dest ++ flat dest_t cs)).

Lemma loop_inv_decodes src_t dest_t k src r : loop_inv src_t dest_t k src 0 [] true r -> decodes src_t dest_t k src r.
Proof.
  intros [(cs & H1 & H2 & H3 & H4) H5]. rewrite Z.sub_0_r in H4. split.
  - exists cs. split; [done|]. split; [done|]. intros Hr. by apply H3.
  - rewrite H2. cbn [app]. done.
  - intros cs' Hc E. by apply H5.
Qed.

Lemma loop_inv_end src_t dest_t k src i dest success :
  i = Z.of_nat (length src) -> 0 <= k -> loop_inv src_t dest_t k src i dest success (success, dest).
Proof.
  intros -> Hk. unfold loop_inv. rewrite Nat2Z.id, drop_ge by lia. cbn [fst snd]. split.
  - exists []. rewrite app_nil_r. split; [constructor|]. split; [done|]. split; [done|]. change (flat dest_t []) with (@nil Z). cbn [length]. lia.
  - intros [|c cs] H E; [by rewrite app_nil_r|]. exfalso. rewrite flat_cons in E.
    pose proof (enc_length src_t c). destruct (enc src_t c); [cbn in *; lia|done].
Qed.

(** One step: [u] source units consumed, one code point appended. *)
Lemma loop_inv_step src_t dest_t k src i i' dest success (valid : bool) cp r :
  0 <= i < i' -> i' <= Z.of_nat (length src) -> 0 <= k -> scalar cp ->
  Z.of_nat (length (enc dest_t cp)) <= k * (i' - i) ->
  (valid = true -> drop (Z.to_nat i) src = enc src_t cp ++ drop (Z.to_nat i') src) ->
  (forall c cs, Forall scalar (c :: cs) -> drop (Z.to_nat i) src = flat src_t (c :: cs) ->
     valid = true /\ cp = c /\ drop (Z.to_nat i') src = flat src_t cs) ->
  loop_inv src_t dest_t k src i' (dest ++ enc dest_t cp) (success && valid) r ->
  loop_inv src_t dest_t k src i dest success r.
Proof.
  intros Hi Hi' Hk Hcp Hb Hv Hc [(cs & H1 & H2 & H3 & H4) H5]. split.
  - exists (cp :: cs). split; [by constructor|]. rewrite flat_cons, length_app. split; [by rewrite H2, <- app_assoc|].
    split; [|nia]. intros Hr. destruct (H3 Hr) as [Hs E]. apply andb_true_iff in Hs as [-> Hv1].
    split; [done|]. by rewrite Hv, E.
  - intros [|c cs'] Hs E.
    + exfalso. pose proof (f_equal length E) as X. rewrite length_drop in X. cbn in X. lia.
    + destruct (Hc c cs' Hs E) as (-> & -> & E2). inversion_clear Hs as [|? ? _ Hs']. rewrite (H5 cs' Hs' E2), andb_true_r, flat_cons, <- app_assoc. done.
Qed.

(** Encoded text is made of code units. *)
Lemma flat_bytes cs : Forall scalar cs -> Forall byte (concat (map utf8 cs)).
Proof.
  induction 1 as [|c cs Hc _ IH]; [constructor|]. cbn [map concat]. apply Forall_app. split; [by apply utf8_bytes|done].
Qed.

Lemma flat_units cs : Forall scalar cs -> Forall unit16 (concat (map utf16 cs)).
Proof.
  induction 1 as [|c cs Hc _ IH]; [constructor|]. cbn [map concat]. apply Forall_app. split; [by apply utf16_units|done].
Qed.

Lemma decode_utf8_loop_inv src_t dest_t k fuel src i dest success :
  char_bits src_t = 8 -> Forall byte src -> 0 <= i <= Z.of_nat (length src) -> Z.of_nat (length src) - i < Z.of_nat fuel ->
  1 <= k -> (forall c, scalar c -> Z.of_nat (length (enc dest_t c)) <= k * Z.of_nat (length (utf8 c))) ->
  Z.of_nat (length (enc dest_t kErrorCodePoint)) <= k ->
  loop_inv src_t dest_t k src i dest success
    (decode_utf8_loop fuel dest_t src (Z.of_nat (length src)) i dest success).
Proof.
  intros Ht Hs Hi Hf Hk Hb He. assert (Henc : forall c, enc src_t c = utf8 c) by (intros c; unfold enc; by rewrite Ht).
  revert i dest success Hi Hf. induction fuel as [|fuel IH]; intros i dest success Hi Hf; [lia|]. cbn [decode_utf8_loop].
  destruct (Z.ltb_spec i (Z.of_nat (length src))); [|apply loop_inv_end; lia].
  pose proof (CBU8_NEXT_sound src i Hs ltac:(lia)) as N.
  destruct (CBU8_NEXT src i (Z.of_nat (length src))) as [i' c] eqn:En. destruct N as (N1 & N2 & N3).
  assert (Hr : -1 <= c < 2 ^ 31) by (destruct N3 as [->|[N3 _]]; [pow_lit; lia|by apply scalar_lt]).
  destruct (checked_scalar c success Hr ltac:(tauto)) as (cp & -> & Hcp & Hc1 & Hc2).
  rewrite Append_enc by done. eapply (loop_inv_step _ _ _ _ i i' _ _ (IsValidCodepoint c)); try done; try lia.
  - destruct (IsValidCodepoint c) eqn:Ev.
    + rewrite (Hc1 eq_refl). destruct N3 as [->|[N3 N4]]; [done|].
      pose proof (f_equal length N4) as X. rewrite length_app, !length_drop in X. specialize (Hb c N3).
      replace (i' - i) with (Z.of_nat (length (utf8 c))) by lia. done.
    + rewrite (Hc2 eq_refl). nia.
  - intros Ev. rewrite Henc, (Hc1 Ev). destruct N3 as [->|[N3 N4]]; [done|done].
  - intros c' cs Hcs E. inversion_clear Hcs as [|? ? Hc' _]. rewrite flat_cons in E. pose proof E as E'. rewrite Henc in E.
    rewrite (CBU8_NEXT_complete src i c' _ Hs ltac:(lia) Hc' E) in En. injection En as <- <-.
    assert (Ev : IsValidCodepoint c' = true) by (apply IsValidCodepoint_scalar; [by apply scalar_lt|done]).
    split; [done|]. split; [by apply Hc1|]. rewrite <- Henc. apply flat_drop_step; [lia|done].
  - apply IH; lia.
Qed.

Lemma at_unit s i : Forall unit16 s -> unit16 (at_ s i).
Proof.
  intros H. unfold at_. revert H. generalize (Z.to_nat i).
  induction s as [|c s IH]; intros [|n] H; try (cbn; unfold unit16; lia).
  - by inversion H.
  - apply IH. by inversion H.
Qed.

(** The part of [DecodeUtf16] after its loop. *)
Definition finish16 (t : CharT) (src : list Z) (st : Z * list Z * bool) : bool * list Z :=
  let '(i, dest, success) := st in
  if i <? Z.of_nat (length src) then
    let '(cp, success) := single_unit (at_ src i) success in (success, UnicodeAppendUnsafe t dest cp)
  else (success, dest).

Lemma single_unit_spec u success :
  unit16 u ->
  exists cp, single_unit u success = (cp, success && CBU16_IS_SINGLE u) /\ scalar cp /\
    (CBU16_IS_SINGLE u = true -> cp = u /\ utf16 u = [u]) /\ (CBU16_IS_SINGLE u = false -> cp = kErrorCodePoint).
Proof.
  intros Hu. unfold single_unit. rewrite (IS_SINGLE_range u Hu). unfold unit16 in Hu.
  assert (V : negb ((55296 <=? u) && (u <? 57344)) = true -> scalar u /\ utf16 u = [u]).
  { intros V. apply utf16_single. rewrite negb_true_iff, andb_false_iff in V. destruct V; bprop; lia. }
  destruct (negb _) eqn:E; cbn [negb orb].
  - destruct (V eq_refl) as [V1 V2].
    assert (IsValidCodepoint u = true) as -> by (apply IsValidCodepoint_scalar; [by apply scalar_lt|done]). cbn [negb].
    exists u. rewrite andb_true_r. by repeat split.
  - exists kErrorCodePoint. rewrite andb_false_r. split; [done|]. split; [apply error_scalar|]. done.
Qed.

(** A unit that starts no pair, in the loop or at the end of the text. *)
Lemma single_step src_t dest_t k src i dest success r :
  char_bits src_t = 16 -> Forall unit16 src -> 0 <= i < Z.of_nat (length src) -> 0 <= k ->
  (forall c, scalar c -> Z.of_nat (length (enc dest_t c)) <= k * Z.of_nat (length (utf16 c))) ->
  Z.of_nat (length (enc dest_t kErrorCodePoint)) <= k ->
  i + 1 = Z.of_nat (length src) \/ CBU16_IS_LEAD (at_ src i) && CBU16_IS_TRAIL (at_ src (i + 1)) = false ->
  (forall cp success', single_unit (at_ src i) success = (cp, success') ->
     loop_inv src_t dest_t k src (i + 1) (UnicodeAppendUnsafe dest_t dest cp) success' r) ->
  loop_inv src_t dest_t k src i dest success r.
Proof.
  intros Ht Hs Hi Hk Hb He Hnp H. assert (Henc : forall c, enc src_t c = utf16 c) by (intros c; unfold enc; by rewrite Ht).
  pose proof (at_unit src i Hs) as Hu. destruct (single_unit_spec (at_ src i) success Hu) as (cp & E & Hcp & V1 & V2).
  specialize (H _ _ E). rewrite Append_enc in H by done.
  eapply (loop_inv_step _ _ _ _ i (i + 1) _ _ (CBU16_IS_SINGLE (at_ src i))); try done; try lia.
  - destruct (CBU16_IS_SINGLE (at_ src i)); [|rewrite V2 by done; lia].
    destruct (V1 eq_refl) as [-> V3]. specialize (Hb _ Hcp). rewrite V3 in Hb. cbn [length] in Hb. lia.
  - intros V. destruct (V1 V) as [-> V3]. rewrite Henc, V3, drop_at by lia. done.
  - intros c cs Hcs Ed. inversion_clear Hcs as [|? ? Hc _]. rewrite flat_cons, Henc, drop_at in Ed by lia.
    destruct (scalar_utf16_shape c Hc) as [u Hr|l t Hl Htr]; cbn [app] in Ed; injection Ed as E1 E2.
    + assert (Vt : CBU16_IS_SINGLE (at_ src i) = true).
      { rewrite E1, IS_SINGLE_range by (unfold unit16; lia). apply negb_true_iff, andb_false_iff. rewrite Z.leb_gt, Z.ltb_ge. lia. }
      destruct (V1 Vt) as [-> _]. done.
    + exfalso. destruct Hnp as [Hnp|Hnp].
      * apply (f_equal length) in E2. rewrite length_drop in E2. cbn [length] in E2. lia.
      * assert (Hl2 : i + 1 < Z.of_nat (length src)).
        { apply (f_equal length) in E2. rewrite length_drop in E2. cbn [length] in E2. lia. }
        rewrite drop_at in E2 by lia. injection E2 as E2 _.
        rewrite IS_LEAD_range, IS_TRAIL_range, E1, E2, andb_false_iff, !andb_false_iff, !Z.leb_gt, !Z.ltb_ge in Hnp
          by (apply at_unit; done). lia.
Qed.

Lemma decode_utf16_loop_inv src_t dest_t k fuel src i dest success :
  char_bits src_t = 16 -> Forall unit16 src -> 0 <= i <= Z.of_nat (length src) -> Z.of_nat (length src) - i < Z.of_nat fuel ->
  0 <= k -> (forall c, scalar c -> Z.of_nat (length (enc dest_t c)) <= k * Z.of_nat (length (utf16 c))) ->
  Z.of_nat (length (enc dest_t kErrorCodePoint)) <= k ->
  loop_inv src_t dest_t k src i dest success
    (finish16 dest_t src (decode_utf16_loop fuel dest_t src (Z.of_nat (length src)) i dest success)).
Proof.
  intros Ht Hs Hi Hf Hk Hb He. assert (Henc : forall c, enc src_t c = utf16 c) by (intros c; unfold enc; by rewrite Ht).
  revert i dest success Hi Hf. induction fuel as [|fuel IH]; intros i dest success Hi Hf; [lia|]. cbn [decode_utf16_loop].
  pose proof (at_unit src i Hs) as Hu. pose proof (at_unit src (i + 1) Hs) as Hu'.
  destruct (Z.ltb_spec i (Z.of_nat (length src) - 1)).
  - destruct (CBU16_IS_LEAD (at_ src i) && CBU16_IS_TRAIL (at_ src (i + 1))) eqn:Ep.
    + rewrite IS_LEAD_range, IS_TRAIL_range in Ep by done. bprop.
      set (l := at_ src i) in *. set (t := at_ src (i + 1)) in *.
      destruct (utf16_pair l t ltac:(lia) ltac:(lia)) as [Hc Hp]. set (c := CBU16_GET_SUPPLEMENTARY l t) in *.
      destruct (checked_scalar c success (scalar_lt c Hc) ltac:(tauto)) as (cp & -> & Hcp & Hc1 & _).
      assert (Ev : IsValidCodepoint c = true) by (apply IsValidCodepoint_scalar; [by apply scalar_lt|done]).
      rewrite (Hc1 Ev) in *. rewrite Append_enc by done.
      assert (Ed : drop (Z.to_nat i) src = [l; t] ++ drop (Z.to_nat (i + 2)) src).
      { rewrite drop_at, (drop_at src (i + 1)) by lia. replace (i + 1 + 1) with (i + 2) by lia. done. }
      eapply (loop_inv_step _ _ _ _ i (i + 2) _ _ (IsValidCodepoint c)); try done; try lia.
      * specialize (Hb c Hc). rewrite Hp in Hb. cbn [length] in Hb. lia.
      * intros _. by rewrite Henc, Hp.
      * intros c' cs Hcs E. inversion_clear Hcs as [|? ? Hc' _]. rewrite flat_cons, Henc, Ed in E.
        split; [done|]. destruct (scalar_utf16_shape c' Hc') as [u Hr|l' t' Hl Htr]; cbn [app] in E.
        -- injection E as E1 E2. exfalso. lia.
        -- by injection E as <- <- E2.
      * apply IH; lia.
    + eapply single_step; try done; try lia; [by right|].
      intros cp success' E. rewrite E. apply IH; lia.
  - unfold finish16. destruct (Z.ltb_spec i (Z.of_nat (length src))); [|apply loop_inv_end; lia].
    eapply single_step; try done; try lia. intros cp success' E. rewrite E. apply loop_inv_end; lia.
Qed.

Definition unit32 (u : Z) : Prop := 0 <= u < 2 ^ 32.

Lemma decode_utf32_loop_inv src_t dest_t k n src i dest success :
  char_bits src_t = 32 -> Forall unit32 src -> 0 <= i -> i + Z.of_nat n = Z.of_nat (length src) ->
  0 <= k -> (forall c, scalar c -> Z.of_nat (length (enc dest_t c)) <= k) ->
  loop_inv src_t dest_t k src i dest success (decode_utf32_loop n dest_t src i dest success).
Proof.
  intros Ht Hs Hi Hn Hk Hb. assert (Henc : forall c, enc src_t c = [c]) by (intros c; unfold enc; by rewrite Ht).
  revert i dest success Hi Hn. induction n as [|n IH]; intros i dest success Hi Hn; cbn [decode_utf32_loop].
  { apply loop_inv_end; lia. }
  pose proof (drop_at src i ltac:(lia)) as Ed. set (u := at_ src i) in *.
  assert (Hu : unit32 u).
  { pose proof (Forall_drop _ (Z.to_nat i) _ Hs) as X. rewrite Ed in X. by inversion X. }
  assert (V : IsValidCodepoint (i32 u) = true <-> scalar u).
  { unfold IsValidCodepoint, scalar. rewrite orb_true_iff, andb_true_iff, !Z.leb_le, !Z.ltb_lt. unfold unit32, swrap, wrap in *.
    pow_lit. change (2 ^ (32 - 1)) with 2147483648. case_if; dlia. }
  assert (Vi : scalar u -> i32 u = u) by (unfold scalar; intros; apply swrap_small; cbn; lia).
  assert (C : exists cp, checked (i32 u) success = (cp, success && IsValidCodepoint (i32 u)) /\ scalar cp /\
    (IsValidCodepoint (i32 u) = true -> cp = u)).
  { unfold checked. destruct (IsValidCodepoint (i32 u)) eqn:E; cbn [negb]; eexists; rewrite ?andb_true_r, ?andb_false_r;
      (split; [done|]); [|by split; [apply error_scalar|]]. rewrite Vi by tauto. tauto. }
  destruct C as (cp & -> & Hcp & Hc). rewrite Append_enc by done.
  eapply (loop_inv_step _ _ _ _ i (i + 1) _ _ (IsValidCodepoint (i32 u))); try done; try lia.
  - specialize (Hb _ Hcp). lia.
  - intros Ev. by rewrite Henc, (Hc Ev).
  - intros c cs Hcs E. inversion_clear Hcs as [|? ? Hsc _]. rewrite flat_cons, Henc, Ed in E. cbn [app] in E.
    injection E as -> E. assert (IsValidCodepoint (i32 c) = true) as Ev by tauto. split; [done|]. split; [by apply Hc|done].
  - apply IH; lia.
Qed.

(** ** The conversions *)

Lemma enc_ascii t c : scalar c -> ascii (enc t c) = true -> enc t c = [c] /\ c < 128.
Proof.
  intros Hc. unfold enc. repeat case_if.
  - destruct (scalar_utf8_shape c Hc); unfold ascii; cbn [forallb]; intros H'; bprop; first [exfalso; lia|by split].
  - destruct (scalar_utf16_shape c Hc); unfold ascii; cbn [forallb]; intros H'; bprop; first [exfalso; lia|by split].
  - unfold ascii. cbn [forallb]. intros H'. bprop. split; [done|lia].
Qed.

Lemma ascii_enc t c : 0 <= c < 128 -> enc t c = [c].
Proof. intros Hc. unfold enc. repeat case_if; [by apply utf8_assemble1|apply utf16_single; lia|done]. Qed.

Lemma ascii_flat t l : Forall (fun c => 0 <= c) l -> ascii l = true -> flat t l = l /\ Forall scalar l.
Proof.
  induction 1 as [|c l Hc _ IH]; [done|]. unfold ascii. cbn [forallb]. intros E. apply andb_true_iff in E as [E1 E2].
  bprop. destruct (IH E2) as [I1 I2]. rewrite flat_cons, ascii_enc, I1 by lia. split; [done|]. constructor; [unfold scalar; lia|done].
Qed.

Lemma flat_ascii t cs : Forall scalar cs -> ascii (flat t cs) = true -> flat t cs = cs.
Proof.
  induction 1 as [|c cs Hc _ IH]; [done|]. rewrite flat_cons, ascii_app. intros E. apply andb_true_iff in E as [E1 E2].
  rewrite IH by done. by destruct (enc_ascii t c Hc E1) as [-> _].
Qed.

Lemma ascii_decodes src_t dest_t k src :
  1 <= k -> Forall (unit_of src_t) src -> ascii src = true -> decodes src_t dest_t k src (true, src).
Proof.
  intros Hk Hs Ha. assert (Hn : Forall (fun c => 0 <= c) src).
  { eapply Forall_impl; [|exact Hs]. unfold unit_of. cbn. lia. }
  destruct (ascii_flat src_t src Hn Ha) as [E1 Hsc]. destruct (ascii_flat dest_t src Hn Ha) as [E2 _]. split; cbn [fst snd].
  - exists src. by rewrite E1, E2.
  - nia.
  - intros cs Hcs ->. pose proof (flat_ascii src_t cs Hcs Ha) as E. rewrite E in *. by rewrite E2.
Qed.

Lemma Convert_decodes src_t dest_t k pointer src decoder :
  1 <= k -> Forall (unit_of src_t) src -> Z.of_nat (length src) < 2 ^ 31 ->
  decodes src_t dest_t k src (decoder src (Z.of_nat (length src))) ->
  decodes src_t dest_t k src (Convert src_t pointer src decoder).
Proof.
  intros Hk Hs Hl Hd. unfold Convert. destruct (Nat.eqb_spec (length src) 0) as [E|_].
  { destruct src; [|done]. by apply ascii_decodes. }
  rewrite DoIsStringASCII_correct' by done. destruct (ascii src) eqn:Ea; [by apply ascii_decodes|].
  rewrite swrap_small by (change (2 ^ (32 - 1)) with (2 ^ 31); lia). done.
Qed.

Lemma DecodeUtf8_decodes src_t dest_t k src :
  char_bits src_t = 8 -> Forall byte src -> 1 <= k ->
  (forall c, scalar c -> Z.of_nat (length (enc dest_t c)) <= k * Z.of_nat (length (utf8 c))) ->
  Z.of_nat (length (enc dest_t kErrorCodePoint)) <= k ->
  decodes src_t dest_t k src (DecodeUtf8 dest_t src (Z.of_nat (length src))).
Proof.
  intros. apply loop_inv_decodes. unfold DecodeUtf8. apply decode_utf8_loop_inv; try done; lia.
Qed.

Lemma DecodeUtf16_decodes src_t dest_t k src :
  char_bits src_t = 16 -> Forall unit16 src -> 0 <= k ->
  (forall c, scalar c -> Z.of_nat (length (enc dest_t c)) <= k * Z.of_nat (length (utf16 c))) ->
  Z.of_nat (length (enc dest_t kErrorCodePoint)) <= k ->
  decodes src_t dest_t k src (DecodeUtf16 dest_t src (Z.of_nat (length src))).
Proof.
  intros. apply loop_inv_decodes. unfold DecodeUtf16.
  pose proof (decode_utf16_loop_inv src_t dest_t k (S (Z.to_nat (Z.of_nat (length src)))) src 0 [] true) as X.
  unfold finish16 in X. destruct (decode_utf16_loop _ _ _ _ _ _ _) as [[i dest] success].
  apply X; try done; lia.
Qed.

Lemma DecodeUtf32_decodes src_t dest_t k src :
  char_bits src_t = 32 -> Forall unit32 src -> 0 <= k ->
  (forall c, scalar c -> Z.of_nat (length (enc dest_t c)) <= k) ->
  decodes src_t dest_t k src (DecodeUtf32 dest_t src (Z.of_nat (length src))).
Proof. intros. apply loop_inv_decodes. unfold DecodeUtf32. apply decode_utf32_loop_inv; try done; lia. Qed.

(** The size coefficients are worst cases. *)
Lemma utf16_le_utf8 c : (length (utf16 c) <= length (utf8 c))%nat.
Proof. unfold utf16, utf8. repeat case_if; cbn [length]; lia. Qed.

Lemma utf8_le_utf16 c : (length (utf8 c) <= 3 * length (utf16 c))%nat.
Proof. unfold utf16, utf8. repeat case_if; cbn [length]; lia. Qed.

Lemma enc_len t c : length (enc t c) =
  if char_bits t =? 8 then length (utf8 c) else if char_bits t =? 16 then length (utf16 c) else 1%nat.
Proof. unfold enc. by repeat case_if. Qed.

Lemma utf8_len c : (1 <= length (utf8 c) <= 4)%nat.
Proof. unfold utf8. repeat case_if; cbn; lia. Qed.

Lemma utf16_len c : (1 <= length (utf16 c) <= 2)%nat.
Proof. unfold utf16. repeat case_if; cbn; lia. Qed.

End Build.

Definition utf8_text (cs : list Z) : list Z := concat (map utf8 cs).
Definition utf16_text (cs : list Z) : list Z := concat (map utf16 cs).

(** The length of an encoding, for a known unit type. *)
Ltac enc_size :=
  rewrite enc_len;
  repeat match goal with |- context [char_bits ?w ?t] =>
    let v := eval vm_compute in (char_bits w t) in change (char_bits w t) with v end;
  cbn [Z.eqb Pos.eqb].

Lemma byte_unit w : Forall (unit_of w char) = Forall byte.
Proof. done. Qed.

Lemma UTF8ToUTF16_decodes' w p src :
  Forall byte src -> Z.of_nat (length src) < 2 ^ 31 ->
  decodes w char char16_t (SizeCoefficient w char char16_t) src (UTF8ToUTF16 w p src).
Proof.
  intros Hs Hl. apply Convert_decodes; [done|done|done|]. apply DecodeUtf8_decodes; try done.
  intros c _. enc_size. change (SizeCoefficient w char char16_t) with 1. pose proof (utf16_le_utf8 c). lia.
Qed.

Lemma UTF16ToUTF8_decodes' w p src :
  Forall unit16 src -> Z.of_nat (length src) < 2 ^ 31 ->
  decodes w char16_t char8_t (SizeCoefficient w char16_t char8_t) src (UTF16ToUTF8 w p src).
Proof.
  intros Hs Hl. apply Convert_decodes; [done|done|done|]. apply DecodeUtf16_decodes; try done.
  intros c _. enc_size. change (SizeCoefficient w char16_t char8_t) with 3. pose proof (utf8_le_utf16 c). lia.
Qed.

(** C4. [UTF8ToUTF16] on arbitrary bytes: the output is always well-formed UTF-16 and
    never longer than the buffer sized by the coefficient; it reports success exactly
    when the input is the shortest-form UTF-8 of some scalar values (no overlong
    forms, surrogates or values past U+10FFFF), and then writes their UTF-16. *)
Theorem UTF8ToUTF16_decodes w pointer src :
  Forall byte src -> Z.of_nat (length src) < 2 ^ 31 ->
  decodes w char char16_t (SizeCoefficient w char char16_t) src (UTF8ToUTF16 w pointer src).
Proof. apply UTF8ToUTF16_decodes'. Qed.

(** [UTF16ToUTF8] on arbitrary units, unpaired surrogates included: well-formed
    UTF-8 of at most three bytes per unit, and success exactly on well-formed UTF-16. *)
Theorem UTF16ToUTF8_decodes w pointer src :
  Forall unit16 src -> Z.of_nat (length src) < 2 ^ 31 ->
  decodes w char16_t char8_t (SizeCoefficient w char16_t char8_t) src (UTF16ToUTF8 w pointer src).
Proof. apply UTF16ToUTF8_decodes'. Qed.

(** The conversions from and to a 32-bit [wchar_t] keep the same promises with
    their own size coefficients. *)
Theorem wide_conversions_decode pointer :
  (forall src, Forall byte src -> Z.of_nat (length src) < 2 ^ 31 ->
     decodes true char wchar_t (SizeCoefficient true char wchar_t) src (UTF8ToWide true pointer src)) /\
  (forall src, Forall unit32 src -> Z.of_nat (length src) < 2 ^ 31 ->
     decodes true wchar_t char8_t (SizeCoefficient true wchar_t char8_t) src (WideToUTF8 true pointer src) /\
     decodes true wchar_t char16_t (SizeCoefficient true wchar_t char16_t) src (WideToUTF16 true pointer src)) /\
  (forall src, Forall unit16 src -> Z.of_nat (length src) < 2 ^ 31 ->
     decodes true char16_t wchar_t (SizeCoefficient true char16_t wchar_t) src (UTF16ToWide true pointer src)).
Proof.
  split; [|split].
  - intros src Hs Hl. apply Convert_decodes; [done|done|done|]. apply DecodeUtf8_decodes; try done.
    intros c _. enc_size. change (SizeCoefficient true char wchar_t) with 1. pose proof (utf8_len c). lia.
  - intros src Hs Hl. split.
    + apply Convert_decodes; [done|done|done|]. apply DecodeUtf32_decodes; try done.
      intros c _. enc_size. change (SizeCoefficient true wchar_t char8_t) with 4. pose proof (utf8_len c). lia.
    + apply Convert_decodes; [done|done|done|]. apply DecodeUtf32_decodes; try done.
      intros c _. enc_size. change (SizeCoefficient true wchar_t char16_t) with 2. pose proof (utf16_len c). lia.
  - intros src Hs Hl. apply Convert_decodes; [done|done|done|]. apply DecodeUtf16_decodes; try done.
    intros c _. enc_size. change (SizeCoefficient true char16_t wchar_t) with 1. pose proof (utf16_len c). lia.
Qed.

Lemma utf16_text_length cs : (length (utf16_text cs) <= length (utf8_text cs))%nat.
Proof.
  induction cs as [|c cs IH]; [done|]. unfold utf16_text, utf8_text in *. cbn [map concat]. rewrite !length_app.
  pose proof (utf16_le_utf8 c). lia.
Qed.

(** Round trip: every text of scalar values goes from UTF-8 to UTF-16 and back
    unchanged, both directions reporting success. *)
Theorem UTF8_UTF16_roundtrip w p q cs :
  Forall scalar cs -> Z.of_nat (length (utf8_text cs)) < 2 ^ 31 ->
  UTF8ToUTF16 w p (utf8_text cs) = (true, utf16_text cs) /\
  UTF16ToUTF8 w q (utf16_text cs) = (true, utf8_text cs).
Proof.
  intros Hc Hl. pose proof (utf16_text_length cs). split.
  - by apply (dec_ok _ _ _ _ _ _ (UTF8ToUTF16_decodes' w p (utf8_text cs) (flat_bytes cs Hc) Hl)).
  - by apply (dec_ok _ _ _ _ _ _ (UTF16ToUTF8_decodes' w q (utf16_text cs) (flat_units cs Hc) ltac:(lia))).
Qed.

(** A snowman, a supplementary character, an ASCII letter and a two-byte letter. *)
Definition sample : list Z := [0x2603; 0x1F600; 0x41; 0xE9].

Lemma sample_scalar : Forall scalar sample.
Proof. repeat constructor; unfold scalar; lia. Qed.

Lemma UTF8_UTF16_roundtrip_witness :
  UTF8ToUTF16 true 3 (utf8_text sample) = (true, [0x2603; 0xD83D; 0xDE00; 0x41; 0xE9]) /\
  UTF16ToUTF8 true 2 (utf16_text sample) = (true, utf8_text sample).
Proof. apply (UTF8_UTF16_roundtrip true 3 2 sample); [exact sample_scalar|vm_compute; reflexivity]. Defined.

(** An overlong slash: rejected, one replacement per byte. *)
Lemma UTF8ToUTF16_decodes_witness :
  UTF8ToUTF16 true 0 [0xC0; 0xAF] = (false, [0xFFFD; 0xFFFD]) /\
  decodes true char char16_t 1 [0xC0; 0xAF] (UTF8ToUTF16 true 0 [0xC0; 0xAF]).
Proof.
  split; [vm_compute; reflexivity|].
  apply (UTF8ToUTF16_decodes true 0); [repeat constructor; unfold byte; lia|vm_compute; reflexivity].
Defined.

(** A lone lead surrogate. *)
Lemma UTF16ToUTF8_decodes_witness :
  UTF16ToUTF8 true 0 [0xD800; 0x41] = (false, [0xEF; 0xBF; 0xBD; 0x41]) /\
  decodes true char16_t char8_t 3 [0xD800; 0x41] (UTF16ToUTF8 true 0 [0xD800; 0x41]).
Proof.
  split; [vm_compute; reflexivity|].
  apply (UTF16ToUTF8_decodes true 0); [repeat constructor; unfold unit16; lia|vm_compute; reflexivity].
Defined.

Lemma DoIsStringASCII_correct_witness :
  DoIsStringASCII true char 5 [72; 105; 0xC3; 0xA9; 33] = ascii [72; 105; 0xC3; 0xA9; 33].
Proof. apply (DoIsStringASCII_correct true char 5). repeat constructor; unfold unit_of; lia. Defined.

Lemma wide_conversions_decode_witness :
  decodes true wchar_t char8_t 4 [0x1F600; 0x110000] (WideToUTF8 true 0 [0x1F600; 0x110000]) /\
  WideToUTF8 true 0 [0x1F600; 0x110000] = (false, [0xF0; 0x9F; 0x98; 0x80; 0xEF; 0xBF; 0xBD]).
Proof.
  split; [|vm_compute; reflexivity].
  destruct (wide_conversions_decode 0) as (_ & H & _).
  refine (proj1 (H _ _ _)); [repeat constructor; unfold unit32; lia|vm_compute; reflexivity].
Defined.

(** ** Validation *)

(** A scalar value that is not a noncharacter. *)
Definition character (c : Z) : Prop := scalar c /\ CBU_IS_UNICODE_NONCHAR c = false.

Lemma IsValidUTF8Character_spec c : -1 <= c -> (IsValidUTF8Character c = true <-> character c).
Proof.
  intros H. unfold IsValidUTF8Character, character, scalar, CBU_IS_UNICODE_NONCHAR.
  rewrite !orb_true_iff, !andb_true_iff, !andb_false_iff, orb_false_iff, negb_true_iff, !Z.leb_le, !Z.ltb_lt, !Z.leb_gt.
  destruct (Z.land c 0xFFFE =? 0xFFFE) eqn:E; [|intuition (try lia; congruence)].
  split; [intuition (try lia; congruence)|]. intros [Hs Hn].
  destruct Hn as [[Hn|[_ ?]]|Hn]; [lia|done|lia].
Qed.

Lemma utf8_valid_loop_spec fuel src i :
  Forall byte src -> 0 <= i <= Z.of_nat (length src) -> Z.of_nat (length src) - i < Z.of_nat fuel ->
  utf8_valid_loop fuel src i = true <-> exists cs, Forall character cs /\ drop (Z.to_nat i) src = utf8_text cs.
Proof.
  intros Hs. revert i. induction fuel as [|fuel IH]; intros i Hi Hf; [lia|]. cbn [utf8_valid_loop].
  destruct (Z.ltb_spec i (Z.of_nat (length src))) as [Hl|Hl].
  2: { split; [|done]. intros _. exists []. rewrite drop_ge by lia. by split; [constructor|]. }
  pose proof (CBU8_NEXT_sound src i Hs ltac:(lia)) as N.
  destruct (CBU8_NEXT src i (Z.of_nat (length src))) as [i' c] eqn:En. destruct N as (N1 & N2 & N3).
  assert (V : IsValidUTF8Character c = true <-> character c).
  { apply IsValidUTF8Character_spec. destruct N3 as [->|[N3 _]]; [lia|unfold scalar in N3; lia]. }
  assert (U : forall cs, Forall character cs -> drop (Z.to_nat i) src = utf8_text cs ->
    exists cs', cs = c :: cs' /\ drop (Z.to_nat i') src = utf8_text cs').
  { intros [|c' cs] Hc E.
    - exfalso. apply (f_equal length) in E. rewrite length_drop in E. cbn in E. lia.
    - inversion_clear Hc as [|? ? [Hc' _] _]. change (utf8_text (c' :: cs)) with (utf8 c' ++ utf8_text cs) in E.
      rewrite (CBU8_NEXT_complete src i c' _ Hs ltac:(lia) Hc' E) in En. injection En as <- <-.
      exists cs. split; [done|]. rewrite Z2Nat.inj_add, Nat2Z.id, <- drop_drop, E by lia. by rewrite drop_app_length. }
  destruct (IsValidUTF8Character c) eqn:Ev; cbn [negb].
  - rewrite IH by lia. split.
    + intros (cs & Hc & E). exists (c :: cs). assert (character c) by tauto. split; [by constructor|].
      destruct N3 as [->|[_ ->]]; [done|]. by rewrite E.
    + intros (cs & Hc & E). destruct (U cs Hc E) as (cs' & -> & E'). exists cs'. split; [by inversion Hc|done].
  - split; [done|]. intros (cs & Hc & E). destruct (U cs Hc E) as (cs' & -> & _). inversion_clear Hc as [|? ? Hch _]. apply V in Hch. done.
Qed.

(** [DoIsStringUTF8] accepts a byte string exactly when it is the UTF-8 of
    characters: scalar values other than the noncharacters. *)
Theorem DoIsStringUTF8_correct src :
  Forall byte src ->
  DoIsStringUTF8 src = true <-> exists cs, Forall character cs /\ src = utf8_text cs.
Proof. intros Hs. unfold DoIsStringUTF8. rewrite utf8_valid_loop_spec by (done || lia). done. Qed.

Lemma DoIsStringUTF8_correct_witness :
  DoIsStringUTF8 [0xEF; 0xBF; 0xBF] = false /\
  exists cs, Forall character cs /\ [0xE2; 0x98; 0x83] = utf8_text cs.
Proof.
  split; [vm_compute; reflexivity|].
  apply (DoIsStringUTF8_correct [0xE2; 0x98; 0x83]); [repeat constructor; unfold byte; lia|vm_compute; reflexivity].
Defined.

(** [IsStringUTF8AndReportIdx] answers zero for every text of characters, and
    also for a text that is malformed from its first byte on: its result does not
    tell the two apart. *)
Theorem IsStringUTF8AndReportIdx_ambiguous b rest :
  128 <= b < 194 -> Forall byte rest ->
  IsStringUTF8AndReportIdx (b :: rest) = 0 /\ DoIsStringUTF8 (b :: rest) = false /\
  IsStringUTF8AndReportIdx (utf8_text sample) = 0 /\ DoIsStringUTF8 (utf8_text sample) = true.
Proof.
  intros Hb Hr. assert (Hs : Forall byte (b :: rest)) by (constructor; [unfold byte; lia|done]).
  assert (N : CBU8_NEXT (b :: rest) 0 (Z.of_nat (length (b :: rest))) = (1, -1)).
  { rewrite CBU8_NEXT_arith by done. unfold next_arith. change (at_ (b :: rest) 0) with b. cbn zeta.
    repeat (case_if; try lia); done. }
  unfold IsStringUTF8AndReportIdx, DoIsStringUTF8. split; [|split; [|split; vm_compute; reflexivity]].
  - cbn [utf8_report_loop]. rewrite N. by case_if.
  - cbn [utf8_valid_loop]. rewrite N. cbn [length]. case_if; [done|lia].
Qed.

Lemma IsStringUTF8AndReportIdx_ambiguous_witness :
  IsStringUTF8AndReportIdx [0x80; 0x41] = 0 /\ DoIsStringUTF8 [0x80; 0x41] = false /\
  IsStringUTF8AndReportIdx (utf8_text sample) = 0 /\ DoIsStringUTF8 (utf8_text sample) = true.
Proof. apply (IsStringUTF8AndReportIdx_ambiguous 0x80 [0x41]); [lia|repeat constructor; unfold byte; lia]. Defined.

(** ** [utf8_codepoint_iterator.h] *)

Record UTF8CodePointIterator := mkIter {
  str_ : list Z; array_pos_ : Z; next_pos_ : Z; char_pos_ : Z; char_ : Z }.

Definition str_len (it : UTF8CodePointIterator) : Z := Z.of_nat (length (str_ it)).

Definition new_iterator (str : list Z) : UTF8CodePointIterator :=
  let '(next_pos, c) := CBU8_NEXT str 0 (Z.of_nat (length str)) in mkIter str 0 next_pos 0 c.

Definition current_character (it : UTF8CodePointIterator) : Z := char_ it.
Definition end_ (it : UTF8CodePointIterator) : bool := array_pos_ it =? str_len it.

Definition Advance (it : UTF8CodePointIterator) : bool * UTF8CodePointIterator :=
  if array_pos_ it >=? str_len it then (false, it)
  else
    let array_pos := next_pos_ it in
    let char_pos := char_pos_ it + 1 in
    if next_pos_ it <? str_len it then
      let '(next_pos, c) := CBU8_NEXT (str_ it) (next_pos_ it) (str_len it) in
      (true, mkIter (str_ it) array_pos next_pos char_pos c)
    else (true, mkIter (str_ it) array_pos (next_pos_ it) char_pos (char_ it)).

Fixpoint peek_loop (n : nat) (it : UTF8CodePointIterator) (the_pos the_char : Z) : Z :=
  match n with
  | O => the_char
  | S n =>
      if the_pos >=? str_len it then 0
      else let '(the_pos, the_char) := CBU8_NEXT (str_ it) the_pos (str_len it) in peek_loop n it the_pos the_char
  end.

Definition PeekCharacter (it : UTF8CodePointIterator) (number_of_code_points : nat) : Z :=
  if array_pos_ it >=? str_len it then 0
  else
    let '(the_pos, the_char) := CBU8_NEXT (str_ it) (array_pos_ it) (str_len it) in
    peek_loop number_of_code_points it the_pos the_char.

(** The iterator standing at the code point after [done], with [todo] ahead. *)
Definition iterates (it : UTF8CodePointIterator) (before todo : list Z) : Prop :=
  Forall scalar (before ++ todo) /\ str_ it = utf8_text (before ++ todo) /\
  array_pos_ it = Z.of_nat (length (utf8_text before)) /\ char_pos_ it = Z.of_nat (length before) /\
  match todo with
  | c :: _ => char_ it = c /\ next_pos_ it = Z.of_nat (length (utf8_text (before ++ [c])))
  | [] => True
  end.

Lemma utf8_text_app cs1 cs2 : utf8_text (cs1 ++ cs2) = utf8_text cs1 ++ utf8_text cs2.
Proof. unfold utf8_text. by rewrite map_app, concat_app. Qed.

Lemma utf8_text_snoc cs c : utf8_text (cs ++ [c]) = utf8_text cs ++ utf8 c.
Proof. rewrite utf8_text_app. unfold utf8_text at 2. cbn [map concat]. by rewrite app_nil_r. Qed.

Lemma NEXT_text before c todo :
  Forall scalar (before ++ c :: todo) ->
  CBU8_NEXT (utf8_text (before ++ c :: todo)) (Z.of_nat (length (utf8_text before)))
    (Z.of_nat (length (utf8_text (before ++ c :: todo)))) = (Z.of_nat (length (utf8_text (before ++ [c]))), c).
Proof.
  intros H. assert (Hc : scalar c) by (apply Forall_app in H as [_ H]; by inversion H).
  erewrite (CBU8_NEXT_complete _ _ c (utf8_text todo)); [|by apply flat_bytes|rewrite utf8_text_app, length_app; lia|done|].
  - rewrite utf8_text_snoc, length_app. f_equal. lia.
  - rewrite Nat2Z.id, utf8_text_app. by rewrite drop_app_length.
Qed.

Lemma utf8_text_pos c cs : (0 < length (utf8_text (c :: cs)))%nat.
Proof. unfold utf8_text. cbn [map concat]. rewrite length_app. pose proof (utf8_len c). lia. Qed.

Lemma new_iterator_iterates c cs : Forall scalar (c :: cs) -> iterates (new_iterator (utf8_text (c :: cs))) [] (c :: cs).
Proof.
  intros H. unfold new_iterator. pose proof (NEXT_text [] c cs H) as N. cbn [app] in N.
  change (Z.of_nat (length (utf8_text []))) with 0 in N. rewrite N. by repeat split.
Qed.

Lemma Advance_iterates it before c todo :
  iterates it before (c :: todo) ->
  exists it', Advance it = (true, it') /\ iterates it' (before ++ [c]) todo.
Proof.
  intros (Hs & Es & Ea & Ec & Ech & En). unfold Advance, str_len. rewrite Es, Ea, En, Z.geb_leb.
  assert (E : before ++ c :: todo = (before ++ [c]) ++ todo) by (by rewrite <- app_assoc).
  assert (L1 : length (utf8_text (before ++ c :: todo)) = (length (utf8_text before) + length (utf8_text (c :: todo)))%nat)
    by (by rewrite utf8_text_app, length_app).
  assert (L2 : length (utf8_text (before ++ c :: todo)) = (length (utf8_text (before ++ [c])) + length (utf8_text todo))%nat)
    by (by rewrite E, utf8_text_app, length_app).
  pose proof (utf8_text_pos c todo). rewrite (proj2 (Z.leb_gt _ _)) by lia.
  destruct todo as [|d todo].
  - rewrite (proj2 (Z.ltb_ge _ _)) by (cbn in L2; lia). eexists. split; [done|]. unfold iterates. cbn [array_pos_ str_ char_pos_].
    rewrite app_nil_r, length_app, Ec. cbn [length]. repeat split; try done. lia.
  - pose proof (utf8_text_pos d todo). rewrite (proj2 (Z.ltb_lt _ _)) by lia. rewrite E in *.
    rewrite NEXT_text by done. eexists. split; [done|]. unfold iterates. cbn [array_pos_ str_ char_pos_ char_ next_pos_].
    rewrite length_app, Ec. cbn [length]. repeat split; try done. lia.
Qed.

Lemma peek_loop_spec n it before todo ch :
  Forall scalar (before ++ todo) -> str_ it = utf8_text (before ++ todo) ->
  peek_loop n it (Z.of_nat (length (utf8_text before))) ch =
    match n with O => ch | S m => List.nth m todo 0 end.
Proof.
  revert before todo ch. induction n as [|n IH]; intros before todo ch Hs Es; [done|]. cbn [peek_loop].
  unfold str_len. rewrite Es, Z.geb_leb. destruct todo as [|c todo].
  { rewrite app_nil_r, (proj2 (Z.leb_le _ _)) by lia. by destruct n. }
  pose proof (utf8_text_pos c todo). rewrite (proj2 (Z.leb_gt _ _)) by (rewrite utf8_text_app, length_app; lia).
  assert (E : before ++ c :: todo = (before ++ [c]) ++ todo) by (by rewrite <- app_assoc).
  rewrite NEXT_text by done. rewrite E in *. rewrite (IH _ todo) by done. by destruct n.
Qed.

Lemma PeekCharacter_spec n it before todo :
  iterates it before todo -> PeekCharacter it n = List.nth n todo 0.
Proof.
  intros (Hs & Es & Ea & _ & _). unfold PeekCharacter, str_len. rewrite Es, Ea, Z.geb_leb. destruct todo as [|c todo].
  { rewrite app_nil_r, (proj2 (Z.leb_le _ _)) by lia. by destruct n. }
  pose proof (utf8_text_pos c todo). rewrite (proj2 (Z.leb_gt _ _)) by (rewrite utf8_text_app, length_app; lia).
  assert (E : before ++ c :: todo = (before ++ [c]) ++ todo) by (by rewrite <- app_assoc).
  rewrite NEXT_text by done. rewrite E in *. rewrite (peek_loop_spec _ _ _ todo) by done. by destruct n.
Qed.

Definition advance_n (n : nat) (it : UTF8CodePointIterator) : UTF8CodePointIterator :=
  Nat.iter n (fun it => snd (Advance it)) it.

Lemma advance_n_iterates k cs :
  Forall scalar cs -> cs <> [] -> (k <= length cs)%nat ->
  iterates (advance_n k (new_iterator (utf8_text cs))) (take k cs) (drop k cs).
Proof.
  intros Hs Hne Hk. induction k as [|k IH].
  - destruct cs as [|c cs]; [done|]. by apply new_iterator_iterates.
  - specialize (IH ltac:(lia)). destruct (drop k cs) as [|c rest] eqn:E.
    { apply (f_equal length) in E. rewrite length_drop in E. cbn in E. lia. }
    destruct (Advance_iterates _ _ _ _ IH) as (it' & Ea & Hit).
    change (advance_n (S k) ?it) with (snd (Advance (advance_n k it))). rewrite Ea. cbn [snd].
    assert (Ed : drop (S k) cs = rest) by (replace (S k) with (k + 1)%nat by lia; by rewrite <- drop_drop, E).
    assert (Et : take (S k) cs = take k cs ++ [c]).
    { rewrite <- (take_drop k cs) at 1. rewrite E, take_app_ge by (rewrite length_take_le by lia; lia).
      rewrite length_take_le by lia. by replace (S k - k)%nat with 1%nat by lia. }
    by rewrite Ed, Et.
Qed.

(** The code point iterator visits a text: after [k] calls of [Advance] it stands
    at the [k]-th code point, its two positions count the bytes and the code points
    before it, it is at the end exactly after the last one, and [PeekCharacter n] is
    the code point [n] further, or zero past the end. *)
Theorem iterator_visits cs k :
  Forall scalar cs -> cs <> [] -> (k <= length cs)%nat ->
  let it := advance_n k (new_iterator (utf8_text cs)) in
  array_pos_ it = Z.of_nat (length (utf8_text (take k cs))) /\ char_pos_ it = Z.of_nat k /\
  ((k < length cs)%nat -> current_character it = List.nth k cs 0) /\
  end_ it = Nat.eqb k (length cs) /\
  forall n, PeekCharacter it n = List.nth (k + n) cs 0.
Proof.
  intros Hs Hne Hk it. pose proof (advance_n_iterates k cs Hs Hne Hk) as H. fold it in H.
  assert (P : forall n, List.nth (k + n) cs 0 = List.nth n (drop k cs) 0).
  { intros n. rewrite <- (take_drop k cs) at 1. rewrite app_nth2; rewrite length_take_le by lia; [|lia]. f_equal. lia. }
  pose proof (fun n => PeekCharacter_spec n it _ _ H) as Hp.
  destruct H as (H1 & H2 & H3 & H4 & H5). rewrite length_take_le in H4 by lia.
  split; [done|]. split; [done|]. split; [|split; [|intros n; by rewrite P, Hp]].
  - intros Hlt. rewrite <- (Nat.add_0_r k), P. destruct (drop k cs) as [|c rest] eqn:E.
    { apply (f_equal length) in E. rewrite length_drop in E. cbn in E. lia. }
    unfold current_character. destruct H5 as [H5 _]. exact H5.
  - unfold end_, str_len. rewrite H2, H3, take_drop. rewrite <- (take_drop k cs) at 2. rewrite utf8_text_app, length_app.
    apply bool_eq_iff. rewrite Z.eqb_eq, Nat.eqb_eq. destruct (drop k cs) as [|c rest] eqn:E.
    + apply (f_equal length) in E. rewrite length_drop in E. cbn in *. lia.
    + pose proof (utf8_text_pos c rest). apply (f_equal length) in E. rewrite length_drop in E. cbn [length] in E. lia.
Qed.

Lemma iterator_visits_witness :
  let it := advance_n 1 (new_iterator (utf8_text sample)) in
  array_pos_ it = 3 /\ char_pos_ it = 1 /\ ((1 < 4)%nat -> current_character it = 0x1F600) /\ end_ it = false /\
  forall n, PeekCharacter it n = List.nth (1 + n) sample 0.
Proof. apply (iterator_visits sample 1); [exact sample_scalar|done|cbn; lia]. Defined.

(** ** Moving through UTF-16 text *)

Lemma at_app_r s t k : 0 <= k -> at_ (s ++ t) (Z.of_nat (length s) + k) = at_ t k.
Proof.
  intros Hk. unfold at_. rewrite app_nth2 by lia. f_equal. lia.
Qed.

Lemma utf16_text_app cs1 cs2 : utf16_text (cs1 ++ cs2) = utf16_text cs1 ++ utf16_text cs2.
Proof. unfold utf16_text. by rewrite map_app, concat_app. Qed.

(** The units of one code point inside a text. *)
Lemma utf16_at before c after k :
  0 <= k < Z.of_nat (length (utf16 c)) ->
  at_ (utf16_text (before ++ c :: after)) (Z.of_nat (length (utf16_text before)) + k) = at_ (utf16 c) k.
Proof.
  intros Hk. rewrite utf16_text_app, at_app_r by lia. change (utf16_text (c :: after)) with (utf16 c ++ utf16_text after).
  unfold at_. rewrite app_nth1 by lia. done.
Qed.

Lemma lead_not_trail u : 0xD800 <= u < 0xDC00 -> CBU16_IS_LEAD u = true /\ CBU16_IS_TRAIL u = false.
Proof.
  intros H. rewrite IS_LEAD_range, IS_TRAIL_range by (unfold unit16; lia).
  rewrite andb_true_iff, andb_false_iff, !Z.leb_le, !Z.leb_gt, !Z.ltb_lt. lia.
Qed.

Lemma trail_not_lead u : 0xDC00 <= u < 0xE000 -> CBU16_IS_LEAD u = false /\ CBU16_IS_TRAIL u = true.
Proof.
  intros H. rewrite IS_LEAD_range, IS_TRAIL_range by (unfold unit16; lia).
  rewrite andb_true_iff, andb_false_iff, !Z.leb_le, !Z.leb_gt, !Z.ltb_lt, !Z.ltb_ge. lia.
Qed.

Lemma single_neither u : 0 <= u < 0xD800 \/ 0xE000 <= u < 0x10000 -> CBU16_IS_LEAD u = false /\ CBU16_IS_TRAIL u = false.
Proof.
  intros H. rewrite IS_LEAD_range, IS_TRAIL_range by (unfold unit16; lia).
  rewrite !andb_false_iff, !Z.leb_gt, !Z.ltb_ge. lia.
Qed.

Lemma single_not_surrogate u : 0 <= u < 0xD800 \/ 0xE000 <= u < 0x10000 -> CBU16_IS_SURROGATE u = false.
Proof.
  intros H. pose proof (IS_SINGLE_range u ltac:(unfold unit16; lia)) as E. unfold CBU16_IS_SINGLE in E.
  unfold CBU16_IS_SURROGATE. apply negb_true_iff. rewrite E. apply negb_true_iff, andb_false_iff. rewrite Z.leb_gt, Z.ltb_ge. lia.
Qed.

Lemma surrogate_lead u :
  0xD800 <= u < 0xE000 -> CBU16_IS_SURROGATE u = true /\ CBU16_IS_SURROGATE_LEAD u = (u <? 0xDC00).
Proof.
  intros H. pose proof (IS_SINGLE_range u ltac:(unfold unit16; lia)) as E. unfold CBU16_IS_SINGLE in E. split.
  - unfold CBU16_IS_SURROGATE. rewrite <- (negb_involutive (CBU_IS_SURROGATE u)), E, negb_involutive.
    rewrite andb_true_iff, Z.leb_le, Z.ltb_lt. lia.
  - unfold CBU16_IS_SURROGATE_LEAD. apply eqb_prop.
    pose proof (range_check 2048 (fun d => eqb (Z.land (55296 + d) 0x400 =? 0) (55296 + d <? 0xDC00)) ltac:(vm_compute; reflexivity)
      (u - 55296) ltac:(lia)) as X. cbn beta in X. by replace (55296 + (u - 55296)) with u in X by lia.
Qed.

(** On UTF-16 text the navigation macros respect code point boundaries: from the
    start of a code point [NEXT] yields it and its end, from the end [PREV] yields it
    and its start, and from any unit of it [GET] reads it and [SET_CP_START] and
    [SET_CP_LIMIT] find its start and end. *)
Theorem CBU16_navigation before c after j :
  Forall scalar (before ++ c :: after) ->
  let s := utf16_text (before ++ c :: after) in
  let n := Z.of_nat (length s) in
  let i := Z.of_nat (length (utf16_text before)) in
  let i' := i + Z.of_nat (length (utf16 c)) in
  CBU16_NEXT s i n = (i', c) /\ CBU16_PREV s 0 i' = (i, c) /\
  (i <= j < i' -> CBU16_GET s 0 j n = c /\ CBU16_SET_CP_START s 0 j = i) /\
  (i < j <= i' -> CBU16_SET_CP_LIMIT s 0 j n = i').
Proof.
  intros Hs s n i i'. assert (Hc : scalar c) by (apply Forall_app in Hs as [_ Hs]; by inversion Hs).
  assert (Hn : i' <= n).
  { unfold n, s, i', i. rewrite utf16_text_app. change (utf16_text (c :: after)) with (utf16 c ++ utf16_text after).
    rewrite !length_app. lia. }
  assert (Hi : 0 <= i) by (unfold i; lia).
  pose proof (utf16_at before c after) as A. fold s i in A.
  pose proof (A 0) as A0. pose proof (A 1) as A1. clear A. rewrite Z.add_0_r in A0.
  destruct (scalar_utf16_shape c Hc) as [u Hu|l t Hl Ht]; unfold i' in *; cbn [length] in *.
  - specialize (A0 ltac:(lia)). change (at_ [u] 0) with u in A0. change (i + Z.of_nat 1) with (i + 1) in *.
    destruct (single_neither u Hu) as [L T]. pose proof (single_not_surrogate u Hu) as S.
    unfold CBU16_NEXT, CBU16_PREV. cbn zeta. rewrite A0, L, ?T. rewrite Z.add_simpl_r, A0, T.
    split; [done|]. split; [done|]. split; intros Hj.
    + replace j with i by lia. unfold CBU16_GET, CBU16_SET_CP_START. rewrite A0, S, T. done.
    + replace j with (i + 1) by lia. unfold CBU16_SET_CP_LIMIT. by rewrite Z.add_simpl_r, A0, L, andb_false_r.
  - specialize (A0 ltac:(lia)). specialize (A1 ltac:(lia)). change (at_ [l; t] 0) with l in A0. change (at_ [l; t] 1) with t in A1.
    change (i + Z.of_nat 2) with (i + 2) in *.
    destruct (lead_not_trail l Hl) as [L1 L2]. destruct (trail_not_lead t Ht) as [T1 T2].
    destruct (surrogate_lead l ltac:(lia)) as [S1 S2]. destruct (surrogate_lead t ltac:(lia)) as [S3 S4].
    rewrite (proj2 (Z.ltb_lt _ _)) in S2 by lia. rewrite (proj2 (Z.ltb_ge _ _)) in S4 by lia.
    unfold CBU16_NEXT, CBU16_PREV. cbn zeta. rewrite A0, L1, A1, T2. replace (i + 2 - 1) with (i + 1) by lia.
    rewrite A1, T2, Z.add_simpl_r, A0, L1, Z.gtb_ltb, (proj2 (Z.ltb_lt 0 (i + 1))) by lia.
    rewrite (proj2 (Z.eqb_neq (i + 1) n)) by lia.
    split; [cbn; f_equal; lia|]. split; [done|]. split; intros Hj.
    + unfold CBU16_GET, CBU16_SET_CP_START. destruct (Z.eq_dec j i) as [->|].
      * rewrite A0, A1, S1, S2, L2, T2, (proj2 (Z.eqb_neq (i + 1) n)) by lia. done.
      * replace j with (i + 1) by lia. rewrite Z.add_simpl_r, A0, A1, S3, S4, L1, T2, Z.gtb_ltb, (proj2 (Z.ltb_lt 0 (i + 1))) by lia. done.
    + unfold CBU16_SET_CP_LIMIT. destruct (Z.eq_dec j (i + 1)) as [->|].
      * rewrite Z.add_simpl_r, A0, A1, L1, T2, (proj2 (Z.ltb_lt 0 (i + 1))), (proj2 (Z.ltb_lt (i + 1) n)) by lia. cbn. lia.
      * replace j with (i + 2) by lia. replace (i + 2 - 1) with (i + 1) by lia. by rewrite A1, T1, andb_false_r.
Qed.

Lemma CBU16_navigation_witness :
  CBU16_NEXT [0x2603; 0xD83D; 0xDE00; 0x41] 1 4 = (3, 0x1F600) /\ CBU16_PREV [0x2603; 0xD83D; 0xDE00; 0x41] 0 3 = (1, 0x1F600) /\
  (1 <= 2 < 3 -> CBU16_GET [0x2603; 0xD83D; 0xDE00; 0x41] 0 2 4 = 0x1F600 /\ CBU16_SET_CP_START [0x2603; 0xD83D; 0xDE00; 0x41] 0 2 = 1) /\
  (1 < 2 <= 3 -> CBU16_SET_CP_LIMIT [0x2603; 0xD83D; 0xDE00; 0x41] 0 2 4 = 3).
Proof. apply (CBU16_navigation [0x2603] 0x1F600 [0x41] 2). repeat constructor; unfold scalar; lia. Defined.
