(* ===== verification/FloatText.v ===== *)
(** * [FormatFloatTo] as a text

    The layouts put the same characters whatever the capacity of the buffer, so the
    two-pass use of [FormatFloatTo] in [format.cc] always emits the full text. *)

From S2P Require Import Prelude FloatFormat.

(** ** Every layout appends a text *)

(** A writing operation that puts the same text whatever was written before. *)
Definition appends (f : Writer -> Writer) : Prop := exists t, forall w, f w = PutAll w t.

Lemma appends_Put c : appends (fun w => Put w c).
Proof. by exists [c]. Qed.

Lemma appends_PutAll t : appends (fun w => PutAll w t).
Proof. by exists t. Qed.

Lemma appends_id : appends (fun w => w).
Proof. by exists []. Qed.

Lemma appends_loop n from f : appends (fun w => put_loop w n from f).
Proof. eexists. intros w. apply put_loop_PutAll. Qed.

Lemma appends_comp f g : appends f -> appends g -> appends (fun w => g (f w)).
Proof. intros [t Ht] [u Hu]. exists (t ++ u). intros w. by rewrite Ht, Hu, PutAll_app. Qed.

Lemma appends_if (b : bool) f g : appends f -> appends g -> appends (fun w => if b then f w else g w).
Proof. by destruct b. Qed.

Lemma appends_WriteSign negative sign : appends (fun w => WriteSign w negative sign).
Proof. unfold WriteSign. apply appends_if; [apply appends_Put|]. apply appends_if; [apply appends_Put|apply appends_id]. Qed.

Lemma appends_WriteFixed value p alt : appends (fun w => WriteFixed w value p alt).
Proof.
  unfold WriteFixed. set (g := fun w => if p <=? 0 then if alt then Put w 46 else w else put_loop (Put w 46) (Z.to_nat p) 1 (fun k => digit_at value (exponent value + k - 1))).
  apply (appends_comp (fun w => if exponent value <=? 0 then Put w 48 else put_loop w (Z.to_nat (exponent value)) 0 (digit_at value)) g).
  - apply appends_if; [apply appends_Put|apply appends_loop].
  - apply appends_if; [apply appends_if; [apply appends_Put|apply appends_id]|].
    apply (appends_comp (fun w => Put w 46) (fun w => put_loop w _ _ _)); [apply appends_Put|apply appends_loop].
Qed.

Lemma appends_WriteScientific value p alt upper : appends (fun w => WriteScientific w value p alt upper).
Proof.
  unfold WriteScientific. cbn zeta.
  destruct (_ >=? 100), (p >? 0), alt; eexists; intros w; rewrite ?put_loop_PutAll, !Put_PutAll, <- ?PutAll_app; reflexivity.
Qed.

Lemma appends_WriteGeneral value p alt upper : appends (fun w => WriteGeneral w value p alt upper).
Proof.
  unfold WriteGeneral. cbn zeta. destruct (_ && _); [apply appends_WriteFixed|apply appends_WriteScientific].
Qed.

Lemma appends_WriteNonFinite negative sign is_nan upper :
  appends (fun w => WriteNonFinite w negative sign is_nan upper).
Proof.
  unfold WriteNonFinite.
  apply (appends_comp (fun w => WriteSign w negative sign) (fun w => PutAll w _)); [apply appends_WriteSign|apply appends_PutAll].
Qed.

Lemma appends_run f :
  appends f -> exists t, forall cap, 0 <= cap -> (out_ (f (new_writer cap)), length_ (f (new_writer cap))) = emitted cap t.
Proof. intros [t Ht]. exists t. intros cap Hc. rewrite Ht. by apply emit_new. Qed.

(** The whole text of a conversion. *)
Lemma FormatFloatTo_text bits type precision sign alt :
  exists t, forall cap, 0 <= cap -> FormatFloatTo cap bits type precision sign alt = emitted cap t.
Proof.
  unfold FormatFloatTo. cbn zeta. set (negative := negb (Z.shiftr bits 63 =? 0)).
  destruct (Z.land (Z.shiftr bits 52) 2047 =? 2047).
  { apply (appends_run (fun w => WriteNonFinite w negative sign _ _)), appends_WriteNonFinite. }
  destruct (if Z.land (Z.shiftr bits 52) 2047 =? 0 then _ else _) as [m e].
  set (d := if m =? 0 then _ else _). set (lower := if _ && _ then type - 65 + 97 else type).
  pose proof (appends_WriteSign negative sign) as S.
  destruct (lower =? 101); [|destruct (lower =? 103)].
  - apply (appends_run (fun w => WriteScientific (WriteSign w negative sign) _ _ _ _)).
    apply (appends_comp _ (fun w => WriteScientific w _ _ _ _) S), appends_WriteScientific.
  - apply (appends_run (fun w => WriteGeneral (WriteSign w negative sign) _ _ _ _)).
    apply (appends_comp _ (fun w => WriteGeneral w _ _ _ _) S), appends_WriteGeneral.
  - apply (appends_run (fun w => WriteFixed (WriteSign w negative sign) _ _ _)).
    apply (appends_comp _ (fun w => WriteFixed w _ _ _) S), appends_WriteFixed.
Qed.
