(* ===== verification/Format.v ===== *)
(** * [src/base/strings/format.cc] and [format.h]: the [{}] formatter

    Every function of the formatter, over an arbitrary [Sink]: a state with a
    [write_fn] callback.  The two sinks of [format.h], the bounded buffer and the
    growing string, are instances; that every sink receives the same text is proved
    against the interface.  Characters are their codes 0..255, a C string the codes
    before the terminator, byte counts are not wrapped (they count bytes of objects
    in memory), and [int] fields keep their 32-bit width. *)

From S2P Require Import Prelude IntParse FloatFormat Utf.

(** ** Arguments *)

Inductive Arg :=
| kNone
| kBool (b : bool)
| kChar (c : Z)
| kI64 (i : Z)
| kU64 (u : Z)
| kF64 (d : Z)
| kCStr (cstr : option (list Z))
| kStrSpan (span : list Z)
| kU16Str (u16str : option (list Z))
| kU32Str (u32str : option (list Z))
| kPtr (ptr : Z).

(** The C++ values [MakeArg] is overloaded on; floats are their IEEE encodings and
    pointers addresses.  [VArray8] stands for both [char] and [char8_t] arrays and
    [VStr8] for the strings and string references of either type. *)
Inductive Value :=
| VBool (v : bool)
| VChar (v : Z)
| VChar8 (v : Z)
| VInt (is_signed : bool) (v : Z)
| VFloat (v : Z)
| VDouble (v : Z)
| VArray8 (v : list Z)
| VCStr (v : option (list Z))
| VU16 (v : option (list Z))
| VU32 (v : option (list Z))
| VWide (v : option (list Z))
| VStr8 (s : list Z)
| VStr16 (s : list Z)
| VStr32 (s : list Z)
| VPtr (v : Z)
| VNull.

(** [static_cast<f64>(float)], on encodings. *)
Definition f32_to_f64 (bits : Z) : Z :=
  let sign := Z.shiftr bits 31 in
  let e := Z.land (Z.shiftr bits 23) 0xFF in
  let f := Z.land bits 0x7FFFFF in
  let magnitude :=
    if e =? 0xFF then Z.lor (Z.shiftl 0x7FF 52) (Z.shiftl f 29)
    else if negb (e =? 0) then Z.lor (Z.shiftl (e + 896) 52) (Z.shiftl f 29)
    else if f =? 0 then 0
    else let l := Z.log2 f in Z.lor (Z.shiftl (l + 874) 52) (Z.shiftl (f - 2 ^ l) (52 - l)) in
  Z.lor (Z.shiftl sign 63) magnitude.

Definition null_text : list Z := [40; 110; 117; 108; 108; 41].

(** The characters before the first terminator. *)
Fixpoint c_str (s : list Z) : list Z :=
  match s with c :: s => if c =? 0 then [] else c :: c_str s | [] => [] end.

(** [wide32] tells whether [wchar_t] has 32 bits. *)
Definition MakeArg (wide32 : bool) (v : Value) : Arg :=
  match v with
  | VBool v => kBool v
  | VChar v | VChar8 v => kChar v
  | VInt true v => kI64 v
  | VInt false v => kU64 v
  | VFloat v => kF64 (f32_to_f64 v)
  | VDouble v => kF64 v
  | VArray8 v =>
      let N := length v in
      kStrSpan (take (if Nat.ltb 0%nat N && (List.nth (N - 1)%nat v 0 =? 0) then (N - 1)%nat else N) v)
  | VCStr v => kCStr (Some (match v with Some s => s | None => null_text end))
  | VU16 v => kU16Str v
  | VU32 v => kU32Str v
  | VWide v => if wide32 then kU32Str v else kU16Str v
  | VStr8 s => kStrSpan s
  | VStr16 s => kU16Str (Some (c_str s))
  | VStr32 s => kU32Str (Some (c_str s))
  | VPtr v => kPtr v
  | VNull => kPtr 0
  end.

(** ** Format specifications *)

Record Spec := mkSpec {
  fill : Z; align : Z; sign : Z; type : Z; alt : bool; zero_pad : bool; width : Z; precision : Z }.

Definition default_spec : Spec := mkSpec 32 0 45 0 false false 0 (-1).

Definition DecDigit (c : Z) : option Z := if (c <? 48) || (c >? 57) then None else Some (c - 48).

(** [while (p < end && DecDigit( *p, &digit)) value = value * 10 + digit], in [int]. *)
Fixpoint parse_digits (p : list Z) (value : Z) : list Z * Z :=
  match p with
  | c :: p' => match DecDigit c with
               | Some digit => parse_digits p' (i32 (value * 10 + digit))
               | None => (p, value)
               end
  | [] => ([], value)
  end.

Definition is_align (c : Z) : bool := (c =? 60) || (c =? 62) || (c =? 94).

(** [p] is the text from the cursor to [end]. *)
Definition ParseSpec (p : list Z) (s : Spec) : Spec :=
  let '(p, s) :=
    match p with
    | c0 :: c1 :: p' =>
        if is_align c1 && negb (c0 =? 0) && negb (c0 =? 123) && negb (c0 =? 125)
        then (p', mkSpec c0 c1 (sign s) (type s) (alt s) (zero_pad s) (width s) (precision s))
        else if is_align c0
        then (c1 :: p', mkSpec (fill s) c0 (sign s) (type s) (alt s) (zero_pad s) (width s) (precision s))
        else (p, s)
    | [c0] =>
        if is_align c0
        then ([], mkSpec (fill s) c0 (sign s) (type s) (alt s) (zero_pad s) (width s) (precision s))
        else (p, s)
    | [] => (p, s)
    end in
  let '(p, s) :=
    match p with
    | c :: p' => if (c =? 43) || (c =? 45) || (c =? 32)
                 then (p', mkSpec (fill s) (align s) c (type s) (alt s) (zero_pad s) (width s) (precision s)) else (p, s)
    | [] => (p, s)
    end in
  let '(p, s) :=
    match p with
    | c :: p' => if c =? 35
                 then (p', mkSpec (fill s) (align s) (sign s) (type s) true (zero_pad s) (width s) (precision s)) else (p, s)
    | [] => (p, s)
    end in
  let '(p, s) :=
    match p with
    | c :: p' => if c =? 48
                 then (p', mkSpec (fill s) (align s) (sign s) (type s) (alt s) true (width s) (precision s)) else (p, s)
    | [] => (p, s)
    end in
  let '(p, w) := parse_digits p (width s) in
  let s := mkSpec (fill s) (align s) (sign s) (type s) (alt s) (zero_pad s) w (precision s) in
  let '(p, s) :=
    match p with
    | c :: p' => if c =? 46
                 then let '(p, pr) := parse_digits p' 0 in
                      (p, mkSpec (fill s) (align s) (sign s) (type s) (alt s) (zero_pad s) (width s) pr) else (p, s)
    | [] => (p, s)
    end in
  match p with
  | c :: _ => if negb (c =? 125)
              then mkSpec (fill s) (align s) (sign s) c (alt s) (zero_pad s) (width s) (precision s) else s
  | [] => s
  end.

(** ** Sinks *)

Class Sink (St : Type) := write_fn : St -> list Z -> St.

(** What the formatter relies on: splitting a write does not matter. *)
Class LawfulSink (St : Type) `{Sink St} := {
  write_nil s : write_fn s [] = s;
  write_app s a b : write_fn s (a ++ b) = write_fn (write_fn s a) b
}.

Definition kFloatFormatBufferSize : Z := 512.

(** ** UTF-8 encoding of wide text *)

(** The bytes written to [out]; none for an invalid code point. *)
Definition EncodeUtf8 (cp : Z) : list Z :=
  if cp <=? 0x7F then [u8 cp]
  else if cp <=? 0x7FF then [u8 (Z.lor 0xC0 (Z.shiftr cp 6)); u8 (Z.lor 0x80 (Z.land cp 0x3F))]
  else if cp <=? 0xFFFF then
    if (0xD800 <=? cp) && (cp <=? 0xDFFF) then []
    else [u8 (Z.lor 0xE0 (Z.shiftr cp 12)); u8 (Z.lor 0x80 (Z.land (Z.shiftr cp 6) 0x3F)); u8 (Z.lor 0x80 (Z.land cp 0x3F))]
  else if cp <=? 0x10FFFF then
    [u8 (Z.lor 0xF0 (Z.shiftr cp 18)); u8 (Z.lor 0x80 (Z.land (Z.shiftr cp 12) 0x3F));
     u8 (Z.lor 0x80 (Z.land (Z.shiftr cp 6) 0x3F)); u8 (Z.lor 0x80 (Z.land cp 0x3F))]
  else [].

(** [for (i...) if (written + i < out_cap) out[written + i] = tmp[i]]: the stored
    prefix of the output, and the bytes counted so far. *)
Definition store (out : list Z) (written out_cap : Z) (tmp : list Z) : list Z * Z :=
  fold_left (fun '(out, pos) c => ((if pos <? out_cap then out ++ [c] else out), pos + 1)) tmp (out, written).

Fixpoint transcode16_loop (src : list Z) (out_cap : Z) (out : list Z) (written : Z) : list Z * Z :=
  match src with
  | [] => (out, written)
  | high :: src' =>
      if (0xD800 <=? high) && (high <=? 0xDBFF) && (0xDC00 <=? deref src') && (deref src' <=? 0xDFFF) then
        match src' with
        | low :: src'' =>
            let cp := 0x10000 + u32 (Z.shiftl (high - 0xD800) 10) + (low - 0xDC00) in
            let '(out, written) := store out written out_cap (EncodeUtf8 cp) in
            transcode16_loop src'' out_cap out written
        | [] => (out, written)
        end
      else
        let '(out, written) := store out written out_cap (EncodeUtf8 high) in
        transcode16_loop src' out_cap out written
  end.

Definition TranscodeUtf16 (src : list Z) (out_cap : Z) : list Z * Z := transcode16_loop src out_cap [] 0.

Fixpoint transcode32_loop (src : list Z) (out_cap : Z) (out : list Z) (written : Z) : list Z * Z :=
  match src with
  | [] => (out, written)
  | c :: src =>
      let '(out, written) := store out written out_cap (EncodeUtf8 c) in
      transcode32_loop src out_cap out written
  end.

Definition TranscodeUtf32 (src : list Z) (out_cap : Z) : list Z * Z := transcode32_loop src out_cap [] 0.

(** ** Emitting *)

Section Emit.
Context {St : Type} `{Sink St}.

Definition Write (sink : St) (data : list Z) : St :=
  if Nat.eqb (length data) 0 then sink else write_fn sink data.
Definition WriteChar (sink : St) (c : Z) : St := write_fn sink [c].

Fixpoint fill_loop (fuel : nat) (sink : St) (c n : Z) : St :=
  match fuel with
  | O => sink
  | S fuel =>
      if n >? 0 then
        let chunk := if n >? 32 then 32 else n in
        fill_loop fuel (Write sink (replicate (Z.to_nat chunk) c)) c (n - chunk)
      else sink
  end.

Definition EmitFill (sink : St) (c n : Z) : St := fill_loop (S (Z.to_nat n)) sink c n.

Definition EmitAligned (sink : St) (align fill body_len width : Z) (body_writer : St -> St) : St :=
  let pad := if width >? body_len then width - body_len else 0 in
  if pad =? 0 then body_writer sink
  else if align =? 60 then EmitFill (body_writer sink) fill pad
  else if align =? 94 then
    let left := Z.quot pad 2 in
    EmitFill (body_writer (EmitFill sink fill left)) fill (pad - left)
  else body_writer (EmitFill sink fill pad).

Definition FormatString (sink : St) (data : list Z) (spec : Spec) : St :=
  let length := Z.of_nat (length data) in
  let length := if (0 <=? precision spec) && (length >? precision spec) then precision spec else length in
  let align := if negb (align spec =? 0) then align spec else 60 in
  EmitAligned sink align (fill spec) (i32 length) (width spec) (fun sink => Write sink (take (Z.to_nat length) data)).

Definition FormatWideString (sink : St) (spec : Spec) (transcode : Z -> list Z * Z) : St :=
  let '(inline_buf, needed) := transcode 256 in
  if needed <=? 256 then FormatString sink inline_buf spec
  else let '(big, _) := transcode needed in FormatString sink big spec.

(** The digits of [abs], least significant first; 64 characters hold any [u64]. *)
Fixpoint digit_loop (fuel : nat) (abs base : Z) (upper : bool) : list Z :=
  match fuel with
  | O => []
  | S fuel =>
      if abs =? 0 then []
      else
        let d := abs mod base in
        (if d <? 10 then 48 + d else (if upper then 65 else 97) + d - 10) :: digit_loop fuel (abs / base) base upper
  end.

(** The digits as they are emitted: from the last one stored to the first. *)
Definition integer_digits (abs base : Z) (upper : bool) : list Z :=
  rev (if abs =? 0 then [48] else digit_loop 64 abs base upper).

Definition integer_base (type : Z) : Z :=
  if (type =? 120) || (type =? 88) then 16 else if type =? 111 then 8 else if (type =? 98) || (type =? 66) then 2 else 10.

Definition integer_prefix (type : Z) (alt : bool) : list Z :=
  if negb alt then []
  else if type =? 120 then [48; 120] else if type =? 88 then [48; 88] else if type =? 111 then [48]
  else if type =? 98 then [48; 98] else if type =? 66 then [48; 66] else [].

Definition sign_char (negative : bool) (sign : Z) : list Z :=
  if negative then [45] else if sign =? 43 then [43] else if sign =? 32 then [32] else [].

Definition FormatInteger (sink : St) (abs : Z) (negative : bool) (spec : Spec) : St :=
  if type spec =? 99 then WriteChar sink (u8 abs)
  else
    let prefix := integer_prefix (type spec) (alt spec) in
    let digits := integer_digits abs (integer_base (type spec)) (type spec =? 88) in
    let sign := sign_char negative (sign spec) in
    let body_len := Z.of_nat (length sign + length prefix + length digits) in
    let write_digits sink := fold_left WriteChar digits sink in
    if zero_pad spec && (align spec =? 0) && (width spec >? body_len) then
      let pad := width spec - body_len in
      write_digits (EmitFill (Write (Write sink sign) prefix) 48 pad)
    else
      let align := if negb (align spec =? 0) then align spec else 62 in
      EmitAligned sink align (fill spec) body_len (width spec)
        (fun sink => write_digits (Write (Write sink sign) prefix)).

Definition FormatFloat (sink : St) (v : Z) (spec : Spec) : St :=
  let type := if type spec =? 0 then (if 0 <=? precision spec then 102 else 103) else type spec in
  let '(inline_buf, needed) := FormatFloatTo kFloatFormatBufferSize v type (precision spec) (sign spec) (alt spec) in
  let text :=
    if needed >? kFloatFormatBufferSize
    then fst (FormatFloatTo needed v type (precision spec) (sign spec) (alt spec)) else inline_buf in
  let n := i32 needed in
  if zero_pad spec && (align spec =? 0) && (width spec >? n) then
    let signed := (n >? 0) && ((deref text =? 45) || (deref text =? 43) || (deref text =? 32)) in
    let sink := if signed then WriteChar sink (deref text) else sink in
    let body := if signed then 1%nat else 0%nat in
    Write (EmitFill sink 48 (width spec - n)) (drop body text)
  else
    let align := if negb (align spec =? 0) then align spec else 62 in
    EmitAligned sink align (fill spec) n (width spec) (fun sink => Write sink text).

(** The types that print a bool or a char as an integer. *)
Definition is_integer_type (type : Z) : bool :=
  (type =? 100) || (type =? 120) || (type =? 88) || (type =? 111) || (type =? 98) || (type =? 66).

Definition FormatBool (sink : St) (v : bool) (spec : Spec) : St :=
  if is_integer_type (type spec) then FormatInteger sink (if v then 1 else 0) false spec
  else FormatString sink (if v then [116; 114; 117; 101] else [102; 97; 108; 115; 101]) spec.

Definition FormatPointer (sink : St) (p : Z) (spec : Spec) : St :=
  FormatInteger sink p false
    (mkSpec (fill spec) (align spec) 45 120 true (zero_pad spec) (width spec) (precision spec)).

Definition FormatArgValue (sink : St) (arg : Arg) (spec : Spec) : St :=
  match arg with
  | kBool b => FormatBool sink b spec
  | kChar c => if is_integer_type (type spec) then FormatInteger sink (u8 c) false spec
               else FormatString sink [c] spec
  | kI64 i =>
      let neg := i <? 0 in
      let abs := if neg then u64 (0 - u64 i) else u64 i in
      FormatInteger sink abs neg spec
  | kU64 u => FormatInteger sink u false spec
  | kF64 d => FormatFloat sink d spec
  | kCStr cstr => FormatString sink (match cstr with Some s => s | None => null_text end) spec
  | kStrSpan span => FormatString sink span spec
  | kU16Str None | kU32Str None => FormatString sink null_text spec
  | kU16Str (Some s) => FormatWideString sink spec (TranscodeUtf16 s)
  | kU32Str (Some s) => FormatWideString sink spec (TranscodeUtf32 s)
  | kPtr ptr => FormatPointer sink ptr spec
  | kNone => Write sink [40; 63; 41]
  end.

(** ** The driver *)

(** [while ( *p >= '0' && *p <= '9') idx = idx * 10 + ( *p - '0')], modulo [2^64]. *)
Fixpoint parse_index (p : list Z) (idx : Z) : list Z * Z :=
  match p with
  | c :: p' => if (48 <=? c) && (c <=? 57) then parse_index p' (u64 (idx * 10 + (c - 48))) else (p, idx)
  | [] => ([], idx)
  end.

(** The text before and from the first closing brace. *)
Fixpoint split_spec (p : list Z) : list Z * list Z :=
  match p with
  | c :: p' => if c =? 125 then ([], p) else let '(a, b) := split_spec p' in (c :: a, b)
  | [] => ([], [])
  end.

(** The literal run at the cursor. *)
Fixpoint split_literal (p : list Z) : list Z * list Z :=
  match p with
  | c :: p' => if (c =? 123) || (c =? 125) then ([], p) else let '(a, b) := split_literal p' in (c :: a, b)
  | [] => ([], [])
  end.

(** A replacement field after its opening brace: the rest of the format, the sink and
    the next automatic index. *)
Definition format_field (sink : St) (p : list Z) (args : list Arg) (auto_index : Z) : list Z * St * Z :=
  let explicit_idx := (48 <=? deref p) && (deref p <=? 57) in
  let '(p, idx) := if explicit_idx then parse_index p 0 else (p, auto_index) in
  let '(p, spec) :=
    match p with
    | c :: p' => if c =? 58 then let '(s, rest) := split_spec p' in (rest, ParseSpec s default_spec) else (p, default_spec)
    | [] => (p, default_spec)
    end in
  let p := if deref p =? 125 then List.tl p else p in
  if idx >=? Z.of_nat (length args) then (p, Write sink [123; 63; 125], auto_index)
  else (p, FormatArgValue sink (List.nth (Z.to_nat idx) args kNone) spec,
        if explicit_idx then auto_index else auto_index + 1).

Fixpoint format_loop (fuel : nat) (sink : St) (p : list Z) (args : list Arg) (auto_index : Z) : St :=
  match fuel with
  | O => sink
  | S fuel =>
      match p with
      | [] => sink
      | c :: p' =>
          if c =? 123 then
            if deref p' =? 123 then format_loop fuel (WriteChar sink 123) (List.tl p') args auto_index
            else
              let '(p, sink, auto_index) := format_field sink p' args auto_index in
              format_loop fuel sink p args auto_index
          else if c =? 125 then
            format_loop fuel (WriteChar sink 125) (if deref p' =? 125 then List.tl p' else p') args auto_index
          else
            let '(run, rest) := split_literal p in
            format_loop fuel (Write sink run) rest args auto_index
      end
  end.

Definition FormatCore (sink : St) (fmt : option (list Z)) (args : list Arg) : St :=
  match fmt with
  | None => sink
  | Some fmt => format_loop (S (length fmt)) sink fmt args 0
  end.
End Emit.

(** ** The two sinks of [format.h] *)

Record FixedBufferState := mkFixed { dst : list Z; capacity : nat; written : nat }.

Fixpoint copy_into (dst : list Z) (pos : nat) (data : list Z) : list Z :=
  match data with
  | [] => dst
  | c :: data => copy_into (<[pos := c]> dst) (S pos) data
  end.

#[export] Instance FixedBufferWrite : Sink FixedBufferState := fun s data =>
  let n := length data in
  if Nat.leb (capacity s) (written s) then mkFixed (dst s) (capacity s) (written s + n)
  else
    let room := (capacity s - written s)%nat in
    let copy := if Nat.ltb n room then n else room in
    mkFixed (copy_into (dst s) (written s) (take copy data)) (capacity s) (written s + n).

#[export] Instance StringWrite : Sink (list Z) := fun s data => s ++ data.

(** The buffer after the call and the returned length. *)
Definition FormatTo (buffer : list Z) (buffer_size : nat) (wide32 : bool) (fmt : option (list Z)) (args : list Value) : list Z * nat :=
  if Nat.eqb buffer_size 0 then (buffer, 0%nat)
  else
    let state := FormatCore (mkFixed buffer (buffer_size - 1) 0) fmt (map (MakeArg wide32) args) in
    let term := if Nat.ltb (written state) (capacity state) then written state else capacity state in
    (<[term := 0]> (dst state), written state).

Definition FormatTo_string (out : list Z) (wide32 : bool) (fmt : option (list Z)) (args : list Value) : list Z :=
  FormatCore out fmt (map (MakeArg wide32) args).

Definition Format (wide32 : bool) (fmt : option (list Z)) (args : list Value) : list Z :=
  FormatTo_string [] wide32 fmt args.
