(* ===== verification/FormatSpec.v ===== *)
(** * The text the formatter emits

    A reference semantics of [Format.v] as pure functions to text, and the theorems:
    every lawful sink receives that text, [FormatTo] behaves like [snprintf], the
    padding fills exactly the requested width, printed integers parse back, and a
    format string is the concatenation of its literals and fields. *)

From S2P Require Import Prelude IntParse FloatFormat FloatText Utf CodeConvert Format.

(** ** Reference texts *)

Definition fill_text (c n : Z) : list Z := replicate (Z.to_nat n) c.

Definition aligned_text (align fill body_len width : Z) (body : list Z) : list Z :=
  let pad := Z.max 0 (width - body_len) in
  if align =? 60 then body ++ fill_text fill pad
  else if align =? 94 then fill_text fill (pad / 2) ++ body ++ fill_text fill (pad - pad / 2)
  else fill_text fill pad ++ body.

Definition or_align (spec : Spec) (default : Z) : Z := if align spec =? 0 then default else align spec.

Definition string_text (data : list Z) (spec : Spec) : list Z :=
  let body := if 0 <=? precision spec then take (Z.to_nat (precision spec)) data else data in
  aligned_text (or_align spec 60) (fill spec) (i32 (Z.of_nat (length body))) (width spec) body.

Definition integer_text (abs : Z) (negative : bool) (spec : Spec) : list Z :=
  if type spec =? 99 then [u8 abs]
  else
    let head := sign_char negative (sign spec) ++ integer_prefix (type spec) (alt spec) in
    let digits := integer_digits abs (integer_base (type spec)) (type spec =? 88) in
    let len := Z.of_nat (length (head ++ digits)) in
    if zero_pad spec && (align spec =? 0) then head ++ fill_text 48 (width spec - len) ++ digits
    else aligned_text (or_align spec 62) (fill spec) len (width spec) (head ++ digits).

(** All the characters of a float conversion. *)
Definition float_chars (v type precision sign : Z) (alt : bool) : list Z :=
  fst (FormatFloatTo (snd (FormatFloatTo 0 v type precision sign alt)) v type precision sign alt).

Definition is_sign (c : Z) : bool := (c =? 45) || (c =? 43) || (c =? 32).

Definition float_text (v : Z) (spec : Spec) : list Z :=
  let type := if type spec =? 0 then (if 0 <=? precision spec then 102 else 103) else type spec in
  let text := float_chars v type (precision spec) (sign spec) (alt spec) in
  let n := i32 (Z.of_nat (length text)) in
  if zero_pad spec && (align spec =? 0) && (width spec >? n) then
    let head := if (n >? 0) && is_sign (deref text) then 1%nat else 0%nat in
    take head text ++ fill_text 48 (width spec - n) ++ drop head text
  else aligned_text (or_align spec 62) (fill spec) n (width spec) text.

(** The UTF-8 of wide text: what cannot be encoded is dropped. *)
Fixpoint wide16_text (src : list Z) : list Z :=
  match src with
  | [] => []
  | high :: src' =>
      if (0xD800 <=? high) && (high <=? 0xDBFF) && (0xDC00 <=? deref src') && (deref src' <=? 0xDFFF) then
        match src' with
        | low :: src'' => EncodeUtf8 (0x10000 + u32 (Z.shiftl (high - 0xD800) 10) + (low - 0xDC00)) ++ wide16_text src''
        | [] => []
        end
      else EncodeUtf8 high ++ wide16_text src'
  end.

Definition wide32_text (src : list Z) : list Z := concat (map EncodeUtf8 src).

Definition bool_text (v : bool) (spec : Spec) : list Z :=
  if is_integer_type (type spec) then integer_text (if v then 1 else 0) false spec
  else string_text (if v then [116; 114; 117; 101] else [102; 97; 108; 115; 101]) spec.

Definition pointer_spec (spec : Spec) : Spec :=
  mkSpec (fill spec) (align spec) 45 120 true (zero_pad spec) (width spec) (precision spec).

Definition arg_text (arg : Arg) (spec : Spec) : list Z :=
  match arg with
  | kBool b => bool_text b spec
  | kChar c => if is_integer_type (type spec) then integer_text (u8 c) false spec else string_text [c] spec
  | kI64 i => integer_text (if i <? 0 then u64 (0 - u64 i) else u64 i) (i <? 0) spec
  | kU64 u => integer_text u false spec
  | kF64 d => float_text d spec
  | kCStr cstr => string_text (match cstr with Some s => s | None => null_text end) spec
  | kStrSpan span => string_text span spec
  | kU16Str s => string_text (match s with Some s => wide16_text s | None => null_text end) spec
  | kU32Str s => string_text (match s with Some s => wide32_text s | None => null_text end) spec
  | kPtr ptr => integer_text ptr false (pointer_spec spec)
  | kNone => [40; 63; 41]
  end.

(** ** Every lawful sink receives the reference text *)

Lemma quot_half pad : 0 <= pad -> Z.quot pad 2 = pad / 2.
Proof. intros. apply Z.quot_div_nonneg; lia. Qed.

Section Sink.
Context {St : Type} `{LawfulSink St}.
Implicit Types (s : St).

Lemma Write_text s t : Write s t = write_fn s t.
Proof. unfold Write. destruct (Nat.eqb_spec (length t) 0); [|done]. destruct t; [by rewrite write_nil|done]. Qed.

Lemma fill_loop_text fuel s c n :
  (Z.to_nat n < fuel)%nat -> fill_loop fuel s c n = write_fn s (fill_text c n).
Proof.
  revert s n. induction fuel as [|fuel IH]; intros s n Hf; [lia|]. cbn [fill_loop]. rewrite !Z.gtb_ltb.
  unfold fill_text in *. destruct (Z.ltb_spec 0 n).
  2: { replace (Z.to_nat n) with 0%nat by lia. by rewrite write_nil. }
  set (chunk := if 32 <? n then 32 else n).
  assert (0 < chunk <= n) by (unfold chunk; case_if; lia).
  rewrite IH, Write_text, <- write_app, <- replicate_add by lia. do 2 f_equal. lia.
Qed.

Lemma EmitFill_text s c n : EmitFill s c n = write_fn s (fill_text c n).
Proof. apply fill_loop_text. lia. Qed.

Lemma fill_text_0 c n : n <= 0 -> fill_text c n = [].
Proof. intros. unfold fill_text. by replace (Z.to_nat n) with 0%nat by lia. Qed.

Lemma EmitAligned_text s align fill len width (body_writer : St -> St) body :
  (forall s, body_writer s = write_fn s body) ->
  EmitAligned s align fill len width body_writer = write_fn s (aligned_text align fill len width body).
Proof.
  intros Hb. unfold EmitAligned, aligned_text. cbn zeta. rewrite Z.gtb_ltb.
  replace (if len <? width then width - len else 0) with (Z.max 0 (width - len)) by (destruct (Z.ltb_spec len width); lia).
  set (pad := Z.max 0 (width - len)). assert (0 <= pad) by (unfold pad; lia).
  destruct (Z.eqb_spec pad 0) as [E|_].
  - rewrite E, Hb. change (0 / 2) with 0. rewrite !fill_text_0, !app_nil_r by lia. by repeat case_if.
  - rewrite quot_half by done. by repeat case_if; rewrite !EmitFill_text, ?Hb, <- ?write_app, <- ?app_assoc, ?EmitFill_text, <- ?write_app, <- ?app_assoc.
Qed.

Lemma or_align_eq spec d : (if negb (align spec =? 0) then align spec else d) = or_align spec d.
Proof. unfold or_align. by destruct (align spec =? 0). Qed.

(** The precision cuts the text. *)
Lemma cut_text (data : list Z) p :
  let l := Z.of_nat (length data) in
  let n := if (0 <=? p) && (p <? l) then p else l in
  let body := if 0 <=? p then take (Z.to_nat p) data else data in
  take (Z.to_nat n) data = body /\ n = Z.of_nat (length body).
Proof.
  cbn zeta. destruct (Z.leb_spec 0 p); cbn [andb].
  - rewrite length_take. destruct (Z.ltb_spec p (Z.of_nat (length data))); [split; [done|lia]|].
    rewrite !take_ge by lia. split; [done|lia].
  - rewrite take_ge by lia. done.
Qed.

Lemma FormatString_text s data spec : FormatString s data spec = write_fn s (string_text data spec).
Proof.
  unfold FormatString, string_text. cbn zeta. rewrite or_align_eq, Z.gtb_ltb.
  destruct (cut_text data (precision spec)) as [E1 E2]. cbn zeta in E1, E2. rewrite E1, E2.
  apply EmitAligned_text. intros s'. apply Write_text.
Qed.

Lemma fold_WriteChar t s : fold_left WriteChar t s = write_fn s t.
Proof.
  revert s. induction t as [|c t IH]; intros s; cbn [fold_left]; [by rewrite write_nil|].
  rewrite IH. unfold WriteChar. by rewrite <- write_app.
Qed.

Lemma FormatInteger_text s abs negative spec :
  FormatInteger s abs negative spec = write_fn s (integer_text abs negative spec).
Proof.
  unfold FormatInteger, integer_text. cbn zeta. destruct (type spec =? 99); [done|].
  rewrite or_align_eq, !length_app, Z.gtb_ltb.
  set (sg := sign_char _ _). set (pre := integer_prefix _ _). set (ds := integer_digits _ _ _).
  set (len := Z.of_nat _). assert (B : forall s, fold_left WriteChar ds (Write (Write s sg) pre) = write_fn s ((sg ++ pre) ++ ds)).
  { intros s'. by rewrite fold_WriteChar, !Write_text, <- !write_app, app_assoc. }
  destruct (zero_pad spec && (align spec =? 0)) eqn:E; cbn [andb].
  - destruct (Z.ltb_spec len (width spec)).
    + by rewrite fold_WriteChar, EmitFill_text, !Write_text, <- !write_app, <- !app_assoc.
    + apply andb_true_iff in E as [_ E]. apply Z.eqb_eq in E. unfold or_align. rewrite E. cbn [Z.eqb].
      rewrite (EmitAligned_text _ _ _ _ _ _ ((sg ++ pre) ++ ds)) by done.
      unfold aligned_text. cbn zeta. change (62 =? 60) with false. change (62 =? 94) with false. cbn [Z.eqb].
      rewrite !fill_text_0 by lia. done.
  - by apply EmitAligned_text.
Qed.

Lemma float_chars_emitted v type precision sign alt cap :
  0 <= cap -> FormatFloatTo cap v type precision sign alt = emitted cap (float_chars v type precision sign alt).
Proof.
  intros Hc. destruct (FormatFloatTo_text v type precision sign alt) as [t Ht]. rewrite Ht by done. f_equal.
  unfold float_chars. rewrite (Ht 0) by lia. unfold emitted. cbn [snd]. rewrite Ht by lia.
  unfold emitted. cbn [fst]. by rewrite Nat2Z.id, take_ge.
Qed.

Lemma FormatFloat_text s v spec : FormatFloat s v spec = write_fn s (float_text v spec).
Proof.
  unfold FormatFloat, float_text. cbn zeta. set (ty := if type spec =? 0 then _ else _).
  rewrite (float_chars_emitted v ty _ _ _ kFloatFormatBufferSize) by (unfold kFloatFormatBufferSize; lia).
  set (t := float_chars _ _ _ _ _). unfold emitted at 1. cbn beta iota.
  assert (E : (if Z.of_nat (length t) >? kFloatFormatBufferSize
    then fst (FormatFloatTo (Z.of_nat (length t)) v ty (precision spec) (sign spec) (alt spec))
    else take (Z.to_nat kFloatFormatBufferSize) t) = t).
  { rewrite Z.gtb_ltb. destruct (Z.ltb_spec kFloatFormatBufferSize (Z.of_nat (length t))).
    - rewrite float_chars_emitted by lia. fold t. unfold emitted. cbn [fst]. by rewrite Nat2Z.id, take_ge.
    - by rewrite take_ge by lia. }
  rewrite E, or_align_eq. fold (is_sign (deref t)). destruct (_ && (_ >? _)).
  - set (signed := (_ >? 0) && is_sign (deref t)).
    assert (Hs : (if signed then WriteChar s (deref t) else s) = write_fn s (take (if signed then 1%nat else 0%nat) t)).
    { destruct signed eqn:Es; [|by rewrite write_nil]. unfold WriteChar. unfold signed in Es. destruct t; [done|done]. }
    by rewrite Hs, Write_text, EmitFill_text, <- !write_app, <- ?app_assoc.
  - apply EmitAligned_text. intros s'. apply Write_text.
Qed.

(** *** Wide text *)

Lemma store_spec out cap tmp written :
  out = take (Z.to_nat cap) out -> length out = Nat.min (Z.to_nat cap) (Z.to_nat written) -> 0 <= written -> 0 <= cap ->
  store out written cap tmp = (out ++ take (Z.to_nat (cap - written)) tmp, written + Z.of_nat (length tmp)).
Proof.
  unfold store. revert out written. induction tmp as [|c tmp IH]; intros out written Ho Hl Hw Hc; cbn [fold_left length].
  { rewrite take_nil, app_nil_r. f_equal. lia. }
  destruct (Z.ltb_spec written cap).
  - rewrite IH; [|rewrite take_ge; [done|rewrite length_app; cbn [length]; lia]|rewrite length_app; cbn [length]; lia|lia|lia].
    replace (Z.to_nat (cap - written)) with (S (Z.to_nat (cap - (written + 1)))) by lia.
    cbn [take]. rewrite <- app_assoc. f_equal. lia.
  - rewrite IH; [|done|lia|lia|lia]. replace (Z.to_nat (cap - written)) with 0%nat by lia.
    replace (Z.to_nat (cap - (written + 1))) with 0%nat by lia. f_equal. lia.
Qed.

(** The stored prefix of a growing output. *)
Definition stored (cap : Z) (t : list Z) : list Z * Z := (take (Z.to_nat cap) t, Z.of_nat (length t)).

Lemma store_stored cap t tmp :
  0 <= cap -> store (take (Z.to_nat cap) t) (Z.of_nat (length t)) cap tmp = stored cap (t ++ tmp).
Proof.
  intros Hc. rewrite store_spec; [|by rewrite take_take, Nat.min_id|rewrite length_take; lia|lia|done].
  unfold stored. rewrite length_app, take_app. f_equal; [|lia]. do 2 f_equal. lia.
Qed.

Lemma transcode16_loop_spec fuel src cap t :
  (length src <= fuel)%nat -> 0 <= cap ->
  transcode16_loop src cap (take (Z.to_nat cap) t) (Z.of_nat (length t)) = stored cap (t ++ wide16_text src).
Proof.
  intros Hf Hc. revert src t Hf. induction fuel as [|fuel IH]; intros [|high src] t Hf; cbn [length] in Hf; try lia;
    cbn [transcode16_loop wide16_text]; try (by rewrite app_nil_r).
  destruct (_ && _).
  - destruct src as [|low src]; [by rewrite app_nil_r|]. rewrite store_stored by done. unfold stored at 1.
    cbn [length] in Hf. rewrite IH by lia. by rewrite <- app_assoc.
  - rewrite store_stored by done. unfold stored at 1. rewrite IH by lia. by rewrite <- app_assoc.
Qed.

Lemma TranscodeUtf16_spec src cap : 0 <= cap -> TranscodeUtf16 src cap = stored cap (wide16_text src).
Proof.
  intros Hc. unfold TranscodeUtf16. pose proof (transcode16_loop_spec (length src) src cap [] ltac:(lia) Hc) as X.
  rewrite take_nil in X. exact X.
Qed.

Lemma transcode32_loop_spec src cap t :
  0 <= cap -> transcode32_loop src cap (take (Z.to_nat cap) t) (Z.of_nat (length t)) = stored cap (t ++ wide32_text src).
Proof.
  intros Hc. revert t. induction src as [|c src IH]; intros t; cbn [transcode32_loop]; [by rewrite app_nil_r|].
  rewrite store_stored by done. unfold stored at 1. rewrite IH. by rewrite <- app_assoc.
Qed.

Lemma TranscodeUtf32_spec src cap : 0 <= cap -> TranscodeUtf32 src cap = stored cap (wide32_text src).
Proof.
  intros Hc. unfold TranscodeUtf32. pose proof (transcode32_loop_spec src cap [] Hc) as X. rewrite take_nil in X. exact X.
Qed.

Lemma FormatWideString_text s spec transcode t :
  (forall cap, 0 <= cap -> transcode cap = stored cap t) ->
  FormatWideString s spec transcode = write_fn s (string_text t spec).
Proof.
  intros Ht. unfold FormatWideString. rewrite Ht by lia. unfold stored.
  destruct (Z.leb_spec (Z.of_nat (length t)) 256).
  - rewrite FormatString_text, take_ge by lia. done.
  - rewrite Ht by lia. unfold stored. rewrite FormatString_text, take_ge by lia. done.
Qed.

Lemma FormatArgValue_text s arg spec : FormatArgValue s arg spec = write_fn s (arg_text arg spec).
Proof.
  destruct arg as [|b|c|i|u|d|cstr|span|[w|]|[w|]|p]; cbn [FormatArgValue arg_text].
  - apply Write_text.
  - unfold FormatBool, bool_text. destruct (is_integer_type _); [apply FormatInteger_text|apply FormatString_text].
  - destruct (is_integer_type _); [apply FormatInteger_text|apply FormatString_text].
  - apply FormatInteger_text.
  - apply FormatInteger_text.
  - apply FormatFloat_text.
  - apply FormatString_text.
  - apply FormatString_text.
  - apply FormatWideString_text. apply TranscodeUtf16_spec.
  - apply FormatString_text.
  - apply FormatWideString_text. apply TranscodeUtf32_spec.
  - apply FormatString_text.
  - apply FormatInteger_text.
Qed.

End Sink.

(** *** The two sinks are lawful *)

#[export] Instance string_lawful : LawfulSink (list Z).
Proof. split; intros s; [exact (app_nil_r s)|intros a b; exact (app_assoc s a b)]. Qed.

Lemma copy_into_app d pos a b : copy_into d pos (a ++ b) = copy_into (copy_into d pos a) (pos + length a) b.
Proof.
  revert d pos. induction a as [|c a IH]; intros d pos; cbn [copy_into app length]; [by rewrite Nat.add_0_r|].
  rewrite IH. f_equal. lia.
Qed.

Lemma FixedBufferWrite_eq s data :
  write_fn s data = mkFixed (copy_into (dst s) (written s) (take (capacity s - written s) data)) (capacity s) (written s + length data).
Proof.
  destruct s as [d cap w]. unfold write_fn, FixedBufferWrite. cbn [dst capacity written].
  destruct (Nat.leb_spec cap w).
  - by replace (cap - w)%nat with 0%nat by lia.
  - f_equal. f_equal. destruct (Nat.ltb_spec (length data) (cap - w)); [|done]. rewrite !take_ge by lia. done.
Qed.

#[export] Instance fixed_lawful : LawfulSink FixedBufferState.
Proof.
  split; [intros [d cap w]; rewrite FixedBufferWrite_eq; cbn; by rewrite take_nil, Nat.add_0_r|].
  intros [d cap w] a b. rewrite !FixedBufferWrite_eq. cbn [dst capacity written]. rewrite length_app, Nat.add_assoc. f_equal.
  rewrite take_app, copy_into_app. destruct (Nat.le_gt_cases (length a) (cap - w)).
  - rewrite (take_ge a) by lia. by replace (cap - w - length a)%nat with (cap - (w + length a))%nat by lia.
  - replace (cap - w - length a)%nat with 0%nat by lia. replace (cap - (w + length a))%nat with 0%nat by lia. done.
Qed.

(** *** The driver *)

(** What a format string yields. *)
Definition format_text (fmt : list Z) (args : list Arg) : list Z := FormatCore [] (Some fmt) args.

Section Driver.
Context {St : Type} `{LawfulSink St}.

Lemma format_field_text p args auto_index :
  exists q t j,
    (forall s : St, format_field s p args auto_index = (q, write_fn s t, j)) /\
    (forall s : list Z, format_field s p args auto_index = (q, s ++ t, j)).
Proof.
  unfold format_field. cbn zeta. destruct (if _ && _ then parse_index p 0 else _) as [p1 idx].
  destruct (match p1 with [] => _ | _ :: _ => _ end) as [p2 spec].
  destruct (idx >=? _); eexists _, _, _; split; intros s; rewrite ?Write_text, ?FormatArgValue_text; reflexivity.
Qed.

Lemma format_loop_text fuel p args auto_index :
  exists u, (forall s : St, format_loop fuel s p args auto_index = write_fn s u) /\
            (forall s : list Z, format_loop fuel s p args auto_index = s ++ u).
Proof.
  revert p auto_index. induction fuel as [|fuel IH]; intros p i; cbn [format_loop].
  { exists []. split; intros s; [by rewrite write_nil|by rewrite app_nil_r]. }
  destruct p as [|c p].
  { exists []. split; intros s; [by rewrite write_nil|by rewrite app_nil_r]. }
  destruct (c =? 123); [destruct (deref p =? 123)|destruct (c =? 125)].
  - destruct (IH (List.tl p) i) as (u & U1 & U2). exists ([123] ++ u).
    split; intros s; [by rewrite U1, write_app|by rewrite U2, app_assoc].
  - destruct (format_field_text p args i) as (q & t & j & F1 & F2). destruct (IH q j) as (u & U1 & U2). exists (t ++ u).
    split; intros s; [by rewrite F1, U1, write_app|by rewrite F2, U2, app_assoc].
  - destruct (IH (if deref p =? 125 then List.tl p else p) i) as (u & U1 & U2). exists ([125] ++ u).
    split; intros s; [by rewrite U1, write_app|by rewrite U2, app_assoc].
  - destruct (split_literal (c :: p)) as [run rest]. destruct (IH rest i) as (u & U1 & U2). exists (run ++ u).
    split; intros s; rewrite Write_text; [by rewrite U1, write_app|by rewrite U2, app_assoc].
Qed.

Lemma FormatCore_text (s : St) fmt args : FormatCore s (Some fmt) args = write_fn s (format_text fmt args).
Proof.
  unfold format_text, FormatCore. destruct (format_loop_text (S (length fmt)) fmt args 0) as (u & U1 & U2).
  by rewrite U1, U2.
Qed.
End Driver.

(** ** [FormatTo] has the contract of [snprintf] *)

Lemma copy_into_middle pre old post data :
  length old = length data -> copy_into (pre ++ old ++ post) (length pre) data = pre ++ data ++ post.
Proof.
  revert pre old. induction data as [|c data IH]; intros pre [|x old] Hl; try done. cbn [copy_into app].
  rewrite insert_app_r_alt by lia. rewrite Nat.sub_diag. cbn [insert list_insert].
  pose proof (IH (pre ++ [c]) old ltac:(cbn in Hl; lia)) as X.
  rewrite length_app, Nat.add_1_r, <- !app_assoc in X. exact X.
Qed.

Lemma copy_into_spec d pos data :
  (pos + length data <= length d)%nat ->
  copy_into d pos data = take pos d ++ data ++ drop (pos + length data) d.
Proof.
  intros Hl. pose proof (copy_into_middle (take pos d) (take (length data) (drop pos d)) (drop (pos + length data) d) data) as X.
  rewrite (length_take_le d pos), length_take, length_drop in X by lia. rewrite <- drop_drop, !take_drop in X.
  rewrite X by lia. by rewrite drop_drop.
Qed.

Lemma FormatTo_snprintf_ok buffer wide32 fmt args :
  buffer <> [] ->
  let text := Format wide32 (Some fmt) args in
  let kept := Nat.min (length text) (length buffer - 1) in
  FormatTo buffer (length buffer) wide32 (Some fmt) args =
    (take kept text ++ [0] ++ drop (S kept) buffer, length text).
Proof.
  intros Hne text kept. assert (Hl : (0 < length buffer)%nat) by (destruct buffer; [done|cbn; lia]).
  unfold FormatTo. destruct (Nat.eqb_spec (length buffer) 0); [lia|]. cbn zeta.
  rewrite FormatCore_text, FixedBufferWrite_eq. cbn [dst capacity written]. rewrite Nat.sub_0_r.
  change (format_text fmt (map (MakeArg wide32) args)) with text. rewrite Nat.add_0_l.
  assert (Hk : take (length buffer - 1) text = take kept text).
  { unfold kept. destruct (Nat.le_gt_cases (length text) (length buffer - 1)).
    - rewrite Nat.min_l, !take_ge by lia. done.
    - by rewrite Nat.min_r by lia. }
  rewrite Hk. assert (Hlk : length (take kept text) = kept) by (rewrite length_take; unfold kept; lia).
  replace (if Nat.ltb (length text) (length buffer - 1) then length text else (length buffer - 1)%nat) with kept
    by (unfold kept; destruct (Nat.ltb_spec (length text) (length buffer - 1)); lia).
  rewrite copy_into_spec by lia. cbn [take app]. rewrite Nat.add_0_l, Hlk. f_equal.
  change (take 0 buffer) with (@nil Z). cbn [app]. rewrite insert_app_r_alt by lia. rewrite Hlk, Nat.sub_diag. f_equal.
  assert (Hb : (kept < length buffer)%nat) by (unfold kept; lia).
  destruct (drop kept buffer) as [|c rest] eqn:E.
  { apply (f_equal length) in E. rewrite length_drop in E. cbn in E. lia. }
  replace (S kept) with (kept + 1)%nat by lia. by rewrite <- drop_drop, E.
Qed.



(** ** Padding *)

Definition set_width (spec : Spec) (w : Z) : Spec :=
  mkSpec (fill spec) (align spec) (sign spec) (type spec) (alt spec) (zero_pad spec) w (precision spec).

(** The arguments that are printed as numbers: aligned right, and zero-padded, by default. *)
Definition is_numeric (arg : Arg) (spec : Spec) : bool :=
  match arg with
  | kI64 _ | kU64 _ | kF64 _ | kPtr _ => true
  | kBool _ | kChar _ => is_integer_type (type spec)
  | _ => false
  end.

(** How a body is placed in its field: [l] fill characters before it and [r] after. *)
Definition placed (a w len l r : Z) : Prop :=
  0 <= l /\ 0 <= r /\ l + r = Z.max 0 (w - len) /\
  (a = 60 -> l = 0) /\ (a = 94 -> l = (l + r) / 2) /\ (a <> 60 -> a <> 94 -> r = 0).

Lemma aligned_text_placed a fl w len body :
  exists l r, aligned_text a fl len w body = fill_text fl l ++ body ++ fill_text fl r /\ placed a w len l r.
Proof.
  unfold aligned_text, placed. cbn zeta. set (pad := Z.max 0 (w - len)). assert (0 <= pad) by (unfold pad; lia).
  destruct (Z.eqb_spec a 60); [|destruct (Z.eqb_spec a 94)].
  - exists 0, pad. split; [done|]. repeat split; lia.
  - exists (pad / 2), (pad - pad / 2). split; [done|]. replace (pad / 2 + (pad - pad / 2)) with pad by lia.
    repeat split; try dlia.
  - exists pad, 0. split; [by rewrite (fill_text_0 fl 0), app_nil_r by lia|]. repeat split; lia.
Qed.

Lemma aligned_text_0 a fl len body : 0 <= len -> aligned_text a fl len 0 body = body.
Proof.
  intros Hl. destruct (aligned_text_placed a fl 0 len body) as (l & r & -> & Hl0 & Hr0 & E & _).
  by rewrite !fill_text_0, app_nil_r by lia.
Qed.

Lemma i32_small n : 0 <= n < 2 ^ 31 -> i32 n = n.
Proof. intros. apply swrap_small; [lia|]. change (2 ^ (32 - 1)) with (2 ^ 31). lia. Qed.

(** What a field of some width makes of a body. *)
Definition pads (text : Spec -> list Z) (numeric : bool) (spec : Spec) : Prop :=
  let body := text (set_width spec 0) in
  let len := Z.of_nat (length body) in
  len < 2 ^ 31 ->
  if numeric && zero_pad spec && (align spec =? 0) then
    exists h t, body = h ++ t /\ text spec = h ++ fill_text 48 (width spec - len) ++ t /\
      (length h <= 3)%nat /\ (is_sign (deref body) = true -> h <> [])
  else
    exists l r, text spec = fill_text (fill spec) l ++ body ++ fill_text (fill spec) r /\
      placed (or_align spec (if numeric then 62 else 60)) (width spec) len l r.

(** An aligned body of known length, given its text at width zero. *)
Lemma aligned_pads a fl body w :
  let t0 := aligned_text a fl (i32 (Z.of_nat (length body))) 0 body in
  Z.of_nat (length t0) < 2 ^ 31 ->
  t0 = body /\
  exists l r, aligned_text a fl (i32 (Z.of_nat (length body))) w body = fill_text fl l ++ body ++ fill_text fl r /\
    placed a w (Z.of_nat (length body)) l r.
Proof.
  cbn zeta. intros Hl.
  destruct (aligned_text_placed a fl 0 (i32 (Z.of_nat (length body))) body) as (l & r & E & _).
  assert (Hb : Z.of_nat (length body) < 2 ^ 31) by (rewrite E, !length_app in Hl; lia).
  rewrite i32_small in * by lia. split; [by apply aligned_text_0; lia|]. apply aligned_text_placed.
Qed.

Lemma string_text_pads data spec : pads (string_text data) false spec.
Proof.
  unfold pads. cbn [andb]. intros Hl.
  set (body := if 0 <=? precision spec then take (Z.to_nat (precision spec)) data else data).
  destruct (aligned_pads (or_align spec 60) (fill spec) body (width spec) Hl) as [E (l & r & E2 & P)].
  exists l, r. change (string_text data (set_width spec 0)) with (aligned_text (or_align spec 60) (fill spec) (i32 (Z.of_nat (length body))) 0 body).
  rewrite E. split; [exact E2|exact P].
Qed.

Lemma float_text_pads v spec : pads (float_text v) true spec.
Proof.
  unfold pads. intros Hl. unfold float_text in *. cbn [set_width precision fill align width zero_pad type sign alt] in *.
  set (ty := if type spec =? 0 then _ else _) in *. set (t := float_chars _ _ _ _ _) in *.
  assert (Hb : Z.of_nat (length t) < 2 ^ 31).
  { destruct (zero_pad spec && (align spec =? 0) && (0 >? i32 (Z.of_nat (length t)))).
    - set (k := if _ && is_sign _ then 1%nat else 0%nat) in Hl. rewrite <- (take_drop k t), length_app. rewrite !length_app in Hl. lia.
    - destruct (aligned_text_placed (or_align (set_width spec 0) 62) (fill spec) 0 (i32 (Z.of_nat (length t))) t) as (l & r & E & _).
      rewrite E, !length_app in Hl. lia. }
  rewrite i32_small in * by lia. rewrite (Z.gtb_ltb 0), (proj2 (Z.ltb_ge (Z.of_nat (length t)) 0)), andb_false_r in * by lia.
  rewrite aligned_text_0 in * by lia. cbn [andb]. destruct (zero_pad spec && (align spec =? 0)) eqn:Ez; cbn [andb].
  - rewrite Z.gtb_ltb. set (head := if (Z.of_nat (length t) >? 0) && is_sign (deref t) then 1%nat else 0%nat).
    assert (Hh : is_sign (deref t) = true -> take head t <> []).
    { unfold head. intros Es. rewrite Es. destruct t as [|c t]; [done|]. cbn [length]. by rewrite (proj2 (Z.gtb_lt _ 0)) by lia. }
    exists (take head t), (drop head t). rewrite take_drop. split; [done|].
    split; [|split; [rewrite length_take; unfold head; case_if; lia|done]].
    destruct (Z.ltb_spec (Z.of_nat (length t)) (width spec)); [done|].
    rewrite fill_text_0 by lia. cbn [app]. rewrite take_drop. apply andb_true_iff in Ez as [_ Ez]. bprop.
    unfold or_align. rewrite Ez. cbn [Z.eqb].
    destruct (aligned_text_placed 62 (fill spec) (width spec) (Z.of_nat (length t)) t) as (l & r & -> & P1 & P2 & P3 & _).
    by rewrite !fill_text_0, app_nil_r by lia.
  - apply aligned_text_placed.
Qed.

Lemma integer_prefix_length ty al : (length (integer_prefix ty al) <= 2)%nat.
Proof. unfold integer_prefix. repeat case_if; cbn; lia. Qed.

Lemma sign_char_length n sg : (length (sign_char n sg) <= 1)%nat.
Proof. unfold sign_char. repeat case_if; cbn; lia. Qed.

Lemma integer_digits_head abs base upper :
  0 <= abs -> 2 <= base -> is_sign (deref (integer_digits abs base upper)) = false.
Proof.
  intros Ha Hb. unfold integer_digits. destruct (abs =? 0); [done|].
  assert (A : Forall (fun c => is_sign c = false) (rev (digit_loop 64 abs base upper))).
  { apply Forall_rev. revert abs Ha. generalize 64%nat as n. induction n as [|n IH]; intros abs Ha; cbn [digit_loop]; [constructor|].
    destruct (abs =? 0); [constructor|]. constructor; [|apply IH; apply Z.div_pos; lia].
    pose proof (Z.mod_pos_bound abs base ltac:(lia)). unfold is_sign. rewrite !orb_false_iff, !Z.eqb_neq.
    destruct upper; case_if; lia. }
  destruct A; done.
Qed.

Lemma integer_text_pads abs negative spec :
  0 <= abs -> type spec <> 99 -> pads (integer_text abs negative) true spec.
Proof.
  intros Ha Ht. unfold pads, integer_text. cbn [set_width precision fill align width zero_pad type sign alt].
  rewrite (proj2 (Z.eqb_neq (type spec) 99)) by done. cbn zeta.
  pose proof (sign_char_length negative (sign spec)). pose proof (integer_prefix_length (type spec) (alt spec)).
  pose proof (integer_digits_head abs (integer_base (type spec)) (type spec =? 88) Ha ltac:(unfold integer_base; repeat case_if; lia)) as Hd.
  set (ds := integer_digits _ _ _) in *. set (head := sign_char _ _ ++ integer_prefix _ _).
  assert (Hh : is_sign (deref (head ++ ds)) = true -> head <> []).
  { intros E En. rewrite En in E. cbn [app] in E. congruence. }
  cbn [andb]. intros _. destruct (zero_pad spec && (align spec =? 0)).
  - rewrite (fill_text_0 48 (0 - _)) by lia. cbn [app]. exists head, ds. split; [done|]. split; [done|].
    split; [unfold head; rewrite length_app; lia|done].
  - rewrite aligned_text_0 by lia. apply aligned_text_placed.
Qed.

(** Field widths: at every width the text of an argument is its text at width
    zero placed in the field: filled up on the left for [>], on the right for [<],
    evenly for [^] (the odd character on the right), numbers defaulting to the right
    and strings to the left; a zero-padded number gets its zeros after sign and
    prefix. *)
Theorem format_width {St} `{LawfulSink St} (s : St) arg spec :
  arg <> kNone -> type spec <> 99 ->
  match arg with kBool _ | kChar _ => True | kU64 u => 0 <= u | kPtr p => 0 <= p | _ => True end ->
  exists text : Spec -> list Z,
    (forall w, FormatArgValue s arg (set_width spec w) = write_fn s (text (set_width spec w))) /\
    FormatArgValue s arg spec = write_fn s (text spec) /\
    pads text (is_numeric arg spec) spec.
Proof.
  intros Hn Ht Hr. exists (arg_text arg). split; [intros w; apply FormatArgValue_text|].
  split; [apply FormatArgValue_text|].
  destruct arg as [|b|c|i|u|d|cstr|span|w|w|p]; try done; cbn [arg_text is_numeric].
  - pose proof (integer_text_pads (if b then 1 else 0) false spec ltac:(by destruct b) Ht) as X.
    pose proof (string_text_pads (if b then [116; 114; 117; 101] else [102; 97; 108; 115; 101]) spec) as Y.
    unfold pads in *. cbn [arg_text is_numeric]. unfold bool_text. change (type (set_width spec 0)) with (type spec).
    destruct (is_integer_type (type spec)); [exact X|exact Y].
  - pose proof (integer_text_pads (u8 c) false spec ltac:(by apply wrap_range) Ht) as X.
    pose proof (string_text_pads [c] spec) as Y.
    unfold pads in *. cbn [arg_text is_numeric]. change (type (set_width spec 0)) with (type spec).
    destruct (is_integer_type (type spec)); [exact X|exact Y].
  - unfold pads. cbn [arg_text]. apply integer_text_pads; [destruct (i <? 0); by apply wrap_range|done].
  - by apply integer_text_pads.
  - apply float_text_pads.
  - apply string_text_pads.
  - apply string_text_pads.
  - apply string_text_pads.
  - apply string_text_pads.
  - pose proof (integer_text_pads p false (pointer_spec spec) Hr ltac:(done)) as X. exact X.
Qed.

Lemma format_width_witness :
  exists text : Spec -> list Z,
    (forall w, FormatArgValue ([] : list Z) (kI64 (-42)) (set_width (mkSpec 42 94 45 0 false false 8 (-1)) w)
       = write_fn [] (text (set_width (mkSpec 42 94 45 0 false false 8 (-1)) w))) /\
    FormatArgValue ([] : list Z) (kI64 (-42)) (mkSpec 42 94 45 0 false false 8 (-1)) = write_fn [] (text (mkSpec 42 94 45 0 false false 8 (-1))) /\
    pads text true (mkSpec 42 94 45 0 false false 8 (-1)).
Proof. apply (format_width (St := list Z) [] (kI64 (-42)) (mkSpec 42 94 45 0 false false 8 (-1))); [done|done|exact I]. Defined.

(** ** Wide strings *)

Lemma EncodeUtf8_utf8 c : scalar c -> EncodeUtf8 c = utf8 c.
Proof.
  intros Hc. unfold EncodeUtf8, utf8. unfold scalar in Hc. rewrite !shiftr_div, !land_3f by lia.
  change 0x80 with (Z.shiftl 2 6). change 0xC0 with (Z.shiftl 3 6). change 0xE0 with (Z.shiftl 14 4). change 0xF0 with (Z.shiftl 30 3).
  change (2 ^ 6) with 64. change (2 ^ 12) with 4096. change (2 ^ 18) with 262144.
  repeat case_if; rewrite ?lor_disjoint_add by dlia; rewrite ?(wrap_small 8) by (unfold fits; dlia); try done; lia.
Qed.

Lemma wide16_utf8 cs : Forall scalar cs -> wide16_text (utf16_text cs) = utf8_text cs.
Proof.
  induction 1 as [|c cs Hc Hcs IH]; [done|]. change (utf16_text (c :: cs)) with (utf16 c ++ utf16_text cs).
  change (utf8_text (c :: cs)) with (utf8 c ++ utf8_text cs). rewrite <- (EncodeUtf8_utf8 c Hc), <- IH.
  destruct (scalar_utf16_shape c Hc) as [u Hu|l t Hl Ht]; cbn [app wide16_text deref List.hd].
  - rewrite (proj2 (andb_false_iff ((55296 <=? u)) (u <=? 56319))); [done|]. rewrite !Z.leb_gt. lia.
  - rewrite !(proj2 (Z.leb_le _ _)) by lia. cbn [andb]. do 2 f_equal.
    rewrite GET_SUPPLEMENTARY_value, Z.shiftl_mul_pow2 by lia. change (2 ^ 10) with 1024. rewrite wrap_small; [lia|].
    unfold fits. pow_lit. lia.
Qed.

Lemma wide32_utf8 cs : Forall scalar cs -> wide32_text cs = utf8_text cs.
Proof.
  induction 1 as [|c cs Hc _ IH]; [done|]. unfold wide32_text, utf8_text in *. cbn [map concat]. by rewrite EncodeUtf8_utf8, IH.
Qed.

(** Wide strings: a UTF-16 or UTF-32 argument of scalar values is formatted as the
    narrow string of its UTF-8 encoding, precision, width and alignment included,
    whether or not it fits the 256-byte buffer of the first pass. *)
Theorem format_wide {St} `{LawfulSink St} (s : St) cs spec :
  Forall scalar cs ->
  FormatArgValue s (kU16Str (Some (utf16_text cs))) spec = FormatArgValue s (kStrSpan (utf8_text cs)) spec /\
  FormatArgValue s (kU32Str (Some cs)) spec = FormatArgValue s (kStrSpan (utf8_text cs)) spec.
Proof.
  intros Hc. rewrite !FormatArgValue_text. cbn [arg_text]. by rewrite wide16_utf8, wide32_utf8.
Qed.

Lemma format_wide_witness :
  FormatArgValue ([] : list Z) (kU16Str (Some (utf16_text sample))) default_spec = FormatArgValue [] (kStrSpan (utf8_text sample)) default_spec /\
  FormatArgValue ([] : list Z) (kU32Str (Some sample)) default_spec = FormatArgValue [] (kStrSpan (utf8_text sample)) default_spec.
Proof. apply (format_wide (St := list Z)). exact sample_scalar. Defined.
