(* ===== verification/FormatParse.v ===== *)
(** * Printed integers parse back

    The formatter of [Format.v] against the parsers of [IntParse.v]: whatever the
    sign, radix, prefix, fill and alignment, the text of an integer is read back as
    that integer. *)

From S2P Require Import Prelude IntParse FloatFormat Format FormatSpec.

(** ** Digit characters *)

Definition dchar (upper : bool) (d : Z) : Z := if d <? 10 then 48 + d else (if upper then 65 else 97) + d - 10.

Lemma DigitValue_dchar upper d radix : 0 <= d < radix -> radix <= 36 -> DigitValue (dchar upper d) radix = d.
Proof. intros Hd Hr. unfold DigitValue, dchar. destruct upper; repeat case_if; lia. Qed.

Lemma dchar_range upper d : 0 <= d < 36 -> 48 <= dchar upper d <= 57 \/ 65 <= dchar upper d <= 90 \/ 97 <= dchar upper d <= 122.
Proof. intros Hd. unfold dchar. destruct upper; case_if; lia. Qed.

(** The digits are those of the number, and the 64 characters suffice. *)
Lemma digit_loop_spec fuel abs base upper :
  2 <= base <= 36 -> 0 <= abs < base ^ Z.of_nat fuel ->
  exists ds, digit_loop fuel abs base upper = map (dchar upper) ds /\ Forall (fun d => 0 <= d < base) ds /\ lval base ds = abs /\
    (abs <> 0 -> ds <> []).
Proof.
  intros Hb. revert abs. induction fuel as [|fuel IH]; intros abs Ha; cbn [digit_loop].
  { exists []. split; [done|]. split; [constructor|]. cbn in *. split; [lia|]. intros; lia. }
  destruct (Z.eqb_spec abs 0) as [->|Hn]; [exists []; by repeat split|].
  rewrite Nat2Z.inj_succ, Z.pow_succ_r in Ha by lia.
  destruct (IH (abs / base)) as (ds & E1 & E2 & E3 & _).
  { split; [apply Z.div_pos; lia|]. apply Z.div_lt_upper_bound; lia. }
  pose proof (Z.mod_pos_bound abs base ltac:(lia)). pose proof (Z.div_mod abs base ltac:(lia)).
  exists (abs mod base :: ds). rewrite E1. split; [done|]. split; [by constructor|]. cbn [lval]. rewrite E3. split; [lia|done].
Qed.

Lemma integer_digits_spec abs base upper :
  2 <= base <= 36 -> fits 64 abs ->
  exists ds, integer_digits abs base upper = map (dchar upper) ds /\ Forall (fun d => 0 <= d < base) ds /\ ds <> [] /\
    bval base ds = abs.
Proof.
  intros Hb Ha. unfold fits in Ha. unfold integer_digits. destruct (Z.eqb_spec abs 0) as [->|Hn].
  { exists [0]. split; [done|]. split; [constructor; [lia|constructor]|]. split; done. }
  destruct (digit_loop_spec 64 abs base upper Hb) as (ds & E1 & E2 & E3 & E4).
  { split; [lia|]. eapply Z.lt_le_trans; [apply Ha|]. change (Z.of_nat 64) with 64. apply Z.pow_le_mono_l. lia. }
  exists (rev ds). rewrite E1, map_rev. split; [done|]. split; [by apply Forall_rev|]. rewrite bval_rev. split; [|done].
  specialize (E4 Hn). intros E. apply (f_equal (@rev Z)) in E. rewrite rev_involutive in E. done.
Qed.

(** ** Scanning an emitted number *)

Definition blank (l : list Z) : Prop := Forall (fun c => IsSpace c = true) l.

Lemma skip_blanks bs t : blank bs -> IsSpace (deref t) = false -> skip_space (bs ++ t) = t.
Proof.
  intros Hb Ht. induction Hb as [|c bs Hc _ IH]; cbn [app skip_space]; [|by rewrite Hc].
  destruct t as [|c t]; [done|]. cbn [skip_space]. cbn in Ht. by rewrite Ht.
Qed.

(** What may follow the digits: nothing, or a character that is no digit. *)
Definition stops (radix : Z) (t : list Z) : Prop := t = [] \/ IsSpace (deref t) = true.

Lemma IsSpace_range c : IsSpace c = true -> c = 32 \/ 9 <= c <= 13.
Proof. unfold IsSpace. rewrite !orb_true_iff, !Z.eqb_eq. lia. Qed.

Lemma digit_run_emitted upper ds radix t :
  2 <= radix <= 36 -> Forall (fun d => 0 <= d < radix) ds -> stops radix t ->
  digit_run (map (dchar upper) ds ++ t) radix = ds /\ after_digits (map (dchar upper) ds ++ t) radix = t.
Proof.
  intros Hr Hd Ht.
  assert (E : digit_run (map (dchar upper) ds ++ t) radix = ds).
  { induction Hd as [|d ds Hd _ IH]; cbn [map app digit_run].
    - destruct Ht as [->|Ht]; [done|]. destruct t as [|c t]; [done|]. apply IsSpace_range in Ht. cbn in Ht. cbn [digit_run].
      unfold DigitValue. repeat case_if; try lia; done.
    - rewrite DigitValue_dchar, IH by lia. case_if; [lia|done]. }
  split; [done|]. unfold after_digits. rewrite E. rewrite <- (length_map (dchar upper) ds). apply drop_app_length.
Qed.

(** The radix prefixes the formatter writes and the parser takes back. *)
Definition radix_prefix (radix : Z) (pre : list Z) : Prop :=
  pre = [] \/ (radix = 16 /\ (pre = [48; 120] \/ pre = [48; 88])).

Lemma ApplyRadixPrefix_emitted radix pre upper ds t :
  2 <= radix <= 36 -> radix_prefix radix pre -> Forall (fun d => 0 <= d < radix) ds -> ds <> [] -> stops radix t ->
  ApplyRadixPrefix (pre ++ map (dchar upper) ds ++ t) radix = (map (dchar upper) ds ++ t, radix).
Proof.
  intros Hr Hp Hd Hne Ht. destruct ds as [|d ds]; [done|]. inversion_clear Hd as [|? ? Hd1 Hd2].
  unfold ApplyRadixPrefix. rewrite (proj2 (Z.eqb_neq radix 0)) by lia. cbn [orb].
  destruct Hp as [->|[-> Hp]].
  - destruct (Z.eqb_spec radix 16) as [->|]; cbn [andb app map]; [|done].
    assert (X : (Lower (deref_at (dchar upper d :: map (dchar upper) ds ++ t) 1) =? 120) = false); [|by rewrite X, andb_false_r].
    unfold deref_at. cbn [List.nth]. destruct ds as [|d' ds]; cbn [map app].
    + destruct Ht as [->|Ht]; [done|]. destruct t as [|c t]; [done|]. apply IsSpace_range in Ht. cbn in Ht. cbn [List.nth].
      unfold Lower. case_if; apply Z.eqb_neq; lia.
    + cbn [List.nth]. inversion_clear Hd2 as [|? ? Hd' _]. unfold Lower, dchar. destruct upper; repeat case_if; apply Z.eqb_neq; lia.
  - assert (X : (0 <=? DigitValue (dchar upper d) 16) = true) by (rewrite DigitValue_dchar by lia; apply Z.leb_le; lia).
    cbn [map]. destruct Hp as [-> | ->]; unfold deref_at; cbn [app List.nth]; rewrite X; done.
Qed.

(** A printed number: blanks, sign, prefix, digits and what follows. *)
Record emits (text : list Z) (negative : bool) (radix m : Z) (rest : list Z) : Prop := {
  em_sign : snd (SkipSpaceAndSign text) = negative;
  em_parses : parses text radix = true;
  em_mag : magnitude_of text radix = m;
  em_rest : rest_of text radix = rest
}.

Lemma emits_intro bs sg pre upper ds t radix negative :
  2 <= radix <= 36 -> blank bs -> (sg = [45] /\ negative = true \/ (sg = [43] \/ sg = []) /\ negative = false) ->
  radix_prefix radix pre -> Forall (fun d => 0 <= d < radix) ds -> ds <> [] -> stops radix t ->
  emits (bs ++ sg ++ pre ++ map (dchar upper) ds ++ t) negative radix (bval radix ds) t.
Proof.
  intros Hr Hb Hs Hp Hd Hne Ht. set (num := pre ++ map (dchar upper) ds ++ t).
  assert (Hh : exists c, deref num = c /\ (c = 48 \/ 48 <= c <= 57 \/ 65 <= c <= 90 \/ 97 <= c <= 122)).
  { eexists. split; [reflexivity|]. unfold num. destruct Hp as [->|[-> [-> | ->]]]; [|cbn; lia|cbn; lia].
    destruct ds as [|d ds]; [done|]. inversion_clear Hd as [|? ? Hd1 _]. pose proof (dchar_range upper d ltac:(lia)). cbn. lia. }
  destruct Hh as (c & Hc & Hcr).
  assert (E : SkipSpaceAndSign (bs ++ sg ++ num) = (num, negative)).
  { unfold SkipSpaceAndSign. rewrite skip_blanks; [|done|].
    - destruct Hs as [[-> ->]|[[-> | ->] ->]]; [done|done|]. cbn [app]. rewrite Hc.
      rewrite (proj2 (Z.eqb_neq c 43)), (proj2 (Z.eqb_neq c 45)) by lia. done.
    - destruct Hs as [[-> _]|[[-> | ->] _]]; [done|done|]. cbn [app]. rewrite Hc. unfold IsSpace.
      rewrite !orb_false_iff, !Z.eqb_neq. lia. }
  destruct (digit_run_emitted upper ds radix t Hr Hd Ht) as [E1 E2].
  pose proof (ApplyRadixPrefix_emitted radix pre upper ds t Hr Hp Hd Hne Ht) as E3. fold num in E3.
  split; unfold parses, magnitude_of, rest_of, number_text; rewrite E; cbn [fst snd]; rewrite ?E3, ?E1, ?E2; try done.
  rewrite bool_decide_eq_false_2 by done. rewrite (proj2 (Z.leb_le 2 radix)), (proj2 (Z.leb_le radix 36)) by lia. done.
Qed.

(** A specification whose output a parser of the same radix can read: blank fill,
    not a character, and no [0b] prefix (the parsers know none). *)
Definition readable (spec : Spec) : Prop :=
  IsSpace (fill spec) = true /\ type spec <> 99 /\ (alt spec = true -> type spec <> 98 /\ type spec <> 66).

Lemma integer_base_range ty : 2 <= integer_base ty <= 36.
Proof. unfold integer_base. repeat case_if; lia. Qed.

Lemma zeros_digits n upper ds : fill_text 48 n ++ map (dchar upper) ds = map (dchar upper) (replicate (Z.to_nat n) 0 ++ ds).
Proof. unfold fill_text. rewrite map_app. f_equal. by induction (Z.to_nat n) as [|k IH]; [|cbn [replicate map]; rewrite <- IH]. Qed.

Lemma bval_zeros base n ds : bval base (replicate n 0 ++ ds) = bval base ds.
Proof.
  rewrite bval_app. replace (bval base (replicate n 0)) with 0; [lia|].
  induction n as [|n IH]; [done|]. cbn [replicate]. rewrite bval_cons, <- IH. lia.
Qed.

Lemma blank_fill c n : IsSpace c = true -> blank (fill_text c n).
Proof. intros Hc. unfold blank, fill_text. by apply Forall_replicate. Qed.

(** The prefix is one the parser strips, or a leading zero. *)
Lemma integer_prefix_cases ty alt :
  ty <> 99 -> (alt = true -> ty <> 98 /\ ty <> 66) ->
  radix_prefix (integer_base ty) (integer_prefix ty alt) \/ integer_prefix ty alt = fill_text 48 1.
Proof.
  intros Ht Ha. unfold integer_prefix. destruct alt; cbn [negb]; [|left; by left]. specialize (Ha eq_refl).
  unfold integer_base. destruct (Z.eqb_spec ty 120) as [->|]; [left; right; split; [done|by left]|].
  destruct (Z.eqb_spec ty 88) as [->|]; [left; right; split; [done|by right]|].
  destruct (Z.eqb_spec ty 111); [by right|]. rewrite !(proj2 (Z.eqb_neq ty _)) by lia. left. by left.
Qed.

Lemma integer_emits L R n abs negative sg ty alt upper :
  blank L -> blank R -> fits 64 abs -> ty <> 99 -> (alt = true -> ty <> 98 /\ ty <> 66) ->
  emits (L ++ (sign_char negative sg ++ integer_prefix ty alt) ++ fill_text 48 n
           ++ integer_digits abs (integer_base ty) upper ++ R) negative (integer_base ty) abs R.
Proof.
  intros HL HR Ha Ht Halt. pose proof (integer_base_range ty) as Hb.
  destruct (integer_digits_spec abs (integer_base ty) upper Hb Ha) as (ds & -> & Hd & Hne & <-).
  assert (HS : stops (integer_base ty) R).
  { destruct R as [|c R]; [by left|right]. by inversion HR. }
  assert (Z0 : forall k, Forall (fun d => 0 <= d < integer_base ty) (replicate k 0 ++ ds)).
  { intros k. apply Forall_app. split; [apply Forall_replicate; lia|done]. }
  assert (Zn : forall k, replicate k 0 ++ ds <> []) by (intros [|k]; done).
  assert (HSg : exists bs s, sign_char negative sg = bs ++ s /\ blank bs /\
    (s = [45] /\ negative = true \/ (s = [43] \/ s = []) /\ negative = false)).
  { unfold sign_char. destruct negative; [exists [], [45]; split; [done|]; split; [constructor|]; by left|].
    destruct (sg =? 43); [exists [], [43]; split; [done|]; split; [constructor|]; right; auto|].
    destruct (sg =? 32); [exists [32], []; split; [done|]; split; [by repeat constructor|]; right; auto|].
    exists [], []; split; [done|]; split; [constructor|]; right; auto. }
  destruct HSg as (bs & s & -> & Hbs & Hs).
  assert (HLb : blank (L ++ bs)) by (by apply Forall_app).
  destruct (integer_prefix_cases ty alt Ht Halt) as [Hp| ->].
  - pose proof (emits_intro (L ++ bs) s _ upper _ R _ negative Hb HLb Hs Hp (Z0 (Z.to_nat n)) (Zn _) HS) as X.
    rewrite bval_zeros, <- zeros_digits, <- !app_assoc in X. by rewrite <- !app_assoc.
  - pose proof (emits_intro (L ++ bs) s [] upper _ R _ negative Hb HLb Hs ltac:(by left) (Z0 (S (Z.to_nat n))) (Zn _) HS) as X.
    rewrite bval_zeros in X. cbn [replicate app map] in X. rewrite <- zeros_digits, <- !app_assoc in X. rewrite <- !app_assoc. exact X.
Qed.

Lemma integer_text_emits abs negative spec :
  fits 64 abs -> readable spec ->
  exists rest, emits (integer_text abs negative spec) negative (integer_base (type spec)) abs rest.
Proof.
  intros Ha (Hf & Ht & Halt). unfold integer_text. rewrite (proj2 (Z.eqb_neq _ _)) by done. cbn zeta.
  set (head := sign_char _ _ ++ _). set (ds := integer_digits _ _ _).
  pose proof (fun L R n HL HR => integer_emits L R n abs negative (sign spec) (type spec) (alt spec) (type spec =? 88) HL HR Ha Ht Halt) as E.
  fold head ds in E. destruct (_ && _).
  - exists []. pose proof (E [] [] (width spec - Z.of_nat (length (head ++ ds))) ltac:(constructor) ltac:(constructor)) as X.
    rewrite app_nil_r in X. exact X.
  - unfold aligned_text. cbn zeta.
    assert (X : forall L R, blank L -> blank R -> emits (L ++ (head ++ ds) ++ R) negative (integer_base (type spec)) abs R).
    { intros L R HL HR. pose proof (E L R 0 HL HR) as X. rewrite <- app_assoc. exact X. }
    repeat case_if; eexists.
    + apply (X []); [constructor|by apply blank_fill].
    + apply X; by apply blank_fill.
    + pose proof (X (fill_text (fill spec) (Z.max 0 (width spec - Z.of_nat (length (head ++ ds))))) [] ltac:(by apply blank_fill) ltac:(constructor)) as Y.
      rewrite app_nil_r in Y. exact Y.
Qed.

(** Round trip of signed integers: for every [i64], INT64_MIN included, every
    readable specification (decimal, hexadecimal, octal or binary, any sign option,
    [0x] or [0] prefix, zero padding, any width and alignment with a blank fill), the
    text [FormatArgValue] writes to any sink is parsed back by [ParseInteger] in the
    same radix as the same integer. *)
Theorem format_parse_integer {St} `{LawfulSink St} (s : St) i spec :
  - 2 ^ 63 <= i < 2 ^ 63 -> readable spec ->
  exists text rest,
    FormatArgValue s (kI64 i) spec = write_fn s text /\
    ParseInteger (Some text) (integer_base (type spec)) = Some (i, rest).
Proof.
  intros Hi Hs. exists (arg_text (kI64 i) spec). cbn [arg_text].
  set (abs := if i <? 0 then u64 (0 - u64 i) else u64 i).
  assert (Habs : fits 64 abs /\ (if i <? 0 then - abs else abs) = i).
  { unfold abs, fits, wrap. pow_lit. destruct (Z.ltb_spec i 0); dlia. }
  destruct Habs as [Ha Hv]. destruct (integer_text_emits abs (i <? 0) spec Ha Hs) as [rest E].
  exists rest. split; [apply FormatArgValue_text|].
  rewrite ParseInteger_clamps', (em_parses _ _ _ _ _ E), (em_sign _ _ _ _ _ E), (em_mag _ _ _ _ _ E), (em_rest _ _ _ _ _ E), Hv.
  unfold clamp_i64. do 2 f_equal. lia.
Qed.

Lemma format_parse_integer_witness :
  exists text rest,
    FormatArgValue ([] : list Z) (kI64 (-255)) (mkSpec 32 94 45 120 true false 9 (-1)) = write_fn [] text /\
    ParseInteger (Some text) 16 = Some (-255, rest).
Proof.
  apply (format_parse_integer (St := list Z) [] (-255) (mkSpec 32 94 45 120 true false 9 (-1))); [pow_lit; lia|].
  split; [done|]. split; [done|]. intros _. cbn. lia.
Defined.

(** Round trip of unsigned integers through [ParseUnsigned]. *)
Theorem format_parse_unsigned {St} `{LawfulSink St} (s : St) u spec :
  fits 64 u -> readable spec ->
  exists text rest,
    FormatArgValue s (kU64 u) spec = write_fn s text /\
    ParseUnsigned (Some text) (integer_base (type spec)) = Some (u, rest).
Proof.
  intros Hu Hs. exists (arg_text (kU64 u) spec). cbn [arg_text].
  destruct (integer_text_emits u false spec Hu Hs) as [rest E].
  exists rest. split; [apply FormatArgValue_text|].
  rewrite ParseUnsigned_wraps', (em_parses _ _ _ _ _ E), (em_sign _ _ _ _ _ E), (em_mag _ _ _ _ _ E), (em_rest _ _ _ _ _ E).
  cbn zeta. unfold fits in Hu. rewrite Z.min_l by lia. done.
Qed.

Lemma format_parse_unsigned_witness :
  exists text rest,
    FormatArgValue ([] : list Z) (kU64 (2 ^ 64 - 1)) (mkSpec 32 0 43 111 true true 40 (-1)) = write_fn [] text /\
    ParseUnsigned (Some text) 8 = Some (2 ^ 64 - 1, rest).
Proof.
  apply (format_parse_unsigned (St := list Z) [] (2 ^ 64 - 1) (mkSpec 32 0 43 111 true true 40 (-1))); [unfold fits; pow_lit; lia|].
  split; [done|]. split; [done|]. intros _. cbn. lia.
Defined.
