(* ===== verification/FormatTemplate.v ===== *)
(** * Format strings as templates

    A format string is the printed form of a list of literals and replacement
    fields; [FormatCore] yields the concatenation of what they stand for. *)

From S2P Require Import Prelude FloatFormat Format FormatSpec FormatParse.

Inductive Piece :=
| Lit (s : list Z)
| Field (idx : option Z) (spec : option (list Z)).

(** Braces are doubled in literals. *)
Definition escape (c : Z) : list Z := if (c =? 123) || (c =? 125) then [c; c] else [c].

Definition piece_text (p : Piece) : list Z :=
  match p with
  | Lit s => concat (map escape s)
  | Field idx spec =>
      123 :: (match idx with Some n => integer_digits n 10 false | None => [] end)
        ++ (match spec with Some t => 58 :: t | None => [] end) ++ [125]
  end.

Definition template_text (ps : list Piece) : list Z := concat (map piece_text ps).

Definition piece_ok (p : Piece) : Prop :=
  match p with
  | Lit _ => True
  | Field idx spec =>
      match idx with Some n => fits 64 n | None => True end /\
      match spec with Some t => Forall (fun c => c <> 125) t | None => True end
  end.

(** What the pieces stand for, with the automatic index threaded through. *)
Fixpoint render (ps : list Piece) (args : list Arg) (auto_index : Z) : list Z :=
  match ps with
  | [] => []
  | Lit s :: ps => s ++ render ps args auto_index
  | Field idx spec :: ps =>
      let i := match idx with Some n => n | None => auto_index end in
      if i >=? Z.of_nat (length args) then [123; 63; 125] ++ render ps args auto_index
      else arg_text (List.nth (Z.to_nat i) args kNone)
             (match spec with Some t => ParseSpec t default_spec | None => default_spec end)
           ++ render ps args (match idx with Some _ => auto_index | None => auto_index + 1 end)
  end.

(** ** The driver, one construct at a time *)

Lemma parse_index_length p i : (length (fst (parse_index p i)) <= length p)%nat.
Proof. revert i. induction p as [|c p IH]; intros i; cbn [parse_index length]; [done|]. case_if; cbn [fst]; [|done]. specialize (IH (u64 (i * 10 + (c - 48)))). lia. Qed.

Lemma split_spec_length p : (length (snd (split_spec p)) <= length p)%nat.
Proof.
  induction p as [|c p IH]; cbn [split_spec length]; [done|]. case_if; [done|].
  destruct (split_spec p) as [a b]. cbn [snd] in *. lia.
Qed.

Lemma split_literal_length p : (length (snd (split_literal p)) <= length p)%nat.
Proof.
  induction p as [|c p IH]; cbn [split_literal length]; [done|]. case_if; [done|].
  destruct (split_literal p) as [a b]. cbn [snd] in *. lia.
Qed.

Lemma tl_length (p : list Z) : (length (List.tl p) <= length p)%nat.
Proof. destruct p; cbn; lia. Qed.

Lemma format_field_length (s : list Z) p args i : (length (fst (fst (format_field s p args i))) <= length p)%nat.
Proof.
  unfold format_field. cbn zeta.
  assert (H1 : (length (fst (if ((48 <=? deref p) && (deref p <=? 57))%Z then parse_index p 0 else (p, i))) <= length p)%nat).
  { case_if; [apply parse_index_length|done]. }
  destruct (if _ && _ then parse_index p 0 else _) as [p1 idx]. cbn [fst] in H1.
  assert (H2 : (length (fst (match p1 with
    | [] => (p1, default_spec)
    | c :: p' => if (c =? 58)%Z then let '(s0, rest) := split_spec p' in (rest, ParseSpec s0 default_spec) else (p1, default_spec) end)) <= length p1)%nat).
  { destruct p1 as [|c p']; [done|]. case_if; [|done]. pose proof (split_spec_length p'). destruct (split_spec p').
    cbn [fst snd length] in *. lia. }
  destruct (match p1 with [] => _ | _ :: _ => _ end) as [p2 spec]. cbn [fst] in H2.
  pose proof (tl_length p2). destruct (idx >=? _); cbn [fst]; case_if; lia.
Qed.

(** Enough fuel is enough. *)
Lemma format_loop_fuel n m (s : list Z) p args i :
  (length p < n)%nat -> (length p < m)%nat -> format_loop n s p args i = format_loop m s p args i.
Proof.
  revert m s p i. induction n as [|n IH]; intros m s p i Hn Hm; [lia|]. destruct m as [|m]; [lia|]. cbn [format_loop].
  destruct p as [|c p]; [done|]. cbn [length] in *. destruct (c =? 123) eqn:E1; [destruct (deref p =? 123)|destruct (c =? 125) eqn:E].
  - pose proof (tl_length p). apply IH; lia.
  - pose proof (format_field_length s p args i). destruct (format_field s p args i) as [[q t] j]. cbn [fst] in *. apply IH; lia.
  - pose proof (tl_length p). apply IH; case_if; lia.
  - pose proof (split_literal_length p). cbn [split_literal]. rewrite E1, E. cbn [orb].
    destruct (split_literal p) as [a b]. cbn [snd] in *. apply IH; lia.
Qed.

(** The text of the format [p], automatic fields counting from [i]. *)
Definition run (p : list Z) (args : list Arg) (i : Z) : list Z := format_loop (S (length p)) [] p args i.

Lemma run_fuel n s p args i : (length p < n)%nat -> format_loop n s p args i = s ++ run p args i.
Proof.
  intros Hn. unfold run. destruct (format_loop_text (St := list Z) n p args i) as (u & _ & U).
  rewrite (format_loop_fuel (S (length p)) n) by lia. by rewrite !U.
Qed.

(** One step of the driver, when there is a character left. *)
Lemma run_step c p args i :
  run (c :: p) args i =
  if c =? 123 then
    if deref p =? 123 then 123 :: run (List.tl p) args i
    else let '(q, t, j) := format_field [] p args i in t ++ run q args j
  else if c =? 125 then 125 :: run (if deref p =? 125 then List.tl p else p) args i
  else let '(a, b) := split_literal (c :: p) in a ++ run b args i.
Proof.
  unfold run at 1. change (length (c :: p)) with (S (length p)).
  assert (L : forall fuel, format_loop (S fuel) ([] : list Z) (c :: p) args i =
    if c =? 123 then
      if deref p =? 123 then format_loop fuel (WriteChar [] 123) (List.tl p) args i
      else let '(p, sink, auto_index) := format_field [] p args i in format_loop fuel sink p args auto_index
    else if c =? 125 then format_loop fuel (WriteChar [] 125) (if deref p =? 125 then List.tl p else p) args i
    else let '(run, rest) := split_literal (c :: p) in format_loop fuel (Write [] run) rest args i) by done.
  rewrite L. pose proof (tl_length p). destruct (c =? 123) eqn:E1; [destruct (deref p =? 123)|destruct (c =? 125) eqn:E2].
  - by rewrite run_fuel by lia.
  - pose proof (format_field_length [] p args i). destruct (format_field [] p args i) as [[q t] j]. cbn [fst] in *. by rewrite run_fuel by lia.
  - by rewrite run_fuel by (case_if; lia).
  - pose proof (split_literal_length p). cbn [split_literal]. rewrite E1, E2. cbn [orb]. destruct (split_literal p) as [a b].
    cbn [snd] in *. by rewrite Write_text, run_fuel by lia.
Qed.

Lemma run_literal_run p args i : let '(a, b) := split_literal p in a ++ run b args i = run p args i.
Proof.
  destruct p as [|c p]; [done|]. rewrite run_step. cbn [split_literal].
  destruct (c =? 123) eqn:E1; cbn [orb]; [rewrite run_step, E1; done|].
  destruct (c =? 125) eqn:E2; cbn [orb]; [rewrite run_step, E1, E2; done|].
  by destruct (split_literal p).
Qed.

Lemma run_char c p args i : (c =? 123) || (c =? 125) = false -> run (c :: p) args i = c :: run p args i.
Proof.
  intros Hc. rewrite run_step. cbn [split_literal]. rewrite Hc. apply orb_false_iff in Hc as [-> ->].
  pose proof (run_literal_run p args i) as X. destruct (split_literal p) as [a b]. cbn [app]. by rewrite X.
Qed.

Lemma run_escape c p args i : run (escape c ++ p) args i = c :: run p args i.
Proof.
  unfold escape. destruct ((c =? 123) || (c =? 125)) eqn:E; [|by apply run_char].
  cbn [app]. rewrite run_step. apply orb_true_iff in E. cbn [deref List.hd List.tl].
  destruct (Z.eqb_spec c 123) as [->|]; [done|]. destruct (Z.eqb_spec c 125) as [->|]; [done|]. by destruct E.
Qed.

Lemma run_literal s p args i : run (concat (map escape s) ++ p) args i = s ++ run p args i.
Proof.
  induction s as [|c s IH]; [done|]. cbn [map concat]. by rewrite <- app_assoc, run_escape, IH.
Qed.

(** ** Fields *)

Lemma parse_index_digits ds rest v :
  Forall (fun d => 0 <= d < 10) ds -> 0 <= v -> fits 64 (fold_left (fun v d => v * 10 + d) ds v) ->
  (deref rest < 48 \/ 57 < deref rest) ->
  parse_index (map (dchar false) ds ++ rest) v = (rest, fold_left (fun v d => v * 10 + d) ds v).
Proof.
  intros Hd. revert v. induction Hd as [|d ds Hd Hds IH]; intros v Hv Hf Hr; cbn [map app parse_index fold_left].
  - destruct rest as [|c rest]; [done|]. cbn in Hr. cbn [parse_index].
    rewrite (proj2 (andb_false_iff _ _)); [done|]. rewrite !Z.leb_gt. lia.
  - assert (E : dchar false d = 48 + d) by (unfold dchar; case_if; lia). rewrite E.
    rewrite (proj2 (Z.leb_le 48 _)), (proj2 (Z.leb_le _ 57)) by lia. cbn [andb].
    replace (48 + d - 48) with d by lia. cbn [fold_left] in Hf. rewrite wrap_small; [apply IH; [lia|done|done]|].
    unfold fits in *. split; [lia|]. eapply Z.le_lt_trans; [|apply Hf]. rewrite bval_acc.
    pose proof (Z.pow_pos_nonneg 10 (Z.of_nat (length ds)) ltac:(lia) ltac:(lia)).
    pose proof (bval_bound 10 ds ltac:(lia) Hds). nia.
Qed.

Lemma split_spec_field t rest : Forall (fun c => c <> 125) t -> split_spec (t ++ 125 :: rest) = (t, 125 :: rest).
Proof.
  induction 1 as [|c t Hc _ IH]; cbn [app split_spec]; [done|]. rewrite (proj2 (Z.eqb_neq c 125)) by done. by rewrite IH.
Qed.

(** The colon, the specification and the closing brace. *)
Definition field_tail (spec : option (list Z)) : list Z :=
  (match spec with Some t => 58 :: t | None => [] end) ++ [125].

Definition field_spec (spec : option (list Z)) : Spec :=
  match spec with Some t => ParseSpec t default_spec | None => default_spec end.

Lemma format_field_spec idx spec p args i :
  piece_ok (Field idx spec) ->
  format_field ([] : list Z)
    ((match idx with Some n => integer_digits n 10 false | None => [] end) ++ field_tail spec ++ p) args i =
  let n := match idx with Some n => n | None => i end in
  if n >=? Z.of_nat (length args) then (p, [123; 63; 125], i)
  else (p, arg_text (List.nth (Z.to_nat n) args kNone) (field_spec spec),
        match idx with Some _ => i | None => i + 1 end).
Proof.
  intros [Hi Hs]. set (rest := field_tail spec ++ p).
  assert (Hr : deref rest = 58 \/ deref rest = 125) by (unfold rest, field_tail; destruct spec; [by left|by right]).
  assert (A : exists e, (48 <=? deref ((match idx with Some n => integer_digits n 10 false | None => [] end) ++ rest)) &&
    (deref ((match idx with Some n => integer_digits n 10 false | None => [] end) ++ rest) <=? 57) = e /\
    (if e then parse_index ((match idx with Some n => integer_digits n 10 false | None => [] end) ++ rest) 0
     else ((match idx with Some n => integer_digits n 10 false | None => [] end) ++ rest, i)) =
    (rest, match idx with Some n => n | None => i end) /\ e = match idx with Some _ => true | None => false end).
  { eexists. split; [reflexivity|]. destruct idx as [n|].
    - destruct (integer_digits_spec n 10 false ltac:(lia) Hi) as (ds & -> & Hd & Hne & Hv).
      destruct ds as [|d ds]; [done|]. assert (Hd0 : 0 <= d < 10) by (by inversion Hd).
      assert (E : (48 <=? deref (map (dchar false) (d :: ds) ++ rest)) && (deref (map (dchar false) (d :: ds) ++ rest) <=? 57) = true).
      { cbn. unfold dchar. rewrite (proj2 (Z.ltb_lt d 10)), andb_true_iff, !Z.leb_le by lia. lia. }
      rewrite E. split; [|done]. unfold bval in Hv. rewrite parse_index_digits; [by rewrite Hv|done|lia|by rewrite Hv|lia].
    - cbn [app]. destruct Hr as [-> | ->]; done. }
  destruct A as (e & E1 & E2 & E3). unfold format_field. cbn zeta. rewrite E1, E2, E3. unfold rest, field_tail.
  destruct spec as [t|]; cbn [app field_spec].
  - change (58 =? 58) with true. cbn iota. rewrite <- app_assoc. cbn [app]. rewrite split_spec_field by done.
    cbn [deref List.hd List.tl]. change (125 =? 125) with true. cbn iota.
    destruct (_ >=? _); [done|]. rewrite FormatArgValue_text. by destruct idx.
  - change (125 =? 58) with false. cbn iota. cbn [deref List.hd List.tl]. change (125 =? 125) with true. cbn iota.
    destruct (_ >=? _); [done|]. rewrite FormatArgValue_text. by destruct idx.
Qed.

Lemma run_template ps args i : Forall piece_ok ps -> run (template_text ps) args i = render ps args i.
Proof.
  intros Hok. revert i. induction Hok as [|p ps Hp _ IH]; intros i; [done|].
  change (template_text (p :: ps)) with (piece_text p ++ template_text ps). destruct p as [s|idx spec]; cbn [piece_text render].
  - by rewrite run_literal, IH.
  - cbn [app]. rewrite <- !app_assoc, run_step. change (123 =? 123) with true. cbn iota.
    pose proof (format_field_spec idx spec (template_text ps) args i Hp) as F. unfold field_tail in F. rewrite <- !app_assoc in F.
    set (q := _ ++ _ ++ _ ++ _) in *.
    assert (Hq : (deref q =? 123) = false).
    { unfold q. destruct idx as [n|].
      - destruct Hp as [Hn _]. destruct (integer_digits_spec n 10 false ltac:(lia) Hn) as (ds & -> & Hd & Hne & _).
        destruct ds as [|d ds]; [done|]. inversion_clear Hd as [|? ? Hd0 _]. cbn. unfold dchar. case_if; apply Z.eqb_neq; lia.
      - by destruct spec. }
    rewrite Hq, F. cbn zeta. destruct (_ >=? _); [by rewrite IH|]. by rewrite IH.
Qed.

(** C5. Format strings are templates: printing any list of literals (with braces
    doubled) and replacement fields (automatic or explicit index, any specification)
    and running [FormatCore] on it emits, to any sink, the literals verbatim and each
    field's argument under its specification, automatic indices counting the
    automatic fields and [{?}] marking an index past the arguments. *)
Theorem FormatCore_template {St} `{LawfulSink St} (s : St) ps args :
  Forall piece_ok ps -> FormatCore s (Some (template_text ps)) args = write_fn s (render ps args 0).
Proof.
  intros Hok. rewrite FormatCore_text. unfold format_text, FormatCore. f_equal. by apply run_template.
Qed.

Lemma FormatCore_template_witness :
  FormatCore ([] : list Z) (Some [123; 123; 123; 49; 58; 62; 52; 125; 32; 123; 125; 125; 125; 123; 53; 125]) [kI64 7; kBool true] =
  [123; 116; 114; 117; 101; 32; 55; 125; 123; 63; 125].
Proof.
  refine (eq_trans (FormatCore_template (St := list Z) []
    [Lit [123]; Field (Some 1) (Some [62; 52]); Lit [32]; Field None None; Lit [125]; Field (Some 5) None]
    [kI64 7; kBool true] _) _); [|vm_compute; reflexivity].
  repeat constructor; try (unfold fits; lia).
Defined.
