(* ===== verification/Hashing.v ===== *)
(** * [src/base/hashing]: checksums and string hashes

    [crc.h], [fnv1a.h], [joaat.h], [djb2.h], [elf.h] and the integer mixer of
    [hash.h].  Data are byte lists; the characters of a [const char*] are given as
    the signed values [char] has, and end before the terminator. *)

From S2P Require Import Prelude.

(** ** [crc.h] *)

(** The inner loop: eight reflected division steps. *)
Definition crc_bit (polynomial crc : Z) : Z :=
  if negb (Z.land crc 1 =? 0) then Z.lxor (Z.shiftr crc 1) polynomial else Z.shiftr crc 1.

Definition crc_byte (polynomial crc b : Z) : Z := Nat.iter 8 (crc_bit polynomial) (Z.lxor crc b).

Definition not32 (x : Z) : Z := u32 (Z.lnot x).

Definition CRC32_SW (data : list Z) (polynomial prev_crc : Z) : Z :=
  not32 (fold_left (crc_byte polynomial) data prev_crc).

Definition CRC32C_SW (data : list Z) (polynomial prev_crc : Z) : Z :=
  not32 (fold_left (crc_byte polynomial) data (not32 prev_crc)).

Definition crc32_polynomial : Z := 0xEDB88320.
Definition castagnoli : Z := 0x82f63b78.

Section Hardware.
(** The CRC instructions of the processors: Intel's byte step and ARM's byte and
    eight-byte steps. *)
Variable mm_crc32_u8 : Z -> Z -> Z.
Variables crc32cb crc32cd : Z -> Z -> Z.

Definition CRC32C_x86 (data : list Z) (previousCrc32 : Z) : Z :=
  not32 (fold_left mm_crc32_u8 data (not32 previousCrc32)).

(** [for (; i + 8 <= length; i += 8)]: whole little-endian words, then bytes. *)
Fixpoint crc32cd_loop (fuel : nat) (data : list Z) (crc : Z) : list Z * Z :=
  match fuel with
  | O => (data, crc)
  | S fuel =>
      if Nat.leb 8 (length data) then crc32cd_loop fuel (drop 8 data) (crc32cd crc (lval 256 (take 8 data)))
      else (data, crc)
  end.

Definition CRC32C_arm (data : list Z) (previousCrc32 : Z) : Z :=
  let '(rest, crc) := crc32cd_loop (S (length data)) data (not32 previousCrc32) in
  not32 (fold_left crc32cb rest crc).
End Hardware.

(** The branch without either instruction set, as written. *)
Definition CRC32C_fallback (data : list Z) (previousCrc32 : Z) : Z := CRC32C_SW data previousCrc32 0xFFFFFFFF.

(** ** [fnv1a.h] *)

Definition fnv_step (w prime hash c : Z) : Z := wrap w (Z.lxor hash (wrap w c) * prime).

Definition FNV1a (w : Z) (str : option (list Z)) (hash prime : Z) : Z :=
  match str with
  | None | Some [] => 0
  | Some str => fold_left (fnv_step w prime) str hash
  end.

Definition FNV1a32 (str : option (list Z)) : Z := FNV1a 32 str 0x811c9dc5 0x1000193.
Definition FNV1a64 (str : option (list Z)) : Z := FNV1a 64 str 0xcbf29ce484222325 0x100000001b3.

Definition fnv1a (data : list Z) : Z :=
  fold_left (fun hash b => u64 (Z.lxor hash b * 0x100000001b3)) data 0xcbf29ce484222325.

Definition HashBytes (data : list Z) : Z := fnv1a data.

(** ** [joaat.h] *)

Definition joaat_step (hash b : Z) : Z :=
  let hash := u32 (hash + b) in
  let hash := u32 (hash + u32 (Z.shiftl hash 10)) in
  Z.lxor hash (Z.shiftr hash 6).

Definition Joaat (data : list Z) : Z :=
  let hash := fold_left joaat_step data 0 in
  let hash := u32 (hash + u32 (Z.shiftl hash 3)) in
  let hash := Z.lxor hash (Z.shiftr hash 11) in
  u32 (hash + u32 (Z.shiftl hash 15)).

Definition joaat16_step (hash b : Z) : Z :=
  let hash := u16 (hash + b) in
  let hash := u16 (hash + Z.shiftl hash 5) in
  u16 (Z.lxor hash (Z.shiftr hash 3)).

Definition Joaat16 (data : list Z) : Z :=
  let hash := fold_left joaat16_step data 0 in
  let hash := u16 (hash + Z.shiftl hash 2) in
  let hash := u16 (Z.lxor hash (Z.shiftr hash 4)) in
  u16 (hash + Z.shiftl hash 7).

(** ** [djb2.h] *)

Definition djb2_step64 '((hash, hash2) : Z * Z) (c : Z) : Z * Z :=
  let hash := u64 (u64 (u64 (Z.shiftl hash 5) + hash) + c) in
  let hash2 := u64 (u64 (u64 (Z.shiftl hash 5) + hash) + c) in
  (hash, hash2).

Definition Djb2Hash64 (str : option (list Z)) (hash hash2 : Z) : Z :=
  match str with
  | None | Some [] => 0
  | Some str => let '(hash, hash2) := fold_left djb2_step64 str (hash, hash2) in u64 (hash * 4096 + hash2)
  end.

Definition djb2_step32 (hash c : Z) : Z := u32 (u32 (u32 (Z.shiftl hash 5) + hash) + c).

Definition Djb2Hash32 (str : option (list Z)) (hash : Z) : Z :=
  match str with
  | None | Some [] => 0
  | Some str => fold_left djb2_step32 str hash
  end.

(** ** [elf.h] *)

Definition elf_step (hash c : Z) : Z :=
  let hash := u32 (u32 (Z.shiftl hash 4) + c) in
  let high := u32 (Z.land hash 0xF000000000000000) in
  let hash := if negb (high =? 0) then Z.lxor hash (Z.shiftr high 24) else hash in
  Z.land hash (u32 (Z.lnot high)).

Definition ElfHash (str : list Z) : Z := fold_left elf_step str 0.

(** ** [hash.h] *)

Definition Mix64 (x : Z) : Z :=
  let x := u64 (x + 0x9e3779b97f4a7c15) in
  let x := Z.lxor x (Z.shiftr x 30) in
  let x := u64 (x * 0xbf58476d1ce4e5b9) in
  let x := Z.lxor x (Z.shiftr x 27) in
  let x := u64 (x * 0x94d049bb133111eb) in
  Z.lxor x (Z.shiftr x 31).

(** [Hash<T>] on an integer, enumeration or pointer: the value converted to [u64]. *)
Definition Hash (key : Z) : Z := Mix64 (u64 key).

(** ** Reversible steps *)

Lemma lxor_inj_l a b c : Z.lxor a b = Z.lxor a c -> b = c.
Proof.
  intros E. assert (X : Z.lxor a (Z.lxor a b) = Z.lxor a (Z.lxor a c)) by (by rewrite E).
  by rewrite <- !Z.lxor_assoc, Z.lxor_nilpotent, !Z.lxor_0_l in X.
Qed.

Lemma lxor_inj_r a b c : Z.lxor b a = Z.lxor c a -> b = c.
Proof. rewrite !(Z.lxor_comm _ a). apply lxor_inj_l. Qed.

Lemma shiftr_fits w x k : 0 <= w -> 0 <= k -> fits w x -> fits w (Z.shiftr x k).
Proof.
  unfold fits. intros Hw Hk Hx. rewrite shiftr_div by done. pose proof (pow2_pos k Hk).
  split; [apply Z.div_pos; lia|]. apply Z.div_lt_upper_bound; nia.
Qed.

(** [x ^= x >> k] loses nothing. *)
Lemma xorshift_inj w k x y :
  0 <= w -> 0 < k -> fits w x -> fits w y -> Z.lxor x (Z.shiftr x k) = Z.lxor y (Z.shiftr y k) -> x = y.
Proof.
  intros Hw Hk Hx Hy E. apply Z.lxor_eq. set (d := Z.lxor x y).
  assert (Hd : fits w d) by (by apply lxor_fits). unfold fits in Hd.
  assert (S : d = Z.shiftr d k).
  { unfold d. rewrite Z.shiftr_lxor. apply Z.lxor_eq.
    rewrite <- (Z.lxor_nilpotent (Z.lxor x (Z.shiftr x k))). rewrite E at 2.
    apply Z.bits_inj'. intros i Hi. rewrite !Z.lxor_spec.
    destruct (Z.testbit x i), (Z.testbit y i), (Z.testbit (Z.shiftr x k) i), (Z.testbit (Z.shiftr y k) i); done. }
  rewrite shiftr_div in S by lia.
  assert (2 <= 2 ^ k) by (change 2 with (2 ^ 1) at 1; apply Z.pow_le_mono_r; lia).
  pose proof (Z.div_mod d (2 ^ k) ltac:(lia)). pose proof (Z.mod_pos_bound d (2 ^ k) ltac:(lia)). nia.
Qed.

Lemma wrap_eq_divide w x y : 0 <= w -> wrap w x = wrap w y -> (2 ^ w | x - y).
Proof.
  intros Hw E. unfold wrap in E. pose proof (pow2_pos w Hw). apply Z.mod_divide; [lia|].
  rewrite Zminus_mod, E, Z.sub_diag. done.
Qed.

Lemma wrap_divide_eq w x y : 0 <= w -> fits w x -> fits w y -> (2 ^ w | x - y) -> x = y.
Proof.
  unfold fits. intros Hw Hx Hy [q Hq]. assert (q = 0) by nia. lia.
Qed.

(** Adding a constant, and multiplying by an odd one, lose nothing modulo [2^w]. *)
Lemma wrap_add_inj w a x y : 0 <= w -> fits w x -> fits w y -> wrap w (x + a) = wrap w (y + a) -> x = y.
Proof.
  intros Hw Hx Hy E. apply wrap_eq_divide in E; [|done]. apply (wrap_divide_eq w); try done.
  by replace (x - y) with (x + a - (y + a)) by lia.
Qed.

Lemma pow2_divide_odd (n : nat) m d : Z.odd m = true -> (2 ^ Z.of_nat n | d * m) -> (2 ^ Z.of_nat n | d).
Proof.
  intros Hm. revert d. induction n as [|n IH]; intros d H; [apply Z.divide_1_l|].
  rewrite Nat2Z.inj_succ, Z.pow_succ_r in * by lia.
  assert (He : Z.even d = true).
  { destruct H as [q Hq]. assert (E : Z.even (d * m) = true) by (rewrite Hq, !Z.even_mul; cbn; by rewrite orb_true_r).
    by rewrite Z.even_mul, <- (Z.negb_odd m), Hm, orb_false_r in E. }
  apply Z.even_spec in He as [d' ->]. apply Z.mul_divide_mono_l, IH. destruct H as [q Hq]. exists q. lia.
Qed.

Lemma wrap_mul_inj w m x y :
  0 <= w -> Z.odd m = true -> fits w x -> fits w y -> wrap w (x * m) = wrap w (y * m) -> x = y.
Proof.
  intros Hw Hm Hx Hy E. apply wrap_eq_divide in E; [|done]. apply (wrap_divide_eq w); try done.
  rewrite <- (Z2Nat.id w) in * by done. apply (pow2_divide_odd _ m); [done|].
  by replace ((x - y) * m) with (x * m - y * m) by lia.
Qed.

(** [x += x << k] is a multiplication by an odd number. *)
Lemma wrap_shift_add w x k : 0 <= w -> 0 < k -> wrap w (x + wrap w (Z.shiftl x k)) = wrap w (x * (1 + 2 ^ k)).
Proof.
  intros Hw Hk. rewrite Z.shiftl_mul_pow2 by lia. unfold wrap. rewrite Zplus_mod_idemp_r. f_equal. lia.
Qed.

Lemma odd_shift k : 0 < k -> Z.odd (1 + 2 ^ k) = true.
Proof.
  intros Hk. rewrite Z.odd_add. replace k with (Z.succ (k - 1)) by lia. rewrite Z.pow_succ_r by lia. by rewrite Z.odd_mul.
Qed.

Lemma shift_add_inj w k x y :
  0 <= w -> 0 < k -> fits w x -> fits w y ->
  wrap w (x + wrap w (Z.shiftl x k)) = wrap w (y + wrap w (Z.shiftl y k)) -> x = y.
Proof. intros Hw Hk Hx Hy. rewrite !wrap_shift_add by done. apply wrap_mul_inj; try done. by apply odd_shift. Qed.

(** ** Byte-wise hashes as an interface

    A hash that folds a step over the bytes, where the step loses neither the state
    nor the byte.  Its promise: two texts that differ in one byte have different
    hashes. *)

Class ReversibleStep (w : Z) (step : Z -> Z -> Z) := {
  step_fits h b : fits w h -> 0 <= b < 256 -> fits w (step h b);
  step_state h h' b : fits w h -> fits w h' -> 0 <= b < 256 -> step h b = step h' b -> h = h';
  step_byte h b b' : fits w h -> 0 <= b < 256 -> 0 <= b' < 256 -> step h b = step h b' -> b = b'
}.

Section Reversible.
Context {w : Z} {step : Z -> Z -> Z} `{!ReversibleStep w step}.

Lemma fold_fits data h : fits w h -> Forall (fun b => 0 <= b < 256) data -> fits w (fold_left step data h).
Proof.
  intros Hh Hd. revert h Hh. induction Hd as [|b data Hb _ IH]; intros h Hh; cbn [fold_left]; [done|].
  apply IH. by apply step_fits.
Qed.

Lemma fold_state data h h' :
  fits w h -> fits w h' -> Forall (fun b => 0 <= b < 256) data ->
  fold_left step data h = fold_left step data h' -> h = h'.
Proof.
  intros Hh Hh' Hd. revert h h' Hh Hh'. induction Hd as [|b data Hb _ IH]; intros h h' Hh Hh' E; cbn [fold_left] in E; [done|].
  apply (step_state h h' b); try done. apply IH; try done; by apply step_fits.
Qed.

Lemma fold_single_change pre post b b' h :
  fits w h -> Forall (fun b => 0 <= b < 256) (pre ++ b :: post) -> 0 <= b' < 256 ->
  fold_left step (pre ++ b :: post) h = fold_left step (pre ++ b' :: post) h -> b = b'.
Proof.
  intros Hh Hd Hb' E. apply Forall_app in Hd as [Hpre Hd]. inversion_clear Hd as [|? ? Hb Hpost].
  rewrite !fold_left_app in E. cbn [fold_left] in E. pose proof (fold_fits pre h Hh Hpre).
  apply fold_state in E; try done; [|by apply step_fits..]. by apply (step_byte (fold_left step pre h)).
Qed.
End Reversible.

Lemma byte_fits w b : 8 <= w -> 0 <= b < 256 -> fits w b.
Proof. unfold fits. intros Hw Hb. pose proof (Z.pow_le_mono_r 2 8 w ltac:(lia) Hw). change (2 ^ 8) with 256 in *. lia. Qed.

(** *** CRC *)

(** A reflected polynomial of degree 32 has its top bit set. *)
Definition top_bit (polynomial : Z) : Prop := 2 ^ 31 <= polynomial < 2 ^ 32.

Lemma crc_bit_fits p c : top_bit p -> fits 32 c -> fits 32 (crc_bit p c).
Proof.
  unfold top_bit. intros Hp Hc. unfold crc_bit. assert (fits 32 (Z.shiftr c 1)) by (by apply shiftr_fits).
  case_if; [|done]. apply lxor_fits; [done|done|unfold fits; pow_lit; lia].
Qed.

Lemma land_1 c : (Z.land c 1 =? 0) = (c mod 2 =? 0).
Proof. change 1 with (2 ^ 1 - 1) at 1. rewrite land_low_mask by lia. done. Qed.

Lemma crc_bit_inj p c c' : top_bit p -> fits 32 c -> fits 32 c' -> crc_bit p c = crc_bit p c' -> c = c'.
Proof.
  intros Hp Hc Hc'. unfold crc_bit. rewrite !land_1, !shiftr_div by lia. change (2 ^ 1) with 2.
  assert (T : forall x y, fits 32 x -> Z.lxor (x / 2) p <> y / 2 \/ ~ fits 32 y).
  { intros x y Hx. destruct (decide (0 <= y < 2 ^ 32)) as [Hy|]; [left|right; unfold fits; tauto]. intros E.
    assert (B : Z.testbit (Z.lxor (x / 2) p) 31 = true).
    { unfold fits in Hx. rewrite Z.lxor_spec, (testbit_high (x / 2) 31) by (pow_lit; dlia). rewrite testbit_div by lia.
      unfold top_bit in Hp. replace (p / 2 ^ 31) with 1 by (pow_lit; dlia). done. }
    unfold fits in Hc. rewrite E, (testbit_high (y / 2) 31) in B by (pow_lit; dlia). done. }
  destruct (Z.eqb_spec (c mod 2) 0), (Z.eqb_spec (c' mod 2) 0); cbn [negb]; intros E.
  - dlia.
  - symmetry in E. destruct (T c' c Hc'); tauto.
  - destruct (T c c' Hc); tauto.
  - apply lxor_inj_r in E. dlia.
Qed.

Lemma crc_bits_fits p n c : top_bit p -> fits 32 c -> fits 32 (Nat.iter n (crc_bit p) c).
Proof. intros Hp Hc. induction n as [|n IH]; [done|]. by apply crc_bit_fits. Qed.

Lemma crc_bits_inj p n c c' :
  top_bit p -> fits 32 c -> fits 32 c' -> Nat.iter n (crc_bit p) c = Nat.iter n (crc_bit p) c' -> c = c'.
Proof.
  intros Hp Hc Hc'. induction n as [|n IH]; [done|]. intros E. apply crc_bit_inj in E; try done; [by apply IH|..];
  by apply crc_bits_fits.
Qed.

Lemma crc_reversible p : top_bit p -> ReversibleStep 32 (crc_byte p).
Proof.
  intros Ht.
  assert (F : forall h b, fits 32 h -> 0 <= b < 256 -> fits 32 (Z.lxor h b)) by (intros; apply lxor_fits; [done|done|by apply byte_fits]).
  split; unfold crc_byte.
  - intros h b Hh Hb. apply crc_bits_fits; auto.
  - intros h h' b Hh Hh' Hb E. apply crc_bits_inj in E; auto. by apply lxor_inj_r in E.
  - intros h b b' Hh Hb Hb' E. apply crc_bits_inj in E; auto. by apply lxor_inj_l in E.
Qed.

(** *** FNV-1a and Jenkins *)

#[export] Instance fnv1a_reversible : ReversibleStep 64 (fun hash b => u64 (Z.lxor hash b * 0x100000001b3)).
Proof.
  assert (F : forall h b, fits 64 h -> 0 <= b < 256 -> fits 64 (Z.lxor h b)) by (intros; apply lxor_fits; [done|done|by apply byte_fits]).
  split.
  - intros h b Hh Hb. by apply wrap_range.
  - intros h h' b Hh Hh' Hb E. apply wrap_mul_inj in E; auto; [|done]. by apply lxor_inj_r in E.
  - intros h b b' Hh Hb Hb' E. apply wrap_mul_inj in E; auto; [|done]. by apply lxor_inj_l in E.
Qed.

Lemma wrap_add_inj_l w a x y : 0 <= w -> fits w x -> fits w y -> wrap w (a + x) = wrap w (a + y) -> x = y.
Proof. intros Hw. rewrite !(Z.add_comm a). by apply wrap_add_inj. Qed.

#[export] Instance joaat_reversible : ReversibleStep 32 joaat_step.
Proof.
  assert (S : forall x y, fits 32 x -> fits 32 y ->
    Z.lxor (u32 (x + u32 (Z.shiftl x 10))) (Z.shiftr (u32 (x + u32 (Z.shiftl x 10))) 6) =
    Z.lxor (u32 (y + u32 (Z.shiftl y 10))) (Z.shiftr (u32 (y + u32 (Z.shiftl y 10))) 6) -> x = y).
  { intros x y Hx Hy E. apply (xorshift_inj 32) in E; try done; try by apply wrap_range. by apply shift_add_inj in E. }
  split; unfold joaat_step; cbn zeta.
  - intros h b Hh Hb. apply lxor_fits; [done|by apply wrap_range|]. by apply shiftr_fits, wrap_range.
  - intros h h' b Hh Hh' Hb E. apply S in E; try by apply wrap_range. by apply wrap_add_inj in E.
  - intros h b b' Hh Hb Hb' E. apply S in E; try by apply wrap_range.
    apply wrap_add_inj_l in E; try done; by apply byte_fits.
Qed.

Lemma wrap_shift_add' w x k : 0 <= w -> 0 < k -> wrap w (x + Z.shiftl x k) = wrap w (x * (1 + 2 ^ k)).
Proof. intros Hw Hk. rewrite Z.shiftl_mul_pow2 by lia. f_equal. lia. Qed.

Lemma shift_add_inj' w k x y :
  0 <= w -> 0 < k -> fits w x -> fits w y -> wrap w (x + Z.shiftl x k) = wrap w (y + Z.shiftl y k) -> x = y.
Proof. intros Hw Hk Hx Hy. rewrite !wrap_shift_add' by done. apply wrap_mul_inj; try done. by apply odd_shift. Qed.

Lemma wrap_xorshift w x k : 0 <= w -> 0 <= k -> fits w x -> wrap w (Z.lxor x (Z.shiftr x k)) = Z.lxor x (Z.shiftr x k).
Proof. intros Hw Hk Hx. apply wrap_small, lxor_fits; [done|done|by apply shiftr_fits]. Qed.

#[export] Instance joaat16_reversible : ReversibleStep 16 joaat16_step.
Proof.
  assert (S : forall x y, fits 16 x -> fits 16 y ->
    u16 (Z.lxor (u16 (x + Z.shiftl x 5)) (Z.shiftr (u16 (x + Z.shiftl x 5)) 3)) =
    u16 (Z.lxor (u16 (y + Z.shiftl y 5)) (Z.shiftr (u16 (y + Z.shiftl y 5)) 3)) -> x = y).
  { intros x y Hx Hy E. rewrite !wrap_xorshift in E by (try done; by apply wrap_range).
    apply (xorshift_inj 16) in E; try done; try by apply wrap_range. by apply shift_add_inj' in E. }
  split; unfold joaat16_step; cbn zeta.
  - intros h b Hh Hb. by apply wrap_range.
  - intros h h' b Hh Hh' Hb E. apply S in E; try by apply wrap_range. by apply wrap_add_inj in E.
  - intros h b b' Hh Hb Hb' E. apply S in E; try by apply wrap_range.
    apply wrap_add_inj_l in E; try done; by apply byte_fits.
Qed.

(** *** The finishing steps are reversible too *)

Lemma not32_inj x y : fits 32 x -> fits 32 y -> not32 x = not32 y -> x = y.
Proof. unfold not32, fits, wrap, Z.lnot. intros. dlia. Qed.

Lemma joaat_finish_inj x y :
  fits 32 x -> fits 32 y ->
  (let hash := u32 (x + u32 (Z.shiftl x 3)) in let hash := Z.lxor hash (Z.shiftr hash 11) in u32 (hash + u32 (Z.shiftl hash 15))) =
  (let hash := u32 (y + u32 (Z.shiftl y 3)) in let hash := Z.lxor hash (Z.shiftr hash 11) in u32 (hash + u32 (Z.shiftl hash 15))) ->
  x = y.
Proof.
  cbn zeta. intros Hx Hy E.
  apply shift_add_inj in E; try done; try (apply lxor_fits; [done|by apply wrap_range|]; by apply shiftr_fits, wrap_range).
  apply (xorshift_inj 32) in E; try done; try by apply wrap_range. by apply shift_add_inj in E.
Qed.

Lemma joaat16_finish_inj x y :
  fits 16 x -> fits 16 y ->
  (let hash := u16 (x + Z.shiftl x 2) in let hash := u16 (Z.lxor hash (Z.shiftr hash 4)) in u16 (hash + Z.shiftl hash 7)) =
  (let hash := u16 (y + Z.shiftl y 2) in let hash := u16 (Z.lxor hash (Z.shiftr hash 4)) in u16 (hash + Z.shiftl hash 7)) ->
  x = y.
Proof.
  cbn zeta. intros Hx Hy E. apply shift_add_inj' in E; try done; try by apply wrap_range.
  rewrite !wrap_xorshift in E by (try done; by apply wrap_range).
  apply (xorshift_inj 16) in E; try done; try by apply wrap_range. by apply shift_add_inj' in E.
Qed.

(** Error detection: two byte strings that differ in exactly one byte, anywhere,
    have different CRC-32 (for every polynomial of degree 32 and every running value),
    different FNV-1a and different Jenkins hashes of both widths. *)
Theorem hashes_detect_byte_change pre post b b' polynomial prev :
  Forall (fun b => 0 <= b < 256) (pre ++ b :: post) -> 0 <= b' < 256 -> b <> b' ->
  top_bit polynomial -> fits 32 prev ->
  CRC32_SW (pre ++ b :: post) polynomial prev <> CRC32_SW (pre ++ b' :: post) polynomial prev /\
  HashBytes (pre ++ b :: post) <> HashBytes (pre ++ b' :: post) /\
  Joaat (pre ++ b :: post) <> Joaat (pre ++ b' :: post) /\
  Joaat16 (pre ++ b :: post) <> Joaat16 (pre ++ b' :: post).
Proof.
  intros Hd Hb' Hne Hp Hprev. pose proof (crc_reversible polynomial Hp) as HC.
  assert (Hd' : Forall (fun b => 0 <= b < 256) (pre ++ b' :: post)).
  { apply Forall_app in Hd as [H1 H2]. inversion_clear H2. apply Forall_app. split; [done|by constructor]. }
  assert (H0 : forall w, 0 <= w -> fits w 0) by (intros w Hw; pose proof (pow2_pos w Hw); unfold fits; lia).
  split; [|split; [|split]]; intros E; apply Hne.
  - apply not32_inj in E; try by apply fold_fits. by apply fold_single_change in E.
  - apply (fold_single_change (w := 64)) in E; try done.
  - apply joaat_finish_inj in E; try (apply fold_fits; [by apply H0|done]). by apply fold_single_change in E.
  - apply joaat16_finish_inj in E; try (apply fold_fits; [by apply H0|done]). by apply fold_single_change in E.
Qed.

Lemma hashes_detect_byte_change_witness :
  CRC32_SW [1; 2; 3] crc32_polynomial 0xFFFFFFFF <> CRC32_SW [1; 200; 3] crc32_polynomial 0xFFFFFFFF /\
  HashBytes [1; 2; 3] <> HashBytes [1; 200; 3] /\ Joaat [1; 2; 3] <> Joaat [1; 200; 3] /\ Joaat16 [1; 2; 3] <> Joaat16 [1; 200; 3].
Proof.
  apply (hashes_detect_byte_change [1] [3] 2 200); [repeat constructor; lia|lia|lia|unfold top_bit, crc32_polynomial; pow_lit; lia|unfold fits; pow_lit; lia].
Defined.

(** ** CRC over pieces, and on the processors' instructions *)

Lemma not32_involutive x : fits 32 x -> not32 (not32 x) = x.
Proof. unfold not32, fits, wrap, Z.lnot. intros. dlia. Qed.

Lemma crc_fold_fits p data c :
  top_bit p -> fits 32 c -> Forall (fun b => 0 <= b < 256) data -> fits 32 (fold_left (crc_byte p) data c).
Proof. intros Hp Hc Hd. pose proof (crc_reversible p Hp). by apply fold_fits. Qed.

(** A CRC can be computed over pieces: [CRC32C_SW] of a concatenation is its value
    on the second part started from the value of the first, and [CRC32_SW] likewise
    from the complement of it. *)
Theorem crc_pieces a b polynomial prev :
  top_bit polynomial -> fits 32 prev -> Forall (fun b => 0 <= b < 256) a ->
  CRC32C_SW (a ++ b) polynomial prev = CRC32C_SW b polynomial (CRC32C_SW a polynomial prev) /\
  CRC32_SW (a ++ b) polynomial prev = CRC32_SW b polynomial (not32 (CRC32_SW a polynomial prev)).
Proof.
  intros Hp Hprev Ha. unfold CRC32C_SW, CRC32_SW. rewrite !fold_left_app.
  rewrite !not32_involutive by (apply crc_fold_fits; try done; by apply wrap_range). done.
Qed.

Lemma crc_pieces_witness :
  CRC32C_SW [1; 2; 3] castagnoli 7 = CRC32C_SW [3] castagnoli (CRC32C_SW [1; 2] castagnoli 7) /\
  CRC32_SW [1; 2; 3] castagnoli 7 = CRC32_SW [3] castagnoli (not32 (CRC32_SW [1; 2] castagnoli 7)).
Proof.
  apply (crc_pieces [1; 2] [3] castagnoli 7); [unfold top_bit, castagnoli; pow_lit; lia|unfold fits; pow_lit; lia|repeat constructor; lia].
Defined.

Section HardwareSpec.
Variable mm_crc32_u8 : Z -> Z -> Z.
Variables crc32cb crc32cd : Z -> Z -> Z.

(** The documented behaviour of the instructions: CRC-32C of a byte, and of the eight
    bytes of a little-endian doubleword. *)
Hypothesis mm_crc32_u8_spec : forall crc b, mm_crc32_u8 crc b = crc_byte castagnoli crc b.
Hypothesis crc32cb_spec : forall crc b, crc32cb crc b = crc_byte castagnoli crc b.
Hypothesis crc32cd_spec : forall crc bytes,
  length bytes = 8%nat -> Forall (fun b => 0 <= b < 256) bytes ->
  crc32cd crc (lval 256 bytes) = fold_left (crc_byte castagnoli) bytes crc.

Lemma fold_ext (f g : Z -> Z -> Z) l c : (forall x y, f x y = g x y) -> fold_left f l c = fold_left g l c.
Proof. intros E. revert c. induction l as [|b l IH]; intros c; cbn [fold_left]; [done|]. by rewrite E, IH. Qed.

Lemma crc32cd_loop_spec fuel data crc :
  Forall (fun b => 0 <= b < 256) data ->
  let '(rest, crc') := crc32cd_loop crc32cd fuel data crc in
  fold_left (crc_byte castagnoli) rest crc' = fold_left (crc_byte castagnoli) data crc.
Proof.
  revert data crc. induction fuel as [|fuel IH]; intros data crc Hd; cbn [crc32cd_loop]; [done|].
  destruct (Nat.leb_spec 8 (length data)); [|done].
  specialize (IH (drop 8 data) (crc32cd crc (lval 256 (take 8 data))) (Forall_drop _ _ _ Hd)). destruct (crc32cd_loop _ _ _ _) as [rest crc'].
  rewrite IH, crc32cd_spec by (by apply length_take_le || apply Forall_take). by rewrite <- fold_left_app, take_drop.
Qed.

(** The hardware paths of [CRC32C] agree with the portable loop: on x86 a byte at
    a time, on ARM eight bytes at a time with the remainder byte by byte. *)
Theorem CRC32C_hardware data previousCrc32 :
  Forall (fun b => 0 <= b < 256) data ->
  CRC32C_x86 mm_crc32_u8 data previousCrc32 = CRC32C_SW data castagnoli previousCrc32 /\
  CRC32C_arm crc32cb crc32cd data previousCrc32 = CRC32C_SW data castagnoli previousCrc32.
Proof.
  intros Hd. unfold CRC32C_x86, CRC32C_arm, CRC32C_SW. split; [by rewrite (fold_ext _ _ _ _ mm_crc32_u8_spec)|].
  pose proof (crc32cd_loop_spec (S (length data)) data (not32 previousCrc32) Hd) as L.
  destruct (crc32cd_loop _ _ _ _) as [rest crc]. by rewrite (fold_ext _ _ _ _ crc32cb_spec), L.
Qed.
End HardwareSpec.

(** An instruction that splits its operand into bytes satisfies the description. *)
Definition crc32cd_example (crc w : Z) : Z :=
  fold_left (crc_byte castagnoli) (map (fun i => w / 256 ^ Z.of_nat i mod 256) (seq 0 8)) crc.

Lemma crc32cd_example_spec crc bytes :
  length bytes = 8%nat -> Forall (fun b => 0 <= b < 256) bytes ->
  crc32cd_example crc (lval 256 bytes) = fold_left (crc_byte castagnoli) bytes crc.
Proof.
  intros Hl Hd. unfold crc32cd_example. f_equal.
  assert (G : forall n l, length l = n -> Forall (fun b => 0 <= b < 256) l ->
    map (fun i => lval 256 l / 256 ^ Z.of_nat i mod 256) (seq 0 n) = l).
  { clear. induction n as [|n IH]; intros l Hl Hd; [by destruct l|]. destruct Hd as [|b l Hb Hd]; [done|].
    cbn [seq map lval]. rewrite Z.pow_0_r, Z.div_1_r. f_equal; [dlia|]. rewrite <- seq_shift, map_map.
    etransitivity; [|exact (IH l ltac:(cbn in Hl; lia) Hd)]. apply map_ext. intros i.
    rewrite Nat2Z.inj_succ, Z.pow_succ_r by lia. rewrite <- Z.div_div by (try apply Z.pow_pos_nonneg; lia).
    do 2 f_equal. dlia. }
  by apply G.
Qed.

Lemma CRC32C_hardware_witness :
  CRC32C_x86 (crc_byte castagnoli) [1; 2; 3; 4; 5; 6; 7; 8; 9] 0 = CRC32C_SW [1; 2; 3; 4; 5; 6; 7; 8; 9] castagnoli 0 /\
  CRC32C_arm (crc_byte castagnoli) crc32cd_example [1; 2; 3; 4; 5; 6; 7; 8; 9] 0 = CRC32C_SW [1; 2; 3; 4; 5; 6; 7; 8; 9] castagnoli 0.
Proof.
  apply (CRC32C_hardware (crc_byte castagnoli) (crc_byte castagnoli) crc32cd_example); [done|done|exact crc32cd_example_spec|].
  repeat constructor; lia.
Defined.

(** The fallback of [CRC32C] hands its running value to [CRC32C_SW] in the place of
    the polynomial: with the default arguments it divides by 0xFFFFFFFF and its
    result is not the CRC-32C of the data. *)
Theorem CRC32C_fallback_wrong :
  CRC32C_fallback [0x61] 0xFFFFFFFF = CRC32C_SW [0x61] 0xFFFFFFFF 0xFFFFFFFF /\
  CRC32C_fallback [0x61] 0xFFFFFFFF <> CRC32C_SW [0x61] castagnoli 0xFFFFFFFF.
Proof. split; [done|]. vm_compute. discriminate. Qed.

(** ** [Mix64] is a bijection *)

(** The integer hash has no collisions: [Hash] maps different 64-bit keys to
    different values. *)
Theorem Hash_injective x y : fits 64 x -> fits 64 y -> Hash x = Hash y -> x = y.
Proof.
  intros Hx Hy. unfold Hash. rewrite !wrap_small by done. unfold Mix64. cbn zeta. intros E.
  assert (X : forall k z, 0 <= k -> fits 64 z -> fits 64 (Z.lxor z (Z.shiftr z k))).
  { intros k z Hk Hz. apply lxor_fits; [done|done|by apply shiftr_fits]. }
  apply (xorshift_inj 64) in E; try done; try by apply wrap_range.
  apply wrap_mul_inj in E; try done; try (apply X; [done|by apply wrap_range]).
  apply (xorshift_inj 64) in E; try done; try by apply wrap_range.
  apply wrap_mul_inj in E; try done; try (apply X; [done|by apply wrap_range]).
  apply (xorshift_inj 64) in E; try done; try by apply wrap_range.
  by apply wrap_add_inj in E.
Qed.

Lemma Hash_injective_witness : fits 64 5 /\ (Hash 5 = Hash 5 -> 5 = 5).
Proof. split; [unfold fits; pow_lit; lia|]. apply (Hash_injective 5 5); unfold fits; pow_lit; lia. Defined.

(** ** String hashes: what they do not see *)

Lemma elf_step_eq h c : elf_step h c = u32 (h * 16 + c).
Proof.
  unfold elf_step. cbn zeta. set (x := u32 (u32 (Z.shiftl h 4) + c)).
  assert (Hx : fits 32 x) by (by apply wrap_range).
  assert (Hh : Z.land x 0xF000000000000000 = 0).
  { apply Z.bits_inj'. intros i Hi. rewrite Z.land_spec, Z.bits_0. destruct (Z_lt_ge_dec i 32).
    - change 0xF000000000000000 with (Z.shiftl 15 60). rewrite Z.shiftl_spec_low by lia. apply andb_false_r.
    - by rewrite (testbit_high x 32) by (unfold fits in Hx; lia). }
  rewrite Hh. change (u32 0) with 0. change (u32 (Z.lnot 0)) with (2 ^ 32 - 1). cbn [Z.eqb negb].
  rewrite land_low_mask by lia. change (x mod 2 ^ 32) with (u32 x). rewrite wrap_small by done. unfold x.
  rewrite Z.shiftl_mul_pow2 by lia. by rewrite wrap_add_idemp.
Qed.

Lemma elf_fold_shift s h d :
  fold_left elf_step s (h + d) mod 2 ^ 32 = (fold_left elf_step s h + d * 16 ^ Z.of_nat (length s)) mod 2 ^ 32.
Proof.
  revert h d. induction s as [|c s IH]; intros h d; cbn [fold_left length]; [f_equal; lia|].
  rewrite !elf_step_eq. rewrite Nat2Z.inj_succ, Z.pow_succ_r by lia.
  assert (E : exists q, u32 ((h + d) * 16 + c) = u32 (h * 16 + c) + (d * 16 + q * 2 ^ 32)).
  { unfold wrap. exists ((h * 16 + c) / 2 ^ 32 - ((h + d) * 16 + c) / 2 ^ 32).
    rewrite !Z.mod_eq by lia. lia. }
  destruct E as [q ->]. rewrite IH. replace (fold_left elf_step s (u32 (h * 16 + c)) + (d * 16 + q * 2 ^ 32) * 16 ^ Z.of_nat (length s))
    with (fold_left elf_step s (u32 (h * 16 + c)) + d * (16 * 16 ^ Z.of_nat (length s)) + q * 16 ^ Z.of_nat (length s) * 2 ^ 32) by lia.
  by rewrite Z_mod_plus_full.
Qed.

(** [ElfHash] folds nothing back: its mask selects bits that a 32-bit value does
    not have, so the hash of a text depends on its last eight characters only. *)
Theorem ElfHash_last_eight pre s : (8 <= length s)%nat -> ElfHash (pre ++ s) = ElfHash s.
Proof.
  intros Hl. unfold ElfHash. rewrite fold_left_app. set (h := fold_left elf_step pre 0).
  assert (F : forall x, fits 32 (fold_left elf_step s x)).
  { destruct s as [|c s] using rev_ind; [cbn in Hl; lia|]. intros x. rewrite fold_left_app. cbn [fold_left].
    rewrite elf_step_eq. by apply wrap_range. }
  pose proof (elf_fold_shift s 0 h) as E. rewrite Z.add_0_l in E.
  replace (Z.of_nat (length s)) with (8 + Z.of_nat (length s - 8)) in E by lia.
  rewrite Z.pow_add_r in E by lia. change (16 ^ 8) with (2 ^ 32) in E.
  replace (h * (2 ^ 32 * 16 ^ Z.of_nat (length s - 8))) with (h * 16 ^ Z.of_nat (length s - 8) * 2 ^ 32) in E by ring.
  rewrite Z_mod_plus_full, !Z.mod_small in E by apply F. done.
Qed.

Lemma ElfHash_last_eight_witness :
  ElfHash ([120; 121] ++ [97; 98; 99; 100; 101; 102; 103; 104]) = ElfHash [97; 98; 99; 100; 101; 102; 103; 104].
Proof. apply (ElfHash_last_eight [120; 121]). cbn. lia. Defined.

(** The second accumulator of [Djb2Hash64] does not accumulate: each step
    recomputes it from the first, so its seed never matters. *)
Theorem Djb2Hash64_second_seed str hash hash2 hash2' :
  Djb2Hash64 str hash hash2 = Djb2Hash64 str hash hash2'.
Proof.
  unfold Djb2Hash64. destruct str as [[|c str]|]; [done| |done]. cbn [fold_left djb2_step64]. done.
Qed.

Lemma fnv_step_ascii h c : 0 <= c < 256 -> fnv_step 64 0x100000001b3 h c = u64 (Z.lxor h c * 0x100000001b3).
Proof. intros Hc. unfold fnv_step. by rewrite (wrap_small 64 c) by (by apply byte_fits). Qed.

(** The two FNV-1a functions agree on non-empty ASCII text and nowhere else by
    design: on the empty text the string version answers zero instead of the offset
    basis, and a character above 127 is sign-extended before it is mixed in. *)
Theorem FNV1a64_agrees str :
  Forall (fun c => 0 <= c < 128) str ->
  FNV1a64 (Some str) = (if bool_decide (str = []) then 0 else fnv1a str) /\
  FNV1a64 (Some [-1]) <> fnv1a [0xFF] /\ fnv1a [] <> 0.
Proof.
  intros Hs. split; [|split; vm_compute; discriminate]. destruct str as [|c str]; [done|].
  rewrite bool_decide_eq_false_2 by done. unfold FNV1a64, FNV1a, fnv1a. generalize 0xcbf29ce484222325 as h.
  induction Hs as [|d l Hd _ IH]; intros h; cbn [fold_left]; [done|]. rewrite fnv_step_ascii by lia. apply IH.
Qed.

Lemma FNV1a64_agrees_witness :
  FNV1a64 (Some [97; 98]) = fnv1a [97; 98] /\ FNV1a64 (Some [-1]) <> fnv1a [0xFF] /\ fnv1a [] <> 0.
Proof. apply (FNV1a64_agrees [97; 98]). repeat constructor; lia. Defined.
