(* ===== verification/Sha256.v ===== *)
(** * [src/base/hashing/sha256.cc]

    The incremental SHA-256 context: [Transform], [Update] and [Finalize] as written,
    with the 64-byte buffer that carries the unprocessed tail, and the FIPS 180-4
    padding as the specification of what they compute. *)

From S2P Require Import Prelude.

(** Eight words of the table, written as one number. *)
Definition row_words (row : Z) : list Z := map (fun i => u32 (Z.shiftr row (32 * i))) [7; 6; 5; 4; 3; 2; 1; 0].

Definition kK : list Z := Eval cbv in flat_map row_words
  [0x428a2f9871374491b5c0fbcfe9b5dba53956c25b59f111f1923f82a4ab1c5ed5;
   0xd807aa9812835b01243185be550c7dc372be5d7480deb1fe9bdc06a7c19bf174;
   0xe49b69c1efbe47860fc19dc6240ca1cc2de92c6f4a7484aa5cb0a9dc76f988da;
   0x983e5152a831c66db00327c8bf597fc7c6e00bf3d5a7914706ca635114292967;
   0x27b70a852e1b21384d2c6dfc53380d13650a7354766a0abb81c2c92e92722c85;
   0xa2bfe8a1a81a664bc24b8b70c76c51a3d192e819d6990624f40e3585106aa070;
   0x19a4c1161e376c082748774c34b0bcb5391c0cb34ed8aa4a5b9cca4f682e6ff3;
   0x748f82ee78a5636f84c878148cc7020890befffaa4506cebbef9a3f7c67178f2].

Definition Rotr (x n : Z) : Z := Z.lor (Z.shiftr x n) (u32 (Z.shiftl x (32 - n))).
Definition Ch (x y z : Z) : Z := Z.lxor (Z.land x y) (Z.land (u32 (Z.lnot x)) z).
Definition Maj (x y z : Z) : Z := Z.lxor (Z.lxor (Z.land x y) (Z.land x z)) (Z.land y z).
Definition Sigma0 (x : Z) : Z := Z.lxor (Z.lxor (Rotr x 2) (Rotr x 13)) (Rotr x 22).
Definition Sigma1 (x : Z) : Z := Z.lxor (Z.lxor (Rotr x 6) (Rotr x 11)) (Rotr x 25).
Definition sigma0 (x : Z) : Z := Z.lxor (Z.lxor (Rotr x 7) (Rotr x 18)) (Z.shiftr x 3).
Definition sigma1 (x : Z) : Z := Z.lxor (Z.lxor (Rotr x 17) (Rotr x 19)) (Z.shiftr x 10).

Record Sha256Ctx := mkCtx { state : list Z; count : Z; buffer : list Z }.

(** The constructor leaves [buffer] uninitialised: its contents are an argument. *)
Definition new_ctx (uninitialised : list Z) : Sha256Ctx :=
  mkCtx [0x6a09e667; 0xbb67ae85; 0x3c6ef372; 0xa54ff53a; 0x510e527f; 0x9b05688c; 0x1f83d9ab; 0x5be0cd19]
        0 uninitialised.

Definition nthZ (l : list Z) (i : nat) : Z := List.nth i l 0.

Definition block_word (block : list Z) (i : nat) : Z :=
  Z.lor (Z.lor (Z.lor (Z.shiftl (nthZ block (i * 4)) 24) (Z.shiftl (nthZ block (i * 4 + 1)) 16))
               (Z.shiftl (nthZ block (i * 4 + 2)) 8)) (nthZ block (i * 4 + 3)).

(** [for (i = 16; i < 64; ++i) w[i] = ...]: the schedule grown by [n] words. *)
Fixpoint extend_schedule (n : nat) (w : list Z) : list Z :=
  match n with
  | O => w
  | S n =>
      let i := length w in
      extend_schedule n
        (w ++ [u32 (u32 (u32 (sigma1 (nthZ w (i - 2)) + nthZ w (i - 7)) + sigma0 (nthZ w (i - 15))) + nthZ w (i - 16))])
  end.

Definition schedule (block : list Z) : list Z := extend_schedule 48 (map (block_word block) (seq 0 16)).

(** The working variables [a..h]. *)
Record Vars := mkVars { va : Z; vb : Z; vc : Z; vd : Z; ve : Z; vf : Z; vg : Z; vh : Z }.

Definition round (w : list Z) (v : Vars) (i : nat) : Vars :=
  let t1 := u32 (u32 (u32 (u32 (vh v + Sigma1 (ve v)) + Ch (ve v) (vf v) (vg v)) + nthZ kK i) + nthZ w i) in
  let t2 := u32 (Sigma0 (va v) + Maj (va v) (vb v) (vc v)) in
  mkVars (u32 (t1 + t2)) (va v) (vb v) (vc v) (u32 (vd v + t1)) (ve v) (vf v) (vg v).

Definition Transform (st : list Z) (block : list Z) : list Z :=
  let w := schedule block in
  let v := fold_left (round w) (seq 0 64)
    (mkVars (nthZ st 0) (nthZ st 1) (nthZ st 2) (nthZ st 3) (nthZ st 4) (nthZ st 5) (nthZ st 6) (nthZ st 7)) in
  [u32 (nthZ st 0 + va v); u32 (nthZ st 1 + vb v); u32 (nthZ st 2 + vc v); u32 (nthZ st 3 + vd v);
   u32 (nthZ st 4 + ve v); u32 (nthZ st 5 + vf v); u32 (nthZ st 6 + vg v); u32 (nthZ st 7 + vh v)].

(** [MemCopy(buffer + at, data, n)]. *)
Definition copy_at (buffer : list Z) (pos : nat) (data : list Z) : list Z :=
  take pos buffer ++ data ++ drop (pos + length data) buffer.

(** [for (; i + 64 <= len; i += 64) Transform(data + i)]: the state and the rest. *)
Fixpoint transform_loop (fuel : nat) (st : list Z) (data : list Z) : list Z * list Z :=
  match fuel with
  | O => (st, data)
  | S fuel =>
      if Nat.leb 64 (length data) then transform_loop fuel (Transform st (take 64 data)) (drop 64 data)
      else (st, data)
  end.

Definition Update (ctx : Sha256Ctx) (data : list Z) : Sha256Ctx :=
  let index := Z.to_nat (count ctx mod 64) in
  let count' := u64 (count ctx + Z.of_nat (length data)) in
  let finish st buffer data :=
    let '(st, rest) := transform_loop (S (length data)) st data in
    mkCtx st count' (if Nat.ltb 0%nat (length rest) then copy_at buffer 0 rest else buffer) in
  if negb (Nat.eqb index 0) then
    let part := (64 - index)%nat in
    if Nat.leb part (length data) then
      let buffer := copy_at (buffer ctx) index (take part data) in
      finish (Transform (state ctx) buffer) buffer (drop part data)
    else mkCtx (state ctx) count' (copy_at (buffer ctx) index data)
  else finish (state ctx) (buffer ctx) data.

Definition be_bytes (n : nat) (x : Z) : list Z := map (fun i => u8 (Z.shiftr x (8 * Z.of_nat (n - 1 - i)))) (seq 0 n).

Definition Finalize (ctx : Sha256Ctx) : list Z :=
  let bits := u64 (count ctx * 8) in
  let index := count ctx mod 64 in
  let pad := if index <? 56 then u8 (56 - index) else u8 (120 - index) in
  let padding := 0x80 :: replicate 127 0 in
  let ctx := Update ctx (take (Z.to_nat pad) padding) in
  let ctx := Update ctx (be_bytes 8 bits) in
  concat (map (be_bytes 4) (state ctx)).

Definition Sha256 (uninitialised data : list Z) : list Z := Finalize (Update (new_ctx uninitialised) data).

(** ** The specification *)

Definition H0 : list Z := state (new_ctx []).

(** The first [n] blocks of a message. *)
Definition blocks (n : nat) (m : list Z) : list (list Z) := map (fun i => take 64 (drop (i * 64) m)) (seq 0 n).

(** The state after all whole blocks of a message. *)
Definition absorb (m : list Z) : list Z := fold_left Transform (blocks (length m / 64) m) H0.

(** FIPS 180-4, 5.1.1: a one bit, zeros up to 56 modulo 64, and the bit length. *)
Definition fips_pad (m : list Z) : list Z :=
  m ++ [0x80] ++ replicate (Z.to_nat ((55 - Z.of_nat (length m)) mod 64)) 0 ++ be_bytes 8 (8 * Z.of_nat (length m)).

Definition sha256 (m : list Z) : list Z := concat (map (be_bytes 4) (absorb (fips_pad m))).

(** ** The context represents the message absorbed so far *)

Record absorbed (ctx : Sha256Ctx) (m : list Z) : Prop := {
  ab_state : state ctx = absorb m;
  ab_count : count ctx = Z.of_nat (length m);
  ab_buffer : length (buffer ctx) = 64%nat;
  ab_tail : take (length m mod 64) (buffer ctx) = drop (length m / 64 * 64) m
}.

Lemma map_seq_add {A} (f : nat -> A) a n : map f (seq a n) = map (fun i => f (a + i)%nat) (seq 0 n).
Proof.
  revert a. induction n as [|n IH]; intros a; [done|]. cbn [seq map]. rewrite Nat.add_0_r. f_equal.
  rewrite IH, <- seq_shift, map_map. apply map_ext. intros i. f_equal. lia.
Qed.

Lemma blocks_split a b m1 m2 :
  length m1 = (a * 64)%nat -> blocks (a + b) (m1 ++ m2) = blocks a m1 ++ blocks b m2.
Proof.
  intros Hl. unfold blocks. rewrite seq_app, map_app. f_equal.
  - apply map_ext_in. intros i Hi. apply in_seq in Hi. rewrite drop_app_le by lia.
    rewrite take_app_le; [done|]. rewrite length_drop. lia.
  - rewrite Nat.add_0_l, map_seq_add. apply map_ext. intros i. rewrite drop_app_ge by lia. do 2 f_equal. lia.
Qed.

Lemma blocks_tail n m1 m2 : length m1 = (n * 64)%nat -> blocks n (m1 ++ m2) = blocks n m1.
Proof. intros Hl. rewrite <- (Nat.add_0_r n), blocks_split by done. by rewrite app_nil_r, Nat.add_0_r. Qed.

Lemma blocks_S n m : (64 <= length m)%nat -> blocks (S n) m = take 64 m :: blocks n (drop 64 m).
Proof.
  intros Hl. pose proof (blocks_split 1 n (take 64 m) (drop 64 m)) as X. rewrite take_drop in X.
  change (1 + n)%nat with (S n) in X. rewrite X by (rewrite length_take_le by lia; lia).
  unfold blocks at 1. cbn [seq map app Nat.mul]. change (drop 0 (take 64 m)) with (take 64 m). by rewrite take_take.
Qed.

Lemma div64_app a n : ((a * 64 + n) / 64 = a + n / 64)%nat.
Proof. rewrite Nat.div_add_l by lia. done. Qed.

Lemma transform_loop_spec fuel st m :
  (length m < fuel)%nat ->
  transform_loop fuel st m = (fold_left Transform (blocks (length m / 64) m) st, drop (length m / 64 * 64) m).
Proof.
  revert st m. induction fuel as [|fuel IH]; intros st m Hf; [lia|]. cbn [transform_loop].
  destruct (Nat.leb_spec 64 (length m)).
  - rewrite IH by (rewrite length_drop; lia). rewrite length_drop.
    assert (E : (length m / 64 = S ((length m - 64) / 64))%nat).
    { replace (length m) with (1 * 64 + (length m - 64))%nat at 1 by lia. rewrite div64_app. lia. }
    rewrite E, blocks_S, drop_drop by lia. done.
  - by rewrite Nat.div_small by lia.
Qed.

(** Absorbing whole blocks first. *)
Lemma absorb_app a m1 m2 :
  length m1 = (a * 64)%nat -> absorb (m1 ++ m2) = fold_left Transform (blocks (length m2 / 64) m2) (absorb m1).
Proof.
  intros Hl. unfold absorb. rewrite length_app, Hl, div64_app, blocks_split, fold_left_app by done.
  by rewrite Nat.div_mul by lia.
Qed.

Lemma copy_at_length b pos d : (pos + length d <= length b)%nat -> length (copy_at b pos d) = length b.
Proof. intros H. unfold copy_at. rewrite !length_app, length_take, length_drop. lia. Qed.

Lemma copy_at_take b pos d : (pos + length d <= length b)%nat -> take (pos + length d) (copy_at b pos d) = take pos b ++ d.
Proof.
  intros H. unfold copy_at. rewrite app_assoc, take_app_le by (rewrite length_app, length_take; lia).
  by rewrite take_ge by (rewrite length_app, length_take; lia).
Qed.

(** The processed blocks and the pending tail of a message. *)
Lemma message_split (m : list Z) :
  exists a full tail, m = full ++ tail /\ length full = (a * 64)%nat /\ a = (length m / 64)%nat /\
    length tail = (length m mod 64)%nat /\ tail = drop (length m / 64 * 64) m /\ full = take (length m / 64 * 64) m.
Proof.
  pose proof (Nat.div_mod_eq (length m) 64). pose proof (Nat.mod_upper_bound (length m) 64 ltac:(lia)).
  eexists _, (take (length m / 64 * 64) m), (drop (length m / 64 * 64) m). rewrite take_drop, length_drop, length_take.
  repeat split; lia.
Qed.

(** The part of [Update] after the buffer has been filled, or when it was empty. *)
Lemma finish_absorbed st b count' a full data :
  length full = (a * 64)%nat -> st = absorb full -> length b = 64%nat ->
  count' = Z.of_nat (length (full ++ data)) ->
  let '(st', rest) := transform_loop (S (length data)) st data in
  absorbed (mkCtx st' count' (if Nat.ltb 0%nat (length rest) then copy_at b 0 rest else b)) (full ++ data).
Proof.
  intros Hl -> Hb ->. rewrite transform_loop_spec by lia. set (rest := drop _ data).
  pose proof (Nat.div_mod_eq (length data) 64). pose proof (Nat.mod_upper_bound (length data) 64 ltac:(lia)).
  assert (Hr : length rest = (length data mod 64)%nat) by (unfold rest; rewrite length_drop; lia).
  assert (Hm : (length (full ++ data) mod 64 = length rest)%nat).
  { rewrite length_app, Hl, Hr, Nat.add_comm, Nat.Div0.mod_add. done. }
  split; cbn [state count buffer]; [by rewrite (absorb_app a)|done| |].
  - destruct (Nat.ltb_spec 0 (length rest)); [|done]. rewrite copy_at_length by lia. done.
  - rewrite Hm. transitivity rest.
    + destruct (Nat.ltb_spec 0 (length rest)).
      * pose proof (copy_at_take b 0 rest ltac:(lia)) as X. exact X.
      * destruct rest; [done|cbn in *; lia].
    + unfold rest. rewrite length_app, Hl, div64_app, Nat.mul_add_distr_r, <- Hl, <- drop_drop, drop_app_length. done.
Qed.

Lemma Update_absorbed ctx m data :
  absorbed ctx m -> Z.of_nat (length (m ++ data)) < 2 ^ 64 -> absorbed (Update ctx data) (m ++ data).
Proof.
  intros [H1 H2 H3 H4] Hlen. destruct (message_split m) as (a & full & tail & Em & Hf & Ha & Ht & Et & _).
  assert (Hi : Z.to_nat (count ctx mod 64) = length tail) by (rewrite H2, Ht; change 64 with (Z.of_nat 64); by rewrite <- Nat2Z.inj_mod, Nat2Z.id).
  assert (Hlt : (length tail < 64)%nat) by (rewrite Ht; apply Nat.mod_upper_bound; lia).
  assert (Hst : absorb m = absorb full).
  { rewrite Em, (absorb_app a) by done. by rewrite Nat.div_small by lia. }
  rewrite <- Et, <- Ht in H4. rewrite length_app in Hlen.
  unfold Update. rewrite Hi, H2, wrap_small by (unfold fits; lia).
  destruct (Nat.eqb_spec (length tail) 0) as [E0|E0]; cbn [negb].
  - destruct tail; [|done]. rewrite app_nil_r in Em. subst full.
    pose proof (finish_absorbed (state ctx) (buffer ctx) (Z.of_nat (length m) + Z.of_nat (length data)) a m data
      Hf H1 H3 ltac:(rewrite length_app; lia)) as X. by destruct (transform_loop _ _ _) as [? ?].
  - destruct (Nat.leb_spec (64 - length tail) (length data)).
    + set (p := take _ data). assert (Hp : length p = (64 - length tail)%nat) by (unfold p; rewrite length_take; lia).
      set (b := copy_at (buffer ctx) (length tail) p).
      assert (Hb : b = tail ++ p).
      { unfold b. rewrite <- (take_ge (copy_at _ _ _) (length tail + length p)) by (rewrite copy_at_length by lia; lia).
        rewrite copy_at_take by lia. by rewrite H4. }
      assert (Hfull : length (full ++ tail ++ p) = (S a * 64)%nat) by (rewrite !length_app; lia).
      assert (Hs : Transform (state ctx) b = absorb (full ++ tail ++ p)).
      { rewrite (absorb_app a) by done. rewrite length_app, Hp. replace (length tail + (64 - length tail))%nat with 64%nat by lia.
        change (64 / 64)%nat with 1%nat. rewrite blocks_S by (rewrite length_app; lia). cbn [fold_left blocks seq map].
        rewrite take_ge by (rewrite length_app; lia). by rewrite H1, Hst, Hb. }
      assert (Hd : m ++ data = (full ++ tail ++ p) ++ drop (64 - length tail) data).
      { rewrite Em, <- !app_assoc. unfold p. by rewrite take_drop. }
      rewrite Hd. pose proof (finish_absorbed _ b (Z.of_nat (length m) + Z.of_nat (length data)) (S a) _ (drop (64 - length tail) data)
        Hfull Hs ltac:(rewrite Hb, length_app; lia) ltac:(rewrite <- Hd, length_app; lia)) as X. by destruct (transform_loop _ _ _) as [? ?].
    + assert (Hd : m ++ data = full ++ (tail ++ data)) by (by rewrite Em, <- app_assoc).
      assert (Hm : (length (m ++ data) / 64 = a /\ length (m ++ data) mod 64 = length tail + length data)%nat).
      { rewrite Hd, !length_app, Hf. rewrite div64_app, Nat.div_small by lia. split; [lia|].
        rewrite Nat.add_comm, Nat.Div0.mod_add, Nat.mod_small by lia. done. }
      destruct Hm as [Hm1 Hm2]. split; cbn [state count buffer].
      * rewrite Hd, (absorb_app a), length_app, Nat.div_small by (try done; lia). cbn. by rewrite H1, Hst.
      * rewrite length_app. lia.
      * rewrite copy_at_length by lia. done.
      * rewrite Hm1, Hm2, copy_at_take, H4, Hd by lia. rewrite <- Hf, drop_app_length. done.
Qed.

Lemma new_ctx_absorbed u : length u = 64%nat -> absorbed (new_ctx u) [].
Proof. intros Hu. by split. Qed.

Lemma be_bytes_length n x : length (be_bytes n x) = n.
Proof. unfold be_bytes. by rewrite length_map, length_seq. Qed.

(** The padding [Finalize] selects from its table is the one of the standard. *)
Lemma padding_fips n :
  let index := Z.of_nat n mod 64 in
  let pad := if index <? 56 then u8 (56 - index) else u8 (120 - index) in
  take (Z.to_nat pad) (0x80 :: replicate 127 0) = [0x80] ++ replicate (Z.to_nat ((55 - Z.of_nat n) mod 64)) 0 /\
  ((n + Z.to_nat pad + 8) mod 64 = 0)%nat.
Proof.
  cbn zeta. pose proof (Z.mod_pos_bound (Z.of_nat n) 64 ltac:(lia)).
  assert (P : (if Z.of_nat n mod 64 <? 56 then u8 (56 - Z.of_nat n mod 64) else u8 (120 - Z.of_nat n mod 64)) = (55 - Z.of_nat n) mod 64 + 1).
  { case_if; rewrite wrap_small by (unfold fits; pow_lit; lia); dlia. }
  rewrite P. pose proof (Z.mod_pos_bound (55 - Z.of_nat n) 64 ltac:(lia)). split.
  - replace (Z.to_nat ((55 - Z.of_nat n) mod 64 + 1)) with (S (Z.to_nat ((55 - Z.of_nat n) mod 64))) by lia.
    cbn [take app]. f_equal. rewrite take_replicate. f_equal. lia.
  - apply Nat2Z.inj. rewrite Nat2Z.inj_mod, !Nat2Z.inj_add, Z2Nat.id by lia. dlia.
Qed.

Lemma Finalize_absorbed ctx m :
  absorbed ctx m -> Z.of_nat (length m) < 2 ^ 61 -> Finalize ctx = sha256 m.
Proof.
  intros Ha Hl. assert (E61 : 2 ^ 64 = 8 * 2 ^ 61) by done. unfold Finalize. rewrite (ab_count _ _ Ha).
  rewrite (wrap_small 64 (Z.of_nat (length m) * 8)) by (unfold fits; lia).
  destruct (padding_fips (length m)) as [P1 P2]. cbn zeta in P1, P2. cbn zeta.
  set (pad := if Z.of_nat (length m) mod 64 <? 56 then _ else _) in *. rewrite P1.
  set (zeros := [128] ++ replicate _ 0) in *.
  assert (Hz : (length zeros <= 64)%nat).
  { unfold zeros. cbn [app length]. rewrite length_replicate. pose proof (Z.mod_pos_bound (55 - Z.of_nat (length m)) 64 ltac:(lia)). lia. }
  assert (H61 : 2 ^ 61 = 2305843009213693952) by done.
  pose proof (Update_absorbed ctx m zeros Ha ltac:(rewrite length_app; lia)) as A1.
  pose proof (Update_absorbed _ _ (be_bytes 8 (Z.of_nat (length m) * 8)) A1 ltac:(rewrite !length_app, be_bytes_length; lia)) as A2.
  unfold sha256, fips_pad. fold zeros. rewrite (ab_state _ _ A2). unfold zeros.
  rewrite (Z.mul_comm 8), <- !app_assoc. done.
Qed.

Lemma chunks_absorbed chunks ctx m :
  absorbed ctx m -> Z.of_nat (length (m ++ concat chunks)) < 2 ^ 64 ->
  absorbed (fold_left Update chunks ctx) (m ++ concat chunks).
Proof.
  revert ctx m. induction chunks as [|c chunks IH]; intros ctx m Ha Hl; cbn [fold_left concat] in *; [by rewrite app_nil_r|].
  rewrite app_assoc in *. apply IH; [|done]. apply Update_absorbed; [done|]. rewrite length_app in Hl. lia.
Qed.



(** The hash of "abc" is the value published with the standard. *)
Theorem Sha256_abc uninitialised :
  length uninitialised = 64%nat ->
  Sha256 uninitialised [97; 98; 99] =
    [0xba; 0x78; 0x16; 0xbf; 0x8f; 0x01; 0xcf; 0xea; 0x41; 0x41; 0x40; 0xde; 0x5d; 0xae; 0x22; 0x23;
     0xb0; 0x03; 0x61; 0xa3; 0x96; 0x17; 0x7a; 0x9c; 0xb4; 0x10; 0xff; 0x61; 0xf2; 0x00; 0x15; 0xad].
Proof.
  intros Hu. unfold Sha256.
  rewrite (Finalize_absorbed _ [97; 98; 99]); [vm_compute; reflexivity| |vm_compute; reflexivity].
  apply (Update_absorbed _ []); [by apply new_ctx_absorbed|vm_compute; reflexivity].
Qed.

Lemma Sha256_abc_witness :
  length (replicate 64 0) = 64%nat /\ firstn 4 (Sha256 (replicate 64 0) [97; 98; 99]) = [0xba; 0x78; 0x16; 0xbf].
Proof. split; [done|]. by rewrite (Sha256_abc (replicate 64 0) eq_refl). Defined.
