(* ===== verification/Memory.v ===== *)
(** * Storage, object lifetimes and checked sizes (memory/allocation_size.h, memory/cxx_lifetime.h)

    The containers of the library separate storage from objects: they allocate raw
    bytes, construct objects into them, move, assign and destroy the objects one by
    one and free the bytes.  A block of storage is a list of cells, each raw or
    holding an object; every primitive below checks the lifetime rule of C++ that
    it needs, so that a program that constructs over a live object, reads or
    destroys a raw cell, or frees a block that still holds objects ends in [Undef].
    [Fatal] is the library's own refusal ([BASE_FATAL_CHECK]). *)

From S2P Require Import Prelude.

(** ** Outcomes *)

Inductive res (A : Type) := Ok (a : A) | Fatal | Undef.
Arguments Ok {A} a.
Arguments Fatal {A}.
Arguments Undef {A}.

#[export] Instance res_ret : MRet res := fun _ a => Ok a.
#[export] Instance res_bind : MBind res := fun _ _ k m =>
  match m with Ok a => k a | Fatal => Fatal | Undef => Undef end.

(** [BASE_DCHECK] states a precondition of its caller, [BASE_FATAL_CHECK] stops. *)
Definition dcheck (b : bool) : res unit := if b then Ok () else Undef.
Definition fatal_check (b : bool) : res unit := if b then Ok () else Fatal.

(** [for (i = start; i < start + n; ++i) s = body(i, s)]. *)
Fixpoint for_loop {S} (start n : nat) (body : nat -> S -> res S) (s : S) : res S :=
  match n with
  | O => Ok s
  | Datatypes.S n => s ← body start s; for_loop (Datatypes.S start) n body s
  end.

(** ** Checked arithmetic of allocation_size.h *)

Definition mem_size_max : Z := 2 ^ 64 - 1.

Definition TryAllocationSize (count element_size : Z) : option Z :=
  if negb (element_size =? 0) && (mem_size_max / element_size <? count) then None
  else Some (u64 (count * element_size)).

Definition CheckedAllocationSize (count element_size : Z) : res Z :=
  match TryAllocationSize count element_size with Some bytes => Ok bytes | None => Fatal end.

Definition CheckedCountSum (a b : Z) : res Z :=
  if a <=? u64 (mem_size_max - b) then Ok (u64 (a + b)) else Fatal.

Definition CheckedCountProduct (count factor : Z) : res Z := CheckedAllocationSize count factor.

Fixpoint round_up_loop (fuel : nat) (value target : Z) : option (res Z) :=
  match fuel with
  | O => None
  | S fuel =>
    if target <? value then
      if target <=? mem_size_max / 2 then round_up_loop fuel value (u64 (target * 2)) else Some Fatal
    else Some (Ok target)
  end.

(** [None] would be a loop that has not ended; 65 turns always suffice. *)
Definition CheckedRoundUpToPowerOfTwo (value : Z) : option (res Z) := round_up_loop 65 value 1.

(** ** Blocks *)

Inductive cell (T : Type) := Raw | Obj (v : T).
Arguments Raw {T}.
Arguments Obj {T} v.

Abbreviation block T := (list (cell T)).

Section Blocks.

Context {T : Type}.

Definition is_raw (c : cell T) : bool := match c with Raw => true | Obj _ => false end.

(** [::new (b + i) T(v)] *)
Definition construct (b : block T) (i : nat) (v : T) : res (block T) :=
  match b !! i with Some Raw => Ok (<[i := Obj v]> b) | _ => Undef end.

(** [b[i] = v] *)
Definition assign (b : block T) (i : nat) (v : T) : res (block T) :=
  match b !! i with Some (Obj _) => Ok (<[i := Obj v]> b) | _ => Undef end.

(** [b[i]] as a value *)
Definition load (b : block T) (i : nat) : res T :=
  match b !! i with Some (Obj v) => Ok v | _ => Undef end.

(** [destruct(b + i)] *)
Definition destruct_ (b : block T) (i : nat) : res (block T) :=
  match b !! i with Some (Obj _) => Ok (<[i := Raw]> b) | _ => Undef end.

(** [DestructRange(b + first, b + last)]: from [first] on until the end is met. *)
Definition DestructRange (b : block T) (first last : nat) : res (block T) :=
  if (first <=? last)%nat then for_loop first (last - first) (fun i b => destruct_ b i) b else Undef.

(** [operator delete]: the storage may hold no object any more, and a sized free
    names the size it was allocated with. *)
Definition release (b : block T) (n : nat) : res unit :=
  if forallb is_raw b && (n =? length b)%nat then Ok () else Undef.

(** What [T]'s move constructor and move assignment leave behind: an object that is
    alive, of a value that depends on the type. *)
Context (moved : T -> T).

(** [::new (b + dest) T(move(b[src]))] *)
Definition move_construct (b : block T) (dest src : nat) : res (block T) :=
  v ← load b src; b ← construct b dest v; assign b src (moved v).

(** [b[dest] = move(b[src])] *)
Definition move_assign (b : block T) (dest src : nat) : res (block T) :=
  v ← load b src; b ← assign b dest v; assign b src (moved v).

(** [::new (nb + i) T(move(b[i]))] for [i < n]: the relocation loop of a growing
    container. *)
Definition relocate (n : nat) (nb b : block T) : res (block T * block T) :=
  for_loop 0 n (fun i '(nb, b) =>
    v ← load b i; nb ← construct nb i v; b ← assign b i (moved v); Ok (nb, b)) (nb, b).

End Blocks.

#[global] Arguments relocate : simpl never.
#[global] Arguments DestructRange : simpl never.
#[global] Arguments release : simpl never.
#[global] Arguments move_construct : simpl never.
#[global] Arguments move_assign : simpl never.

(** ** Running a program whose steps are known to succeed *)

Lemma res_bind_ok {A B} (k : A -> res B) (a : A) : (Ok a ≫= k) = k a.
Proof. done. Qed.

Ltac rewrite_ok := match goal with E : ?m = Ok _ |- context [?m] => rewrite E end.
Ltac run := rewrite ?res_bind_ok; repeat (rewrite_ok; rewrite ?res_bind_ok; cbn [mbind res_bind]).

(** ** Loops *)

Lemma for_loop_inv {S} (P : nat -> S -> Prop) body start n s :
  P start s ->
  (forall i s, (start <= i < start + n)%nat -> P i s -> exists s', body i s = Ok s' /\ P (Datatypes.S i) s') ->
  exists s', for_loop start n body s = Ok s' /\ P (start + n)%nat s'.
Proof.
  revert start s. induction n as [|n IH]; intros start s Hs Hstep.
  - exists s. by rewrite Nat.add_0_r.
  - destruct (Hstep start s) as (s1 & E & H1); [lia|done|]. cbn. rewrite E. cbn.
    destruct (IH (Datatypes.S start) s1) as (s2 & E2 & H2); [done| |].
    + intros. apply Hstep; [lia|done].
    + exists s2. split; [done|]. by replace (start + Datatypes.S n)%nat with (Datatypes.S start + n)%nat by lia.
Qed.

(** ** The value of a block as a function *)

Section Holds.

Context {T : Type}.
Implicit Types (b : block T) (f g : nat -> cell T) (l : list T).

Definition holds b (n : nat) f : Prop := length b = n /\ forall j, (j < n)%nat -> b !! j = Some (f j).

Definition upd f (i : nat) (c : cell T) : nat -> cell T := fun j => if decide (j = i) then c else f j.

Lemma holds_ext b n f g : holds b n f -> (forall j, (j < n)%nat -> f j = g j) -> holds b n g.
Proof. intros [? H] E. split; [done|]. intros j Hj. rewrite H by done. f_equal. by apply E. Qed.

Lemma holds_det b b' n f : holds b n f -> holds b' n f -> b = b'.
Proof.
  intros [E H] [E' H']. apply list_eq. intros j.
  destruct (decide (j < n)%nat) as [Hj|Hj]; [by rewrite H, H'|].
  rewrite !lookup_ge_None_2 by lia. done.
Qed.

Lemma holds_insert b n f i c : holds b n f -> (i < n)%nat -> holds (<[i := c]> b) n (upd f i c).
Proof.
  intros [E H] Hi. split; [by rewrite length_insert|]. intros j Hj. unfold upd.
  destruct (decide (j = i)) as [->|Hji].
  - by rewrite list_lookup_insert_eq by lia.
  - rewrite list_lookup_insert_ne by done. by apply H.
Qed.

Lemma holds_construct b n f i v :
  holds b n f -> (i < n)%nat -> f i = Raw -> exists b', construct b i v = Ok b' /\ holds b' n (upd f i (Obj v)).
Proof.
  intros H Hi Hf. eexists. split; [|by apply holds_insert]. unfold construct. destruct H as [_ H].
  by rewrite H, Hf by done.
Qed.

Lemma holds_assign b n f i v w :
  holds b n f -> (i < n)%nat -> f i = Obj w -> exists b', assign b i v = Ok b' /\ holds b' n (upd f i (Obj v)).
Proof.
  intros H Hi Hf. eexists. split; [|by apply holds_insert]. unfold assign. destruct H as [_ H].
  by rewrite H, Hf by done.
Qed.

Lemma holds_destruct b n f i w :
  holds b n f -> (i < n)%nat -> f i = Obj w -> exists b', destruct_ b i = Ok b' /\ holds b' n (upd f i Raw).
Proof.
  intros H Hi Hf. eexists. split; [|by apply holds_insert]. unfold destruct_. destruct H as [_ H].
  by rewrite H, Hf by done.
Qed.

Lemma holds_load b n f i w : holds b n f -> (i < n)%nat -> f i = Obj w -> load b i = Ok w.
Proof. intros [_ H] Hi Hf. unfold load. by rewrite H, Hf by done. Qed.

Lemma holds_move_construct moved b n f dest src v :
  holds b n f -> (dest < n)%nat -> (src < n)%nat -> f src = Obj v -> f dest = Raw ->
  exists b', move_construct moved b dest src = Ok b' /\ holds b' n (upd (upd f dest (Obj v)) src (Obj (moved v))).
Proof.
  intros H Hd Hs Ev Ed. assert (src <> dest) by congruence. unfold move_construct.
  rewrite (holds_load b n f src v) by done. cbn.
  destruct (holds_construct b n f dest v H) as (b1 & -> & H1); [done|done|]. cbn.
  apply holds_assign with v; [done|done|]. unfold upd. by rewrite decide_False.
Qed.

Lemma holds_move_assign moved b n f dest src v w :
  holds b n f -> (dest < n)%nat -> (src < n)%nat -> dest <> src -> f src = Obj v -> f dest = Obj w ->
  exists b', move_assign moved b dest src = Ok b' /\ holds b' n (upd (upd f dest (Obj v)) src (Obj (moved v))).
Proof.
  intros H Hd Hs Hne Ev Ed. unfold move_assign.
  rewrite (holds_load b n f src v) by done. cbn.
  destruct (holds_assign b n f dest v w H) as (b1 & -> & H1); [done|done|]. cbn.
  apply holds_assign with v; [done|done|]. unfold upd. by rewrite decide_False.
Qed.

Lemma holds_raw n : holds (replicate n Raw) n (fun _ => Raw).
Proof. split; [by rewrite length_replicate|]. intros j Hj. by apply lookup_replicate_2. Qed.

Lemma holds_release b n f : holds b n f -> (forall j, (j < n)%nat -> f j = Raw) -> release b n = Ok ().
Proof.
  intros [E H] Hf. unfold release. subst n. rewrite Nat.eqb_refl, andb_true_r.
  replace (forallb is_raw b) with true; [done|]. symmetry. apply forallb_forall. intros c Hc.
  apply list_elem_of_In, list_elem_of_lookup in Hc as [j Hj]. pose proof (lookup_lt_Some _ _ _ Hj) as Hlt.
  rewrite H, Hf in Hj by done. by injection Hj as <-.
Qed.

Definition live f (lo hi : nat) : Prop := forall j, (lo <= j < hi)%nat -> exists v, f j = Obj v.

Lemma holds_DestructRange b n f lo hi :
  holds b n f -> (lo <= hi <= n)%nat -> live f lo hi ->
  exists b', DestructRange b lo hi = Ok b' /\
    holds b' n (fun j => if decide (lo <= j < hi)%nat then Raw else f j).
Proof.
  intros H Hb Hl. unfold DestructRange. rewrite (proj2 (Nat.leb_le lo hi)) by lia.
  destruct (for_loop_inv (fun i b => holds b n (fun j => if decide (lo <= j < i)%nat then Raw else f j))
    (fun i b => destruct_ b i) lo (hi - lo) b) as (b' & E & H').
  - eapply holds_ext; [done|]. intros. by rewrite decide_False by lia.
  - intros i s Hi Hs. destruct (Hl i) as [v Hv]; [lia|].
    destruct (holds_destruct s n _ i v Hs) as (s' & E & Hs'); [lia|by rewrite decide_False by lia|].
    exists s'. split; [done|]. eapply holds_ext; [done|]. intros j Hj. unfold upd.
    repeat case_decide; done || lia.
  - exists b'. split; [done|]. by replace (lo + (hi - lo))%nat with hi in H' by lia.
Qed.

(** The block of a container that holds the list [l] in its first cells. *)
Definition lcell l (j : nat) : cell T := match l !! j with Some v => Obj v | None => Raw end.

Lemma lcell_lt l j : (j < length l)%nat -> exists v, lcell l j = Obj v /\ l !! j = Some v.
Proof. intros Hj. unfold lcell. destruct (lookup_lt_is_Some_2 l j Hj) as [v E]. rewrite E. eauto. Qed.

Lemma lcell_ge l j : (length l <= j)%nat -> lcell l j = Raw.
Proof. intros Hj. unfold lcell. by rewrite lookup_ge_None_2. Qed.

Lemma lcell_live l lo hi : (hi <= length l)%nat -> live (lcell l) lo hi.
Proof. intros H j Hj. destruct (lcell_lt l j) as (v & E & _); [lia|eauto]. Qed.

Lemma lcell_some l j v : l !! j = Some v -> lcell l j = Obj v.
Proof. unfold lcell. by intros ->. Qed.

Lemma lcell_app l1 l2 j : lcell (l1 ++ l2) j = if decide (j < length l1)%nat then lcell l1 j else lcell l2 (j - length l1).
Proof.
  unfold lcell. case_decide.
  - by rewrite lookup_app_l.
  - by rewrite lookup_app_r by lia.
Qed.

Lemma lcell_take l n j : lcell (take n l) j = if decide (j < n)%nat then lcell l j else Raw.
Proof.
  unfold lcell. case_decide; [by rewrite lookup_take_lt|]. by rewrite lookup_take_ge by lia.
Qed.

Lemma lcell_drop l n j : lcell (drop n l) j = lcell l (n + j).
Proof. unfold lcell. by rewrite lookup_drop. Qed.

Lemma lcell_replicate n (v : T) j : lcell (replicate n v) j = if decide (j < n)%nat then Obj v else Raw.
Proof.
  case_decide.
  - apply lcell_some. by apply lookup_replicate_2.
  - apply lcell_ge. rewrite length_replicate. lia.
Qed.

Lemma lcell_insert l i v j :
  lcell (<[i := v]> l) j = if decide (j = i /\ (i < length l)%nat) then Obj v else lcell l j.
Proof.
  unfold lcell. case_decide as H.
  - destruct H as [-> H]. by rewrite list_lookup_insert_eq.
  - destruct (decide (j = i)) as [->|]; [|by rewrite list_lookup_insert_ne].
    by rewrite list_insert_ge by lia.
Qed.

Lemma holds_lcell_eq b n l : holds b n (lcell l) -> (length l <= n)%nat -> b = (Obj <$> l) ++ replicate (n - length l) Raw.
Proof.
  intros H Hl. apply (holds_det _ _ n (lcell l)); [done|]. split.
  - rewrite length_app, length_fmap, length_replicate. lia.
  - intros j Hj. destruct (decide (j < length l)%nat) as [Hlt|Hge].
    + rewrite lookup_app_l by (by rewrite length_fmap). rewrite list_lookup_fmap.
      destruct (lcell_lt l j Hlt) as (v & E & El). by rewrite El, E.
    + rewrite lookup_app_r by (rewrite length_fmap; lia). rewrite length_fmap, lcell_ge by lia.
      apply lookup_replicate_2. lia.
Qed.

Context (moved : T -> T).

(** The relocation loop: the new block takes the objects, the old ones stay alive. *)
Lemma holds_relocate nb m g b n f k :
  holds nb m g -> holds b n f -> (k <= m)%nat -> (k <= n)%nat -> live f 0 k -> (forall j, (j < k)%nat -> g j = Raw) ->
  exists nb' b' f', relocate moved k nb b = Ok (nb', b') /\
    holds nb' m (fun j => if decide (j < k)%nat then f j else g j) /\ holds b' n f' /\ live f' 0 k /\
    (forall j, (k <= j)%nat -> f' j = f j).
Proof.
  intros Hnb Hb Hm Hn Hl Hg. unfold relocate.
  destruct (for_loop_inv (fun i '(nb, b) =>
      holds nb m (fun j => if decide (j < i)%nat then f j else g j) /\
      exists f', holds b n f' /\ live f' 0 k /\ forall j, (i <= j)%nat -> f' j = f j)
    (fun i '(nb, b) => v ← load b i; nb ← construct nb i v; b ← assign b i (moved v); Ok (nb, b)) 0 k (nb, b))
    as ([nb' b'] & E & Hnb' & f' & Hb' & Hl' & Hf').
  - split; [|by exists f]. eapply holds_ext; [done|]. intros. by rewrite decide_False by lia.
  - intros i [s t] Hi (Hs & f' & Ht & Hl' & Hf').
    destruct (Hl i) as [v Hv]; [lia|]. assert (Hv' : f' i = Obj v) by (by rewrite Hf' by lia).
    rewrite (holds_load t n f' i v) by (done || lia). cbn.
    destruct (holds_construct s m _ i v Hs) as (s' & -> & Hs'); [lia|by rewrite decide_False, Hg by lia|]. cbn.
    destruct (holds_assign t n f' i (moved v) v Ht) as (t' & -> & Ht'); [lia|done|]. cbn.
    exists (s', t'). split; [done|]. split; [|exists (upd f' i (Obj (moved v)))].
    + eapply holds_ext; [done|]. intros j Hj. unfold upd. repeat case_decide; subst; done || lia.
    + split; [done|]. split.
      * intros j Hj. unfold upd. case_decide; eauto.
      * intros j Hj. unfold upd. rewrite decide_False by lia. apply Hf'. lia.
  - exists nb', b', f'. split; [done|]. cbn in Hf'. split; [|done]. done.
Qed.

End Holds.

(** ** Checked sizes *)

Lemma TryAllocationSize_exact count element_size :
  0 <= count <= mem_size_max -> 0 <= element_size ->
  TryAllocationSize count element_size = if count * element_size <=? mem_size_max then Some (count * element_size) else None.
Proof.
  intros Hc He. unfold TryAllocationSize.
  destruct (Z.eqb_spec element_size 0) as [->|Hne]; cbn [negb andb].
  - rewrite Z.mul_0_r. rewrite (proj2 (Z.leb_le _ _)) by lia. done.
  - destruct (Z.ltb_spec (mem_size_max / element_size) count) as [H|H].
    + rewrite (proj2 (Z.leb_gt _ _)); [done|].
      pose proof (Z.mul_succ_div_gt mem_size_max element_size ltac:(lia)). nia.
    + assert (count * element_size <= mem_size_max).
      { pose proof (Z.mul_div_le mem_size_max element_size ltac:(lia)). nia. }
      rewrite (proj2 (Z.leb_le _ _)) by done. rewrite wrap_small; [done|]. unfold fits, mem_size_max in *. lia.
Qed.

Lemma CheckedCountSum_exact a b :
  0 <= a <= mem_size_max -> 0 <= b <= mem_size_max ->
  CheckedCountSum a b = if a + b <=? mem_size_max then Ok (a + b) else Fatal.
Proof.
  intros Ha Hb. unfold CheckedCountSum. rewrite (wrap_small 64 (mem_size_max - b)) by (unfold fits, mem_size_max in *; lia).
  destruct (Z.leb_spec a (mem_size_max - b)).
  - rewrite (proj2 (Z.leb_le _ _)) by lia. by rewrite wrap_small by (unfold fits, mem_size_max in *; lia).
  - by rewrite (proj2 (Z.leb_gt _ _)) by lia.
Qed.

Lemma round_up_loop_spec k fuel value :
  (k < 64)%nat -> (64 - k < fuel)%nat -> 0 <= value <= mem_size_max -> (k = O \/ 2 ^ (Z.of_nat k - 1) < value) ->
  exists r, round_up_loop fuel value (2 ^ Z.of_nat k) = Some r /\
    match r with
    | Ok t => exists p, 0 <= p < 64 /\ t = 2 ^ p /\ value <= t /\ (p = 0 \/ 2 ^ (p - 1) < value)
    | Fatal => 2 ^ 63 < value
    | Undef => False
    end.
Proof.
  revert k. induction fuel as [|fuel IH]; intros k Hk Hf Hv Hlow; [lia|]. cbn [round_up_loop].
  destruct (Z.ltb_spec (2 ^ Z.of_nat k) value) as [Hlt|Hge].
  - destruct (decide (k = 63)%nat) as [->|Hne].
    + exists Fatal. split; [|exact Hlt]. done.
    + assert (Hp : 2 ^ Z.of_nat k <= 2 ^ 62) by (apply Z.pow_le_mono_r; lia).
      assert (Hs : 2 ^ Z.of_nat k * 2 = 2 ^ Z.of_nat (S k)).
      { rewrite Nat2Z.inj_succ, Z.pow_succ_r by lia. lia. }
      pose proof (pow2_pos (Z.of_nat k) ltac:(lia)).
      rewrite (proj2 (Z.leb_le _ _)) by (change (mem_size_max / 2) with (2 ^ 63 - 1); lia).
      rewrite wrap_small by (unfold fits; lia). rewrite Hs. apply IH; [lia|lia|lia|]. right.
      by replace (Z.of_nat (S k) - 1) with (Z.of_nat k) by lia.
  - exists (Ok (2 ^ Z.of_nat k)). split; [done|]. exists (Z.of_nat k). split; [lia|]. split; [done|]. split; [done|].
    destruct Hlow; [left; lia|by right].
Qed.

(** ** Resources and weakest preconditions *)

(** What an operation may do: it never breaks a rule, its result satisfies [P], and it
    stops the process only when the resources [R] are not there. *)
Definition wp {A} (R : Prop) (m : res A) (P : A -> Prop) : Prop :=
  match m with Ok a => P a | Fatal => ~ R | Undef => False end.

Lemma wp_bind {A B} R (m : res A) (k : A -> res B) P : wp R m (fun a => wp R (k a) P) -> wp R (m ≫= k) P.
Proof. by destruct m. Qed.

Lemma wp_mono {A} R (m : res A) P Q : wp R m P -> (forall a, P a -> Q a) -> wp R m Q.
Proof. destruct m; cbn; auto. Qed.

Lemma wp_seq {A B} R (m : res A) (k : A -> res B) P Q :
  wp R m Q -> (forall a, Q a -> wp R (k a) P) -> wp R (m ≫= k) P.
Proof. intros H Hk. apply wp_bind. by eapply wp_mono. Qed.

Lemma wp_ok {A} R (m : res A) P : (exists a, m = Ok a /\ P a) -> wp R m P.
Proof. intros (a & -> & H). exact H. Qed.

Section Resources.

Context (sizeof_T : Z) (allocates : Z -> bool).

(** The request for [n] elements is representable and the allocator grants it. *)
Definition granted (n : nat) : Prop :=
  Z.of_nat n * sizeof_T <= mem_size_max /\ allocates (Z.of_nat n * sizeof_T) = true.

Definition roomy (n : nat) : Prop := forall k, (k <= n)%nat -> granted k.

Lemma granted_le n : 0 < sizeof_T -> granted n -> Z.of_nat n <= mem_size_max.
Proof. intros ? [H _]. nia. Qed.

Lemma roomy_le n k : (k <= n)%nat -> roomy n -> roomy k.
Proof. intros Hk H j Hj. apply H. lia. Qed.

Lemma wp_allocate {T} R n :
  0 <= sizeof_T -> Z.of_nat n <= mem_size_max -> (R -> granted n) ->
  wp R (bytes ← CheckedAllocationSize (Z.of_nat n) sizeof_T; _ ← fatal_check (allocates bytes); Ok (replicate n (@Raw T)))
    (fun b => b = replicate n Raw).
Proof.
  intros Hs Hn HR. unfold CheckedAllocationSize. rewrite TryAllocationSize_exact by lia.
  destruct (Z.leb_spec (Z.of_nat n * sizeof_T) mem_size_max) as [Hle|Hgt]; cbn.
  - unfold fatal_check. destruct (allocates _) eqn:E; cbn; [done|]. intros r. destruct (HR r). congruence.
  - intros r. destruct (HR r). lia.
Qed.

End Resources.

(** The rounding loop of the containers ends within 65 turns on every request: a
    request of at most 2^63 gives the least power of two that is at least as large
    (1 for 0), any other terminates the process instead of wrapping the target to
    zero and spinning. *)
Theorem CheckedRoundUpToPowerOfTwo_least value :
  fits 64 value ->
  exists r, CheckedRoundUpToPowerOfTwo value = Some r /\
    (r = Fatal <-> 2 ^ 63 < value) /\
    (value <= 2 ^ 63 -> exists p, 0 <= p < 64 /\ r = Ok (2 ^ p) /\ value <= 2 ^ p /\
       forall q, 0 <= q -> value <= 2 ^ q -> 2 ^ p <= 2 ^ q).
Proof.
  intros Hv. assert (Hv' : 0 <= value <= mem_size_max) by (unfold fits, mem_size_max in *; lia).
  destruct (round_up_loop_spec 0 65 value) as (r & E & H); [lia|lia|done|by left|].
  exists r. split; [exact E|]. destruct r as [t| |]; [|split; [done|lia]|done].
  destruct H as (p & Hp & -> & Hle & Hmin).
  assert (Hp63 : 2 ^ p <= 2 ^ 63) by (apply Z.pow_le_mono_r; lia).
  split; [split; [done|lia]|]. intros _. exists p. split; [done|]. split; [done|]. split; [done|].
  intros q Hq Hvq. apply Z.pow_le_mono_r; [lia|]. destruct Hmin as [->|Hmin]; [done|].
  destruct (Z.le_gt_cases p q); [done|]. exfalso.
  assert (2 ^ q <= 2 ^ (p - 1)) by (apply Z.pow_le_mono_r; lia). lia.
Qed.

Lemma CheckedRoundUpToPowerOfTwo_least_witness :
  exists r, CheckedRoundUpToPowerOfTwo 17 = Some r /\
    (r = Fatal <-> 2 ^ 63 < 17) /\
    (17 <= 2 ^ 63 -> exists p, 0 <= p < 64 /\ r = Ok (2 ^ p) /\ 17 <= 2 ^ p /\
       forall q, 0 <= q -> 17 <= 2 ^ q -> 2 ^ p <= 2 ^ q).
Proof. apply (CheckedRoundUpToPowerOfTwo_least 17). split; [discriminate|reflexivity]. Defined.
