(* ===== verification/Vector.v ===== *)
(** * base::Vector (containers/vector.h)

    A vector is a block of storage and the number of objects alive at its front.
    The pointers [data_], [end_] and [capacity_] of the class are the block, the
    offset of [end_] in it and the block's length; a null [data_] is [None].  A
    parameter of type [const T&] or [T&&] is a [ref]: a value outside the vector or
    one of its own elements, read when the code reads it. *)

From S2P Require Import Prelude Memory.

Set Default Proof Using "Type".

Section Vector.

(** The element type: its default value, what a move leaves behind, its [==] and
    [<]; [sizeof(T)]; and the allocator, which may refuse a request with null. *)
Context {T : Type} (dflt : T) (moved : T -> T) (eqb ltb : T -> T -> bool).
Context (sizeof_T : Z) (allocates : Z -> bool).

Record Vector := mkVector { data_ : option (block T); end_ : nat }.

Inductive ref := Val (v : T) | At (i : nat).

Definition kDefaultMult : Z := 2.

Definition null_vector : Vector := mkVector None 0.

Definition size (v : Vector) : nat := end_ v.
Definition capacity (v : Vector) : nat := match data_ v with None => O | Some b => length b end.
Definition empty (v : Vector) : bool := match data_ v with None => true | Some _ => (end_ v =? 0)%nat end.

(** ** Storage *)

Definition Allocate (cap : nat) : res (block T) :=
  bytes ← CheckedAllocationSize (Z.of_nat cap) sizeof_T;
  _ ← fatal_check (allocates bytes);
  Ok (replicate cap Raw).

Definition Free (b : option (block T)) (n : nat) : res unit :=
  match b with None => Ok () | Some b => release b n end.

(** [DestructRange(data_ + first, data_ + last)]; on the null vector both are null. *)
Definition destruct_elements (d : option (block T)) (first last : nat) : res (option (block T)) :=
  match d with
  | None => if (first =? last)%nat then Ok None else Undef
  | Some b => b ← DestructRange b first last; Ok (Some b)
  end.

(** The body of the destructor and of [reset]. *)
Definition release_storage (v : Vector) : res unit :=
  d ← destruct_elements (data_ v) 0 (end_ v);
  Free d (capacity v).

Definition CalculateNewCapacity (cap : nat) : res nat :=
  if (0 <? cap)%nat then n ← CheckedCountProduct (Z.of_nat cap) kDefaultMult; Ok (Z.to_nat n) else Ok 1%nat.

(** The elements move to the front of [new_block]; the old block is emptied and freed. *)
Definition relocate_to (v : Vector) (new_block : block T) : res (block T) :=
  match data_ v with
  | None => Ok new_block
  | Some b =>
    '(new_block, b) ← relocate moved (end_ v) new_block b;
    b ← DestructRange b 0 (end_ v);
    _ ← Free (Some b) (capacity v);
    Ok new_block
  end.

Definition GrowCapacity (v : Vector) (current_size new_cap : nat) : res Vector :=
  new_block ← Allocate new_cap;
  new_block ← relocate_to v new_block;
  Ok (mkVector (Some new_block) current_size).

(** ** References *)

Definition load_elem (v : Vector) (i : nat) : res T :=
  match data_ v with None => Undef | Some b => load b i end.

(** [T(r)]: a copy. *)
Definition copy_ref (v : Vector) (r : ref) : res T :=
  match r with Val x => Ok x | At i => load_elem v i end.

(** [T(move(r))]: the element moved from stays alive. *)
Definition move_ref (v : Vector) (r : ref) : res (T * Vector) :=
  match r with
  | Val x => Ok (x, v)
  | At i =>
    match data_ v with
    | None => Undef
    | Some b => x ← load b i; b ← assign b i (moved x); Ok (x, mkVector (Some b) (end_ v))
    end
  end.

(** [T(forward(r))] *)
Definition take_ref (mv : bool) (v : Vector) (r : ref) : res (T * Vector) :=
  if mv then move_ref v r else x ← copy_ref v r; Ok (x, v).

Definition on_block (v : Vector) (f : block T -> res (block T)) : res Vector :=
  match data_ v with None => Undef | Some b => b ← f b; Ok (mkVector (Some b) (end_ v)) end.

Definition set_end (v : Vector) (e : nat) : Vector := mkVector (data_ v) e.

(** [for (i = 0; i < count; ++i) ::new (b + at + i) T(value)] *)
Definition fill_construct (b : block T) (at_ count : nat) (value : T) : res (block T) :=
  for_loop at_ count (fun i b => construct b i value) b.

(** ** Constructors *)

(** The size constructor ([x = T()]) and the fill constructor. *)
Definition Vector_fill (count : nat) (x : T) : res Vector :=
  if (0 <? count)%nat then
    b ← Allocate count;
    b ← fill_construct b 0 count x;
    Ok (mkVector (Some b) count)
  else Ok null_vector.

Definition Vector_size (count : nat) : res Vector := Vector_fill count dflt.

(** [for (i = 0; i < n; ++i) ::new (dest + i) T(src[i])] over values read from outside. *)
Definition construct_from (b : block T) (at_ : nat) (xs : list T) : res (block T) :=
  for_loop at_ (length xs) (fun i b =>
    match xs !! (i - at_)%nat with Some x => construct b i x | None => Undef end) b.

Definition Vector_list (xs : list T) : res Vector :=
  if (0 <? length xs)%nat then
    b ← Allocate (length xs);
    b ← construct_from b 0 xs;
    Ok (mkVector (Some b) (length xs))
  else Ok null_vector.

Inductive VectorReservePolicy := kForPushback | kForData.

(** [kForData] for a type that has a default constructor; for others the code stops in
    a [BASE_BUGCHECK]. *)
Definition Vector_reserve (reserve_count : nat) (policy : VectorReservePolicy) : res Vector :=
  if (0 <? reserve_count)%nat then
    b ← Allocate reserve_count;
    match policy with
    | kForData => b ← fill_construct b 0 reserve_count dflt; Ok (mkVector (Some b) reserve_count)
    | kForPushback => Ok (mkVector (Some b) 0)
    end
  else Ok null_vector.

(** Reading the elements of another vector in order. *)
Definition read_all (v : Vector) : res (list T) :=
  for_loop 0 (size v) (fun i xs => x ← load_elem v i; Ok (xs ++ [x])) [].

Definition Vector_copy (other : Vector) : res Vector :=
  if (0 <? size other)%nat then
    b ← Allocate (size other);
    b ← for_loop 0 (size other) (fun i b => x ← load_elem other i; construct b i x) b;
    Ok (mkVector (Some b) (size other))
  else Ok null_vector.

(** [operator=(const Vector&)] and [operator=(Vector&&)], when [this != &other]. *)
Definition copy_assign (v other : Vector) : res Vector := _ ← release_storage v; Vector_copy other.
Definition move_assign_vector (v other : Vector) : res (Vector * Vector) :=
  _ ← release_storage v; Ok (other, null_vector).

(** The move constructor: the new vector and what is left of [other]. *)
Definition Vector_move (other : Vector) : Vector * Vector := (other, null_vector).

Definition swap (v other : Vector) : Vector * Vector := (other, v).

Definition reset (v : Vector) : res Vector := _ ← release_storage v; Ok null_vector.

Definition ReleaseAll (v : Vector) : res Vector :=
  match data_ v with None => Ok v | Some _ => _ ← release_storage v; Ok null_vector end.

(** ** Size and capacity *)

Definition shrink (v : Vector) (new_size : nat) : res Vector :=
  d ← destruct_elements (data_ v) new_size (end_ v); Ok (mkVector d new_size).

Definition resize_with (v : Vector) (new_size : nat) (r : ref) : res Vector :=
  let current_size := size v in
  if (current_size <? new_size)%nat then
    let count := (new_size - current_size)%nat in
    value ← copy_ref v r;
    v ← (if (capacity v <? new_size)%nat then GrowCapacity v current_size new_size else Ok v);
    v ← on_block v (fun b => fill_construct b current_size count value);
    Ok (set_end v new_size)
  else if (new_size <? current_size)%nat then shrink v new_size
  else Ok v.

Definition resize (v : Vector) (new_size : nat) : res Vector := resize_with v new_size (Val dflt).

Definition reserve (v : Vector) (new_reserved_capacity : nat) : res Vector :=
  if (new_reserved_capacity =? 0)%nat then Ok v
  else if (capacity v <? new_reserved_capacity)%nat then GrowCapacity v (size v) new_reserved_capacity
  else Ok v.

Definition shrink_to_fit (v : Vector) : res (Vector * nat) :=
  v ← (if negb (end_ v =? capacity v)%nat then
         if (end_ v =? 0)%nat then ReleaseAll v
         else
           let current_size := size v in
           new_block ← Allocate current_size;
           new_block ← relocate_to v new_block;
           Ok (mkVector (Some new_block) current_size)
       else Ok v);
  Ok (v, size v).

(** ** Appending and removing at the end *)

Definition InsertAtEnd (mv : bool) (v : Vector) (r : ref) : res Vector :=
  let current_size := size v in
  new_cap ← CalculateNewCapacity current_size;
  new_block ← Allocate new_cap;
  '(x, v) ← take_ref mv v r;
  new_block ← construct new_block current_size x;
  new_block ← relocate_to v new_block;
  Ok (mkVector (Some new_block) (current_size + 1)).

(** [push_back(const T&)] is [mv = false], [push_back(T&&)] is [mv = true]. *)
Definition push_back (mv : bool) (v : Vector) (r : ref) : res Vector :=
  if (end_ v <? capacity v)%nat then
    '(x, v) ← take_ref mv v r;
    v ← on_block v (fun b => construct b (end_ v) x);
    Ok (set_end v (end_ v + 1))
  else InsertAtEnd mv v r.

Definition back (v : Vector) : res T :=
  _ ← dcheck (negb (empty v)); load_elem v (end_ v - 1).

Definition front (v : Vector) : res T :=
  _ ← dcheck (negb (empty v)); load_elem v 0.

Definition emplace_back (mv : bool) (v : Vector) (r : ref) : res (Vector * T) :=
  v ← push_back mv v r; x ← back v; Ok (v, x).

Definition pop_back (v : Vector) : res Vector :=
  _ ← dcheck (negb (empty v));
  let v := set_end v (end_ v - 1) in
  on_block v (fun b => destruct_ b (end_ v)).

(** ** Insertion *)

(** [pos] is the offset of the position from [data_]. *)
Definition MakeHoleForInsert (b : block T) (end_ pos count : nat) : res (block T) :=
  let elements_to_move := (end_ - pos)%nat in
  if (elements_to_move =? 0)%nat || (count =? 0)%nat then Ok b
  else
    let num_to_construct := Nat.min count elements_to_move in
    b ← for_loop 0 num_to_construct (fun i b =>
          let source := (end_ - (i + 1))%nat in move_construct moved b (source + count) source) b;
    for_loop num_to_construct (elements_to_move - num_to_construct) (fun i b =>
          let source := (end_ - (i + 1))%nat in move_assign moved b (source + count) source) b.

(** [insert(pos, const T&)] and [insert(pos, T&&)]. *)
Definition insert (mv : bool) (v : Vector) (pos : nat) (r : ref) : res (Vector * nat) :=
  _ ← dcheck (pos <=? size v)%nat;
  '(value, v) ← take_ref mv v r;
  v ← (if (size v =? capacity v)%nat then
         new_cap ← CalculateNewCapacity (size v); GrowCapacity v (size v) new_cap
       else Ok v);
  v ← on_block v (fun b => MakeHoleForInsert b (end_ v) pos 1);
  v ← on_block v (fun b => if (pos <? end_ v)%nat then assign b pos value else construct b pos value);
  Ok (set_end v (end_ v + 1), pos).

(** The part that [insert(pos, count, value)] and [insert(pos, first, last)] share:
    room for [count] elements and the hole at [pos]. *)
Definition make_room (v : Vector) (pos count : nat) : res Vector :=
  required ← CheckedCountSum (Z.of_nat (size v)) (Z.of_nat count);
  v ← (if (Z.of_nat (capacity v) <? required) then
         new_cap ← CalculateNewCapacity (Z.to_nat required); GrowCapacity v (size v) new_cap
       else Ok v);
  on_block v (fun b => MakeHoleForInsert b (end_ v) pos count).

Definition insert_n (v : Vector) (pos count : nat) (r : ref) : res Vector :=
  if (count =? 0)%nat then Ok v
  else
    _ ← dcheck (pos <=? size v)%nat;
    value ← copy_ref v r;
    v ← make_room v pos count;
    let elements_after := (end_ v - pos)%nat in
    let num_assign := Nat.min count elements_after in
    v ← on_block v (fun b =>
      b ← for_loop 0 num_assign (fun i b => assign b (pos + i) value) b;
      for_loop num_assign (count - num_assign) (fun i b => construct b (pos + i) value) b);
    Ok (set_end v (end_ v + count)).

(** The range is read from outside the vector. *)
Definition insert_range (v : Vector) (pos : nat) (values : list T) : res Vector :=
  let count := length values in
  if (count =? 0)%nat then Ok v
  else
    _ ← dcheck (pos <=? size v)%nat;
    v ← make_room v pos count;
    let elements_after := (end_ v - pos)%nat in
    let num_assign := Nat.min count elements_after in
    v ← on_block v (fun b =>
      for_loop 0 count (fun i b =>
        match values !! i with
        | None => Undef
        | Some x => if (i <? num_assign)%nat then assign b (pos + i) x else construct b (pos + i) x
        end) b);
    Ok (set_end v (end_ v + count)).

(** ** Removal *)

(** [for (it = src; it != end_; ++it, ++dest) *dest = move( *it)] *)
Definition move_down (b : block T) (dest src end_ : nat) : res (block T) :=
  for_loop src (end_ - src) (fun it b => move_assign moved b (it - (src - dest)) it) b.

Definition erase_at (v : Vector) (pos : nat) : res Vector :=
  v ← on_block v (fun b => move_down b pos (pos + 1) (end_ v));
  let v := set_end v (end_ v - 1) in
  on_block v (fun b => destruct_ b (end_ v)).

Definition erase (v : Vector) (pos : nat) : res (Vector * bool) :=
  if (size v <=? pos)%nat then Ok (v, false) else v ← erase_at v pos; Ok (v, true).

(** The argument is the offset of the pointer from [data_]. *)
Definition erase_ptr (v : Vector) (element_ptr : Z) : res (Vector * bool) :=
  if (element_ptr <? 0) || (Z.of_nat (end_ v) <=? element_ptr) then Ok (v, false)
  else v ← erase_at v (Z.to_nat element_ptr); Ok (v, true).

Definition erase_range (v : Vector) (first last : nat) : res (Vector * nat) :=
  _ ← dcheck (first <=? size v)%nat;
  _ ← dcheck ((first <=? last)%nat && (last <=? size v)%nat);
  if (first =? last)%nat then Ok (v, first)
  else
    v ← on_block v (fun b => move_down b first last (end_ v));
    v ← shrink v (first + (end_ v - last));
    Ok (v, first).

Definition clear (v : Vector) : res Vector := shrink v 0.

Definition assign_n (v : Vector) (count : nat) (r : ref) : res Vector :=
  v ← clear v; resize_with v count r.

Definition push_all (v : Vector) (xs : list T) : res Vector :=
  fold_left (fun m x => v ← m; push_back false v (Val x)) xs (Ok v).

Definition Vector_range (xs : list T) : res Vector := push_all null_vector xs.

Definition assign_range (v : Vector) (xs : list T) : res Vector := v ← clear v; push_all v xs.

(** ** Access *)

Definition at_ (v : Vector) (pos : nat) : option nat := if (size v <=? pos)%nat then None else Some pos.

Definition index (v : Vector) (pos : nat) : res T :=
  _ ← dcheck (pos <? size v)%nat; load_elem v pos.

(** [for (it = begin(); it != end(); ++it) if (p( *it)) return it; return nullptr;] *)
Fixpoint find_loop (fuel : nat) (v : Vector) (p : T -> bool) (it : nat) : res (option nat) :=
  match fuel with
  | O => Ok None
  | S fuel => x ← load_elem v it; if p x then Ok (Some it) else find_loop fuel v p (S it)
  end.

Definition FindIf (v : Vector) (p : T -> bool) : res (option nat) := find_loop (end_ v) v p 0.
Definition find (v : Vector) (element_match : T) : res (option nat) := FindIf v (fun x => eqb x element_match).
Definition Contains (v : Vector) (element_match : T) : res bool :=
  it ← find v element_match; Ok (match it with Some _ => true | None => false end).

(** [func] may change the element it is given. *)
Definition ForEach {S : Type} (v : Vector) (func : S -> T -> S * T) (s : S) : res (Vector * S) :=
  for_loop 0 (end_ v) (fun i '(v, s) =>
    x ← load_elem v i;
    let '(s, y) := func s x in
    v ← on_block v (fun b => assign b i y);
    Ok (v, s)) (v, s).

(** [for (it = rbegin(); it != rend(); ++it)] reads [*(it - 1)] from the end down. *)
Definition read_reverse (v : Vector) : res (list T) :=
  for_loop 0 (size v) (fun i xs => x ← load_elem v (size v - i - 1); Ok (xs ++ [x])) [].

Fixpoint equal_loop (fuel : nat) (v other : Vector) (i : nat) : res bool :=
  match fuel with
  | O => Ok true
  | S fuel =>
    x ← load_elem v i; y ← load_elem other i;
    if negb (eqb x y) then Ok false else equal_loop fuel v other (S i)
  end.

Definition equal (v other : Vector) : res bool :=
  if negb (size v =? size other)%nat then Ok false else equal_loop (size v) v other 0.

Fixpoint less_loop (fuel : nat) (v other : Vector) (i : nat) : res bool :=
  match fuel with
  | O => Ok (size v <? size other)%nat
  | S fuel =>
    x ← load_elem v i; y ← load_elem other i;
    if ltb x y then Ok true else if ltb y x then Ok false else less_loop fuel v other (S i)
  end.

Definition less (v other : Vector) : res bool :=
  let n := if (size v <? size other)%nat then size v else size other in less_loop n v other 0.

(** ** The list a vector stands for *)

Definition repr (v : Vector) (l : list T) : Prop :=
  end_ v = length l /\
  match data_ v with
  | None => l = []
  | Some b => holds b (length b) (lcell l) /\ (length l <= length b)%nat /\ Z.of_nat (length b) <= mem_size_max
  end.

Abbreviation granted := (granted sizeof_T allocates).
Abbreviation roomy := (roomy sizeof_T allocates).

Definition ref_value (l : list T) (r : ref) : option T := match r with Val x => Some x | At i => l !! i end.
Definition after_ref (mv : bool) (l : list T) (r : ref) : list T :=
  match mv, r with true, At i => alter moved i l | _, _ => l end.

Hypothesis sizeof_pos : 0 < sizeof_T.

Lemma wp_Allocate R n :
  Z.of_nat n <= mem_size_max -> (R -> granted n) -> wp R (Allocate n) (fun b => b = replicate n Raw).
Proof using sizeof_pos. apply wp_allocate. lia. Qed.

Lemma wp_CalculateNewCapacity R n :
  Z.of_nat n <= mem_size_max -> (R -> granted (2 * n + 1)) ->
  wp R (CalculateNewCapacity n) (fun c => c = (if decide (n = 0)%nat then 1 else 2 * n)%nat /\ Z.of_nat c <= mem_size_max).
Proof using sizeof_pos.
  intros Hn HR. unfold CalculateNewCapacity. destruct (Nat.ltb_spec 0 n) as [Hlt|Hge].
  - unfold CheckedCountProduct, CheckedAllocationSize. rewrite TryAllocationSize_exact by (unfold kDefaultMult; lia).
    unfold kDefaultMult. destruct (Z.leb_spec (Z.of_nat n * 2) mem_size_max); cbn.
    + rewrite decide_False by lia. lia.
    + intros r. apply HR, granted_le in r; [|done]. lia.
  - cbn. rewrite decide_True by lia. split; [done|]. unfold mem_size_max. lia.
Qed.

(** ** Growing *)

Lemma repr_some b l : holds b (length b) (lcell l) -> (length l <= length b)%nat -> Z.of_nat (length b) <= mem_size_max ->
  repr (mkVector (Some b) (length l)) l.
Proof. by split. Qed.

(** A block known cell by cell to be the list [l]. *)
Lemma repr_cells b f n l e :
  holds b n f -> (forall j, (j < n)%nat -> f j = lcell l j) -> e = length l -> (length l <= n)%nat ->
  Z.of_nat n <= mem_size_max -> repr (mkVector (Some b) e) l.
Proof.
  intros H Hf -> Hl Hn. assert (n = length b) as -> by (destruct H; lia).
  apply repr_some; [|done|done]. by eapply holds_ext.
Qed.

Lemma repr_null : repr null_vector [].
Proof. done. Qed.

Lemma repr_size v l : repr v l -> size v = length l.
Proof. by intros []. Qed.

Lemma repr_capacity v l : repr v l -> (length l <= capacity v)%nat /\ Z.of_nat (capacity v) <= mem_size_max.
Proof. unfold repr, capacity. intros [_ H]. destruct (data_ v); [by destruct H as (_ & ? & ?)|]. rewrite H. done. Qed.

Lemma repr_room v l : repr v l -> (length l < capacity v)%nat \/ (0 < length l)%nat ->
  exists b, data_ v = Some b /\ v = mkVector (Some b) (length l) /\ capacity v = length b /\ holds b (length b) (lcell l) /\
    (length l <= length b)%nat /\ Z.of_nat (length b) <= mem_size_max.
Proof.
  intros [E H] Hc. unfold capacity in *. destruct v as [[b|] e]; cbn in *.
  - destruct H as (Hb & Hl & Hm). exists b. rewrite E. done.
  - subst l. cbn in Hc. lia.
Qed.

Lemma repr_relocate v l nb m g :
  repr v l -> holds nb m g -> (length l <= m)%nat -> (forall j, (j < length l)%nat -> g j = Raw) ->
  exists nb', relocate_to v nb = Ok nb' /\ holds nb' m (fun j => if decide (j < length l)%nat then lcell l j else g j).
Proof.
  intros [E H] Hnb Hm Hg. unfold relocate_to. destruct v as [[b|] e]; cbn in *.
  - destruct H as (Hb & Hl & Hmax). subst e.
    destruct (holds_relocate moved nb m g b (length b) (lcell l) (length l)) as (nb' & b' & f & -> & Hnb' & Hb' & Hlive & Hf);
      [done|done|done|done|by apply lcell_live|done|]. cbn.
    destruct (holds_DestructRange b' (length b) f 0 (length l)) as (b2 & -> & Hb2); [done|lia|done|]. cbn.
    rewrite (holds_release b2 (length b) _ Hb2); [cbn; eauto|].
    intros j Hj. case_decide; [done|]. rewrite Hf by lia. apply lcell_ge. lia.
  - subst l. cbn in *. exists nb. split; [done|]. by eapply holds_ext.
Qed.

Lemma GrowCapacity_wp R v l new_cap :
  repr v l -> (length l <= new_cap)%nat -> Z.of_nat new_cap <= mem_size_max -> (R -> granted new_cap) ->
  wp R (GrowCapacity v (length l) new_cap) (fun v' => repr v' l /\ capacity v' = new_cap).
Proof using sizeof_pos.
  intros Hv Hl Hn HR. unfold GrowCapacity. eapply wp_seq; [by apply wp_Allocate|]. intros b ->. cbn.
  destruct (repr_relocate v l _ _ _ Hv (holds_raw new_cap)) as (nb & -> & Hnb); [done|done|]. cbn. split.
  - eapply repr_cells; [done| |done|done|done]. intros j Hj. cbn. case_decide; [done|]. by rewrite lcell_ge by lia.
  - by destruct Hnb.
Qed.

Lemma load_elem_ok v l i x : repr v l -> l !! i = Some x -> load_elem v i = Ok x.
Proof.
  intros Hv Hi. pose proof (lookup_lt_Some _ _ _ Hi).
  destruct (repr_room v l Hv) as (b & E & _ & _ & Hb & Hl & _); [lia|]. unfold load_elem. rewrite E.
  eapply holds_load; [done|lia|by apply lcell_some].
Qed.

Lemma copy_ref_ok v l r x : repr v l -> ref_value l r = Some x -> copy_ref v r = Ok x.
Proof. intros Hv Hr. destruct r; cbn in *; [congruence|]. by eapply load_elem_ok. Qed.

Lemma length_after_ref mv l r : length (after_ref mv l r) = length l.
Proof. destruct mv, r; cbn; rewrite ?length_alter; done. Qed.

Lemma take_ref_ok mv v l r x :
  repr v l -> ref_value l r = Some x ->
  exists v', take_ref mv v r = Ok (x, v') /\ repr v' (after_ref mv l r) /\ capacity v' = capacity v.
Proof.
  intros Hv Hr. unfold take_ref. destruct mv; cbn.
  - destruct r as [y|i]; cbn in *; [injection Hr as ->; eauto|].
    pose proof (lookup_lt_Some _ _ _ Hr). destruct (repr_room v l Hv) as (b & E & Ev & _ & Hb & Hl & Hmax); [lia|].
    subst v. cbn. rewrite (holds_load b (length b) _ i x Hb) by (by apply lcell_some || lia). cbn.
    destruct (holds_assign b (length b) _ i (moved x) x Hb) as (b' & -> & Hb'); [lia|by apply lcell_some|]. cbn.
    exists (mkVector (Some b') (length l)). split; [done|]. split; [|by destruct Hb'].
    eapply repr_cells; [done| |by rewrite length_alter|rewrite length_alter; lia|done].
    intros j Hj. unfold upd, lcell.
    case_decide; subst.
    + by rewrite list_lookup_alter_eq, Hr.
    + by rewrite list_lookup_alter_ne.
  - rewrite (copy_ref_ok v l r x) by done. cbn. destruct r; eauto.
Qed.

(** ** Appending *)

Lemma lcell_snoc (l : list T) x j : lcell (l ++ [x]) j = if decide (j = length l) then Obj x else lcell l j.
Proof.
  rewrite lcell_app. repeat case_decide; try done; try lia.
  - subst. by rewrite Nat.sub_diag.
  - rewrite !lcell_ge; [done|lia|cbn; lia].
Qed.

Lemma InsertAtEnd_wp R mv v l r x :
  repr v l -> ref_value l r = Some x -> (R -> granted (2 * length l + 1)) ->
  (R -> granted (if decide (length l = 0)%nat then 1 else 2 * length l)%nat) ->
  wp R (InsertAtEnd mv v r) (fun v' => repr v' (after_ref mv l r ++ [x])).
Proof using sizeof_pos.
  intros Hv Hr HR1 HR2. unfold InsertAtEnd. rewrite (repr_size v l) by done.
  pose proof (repr_capacity v l Hv) as [Hc Hm].
  eapply wp_seq; [apply wp_CalculateNewCapacity; [lia|done]|]. intros c [Ec Hcm].
  eapply wp_seq; [apply wp_Allocate; [done|by subst c]|]. intros b ->.
  destruct (take_ref_ok mv v l r x Hv Hr) as (v' & E & Hv' & _). run.
  set (l' := after_ref mv l r) in *. assert (Hlen : length l' = length l) by apply length_after_ref.
  assert (Hcl : (length l < c)%nat) by (subst c; case_decide; lia).
  destruct (holds_construct _ c _ (length l) x (holds_raw c)) as (nb & E1 & Hnb); [done|done|]. run.
  destruct (repr_relocate v' l' nb c _ Hv' Hnb) as (nb' & E2 & Hnb'); [lia| |].
  { intros j Hj. unfold upd. by rewrite decide_False by lia. }
  run. cbn. eapply repr_cells; [done| |by rewrite length_app; cbn; lia|rewrite length_app; cbn; lia|done].
  intros j Hj. cbn. rewrite lcell_snoc, Hlen. unfold upd. repeat case_decide; try done; try lia.
  by rewrite lcell_ge by lia.
Qed.

Lemma push_back_wp R mv v l r x :
  repr v l -> ref_value l r = Some x -> (R -> roomy (2 * length l + 1)) ->
  wp R (push_back mv v r) (fun v' => repr v' (after_ref mv l r ++ [x])).
Proof using sizeof_pos.
  intros Hv Hr HR. unfold push_back. destruct Hv as [Ee Hv']. assert (Hv : repr v l) by done. clear Hv'.
  rewrite Ee. destruct (Nat.ltb_spec (length l) (capacity v)) as [Hlt|Hge].
  - destruct (take_ref_ok mv v l r x Hv Hr) as (v' & E & Hv' & Ecap). run.
    pose proof (length_after_ref mv l r) as Hlen. set (l' := after_ref mv l r) in *.
    destruct (repr_room v' l' Hv') as (b & E1 & Ev & Ecb & Hb & Hl & Hmax); [lia|]. subst v'. unfold on_block. cbn.
    destruct (holds_construct b _ _ (length l') x Hb) as (b' & -> & Hb'); [lia|by apply lcell_ge|]. cbn.
    eapply repr_cells; [done| |by rewrite length_app; cbn; lia|rewrite length_app; cbn; lia|done].
    intros j Hj. by rewrite lcell_snoc.
  - apply InsertAtEnd_wp; try done; intros r0; apply HR in r0; apply r0; [lia|]. case_decide; lia.
Qed.

Lemma push_all_wp R v l xs :
  repr v l -> (R -> roomy (2 * (length l + length xs))) ->
  wp R (push_all v xs) (fun v' => repr v' (l ++ xs)).
Proof using sizeof_pos.
  unfold push_all. revert v l. induction xs as [|x xs IH]; intros v l Hv HR; cbn [fold_left].
  - cbn. by rewrite app_nil_r.
  - cbn [mbind res_bind]. pose proof (push_back_wp R false v l (Val x) x Hv eq_refl) as H.
    destruct (push_back false v (Val x)) as [v'| |]; cbn in H.
    + replace (l ++ x :: xs) with ((l ++ [x]) ++ xs) by (by rewrite <- app_assoc). apply IH.
      * apply H. intros r k Hk. apply HR; [done|]. cbn. lia.
      * intros r k Hk. apply HR; [done|]. rewrite length_app in Hk. cbn in *. lia.
    + assert (forall xs, fold_left (fun m x => v ← m; push_back false v (Val x)) xs Fatal = Fatal) as ->.
      { clear. induction xs; [done|]. apply IHxs. }
      cbn. apply H. intros r k Hk. apply HR; [done|]. cbn. lia.
    + destruct H. intros r k Hk. apply HR; [done|]. cbn. lia.
Qed.

Lemma empty_ok v l : repr v l -> empty v = bool_decide (l = []).
Proof.
  intros [E H]. unfold empty. rewrite E. destruct (data_ v).
  - destruct l; [done|]. symmetry. by apply bool_decide_eq_false.
  - subst. done.
Qed.

Lemma back_ok v l x : repr v (l ++ [x]) -> back v = Ok x.
Proof.
  intros Hv. unfold back. rewrite (empty_ok v _ Hv), bool_decide_eq_false_2 by (by destruct l). cbn.
  eapply load_elem_ok; [done|]. destruct Hv as [-> _]. rewrite length_app. cbn.
  rewrite lookup_app_r by lia. by replace (length l + 1 - 1 - length l)%nat with 0%nat by lia.
Qed.

Lemma front_ok v l x : repr v (x :: l) -> front v = Ok x.
Proof.
  intros Hv. unfold front. rewrite (empty_ok v _ Hv), bool_decide_eq_false_2 by done. cbn. by eapply load_elem_ok.
Qed.

(** ** Removing at the end *)

Lemma shrink_ok v l n : repr v l -> (n <= length l)%nat -> exists v', shrink v n = Ok v' /\ repr v' (take n l).
Proof.
  intros Hv Hn. unfold shrink. destruct (data_ v) as [b|] eqn:E.
  - destruct v as [d e]. unfold repr in Hv. cbn in *. subst d. destruct Hv as [-> (Hb & Hl & Hm)].
    destruct (holds_DestructRange b (length b) _ n (length l) Hb) as (b' & E & Hb'); [lia|by apply lcell_live|]. run.
    exists (mkVector (Some b') n). split; [done|].
    eapply repr_cells; [done| |rewrite length_take; lia|rewrite length_take; lia|done].
    intros j Hj. rewrite lcell_take. repeat case_decide; try done; try lia. by rewrite lcell_ge by lia.
  - destruct Hv as [-> Hv]. rewrite E in Hv. subst l. cbn in *. assert (n = 0)%nat as -> by lia. cbn.
    eexists. split; [done|]. done.
Qed.

Lemma pop_back_ok v l x : repr v (l ++ [x]) -> exists v', pop_back v = Ok v' /\ repr v' l.
Proof.
  intros Hv. unfold pop_back. rewrite (empty_ok v _ Hv), bool_decide_eq_false_2 by (by destruct l).
  pose proof (length_app l [x]) as Hlen. cbn in Hlen.
  destruct (repr_room v _ Hv) as (b & _ & -> & _ & Hb & Hl & Hm); [lia|]. unfold on_block, set_end. cbn.
  replace (length (l ++ [x]) - 1)%nat with (length l) by lia.
  destruct (holds_destruct b _ _ (length l) x Hb) as (b' & E & Hb'); [lia|rewrite lcell_snoc; by rewrite decide_True|]. run.
  eexists. split; [done|]. eapply repr_cells; [done| |done|lia|done].
  intros j Hj. unfold upd. rewrite lcell_snoc. case_decide; [|done]. subst. by rewrite lcell_ge by lia.
Qed.

(** ** Filling *)

Lemma fill_construct_ok (b : block T) n f at_ count x :
  holds b n f -> (at_ + count <= n)%nat -> (forall j, (at_ <= j < at_ + count)%nat -> f j = Raw) ->
  exists b', fill_construct b at_ count x = Ok b' /\
    holds b' n (fun j => if decide (at_ <= j < at_ + count)%nat then Obj x else f j).
Proof.
  intros Hb Hn Hf. unfold fill_construct.
  pose (P := fun (i : nat) (b : block T) => holds b n (fun j => if decide (at_ <= j < i)%nat then Obj x else f j)).
  apply (for_loop_inv P); unfold P.
  - eapply holds_ext; [done|]. intros. by rewrite decide_False by lia.
  - intros i s Hi Hs. destruct (holds_construct s n _ i x Hs) as (s' & E & Hs'); [lia| |].
    { rewrite decide_False by lia. apply Hf. lia. }
    exists s'. split; [done|]. eapply holds_ext; [done|]. intros j Hj. unfold upd. repeat case_decide; done || lia.
Qed.

Lemma construct_from_ok (b : block T) n f at_ xs :
  holds b n f -> (at_ + length xs <= n)%nat -> (forall j, (at_ <= j < at_ + length xs)%nat -> f j = Raw) ->
  exists b', construct_from b at_ xs = Ok b' /\
    holds b' n (fun j => if decide (at_ <= j < at_ + length xs)%nat then lcell xs (j - at_) else f j).
Proof.
  intros Hb Hn Hf. unfold construct_from.
  pose (P := fun (i : nat) (b : block T) => holds b n (fun j => if decide (at_ <= j < i)%nat then lcell xs (j - at_) else f j)).
  apply (for_loop_inv P); unfold P.
  - eapply holds_ext; [done|]. intros. by rewrite decide_False by lia.
  - intros i s Hi Hs. destruct (lookup_lt_is_Some_2 xs (i - at_)) as [x Ex]; [lia|]. rewrite Ex.
    destruct (holds_construct s n _ i x Hs) as (s' & E & Hs'); [lia| |].
    { rewrite decide_False by lia. apply Hf. lia. }
    exists s'. split; [done|]. eapply holds_ext; [done|]. intros j Hj. unfold upd.
    repeat case_decide; try done; try lia. subst. symmetry. by apply lcell_some.
Qed.

Lemma Vector_fill_wp R count x :
  Z.of_nat count <= mem_size_max -> (R -> roomy count) -> wp R (Vector_fill count x) (fun v => repr v (replicate count x)).
Proof using sizeof_pos.
  intros Hc HR. unfold Vector_fill. destruct (Nat.ltb_spec 0 count) as [Hlt|Hge].
  - eapply wp_seq; [apply wp_Allocate; [done|]; intros r; by apply HR|]. intros b ->.
    destruct (fill_construct_ok _ count _ 0 count x (holds_raw count)) as (b' & E & Hb'); [lia|done|]. run. cbn.
    eapply repr_cells; [done| |by rewrite length_replicate|by rewrite length_replicate|done].
    intros j Hj. rewrite lcell_replicate. repeat case_decide; done || lia.
  - assert (count = 0)%nat as -> by lia. done.
Qed.

Lemma Vector_list_wp R xs :
  Z.of_nat (length xs) <= mem_size_max -> (R -> roomy (length xs)) -> wp R (Vector_list xs) (fun v => repr v xs).
Proof using sizeof_pos.
  intros Hc HR. unfold Vector_list. destruct (Nat.ltb_spec 0 (length xs)) as [Hlt|Hge].
  - eapply wp_seq; [apply wp_Allocate; [done|]; intros r; by apply HR|]. intros b ->.
    destruct (construct_from_ok _ _ _ 0 xs (holds_raw (length xs))) as (b' & E & Hb'); [lia|done|]. run. cbn.
    eapply repr_cells; [done| |done|done|done].
    intros j Hj. cbn. rewrite decide_True by lia. by rewrite Nat.sub_0_r.
  - by destruct xs; [|cbn in Hge; lia].
Qed.

Lemma read_all_loop v l (pick : nat -> nat) n :
  repr v l -> (forall i, (i < n)%nat -> (pick i < length l)%nat) ->
  exists xs, for_loop 0 n (fun i xs => x ← load_elem v (pick i); Ok (xs ++ [x])) [] = Ok xs /\ length xs = n /\
    forall i, (i < n)%nat -> xs !! i = l !! pick i.
Proof.
  intros Hv Hp.
  pose (P := fun (i : nat) (xs : list T) => length xs = i /\ forall j, (j < i)%nat -> xs !! j = l !! pick j).
  apply (for_loop_inv P); unfold P; [split; [done|lia]|]. intros i xs Hi [El Hx].
  destruct (lookup_lt_is_Some_2 l (pick i)) as [x Ex]; [apply Hp; lia|].
  rewrite (load_elem_ok v l (pick i) x) by done. cbn. eexists. split; [done|].
  rewrite length_app, El. split; [cbn; lia|]. intros j Hj. destruct (decide (j = i)) as [->|].
  - rewrite lookup_app_r by lia. by rewrite El, Nat.sub_diag, Ex.
  - rewrite lookup_app_l by lia. apply Hx. lia.
Qed.

Lemma read_all_ok v l : repr v l -> read_all v = Ok l.
Proof.
  intros Hv. unfold read_all. rewrite (repr_size v l Hv).
  destruct (read_all_loop v l (fun i => i) (length l) Hv) as (xs & -> & Hl & Hx); [done|].
  f_equal. apply list_eq. intros i. destruct (decide (i < length l)%nat); [by apply Hx|].
  by rewrite !lookup_ge_None_2 by lia.
Qed.

Lemma read_reverse_ok v l : repr v l -> read_reverse v = Ok (reverse l).
Proof.
  intros Hv. unfold read_reverse. rewrite (repr_size v l Hv).
  destruct (read_all_loop v l (fun i => length l - i - 1)%nat (length l) Hv) as (xs & -> & Hl & Hx); [lia|].
  f_equal. apply list_eq. intros i. destruct (decide (i < length l)%nat).
  - rewrite Hx, reverse_lookup by done. f_equal. lia.
  - by rewrite !lookup_ge_None_2 by (rewrite ?length_reverse; lia).
Qed.

Lemma Vector_copy_wp R other l :
  repr other l -> (R -> roomy (length l)) -> wp R (Vector_copy other) (fun v => repr v l).
Proof using sizeof_pos.
  intros Ho HR. pose proof (repr_capacity other l Ho). pose proof (Vector_list_wp R l) as H1.
  replace (Vector_copy other) with (Vector_list l); [apply H1; [lia|done]|].
  unfold Vector_copy, Vector_list. rewrite (repr_size other l Ho). destruct (Nat.ltb_spec 0 (length l)); [|done].
  destruct (Allocate (length l)) as [b| |]; cbn; [|done|done]. f_equal.
  unfold construct_from. assert (forall k i b, (i + k <= length l)%nat ->
    for_loop i k (fun j b => match l !! (j - 0)%nat with Some x => construct b j x | None => Undef end) b =
    for_loop i k (fun j b => x ← load_elem other j; construct b j x) b) as ->; [|done|lia].
  induction k as [|k IH]; intros i b' Hi; [done|]. cbn. rewrite Nat.sub_0_r.
  destruct (lookup_lt_is_Some_2 l i) as [x Ex]; [lia|]. rewrite Ex, (load_elem_ok other l i x Ho Ex). cbn.
  destruct (construct b' i x); cbn; [apply IH; lia|done|done].
Qed.

Lemma release_storage_ok v l : repr v l -> release_storage v = Ok ().
Proof.
  intros Hv. unfold release_storage. unfold repr in Hv. destruct v as [[b|] e]; cbn in *; destruct Hv as [-> Hv].
  - destruct Hv as (Hb & Hl & Hm). destruct (holds_DestructRange b _ _ 0 (length l) Hb) as (b' & E & Hb'); [lia|by apply lcell_live|].
    run. cbn. eapply holds_release; [done|]. intros j Hj. cbn. case_decide; [done|]. apply lcell_ge. lia.
  - by subst l.
Qed.

(** ** Sizes *)

Lemma resize_with_wp R v l n r x :
  repr v l -> ref_value l r = Some x -> Z.of_nat n <= mem_size_max -> (R -> roomy n) ->
  wp R (resize_with v n r) (fun v' => repr v' (take n l ++ replicate (n - length l) x)).
Proof using sizeof_pos.
  intros Hv Hr Hn HR. unfold resize_with. rewrite (repr_size v l Hv).
  destruct (Nat.ltb_spec (length l) n) as [Hlt|Hge].
  - rewrite (copy_ref_ok v l r x) by done. cbn [mbind res_bind]. rewrite take_ge by lia.
    eapply wp_seq with (Q := fun v' => repr v' l /\ (n <= capacity v')%nat).
    + destruct (Nat.ltb_spec (capacity v) n); [|split; [done|lia]].
      eapply wp_mono; [apply GrowCapacity_wp; [done|lia|done|]; intros r0; by apply HR|]. intros v' [? ?]. split; [done|lia].
    + intros v' [Hv' Hc]. destruct (repr_room v' l Hv') as (b & _ & -> & Ecb & Hb & Hl & Hm); [lia|]. unfold on_block. cbn.
      destruct (fill_construct_ok b _ _ (length l) (n - length l) x Hb) as (b' & E & Hb'); [lia|intros; apply lcell_ge; lia|].
      run. cbn. assert (Hlen : length (l ++ replicate (n - length l) x) = n) by (rewrite length_app, length_replicate; lia).
      eapply repr_cells; [done| |done|lia|done]. intros j Hj. rewrite lcell_app, lcell_replicate.
      repeat case_decide; try done; try lia. by rewrite lcell_ge by lia.
  - replace (n - length l)%nat with 0%nat by lia. cbn [replicate]. rewrite app_nil_r.
    destruct (Nat.ltb_spec n (length l)).
    + apply wp_ok. apply shrink_ok; [done|lia].
    + cbn. by rewrite take_ge by lia.
Qed.

Lemma reserve_wp R v l n :
  repr v l -> Z.of_nat n <= mem_size_max -> (R -> roomy n) ->
  wp R (reserve v n) (fun v' => repr v' l /\ (n <= capacity v')%nat).
Proof using sizeof_pos.
  intros Hv Hn HR. unfold reserve. destruct (Nat.eqb_spec n 0) as [->|]; [split; [done|lia]|].
  destruct (Nat.ltb_spec (capacity v) n); [|split; [done|lia]].
  pose proof (repr_capacity v l Hv). rewrite (repr_size v l Hv).
  eapply wp_mono; [apply GrowCapacity_wp; [done|lia|done|]; intros r0; by apply HR|]. intros v' [? ?]. split; [done|lia].
Qed.

Lemma shrink_to_fit_wp R v l :
  repr v l -> (R -> roomy (length l)) ->
  wp R (shrink_to_fit v) (fun '(v', n) => repr v' l /\ capacity v' = length l /\ n = length l).
Proof using sizeof_pos.
  intros Hv HR. unfold shrink_to_fit. pose proof (repr_capacity v l Hv) as [Hc Hm].
  eapply wp_seq with (Q := fun v' => repr v' l /\ capacity v' = length l).
  - destruct (Hv) as [-> Hd]. destruct (Nat.eqb_spec (length l) (capacity v)) as [E|Hne]; cbn [negb]; [done|].
    destruct (Nat.eqb_spec (length l) 0) as [E0|Hn0].
    + destruct l; [|done]. unfold ReleaseAll. destruct (data_ v) eqn:Ed; [|unfold capacity in *; rewrite Ed in *; cbn in Hne; lia].
      by rewrite (release_storage_ok v [] Hv).
    + rewrite (repr_size v l Hv). apply (GrowCapacity_wp R v l (length l)); [done|lia|lia|]. intros r. by apply HR.
  - intros v' [Hv' Ec]. cbn. by rewrite (repr_size v' l Hv').
Qed.

(** ** Insertion *)

Definition mcell (l : list T) (j : nat) : cell T := match l !! j with Some v => Obj (moved v) | None => Raw end.

(** The block after [MakeHoleForInsert]: in the hole the objects of the old range
    are alive, the rest is raw. *)
Definition hole (l : list T) (pos count j : nat) : cell T :=
  if decide (j < pos)%nat then lcell l j
  else if decide (j < pos + count)%nat then mcell l j
  else lcell l (j - count).

Lemma mcell_lt l j : (j < length l)%nat -> exists v, mcell l j = Obj (moved v) /\ l !! j = Some v.
Proof. intros Hj. unfold mcell. destruct (lookup_lt_is_Some_2 l j Hj) as [v E]. rewrite E. eauto. Qed.

Lemma mcell_ge l j : (length l <= j)%nat -> mcell l j = Raw.
Proof. intros Hj. unfold mcell. by rewrite lookup_ge_None_2. Qed.

(** The block after [i] elements have moved up, from the last one down. *)
Definition moving (l : list T) (count i j : nat) : cell T :=
  if decide (length l + count - i <= j < length l + count)%nat then lcell l (j - count)
  else if decide (length l - i <= j < length l)%nat then mcell l j
  else lcell l j.

Lemma moving_step l count i s n :
  (0 < count)%nat -> (i < length l)%nat -> (length l + count <= n)%nat -> holds s n (moving l count i) ->
  exists s', (if decide (i < count)%nat then move_construct moved s else move_assign moved s)
    (length l - (i + 1) + count)%nat (length l - (i + 1))%nat = Ok s' /\ holds s' n (moving l count (S i)).
Proof.
  intros Hc Hi Hn Hs. set (src := (length l - (i + 1))%nat). set (dest := (src + count)%nat).
  destruct (lcell_lt l src) as (v & Ev & El); [lia|].
  assert (Es : moving l count i src = Obj v).
  { unfold moving. by rewrite !decide_False by lia. }
  assert (Hstep : forall s', holds s' n (upd (upd (moving l count i) dest (Obj v)) src (Obj (moved v))) ->
      holds s' n (moving l count (S i))).
  { intros s' Hs'. eapply holds_ext; [done|]. intros j Hj. unfold upd, moving. repeat case_decide; try done; try lia.
    - subst j. unfold mcell. by rewrite El.
    - subst j. unfold dest. replace (src + count - count)%nat with src by lia. done. }
  destruct (decide (i < count)%nat) as [Hlt|Hge].
  - destruct (holds_move_construct moved s n _ dest src v Hs) as (s' & E & Hs'); [lia|lia|done| |eauto].
    unfold moving. rewrite !decide_False by lia. apply lcell_ge. lia.
  - destruct (mcell_lt l dest) as (w & Ew & _); [lia|].
    destruct (holds_move_assign moved s n _ dest src v (moved w) Hs) as (s' & E & Hs'); [lia|lia|lia|done| |eauto].
    unfold moving. rewrite decide_False, decide_True by lia. done.
Qed.

Lemma MakeHoleForInsert_ok b n l pos count :
  holds b n (lcell l) -> (pos <= length l)%nat -> (length l + count <= n)%nat ->
  exists b', MakeHoleForInsert b (length l) pos count = Ok b' /\ holds b' n (hole l pos count).
Proof.
  intros Hb Hp Hn. unfold MakeHoleForInsert.
  destruct (Nat.eqb_spec (length l - pos) 0) as [E0|E0]; [|destruct (Nat.eqb_spec count 0) as [E1|E1]]; cbn [orb].
  1, 2: eexists; split; [done|]; eapply holds_ext; [done|]; intros j Hj; unfold hole; repeat case_decide; try done; try lia.
  - by rewrite lcell_ge, mcell_ge by lia.
  - by rewrite !lcell_ge by lia.
  - subst. by rewrite Nat.sub_0_r.
  - pose (P := fun (i : nat) (b : block T) => holds b n (moving l count i)).
    set (m := (length l - pos)%nat) in *. set (k := Nat.min count m).
    destruct (for_loop_inv P (fun i b => move_construct moved b (length l - (i + 1) + count) (length l - (i + 1))) 0 k b)
      as (b1 & E & H1); unfold P in *.
    + eapply holds_ext; [done|]. intros j Hj. unfold moving. by rewrite !decide_False by lia.
    + intros i s Hi Hs. pose proof (moving_step l count i s n ltac:(lia) ltac:(lia) Hn Hs) as H.
      by rewrite decide_True in H by lia.
    + run. cbn [Nat.add] in H1.
      destruct (for_loop_inv P (fun i b => move_assign moved b (length l - (i + 1) + count) (length l - (i + 1))) k (m - k) b1)
        as (b2 & E2 & H2); unfold P in *; [done| |].
      * intros i s Hi Hs. pose proof (moving_step l count i s n ltac:(lia) ltac:(lia) Hn Hs) as H.
        by rewrite decide_False in H by lia.
      * exists b2. split; [done|]. replace (k + (m - k))%nat with m in H2 by lia.
        eapply holds_ext; [done|]. intros j Hj. unfold moving, hole. repeat case_decide; try done; try lia.
        -- by rewrite mcell_ge, lcell_ge by lia.
        -- by rewrite !lcell_ge by lia.
Qed.

(** The list with [xs] put at [pos]. *)
Definition spliced (l : list T) (pos : nat) (xs : list T) : list T := take pos l ++ xs ++ drop pos l.

Lemma length_spliced l pos xs : (pos <= length l)%nat -> length (spliced l pos xs) = (length l + length xs)%nat.
Proof. intros. unfold spliced. rewrite !length_app, length_take, length_drop. lia. Qed.

Lemma lcell_spliced l pos xs j :
  (pos <= length l)%nat ->
  lcell (spliced l pos xs) j =
  if decide (j < pos)%nat then lcell l j
  else if decide (j < pos + length xs)%nat then lcell xs (j - pos)
  else lcell l (j - length xs).
Proof.
  intros Hp. unfold spliced. rewrite lcell_app, lcell_app, lcell_take, lcell_drop, length_take, Nat.min_l by done.
  repeat case_decide; try done; try lia. f_equal. lia.
Qed.

(** Writing [xs] into the hole: by assignment where an object is alive, else by
    construction. *)
Lemma fill_hole b n l pos xs (body : nat -> block T -> res (block T)) :
  holds b n (hole l pos (length xs)) -> (pos <= length l)%nat -> (length l + length xs <= n)%nat ->
  (forall i b x, xs !! i = Some x ->
     body i b = if decide (i < length l - pos)%nat then assign b (pos + i) x else construct b (pos + i) x) ->
  exists b', for_loop 0 (length xs) body b = Ok b' /\ holds b' n (lcell (spliced l pos xs)).
Proof.
  intros Hb Hp Hn Hbody.
  pose (P := fun (i : nat) (b : block T) =>
    holds b n (fun j => if decide (pos <= j < pos + i)%nat then lcell xs (j - pos) else hole l pos (length xs) j)).
  destruct (for_loop_inv P body 0 (length xs) b) as (b' & E & H); unfold P in *.
  - eapply holds_ext; [done|]. intros. by rewrite decide_False by lia.
  - intros i s Hi Hs. destruct (lookup_lt_is_Some_2 xs i) as [x Ex]; [lia|]. rewrite (Hbody i s x Ex).
    assert (Hupd : forall s', holds s' n (upd (fun j => if decide (pos <= j < pos + i)%nat then lcell xs (j - pos) else hole l pos (length xs) j)
        (pos + i) (Obj x)) ->
      holds s' n (fun j => if decide (pos <= j < pos + S i)%nat then lcell xs (j - pos) else hole l pos (length xs) j)).
    { intros s' Hs'. eapply holds_ext; [done|]. intros j Hj. unfold upd. repeat case_decide; try done; try lia.
      subst j. replace (pos + i - pos)%nat with i by lia. symmetry. by apply lcell_some. }
    case_decide as Hlt.
    + destruct (mcell_lt l (pos + i)) as (w & Ew & _); [lia|].
      destruct (holds_assign s n _ (pos + i) x (moved w) Hs) as (s' & E & Hs'); [lia| |eauto].
      unfold hole. rewrite decide_False, decide_False, decide_True by lia. done.
    + destruct (holds_construct s n _ (pos + i) x Hs) as (s' & E & Hs'); [lia| |eauto].
      unfold hole. rewrite decide_False, decide_False, decide_True by lia. apply mcell_ge. lia.
  - exists b'. split; [done|]. eapply holds_ext; [done|]. intros j Hj. rewrite lcell_spliced by done. unfold hole.
    cbn. repeat case_decide; done || lia.
Qed.

Lemma for_loop_app {S} start n m (body : nat -> S -> res S) s :
  for_loop start (n + m) body s = (s ← for_loop start n body s; for_loop (start + n) m body s).
Proof.
  revert start s. induction n as [|n IH]; intros start s; cbn.
  - by rewrite Nat.add_0_r.
  - destruct (body start s); cbn; [|done|done]. rewrite IH. by rewrite Nat.add_succ_r.
Qed.

Lemma for_loop_ext {S} start n (body body' : nat -> S -> res S) s :
  (forall i s, (start <= i < start + n)%nat -> body i s = body' i s) -> for_loop start n body s = for_loop start n body' s.
Proof.
  revert start s. induction n as [|n IH]; intros start s H; cbn; [done|]. rewrite H by lia.
  destruct (body' start s); cbn; [|done|done]. apply IH. intros. apply H. lia.
Qed.

Lemma make_room_wp R v l pos count :
  repr v l -> (pos <= length l)%nat -> (0 < count)%nat -> Z.of_nat count <= mem_size_max -> (R -> roomy (2 * (length l + count) + 1)) ->
  wp R (make_room v pos count) (fun v' => exists b, v' = mkVector (Some b) (length l) /\
    holds b (length b) (hole l pos count) /\ (length l + count <= length b)%nat /\ Z.of_nat (length b) <= mem_size_max).
Proof using sizeof_pos.
  intros Hv Hp Hc Hm HR. pose proof (repr_capacity v l Hv) as [Hcl Hcm]. unfold make_room. rewrite (repr_size v l Hv).
  rewrite CheckedCountSum_exact by lia.
  destruct (Z.leb_spec (Z.of_nat (length l) + Z.of_nat count) mem_size_max) as [Hs|Hs];
    [|cbn; intros r; specialize (HR r (length l + count)%nat ltac:(lia)); apply granted_le in HR; [lia|done]].
  cbn [mbind res_bind]. eapply wp_seq with (Q := fun v' => repr v' l /\ (length l + count <= capacity v')%nat).
  - destruct (Z.ltb_spec (Z.of_nat (capacity v)) (Z.of_nat (length l) + Z.of_nat count)); [|split; [done|lia]].
    rewrite <- Nat2Z.inj_add, Nat2Z.id. eapply wp_seq.
    { apply wp_CalculateNewCapacity; [lia|]. intros r. apply HR; [done|lia]. }
    intros c [Ec Hcc]. rewrite decide_False in Ec by lia. eapply wp_mono; [apply GrowCapacity_wp; [done|lia|done|]|].
    + intros r. apply HR; [done|lia].
    + intros v' [? ?]. split; [done|lia].
  - intros v' [Hv' Hcv']. destruct (repr_room v' l Hv') as (b & _ & -> & Ecb & Hb & Hl & Hbm); [lia|]. unfold on_block. cbn.
    destruct (MakeHoleForInsert_ok b (length b) l pos count Hb) as (b' & E & Hb'); [done|lia|]. run. cbn.
    assert (length b' = length b) as El by (by destruct Hb'). exists b'. rewrite El. split; [done|]. split; [done|]. lia.
Qed.

Lemma repr_spliced b l pos xs e :
  holds b (length b) (lcell (spliced l pos xs)) -> (pos <= length l)%nat -> (length l + length xs <= length b)%nat ->
  Z.of_nat (length b) <= mem_size_max -> e = (length l + length xs)%nat -> repr (mkVector (Some b) e) (spliced l pos xs).
Proof.
  intros H Hp Hl Hm ->. rewrite <- (length_spliced l pos xs Hp) in Hl |- *. by apply repr_some.
Qed.

Lemma insert_wp R mv v l pos r x :
  repr v l -> ref_value l r = Some x -> (pos <= length l)%nat -> (R -> roomy (2 * length l + 1)) ->
  wp R (insert mv v pos r) (fun '(v', p) => repr v' (spliced (after_ref mv l r) pos [x]) /\ p = pos).
Proof using sizeof_pos.
  intros Hv Hr Hp HR. unfold insert. rewrite (repr_size v l Hv), (proj2 (Nat.leb_le _ _)) by done. cbn [dcheck mbind res_bind].
  destruct (take_ref_ok mv v l r x Hv Hr) as (v1 & E & Hv1 & Ec). run. pose proof (length_after_ref mv l r) as Hlen.
  set (l' := after_ref mv l r) in *. rewrite (repr_size v1 l' Hv1). pose proof (repr_capacity v1 l' Hv1) as [Hcl Hcm].
  eapply wp_seq with (Q := fun v' => repr v' l' /\ (length l' + 1 <= capacity v')%nat).
  - destruct (Nat.eqb_spec (length l') (capacity v1)); [|split; [done|lia]].
    eapply wp_seq. { apply wp_CalculateNewCapacity; [lia|]. intros r0. apply HR; [done|lia]. }
    intros c [Eq Hcc]. assert (length l' + 1 <= c)%nat by (subst c; case_decide; lia).
    eapply wp_mono; [apply GrowCapacity_wp; [done|lia|done|]|].
    + intros r0. apply HR; [done|]. subst c. case_decide; lia.
    + intros v' [? ?]. split; [done|lia].
  - intros v2 [Hv2 Hc2]. destruct (repr_room v2 l' Hv2) as (b & _ & -> & Ecb & Hb & Hl & Hbm); [lia|]. unfold on_block. cbn [data_ Vector.end_].
    destruct (MakeHoleForInsert_ok b (length b) l' pos 1 Hb) as (b1 & E1 & Hb1); [lia|lia|]. run. cbn [data_ Vector.end_].
    destruct (fill_hole b1 (length b) l' pos [x] (fun _ b => if (pos <? length l')%nat then assign b pos x else construct b pos x) Hb1)
      as (b2 & E2 & Hb2); [lia|cbn; lia| |].
    { intros i b0 y Hy. apply list_lookup_singleton_Some in Hy as [-> ->]. rewrite Nat.add_0_r.
      destruct (Nat.ltb_spec pos (length l')); case_decide; done || lia. }
    cbn [length for_loop mbind res_bind] in E2 |- *. revert E2. destruct (if (pos <? length l')%nat then assign b1 pos x else construct b1 pos x) as [b3| |]; [|done|done].
    intros [= ->]. cbn. split; [|done]. assert (El : length b2 = length b) by (by destruct Hb2).
    rewrite <- El in *. apply repr_spliced; [done|lia|cbn; lia|done|done].
Qed.

Lemma insert_n_wp R v l pos count r x :
  repr v l -> ref_value l r = Some x -> (pos <= length l)%nat -> Z.of_nat count <= mem_size_max ->
  (R -> roomy (2 * (length l + count) + 1)) ->
  wp R (insert_n v pos count r) (fun v' => repr v' (spliced l pos (replicate count x))).
Proof using sizeof_pos.
  intros Hv Hr Hp Hm HR. unfold insert_n. destruct (Nat.eqb_spec count 0) as [->|Hc].
  - cbn. unfold spliced. cbn. by rewrite take_drop.
  - rewrite (repr_size v l Hv), (proj2 (Nat.leb_le _ _)) by done. rewrite (copy_ref_ok v l r x) by done. cbn [dcheck mbind res_bind].
    eapply wp_seq; [apply make_room_wp; [done|done|lia|done|done]|]. intros v' (b & -> & Hb & Hl & Hbm).
    unfold on_block. cbn [data_ Vector.end_]. set (k := Nat.min count (length l - pos)).
    destruct (fill_hole b (length b) l pos (replicate count x)
      (fun i b => if (i <? k)%nat then assign b (pos + i) x else construct b (pos + i) x)) as (b' & E & Hb').
    + by rewrite length_replicate.
    + done.
    + rewrite length_replicate. lia.
    + intros i b0 y [-> Hi]%lookup_replicate. destruct (Nat.ltb_spec i k); case_decide; done || lia.
    + rewrite length_replicate in E. replace count with (k + (count - k))%nat in E by lia. rewrite for_loop_app in E.
      rewrite (for_loop_ext 0 k _ (fun i b => assign b (pos + i) x)) in E.
      2:{ intros i s Hi. destruct (Nat.ltb_spec i k); done || lia. }
      destruct (for_loop 0 k _ b) as [b1| |] eqn:E1; cbn [mbind res_bind] in E; [|done|done]. cbn [Nat.add] in E.
      rewrite (for_loop_ext k _ _ (fun i b => construct b (pos + i) x)) in E.
      2:{ intros i s Hi. destruct (Nat.ltb_spec i k); done || lia. }
      replace (k + (count - k) - k)%nat with (count - k)%nat in E by lia.
      run. cbn. assert (El : length b' = length b) by (by destruct Hb'). rewrite <- El in *.
      apply repr_spliced; rewrite ?length_replicate; done || lia.
Qed.

Lemma insert_range_wp R v l pos xs :
  repr v l -> (pos <= length l)%nat -> Z.of_nat (length xs) <= mem_size_max -> (R -> roomy (2 * (length l + length xs) + 1)) ->
  wp R (insert_range v pos xs) (fun v' => repr v' (spliced l pos xs)).
Proof using sizeof_pos.
  intros Hv Hp Hm HR. unfold insert_range. destruct (Nat.eqb_spec (length xs) 0) as [E0|Hc].
  - destruct xs; [|done]. cbn. unfold spliced. cbn. by rewrite take_drop.
  - rewrite (repr_size v l Hv), (proj2 (Nat.leb_le _ _)) by done. cbn [dcheck mbind res_bind].
    eapply wp_seq; [apply make_room_wp; [done|done|lia|done|done]|]. intros v' (b & -> & Hb & Hl & Hbm).
    unfold on_block. cbn [data_ Vector.end_].
    destruct (fill_hole b (length b) l pos xs (fun i b => match xs !! i with
      | None => Undef
      | Some x => if (i <? Nat.min (length xs) (length l - pos))%nat then assign b (pos + i) x else construct b (pos + i) x
      end)) as (b' & E & Hb'); [done|done|done| |].
    + intros i b0 y Hy. rewrite Hy. pose proof (lookup_lt_Some _ _ _ Hy).
      destruct (Nat.ltb_spec i (Nat.min (length xs) (length l - pos))); case_decide; done || lia.
    + run. cbn. assert (El : length b' = length b) by (by destruct Hb'). rewrite <- El in *. by apply repr_spliced.
Qed.

(** ** Removal *)

#[local] Arguments move_down : simpl never.

(** The objects behind [src] move down to [dest]; those left over stay alive. *)
Lemma move_down_ok b n l dest src :
  holds b n (lcell l) -> (dest < src <= length l)%nat -> (length l <= n)%nat ->
  exists b' f, move_down b dest src (length l) = Ok b' /\ holds b' n f /\
    (forall j, (j < dest + (length l - src))%nat -> f j = lcell (take dest l ++ drop src l) j) /\
    live f (dest + (length l - src)) (length l) /\ (forall j, (length l <= j)%nat -> f j = Raw).
Proof.
  intros Hb Hd Hn. unfold move_down.
  pose (P := fun (it : nat) (b : block T) => exists f, holds b n f /\
    (forall j, (j < dest + (it - src))%nat -> f j = lcell (take dest l ++ drop src l) j) /\
    live f (dest + (it - src)) it /\ (forall j, (it <= j)%nat -> f j = lcell l j)).
  assert (Hspl : forall j, lcell (take dest l ++ drop src l) j = if decide (j < dest)%nat then lcell l j else lcell l (src + (j - dest))).
  { intros j. rewrite lcell_app, lcell_take, lcell_drop, length_take, Nat.min_l by lia. repeat case_decide; done || lia. }
  destruct (for_loop_inv P (fun it b => move_assign moved b (it - (src - dest)) it) src (length l - src) b)
    as (b' & E & f & Hb' & H1 & H2 & H3); unfold P in *.
  - exists (lcell l). split; [done|]. split; [|split; [apply lcell_live; lia|done]].
    intros j Hj. rewrite Hspl, decide_True by lia. done.
  - intros it s Hi (f & Hs & H1 & H2 & H3). destruct (lcell_lt l it) as (x & Ex & _); [lia|].
    destruct (H2 (it - (src - dest))%nat) as [w Ew]; [lia|].
    destruct (holds_move_assign moved s n f (it - (src - dest)) it x w Hs) as (s' & E & Hs'); [lia|lia|lia|by rewrite H3 by lia|done|].
    exists s'. split; [done|]. eexists. split; [exact Hs'|]. unfold upd. split; [|split].
    + intros j Hj. rewrite Hspl. repeat case_decide; subst; try lia.
      * rewrite <- Ex. f_equal. lia.
      * rewrite H1 by lia. rewrite Hspl. by rewrite decide_True by lia.
      * rewrite H1 by lia. rewrite Hspl. by rewrite decide_False by lia.
    + intros j Hj. repeat case_decide; eauto. apply H2. lia.
    + intros j Hj. rewrite !decide_False by lia. apply H3. lia.
  - exists b', f. replace (src + (length l - src))%nat with (length l) in * by lia.
    split; [done|]. split; [done|]. split; [done|]. split; [done|]. intros j Hj. rewrite H3 by done. by apply lcell_ge.
Qed.

(** The list without the elements of [[first, last)]. *)
Definition erased (l : list T) (first last : nat) : list T := take first l ++ drop last l.

Lemma length_erased l first last : (first <= last <= length l)%nat -> length (erased l first last) = (first + (length l - last))%nat.
Proof. intros. unfold erased. rewrite length_app, length_take, length_drop. lia. Qed.

Lemma erase_at_ok v l pos :
  repr v l -> (pos < length l)%nat -> exists v', erase_at v pos = Ok v' /\ repr v' (erased l pos (pos + 1)).
Proof.
  intros Hv Hp. destruct (repr_room v l Hv) as (b & _ & -> & _ & Hb & Hl & Hm); [lia|]. unfold erase_at, on_block, set_end. cbn.
  destruct (move_down_ok b _ l pos (pos + 1) Hb) as (b1 & f & E & Hb1 & H1 & H2 & H3); [lia|lia|]. run. cbn.
  destruct (H2 (length l - 1)%nat) as [w Ew]; [lia|].
  destruct (holds_destruct b1 _ f (length l - 1) w Hb1) as (b2 & E2 & Hb2); [lia|done|]. run.
  eexists. split; [done|]. pose proof (length_erased l pos (pos + 1) ltac:(lia)) as Hlen.
  eapply repr_cells; [done| |lia|lia|done]. intros j Hj. unfold upd.
  destruct (decide (j < length l - 1)%nat).
  - rewrite decide_False by lia. apply H1. lia.
  - rewrite lcell_ge by lia. case_decide; [done|]. apply H3. lia.
Qed.

Lemma erase_range_ok v l first last :
  repr v l -> (first <= last <= length l)%nat ->
  exists v', erase_range v first last = Ok (v', first) /\ repr v' (erased l first last).
Proof.
  intros Hv Hp. unfold erase_range. rewrite (repr_size v l Hv), !(proj2 (Nat.leb_le _ _)) by lia. cbn [dcheck andb mbind res_bind].
  destruct (Nat.eqb_spec first last) as [->|Hne].
  - eexists. split; [done|]. unfold erased. by rewrite take_drop.
  - destruct (repr_room v l Hv) as (b & _ & -> & _ & Hb & Hl & Hm); [lia|]. unfold on_block, shrink. cbn.
    destruct (move_down_ok b _ l first last Hb) as (b1 & f & E & Hb1 & H1 & H2 & H3); [lia|lia|]. run. cbn.
    destruct (holds_DestructRange b1 _ f (first + (length l - last)) (length l) Hb1) as (b2 & E2 & Hb2); [lia|done|]. run.
    eexists. split; [done|]. pose proof (length_erased l first last ltac:(lia)) as Hlen.
    eapply repr_cells; [done| |lia|lia|done]. intros j Hj. cbn. case_decide.
    + by rewrite lcell_ge by lia.
    + destruct (decide (j < length l)%nat); [apply H1; lia|]. rewrite lcell_ge by lia. apply H3. lia.
Qed.

(** ** Access *)

Lemma find_loop_ok v l p n it :
  repr v l -> (it + n = length l)%nat -> find_loop n v p it = Ok ((fun x => it + x)%nat <$> (fst <$> list_find (fun x => p x = true) (drop it l))).
Proof.
  intros Hv. revert it. induction n as [|n IH]; intros it E; cbn [find_loop].
  - by rewrite drop_ge by lia.
  - destruct (lookup_lt_is_Some_2 l it) as [x Ex]; [lia|]. rewrite (load_elem_ok v l it x) by done.
    rewrite (drop_S l x it) by done. cbn. destruct (p x) eqn:Ep.
    + rewrite decide_True by done. cbn. do 2 f_equal. lia.
    + rewrite decide_False by congruence. rewrite IH by lia. f_equal. destruct (list_find _ _) as [[k y]|]; cbn; [|done].
      f_equal. lia.
Qed.

Lemma FindIf_ok v l p : repr v l -> FindIf v p = Ok (fst <$> list_find (fun x => p x = true) l).
Proof.
  intros Hv. unfold FindIf. rewrite (proj1 Hv). rewrite (find_loop_ok v l) by done. rewrite drop_0.
  by destruct (list_find _ l) as [[k y]|].
Qed.

Lemma index_ok v l pos x : repr v l -> l !! pos = Some x -> index v pos = Ok x.
Proof.
  intros Hv Hx. unfold index. rewrite (repr_size v l Hv). pose proof (lookup_lt_Some _ _ _ Hx).
  rewrite (proj2 (Nat.ltb_lt _ _)) by done. by eapply load_elem_ok.
Qed.

(** The state and the list that [ForEach] leaves. *)
Fixpoint for_each {St : Type} (func : St -> T -> St * T) (s : St) (l : list T) : list T * St :=
  match l with
  | [] => ([], s)
  | x :: l => let '(s, y) := func s x in let '(l, s) := for_each func s l in (y :: l, s)
  end.

Lemma ForEach_ok {St} v l (func : St -> T -> St * T) s :
  repr v l -> exists v', ForEach v func s = Ok (v', (for_each func s l).2) /\ repr v' (for_each func s l).1.
Proof.
  intros Hv. unfold ForEach. rewrite (proj1 Hv).
  assert (H : forall l1 l2 v s, repr v (l1 ++ l2) -> exists v',
    for_loop (length l1) (length l2) (fun i '(v, s) =>
      x ← load_elem v i; let '(s, y) := func s x in v ← on_block v (fun b => assign b i y); Ok (v, s)) (v, s) =
    Ok (v', (for_each func s l2).2) /\ repr v' (l1 ++ (for_each func s l2).1)); [|exact (H [] l v s Hv)].
  clear v l s Hv. intros l1 l2. revert l1. induction l2 as [|x l2 IH]; intros l1 v s Hv; cbn [length for_loop for_each].
  - eauto.
  - assert (Hx : (l1 ++ x :: l2) !! length l1 = Some x) by (by rewrite lookup_app_r, Nat.sub_diag by lia).
    rewrite (load_elem_ok v _ _ x Hv Hx). cbn. destruct (func s x) as [s' y]. pose proof (lookup_lt_Some _ _ _ Hx) as Hlt.
    destruct (repr_room v _ Hv) as (b & _ & -> & _ & Hb & Hl & Hm); [lia|]. unfold on_block. cbn.
    destruct (holds_assign b _ _ (length l1) y x Hb) as (b' & E & Hb'); [lia|by apply lcell_some|]. run. cbn.
    destruct (IH (l1 ++ [y]) (mkVector (Some b') (length (l1 ++ x :: l2))) s') as (v' & E' & Hv').
    + eapply repr_cells; [done| |rewrite !length_app; cbn; lia|rewrite !length_app in *; cbn in *; lia|done].
      intros j Hj. unfold upd. rewrite <- app_assoc. cbn. unfold lcell. case_decide as Ej.
      * subst j. by rewrite lookup_app_r, Nat.sub_diag by lia.
      * destruct (decide (j < length l1)%nat); [by rewrite !lookup_app_l by lia|].
        rewrite !lookup_app_r by lia. by replace (j - length l1)%nat with (S (j - length l1 - 1)) by lia.
    + rewrite length_app in E'. cbn in E'. rewrite Nat.add_1_r in E'.
      replace (length (l1 ++ x :: l2)) with (length l1 + S (length l2))%nat in E' by (by rewrite length_app).
      exists v'. destruct (for_each func s' l2) as [l' s2]. cbn in *. split; [|by rewrite <- app_assoc in Hv'].
      rewrite <- E'. f_equal. f_equal. by rewrite length_app.
Qed.

Fixpoint list_equal (l1 l2 : list T) : bool :=
  match l1, l2 with
  | [], [] => true
  | x :: l1, y :: l2 => eqb x y && list_equal l1 l2
  | _, _ => false
  end.

Fixpoint list_less (l1 l2 : list T) : bool :=
  match l1, l2 with
  | _, [] => false
  | [], _ => true
  | x :: l1, y :: l2 => if ltb x y then true else if ltb y x then false else list_less l1 l2
  end.

Lemma equal_loop_ok v1 v2 l1 l2 n i :
  repr v1 l1 -> repr v2 l2 -> length l1 = length l2 -> (i + n = length l1)%nat ->
  equal_loop n v1 v2 i = Ok (list_equal (drop i l1) (drop i l2)).
Proof.
  intros H1 H2 El. revert i. induction n as [|n IH]; intros i E; cbn [equal_loop].
  - by rewrite !drop_ge by lia.
  - destruct (lookup_lt_is_Some_2 l1 i) as [x Ex]; [lia|]. destruct (lookup_lt_is_Some_2 l2 i) as [y Ey]; [lia|].
    rewrite (load_elem_ok v1 l1 i x), (load_elem_ok v2 l2 i y), (drop_S l1 x i), (drop_S l2 y i) by done. cbn.
    destruct (eqb x y); cbn; [|done]. apply IH. lia.
Qed.

Lemma equal_ok v1 v2 l1 l2 : repr v1 l1 -> repr v2 l2 -> equal v1 v2 = Ok (list_equal l1 l2).
Proof.
  intros H1 H2. unfold equal. rewrite (repr_size v1 l1 H1), (repr_size v2 l2 H2).
  destruct (Nat.eqb_spec (length l1) (length l2)) as [E|E]; cbn [negb].
  - by rewrite (equal_loop_ok v1 v2 l1 l2).
  - f_equal. symmetry. clear -E. revert l2 E. induction l1 as [|x l1 IH]; intros [|y l2] E; cbn in *; try done.
    rewrite IH by lia. apply andb_false_r.
Qed.

Lemma less_loop_ok v1 v2 l1 l2 n i :
  repr v1 l1 -> repr v2 l2 -> (i + n = Nat.min (length l1) (length l2))%nat ->
  less_loop n v1 v2 i = Ok (list_less (drop i l1) (drop i l2)).
Proof.
  intros H1 H2. revert i. induction n as [|n IH]; intros i E; cbn [less_loop].
  - rewrite (repr_size v1 l1 H1), (repr_size v2 l2 H2). f_equal.
    destruct (Nat.ltb_spec (length l1) (length l2)).
    + rewrite (drop_ge l1) by lia. destruct (lookup_lt_is_Some_2 l2 i) as [y Ey]; [lia|]. by rewrite (drop_S l2 y i) by done.
    + rewrite (drop_ge l2) by lia. by destruct (drop i l1).
  - destruct (lookup_lt_is_Some_2 l1 i) as [x Ex]; [lia|]. destruct (lookup_lt_is_Some_2 l2 i) as [y Ey]; [lia|].
    rewrite (load_elem_ok v1 l1 i x), (load_elem_ok v2 l2 i y), (drop_S l1 x i), (drop_S l2 y i) by done. cbn.
    destruct (ltb x y); [done|]. destruct (ltb y x); [done|]. apply IH. lia.
Qed.

Lemma less_ok v1 v2 l1 l2 : repr v1 l1 -> repr v2 l2 -> less v1 v2 = Ok (list_less l1 l2).
Proof.
  intros H1 H2. unfold less. rewrite (repr_size v1 l1 H1), (repr_size v2 l2 H2).
  rewrite (less_loop_ok v1 v2 l1 l2); [done|done|done|]. destruct (Nat.ltb_spec (length l1) (length l2)); lia.
Qed.

End Vector.
