(* ===== verification/Refine.v ===== *)
(** * Programs over a component and the specification they refine

    A component offers operations on a state that may break a rule, stop or return;
    its specification says what each means on an abstract state, with [None] where
    the caller breaks a precondition.  [Refines] is the interface a component
    implements once per operation; whole programs follow from it. *)

From S2P Require Import Prelude Memory.

Class Refines {Op St Abs Out : Type}
    (step : Op -> St -> res (St * Out)) (spec : Op -> Abs -> option (Abs * Out))
    (need : Op -> Abs -> Prop) (rel : St -> Abs -> Prop) : Prop :=
  step_refines R o s a a' r :
    rel s a -> spec o a = Some (a', r) -> (R -> need o a) -> wp R (step o s) (fun p => rel p.1 a' /\ p.2 = r).

Section Programs.

Context {Op St Abs Out : Type}.
Context (step : Op -> St -> res (St * Out)) (spec : Op -> Abs -> option (Abs * Out)) (need : Op -> Abs -> Prop).

Fixpoint run_ops (os : list Op) (s : St) : res (St * list Out) :=
  match os with
  | [] => Ok (s, [])
  | o :: os => '(s, r) ← step o s; '(s, rs) ← run_ops os s; Ok (s, r :: rs)
  end.

Fixpoint spec_ops (os : list Op) (a : Abs) : option (Abs * list Out) :=
  match os with
  | [] => Some (a, [])
  | o :: os => '(a, r) ← spec o a; '(a, rs) ← spec_ops os a; Some (a, r :: rs)
  end.

(** The resources a whole program needs. *)
Fixpoint needs (os : list Op) (a : Abs) : Prop :=
  match os with
  | [] => True
  | o :: os => need o a /\ match spec o a with Some (a, _) => needs os a | None => True end
  end.

Lemma needs_nothing (H : forall o a, need o a) os a : needs os a.
Proof. revert a. induction os as [|o os IH]; intros a; cbn; [done|]. split; [apply H|]. by destruct (spec o a) as [[? ?]|]. Qed.

Context (rel : St -> Abs -> Prop) `{!Refines step spec need rel}.

Lemma run_ops_wp R os s a a' outs :
  rel s a -> spec_ops os a = Some (a', outs) -> (R -> needs os a) ->
  wp R (run_ops os s) (fun p => rel p.1 a' /\ p.2 = outs).
Proof.
  revert s a outs. induction os as [|o os IH]; intros s a outs H Hs HR; cbn in Hs, HR |- *; [by injection Hs as <- <-|].
  destruct (spec o a) as [[a1 r]|] eqn:Eo; cbn in Hs; [|done].
  destruct (spec_ops os a1) as [[a2 rs]|] eqn:Eos; cbn in Hs; [|done]. injection Hs as <- <-.
  pose proof (step_refines R o s a a1 r H Eo (fun x => proj1 (HR x))) as Hw.
  destruct (step o s) as [[s1 r1]| |]; cbn in Hw |- *; [|done|done]. destruct Hw as [Hs1 Er]. subst r1.
  specialize (IH s1 a1 rs Hs1 Eos (fun x => proj2 (HR x))). destruct (run_ops os s1) as [[s2 rs']| |]; cbn in IH |- *; [|done|done].
  destruct IH as [? ->]. done.
Qed.

(** A program the specification accepts breaks no rule; when it returns, state and
    results are the specified ones; with the resources it needs, it returns. *)
Lemma programs_refine os s a a' outs :
  rel s a -> spec_ops os a = Some (a', outs) ->
  run_ops os s <> Undef /\
  (forall s' outs', run_ops os s = Ok (s', outs') -> rel s' a' /\ outs' = outs) /\
  (needs os a -> exists s', run_ops os s = Ok (s', outs) /\ rel s' a').
Proof.
  intros H Hs. pose proof (run_ops_wp (needs os a) os s a a' outs H Hs (fun r => r)) as Hw.
  destruct (run_ops os s) as [[s' outs']| |]; cbn in Hw.
  - split; [done|]. split; [by intros s2 outs2 [= <- <-]|]. intros _. exists s'. by destruct Hw as [? ->].
  - split; [done|]. split; [done|]. by intros r.
  - done.
Qed.

End Programs.
