(* ===== verification/VectorSpec.v ===== *)
(** * The contract of base::Vector: programs over several vectors refine programs over lists

    [op] lists the operations of one vector and [cmd] the constructors, the
    assignments, the exchange, the comparisons and the destructor over a store of
    named vectors.  [run_cmd] executes them with the definitions of Vector.v;
    [spec_cmd] says on plain lists what they mean, with [None] where the caller
    breaks a documented precondition. *)

From stdpp Require Import gmap fin_maps.
From S2P Require Import Prelude Memory Vector Refine.

Section Programs.

Context {T : Type} (dflt : T) (moved : T -> T) (eqb ltb : T -> T -> bool).
Context (sizeof_T : Z) (allocates : Z -> bool).

Abbreviation ref := (@ref T).
Abbreviation Vector := (@Vector T).

Inductive op :=
  | PushBack (mv : bool) (r : ref)
  | EmplaceBack (mv : bool) (r : ref)
  | PopBack
  | Insert (mv : bool) (pos : nat) (r : ref)
  | InsertN (pos count : nat) (r : ref)
  | InsertRange (pos : nat) (values : list T)
  | Erase (pos : nat)
  | ErasePtr (element_ptr : Z)
  | EraseRange (first last : nat)
  | Clear
  | Resize (new_size : nat)
  | ResizeWith (new_size : nat) (r : ref)
  | Reserve (n : nat)
  | ShrinkToFit
  | AssignN (count : nat) (x : T)
  | AssignRange (xs : list T)
  | Reset
  | Front
  | Back
  | Index (pos : nat)
  | AtPos (pos : nat)
  | FindFirst (p : T -> bool)
  | Search_ (x : T)
  | HasElement (x : T)
  | MapEach (f : T -> T)
  | Read
  | ReadReverse
  | Size
  | IsEmpty.

(** What an operation gives back. *)
Inductive out := Done | Flag (b : bool) | Pos (n : nat) | Elem (x : T) | Found (it : option nat) | Elems (xs : list T).

Definition done_ (m : res Vector) : res (Vector * out) := v ← m; Ok (v, Done).

Definition run_op (o : op) (v : Vector) : res (Vector * out) :=
  match o with
  | PushBack mv r => done_ (push_back moved sizeof_T allocates mv v r)
  | EmplaceBack mv r => '(v, x) ← emplace_back moved sizeof_T allocates mv v r; Ok (v, Elem x)
  | PopBack => done_ (pop_back v)
  | Insert mv pos r => '(v, p) ← insert moved sizeof_T allocates mv v pos r; Ok (v, Pos p)
  | InsertN pos count r => done_ (insert_n moved sizeof_T allocates v pos count r)
  | InsertRange pos xs => done_ (insert_range moved sizeof_T allocates v pos xs)
  | Erase pos => '(v, b) ← erase moved v pos; Ok (v, Flag b)
  | ErasePtr p => '(v, b) ← erase_ptr moved v p; Ok (v, Flag b)
  | EraseRange first last => '(v, p) ← erase_range moved v first last; Ok (v, Pos p)
  | Clear => done_ (clear v)
  | Resize n => done_ (resize dflt moved sizeof_T allocates v n)
  | ResizeWith n r => done_ (resize_with moved sizeof_T allocates v n r)
  | Reserve n => done_ (reserve moved sizeof_T allocates v n)
  | ShrinkToFit => '(v, n) ← shrink_to_fit moved sizeof_T allocates v; Ok (v, Pos n)
  | AssignN n x => done_ (assign_n moved sizeof_T allocates v n (Val x))
  | AssignRange xs => done_ (assign_range moved sizeof_T allocates v xs)
  | Reset => done_ (reset v)
  | Front => x ← front v; Ok (v, Elem x)
  | Back => x ← back v; Ok (v, Elem x)
  | Index pos => x ← index v pos; Ok (v, Elem x)
  | AtPos pos => Ok (v, Found (at_ v pos))
  | FindFirst p => it ← FindIf v p; Ok (v, Found it)
  | Search_ x => it ← find eqb v x; Ok (v, Found it)
  | HasElement x => b ← Contains eqb v x; Ok (v, Flag b)
  | MapEach f => '(v, _) ← ForEach v (fun (_ : unit) x => ((), f x)) (); Ok (v, Done)
  | Read => xs ← read_all v; Ok (v, Elems xs)
  | ReadReverse => xs ← read_reverse v; Ok (v, Elems xs)
  | Size => Ok (v, Pos (size v))
  | IsEmpty => Ok (v, Flag (empty v))
  end.

Inductive cmd :=
  | NewFill (x : nat) (count : nat) (value : T)
  | NewSize (x : nat) (count : nat)
  | NewList (x : nat) (xs : list T)
  | NewRange (x : nat) (xs : list T)
  | NewReserve (x : nat) (n : nat) (policy : VectorReservePolicy)
  | NewCopy (x y : nat)
  | NewMove (x y : nat)
  | Run (x : nat) (o : op)
  | CopyAssign (x y : nat)
  | MoveAssign (x y : nat)
  | Swap (x y : nat)
  | Equal (x y : nat)
  | Less (x y : nat)
  | Destroy (x : nat).

Definition get {A} (o : option A) : res A := match o with Some a => Ok a | None => Undef end.

(** A constructor runs on a name that is free. *)
Definition fresh {A} (s : gmap nat A) (x : nat) : option () := match s !! x with None => Some () | Some _ => None end.

Definition new_vector (s : gmap nat Vector) (x : nat) (m : res Vector) : res (gmap nat Vector * out) :=
  _ ← get (fresh s x); v ← m; Ok (<[x := v]> s, Done).

Definition run_cmd (c : cmd) (s : gmap nat Vector) : res (gmap nat Vector * out) :=
  match c with
  | NewFill x n value => new_vector s x (Vector_fill sizeof_T allocates n value)
  | NewSize x n => new_vector s x (Vector_size dflt sizeof_T allocates n)
  | NewList x xs => new_vector s x (Vector_list sizeof_T allocates xs)
  | NewRange x xs => new_vector s x (Vector_range moved sizeof_T allocates xs)
  | NewReserve x n policy => new_vector s x (Vector_reserve dflt sizeof_T allocates n policy)
  | NewCopy x y => vy ← get (s !! y); new_vector s x (Vector_copy sizeof_T allocates vy)
  | NewMove x y =>
    _ ← get (fresh s x); vy ← get (s !! y);
    let '(vx, vy) := Vector_move vy in Ok (<[x := vx]> (<[y := vy]> s), Done)
  | Run x o => v ← get (s !! x); '(v, r) ← run_op o v; Ok (<[x := v]> s, r)
  | CopyAssign x y =>
    vx ← get (s !! x); vy ← get (s !! y);
    if decide (x = y) then Ok (s, Done)
    else vx ← copy_assign sizeof_T allocates vx vy; Ok (<[x := vx]> s, Done)
  | MoveAssign x y =>
    vx ← get (s !! x); vy ← get (s !! y);
    if decide (x = y) then Ok (s, Done)
    else '(vx, vy) ← move_assign_vector vx vy; Ok (<[x := vx]> (<[y := vy]> s), Done)
  | Swap x y =>
    vx ← get (s !! x); vy ← get (s !! y);
    let '(vx, vy) := swap vx vy in Ok (<[x := vx]> (<[y := vy]> s), Done)
  | Equal x y => vx ← get (s !! x); vy ← get (s !! y); b ← equal eqb vx vy; Ok (s, Flag b)
  | Less x y => vx ← get (s !! x); vy ← get (s !! y); b ← less ltb vx vy; Ok (s, Flag b)
  | Destroy x => v ← get (s !! x); _ ← release_storage v; Ok (delete x s, Done)
  end.

(** ** The specification on lists *)

(** A count is a [mem_size]. *)
Definition count_ok (n : nat) : Prop := Z.of_nat n <= mem_size_max.

#[export] Instance count_ok_dec n : Decision (count_ok n).
Proof. unfold count_ok. apply _. Defined.

Definition spec_op (o : op) (l : list T) : option (list T * out) :=
  match o with
  | PushBack mv r => x ← ref_value l r; Some (after_ref moved mv l r ++ [x], Done)
  | EmplaceBack mv r => x ← ref_value l r; Some (after_ref moved mv l r ++ [x], Elem x)
  | PopBack => if decide (l = []) then None else Some (take (length l - 1) l, Done)
  | Insert mv pos r =>
    if decide (pos <= length l)%nat then x ← ref_value l r; Some (spliced (after_ref moved mv l r) pos [x], Pos pos) else None
  | InsertN pos count r =>
    if decide ((pos <= length l)%nat /\ count_ok count) then x ← ref_value l r; Some (spliced l pos (replicate count x), Done) else None
  | InsertRange pos xs =>
    if decide ((pos <= length l)%nat /\ count_ok (length xs)) then Some (spliced l pos xs, Done) else None
  | Erase pos => Some (if decide (pos < length l)%nat then (erased l pos (pos + 1), Flag true) else (l, Flag false))
  | ErasePtr p =>
    Some (if decide (0 <= p < Z.of_nat (length l)) then (erased l (Z.to_nat p) (Z.to_nat p + 1), Flag true) else (l, Flag false))
  | EraseRange first last =>
    if decide (first <= last <= length l)%nat then Some (erased l first last, Pos first) else None
  | Clear => Some ([], Done)
  | Resize n => if decide (count_ok n) then Some (take n l ++ replicate (n - length l) dflt, Done) else None
  | ResizeWith n r => if decide (count_ok n) then x ← ref_value l r; Some (take n l ++ replicate (n - length l) x, Done) else None
  | Reserve n => if decide (count_ok n) then Some (l, Done) else None
  | ShrinkToFit => Some (l, Pos (length l))
  | AssignN n x => if decide (count_ok n) then Some (replicate n x, Done) else None
  | AssignRange xs => Some (xs, Done)
  | Reset => Some ([], Done)
  | Front => x ← head l; Some (l, Elem x)
  | Back => x ← list.last l; Some (l, Elem x)
  | Index pos => x ← l !! pos; Some (l, Elem x)
  | AtPos pos => Some (l, Found (if decide (pos < length l)%nat then Some pos else None))
  | FindFirst p => Some (l, Found (fst <$> list_find (fun x => p x = true) l))
  | Search_ x => Some (l, Found (fst <$> list_find (fun y => eqb y x = true) l))
  | HasElement x => Some (l, Flag (existsb (fun y => eqb y x) l))
  | MapEach f => Some (f <$> l, Done)
  | Read => Some (l, Elems l)
  | ReadReverse => Some (l, Elems (reverse l))
  | Size => Some (l, Pos (length l))
  | IsEmpty => Some (l, Flag (bool_decide (l = [])))
  end.

(** The largest block, in elements, that the operation may ask for. *)
Definition need_op (o : op) (l : list T) : nat :=
  match o with
  | InsertN _ n _ => 2 * (length l + n) + 1
  | InsertRange _ xs => 2 * (length l + length xs) + 1
  | Resize n | ResizeWith n _ | Reserve n | AssignN n _ => n
  | AssignRange xs => 2 * length xs
  | _ => 2 * length l + 1
  end.

Definition new_list (m : gmap nat (list T)) (x : nat) (l : list T) : option (gmap nat (list T) * out) :=
  _ ← fresh m x; Some (<[x := l]> m, Done).

Definition spec_cmd (c : cmd) (m : gmap nat (list T)) : option (gmap nat (list T) * out) :=
  match c with
  | NewFill x n value => if decide (count_ok n) then new_list m x (replicate n value) else None
  | NewSize x n => if decide (count_ok n) then new_list m x (replicate n dflt) else None
  | NewList x xs => if decide (count_ok (length xs)) then new_list m x xs else None
  | NewRange x xs => new_list m x xs
  | NewReserve x n kForPushback => if decide (count_ok n) then new_list m x [] else None
  | NewReserve x n kForData => if decide (count_ok n) then new_list m x (replicate n dflt) else None
  | NewCopy x y => l ← m !! y; new_list m x l
  | NewMove x y => _ ← fresh m x; l ← m !! y; Some (<[x := l]> (<[y := []]> m), Done)
  | Run x o => l ← m !! x; '(l, r) ← spec_op o l; Some (<[x := l]> m, r)
  | CopyAssign x y => _ ← m !! x; l ← m !! y; Some (<[x := l]> m, Done)
  | MoveAssign x y => _ ← m !! x; l ← m !! y; Some (if decide (x = y) then m else <[x := l]> (<[y := []]> m), Done)
  | Swap x y => lx ← m !! x; ly ← m !! y; Some (<[x := ly]> (<[y := lx]> m), Done)
  | Equal x y => lx ← m !! x; ly ← m !! y; Some (m, Flag (list_equal eqb lx ly))
  | Less x y => lx ← m !! x; ly ← m !! y; Some (m, Flag (list_less ltb lx ly))
  | Destroy x => _ ← m !! x; Some (delete x m, Done)
  end.

Definition need_cmd (c : cmd) (m : gmap nat (list T)) : nat :=
  match c with
  | NewFill _ n _ | NewSize _ n | NewReserve _ n _ => n
  | NewList _ xs => length xs
  | NewRange _ xs => 2 * length xs
  | NewCopy _ y | CopyAssign _ y => length (default [] (m !! y))
  | Run x o => need_op o (default [] (m !! x))
  | _ => 0
  end.

(** ** Refinement *)

Hypothesis sizeof_pos : 0 < sizeof_T.

Abbreviation repr := (@repr T).
Abbreviation roomy := (roomy sizeof_T allocates).

Definition op_post (l : list T) (r : out) (p : Vector * out) : Prop := repr p.1 l /\ p.2 = r.

Lemma wp_done R m l : wp R m (fun v => repr v l) -> wp R (done_ m) (op_post l Done).
Proof. by destruct m; cbn. Qed.

Lemma wp_ret {A} R (m : res A) (f : A -> Vector * out) l r (Q : A -> Prop) :
  wp R m Q -> (forall a, Q a -> op_post l r (f a)) -> wp R (a ← m; Ok (f a)) (op_post l r).
Proof. destruct m; cbn; auto. Qed.

(** An operation that cannot fail and only reads. *)
Lemma wp_read {A} R v l (m : res A) (f : A -> out) a r :
  repr v l -> m = Ok a -> r = f a -> wp R (a ← m; Ok (v, f a)) (op_post l r).
Proof. intros Hv -> ->. done. Qed.

Lemma wp_exists R (m : res Vector) l : (exists v', m = Ok v' /\ repr v' l) -> wp R (done_ m) (op_post l Done).
Proof. by intros (v' & -> & H). Qed.

Lemma find_index_existsb (p : T -> bool) l :
  (match fst <$> list_find (fun x => p x = true) l with Some _ => true | None => false end) = existsb p l.
Proof.
  induction l as [|x l IH]; cbn; [done|]. destruct (p x) eqn:E; [by rewrite decide_True|].
  rewrite decide_False by congruence. cbn. rewrite <- IH. by destruct (list_find _ l) as [[k y]|].
Qed.

Lemma run_grow_wp R o v l l' r :
  match o with
  | PushBack _ _ | EmplaceBack _ _ | Insert _ _ _ | InsertN _ _ _ | InsertRange _ _ | Resize _ | ResizeWith _ _ | Reserve _
  | ShrinkToFit | AssignN _ _ | AssignRange _ => True
  | _ => False
  end ->
  repr v l -> spec_op o l = Some (l', r) -> (R -> roomy (need_op o l)) ->
  wp R (run_op o v) (op_post l' r).
Proof.
  intros Ho Hv Hs HR. destruct o; try done; cbn in Hs, HR; simplify_option_eq; cbn [run_op].
  - apply wp_done. by apply push_back_wp.
  - unfold emplace_back. pose proof (push_back_wp moved sizeof_T allocates sizeof_pos R mv v l r0 _ Hv ltac:(done) HR) as Hw.
    destruct (push_back _ _ _ _ v r0) as [v'| |]; cbn in Hw |- *; [|done|done]. rewrite (back_ok v' _ _ Hw). done.
  - match goal with H : ref_value _ _ = Some ?x |- _ =>
      pose proof (insert_wp moved sizeof_T allocates sizeof_pos R mv v l pos r0 x Hv H ltac:(done) HR) as Hi end.
    destruct (insert _ _ _ _ v pos r0) as [[v' p]| |]; cbn in Hi |- *; [|done|done]. by destruct Hi as [? ->].
  - apply wp_done. apply insert_n_wp; tauto.
  - apply wp_done. apply insert_range_wp; tauto.
  - apply wp_done. unfold resize. by apply resize_with_wp.
  - apply wp_done. by apply resize_with_wp.
  - apply wp_done. eapply wp_mono; [by apply reserve_wp|]. by intros v' [? _].
  - assert (HR' : R -> roomy (length l')) by (intros r; eapply roomy_le; [|by apply HR]; lia).
    pose proof (shrink_to_fit_wp moved sizeof_T allocates sizeof_pos R v l' Hv HR') as Hw.
    destruct (shrink_to_fit _ _ _ v) as [[v' n]| |]; cbn in Hw |- *; [|done|done]. by destruct Hw as (? & _ & ->).
  - apply wp_done. unfold assign_n, clear. destruct (shrink_ok v l 0 Hv) as (v' & -> & Hv'); [lia|]. cbn in Hv' |- *.
    eapply wp_mono; [by apply (resize_with_wp moved sizeof_T allocates sizeof_pos R v' [] count (Val x) x)|].
    intros v2. rewrite Nat.sub_0_r, take_nil. done.
  - apply wp_done. unfold assign_range, clear. destruct (shrink_ok v l 0 Hv) as (v' & -> & Hv'); [lia|]. cbn in Hv' |- *.
    by apply (push_all_wp moved sizeof_T allocates sizeof_pos R v' [] l').
Qed.

Lemma run_other_wp R o v l l' r :
  match o with
  | PushBack _ _ | EmplaceBack _ _ | Insert _ _ _ | InsertN _ _ _ | InsertRange _ _ | Resize _ | ResizeWith _ _ | Reserve _
  | ShrinkToFit | AssignN _ _ | AssignRange _ => False
  | _ => True
  end ->
  repr v l -> spec_op o l = Some (l', r) -> wp R (run_op o v) (op_post l' r).
Proof.
  intros Ho Hv Hs. destruct o; try done; cbn [spec_op] in Hs; cbn [run_op].
  - case_decide as Hl; [done|]. injection Hs as <- <-. apply wp_exists.
    destruct (exists_last Hl) as (l0 & x & ->). rewrite length_app, take_app_le by (cbn; lia). cbn.
    rewrite take_ge by lia. by eapply pop_back_ok.
  - unfold erase. rewrite (repr_size v l Hv). case_decide; injection Hs as <- <-.
    + rewrite (proj2 (Nat.leb_gt _ _)) by done. destruct (erase_at_ok moved v l pos Hv) as (v' & -> & Hv'); done.
    + by rewrite (proj2 (Nat.leb_le _ _)) by lia.
  - unfold erase_ptr. rewrite (proj1 Hv). case_decide as Hp; injection Hs as <- <-.
    + rewrite (proj2 (Z.ltb_ge _ _)), (proj2 (Z.leb_gt _ _)) by lia. cbn [orb].
      destruct (erase_at_ok moved v l (Z.to_nat element_ptr) Hv) as (v' & -> & Hv'); [lia|done].
    + replace ((element_ptr <? 0) || (Z.of_nat (length l) <=? element_ptr)) with true; [done|].
      symmetry. apply orb_true_iff. rewrite Z.ltb_lt, Z.leb_le. lia.
  - case_decide as Hp; [|done]. injection Hs as <- <-.
    destruct (erase_range_ok moved v l first last Hv Hp) as (v' & -> & Hv'). done.
  - injection Hs as <- <-. apply wp_exists. apply (shrink_ok v l 0); [done|lia].
  - injection Hs as <- <-. apply wp_exists. unfold reset. rewrite (release_storage_ok v l Hv). eexists. split; [done|]. done.
  - destruct l as [|x l]; [done|]. injection Hs as <- <-. eapply wp_read; [done|by eapply front_ok|done].
  - destruct (list.last l) as [x|] eqn:E; [|done]. injection Hs as <- <-. apply last_Some in E as [l0 ->].
    eapply wp_read; [done|by eapply back_ok|done].
  - destruct (l !! pos) as [x|] eqn:E; [|done]. injection Hs as <- <-. eapply wp_read; [done|by eapply index_ok|done].
  - injection Hs as <- <-. split; [done|]. cbn. unfold at_. rewrite (repr_size v l Hv). f_equal.
    case_decide; [by rewrite (proj2 (Nat.leb_gt _ _)) by done|]. by rewrite (proj2 (Nat.leb_le _ _)) by lia.
  - injection Hs as <- <-. eapply wp_read; [done|by apply FindIf_ok|done].
  - injection Hs as <- <-. eapply wp_read; [done|by apply FindIf_ok|done].
  - injection Hs as <- <-. eapply wp_read; [done| |done]. unfold Contains, find. rewrite (FindIf_ok v l) by done. cbn.
    by rewrite find_index_existsb.
  - injection Hs as <- <-. destruct (ForEach_ok v l (fun (_ : unit) x => ((), f x)) () Hv) as (v' & -> & Hv'). split; [|done].
    cbn. assert (E : forall l, (for_each (fun (_ : unit) x => ((), f x)) () l).1 = f <$> l).
    { clear. induction l as [|x l IH]; cbn; [done|]. destruct (for_each _ () l) as [l' s] eqn:E. cbn in *. by rewrite IH. }
    by rewrite <- E.
  - injection Hs as <- <-. eapply wp_read; [done|by apply read_all_ok|done].
  - injection Hs as <- <-. eapply wp_read; [done|by apply read_reverse_ok|done].
  - injection Hs as <- <-. split; [done|]. cbn. by rewrite (repr_size v l Hv).
  - injection Hs as <- <-. split; [done|]. cbn. by rewrite (empty_ok v l Hv).
Qed.

Lemma run_op_wp R o v l l' r :
  repr v l -> spec_op o l = Some (l', r) -> (R -> roomy (need_op o l)) -> wp R (run_op o v) (op_post l' r).
Proof. destruct o; (by apply run_grow_wp) || (intros ? ? _; by eapply run_other_wp). Qed.

(** ** The store *)

(** Every name stands for a vector and for the list it holds. *)
Definition rel (s : gmap nat Vector) (m : gmap nat (list T)) : Prop := forall x, option_Forall2 repr (s !! x) (m !! x).

Lemma rel_get s m x l : rel s m -> m !! x = Some l -> exists v, s !! x = Some v /\ repr v l.
Proof. intros H E. specialize (H x). rewrite E in H. inversion H; subst. eauto. Qed.

Lemma rel_fresh s m x u : rel s m -> fresh m x = Some u -> fresh s x = Some ().
Proof. unfold fresh. intros H. specialize (H x). by inversion H. Qed.

Lemma rel_insert s m x v l : rel s m -> repr v l -> rel (<[x := v]> s) (<[x := l]> m).
Proof.
  intros H Hv y. destruct (decide (x = y)) as [->|]; [rewrite !lookup_insert_eq; by constructor|].
  rewrite !lookup_insert_ne by done. apply H.
Qed.

Lemma rel_delete s m x : rel s m -> rel (delete x s) (delete x m).
Proof.
  intros H y. destruct (decide (x = y)) as [->|]; [rewrite !lookup_delete_eq; by constructor|].
  rewrite !lookup_delete_ne by done. apply H.
Qed.

Lemma rel_same s m x l v : rel s m -> m !! x = Some l -> repr v l -> rel (<[x := v]> s) m.
Proof. intros H E Hv. rewrite <- (insert_id m x l) by done. by apply rel_insert. Qed.

Definition cmd_post (m : gmap nat (list T)) (r : out) (p : gmap nat Vector * out) : Prop := rel p.1 m /\ p.2 = r.

Lemma new_vector_wp R s m x mv l m' r :
  rel s m -> wp R mv (fun v => repr v l) -> new_list m x l = Some (m', r) -> wp R (new_vector s x mv) (cmd_post m' r).
Proof.
  intros H Hw Hn. unfold new_list in Hn. destruct (fresh m x) eqn:E; [|done]. injection Hn as <- <-.
  unfold new_vector. rewrite (rel_fresh s m x u) by done. cbn. destruct mv; cbn in *; [|done|done].
  split; [|done]. by apply rel_insert.
Qed.

Lemma Vector_reserve_wp R n policy :
  count_ok n -> (R -> roomy n) ->
  wp R (Vector_reserve dflt sizeof_T allocates n policy)
    (fun v => repr v (match policy with kForPushback => [] | kForData => replicate n dflt end)).
Proof using sizeof_pos.
  intros Hn HR. destruct policy; unfold Vector_reserve.
  - destruct (Nat.ltb_spec 0 n); [|done].
    eapply wp_seq; [apply wp_Allocate; [done|done|]; intros r; by apply HR|]. intros b ->. cbn.
    eapply repr_cells; [apply holds_raw|done|done|cbn; lia|done].
  - apply (Vector_fill_wp sizeof_T allocates sizeof_pos R n dflt); done.
Qed.

Lemma new_wp R c s m m' r :
  match c with NewFill _ _ _ | NewSize _ _ | NewList _ _ | NewRange _ _ | NewReserve _ _ _ | NewCopy _ _ | NewMove _ _ => True | _ => False end ->
  rel s m -> spec_cmd c m = Some (m', r) -> (R -> roomy (need_cmd c m)) -> wp R (run_cmd c s) (cmd_post m' r).
Proof using sizeof_pos.
  intros Hc H Hs HR. destruct c; try done; cbn [spec_cmd need_cmd run_cmd] in *.
  - case_decide; [|done]. eapply new_vector_wp; [done| |done]. by apply Vector_fill_wp.
  - case_decide; [|done]. eapply new_vector_wp; [done| |done]. by apply Vector_fill_wp.
  - case_decide; [|done]. eapply new_vector_wp; [done| |done]. by apply Vector_list_wp.
  - eapply new_vector_wp; [done| |done]. by apply (push_all_wp moved sizeof_T allocates sizeof_pos R null_vector [] xs).
  - assert (count_ok n) as Hn by (destruct policy; by case_decide).
    destruct policy; rewrite decide_True in Hs by done; (eapply new_vector_wp; [done| |done]).
    + by apply (Vector_reserve_wp R n kForPushback).
    + by apply (Vector_reserve_wp R n kForData).
  - destruct (m !! y) as [l|] eqn:E; [|done]. destruct (rel_get s m y l H E) as (vy & -> & Hvy).
    cbn in Hs |- *. eapply new_vector_wp; [done| |done]. by apply Vector_copy_wp.
  - destruct (fresh m x) eqn:Ef; [|done]. destruct (m !! y) as [l|] eqn:E; [|done].
    destruct (rel_get s m y l H E) as (vy & Ey & Hvy). rewrite (rel_fresh s m x u) by done. cbn in Hs |- *. rewrite Ey. cbn.
    injection Hs as <- <-. split; [|done]. apply rel_insert; [|done]. by apply rel_insert.
Qed.

Lemma run_cmd_wp R c s m m' r :
  rel s m -> spec_cmd c m = Some (m', r) -> (R -> roomy (need_cmd c m)) -> wp R (run_cmd c s) (cmd_post m' r).
Proof using sizeof_pos.
  intros H Hs HR. destruct c; try (by eapply new_wp); cbn [spec_cmd need_cmd run_cmd] in *;
    destruct (m !! x) as [l|] eqn:Ex; try done; destruct (rel_get s m x l H Ex) as (vx & -> & Hvx); cbn in Hs; cbn [get mbind res_bind].
  2-6: destruct (m !! y) as [ly|] eqn:Ey; [|done]; destruct (rel_get s m y ly H Ey) as (vy & -> & Hvy); cbn in Hs; cbn [get mbind res_bind].
  - destruct (spec_op o l) as [[l' r']|] eqn:Eo; [|done]. injection Hs as <- <-.
    pose proof (run_op_wp R o vx l l' r' Hvx Eo HR) as Hw. destruct (run_op o vx) as [[v' r2]| |]; cbn in Hw |- *; [|done|done].
    destruct Hw as [? Er]. cbn in Er. subst r2. split; [|done]. by apply rel_insert.
  - injection Hs as <- <-. case_decide as Exy.
    + subst y. split; [|done]. simplify_eq. by rewrite insert_id.
    + unfold copy_assign. rewrite (release_storage_ok vx l Hvx). cbn.
      pose proof (Vector_copy_wp sizeof_T allocates sizeof_pos R vy ly Hvy HR) as Hw.
      destruct (Vector_copy _ _ vy); cbn in Hw |- *; [|done|done]. split; [|done]. by apply rel_insert.
  - injection Hs as <- <-. case_decide as Exy; [done|].
    unfold move_assign_vector. rewrite (release_storage_ok vx l Hvx). cbn. split; [|done].
    apply rel_insert; [|done]. by apply rel_insert.
  - injection Hs as <- <-. split; [|done]. apply rel_insert; [|done]. by apply rel_insert.
  - injection Hs as <- <-. rewrite (equal_ok eqb vx vy l ly) by done. done.
  - injection Hs as <- <-. rewrite (less_ok ltb vx vy l ly) by done. done.
  - injection Hs as <- <-. rewrite (release_storage_ok vx l Hvx). cbn. split; [|done]. by apply rel_delete.
Qed.

#[export] Instance cmd_refines : Refines run_cmd spec_cmd (fun c m => roomy (need_cmd c m)) rel.
Proof using sizeof_pos. intros R c s m m' r. apply run_cmd_wp. Qed.

(** C8. Every program over vectors that the list semantics accepts runs without breaking
    an object-lifetime rule: nothing is constructed over a live object, no raw or
    destroyed cell is read, assigned or destroyed, no storage is freed twice, with
    objects left in it or with another size than it was allocated with, and no
    [BASE_DCHECK] fails, also where an argument is an element of the vector itself.
    What the program returns and leaves in every vector is what the lists say.  It
    stops early only when the allocator refuses a request or a size does not fit, and
    never when every block up to the stated need is granted. *)
Theorem Vector_programs cs s m m' outs :
  rel s m -> spec_ops spec_cmd cs m = Some (m', outs) ->
  run_ops run_cmd cs s <> Undef /\
  (forall s' outs', run_ops run_cmd cs s = Ok (s', outs') -> rel s' m' /\ outs' = outs) /\
  (needs spec_cmd (fun c m => roomy (need_cmd c m)) cs m -> exists s', run_ops run_cmd cs s = Ok (s', outs) /\ rel s' m').
Proof using sizeof_pos. apply (programs_refine run_cmd spec_cmd _ rel). Qed.

(** [assign(count, value)] clears before it copies, so a value that is an element of the
    vector is read after its destruction; [resize] and [insert] copy first. *)
Theorem assign_element_undefined v l n i :
  repr v l -> (0 < n)%nat -> (i < length l)%nat -> assign_n moved sizeof_T allocates v n (At i) = Undef.
Proof.
  intros Hv Hn Hi. unfold assign_n, clear. destruct (shrink_ok v l 0 Hv) as (v' & E & Hv'); [lia|]. run.
  unfold resize_with. rewrite (repr_size v' _ Hv'). cbn [take length]. rewrite (proj2 (Nat.ltb_lt _ _)) by done.
  cbn [copy_ref]. unfold load_elem. destruct (data_ v') as [b|] eqn:Eb; [|done].
  unfold Vector.repr in Hv'. rewrite Eb in Hv'. destruct Hv' as (_ & [_ Hb] & _). unfold load.
  destruct (decide (i < length b)%nat); [by rewrite Hb|]. by rewrite lookup_ge_None_2 by lia.
Qed.

End Programs.

(** A program over two vectors of integers whose moved-from value is -1, with
    arguments that are elements of the vector they go into. *)
Definition example_program : list (@cmd Z) :=
  [NewList 0 [1; 2; 3]; Run 0 (PushBack false (At 0)); Run 0 (Insert true 1 (At 3)); NewCopy 1 0;
   Run 1 (EraseRange 0 2); Run 1 (InsertN 1 3 (At 2)); Swap 0 1; Less 0 1; Run 0 Read; Run 1 Read; Destroy 0; Destroy 1].

Definition example_outs : list (@out Z) :=
  [Done; Done; Pos 1; Done; Pos 0; Done; Done; Flag false; Elems [2; -1; -1; -1; 3; -1]; Elems [1; 1; 2; 3; -1]; Done; Done].

Lemma Vector_programs_witness :
  exists s', run_ops (run_cmd 0 (fun _ => -1) Z.eqb Z.ltb 8 (fun bytes => bytes <=? 4096)) example_program ∅ = Ok (s', example_outs) /\ rel s' ∅.
Proof.
  apply (Vector_programs 0 (fun _ => -1) Z.eqb Z.ltb 8 (fun bytes => bytes <=? 4096) ltac:(lia) example_program ∅ ∅ ∅ example_outs).
  - intros x. rewrite !lookup_empty. constructor.
  - reflexivity.
  - assert (H : forall n, (n <= 20)%nat -> roomy 8 (fun bytes => bytes <=? 4096) n).
    { intros n Hn k Hk. split; [unfold mem_size_max; lia|apply Z.leb_le; lia]. }
    cbn [needs example_program]. repeat (split; [apply H; vm_compute; lia|]). exact I.
Defined.
