(* ===== verification/Deque.v ===== *)
(** * base::SimpleDeque (containers/deque.h)

    The deque keeps a ring of slots that are all alive from the moment they are
    allocated; [front_index_], [back_index_] and [size_] say which of them hold
    elements.  A parameter of type [const T&] is a [ref]: a value outside the
    deque, or one of its own elements, read when the code reads it. *)

From S2P Require Import Prelude Memory Refine.

Set Default Proof Using "Type".

Section Deque.

Context {T : Type} (dflt : T) (moved : T -> T).
Context (sizeof_T : Z) (allocates : Z -> bool).

Record SimpleDeque := mkDeque {
  data_ : option (block T);
  capacity_ : nat;
  front_index_ : nat;
  back_index_ : nat;
  size_ : nat;
}.

Inductive ref := Val (v : T) | Slot (i : nat).

Definition new_deque : SimpleDeque := mkDeque None 0 0 0 0.

(** [data_[i].~T()] for every slot, then [Free(data_, capacity_ * sizeof(T))]. *)
Definition release_slots (d : SimpleDeque) : res unit :=
  match data_ d with
  | None => Ok ()
  | Some b => b ← for_loop 0 (capacity_ d) (fun i b => destruct_ b i) b; release b (capacity_ d)
  end.

(** The elements move in order from the ring [b] to the front of [new_data]. *)
Definition move_elements (d : SimpleDeque) (new_data b : block T) : res (block T * block T) :=
  if (0 <? size_ d)%nat then
    let old_cap := capacity_ d in
    '(new_data, b, _) ← for_loop 0 (size_ d) (fun i '(nb, b, src) =>
      v ← load b src; nb ← assign nb i v; b ← assign b src (moved v);
      Ok (nb, b, ((src + 1) mod old_cap)%nat)) (new_data, b, front_index_ d);
    Ok (new_data, b)
  else Ok (new_data, b).

Definition Grow (d : SimpleDeque) (new_capacity : nat) : res SimpleDeque :=
  bytes ← CheckedAllocationSize (Z.of_nat new_capacity) sizeof_T;
  _ ← fatal_check (allocates bytes);
  new_data ← for_loop 0 new_capacity (fun i b => construct b i dflt) (replicate new_capacity Raw);
  match data_ d with
  | Some b =>
    '(new_data, b) ← move_elements d new_data b;
    _ ← release_slots (mkDeque (Some b) (capacity_ d) (front_index_ d) (back_index_ d) (size_ d));
    Ok (mkDeque (Some new_data) new_capacity 0 (size_ d) (size_ d))
  | None => Ok (mkDeque (Some new_data) new_capacity 0 (size_ d) (size_ d))
  end.

Definition grow_if_full (d : SimpleDeque) : res SimpleDeque :=
  if (size_ d =? capacity_ d)%nat then
    n ← (if (capacity_ d =? 0)%nat then Ok 4 else CheckedCountProduct (Z.of_nat (capacity_ d)) 2);
    Grow d (Z.to_nat n)
  else Ok d.

Definition load_slot (d : SimpleDeque) (i : nat) : res T :=
  match data_ d with None => Undef | Some b => load b i end.

(** The element a reference names: a slot of [d]. Once [Grow] has replaced the slots
    the reference is dangling, so it is resolved against the deque it was made from. *)
Definition read_ref (made_from d : SimpleDeque) (r : ref) : res T :=
  match r with
  | Val x => Ok x
  | Slot i => if (capacity_ made_from =? capacity_ d)%nat then load_slot d i else Undef
  end.

(** [data_[i] = value] *)
Definition store_slot (d : SimpleDeque) (i : nat) (x : T) : res SimpleDeque :=
  match data_ d with
  | None => Undef
  | Some b => b ← assign b i x; Ok (mkDeque (Some b) (capacity_ d) (front_index_ d) (back_index_ d) (size_ d))
  end.

Definition push_front (d0 : SimpleDeque) (value : ref) : res SimpleDeque :=
  d ← grow_if_full d0;
  let front_index := (if (front_index_ d =? 0)%nat then capacity_ d - 1 else front_index_ d - 1)%nat in
  x ← read_ref d0 d value;
  d ← store_slot d front_index x;
  Ok (mkDeque (data_ d) (capacity_ d) front_index (back_index_ d) (size_ d + 1)).

Definition push_back (d0 : SimpleDeque) (value : ref) : res SimpleDeque :=
  d ← grow_if_full d0;
  x ← read_ref d0 d value;
  d ← store_slot d (back_index_ d) x;
  Ok (mkDeque (data_ d) (capacity_ d) (front_index_ d) ((back_index_ d + 1) mod capacity_ d)%nat (size_ d + 1)).

(** [args] make the value [x]; the result is a reference to the slot. *)
Definition emplace_back (d0 : SimpleDeque) (x : T) : res (SimpleDeque * nat) :=
  d ← grow_if_full d0;
  let slot := back_index_ d in
  d ← store_slot d slot x;
  Ok (mkDeque (data_ d) (capacity_ d) (front_index_ d) ((back_index_ d + 1) mod capacity_ d)%nat (size_ d + 1), slot).

Definition pop_front (d : SimpleDeque) : res SimpleDeque :=
  _ ← dcheck (0 <? size_ d)%nat;
  Ok (mkDeque (data_ d) (capacity_ d) ((front_index_ d + 1) mod capacity_ d)%nat (back_index_ d) (size_ d - 1)).

Definition before (d : SimpleDeque) (i : nat) : nat := (if (i =? 0)%nat then capacity_ d - 1 else i - 1)%nat.

Definition pop_back (d : SimpleDeque) : res SimpleDeque :=
  _ ← dcheck (0 <? size_ d)%nat;
  Ok (mkDeque (data_ d) (capacity_ d) (front_index_ d) (before d (back_index_ d)) (size_ d - 1)).

Definition front (d : SimpleDeque) : res T :=
  _ ← dcheck (0 <? size_ d)%nat; load_slot d (front_index_ d).

Definition back (d : SimpleDeque) : res T :=
  _ ← dcheck (0 <? size_ d)%nat; load_slot d (before d (back_index_ d)).

Definition index (d : SimpleDeque) (i : nat) : res T :=
  _ ← dcheck (i <? size_ d)%nat; load_slot d ((front_index_ d + i) mod capacity_ d)%nat.

Definition empty (d : SimpleDeque) : bool := (size_ d =? 0)%nat.

Definition clear (d : SimpleDeque) : SimpleDeque := mkDeque (data_ d) (capacity_ d) 0 0 0.

(** [for (it = begin(); it != end(); ++it)] *)
Definition traverse (d : SimpleDeque) : res (list T) :=
  for_loop 0 (size_ d) (fun i xs => x ← index d i; Ok (xs ++ [x])) [].

(** The move constructor, and the move assignment when [this != &other]. *)
Definition move_from (other : SimpleDeque) : SimpleDeque * SimpleDeque := (other, new_deque).
Definition move_assign (d other : SimpleDeque) : res (SimpleDeque * SimpleDeque) :=
  _ ← release_slots d; Ok (other, new_deque).

(** ** The list a deque stands for *)

Definition slot (d : SimpleDeque) (i : nat) : nat := ((front_index_ d + i) mod capacity_ d)%nat.

Record repr (d : SimpleDeque) (l : list T) : Prop := {
  repr_size : size_ d = length l;
  repr_fit : (length l <= capacity_ d)%nat;
  repr_max : Z.of_nat (capacity_ d) <= mem_size_max;
  repr_data : match data_ d with
    | None => capacity_ d = O /\ front_index_ d = O /\ back_index_ d = O
    | Some b => exists g, holds b (capacity_ d) (fun j => Obj (g j)) /\ (0 < capacity_ d)%nat /\
        (front_index_ d < capacity_ d)%nat /\ back_index_ d = slot d (length l) /\
        forall i x, l !! i = Some x -> g (slot d i) = x
    end;
}.

Abbreviation granted := (granted sizeof_T allocates).

Hypothesis sizeof_pos : 0 < sizeof_T.

(** ** Slots of the ring *)

Lemma ring_inj c f i j :
  (0 < c)%nat -> (i < c)%nat -> (j < c)%nat -> ((f + i) mod c = (f + j) mod c)%nat -> i = j.
Proof.
  intros Hc Hi Hj E. apply (f_equal Z.of_nat) in E. rewrite !Nat2Z.inj_mod in E.
  assert (H : (Z.of_nat (f + i) - Z.of_nat (f + j)) mod Z.of_nat c = 0) by (rewrite Zminus_mod, E, Z.sub_diag; apply Z.mod_0_l; lia).
  apply Z.mod_divide in H; [|lia]. destruct H as [k Hk]. assert (k = 0) by nia. lia.
Qed.

Lemma ring_step c f i : (0 < c)%nat -> (((f + i) mod c + 1) mod c = (f + (i + 1)) mod c)%nat.
Proof. intros. rewrite Nat.Div0.add_mod_idemp_l. f_equal. lia. Qed.

Lemma ring_before c f i : (0 < c)%nat -> (f < c)%nat ->
  (if ((f + (i + 1)) mod c =? 0)%nat then c - 1 else (f + (i + 1)) mod c - 1)%nat = ((f + i) mod c)%nat.
Proof.
  intros Hc Hf. replace ((f + (i + 1)) mod c)%nat with (((f + i) mod c + 1) mod c)%nat by (by apply ring_step).
  pose proof (Nat.mod_upper_bound (f + i) c ltac:(lia)) as H. set (m := ((f + i) mod c)%nat) in *.
  destruct (decide (m + 1 = c)%nat) as [E|E].
  - rewrite E, Nat.Div0.mod_same, Nat.eqb_refl. lia.
  - rewrite Nat.mod_small by lia. destruct (Nat.eqb_spec (m + 1) 0); lia.
Qed.

Lemma ring_pred c f i : (0 < c)%nat -> (f < c)%nat ->
  (((if (f =? 0)%nat then c - 1 else f - 1) + (i + 1)) mod c = (f + i) mod c)%nat.
Proof.
  intros Hc Hf. destruct (Nat.eqb_spec f 0) as [->|].
  - replace (c - 1 + (i + 1))%nat with (i + 1 * c)%nat by lia. by rewrite Nat.Div0.mod_add.
  - f_equal. lia.
Qed.

Lemma slot_lt d i : (0 < capacity_ d)%nat -> (slot d i < capacity_ d)%nat.
Proof. intros. apply Nat.mod_upper_bound. lia. Qed.

(** ** Storage *)

#[local] Arguments release_slots : simpl never.
#[local] Arguments move_elements : simpl never.

Definition all_live (b : block T) (n : nat) : Prop := exists g, holds b n (fun j => Obj (g j)).

Lemma default_construct n : exists b, for_loop 0 n (fun i b => construct b i dflt) (replicate n Raw) = Ok b /\ holds b n (fun _ => Obj dflt).
Proof.
  pose (P := fun (i : nat) (b : block T) => holds b n (fun j => if decide (j < i)%nat then Obj dflt else Raw)).
  destruct (for_loop_inv P (fun i b => construct b i dflt) 0 n (replicate n Raw)) as (b & E & H); unfold P in *.
  - eapply holds_ext; [apply holds_raw|]. intros. by rewrite decide_False by lia.
  - intros i s Hi Hs. destruct (holds_construct s n _ i dflt Hs) as (s' & E & Hs'); [lia| |].
    { cbn. by rewrite decide_False by lia. }
    exists s'. split; [done|]. eapply holds_ext; [done|]. intros j Hj. unfold upd. repeat case_decide; done || lia.
  - exists b. split; [done|]. eapply holds_ext; [done|]. intros j Hj. cbn. by rewrite decide_True by lia.
Qed.

Lemma release_slots_ok d b : data_ d = Some b -> all_live b (capacity_ d) -> release_slots d = Ok ().
Proof.
  intros E [g Hb]. unfold release_slots. rewrite E.
  assert (E2 : exists b', for_loop 0 (capacity_ d) (fun i b => destruct_ b i) b = Ok b' /\ holds b' (capacity_ d) (fun _ => Raw)).
  { destruct (holds_DestructRange b _ _ 0 (capacity_ d) Hb) as (b' & E' & Hb'); [lia|intros j Hj; eauto|].
    unfold DestructRange in E'. rewrite Nat.sub_0_r in E'. exists b'. split; [done|]. eapply holds_ext; [done|].
    intros j Hj. cbn. by rewrite decide_True by lia. }
  destruct E2 as (b' & E' & Hb'). run. by eapply holds_release.
Qed.

(** The copying loop: slot [(front + i) mod c] of the old ring goes to slot [i]. *)
Lemma grow_loop_ok b c g nb m f n :
  (0 < c)%nat -> (f < c)%nat -> (n <= c)%nat -> (n <= m)%nat ->
  holds b c (fun j => Obj (g j)) -> holds nb m (fun _ => Obj dflt) ->
  exists nb' b' src, for_loop 0 n (fun i '(nb, b, src) =>
      v ← load b src; nb ← assign nb i v; b ← assign b src (moved v); Ok (nb, b, ((src + 1) mod c)%nat)) (nb, b, f) = Ok (nb', b', src) /\
    all_live b' c /\ exists g', holds nb' m (fun j => Obj (g' j)) /\ forall i, (i < n)%nat -> g' i = g ((f + i) mod c)%nat.
Proof.
  intros Hc Hf Hn Hm Hb Hnb.
  pose (P := fun (i : nat) (s : block T * block T * nat) =>
    let '(nb, b, src) := s in src = ((f + i) mod c)%nat /\
    (exists g1, holds b c (fun j => Obj (g1 j)) /\ forall j, (i <= j < c)%nat -> g1 ((f + j) mod c)%nat = g ((f + j) mod c)%nat) /\
    exists g', holds nb m (fun j => Obj (g' j)) /\ forall j, (j < i)%nat -> g' j = g ((f + j) mod c)%nat).
  destruct (for_loop_inv P (fun i '(nb, b, src) =>
      v ← load b src; nb ← assign nb i v; b ← assign b src (moved v); Ok (nb, b, ((src + 1) mod c)%nat)) 0 n (nb, b, f))
    as ([[nb' b'] src] & E & H); unfold P in *.
  - split; [by rewrite Nat.add_0_r, Nat.mod_small|]. split; [by exists g|]. exists (fun _ => dflt). split; [done|lia].
  - intros i [[s t] src] Hi (-> & (g1 & Ht & Hg1) & g' & Hs & Hg').
    pose proof (Nat.mod_upper_bound (f + i) c ltac:(lia)) as Hsrc. set (k := ((f + i) mod c)%nat) in *.
    rewrite (holds_load t c _ k (g1 k) Ht) by done. cbn.
    destruct (holds_assign s m _ i (g1 k) (g' i) Hs) as (s' & -> & Hs'); [lia|done|]. cbn.
    destruct (holds_assign t c _ k (moved (g1 k)) (g1 k) Ht) as (t' & -> & Ht'); [done|done|]. cbn.
    eexists. split; [done|]. split; [replace (S i) with (i + 1)%nat by lia; by apply ring_step|]. split.
    + exists (fun j => if decide (j = k) then moved (g1 k) else g1 j). split.
      * eapply holds_ext; [done|]. intros j Hj. unfold upd. by case_decide.
      * intros j Hj. rewrite decide_False; [apply Hg1; lia|]. intros Ej. apply ring_inj in Ej; lia.
    + exists (fun j => if decide (j = i) then g1 k else g' j). split.
      * eapply holds_ext; [done|]. intros j Hj. unfold upd. by case_decide.
      * intros j Hj. case_decide as Ej; [subst j; apply Hg1; lia|]. apply Hg'. lia.
  - exists nb', b', src. split; [done|]. destruct H as (_ & (g1 & Hb' & _) & g' & Hnb' & Hg').
    split; [by exists g1|]. exists g'. done.
Qed.

Lemma Grow_wp R d l n :
  repr d l -> (length l < n)%nat -> Z.of_nat n <= mem_size_max -> (R -> granted n) ->
  wp R (Grow d n) (fun d' => repr d' l /\ capacity_ d' = n).
Proof using sizeof_pos.
  intros Hd Hl Hn HR. unfold Grow.
  pose proof (wp_allocate (T := T) sizeof_T allocates R n ltac:(lia) Hn HR) as Ha.
  destruct (CheckedAllocationSize (Z.of_nat n) sizeof_T) as [bytes| |]; cbn in Ha |- *; [|done|done].
  destruct (fatal_check (allocates bytes)) as [[]| |]; cbn in Ha |- *; [|done|done].
  destruct (default_construct n) as (nd & -> & Hnd). rewrite res_bind_ok.
  destruct Hd as [Hsz Hfit Hmax Hdata]. rewrite Hsz. destruct (data_ d) as [b|] eqn:Ed.
  - destruct Hdata as (g & Hb & Hc & Hf & Hbk & Hg).
    assert (H : exists nb' b', move_elements d nd b = Ok (nb', b') /\ all_live b' (capacity_ d) /\
      exists g', holds nb' n (fun j => Obj (g' j)) /\ forall i, (i < length l)%nat -> g' i = g (slot d i)).
    { unfold move_elements. rewrite Hsz. destruct (Nat.ltb_spec 0 (length l)).
      - destruct (grow_loop_ok b (capacity_ d) g nd n (front_index_ d) (length l)) as (nb' & b' & src & -> & H'); try done; try lia.
        exists nb', b'. split; [done|]. exact H'.
      - exists nd, b. split; [done|]. split; [by exists g|]. exists (fun _ => dflt). split; [done|lia]. }
    destruct H as (nb' & b' & -> & Hl' & g' & Hnb' & Hg'). cbn [mbind res_bind].
    rewrite (release_slots_ok (mkDeque (Some b') (capacity_ d) (front_index_ d) (back_index_ d) (length l)) b') by done. cbn.
    split; [|done]. split; cbn; [done|lia|done|]. exists g'. split; [done|]. split; [lia|]. split; [lia|]. unfold slot. cbn.
    split; [by rewrite Nat.mod_small by lia|]. intros i x Hx. pose proof (lookup_lt_Some _ _ _ Hx). rewrite Nat.mod_small by lia.
    rewrite Hg' by done. by apply Hg.
  - cbn. destruct Hdata as (Hc & _ & _). split; [|done]. assert (length l = 0)%nat as E0 by lia. destruct l; [|done].
    split; cbn; [done|lia|done|]. exists (fun _ => dflt). split; [done|]. split; [lia|]. split; [lia|].
    split; [unfold slot; cbn; by rewrite Nat.Div0.mod_0_l|]. done.
Qed.

Lemma grow_if_full_wp R d l :
  repr d l -> (R -> granted (2 * length l + (if decide (l = []) then 4 else 0))) ->
  wp R (grow_if_full d) (fun d' => repr d' l /\ (length l < capacity_ d')%nat /\ (length l < capacity_ d -> d' = d)%nat).
Proof using sizeof_pos.
  intros Hd HR. destruct (Hd) as [Hsz Hfit Hmax Hdata]. unfold grow_if_full. rewrite Hsz.
  destruct (Nat.eqb_spec (length l) (capacity_ d)) as [Ec|Ec]; [|cbn; split; [done|]; split; [lia|done]].
  destruct (Nat.eqb_spec (capacity_ d) 0) as [E0|E0].
  - cbn. destruct l; [|cbn in Ec; lia]. eapply wp_mono; [apply (Grow_wp R d [] 4 Hd); [cbn; lia|done|done]|].
    intros d' [? E]. split; [done|]. split; [rewrite E; cbn; lia|]. cbn in *. lia.
  - unfold CheckedCountProduct, CheckedAllocationSize. rewrite TryAllocationSize_exact by lia.
    assert (HR' : R -> granted (2 * length l)).
    { intros r. apply HR in r. case_decide; [subst; cbn in *; lia|]. by rewrite Nat.add_0_r in r. }
    destruct (Z.leb_spec (Z.of_nat (capacity_ d) * 2) mem_size_max); cbn.
    + replace (Z.to_nat (Z.of_nat (capacity_ d) * 2)) with (2 * length l)%nat by lia.
      eapply wp_mono; [apply (Grow_wp R d l (2 * length l) Hd); [lia|lia|done]|].
      intros d' [? E]. split; [done|]. split; [rewrite E; lia|]. lia.
    + intros r. apply HR', granted_le in r; [lia|done].
Qed.

(** Writing a slot that holds no element. *)
Lemma store_slot_ok d l i x :
  repr d l -> (i < capacity_ d)%nat -> exists b g,
    store_slot d i x = Ok (mkDeque (Some b) (capacity_ d) (front_index_ d) (back_index_ d) (size_ d)) /\
    holds b (capacity_ d) (fun j => Obj (g j)) /\ g i = x /\ (front_index_ d < capacity_ d)%nat /\ back_index_ d = slot d (length l) /\
    forall k y, l !! k = Some y -> slot d k <> i -> g (slot d k) = y.
Proof.
  intros [Hsz Hfit Hmax Hdata] Hi. unfold store_slot. destruct (data_ d) as [b|]; [|lia].
  destruct Hdata as (g & Hb & Hc & Hf & Hbk & Hg).
  destruct (holds_assign b _ _ i x (g i) Hb) as (b' & -> & Hb'); [done|done|]. cbn.
  exists b', (fun j => if decide (j = i) then x else g j). split; [done|]. split.
  - eapply holds_ext; [done|]. intros j Hj. unfold upd. by case_decide.
  - split; [by rewrite decide_True|]. split; [done|]. split; [done|]. intros k y Hy Hk. rewrite decide_False by done. by apply Hg.
Qed.

Definition ref_value (d : SimpleDeque) (l : list T) (r : ref) : option T :=
  match r with
  | Val x => Some x
  | Slot i =>
    if decide (length l < capacity_ d)%nat then
      match data_ d with Some b => match b !! i with Some (Obj x) => Some x | _ => None end | None => None end
    else None
  end.

Lemma read_ref_ok d0 d l r x :
  ref_value d0 l r = Some x -> (length l < capacity_ d0 -> d = d0)%nat -> read_ref d0 d r = Ok x.
Proof.
  intros Hr He. destruct r as [y|i]; cbn in *; [congruence|]. case_decide as Hl; [|done]. rewrite He by done.
  rewrite Nat.eqb_refl. unfold load_slot, load. destruct (data_ d0) as [b|]; [|done]. destruct (b !! i) as [[|v]|]; congruence.
Qed.

Lemma deque_push_back_wp R d l r x :
  repr d l -> ref_value d l r = Some x -> (R -> granted (2 * length l + (if decide (l = []) then 4 else 0))) ->
  wp R (push_back d r) (fun d' => repr d' (l ++ [x])).
Proof using sizeof_pos.
  intros Hd Hr HR. unfold push_back. eapply wp_seq; [by apply grow_if_full_wp|]. intros d1 (Hd1 & Hc & He).
  rewrite (read_ref_ok d d1 l r x) by done. rewrite res_bind_ok.
  assert (Hb : back_index_ d1 = slot d1 (length l)).
  { destruct Hd1 as [_ _ _ H]. destruct (data_ d1); [by destruct H as (? & _ & _ & _ & ? & _)|lia]. }
  destruct (store_slot_ok d1 l (back_index_ d1) x Hd1) as (b & g & -> & Hbl & Hgx & Hf & _ & Hg).
  { rewrite Hb. apply slot_lt. lia. }
  cbn. destruct Hd1 as [Hsz Hfit Hmax _]. split; cbn; rewrite ?length_app; cbn; try lia.
  exists g. split; [done|]. split; [lia|]. split; [done|]. unfold slot in *. cbn. split.
  - rewrite Hb. apply ring_step. lia.
  - intros i y Hy. destruct (decide (i < length l)%nat) as [Hi|Hi].
    + rewrite lookup_app_l in Hy by done. apply Hg; [done|]. rewrite Hb. intros E. apply ring_inj in E; lia.
    + rewrite lookup_app_r in Hy by lia. apply list_lookup_singleton_Some in Hy as [E <-].
      replace i with (length l) by lia. by rewrite <- Hb.
Qed.

Lemma push_front_wp R d l r x :
  repr d l -> ref_value d l r = Some x -> (R -> granted (2 * length l + (if decide (l = []) then 4 else 0))) ->
  wp R (push_front d r) (fun d' => repr d' (x :: l)).
Proof using sizeof_pos.
  intros Hd Hr HR. unfold push_front. eapply wp_seq; [by apply grow_if_full_wp|]. intros d1 (Hd1 & Hc & He).
  rewrite (read_ref_ok d d1 l r x) by done. rewrite res_bind_ok.
  set (f := (if (front_index_ d1 =? 0)%nat then capacity_ d1 - 1 else front_index_ d1 - 1)%nat).
  assert (Hf0 : (front_index_ d1 < capacity_ d1)%nat).
  { destruct Hd1 as [_ _ _ H]. destruct (data_ d1); [by destruct H as (? & _ & _ & ? & _)|lia]. }
  assert (Hfc : (f < capacity_ d1)%nat) by (unfold f; destruct (Nat.eqb_spec (front_index_ d1) 0); lia).
  assert (Hs : forall i, ((f + S i) mod capacity_ d1)%nat = slot d1 i).
  { intros i. unfold slot. rewrite <- (ring_pred (capacity_ d1) (front_index_ d1) i) by lia. f_equal. unfold f. lia. }
  destruct (store_slot_ok d1 l f x Hd1 Hfc) as (b & g & -> & Hbl & Hgx & _ & Hb & Hg).
  cbn. destruct Hd1 as [Hsz Hfit Hmax _]. split; cbn; try lia.
  exists g. split; [done|]. split; [lia|]. split; [done|]. unfold slot at 1 2. cbn. split; [by rewrite Hs|].
  intros [|i] y Hy; cbn in Hy.
  - injection Hy as <-. by rewrite Nat.add_0_r, Nat.mod_small.
  - rewrite Hs. apply Hg; [done|]. intros E. pose proof (lookup_lt_Some _ _ _ Hy). rewrite <- Hs in E.
    rewrite <- (Nat.mod_small f (capacity_ d1)) in E at 2 by done. rewrite <- (Nat.add_0_r f) in E at 2. apply ring_inj in E; lia.
Qed.

(** ** Access and removal *)

Lemma deque_index_ok d l i x : repr d l -> l !! i = Some x -> index d i = Ok x.
Proof.
  intros [Hsz Hfit Hmax Hdata] Hx. pose proof (lookup_lt_Some _ _ _ Hx). unfold index. rewrite Hsz, (proj2 (Nat.ltb_lt _ _)) by done.
  cbn [dcheck]. rewrite res_bind_ok. unfold load_slot. destruct (data_ d) as [b|]; [|lia]. destruct Hdata as (g & Hb & Hc & _ & _ & Hg).
  rewrite <- (Hg i x Hx). eapply holds_load; [done|by apply slot_lt|done].
Qed.

Lemma deque_front_ok d x l : repr d (x :: l) -> front d = Ok x.
Proof.
  intros Hd. pose proof (deque_index_ok d _ 0 x Hd eq_refl) as H. destruct Hd as [Hsz Hfit Hmax Hdata]. cbn in Hfit. unfold index, front in *.
  destruct (0 <? size_ d)%nat; [|done]. cbn [dcheck] in *. rewrite res_bind_ok in *. rewrite <- H, Nat.add_0_r.
  destruct (data_ d); [|lia]. destruct Hdata as (? & _ & _ & ? & _). by rewrite Nat.mod_small.
Qed.

Lemma before_back d l x : repr d (l ++ [x]) -> before d (back_index_ d) = slot d (length l).
Proof.
  intros [Hsz Hfit Hmax Hdata]. rewrite length_app in *. cbn in *. destruct (data_ d); [|lia].
  destruct Hdata as (? & _ & Hc & Hf & -> & _). unfold before, slot. by apply ring_before.
Qed.

Lemma deque_back_ok d l x : repr d (l ++ [x]) -> back d = Ok x.
Proof.
  intros Hd. unfold back. rewrite (before_back d l x Hd).
  assert (Hx : (l ++ [x]) !! length l = Some x) by (by rewrite lookup_app_r, Nat.sub_diag by lia).
  pose proof (deque_index_ok d _ _ x Hd Hx) as H. destruct Hd as [Hsz _ _ _]. rewrite length_app in Hsz. cbn in Hsz.
  unfold index in H. rewrite Hsz in *. rewrite !(proj2 (Nat.ltb_lt _ _)) in * by lia. exact H.
Qed.

Lemma pop_front_ok d x l : repr d (x :: l) -> exists d', pop_front d = Ok d' /\ repr d' l.
Proof.
  intros [Hsz Hfit Hmax Hdata]. unfold pop_front. rewrite Hsz. eexists. split; [done|]. cbn in *.
  split; cbn; [lia|lia|done|]. destruct (data_ d) as [b|]; [|lia]. destruct Hdata as (g & Hb & Hc & Hf & Hbk & Hg).
  assert (Hs : forall i, (((front_index_ d + 1) mod capacity_ d + i) mod capacity_ d = slot d (S i))%nat).
  { intros i. rewrite Nat.Div0.add_mod_idemp_l. unfold slot. f_equal. lia. }
  exists g. split; [done|]. split; [done|]. split; [apply Nat.mod_upper_bound; lia|]. unfold slot at 1 2. cbn. rewrite Hs. split; [done|].
  intros i y Hy. rewrite Hs. by apply Hg.
Qed.

Lemma deque_pop_back_ok d l x : repr d (l ++ [x]) -> exists d', pop_back d = Ok d' /\ repr d' l.
Proof.
  intros Hd. pose proof (before_back d l x Hd) as Hbb. destruct Hd as [Hsz Hfit Hmax Hdata]. rewrite length_app in *. cbn in *.
  unfold pop_back. rewrite Hsz, (proj2 (Nat.ltb_lt _ _)) by lia. eexists. split; [done|]. split; cbn; [lia|lia|done|].
  destruct (data_ d) as [b|]; [|lia]. destruct Hdata as (g & Hb & Hc & Hf & Hbk & Hg). exists g. split; [done|]. split; [done|].
  split; [done|]. split; [exact Hbb|]. intros i y Hy. pose proof (lookup_lt_Some _ _ _ Hy). apply Hg. by rewrite lookup_app_l.
Qed.

Lemma deque_clear_ok d l : repr d l -> repr (clear d) [].
Proof.
  intros [Hsz Hfit Hmax Hdata]. split; cbn; [done|lia|done|]. destruct (data_ d); [|by destruct Hdata as (? & _ & _)].
  destruct Hdata as (g & Hb & Hc & Hf & Hbk & Hg). exists g. split; [done|]. split; [done|]. split; [done|].
  split; [unfold slot; cbn; by rewrite Nat.Div0.mod_0_l|]. done.
Qed.

Lemma traverse_ok d l : repr d l -> traverse d = Ok l.
Proof.
  intros Hd. unfold traverse. rewrite (repr_size d l Hd).
  pose (P := fun (i : nat) (xs : list T) => xs = take i l).
  destruct (for_loop_inv P (fun i xs => x ← index d i; Ok (xs ++ [x])) 0 (length l) []) as (xs & -> & ->); unfold P; [done| |].
  - intros i xs Hi ->. destruct (lookup_lt_is_Some_2 l i) as [x Hx]; [lia|]. rewrite (deque_index_ok d l i x) by done.
    eexists. split; [done|]. by rewrite <- take_S_r.
  - cbn. by rewrite take_ge by lia.
Qed.

Lemma release_ok d l : repr d l -> release_slots d = Ok ().
Proof.
  intros [Hsz Hfit Hmax Hdata]. destruct (data_ d) as [b|] eqn:E; [|unfold release_slots; by rewrite E].
  destruct Hdata as (g & Hb & _). apply release_slots_ok with b; [done|]. by exists g.
Qed.

Lemma repr_new : repr new_deque [].
Proof. split; cbn; done. Qed.

(** ** The contract: a deque is a list *)

Inductive op :=
  | PushFront (x : T) | PushBack (x : T) | EmplaceBack (x : T) | PopFront | PopBack | Front | Back | Index (i : nat)
  | IsEmpty | Size | Clear | Traverse
  | MoveOut  (** [SimpleDeque other(move(d))], then [other] is destroyed *)
  | MoveIn (xs : list T)  (** [d = move(other)] for a deque [other] filled with [xs] *).

Inductive out := Done | Elem (x : T) | Elems (xs : list T) | Flag (b : bool) | Count (n : nat).

Definition fill (xs : list T) : res SimpleDeque :=
  fold_left (fun m x => d ← m; push_back d (Val x)) xs (Ok new_deque).

Definition run_op (o : op) (d : SimpleDeque) : res (SimpleDeque * out) :=
  match o with
  | PushFront x => d ← push_front d (Val x); Ok (d, Done)
  | PushBack x => d ← push_back d (Val x); Ok (d, Done)
  | EmplaceBack x => '(d, slot) ← emplace_back d x; y ← load_slot d slot; Ok (d, Elem y)
  | PopFront => d ← pop_front d; Ok (d, Done)
  | PopBack => d ← pop_back d; Ok (d, Done)
  | Front => x ← front d; Ok (d, Elem x)
  | Back => x ← back d; Ok (d, Elem x)
  | Index i => x ← index d i; Ok (d, Elem x)
  | IsEmpty => Ok (d, Flag (empty d))
  | Size => Ok (d, Count (size_ d))
  | Clear => Ok (clear d, Done)
  | Traverse => xs ← traverse d; Ok (d, Elems xs)
  | MoveOut => let '(other, d) := move_from d in _ ← release_slots other; Ok (d, Done)
  | MoveIn xs => other ← fill xs; '(d, other) ← move_assign d other; _ ← release_slots other; Ok (d, Done)
  end.

Definition spec_op (o : op) (l : list T) : option (list T * out) :=
  match o with
  | PushFront x => Some (x :: l, Done)
  | PushBack x => Some (l ++ [x], Done)
  | EmplaceBack x => Some (l ++ [x], Elem x)
  | PopFront => if decide (l = []) then None else Some (tail l, Done)
  | PopBack => if decide (l = []) then None else Some (take (length l - 1) l, Done)
  | Front => x ← list.head l; Some (l, Elem x)
  | Back => x ← list.last l; Some (l, Elem x)
  | Index i => x ← l !! i; Some (l, Elem x)
  | IsEmpty => Some (l, Flag (bool_decide (l = [])))
  | Size => Some (l, Count (length l))
  | Clear => Some ([], Done)
  | Traverse => Some (l, Elems l)
  | MoveOut => Some ([], Done)
  | MoveIn xs => Some (xs, Done)
  end.

Definition need_op (o : op) (l : list T) : Prop :=
  match o with
  | PushFront _ | PushBack _ | EmplaceBack _ => roomy sizeof_T allocates (2 * length l + 4)
  | MoveIn xs => roomy sizeof_T allocates (2 * length xs + 4)
  | _ => True
  end.

Lemma roomy_grow n (l : list T) :
  roomy sizeof_T allocates (2 * n + 4) -> (length l <= n)%nat -> granted (2 * length l + (if decide (l = []) then 4 else 0)).
Proof. intros H Hl. apply H. case_decide; lia. Qed.

Lemma fill_wp R xs : (R -> roomy sizeof_T allocates (2 * length xs + 4)) -> wp R (fill xs) (fun d => repr d xs).
Proof using sizeof_pos.
  intros HR. unfold fill.
  assert (H : forall ys l m, wp R m (fun d => repr d l) -> (R -> roomy sizeof_T allocates (2 * (length l + length ys) + 4)) ->
    wp R (fold_left (fun m x => d ← m; push_back d (Val x)) ys m) (fun d => repr d (l ++ ys))).
  { clear xs HR. induction ys as [|y ys IH]; intros l m Hm HR; cbn [fold_left]; [by rewrite app_nil_r|].
    replace (l ++ y :: ys) with ((l ++ [y]) ++ ys) by (by rewrite <- app_assoc). apply IH.
    - eapply wp_seq; [done|]. intros d Hd. apply deque_push_back_wp; [done|done|]. intros r. eapply roomy_grow; [by apply HR|lia].
    - intros r. rewrite length_app. eapply roomy_le; [|by apply HR]. cbn. lia. }
  apply (H xs [] (Ok new_deque)); [by apply repr_new|done].
Qed.

Lemma emplace_back_wp R d l x :
  repr d l -> (R -> granted (2 * length l + (if decide (l = []) then 4 else 0))) ->
  wp R ('(d, slot) ← emplace_back d x; y ← load_slot d slot; Ok (d, Elem y)) (fun p => repr p.1 (l ++ [x]) /\ p.2 = Elem x).
Proof using sizeof_pos.
  intros Hd HR. pose proof (deque_push_back_wp R d l (Val x) x Hd eq_refl HR) as Hw. unfold push_back, emplace_back in *.
  destruct (grow_if_full d) as [d1| |]; cbn [mbind res_bind read_ref] in *; [|done|done].
  unfold store_slot in *. destruct (data_ d1) as [b|]; [|done].
  destruct (assign b (back_index_ d1) x) as [b'| |] eqn:Ea; cbn [mbind res_bind data_ wp] in *; [|done|done].
  unfold load_slot. cbn [data_]. unfold assign in Ea. destruct (b !! back_index_ d1) as [[|w]|] eqn:Eb; [done| |done].
  injection Ea as <-. unfold load. rewrite list_lookup_insert_eq by (by eapply lookup_lt_Some). done.
Qed.

#[export] Instance deque_refines : Refines run_op spec_op need_op repr.
Proof using sizeof_pos.
  intros R o d l l' r Hd Hs HR. destruct o; cbn [run_op spec_op need_op] in *.
  - injection Hs as <- <-. eapply wp_seq; [apply push_front_wp; [done|done|]|done]. intros r. eapply roomy_grow; [by apply HR|done].
  - injection Hs as <- <-. eapply wp_seq; [apply deque_push_back_wp; [done|done|]|done]. intros r. eapply roomy_grow; [by apply HR|done].
  - injection Hs as <- <-. apply emplace_back_wp; [done|]. intros r. eapply roomy_grow; [by apply HR|done].
  - case_decide as Hl; [done|]. injection Hs as <- <-. destruct l as [|x l]; [done|].
    destruct (pop_front_ok d x l Hd) as (d' & -> & Hd'). done.
  - case_decide as Hl; [done|]. injection Hs as <- <-. destruct (exists_last Hl) as (l0 & x & ->).
    destruct (deque_pop_back_ok d l0 x Hd) as (d' & -> & Hd'). split; [|done]. cbn. rewrite length_app, take_app_le by (cbn; lia). cbn.
    by rewrite take_ge by lia.
  - destruct l as [|x l]; [done|]. injection Hs as <- <-. by rewrite (deque_front_ok d x l Hd).
  - destruct (list.last l) as [x|] eqn:E; [|done]. injection Hs as <- <-. apply last_Some in E as [l0 ->].
    by rewrite (deque_back_ok d l0 x Hd).
  - destruct (l !! i) as [x|] eqn:E; [|done]. injection Hs as <- <-. by rewrite (deque_index_ok d l i x Hd E).
  - injection Hs as <- <-. split; [done|]. cbn. unfold empty. rewrite (repr_size d l Hd). f_equal.
    destruct l; [done|]. symmetry. by apply bool_decide_eq_false.
  - injection Hs as <- <-. split; [done|]. cbn. by rewrite (repr_size d l Hd).
  - injection Hs as <- <-. split; [|done]. by eapply deque_clear_ok.
  - injection Hs as <- <-. by rewrite (traverse_ok d l Hd).
  - injection Hs as <- <-. cbn [move_from]. rewrite (release_ok d l Hd). split; [apply repr_new|done].
  - injection Hs as <- <-. eapply wp_seq; [by apply fill_wp|]. intros d' Hd'. unfold move_assign. rewrite (release_ok d l Hd). cbn.
    done.
Qed.

(** C9. Every program over a deque that the list semantics accepts runs without breaking
    an object-lifetime rule, keeps the ring in step with the list through growth and
    wrap-around, and leaves storage that its destructor frees completely; it stops only
    when a block is refused. *)
Theorem Deque_programs os l' outs :
  spec_ops spec_op os [] = Some (l', outs) ->
  run_ops run_op os new_deque <> Undef /\
  (forall d' outs', run_ops run_op os new_deque = Ok (d', outs') -> repr d' l' /\ outs' = outs /\ release_slots d' = Ok ()) /\
  (needs spec_op need_op os [] -> exists d', run_ops run_op os new_deque = Ok (d', outs)).
Proof using sizeof_pos.
  intros Hs. destruct (programs_refine run_op spec_op need_op repr os new_deque [] l' outs repr_new Hs) as (H1 & H2 & H3).
  split; [done|]. split.
  - intros d' outs' E. destruct (H2 d' outs' E) as [Hd' ->]. split; [done|]. split; [done|]. by eapply release_ok.
  - intros Hn. destruct (H3 Hn) as (d' & E & _). eauto.
Qed.

(** When the ring is full, [push_back] and [push_front] of an element of the deque
    itself read it after [Grow] has freed its storage; Vector copies it first. *)
Theorem push_element_of_full_deque_undefined d l i :
  repr d l -> length l = capacity_ d -> (0 < length l)%nat -> forall d', push_back d (Slot i) <> Ok d' /\ push_front d (Slot i) <> Ok d'.
Proof using sizeof_pos.
  intros Hd Hl H0 d'. pose proof (repr_size d l Hd) as Hsz.
  assert (H : forall d1, grow_if_full d = Ok d1 -> read_ref d d1 (Slot i) = Undef).
  { intros d1 E. pose proof (repr_max d l Hd). unfold grow_if_full in E. rewrite Hsz, Hl, Nat.eqb_refl in E.
    destruct (Nat.eqb_spec (capacity_ d) 0); [lia|]. unfold CheckedCountProduct, CheckedAllocationSize in E.
    rewrite TryAllocationSize_exact in E by lia. destruct (Z.leb_spec (Z.of_nat (capacity_ d) * 2) mem_size_max); [|done]. cbn [mbind res_bind] in E.
    pose proof (Grow_wp False d l (Z.to_nat (Z.of_nat (capacity_ d) * 2)) Hd ltac:(lia) ltac:(lia) (fun f => match f with end)) as Hw.
    rewrite E in Hw. destruct Hw as [_ Hc]. cbn. rewrite (proj2 (Nat.eqb_neq _ _)); [done|lia]. }
  unfold push_back, push_front. destruct (grow_if_full d) as [d1| |]; [|done|done]. cbn [mbind res_bind]. rewrite H by done. done.
Qed.

End Deque.

Definition example_ops : list (@op Z) :=
  [PushBack 1; PushBack 2; PushFront 0; PopFront; PushBack 3; PushBack 4; PushBack 5; PushFront 9; Front; Back; Index 2;
   Traverse; PopBack; Size; MoveIn [7; 8]; EmplaceBack 6; MoveOut; IsEmpty].

Definition example_outs : list (@out Z) :=
  [Done; Done; Done; Done; Done; Done; Done; Done; Elem 9; Elem 5; Elem 2; Elems [9; 1; 2; 3; 4; 5]; Done; Count 5; Done; Elem 6; Done; Flag true].

Lemma Deque_programs_witness :
  exists d', run_ops (run_op 0 (fun _ => -1) 8 (fun bytes => bytes <=? 4096)) example_ops new_deque = Ok (d', example_outs).
Proof.
  apply (Deque_programs 0 (fun _ => -1) 8 (fun bytes => bytes <=? 4096) ltac:(lia) example_ops [] example_outs).
  - reflexivity.
  - assert (H : forall n, (n <= 30)%nat -> roomy 8 (fun bytes => bytes <=? 4096) n).
    { intros n Hn k Hk. split; [unfold mem_size_max; lia|apply Z.leb_le; lia]. }
    unfold example_ops. repeat (cbn [needs need_op]; split; [first [exact I|apply H; cbn; lia]|];
      match goal with |- context [spec_op ?o ?a] => let s := eval vm_compute in (spec_op o a) in change (spec_op o a) with s end).
    exact I.
Defined.
