(* ===== verification/UnorderedMap.v ===== *)
(** * base::UnorderedMap (containers/unordered_map.h)

    An open-addressing table: a power of two of slots, each with a state byte and
    storage for one entry.  Probing walks the ring of slots from the home slot of a
    key; erasing leaves a tombstone.  [hasher_] and [==] of the key type are
    parameters; [bucket_count_ * kMaxLoadFactor] is exact for powers of two. *)

From stdpp Require Import gmap.
From S2P Require Import Prelude Memory Refine.

Set Default Proof Using "Type".

Section UnorderedMap.

Context {K V : Type} {eqK : EqDecision K} {countK : Countable K}.
Context (hasher_ : K -> Z) (dflt : V) (sizeof_Slot : Z) (allocates : Z -> bool).

Definition kEmpty : Z := 0.
Definition kOccupied : Z := 1.
Definition kDeleted : Z := 2.

Record Slot := mkSlot { state : Z; storage : cell (K * V) }.

Record UnorderedMap := mkMap {
  slots_ : option (list Slot);
  bucket_count_ : nat;
  size_ : Z;
  tombstone_count_ : Z;
}.

Definition empty_map : UnorderedMap := mkMap None 0 0 0.

(** [x & (count - 1)] *)
Definition masked (x : Z) (count : nat) : nat := Z.to_nat (Z.land x (u64 (Z.of_nat count - 1))).

Definition BucketFor (count : nat) (key : K) : nat := masked (hasher_ key) count.

(** [static_cast<mem_size>(bucket_count_ * kMaxLoadFactor)] *)
Definition threshold (count : nat) : Z := 3 * Z.of_nat count / 4.

(** ** Slots *)

Definition get_slot (s : list Slot) (i : nat) : res Slot := match s !! i with Some x => Ok x | None => Undef end.

(** [*SlotKey(s)] and [*SlotVal(s)] *)
Definition slot_entry (s : Slot) : res (K * V) := match storage s with Obj e => Ok e | Raw => Undef end.

(** The two placement news of an insertion. *)
Definition construct_entry (s : Slot) (e : K * V) : res Slot :=
  match storage s with Raw => Ok (mkSlot (state s) (Obj e)) | Obj _ => Undef end.

Definition destroy_entry (s : Slot) : res Slot :=
  match storage s with Obj _ => Ok (mkSlot (state s) Raw) | Raw => Undef end.

Definition set_state (s : Slot) (st : Z) : Slot := mkSlot st (storage s).

Definition DestroySlot (s : Slot) : res Slot :=
  if state s =? kOccupied then s ← destroy_entry s; Ok (set_state s kEmpty) else Ok s.

Definition AllocSlots (count : nat) : res (list Slot) :=
  bytes ← CheckedAllocationSize (Z.of_nat count) sizeof_Slot;
  _ ← fatal_check (allocates bytes);
  Ok (replicate count (mkSlot kEmpty Raw)).

Definition FreeSlots (s : option (list Slot)) (count : nat) : res unit :=
  match s with
  | None => Ok ()
  | Some s => release (storage <$> s) count
  end.

(** ** Probing *)

(** [while (slots[idx].state == kOccupied) idx = (idx + 1) & (count - 1);] where the
    table is not full; [None] is a probe that has not ended. *)
Fixpoint free_loop (fuel : nat) (s : list Slot) (count idx : nat) : option (res nat) :=
  match fuel with
  | O => None
  | S fuel =>
    match s !! idx with
    | None => Some Undef
    | Some x => if state x =? kOccupied then free_loop fuel s count (masked (Z.of_nat idx + 1) count) else Some (Ok idx)
    end
  end.

(** A loop that never ends is no result: it is [Undef] here, and the lemmas below show
    that one turn per bucket tells. *)
Definition ended {A} (r : option (res A)) : res A := match r with Some r => r | None => Undef end.

(** One entry goes to its place in [new_slots]. *)
Definition reinsert (new_count : nat) (new_slots : list Slot) (e : K * V) : res (list Slot) :=
  idx ← ended (free_loop (S new_count) new_slots new_count (BucketFor new_count e.1));
  slot ← get_slot new_slots idx;
  slot ← construct_entry slot e;
  Ok (<[idx := set_state slot kOccupied]> new_slots).

Definition GrowAndRehash (m : UnorderedMap) (target_count : Z) : res UnorderedMap :=
  new_count ← (if 0 <? target_count then Ok target_count
               else if (bucket_count_ m =? 0)%nat then Ok 16 else CheckedCountProduct (Z.of_nat (bucket_count_ m)) 2);
  let new_count := Z.to_nat new_count in
  new_slots ← AllocSlots new_count;
  new_slots ←
    match slots_ m with
    | None => Ok new_slots
    | Some s =>
      '(s, new_slots) ← for_loop 0 (bucket_count_ m) (fun i '(s, new_slots) =>
        slot ← get_slot s i;
        if state slot =? kOccupied then
          e ← slot_entry slot;
          new_slots ← reinsert new_count new_slots e;
          slot ← destroy_entry slot;
          Ok (<[i := slot]> s, new_slots)
        else Ok (s, new_slots)) (s, new_slots);
      _ ← FreeSlots (Some s) (bucket_count_ m);
      Ok new_slots
    end;
  Ok (mkMap (Some new_slots) new_count (size_ m) 0).

Fixpoint find_loop (fuel : nat) (s : list Slot) (count idx : nat) (key : K) : res (option nat) :=
  match fuel with
  | O => Ok None
  | S fuel =>
    slot ← get_slot s idx;
    if state slot =? kEmpty then Ok None
    else
      found ← (if state slot =? kOccupied then e ← slot_entry slot; Ok (bool_decide (e.1 = key)) else Ok false);
      if found : bool then Ok (Some idx) else find_loop fuel s count (masked (Z.of_nat idx + 1) count) key
  end.

(** [while (probes < bucket_count_)]: the probes are the fuel. *)
Definition FindSlot (m : UnorderedMap) (key : K) : res (option nat) :=
  if (bucket_count_ m =? 0)%nat then Ok None
  else
    match slots_ m with
    | None => Undef
    | Some s => find_loop (bucket_count_ m) s (bucket_count_ m) (BucketFor (bucket_count_ m) key) key
    end.

Fixpoint prepare_loop (fuel : nat) (s : list Slot) (count idx : nat) (key : K) (tombstone : option nat) : option (res (nat * bool)) :=
  match fuel with
  | O => None
  | S fuel =>
    match s !! idx with
    | None => Some Undef
    | Some slot =>
      let next := masked (Z.of_nat idx + 1) count in
      if state slot =? kEmpty then Some (Ok (match tombstone with Some t => t | None => idx end, true))
      else if state slot =? kDeleted then
        prepare_loop fuel s count next key (match tombstone with None => Some idx | Some _ => tombstone end)
      else
        match slot_entry slot with
        | Ok e => if decide (e.1 = key) then Some (Ok (idx, false)) else prepare_loop fuel s count next key tombstone
        | Fatal => Some Fatal
        | Undef => Some Undef
        end
    end
  end.

Definition FindOrPrepareInsert (m : UnorderedMap) (key : K) : res (UnorderedMap * nat * bool) :=
  m ← (if (bucket_count_ m =? 0)%nat || (threshold (bucket_count_ m) <? u64 (u64 (size_ m + tombstone_count_ m) + 1))
       then GrowAndRehash m 0 else Ok m);
  match slots_ m with
  | None => Undef
  | Some s =>
    '(idx, fresh) ← ended (prepare_loop (S (bucket_count_ m)) s (bucket_count_ m) (BucketFor (bucket_count_ m) key) key None);
    Ok (m, idx, fresh)
  end.

(** ** Entries *)

Definition MarkOccupied (m : UnorderedMap) (i : nat) (slot : Slot) : UnorderedMap :=
  mkMap ((fun s => <[i := set_state slot kOccupied]> s) <$> slots_ m) (bucket_count_ m)
    (u64 (size_ m + 1)) (if state slot =? kDeleted then u64 (tombstone_count_ m - 1) else tombstone_count_ m).

Definition slot_at (m : UnorderedMap) (i : nat) : res Slot :=
  match slots_ m with None => Undef | Some s => get_slot s i end.

(** [insert], [emplace], [try_emplace]: the value is constructed only when the key is
    absent; the result points to the entry's value and tells whether it is new. *)
Definition emplace (m : UnorderedMap) (key : K) (value : V) : res (UnorderedMap * nat * bool) :=
  '(m, i, fresh) ← FindOrPrepareInsert m key;
  if fresh : bool then
    slot ← slot_at m i;
    slot ← construct_entry slot (key, value);
    Ok (MarkOccupied m i slot, i, true)
  else Ok (m, i, false).

(** [operator[]] default-constructs the value of a new key. *)
Definition subscript (m : UnorderedMap) (key : K) : res (UnorderedMap * nat) :=
  '(m, i, _) ← emplace m key dflt; Ok (m, i).

Definition value_at (m : UnorderedMap) (i : nat) : res V := slot ← slot_at m i; e ← slot_entry slot; Ok e.2.

(** [*p = value] through the pointer [find], [insert] or [operator[]] returned. *)
Definition assign_at (m : UnorderedMap) (i : nat) (value : V) : res UnorderedMap :=
  slot ← slot_at m i; e ← slot_entry slot;
  Ok (mkMap ((fun s => <[i := mkSlot (state slot) (Obj (e.1, value))]> s) <$> slots_ m) (bucket_count_ m) (size_ m) (tombstone_count_ m)).

Definition find (m : UnorderedMap) (key : K) : res (option nat) := FindSlot m key.
Definition contains (m : UnorderedMap) (key : K) : res bool :=
  i ← FindSlot m key; Ok (match i with Some _ => true | None => false end).
Definition count (m : UnorderedMap) (key : K) : res Z := b ← contains m key; Ok (if b : bool then 1 else 0).

(** A miss is a [BASE_BUGCHECK]. *)
Definition at_ (m : UnorderedMap) (key : K) : res V :=
  i ← find m key; match i with Some i => value_at m i | None => Undef end.

Definition erase (m : UnorderedMap) (key : K) : res (UnorderedMap * bool) :=
  i ← FindSlot m key;
  match i with
  | None => Ok (m, false)
  | Some i =>
    slot ← slot_at m i;
    slot ← destroy_entry slot;
    Ok (mkMap ((fun s => <[i := set_state slot kDeleted]> s) <$> slots_ m) (bucket_count_ m)
          (u64 (size_ m - 1)) (u64 (tombstone_count_ m + 1)), true)
  end.

Definition clear (m : UnorderedMap) : res UnorderedMap :=
  s ← match slots_ m with
      | None => Ok None
      | Some s =>
        s ← for_loop 0 (bucket_count_ m) (fun i s => slot ← get_slot s i; slot ← DestroySlot slot; Ok (<[i := slot]> s)) s;
        Ok (Some s)
      end;
  Ok (mkMap s (bucket_count_ m) 0 0).

Definition reserve (m : UnorderedMap) (n : Z) : res UnorderedMap :=
  p ← CheckedCountProduct n 4;
  required ← CheckedCountSum (p / 3) 1;
  rounded ← ended (CheckedRoundUpToPowerOfTwo required);
  let target := Z.max 16 rounded in
  if Z.of_nat (bucket_count_ m) <? target then GrowAndRehash m target else Ok m.

Definition remaining_capacity (m : UnorderedMap) : Z :=
  if (bucket_count_ m =? 0)%nat then 0
  else
    let used := u64 (size_ m + tombstone_count_ m) in
    if used <? threshold (bucket_count_ m) then threshold (bucket_count_ m) - used else 0.

(** ** Whole maps *)

(** The copying loop of the copy constructor and the copy assignment. *)
Definition copy_entries (other : list Slot) (count : nat) (s : list Slot) : res (list Slot * Z) :=
  for_loop 0 count (fun i '(s, n) =>
    slot ← get_slot other i;
    if state slot =? kOccupied then e ← slot_entry slot; s ← reinsert count s e; Ok (s, u64 (n + 1)) else Ok (s, n)) (s, 0).

Definition copy_construct (other : UnorderedMap) : res UnorderedMap :=
  if 0 <? size_ other then
    s ← AllocSlots (bucket_count_ other);
    match slots_ other with
    | None => Undef
    | Some o => '(s, n) ← copy_entries o (bucket_count_ other) s; Ok (mkMap (Some s) (bucket_count_ other) n 0)
    end
  else Ok empty_map.

(** [~UnorderedMap()] *)
Definition destroy (m : UnorderedMap) : res unit := m ← clear m; FreeSlots (slots_ m) (bucket_count_ m).

(** The assignments, when [this != &other]. *)
Definition copy_assign (m other : UnorderedMap) : res UnorderedMap := _ ← destroy m; copy_construct other.
Definition move_assign (m other : UnorderedMap) : res (UnorderedMap * UnorderedMap) := _ ← destroy m; Ok (other, empty_map).
Definition move_construct (other : UnorderedMap) : UnorderedMap * UnorderedMap := (other, empty_map).

Definition emplace_all (m : UnorderedMap) (entries : list (K * V)) : res UnorderedMap :=
  fold_left (fun m e => m ← m; '(m, _, _) ← emplace m e.1 e.2; Ok m) entries (Ok m).

Definition from_list (entries : list (K * V)) : res UnorderedMap :=
  m ← reserve empty_map (Z.of_nat (length entries)); emplace_all m entries.

(** [AdvanceToOccupied]; the index reaches [bucket_count_] at the latest. *)
Fixpoint advance (fuel : nat) (s : list Slot) (index : nat) : nat :=
  match fuel with
  | O => index
  | S fuel => match s !! index with
              | Some slot => if state slot =? kOccupied then index else advance fuel s (S index)
              | None => index
              end
  end.

(** [for (it = begin(); it != end(); ++it)] *)
Fixpoint iterate (fuel : nat) (s : list Slot) (count index : nat) : res (list (K * V)) :=
  match fuel with
  | O => Ok []
  | S fuel =>
    let index := advance (count - index) s index in
    if (index =? count)%nat then Ok []
    else slot ← get_slot s index; e ← slot_entry slot; es ← iterate fuel s count (S index); Ok (e :: es)
  end.

Definition entries (m : UnorderedMap) : res (list (K * V)) :=
  match slots_ m with None => Ok [] | Some s => iterate (S (bucket_count_ m)) s (bucket_count_ m) 0 end.

(** [ForEach], with the calls of [func] in order. *)
Definition ForEach (m : UnorderedMap) : res (list (K * V)) :=
  match slots_ m with
  | None => Ok []
  | Some s => for_loop 0 (bucket_count_ m) (fun i es =>
      slot ← get_slot s i; if state slot =? kOccupied then e ← slot_entry slot; Ok (es ++ [e]) else Ok es) []
  end.

(** ** Tables as functions *)

Inductive vslot := VEmpty | VDel | VOcc (e : K * V).

Definition enc (x : vslot) : Slot :=
  match x with
  | VEmpty => mkSlot kEmpty Raw
  | VDel => mkSlot kDeleted Raw
  | VOcc e => mkSlot kOccupied (Obj e)
  end.

Implicit Types (s : list Slot) (f g : nat -> vslot) (a : gmap K V).

Definition holds s (n : nat) f : Prop := length s = n /\ forall j, (j < n)%nat -> s !! j = Some (enc (f j)).

Definition vupd f (i : nat) (x : vslot) : nat -> vslot := fun j => if decide (j = i) then x else f j.

Definition is_occ (x : vslot) : bool := match x with VOcc _ => true | _ => false end.
Definition is_del (x : vslot) : bool := match x with VDel => true | _ => false end.

Fixpoint cnt (p : vslot -> bool) (n : nat) f : nat :=
  match n with O => O | S n => (cnt p n f + if p (f n) then 1 else 0)%nat end.

Definition ring (n : nat) (h i : nat) : nat := ((h + i) mod n)%nat.

(** [t] is on the probe path of [key], with no empty slot before it. *)
Definition reachable (n : nat) f (key : K) (t : nat) : Prop :=
  exists d, (d < n)%nat /\ t = ring n (BucketFor n key) d /\ forall i, (i < d)%nat -> f (ring n (BucketFor n key) i) <> VEmpty.

Record table (n : nat) f : Prop := {
  table_reach : forall j e, (j < n)%nat -> f j = VOcc e -> reachable n f e.1 j;
  table_uniq : forall i j e e', (i < n)%nat -> (j < n)%nat -> f i = VOcc e -> f j = VOcc e' -> e.1 = e'.1 -> i = j;
}.

Definition absent (n : nat) f (key : K) : Prop := forall j e, (j < n)%nat -> f j = VOcc e -> e.1 <> key.

Definition pow2 (n : nat) : Prop := exists p, 4 <= p < 64 /\ Z.of_nat n = 2 ^ p.

(** ** Counting *)

Lemma cnt_ext p n f g : (forall j, (j < n)%nat -> f j = g j) -> cnt p n f = cnt p n g.
Proof. induction n as [|n IH]; intros H; cbn; [done|]. rewrite IH, H by auto. done. Qed.

Lemma cnt_empty p n : p VEmpty = false -> cnt p n (fun _ => VEmpty) = O.
Proof. intros Hp. induction n as [|n IH]; cbn; [done|]. rewrite Hp. lia. Qed.

Lemma cnt_upd p n f i x :
  (i < n)%nat -> (cnt p n (vupd f i x) + (if p (f i) then 1 else 0) = cnt p n f + (if p x then 1 else 0))%nat.
Proof.
  induction n as [|n IH]; intros Hi; [lia|]. cbn. destruct (decide (i = n)) as [->|Hne].
  - rewrite (cnt_ext p n (vupd f n x) f).
    + unfold vupd. rewrite decide_True by done. lia.
    + intros j Hj. unfold vupd. by rewrite decide_False by lia.
  - specialize (IH ltac:(lia)). unfold vupd at 2. rewrite decide_False by lia. lia.
Qed.

Lemma cnt_mono p n m f : (n <= m)%nat -> (cnt p n f <= cnt p m f)%nat.
Proof. induction 1; cbn; lia. Qed.

Lemma cnt_all n f : (forall j, (j < n)%nat -> f j <> VEmpty) -> (cnt is_occ n f + cnt is_del n f = n)%nat.
Proof.
  induction n as [|n IH]; intros H; cbn; [done|]. specialize (IH ltac:(auto)). specialize (H n ltac:(lia)).
  destruct (f n); cbn; [done|lia|lia].
Qed.

Lemma cnt_zero p n f j : cnt p n f = O -> (j < n)%nat -> p (f j) = false.
Proof.
  induction n as [|n IH]; intros H Hj; cbn in H; [lia|]. destruct (p (f n)) eqn:E; [lia|].
  destruct (decide (j = n)) as [->|]; [done|]. apply IH; lia.
Qed.

Lemma exists_empty n f : (cnt is_occ n f + cnt is_del n f < n)%nat -> exists j, (j < n)%nat /\ f j = VEmpty.
Proof.
  intros H. assert (D : forall m, (exists j, (j < m)%nat /\ f j = VEmpty) \/ (forall j, (j < m)%nat -> f j <> VEmpty)).
  { induction m as [|m [IH|IH]]; [right; lia|left; destruct IH as (j & ? & ?); exists j; split; [lia|done]|].
    destruct (f m) eqn:E; [left; exists m; split; [lia|done]| |];
      right; intros j Hj; destruct (decide (j = m)) as [->|]; try congruence; apply IH; lia. }
  destruct (D n) as [?|Hall]; [done|]. apply cnt_all in Hall. lia.
Qed.

(** ** Masks and the ring *)

Lemma pow2_bounds n : pow2 n -> (16 <= n)%nat /\ Z.of_nat n <= 2 ^ 63.
Proof.
  intros (p & Hp & E). assert (2 ^ 4 <= 2 ^ p) by (apply Z.pow_le_mono_r; lia).
  assert (2 ^ p <= 2 ^ 63) by (apply Z.pow_le_mono_r; lia). lia.
Qed.

Lemma masked_mod x n : pow2 n -> masked x n = Z.to_nat (x mod Z.of_nat n).
Proof.
  intros Hn. pose proof (pow2_bounds n Hn) as [Hlo Hhi]. destruct Hn as (p & Hp & E). unfold masked.
  rewrite wrap_small by (unfold fits; lia). rewrite E, land_low_mask by lia. done.
Qed.

Lemma masked_next i n : pow2 n -> masked (Z.of_nat i + 1) n = ((i + 1) mod n)%nat.
Proof.
  intros Hn. rewrite masked_mod by done. pose proof (pow2_bounds n Hn).
  replace (Z.of_nat i + 1) with (Z.of_nat (i + 1)) by lia. rewrite <- Nat2Z.inj_mod. apply Nat2Z.id.
Qed.

Lemma BucketFor_lt n key : pow2 n -> (BucketFor n key < n)%nat.
Proof.
  intros Hn. unfold BucketFor. rewrite masked_mod by done. pose proof (pow2_bounds n Hn).
  pose proof (Z.mod_pos_bound (hasher_ key) (Z.of_nat n)). lia.
Qed.

Lemma ring_lt n h i : (0 < n)%nat -> (ring n h i < n)%nat.
Proof. intros. apply Nat.mod_upper_bound. lia. Qed.

Lemma ring_next n h i : (0 < n)%nat -> ((ring n h i + 1) mod n = ring n h (S i))%nat.
Proof. intros. unfold ring. rewrite Nat.Div0.add_mod_idemp_l. f_equal. lia. Qed.

Lemma masked_ring n h d : pow2 n -> masked (Z.of_nat (ring n h d) + 1) n = ring n h (S d).
Proof. intros Hn. pose proof (pow2_bounds n Hn). by rewrite masked_next, ring_next by (done || lia). Qed.

Lemma ring_start n key : pow2 n -> BucketFor n key = ring n (BucketFor n key) 0.
Proof. intros. unfold ring. by rewrite Nat.add_0_r, Nat.mod_small by (by apply BucketFor_lt). Qed.

Lemma ring_surj n h j : (h < n)%nat -> (j < n)%nat -> exists i, (i < n)%nat /\ j = ring n h i.
Proof.
  intros Hh Hj. unfold ring. destruct (decide (h <= j)%nat).
  - exists (j - h)%nat. split; [lia|]. replace (h + (j - h))%nat with j by lia. by rewrite Nat.mod_small.
  - exists (n + j - h)%nat. split; [lia|]. replace (h + (n + j - h))%nat with (j + 1 * n)%nat by lia.
    by rewrite Nat.Div0.mod_add, Nat.mod_small.
Qed.

Lemma some_empty_on_path n f key : pow2 n -> (exists j, (j < n)%nat /\ f j = VEmpty) ->
  ~ (forall i, (i < n)%nat -> f (ring n (BucketFor n key) i) <> VEmpty).
Proof.
  intros Hn (j & Hj & E) H. destruct (ring_surj n (BucketFor n key) j) as (i & Hi & ->); [by apply BucketFor_lt|done|].
  by apply (H i).
Qed.

Lemma holds_get s n f i : holds s n f -> (i < n)%nat -> get_slot s i = Ok (enc (f i)).
Proof. intros [_ H] Hi. unfold get_slot. by rewrite H. Qed.

Lemma holds_upd s n f i x : holds s n f -> (i < n)%nat -> holds (<[i := enc x]> s) n (vupd f i x).
Proof.
  intros [E H] Hi. split; [by rewrite length_insert|]. intros j Hj. unfold vupd. case_decide as Hji.
  - subst j. by rewrite list_lookup_insert_eq by lia.
  - rewrite list_lookup_insert_ne by done. by apply H.
Qed.

(** ** Probing *)

Lemma table_find_loop_ok s n f key d fuel :
  holds s n f -> pow2 n -> table n f -> (d + fuel = n)%nat ->
  (forall i, (i < d)%nat -> f (ring n (BucketFor n key) i) <> VEmpty) ->
  (forall i e, (i < d)%nat -> f (ring n (BucketFor n key) i) = VOcc e -> e.1 <> key) ->
  exists r, find_loop fuel s n (ring n (BucketFor n key) d) key = Ok r /\
    match r with Some j => (j < n)%nat /\ exists e, f j = VOcc e /\ e.1 = key | None => absent n f key end.
Proof.
  intros Hs Hn Ht. revert d. pose proof (pow2_bounds n Hn) as [Hn16 _].
  induction fuel as [|fuel IH]; intros d Hd Hne Hno; cbn [find_loop].
  - exists None. split; [done|]. intros j e Hj E Ek.
    destruct (table_reach n f Ht j e Hj E) as (d' & Hd' & -> & _). rewrite Ek in E. by eapply (Hno d' e); [lia| |].
  - pose proof (ring_lt n (BucketFor n key) d ltac:(lia)) as Hj. pose proof (masked_ring n (BucketFor n key) d Hn) as Hnext. set (j := ring n (BucketFor n key) d) in *.
    rewrite (holds_get s n f j Hs Hj). rewrite res_bind_ok.
    assert (Hstep : f j <> VEmpty -> (forall e, f j = VOcc e -> e.1 <> key) ->
      exists r, find_loop fuel s n (masked (Z.of_nat j + 1) n) key = Ok r /\
      match r with Some j => (j < n)%nat /\ exists e, f j = VOcc e /\ e.1 = key | None => absent n f key end).
    { intros H1 H2. rewrite Hnext. apply IH; [lia| |].
      - intros i Hi. destruct (decide (i = d)) as [->|]; [done|]. apply Hne. lia.
      - intros i e Hi. destruct (decide (i = d)) as [->|]; [apply H2|]. apply Hno. lia. }
    destruct (f j) as [| |e] eqn:Ef; cbn.
    + exists None. split; [done|]. intros j' e Hj' E Ek. destruct (table_reach n f Ht j' e Hj' E) as (d' & Hd' & -> & Hp).
      rewrite Ek in *. destruct (decide (d' < d)%nat) as [Hlt|Hge]; [by apply (Hno d' e)|].
      destruct (decide (d' = d)) as [->|]; [fold j in E; congruence|]. apply (Hp d); [lia|]. by fold j.
    + apply Hstep; congruence.
    + case_bool_decide as Ek; [exists (Some j); split; [done|]; eauto|]. apply Hstep; congruence.
Qed.

Definition insertion_point (n : nat) f (key : K) (t : nat) : Prop :=
  (t < n)%nat /\ is_occ (f t) = false /\ reachable n f key t.

Lemma prepare_loop_ok s n f key d fuel tomb :
  holds s n f -> pow2 n -> table n f -> (exists j, (j < n)%nat /\ f j = VEmpty) -> (d + fuel = S n)%nat ->
  (forall i, (i < d)%nat -> f (ring n (BucketFor n key) i) <> VEmpty) ->
  (forall i e, (i < d)%nat -> f (ring n (BucketFor n key) i) = VOcc e -> e.1 <> key) ->
  (forall t, tomb = Some t -> insertion_point n f key t) ->
  exists j b, prepare_loop fuel s n (ring n (BucketFor n key) d) key tomb = Some (Ok (j, b)) /\
    if b : bool then absent n f key /\ insertion_point n f key j else (j < n)%nat /\ exists e, f j = VOcc e /\ e.1 = key.
Proof.
  intros Hs Hn Ht Hemp. revert d tomb. pose proof (pow2_bounds n Hn) as [Hn16 _].
  induction fuel as [|fuel IH]; intros d tomb Hd Hne Hno Htomb.
  { exfalso. eapply (some_empty_on_path n f key Hn Hemp). intros i Hi. apply Hne. lia. }
  assert (Hdn : (d < n)%nat).
  { destruct (decide (d < n)%nat); [done|]. exfalso. eapply (some_empty_on_path n f key Hn Hemp). intros i Hi. apply Hne. lia. }
  cbn [prepare_loop]. pose proof (ring_lt n (BucketFor n key) d ltac:(lia)) as Hj. pose proof (masked_ring n (BucketFor n key) d Hn) as Hnext. set (j := ring n (BucketFor n key) d) in *.
  destruct (Hs) as [_ Hsl]. rewrite Hsl by done. rewrite Hnext.
  destruct (f j) as [| |e] eqn:Ef; cbn.
  - eexists _, true. split; [done|]. split.
    + intros j' e Hj' E Ek. destruct (table_reach n f Ht j' e Hj' E) as (d' & Hd' & -> & Hp).
      rewrite Ek in *. destruct (decide (d' < d)%nat) as [Hlt|Hge]; [by apply (Hno d' e)|].
      destruct (decide (d' = d)) as [->|]; [fold j in E; congruence|]. apply (Hp d); [lia|]. by fold j.
    + destruct tomb as [t|]; [by apply Htomb|]. split; [done|]. split; [by rewrite Ef|]. by exists d.
  - apply IH; [lia| | |].
    + intros i Hi. destruct (decide (i = d)) as [->|]; [fold j; congruence|]. apply Hne. lia.
    + intros i e Hi. destruct (decide (i = d)) as [->|]; [fold j; congruence|]. apply Hno. lia.
    + intros t. destruct tomb as [t'|]; [intros [= <-]; by apply Htomb|]. intros [= <-].
      split; [done|]. split; [by rewrite Ef|]. by exists d.
  - case_decide as Ek.
    + exists j, false. split; [done|]. eauto.
    + apply IH; [lia| | |done].
      * intros i Hi. destruct (decide (i = d)) as [->|]; [fold j; congruence|]. apply Hne. lia.
      * intros i e' Hi. destruct (decide (i = d)) as [->|]; [fold j; congruence|]. apply Hno. lia.
Qed.

(** A table with no empty slot and without the key: the probe never ends. *)
Lemma prepare_loop_spins s n f key idx tomb fuel :
  holds s n f -> pow2 n -> (idx < n)%nat -> (forall j, (j < n)%nat -> f j <> VEmpty) -> absent n f key ->
  prepare_loop fuel s n idx key tomb = None.
Proof.
  intros Hs Hn Hi Hne Hab. pose proof (pow2_bounds n Hn) as [Hn16 _]. revert idx tomb Hi. induction fuel as [|fuel IH]; intros idx tomb Hi; [done|].
  cbn [prepare_loop]. destruct (Hs) as [_ Hsl]. rewrite Hsl by done. rewrite masked_next by done.
  assert (Hnx : ((idx + 1) mod n < n)%nat) by (apply Nat.mod_upper_bound; lia).
  destruct (f idx) as [| |e] eqn:Ef; cbn; [by apply Hne in Ef|by apply IH|].
  rewrite decide_False by (by apply (Hab idx e)). by apply IH.
Qed.

Lemma free_loop_ok s n f key d fuel :
  holds s n f -> pow2 n -> (exists j, (j < n)%nat /\ f j = VEmpty) -> (d + fuel = S n)%nat ->
  (forall i, (i < d)%nat -> f (ring n (BucketFor n key) i) <> VEmpty) ->
  exists j, free_loop fuel s n (ring n (BucketFor n key) d) = Some (Ok j) /\ insertion_point n f key j.
Proof.
  intros Hs Hn Hemp. revert d. pose proof (pow2_bounds n Hn) as [Hn16 _].
  induction fuel as [|fuel IH]; intros d Hd Hne.
  { exfalso. eapply (some_empty_on_path n f key Hn Hemp). intros i Hi. apply Hne. lia. }
  assert (Hdn : (d < n)%nat).
  { destruct (decide (d < n)%nat); [done|]. exfalso. eapply (some_empty_on_path n f key Hn Hemp). intros i Hi. apply Hne. lia. }
  cbn [free_loop]. pose proof (ring_lt n (BucketFor n key) d ltac:(lia)) as Hj. pose proof (masked_ring n (BucketFor n key) d Hn) as Hnext. set (j := ring n (BucketFor n key) d) in *.
  destruct (Hs) as [_ Hsl]. rewrite Hsl by done. rewrite Hnext.
  destruct (f j) as [| |e] eqn:Ef; cbn.
  1, 2: exists j; split; [done|]; split; [done|]; split; [by rewrite Ef|]; by exists d.
  apply IH; [lia|]. intros i Hi. destruct (decide (i = d)) as [->|]; [fold j; congruence|]. apply Hne. lia.
Qed.

(** ** Updating a table *)

Lemma table_insert n f t e :
  table n f -> absent n f e.1 -> insertion_point n f e.1 t -> table n (vupd f t (VOcc e)).
Proof.
  intros [Hr Hu] Hab (Ht & Hno & d & Hd & Et & Hp).
  assert (Hmono : forall i, f i <> VEmpty -> vupd f t (VOcc e) i <> VEmpty) by (intros i Hi; unfold vupd; by case_decide).
  split.
  - intros j e' Hj Hf. unfold vupd in Hf. case_decide as Ej.
    + injection Hf as <-. subst j. exists d. split; [done|]. split; [done|]. intros i Hi. by apply Hmono, Hp.
    + destruct (Hr j e' Hj Hf) as (d' & Hd' & Ej' & Hp'). exists d'. split; [done|]. split; [done|]. intros i Hi. by apply Hmono, Hp'.
  - intros i j e1 e2 Hi Hj H1 H2 E. unfold vupd in H1, H2.
    destruct (decide (i = t)) as [->|]; destruct (decide (j = t)) as [->|]; [done| | |by eapply Hu].
    + injection H1 as <-. exfalso. by apply (Hab j e2 Hj H2).
    + injection H2 as <-. exfalso. by apply (Hab i e1 Hi H1).
Qed.

Lemma table_delete n f t e : table n f -> (t < n)%nat -> f t = VOcc e -> table n (vupd f t VDel).
Proof.
  intros [Hr Hu] Ht Ef. split.
  - intros j e' Hj Hf. unfold vupd in Hf. case_decide; [done|]. destruct (Hr j e' Hj Hf) as (d & Hd & Ej & Hp).
    exists d. split; [done|]. split; [done|]. intros i Hi. unfold vupd. case_decide; [done|]. by apply Hp.
  - intros i j e1 e2 Hi Hj H1 H2 E. unfold vupd in *. repeat case_decide; try done. by eapply Hu.
Qed.

Lemma table_set n f t e v : table n f -> (t < n)%nat -> f t = VOcc e -> table n (vupd f t (VOcc (e.1, v))).
Proof.
  intros [Hr Hu] Ht Ef.
  assert (Hocc : forall j e', vupd f t (VOcc (e.1, v)) j = VOcc e' -> exists e0, f j = VOcc e0 /\ e0.1 = e'.1).
  { intros j e' H. unfold vupd in H. case_decide; [injection H as <-; subst; eauto|eauto]. }
  split.
  - intros j e' Hj Hf. destruct (Hocc j e' Hf) as (e0 & Ef0 & <-). destruct (Hr j e0 Hj Ef0) as (d & Hd & Ej & Hp).
    exists d. split; [done|]. split; [done|]. intros i Hi. unfold vupd. case_decide; [done|]. by apply Hp.
  - intros i j e1 e2 Hi Hj H1 H2 E. destruct (Hocc i e1 H1) as (e1' & ? & ?). destruct (Hocc j e2 H2) as (e2' & ? & ?).
    eapply Hu; [done|done|done|done|congruence].
Qed.

Lemma table_empty n f : (forall j, (j < n)%nat -> is_occ (f j) = false) -> table n f.
Proof. intros H. split; intros; match goal with E : f ?i = VOcc _ |- _ => specialize (H i); rewrite E in H; by specialize (H ltac:(done)) end. Qed.

(** ** Rebuilding a table *)

Definition stored (n : nat) f e : Prop := exists j, (j < n)%nat /\ f j = VOcc e.

(** [g] holds the entries of the first [i] slots of [f], and no tombstone. *)
Record rebuilt (f : nat -> vslot) (i m : nat) (g : nat -> vslot) : Prop := {
  rebuilt_table : table m g;
  rebuilt_same : forall e, stored m g e <-> stored i f e;
  rebuilt_occ : cnt is_occ m g = cnt is_occ i f;
  rebuilt_del : cnt is_del m g = O;
}.

Lemma rebuilt_skip f i m g : is_occ (f i) = false -> rebuilt f i m g -> rebuilt f (S i) m g.
Proof.
  intros Hi [Ht Hs Ho Hd]. split; [done| |cbn; rewrite Hi; lia|done]. intros e. rewrite Hs. split; intros (j & Hj & E).
  - exists j. split; [lia|done].
  - exists j. destruct (decide (j = i)) as [->|]; [by rewrite E in Hi|]. split; [lia|done].
Qed.

Lemma reinsert_ok f i m g s n e :
  holds s m g -> pow2 m -> rebuilt f i m g -> table n f -> (i < n)%nat -> f i = VOcc e -> (cnt is_occ n f < m)%nat ->
  exists s' g', reinsert m s e = Ok s' /\ holds s' m g' /\ rebuilt f (S i) m g'.
Proof.
  intros Hs Hm [Ht Hsame Ho Hd] Htf Hi Ef Hroom.
  assert (Hle : (cnt is_occ (S i) f <= cnt is_occ n f)%nat) by (apply cnt_mono; lia). cbn in Hle. rewrite Ef in Hle. cbn in Hle.
  assert (Hab : absent m g e.1).
  { intros j e' Hj E Ek. destruct (proj1 (Hsame e')) as (j' & Hj' & E'); [by exists j|].
    assert (j' = i) by (eapply (table_uniq n f Htf j' i e' e); [lia|done|done|done|done]). lia. }
  unfold reinsert. rewrite (ring_start m e.1) by done.
  destruct (free_loop_ok s m g e.1 0 (S m) Hs Hm) as (t & -> & Hip); [apply exists_empty; lia|lia|lia|].
  destruct (Hip) as (Htm & Hno & _). cbn [ended]. rewrite res_bind_ok, (holds_get s m g t Hs Htm), res_bind_ok.
  assert (Hslot : construct_entry (enc (g t)) e = Ok (mkSlot (state (enc (g t))) (Obj e))).
  { unfold construct_entry. by destruct (g t). }
  rewrite Hslot, res_bind_ok. exists (<[t := enc (VOcc e)]> s), (vupd g t (VOcc e)). split; [done|].
  split; [by apply holds_upd|]. split.
  - by apply table_insert.
  - intros e'. split.
    + intros (j & Hj & E). unfold vupd in E. case_decide.
      * injection E as <-. exists i. split; [lia|done].
      * destruct (proj1 (Hsame e')) as (j' & Hj' & E'); [by exists j|]. exists j'. split; [lia|done].
    + intros (j & Hj & E). destruct (decide (j = i)) as [->|].
      * rewrite Ef in E. injection E as <-. exists t. split; [done|]. unfold vupd. by rewrite decide_True.
      * destruct (proj2 (Hsame e')) as (j' & Hj' & E'); [exists j; split; [lia|done]|]. exists j'. split; [done|].
        unfold vupd. case_decide; [subst; by rewrite E' in Hno|done].
  - cbn. rewrite Ef. pose proof (cnt_upd is_occ m g t (VOcc e) Htm) as H. rewrite Hno in H. cbn in *. lia.
  - pose proof (cnt_upd is_del m g t (VOcc e) Htm) as H. cbn in H. lia.
Qed.

Lemma rebuilt_start f m : rebuilt f 0 m (fun _ => VEmpty).
Proof.
  split.
  - by apply table_empty.
  - intros e. split; intros (j & Hj & E); [done|lia].
  - by rewrite cnt_empty.
  - by rewrite cnt_empty.
Qed.

Lemma holds_alloc n : holds (replicate n (mkSlot kEmpty Raw)) n (fun _ => VEmpty).
Proof. split; [by rewrite length_replicate|]. intros j Hj. by apply lookup_replicate_2. Qed.

Lemma copy_entries_ok f n s o :
  holds o n f -> holds s n (fun _ => VEmpty) -> pow2 n -> table n f -> (cnt is_occ n f < n)%nat ->
  exists s' g, copy_entries o n s = Ok (s', Z.of_nat (cnt is_occ n f)) /\ holds s' n g /\ rebuilt f n n g.
Proof.
  intros Ho Hs Hn Ht Hroom. pose proof (pow2_bounds n Hn) as [_ Hhi]. unfold copy_entries.
  pose (P := fun (i : nat) (p : list Slot * Z) => p.2 = Z.of_nat (cnt is_occ i f) /\ exists g, holds p.1 n g /\ rebuilt f i n g).
  destruct (for_loop_inv P (fun i '(s, n0) =>
    slot ← get_slot o i;
    if state slot =? kOccupied then e ← slot_entry slot; s ← reinsert n s e; Ok (s, u64 (n0 + 1)) else Ok (s, n0)) 0 n (s, 0))
    as ([s' k] & -> & Hk & g & Hs' & Hg); unfold P in *.
  - split; [done|]. exists (fun _ => VEmpty). split; [done|apply rebuilt_start].
  - intros i [s1 k] Hi (Ek & g & Hs1 & Hg). cbn in Ek, Hs1. rewrite (holds_get o n f i Ho) by lia. rewrite res_bind_ok.
    destruct (f i) as [| |e] eqn:Ef; cbn [enc state kOccupied kEmpty kDeleted Z.eqb Pos.eqb].
    1, 2: eexists; split; [done|]; cbn; rewrite Ef; cbn; split; [lia|]; exists g; split; [done|]; apply rebuilt_skip; [by rewrite Ef|done].
    destruct (reinsert_ok f i n g s1 n e Hs1 Hn Hg Ht ltac:(lia) Ef Hroom) as (s2 & g2 & E2 & Hs2 & Hg2).
    cbn [slot_entry storage]. rewrite res_bind_ok, E2, res_bind_ok. eexists. split; [done|]. cbn. split; [|by exists g2].
    assert (cnt is_occ i f <= cnt is_occ n f)%nat by (apply cnt_mono; lia).
    rewrite Ef. cbn. rewrite wrap_small by (unfold fits; lia). lia.
  - exists s', g. cbn in Hk. subst k. by split.
Qed.

(** ** The state *)

Definition content (n : nat) f a : Prop := forall k v, a !! k = Some v <-> stored n f (k, v).

Record good (m : UnorderedMap) a (s : list Slot) f : Prop := {
  good_slots : slots_ m = Some s;
  good_holds : holds s (bucket_count_ m) f;
  good_pow2 : pow2 (bucket_count_ m);
  good_table : table (bucket_count_ m) f;
  good_content : content (bucket_count_ m) f a;
  good_size : size_ m = Z.of_nat (cnt is_occ (bucket_count_ m) f);
  good_dom : base.size a = cnt is_occ (bucket_count_ m) f;
  good_tombs : tombstone_count_ m = Z.of_nat (cnt is_del (bucket_count_ m) f);
  good_load : size_ m + tombstone_count_ m <= threshold (bucket_count_ m);
}.

Definition wf (m : UnorderedMap) a : Prop := (m = empty_map /\ a = ∅) \/ exists s f, good m a s f.

Lemma content_set n f a t e v :
  table n f -> content n f a -> (t < n)%nat -> f t = VOcc e -> content n (vupd f t (VOcc (e.1, v))) (<[e.1 := v]> a).
Proof.
  intros Ht Hc Htn Ef k w. rewrite lookup_insert_Some. split.
  - intros [[<- <-]|[Hne Hk]]; [exists t; split; [done|]; unfold vupd; by rewrite decide_True|].
    apply Hc in Hk as (j & Hj & E). exists j. split; [done|]. unfold vupd. case_decide; [|done]. subst. rewrite Ef in E. injection E as ->. done.
  - intros (j & Hj & E). unfold vupd in E. case_decide as Ej; [injection E as <- <-; by left|].
    right. split; [|apply Hc; by exists j]. intros Ek. apply Ej. by eapply (table_uniq n f Ht j t).
Qed.

Lemma content_insert n f a t k v :
  content n f a -> absent n f k -> (t < n)%nat -> is_occ (f t) = false -> content n (vupd f t (VOcc (k, v))) (<[k := v]> a) /\ a !! k = None.
Proof.
  intros Hc Hab Ht Hno.
  assert (Ha : a !! k = None).
  { destruct (a !! k) as [w|] eqn:E; [|done]. apply Hc in E as (j & Hj & E). by apply Hab in E. }
  split; [|done]. intros k' w. rewrite lookup_insert_Some. split.
  - intros [[<- <-]|[Hne Hk]]; [exists t; split; [done|]; unfold vupd; by rewrite decide_True|].
    apply Hc in Hk as (j & Hj & E). exists j. split; [done|]. unfold vupd. case_decide; [subst; by rewrite E in Hno|done].
  - intros (j & Hj & E). unfold vupd in E. case_decide; [injection E as <- <-; by left|]. right. split; [|apply Hc; by exists j].
    intros <-. by apply (Hab j (k, w)).
Qed.

Lemma table_content_delete n f a t e :
  table n f -> content n f a -> (t < n)%nat -> f t = VOcc e -> content n (vupd f t VDel) (delete e.1 a).
Proof.
  intros Ht Hc Htn Ef k w. rewrite lookup_delete_Some. split.
  - intros [Hne Hk]. apply Hc in Hk as (j & Hj & E). exists j. split; [done|]. unfold vupd. case_decide; [|done]. subst. rewrite Ef in E. by injection E as ->.
  - intros (j & Hj & E). unfold vupd in E. case_decide as Ej; [done|]. split; [|apply Hc; by exists j].
    intros Ek. apply Ej. by eapply (table_uniq n f Ht j t).
Qed.

Lemma table_content_lookup n f a j e : content n f a -> (j < n)%nat -> f j = VOcc e -> a !! e.1 = Some e.2.
Proof. intros Hc Hj E. apply Hc. exists j. split; [done|]. by destruct e. Qed.

Lemma content_absent n f a k : content n f a -> absent n f k -> a !! k = None.
Proof. intros Hc Hab. destruct (a !! k) as [v|] eqn:E; [|done]. apply Hc in E as (j & Hj & E). by apply Hab in E. Qed.

Lemma content_rebuilt f n m g a : content n f a -> rebuilt f n m g -> content m g a.
Proof. intros Hc Hr k v. rewrite (rebuilt_same f n m g Hr). apply Hc. Qed.

Lemma threshold_lt n : pow2 n -> (3 * Z.of_nat n = 4 * threshold n) /\ 12 <= threshold n /\ threshold n < Z.of_nat n.
Proof.
  intros Hn. pose proof (pow2_bounds n Hn) as [Hlo _]. destruct Hn as (p & Hp & E). unfold threshold.
  assert (E4 : Z.of_nat n = 4 * 2 ^ (p - 2)).
  { rewrite E. replace p with (2 + (p - 2)) at 1 by lia. rewrite Z.pow_add_r by lia. done. }
  rewrite E4 in *. replace (3 * (4 * 2 ^ (p - 2))) with (3 * 2 ^ (p - 2) * 4) by lia. rewrite Z.div_mul by lia. lia.
Qed.

(** ** Growing *)

Abbreviation granted := (granted sizeof_Slot allocates).
Hypothesis sizeof_pos : 0 < sizeof_Slot.

Lemma AllocSlots_wp R n :
  Z.of_nat n <= mem_size_max -> (R -> granted n) -> wp R (AllocSlots n) (fun s => s = replicate n (mkSlot kEmpty Raw)).
Proof using sizeof_pos.
  intros Hn HR. pose proof (wp_allocate (T := unit) sizeof_Slot allocates R n ltac:(lia) Hn HR) as H. unfold AllocSlots.
  destruct (CheckedAllocationSize (Z.of_nat n) sizeof_Slot) as [b| |]; cbn in *; [|done|done].
  destruct (fatal_check (allocates b)) as [[]| |]; cbn in *; [done|done|done].
Qed.

(** The loop that empties the old table into the new one. *)
Lemma rehash_loop_ok f n m s ns :
  holds s n f -> holds ns m (fun _ => VEmpty) -> pow2 m -> table n f -> (cnt is_occ n f < m)%nat ->
  exists s' ns' g, for_loop 0 n (fun i '(s, new_slots) =>
        slot ← get_slot s i;
        if state slot =? kOccupied then
          e ← slot_entry slot;
          new_slots ← reinsert m new_slots e;
          slot ← destroy_entry slot;
          Ok (<[i := slot]> s, new_slots)
        else Ok (s, new_slots)) (s, ns) = Ok (s', ns') /\
    length s' = n /\ (forall j x, s' !! j = Some x -> storage x = Raw) /\ holds ns' m g /\ rebuilt f n m g.
Proof.
  intros Hs Hns Hm Ht Hroom.
  pose (P := fun (i : nat) (p : list Slot * list Slot) =>
    length p.1 = n /\ (forall j, (i <= j < n)%nat -> p.1 !! j = Some (enc (f j))) /\
    (forall j x, (j < i)%nat -> p.1 !! j = Some x -> storage x = Raw) /\ exists g, holds p.2 m g /\ rebuilt f i m g).
  destruct (for_loop_inv P (fun i '(s, new_slots) =>
        slot ← get_slot s i;
        if state slot =? kOccupied then
          e ← slot_entry slot; new_slots ← reinsert m new_slots e; slot ← destroy_entry slot; Ok (<[i := slot]> s, new_slots)
        else Ok (s, new_slots)) 0 n (s, ns)) as ([s' ns'] & -> & Hl & _ & Hraw & g & Hns' & Hg); unfold P in *.
  - destruct Hs as [Hl Hs]. split; [done|]. split; [intros j Hj; apply Hs; lia|]. split; [lia|]. exists (fun _ => VEmpty).
    split; [done|apply rebuilt_start].
  - intros i [s1 ns1] Hi (Hl & Hrest & Hraw & g & Hns1 & Hg). cbn in Hl, Hrest, Hraw, Hns1.
    unfold get_slot. rewrite (Hrest i) by lia. rewrite res_bind_ok.
    destruct (f i) as [| |e] eqn:Ef; cbn [enc state kOccupied kEmpty kDeleted Z.eqb Pos.eqb].
    1, 2: eexists; split; [done|]; cbn; split; [done|]; split; [intros; apply Hrest; lia|]; split;
      [|exists g; split; [done|]; apply rebuilt_skip; [by rewrite Ef|done]];
      intros j x Hj Hx; destruct (decide (j = i)) as [->|]; [rewrite Hrest, Ef in Hx by lia; by injection Hx as <-|apply (Hraw j); [lia|done]].
    destruct (reinsert_ok f i m g ns1 n e Hns1 Hm Hg Ht ltac:(lia) Ef Hroom) as (ns2 & g2 & E2 & Hns2 & Hg2).
    cbn [slot_entry storage]. rewrite res_bind_ok, E2, res_bind_ok. cbn [destroy_entry storage]. rewrite res_bind_ok.
    eexists. split; [done|]. cbn. split; [by rewrite length_insert|]. split; [|split; [|by exists g2]].
    + intros j Hj. rewrite list_lookup_insert_ne by lia. apply Hrest. lia.
    + intros j x Hj Hx. destruct (decide (j = i)) as [->|].
      * rewrite list_lookup_insert_eq in Hx by lia. by injection Hx as <-.
      * rewrite list_lookup_insert_ne in Hx by done. apply (Hraw j); [lia|done].
  - exists s', ns', g. split; [done|]. split; [done|]. split; [|done]. intros j x Hx. cbn in Hraw. apply (Hraw j); [|done].
    pose proof (lookup_lt_Some _ _ _ Hx). cbn in Hl. lia.
Qed.

Lemma FreeSlots_ok s n : length s = n -> (forall j x, s !! j = Some x -> storage x = Raw) -> FreeSlots (Some s) n = Ok ().
Proof.
  intros Hl Hraw. apply (holds_release (storage <$> s) n (fun _ => Raw)); [|done].
  split; [by rewrite length_fmap|]. intros j Hj. rewrite list_lookup_fmap. destruct (lookup_lt_is_Some_2 s j) as [x Hx]; [lia|].
  rewrite Hx. cbn. by rewrite (Hraw j x Hx).
Qed.

Definition new_count (m : UnorderedMap) (target : Z) : Z :=
  if 0 <? target then target else if (bucket_count_ m =? 0)%nat then 16 else Z.of_nat (bucket_count_ m) * 2.

Definition fresh_table (n : nat) (m : UnorderedMap) a : Prop :=
  bucket_count_ m = n /\ tombstone_count_ m = 0 /\ exists s f, good m a s f.

Lemma good_fresh n s g a k :
  holds s n g -> pow2 n -> table n g -> content n g a -> base.size a = cnt is_occ n g -> cnt is_del n g = O ->
  k = Z.of_nat (cnt is_occ n g) -> k <= threshold n -> good (mkMap (Some s) n k 0) a s g.
Proof. intros. split; cbn; try done; lia. Qed.

Lemma GrowAndRehash_wp R m a target :
  wf m a -> 0 <= target -> pow2 (Z.to_nat (new_count m target)) -> Z.of_nat (bucket_count_ m) <= new_count m target ->
  (R -> granted (Z.to_nat (new_count m target))) ->
  wp R (GrowAndRehash m target) (fun m' => fresh_table (Z.to_nat (new_count m target)) m' a).
Proof using sizeof_pos.
  intros Hm Htg Hn Hle HR. pose proof (pow2_bounds _ Hn) as [Hlo Hhi]. unfold GrowAndRehash.
  assert (Hc : (if 0 <? target then Ok target else if (bucket_count_ m =? 0)%nat then Ok 16
                else CheckedCountProduct (Z.of_nat (bucket_count_ m)) 2) = Ok (new_count m target)).
  { unfold new_count in *. destruct (0 <? target); [done|]. destruct (bucket_count_ m =? 0)%nat; [done|].
    unfold CheckedCountProduct, CheckedAllocationSize. rewrite TryAllocationSize_exact by (unfold mem_size_max; lia).
    rewrite (proj2 (Z.leb_le _ _)) by (unfold mem_size_max; lia). done. }
  rewrite Hc, res_bind_ok. set (n := Z.to_nat (new_count m target)) in *.
  eapply wp_seq; [apply AllocSlots_wp; [unfold mem_size_max; lia|done]|]. intros ns ->.
  destruct Hm as [[-> ->]|(s & f & [Es Hh Hp Ht Hct Hsz Hdom Htb Hld])].
  - cbn. split; [done|]. split; [done|]. exists (replicate n (mkSlot kEmpty Raw)), (fun _ => VEmpty).
    apply good_fresh; rewrite ?cnt_empty by done;
      [apply holds_alloc|done|by apply table_empty| |done|done|done|pose proof (threshold_lt n Hn); lia].
    intros k v. rewrite lookup_empty. split; [done|]. by intros (j & _ & E).
  - rewrite Es. pose proof (threshold_lt _ Hp) as (_ & _ & Hth).
    destruct (rehash_loop_ok f (bucket_count_ m) n s _ Hh (holds_alloc n) Hn Ht) as (s' & ns' & g & -> & Hl & Hraw & Hns' & Hg); [lia|].
    rewrite res_bind_ok. cbn [mbind res_bind]. rewrite (FreeSlots_ok s') by done. cbn.
    split; [done|]. split; [done|]. exists ns', g. destruct Hg as [Htg' Hsame Hocc Hdel].
    assert (Hthn : threshold (bucket_count_ m) <= threshold n) by (apply Z.div_le_mono; lia).
    apply good_fresh; try done; [|congruence|congruence|lia]. by eapply content_rebuilt.
Qed.

Lemma good_room m a s f : good m a s f -> (cnt is_occ (bucket_count_ m) f + cnt is_del (bucket_count_ m) f < bucket_count_ m)%nat.
Proof. intros [Es Hh Hp Ht Hct Hsz Hdom Htb Hld]. pose proof (threshold_lt _ Hp). lia. Qed.

(** The bucket count an insertion may ask for. *)
Definition grown (m : UnorderedMap) : nat := Z.to_nat (new_count m 0).

Lemma grown_pow2 m a : wf m a -> Z.of_nat (grown m) <= mem_size_max -> pow2 (grown m) /\ Z.of_nat (bucket_count_ m) <= new_count m 0.
Proof.
  unfold grown, new_count. intros [[-> ->]|(s & f & Hg)] Hmax; cbn.
  - split; [by exists 4|lia].
  - pose proof (good_pow2 m a s f Hg) as Hp. pose proof (pow2_bounds _ Hp). cbn in Hmax.
    destruct (Nat.eqb_spec (bucket_count_ m) 0); [lia|]. split; [|lia]. destruct Hp as (p & Hp & E). exists (p + 1).
    rewrite Z2Nat.id in * by lia. rewrite Z.pow_add_r by lia. split; [|lia].
    assert (p <> 63); [|lia]. intros ->. unfold mem_size_max in Hmax. lia.
Qed.

(** An insertion may still be made without growing. *)
Definition spare (m : UnorderedMap) : Prop := size_ m + tombstone_count_ m + 1 <= threshold (bucket_count_ m).

Lemma FindOrPrepareInsert_wp R m a key :
  wf m a -> (R -> spare m \/ granted (grown m)) ->
  wp R (FindOrPrepareInsert m key) (fun '(m', i, fresh) => exists s f, good m' a s f /\ spare m' /\
    (m' = m \/ (~ spare m /\ bucket_count_ m' = grown m /\ tombstone_count_ m' = 0)) /\
    if fresh : bool then absent (bucket_count_ m') f key /\ insertion_point (bucket_count_ m') f key i
    else (i < bucket_count_ m')%nat /\ exists e, f i = VOcc e /\ e.1 = key).
Proof using sizeof_pos.
  intros Hm HR. unfold FindOrPrepareInsert.
  eapply wp_seq with (Q := fun m' => (exists s f, good m' a s f) /\ spare m' /\
    (m' = m \/ (~ spare m /\ bucket_count_ m' = grown m /\ tombstone_count_ m' = 0))).
  - destruct ((bucket_count_ m =? 0)%nat || (threshold (bucket_count_ m) <? u64 (u64 (size_ m + tombstone_count_ m) + 1))) eqn:Eg.
    + assert (Hns : ~ spare m).
      { intros Hsp. unfold spare in Hsp. destruct Hm as [[-> _]|(s & f & Hg)]; [by vm_compute in Hsp|].
        pose proof (good_room m a s f Hg). destruct Hg as [Es Hh Hp Ht Hct Hsz Hdom Htb Hld]. pose proof (pow2_bounds _ Hp).
        rewrite (wrap_small 64 (size_ m + tombstone_count_ m)), wrap_small in Eg by (unfold fits; lia).
        destruct (Nat.eqb_spec (bucket_count_ m) 0); [lia|]. destruct (Z.ltb_spec (threshold (bucket_count_ m)) (size_ m + tombstone_count_ m + 1)); [lia|done]. }
      destruct (Z_le_gt_dec (Z.of_nat (grown m)) mem_size_max) as [Hmax|Hmax].
      * destruct (grown_pow2 m a Hm Hmax) as [Hp2 Hle].
        eapply wp_mono; [apply (GrowAndRehash_wp R m a 0); [done|lia|done|done|]|].
        { intros r. by destruct (HR r). }
        intros m' (Eb & Et & s & f & Hg). fold (grown m) in Eb. split; [by exists s, f|]. split; [|by right].
        unfold spare. rewrite Et. destruct Hg as [Es Hh Hp Ht Hct Hsz Hdom Htb Hld].
        pose proof (threshold_lt _ Hp) as (Hth4 & Hth12 & Hth). destruct Hm as [[-> ->]|(s0 & f0 & Hg0)].
        -- rewrite Hsz, <- Hdom. rewrite map_size_empty. lia.
        -- destruct Hg0 as [_ _ Hp0 _ _ Hsz0 Hdom0 Htb0 Hld0]. pose proof (threshold_lt _ Hp0).
           rewrite Eb in *. unfold grown, new_count in *. cbn [Z.ltb Z.compare] in *.
           pose proof (pow2_bounds _ Hp0). destruct (Nat.eqb_spec (bucket_count_ m) 0); [lia|]. lia.
      * assert (HnR : ~ R). { intros r. destruct (HR r) as [?|[Hgr _]]; [done|]. nia. }
        unfold grown, new_count in Hmax. cbn in Hmax. destruct (Nat.eqb_spec (bucket_count_ m) 0); [unfold mem_size_max in Hmax; lia|].
        unfold GrowAndRehash. cbn [Z.ltb Z.compare]. rewrite (proj2 (Nat.eqb_neq _ _)) by done.
        unfold CheckedCountProduct, CheckedAllocationSize. destruct Hm as [[-> _]|(s & f & Hg)]; [done|].
        pose proof (pow2_bounds _ (good_pow2 m a s f Hg)). rewrite TryAllocationSize_exact by (unfold mem_size_max; lia).
        rewrite (proj2 (Z.leb_gt _ _)) by lia. exact HnR.
    + apply orb_false_iff in Eg as [E0 E1]. apply Nat.eqb_neq in E0. apply Z.ltb_ge in E1.
      destruct Hm as [[-> _]|(s & f & Hg)]; [done|]. pose proof (good_room m a s f Hg).
      destruct (Hg) as [Es Hh Hp Ht Hct Hsz Hdom Htb Hld]. pose proof (pow2_bounds _ Hp).
      rewrite (wrap_small 64 (size_ m + tombstone_count_ m)), wrap_small in E1 by (unfold fits; lia). cbn. split; [by exists s, f|]. split; [exact E1|]. by left.
  - intros m' ((s & f & Hg) & Hsp & Hbc). rewrite (good_slots m' a s f Hg).
    rewrite (ring_start (bucket_count_ m') key) by apply Hg.
    destruct (prepare_loop_ok s (bucket_count_ m') f key 0 (S (bucket_count_ m')) None) as (j & b & -> & Hj);
      [apply Hg|apply Hg|apply Hg|apply exists_empty; by eapply good_room|lia|lia|lia|done|].
    cbn. exists s, f. done.
Qed.

(** ** Entries *)

Lemma slot_at_good m a s f i : good m a s f -> (i < bucket_count_ m)%nat -> slot_at m i = Ok (enc (f i)).
Proof. intros Hg Hi. unfold slot_at. rewrite (good_slots m a s f Hg). eapply holds_get; [apply Hg|done]. Qed.

Lemma value_at_good m a s f i e : good m a s f -> (i < bucket_count_ m)%nat -> f i = VOcc e -> value_at m i = Ok e.2.
Proof. intros Hg Hi Ef. unfold value_at. rewrite (slot_at_good m a s f i Hg Hi), Ef. done. Qed.

(** The index names the entry of [key]. *)
Definition names (m : UnorderedMap) a (i : nat) (key : K) : Prop :=
  exists s f e, good m a s f /\ (i < bucket_count_ m)%nat /\ f i = VOcc e /\ e.1 = key.

Lemma names_value m a i key : names m a i key -> exists v, a !! key = Some v /\ value_at m i = Ok v.
Proof.
  intros (s & f & e & Hg & Hi & Ef & Ek). exists e.2. split.
  - rewrite <- Ek. eapply table_content_lookup; [apply Hg|done|done].
  - by eapply value_at_good.
Qed.

Lemma mark_occupied_good m a s f i key value :
  good m a s f -> spare m -> absent (bucket_count_ m) f key -> insertion_point (bucket_count_ m) f key i ->
  exists slot, (slot ← slot_at m i; construct_entry slot (key, value)) = Ok slot /\
    good (MarkOccupied m i slot) (<[key := value]> a) (<[i := enc (VOcc (key, value))]> s) (vupd f i (VOcc (key, value))).
Proof.
  intros Hg Hsp Hab Hip. destruct (Hip) as (Hi & Hno & _). rewrite (slot_at_good m a s f i Hg Hi), res_bind_ok.
  destruct Hg as [Es Hh Hp Ht Hct Hsz Hdom Htb Hld]. unfold spare in Hsp. pose proof (pow2_bounds _ Hp). pose proof (threshold_lt _ Hp).
  exists (mkSlot (state (enc (f i))) (Obj (key, value))). split; [by destruct (f i)|].
  destruct (content_insert _ f a i key value Hct Hab Hi Hno) as [Hct' Hnone].
  pose proof (cnt_upd is_occ _ f i (VOcc (key, value)) Hi) as Hco. pose proof (cnt_upd is_del _ f i (VOcc (key, value)) Hi) as Hcd.
  rewrite Hno in Hco. cbn in Hco, Hcd.
  assert (Htb' : (if state (enc (f i)) =? kDeleted then u64 (tombstone_count_ m - 1) else tombstone_count_ m) =
    Z.of_nat (cnt is_del (bucket_count_ m) (vupd f i (VOcc (key, value))))).
  { destruct (f i); cbn in Hcd |- *; [lia|rewrite wrap_small by (unfold fits; lia); lia|done]. }
  unfold MarkOccupied. split; cbn.
  - by rewrite Es.
  - by apply (holds_upd s _ f i (VOcc (key, value))).
  - done.
  - by apply table_insert.
  - done.
  - rewrite wrap_small by (unfold fits; lia). lia.
  - rewrite map_size_insert_None by done. lia.
  - done.
  - rewrite Htb'. rewrite wrap_small by (unfold fits; lia). lia.
Qed.

(** The map after an insertion that leaves an existing entry alone. *)
Definition added a (key : K) (value : V) : gmap K V := match a !! key with Some _ => a | None => <[key := value]> a end.

Definition bucket_growth (m m' : UnorderedMap) : Prop :=
  bucket_count_ m' = bucket_count_ m \/ (~ spare m /\ bucket_count_ m' = grown m).

Lemma good_names m a s f i e : good m a s f -> (i < bucket_count_ m)%nat -> f i = VOcc e -> names m a i e.1.
Proof. intros. by exists s, f, e. Qed.

Lemma table_emplace_wp R m a key value :
  wf m a -> (R -> spare m \/ granted (grown m)) ->
  wp R (emplace m key value) (fun '(m', i, fresh) =>
    names m' (added a key value) i key /\ fresh = bool_decide (a !! key = None) /\
    bucket_growth m m' /\ size_ m' + tombstone_count_ m' <= (size_ m + tombstone_count_ m) + 1 /\
    (tombstone_count_ m = 0 -> tombstone_count_ m' = 0)).
Proof using sizeof_pos.
  intros Hm HR. unfold emplace. eapply wp_seq; [by apply FindOrPrepareInsert_wp|].
  intros [[m1 i] fresh] (s & f & Hg & Hsp & Hbc & Hi).
  assert (Hgrow : bucket_growth m m1) by (destruct Hbc as [->|(? & ? & _)]; [by left|by right]).
  assert (Hused : size_ m1 + tombstone_count_ m1 <= size_ m + tombstone_count_ m).
  { destruct Hbc as [->|(Hns & Eb & Et)]; [lia|]. destruct Hg as [_ _ _ _ _ Hsz Hdom _ _]. rewrite Et, Hsz, <- Hdom.
    destruct Hm as [[-> ->]|(s0 & f0 & [_ _ _ _ _ Hsz0 Hdom0 Htb0 _])]; [rewrite map_size_empty; cbn; lia|lia]. }
  assert (Htomb : tombstone_count_ m = 0 -> tombstone_count_ m1 = 0) by (destruct Hbc as [->|(_ & _ & ->)]; done).
  destruct fresh.
  - destruct Hi as [Hab Hip]. destruct (mark_occupied_good m1 a s f i key value Hg Hsp Hab Hip) as (slot & E & Hg').
    destruct (slot_at m1 i) as [sl| |] eqn:Esl; cbn in E; [|done|done]. cbn [mbind res_bind]. rewrite E. cbn [mbind res_bind].
    pose proof (content_absent _ f a key (good_content _ _ _ _ Hg) Hab) as Hk. unfold added. rewrite Hk. cbn -[MarkOccupied].
    split; [eexists _, _, (key, value); split; [exact Hg'|]; split; [apply Hip|]; split; [unfold vupd; by rewrite decide_True|done]|].
    split; [done|]. split; [done|]. pose proof (good_size _ _ _ _ Hg') as H1. pose proof (good_size _ _ _ _ Hg) as H2.
    pose proof (good_tombs _ _ _ _ Hg') as H3. pose proof (good_tombs _ _ _ _ Hg) as H4. cbn [bucket_count_ MarkOccupied] in H1, H3.
    destruct Hip as (Hi & Hno & _). pose proof (cnt_upd is_occ _ f i (VOcc (key, value)) Hi) as Hco.
    pose proof (cnt_upd is_del _ f i (VOcc (key, value)) Hi) as Hcd. rewrite Hno in Hco. cbn in Hco, Hcd.
    split; [lia|]. intros H0. specialize (Htomb H0). lia.
  - destruct Hi as (Hi & e & Ef & <-). unfold added.
    rewrite (table_content_lookup _ f a i e (good_content _ _ _ _ Hg) Hi Ef). cbn. split; [by eapply good_names|]. split; [done|]. split; [done|]. split; [lia|done].
Qed.

Lemma FindSlot_wp m a key : wf m a -> exists r, FindSlot m key = Ok r /\ match r with Some i => names m a i key | None => a !! key = None end.
Proof.
  intros [[-> ->]|(s & f & Hg)]; unfold FindSlot; [by exists None|].
  destruct (Hg) as [Es Hh Hp Ht Hct Hsz Hdom Htb Hld]. pose proof (pow2_bounds _ Hp). rewrite (proj2 (Nat.eqb_neq _ _)) by lia.
  rewrite Es, (ring_start _ key) by done.
  destruct (table_find_loop_ok s _ f key 0 (bucket_count_ m) Hh Hp Ht) as (r & -> & Hr); [lia|lia|lia|]. exists r. split; [done|].
  destruct r as [i|]; [destruct Hr as (Hi & e & Ef & Ek); by exists s, f, e|by eapply content_absent].
Qed.

Lemma contains_ok m a key : wf m a -> contains m key = Ok (bool_decide (is_Some (a !! key))).
Proof.
  intros Hm. unfold contains. destruct (FindSlot_wp m a key Hm) as (r & -> & Hr). cbn. f_equal. destruct r as [i|].
  - destruct (names_value m a i key Hr) as (v & -> & _). by rewrite bool_decide_eq_true_2.
  - rewrite Hr. rewrite bool_decide_eq_false_2; [done|]. by intros [v E].
Qed.

Lemma assign_at_ok m a i key value : names m a i key -> exists m', assign_at m i value = Ok m' /\ wf m' (<[key := value]> a) /\
  bucket_count_ m' = bucket_count_ m /\ size_ m' = size_ m /\ tombstone_count_ m' = tombstone_count_ m.
Proof.
  intros (s & f & e & Hg & Hi & Ef & <-). unfold assign_at. rewrite (slot_at_good m a s f i Hg Hi), Ef. cbn.
  eexists. split; [done|]. split; [|done]. right. exists (<[i := enc (VOcc (e.1, value))]> s), (vupd f i (VOcc (e.1, value))).
  pose proof (table_content_lookup _ f a i e (good_content _ _ _ _ Hg) Hi Ef) as Hk.
  destruct Hg as [Es Hh Hp Ht Hct Hsz Hdom Htb Hld].
  pose proof (cnt_upd is_occ _ f i (VOcc (e.1, value)) Hi) as Hco. pose proof (cnt_upd is_del _ f i (VOcc (e.1, value)) Hi) as Hcd.
  rewrite Ef in Hco, Hcd. cbn in Hco, Hcd. split; cbn; try done.
  - by rewrite Es.
  - by apply (holds_upd s _ f i (VOcc (e.1, value))).
  - by apply table_set.
  - by eapply content_set.
  - lia.
  - rewrite map_size_insert_Some by done. lia.
  - lia.
Qed.

Lemma table_erase_ok m a key : wf m a -> exists m', erase m key = Ok (m', bool_decide (is_Some (a !! key))) /\ wf m' (delete key a) /\
  bucket_count_ m' = bucket_count_ m /\ size_ m' + tombstone_count_ m' = size_ m + tombstone_count_ m /\ (a !! key = None -> m' = m).
Proof.
  intros Hm. unfold erase. destruct (FindSlot_wp m a key Hm) as (r & -> & Hr). cbn. destruct r as [i|].
  - destruct (names_value m a i key Hr) as (v & Hv & _). rewrite Hv. rewrite bool_decide_eq_true_2 by done.
    destruct Hr as (s & f & e & Hg & Hi & Ef & Ek). rewrite (slot_at_good m a s f i Hg Hi), Ef. cbn.
    destruct Hg as [Es Hh Hp Ht Hct Hsz Hdom Htb Hld]. pose proof (pow2_bounds _ Hp). pose proof (threshold_lt _ Hp).
    pose proof (cnt_upd is_occ _ f i VDel Hi) as Hco. pose proof (cnt_upd is_del _ f i VDel Hi) as Hcd.
    rewrite Ef in Hco, Hcd. cbn in Hco, Hcd.
    eexists. split; [done|]. cbn. rewrite !wrap_small by (unfold fits; lia). split; [|split; [done|split; [lia|done]]].
    right. exists (<[i := enc VDel]> s), (vupd f i VDel). split; cbn; try done.
    + by rewrite Es.
    + by apply (holds_upd s _ f i VDel).
    + by eapply table_delete.
    + rewrite <- Ek. by eapply table_content_delete.
    + lia.
    + rewrite map_size_delete, Hv. cbn. lia.
    + lia.
    + lia.
  - rewrite Hr. rewrite bool_decide_eq_false_2 by (by intros [? ?]). eexists. split; [done|]. rewrite delete_id by done. done.
Qed.

(** ** Whole maps *)

Definition cleared (x : vslot) : vslot := match x with VOcc _ => VEmpty | x => x end.

Lemma clear_loop_ok s n f : holds s n f -> exists s',
  for_loop 0 n (fun i s => slot ← get_slot s i; slot ← DestroySlot slot; Ok (<[i := slot]> s)) s = Ok s' /\
  holds s' n (fun j => cleared (f j)).
Proof.
  intros Hs. pose (P := fun (i : nat) (s : list Slot) => holds s n (fun j => if decide (j < i)%nat then cleared (f j) else f j)).
  destruct (for_loop_inv P (fun i s => slot ← get_slot s i; slot ← DestroySlot slot; Ok (<[i := slot]> s)) 0 n s)
    as (s' & E & [Hl H]); unfold P in *.
  - done.
  - intros i s1 Hi Hs1. rewrite (holds_get s1 n _ i Hs1) by lia. rewrite decide_False by lia. rewrite res_bind_ok.
    assert (Hd : DestroySlot (enc (f i)) = Ok (enc (cleared (f i)))) by (by destruct (f i)).
    rewrite Hd, res_bind_ok. eexists. split; [done|]. destruct (holds_upd s1 n _ i (cleared (f i)) Hs1) as [Hl H]; [lia|].
    split; [done|]. intros j Hj. rewrite H by done. unfold vupd. repeat case_decide; subst; done || lia.
  - exists s'. split; [done|]. split; [done|]. intros j Hj. rewrite H by done. by rewrite decide_True by lia.
Qed.

Lemma destroy_ok m a : wf m a -> destroy m = Ok ().
Proof.
  intros [[-> ->]|(s & f & Hg)]; [done|]. destruct Hg as [Es Hh _ _ _ _ _ _ _]. unfold destroy, clear. rewrite Es.
  destruct (clear_loop_ok s (bucket_count_ m) f Hh) as (s' & -> & [Hl Hs']). cbn [mbind res_bind slots_ bucket_count_].
  apply FreeSlots_ok; [done|]. intros j x Hx. pose proof (lookup_lt_Some _ _ _ Hx). rewrite Hs' in Hx by lia.
  injection Hx as <-. by destruct (f j).
Qed.

(** [clear] forgets the tombstones it leaves behind, so the table stays well formed only
    when there are none. *)
Lemma table_clear_ok m a : wf m a -> tombstone_count_ m = 0 -> exists m', clear m = Ok m' /\ wf m' ∅ /\ bucket_count_ m' = bucket_count_ m /\
  size_ m' = 0 /\ tombstone_count_ m' = 0.
Proof.
  intros [[-> ->]|(s & f & Hg)] Ht0; [eexists; split; [done|]; split; [by left|done]|].
  destruct Hg as [Es Hh Hp Ht Hct Hsz Hdom Htb Hld]. unfold clear. rewrite Es.
  destruct (clear_loop_ok s (bucket_count_ m) f Hh) as (s' & -> & Hs'). cbn [mbind res_bind].
  eexists. split; [done|]. split; [|done]. right. exists s', (fun _ => VEmpty).
  apply good_fresh; rewrite ?cnt_empty by done;
    [|done|by apply table_empty| |by rewrite map_size_empty|done|done|pose proof (threshold_lt _ Hp); lia].
  - destruct Hs' as [Hl Hs']. split; [done|]. intros j Hj. rewrite Hs' by done.
    assert (is_del (f j) = false) by (eapply cnt_zero; [|done]; lia). by destruct (f j).
  - intros k v. rewrite lookup_empty. split; [done|]. by intros (j & _ & E).
Qed.

Lemma copy_construct_wp R m a :
  wf m a -> (R -> granted (bucket_count_ m)) ->
  wp R (copy_construct m) (fun m' => wf m' a /\ (bucket_count_ m' <= bucket_count_ m)%nat /\
    size_ m' + tombstone_count_ m' <= size_ m + tombstone_count_ m).
Proof using sizeof_pos.
  intros [[-> ->]|(s & f & Hg)] HR; [cbn; split; [by left|lia]|]. unfold copy_construct.
  destruct (Hg) as [Es Hh Hp Ht Hct Hsz Hdom Htb Hld]. pose proof (pow2_bounds _ Hp). pose proof (threshold_lt _ Hp).
  destruct (Z.ltb_spec 0 (size_ m)) as [Hpos|Hzero].
  - eapply wp_seq; [apply AllocSlots_wp; [unfold mem_size_max; lia|done]|]. intros ns ->. rewrite Es.
    destruct (copy_entries_ok f (bucket_count_ m) _ s Hh (holds_alloc _) Hp Ht) as (s' & g & -> & Hs' & Hr); [lia|].
    cbn. split; [|lia]. right. exists s', g. destruct Hr as [Ht' Hsame Hocc Hdel].
    apply good_fresh; try done; [|congruence|congruence|lia]. by eapply content_rebuilt.
  - cbn. split; [|lia]. left. split; [done|]. apply map_size_empty_inv. lia.
Qed.

Lemma table_reserve_wp R m a n :
  wf m a -> 0 <= n <= mem_size_max -> (R -> forall c, Z.of_nat c <= Z.max 16 (4 * n) -> granted c) ->
  wp R (reserve m n) (fun m' => wf m' a /\ (bucket_count_ m' = bucket_count_ m \/ Z.of_nat (bucket_count_ m') <= Z.max 16 (4 * n)) /\
    size_ m' + tombstone_count_ m' <= size_ m + tombstone_count_ m /\ n + 1 <= threshold (bucket_count_ m')).
Proof using sizeof_pos.
  intros Hm Hn HR. unfold reserve.
  assert (Hsucc : R -> 4 * n <= mem_size_max).
  { intros r. destruct (Z_le_gt_dec (4 * n) mem_size_max) as [?|Hgt]; [done|].
    specialize (HR r (Z.to_nat (mem_size_max + 1)) ltac:(lia)). apply granted_le in HR; [lia|done]. }
  unfold CheckedCountProduct, CheckedAllocationSize. rewrite TryAllocationSize_exact by lia.
  destruct (Z.leb_spec (n * 4) mem_size_max) as [H4|H4]; [|cbn; intros r; specialize (Hsucc r); lia]. rewrite res_bind_ok.
  set (q := n * 4 / 3). assert (Hq : 0 <= q /\ 3 * q <= n * 4) by (unfold q; split; [apply Z.div_pos; lia|apply Z.mul_div_le; lia]).
  assert (Hq3 : n * 4 < 3 * (q + 1)) by (unfold q; pose proof (Z.mul_succ_div_gt (n * 4) 3 ltac:(lia)); lia).
  rewrite CheckedCountSum_exact by (unfold mem_size_max in *; lia). rewrite (proj2 (Z.leb_le _ _)) by (unfold mem_size_max in *; lia). rewrite res_bind_ok.
  destruct (round_up_loop_spec 0 65 (q + 1)) as (r & Er & Hr); [lia|lia|unfold mem_size_max in *; lia|by left|].
  unfold CheckedRoundUpToPowerOfTwo. change (2 ^ Z.of_nat 0) with 1 in Er. rewrite Er. cbn [ended].
  destruct r as [t| |]; [|unfold mem_size_max in *; lia|done]. rewrite res_bind_ok. destruct Hr as (p & Hp & -> & Hle & Hmin).
  set (target := Z.max 16 (2 ^ p)).
  assert (Htp : pow2 (Z.to_nat target)).
  { unfold target. destruct (Z_le_gt_dec p 4).
    - exists 4. assert (2 ^ p <= 2 ^ 4) by (apply Z.pow_le_mono_r; lia). lia.
    - exists p. assert (2 ^ 4 <= 2 ^ p) by (apply Z.pow_le_mono_r; lia). lia. }
  assert (Htb : target <= Z.max 16 (4 * n)).
  { unfold target. destruct Hmin as [->|Hmin]; [change (2 ^ 0) with 1; lia|]. destruct (decide (p = 0)) as [->|]; [change (2 ^ 0) with 1; lia|].
    assert (2 ^ p = 2 * 2 ^ (p - 1)) by (rewrite <- Z.pow_succ_r by lia; f_equal; lia). lia. }
  destruct (Z.ltb_spec (Z.of_nat (bucket_count_ m)) target) as [Hlt|Hge]; [|].
  2:{ cbn. split; [done|]. split; [by left|]. split; [lia|]. destruct Hm as [[-> _]|(s & f & Hg)]; [cbn in Hge; lia|].
      pose proof (threshold_lt _ (good_pow2 _ _ _ _ Hg)). lia. }
  assert (Enew : new_count m target = target) by (unfold new_count; by rewrite (proj2 (Z.ltb_lt _ _)) by lia).
  eapply wp_mono; [apply (GrowAndRehash_wp R m a target Hm); rewrite ?Enew; [lia|done|lia|]|].
  { intros r. apply HR; [done|lia]. }
  rewrite Enew. intros m' (Eb & Et & s & f & Hg). split; [right; by exists s, f|]. split; [right; lia|].
  pose proof (threshold_lt _ (good_pow2 _ _ _ _ Hg)) as Hth. rewrite Eb in Hth |- * at 1. split; [|lia].
  rewrite Et, (good_size _ _ _ _ Hg), <- (good_dom _ _ _ _ Hg). destruct Hm as [[-> ->]|(s0 & f0 & [_ _ _ _ _ Hsz0 Hdom0 Htb0 _])].
  - rewrite map_size_empty. cbn. lia.
  - lia.
Qed.

(** ** Iteration *)

Definition occupied_entries f (lo n : nat) : list (K * V) :=
  omap (fun j => match f j with VOcc e => Some e | _ => None end) (seq lo n).

Lemma advance_ok s n f fuel i :
  holds s n f -> (i + fuel = n)%nat -> exists j, advance fuel s i = j /\ (i <= j <= n)%nat /\
    (forall k, (i <= k < j)%nat -> is_occ (f k) = false) /\ ((j < n)%nat -> is_occ (f j) = true).
Proof.
  intros [Hl Hs]. revert i. induction fuel as [|fuel IH]; intros i Hi; cbn [advance].
  - exists i. split; [done|]. split; [lia|]. split; lia.
  - rewrite Hs by lia. destruct (is_occ (f i)) eqn:Ei.
    + exists i. destruct (f i); [done|done|]. cbn. split; [done|]. split; [lia|]. split; [lia|done].
    + destruct (IH (S i)) as (j & Ej & Hj & Hno & Hocc); [lia|]. exists j. split; [by destruct (f i)|].
      split; [lia|]. split; [|done]. intros k Hk. destruct (decide (k = i)) as [->|]; [done|]. apply Hno. lia.
Qed.

Lemma occupied_skip f i j : (i <= j)%nat -> (forall k, (i <= k < j)%nat -> is_occ (f k) = false) -> occupied_entries f i (j - i) = [].
Proof.
  intros Hij Hno. unfold occupied_entries. remember (j - i)%nat as d eqn:Ed. revert i Hij Hno Ed. induction d as [|d IH]; intros i Hij Hno Ed; cbn; [done|].
  specialize (Hno i ltac:(lia)) as Hi. rewrite (IH (S i)); [by destruct (f i)|lia| |lia]. intros k Hk. apply Hno. lia.
Qed.

Lemma occupied_app f i j n : (i <= j)%nat -> occupied_entries f i (j - i + n) = occupied_entries f i (j - i) ++ occupied_entries f j n.
Proof. intros Hij. unfold occupied_entries. rewrite seq_app, omap_app. by replace (i + (j - i))%nat with j by lia. Qed.

Lemma iterate_ok s n f fuel i : holds s n f -> (i <= n)%nat -> (n - i < fuel)%nat -> iterate fuel s n i = Ok (occupied_entries f i (n - i)).
Proof.
  intros Hs. revert i. induction fuel as [|fuel IH]; intros i Hi Hf; [lia|]. cbn [iterate].
  destruct (advance_ok s n f (n - i) i Hs) as (j & -> & Hj & Hno & Hocc); [lia|].
  replace (n - i)%nat with (j - i + (n - j))%nat by lia. rewrite occupied_app, (occupied_skip f i j) by (done || lia). cbn [app].
  destruct (Nat.eqb_spec j n) as [->|Hjn]; [by rewrite Nat.sub_diag|].
  rewrite (holds_get s n f j Hs) by lia. rewrite res_bind_ok. specialize (Hocc ltac:(lia)).
  destruct (f j) as [| |e] eqn:Ef; [done|done|]. cbn [slot_entry storage enc]. rewrite res_bind_ok, IH by lia. cbn.
  replace (n - j)%nat with (S (n - S j)) by lia. unfold occupied_entries. cbn. by rewrite Ef.
Qed.

Lemma occupied_elem f n e : e ∈ occupied_entries f 0 n <-> stored n f e.
Proof.
  unfold occupied_entries. rewrite list_elem_of_omap. split.
  - intros (j & Hj & E). apply elem_of_seq in Hj. exists j. split; [lia|]. destruct (f j); congruence.
  - intros (j & Hj & E). exists j. split; [apply elem_of_seq; lia|]. by rewrite E.
Qed.

Lemma occupied_NoDup f n : table n f -> NoDup (occupied_entries f 0 n).
Proof.
  intros Ht. assert (H : forall d i, (i + d <= n)%nat -> NoDup (occupied_entries f i d)); [|apply H; lia].
  induction d as [|d IH]; intros i Hi; unfold occupied_entries; cbn; [constructor|]. destruct (f i) as [| |e] eqn:Ef; [apply IH; lia|apply IH; lia|].
  constructor; [|apply IH; lia]. rewrite list_elem_of_omap. intros (j & Hj & E). apply elem_of_seq in Hj. destruct (f j) eqn:Ej; try done.
  injection E as ->. assert (i = j) by (eapply (table_uniq n f Ht i j); [lia|lia|done|done|done]). lia.
Qed.

(** Iteration yields every entry of the map exactly once, and [ForEach] the same. *)
Lemma entries_ok m a : wf m a -> exists es, entries m = Ok es /\ es ≡ₚ map_to_list a /\ ForEach m = Ok es.
Proof.
  intros [[-> ->]|(s & f & Hg)]; [exists []; by rewrite map_to_list_empty|].
  destruct Hg as [Es Hh Hp Ht Hct Hsz Hdom Htb Hld]. set (n := bucket_count_ m) in *.
  exists (occupied_entries f 0 n). split; [|split].
  - unfold entries. rewrite Es. rewrite (iterate_ok s n f) by (done || lia). by rewrite Nat.sub_0_r.
  - apply NoDup_Permutation; [by apply occupied_NoDup|apply NoDup_map_to_list|]. intros [k v]. rewrite elem_of_map_to_list, occupied_elem. symmetry. apply Hct.
  - unfold ForEach. rewrite Es. fold n.
    pose (P := fun (i : nat) (es : list (K * V)) => es = occupied_entries f 0 i).
    destruct (for_loop_inv P (fun i es => slot ← get_slot s i; if state slot =? kOccupied then e ← slot_entry slot; Ok (es ++ [e]) else Ok es) 0 n [])
      as (es & -> & ->); unfold P; [done| |done].
    intros i es Hi ->. rewrite (holds_get s n f i Hh) by lia. rewrite res_bind_ok.
    assert (E : occupied_entries f 0 (S i) = occupied_entries f 0 i ++ occupied_entries f i 1).
    { pose proof (occupied_app f 0 i 1 ltac:(lia)) as E. rewrite Nat.sub_0_r in E. rewrite <- E. f_equal. lia. }
    rewrite E. unfold occupied_entries at 2. cbn [seq omap list_omap].
    destruct (f i) as [| |e] eqn:Ef; cbn; eexists; (split; [done|]); unfold occupied_entries; cbn; rewrite Ef; by rewrite ?app_nil_r.
Qed.

End UnorderedMap.
