(* ===== verification/UnorderedMapSpec.v ===== *)
(** * The contract of base::UnorderedMap: a finite map

    Programs over a table refine programs over a [gmap].  Beside the entries the
    abstract state counts the insertions made, which bounds the buckets the table
    may ever ask for, and remembers whether an erase may have left tombstones:
    [clear] is specified only when none are left, and the last theorem shows why. *)

From stdpp Require Import gmap.
From S2P Require Import Prelude Memory Refine UnorderedMap.

Set Default Proof Using "Type".

Section Programs.

Context {K V : Type} {eqK : EqDecision K} {countK : Countable K}.
Context (hasher_ : K -> Z) (dflt : V) (sizeof_Slot : Z) (allocates : Z -> bool).

Inductive op :=
  | Insert (key : K) (value : V)
  | Subscript (key : K)
  | SubscriptAssign (key : K) (value : V)
  | Find (key : K)
  | FindAssign (key : K) (value : V)
  | At (key : K)
  | Contains (key : K)
  | CountKey (key : K)
  | Erase (key : K)
  | Clear
  | Reserve (n : Z)
  | Size
  | IsEmpty
  | CopyOf  (** [UnorderedMap c(m)]; [m] is destroyed and [c] goes on *)
  | CopyFrom (entries : list (K * V))  (** [m = other] for an [other] made from a list *)
  | MoveFrom (entries : list (K * V))  (** [m = move(other)] *).

Inductive out := Done | Flag (b : bool) | Elem (v : V) | Found (v : option V) | Added (v : V) (fresh : bool) | Count (n : Z).

Abbreviation emplace := (emplace hasher_ sizeof_Slot allocates).
Abbreviation from_list := (from_list hasher_ sizeof_Slot allocates).

Definition run_op (o : op) (m : UnorderedMap) : res (UnorderedMap * out) :=
  match o with
  | Insert key value => '(m, i, fresh) ← emplace m key value; v ← value_at m i; Ok (m, Added v fresh)
  | Subscript key => '(m, i) ← subscript hasher_ dflt sizeof_Slot allocates m key; v ← value_at m i; Ok (m, Elem v)
  | SubscriptAssign key value =>
    '(m, i) ← subscript hasher_ dflt sizeof_Slot allocates m key; m ← assign_at m i value; Ok (m, Done)
  | Find key => i ← find hasher_ m key; match i with None => Ok (m, Found None) | Some i => v ← value_at m i; Ok (m, Found (Some v)) end
  | FindAssign key value => i ← find hasher_ m key; match i with None => Ok (m, Flag false) | Some i => m ← assign_at m i value; Ok (m, Flag true) end
  | At key => v ← at_ hasher_ m key; Ok (m, Elem v)
  | Contains key => b ← contains hasher_ m key; Ok (m, Flag b)
  | CountKey key => n ← count hasher_ m key; Ok (m, Count n)
  | Erase key => '(m, b) ← erase hasher_ m key; Ok (m, Flag b)
  | Clear => m ← clear m; Ok (m, Done)
  | Reserve n => m ← reserve hasher_ sizeof_Slot allocates m n; Ok (m, Done)
  | Size => Ok (m, Count (size_ m))
  | IsEmpty => Ok (m, Flag (size_ m =? 0))
  | CopyOf => c ← copy_construct hasher_ sizeof_Slot allocates m; _ ← destroy m; Ok (c, Done)
  | CopyFrom es => other ← from_list es; m ← copy_assign hasher_ sizeof_Slot allocates m other; _ ← destroy other; Ok (m, Done)
  | MoveFrom es => other ← from_list es; '(m, other) ← move_assign m other; _ ← destroy other; Ok (m, Done)
  end.

(** ** Specification *)

Record Abs := mkAbs { content_of : gmap K V; dirty : bool; inserts : nat; limit : nat }.

Definition with_insert (a : Abs) (c : gmap K V) : Abs :=
  mkAbs c (dirty a) (inserts a + 1) (Nat.max (limit a) (Nat.max 16 (4 * (inserts a + 1)))).

Definition insert_all (c : gmap K V) (es : list (K * V)) : gmap K V := fold_left (fun c e => added c e.1 e.2) es c.

Definition from_abs (es : list (K * V)) : Abs := mkAbs (insert_all ∅ es) false (length es) (Nat.max 16 (4 * length es)).

Definition spec_op (o : op) (a : Abs) : option (Abs * out) :=
  let c := content_of a in
  match o with
  | Insert key value => Some (with_insert a (added c key value), Added (default value (c !! key)) (bool_decide (c !! key = None)))
  | Subscript key => Some (with_insert a (added c key dflt), Elem (default dflt (c !! key)))
  | SubscriptAssign key value => Some (with_insert a (<[key := value]> c), Done)
  | Find key => Some (a, Found (c !! key))
  | FindAssign key value =>
    Some (match c !! key with
          | None => (a, Flag false)
          | Some _ => (mkAbs (<[key := value]> c) (dirty a) (inserts a) (limit a), Flag true)
          end)
  | At key => v ← c !! key; Some (a, Elem v)
  | Contains key => Some (a, Flag (bool_decide (is_Some (c !! key))))
  | CountKey key => Some (a, Count (if decide (is_Some (c !! key)) then 1 else 0))
  | Erase key => Some (mkAbs (delete key c) (dirty a || bool_decide (is_Some (c !! key))) (inserts a) (limit a), Flag (bool_decide (is_Some (c !! key))))
  | Clear => if dirty a then None else Some (mkAbs ∅ false 0 (limit a), Done)
  | Reserve n => if decide (0 <= n <= mem_size_max) then Some (mkAbs c (dirty a) (inserts a) (Nat.max (limit a) (Nat.max 16 (4 * Z.to_nat n))), Done) else None
  | Size => Some (a, Count (Z.of_nat (base.size c)))
  | IsEmpty => Some (a, Flag (bool_decide (c = ∅)))
  | CopyOf => Some (a, Done)
  | CopyFrom es | MoveFrom es => if decide (Z.of_nat (length es) <= mem_size_max) then Some (from_abs es, Done) else None
  end.

Definition need_op (o : op) (a : Abs) : Prop :=
  match o with
  | Insert _ _ | Subscript _ | SubscriptAssign _ _ => roomy sizeof_Slot allocates (Nat.max 16 (4 * (inserts a + 1)))
  | Reserve n => roomy sizeof_Slot allocates (Nat.max 16 (4 * Z.to_nat n))
  | CopyOf => roomy sizeof_Slot allocates (limit a)
  | CopyFrom es | MoveFrom es => roomy sizeof_Slot allocates (Nat.max 16 (4 * length es))
  | _ => True
  end.

(** ** Refinement *)

Record rel (m : UnorderedMap) (a : Abs) : Prop := {
  rel_wf : wf hasher_ m (content_of a);
  rel_tombs : dirty a = false -> tombstone_count_ m = 0;
  rel_used : size_ m + tombstone_count_ m <= Z.of_nat (inserts a);
  rel_limit : (bucket_count_ m <= limit a)%nat;
}.

Hypothesis sizeof_pos : 0 < sizeof_Slot.

Lemma table_rel_start : rel empty_map (mkAbs ∅ false 0 0).
Proof. split; [by left|done|done|done]. Qed.

Lemma table_emplace_rel R m a key value :
  rel m a -> (R -> roomy sizeof_Slot allocates (Nat.max 16 (4 * (inserts a + 1)))) ->
  wp R (emplace m key value) (fun '(m', i, fresh) =>
    rel m' (with_insert a (added (content_of a) key value)) /\ names hasher_ m' (added (content_of a) key value) i key /\
    fresh = bool_decide (content_of a !! key = None)).
Proof using sizeof_pos.
  intros [Hw Ht Hu Hl] HR.
  assert (Hgr : ~ spare m -> (grown m <= Nat.max 16 (4 * (inserts a + 1)))%nat).
  { intros Hns. unfold grown, new_count, spare in *. cbn [Z.ltb Z.compare]. destruct (Nat.eqb_spec (bucket_count_ m) 0) as [E|E]; [lia|].
    destruct Hw as [[-> _]|(s & f & Hg)]; [done|]. pose proof (threshold_lt _ (good_pow2 _ _ _ _ _ Hg)). lia. }
  eapply wp_mono.
  - apply (table_emplace_wp hasher_ sizeof_Slot allocates sizeof_pos R m _ key value Hw). intros r.
    assert (D : spare m \/ ~ spare m) by (unfold spare; lia). destruct D as [D|D]; [by left|]. right. apply HR; [done|auto].
  - intros [[m' i] fresh] (Hn & -> & Hg & Hu' & Ht'). split; [|done]. split; cbn.
    + destruct Hn as (s & f & e & Hgd & _). right. by exists s, f.
    + auto.
    + lia.
    + destruct Hg as [->|[Hns ->]]; [lia|]. specialize (Hgr Hns). lia.
Qed.

Lemma added_lookup (c : gmap K V) key (value : V) : added c key value !! key = Some (default value (c !! key)).
Proof. unfold added. destruct (c !! key) as [v|] eqn:E; [by rewrite E|]. by rewrite lookup_insert_eq. Qed.

Lemma added_insert (c : gmap K V) key (value value' : V) : <[key := value']> (added c key value) = <[key := value']> c.
Proof. unfold added. destruct (c !! key); [done|]. by rewrite insert_insert_eq. Qed.

Lemma rel_added m a key (value : V) i :
  rel m (with_insert a (added (content_of a) key value)) -> names hasher_ m (added (content_of a) key value) i key ->
  value_at m i = Ok (default value (content_of a !! key)).
Proof.
  intros _ Hn. destruct (names_value _ _ _ _ _ Hn) as (v & E & ->). rewrite added_lookup in E. by injection E as ->.
Qed.

Lemma emplace_all_rel R es m a N :
  rel m a -> (inserts a + length es <= N)%nat -> (limit a <= Nat.max 16 (4 * N))%nat -> dirty a = false ->
  (R -> roomy sizeof_Slot allocates (Nat.max 16 (4 * N))) ->
  wp R (emplace_all hasher_ sizeof_Slot allocates m es)
    (fun m' => rel m' (mkAbs (insert_all (content_of a) es) false N (Nat.max 16 (4 * N)))).
Proof using sizeof_pos.
  intros Hm HN Hlim Hd HR. unfold emplace_all, insert_all.
  assert (H : forall es mm a, wp R mm (fun m => rel m a) -> (inserts a + length es <= N)%nat -> (limit a <= Nat.max 16 (4 * N))%nat -> dirty a = false ->
    wp R (fold_left (fun m e => m ← m; '(m, _, _) ← emplace m e.1 e.2; Ok m) es mm)
      (fun m' => rel m' (mkAbs (fold_left (fun c e => added c e.1 e.2) es (content_of a)) false N (Nat.max 16 (4 * N))))).
  { clear es m a Hm HN Hlim Hd. induction es as [|e es IH]; intros mm a Hm HN Hlim Hd; cbn [fold_left].
    - eapply wp_mono; [exact Hm|]. intros m [Hw Ht Hu Hl]. cbn in HN. split; cbn; [done|auto|lia|lia].
    - apply (IH _ (with_insert a (added (content_of a) e.1 e.2))); cbn in *; [|lia|lia|done].
      eapply wp_seq; [exact Hm|]. intros m Hr. eapply wp_seq; [apply (table_emplace_rel R m a e.1 e.2); [exact Hr|]|].
      + intros r. eapply roomy_le; [|by apply HR]. cbn. lia.
      + intros [[m' i] fresh] (Hr' & _ & _). exact Hr'. }
  by apply (H es (Ok m) a).
Qed.

Lemma from_list_rel R es :
  Z.of_nat (length es) <= mem_size_max -> (R -> roomy sizeof_Slot allocates (Nat.max 16 (4 * length es))) ->
  wp R (from_list es) (fun m => rel m (from_abs es)).
Proof using sizeof_pos.
  intros Hlen HR. unfold UnorderedMap.from_list. eapply wp_seq.
  - apply (table_reserve_wp hasher_ sizeof_Slot allocates sizeof_pos R empty_map ∅ (Z.of_nat (length es))); [by left|lia|].
    intros r c Hc. apply HR; [done|lia].
  - intros m (Hw & Hb & Hu & _).
    apply (emplace_all_rel R es m (mkAbs ∅ false 0 (Nat.max 16 (4 * length es))) (length es)); cbn; [|lia|lia|done|done].
    assert (0 <= size_ m /\ 0 <= tombstone_count_ m).
    { destruct Hw as [[-> _]|(s & f & [_ _ _ _ _ Hsz _ Htb _])]; cbn; lia. }
    cbn in Hu, Hb. split; cbn; [done|lia|lia|lia].
Qed.

Lemma rel_destroy m a : rel m a -> destroy m = Ok ().
Proof. intros [Hw _ _ _]. by eapply destroy_ok. Qed.

Lemma wf_limit (m : UnorderedMap) (c : gmap K V) : wf hasher_ m c -> 0 <= size_ m /\ 0 <= tombstone_count_ m /\ size_ m = Z.of_nat (base.size c).
Proof.
  intros [[-> ->]|(s & f & [_ _ _ _ _ Hsz Hdom Htb _])]; cbn; [by rewrite map_size_empty|]. rewrite Hdom. lia.
Qed.

Definition post (a : Abs) (r : out) (p : UnorderedMap * out) : Prop := rel p.1 a /\ p.2 = r.

Lemma table_insert_refines R o m a a' r :
  match o with Insert _ _ | Subscript _ | SubscriptAssign _ _ => True | _ => False end ->
  rel m a -> spec_op o a = Some (a', r) -> (R -> need_op o a) -> wp R (run_op o m) (post a' r).
Proof using sizeof_pos.
  intros Ho Hr Hs HR. destruct o; try done; cbn [spec_op need_op run_op] in *; injection Hs as <- <-.
  - eapply wp_seq; [by apply table_emplace_rel|]. intros [[m' i] fresh] (Hr' & Hn & ->). by rewrite (rel_added m' a key value i).
  - unfold subscript. pose proof (table_emplace_rel R m a key dflt Hr HR) as Hw.
    destruct (emplace m key dflt) as [[[m' i] fresh]| |]; cbn in Hw |- *; [|done|done]. destruct Hw as (Hr' & Hn & _).
    by rewrite (rel_added m' a key dflt i).
  - unfold subscript. pose proof (table_emplace_rel R m a key dflt Hr HR) as Hw.
    destruct (emplace m key dflt) as [[[m' i] fresh]| |]; cbn in Hw |- *; [|done|done]. destruct Hw as ([_ Ht' Hu' Hl'] & Hn & _).
    destruct (assign_at_ok hasher_ m' _ i key value Hn) as (m2 & -> & Hw2 & Hb2 & Hs2 & Ht2). cbn. rewrite added_insert in Hw2.
    split; [|done]. cbn in *. split; cbn; [done|rewrite Ht2; done|lia|lia].
Qed.

Lemma table_lookup_refines R o m a a' r :
  match o with Find _ | FindAssign _ _ | At _ | Contains _ | CountKey _ | Size | IsEmpty => True | _ => False end ->
  rel m a -> spec_op o a = Some (a', r) -> wp R (run_op o m) (post a' r).
Proof.
  intros Ho Hr Hs. pose proof (rel_wf m a Hr) as Hw. destruct o; try done; cbn [spec_op run_op] in *.
  - injection Hs as <- <-. unfold find. destruct (FindSlot_wp hasher_ m _ key Hw) as (i & -> & Hi). cbn. destruct i as [i|].
    + destruct (names_value _ _ _ _ _ Hi) as (v & -> & ->). done.
    + by rewrite Hi.
  - unfold find. destruct (FindSlot_wp hasher_ m _ key Hw) as (i & -> & Hi). cbn. destruct i as [i|].
    + destruct (names_value _ _ _ _ _ Hi) as (v & E & _). rewrite E in Hs. injection Hs as <- <-.
      destruct (assign_at_ok hasher_ m _ i key value Hi) as (m2 & -> & Hw2 & Hb2 & Hs2 & Ht2). cbn.
      destruct Hr as [_ Ht Hu Hl]. split; [|done]. split; cbn; [done|rewrite Ht2; done|lia|lia].
    + rewrite Hi in Hs. injection Hs as <- <-. done.
  - destruct (content_of a !! key) as [v|] eqn:E; [|done]. injection Hs as <- <-. unfold at_, find.
    destruct (FindSlot_wp hasher_ m _ key Hw) as (i & -> & Hi). cbn. destruct i as [i|]; [|congruence].
    destruct (names_value _ _ _ _ _ Hi) as (w & E' & ->). rewrite E' in E. by injection E as ->.
  - injection Hs as <- <-. by rewrite (contains_ok hasher_ m _ key Hw).
  - injection Hs as <- <-. unfold count. rewrite (contains_ok hasher_ m _ key Hw). cbn. case_bool_decide; by case_decide.
  - injection Hs as <- <-. destruct (wf_limit m _ Hw) as (_ & _ & E). split; [done|]. cbn. by rewrite E.
  - injection Hs as <- <-. destruct (wf_limit m _ Hw) as (_ & _ & E). split; [done|]. cbn. f_equal. rewrite E. apply bool_eq_iff.
    rewrite Z.eqb_eq, bool_decide_eq_true, <- map_size_empty_iff. lia.
Qed.

#[export] Instance unordered_map_refines : Refines run_op spec_op need_op rel.
Proof using sizeof_pos.
  intros R o m a a' r Hr Hs HR.
  destruct o; try (refine (table_insert_refines R _ m a a' r _ Hr Hs HR); exact I); try (refine (table_lookup_refines R _ m a a' r _ Hr Hs); exact I);
    destruct Hr as [Hw Ht Hu Hl]; cbn [spec_op need_op run_op] in *.
  - injection Hs as <- <-. destruct (table_erase_ok hasher_ m _ key Hw) as (m' & -> & Hw' & Hb' & Hu' & Hsame). cbn. split; [|done].
    split; cbn; [done| |lia|lia]. intros Hd. apply orb_false_iff in Hd as [Hd Hk]. rewrite Hsame; [by apply Ht|].
    apply bool_decide_eq_false in Hk. by apply eq_None_not_Some.
  - destruct (dirty a) eqn:Ed; [done|]. injection Hs as <- <-. destruct (table_clear_ok hasher_ m _ Hw (Ht eq_refl)) as (m' & -> & Hw' & Hb' & Hs' & Ht').
    cbn. split; [|done]. split; cbn; [done|done|lia|lia].
  - case_decide as Hn; [|done]. injection Hs as <- <-. eapply wp_seq; [apply (table_reserve_wp hasher_ sizeof_Slot allocates sizeof_pos R m _ n Hw Hn)|].
    + intros r c Hc. apply HR; [done|lia].
    + intros m' (Hw' & Hb' & Hu' & _). split; [|done]. destruct (wf_limit m' _ Hw') as (? & ? & Es'). destruct (wf_limit m _ Hw) as (? & ? & Es).
      split; cbn; [done| |lia|lia]. intros Hd. specialize (Ht Hd). lia.
  - injection Hs as <- <-. eapply wp_seq; [apply (copy_construct_wp hasher_ sizeof_Slot allocates sizeof_pos R m _ Hw)|].
    + intros r. apply HR; [done|lia].
    + intros c (Hw' & Hb' & Hu'). rewrite (destroy_ok hasher_ m _ Hw). cbn. split; [|done].
      destruct (wf_limit c _ Hw') as (? & ? & Es'). destruct (wf_limit m _ Hw) as (? & ? & Es).
      split; cbn; [done| |lia|lia]. intros Hd. specialize (Ht Hd). lia.
  - case_decide as Hn; [|done]. injection Hs as <- <-. eapply wp_seq; [by apply from_list_rel|]. intros other Hr'.
    unfold copy_assign. rewrite (destroy_ok hasher_ m _ Hw). rewrite res_bind_ok. pose proof (rel_wf _ _ Hr') as Hwo.
    eapply wp_seq; [apply (copy_construct_wp hasher_ sizeof_Slot allocates sizeof_pos R other _ Hwo)|].
    + intros r. apply HR; [done|]. apply Hr'.
    + intros c (Hw' & Hb' & Hu'). rewrite (rel_destroy other _ Hr'). cbn. split; [|done].
      destruct (wf_limit c _ Hw') as (? & ? & Es'). destruct (wf_limit other _ Hwo) as (? & ? & Es). destruct Hr' as [_ Ht' Hu2 Hl2].
      split; cbn in *; [done| |lia|lia]. intros Hd. specialize (Ht' Hd). lia.
  - case_decide as Hn; [|done]. injection Hs as <- <-. eapply wp_seq; [by apply from_list_rel|]. intros other Hr'.
    unfold move_assign. rewrite (destroy_ok hasher_ m _ Hw). cbn. done.
Qed.

(** C10. Every program over a table that the map semantics accepts breaks no lifetime rule
    and no probe of it runs forever; lookups, insertions, subscripts, erasures, copies
    and moves return what the finite map says; at its end iteration and [ForEach] visit
    every entry of the map exactly once and the destructor releases everything.  It
    stops only when an allocation is refused, and never when the buckets that the number
    of insertions allows are granted. *)
Theorem UnorderedMap_programs os a' outs :
  spec_ops spec_op os (mkAbs ∅ false 0 0) = Some (a', outs) ->
  run_ops run_op os empty_map <> Undef /\
  (forall m' outs', run_ops run_op os empty_map = Ok (m', outs') ->
     outs' = outs /\ destroy m' = Ok () /\ exists es, entries m' = Ok es /\ es ≡ₚ map_to_list (content_of a') /\ ForEach m' = Ok es) /\
  (needs spec_op need_op os (mkAbs ∅ false 0 0) -> exists m', run_ops run_op os empty_map = Ok (m', outs)).
Proof using sizeof_pos.
  intros Hs. destruct (programs_refine run_op spec_op need_op rel os empty_map _ a' outs table_rel_start Hs) as (H1 & H2 & H3).
  split; [done|]. split.
  - intros m' outs' E. destruct (H2 m' outs' E) as [Hr ->]. split; [done|]. split; [by eapply rel_destroy|].
    apply (entries_ok hasher_). apply Hr.
  - intros Hn. destruct (H3 Hn) as (m' & E & _). eauto.
Qed.

(** What the comment on [reserve] promises, where it holds: in a table without
    tombstones, after [reserve(n)] the insertions that bring it to [n] entries all
    succeed, in place: the slots are not reallocated, so no pointer into them moves. *)
Theorem UnorderedMap_reserve m c n es m1 :
  wf hasher_ m c -> tombstone_count_ m = 0 -> 0 <= n <= mem_size_max ->
  reserve hasher_ sizeof_Slot allocates m n = Ok m1 -> Z.of_nat (base.size c + length es) <= n ->
  exists m2, emplace_all hasher_ sizeof_Slot allocates m1 es = Ok m2 /\ wf hasher_ m2 (insert_all c es) /\
    bucket_count_ m2 = bucket_count_ m1.
Proof using sizeof_pos.
  intros Hw H0 Hn Er Hlen.
  pose proof (table_reserve_wp hasher_ sizeof_Slot allocates sizeof_pos False m c n Hw Hn (fun f => match f with end)) as Hr.
  rewrite Er in Hr. destruct Hr as (Hw1 & _ & Hu & Hth).
  destruct (wf_limit m c Hw) as (_ & _ & Es). destruct (wf_limit m1 c Hw1) as (_ & Ht1 & Es1).
  assert (Hroom : size_ m1 + tombstone_count_ m1 + Z.of_nat (length es) + 1 <= threshold (bucket_count_ m1)) by lia.
  clear Er Hw H0 Hu Hth Hlen Es Ht1 Es1. unfold emplace_all, insert_all.
  revert m1 c Hw1 Hroom. induction es as [|e es IH]; intros m1 c Hw1 Hroom; cbn [fold_left]; [eauto|].
  cbn [length] in Hroom. assert (Hsp : spare m1) by (unfold spare; lia).
  pose proof (table_emplace_wp hasher_ sizeof_Slot allocates sizeof_pos True m1 c e.1 e.2 Hw1 (fun _ => or_introl Hsp)) as He.
  rewrite res_bind_ok. destruct (emplace m1 e.1 e.2) as [[[m' i] fresh]| |]; cbn in He; [|by destruct He|done].
  destruct He as (Hnm & _ & Hg & Hu & _). cbn [mbind res_bind]. destruct Hg as [Eb|[? _]]; [|done].
  assert (Hw' : wf hasher_ m' (added c e.1 e.2)) by (destruct Hnm as (s & f & x & Hgd & _); right; by exists s, f).
  destruct (IH m' _ Hw') as (m2 & E2 & Hw2 & Eb2); [rewrite Eb; lia|]. exists m2. split; [done|]. split; [done|congruence].
Qed.

End Programs.

(** Keys that collide, with erasures and tombstones reused. *)
Definition example_hash (key : Z) : Z := key / 10.

Definition example_ops : list (@op Z Z) :=
  [Insert 1 100; Insert 2 200; Insert 1 300; Erase 1; Find 2; Insert 12 400; Subscript 7; SubscriptAssign 7 5; At 7; CountKey 1;
   Insert 1 500; CopyOf; FindAssign 2 0; Size; Contains 13].

Definition example_outs : list (@out Z) :=
  [Added 100 true; Added 200 true; Added 100 false; Flag true; Found (Some 200); Added 400 true; Elem 0; Done; Elem 5; Count 0;
   Added 500 true; Done; Flag true; Count 4; Flag false].

Lemma UnorderedMap_programs_witness :
  exists m', run_ops (run_op example_hash 0 24 (fun bytes => bytes <=? 4096)) example_ops empty_map = Ok (m', example_outs).
Proof.
  eapply (UnorderedMap_programs example_hash 0 24 (fun bytes => bytes <=? 4096) ltac:(lia) example_ops _ example_outs).
  - vm_compute. reflexivity.
  - assert (H : forall n, (n <= 64)%nat -> roomy 24 (fun bytes => bytes <=? 4096) n).
    { intros n Hn k Hk. split; [unfold mem_size_max; lia|apply Z.leb_le; lia]. }
    unfold example_ops. repeat (cbn [needs need_op]; split; [first [exact I|apply H; cbn; lia]|];
      match goal with |- context [spec_op ?d ?o ?a] => let s := eval vm_compute in (spec_op d o a) in change (spec_op d o a) with s end).
    exact I.
Defined.

Definition identity_hash (key : Z) : Z := key.

Lemma UnorderedMap_reserve_witness :
  exists m1 m2, reserve identity_hash 24 (fun _ => true) empty_map 13 = Ok m1 /\
    emplace_all identity_hash 24 (fun _ => true) m1 [(1, 0); (33, 0); (65, 1); (2, 2)] = Ok m2 /\ bucket_count_ m2 = bucket_count_ m1.
Proof.
  destruct (UnorderedMap_reserve identity_hash 24 (fun _ => true) ltac:(lia) empty_map ∅ 13 [(1, 0); (33, 0); (65, 1); (2, 2)]
    (mkMap (Some (replicate 32 (mkSlot kEmpty Raw))) 32 0 0)) as (m2 & E & _ & Eb).
  - by left.
  - done.
  - unfold mem_size_max. lia.
  - reflexivity.
  - vm_compute. discriminate.
  - exists (mkMap (Some (replicate 32 (mkSlot kEmpty Raw))) 32 0 0), m2. split; [reflexivity|]. split; [exact E|exact Eb].
Defined.

(** With tombstones left the promise fails: the reservation for eleven entries is
    granted in place, and the second insertion after it rehashes. *)
Theorem UnorderedMap_reserve_after_erase :
  let start := ((fun k => Insert k 0) <$> seqZ 0 11) ++ (Erase <$> seqZ 0 11) ++ [Reserve 11] in
  match run_ops (run_op identity_hash 0 24 (fun _ => true)) start empty_map,
        run_ops (run_op identity_hash 0 24 (fun _ => true)) (start ++ [Insert 11 0; Insert 12 0]) empty_map with
  | Ok (m, _), Ok (m', _) => bucket_count_ m = 16%nat /\ bucket_count_ m' = 32%nat
  | _, _ => False
  end.
Proof. vm_compute. done. Qed.

(** ** [clear] after erasures *)

(** Eleven entries come and go, the table is cleared, five more entries come. *)
Definition spinning_ops : list (@op Z Z) :=
  ((fun k => Insert k 0) <$> seqZ 0 11) ++ (Erase <$> seqZ 0 11) ++ [Clear] ++ ((fun k => Insert k 0) <$> seqZ 11 5).

Definition spinning_table : UnorderedMap :=
  match run_ops (run_op identity_hash 0 24 (fun _ => true)) spinning_ops empty_map with Ok (m, _) => m | _ => empty_map end.

Definition spinning_slot (j : nat) : @vslot Z Z := if decide (j < 11)%nat then VDel else VOcc (Z.of_nat j, 0).

Lemma spinning_holds : holds (default [] (slots_ spinning_table)) 16 spinning_slot.
Proof.
  split; [reflexivity|]. intros j Hj. do 16 (destruct j as [|j]; [reflexivity|]). lia.
Qed.

(** C11. The program above returns a map of five entries in sixteen buckets that counts no
    tombstone, though [clear] left eleven of them: no slot is empty, the load factor
    says that there is room, and the probe of [FindOrPrepareInsert] for a sixth entry
    never ends, however long it runs. *)
Theorem UnorderedMap_clear_spins fuel :
  size_ spinning_table = 5 /\ bucket_count_ spinning_table = 16%nat /\ tombstone_count_ spinning_table = 0 /\ spare spinning_table /\
  prepare_loop fuel (default [] (slots_ spinning_table)) 16 (BucketFor identity_hash 16 16) 16 None = None.
Proof.
  split; [reflexivity|]. split; [reflexivity|]. split; [reflexivity|]. split; [by apply Z.leb_le; vm_compute|].
  apply (prepare_loop_spins _ 16 spinning_slot); [apply spinning_holds|by exists 4|vm_compute; lia| |].
  - intros j Hj. unfold spinning_slot. by case_decide.
  - intros j e Hj E. unfold spinning_slot in E. case_decide; [done|]. injection E as <-. cbn. lia.
Qed.
