(* ===== verification/HashMap.v ===== *)
(** * base::HashMap and base::HashSet (containers/hash_map.h)

    A chained table: every entry is a node of its own, and the buckets are chains of
    nodes, kept here as lists in the order of their [next] pointers.  A node's
    address is its [addr]; iterators and [Node*] are addresses, and following one to a
    node that is not there is [Undef].  The map carries the next address its
    allocator gives out. *)

From stdpp Require Import gmap.
From S2P Require Import Prelude Memory Refine.

Set Default Proof Using "Type".

Section HashMap.

Context {K V : Type} {eqK : EqDecision K} {countK : Countable K}.
Context (hasher_ : K -> Z) (dflt : V) (allocates : Z -> bool) (sizeof_Node : Z).

Record Node := mkNode { addr : nat; key : K; value : V; hash : Z }.

Abbreviation chain := (list Node).

Record HashMap := mkMap {
  buckets_ : option (list chain);
  bucket_count_ : nat;
  bucket_shift_ : nat;
  size_ : Z;
  next_addr : nat;
}.

Definition new_map (next : nat) : HashMap := mkMap None 0 0 0 next.

(** ** Buckets *)

(** A loop that does not end is [None]: from 2^63 + 1 on [p] wraps to zero. *)
Fixpoint round_loop (fuel : nat) (n p : Z) : option Z :=
  match fuel with
  | O => None
  | S fuel => if p <? n then round_loop fuel n (u64 (p * 2)) else Some p
  end.

Definition RoundUpToPowerOfTwo (n : Z) : option Z := round_loop 64 n 16.

Fixpoint shift_loop (fuel : nat) (count : Z) (shift : nat) : option nat :=
  match fuel with
  | O => None
  | S fuel => if u64 (Z.shiftl 1 (Z.of_nat shift)) <? count then shift_loop fuel count (S shift) else Some shift
  end.

Definition BucketOf (bucket_shift : nat) (h : Z) : nat :=
  Z.to_nat (Z.shiftr (u64 (h * 0x9E3779B97F4A7C15)) (64 - Z.of_nat bucket_shift)).

Definition get_chain (b : list chain) (i : nat) : res chain := match b !! i with Some c => Ok c | None => Undef end.

(** [node->next = head; head = node;] *)
Definition push_node (b : list chain) (i : nat) (node : Node) : res (list chain) :=
  c ← get_chain b i; Ok (<[i := node :: c]> b).

Definition relink (shift : nat) (fresh : list chain) (c : chain) : res (list chain) :=
  fold_left (fun m node => fresh ← m; push_node fresh (BucketOf shift (hash node)) node) c (Ok fresh).

(** The block that [Allocate(bytes)] gives for an array of pointers: as many buckets as
    fit, and the loop that clears them writes [count]. *)
Definition alloc_buckets (count : Z) : res (list chain) :=
  let bytes := u64 (count * 8) in
  _ ← fatal_check (allocates bytes);
  if bytes / 8 <? count then Undef else Ok (replicate (Z.to_nat count) []).

Definition Rehash (m : HashMap) (wanted : Z) : res HashMap :=
  count ← match RoundUpToPowerOfTwo wanted with Some c => Ok c | None => Undef end;
  shift ← match shift_loop 64 count 0 with Some s => Ok s | None => Undef end;
  fresh ← alloc_buckets count;
  fresh ← match buckets_ m with
          | None => Ok fresh
          | Some old => for_loop 0 (bucket_count_ m) (fun b fresh => c ← get_chain old b; relink shift fresh c) fresh
          end;
  Ok (mkMap (Some fresh) (Z.to_nat count) shift (size_ m) (next_addr m)).

(** ** Lookup *)

Fixpoint find_in (c : chain) (h : Z) (k : K) : option Node :=
  match c with
  | [] => None
  | node :: c => if (hash node =? h) && bool_decide (key node = k) then Some node else find_in c h k
  end.

Definition FindNode (m : HashMap) (k : K) : res (option Node) :=
  if (bucket_count_ m =? 0)%nat then Ok None
  else
    let h := hasher_ k in
    match buckets_ m with
    | None => Undef
    | Some b => c ← get_chain b (BucketOf (bucket_shift_ m) h); Ok (find_in c h k)
    end.

(** [*node]: the node and what follows it in its chain. *)
Fixpoint deref_in (c : chain) (a : nat) : option (Node * chain) :=
  match c with
  | [] => None
  | node :: c => if (addr node =? a)%nat then Some (node, c) else deref_in c a
  end.

Fixpoint deref (b : list chain) (a : nat) : option (Node * chain) :=
  match b with
  | [] => None
  | c :: b => match deref_in c a with Some r => Some r | None => deref b a end
  end.

Definition node_at (m : HashMap) (a : nat) : res (Node * chain) :=
  match buckets_ m with
  | None => Undef
  | Some b => match deref b a with Some r => Ok r | None => Undef end
  end.

(** [for (b = from; b < bucket_count_; b++) if (buckets_[b]) return buckets_[b]; return nullptr;] *)
Fixpoint first_from (fuel : nat) (b : list chain) (from : nat) : option Node :=
  match fuel with
  | O => None
  | S fuel => match b !! from with
              | Some (node :: _) => Some node
              | _ => first_from fuel b (S from)
              end
  end.

Definition FirstNode (m : HashMap) : option Node :=
  match buckets_ m with None => None | Some b => first_from (bucket_count_ m) b 0 end.

Definition NextNode (m : HashMap) (a : nat) : res (option Node) :=
  '(node, rest) ← node_at m a;
  match rest with
  | next :: _ => Ok (Some next)
  | [] =>
    let from := (BucketOf (bucket_shift_ m) (hash node) + 1)%nat in
    Ok (match buckets_ m with None => None | Some b => first_from (bucket_count_ m - from) b from end)
  end.

(** ** Insertion *)

Definition Link (m : HashMap) (h : Z) (k : K) (v : V) : res (HashMap * nat) :=
  m ← (if Z.of_nat (bucket_count_ m) <? u64 (size_ m + 1) then Rehash m (u64 (size_ m + 1)) else Ok m);
  _ ← fatal_check (allocates sizeof_Node);
  let a := next_addr m in
  match buckets_ m with
  | None => Undef
  | Some b =>
    b ← push_node b (BucketOf (bucket_shift_ m) h) (mkNode a k v h);
    Ok (mkMap (Some b) (bucket_count_ m) (bucket_shift_ m) (u64 (size_ m + 1)) (S a), a)
  end.

(** [emplace], [try_emplace], [insert]. *)
Definition emplace (m : HashMap) (k : K) (v : V) : res (HashMap * nat * bool) :=
  node ← FindNode m k;
  match node with
  | Some node => Ok (m, addr node, false)
  | None => '(m, a) ← Link m (hasher_ k) k v; Ok (m, a, true)
  end.

Definition set_value (n : Node) (v : V) : Node := mkNode (addr n) (key n) v (hash n).

(** [node->value.second = v] *)
Definition assign_node (m : HashMap) (a : nat) (v : V) : res HashMap :=
  _ ← node_at m a;
  Ok (mkMap ((fun b => map (map (fun n => if (addr n =? a)%nat then set_value n v else n)) b) <$> buckets_ m)
        (bucket_count_ m) (bucket_shift_ m) (size_ m) (next_addr m)).

Definition insert_or_assign (m : HashMap) (k : K) (v : V) : res (HashMap * nat * bool) :=
  node ← FindNode m k;
  match node with
  | Some node => m ← assign_node m (addr node) v; Ok (m, addr node, false)
  | None => emplace m k v
  end.

Definition subscript (m : HashMap) (k : K) : res (HashMap * nat) := '(m, a, _) ← emplace m k dflt; Ok (m, a).

(** A miss is a [BASE_BUGCHECK]. *)
Definition at_ (m : HashMap) (k : K) : res V :=
  node ← FindNode m k; match node with Some node => Ok (value node) | None => Undef end.

Definition find (m : HashMap) (k : K) : res (option nat) := node ← FindNode m k; Ok (option_map addr node).
Definition contains (m : HashMap) (k : K) : res bool :=
  node ← FindNode m k; Ok (match node with Some _ => true | None => false end).
Definition count (m : HashMap) (k : K) : res Z := b ← contains m k; Ok (if b : bool then 1 else 0).

(** ** Removal *)

(** [for (node = *link; node; link = &node->next, node = node->next)]: the chain without
    the first node that [p] accepts. *)
Fixpoint unlink (p : Node -> bool) (c : chain) : option chain :=
  match c with
  | [] => None
  | node :: c => if p node then Some c else cons node <$> unlink p c
  end.

(** [Destroy]: the node goes away; the other members stay. *)
Definition with_bucket (m : HashMap) (i : nat) (c : chain) : HashMap :=
  mkMap ((fun b => <[i := c]> b) <$> buckets_ m) (bucket_count_ m) (bucket_shift_ m) (u64 (size_ m - 1)) (next_addr m).

Definition erase (m : HashMap) (k : K) : res (HashMap * Z) :=
  if (bucket_count_ m =? 0)%nat then Ok (m, 0)
  else
    let h := hasher_ k in
    let i := BucketOf (bucket_shift_ m) h in
    match buckets_ m with
    | None => Undef
    | Some b =>
      c ← get_chain b i;
      Ok (match unlink (fun n => (hash n =? h) && bool_decide (key n = k)) c with
          | Some c => (with_bucket m i c, 1)
          | None => (m, 0)
          end)
    end.

(** [erase(iterator)]; the [while] that looks for the victim has no other end. *)
Definition erase_iterator (m : HashMap) (a : nat) : res (HashMap * option nat) :=
  '(victim, _) ← node_at m a;
  next ← NextNode m a;
  let i := BucketOf (bucket_shift_ m) (hash victim) in
  match buckets_ m with
  | None => Undef
  | Some b =>
    c ← get_chain b i;
    match unlink (fun n => (addr n =? a)%nat) c with
    | Some c => Ok (with_bucket m i c, option_map addr next)
    | None => Undef
    end
  end.

Definition clear (m : HashMap) : HashMap :=
  mkMap ((fun b => replicate (length b) []) <$> buckets_ m) (bucket_count_ m) (bucket_shift_ m) 0 (next_addr m).

Definition reserve (m : HashMap) (n : Z) : res HashMap :=
  if Z.of_nat (bucket_count_ m) <? n then Rehash m n else Ok m.

(** ** Whole maps *)

(** [for (it = begin(); it != end(); ++it)] *)
Fixpoint walk (fuel : nat) (m : HashMap) (node : option Node) : res (list Node) :=
  match fuel, node with
  | _, None => Ok []
  | O, Some _ => Undef
  | S fuel, Some node => next ← NextNode m (addr node); ns ← walk fuel m next; Ok (node :: ns)
  end.

Definition nodes (m : HashMap) : res (list Node) := walk (Z.to_nat (size_ m)) m (FirstNode m).

Definition emplace_all (m : HashMap) (es : list (K * V)) : res HashMap :=
  fold_left (fun m e => m ← m; '(m, _, _) ← emplace m e.1 e.2; Ok m) es (Ok m).

Definition from_list (next : nat) (es : list (K * V)) : res HashMap :=
  m ← reserve (new_map next) (Z.of_nat (length es)); emplace_all m es.

Definition CopyFrom (m other : HashMap) : res HashMap :=
  m ← reserve m (size_ other);
  ns ← nodes other;
  emplace_all m ((fun n => (key n, value n)) <$> ns).

(** [Release] followed by nothing: the destructor. *)
Definition Release (m : HashMap) : HashMap := new_map (next_addr m).

Definition copy_construct (other : HashMap) : res HashMap := CopyFrom (new_map (next_addr other)) other.

(** The assignments, when [this != &other]. *)
Definition copy_assign (m other : HashMap) : res HashMap := CopyFrom (new_map (Nat.max (next_addr m) (next_addr other))) other.
Definition StealFrom (other : HashMap) : HashMap * HashMap := (other, new_map (next_addr other)).

(** ** Laid out nodes *)

Implicit Types (ns : list Node) (b : list chain).

(** The buckets hold the nodes [ns], each in the bucket of its hash. *)
Record laid b (s : nat) ns : Prop := {
  laid_length : Z.of_nat (length b) = 2 ^ Z.of_nat s;
  laid_placed : forall i c n, b !! i = Some c -> n ∈ c -> BucketOf s (hash n) = i;
  laid_nodes : concat b ≡ₚ ns;
}.

Record wf_nodes ns (next : nat) : Prop := {
  wf_keys : NoDup (key <$> ns);
  wf_addrs : NoDup (addr <$> ns);
  wf_fresh : forall n, n ∈ ns -> (addr n < next)%nat;
  wf_hash : forall n, n ∈ ns -> hash n = hasher_ (key n);
}.

(** What a table holds: for every key the address of its node and its value. *)
Definition entry (n : Node) : K * (nat * V) := (key n, (addr n, value n)).
Definition content ns : gmap K (nat * V) := list_to_map (entry <$> ns).

Lemma wf_nodes_perm ns ns' next : ns ≡ₚ ns' -> wf_nodes ns next -> wf_nodes ns' next.
Proof.
  intros Hp [H1 H2 H3 H4]. split.
  - by rewrite <- Hp.
  - by rewrite <- Hp.
  - intros n. rewrite <- Hp. apply H3.
  - intros n. rewrite <- Hp. apply H4.
Qed.

Lemma entry_keys ns : (entry <$> ns).*1 = key <$> ns.
Proof. by rewrite <- list_fmap_compose. Qed.

Lemma content_perm ns ns' next : ns ≡ₚ ns' -> wf_nodes ns next -> content ns = content ns'.
Proof.
  intros Hp Hw. apply list_to_map_proper; [rewrite entry_keys; apply Hw|]. by rewrite Hp.
Qed.

Lemma content_cons n ns : content (n :: ns) = <[key n := (addr n, value n)]> (content ns).
Proof. done. Qed.

Lemma content_none ns k : (forall n, n ∈ ns -> key n <> k) -> content ns !! k = None.
Proof.
  intros H. apply not_elem_of_list_to_map_1. rewrite entry_keys. intros (n & -> & Hn)%list_elem_of_fmap. by apply (H n).
Qed.

Lemma content_some ns next n : wf_nodes ns next -> n ∈ ns -> content ns !! key n = Some (addr n, value n).
Proof.
  intros Hw Hn. apply elem_of_list_to_map_1; [rewrite entry_keys; apply Hw|]. apply list_elem_of_fmap. by exists n.
Qed.

Lemma content_size ns next : wf_nodes ns next -> base.size (content ns) = length ns.
Proof.
  intros [Hk _ _ _]. induction ns as [|n ns IH]; [done|]. cbn in Hk. apply list.NoDup_cons in Hk as [Hn Hk].
  rewrite content_cons, map_size_insert_None; [by rewrite IH|].
  apply content_none. intros n' Hn' E. apply Hn. rewrite <- E. apply list_elem_of_fmap. by exists n'.
Qed.

Lemma wf_nodes_nil next : wf_nodes [] next.
Proof. split; [apply NoDup_nil_2|apply NoDup_nil_2| |]; by intros n ?%not_elem_of_nil. Qed.

Lemma wf_nodes_cons n ns next :
  wf_nodes ns next -> (forall n', n' ∈ ns -> key n' <> key n) -> addr n = next -> hash n = hasher_ (key n) -> wf_nodes (n :: ns) (S next).
Proof.
  intros [H1 H2 H3 H4] Hk Ha Hh. split; cbn.
  - apply list.NoDup_cons. split; [|done]. intros (n' & E & Hn')%list_elem_of_fmap. by apply (Hk n').
  - apply list.NoDup_cons. split; [|done]. intros (n' & E & Hn')%list_elem_of_fmap. specialize (H3 n' Hn'). lia.
  - intros n' [->|Hn']%elem_of_cons; [lia|]. specialize (H3 n' Hn'). lia.
  - intros n' [->|Hn']%elem_of_cons; [done|]. by apply H4.
Qed.

Lemma wf_nodes_tail n ns next : wf_nodes (n :: ns) next -> wf_nodes ns next.
Proof.
  intros [H1 H2 H3 H4]. cbn in H1, H2. apply list.NoDup_cons in H1 as [_ H1]. apply list.NoDup_cons in H2 as [_ H2].
  split; [done|done| |]; intros n' Hn'; [apply H3|apply H4]; by apply elem_of_cons; right.
Qed.

Lemma wf_nodes_head n ns next n' : wf_nodes (n :: ns) next -> n' ∈ ns -> key n' <> key n /\ addr n' <> addr n.
Proof.
  intros [H1 H2 _ _] Hn. cbn in H1, H2. apply list.NoDup_cons in H1 as [H1 _]. apply list.NoDup_cons in H2 as [H2 _].
  split; intros E; [apply H1|apply H2]; rewrite <- E; apply list_elem_of_fmap; by exists n'.
Qed.

(** ** Buckets *)

Lemma BucketOf_lt s h : (s <= 60)%nat -> Z.of_nat (BucketOf s h) < 2 ^ Z.of_nat s.
Proof.
  intros Hs. unfold BucketOf. pose proof (wrap_range 64 (h * 0x9E3779B97F4A7C15) ltac:(lia)) as H. set (x := u64 _) in *. unfold fits in H.
  rewrite shiftr_div by lia. assert (Hd : 0 <= x / 2 ^ (64 - Z.of_nat s) < 2 ^ Z.of_nat s).
  { split; [apply Z.div_pos; [lia|apply pow2_pos; lia]|]. apply Z.div_lt_upper_bound; [apply pow2_pos; lia|].
    rewrite <- Z.pow_add_r by lia. replace (64 - Z.of_nat s + Z.of_nat s) with 64 by lia. lia. }
  rewrite Z2Nat.id by lia. lia.
Qed.

Lemma concat_take_drop b i c : b !! i = Some c -> concat b = concat (take i b) ++ c ++ concat (drop (S i) b).
Proof. intros H. rewrite <- (take_drop_middle b i c H) at 1. by rewrite concat_app. Qed.

Lemma concat_update b i c c' : b !! i = Some c -> concat (<[i := c']> b) = concat (take i b) ++ c' ++ concat (drop (S i) b).
Proof.
  intros H. pose proof (lookup_lt_Some _ _ _ H). rewrite (concat_take_drop (<[i := c']> b) i c').
  - by rewrite take_insert_ge, drop_insert_lt by lia.
  - by rewrite list_lookup_insert_eq.
Qed.

Lemma laid_chain b s ns i : laid b s ns -> (i < length b)%nat -> exists c, b !! i = Some c /\ forall n, n ∈ c -> n ∈ ns.
Proof.
  intros Hl Hi. destruct (lookup_lt_is_Some_2 b i Hi) as [c E]. exists c. split; [done|]. intros n Hn.
  rewrite <- (laid_nodes b s ns Hl). rewrite (concat_take_drop b i c E). rewrite !elem_of_app. by right; left.
Qed.

Lemma laid_update b s ns ns' i c c' :
  laid b s ns -> b !! i = Some c -> (forall n, n ∈ c' -> BucketOf s (hash n) = i) ->
  (forall l1 l2, l1 ++ c ++ l2 ≡ₚ ns -> l1 ++ c' ++ l2 ≡ₚ ns') -> laid (<[i := c']> b) s ns'.
Proof.
  intros [Hl Hp Hn] Hi Hc Hperm. pose proof (lookup_lt_Some _ _ _ Hi). split.
  - by rewrite length_insert.
  - intros j c2 n Hj Hn2. destruct (decide (j = i)) as [->|].
    + rewrite list_lookup_insert_eq in Hj by done. injection Hj as <-. by apply Hc.
    + rewrite list_lookup_insert_ne in Hj by done. by eapply Hp.
  - rewrite (concat_update b i c c' Hi). apply Hperm. by rewrite <- (concat_take_drop b i c Hi).
Qed.

Lemma get_chain_ok b i c : b !! i = Some c -> get_chain b i = Ok c.
Proof. unfold get_chain. by intros ->. Qed.

Lemma push_node_ok b s ns n : (s <= 60)%nat -> laid b s ns -> exists b', push_node b (BucketOf s (hash n)) n = Ok b' /\ laid b' s (n :: ns).
Proof.
  intros Hs Hl. unfold push_node, get_chain. pose proof (BucketOf_lt s (hash n) Hs) as Hlt. rewrite <- (laid_length b s ns Hl) in Hlt.
  destruct (laid_chain b s ns (BucketOf s (hash n)) Hl) as (c & E & Hc); [lia|]. rewrite E. cbn. eexists. split; [done|].
  eapply laid_update; [done|done| |].
  - intros n' [->|Hn']%elem_of_cons; [done|]. by eapply (laid_placed b s ns Hl).
  - intros l1 l2 Hp. rewrite <- Hp. cbn [app]. symmetry. apply Permutation_middle.
Qed.

Lemma relink_ok s b ns c : (s <= 60)%nat -> laid b s ns -> exists b', relink s b c = Ok b' /\ laid b' s (rev c ++ ns).
Proof.
  intros Hs. unfold relink. revert b ns. induction c as [|n c IH]; intros b ns Hl; cbn [fold_left]; [eauto|].
  rewrite res_bind_ok. destruct (push_node_ok b s ns n Hs Hl) as (b1 & -> & Hl1). destruct (IH b1 (n :: ns) Hl1) as (b2 & E & Hl2).
  exists b2. split; [done|]. cbn. by rewrite <- app_assoc.
Qed.

Lemma laid_empty s : laid (replicate (Z.to_nat (2 ^ Z.of_nat s)) []) s [].
Proof.
  pose proof (pow2_pos (Z.of_nat s) ltac:(lia)). split.
  - rewrite length_replicate. lia.
  - intros i c n Hi Hn. apply lookup_replicate in Hi as [-> _]. by apply not_elem_of_nil in Hn.
  - induction (Z.to_nat _); cbn; done.
Qed.

(** ** Rehash *)

Lemma pow2_4 : 2 ^ Z.of_nat 4 = 16. Proof. done. Qed.

Lemma round_loop_ok fuel n k :
  (4 <= k <= 60)%nat -> (60 < k + fuel)%nat -> n <= 2 ^ 60 -> (k = 4%nat \/ 2 ^ (Z.of_nat k - 1) < n) ->
  exists s, round_loop fuel n (2 ^ Z.of_nat k) = Some (2 ^ Z.of_nat s) /\ (4 <= s <= 60)%nat /\ n <= 2 ^ Z.of_nat s /\
    (s = 4%nat \/ 2 ^ (Z.of_nat s - 1) < n).
Proof.
  revert k. induction fuel as [|fuel IH]; intros k Hk Hf Hn Hlow; [lia|]. cbn [round_loop].
  destruct (Z.ltb_spec (2 ^ Z.of_nat k) n) as [Hlt|Hge]; [|by exists k].
  assert (k <> 60%nat) by (intros ->; lia).
  assert (Hp : 2 ^ Z.of_nat k <= 2 ^ 60) by lia. pose proof (pow2_pos (Z.of_nat k) ltac:(lia)).
  assert (Hs : 2 ^ Z.of_nat k * 2 = 2 ^ Z.of_nat (S k)) by (rewrite Nat2Z.inj_succ, Z.pow_succ_r by lia; lia).
  rewrite wrap_small by (unfold fits; change (2 ^ 64) with (2 ^ 60 * 16); lia). rewrite Hs.
  apply IH; [lia|lia|done|]. right. by replace (Z.of_nat (S k) - 1) with (Z.of_nat k) by lia.
Qed.

Lemma shift_loop_ok fuel s i : (i <= s <= 60)%nat -> (s < i + fuel)%nat -> shift_loop fuel (2 ^ Z.of_nat s) i = Some s.
Proof.
  revert i. induction fuel as [|fuel IH]; intros i Hi Hf; [lia|]. cbn [shift_loop].
  rewrite Z.shiftl_mul_pow2, Z.mul_1_l by lia.
  assert (2 ^ Z.of_nat i <= 2 ^ 60) by (apply Z.pow_le_mono_r; lia). pose proof (pow2_pos (Z.of_nat i) ltac:(lia)).
  rewrite wrap_small by (unfold fits; change (2 ^ 64) with (2 ^ 60 * 16); lia).
  destruct (decide (i = s)) as [->|Hne]; [by rewrite Z.ltb_irrefl|].
  rewrite (proj2 (Z.ltb_lt _ _)) by (apply Z.pow_lt_mono_r; lia). apply IH; lia.
Qed.

(** The bucket array that [wanted] asks for is granted. *)
Definition bucket_room (wanted : Z) : Prop :=
  forall s, (4 <= s)%nat -> (s = 4%nat \/ 2 ^ (Z.of_nat s - 1) < wanted) -> wanted <= 2 ^ Z.of_nat s -> allocates (2 ^ Z.of_nat s * 8) = true.

Record good (m : HashMap) b (s : nat) ns : Prop := {
  good_buckets : buckets_ m = Some b;
  good_count : bucket_count_ m = length b;
  good_shift : bucket_shift_ m = s;
  good_range : (4 <= s <= 60)%nat;
  good_laid : laid b s ns;
  good_size : size_ m = Z.of_nat (length ns);
  good_load : (length ns <= length b)%nat;
  good_nodes : wf_nodes ns (next_addr m);
}.

Definition wf (m : HashMap) ns : Prop := (m = new_map (next_addr m) /\ ns = []) \/ exists b s, good m b s ns.

Lemma relink_all_ok s old s0 ns (from : nat) : forall b ns1 n,
  (s <= 60)%nat -> laid old s0 ns -> (from + n = length old)%nat -> laid b s ns1 ->
  exists b', for_loop from n (fun i fresh => c ← get_chain old i; relink s fresh c) b = Ok b' /\
    exists ns2, laid b' s (ns2 ++ ns1) /\ ns2 ≡ₚ concat (drop from old).
Proof.
  intros b ns1 n Hs Hold. revert from b ns1. induction n as [|n IH]; intros from b ns1 Hn Hb; cbn [for_loop].
  - exists b. split; [done|]. exists []. split; [done|]. by rewrite drop_ge by lia.
  - destruct (lookup_lt_is_Some_2 old from) as [c E]; [lia|]. rewrite (get_chain_ok old from c E), res_bind_ok.
    destruct (relink_ok s b ns1 c Hs Hb) as (b1 & -> & Hb1). rewrite res_bind_ok.
    destruct (IH (S from) b1 (rev c ++ ns1)) as (b2 & -> & ns2 & Hb2 & Hp2); [lia|done|].
    exists b2. split; [done|]. exists (ns2 ++ rev c). split; [by rewrite <- app_assoc|].
    rewrite Hp2, (drop_S old c from E). cbn [concat]. rewrite Permutation_app_comm. apply Permutation_app_tail. symmetry. apply Permutation_rev.
Qed.

Lemma Rehash_wp R m ns wanted :
  wf m ns -> Z.of_nat (length ns) <= wanted <= 2 ^ 60 -> (R -> bucket_room wanted) ->
  wp R (Rehash m wanted) (fun m' => exists b s ns', good m' b s ns' /\ ns' ≡ₚ ns /\ wanted <= Z.of_nat (length b) /\ next_addr m' = next_addr m).
Proof.
  intros Hw Hn HR. unfold Rehash, RoundUpToPowerOfTwo. change 16 with (2 ^ Z.of_nat 4).
  destruct (round_loop_ok 64 wanted 4) as (s & -> & Hs & Hle & Hmin); [lia|lia|lia|by left|]. rewrite res_bind_ok.
  rewrite (shift_loop_ok 64 s 0) by lia. rewrite res_bind_ok.
  pose proof (pow2_pos (Z.of_nat s) ltac:(lia)). assert (2 ^ Z.of_nat s <= 2 ^ 60) by (apply Z.pow_le_mono_r; lia).
  unfold alloc_buckets. rewrite (wrap_small 64) by (unfold fits; change (2 ^ 64) with (2 ^ 60 * 16); lia).
  unfold fatal_check. destruct (allocates _) eqn:Ea; cbn [mbind res_bind].
  2:{ intros r. specialize (HR r s). rewrite HR in Ea; [done|lia|done|done]. }
  rewrite Z.div_mul, Z.ltb_irrefl by lia. rewrite res_bind_ok.
  pose proof (laid_empty s) as He. set (b0 := replicate _ _) in *.
  assert (Hl0 : Z.of_nat (length b0) = 2 ^ Z.of_nat s) by apply He.
  assert (Hgo : exists b' ns', match buckets_ m with
      | None => Ok b0
      | Some old => for_loop 0 (bucket_count_ m) (fun i fresh => c ← get_chain old i; relink s fresh c) b0
      end = Ok b' /\ laid b' s ns' /\ ns' ≡ₚ ns /\ size_ m = Z.of_nat (length ns) /\ wf_nodes ns (next_addr m)).
  { destruct Hw as [[E ->]|(old & s0 & [Eb Ec Es Hr Hl Hsz Hld Hnd])].
    - rewrite E. cbn. exists b0, []. split; [done|]. split; [done|]. split; [done|]. split; [done|apply wf_nodes_nil].
    - rewrite Eb, Ec. destruct (relink_all_ok s old s0 ns 0 b0 [] (length old)) as (b' & E & ns2 & Hb' & Hp); [lia|done|lia|done|].
      rewrite app_nil_r in Hb'. exists b', ns2. split; [done|]. split; [done|]. split; [|done]. rewrite Hp. apply Hl. }
  destruct Hgo as (b' & ns' & E & Hl & Hp & Hsz & Hnd). rewrite E. cbn. exists b', s, ns'.
  assert (Z.of_nat (length b') = 2 ^ Z.of_nat s) by apply Hl. pose proof (Permutation_length Hp).
  split; [|by repeat split; [|lia]]. split; cbn; [done|lia|done|lia|done|lia|lia|]. by eapply wf_nodes_perm.
Qed.

(** ** Lookup *)

Lemma find_in_ok c k :
  (forall n, n ∈ c -> hash n = hasher_ (key n)) ->
  match find_in c (hasher_ k) k with Some n => n ∈ c /\ key n = k | None => forall n, n ∈ c -> key n <> k end.
Proof.
  induction c as [|n c IH]; intros Hw; cbn [find_in]; [by intros n ?%not_elem_of_nil|].
  destruct (bool_decide (key n = k)) eqn:Ek; [apply bool_decide_eq_true in Ek|apply bool_decide_eq_false in Ek].
  - rewrite (Hw n), Ek, Z.eqb_refl by apply list_elem_of_here. cbn. split; [apply list_elem_of_here|done].
  - rewrite andb_false_r. assert (Hw' : forall n, n ∈ c -> hash n = hasher_ (key n)) by (intros n' Hn'; apply Hw; by apply elem_of_cons; right).
    specialize (IH Hw'). destruct (find_in c (hasher_ k) k) as [n'|].
    + destruct IH. split; [by apply elem_of_cons; right|done].
    + intros n' [->|Hn']%elem_of_cons; [done|by apply IH].
Qed.

Lemma elem_of_concat (n : Node) b : n ∈ concat b <-> exists i c, b !! i = Some c /\ n ∈ c.
Proof.
  induction b as [|c b IH]; cbn [concat].
  - split; [by intros ?%not_elem_of_nil|]. by intros (i & c & E & _).
  - rewrite elem_of_app, IH. split.
    + intros [H|(i & c' & E & H)]; [by exists 0%nat, c|by exists (S i), c'].
    + intros ([|i] & c' & E & H); [injection E as <-; by left|right; by exists i, c'].
Qed.

Lemma good_elem m b s ns n : good m b s ns -> n ∈ ns -> exists c, b !! BucketOf s (hash n) = Some c /\ n ∈ c.
Proof.
  intros Hg Hn. pose proof (good_laid _ _ _ _ Hg) as Hl. rewrite <- (laid_nodes _ _ _ Hl) in Hn.
  apply elem_of_concat in Hn as (i & c & E & Hn). exists c. by rewrite (laid_placed _ _ _ Hl i c n E Hn).
Qed.

(** The bucket a hash selects, and that its nodes are nodes of the table. *)
Lemma good_bucket m b s ns h : good m b s ns -> exists c, get_chain b (BucketOf s h) = Ok c /\ b !! BucketOf s h = Some c /\ forall n, n ∈ c -> n ∈ ns.
Proof.
  intros Hg. pose proof (good_laid _ _ _ _ Hg) as Hl. pose proof (BucketOf_lt s h (proj2 (good_range _ _ _ _ Hg))) as Hlt.
  rewrite <- (laid_length _ _ _ Hl) in Hlt. destruct (laid_chain b s ns (BucketOf s h) Hl) as (c & E & Hc); [lia|].
  exists c. split; [by apply get_chain_ok|done].
Qed.

Lemma good_count_pos m b s ns : good m b s ns -> (bucket_count_ m =? 0)%nat = false.
Proof.
  intros Hg. apply Nat.eqb_neq. rewrite (good_count _ _ _ _ Hg). pose proof (laid_length _ _ _ (good_laid _ _ _ _ Hg)).
  pose proof (pow2_pos (Z.of_nat s) ltac:(lia)). lia.
Qed.

Lemma wf_wf_nodes m ns : wf m ns -> wf_nodes ns (next_addr m).
Proof. intros [[-> ->]|(b & s & Hg)]; [apply wf_nodes_nil|apply Hg]. Qed.

Lemma FindNode_ok m ns k :
  wf m ns -> exists r, FindNode m k = Ok r /\ match r with Some n => n ∈ ns /\ key n = k | None => forall n, n ∈ ns -> key n <> k end.
Proof.
  intros [[-> ->]|(b & s & Hg)].
  - exists None. split; [done|]. by intros n ?%not_elem_of_nil.
  - unfold FindNode. rewrite (good_count_pos _ _ _ _ Hg), (good_buckets _ _ _ _ Hg), (good_shift _ _ _ _ Hg).
    destruct (good_bucket m b s ns (hasher_ k) Hg) as (c & -> & E & Hc). cbn [mbind res_bind].
    pose proof (wf_hash _ _ (good_nodes _ _ _ _ Hg)) as Hh.
    pose proof (find_in_ok c k (fun n Hn => Hh n (Hc n Hn))) as Hf. eexists. split; [done|].
    destruct (find_in c (hasher_ k) k) as [n|]; [destruct Hf; auto|]. intros n Hn Ek.
    destruct (good_elem m b s ns n Hg Hn) as (c' & E' & Hn'). rewrite (Hh n Hn), Ek, E in E'. injection E' as <-. by apply (Hf n).
Qed.

Lemma hash_map_content_lookup ns next k a v :
  wf_nodes ns next -> content ns !! k = Some (a, v) <-> exists n, n ∈ ns /\ key n = k /\ addr n = a /\ value n = v.
Proof.
  intros Hw. unfold content. rewrite <- elem_of_list_to_map by (rewrite entry_keys; apply Hw). rewrite list_elem_of_fmap. split.
  - intros (n & E & Hn). exists n. unfold entry in E. by injection E as -> -> ->.
  - intros (n & Hn & <- & <- & <-). by exists n.
Qed.

(** What a lookup answers, in terms of the content. *)
Lemma FindNode_content m ns k :
  wf m ns -> exists r, FindNode m k = Ok r /\ content ns !! k = (fun n => (addr n, value n)) <$> r /\ forall n, r = Some n -> n ∈ ns /\ key n = k.
Proof.
  intros Hw. destruct (FindNode_ok m ns k Hw) as (r & -> & Hr). exists r. split; [done|]. destruct r as [n|].
  - destruct Hr as [Hn <-]. split; [by eapply content_some, Hn; apply wf_wf_nodes|]. by intros n' [= <-].
  - split; [by apply content_none|done].
Qed.

(** ** Insertion *)

Definition node_room (R : Prop) (wanted : Z) : Prop := R -> allocates sizeof_Node = true /\ bucket_room wanted.

Lemma wf_size m ns : wf m ns -> size_ m = Z.of_nat (length ns).
Proof. intros [[-> ->]|(b & s & Hg)]; [done|apply Hg]. Qed.

Lemma Link_wp R m ns k v :
  wf m ns -> Z.of_nat (length ns) < 2 ^ 60 -> (forall n, n ∈ ns -> key n <> k) -> node_room R (Z.of_nat (length ns) + 1) ->
  wp R (Link m (hasher_ k) k v) (fun p => exists ns', wf p.1 ns' /\ p.2 = next_addr m /\ next_addr p.1 = S (next_addr m) /\
    ns' ≡ₚ mkNode (next_addr m) k v (hasher_ k) :: ns).
Proof.
  intros Hw Hn Hk HR. unfold Link. pose proof (wf_size m ns Hw) as Hsz.
  assert (E1 : u64 (size_ m + 1) = size_ m + 1) by (apply wrap_small; unfold fits; rewrite Hsz; change (2 ^ 64) with (2 ^ 60 * 16); lia).
  rewrite E1. apply wp_seq with (Q := fun m' => exists b s ns', good m' b s ns' /\ ns' ≡ₚ ns /\ (length ns < length b)%nat /\ next_addr m' = next_addr m).
  - destruct (Z.ltb_spec (Z.of_nat (bucket_count_ m)) (size_ m + 1)) as [Hlt|Hge].
    + eapply wp_mono; [apply (Rehash_wp R m ns); [done|lia|]|].
      * rewrite Hsz. intros r. by apply HR.
      * intros m' (b & s & ns' & Hg & Hp & Hle & Ha). exists b, s, ns'. split; [done|]. split; [done|]. split; [lia|done].
    + destruct Hw as [[E ->]|(b & s & Hg)]; [rewrite E in Hge; cbn in Hge; lia|]. exists b, s, ns. rewrite (good_count _ _ _ _ Hg) in Hge.
      split; [done|]. split; [done|]. split; [lia|done].
  - intros m' (b & s & ns' & Hg & Hp & Hlen & Ha). unfold fatal_check. destruct (allocates sizeof_Node) eqn:Eal; cbn [mbind res_bind].
    2:{ intros r. destruct (HR r). congruence. }
    rewrite (good_buckets _ _ _ _ Hg), (good_shift _ _ _ _ Hg). rewrite Ha. set (n := mkNode _ _ _ _).
    destruct (push_node_ok b s ns' n) as (b' & E & Hl); [apply Hg|apply Hg|]. change (hasher_ k) with (hash n). rewrite E. cbn.
    exists (n :: ns'). pose proof (Permutation_length Hp). rewrite (good_size _ _ _ _ Hg).
    assert (length b' = length b).
    { pose proof (laid_length _ _ _ Hl) as L1. rewrite <- (laid_length _ _ _ (good_laid _ _ _ _ Hg)) in L1. lia. }
    split; [right; exists b', s; split; cbn|].
    + done.
    + rewrite (good_count _ _ _ _ Hg). done.
    + done.
    + apply Hg.
    + done.
    + rewrite wrap_small; [lia|]. unfold fits. change (2 ^ 64) with (2 ^ 60 * 16). lia.
    + lia.
    + apply (wf_nodes_perm (n :: ns)); [by rewrite Hp|]. apply wf_nodes_cons; [by apply wf_wf_nodes|done|done|done].
    + split; [done|]. split; [done|]. by rewrite Hp.
Qed.

Definition added (c : gmap K (nat * V)) (k : K) (next : nat) (v : V) : gmap K (nat * V) :=
  match c !! k with Some _ => c | None => <[k := (next, v)]> c end.

Lemma hash_map_emplace_wp R m ns k v :
  wf m ns -> Z.of_nat (length ns) < 2 ^ 60 -> node_room R (Z.of_nat (length ns) + 1) ->
  wp R (emplace m k v) (fun '(m', a, fresh) => exists ns', wf m' ns' /\ content ns' = added (content ns) k (next_addr m) v /\
    match content ns !! k with
    | Some (a', _) => m' = m /\ ns' = ns /\ a = a' /\ fresh = false
    | None => a = next_addr m /\ fresh = true /\ next_addr m' = S (next_addr m) /\ length ns' = S (length ns)
    end).
Proof.
  intros Hw Hn HR. unfold emplace. destruct (FindNode_content m ns k Hw) as (r & -> & Hc & Hr). cbn [mbind res_bind].
  unfold added. rewrite Hc. destruct r as [n|]; cbn; [by exists ns|].
  assert (Hk : forall n, n ∈ ns -> key n <> k).
  { intros n Hn' <-. by rewrite (content_some ns _ n (wf_wf_nodes m ns Hw) Hn') in Hc. }
  eapply wp_seq; [by apply (Link_wp R m ns k v)|]. intros [m' a] (ns' & Hw' & E & Ha & Hp). cbn in Hw', E, Ha. subst a. exists ns'.
  split; [done|]. split; [|repeat split; [done|by rewrite Hp]].
  by rewrite (content_perm _ _ _ Hp (wf_wf_nodes _ _ Hw')), content_cons.
Qed.

(** ** Iteration *)

Lemma deref_in_none c a : (forall n, n ∈ c -> addr n <> a) -> deref_in c a = None.
Proof.
  induction c as [|n c IH]; intros H; cbn; [done|]. rewrite (proj2 (Nat.eqb_neq _ _)) by (apply H, list_elem_of_here).
  apply IH. intros n' Hn'. apply H. by apply elem_of_cons; right.
Qed.

Lemma deref_in_app c1 n c2 : (forall n', n' ∈ c1 -> addr n' <> addr n) -> deref_in (c1 ++ n :: c2) (addr n) = Some (n, c2).
Proof.
  induction c1 as [|n1 c1 IH]; intros H; cbn; [by rewrite Nat.eqb_refl|].
  rewrite (proj2 (Nat.eqb_neq _ _)) by (apply H, list_elem_of_here). apply IH. intros n' Hn'. apply H. by apply elem_of_cons; right.
Qed.

(** A position in the order of iteration is a position in one of the chains. *)
Lemma concat_position b l1 n l2 :
  concat b = l1 ++ n :: l2 ->
  exists i c1 c2, b !! i = Some (c1 ++ n :: c2) /\ l1 = concat (take i b) ++ c1 /\ l2 = c2 ++ concat (drop (S i) b).
Proof.
  revert l1. induction b as [|c b IH]; intros l1 E; cbn [concat] in E; [by destruct l1|].
  destruct (decide (length l1 < length c)%nat) as [Hlt|Hge].
  - exists 0%nat, l1, (drop (S (length l1)) c). assert (Ec : c = l1 ++ n :: drop (S (length l1)) c).
    { assert (En : (l1 ++ n :: l2) !! length l1 = Some n) by (rewrite lookup_app_r, Nat.sub_diag by lia; done).
      rewrite <- E, lookup_app_l in En by lia. rewrite <- (take_drop_middle c _ _ En) at 1. f_equal.
      pose proof (f_equal (take (length l1)) E) as Et. by rewrite take_app_le, take_app_length in Et by lia. }
    cbn [take concat]. split; [cbn; by f_equal|]. split; [done|]. rewrite Ec, <- app_assoc in E. cbn in E. apply app_inv_head in E.
    injection E as E. by rewrite <- E.
  - assert (El : l1 = c ++ drop (length c) l1).
    { rewrite <- (take_drop (length c) l1) at 1. f_equal. pose proof (f_equal (take (length c)) E) as Et.
      rewrite take_app_length, take_app_le in Et by lia. done. }
    rewrite El, <- app_assoc in E. apply app_inv_head in E. destruct (IH _ E) as (i & c1 & c2 & E1 & E2 & E3).
    exists (S i), c1, c2. split; [done|]. split; [|done]. rewrite El at 1. rewrite E2. cbn [take concat]. by rewrite app_assoc.
Qed.

Lemma deref_position b i c1 n c2 :
  b !! i = Some (c1 ++ n :: c2) -> (forall n', n' ∈ concat (take i b) ++ c1 -> addr n' <> addr n) -> deref b (addr n) = Some (n, c2).
Proof.
  revert i. induction b as [|c b IH]; intros i E H; [done|]. destruct i as [|i]; cbn [deref take concat] in *.
  - injection E as ->. by rewrite deref_in_app.
  - rewrite deref_in_none; [apply (IH i E)|]; intros n' Hn'; apply H; rewrite !elem_of_app in *; [|by left; left].
    destruct Hn' as [Hn'|Hn']; [by left; right|by right].
Qed.

Lemma first_from_ok fuel b from : (length b <= from + fuel)%nat -> first_from fuel b from = head (concat (drop from b)).
Proof.
  revert from. induction fuel as [|fuel IH]; intros from H; cbn; [by rewrite drop_ge by lia|].
  destruct (b !! from) as [c|] eqn:E.
  - rewrite (drop_S b c from E). cbn [concat]. destruct c as [|n c]; [|done]. apply IH. lia.
  - apply lookup_ge_None in E. rewrite IH, !drop_ge by lia. done.
Qed.

Lemma good_position m b s ns l1 n l2 :
  good m b s ns -> concat b = l1 ++ n :: l2 ->
  exists i c1 c2, BucketOf s (hash n) = i /\ b !! i = Some (c1 ++ n :: c2) /\ l1 = concat (take i b) ++ c1 /\ l2 = c2 ++ concat (drop (S i) b) /\
    node_at m (addr n) = Ok (n, c2) /\ forall n', n' ∈ c1 -> addr n' <> addr n.
Proof.
  intros Hg E. pose proof (good_laid _ _ _ _ Hg) as Hl. destruct (concat_position b l1 n l2 E) as (i & c1 & c2 & Ei & E1 & E2).
  assert (Ha : forall n', n' ∈ l1 -> addr n' <> addr n).
  { intros n' Hn'. pose proof (good_nodes _ _ _ _ Hg) as Hw. apply (wf_nodes_perm _ (n :: l1 ++ l2)) in Hw.
    - eapply (wf_nodes_head n); [done|]. apply elem_of_app. by left.
    - rewrite <- (laid_nodes _ _ _ Hl), E. symmetry. apply Permutation_middle. }
  exists i, c1, c2. split; [apply (laid_placed _ _ _ Hl i _ n Ei); apply elem_of_app; right; apply list_elem_of_here|].
  split; [done|]. split; [done|]. split; [done|]. subst l1. split.
  - unfold node_at. rewrite (good_buckets _ _ _ _ Hg). by rewrite (deref_position b i c1 n c2 Ei).
  - intros n' Hn'. apply Ha. apply elem_of_app. by right.
Qed.

Lemma NextNode_ok m b s ns l1 n l2 : good m b s ns -> concat b = l1 ++ n :: l2 -> NextNode m (addr n) = Ok (head l2).
Proof.
  intros Hg E. destruct (good_position m b s ns l1 n l2 Hg E) as (i & c1 & c2 & Hi & Ei & -> & -> & Ea & _).
  unfold NextNode. rewrite Ea. cbn [mbind res_bind]. destruct c2 as [|n2 c2]; [|done].
  rewrite (good_buckets _ _ _ _ Hg), (good_shift _ _ _ _ Hg), (good_count _ _ _ _ Hg), Hi.
  pose proof (lookup_lt_Some _ _ _ Ei). rewrite first_from_ok by lia. by rewrite Nat.add_1_r.
Qed.

Lemma walk_ok m b s ns l1 l2 fuel :
  good m b s ns -> concat b = l1 ++ l2 -> (length l2 <= fuel)%nat -> walk fuel m (head l2) = Ok l2.
Proof.
  intros Hg. revert l1 l2. induction fuel as [|fuel IH]; intros l1 l2 E Hf; (destruct l2 as [|n l2]; [done|]); cbn in Hf; [lia|].
  cbn [walk head]. rewrite (NextNode_ok m b s ns l1 n l2 Hg E). cbn [mbind res_bind].
  rewrite (IH (l1 ++ [n])); [done|by rewrite <- app_assoc|lia].
Qed.

(** Iteration visits the nodes in the order of the buckets, each once. *)
Lemma good_walk m b s ns : good m b s ns -> nodes m = Ok (concat b).
Proof.
  intros Hg. unfold nodes. rewrite (good_size _ _ _ _ Hg), Nat2Z.id.
  pose proof (Permutation_length (laid_nodes _ _ _ (good_laid _ _ _ _ Hg))).
  unfold FirstNode. rewrite (good_buckets _ _ _ _ Hg), first_from_ok by (rewrite (good_count _ _ _ _ Hg); lia).
  rewrite drop_0. by apply (walk_ok m b s ns []); [| |lia].
Qed.

Lemma nodes_ok m ns : wf m ns -> exists l, nodes m = Ok l /\ l ≡ₚ ns.
Proof.
  intros [[-> ->]|(b & s & Hg)]; [by exists []|]. exists (concat b). split; [by eapply good_walk|apply Hg].
Qed.

Lemma elem_position b s ns n : laid b s ns -> n ∈ ns -> exists l1 l2, concat b = l1 ++ n :: l2.
Proof. intros Hl Hn. apply list_elem_of_split. by rewrite (laid_nodes _ _ _ Hl). Qed.

Lemma node_at_ok m ns n : wf m ns -> n ∈ ns -> exists rest, node_at m (addr n) = Ok (n, rest).
Proof.
  intros [[-> ->]|(b & s & Hg)] Hn; [by apply not_elem_of_nil in Hn|].
  destruct (elem_position b s ns n (good_laid _ _ _ _ Hg) Hn) as (l1 & l2 & E).
  destruct (good_position m b s ns l1 n l2 Hg E) as (i & c1 & c2 & _ & _ & _ & _ & Ea & _). by exists c2.
Qed.

(** ** Assignment through a node *)

Definition put (a : nat) (v : V) (n : Node) : Node := if (addr n =? a)%nat then set_value n v else n.

Lemma put_same a v n : addr (put a v n) = addr n /\ key (put a v n) = key n /\ hash (put a v n) = hash n.
Proof. unfold put. by destruct (_ =? _)%nat. Qed.

Lemma wf_nodes_put ns next a v : wf_nodes ns next -> wf_nodes (put a v <$> ns) next.
Proof.
  intros [H1 H2 H3 H4].
  assert (Ek : key <$> (put a v <$> ns) = key <$> ns) by (rewrite <- list_fmap_compose; apply list_fmap_ext; intros; apply put_same).
  assert (Ea : addr <$> (put a v <$> ns) = addr <$> ns) by (rewrite <- list_fmap_compose; apply list_fmap_ext; intros; apply put_same).
  split; [by rewrite Ek|by rewrite Ea| |].
  - intros n (n0 & -> & Hn)%list_elem_of_fmap. rewrite (proj1 (put_same a v n0)). by apply H3.
  - intros n (n0 & -> & Hn)%list_elem_of_fmap. destruct (put_same a v n0) as (_ & -> & ->). by apply H4.
Qed.

Lemma laid_put b s ns a v : laid b s ns -> laid (map (map (put a v)) b) s (put a v <$> ns).
Proof.
  intros [H1 H2 H3]. split.
  - by rewrite length_map.
  - intros i c n E Hn. rewrite list_lookup_fmap in E. destruct (b !! i) as [c0|] eqn:E0; [|done]. injection E as <-.
    apply list_elem_of_fmap in Hn as (n0 & -> & Hn). destruct (put_same a v n0) as (_ & _ & ->). by eapply H2.
  - rewrite <- concat_map. by apply (fmap_Permutation (put a v)).
Qed.

Lemma addr_inj ns next n n' : wf_nodes ns next -> n ∈ ns -> n' ∈ ns -> addr n = addr n' -> n = n'.
Proof.
  intros Hw. induction ns as [|n0 ns IH]; intros Hn Hn' E; [by apply not_elem_of_nil in Hn|].
  pose proof (fun x => wf_nodes_head n0 ns next x Hw) as H.
  apply elem_of_cons in Hn as [->|Hn]; apply elem_of_cons in Hn' as [->|Hn']; [done| | |apply IH; [by eapply wf_nodes_tail|done..]].
  - destruct (H n' Hn'). congruence.
  - destruct (H n Hn). congruence.
Qed.

Lemma content_put ns next n v :
  wf_nodes ns next -> n ∈ ns -> content (put (addr n) v <$> ns) = <[key n := (addr n, v)]> (content ns).
Proof.
  intros Hw Hn. assert (E : put (addr n) v n = set_value n v) by (unfold put; by rewrite Nat.eqb_refl).
  apply map_eq. intros k. apply option_eq. intros [a w]. rewrite (hash_map_content_lookup _ next k a w (wf_nodes_put ns next (addr n) v Hw)).
  rewrite lookup_insert_Some, (hash_map_content_lookup ns next k a w Hw). split.
  - intros (n' & (n0 & -> & Hn0)%list_elem_of_fmap & <- & <- & <-). destruct (decide (addr n0 = addr n)) as [Ha|Ha].
    + rewrite (addr_inj ns next n0 n Hw Hn0 Hn Ha), E. by left.
    + right. unfold put. rewrite (proj2 (Nat.eqb_neq _ _) Ha). split; [|by exists n0]. intros Ek.
      apply Ha. pose proof (content_some ns next n Hw Hn) as C. rewrite Ek, (content_some ns next n0 Hw Hn0) in C. by injection C.
  - intros [(<- & [= <- <-])|(Hk & n0 & Hn0 & <- & <- & <-)].
    + exists (set_value n v). split; [|done]. apply list_elem_of_fmap. by exists n.
    + exists n0. split; [|done]. apply list_elem_of_fmap. exists n0. split; [|done]. unfold put.
      rewrite (proj2 (Nat.eqb_neq _ _)); [done|]. intros Ha. apply Hk. by rewrite (addr_inj ns next n0 n Hw).
Qed.

Lemma assign_node_ok m ns n v :
  wf m ns -> n ∈ ns -> exists m' ns', assign_node m (addr n) v = Ok m' /\ wf m' ns' /\ next_addr m' = next_addr m /\
    length ns' = length ns /\ content ns' = <[key n := (addr n, v)]> (content ns).
Proof.
  intros Hw Hn. unfold assign_node. destruct (node_at_ok m ns n Hw Hn) as (rest & ->). cbn [mbind res_bind].
  eexists _, (put (addr n) v <$> ns). split; [done|]. split; [|split; [done|split; [apply length_map|]]].
  - destruct Hw as [[-> ->]|(b & s & [Eb Ec Es Hr Hl Hsz Hld Hnd])]; [by apply not_elem_of_nil in Hn|].
    right. exists (map (map (put (addr n) v)) b), s. split; cbn; rewrite ?length_map, ?length_fmap; try done; [by rewrite Eb|by apply laid_put|by apply wf_nodes_put].
  - eapply content_put; [by apply wf_wf_nodes|done].
Qed.

(** ** Removal *)

Lemma unlink_spec p c :
  match unlink p c with
  | Some c' => exists c1 n c2, c = c1 ++ n :: c2 /\ c' = c1 ++ c2 /\ p n = true /\ forall n', n' ∈ c1 -> p n' = false
  | None => forall n, n ∈ c -> p n = false
  end.
Proof.
  induction c as [|n c IH]; cbn; [by intros n ?%not_elem_of_nil|]. destruct (p n) eqn:Ep.
  - exists [], n, c. repeat split; [done|]. by intros n' ?%not_elem_of_nil.
  - destruct (unlink p c) as [c'|]; cbn.
    + destruct IH as (c1 & n1 & c2 & -> & -> & E & H). exists (n :: c1), n1, c2. repeat split; [done|].
      intros n' [->|Hn']%elem_of_cons; auto.
    + intros n' [->|Hn']%elem_of_cons; auto.
Qed.

Lemma unlink_app p c1 n c2 : (forall n', n' ∈ c1 -> p n' = false) -> p n = true -> unlink p (c1 ++ n :: c2) = Some (c1 ++ c2).
Proof.
  induction c1 as [|n1 c1 IH]; intros Hc Hn; cbn; [by rewrite Hn|]. rewrite (Hc n1) by apply list_elem_of_here.
  rewrite IH; [done| |done]. intros n' Hn'. apply Hc. by apply elem_of_cons; right.
Qed.

Lemma hash_map_content_delete n ns next : wf_nodes (n :: ns) next -> content ns = delete (key n) (content (n :: ns)).
Proof.
  intros Hw. rewrite content_cons, delete_insert_id; [done|]. apply content_none. intros n' Hn'. by apply (wf_nodes_head n ns next).
Qed.

(** Taking one node out of its chain. *)
Lemma with_bucket_good m b s ns c1 n c2 :
  good m b s ns -> b !! BucketOf s (hash n) = Some (c1 ++ n :: c2) ->
  exists ns', good (with_bucket m (BucketOf s (hash n)) (c1 ++ c2)) (<[BucketOf s (hash n) := c1 ++ c2]> b) s ns' /\ ns ≡ₚ n :: ns'.
Proof.
  intros Hg E. pose proof (good_laid _ _ _ _ Hg) as Hl. set (i := BucketOf s (hash n)) in *.
  set (ns' := concat (take i b) ++ (c1 ++ c2) ++ concat (drop (S i) b)). exists ns'.
  assert (Hp : ns ≡ₚ n :: ns').
  { rewrite <- (laid_nodes _ _ _ Hl), (concat_take_drop b i _ E). unfold ns'. rewrite <- !app_assoc. cbn [app].
    rewrite !(app_assoc _ c1). symmetry. apply Permutation_middle. }
  split; [|done]. pose proof (Permutation_length Hp) as Hlen. cbn in Hlen.
  destruct Hg as [Eb Ec Es Hr _ Hsz Hld Hnd]. assert (Z.of_nat (length b) <= 2 ^ 60) by (rewrite (laid_length _ _ _ Hl); apply Z.pow_le_mono_r; lia).
  split; cbn; rewrite ?length_insert.
  - by rewrite Eb.
  - done.
  - done.
  - done.
  - eapply laid_update; [done|done| |].
    + intros n' Hn'. apply (laid_placed _ _ _ Hl i _ n' E). rewrite elem_of_app, elem_of_cons.
      apply elem_of_app in Hn' as [?|?]; [by left|by right; right].
    + intros l1 l2 Hp'. apply (Permutation_cons_inv (a := n)). rewrite <- Hp, <- Hp', <- !app_assoc. cbn [app]. rewrite !(app_assoc _ c1). apply Permutation_middle.
  - rewrite wrap_small; [lia|]. unfold fits. change (2 ^ 64) with (2 ^ 60 * 16). lia.
  - lia.
  - apply (wf_nodes_tail n). by eapply wf_nodes_perm.
Qed.

Lemma hash_map_erase_ok m ns k :
  wf m ns -> exists m' n ns', erase m k = Ok (m', n) /\ wf m' ns' /\ next_addr m' = next_addr m /\
    content ns' = delete k (content ns) /\ n = if decide (is_Some (content ns !! k)) then 1 else 0.
Proof.
  intros Hw. destruct Hw as [[-> ->]|(b & s & Hg)].
  { exists (new_map (next_addr m)), 0, []. split; [done|]. split; [by left|]. split; [done|]. split; [symmetry; apply delete_empty|].
    rewrite decide_False; [done|]. by intros [??]. }
  unfold erase. rewrite (good_count_pos _ _ _ _ Hg), (good_buckets _ _ _ _ Hg), (good_shift _ _ _ _ Hg).
  destruct (good_bucket m b s ns (hasher_ k) Hg) as (c & -> & E & Hc). cbn [mbind res_bind].
  pose proof (wf_hash _ _ (good_nodes _ _ _ _ Hg)) as Hh. pose proof (good_nodes _ _ _ _ Hg) as Hwn.
  set (p := fun n => (hash n =? hasher_ k) && bool_decide (key n = k)). pose proof (unlink_spec p c) as Hu.
  destruct (unlink p c) as [c'|].
  - destruct Hu as (c1 & n & c2 & -> & -> & Ep & _). unfold p in Ep. apply andb_true_iff in Ep as [Eh Ek].
    apply Z.eqb_eq in Eh. apply bool_decide_eq_true in Ek. subst k. rewrite <- Eh in *.
    destruct (with_bucket_good m b s ns c1 n c2 Hg E) as (ns' & Hg' & Hp). eexists _, _, ns'. split; [done|].
    split; [right; by eexists _, _|]. split; [done|].
    assert (Hn : n ∈ ns) by (rewrite Hp; apply list_elem_of_here). split.
    + rewrite (content_perm _ _ _ Hp Hwn). apply (hash_map_content_delete n ns' (next_addr m)). by eapply wf_nodes_perm.
    + rewrite decide_True; [done|]. rewrite (content_some ns _ n Hwn Hn). eauto.
  - exists m, 0, ns. split; [done|]. assert (Hno : content ns !! k = None).
    { apply content_none. intros n Hn Ek. destruct (good_elem m b s ns n Hg Hn) as (c' & E' & Hn').
      rewrite (Hh n Hn), Ek, E in E'. injection E' as <-. specialize (Hu n Hn'). unfold p in Hu.
      rewrite (Hh n Hn), Ek, Z.eqb_refl, bool_decide_eq_true_2 in Hu by done. done. }
    split; [right; by exists b, s|]. split; [done|]. rewrite delete_id by done. split; [done|]. rewrite Hno. rewrite decide_False; [done|].
    by intros [??].
Qed.

(** Removing through an iterator: the other nodes stay where they are in the order of
    iteration, and the iterator returned is the next one of it. *)
Lemma erase_iterator_ok m ns l1 n l2 :
  wf m ns -> nodes m = Ok (l1 ++ n :: l2) ->
  exists m' ns', erase_iterator m (addr n) = Ok (m', addr <$> head l2) /\ wf m' ns' /\ next_addr m' = next_addr m /\
    ns ≡ₚ n :: ns' /\ nodes m' = Ok (l1 ++ l2).
Proof.
  intros [[E0 ->]|(b & s & Hg)] Hn; [rewrite E0 in Hn; by destruct l1|].
  rewrite (good_walk m b s ns Hg) in Hn. injection Hn as Hn.
  destruct (good_position m b s ns l1 n l2 Hg Hn) as (i & c1 & c2 & Hi & Ei & E1 & E2 & Ea & Hc1). subst i.
  destruct (with_bucket_good m b s ns c1 n c2 Hg Ei) as (ns' & Hg' & Hp).
  unfold erase_iterator. rewrite Ea. cbn [mbind res_bind]. rewrite (NextNode_ok m b s ns l1 n l2 Hg Hn). cbn [mbind res_bind].
  rewrite (good_buckets _ _ _ _ Hg), (good_shift _ _ _ _ Hg), (get_chain_ok _ _ _ Ei). cbn [mbind res_bind].
  rewrite unlink_app; [|intros n' Hn'; by apply Nat.eqb_neq, Hc1|apply Nat.eqb_refl].
  eexists _, ns'. split; [by destruct l2|]. split; [right; by eexists _, _|]. split; [done|]. split; [done|].
  rewrite (good_walk _ _ _ _ Hg'), (concat_update b _ _ _ Ei), E1, E2, <- !app_assoc. done.
Qed.

(** ** The other operations *)

Lemma hash_map_clear_ok m ns : wf m ns -> wf (clear m) [] /\ next_addr (clear m) = next_addr m /\ nodes (clear m) = Ok [].
Proof.
  intros Hw. assert (H : wf (clear m) []).
  { destruct Hw as [[E ->]|(b & s & Hg)]; [left; split; [rewrite E at 1; done|done]|].
    right. exists (replicate (length b) []), s. pose proof (laid_length _ _ _ (good_laid _ _ _ _ Hg)) as Hl.
    destruct Hg as [Eb Ec Es Hr _ Hsz Hld Hnd]. split; cbn; rewrite ?length_replicate; try done; [by rewrite Eb| |lia|apply wf_nodes_nil].
    rewrite <- (Nat2Z.id (length b)), Hl. apply laid_empty. }
  split; [done|]. split; [done|]. destruct (nodes_ok _ _ H) as (l & -> & ->%Permutation_nil_r). done.
Qed.

Lemma hash_map_reserve_wp R m ns n :
  wf m ns -> 0 <= n <= 2 ^ 60 -> (R -> bucket_room n) ->
  wp R (reserve m n) (fun m' => exists ns', wf m' ns' /\ ns' ≡ₚ ns /\ n <= Z.of_nat (bucket_count_ m') /\ next_addr m' = next_addr m).
Proof.
  intros Hw Hn HR. unfold reserve. destruct (Z.ltb_spec (Z.of_nat (bucket_count_ m)) n) as [Hlt|Hge]; [|by exists ns].
  assert (Hle : Z.of_nat (length ns) <= Z.of_nat (bucket_count_ m)).
  { destruct Hw as [[E ->]|(b & s & Hg)]; [cbn; lia|]. rewrite (good_count _ _ _ _ Hg). pose proof (good_load _ _ _ _ Hg). lia. }
  eapply wp_mono; [by apply (Rehash_wp R m ns n Hw); [lia|]|]. intros m' (b & s & ns' & Hg & Hp & Hb & Ha).
  exists ns'. split; [right; by exists b, s|]. split; [done|]. by rewrite (good_count _ _ _ _ Hg).
Qed.

(** Keys and values, whatever the addresses. *)
Definition pairs ns : gmap K V := snd <$> content ns.
Definition insert_all (c : gmap K V) (es : list (K * V)) : gmap K V :=
  fold_left (fun c e => match c !! e.1 with Some _ => c | None => <[e.1 := e.2]> c end) es c.

Definition room (R : Prop) (n : Z) : Prop := R -> allocates sizeof_Node = true /\ forall k, k <= n -> bucket_room k.

Lemma room_node (R : Prop) n k : k <= n -> room R n -> node_room R k.
Proof. intros Hk H r. destruct (H r) as [? Hb]. auto. Qed.

Lemma pairs_nil : pairs [] = ∅.
Proof. apply fmap_empty. Qed.

(** No node of the table is older than [N]. *)
Definition newer (N : nat) ns : Prop := forall n, n ∈ ns -> (N <= addr n)%nat.

Lemma emplace_newer N m ns ns' k v :
  wf m ns -> wf_nodes ns' (next_addr m) \/ wf_nodes ns' (S (next_addr m)) -> (N <= next_addr m)%nat ->
  content ns' = added (content ns) k (next_addr m) v -> newer N ns -> newer N ns'.
Proof.
  intros Hw Hw' HN Hc Hold n Hn. assert (E : content ns' !! key n = Some (addr n, value n)) by (destruct Hw'; by eapply content_some).
  rewrite Hc in E. unfold added in E. apply wf_wf_nodes in Hw.
  assert (Hin : content ns !! key n = Some (addr n, value n) -> (N <= addr n)%nat).
  { intros (n0 & Hn0 & _ & <- & _)%(hash_map_content_lookup ns (next_addr m)); [|done]. by apply Hold. }
  destruct (content ns !! k) eqn:Ek; [by apply Hin|]. apply lookup_insert_Some in E as [(_ & [= <- _])|(_ & E)]; [done|by apply Hin].
Qed.

Lemma insert_all_union es c : insert_all c es = c ∪ list_to_map es.
Proof.
  unfold insert_all. revert c. induction es as [|[k v] es IH]; intros c; cbn; [by rewrite right_id_L by apply _|].
  rewrite IH. destruct (c !! k) as [v'|] eqn:E.
  - apply map_eq. intros j. rewrite !lookup_union. destruct (decide (j = k)) as [->|Hne]; [|by rewrite lookup_insert_ne by done].
    rewrite E, lookup_insert_eq. by destruct (list_to_map es !! k).
  - by rewrite <- insert_union_l, insert_union_r by done.
Qed.

Lemma emplace_all_wp R es m ns N :
  wf m ns -> Z.of_nat (length ns + length es) <= 2 ^ 60 -> room R (Z.of_nat (length ns + length es)) -> (N <= next_addr m)%nat -> newer N ns ->
  wp R (emplace_all m es) (fun m' => exists ns', wf m' ns' /\ pairs ns' = pairs ns ∪ list_to_map es /\ newer N ns').
Proof.
  intros Hw Hn HR HN Hnew. rewrite <- insert_all_union. unfold emplace_all, insert_all.
  assert (H : forall es mm M, wp R mm (fun m => exists ns, wf m ns /\ pairs ns = M /\ (N <= next_addr m)%nat /\ newer N ns /\
      Z.of_nat (length ns + length es) <= 2 ^ 60 /\ room R (Z.of_nat (length ns + length es))) ->
    wp R (fold_left (fun m e => m ← m; '(m, _, _) ← emplace m e.1 e.2; Ok m) es mm)
      (fun m' => exists ns', wf m' ns' /\ pairs ns' = fold_left (fun c e => match c !! e.1 with Some _ => c | None => <[e.1 := e.2]> c end) es M /\ newer N ns')).
  { clear. induction es as [|e es IH]; intros mm M Hm; cbn [fold_left].
    - eapply wp_mono; [exact Hm|]. intros m (ns & Hw & HM & HN & Hnew & _). by exists ns.
    - apply IH. eapply wp_seq; [exact Hm|]. intros m (ns & Hw & HM & HN & Hnew & Hn & HR). cbn [length] in Hn, HR.
      eapply wp_seq; [apply (hash_map_emplace_wp R m ns e.1 e.2 Hw); [lia|eapply room_node; [|exact HR]; lia]|].
      intros [[m' a] fresh] (ns' & Hw' & Hc & Hr). exists ns'. split; [done|]. unfold pairs in *.
      pose proof (wf_wf_nodes m' ns' Hw') as Hwn'. pose proof (emplace_newer N m ns ns' e.1 e.2 Hw) as Hnewer.
      rewrite Hc at 1. unfold added at 1. rewrite <- HM, lookup_fmap. destruct (content ns !! e.1) as [[a' v']|]; cbn.
      + destruct Hr as (-> & -> & _). split; [done|]. split; [done|]. split; [done|]. split; [lia|]. intros r. destruct (HR r) as [? Hb]. split; [done|]. intros k Hk. apply Hb. lia.
      + destruct Hr as (_ & _ & E & El). rewrite E in Hwn'. split; [by rewrite fmap_insert|]. split; [lia|].
        split; [by apply Hnewer; [right| | |]|]. split; [lia|]. by replace (length ns' + length es)%nat with (length ns + S (length es))%nat by lia. }
  apply H. by exists ns.
Qed.

(** The constructor from a list: of equal keys, the first stays. *)
Lemma from_list_wp R next es :
  Z.of_nat (length es) <= 2 ^ 60 -> room R (Z.of_nat (length es)) ->
  wp R (from_list next es) (fun m => exists ns, wf m ns /\ pairs ns = list_to_map es).
Proof.
  intros Hn HR. unfold from_list. eapply wp_seq.
  - apply (hash_map_reserve_wp R (new_map next) []); [by left|lia|]. intros r. by apply HR.
  - intros m (ns & Hw & ->%Permutation_nil_r & _ & Ha). eapply wp_mono; [apply (emplace_all_wp R es m [] 0); [done|done|done|lia|by intros n ?%not_elem_of_nil]|].
    intros m' (ns' & Hw' & E & _). exists ns'. split; [done|]. rewrite E, pairs_nil. by rewrite left_id_L by apply _.
Qed.

Lemma CopyFrom_wp R next m ns :
  wf m ns -> Z.of_nat (length ns) <= 2 ^ 60 -> room R (Z.of_nat (length ns)) ->
  wp R (CopyFrom (new_map next) m) (fun c => exists ns', wf c ns' /\ pairs ns' = pairs ns /\ newer next ns').
Proof.
  intros Hw Hn HR. unfold CopyFrom. rewrite (wf_size m ns Hw). eapply wp_seq.
  - apply (hash_map_reserve_wp R (new_map next) []); [by left|lia|]. intros r. by apply HR.
  - intros c (ns0 & Hw0 & ->%Permutation_nil_r & _ & Ha). destruct (nodes_ok m ns Hw) as (l & -> & Hp). cbn [mbind res_bind].
    pose proof (Permutation_length Hp) as Hlen.
    eapply wp_mono; [apply (emplace_all_wp R _ c [] next); [done|cbn; rewrite length_fmap; lia| |cbn in Ha; lia|by intros n ?%not_elem_of_nil]|].
    + cbn. by rewrite length_fmap, Hlen.
    + intros c' (ns' & Hw' & E & Hnew). exists ns'. split; [done|]. split; [|done]. rewrite E, pairs_nil, left_id_L by apply _.
      symmetry in Hp. unfold pairs. rewrite (content_perm _ _ _ Hp (wf_wf_nodes m ns Hw)). unfold content. rewrite <- list_to_map_fmap.
      by rewrite <- list_fmap_compose.
Qed.

End HashMap.

#[global] Arguments mkMap {K V}.
#[global] Arguments new_map {K V}.

(** ** HashSet: the map from keys to nothing *)

Section HashSet.

Context {K : Type} {eqK : EqDecision K} {countK : Countable K}.
Context (hasher_ : K -> Z) (allocates : Z -> bool) (sizeof_Node : Z).

Definition HashSet : Type := @HashMap K unit.

Definition set_insert (s : HashSet) (k : K) : res (HashSet * nat * bool) := emplace hasher_ allocates sizeof_Node s k ().
Definition set_find (s : HashSet) (k : K) : res (option nat) := find hasher_ s k.
Definition set_contains (s : HashSet) (k : K) : res bool := contains hasher_ s k.
Definition set_erase (s : HashSet) (k : K) : res (HashSet * Z) := erase hasher_ s k.
Definition set_erase_iterator (s : HashSet) (it : nat) : res (HashSet * option nat) := erase_iterator s it.
Definition set_clear (s : HashSet) : HashSet := clear s.
Definition set_reserve (s : HashSet) (n : Z) : res HashSet := reserve allocates s n.

Definition set_from_list (next : nat) (ks : list K) : res HashSet :=
  s ← set_reserve (new_map next) (Z.of_nat (length ks));
  fold_left (fun s k => s ← s; '(s, _, _) ← set_insert s k; Ok s) ks (Ok s).

End HashSet.
