(* ===== verification/HashMapSpec.v ===== *)
(** * The contract of base::HashMap: a finite map with stable entries

    Programs over a table refine programs over a [gmap] that gives every key the
    address of its node beside its value.  Addresses are part of the results, and a
    program may read, write and erase through any address of a key that is still
    there: no operation in between, no rehash, moves it. *)

From stdpp Require Import gmap.
From S2P Require Import Prelude Memory Refine HashMap.

Set Default Proof Using "Type".

Section Programs.

Context {K V : Type} {eqK : EqDecision K} {countK : Countable K}.
Context (hasher_ : K -> Z) (dflt : V) (allocates : Z -> bool) (sizeof_Node : Z).

Inductive op :=
  | Emplace (k : K) (v : V)
  | InsertOrAssign (k : K) (v : V)
  | Subscript (k : K)
  | Read (it : nat)
  | Write (it : nat) (v : V)
  | Find (k : K)
  | At (k : K)
  | Contains (k : K)
  | CountKey (k : K)
  | Erase (k : K)
  | EraseAt (it : nat)
  | Clear
  | Reserve (n : Z)
  | Size
  | IsEmpty
  | MoveConstruct  (** [HashMap c(move(m))]; [m] is destroyed and [c] goes on *).

Inductive out := Done | Flag (b : bool) | Elem (v : V) | Where (it : option nat) | Added (it : nat) (fresh : bool) | Count (n : Z).

Definition run_op (o : op) (m : HashMap) : res (HashMap * out) :=
  match o with
  | Emplace k v => '(m, it, fresh) ← emplace hasher_ allocates sizeof_Node m k v; Ok (m, Added it fresh)
  | InsertOrAssign k v => '(m, it, fresh) ← insert_or_assign hasher_ allocates sizeof_Node m k v; Ok (m, Added it fresh)
  | Subscript k => '(m, it) ← subscript hasher_ dflt allocates sizeof_Node m k; Ok (m, Where (Some it))
  | Read it => '(n, _) ← node_at m it; Ok (m, Elem (value n))
  | Write it v => m ← assign_node m it v; Ok (m, Done)
  | Find k => it ← find hasher_ m k; Ok (m, Where it)
  | At k => v ← at_ hasher_ m k; Ok (m, Elem v)
  | Contains k => b ← contains hasher_ m k; Ok (m, Flag b)
  | CountKey k => n ← count hasher_ m k; Ok (m, Count n)
  | Erase k => '(m, n) ← erase hasher_ m k; Ok (m, Count n)
  | EraseAt it => '(m, _) ← erase_iterator m it; Ok (m, Done)
  | Clear => Ok (clear m, Done)
  | Reserve n => m ← reserve allocates m n; Ok (m, Done)
  | Size => Ok (m, Count (size_ m))
  | IsEmpty => Ok (m, Flag (size_ m =? 0))
  | MoveConstruct => let '(c, m) := StealFrom m in let _ := Release m in Ok (c, Done)
  end.

(** ** Specification *)

Record Abs := mkAbs { cont : gmap K (nat * V); next : nat }.

(** The key whose node has an address. *)
Definition key_at (c : gmap K (nat * V)) (it : nat) : option K :=
  fst <$> List.find (fun e => (e.2.1 =? it)%nat) (map_to_list c).

Definition fresh_node (a : Abs) (k : K) (v : V) : Abs := mkAbs (<[k := (next a, v)]> (cont a)) (S (next a)).

Definition has_space (a : Abs) : Prop := Z.of_nat (base.size (cont a)) < 2 ^ 60.

Definition spec_op (o : op) (a : Abs) : option (Abs * out) :=
  let c := cont a in
  match o with
  | Emplace k v =>
    match c !! k with
    | Some (it, _) => Some (a, Added it false)
    | None => if decide (has_space a) then Some (fresh_node a k v, Added (next a) true) else None
    end
  | InsertOrAssign k v =>
    match c !! k with
    | Some (it, _) => Some (mkAbs (<[k := (it, v)]> c) (next a), Added it false)
    | None => if decide (has_space a) then Some (fresh_node a k v, Added (next a) true) else None
    end
  | Subscript k =>
    match c !! k with
    | Some (it, _) => Some (a, Where (Some it))
    | None => if decide (has_space a) then Some (fresh_node a k dflt, Where (Some (next a))) else None
    end
  | Read it => k ← key_at c it; '(_, v) ← c !! k; Some (a, Elem v)
  | Write it v => k ← key_at c it; Some (mkAbs (<[k := (it, v)]> c) (next a), Done)
  | Find k => Some (a, Where (fst <$> c !! k))
  | At k => '(_, v) ← c !! k; Some (a, Elem v)
  | Contains k => Some (a, Flag (bool_decide (is_Some (c !! k))))
  | CountKey k => Some (a, Count (if decide (is_Some (c !! k)) then 1 else 0))
  | Erase k => Some (mkAbs (delete k c) (next a), Count (if decide (is_Some (c !! k)) then 1 else 0))
  | EraseAt it => k ← key_at c it; Some (mkAbs (delete k c) (next a), Done)
  | Clear => Some (mkAbs ∅ (next a), Done)
  | Reserve n => if decide (0 <= n <= 2 ^ 60) then Some (a, Done) else None
  | Size => Some (a, Count (Z.of_nat (base.size c)))
  | IsEmpty => Some (a, Flag (bool_decide (c = ∅)))
  | MoveConstruct => Some (a, Done)
  end.

Definition need_op (o : op) (a : Abs) : Prop :=
  match o with
  | Emplace _ _ | InsertOrAssign _ _ | Subscript _ =>
    allocates sizeof_Node = true /\ bucket_room allocates (Z.of_nat (base.size (cont a)) + 1)
  | Reserve n => bucket_room allocates n
  | _ => True
  end.

(** ** Refinement *)

Definition rel (m : HashMap) (a : Abs) : Prop := exists ns, wf hasher_ m ns /\ content ns = cont a /\ next_addr m = next a.

Definition post (a : Abs) (r : out) (p : HashMap * out) : Prop := rel p.1 a /\ p.2 = r.

Lemma hash_map_rel_start n : rel (new_map n) (mkAbs ∅ n).
Proof. exists []. split; [by left|done]. Qed.

Lemma wf_content_size m (ns : list (@Node K V)) : wf hasher_ m ns -> base.size (content ns) = length ns.
Proof. intros Hw. by eapply (content_size hasher_), (wf_wf_nodes hasher_). Qed.

Lemma key_at_node m ns it k :
  wf hasher_ m ns -> key_at (content ns) it = Some k -> exists n, n ∈ ns /\ addr n = it /\ key n = k /\ content ns !! k = Some (it, value n).
Proof.
  intros Hw E. unfold key_at in E. destruct (List.find _ _) as [[k' [a v]]|] eqn:Ef; [|done]. injection E as ->.
  apply List.find_some in Ef as [Hin Ea]. cbn in Ea. apply Nat.eqb_eq in Ea as ->. apply list_elem_of_In, elem_of_map_to_list in Hin.
  pose proof (wf_wf_nodes hasher_ m ns Hw) as Hwn. pose proof Hin as Hin'.
  apply (hash_map_content_lookup hasher_ ns _ k it v Hwn) in Hin as (n & Hn & <- & <- & <-). by exists n.
Qed.

Lemma hash_map_emplace_rel R m a k v :
  rel m a -> has_space a -> (R -> allocates sizeof_Node = true /\ bucket_room allocates (Z.of_nat (base.size (cont a)) + 1)) ->
  wp R (emplace hasher_ allocates sizeof_Node m k v) (fun '(m', it, fresh) =>
    match cont a !! k with
    | Some (it', _) => rel m' a /\ it = it' /\ fresh = false
    | None => rel m' (fresh_node a k v) /\ it = next a /\ fresh = true
    end).
Proof.
  intros (ns & Hw & Hc & Hx) Hs HR. unfold has_space in Hs. rewrite <- Hc in Hs, HR. rewrite (wf_content_size m ns Hw) in Hs, HR.
  eapply wp_mono; [by apply (hash_map_emplace_wp hasher_ allocates sizeof_Node R m ns k v Hw)|].
  intros [[m' it] fresh] (ns' & Hw' & Hc' & Hr). unfold added in Hc'. rewrite Hc in Hr, Hc'. destruct (cont a !! k) as [[it' v']|].
  - destruct Hr as (-> & -> & -> & ->). split; [by exists ns|done].
  - destruct Hr as (-> & -> & En & _). rewrite Hx. split; [|done]. exists ns'. split; [done|]. cbn. rewrite Hc', Hx. split; [done|congruence].
Qed.

(** An entry that is there is found without any resource. *)
Lemma emplace_found R m a k v it v' :
  rel m a -> cont a !! k = Some (it, v') -> wp R (emplace hasher_ allocates sizeof_Node m k v) (fun r => r = (m, it, false)).
Proof.
  intros (ns & Hw & Hc & _) E. unfold emplace. destruct (FindNode_content hasher_ m ns k Hw) as (r & -> & Hk & _). cbn [mbind res_bind].
  rewrite Hc, E in Hk. destruct r as [n|]; [|done]. by injection Hk as -> _.
Qed.

Lemma hash_map_insert_refines R o m a a' r :
  match o with Emplace _ _ | InsertOrAssign _ _ | Subscript _ => True | _ => False end ->
  rel m a -> spec_op o a = Some (a', r) -> (R -> need_op o a) -> wp R (run_op o m) (post a' r).
Proof.
  intros Ho Hr Hs HR. destruct o; try done; cbn [spec_op need_op run_op] in *;
    destruct (cont a !! k) as [[it w]|] eqn:E; try (case_decide; [|done]); injection Hs as <- <-.
  - eapply wp_seq; [by eapply emplace_found|]. by intros ? ->.
  - eapply wp_seq; [by apply hash_map_emplace_rel|]. intros [[m' it] fresh]. rewrite E. by intros (Hr' & -> & ->).
  - destruct Hr as (ns & Hw & Hc & Hx). unfold insert_or_assign. destruct (FindNode_content hasher_ m ns k Hw) as (q & -> & Hk & Hq). cbn [mbind res_bind].
    rewrite Hc, E in Hk. destruct q as [n|]; [|done]. injection Hk as Ha Hv. destruct (Hq n eq_refl) as [Hn Ek].
    destruct (assign_node_ok hasher_ m ns n v Hw Hn) as (m' & ns' & -> & Hw' & Hx' & _ & Hc'). cbn. rewrite <- Ha. split; [|done].
    exists ns'. split; [done|]. cbn. split; [by rewrite Hc', Ek, Hc, Ha|congruence].
  - pose proof Hr as (ns & Hw & Hc & Hx). unfold insert_or_assign. destruct (FindNode_content hasher_ m ns k Hw) as (q & -> & Hk & Hq). cbn [mbind res_bind].
    rewrite Hc, E in Hk. destruct q as [n|]; [done|]. eapply wp_seq; [by apply hash_map_emplace_rel|]. intros [[m' it] fresh]. rewrite E. by intros (Hr' & -> & ->).
  - unfold subscript. apply wp_bind. eapply wp_seq; [by eapply emplace_found|]. by intros ? ->.
  - unfold subscript. apply wp_bind. eapply wp_seq; [by apply hash_map_emplace_rel|]. intros [[m' it] fresh]. rewrite E. by intros (Hr' & -> & ->).
Qed.

Lemma hash_map_lookup_refines R o m a a' r :
  match o with Read _ | Find _ | At _ | Contains _ | CountKey _ | Size | IsEmpty => True | _ => False end ->
  rel m a -> spec_op o a = Some (a', r) -> wp R (run_op o m) (post a' r).
Proof.
  intros Ho Hr Hs. pose proof Hr as (ns & Hw & Hc & Hx). destruct o; try done; cbn [spec_op run_op] in *.
  - destruct (key_at (cont a) it) as [k|] eqn:Ek; [|done]. cbn in Hs. rewrite <- Hc in *. destruct (key_at_node m ns it k Hw Ek) as (n & Hn & <- & _ & E).
    rewrite E in Hs. injection Hs as <- <-. destruct (node_at_ok hasher_ m ns n Hw Hn) as (rest & ->). cbn. by split.
  - injection Hs as <- <-. unfold find. destruct (FindNode_content hasher_ m ns k Hw) as (q & -> & Hk & _). cbn. rewrite <- Hc, Hk. split; [done|]. by destruct q.
  - destruct (cont a !! k) as [[it v]|] eqn:E; [|done]. injection Hs as <- <-. unfold at_. destruct (FindNode_content hasher_ m ns k Hw) as (q & -> & Hk & _).
    rewrite Hc, E in Hk. destruct q as [n|]; [|done]. injection Hk as _ ->. by split.
  - injection Hs as <- <-. unfold contains. destruct (FindNode_content hasher_ m ns k Hw) as (q & -> & Hk & _). rewrite <- Hc, Hk. split; [done|]. by destruct q.
  - injection Hs as <- <-. unfold count, contains. destruct (FindNode_content hasher_ m ns k Hw) as (q & -> & Hk & _). rewrite <- Hc, Hk. split; [done|].
    by destruct q.
  - injection Hs as <- <-. split; [done|]. cbn. by rewrite (wf_size hasher_ m ns Hw), <- Hc, (wf_content_size m ns Hw).
  - injection Hs as <- <-. split; [done|]. cbn. f_equal. apply bool_eq_iff. rewrite (wf_size hasher_ m ns Hw), Z.eqb_eq, bool_decide_eq_true, <- Hc.
    rewrite <- map_size_empty_iff, (wf_content_size m ns Hw). lia.
Qed.

#[export] Instance hash_map_refines : Refines run_op spec_op need_op rel.
Proof.
  intros R o m a a' r Hr Hs HR.
  destruct o; try (refine (hash_map_insert_refines R _ m a a' r _ Hr Hs HR); exact I); try (refine (hash_map_lookup_refines R _ m a a' r _ Hr Hs); exact I);
    destruct Hr as (ns & Hw & Hc & Hx); cbn [spec_op need_op run_op] in *.
  - destruct (key_at (cont a) it) as [k|] eqn:Ek; [|done]. injection Hs as <- <-. rewrite <- Hc in *.
    destruct (key_at_node m ns it k Hw Ek) as (n & Hn & <- & <- & _).
    destruct (assign_node_ok hasher_ m ns n v Hw Hn) as (m' & ns' & -> & Hw' & Hx' & _ & Hc'). cbn. split; [|done].
    exists ns'. split; [done|]. cbn. split; [done|congruence].
  - injection Hs as <- <-. destruct (hash_map_erase_ok hasher_ m ns k Hw) as (m' & n & ns' & -> & Hw' & Hx' & Hc' & ->). rewrite Hc in *.
    split; [|done]. exists ns'. split; [done|]. cbn. split; [done|congruence].
  - destruct (key_at (cont a) it) as [k|] eqn:Ek; [|done]. injection Hs as <- <-. rewrite <- Hc in *.
    destruct (key_at_node m ns it k Hw Ek) as (n & Hn & <- & <- & _). destruct (nodes_ok hasher_ m ns Hw) as (l & El & Hp).
    rewrite <- Hp in Hn. apply list_elem_of_split in Hn as (l1 & l2 & ->).
    destruct (erase_iterator_ok hasher_ m ns l1 n l2 Hw El) as (m' & ns' & -> & Hw' & Hx' & Hp' & _). cbn. split; [|done].
    exists ns'. split; [done|]. cbn. split; [|congruence]. pose proof (wf_wf_nodes hasher_ m ns Hw) as Hwn.
    rewrite (content_perm hasher_ _ _ _ Hp' Hwn). apply (hash_map_content_delete hasher_ n ns' (next_addr m)). by eapply wf_nodes_perm.
  - injection Hs as <- <-. destruct (hash_map_clear_ok hasher_ m ns Hw) as (Hw' & Hx' & _). split; [|done]. exists []. split; [done|]. cbn. by rewrite <- Hx.
  - case_decide; [|done]. injection Hs as <- <-. eapply wp_seq; [by apply (hash_map_reserve_wp hasher_ allocates R m ns n Hw)|].
    intros m' (ns' & Hw' & Hp & _ & Hx'). split; [|done]. exists ns'. split; [done|]. cbn. split; [|congruence].
    rewrite <- Hc. symmetry. apply (content_perm hasher_ ns ns' (next_addr m)); [done|]. by apply wf_wf_nodes.
  - injection Hs as <- <-. split; [|done]. by exists ns.
Qed.

(** What iteration shows of a table. *)
Lemma nodes_content m ns : wf hasher_ m ns -> exists l, nodes m = Ok l /\ (@entry K V) <$> l ≡ₚ map_to_list (content ns).
Proof.
  intros Hw. destruct (nodes_ok hasher_ m ns Hw) as (l & -> & Hp). exists l. split; [done|]. rewrite Hp. symmetry. apply map_to_list_to_map.
  rewrite entry_keys. by eapply wf_keys, (wf_wf_nodes hasher_).
Qed.

(** C12. Every program over a table that the map semantics accepts follows no pointer to a
    node that is gone and returns what the finite map says, the addresses of the nodes
    included: an entry keeps its address through every insertion, rehash and erasure of
    other keys.  At its end, iteration visits every entry of the map exactly once.  The
    program stops only when an allocation is refused. *)
Theorem HashMap_programs n os a' outs :
  spec_ops spec_op os (mkAbs ∅ n) = Some (a', outs) ->
  run_ops run_op os (new_map n) <> Undef /\
  (forall m' outs', run_ops run_op os (new_map n) = Ok (m', outs') ->
     outs' = outs /\ exists l, nodes m' = Ok l /\ (@entry K V) <$> l ≡ₚ map_to_list (cont a')) /\
  (needs spec_op need_op os (mkAbs ∅ n) -> exists m', run_ops run_op os (new_map n) = Ok (m', outs)).
Proof.
  intros Hs. destruct (programs_refine run_op spec_op need_op rel os (new_map n) _ a' outs (hash_map_rel_start n) Hs) as (H1 & H2 & H3).
  split; [done|]. split.
  - intros m' outs' E. destruct (H2 m' outs' E) as [(ns & Hw & <- & _) ->]. split; [done|]. by apply nodes_content.
  - intros Hn. destruct (H3 Hn) as (m' & E & _). eauto.
Qed.

(** Erasing while iterating: [erase(it)] takes exactly the entry under the iterator out
    of the order of iteration, leaves the others where they were in it, and returns the
    iterator of the next one. *)
Theorem HashMap_erase_order m ns l1 n l2 :
  wf hasher_ m ns -> nodes m = Ok (l1 ++ n :: l2) ->
  exists m' ns', erase_iterator m (addr n) = Ok (m', (@addr K V) <$> head l2) /\ nodes m' = Ok (l1 ++ l2) /\ wf hasher_ m' ns' /\
    content ns' = delete (key n) (content ns).
Proof.
  intros Hw El. destruct (erase_iterator_ok hasher_ m ns l1 n l2 Hw El) as (m' & ns' & E & Hw' & _ & Hp & En).
  exists m', ns'. split; [done|]. split; [done|]. split; [done|]. pose proof (wf_wf_nodes hasher_ m ns Hw) as Hwn.
  rewrite (content_perm hasher_ _ _ _ Hp Hwn). apply (hash_map_content_delete hasher_ n ns' (next_addr m)). by eapply wf_nodes_perm.
Qed.

(** A copy holds the keys and values of the original in nodes of its own, and a table
    made from a list the first value that the list gives each of its keys. *)
Theorem HashMap_copies other ns (es : list (K * V)) next :
  wf hasher_ other ns -> Z.of_nat (Nat.max (length ns) (length es)) <= 2 ^ 60 ->
  allocates sizeof_Node = true -> (forall k, k <= Z.of_nat (Nat.max (length ns) (length es)) -> bucket_room allocates k) ->
  (exists c ns', copy_construct hasher_ allocates sizeof_Node other = Ok c /\ wf hasher_ c ns' /\ pairs ns' = pairs ns /\
     forall n n' : @Node K V, n ∈ ns -> n' ∈ ns' -> addr n <> addr n') /\
  (exists c ns', from_list hasher_ allocates sizeof_Node next es = Ok c /\ wf hasher_ c ns' /\ pairs ns' = (list_to_map es : gmap K V)).
Proof.
  intros Hw Hn Ha Hb.
  assert (HR : forall k, k <= Z.of_nat (Nat.max (length ns) (length es)) -> room allocates sizeof_Node True k).
  { intros k Hk _. split; [done|]. intros j Hj. apply Hb. lia. }
  split.
  - unfold copy_construct. pose proof (CopyFrom_wp hasher_ allocates sizeof_Node True (next_addr other) other ns Hw) as H.
    destruct (CopyFrom _ _ _ _ _) as [c| |].
    + destruct H as (ns' & Hw' & Hp & Hnew); [lia|apply HR; lia|]. exists c, ns'. split; [done|]. split; [done|]. split; [done|].
      intros n n' Hin Hin' E. specialize (Hnew n' Hin'). pose proof (wf_fresh _ _ _ (wf_wf_nodes hasher_ other ns Hw) n Hin). lia.
    + destruct H; [lia|apply HR; lia|done].
    + destruct H; [lia|apply HR; lia].
  - pose proof (from_list_wp hasher_ allocates sizeof_Node True next es) as H. destruct (from_list _ _ _ _ _) as [c| |].
    + destruct H as (ns' & Hw' & Hp); [lia|apply HR; lia|]. by exists c, ns'.
    + destruct H; [lia|apply HR; lia|done].
    + destruct H; [lia|apply HR; lia].
Qed.

End Programs.

(** An initialiser list of keys is one of entries without values. *)
Lemma set_from_list_entries {K} `{Countable K} (hasher_ : K -> Z) allocates sizeof_Node next ks :
  set_from_list hasher_ allocates sizeof_Node next ks = from_list hasher_ allocates sizeof_Node next ((fun k => (k, ())) <$> ks).
Proof.
  unfold set_from_list, from_list, set_reserve, emplace_all. rewrite length_fmap. destruct (reserve _ _ _) as [m| |]; [|done|done].
  unfold HashSet. cbn [mbind res_bind]. generalize (Ok m). induction ks as [|k ks IH]; intros mm; [done|]. apply IH.
Qed.

(** Colliding keys, a rehash, and addresses used across it. *)
Definition example_hash (key : Z) : Z := key / 10.

Definition example_ops : list (@op Z Z) :=
  [Emplace 1 100; Emplace 2 200; Emplace 1 300; InsertOrAssign 2 250; Subscript 31; Write 9 7; Reserve 17; Read 8; Read 9; EraseAt 7; Find 2;
   Find 1; Erase 1; CountKey 31; MoveConstruct; Emplace 1 5; Size; At 31].

Definition example_outs : list (@out Z) :=
  [Added 7 true; Added 8 true; Added 7 false; Added 8 false; Where (Some 9%nat); Done; Done; Elem 250; Elem 7; Done; Where (Some 8%nat);
   Where None; Count 0; Count 1; Done; Added 10 true; Count 3; Elem 7].

Lemma HashMap_programs_witness :
  exists m', run_ops (run_op example_hash 0 (fun _ => true) 40) example_ops (new_map 7) = Ok (m', example_outs).
Proof.
  eapply (HashMap_programs example_hash 0 (fun _ => true) 40 7 example_ops _ example_outs).
  - vm_compute. reflexivity.
  - unfold example_ops. repeat (cbn [needs need_op]; split; [first [exact I|split; [reflexivity|intros s _ _ _; reflexivity]|intros s _ _ _; reflexivity]|];
      match goal with |- context [spec_op ?d ?o ?a] => let s := eval vm_compute in (spec_op d o a) in change (spec_op d o a) with s end).
    exact I.
Defined.

Definition example_table : @HashMap Z Z :=
  match run_ops (run_op example_hash 0 (fun _ => true) 40) example_ops (new_map 7) with Ok (m, _) => m | _ => new_map 0 end.

Lemma example_table_wf : exists ns, wf example_hash example_table ns /\ content ns = {[1 := (10%nat, 5); 2 := (8%nat, 250); 31 := (9%nat, 7)]}.
Proof.
  destruct (programs_refine (run_op example_hash 0 (fun _ => true) 40) (spec_op 0) (need_op (fun _ => true) 40) (rel example_hash)
    example_ops (new_map 7) _ (mkAbs {[1 := (10%nat, 5); 2 := (8%nat, 250); 31 := (9%nat, 7)]} 11) example_outs (hash_map_rel_start _ 7))
    as (_ & H & _); [vm_compute; reflexivity|].
  destruct (H example_table example_outs) as [(ns & Hw & Hc & _) _]; [vm_compute; reflexivity|]. by exists ns.
Qed.

Lemma HashMap_erase_order_witness : exists m', erase_iterator example_table 8 = Ok (m', Some 9%nat).
Proof.
  destruct example_table_wf as (ns & Hw & _).
  destruct (HashMap_erase_order example_hash example_table ns [mkNode 10 1 5 0] (mkNode 8 2 250 0) [mkNode 9 31 7 3] Hw) as (m' & _ & E & _);
    [vm_compute; reflexivity|]. by exists m'.
Defined.

Lemma HashMap_copies_witness :
  exists c ns', copy_construct example_hash (fun _ => true) 40 example_table = Ok c /\ wf example_hash c ns' /\
    pairs ns' = ({[1 := 5; 2 := 250; 31 := 7]} : gmap Z Z).
Proof.
  destruct example_table_wf as (ns & Hw & Hc).
  assert (Hlen : length ns = 3%nat) by (rewrite <- (wf_content_size example_hash example_table ns Hw), Hc; reflexivity).
  destruct (HashMap_copies example_hash (fun _ => true) 40 example_table ns [] 0 Hw) as [(c & ns' & E & Hw' & Hp & _) _].
  - rewrite Hlen. by apply Z.leb_le.
  - reflexivity.
  - intros k _ s _ _ _. reflexivity.
  - exists c, ns'. split; [exact E|]. split; [exact Hw'|]. rewrite Hp. unfold pairs. rewrite Hc. vm_compute. reflexivity.
Defined.

(** ** Requests beyond the address space *)

(** [reserve(2^61)] asks the allocator for a bucket array of no bytes at all, gets it, and
    writes 2^61 bucket heads; from 2^63 + 1 on the rounding loop does not end. *)
Theorem HashMap_reserve_wraps {K V} `{Countable K} (next : nat) :
  reserve (fun bytes => bytes <=? 4096) (@new_map K V next) (2 ^ 61) = Undef /\
  RoundUpToPowerOfTwo (2 ^ 63 + 1) = None /\ (forall fuel n, 0 < n -> round_loop fuel n 0 = None).
Proof.
  split; [vm_compute; reflexivity|]. split; [vm_compute; reflexivity|].
  induction fuel as [|fuel IH]; intros n Hn; [done|]. cbn [round_loop]. rewrite (proj2 (Z.ltb_lt 0 n) Hn). by apply IH.
Qed.
