(* ===== verification/MpscQueue.v ===== *)
(** * base::MPSCQueue (containers/mpsc_queue.h)

    A linked queue that many producers fill and one consumer empties.  Every atomic
    access is a step of its own and the steps of the threads interleave in any order;
    a thread between two steps is described by what it still holds in its locals.  A
    step through a node that has been deleted, or out of a value that is not there, is
    [Undef]. *)

From stdpp Require Import gmap.
From S2P Require Import Prelude Memory.

Set Default Proof Using "Type".

Section MPSCQueue.

Context {T : Type}.

(** [value] is [None] in a sentinel: its storage holds no object. *)
Record Node := mkNode { value : option T; next : option nat }.

Record MPSCQueue := mkQueue { heap : gmap nat Node; head_ : nat; tail_ : nat; fresh : nat }.

(** The constructor: one sentinel. *)
Definition new_queue (a : nat) : MPSCQueue := mkQueue {[a := mkNode None None]} a a (S a).

Definition node_at (q : MPSCQueue) (a : nat) : res Node := match heap q !! a with Some n => Ok n | None => Undef end.
Definition with_heap (q : MPSCQueue) (h : gmap nat Node) : MPSCQueue := mkQueue h (head_ q) (tail_ q) (fresh q).

Definition new_node (q : MPSCQueue) (v : T) : MPSCQueue * nat :=
  (mkQueue (<[fresh q := mkNode (Some v) None]> (heap q)) (head_ q) (tail_ q) (S (fresh q)), fresh q).

(** [head_.exchange(node)] *)
Definition exchange_head (q : MPSCQueue) (a : nat) : MPSCQueue * nat := (mkQueue (heap q) a (tail_ q) (fresh q), head_ q).

(** [prev_head->next.store(node)] *)
Definition store_next (q : MPSCQueue) (prev a : nat) : res MPSCQueue :=
  n ← node_at q prev; Ok (with_heap q (<[prev := mkNode (value n) (Some a)]> (heap q))).

Definition load_next (q : MPSCQueue) (a : nat) : res (option nat) := n ← node_at q a; Ok (next n).

(** [next->value] as an object *)
Definition read_value (q : MPSCQueue) (a : nat) : res T :=
  n ← node_at q a; match value n with Some v => Ok v | None => Undef end.

(** [next->value.~T()] *)
Definition destroy_value (q : MPSCQueue) (a : nat) : res MPSCQueue :=
  n ← node_at q a;
  match value n with Some _ => Ok (with_heap q (<[a := mkNode None (next n)]> (heap q))) | None => Undef end.

Definition store_tail (q : MPSCQueue) (a : nat) : MPSCQueue := mkQueue (heap q) (head_ q) a (fresh q).

Definition delete_node (q : MPSCQueue) (a : nat) : res MPSCQueue :=
  _ ← node_at q a; Ok (with_heap q (delete a (heap q))).

(** ** Threads *)

(** Where a producer stands in [enqueue]: outside, before the exchange, before the store. *)
Inductive producer := PIdle | PNew (node : nat) | PLink (prev node : nat).

Definition enqueue_step (q : MPSCQueue) (p : producer) (v : T) : res (MPSCQueue * producer) :=
  match p with
  | PIdle => let '(q, node) := new_node q v in Ok (q, PNew node)
  | PNew node => let '(q, prev) := exchange_head q node in Ok (q, PLink prev node)
  | PLink prev node => q ← store_next q prev node; Ok (q, PIdle)
  end.

Inductive call := Dequeue | RemoveFront | Peek | Empty.

#[export] Instance call_eq_dec : EqDecision call.
Proof. solve_decision. Defined.

(** Where the consumer stands: outside, after [tail_.load()], after [tail->next.load()], after
    the value is gone, and before [delete tail]. *)
Inductive consumer := CIdle | CTail (c : call) (tail : nat) | CNext (c : call) (tail node : nat) | CTaken (c : call) (tail node : nat) (v : T)
  | CStored (c : call) (tail : nat) (v : T).

(** What a call returned. *)
Inductive answer := Nothing (c : call) | Took (v : T) | Removed | Shows (v : T) | NotEmpty.

Definition answer_of (c : call) (v : T) : answer :=
  match c with Dequeue => Took v | RemoveFront => Removed | Peek => Shows v | Empty => NotEmpty end.

(** One step of the consumer; [Some] when a call returns with it. *)
Definition consume_step (q : MPSCQueue) (s : consumer) (c : call) : res (MPSCQueue * consumer * option answer) :=
  match s with
  | CIdle => Ok (q, CTail c (tail_ q), None)
  | CTail c tail =>
    next ← load_next q tail;
    match next, c with
    | None, _ => Ok (q, CIdle, Some (Nothing c))
    | Some node, Empty => Ok (q, CIdle, Some NotEmpty)
    | Some node, _ => Ok (q, CNext c tail node, None)
    end
  | CNext Peek tail node => v ← read_value q node; Ok (q, CIdle, Some (Shows v))
  | CNext c tail node => v ← read_value q node; q ← destroy_value q node; Ok (q, CTaken c tail node v, None)
  | CTaken c tail node v => Ok (store_tail q node, CStored c tail v, None)
  | CStored c tail v => q ← delete_node q tail; Ok (q, CIdle, Some (answer_of c v))
  end.

(** The system: the queue, the threads, and two records that no thread reads: the values in
    the order their producers exchanged them in, and the answers the consumer got. *)
Record Sys := mkSys { queue : MPSCQueue; producers : gmap nat producer; reader : consumer; enqueued : list T; answers : list answer }.

Definition producer_of (s : Sys) (p : nat) : producer := default PIdle (producers s !! p).

(** Thread [p] goes on: a producer that is outside starts to enqueue [v], a consumer that is
    outside starts the call [c]. *)
Inductive move := Produce (p : nat) (v : T) | Consume (c : call).

Definition step (s : Sys) (m : move) : res Sys :=
  match m with
  | Produce p v =>
    '(q, p') ← enqueue_step (queue s) (producer_of s p) v;
    more ← match producer_of s p with PNew node => v ← read_value (queue s) node; Ok [v] | _ => Ok [] end;
    Ok (mkSys q (<[p := p']> (producers s)) (reader s) (enqueued s ++ more) (answers s))
  | Consume c =>
    '(q, r, a) ← consume_step (queue s) (reader s) c;
    Ok (mkSys q (producers s) r (enqueued s) (answers s ++ option_list a))
  end.

Fixpoint run_moves (s : Sys) (ms : list move) : res Sys :=
  match ms with [] => Ok s | m :: ms => s ← step s m; run_moves s ms end.

Definition start (a : nat) : Sys := mkSys (new_queue a) ∅ CIdle [] [].

(** ** Sequential walks over the chain *)

(** [for (current = first; current; current = current->next)] *)
Fixpoint walk (fuel : nat) (q : MPSCQueue) (current : option nat) : res (list nat) :=
  match fuel, current with
  | _, None => Ok []
  | O, Some _ => Undef
  | S fuel, Some a => next ← load_next q a; l ← walk fuel q next; Ok (a :: l)
  end.

Definition data_nodes (fuel : nat) (q : MPSCQueue) : res (list nat) := first ← load_next q (tail_ q); walk fuel q first.

Definition size_approx (fuel : nat) (q : MPSCQueue) : res Z := l ← data_nodes fuel q; Ok (Z.of_nat (length l)).

(** [for (Iterator it = begin(); it != end(); ++it) *it] *)
Definition iterate (fuel : nat) (q : MPSCQueue) : res (list T) :=
  l ← data_nodes fuel q; fold_right (fun a vs => v ← read_value q a; vs ← vs; Ok (v :: vs)) (Ok []) l.

(** [~MPSCQueue]: the loop over the data nodes, and the whole. *)
Fixpoint destroy_loop (fuel : nat) (q : MPSCQueue) (next : option nat) : res MPSCQueue :=
  match fuel, next with
  | _, None => Ok q
  | O, Some _ => Undef
  | S fuel, Some a => after ← load_next q a; q ← destroy_value q a; q ← delete_node q a; destroy_loop fuel q after
  end.

Definition destroy (fuel : nat) (q : MPSCQueue) : res MPSCQueue :=
  next ← load_next q (tail_ q); q ← delete_node q (tail_ q); destroy_loop fuel q next.

(** ** Invariant

    [nodes] are the data nodes in the order of the exchanges, with their values. *)

Implicit Types (q : MPSCQueue) (P : nat -> producer) (r : consumer) (nodes : list (nat * T)).

Definition nextof q (a : nat) : option nat := match heap q !! a with Some n => next n | None => None end.
Definition chain q nodes : list nat := tail_ q :: nodes.*1.

(** The value of the first node is already gone when the consumer has taken it. *)
Definition taken_first r : bool := match r with CTaken _ _ _ _ => true | _ => false end.

Definition consumer_at q r nodes : Prop :=
  match r with
  | CIdle => True
  | CTail _ t => t = tail_ q
  | CNext c t n => t = tail_ q /\ c <> Empty /\ exists v rest, nodes = (n, v) :: rest
  | CTaken c t n v => t = tail_ q /\ (c = Dequeue \/ c = RemoveFront) /\ exists rest, nodes = (n, v) :: rest
  | CStored c t v => is_Some (heap q !! t) /\ (c = Dequeue \/ c = RemoveFront) /\ t ∉ chain q nodes
  end.

(** The consumer is past the link from the sentinel to the first node. *)
Definition past_link r : bool := match r with CNext _ _ _ | CTaken _ _ _ _ => true | _ => false end.

Record inv q P r nodes : Prop := {
  i_nodup : NoDup (chain q nodes);
  i_head : list.last (chain q nodes) = Some (head_ q);
  i_sentinel : exists nx, heap q !! tail_ q = Some (mkNode None nx);
  i_value : forall i a v, nodes !! i = Some (a, v) -> exists nx, heap q !! a = Some (mkNode (if taken_first r && (i =? 0)%nat then None else Some v) nx);
  i_link : forall i a b, chain q nodes !! i = Some a -> chain q nodes !! S i = Some b ->
    (nextof q a = Some b /\ forall p b', P p <> PLink a b') \/ (nextof q a = None /\ exists p, P p = PLink a b);
  i_end : nextof q (head_ q) = None;
  i_linking : forall p a b, P p = PLink a b -> exists i, chain q nodes !! i = Some a /\ chain q nodes !! S i = Some b;
  i_linker : forall p p' a b b', P p = PLink a b -> P p' = PLink a b' -> p = p';
  i_new : forall p n, P p = PNew n -> (n ∉ chain q nodes) /\ exists v, heap q !! n = Some (mkNode (Some v) None);
  i_newer : forall p p' n, P p = PNew n -> P p' = PNew n -> p = p';
  i_fresh : forall a, is_Some (heap q !! a) -> (a < fresh q)%nat;
  i_consumer : consumer_at q r nodes;
  i_past : past_link r = true -> forall p b, P p <> PLink (tail_ q) b;
  i_old : forall c t v, r = CStored c t v -> forall p, P p <> PNew t;
  i_all : forall a, is_Some (heap q !! a) -> a ∈ chain q nodes \/ (exists p, P p = PNew a) \/ exists c v, r = CStored c a v;
}.

Definition set_producer P (p : nat) (x : producer) : nat -> producer := fun p' => if decide (p' = p) then x else P p'.

Lemma inv_ext q P P' r nodes : (forall p, P p = P' p) -> inv q P r nodes -> inv q P' r nodes.
Proof.
  intros E [H1 H2 H3 H4 H5 H6 H7 H8 H9 H10 H11 H12 H13 H14 H15]. split; try done.
  - intros i a b Ha Hb. destruct (H5 i a b Ha Hb) as [[E1 E2]|[E1 [p E2]]]; [left|right]; (split; [done|]).
    + intros p b'. by rewrite <- E.
    + exists p. by rewrite <- E.
  - intros p. rewrite <- E. apply H7.
  - intros p p'. rewrite <- !E. apply H8.
  - intros p. rewrite <- E. apply H9.
  - intros p p'. rewrite <- !E. apply H10.
  - intros Hp p. rewrite <- E. by apply H13.
  - intros c t v Hr p. rewrite <- E. by eapply H14.
  - intros a Ha. destruct (H15 a Ha) as [?|[[p Hp]|?]]; [by left|right; left; exists p; by rewrite <- E|by right; right].
Qed.

Lemma inv_start a : inv (new_queue a) (fun _ => PIdle) CIdle [].
Proof.
  assert (H : forall x, is_Some (heap (new_queue a) !! x) -> x = a).
  { intros x [n Hn]. unfold new_queue in Hn. cbn in Hn. by apply lookup_singleton_Some in Hn as [-> _]. }
  assert (E : heap (new_queue a) !! a = Some (mkNode None None)) by apply lookup_singleton_eq.
  split; try done.
  - apply list.NoDup_singleton.
  - by exists None.
  - cbn. unfold nextof. by rewrite E.
  - intros x ->%H. cbn. lia.
  - intros x ->%H. left. apply list_elem_of_here.
Qed.

Lemma chain_cell q P r nodes a : inv q P r nodes -> a ∈ chain q nodes -> is_Some (heap q !! a).
Proof.
  intros Hi [->|([a' w] & -> & Ha)%list_elem_of_fmap]%elem_of_cons.
  - destruct (i_sentinel _ _ _ _ Hi) as [nx ->]. eauto.
  - apply list_elem_of_lookup in Ha as [i Ha]. destruct (i_value _ _ _ _ Hi i _ _ Ha) as [nx E]. cbn. rewrite E. eauto.
Qed.

Lemma chain_elem q nodes i a : chain q nodes !! i = Some a -> a ∈ chain q nodes.
Proof. apply list_elem_of_lookup_2. Qed.

Lemma node_elem q nodes i a v : nodes !! i = Some (a, v) -> chain q nodes !! S i = Some a /\ a ∈ chain q nodes.
Proof. intros E. assert (H : chain q nodes !! S i = Some a) by (change (nodes.*1 !! i = Some a); by rewrite list_lookup_fmap, E). split; [done|by eapply chain_elem]. Qed.

Lemma head_elem q P r nodes : inv q P r nodes -> head_ q ∈ chain q nodes.
Proof. intros Hi. pose proof (i_head _ _ _ _ Hi) as H. rewrite last_lookup in H. by eapply chain_elem. Qed.

(** ** Producers *)

(** [new Node(value)] *)
Lemma inv_new q P r nodes p v :
  inv q P r nodes -> P p = PIdle -> inv (new_node q v).1 (set_producer P p (PNew (fresh q))) r nodes.
Proof.
  intros Hi Hp. pose proof Hi as [H1 H2 H3 H4 H5 H6 H7 H8 H9 H10 H11 H12 H13 H14 H15]. unfold new_node, set_producer. cbn [fst].
  assert (Hf : heap q !! fresh q = None).
  { destruct (heap q !! fresh q) eqn:E; [|done]. specialize (H11 (fresh q) ltac:(eauto)). lia. }
  set (h := <[_ := _]> _). assert (Hsame : forall a, is_Some (heap q !! a) -> h !! a = heap q !! a).
  { intros a [n E]. unfold h. rewrite lookup_insert_ne; [done|]. congruence. }
  assert (Hch : forall a, a ∈ chain q nodes -> h !! a = heap q !! a) by (intros; apply Hsame; by eapply chain_cell).
  assert (Hfr : forall a, a ∈ chain q nodes -> a <> fresh q) by (intros a Ha ->; destruct (chain_cell _ _ _ _ _ Hi Ha); congruence).
  split; cbn; try done.
  - destruct H3 as [nx E]. exists nx. rewrite Hch; [done|apply list_elem_of_here].
  - intros i a w E. rewrite Hch; [by apply H4|by eapply node_elem].
  - intros i a b Ea Eb. unfold nextof. cbn. rewrite (Hch a) by by eapply chain_elem. destruct (H5 i a b Ea Eb) as [[E1 E2]|[E1 [p0 E2]]].
    + left. split; [done|]. intros p0 b'. by case_decide.
    + right. split; [done|]. exists p0. case_decide as D; [subst; congruence|done].
  - unfold nextof. cbn. by rewrite Hch by by eapply head_elem.
  - intros p0 a b. case_decide; [done|apply H7].
  - intros p0 p' a b b'. repeat case_decide; try done. apply H8.
  - intros p0 n. case_decide as D.
    + intros [= <-]. split; [intros Hin; by apply (Hfr _ Hin)|]. exists v. apply lookup_insert_eq.
    + intros E. destruct (H9 p0 n E) as [Hn [w Hw]]. split; [done|]. exists w. rewrite Hsame by eauto. done.
  - assert (Hno : forall p0 n, P p0 = PNew n -> n <> fresh q) by (intros p0 n E ->; destruct (H9 p0 _ E) as [_ [w Hw]]; congruence).
    intros p0 p' n. repeat case_decide; try congruence; try apply H10; intros E1 E2; exfalso.
    + injection E1 as <-. by eapply Hno.
    + injection E2 as <-. by eapply Hno.
  - intros a [n E]. unfold h in E. apply lookup_insert_Some in E as [[<- _]|[_ E]]; [lia|]. specialize (H11 a ltac:(eauto)). lia.
  - destruct r as [|c t|c t n|c t n w|c t w]; try done. cbn in *. destruct H12 as ([n E] & ? & ?). rewrite Hsame by eauto. eauto.
  - intros Hr p0 b. case_decide; [done|by apply H13].
  - intros c t w Hr p0. case_decide; [|by eapply H14]. intros [= <-]. rewrite Hr in H12. cbn in H12. destruct H12 as ([n E] & _). congruence.
  - intros a Ha. destruct (decide (a = fresh q)) as [->|Hne]; [right; left; exists p; by case_decide|].
    unfold h in Ha. rewrite lookup_insert_ne in Ha by done. destruct (H15 a Ha) as [?|[[p0 E]|?]]; [by left| |by right; right].
    right; left. exists p0. case_decide; [subst; congruence|done].
Qed.

(** [head_.exchange(node)]: from here on the value is in the queue. *)
Lemma inv_exchange q P r nodes p a v nx :
  inv q P r nodes -> P p = PNew a -> heap q !! a = Some (mkNode (Some v) nx) ->
  inv (exchange_head q a).1 (set_producer P p (PLink (head_ q) a)) r (nodes ++ [(a, v)]).
Proof.
  intros Hi Hp Hav. pose proof Hi as [H1 H2 H3 H4 H5 H6 H7 H8 H9 H10 H11 H12 H13 H14 H15]. unfold exchange_head, set_producer. cbn [fst].
  destruct (H9 p a Hp) as (Hna & v' & Ea). rewrite Hav in Ea. injection Ea as <- ->.
  set (q' := mkQueue _ _ _ _). assert (Ec : chain q' (nodes ++ [(a, v)]) = chain q nodes ++ [a]) by (unfold chain; cbn; by rewrite fmap_app).
  assert (Hlt : forall i x, chain q nodes !! i = Some x -> (chain q nodes ++ [a]) !! i = Some x) by (intros; by apply lookup_app_l_Some).
  pose proof H2 as Hlast. rewrite last_lookup in Hlast.
  split; try rewrite Ec; try done.
  - apply list.NoDup_app. split; [done|]. split; [|apply list.NoDup_singleton]. intros x Hx Ex%list_elem_of_singleton. congruence.
  - by rewrite last_snoc.
  - intros i x w E. apply lookup_app_Some in E as [E|[Hl E]]; [by apply H4|].
    apply list_lookup_singleton_Some in E as [Hi0 [= <- <-]]. exists None. cbn. rewrite Hav.
    destruct (taken_first r) eqn:Er; [|done]. destruct r; try done. cbn in H12. destruct H12 as (_ & _ & rest & ->). cbn in *.
    by rewrite (proj2 (Nat.eqb_neq i 0)) by lia.
  - intros i x b Ex Eb. change (nextof q' x) with (nextof q x). apply lookup_app_Some in Eb as [Eb|[Hl Eb]].
    + assert (Ex' : chain q nodes !! i = Some x) by (apply lookup_lt_Some in Eb; by rewrite lookup_app_l in Ex by lia).
      destruct (H5 i x b Ex' Eb) as [[E1 E2]|[E1 [p0 E2]]].
      * left. split; [done|]. intros p0 b'. case_decide; [|done]. intros [= <- _]. congruence.
      * right. split; [done|]. exists p0. case_decide; [subst; congruence|done].
    + apply list_lookup_singleton_Some in Eb as [Ei <-].
      assert (Ex' : x = head_ q).
      { rewrite lookup_app_l in Ex by (apply lookup_lt_Some in Ex; rewrite length_app in Ex; cbn in *; lia).
        replace (Init.Nat.pred (length (chain q nodes))) with i in Hlast by lia. congruence. }
      right. rewrite Ex'. split; [done|]. exists p. by case_decide.
  - cbn. unfold nextof. cbn. by rewrite Hav.
  - intros p0 x b. case_decide as D.
    + intros [= <- <-]. exists (pred (length (chain q nodes))). split; [by apply Hlt|].
      rewrite lookup_app_r by (cbn; lia). apply list_lookup_singleton_Some. cbn. split; [lia|done].
    + intros E. destruct (H7 p0 x b E) as (i & E1 & E2). exists i. split; by apply Hlt.
  - assert (Hno : forall p0 b, P p0 <> PLink (head_ q) b).
    { intros p0 b E. destruct (H7 p0 _ b E) as (i & E1 & E2). rewrite (NoDup_lookup _ _ _ _ H1 E1 Hlast) in E2. apply lookup_lt_Some in E2. cbn in *; lia. }
    intros p0 p' x b b'. repeat case_decide; try congruence; try apply H8; intros E1 E2; exfalso.
    + injection E1 as <- _. by eapply Hno.
    + injection E2 as <- _. by eapply Hno.
  - intros p0 n. case_decide as D; [done|]. intros E. destruct (H9 p0 n E) as [Hn Hv]. split; [|done].
    intros [?|En%list_elem_of_singleton]%elem_of_app; [done|]. subst n. by specialize (H10 p0 p a E Hp).
  - intros p0 p' n. repeat case_decide; try done. apply H10.
  - destruct r as [|c t|c t n|c t n w|c t w]; try done; cbn [consumer_at] in *.
    + destruct H12 as (? & ? & w & rest & ->). eauto.
    + destruct H12 as (? & ? & rest & ->). eauto.
    + destruct H12 as (? & ? & Hnt). split; [done|]. split; [done|]. rewrite Ec, elem_of_app, list_elem_of_singleton.
      intros [?|E]; [done|]. subst t. by apply (H14 c a w eq_refl p).
  - intros Hr p0 b. case_decide as D; [|by apply H13]. intros [= E _]. destruct nodes as [|[x w] rest]; [|].
    + destruct r as [|c t|c t n|c t n w|c t w]; try done; cbn in H12; [by destruct H12 as (_ & _ & ? & ? & ?)|by destruct H12 as (_ & _ & ? & ?)].
    + assert (Hl0 : chain q ((x, w) :: rest) !! 0%nat = Some (head_ q)) by (cbn; by rewrite E). pose proof (NoDup_lookup _ _ _ _ H1 Hl0 Hlast) as E0. cbn in E0. lia.
  - intros c t w Hr p0. case_decide; [done|]. by eapply H14.
  - intros x Hx. rewrite elem_of_app, list_elem_of_singleton. destruct (H15 x Hx) as [?|[[p0 E]|?]]; [by left; left| |by right; right].
    destruct (decide (p0 = p)) as [->|Hne]; [left; right; congruence|]. right; left. exists p0. by case_decide.
Qed.

(** [prev_head->next.store(node)]: the chain is whole again at this place. *)
Lemma inv_store q P r nodes p prev a :
  inv q P r nodes -> P p = PLink prev a -> exists q', store_next q prev a = Ok q' /\ inv q' (set_producer P p PIdle) r nodes.
Proof.
  intros Hi Hp. pose proof Hi as [H1 H2 H3 H4 H5 H6 H7 H8 H9 H10 H11 H12 H13 H14 H15].
  destruct (H7 p prev a Hp) as (i0 & Ei & Ei'). destruct (chain_cell _ _ _ _ prev Hi) as [[vo nx] Eprev]; [by eapply chain_elem|].
  unfold store_next, node_at. rewrite Eprev. cbn. eexists. split; [done|]. unfold set_producer.
  set (h := <[_ := _]> _). assert (Hother : forall x, x <> prev -> h !! x = heap q !! x) by (intros; by apply lookup_insert_ne).
  assert (Hsome : forall x, is_Some (h !! x) <-> is_Some (heap q !! x)).
  { intros x. destruct (decide (x = prev)) as [->|Hne]; [|by rewrite Hother]. unfold h. rewrite lookup_insert_eq, Eprev. split; eauto. }
  assert (Hval : forall x w nx', heap q !! x = Some (mkNode w nx') -> exists nx2, h !! x = Some (mkNode w nx2)).
  { intros x w nx' E. destruct (decide (x = prev)) as [->|Hne]; [|rewrite Hother by done; eauto]. rewrite Eprev in E. injection E as <- _.
    exists (Some a). apply lookup_insert_eq. }
  split; cbn; try done.
  - destruct H3 as [nx' E]. by eapply Hval.
  - intros i x v E. destruct (H4 i x v E) as [nx' E']. by eapply Hval.
  - intros i x b Ex Eb. unfold nextof. cbn. destruct (decide (x = prev)) as [->|Hne].
    + rewrite (NoDup_lookup _ _ _ _ H1 Ex Ei) in Eb. change (chain q nodes !! S i0 = Some b) in Eb.
      left. unfold h. rewrite lookup_insert_eq. cbn. split; [congruence|].
      intros p0 b'. case_decide as D; [done|]. intros E. by specialize (H8 p0 p prev b' a E Hp).
    + rewrite Hother by done. destruct (H5 i x b Ex Eb) as [[E1 E2]|[E1 [p0 E2]]].
      * left. split; [done|]. intros p0 b'. by case_decide.
      * right. split; [done|]. exists p0. case_decide as D; [subst; congruence|done].
  - unfold nextof. cbn. rewrite Hother; [done|]. intros E. rewrite last_lookup in H2. rewrite E in H2.
    rewrite (NoDup_lookup _ _ _ _ H1 Ei H2) in Ei'. apply lookup_lt_Some in Ei'. apply lookup_lt_Some in H2. cbn in *; lia.
  - intros p0 x b. case_decide; [done|apply H7].
  - intros p0 p' x b b'. repeat case_decide; try done. apply H8.
  - intros p0 n. case_decide; [done|]. intros E. destruct (H9 p0 n E) as [Hn Hv]. split; [done|]. rewrite Hother; [done|].
    intros ->. apply Hn. by eapply chain_elem.
  - intros p0 p' n. repeat case_decide; try done. apply H10.
  - intros x Hx%Hsome. by apply H11.
  - destruct r as [|c t|c t n|c t n w|c t w]; try done. cbn in *. by rewrite Hsome.
  - intros Hr p0 b. case_decide; [done|by apply H13].
  - intros c t w Hr p0. case_decide; [done|by eapply H14].
  - intros x Hx%Hsome. destruct (H15 x Hx) as [?|[[p0 E]|?]]; [by left| |by right; right]. right; left. exists p0. case_decide; [subst; congruence|done].
Qed.

(** ** Consumer *)

Definition not_stored r : Prop := match r with CStored _ _ _ => False | _ => True end.

Lemma inv_reader q P r r' nodes :
  inv q P r nodes -> taken_first r' = taken_first r -> not_stored r -> not_stored r' -> consumer_at q r' nodes ->
  (past_link r' = true -> forall p b, P p <> PLink (tail_ q) b) -> inv q P r' nodes.
Proof.
  intros [H1 H2 H3 H4 H5 H6 H7 H8 H9 H10 H11 H12 H13 H14 H15] Ht Hs Hs' Hc Hp. split; try done.
  - by rewrite Ht.
  - intros c t v ->. done.
  - intros a Ha. destruct (H15 a Ha) as [?|[?|(c & v & ->)]]; [by left|by right; left|done].
Qed.

(** [tail->next.load()] *)
Lemma load_tail q P r nodes :
  inv q P r nodes ->
  (nextof q (tail_ q) = None /\ (nodes = [] \/ exists p n, P p = PLink (tail_ q) n)) \/
  exists n v rest, nextof q (tail_ q) = Some n /\ nodes = (n, v) :: rest /\ forall p b, P p <> PLink (tail_ q) b.
Proof.
  intros [H1 H2 H3 H4 H5 H6 H7 H8 H9 H10 H11 H12 H13 H14 H15]. destruct nodes as [|[n v] rest].
  - left. cbn in H2. injection H2 as E. rewrite E. by split; [|left].
  - destruct (H5 0%nat (tail_ q) n eq_refl eq_refl) as [[E1 E2]|[E1 [p E2]]]; [right; by exists n, v, rest|left; split; [done|]]. right. by exists p, n.
Qed.

Lemma load_next_ok q a : is_Some (heap q !! a) -> load_next q a = Ok (nextof q a).
Proof. intros [n E]. unfold load_next, nextof, node_at. by rewrite E. Qed.

Lemma read_first q P c t n v rest : inv q P (CNext c t n) ((n, v) :: rest) -> exists nx, heap q !! n = Some (mkNode (Some v) nx).
Proof. intros Hi. by apply (i_value _ _ _ _ Hi 0%nat n v). Qed.

(** Taking the value out of the first data node. *)
Lemma inv_take q P c t n v rest :
  inv q P (CNext c t n) ((n, v) :: rest) -> c = Dequeue \/ c = RemoveFront ->
  exists q', destroy_value q n = Ok q' /\ inv q' P (CTaken c t n v) ((n, v) :: rest).
Proof.
  intros Hi Hc. destruct (read_first _ _ _ _ _ _ _ Hi) as [nx En]. pose proof Hi as [H1 H2 H3 H4 H5 H6 H7 H8 H9 H10 H11 H12 H13 H14 H15].
  unfold destroy_value, node_at. rewrite En. cbn. eexists. split; [done|].
  set (h := <[_ := _]> _). assert (Hother : forall x, x <> n -> h !! x = heap q !! x) by (intros; by apply lookup_insert_ne).
  assert (Hsome : forall x, is_Some (h !! x) <-> is_Some (heap q !! x)).
  { intros x. destruct (decide (x = n)) as [->|Hne]; [|by rewrite Hother]. unfold h. rewrite lookup_insert_eq, En. split; eauto. }
  assert (Hnext : forall x, nextof (with_heap q h) x = nextof q x).
  { intros x. unfold nextof. cbn. destruct (decide (x = n)) as [->|Hne]; [|by rewrite Hother]. unfold h. by rewrite lookup_insert_eq, En. }
  assert (Hnc : chain q ((n, v) :: rest) !! 1%nat = Some n) by done.
  split; try done.
  - destruct H3 as [nx' E]. exists nx'. cbn. rewrite Hother; [done|]. intros E'. assert (H0 : chain q ((n, v) :: rest) !! 0%nat = Some n) by (cbn; congruence).
    by pose proof (NoDup_lookup _ _ _ _ H1 H0 Hnc).
  - intros i x w E. cbn [heap with_heap]. destruct i as [|i].
    + injection E as <- <-. exists nx. cbn. apply lookup_insert_eq.
    + destruct (node_elem q _ _ _ _ E) as [Ex _]. cbn [taken_first andb Nat.eqb]. rewrite Hother; [by apply (H4 (S i))|].
      intros ->. by pose proof (NoDup_lookup _ _ _ _ H1 Ex Hnc).
  - intros i x b Ex Eb. rewrite Hnext. by apply (H5 i).
  - by rewrite Hnext.
  - intros p m E. destruct (H9 p m E) as [Hm Hv]. split; [done|]. cbn. rewrite Hother; [done|]. intros ->. apply Hm. by eapply chain_elem.
  - intros x Hx%Hsome. by apply H11.
  - cbn in *. destruct H12 as (-> & _ & _). split; [done|]. split; [done|]. by exists rest.
  - intros x Hx%Hsome. destruct (H15 x Hx) as [?|[?|(c' & v' & ?)]]; [by left|by right; left|done].
Qed.

(** [tail_.store(next)]: the node that was taken is the new sentinel. *)
Lemma inv_store_tail q P c t n v rest :
  inv q P (CTaken c t n v) ((n, v) :: rest) -> inv (store_tail q n) P (CStored c t v) rest.
Proof.
  intros Hi. pose proof Hi as [H1 H2 H3 H4 H5 H6 H7 H8 H9 H10 H11 H12 H13 H14 H15]. cbn in H12. destruct H12 as (-> & Hc & _).
  assert (Ec : chain q ((n, v) :: rest) = tail_ q :: chain (store_tail q n) rest) by done. rewrite Ec in *.
  apply list.NoDup_cons in H1 as [Ht H1].
  split; try done.
  - destruct (H4 0%nat n v eq_refl) as [nx E]. by exists nx.
  - intros i x w E. destruct (H4 (S i) x w E) as [nx E']. by exists nx.
  - intros i x b Ex Eb. by apply (H5 (S i)).
  - intros p x b E. destruct (H7 p x b E) as ([|i] & Ex & Eb); [|by exists i]. injection Ex as <-. by destruct (H13 eq_refl p b).
  - intros p m E. destruct (H9 p m E) as [Hm Hv]. split; [|done]. intros Hin. apply Hm. by apply elem_of_cons; right.
  - cbn. split; [by apply (chain_cell _ _ _ _ _ Hi), list_elem_of_here|done].
  - intros c' t' v' [= -> <- ->] p E. destruct (H9 p _ E) as [Hm _]. apply Hm, list_elem_of_here.
  - intros x Hx. destruct (H15 x Hx) as [[->|?]%elem_of_cons|[?|(c' & v' & ?)]]; [right; right; by eexists _, _|by left|by right; left|done].
Qed.

(** [delete tail] *)
Lemma inv_delete q P c t v nodes :
  inv q P (CStored c t v) nodes -> exists q', delete_node q t = Ok q' /\ inv q' P CIdle nodes.
Proof.
  intros Hi. pose proof Hi as [H1 H2 H3 H4 H5 H6 H7 H8 H9 H10 H11 H12 H13 H14 H15]. cbn in H12. destruct H12 as ([nt Et] & _ & Ht).
  unfold delete_node, node_at. rewrite Et. cbn. eexists. split; [done|].
  set (h := delete _ _). assert (Hother : forall x, x <> t -> h !! x = heap q !! x) by (intros; by apply lookup_delete_ne).
  assert (Hch : forall x, x ∈ chain q nodes -> h !! x = heap q !! x) by (intros x Hx; apply Hother; by intros ->).
  assert (Hsome : forall x, is_Some (h !! x) -> x <> t /\ is_Some (heap q !! x)).
  { intros x [m E]. unfold h in E. apply lookup_delete_Some in E as [? ?]. eauto. }
  split; try done.
  - destruct H3 as [nx E]. exists nx. cbn. rewrite Hch; [done|apply list_elem_of_here].
  - intros i x w E. cbn [heap with_heap]. rewrite Hch by by eapply node_elem. by apply (H4 i).
  - intros i x b Ex Eb. unfold nextof. cbn [heap with_heap]. rewrite Hch by by eapply chain_elem. by apply (H5 i).
  - unfold nextof. cbn [heap head_ with_heap]. by rewrite Hch by by eapply head_elem.
  - intros p m E. destruct (H9 p m E) as [Hm Hv]. split; [done|]. cbn. rewrite Hother; [done|]. intros ->. by eapply H14.
  - intros x [_ Hx]%Hsome. by apply H11.
  - intros x [Hxt Hx]%Hsome. destruct (H15 x Hx) as [?|[?|(c' & v' & [= -> -> ->])]]; [by left|by right; left|done].
Qed.

(** ** The system against a FIFO queue

    [answered vs l rest]: a queue that is fed the values [vs] in this order can give the
    answers [l], and then still holds [rest]. *)

Fixpoint answered (vs : list T) (l : list answer) (rest : list T) : Prop :=
  match l with
  | [] => vs = rest
  | Nothing _ :: l => answered vs l rest
  | Took v :: l => exists vs', vs = v :: vs' /\ answered vs' l rest
  | Removed :: l => exists v vs', vs = v :: vs' /\ answered vs' l rest
  | Shows v :: l => (exists vs', vs = v :: vs') /\ answered vs l rest
  | NotEmpty :: l => vs <> [] /\ answered vs l rest
  end.

Lemma answered_more vs l rest more : answered vs l rest -> answered (vs ++ more) l (rest ++ more).
Proof.
  revert vs. induction l as [|x l IH]; intros vs H; cbn in *; [by subst|]. destruct x.
  - by apply IH.
  - destruct H as (vs' & -> & H). exists (vs' ++ more). split; [done|by apply IH].
  - destruct H as (v & vs' & -> & H). exists v, (vs' ++ more). split; [done|by apply IH].
  - destruct H as ([vs' ->] & H). split; [by exists (vs' ++ more)|by apply IH].
  - destruct H as (Hne & H). split; [by destruct vs|by apply IH].
Qed.

Lemma answered_last vs l rest rest' x : answered vs l rest -> answered rest [x] rest' -> answered vs (l ++ [x]) rest'.
Proof.
  revert vs. induction l as [|y l IH]; intros vs H Hx; [cbn in H; by subst|]. destruct y; cbn in H |- *.
  - by apply IH.
  - destruct H as (vs' & -> & H). exists vs'. split; [done|by apply IH].
  - destruct H as (v & vs' & -> & H). exists v, vs'. split; [done|by apply IH].
  - destruct H as (? & H). split; [done|by apply IH].
  - destruct H as (? & H). split; [done|by apply IH].
Qed.

(** What the queue holds: the value the consumer has out but has not returned with is the
    first of them. *)
Definition pending r nodes : list T := match r with CStored _ _ v => v :: nodes.*2 | _ => nodes.*2 end.

Record sys_inv (s : Sys) nodes : Prop := {
  sys_queue : inv (queue s) (producer_of s) (reader s) nodes;
  sys_served : answered (enqueued s) (answers s) (pending (reader s) nodes);
}.

Lemma sys_start a : sys_inv (start a) [].
Proof. split; [|done]. apply (inv_ext _ (fun _ => PIdle)); [|apply inv_start]. intros p. unfold producer_of. cbn. by rewrite lookup_empty. Qed.

Lemma producer_of_insert q ps p x r e a p' :
  set_producer (fun p' => default PIdle (ps !! p')) p x p' = producer_of (mkSys q (<[p := x]> ps) r e a) p'.
Proof. unfold set_producer, producer_of. cbn. case_decide as D; [by rewrite D, lookup_insert_eq|by rewrite lookup_insert_ne]. Qed.

Lemma produce_ok s nodes p v : sys_inv s nodes -> exists s' nodes', step s (Produce p v) = Ok s' /\ sys_inv s' nodes'.
Proof.
  intros [Hi Hs]. unfold step. destruct (producer_of s p) as [|n|prev n] eqn:Ep; cbn [enqueue_step].
  - cbn. eexists _, nodes. split; [done|]. split; [|by rewrite app_nil_r]. eapply inv_ext; [apply producer_of_insert|]. cbn. by apply inv_new.
  - destruct (i_new _ _ _ _ Hi p n Ep) as (Hn & w & En). unfold read_value, node_at. rewrite En. cbn.
    eexists _, (nodes ++ [(n, w)]). split; [done|]. split.
    + eapply inv_ext; [apply producer_of_insert|]. cbn. by eapply inv_exchange.
    + cbn. replace (pending (reader s) (nodes ++ [(n, w)])) with (pending (reader s) nodes ++ [w]); [by apply answered_more|].
      unfold pending. destruct (reader s); by rewrite fmap_app.
  - destruct (inv_store _ _ _ _ p prev n Hi Ep) as (q' & -> & Hi'). cbn. eexists _, nodes. split; [done|]. split; [|by rewrite app_nil_r].
    eapply inv_ext; [apply producer_of_insert|]. done.
Qed.

(** What a call that finds no node may conclude. *)
Definition stalled s : Prop := exists p n, producer_of s p = PLink (tail_ (queue s)) n.

Definition fair (s s' : Sys) nodes : Prop := forall c, answers s' = answers s ++ [Nothing c] -> pending (reader s) nodes = [] \/ stalled s.

Lemma consume_ok s nodes c :
  sys_inv s nodes -> exists s' nodes', step s (Consume c) = Ok s' /\ sys_inv s' nodes' /\ fair s s' nodes.
Proof.
  intros [Hi Hs]. unfold step. destruct s as [q ps r e l]. cbn in Hi, Hs |- *. unfold producer_of in Hi. cbn in Hi.
  set (P := fun p => default PIdle (ps !! p)) in *. change (inv q P r nodes) in Hi.
  assert (Hno : forall x, l ++ option_list None = l ++ [Nothing x] -> False) by (intros x E; by apply app_inv_head in E).
  destruct r as [|c0 t|c0 t n|c0 t n v|c0 t v]; cbn [consume_step].
  - eexists _, nodes. split; [done|]. split; [|by intros c' []%Hno]. split; [by eapply inv_reader|]. cbn. by rewrite app_nil_r.
  - pose proof (i_consumer _ _ _ _ Hi) as Et. cbn in Et. subst t.
    rewrite load_next_ok by (eapply chain_cell; [done|apply list_elem_of_here]). cbn [mbind res_bind].
    destruct (load_tail _ _ _ _ Hi) as [[-> Hst]|(n & v & rest & -> & -> & Hp)].
    + eexists _, nodes. split; [done|]. split.
      * split; [by eapply inv_reader|]. cbn. by eapply answered_last.
      * intros c' _. destruct Hst as [->|Hst]; [by left|by right].
    + destruct (decide (c0 = Empty)) as [->|Hne].
      * eexists _, ((n, v) :: rest). split; [done|]. split; [|by intros c' [=]%app_inv_head]. split; [by eapply inv_reader|].
        cbn. eapply answered_last; [done|]. by split.
      * exists (mkSys q ps (CNext c0 (tail_ q) n) e (l ++ [])), ((n, v) :: rest). split; [by destruct c0|]. split; [|by intros c' []%Hno].
        split; [|cbn; by rewrite app_nil_r]. eapply inv_reader; [done..| |]; cbn.
        -- split; [done|]. split; [done|]. by exists v, rest.
        -- intros _. apply Hp.
  - pose proof (i_consumer _ _ _ _ Hi) as Et. cbn in Et. destruct Et as (-> & Hne & v & rest & ->).
    destruct (read_first _ _ _ _ _ _ _ Hi) as [nx En]. assert (Er : read_value q n = Ok v) by (unfold read_value, node_at; by rewrite En).
    assert (Hgo : c0 = Dequeue \/ c0 = RemoveFront -> exists s' nodes',
      ('(q, r, a) ← (v ← read_value q n; q0 ← destroy_value q n; Ok (q0, CTaken c0 (tail_ q) n v, None)); Ok (mkSys q ps r e (l ++ option_list a))) = Ok s' /\
      sys_inv s' nodes' /\ fair (mkSys q ps (CNext c0 (tail_ q) n) e l) s' ((n, v) :: rest)).
    { intros Hc. destruct (inv_take _ _ _ _ _ _ _ Hi Hc) as (q' & E & Hi'). rewrite Er. cbn [mbind res_bind]. rewrite E. cbn.
      eexists _, ((n, v) :: rest). split; [done|]. split; [|by intros c' []%Hno]. split; [exact Hi'|]. cbn. by rewrite app_nil_r. }
    destruct c0; [by apply Hgo; left|by apply Hgo; right| |done]. rewrite Er. cbn.
    eexists _, ((n, v) :: rest). split; [done|]. split; [|by intros c' [=]%app_inv_head]. split; [by eapply inv_reader|].
    cbn. eapply answered_last; [done|]. cbn. split; [by exists rest.*2|done].
  - pose proof (i_consumer _ _ _ _ Hi) as Et. cbn in Et. destruct Et as (-> & Hc & rest & ->).
    cbn. eexists _, rest. split; [done|]. split; [|by intros c' []%Hno]. split; [by apply inv_store_tail|]. cbn. by rewrite app_nil_r.
  - pose proof (i_consumer _ _ _ _ Hi) as Et. cbn in Et. destruct Et as (_ & Hc & _).
    destruct (inv_delete _ _ _ _ _ _ Hi) as (q' & -> & Hi'). cbn. eexists _, nodes. split; [done|]. split.
    + split; [exact Hi'|]. cbn. eapply answered_last; [done|]. destruct Hc as [->| ->]; cbn; eauto.
    + intros c' E. cbn in E. apply app_inv_head in E. destruct Hc as [->| ->]; done.
Qed.

Lemma run_moves_ok s nodes ms : sys_inv s nodes -> exists s' nodes', run_moves s ms = Ok s' /\ sys_inv s' nodes'.
Proof.
  revert s nodes. induction ms as [|[p v|c] ms IH]; intros s nodes H; cbn [run_moves]; [by exists s, nodes|..].
  - destruct (produce_ok s nodes p v H) as (s1 & n1 & -> & H1). by apply (IH s1 n1).
  - destruct (consume_ok s nodes c H) as (s1 & n1 & -> & H1 & _). by apply (IH s1 n1).
Qed.

(** C13. Under every interleaving of the atomic steps of any number of producers with the steps
    of the consumer, no step touches a deleted node or a value that is not there, and the
    consumer gets the answers of a FIFO queue that is fed in the order of the exchanges: no
    value is lost, duplicated or overtaken.  It is told that there is nothing only when the
    queue is empty or the producer next in order has exchanged but not linked its node. *)
Theorem MPSCQueue_fifo a ms :
  exists s rest, run_moves (start a) ms = Ok s /\ answered (enqueued s) (answers s) rest /\
    forall c c' s', step s (Consume c) = Ok s' -> answers s' = answers s ++ [Nothing c'] -> rest = [] \/ stalled s.
Proof.
  destruct (run_moves_ok _ _ ms (sys_start a)) as (s & nodes & E & Hs). exists s, (pending (reader s) nodes).
  split; [done|]. split; [apply Hs|]. intros c c' s' Es Ea. destruct (consume_ok s nodes c Hs) as (s2 & nodes' & Es2 & _ & Hf).
  rewrite Es2 in Es. injection Es as ->. by apply (Hf c').
Qed.

(** ** A queue at rest *)

Fixpoint segment (h : gmap nat Node) nodes : Prop :=
  match nodes with [] => True | (a, v) :: l => h !! a = Some (mkNode (Some v) (head l.*1)) /\ segment h l end.

Lemma segment_at q P r nodes l1 l2 :
  inv q P r nodes -> (forall p, P p = PIdle) -> taken_first r = false -> nodes = l1 ++ l2 -> segment (heap q) l2.
Proof.
  intros Hi HP Hr. revert l1. induction l2 as [|[a v] l2 IH]; intros l1 E; cbn; [done|].
  split; [|apply (IH (l1 ++ [(a, v)])); by rewrite <- app_assoc].
  assert (Ei : nodes !! length l1 = Some (a, v)) by (rewrite E, lookup_app_r, Nat.sub_diag by lia; done).
  destruct (i_value _ _ _ _ Hi _ _ _ Ei) as [nx En]. rewrite Hr in En. cbn in En. rewrite En. do 2 f_equal.
  destruct (node_elem q _ _ _ _ Ei) as [Ec _]. destruct l2 as [|[b w] l2].
  - pose proof (i_head _ _ _ _ Hi) as Hh. rewrite last_lookup in Hh.
    replace (pred (length (chain q nodes))) with (S (length l1)) in Hh by (rewrite E; unfold chain; cbn; rewrite length_fmap, length_app; cbn; lia).
    rewrite Ec in Hh. injection Hh as Hh. pose proof (i_end _ _ _ _ Hi) as He. unfold nextof in He. rewrite <- Hh, En in He. done.
  - assert (Ei' : nodes !! S (length l1) = Some (b, w)).
    { rewrite E, lookup_app_r by lia. replace (S (length l1) - length l1)%nat with 1%nat by lia. done. }
    destruct (node_elem q _ _ _ _ Ei') as [Ec' _]. destruct (i_link _ _ _ _ Hi _ _ _ Ec Ec') as [[El _]|[_ [p Ep]]]; [|by rewrite HP in Ep].
    unfold nextof in El. by rewrite En in El.
Qed.

Lemma first_node q P r nodes : inv q P r nodes -> (forall p, P p = PIdle) -> load_next q (tail_ q) = Ok (head nodes.*1).
Proof.
  intros Hi HP. rewrite load_next_ok by (eapply chain_cell; [done|apply list_elem_of_here]). f_equal.
  destruct (load_tail _ _ _ _ Hi) as [[-> [->|(p & n & E)]]|(n & v & rest & -> & -> & _)]; [done|by rewrite HP in E|done].
Qed.

Lemma walk_segment q l fuel : segment (heap q) l -> (length l <= fuel)%nat -> walk fuel q (head l.*1) = Ok l.*1.
Proof.
  revert l. induction fuel as [|fuel IH]; intros [|[a v] l] H Hf; cbn in Hf; try done; [lia|]. destruct H as [E H].
  cbn [walk head fmap list_fmap]. unfold load_next, node_at. cbn [fst]. rewrite E. cbn. rewrite IH; [done|done|lia].
Qed.

Lemma read_segment q l :
  segment (heap q) l -> fold_right (fun a vs => v ← read_value q a; vs ← vs; Ok (v :: vs)) (Ok []) l.*1 = Ok l.*2.
Proof.
  induction l as [|[a v] l IH]; intros H; [done|]. destruct H as [E H]. cbn [fold_right fmap list_fmap fst snd].
  rewrite IH by done. unfold read_value, node_at. by rewrite E.
Qed.

Lemma segment_delete h a nodes n : a ∉ nodes.*1 -> segment h nodes -> segment (delete a (<[a := n]> h)) nodes /\ segment (delete a h) nodes.
Proof.
  induction nodes as [|[b v] l IH]; intros Ha H; [done|]. destruct H as [E H]. cbn in Ha. apply not_elem_of_cons in Ha as [Hne Ha].
  destruct (IH Ha H) as [H1 H2]. split; cbn; (split; [|done]); rewrite lookup_delete_ne by done; [by rewrite lookup_insert_ne|done].
Qed.

Lemma destroy_segment l q fuel :
  segment (heap q) l -> NoDup l.*1 -> (length l <= fuel)%nat ->
  exists q', destroy_loop fuel q (head l.*1) = Ok q' /\ forall x, heap q' !! x = if decide (x ∈ l.*1) then None else heap q !! x.
Proof.
  revert q fuel. induction l as [|[a v] l IH]; intros q fuel H Hd Hf; [exists q; split; [by destruct fuel|done]|].
  destruct fuel as [|fuel]; cbn in Hf; [lia|]. destruct H as [E H]. cbn in Hd. apply list.NoDup_cons in Hd as [Ha Hd].
  cbn [destroy_loop head fmap list_fmap fst]. unfold load_next, node_at. rewrite E. cbn [mbind res_bind].
  unfold destroy_value, node_at. rewrite E. cbn [mbind res_bind value].
  unfold delete_node, node_at. cbn [heap with_heap]. rewrite lookup_insert_eq. cbn [mbind res_bind].
  destruct (segment_delete (heap q) a l (mkNode None (next (mkNode (Some v) (head l.*1)))) Ha H) as [Hs _].
  destruct (IH (with_heap (with_heap q (<[a := mkNode None (next (mkNode (Some v) (head l.*1)))]> (heap q)))
    (delete a (<[a := mkNode None (next (mkNode (Some v) (head l.*1)))]> (heap q)))) fuel) as (q' & Eq & Hq); [exact Hs|done|lia|].
  exists q'. split; [exact Eq|]. intros x. rewrite Hq. cbn [heap with_heap fmap list_fmap fst].
  destruct (decide (x ∈ l.*1)) as [D|D], (decide (x ∈ a :: l.*1)) as [D'|D']; rewrite elem_of_cons in D'; try done.
  - exfalso. auto.
  - destruct D' as [->|?]; [apply lookup_delete_eq|done].
  - rewrite lookup_delete_ne by (intros ->; auto). by rewrite lookup_insert_ne by (intros ->; auto).
Qed.

Definition quiet (s : Sys) : Prop := (forall p, producer_of s p = PIdle) /\ reader s = CIdle.

(** One whole [dequeue] of a queue at rest. *)
Lemma dequeue_quiet s nodes n v :
  sys_inv s ((n, v) :: nodes) -> quiet s ->
  exists s', run_moves s (replicate 5 (Consume Dequeue)) = Ok s' /\ sys_inv s' nodes /\ quiet s' /\ enqueued s' = enqueued s /\ answers s' = answers s ++ [Took v].
Proof.
  intros Hs [HP Hr]. pose proof Hs as [Hi _].
  destruct (run_moves_ok s _ (replicate 5 (Consume Dequeue)) Hs) as (s' & nodes' & E & Hs').
  destruct s as [q ps r e l]. cbn in Hr. subst r. unfold producer_of in *. cbn in Hi, HP.
  set (P := fun p => default PIdle (ps !! p)) in *. change (inv q P CIdle ((n, v) :: nodes)) in Hi.
  assert (Hi1 : inv q P (CTail Dequeue (tail_ q)) ((n, v) :: nodes)) by by eapply inv_reader.
  assert (Hi2 : inv q P (CNext Dequeue (tail_ q) n) ((n, v) :: nodes)).
  { eapply inv_reader; [done..| |]; cbn; [split; [done|]; split; [done|]; by exists v, nodes|]. intros _ p b Ep. by rewrite (HP p : P p = PIdle) in Ep. }
  destruct (inv_take _ _ _ _ _ _ _ Hi2 (or_introl eq_refl)) as (q2 & E2 & Hi3).
  pose proof (inv_store_tail _ _ _ _ _ _ _ Hi3) as Hi4. destruct (inv_delete _ _ _ _ _ _ Hi4) as (q3 & E3 & Hi5).
  exists (mkSys q3 ps CIdle e (l ++ [Took v])). split; [|split; [|done]].
  - cbn [replicate run_moves step queue reader consume_step mbind res_bind option_list]. rewrite (first_node _ _ _ _ Hi1 HP). cbn.
    destruct (read_first _ _ _ _ _ _ _ Hi2) as [nx En]. unfold read_value, node_at. rewrite En. cbn. rewrite E2. cbn. rewrite E3. cbn. by rewrite !app_nil_r.
  - split; [done|]. cbn. destruct Hs as [_ Hs]. cbn in Hs. eapply answered_last; [done|]. cbn. eauto.
Qed.

(** A queue that no thread is working on gives everything back: as many [dequeue]s as the
    FIFO queue holds values return them in order, iteration and [size_approx] show them, and
    the destructor leaves no node behind. *)
Theorem MPSCQueue_drains a ms s :
  run_moves (start a) ms = Ok s -> quiet s ->
  exists rest, answered (enqueued s) (answers s) rest /\ iterate (length rest) (queue s) = Ok rest /\
    size_approx (length rest) (queue s) = Ok (Z.of_nat (length rest)) /\
    (exists s', run_moves s (replicate (5 * length rest) (Consume Dequeue)) = Ok s' /\ answers s' = answers s ++ (Took <$> rest) /\ quiet s') /\
    exists q', destroy (length rest) (queue s) = Ok q' /\ heap q' = ∅.
Proof.
  intros E Hq. destruct (run_moves_ok _ _ ms (sys_start a)) as (s0 & nodes & E0 & Hs). rewrite E0 in E. injection E as ->.
  pose proof Hs as [Hi Ha]. pose proof Hq as [HP Hr]. exists nodes.*2. rewrite Hr in Ha, Hi. cbn in Ha. split; [done|].
  pose proof (segment_at _ _ _ nodes [] nodes Hi HP eq_refl eq_refl) as Hseg. rewrite length_fmap.
  unfold iterate, size_approx, data_nodes, destroy. rewrite (first_node _ _ _ _ Hi HP). rewrite !res_bind_ok.
  rewrite (walk_segment (queue s) nodes) by done. rewrite !res_bind_ok. split; [by apply read_segment|]. rewrite length_fmap. split; [done|].
  split; [|].
  - clear E0 Hi Ha HP Hr Hseg. revert s Hs Hq. induction nodes as [|[n v] nodes IH]; intros s Hs Hq.
    + exists s. cbn. by rewrite app_nil_r.
    + destruct (dequeue_quiet s nodes n v Hs Hq) as (s1 & E1 & Hs1 & Hq1 & _ & Ea1). destruct (IH s1 Hs1 Hq1) as (s2 & E2 & Ea2 & Hq2).
      exists s2. split; [|split; [by rewrite Ea2, Ea1, <- app_assoc|done]].
      replace (5 * length ((n, v) :: nodes))%nat with (5 + 5 * length nodes)%nat by (cbn; lia).
      rewrite replicate_add. clear -E1 E2. revert E1. generalize (replicate 5 (Consume Dequeue)). intros ms E1. revert s E1.
      induction ms as [|m ms IH]; intros s E1; cbn in *; [by injection E1 as ->|]. destruct (step s m); cbn in *; [by apply IH|done|done].
  - pose proof (i_nodup _ _ _ _ Hi) as Hd. apply list.NoDup_cons in Hd as [Ht Hd].
    destruct (i_sentinel _ _ _ _ Hi) as [nx Es]. unfold delete_node, node_at. rewrite Es. rewrite !res_bind_ok.
    destruct (segment_delete (heap (queue s)) (tail_ (queue s)) nodes (mkNode None None) Ht Hseg) as [_ Hseg'].
    destruct (destroy_segment nodes (with_heap (queue s) (delete (tail_ (queue s)) (heap (queue s)))) (length nodes) Hseg' Hd) as (q' & -> & Hh); [done|].
    exists q'. split; [done|]. apply map_empty. intros x. rewrite Hh. case_decide as D; [done|]. cbn.
    destruct (decide (x = tail_ (queue s))) as [->|Hne]; [apply lookup_delete_eq|]. rewrite lookup_delete_ne by done.
    destruct (heap (queue s) !! x) eqn:Ex; [|done]. destruct (i_all _ _ _ _ Hi x) as [[?|?]%elem_of_cons|[[p Hp]|(c & v & ?)]]; [eauto|done|done|by rewrite HP in Hp|done].
Qed.

End MPSCQueue.

(** Two producers: the second exchanges first and stalls, the first completes behind it. *)
Definition example_moves : list (@move Z) :=
  [Produce 1 10; Produce 2 20; Produce 2 0; Produce 1 0; Produce 1 0; Consume Dequeue; Consume Dequeue; Produce 2 0; Produce 3 30; Produce 3 0;
   Consume Peek; Consume Peek; Consume Peek; Consume Dequeue; Consume Dequeue; Produce 3 0; Consume Dequeue; Consume Dequeue; Consume Dequeue].

Definition example_state : @Sys Z := match run_moves (start 0) example_moves with Ok s => s | _ => start 0 end.

Lemma MPSCQueue_fifo_witness :
  exists s rest, run_moves (start 0) example_moves = Ok s /\ enqueued s = [20; 10; 30] /\ answers s = [Nothing Dequeue; Shows 20; Took 20] /\ rest = [10; 30] /\
    answered (enqueued s) (answers s) rest.
Proof.
  destruct (MPSCQueue_fifo 0 example_moves) as (s & rest & E & Ha & _). exists s, rest. split; [exact E|].
  assert (Es : s = example_state) by (unfold example_state; rewrite E; reflexivity). clear E. subst s.
  split; [vm_compute; reflexivity|]. split; [vm_compute; reflexivity|]. split; [|exact Ha].
  change (answered [20; 10; 30] [Nothing Dequeue; Shows 20; Took 20] rest) in Ha. cbn in Ha. destruct Ha as [_ (vs & E & Hr)].
  injection E as E. rewrite <- Hr, <- E. reflexivity.
Defined.

Lemma MPSCQueue_drains_witness :
  exists rest, answered (enqueued example_state) (answers example_state) rest /\ iterate (length rest) (queue example_state) = Ok rest.
Proof.
  destruct (MPSCQueue_drains 0 example_moves example_state) as (rest & Ha & Hi & _).
  - vm_compute. reflexivity.
  - split; [|reflexivity]. intros p. unfold producer_of. do 4 (destruct p as [|p]; [vm_compute; reflexivity|]).
    change (producers example_state) with (<[3%nat := PIdle]> (<[2%nat := PIdle]> (<[1%nat := PIdle]> (∅ : gmap nat producer)))).
    rewrite !lookup_insert_ne by lia. by rewrite lookup_empty.
  - exists rest. split; [exact Ha|exact Hi].
Defined.

(** The stall is visible to the consumer: an enqueue that has returned is not found while an
    earlier one, of another producer, stands between its exchange and its store. *)
Lemma example_hidden :
  match run_moves (start 0) (firstn 7 example_moves) with
  | Ok s => producer_of s 1 = PIdle /\ enqueued s = [20; 10] /\ answers s = [Nothing Dequeue] /\ stalled s
  | _ => False
  end.
Proof. vm_compute. repeat split. by exists 2%nat, 2%nat. Qed.
