(* ===== verification/RedBlackTree.v ===== *)
(** * base::RedBlackTree2 (containers/tree/red_black_tree_2.h): the code

    A search tree of heap nodes with parent pointers and one black sentinel that stands
    for every missing child and for the parent of the root.  The operations are the
    pointer programs of the source in a monad of state and failure: a load or store
    through an address that holds no node, or a read of the value of the sentinel, is
    [Undef], and so is a loop that has run out of fuel.  The fuel of every loop is the
    number of nodes in the heap; the theorems show that it never runs out. *)

From stdpp Require Import gmap.
From S2P Require Import Prelude Memory.

Set Default Proof Using "Type".

Inductive NodeColor := RED | BLACK.

#[export] Instance NodeColor_eq_dec : EqDecision NodeColor.
Proof. solve_decision. Defined.

Definition is_red (c : NodeColor) : bool := match c with RED => true | BLACK => false end.
Definition is_black (c : NodeColor) : bool := negb (is_red c).

(** [value] is [None] in the sentinel, whose storage holds no [T]. *)
Record Node {T : Type} := mkNode { value : option T; color : NodeColor; left : nat; right : nat; parent : nat }.
Arguments Node T : clear implicits.
Arguments mkNode {T}.

Record RedBlackTree2 {T : Type} := mkTree { heap : gmap nat (Node T); root_ : nat; nil_ : nat; fresh : nat }.
Arguments RedBlackTree2 T : clear implicits.
Arguments mkTree {T}.

(** ** The monad *)

Definition M (T A : Type) : Type := RedBlackTree2 T -> res (RedBlackTree2 T * A).

#[export] Instance M_ret {T} : MRet (M T) := fun A a s => Ok (s, a).
#[export] Instance M_bind {T} : MBind (M T) := fun A B k m s => '(s, a) ← m s; k a s.

Section Primitives.

Context {T : Type}.

Definition stuck {A} : M T A := fun _ => Undef.

Definition get {A} (f : Node T -> A) (a : nat) : M T A :=
  fun s => match heap s !! a with Some n => Ok (s, f n) | None => Undef end.

Definition store (a : nat) (f : Node T -> Node T) : M T () :=
  fun s => match heap s !! a with Some n => Ok (mkTree (<[a := f n]> (heap s)) (root_ s) (nil_ s) (fresh s), ()) | None => Undef end.

Definition set_color (a : nat) (c : NodeColor) : M T () := store a (fun n => mkNode (value n) c (left n) (right n) (parent n)).
Definition set_left (a x : nat) : M T () := store a (fun n => mkNode (value n) (color n) x (right n) (parent n)).
Definition set_right (a x : nat) : M T () := store a (fun n => mkNode (value n) (color n) (left n) x (parent n)).
Definition set_parent (a x : nat) : M T () := store a (fun n => mkNode (value n) (color n) (left n) (right n) x).

Definition get_root : M T nat := fun s => Ok (s, root_ s).
Definition set_root (a : nat) : M T () := fun s => Ok (mkTree (heap s) a (nil_ s) (fresh s), ()).
Definition get_nil : M T nat := fun s => Ok (s, nil_ s).
Definition get_size : M T nat := fun s => Ok (s, base.size (heap s)).

(** [node->value] *)
Definition get_value (a : nat) : M T T := v ← get value a; match v with Some v => mret v | None => stuck end.

(** [new Node(value)], with both children set to [nil_]. *)
Definition new_node (v : T) : M T nat :=
  fun s => Ok (mkTree (<[fresh s := mkNode (Some v) RED (nil_ s) (nil_ s) (nil_ s)]> (heap s)) (root_ s) (nil_ s) (S (fresh s)), fresh s).

Definition delete_node (a : nat) : M T () :=
  fun s => match heap s !! a with Some _ => Ok (mkTree (delete a (heap s)) (root_ s) (nil_ s) (fresh s), ()) | None => Undef end.

End Primitives.

Section RedBlackTree2.

Context {T : Type} (less_than equals : T -> T -> bool).

(** The constructor: the sentinel is its own parent and children. *)
Definition new_tree (nil : nat) : RedBlackTree2 T := mkTree {[nil := mkNode None BLACK nil nil nil]} nil nil (S nil).

(** ** Rotations *)

Definition RotateLeft (x : nat) : M T () :=
  y ← get right x;
  yl ← get left y;
  _ ← set_right x yl;
  nil ← get_nil;
  _ ← (if (yl =? nil)%nat then mret () else set_parent yl x);
  px ← get parent x;
  _ ← set_parent y px;
  _ ← (if (px =? nil)%nat then set_root y
       else pl ← get left px; if (x =? pl)%nat then set_left px y else set_right px y);
  _ ← set_left y x;
  set_parent x y.

Definition RotateRight (x : nat) : M T () :=
  y ← get left x;
  yr ← get right y;
  _ ← set_left x yr;
  nil ← get_nil;
  _ ← (if (yr =? nil)%nat then mret () else set_parent yr x);
  px ← get parent x;
  _ ← set_parent y px;
  _ ← (if (px =? nil)%nat then set_root y
       else pr ← get right px; if (x =? pr)%nat then set_right px y else set_left px y);
  _ ← set_right y x;
  set_parent x y.

(** ** Rebalancing after an insertion *)

Fixpoint FixInsert_loop (fuel : nat) (k : nat) : M T () :=
  match fuel with
  | O => stuck
  | S fuel =>
    p ← get parent k;
    pc ← get color p;
    if is_red pc then
      g ← get parent p;
      gl ← get left g;
      if (p =? gl)%nat then
        u ← get right g;
        uc ← get color u;
        if is_red uc then
          _ ← set_color u BLACK; _ ← set_color p BLACK; _ ← set_color g RED;
          FixInsert_loop fuel g
        else
          pr ← get right p;
          k ← (if (k =? pr)%nat then _ ← RotateLeft p; mret p else mret k);
          p ← get parent k;
          _ ← set_color p BLACK;
          g ← get parent p;
          _ ← set_color g RED;
          _ ← RotateRight g;
          FixInsert_loop fuel k
      else
        u ← get left g;
        uc ← get color u;
        if is_red uc then
          _ ← set_color u BLACK; _ ← set_color p BLACK; _ ← set_color g RED;
          FixInsert_loop fuel g
        else
          pl ← get left p;
          k ← (if (k =? pl)%nat then _ ← RotateRight p; mret p else mret k);
          p ← get parent k;
          _ ← set_color p BLACK;
          g ← get parent p;
          _ ← set_color g RED;
          _ ← RotateLeft g;
          FixInsert_loop fuel k
    else mret ()
  end.

Definition FixInsert (k : nat) : M T () :=
  fuel ← get_size; _ ← FixInsert_loop fuel k; r ← get_root; set_color r BLACK.

(** ** Rebalancing after a removal *)

(** The two colours of [w->left] and [w->right] are both black; the second is read only
    when the first is. *)
Definition both_black (a b : nat) : M T bool :=
  ac ← get color a; if is_black ac then bc ← get color b; mret (is_black bc) else mret false.

Fixpoint FixDelete_loop (fuel : nat) (x : nat) : M T nat :=
  match fuel with
  | O => stuck
  | S fuel =>
    r ← get_root;
    xc ← get color x;
    if negb (x =? r)%nat && is_black xc then
      p ← get parent x;
      pl ← get left p;
      if (x =? pl)%nat then
        w ← get right p;
        wc ← get color w;
        w ← (if is_red wc then
               _ ← set_color w BLACK; _ ← set_color p RED; _ ← RotateLeft p; get right p
             else mret w);
        wl ← get left w;
        wr ← get right w;
        b ← both_black wl wr;
        if b : bool then
          _ ← set_color w RED;
          FixDelete_loop fuel p
        else
          wrc ← get color wr;
          w ← (if is_black wrc then
                 _ ← set_color wl BLACK; _ ← set_color w RED; _ ← RotateRight w; get right p
               else mret w);
          pc ← get color p;
          _ ← set_color w pc;
          _ ← set_color p BLACK;
          wr ← get right w;
          _ ← set_color wr BLACK;
          _ ← RotateLeft p;
          r ← get_root;
          FixDelete_loop fuel r
      else
        w ← get left p;
        wc ← get color w;
        w ← (if is_red wc then
               _ ← set_color w BLACK; _ ← set_color p RED; _ ← RotateRight p; get left p
             else mret w);
        wr ← get right w;
        wl ← get left w;
        b ← both_black wr wl;
        if b : bool then
          _ ← set_color w RED;
          FixDelete_loop fuel p
        else
          wlc ← get color wl;
          w ← (if is_black wlc then
                 _ ← set_color wr BLACK; _ ← set_color w RED; _ ← RotateLeft w; get left p
               else mret w);
          pc ← get color p;
          _ ← set_color w pc;
          _ ← set_color p BLACK;
          wl ← get left w;
          _ ← set_color wl BLACK;
          _ ← RotateRight p;
          r ← get_root;
          FixDelete_loop fuel r
    else mret x
  end.

Definition FixDelete (x : nat) : M T () :=
  fuel ← get_size; x ← FixDelete_loop fuel x; set_color x BLACK.

Definition Transplant (u v : nat) : M T () :=
  nil ← get_nil;
  pu ← get parent u;
  _ ← (if (pu =? nil)%nat then set_root v
       else pl ← get left pu; if (u =? pl)%nat then set_left pu v else set_right pu v);
  pu ← get parent u;
  set_parent v pu.

(** ** Descents *)

Fixpoint SearchTree_loop (fuel : nat) (node : nat) (v : T) : M T nat :=
  match fuel with
  | O => stuck
  | S fuel =>
    nil ← get_nil;
    if (node =? nil)%nat then mret node
    else
      w ← get_value node;
      if equals v w then mret node
      else if less_than v w then node ← get left node; SearchTree_loop fuel node v
      else node ← get right node; SearchTree_loop fuel node v
  end.

Definition SearchTree (node : nat) (v : T) : M T nat := fuel ← get_size; SearchTree_loop fuel node v.

Fixpoint Minimum_loop (fuel : nat) (node : nat) : M T nat :=
  match fuel with
  | O => stuck
  | S fuel => nil ← get_nil; l ← get left node; if (l =? nil)%nat then mret node else Minimum_loop fuel l
  end.

Definition Minimum (node : nat) : M T nat := fuel ← get_size; Minimum_loop fuel node.

Fixpoint Maximum_loop (fuel : nat) (node : nat) : M T nat :=
  match fuel with
  | O => stuck
  | S fuel => nil ← get_nil; r ← get right node; if (r =? nil)%nat then mret node else Maximum_loop fuel r
  end.

Definition Maximum (node : nat) : M T nat := fuel ← get_size; Maximum_loop fuel node.

Definition empty : M T bool := r ← get_root; nil ← get_nil; mret (r =? nil)%nat.

(** [while (parent != nil_ && node == parent->left) { node = parent; parent = parent->parent; }] *)
Fixpoint up_from_left (fuel : nat) (node parent_ : nat) : M T nat :=
  match fuel with
  | O => stuck
  | S fuel =>
    nil ← get_nil;
    if (parent_ =? nil)%nat then mret parent_
    else
      pl ← get left parent_;
      if (node =? pl)%nat then gp ← get parent parent_; up_from_left fuel parent_ gp else mret parent_
  end.

Definition Predecessor (node : nat) : M T nat :=
  nil ← get_nil;
  if (node =? nil)%nat then e ← empty; if e : bool then mret nil else r ← get_root; Maximum r
  else
    l ← get left node;
    if negb (l =? nil)%nat then Maximum l
    else p ← get parent node; fuel ← get_size; up_from_left fuel node p.

Fixpoint up_from_right (fuel : nat) (node parent_ : nat) : M T nat :=
  match fuel with
  | O => stuck
  | S fuel =>
    nil ← get_nil;
    if (parent_ =? nil)%nat then mret parent_
    else
      pr ← get right parent_;
      if (node =? pr)%nat then gp ← get parent parent_; up_from_right fuel parent_ gp else mret parent_
  end.

Definition Successor (node : nat) : M T nat :=
  nil ← get_nil;
  r ← get right node;
  if negb (r =? nil)%nat then Minimum r
  else p ← get parent node; fuel ← get_size; up_from_right fuel node p.

Fixpoint LowerBound_loop (fuel : nat) (node found : nat) (v : T) : M T nat :=
  match fuel with
  | O => stuck
  | S fuel =>
    nil ← get_nil;
    if (node =? nil)%nat then mret found
    else
      w ← get_value node;
      if less_than w v then node ← get right node; LowerBound_loop fuel node found v
      else l ← get left node; LowerBound_loop fuel l node v
  end.

Definition LowerBound (v : T) : M T nat := fuel ← get_size; nil ← get_nil; r ← get_root; LowerBound_loop fuel r nil v.

Fixpoint UpperBound_loop (fuel : nat) (node found : nat) (v : T) : M T nat :=
  match fuel with
  | O => stuck
  | S fuel =>
    nil ← get_nil;
    if (node =? nil)%nat then mret found
    else
      w ← get_value node;
      if less_than v w then l ← get left node; UpperBound_loop fuel l node v
      else node ← get right node; UpperBound_loop fuel node found v
  end.

Definition UpperBound (v : T) : M T nat := fuel ← get_size; nil ← get_nil; r ← get_root; UpperBound_loop fuel r nil v.

(** ** Insertion *)

(** The place for a new value: the last node of the descent. *)
Fixpoint place_loop (fuel : nat) (x y : nat) (v : T) : M T nat :=
  match fuel with
  | O => stuck
  | S fuel =>
    nil ← get_nil;
    if (x =? nil)%nat then mret y
    else
      w ← get_value x;
      if less_than v w then l ← get left x; place_loop fuel l x v else r ← get right x; place_loop fuel r x v
  end.

Definition FindOrInsert (v : T) : M T (nat * bool) :=
  nil ← get_nil;
  r ← get_root;
  existing ← SearchTree r v;
  if negb (existing =? nil)%nat then mret (existing, false)
  else
    node ← new_node v;
    x ← get_root;
    fuel ← get_size;
    y ← place_loop fuel x nil v;
    _ ← set_parent node y;
    _ ← (if (y =? nil)%nat then set_root node
         else w ← get_value y; if less_than v w then set_left y node else set_right y node);
    _ ← FixInsert node;
    mret (node, true).

Definition Insert (v : T) : M T bool := '(_, inserted) ← FindOrInsert v; mret inserted.

(** ** Removal *)

Definition Erase (v : T) : M T bool :=
  nil ← get_nil;
  r ← get_root;
  z ← SearchTree r v;
  if (z =? nil)%nat then mret false
  else
    zl ← get left z;
    zr ← get right z;
    '(x, originalColor) ←
      (if (zl =? nil)%nat then
         c ← get color z;
         _ ← Transplant z zr; mret (zr, c)
       else if (zr =? nil)%nat then
         c ← get color z;
         _ ← Transplant z zl; mret (zl, c)
       else
         y ← Minimum zr;
         originalColor ← get color y;
         x ← get right y;
         py ← get parent y;
         _ ← (if (py =? z)%nat then set_parent x y
              else
                _ ← Transplant y x;
                zr ← get right z;
                _ ← set_right y zr;
                yr ← get right y;
                set_parent yr y);
         _ ← Transplant z y;
         zl ← get left z;
         _ ← set_left y zl;
         yl ← get left y;
         _ ← set_parent yl y;
         zc ← get color z;
         _ ← set_color y zc;
         mret (x, originalColor));
    _ ← delete_node z;
    _ ← (if is_black originalColor then FixDelete x else mret ());
    mret true.

Definition Find (v : T) : M T nat := r ← get_root; SearchTree r v.

Definition Contains (v : T) : M T bool := nil ← get_nil; n ← Find v; mret (negb (n =? nil)%nat).

(** ** Whole trees *)

Fixpoint DeleteTree (fuel : nat) (node : nat) : M T () :=
  match fuel with
  | O => stuck
  | S fuel =>
    nil ← get_nil;
    if (node =? nil)%nat then mret ()
    else
      l ← get left node; _ ← DeleteTree fuel l;
      r ← get right node; _ ← DeleteTree fuel r;
      delete_node node
  end.

Definition Clear : M T () := fuel ← get_size; r ← get_root; _ ← DeleteTree fuel r; nil ← get_nil; set_root nil.

(** [~RedBlackTree2]: the nodes, then the storage of the sentinel. *)
Definition destroy : M T () := fuel ← get_size; r ← get_root; _ ← DeleteTree fuel r; nil ← get_nil; delete_node nil.

(** [CopySubtree(other, node)], reading [other]. *)
Fixpoint CopySubtree (fuel : nat) (other : RedBlackTree2 T) (node : nat) : M T () :=
  match fuel with
  | O => stuck
  | S fuel =>
    if (node =? nil_ other)%nat then mret ()
    else
      match heap other !! node with
      | Some (mkNode (Some v) _ l r _) =>
        _ ← FindOrInsert v; _ ← CopySubtree fuel other l; CopySubtree fuel other r
      | _ => stuck
      end
  end.

Definition CopyFrom (other : RedBlackTree2 T) : M T () := CopySubtree (base.size (heap other)) other (root_ other).

Definition copy_assign (other : RedBlackTree2 T) : M T () := _ ← Clear; CopyFrom other.

(** [Swap]: root, sentinel and nodes all change hands. *)
Definition Swap (a b : RedBlackTree2 T) : RedBlackTree2 T * RedBlackTree2 T := (b, a).

End RedBlackTree2.
