(* ===== verification/RedBlackHeap.v ===== *)
(** * Trees in the heap of base::RedBlackTree2

    The pointer structure as an inductive tree whose nodes know their address, zippers
    into it, the heap cells that stand for a tree ([sub]) and for its surroundings
    ([csub]), and what the small pointer programs do to them: reads, recolouring,
    rotations and [Transplant].  The two sides of a mirrored pair are one lemma. *)

From stdpp Require Import gmap.
From S2P Require Import Prelude Memory RedBlackTree.

Set Default Proof Using "Type".
Set Warnings "-clear-no-such-hyp".

(** ** Running programs *)

Lemma bind_ok {T A B} (m : M T A) (k : A -> M T B) s s' a : m s = Ok (s', a) -> (m ≫= k) s = k a s'.
Proof. intros E. unfold mbind, M_bind. by rewrite E. Qed.

(** Equal up to the association of the concatenations. *)
Ltac same_order := cbn; repeat (rewrite <- app_assoc; cbn [app]); done.

(** Splits the memberships of the context. *)
Ltac not_in := repeat first [rewrite not_elem_of_app in * | rewrite not_elem_of_cons in *]; try tauto.

Section Trees.

Context {T : Type} (nil : nat).

Inductive tree := Leaf | Br (c : NodeColor) (l : tree) (a : nat) (v : T) (r : tree).

Inductive side := L | R.
Definition opp (d : side) : side := match d with L => R | R => L end.

(** A node seen from side [d]: the child on that side first. *)
Definition br (d : side) (c : NodeColor) (inner : tree) (a : nat) (v : T) (outer : tree) : tree :=
  match d with L => Br c inner a v outer | R => Br c outer a v inner end.

Record frame := F { f_side : side; f_color : NodeColor; f_addr : nat; f_value : T; f_sibling : tree }.

Fixpoint zip (ctx : list frame) (t : tree) : tree :=
  match ctx with [] => t | F d c a v sib :: ctx => zip ctx (br d c t a v sib) end.

Fixpoint addrs (t : tree) : list nat := match t with Leaf => [] | Br _ l a _ r => a :: addrs l ++ addrs r end.
Fixpoint caddrs (ctx : list frame) : list nat := match ctx with [] => [] | F _ _ a _ sib :: ctx => a :: addrs sib ++ caddrs ctx end.

Definition root (t : tree) : nat := match t with Leaf => nil | Br _ _ a _ _ => a end.
Definition up (ctx : list frame) : nat := match ctx with [] => nil | F _ _ a _ _ :: _ => a end.
Fixpoint root_at (ctx : list frame) (hole : nat) : nat := match ctx with [] => hole | F _ _ a _ _ :: ctx => root_at ctx a end.

Definition cell (d : side) (v : T) (c : NodeColor) (inner outer p : nat) : Node T :=
  match d with L => mkNode (Some v) c inner outer p | R => mkNode (Some v) c outer inner p end.

Fixpoint sub (h : gmap nat (Node T)) (p : nat) (t : tree) : Prop :=
  match t with
  | Leaf => True
  | Br c l a v r => h !! a = Some (mkNode (Some v) c (root l) (root r) p) /\ sub h a l /\ sub h a r
  end.

Fixpoint csub (h : gmap nat (Node T)) (ctx : list frame) (hole : nat) : Prop :=
  match ctx with
  | [] => True
  | F d c a v sib :: ctx => h !! a = Some (cell d v c hole (root sib) (up ctx)) /\ sub h a sib /\ csub h ctx a
  end.

(** The tree [t] is what the state [s] holds, the parent field of the sentinel is [np], the
    next address is [fr], and there is nothing else in the heap. *)
Record rep (s : RedBlackTree2 T) (np fr : nat) (t : tree) : Prop := {
  rep_sub : sub (heap s) nil t;
  rep_nodup : NoDup (addrs t);
  rep_nil : nil ∉ addrs t;
  rep_sentinel : heap s !! nil = Some (mkNode None BLACK nil nil np);
  rep_nil_ : nil_ s = nil;
  rep_root : root_ s = root t;
  rep_dom : forall a, is_Some (heap s !! a) <-> a = nil \/ a ∈ addrs t;
  rep_fresh : fresh s = fr /\ forall a, is_Some (heap s !! a) -> (a < fr)%nat;
}.

(** ** Shapes *)

Lemma br_opp d c t1 a v t2 : br (opp d) c t1 a v t2 = br d c t2 a v t1.
Proof. by destruct d. Qed.

Lemma root_br d c t1 a v t2 : root (br d c t1 a v t2) = a.
Proof. by destruct d. Qed.

Lemma addrs_br d c t1 a v t2 : addrs (br d c t1 a v t2) ≡ₚ a :: addrs t1 ++ addrs t2.
Proof. destruct d; cbn; [done|]. by rewrite (Permutation_app_comm (addrs t2)). Qed.

Lemma addrs_zip ctx t : addrs (zip ctx t) ≡ₚ addrs t ++ caddrs ctx.
Proof.
  revert t. induction ctx as [|[d c a v sib] ctx IH]; intros t; cbn; [by rewrite app_nil_r|].
  rewrite IH, addrs_br. cbn. rewrite <- app_assoc. apply Permutation_middle.
Qed.

Lemma root_zip ctx t : root (zip ctx t) = root_at ctx (root t).
Proof. revert t. induction ctx as [|[d c a v sib] ctx IH]; intros t; cbn; [done|]. by rewrite IH, root_br. Qed.

Lemma zip_app ctx1 ctx2 t : zip (ctx1 ++ ctx2) t = zip ctx2 (zip ctx1 t).
Proof. revert t. induction ctx1 as [|[d c a v sib] ctx1 IH]; intros t; cbn; [done|]. by rewrite IH. Qed.

Lemma caddrs_app ctx1 ctx2 : caddrs (ctx1 ++ ctx2) = caddrs ctx1 ++ caddrs ctx2.
Proof. induction ctx1 as [|[d c a v sib] ctx1 IH]; cbn; [done|]. by rewrite IH, <- app_assoc. Qed.

Lemma sub_br h p d c t1 a v t2 :
  sub h p (br d c t1 a v t2) <-> h !! a = Some (cell d v c (root t1) (root t2) p) /\ sub h a t1 /\ sub h a t2.
Proof. destruct d; cbn; tauto. Qed.

Lemma sub_zip h ctx t : sub h nil (zip ctx t) <-> sub h (up ctx) t /\ csub h ctx (root t).
Proof.
  revert t. induction ctx as [|[d c a v sib] ctx IH]; intros t; cbn; [tauto|].
  rewrite IH, sub_br, root_br. cbn. tauto.
Qed.

Lemma root_elem t : t <> Leaf -> root t ∈ addrs t.
Proof. destruct t; [done|]. intros _. apply list_elem_of_here. Qed.

Lemma up_elem ctx : ctx <> [] -> up ctx ∈ caddrs ctx.
Proof. destruct ctx as [|[]]; [done|]. intros _. apply list_elem_of_here. Qed.

(** ** Frames *)

Lemma sub_frame h h' p t : sub h p t -> (forall a, a ∈ addrs t -> h' !! a = h !! a) -> sub h' p t.
Proof.
  revert p. induction t as [|c l IHl a v r IHr]; intros p; cbn; [done|]. intros (E & Hl & Hr) H.
  split; [by rewrite H by apply list_elem_of_here|]. split; [apply IHl|apply IHr]; try done; intros b Hb; apply H; apply elem_of_cons; right; apply elem_of_app; auto.
Qed.

Lemma csub_frame h h' ctx hole : csub h ctx hole -> (forall a, a ∈ caddrs ctx -> h' !! a = h !! a) -> csub h' ctx hole.
Proof.
  revert hole. induction ctx as [|[d c a v sib] ctx IH]; intros hole; cbn; [done|]. intros (E & Hs & Hc) H.
  split; [by rewrite H by apply list_elem_of_here|]. split; [apply (sub_frame h)|apply IH]; try done; intros b Hb; apply H; apply elem_of_cons; right; apply elem_of_app; auto.
Qed.

(** What a program that changes only the fields of nodes in [X] leaves alone. *)
Definition only (X : list nat) (s s' : RedBlackTree2 T) : Prop :=
  (forall a, a ∉ X -> heap s' !! a = heap s !! a) /\ (forall a, is_Some (heap s' !! a) <-> is_Some (heap s !! a)) /\ nil_ s' = nil_ s /\ fresh s' = fresh s.

Lemma only_refl X s : only X s s.
Proof. done. Qed.

Lemma only_trans X1 X2 s1 s2 s3 : only X1 s1 s2 -> only X2 s2 s3 -> only (X1 ++ X2) s1 s3.
Proof.
  intros (A1 & B1 & C1 & D1) (A2 & B2 & C2 & D2). split; [|split; [|split; congruence]].
  - intros a Ha. rewrite not_elem_of_app in Ha. destruct Ha. by rewrite A2, A1.
  - intros a. by rewrite B2.
Qed.

Definition with_store (s : RedBlackTree2 T) (a : nat) (n : Node T) : RedBlackTree2 T := mkTree (<[a := n]> (heap s)) (root_ s) (nil_ s) (fresh s).

Lemma only_store s a n n0 : heap s !! a = Some n0 -> only [a] s (with_store s a n).
Proof.
  intros E. split; [|split; [|done]]; cbn.
  - intros b Hb. apply lookup_insert_ne. intros ->. apply Hb, list_elem_of_here.
  - intros b. destruct (decide (b = a)) as [->|Hne]; [rewrite lookup_insert_eq, E; split; eauto|by rewrite lookup_insert_ne].
Qed.

Lemma sub_only X s s' p t : only X s s' -> sub (heap s) p t -> (forall a, a ∈ addrs t -> a ∉ X) -> sub (heap s') p t.
Proof. intros (H & _) Hs Hd. apply (sub_frame (heap s)); [done|]. intros a Ha. apply H. by apply Hd. Qed.

Lemma csub_only X s s' ctx hole : only X s s' -> csub (heap s) ctx hole -> (forall a, a ∈ caddrs ctx -> a ∉ X) -> csub (heap s') ctx hole.
Proof. intros (H & _) Hs Hd. apply (csub_frame (heap s)); [done|]. intros a Ha. apply H. by apply Hd. Qed.

(** ** Fields by side *)

Definition child (d : side) (n : Node T) : nat := match d with L => left n | R => right n end.
Definition set_child (d : side) : nat -> nat -> M T () := match d with L => set_left | R => set_right end.

Lemma get_ok {A} (f : Node T -> A) a s n : heap s !! a = Some n -> get f a s = Ok (s, f n).
Proof. intros E. unfold get. by rewrite E. Qed.

Lemma store_ok a f s n : heap s !! a = Some n -> store a f s = Ok (with_store s a (f n), ()).
Proof. intros E. unfold store. by rewrite E. Qed.

Lemma set_child_ok d a x s d' v c i o p :
  heap s !! a = Some (cell d' v c i o p) -> set_child d a x s = Ok (with_store s a (match d, d' with L, L | R, R => cell d' v c x o p | _, _ => cell d' v c i x p end), ()).
Proof. intros E. destruct d, d'; cbn; unfold set_left, set_right; by rewrite (store_ok _ _ _ _ E). Qed.

Lemma set_parent_ok a x s v c l r p : heap s !! a = Some (mkNode v c l r p) -> set_parent a x s = Ok (with_store s a (mkNode v c l r x), ()).
Proof. intros E. unfold set_parent. by rewrite (store_ok _ _ _ _ E). Qed.

Lemma set_parent_cell a x s d v c i o p : heap s !! a = Some (cell d v c i o p) -> set_parent a x s = Ok (with_store s a (cell d v c i o x), ()).
Proof. destruct d; intros E; by rewrite (set_parent_ok _ _ _ _ _ _ _ _ E). Qed.

Lemma set_color_cell a x s d v c i o p : heap s !! a = Some (cell d v c i o p) -> set_color a x s = Ok (with_store s a (cell d v x i o p), ()).
Proof. destruct d; intros E; unfold set_color; by rewrite (store_ok _ _ _ _ E). Qed.

Lemma lookup_store s a n : heap (with_store s a n) !! a = Some n.
Proof. apply lookup_insert_eq. Qed.

Lemma only_weaken X Y s s' : only X s s' -> (forall a, a ∈ X -> a ∈ Y) -> only Y s s'.
Proof. intros (A & B) H. split; [|done]. intros a Ha. apply A. auto. Qed.

(** ** Rotation *)

Definition reparent (b x nil' : nat) : M T () := if (b =? nil')%nat then mret () else set_parent b x.

Definition replace_child (d : side) (px x y nil' : nat) : M T () :=
  if (px =? nil')%nat then set_root y else pl ← get (child d) px; if (x =? pl)%nat then set_child d px y else set_child (opp d) px y.

Definition rotate (d : side) (x : nat) : M T () :=
  y ← get (child (opp d)) x;
  b ← get (child d) y;
  _ ← set_child (opp d) x b;
  nil' ← get_nil;
  _ ← reparent b x nil';
  px ← get parent x;
  _ ← set_parent y px;
  _ ← replace_child d px x y nil';
  _ ← set_child d y x;
  set_parent x y.

Lemma RotateLeft_rotate : RotateLeft = rotate L.
Proof. done. Qed.

Lemma RotateRight_rotate : RotateRight = rotate R.
Proof. done. Qed.

Lemma reparent_ok p x t s :
  sub (heap s) p t -> NoDup (addrs t) -> nil ∉ addrs t ->
  exists s', reparent (root t) x nil s = Ok (s', ()) /\ sub (heap s') x t /\ only (addrs t) s s' /\ root_ s' = root_ s.
Proof.
  intros Hs Hd Hn. unfold reparent. destruct t as [|c l a v r]; cbn in *.
  - rewrite Nat.eqb_refl. by exists s.
  - destruct Hs as (E & Hl & Hr). rewrite not_elem_of_cons in Hn. apply list.NoDup_cons in Hd as [Ha _].
    rewrite (proj2 (Nat.eqb_neq a nil)) by (intros ->; by destruct Hn).
    rewrite (set_parent_ok _ _ _ _ _ _ _ _ E). eexists. split; [done|]. pose proof (only_store s a (mkNode (Some v) c (root l) (root r) x) _ E) as Ho.
    split; [|split; [|done]].
    + split; [apply lookup_store|]. rewrite not_elem_of_app in Ha.
      split; (eapply sub_only; [done|done|]); intros b Hb ->%list_elem_of_singleton; by destruct Ha.
    + eapply only_weaken; [done|]. intros b ->%list_elem_of_singleton. apply list_elem_of_here.
Qed.

Lemma replace_child_ok d ctx x y s :
  csub (heap s) ctx x -> NoDup (caddrs ctx) -> nil ∉ caddrs ctx -> x ∉ caddrs ctx -> x <> nil ->
  exists s', replace_child d (up ctx) x y nil s = Ok (s', ()) /\ csub (heap s') ctx y /\ only (caddrs ctx) s s' /\
    root_ s' = match ctx with [] => y | _ => root_ s end.
Proof.
  intros Hc Hd Hn Hx Hxn. unfold replace_child. destruct ctx as [|[d' c a v sib] ctx]; cbn in *.
  - rewrite Nat.eqb_refl. by eexists.
  - destruct Hc as (E & Hs & Hc). rewrite !not_elem_of_cons, !not_elem_of_app in *. apply list.NoDup_cons in Hd as [Ha Hd].
    rewrite not_elem_of_app in Ha. destruct Hn as (Hn1 & Hn2 & Hn3), Hx as (Hx1 & Hx2 & Hx3), Ha as [Ha1 Ha2].
    rewrite (proj2 (Nat.eqb_neq a nil)) by auto. rewrite (bind_ok _ _ _ _ _ (get_ok _ _ _ _ E)).
    assert (Hsib : x <> root sib) by (destruct sib; [done|]; intros ->; apply Hx2; apply list_elem_of_here).
    assert (Eq : (if (x =? child d (cell d' v c x (root sib) (up ctx)))%nat then set_child d a y else set_child (opp d) a y) s =
      Ok (with_store s a (cell d' v c y (root sib) (up ctx)), ())).
    { destruct d, d'; cbn; rewrite ?Nat.eqb_refl, ?(proj2 (Nat.eqb_neq _ _) Hsib); unfold set_left, set_right; by rewrite (store_ok _ _ _ _ E). }
    rewrite Eq. eexists. split; [done|]. pose proof (only_store s a (cell d' v c y (root sib) (up ctx)) _ E) as Ho. split; [|split; [|done]].
    + split; [apply lookup_store|]. split; [eapply sub_only|eapply csub_only]; try done; intros b Hb ->%list_elem_of_singleton; done.
    + eapply only_weaken; [done|]. intros b ->%list_elem_of_singleton. apply list_elem_of_here.
Qed.

(** The addresses of two neighbouring nodes, their three subtrees and the rest. *)
Record apart2 (x y : nat) (A B C : tree) (ctx : list frame) : Prop := {
  ap_xy : x <> y;
  ap_x : x ∉ addrs A ++ addrs B ++ addrs C ++ caddrs ctx;
  ap_y : y ∉ addrs A ++ addrs B ++ addrs C ++ caddrs ctx;
  ap_A : forall a, a ∈ addrs A -> a ∉ addrs B ++ addrs C ++ caddrs ctx;
  ap_B : forall a, a ∈ addrs B -> a ∉ addrs C ++ caddrs ctx;
  ap_C : forall a, a ∈ addrs C -> a ∉ caddrs ctx;
  ap_A' : NoDup (addrs A);
  ap_B' : NoDup (addrs B);
  ap_C' : NoDup (addrs C);
  ap_ctx : NoDup (caddrs ctx);
}.

Lemma apart2_intro d d' ctx cx A x vx cy B y vy C :
  NoDup (addrs (zip ctx (br d cx A x vx (br d' cy B y vy C)))) -> apart2 x y A B C ctx.
Proof.
  rewrite addrs_zip, addrs_br, addrs_br. cbn. rewrite <- !app_assoc. cbn. intros [Hx H]%list.NoDup_cons.
  rewrite <- Permutation_middle in H, Hx. apply list.NoDup_cons in H as [Hy H]. rewrite <- !app_assoc in H, Hx, Hy.
  rewrite list.NoDup_app in H. destruct H as (HA & HA' & H). rewrite list.NoDup_app in H. destruct H as (HB & HB' & H).
  rewrite list.NoDup_app in H. destruct H as (HC & HC' & H). rewrite not_elem_of_cons in Hx. destruct Hx as [Hxy Hx]. by split.
Qed.

Lemma rep_update X s s' np fr t t' :
  rep s np fr t -> only X s s' -> nil ∉ X -> sub (heap s') nil t' -> addrs t' ≡ₚ addrs t -> root_ s' = root t' -> rep s' np fr t'.
Proof.
  intros [Hs Hd Hn Hsen Hnil Hroot Hdom Hfr] (O1 & O2 & O3 & O4) HX Hs' Hp Hr. split; try done.
  - by rewrite Hp.
  - by rewrite Hp.
  - by rewrite O1.
  - by rewrite O3.
  - intros a. by rewrite O2, Hp.
  - rewrite O4. split; [apply Hfr|]. intros a. rewrite O2. apply Hfr.
Qed.

Lemma root_at_cons ctx x y : root_at ctx y = match ctx with [] => y | _ => root_at ctx x end.
Proof. by destruct ctx as [|[]]. Qed.

Lemma addrs_rotate d cx A x vx cy B y vy C c c' :
  addrs (br d c (br d c' A x vx B) y vy C) ≡ₚ addrs (br d cx A x vx (br d cy B y vy C)).
Proof.
  rewrite !addrs_br. cbn. rewrite perm_swap. constructor. rewrite <- app_assoc. apply Permutation_middle.
Qed.

Lemma rotate_ok d ctx cx A x vx cy B y vy C s np fr :
  rep s np fr (zip ctx (br d cx A x vx (br d cy B y vy C))) ->
  exists s', rotate d x s = Ok (s', ()) /\ rep s' np fr (zip ctx (br d cy (br d cx A x vx B) y vy C)).
Proof.
  intros Hrep. pose proof Hrep as [Hs Hd Hn Hsen Hnil Hroot Hdom Hfr]. pose proof (apart2_intro _ _ _ _ _ _ _ _ _ _ _ _ Hd) as [Hxy Hx Hy HA HB HC HA' HB' HC' Hctx].
  rewrite addrs_zip, addrs_br, addrs_br in Hn.
  apply sub_zip in Hs as [Ht Hc]. rewrite root_br in Hc. apply sub_br in Ht as (Ex & SA & Hy'). rewrite root_br in Ex.
  apply sub_br in Hy' as (Ey & SB & SC). rewrite root_zip, root_br in Hroot. not_in. destruct Hn as ((Nx & NA & Ny & NB & NC) & Nc). unfold rotate.
  rewrite (bind_ok _ _ _ _ _ (get_ok _ _ _ _ Ex)). replace (child (opp d) _) with y by (by destruct d).
  rewrite (bind_ok _ _ _ _ _ (get_ok _ _ _ _ Ey)). replace (child d _) with (root B) by (by destruct d).
  set (s1 := with_store s x (cell d vx cx (root A) (root B) (up ctx))).
  rewrite (bind_ok _ _ s s1 ()) by (rewrite (set_child_ok _ _ _ _ _ _ _ _ _ _ Ex); by destruct d).
  pose proof (only_store s x (cell d vx cx (root A) (root B) (up ctx)) _ Ex : only [x] s s1) as O1.
  rewrite (bind_ok get_nil _ s1 s1 nil) by (cbn; by rewrite <- Hnil).
  destruct (reparent_ok y x B s1) as (s2 & E2 & SB2 & O2 & R2); [apply (sub_only [x] s); [done|done|set_solver]|done|done|].
  rewrite (bind_ok _ _ _ _ _ E2).
  assert (Ex2 : heap s2 !! x = Some (cell d vx cx (root A) (root B) (up ctx))) by (rewrite (proj1 O2) by tauto; apply lookup_store).
  rewrite (bind_ok _ _ _ _ _ (get_ok _ _ _ _ Ex2)). replace (parent _) with (up ctx) by (by destruct d).
  assert (Ey2 : heap s2 !! y = Some (cell d vy cy (root B) (root C) x)).
  { rewrite (proj1 O2), (proj1 O1) by (rewrite ?list_elem_of_singleton; tauto || congruence). done. }
  set (s3 := with_store s2 y (cell d vy cy (root B) (root C) (up ctx))).
  rewrite (bind_ok _ _ s2 s3 ()) by (by rewrite (set_parent_cell _ _ _ _ _ _ _ _ _ Ey2)).
  pose proof (only_store s2 y (cell d vy cy (root B) (root C) (up ctx)) _ Ey2 : only [y] s2 s3) as O3.
  pose proof (only_trans _ _ _ _ _ (only_trans _ _ _ _ _ O1 O2) O3) as O13.
  destruct (replace_child_ok d ctx x y s3) as (s4 & E4 & Hc4 & O4 & R4); [apply (csub_only _ _ _ _ _ O13 Hc); set_solver|done|done|tauto|auto|].
  rewrite (bind_ok _ _ _ _ _ E4).
  assert (Ey4 : heap s4 !! y = Some (cell d vy cy (root B) (root C) (up ctx))) by (rewrite (proj1 O4) by tauto; apply lookup_store).
  set (s5 := with_store s4 y (cell d vy cy x (root C) (up ctx))).
  rewrite (bind_ok _ _ s4 s5 ()) by (rewrite (set_child_ok _ _ _ _ _ _ _ _ _ _ Ey4); by destruct d).
  pose proof (only_store s4 y (cell d vy cy x (root C) (up ctx)) _ Ey4 : only [y] s4 s5) as O5.
  assert (Ex5 : heap s5 !! x = Some (cell d vx cx (root A) (root B) (up ctx))).
  { rewrite (proj1 O5), (proj1 O4), (proj1 O3) by set_solver. done. }
  set (s6 := with_store s5 x (cell d vx cx (root A) (root B) y)).
  rewrite (set_parent_cell _ _ _ _ _ _ _ _ _ Ex5). exists s6. split; [done|].
  pose proof (only_store s5 x (cell d vx cx (root A) (root B) y) _ Ex5 : only [x] s5 s6) as O6.
  pose proof (only_trans _ _ _ _ _ O5 O6) as O56. pose proof (only_trans _ _ _ _ _ O3 (only_trans _ _ _ _ _ O4 O56)) as O36.
  pose proof (only_trans _ _ _ _ _ (only_trans _ _ _ _ _ O1 O2) O36) as O16.
  apply (rep_update _ _ _ _ _ _ _ Hrep O16); [set_solver| |rewrite !addrs_zip; by rewrite addrs_rotate|].
  - apply sub_zip. rewrite root_br. split; [|apply (csub_only _ _ _ _ _ O56 Hc4); set_solver].
    apply sub_br. rewrite root_br. split; [unfold s6, with_store; cbn; rewrite lookup_insert_ne by done; apply lookup_insert_eq|].
    split; [|apply (sub_only _ _ _ _ _ O16 SC); set_solver]. apply sub_br. split; [apply lookup_store|].
    split; [apply (sub_only _ _ _ _ _ O16 SA); set_solver|apply (sub_only _ _ _ _ _ O36 SB2); set_solver].
  - rewrite root_zip, root_br. change (root_ s6) with (root_ s4). rewrite R4. change (root_ s3) with (root_ s2). rewrite R2. cbn. rewrite Hroot. symmetry. apply root_at_cons.
Qed.

(** ** Reading and recolouring at the focus *)

Definition tcolor (t : tree) : NodeColor := match t with Leaf => BLACK | Br c _ _ _ _ => c end.

Lemma read_at s np fr ctx d c t1 a v t2 :
  rep s np fr (zip ctx (br d c t1 a v t2)) -> heap s !! a = Some (cell d v c (root t1) (root t2) (up ctx)).
Proof. intros H. pose proof (rep_sub _ _ _ _ H) as Hs. apply sub_zip in Hs as [Hs _]. by apply sub_br in Hs as [E _]. Qed.

Lemma read_color s np fr ctx t : rep s np fr (zip ctx t) -> get color (root t) s = Ok (s, tcolor t).
Proof.
  intros H. destruct t as [|c l a v r].
  - apply (get_ok color _ _ _ (rep_sentinel _ _ _ _ H)).
  - apply (get_ok color _ _ _ (read_at s np fr ctx L c l a v r H)).
Qed.

Lemma recolor_ok s np fr ctx d c t1 a v t2 c' :
  rep s np fr (zip ctx (br d c t1 a v t2)) -> exists s', set_color a c' s = Ok (s', ()) /\ rep s' np fr (zip ctx (br d c' t1 a v t2)).
Proof.
  intros H. pose proof (read_at _ _ _ _ _ _ _ _ _ _ H) as E. rewrite (set_color_cell _ _ _ _ _ _ _ _ _ E). eexists. split; [done|].
  pose proof (only_store s a (cell d v c' (root t1) (root t2) (up ctx)) _ E) as Ho. pose proof H as [Hs Hd Hn _ _ Hroot _ _].
  rewrite addrs_zip, addrs_br in Hd, Hn. cbn in Hd, Hn. rewrite <- app_assoc in Hd, Hn. apply list.NoDup_cons in Hd as [Ha Hd]. not_in.
  apply sub_zip in Hs as [Ht Hc]. apply sub_br in Ht as (_ & H1 & H2). rewrite root_br in Hc.
  apply (rep_update [a] s _ _ _ _ _ H Ho); [set_solver| |by rewrite !addrs_zip, !addrs_br|].
  - apply sub_zip. rewrite root_br. split; [|apply (csub_only _ _ _ _ _ Ho Hc); set_solver].
    apply sub_br. split; [apply lookup_store|]. split; (eapply sub_only; [exact Ho|done|set_solver]).
  - cbn. by rewrite Hroot, !root_zip, !root_br.
Qed.

Lemma recolor_sentinel s np fr t : rep s np fr t -> exists s', set_color nil BLACK s = Ok (s', ()) /\ rep s' np fr t.
Proof.
  intros H. pose proof (rep_sentinel _ _ _ _ H) as E. unfold set_color. rewrite (store_ok _ _ _ _ E). cbn. eexists. split; [done|].
  destruct H as [Hs Hd Hn Hsen Hnil Hroot Hdom Hfr]. unfold with_store. rewrite (insert_id (heap s)) by done. by split.
Qed.

Lemma get_nil_ok s np fr t : rep s np fr t -> get_nil s = Ok (s, nil).
Proof. intros H. unfold get_nil. by rewrite (rep_nil_ _ _ _ _ H). Qed.

Lemma get_root_ok s np fr t : rep s np fr t -> get_root s = Ok (s, root t).
Proof. intros H. unfold get_root. by rewrite (rep_root _ _ _ _ H). Qed.

(** The addresses around a focus are its own, and none is the sentinel. *)
Lemma focus_apart s np fr ctx d c t1 a v t2 :
  rep s np fr (zip ctx (br d c t1 a v t2)) ->
  a <> nil /\ root t1 <> a /\ root t2 <> a /\ (t1 <> Leaf -> root t1 <> root t2) /\ a ∉ addrs t1 ++ addrs t2 ++ caddrs ctx.
Proof.
  intros [_ Hd Hn _ _ _ _ _]. rewrite addrs_zip, addrs_br in Hd, Hn. cbn in Hd, Hn. rewrite <- app_assoc in Hd, Hn.
  apply list.NoDup_cons in Hd as [Ha Hd]. pose proof Ha as Ha0. not_in. apply list.NoDup_app in Hd as (_ & Hd & _).
  assert (H1 : t1 <> Leaf -> root t1 ∈ addrs t1) by apply root_elem. assert (H2 : t2 <> Leaf -> root t2 ∈ addrs t2) by apply root_elem.
  assert (N : forall t : tree, a ∉ addrs t -> a <> nil -> root t <> a) by (intros [|? ? b]; cbn; [auto|set_solver]).
  split; [intros ->; tauto|]. split; [apply N; intuition|]. split; [apply N; intuition|]. split; [|done].
  intros Hl. specialize (H1 Hl). intros E. destruct t2 as [|c2 l2 b v2 r2]; cbn in E.
  - rewrite E in H1. tauto.
  - specialize (Hd _ H1). apply Hd. rewrite E. apply elem_of_app. left. apply list_elem_of_here.
Qed.

(** ** Order *)

Fixpoint inorder (t : tree) : list (nat * T) := match t with Leaf => [] | Br _ l a v r => inorder l ++ (a, v) :: inorder r end.

Lemma inorder_br d c c' t1 t1' a v t2 t2' :
  inorder t1 = inorder t1' -> inorder t2 = inorder t2' -> inorder (br d c t1 a v t2) = inorder (br d c' t1' a v t2').
Proof. intros E1 E2. destruct d; cbn; by rewrite E1, E2. Qed.

Lemma inorder_zip ctx t t' : inorder t = inorder t' -> inorder (zip ctx t) = inorder (zip ctx t').
Proof. revert t t'. induction ctx as [|[d c a v sib] ctx IH]; intros t t' E; cbn; [done|]. apply IH. by apply inorder_br. Qed.

Lemma inorder_rotate d c1 c2 c3 c4 A x vx B y vy C :
  inorder (br d c1 (br d c2 A x vx B) y vy C) = inorder (br d c3 A x vx (br d c4 B y vy C)).
Proof. destruct d; cbn; by rewrite <- !app_assoc. Qed.

(** What precedes and what follows a place. *)
Fixpoint precede (ctx : list frame) : list (nat * T) :=
  match ctx with [] => [] | F d _ a v sib :: ctx => precede ctx ++ match d with L => [] | R => inorder sib ++ [(a, v)] end end.

Fixpoint follow (ctx : list frame) : list (nat * T) :=
  match ctx with [] => [] | F d _ a v sib :: ctx => match d with L => (a, v) :: inorder sib | R => [] end ++ follow ctx end.

Lemma inorder_around ctx t : inorder (zip ctx t) = precede ctx ++ inorder t ++ follow ctx.
Proof.
  revert t. induction ctx as [|[d c a v sib] ctx IH]; intros t; cbn [zip precede follow]; [by rewrite app_nil_r|].
  rewrite IH. destruct d; same_order.
Qed.

Lemma addrs_inorder t : (inorder t).*1 ≡ₚ addrs t.
Proof. induction t as [|c l IHl a v r IHr]; cbn; [done|]. rewrite fmap_app. cbn. by rewrite IHl, IHr, Permutation_middle. Qed.

Lemma inorder_focus ctx d c t1 a v t2 : (a, v) ∈ inorder (zip ctx (br d c t1 a v t2)).
Proof.
  assert (H : forall ctx t, (a, v) ∈ inorder t -> (a, v) ∈ inorder (zip ctx t)).
  { clear. induction ctx as [|[d c b w sib] ctx IH]; intros t H; cbn; [done|]. apply IH. destruct d; cbn; rewrite elem_of_app, elem_of_cons; auto. }
  apply H. destruct d; cbn; rewrite elem_of_app, elem_of_cons; auto.
Qed.

(** The nodes of the tree are as many as the heap has beside the sentinel. *)
Lemma rep_size s np fr t : rep s np fr t -> base.size (heap s) = S (length (addrs t)).
Proof.
  intros [_ Hd Hn _ _ _ Hdom _]. rewrite <- size_dom. replace (dom (heap s)) with (list_to_set (nil :: addrs t) : gset nat).
  - rewrite size_list_to_set; [done|]. by apply list.NoDup_cons.
  - apply set_eq. intros a. rewrite elem_of_dom, Hdom, elem_of_list_to_set, elem_of_cons. done.
Qed.

Lemma ctx_length ctx : (length ctx <= length (caddrs ctx))%nat.
Proof. induction ctx as [|[d c a v sib] ctx IH]; cbn; [lia|]. rewrite length_app. lia. Qed.

(** The fuel of the loops that climb. *)
Lemma ctx_size s np fr ctx t : rep s np fr (zip ctx t) -> (length ctx < base.size (heap s))%nat.
Proof.
  intros H. rewrite (rep_size _ _ _ _ H). pose proof (ctx_length ctx). pose proof (Permutation_length (addrs_zip ctx t)) as E.
  rewrite length_app in E. lia.
Qed.

(** ** Balance *)

Inductive rb : tree -> NodeColor -> nat -> Prop :=
  | rb_leaf : rb Leaf BLACK 0
  | rb_red l a v r n : rb l BLACK n -> rb r BLACK n -> rb (Br RED l a v r) RED n
  | rb_black l a v r c1 c2 n : rb l c1 n -> rb r c2 n -> rb (Br BLACK l a v r) BLACK (S n).

(** The surroundings of a tree of black height [n] whose parent has the colour [pc]; above
    a red node there is a black one. *)
Inductive crb : list frame -> NodeColor -> nat -> Prop :=
  | crb_nil n : crb [] BLACK n
  | crb_black d a v sib ctx pc c n : crb ctx pc (S n) -> rb sib c n -> crb (F d BLACK a v sib :: ctx) BLACK n
  | crb_red d a v sib f ctx n : crb (f :: ctx) BLACK n -> rb sib BLACK n -> crb (F d RED a v sib :: f :: ctx) RED n.

Lemma rb_color t c n : rb t c n -> tcolor t = c.
Proof. by destruct 1. Qed.

Lemma rb_br_red d t1 a v t2 n : rb t1 BLACK n -> rb t2 BLACK n -> rb (br d RED t1 a v t2) RED n.
Proof. destruct d; by constructor. Qed.

Lemma rb_br_black d t1 a v t2 c1 c2 n : rb t1 c1 n -> rb t2 c2 n -> rb (br d BLACK t1 a v t2) BLACK (S n).
Proof. destruct d; by econstructor. Qed.

Lemma rb_br_inv d c0 t1 a v t2 c n :
  rb (br d c0 t1 a v t2) c n -> c0 = c /\ match c with
    | RED => rb t1 BLACK n /\ rb t2 BLACK n
    | BLACK => exists m c1 c2, n = S m /\ rb t1 c1 m /\ rb t2 c2 m
    end.
Proof. destruct d; inversion 1; subst; eauto 10. Qed.

Definition fits_under (pc c : NodeColor) : Prop := pc = RED -> c = BLACK.

Lemma zip_rb ctx pc t c n : crb ctx pc n -> rb t c n -> fits_under pc c -> exists c' m, rb (zip ctx t) c' m.
Proof.
  intros Hc. revert t c. induction Hc as [n|d a v sib ctx pc cs n Hc IH Hs|d a v sib f ctx n Hc IH Hs]; intros t c Ht Hf; cbn [zip]; [eauto|..].
  - apply (IH _ BLACK); [by eapply rb_br_black|done].
  - apply (IH _ RED); [|done]. rewrite (Hf eq_refl) in Ht. by apply rb_br_red.
Qed.

Lemma zip_rb_black ctx pc t c n :
  crb ctx pc n -> rb t c n -> fits_under pc c -> (ctx = [] -> c = BLACK) -> exists m, rb (zip ctx t) BLACK m.
Proof.
  intros Hc. revert t c. induction Hc as [n|d a v sib ctx pc cs n Hc IH Hs|d a v sib f ctx n Hc IH Hs]; intros t c Ht Hf Hr; cbn [zip].
  - rewrite (Hr eq_refl) in Ht. eauto.
  - apply (IH _ BLACK); [by eapply rb_br_black|done|done].
  - apply (IH _ RED); [|done|done]. rewrite (Hf eq_refl) in Ht. by apply rb_br_red.
Qed.

(** What holds at a place of a balanced tree. *)
Lemma unzip_rb ctx t m :
  rb (zip ctx t) BLACK m -> exists pc c n, crb ctx pc n /\ rb t c n /\ fits_under pc c /\ (ctx = [] -> c = BLACK).
Proof.
  revert t. induction ctx as [|[d c a v sib] ctx IH]; intros t H; cbn [zip] in H.
  - exists BLACK, BLACK, m. split; [constructor|done].
  - destruct (IH _ H) as (pc & c' & n & Hc & Ht & Hf & Hr). apply rb_br_inv in Ht as [-> Ht]. destruct c'.
    + destruct Ht as [H1 H2]. exists RED, BLACK, n. split; [|done]. destruct pc; [by specialize (Hf eq_refl)|].
      destruct ctx as [|f ctx]; [by specialize (Hr eq_refl)|]. by constructor.
    + destruct Ht as (k & c1 & c2 & -> & H1 & H2). exists BLACK, c1, k. split; [by econstructor|done].
Qed.

(** The height of a balanced tree: at least as many nodes as [2^n - 1] for black height [n],
    and no path is longer than [2 n + 1]. *)
Fixpoint height (t : tree) : nat := match t with Leaf => 0 | Br _ l _ _ r => S (Nat.max (height l) (height r)) end.

Lemma rb_height t c n : rb t c n -> (height t <= 2 * n + match c with RED => 1 | BLACK => 0 end)%nat.
Proof. induction 1; cbn; repeat match goal with c : NodeColor |- _ => destruct c end; lia. Qed.

Lemma rb_size t c n : rb t c n -> 2 ^ Z.of_nat n <= Z.of_nat (length (inorder t)) + 1.
Proof.
  induction 1; cbn [inorder length]; [done|..]; rewrite length_app; cbn [length]; [lia|].
  rewrite Nat2Z.inj_succ, Z.pow_succ_r by lia. lia.
Qed.

Lemma rb_log_height t c n : rb t c n -> c = BLACK -> Z.of_nat (height t) <= 2 * Z.log2 (Z.of_nat (length (inorder t)) + 1).
Proof.
  intros H ->. pose proof (rb_height t BLACK n H) as Hh. pose proof (rb_size t BLACK n H) as Hs.
  assert (Z.of_nat n <= Z.log2 (Z.of_nat (length (inorder t)) + 1)) by (apply Z.log2_le_pow2; lia). cbn in Hh. lia.
Qed.

End Trees.
