(* ===== verification/RedBlackInsert.v ===== *)
(** * Insertion into base::RedBlackTree2

    [FixInsert] on a tree with one red node too many, and [FindOrInsert] as a whole. *)

From stdpp Require Import gmap.
From S2P Require Import Prelude Memory RedBlackTree RedBlackHeap.

Set Default Proof Using "Type".
Set Warnings "-clear-no-such-hyp".

Section FixInsert.

Context {T : Type} (nil : nat).

Abbreviation rep := (rep (T := T) nil).
Abbreviation root := (root (T := T) nil).

(** One turn of the loop, seen from the side [d] of the parent under the grandparent. *)
Definition insert_body (d : side) (again : nat -> M T ()) (k p g : nat) : M T () :=
  u ← get (child (opp d)) g;
  uc ← get color u;
  if is_red uc then
    _ ← set_color u BLACK; _ ← set_color p BLACK; _ ← set_color g RED;
    again g
  else
    px ← get (child (opp d)) p;
    k ← (if (k =? px)%nat then _ ← rotate d p; mret p else mret k);
    p ← get parent k;
    _ ← set_color p BLACK;
    g ← get parent p;
    _ ← set_color g RED;
    _ ← rotate (opp d) g;
    again k.

Lemma FixInsert_loop_S fuel k :
  FixInsert_loop (T := T) (S fuel) k =
    (p ← get parent k; pc ← get color p;
     if is_red pc then
       g ← get parent p; gl ← get left g;
       if (p =? gl)%nat then insert_body L (FixInsert_loop fuel) k p g else insert_body R (FixInsert_loop fuel) k p g
     else mret ()).
Proof. done. Qed.

Lemma opp_opp d : opp (opp d) = d.
Proof. by destruct d. Qed.

Lemma child_cell d v c i o p : child d (cell (T := T) d v c i o p) = i /\ child (opp d) (cell (T := T) d v c i o p) = o.
Proof. by destruct d. Qed.

Lemma parent_cell d v c i o p : parent (cell (T := T) d v c i o p) = p.
Proof. by destruct d. Qed.

(** Reads at the focus, as steps of a program. *)
Lemma get_parent_at {A} s np fr ctx d c t1 a v t2 (k : nat -> M T A) :
  rep s np fr (zip ctx (br d c t1 a v t2)) -> (get parent a ≫= k) s = k (up nil ctx) s.
Proof. intros H. rewrite (bind_ok _ _ _ _ _ (get_ok _ _ _ _ (read_at _ _ _ _ _ _ _ _ _ _ _ H))). by rewrite parent_cell. Qed.

Lemma get_inner_at {A} s np fr ctx d c t1 a v t2 (k : nat -> M T A) :
  rep s np fr (zip ctx (br d c t1 a v t2)) -> (get (child d) a ≫= k) s = k (root t1) s.
Proof. intros H. rewrite (bind_ok _ _ _ _ _ (get_ok _ _ _ _ (read_at _ _ _ _ _ _ _ _ _ _ _ H))). by rewrite (proj1 (child_cell _ _ _ _ _ _)). Qed.

Lemma get_outer_at {A} s np fr ctx d c t1 a v t2 (k : nat -> M T A) :
  rep s np fr (zip ctx (br d c t1 a v t2)) -> (get (child (opp d)) a ≫= k) s = k (root t2) s.
Proof. intros H. rewrite (bind_ok _ _ _ _ _ (get_ok _ _ _ _ (read_at _ _ _ _ _ _ _ _ _ _ _ H))). by rewrite (proj2 (child_cell _ _ _ _ _ _)). Qed.

Lemma get_color_at {A} s np fr ctx t (k : NodeColor -> M T A) :
  rep s np fr (zip ctx t) -> (get color (root t) ≫= k) s = k (tcolor t) s.
Proof. intros H. by rewrite (bind_ok _ _ _ _ _ (read_color _ _ _ _ _ _ H)). Qed.

(** [x == x->parent->left] tells the side. *)
Lemma side_test s np fr ctx d c t1 a v t2 :
  rep s np fr (zip ctx (br d c t1 a v t2)) -> t1 <> Leaf ->
  get left a s = Ok (s, match d with L => root t1 | R => root t2 end) /\ (root t1 =? root t2)%nat = false.
Proof.
  intros H Hl. rewrite (get_ok left _ _ _ (read_at _ _ _ _ _ _ _ _ _ _ _ H)). split; [by destruct d|].
  apply Nat.eqb_neq. by eapply (focus_apart nil).
Qed.

(** The rotation that ends the loop: [k] outside, its uncle black. *)
Lemma insert_rotate d ctx t p vp sib g vg u s np fr (again : nat -> M T ()) k :
  rep s np fr (zip ctx (br d BLACK (br d RED t p vp sib) g vg u)) -> t <> Leaf -> root t = k -> forall kp, k = kp ->
  exists s', (p ← get parent kp; _ ← set_color p BLACK; g ← get parent p; _ ← set_color g RED; _ ← rotate (opp d) g; again kp) s = again k s' /\
    rep s' np fr (zip ctx (br d BLACK t p vp (br d RED sib g vg u))).
Proof.
  intros H Hl Hk kp <-.
  assert (Hp : (get parent k : M T nat) s = Ok (s, p)).
  { destruct t as [|c l a v r]; [done|]. cbn in Hk. subst a.
    change (br d BLACK (br d RED (Br c l k v r) p vp sib) g vg u) with (zip [F d RED p vp sib; F d BLACK g vg u] (br L c l k v r)) in H.
    rewrite <- (zip_app [_; _] ctx) in H. apply (get_ok parent _ _ _ (read_at _ _ _ _ _ _ _ _ _ _ _ H)). }
  rewrite (bind_ok _ _ _ _ _ Hp).
  change (br d BLACK (br d RED t p vp sib) g vg u) with (zip [F d BLACK g vg u] (br d RED t p vp sib)) in H. rewrite <- zip_app in H.
  destruct (recolor_ok _ _ _ _ _ _ _ _ _ _ _ BLACK H) as (s1 & E1 & H1). rewrite (bind_ok _ _ _ _ _ E1).
  rewrite (get_parent_at _ _ _ _ _ _ _ _ _ _ _ H1). cbn [up app]. rewrite zip_app in H1. cbn [zip] in H1.
  destruct (recolor_ok _ _ _ _ _ _ _ _ _ _ _ RED H1) as (s2 & E2 & H2). rewrite (bind_ok _ _ _ _ _ E2).
  rewrite <- (br_opp d RED), <- (br_opp d BLACK) in H2.
  destruct (rotate_ok _ _ _ _ _ _ _ _ _ _ _ _ _ _ _ H2) as (s3 & E3 & H3). rewrite (bind_ok _ _ _ _ _ E3). exists s3. split; [done|].
  by rewrite !(br_opp d) in H3.
Qed.

Definition good_insert (np fr : nat) (old : tree) (r : res (RedBlackTree2 T * ())) : Prop :=
  exists s' t', r = Ok (s', ()) /\ rep s' np fr t' /\ inorder t' = inorder old /\ exists c n, rb t' c n.

Lemma good_insert_order np fr old old' r : inorder old' = inorder old -> good_insert np fr old' r -> good_insert np fr old r.
Proof. intros E (s' & t' & -> & H & I & B). exists s', t'. split; [done|]. split; [done|]. split; [congruence|done]. Qed.

Lemma read_up ctx pc n t s np fr : rep s np fr (zip ctx t) -> crb ctx pc n -> get color (up nil ctx) s = Ok (s, pc).
Proof.
  intros H Hc. destruct Hc as [n|d a v sib ctx pc c n _ _|d a v sib f ctx n _ _]; cbn [up].
  - apply (get_ok color _ _ _ (rep_sentinel _ _ _ _ _ H)).
  - change (zip (F d BLACK a v sib :: ctx) t) with (zip ctx (br d BLACK t a v sib)) in H.
    rewrite (get_ok color _ _ _ (read_at _ _ _ _ _ _ _ _ _ _ _ H)). by destruct d.
  - change (zip (F d RED a v sib :: f :: ctx) t) with (zip (f :: ctx) (br d RED t a v sib)) in H.
    rewrite (get_ok color _ _ _ (read_at _ _ _ _ _ _ _ _ _ _ _ H)). by destruct d.
Qed.

(** The uncle is red: three nodes change colour and the problem moves up two levels. *)
Lemma insert_recolor d d1 ctx t p vp sib g vg u s np fr again k c n :
  rep s np fr (zip ctx (br d BLACK (br d1 RED t p vp sib) g vg u)) -> rb u RED n -> rb t c n ->
  exists s' u', insert_body d again k p g s = again g s' /\ rep s' np fr (zip ctx (br d RED (br d1 BLACK t p vp sib) g vg u')) /\
    inorder u' = inorder u /\ rb u' BLACK (S n).
Proof.
  intros H Hu Ht. destruct u as [|cu ul ua uv ur]; [by inversion Hu|]. assert (cu = RED) as -> by by inversion Hu.
  pose proof (rb_br_inv L _ _ _ _ _ _ _ Hu) as [_ [Hul Hur]].
  unfold insert_body. rewrite (get_outer_at _ _ _ _ _ _ _ _ _ _ _ H).
  assert (Hz : zip ctx (br d BLACK (br d1 RED t p vp sib) g vg (Br RED ul ua uv ur)) = zip (F (opp d) BLACK g vg (br d1 RED t p vp sib) :: ctx) (br L RED ul ua uv ur)).
  { cbn [zip]. by rewrite br_opp. }
  rewrite Hz in H. change (get color (root (Br RED ul ua uv ur))) with (get (T := T) color (root (br L RED ul ua uv ur))).
  rewrite (get_color_at _ _ _ _ _ _ H). cbn [tcolor br is_red]. cbn [RedBlackHeap.root].
  destruct (recolor_ok _ _ _ _ _ _ _ _ _ _ _ BLACK H) as (s1 & E1 & H1). rewrite (bind_ok _ _ _ _ _ E1).
  cbn [zip br] in H1. rewrite br_opp in H1.
  change (zip ctx (br d BLACK (br d1 RED t p vp sib) g vg (Br BLACK ul ua uv ur))) with (zip (F d BLACK g vg (Br BLACK ul ua uv ur) :: ctx) (br d1 RED t p vp sib)) in H1.
  destruct (recolor_ok _ _ _ _ _ _ _ _ _ _ _ BLACK H1) as (s2 & E2 & H2). rewrite (bind_ok _ _ _ _ _ E2). cbn [zip] in H2.
  destruct (recolor_ok _ _ _ _ _ _ _ _ _ _ _ RED H2) as (s3 & E3 & H3). rewrite (bind_ok _ _ _ _ _ E3).
  exists s3, (Br BLACK ul ua uv ur). split; [done|]. split; [done|]. split; [done|]. by econstructor.
Qed.

(** The uncle is black and [k] on the outside: one rotation and the loop ends. *)
Lemma insert_outer d ctx t p vp sib g vg u s np fr again k n :
  rep s np fr (zip ctx (br d BLACK (br d RED t p vp sib) g vg u)) -> rb u BLACK n -> rb t RED n -> root t = k ->
  exists s', insert_body d again k p g s = again k s' /\ rep s' np fr (zip ctx (br d BLACK t p vp (br d RED sib g vg u))).
Proof.
  intros H Hu Ht Hk. assert (Hl : t <> Leaf) by (intros ->; inversion Ht).
  unfold insert_body. rewrite (get_outer_at _ _ _ _ _ _ _ _ _ _ _ H).
  assert (Hz : zip ctx (br d BLACK (br d RED t p vp sib) g vg u) = zip (F (opp d) BLACK g vg (br d RED t p vp sib) :: ctx) u) by (cbn [zip]; by rewrite br_opp).
  pose proof H as Hz'. rewrite Hz in Hz'. rewrite (get_color_at _ _ _ _ _ _ Hz'), (rb_color _ _ _ Hu). cbn [is_red]. clear Hz Hz'.
  change (zip ctx (br d BLACK (br d RED t p vp sib) g vg u)) with (zip (F d BLACK g vg u :: ctx) (br d RED t p vp sib)) in H.
  rewrite (get_outer_at _ _ _ _ _ _ _ _ _ _ _ H). destruct (focus_apart nil _ _ _ _ _ _ _ _ _ _ H) as (_ & _ & _ & Hne & _).
  rewrite <- Hk, (proj2 (Nat.eqb_neq _ _) (Hne Hl)). rewrite (bind_ok _ _ s s (root t)) by done.
  by apply (insert_rotate d ctx t p vp sib g vg u s np fr again (root t)).
Qed.

(** [k] on the inside: a first rotation brings its parent outside. *)
Lemma insert_inner d ctx kl k v kr p vp sib g vg u s np fr again n :
  rep s np fr (zip ctx (br d BLACK (br d RED sib p vp (br d RED kl k v kr)) g vg u)) -> rb u BLACK n ->
  exists s', insert_body d again k p g s = again p s' /\ rep s' np fr (zip ctx (br d BLACK (br d RED sib p vp kl) k v (br d RED kr g vg u))).
Proof.
  intros H Hu. unfold insert_body. rewrite (get_outer_at _ _ _ _ _ _ _ _ _ _ _ H).
  assert (Hz : zip ctx (br d BLACK (br d RED sib p vp (br d RED kl k v kr)) g vg u) = zip (F (opp d) BLACK g vg (br d RED sib p vp (br d RED kl k v kr)) :: ctx) u) by (cbn [zip]; by rewrite br_opp).
  pose proof H as Hz'. rewrite Hz in Hz'. rewrite (get_color_at _ _ _ _ _ _ Hz'), (rb_color _ _ _ Hu). cbn [is_red]. clear Hz Hz'.
  change (zip ctx (br d BLACK (br d RED sib p vp (br d RED kl k v kr)) g vg u)) with (zip (F d BLACK g vg u :: ctx) (br d RED sib p vp (br d RED kl k v kr))) in H.
  rewrite (get_outer_at _ _ _ _ _ _ _ _ _ _ _ H), root_br, Nat.eqb_refl.
  destruct (rotate_ok _ _ _ _ _ _ _ _ _ _ _ _ _ _ _ H) as (s1 & E1 & H1).
  rewrite (bind_ok _ _ s s1 p) by (by rewrite (bind_ok _ _ _ _ _ E1)). cbn [zip] in H1.
  apply (insert_rotate d ctx (br d RED sib p vp kl) k v kr g vg u s1 np fr again p H1); [by destruct d|apply root_br|done].
Qed.

Lemma FixInsert_loop_ok fuel ctx d0 l k v r s np fr pc n :
  rep s np fr (zip ctx (br d0 RED l k v r)) -> rb l BLACK n -> rb r BLACK n -> crb ctx pc n -> (length ctx < fuel)%nat ->
  good_insert np fr (zip ctx (br d0 RED l k v r)) (FixInsert_loop fuel k s).
Proof.
  revert ctx d0 l k v r s n pc. induction fuel as [|fuel IH]; intros ctx d0 l k v r s n pc H Hl Hr Hc Hf; [lia|].
  rewrite FixInsert_loop_S, (get_parent_at _ _ _ _ _ _ _ _ _ _ _ H), (bind_ok _ _ _ _ _ (read_up _ _ _ _ _ _ _ H Hc)).
  pose proof (rb_br_red d0 l k v r n Hl Hr) as Ht.
  assert (Hdone : forall fuel ctx d t a v sib c pc s n, rep s np fr (zip ctx (br d c t a v sib)) -> crb ctx pc n -> rb (br d c t a v sib) c n -> fits_under pc c -> pc = BLACK ->
      good_insert np fr (zip ctx (br d c t a v sib)) (FixInsert_loop (S fuel) a s)).
  { clear. intros fuel ctx d t a v sib c pc s n H Hc Ht Hf ->. rewrite FixInsert_loop_S, (get_parent_at _ _ _ _ _ _ _ _ _ _ _ H), (bind_ok _ _ _ _ _ (read_up _ _ _ _ _ _ _ H Hc)).
    cbn [is_red]. eexists _, _. split; [done|]. split; [done|]. split; [done|]. by eapply zip_rb. }
  destruct Hc as [n|d a v' sib ctx pc c n Hc Hs|d p vp sib f ctx n Hc Hs]; cbn [is_red].
  1, 2: exists s; eexists; split; [done|]; split; [done|]; split; [done|]; eapply zip_rb; [econstructor; done|done|done].
  destruct f as [d2 cg g vg u]. inversion Hc as [|? ? ? ? ? pc2 cu ? Hc2 Hu|]; subst.
  cbn [zip] in H |- *. set (t := br d0 RED l k v r) in *.
  assert (Hp : rep s np fr (zip (F d2 BLACK g vg u :: ctx) (br d RED t p vp sib))) by done.
  rewrite (get_parent_at _ _ _ _ _ _ _ _ _ _ _ Hp). cbn [up].
  destruct (side_test _ _ _ _ _ _ _ _ _ _ H) as [Eg Hne]; [by destruct d|]. rewrite (bind_ok _ _ _ _ _ Eg). rewrite !root_br in Hne |- *.
  assert (Eif : (if (p =? match d2 with L => p | R => root u end)%nat then insert_body L (FixInsert_loop fuel) k p g else insert_body R (FixInsert_loop fuel) k p g)
    = insert_body d2 (FixInsert_loop fuel) k p g) by (destruct d2; [by rewrite Nat.eqb_refl|by rewrite Hne]).
  rewrite Eif. clear Eif Eg Hne Hp. cbn [length] in Hf. destruct cu.
  - destruct (insert_recolor d2 d ctx t p vp sib g vg u s np fr (FixInsert_loop fuel) k RED n H Hu Ht) as (s' & u' & -> & H' & Iu & Ru).
    eapply good_insert_order; [|eapply (IH ctx d2 _ g vg u' s' (S n) pc2); [exact H'|by eapply rb_br_black|done|done|lia]].
    apply inorder_zip. by apply inorder_br; [apply inorder_br|].
  - destruct fuel as [|fuel]; [lia|]. assert (Hside : d = d2 \/ d = opp d2) by (destruct d, d2; auto). destruct Hside as [-> | ->].
    + destruct (insert_outer d2 ctx t p vp sib g vg u s np fr (FixInsert_loop (S fuel)) k n H Hu Ht) as (s' & -> & H'); [apply root_br|].
      eapply good_insert_order; [|eapply (Hdone fuel (F d2 BLACK p vp (br d2 RED sib g vg u) :: ctx) d0 l k v r RED BLACK s' n); [exact H'| |done|done|done]].
      * cbn [zip]. apply inorder_zip. destruct d2; same_order.
      * econstructor; [done|]. by apply rb_br_red.
    + assert (Hkk : exists kl kr, t = br d2 RED kl k v kr /\ rb kl BLACK n /\ rb kr BLACK n).
      { unfold t. destruct d0, d2; first [by exists l, r|by exists r, l]. }
      destruct Hkk as (kl & kr & -> & Hkl & Hkr). rewrite br_opp in H |- *.
      destruct (insert_inner d2 ctx kl k v kr p vp sib g vg u s np fr (FixInsert_loop (S fuel)) n H Hu) as (s' & -> & H').
      eapply good_insert_order; [|eapply (Hdone fuel (F d2 BLACK k v (br d2 RED kr g vg u) :: ctx) d2 sib p vp kl RED BLACK s' n); [exact H'| | |done|done]].
      * cbn [zip]. apply inorder_zip. destruct d2; same_order.
      * econstructor; [done|]. by apply rb_br_red.
      * by apply rb_br_red.
Qed.

(** [FixInsert]: the tree is balanced again, and its root black. *)
Lemma FixInsert_ok ctx d0 l k v r s np fr pc n :
  rep s np fr (zip ctx (br d0 RED l k v r)) -> rb l BLACK n -> rb r BLACK n -> crb ctx pc n ->
  exists s' t', FixInsert k s = Ok (s', ()) /\ rep s' np fr t' /\ inorder t' = inorder (zip ctx (br d0 RED l k v r)) /\ exists m, rb t' BLACK m.
Proof.
  intros H Hl Hr Hc. unfold FixInsert. rewrite (bind_ok _ _ s s (base.size (heap s))) by done.
  destruct (FixInsert_loop_ok (base.size (heap s)) ctx d0 l k v r s np fr pc n H Hl Hr Hc) as (s1 & t1 & E1 & H1 & I1 & c & m & B1).
  { apply (ctx_size nil _ _ _ _ _ H). }
  rewrite (bind_ok _ _ _ _ _ E1), (bind_ok _ _ _ _ _ (get_root_ok _ _ _ _ _ H1)).
  destruct t1 as [|c1 l1 a1 v1 r1].
  - exfalso. assert (Hin : (k, v) ∈ inorder (zip ctx (br d0 RED l k v r))) by apply inorder_focus. rewrite <- I1 in Hin. by apply not_elem_of_nil in Hin.
  - destruct (recolor_ok nil s1 np fr [] L c1 l1 a1 v1 r1 BLACK H1) as (s2 & E2 & H2). exists s2, (Br BLACK l1 a1 v1 r1).
    split; [exact E2|]. split; [done|]. split; [done|]. inversion B1; subst; eexists; by econstructor.
Qed.

End FixInsert.

(** ** Orders and ordered lists *)

(** What the tree relies on its comparator for. *)
Class Comparator {T : Type} (less_than equals : T -> T -> bool) : Prop := {
  cmp_trans x y z : less_than x y = true -> less_than y z = true -> less_than x z = true;
  cmp_equals x y : equals x y = negb (less_than x y) && negb (less_than y x);
  cmp_irrefl x : less_than x x = false;
  cmp_equals_l x y z : equals x y = true -> less_than y z = true -> less_than x z = true;
  cmp_equals_r x y z : less_than x y = true -> equals y z = true -> less_than x z = true;
}.

Lemma find_app_none {A} (p : A -> bool) l1 l2 : (forall e, e ∈ l1 -> p e = false) -> List.find p (l1 ++ l2) = List.find p l2.
Proof.
  induction l1 as [|e l1 IH]; intros H; cbn; [done|]. rewrite H by apply list_elem_of_here. apply IH. intros e' He'. apply H. by apply elem_of_cons; right.
Qed.

Lemma find_none {A} (p : A -> bool) l : (forall e, e ∈ l -> p e = false) -> List.find p l = None.
Proof. intros H. rewrite <- (app_nil_r l). by rewrite find_app_none. Qed.

Lemma find_app_some {A} (p : A -> bool) l1 l2 e : List.find p l1 = Some e -> List.find p (l1 ++ l2) = Some e.
Proof. induction l1 as [|e' l1 IH]; cbn; [done|]. destruct (p e'); [done|apply IH]. Qed.

Lemma find_app_last {A} (p : A -> bool) l1 l2 : (forall e, e ∈ l2 -> p e = false) -> List.find p (l1 ++ l2) = List.find p l1.
Proof.
  intros H. induction l1 as [|e l1 IH]; cbn; [by apply find_none|]. by destruct (p e).
Qed.

Section Ordered.

#[local] Set Default Proof Using "Type*".

Context {T : Type} (less_than equals : T -> T -> bool) `{!Comparator less_than equals}.

Implicit Types (l : list (nat * T)) (e : nat * T) (v w : T).

Fixpoint ordered l : Prop := match l with [] => True | e :: l => (forall e', e' ∈ l -> less_than e.2 e'.2 = true) /\ ordered l end.

Lemma ordered_app l1 l2 : ordered (l1 ++ l2) <-> ordered l1 /\ ordered l2 /\ forall e1 e2, e1 ∈ l1 -> e2 ∈ l2 -> less_than e1.2 e2.2 = true.
Proof using Type.
  induction l1 as [|e l1 IH]; cbn.
  - split; [|tauto]. intros H. split; [done|]. split; [done|]. by intros e1 e2 ?%not_elem_of_nil.
  - rewrite IH. split.
    + intros (H & H1 & H2 & H3). split; [split; [|done]|split; [done|]].
      * intros e' He'. apply H, elem_of_app. by left.
      * intros e1 e2 [->|He1]%elem_of_cons He2; [apply H, elem_of_app; by right|by apply H3].
    + intros ([H H1] & H2 & H3). split; [|split; [done|split; [done|]]].
      * intros e' [He'|He']%elem_of_app; [by apply H|apply H3; [apply list_elem_of_here|done]].
      * intros e1 e2 He1 He2. apply H3; [by apply elem_of_cons; right|done].
Qed.

(** The entry a value is equal to. *)
Definition lookup_entry v l : option (nat * T) := List.find (fun e => equals v e.2) l.

Fixpoint insert_entry e l : list (nat * T) :=
  match l with [] => [e] | e' :: l => if less_than e.2 e'.2 then e :: e' :: l else e' :: insert_entry e l end.

Definition remove_entry v l : list (nat * T) := filter (fun e => equals v e.2 = false) l.

Lemma equals_spec v w : equals v w = negb (less_than v w) && negb (less_than w v).
Proof. apply cmp_equals. Qed.

Lemma lt_not_equals v w : less_than v w = true -> equals v w = false /\ equals w v = false.
Proof. intros H. rewrite (equals_spec v w), (equals_spec w v), H. by destruct (less_than w v). Qed.

Lemma lt_asym v w : less_than v w = true -> less_than w v = false.
Proof.
  intros H. destruct (less_than w v) eqn:E; [|done]. pose proof (cmp_trans _ _ _ H E) as D. by rewrite cmp_irrefl in D.
Qed.

Lemma equals_sym v w : equals v w = equals w v.
Proof. rewrite (equals_spec v w), (equals_spec w v). apply andb_comm. Qed.

(** Looking for a value at a node of an ordered tree. *)
Lemma lookup_here l1 e l2 v : ordered (l1 ++ e :: l2) -> equals v e.2 = true -> lookup_entry v (l1 ++ e :: l2) = Some e.
Proof.
  intros Ho E. apply ordered_app in Ho as (_ & _ & Ho). unfold lookup_entry. rewrite find_app_none; [cbn; by rewrite E|].
  intros e' He'. apply (lt_not_equals e'.2 v). apply (cmp_equals_r _ e.2); [apply Ho; [done|apply list_elem_of_here]|by rewrite equals_sym].
Qed.

Lemma lookup_left l1 e l2 v : ordered (l1 ++ e :: l2) -> less_than v e.2 = true -> lookup_entry v (l1 ++ e :: l2) = lookup_entry v l1.
Proof.
  intros Ho E. apply ordered_app in Ho as (_ & [Ho _] & _). apply find_app_last. intros e' [->|He']%elem_of_cons; [apply (lt_not_equals v e.2 E)|].
  apply (lt_not_equals v e'.2). eapply cmp_trans; [done|by apply Ho].
Qed.

Lemma lookup_right l1 e l2 v : ordered (l1 ++ e :: l2) -> less_than e.2 v = true -> lookup_entry v (l1 ++ e :: l2) = lookup_entry v l2.
Proof.
  intros Ho E. apply ordered_app in Ho as (_ & _ & Ho). unfold lookup_entry. rewrite find_app_none.
  - cbn. by rewrite (proj2 (lt_not_equals _ _ E)).
  - intros e' He'. apply (lt_not_equals e'.2 v). eapply cmp_trans; [apply Ho; [done|apply list_elem_of_here]|done].
Qed.

Lemma insert_left e l1 e' l2 : less_than e.2 e'.2 = true -> insert_entry e (l1 ++ e' :: l2) = insert_entry e l1 ++ e' :: l2.
Proof. intros E. induction l1 as [|e1 l1 IH]; cbn; [by rewrite E|]. destruct (less_than e.2 e1.2); [done|]. cbn. by rewrite IH. Qed.

Lemma insert_right e l1 e' l2 :
  ordered (l1 ++ e' :: l2) -> less_than e.2 e'.2 = false -> insert_entry e (l1 ++ e' :: l2) = l1 ++ e' :: insert_entry e l2.
Proof.
  intros Ho E. induction l1 as [|e1 l1 IH]; cbn; [by rewrite E|]. destruct Ho as [H Ho]. cbn in H.
  destruct (less_than e.2 e1.2) eqn:E1; [|by rewrite IH]. assert (D : less_than e1.2 e'.2 = true) by (apply H, elem_of_app; right; apply list_elem_of_here).
  rewrite (cmp_trans _ _ _ E1 D) in E. done.
Qed.

Lemma insert_elem e l e' : e' ∈ insert_entry e l <-> e' = e \/ e' ∈ l.
Proof.
  induction l as [|e1 l IH]; cbn; [by rewrite list_elem_of_singleton; split; [by left|by intros [?|?%not_elem_of_nil]]|].
  destruct (less_than e.2 e1.2); rewrite !elem_of_cons; [done|]. rewrite IH. tauto.
Qed.

Lemma insert_ordered e l : ordered l -> lookup_entry e.2 l = None -> ordered (insert_entry e l).
Proof.
  induction l as [|e1 l IH]; cbn; [intros _ _; split; [by intros ? ?%not_elem_of_nil|done]|]. intros [H Ho] Hn.
  destruct (equals e.2 e1.2) eqn:Eq; [done|]. destruct (less_than e.2 e1.2) eqn:E; cbn.
  - split; [|done]. intros e' [->|He']%elem_of_cons; [done|]. eapply cmp_trans; [done|by apply H].
  - rewrite equals_spec, E in Eq. cbn in Eq. apply negb_false_iff in Eq. split; [|by apply IH].
    intros e' [->|He']%insert_elem; [done|by apply H].
Qed.

End Ordered.

(** ** Reading *)

Section View.

Context {T : Type} {nil : nat}.

Abbreviation rep := (rep (T := T) nil).
Abbreviation root := (root (T := T) nil).

(** All that a program that only reads needs to know. *)
Record view (s : RedBlackTree2 T) (t : tree) : Prop := {
  view_sub : sub nil (heap s) nil t;
  view_nil : nil ∉ addrs t;
  view_nil_ : nil_ s = nil;
}.

Lemma rep_view s np fr t : rep s np fr t -> view s t.
Proof. intros H. split; apply H. Qed.

Lemma view_at s ctx c l a v r :
  view s (zip ctx (Br c l a v r)) -> heap s !! a = Some (mkNode (Some v) c (root l) (root r) (up nil ctx)) /\ a <> nil.
Proof.
  intros [Hs Hn _]. apply sub_zip in Hs as [[E _] _]. split; [done|]. intros ->. apply Hn. rewrite addrs_zip. apply elem_of_app. left. apply list_elem_of_here.
Qed.

Lemma get_value_at {A} s ctx c l a v r (k : T -> M T A) : view s (zip ctx (Br c l a v r)) -> (get_value a ≫= k) s = k v s.
Proof.
  intros H. destruct (view_at _ _ _ _ _ _ _ H) as [E _]. apply bind_ok. unfold get_value.
  by rewrite (bind_ok _ _ _ _ _ (get_ok value _ _ _ E)).
Qed.

Lemma get_nil_at {A} s t (k : nat -> M T A) : view s t -> (get_nil ≫= k) s = k nil s.
Proof. intros H. apply bind_ok. unfold get_nil. by rewrite (view_nil_ _ _ H). Qed.

Lemma get_left_at {A} s ctx c l a v r (k : nat -> M T A) : view s (zip ctx (Br c l a v r)) -> (get left a ≫= k) s = k (root l) s.
Proof. intros H. destruct (view_at _ _ _ _ _ _ _ H) as [E _]. apply bind_ok. by rewrite (get_ok left _ _ _ E). Qed.

Lemma get_right_at {A} s ctx c l a v r (k : nat -> M T A) : view s (zip ctx (Br c l a v r)) -> (get right a ≫= k) s = k (root r) s.
Proof. intros H. destruct (view_at _ _ _ _ _ _ _ H) as [E _]. apply bind_ok. by rewrite (get_ok right _ _ _ E). Qed.

End View.

Arguments view {T} nil.

(** ** Descents *)

Section Insert.

#[local] Set Default Proof Using "Type*".

Context {T : Type} (nil : nat) (less_than equals : T -> T -> bool) `{!Comparator less_than equals}.

Abbreviation rep := (rep (T := T) nil).
Abbreviation root := (root (T := T) nil).

Abbreviation view := (view (T := T) nil).

Lemma SearchTree_loop_ok fuel ctx t v s :
  view s (zip ctx t) -> ordered less_than (inorder t) -> (height t < fuel)%nat ->
  SearchTree_loop less_than equals fuel (root t) v s = Ok (s, match lookup_entry equals v (inorder t) with Some e => e.1 | None => nil end).
Proof.
  revert ctx t. induction fuel as [|fuel IH]; intros ctx t H Ho Hf; [lia|]. cbn [SearchTree_loop]. rewrite (get_nil_at _ _ _ H).
  destruct t as [|c l a w r]; cbn [RedBlackHeap.root]; [by rewrite Nat.eqb_refl|].
  destruct (view_at _ _ _ _ _ _ _ H) as [_ Ha]. rewrite (proj2 (Nat.eqb_neq _ _) Ha), (get_value_at _ _ _ _ _ _ _ _ H).
  cbn [inorder height] in *. pose proof Ho as (Hl & [_ Hr] & _)%(ordered_app less_than).
  destruct (equals v w) eqn:Eq; [by rewrite (lookup_here less_than equals)|]. destruct (less_than v w) eqn:El.
  - rewrite (get_left_at _ _ _ _ _ _ _ _ H), (lookup_left less_than equals) by done.
    apply (IH (F L c a w r :: ctx)); [done|done|lia].
  - assert (Er : less_than w v = true) by (rewrite (equals_spec less_than equals), El in Eq; by apply negb_false_iff in Eq).
    rewrite (get_right_at _ _ _ _ _ _ _ _ H), (lookup_right less_than equals) by done.
    apply (IH (F R c a w l :: ctx)); [done|done|lia].
Qed.

Lemma height_length (t : tree (T := T)) : (height t <= length (addrs t))%nat.
Proof using Type. induction t as [|c l IHl a v r IHr]; cbn; [done|]. rewrite length_app. lia. Qed.

Lemma size_fuel s np fr t : rep s np fr t -> (length (addrs t) < base.size (heap s))%nat.
Proof. intros H. rewrite (rep_size _ _ _ _ _ H). lia. Qed.

(** Searching from the root. *)
Lemma SearchTree_ok s np fr t v :
  rep s np fr t -> ordered less_than (inorder t) ->
  SearchTree less_than equals (root t) v s = Ok (s, match lookup_entry equals v (inorder t) with Some e => e.1 | None => nil end).
Proof.
  intros H Ho. unfold SearchTree. rewrite (bind_ok _ _ s s (base.size (heap s))) by done.
  apply (SearchTree_loop_ok _ []); [by eapply rep_view|done|pose proof (height_length t); pose proof (size_fuel _ _ _ _ H); lia].
Qed.

(** The descent for a new value ends at an empty place, on the side that the comparison with
    its parent says; there the value stands in order. *)
Definition side_of (v w : T) : side := if less_than v w then L else R.

Lemma place_loop_ok fuel ctx t y v s :
  view s (zip ctx t) -> ordered less_than (inorder t) -> (length (addrs t) < fuel)%nat ->
  exists ctx2, zip ctx2 Leaf = t /\
    place_loop less_than fuel (root t) y v s = Ok (s, match ctx2 with [] => y | _ => up nil ctx2 end) /\
    (forall c a, inorder (zip ctx2 (Br c Leaf a v Leaf)) = insert_entry less_than (a, v) (inorder t)) /\
    match ctx2 with [] => True | F d _ _ w _ :: _ => d = side_of v w end.
Proof.
  revert ctx t y. induction fuel as [|fuel IH]; intros ctx t y H Ho Hf; [lia|]. cbn [place_loop]. rewrite (get_nil_at _ _ _ H).
  destruct t as [|c l a w r]; cbn [RedBlackHeap.root].
  { rewrite Nat.eqb_refl. by exists []. }
  destruct (view_at _ _ _ _ _ _ _ H) as [_ Ha]. rewrite (proj2 (Nat.eqb_neq _ _) Ha), (get_value_at _ _ _ _ _ _ _ _ H).
  cbn [inorder addrs length] in *. rewrite length_app in Hf. pose proof Ho as (Hl & [_ Hr] & _)%(ordered_app less_than).
  destruct (less_than v w) eqn:El.
  - rewrite (get_left_at _ _ _ _ _ _ _ _ H). destruct (IH (F L c a w r :: ctx) l a H Hl) as (ctx2 & E & Ep & Ei & Es); [lia|].
    exists (ctx2 ++ [F L c a w r]). rewrite !zip_app, E. split; [done|]. split; [rewrite Ep; by destruct ctx2 as [|[]]|]. split.
    + intros c0 a0. rewrite zip_app. cbn [zip br inorder]. by rewrite Ei, (insert_left less_than equals).
    + destruct ctx2 as [|[]]; [|done]. cbn. unfold side_of. by rewrite El.
  - rewrite (get_right_at _ _ _ _ _ _ _ _ H). destruct (IH (F R c a w l :: ctx) r a H Hr) as (ctx2 & E & Ep & Ei & Es); [lia|].
    exists (ctx2 ++ [F R c a w l]). rewrite !zip_app, E. split; [done|]. split; [rewrite Ep; by destruct ctx2 as [|[]]|]. split.
    + intros c0 a0. rewrite zip_app. cbn [zip br inorder]. by rewrite Ei, (insert_right less_than equals).
    + destruct ctx2 as [|[]]; [|done]. cbn. unfold side_of. by rewrite El.
Qed.

Definition with_node (s : RedBlackTree2 T) (a : nat) (n : Node T) (fr : nat) : RedBlackTree2 T := mkTree (<[a := n]> (heap s)) (root_ s) (nil_ s) fr.

(** Hanging a new node at an empty place. *)
Lemma link_leaf_ok s np fr ctx v :
  rep s np fr (zip ctx Leaf) ->
  exists s', match ctx with [] => set_root fr | F d _ y _ _ :: _ => set_child d y fr end (with_node s fr (mkNode (Some v) RED nil nil (up nil ctx)) (S fr)) = Ok (s', ()) /\
    rep s' np (S fr) (zip ctx (Br RED Leaf fr v Leaf)).
Proof.
  intros [Hs Hd Hn Hsen Hnil Hroot Hdom [Hfr Hlt]].
  assert (Hf : heap s !! fr = None).
  { destruct (heap s !! fr) eqn:E; [|done]. specialize (Hlt fr ltac:(eauto)). lia. }
  assert (Hfn : fr <> nil) by (intros ->; congruence).
  assert (Hfa : fr ∉ addrs (zip ctx Leaf)).
  { intros Hin. destruct (proj2 (Hdom fr) (or_intror Hin)) as [n E]. congruence. }
  set (s2 := with_node _ _ _ _). assert (Efr : heap s2 !! fr = Some (mkNode (Some v) RED nil nil (up nil ctx))) by apply lookup_insert_eq.
  assert (Hother : forall a, a <> fr -> heap s2 !! a = heap s !! a) by (intros; by apply lookup_insert_ne).
  assert (Hdom2 : forall a, is_Some (heap s2 !! a) <-> a = nil \/ a ∈ fr :: addrs (zip ctx Leaf)).
  { intros a. rewrite elem_of_cons. destruct (decide (a = fr)) as [->|Hne]; [rewrite Efr; split; eauto|]. rewrite Hother, Hdom by done. tauto. }
  assert (Hp : addrs (zip ctx (Br RED Leaf fr v Leaf)) ≡ₚ fr :: addrs (zip ctx Leaf)) by (by rewrite !addrs_zip).
  assert (Hlt2 : forall a, is_Some (heap s2 !! a) -> (a < S fr)%nat).
  { intros a. destruct (decide (a = fr)) as [->|Hne]; [lia|]. rewrite Hother by done. intros Ha. specialize (Hlt a Ha). lia. }
  destruct ctx as [|[d c y w sib] ctx].
  - eexists. split; [done|]. cbn [zip] in *. split; cbn [root_ nil_ fresh heap].
    + split; [exact Efr|done].
    + apply list.NoDup_singleton.
    + cbn. by intros ?%list_elem_of_singleton.
    + by rewrite Hother by done.
    + exact Hnil.
    + done.
    + exact Hdom2.
    + split; [done|exact Hlt2].
  - pose proof Hs as [_ Hc]%sub_zip. cbn [up] in *. destruct Hc as (Ey & Hsib & Hc).
    assert (Hyf : y <> fr) by (intros ->; congruence).
    assert (Ey2 : heap s2 !! y = Some (cell d w c nil (root sib) (up nil ctx))) by (by rewrite Hother).
    rewrite (set_child_ok _ _ _ _ _ _ _ _ _ _ Ey2). eexists. split; [done|].
    set (s3 := with_store s2 y _). assert (E3 : s3 = with_store s2 y (cell d w c fr (root sib) (up nil ctx))) by (by destruct d).
    clearbody s3. subst s3. pose proof (only_store s2 y (cell d w c fr (root sib) (up nil ctx)) _ Ey2) as (O1 & O2 & _ & _).
    pose proof Hfa as Hfa'. pose proof Hd as Hd'. rewrite addrs_zip in Hfa', Hd'. cbn in Hfa', Hd'. apply list.NoDup_cons in Hd' as [Hya _]. not_in.
    assert (Hkeep : forall a, a ∈ addrs sib ++ caddrs ctx -> heap (with_store s2 y (cell d w c fr (root sib) (up nil ctx))) !! a = heap s !! a).
    { intros a Ha. rewrite elem_of_app in Ha. rewrite O1, Hother; [done| |]; [intros ->; tauto|intros ->%list_elem_of_singleton; tauto]. }
    split.
    + apply sub_zip. split; [split; [|done]|split].
      * rewrite O1; [exact Efr|]. intros ?%list_elem_of_singleton. auto.
      * apply lookup_store.
      * split; [apply (sub_frame nil (heap s))|apply (csub_frame nil (heap s))]; try done; intros a Ha; apply Hkeep; apply elem_of_app; auto.
    + rewrite Hp. by apply list.NoDup_cons.
    + rewrite Hp. rewrite not_elem_of_cons. auto.
    + rewrite O1; [by rewrite Hother by done|]. intros <-%list_elem_of_singleton. destruct d; cbn in Ey; congruence.
    + exact Hnil.
    + cbn [zip] in Hroot |- *. rewrite root_zip, root_br in Hroot |- *. exact Hroot.
    + intros a. rewrite O2, Hdom2. by rewrite Hp.
    + split; [done|]. intros a. rewrite O2. apply Hlt2.
Qed.

Lemma lookup_nonnil t v e : lookup_entry equals v (inorder t) = Some e -> nil ∉ addrs t -> e.1 <> nil /\ e ∈ inorder t.
Proof.
  intros [Hin _]%List.find_some Hn. apply list_elem_of_In in Hin. split; [|done]. intros E. apply Hn. rewrite <- addrs_inorder, <- E.
  apply list_elem_of_fmap. by exists e.
Qed.

(** [FindOrInsert] on a balanced, ordered tree. *)
Lemma FindOrInsert_ok s np fr t v m :
  rep s np fr t -> ordered less_than (inorder t) -> rb t BLACK m ->
  match lookup_entry equals v (inorder t) with
  | Some e => FindOrInsert less_than equals v s = Ok (s, (e.1, false))
  | None => exists s' t' m', FindOrInsert less_than equals v s = Ok (s', (fr, true)) /\ rep s' np (S fr) t' /\
      inorder t' = insert_entry less_than (fr, v) (inorder t) /\ rb t' BLACK m'
  end.
Proof.
  intros H Ho Hb. pose proof (SearchTree_ok s np fr t v H Ho) as Es. unfold FindOrInsert.
  destruct (lookup_entry equals v (inorder t)) as [e|] eqn:El.
  - rewrite (bind_ok _ _ _ _ _ (get_nil_ok _ _ _ _ _ H)), (bind_ok _ _ _ _ _ (get_root_ok _ _ _ _ _ H)), (bind_ok _ _ _ _ _ Es).
    destruct (lookup_nonnil t v e El (rep_nil _ _ _ _ _ H)) as [Hne _]. by rewrite (proj2 (Nat.eqb_neq _ _) Hne).
  - rewrite (bind_ok _ _ _ _ _ (get_nil_ok _ _ _ _ _ H)), (bind_ok _ _ _ _ _ (get_root_ok _ _ _ _ _ H)), (bind_ok _ _ _ _ _ Es).
    rewrite Nat.eqb_refl. cbn [negb].
    pose proof H as [Hs Hd Hn Hsen Hnil Hroot Hdom [Hfr Hlt]].
    assert (Hf : heap s !! fr = None).
    { destruct (heap s !! fr) eqn:E; [|done]. specialize (Hlt fr ltac:(eauto)). lia. }
    set (s1 := with_node s fr (mkNode (Some v) RED nil nil nil) (S fr)).
    rewrite (bind_ok _ _ s s1 fr) by (unfold new_node, s1, with_node; by rewrite Hfr, Hnil).
    rewrite (bind_ok _ _ s1 s1 (root t)) by (unfold get_root; cbn; by rewrite Hroot). rewrite (bind_ok _ _ s1 s1 (base.size (heap s1))) by done.
    assert (Hother : forall a, a <> fr -> heap s1 !! a = heap s !! a) by (intros; by apply lookup_insert_ne).
    assert (Hfa : forall a, a ∈ addrs t -> a <> fr).
    { intros a Ha ->. destruct (proj2 (Hdom fr) (or_intror Ha)) as [n E]. congruence. }
    assert (V1 : view s1 (zip [] t)) by (split; [apply (sub_frame nil (heap s)); [done|intros a Ha; by apply Hother, Hfa]|done|done]).
    destruct (place_loop_ok (base.size (heap s1)) [] t nil v s1 V1 Ho) as (ctx & Ez & Ep & Ei & Eside).
    { unfold s1. cbn. rewrite map_size_insert_None by done. rewrite (rep_size _ _ _ _ _ H). lia. }
    rewrite (bind_ok _ _ _ _ _ Ep). assert (Eup : match ctx with [] => nil | _ => up nil ctx end = up nil ctx) by (by destruct ctx as [|[]]). rewrite Eup. clear Eup.
    set (s2 := with_node s fr (mkNode (Some v) RED nil nil (up nil ctx)) (S fr)).
    rewrite (bind_ok _ _ s1 s2 ()) by (rewrite (set_parent_ok _ _ _ _ _ _ _ _ (lookup_insert_eq _ _ _)); unfold with_store, s2, s1, with_node; cbn; by rewrite insert_insert_eq).
    rewrite <- Ez in H. destruct (link_leaf_ok s np fr ctx v H) as (s3 & E3 & H3).
    rewrite (bind_ok _ _ s2 s3 ()).
    + rewrite <- Ez in Hb. destruct (unzip_rb _ _ _ Hb) as (pc & c & n & Hc & Hl & _ & _). inversion Hl; subst c n.
      destruct (FixInsert_ok nil ctx L Leaf fr v Leaf s3 np (S fr) pc 0 H3 rb_leaf rb_leaf Hc) as (s4 & t' & E4 & H4 & I4 & m' & B4).
      rewrite (bind_ok _ _ _ _ _ E4). exists s4, t', m'. split; [done|]. split; [done|]. split; [|done]. rewrite I4. apply Ei.
    + rewrite <- E3. destruct ctx as [|[d c y w sib] ctx]; [by rewrite Nat.eqb_refl|]. cbn [up].
      assert (V2 : view s2 (zip (F d c y w sib :: ctx) Leaf)).
      { rewrite Ez. split; [|done|done]. apply (sub_frame nil (heap s)); [done|]. intros a Ha. apply lookup_insert_ne. intros <-. by apply (Hfa fr Ha). }
      change (zip (F d c y w sib :: ctx) Leaf) with (zip ctx (br d c Leaf y w sib)) in V2.
      assert (Hy : y <> nil /\ (get_value y : M T T) s2 = Ok (s2, w)).
      { destruct d; cbn [br] in V2; destruct (view_at _ _ _ _ _ _ _ V2) as [E ?]; (split; [done|]); unfold get_value; by rewrite (bind_ok _ _ _ _ _ (get_ok value _ _ _ E)). }
      destruct Hy as [Hy Ev]. rewrite (proj2 (Nat.eqb_neq _ _) Hy), (bind_ok _ _ _ _ _ Ev). rewrite Eside. unfold side_of. by destruct (less_than v w).
Qed.

End Insert.
