(* ===== verification/RedBlackErase.v ===== *)
(** * Removal from base::RedBlackTree2

    [FixDelete] on a tree in which one place is one black node short, the pointer surgery
    of [Erase], and [Erase] as a whole. *)

From stdpp Require Import gmap.
From S2P Require Import Prelude Memory RedBlackTree RedBlackHeap RedBlackInsert.

Set Default Proof Using "Type".
Set Warnings "-clear-no-such-hyp".

Section FixDelete.

Context {T : Type} (nil : nat).

Abbreviation rep := (rep (T := T) nil).
Abbreviation root := (root (T := T) nil).

(** The three parts of one turn, seen from the side [d] of [x] under its parent. *)
Definition delete_last (d : side) (again : nat -> M T nat) (p w : nat) : M T nat :=
  pc ← get color p;
  _ ← set_color w pc;
  _ ← set_color p BLACK;
  wr ← get (child (opp d)) w;
  _ ← set_color wr BLACK;
  _ ← rotate d p;
  r ← get_root;
  again r.

Definition delete_black (d : side) (again : nat -> M T nat) (p w : nat) : M T nat :=
  wl ← get (child d) w;
  wr ← get (child (opp d)) w;
  b ← both_black wl wr;
  if b : bool then _ ← set_color w RED; again p
  else
    wrc ← get color wr;
    w ← (if is_black wrc then
           _ ← set_color wl BLACK; _ ← set_color w RED; _ ← rotate (opp d) w; get (child (opp d)) p
         else mret w);
    delete_last d again p w.

Definition delete_body (d : side) (again : nat -> M T nat) (p : nat) : M T nat :=
  w ← get (child (opp d)) p;
  wc ← get color w;
  w ← (if is_red wc then
         _ ← set_color w BLACK; _ ← set_color p RED; _ ← rotate d p; get (child (opp d)) p
       else mret w);
  delete_black d again p w.

Lemma FixDelete_loop_S fuel x :
  FixDelete_loop (T := T) (S fuel) x =
    (r ← get_root; xc ← get color x;
     if negb (x =? r)%nat && is_black xc then
       p ← get parent x; pl ← get left p;
       if (x =? pl)%nat then delete_body L (FixDelete_loop fuel) p else delete_body R (FixDelete_loop fuel) p
     else mret x).
Proof. done. Qed.

(** The nearest focus on the other child. *)
Lemma zip_other (ctx : list (frame (T := T))) d c t a v u : zip ctx (br d c t a v u) = zip (F (opp d) c a v t :: ctx) u.
Proof. cbn [zip]. by rewrite br_opp. Qed.

Lemma both_black_ok s np fr (ctx : list frame) d c a v t1 t2 :
  rep s np fr (zip ctx (br d c t1 a v t2)) ->
  both_black (root t1) (root t2) s = Ok (s, is_black (tcolor t1) && is_black (tcolor t2)).
Proof.
  intros H. unfold both_black. pose proof H as H2. rewrite zip_other in H2.
  change (zip ctx (br d c t1 a v t2)) with (zip (F d c a v t2 :: ctx) t1) in H.
  rewrite (get_color_at _ _ _ _ _ _ _ H). destruct (is_black (tcolor t1)); [|done]. by rewrite (get_color_at _ _ _ _ _ _ _ H2).
Qed.

(** The sibling is black and its outer child red: a rotation supplies the missing black node. *)
Lemma delete_last_ok d ctx cp t p vp wi w vw oc o1 oa ov o2 s np fr again :
  rep s np fr (zip ctx (br d cp t p vp (br d BLACK wi w vw (br d oc o1 oa ov o2)))) ->
  exists s', delete_last d again p w s = again (root (zip ctx (br d cp t w vp wi))) s' /\
    rep s' np fr (zip ctx (br d cp (br d BLACK t p vp wi) w vw (br d BLACK o1 oa ov o2))).
Proof.
  intros H. unfold delete_last.
  assert (Ec : get color p s = Ok (s, cp)) by (rewrite (get_ok color _ _ _ (read_at _ _ _ _ _ _ _ _ _ _ _ H)); by destruct d).
  rewrite (bind_ok _ _ _ _ _ Ec). rewrite zip_other in H.
  destruct (recolor_ok _ _ _ _ _ _ _ _ _ _ _ cp H) as (s1 & E1 & H1). rewrite (bind_ok _ _ _ _ _ E1). rewrite <- zip_other in H1.
  destruct (recolor_ok _ _ _ _ _ _ _ _ _ _ _ BLACK H1) as (s2 & E2 & H2). rewrite (bind_ok _ _ _ _ _ E2). rewrite zip_other in H2.
  rewrite (get_outer_at _ _ _ _ _ _ _ _ _ _ _ _ H2), root_br. rewrite zip_other in H2.
  destruct (recolor_ok _ _ _ _ _ _ _ _ _ _ _ BLACK H2) as (s3 & E3 & H3). rewrite (bind_ok _ _ _ _ _ E3). rewrite <- !zip_other in H3.
  destruct (rotate_ok _ _ _ _ _ _ _ _ _ _ _ _ _ _ _ H3) as (s4 & E4 & H4). rewrite (bind_ok _ _ _ _ _ E4).
  rewrite (bind_ok _ _ _ _ _ (get_root_ok _ _ _ _ _ H4)). exists s4. split; [|done]. by rewrite !root_zip, !root_br.
Qed.

Lemma delete_black_push d ctx cp t p vp wi w vw wo s np fr again n :
  rep s np fr (zip ctx (br d cp t p vp (br d BLACK wi w vw wo))) -> rb wi BLACK n -> rb wo BLACK n ->
  exists s', delete_black d again p w s = again p s' /\ rep s' np fr (zip ctx (br d cp t p vp (br d RED wi w vw wo))).
Proof.
  intros H Hi Ho. unfold delete_black. rewrite zip_other in H.
  rewrite (get_inner_at _ _ _ _ _ _ _ _ _ _ _ _ H), (get_outer_at _ _ _ _ _ _ _ _ _ _ _ _ H).
  rewrite (bind_ok _ _ _ _ _ (both_black_ok _ _ _ _ _ _ _ _ _ _ H)), (rb_color _ _ _ Hi), (rb_color _ _ _ Ho). cbn [is_black is_red negb andb].
  destruct (recolor_ok _ _ _ _ _ _ _ _ _ _ _ RED H) as (s1 & E1 & H1). rewrite (bind_ok _ _ _ _ _ E1). exists s1. split; [done|].
  by rewrite zip_other.
Qed.

(** What the turn leaves when one of the children of the sibling is red. *)
Definition filled (np fr : nat) d ctx cp t p vp (old : tree (T := T)) n (again : nat -> M T nat) (r : res (RedBlackTree2 T * nat)) : Prop :=
  exists s' wi w vw o c, r = again (root (zip ctx (br d cp (br d BLACK t p vp wi) w vw o))) s' /\
    rep s' np fr (zip ctx (br d cp (br d BLACK t p vp wi) w vw o)) /\ rb wi c n /\ rb o BLACK (S n) /\
    inorder (br d cp (br d BLACK t p vp wi) w vw o) = inorder old.

Lemma rb_red_br (t : tree (T := T)) n d : rb t RED n -> exists t1 a v t2, t = br d RED t1 a v t2 /\ rb t1 BLACK n /\ rb t2 BLACK n.
Proof. inversion 1; subst. destruct d; eexists _, _, _, _; by split. Qed.

Lemma delete_black_fill d ctx cp t p vp wi w vw wo s np fr again n ci co :
  rep s np fr (zip ctx (br d cp t p vp (br d BLACK wi w vw wo))) -> rb wi ci n -> rb wo co n -> is_black ci && is_black co = false ->
  filled np fr d ctx cp t p vp (br d cp t p vp (br d BLACK wi w vw wo)) n again (delete_black d again p w s).
Proof.
  intros H Hi Ho Hc. unfold delete_black. pose proof H as H0. rewrite zip_other in H.
  rewrite (get_inner_at _ _ _ _ _ _ _ _ _ _ _ _ H), (get_outer_at _ _ _ _ _ _ _ _ _ _ _ _ H).
  rewrite (bind_ok _ _ _ _ _ (both_black_ok _ _ _ _ _ _ _ _ _ _ H)), (rb_color _ _ _ Hi), (rb_color _ _ _ Ho), Hc.
  pose proof H as H2. rewrite zip_other in H2. rewrite (get_color_at _ _ _ _ _ _ _ H2), (rb_color _ _ _ Ho). clear H2. destruct co; cbn [is_black is_red negb].
  - rewrite (bind_ok _ _ s s w) by done. destruct (rb_red_br wo n d Ho) as (o1 & oa & ov & o2 & -> & H1 & H2).
    destruct (delete_last_ok _ _ _ _ _ _ _ _ _ _ _ _ _ _ _ _ _ again H0) as (s' & -> & H').
    exists s', wi, w, vw, (br d BLACK o1 oa ov o2), ci. split; [by rewrite !root_zip, !root_br|]. split; [done|]. split; [done|].
    split; [by eapply rb_br_black|]. destruct d; same_order.
  - rewrite andb_true_r in Hc. destruct ci; [|done]. destruct (rb_red_br wi n d Hi) as (i1 & z & vz & i2 & -> & H1 & H2). clear Hi Hc.
    change (zip (F (opp d) cp p vp t :: ctx) (br d BLACK (br d RED i1 z vz i2) w vw wo))
      with (zip (F d BLACK w vw wo :: F (opp d) cp p vp t :: ctx) (br d RED i1 z vz i2)) in H. rewrite root_br.
    destruct (recolor_ok _ _ _ _ _ _ _ _ _ _ _ BLACK H) as (s1 & E1 & H3).
    change (zip (F d BLACK w vw wo :: F (opp d) cp p vp t :: ctx) (br d BLACK i1 z vz i2))
      with (zip (F (opp d) cp p vp t :: ctx) (br d BLACK (br d BLACK i1 z vz i2) w vw wo)) in H3.
    destruct (recolor_ok _ _ _ _ _ _ _ _ _ _ _ RED H3) as (s2 & E2 & H4). rewrite <- !(br_opp d) in H4.
    destruct (rotate_ok _ _ _ _ _ _ _ _ _ _ _ _ _ _ _ H4) as (s3 & E3 & H5). rewrite (br_opp d), (br_opp d) in H5. rewrite <- zip_other in H5.
    assert (Eg : get (child (opp d)) p s3 = Ok (s3, z)).
    { rewrite (get_ok _ _ _ _ (read_at _ _ _ _ _ _ _ _ _ _ _ H5)), root_br. by rewrite (proj2 (child_cell _ _ _ _ _ _)). }
    rewrite (bind_ok _ _ s s3 z) by (rewrite (bind_ok _ _ _ _ _ E1), (bind_ok _ _ _ _ _ E2), (bind_ok _ _ _ _ _ E3); exact Eg).
    destruct (delete_last_ok _ _ _ _ _ _ _ _ _ _ _ _ _ _ _ _ _ again H5) as (s' & -> & H').
    exists s', i1, z, vz, (br d BLACK i2 w vw wo), BLACK. split; [by rewrite !root_zip, !root_br|]. split; [done|]. split; [done|].
    split; [by eapply rb_br_black|]. destruct d; same_order.
Qed.

(** ** The loop *)

Definition recolored (np fr : nat) (old : tree (T := T)) (r : res (RedBlackTree2 T * ())) : Prop :=
  exists s' t', r = Ok (s', ()) /\ rep s' np fr t' /\ inorder t' = inorder old /\ exists m, rb t' BLACK m.

Definition delete_from (fuel : nat) (x : nat) : M T () := x ← FixDelete_loop fuel x; set_color x BLACK.

Lemma recolored_order np fr old old' r : inorder old' = inorder old -> recolored np fr old' r -> recolored np fr old r.
Proof. intros E (s' & t' & -> & H & I & B). exists s', t'. split; [done|]. split; [done|]. split; [congruence|done]. Qed.

Definition blacken (t : tree (T := T)) : tree := match t with Leaf => Leaf | Br _ l a v r => Br BLACK l a v r end.

Lemma rb_blacken t c n : rb t c n -> exists m, rb (blacken t) BLACK m.
Proof. destruct 1; cbn; eexists; by econstructor. Qed.

Lemma bind_eq {A B} (m m' : M T A) (k : A -> M T B) s s' : m s = m' s' -> (m ≫= k) s = (m' ≫= k) s'.
Proof. intros E. unfold mbind, M_bind. by rewrite E. Qed.

(** The loop ends at the root and at a red node, which is made black. *)
Lemma delete_exit fuel ctx t s np fr pc n :
  rep s np fr (zip ctx t) -> rb (blacken t) BLACK n -> (ctx = [] \/ tcolor t = RED /\ crb ctx pc n) ->
  recolored np fr (zip ctx t) (delete_from (S fuel) (root t) s).
Proof.
  intros H Ht Hc. unfold delete_from. rewrite (bind_ok _ _ s s (root t)).
  - destruct t as [|c0 l a v r].
    + destruct Hc as [->|[? _]]; [|done]. destruct (recolor_sentinel _ _ _ _ _ H) as (s' & E & H'). exists s', Leaf.
      split; [done|]. split; [done|]. split; [done|]. exists 0%nat. constructor.
    + destruct (recolor_ok nil s np fr ctx L c0 l a v r BLACK H) as (s' & E & H'). exists s', (zip ctx (Br BLACK l a v r)).
      split; [done|]. split; [done|]. split; [by apply inorder_zip|]. destruct Hc as [->|[_ Hc]]; [by eexists|].
      eapply zip_rb_black; [exact Hc|done|done|done].
  - rewrite FixDelete_loop_S, (bind_ok _ _ _ _ _ (get_root_ok _ _ _ _ _ H)), (get_color_at _ _ _ _ _ _ _ H).
    destruct Hc as [->|[-> _]]; [by cbn [zip]; rewrite Nat.eqb_refl|]. cbn [is_black is_red negb]. by rewrite andb_false_r.
Qed.

(** Where the short place may hang. *)
Definition room (ctx : list (frame (T := T))) (cp : NodeColor) (n : nat) : Prop :=
  match cp with RED => crb ctx BLACK (S n) /\ ctx <> [] | BLACK => exists pc, crb ctx pc (S (S n)) end.

Lemma room_whole ctx cp n (t : tree (T := T)) : room ctx cp n -> (match cp with RED => rb t RED (S n) | BLACK => rb t BLACK (S (S n)) end) ->
  exists m, rb (blacken (zip ctx t)) BLACK m.
Proof.
  intros Hr Ht. destruct cp.
  - destruct Hr as [Hc _]. destruct (zip_rb _ _ _ _ _ Hc Ht) as (c & m & Hz); [done|]. by eapply rb_blacken.
  - destruct Hr as [pc Hc]. destruct (zip_rb _ _ _ _ _ Hc Ht) as (c & m & Hz); [done|]. by eapply rb_blacken.
Qed.

Lemma delete_turn fuel d ctx cp t p vp W s np fr n :
  rep s np fr (zip ctx (br d cp t p vp W)) -> rb t BLACK n -> rb W BLACK (S n) -> room ctx cp n ->
  (cp = BLACK -> forall s' t', rep s' np fr (zip ctx t') -> rb t' BLACK (S n) -> t' <> Leaf -> recolored np fr (zip ctx t') (delete_from (S fuel) (root t') s')) ->
  recolored np fr (zip ctx (br d cp t p vp W)) ((x ← delete_black d (FixDelete_loop (S fuel)) p (root W); set_color x BLACK) s).
Proof.
  intros H Ht HW Hroom IH. assert (HW' : exists wi w vw wo ci co, W = br d BLACK wi w vw wo /\ rb wi ci n /\ rb wo co n).
  { inversion HW; subst. destruct d; eexists _, _, _, _, _, _; by split. }
  destruct HW' as (wi & w & vw & wo & ci & co & -> & Hi & Ho). rewrite root_br.
  destruct (is_black ci && is_black co) eqn:Ec.
  - assert (ci = BLACK /\ co = BLACK) as [-> ->] by (by destruct ci, co).
    destruct (delete_black_push d ctx cp t p vp wi w vw wo s np fr (FixDelete_loop (S fuel)) n H Hi Ho) as (s' & E & H').
    rewrite (bind_eq _ _ _ _ _ E). fold (delete_from (S fuel) p).
    pose proof (rb_br_black d t p vp _ _ _ _ Ht (rb_br_red d wi w vw wo n Hi Ho)) as Hb.
    eapply recolored_order with (old' := zip ctx (br d cp t p vp (br d RED wi w vw wo))).
    { apply inorder_zip. by apply inorder_br; [|apply inorder_br]. }
    replace p with (root (br d cp t p vp (br d RED wi w vw wo))) at 2 by apply root_br. destruct cp.
    + destruct Hroom as [Hc _]. eapply (delete_exit _ _ _ _ _ _ BLACK (S n)); [done|by destruct d|right; split; [by destruct d|done]].
    + apply IH; [done|done|done|by destruct d].
  - pose proof (delete_black_fill d ctx cp t p vp wi w vw wo s np fr (FixDelete_loop (S fuel)) n ci co H Hi Ho Ec) as (s' & wi' & w' & vw' & o' & c' & E & H' & Hi' & Ho' & I').
    rewrite (bind_eq _ _ _ _ _ E). fold (delete_from (S fuel) (root (zip ctx (br d cp (br d BLACK t p vp wi') w' vw' o')))).
    eapply recolored_order with (old' := zip [] (zip ctx (br d cp (br d BLACK t p vp wi') w' vw' o'))); [cbn [zip]; by apply inorder_zip|].
    pose proof (rb_br_black d t p vp _ _ _ _ Ht Hi') as Hp.
    destruct (room_whole ctx cp n (br d cp (br d BLACK t p vp wi') w' vw' o') Hroom) as [m Hm].
    { destruct cp; [by apply rb_br_red|by eapply rb_br_black]. }
    eapply (delete_exit _ [] _ _ _ _ BLACK m); [done|done|by left].
Qed.

(** A red sibling is first rotated above the parent. *)
Lemma delete_body_ok fuel d ctx cp t p vp W s np fr n cw :
  rep s np fr (zip ctx (br d cp t p vp W)) -> rb t BLACK n -> rb W cw (S n) -> fits_under cp cw -> room ctx cp n ->
  (cp = BLACK -> forall s' t', rep s' np fr (zip ctx t') -> rb t' BLACK (S n) -> t' <> Leaf -> recolored np fr (zip ctx t') (delete_from (S fuel) (root t') s')) ->
  recolored np fr (zip ctx (br d cp t p vp W)) ((x ← delete_body d (FixDelete_loop (S fuel)) p; set_color x BLACK) s).
Proof.
  intros H Ht HW Hf Hroom IH. unfold delete_body.
  assert (Ebind : forall A (m : M T A) k (k2 : nat -> M T ()) s, ((m ≫= k) ≫= k2) s = (m ≫= (fun x => k x ≫= k2)) s).
  { intros A m k k2 s0. unfold mbind, M_bind. destruct (m s0) as [[s1 a]| |]; done. }
  rewrite Ebind, (get_outer_at _ _ _ _ _ _ _ _ _ _ _ _ H), Ebind.
  pose proof H as H0. rewrite zip_other in H0. rewrite (get_color_at _ _ _ _ _ _ _ H0), (rb_color _ _ _ HW), Ebind. destruct cw; cbn [is_red].
  - assert (cp = BLACK) as -> by (destruct cp; [by specialize (Hf eq_refl)|done]). destruct (rb_red_br W (S n) d HW) as (B & w & vw & C & -> & HB & HC).
    rewrite root_br. destruct (recolor_ok _ _ _ _ _ _ _ _ _ _ _ BLACK H0) as (s1 & E1 & H1). rewrite <- zip_other in H1.
    destruct (recolor_ok _ _ _ _ _ _ _ _ _ _ _ RED H1) as (s2 & E2 & H2).
    destruct (rotate_ok _ _ _ _ _ _ _ _ _ _ _ _ _ _ _ H2) as (s3 & E3 & H3).
    change (zip ctx (br d BLACK (br d RED t p vp B) w vw C)) with (zip (F d BLACK w vw C :: ctx) (br d RED t p vp B)) in H3.
    assert (Eg : get (child (opp d)) p s3 = Ok (s3, root B)).
    { rewrite (get_ok _ _ _ _ (read_at _ _ _ _ _ _ _ _ _ _ _ H3)). by rewrite (proj2 (child_cell _ _ _ _ _ _)). }
    rewrite (bind_ok _ _ s s3 (root B)) by (rewrite (bind_ok _ _ _ _ _ E1), (bind_ok _ _ _ _ _ E2), (bind_ok _ _ _ _ _ E3); exact Eg).
    destruct Hroom as [pc Hc]. eapply recolored_order; [|eapply (delete_turn fuel d (F d BLACK w vw C :: ctx) RED t p vp B s3 np fr n H3 Ht HB); [|done]].
    + cbn [zip]. apply inorder_zip. destruct d; same_order.
    + split; [by econstructor|done].
  - rewrite (bind_ok _ _ s s (root W)) by done. by apply (delete_turn fuel d ctx cp t p vp W s np fr n).
Qed.

Lemma root_at_elem (ctx : list (frame (T := T))) x : ctx <> [] -> root_at ctx x ∈ caddrs ctx.
Proof.
  revert x. induction ctx as [|[d c a v sib] ctx IH]; intros x H; [done|]. cbn. destruct ctx as [|f ctx]; [apply list_elem_of_here|].
  apply elem_of_cons. right. apply elem_of_app. right. by apply IH.
Qed.

Lemma not_root s np fr ctx t : rep s np fr (zip ctx t) -> ctx <> [] -> (root t =? root (zip ctx t))%nat = false.
Proof.
  intros H Hne. apply Nat.eqb_neq. rewrite root_zip. intros E. pose proof (root_at_elem ctx (root t) Hne) as Hin. rewrite <- E in Hin.
  pose proof (rep_nodup _ _ _ _ _ H) as Hd. pose proof (rep_nil _ _ _ _ _ H) as Hn. rewrite addrs_zip in Hd, Hn. rewrite not_elem_of_app in Hn.
  apply list.NoDup_app in Hd as (_ & Hd & _). destruct t as [|c l a v r]; [by destruct Hn|]. apply (Hd a); [apply list_elem_of_here|done].
Qed.

Lemma get_parent_focus {A} s np fr ctx t (k : nat -> M T A) :
  rep s np fr (zip ctx t) -> (t = Leaf -> np = up nil ctx) -> (get parent (root t) ≫= k) s = k (up nil ctx) s.
Proof.
  intros H Hn. destruct t as [|c l a v r].
  - rewrite <- (Hn eq_refl). cbn [RedBlackHeap.root]. apply bind_ok. by rewrite (get_ok parent _ _ _ (rep_sentinel _ _ _ _ _ H)).
  - apply (get_parent_at nil s np fr ctx L c l a v r k H).
Qed.

(** The tree [t] is one black node short of what its place needs, or red. *)
Lemma delete_loop_ok fuel ctx t s np fr pc n :
  rep s np fr (zip ctx t) -> (t = Leaf -> np = up nil ctx) -> (length ctx < fuel)%nat ->
  (tcolor t = BLACK /\ rb t BLACK n \/ tcolor t = RED /\ rb (blacken t) BLACK (S n)) -> (crb ctx pc (S n)) ->
  recolored np fr (zip ctx t) (delete_from fuel (root t) s).
Proof.
  revert ctx t s n pc. induction fuel as [|fuel IH]; intros ctx t s n pc H Hnp Hf Ht Hc; [lia|].
  destruct Ht as [[Et Ht]|[Et Ht]]; [|by eapply delete_exit; [done|done|right]].
  destruct ctx as [|[d cp p vp W] ctx].
  { assert (Hb : exists m, rb (blacken t) BLACK m) by by eapply rb_blacken. destruct Hb as [m Hb]. apply (delete_exit fuel [] t s np fr BLACK m); [done|done|by left]. }
  destruct fuel as [|fuel]; [cbn in Hf; lia|].
  assert (HW : exists cw, rb W cw (S n) /\ fits_under cp cw /\ room ctx cp n) by (inversion Hc; subst; eexists; (split; [done|]); split; [done|by eexists|done|done]).
  destruct HW as (cw & HW & Hfit & Hroom). assert (HWl : W <> Leaf) by (intros ->; inversion HW).
  unfold delete_from. cbn [zip] in H |- *. pose proof H as H1.
  change (zip ctx (br d cp t p vp W)) with (zip (F d cp p vp W :: ctx) t) in H1.
  pose proof (not_root _ _ _ _ _ H1 ltac:(done)) as Hroot. pose proof H as H2. rewrite zip_other in H2.
  pose proof H as H3. rewrite <- (br_opp d) in H3. destruct (focus_apart nil _ _ _ _ _ _ _ _ _ _ H3) as (_ & _ & _ & Hne & _). specialize (Hne HWl).
  assert (Eloop : FixDelete_loop (S (S fuel)) (root t) s = delete_body d (FixDelete_loop (S fuel)) p s).
  { rewrite FixDelete_loop_S, (bind_ok _ _ _ _ _ (get_root_ok _ _ _ _ _ H1)), (get_color_at _ _ _ _ _ _ _ H1), Hroot, Et. cbn [negb andb is_black is_red].
    rewrite (get_parent_focus _ _ _ _ _ _ H1 Hnp). cbn [up].
    rewrite (bind_ok _ _ _ _ _ (get_ok left _ _ _ (read_at _ _ _ _ _ _ _ _ _ _ _ H))). destruct d; cbn [cell left].
    - by rewrite Nat.eqb_refl.
    - by rewrite (proj2 (Nat.eqb_neq (root t) (root W))) by auto. }
  rewrite (bind_eq _ _ _ _ _ Eloop). apply (delete_body_ok fuel d ctx cp t p vp W s np fr n cw); [done|done|done|done|done|].
  intros -> s' t' H' Ht' Hl'. destruct Hroom as [pc' Hc']. eapply (IH ctx t' s' (S n) pc'); [done|done|cbn in Hf; lia| |done].
  left. split; [by eapply rb_color|done].
Qed.

Lemma FixDelete_ok ctx t s np fr pc n :
  rep s np fr (zip ctx t) -> (t = Leaf -> np = up nil ctx) -> (tcolor t = BLACK /\ rb t BLACK n \/ tcolor t = RED /\ rb (blacken t) BLACK (S n)) ->
  crb ctx pc (S n) -> recolored np fr (zip ctx t) (FixDelete (root t) s).
Proof.
  intros H Hnp Ht Hc. unfold FixDelete. rewrite (bind_ok _ _ s s (base.size (heap s))) by done.
  eapply delete_loop_ok; [done|done|by eapply ctx_size|done|done].
Qed.

End FixDelete.

(** ** The pointer surgery *)

Section Surgery.

Context {T : Type} (nil : nat).

Abbreviation rep := (rep (T := T) nil).
Abbreviation root := (root (T := T) nil).

Lemma csub_zip h ctx1 ctx2 (t : tree (T := T)) :
  sub nil h (up nil (ctx1 ++ ctx2)) t /\ csub nil h (ctx1 ++ ctx2) (root t) <->
  sub nil h (up nil ctx2) (zip ctx1 t) /\ csub nil h ctx2 (root (zip ctx1 t)).
Proof.
  revert t. induction ctx1 as [|[d c a v sib] ctx1 IH]; intros t; cbn [app zip]; [done|].
  rewrite <- IH, sub_br, root_br. cbn. tauto.
Qed.

(** [Transplant(u, v)] for a node [u] that is at its place in [ctx] and a tree [V]. *)
Lemma Transplant_ok ctx u n (V : tree (T := T)) q np s :
  csub nil (heap s) ctx u -> heap s !! u = Some n -> parent n = up nil ctx -> sub nil (heap s) q V ->
  heap s !! nil = Some (mkNode None BLACK nil nil np) -> nil_ s = nil ->
  NoDup (u :: addrs V ++ caddrs ctx) -> nil ∉ u :: addrs V ++ caddrs ctx ->
  exists s', Transplant u (root V) s = Ok (s', ()) /\ csub nil (heap s') ctx (root V) /\ sub nil (heap s') (up nil ctx) V /\
    only (nil :: addrs V ++ caddrs ctx) s s' /\ root_ s' = match ctx with [] => root V | _ => root_ s end /\
    heap s' !! nil = Some (mkNode None BLACK nil nil (match V with Leaf => up nil ctx | _ => np end)).
Proof.
  intros Hc Eu Epu HV Hsen Hnil Hd Hn. apply list.NoDup_cons in Hd as [Hu Hd]. apply list.NoDup_app in Hd as (HdV & Hdis & Hdc). not_in.
  change (Transplant u (root V)) with (nil' ← get_nil; pu ← get (T := T) parent u; _ ← replace_child L pu u (root V) nil'; pu ← get parent u; set_parent (root V) pu).
  rewrite (bind_ok _ _ s s nil) by (unfold get_nil; by rewrite Hnil). rewrite (bind_ok _ _ _ _ _ (get_ok _ _ _ _ Eu)), Epu.
  destruct (replace_child_ok nil L ctx u (root V) s) as (s1 & E1 & Hc1 & O1 & R1); [done|done|tauto|tauto|intuition|].
  rewrite (bind_ok _ _ _ _ _ E1). assert (Eu1 : heap s1 !! u = Some n) by (rewrite (proj1 O1) by tauto; done).
  rewrite (bind_ok _ _ _ _ _ (get_ok _ _ _ _ Eu1)), Epu.
  assert (HV1 : sub nil (heap s1) q V) by (by apply (sub_only nil _ _ _ _ _ O1 HV)).
  assert (Hsen1 : heap s1 !! nil = Some (mkNode None BLACK nil nil np)) by (rewrite (proj1 O1) by tauto; done).
  destruct V as [|c l a v r]; cbn [RedBlackHeap.root].
  - rewrite (set_parent_ok _ _ _ _ _ _ _ _ Hsen1). eexists. split; [done|].
    pose proof (only_store s1 nil (mkNode None BLACK nil nil (up nil ctx)) _ Hsen1) as O2.
    split; [apply (csub_only nil _ _ _ _ _ O2 Hc1); intros b Hb ->%list_elem_of_singleton; tauto|]. split; [done|].
    split; [|split; [exact R1|apply lookup_store]]. eapply only_weaken; [exact (only_trans _ _ _ _ _ O1 O2)|]. set_solver.
  - destruct HV1 as (Ea & Hl & Hr). rewrite (set_parent_ok _ _ _ _ _ _ _ _ Ea). eexists. split; [done|].
    pose proof (only_store s1 a (mkNode (Some v) c (root l) (root r) (up nil ctx)) _ Ea) as O2. cbn [addrs] in *. apply list.NoDup_cons in HdV as [Ha HdV]. not_in.
    split; [apply (csub_only nil _ _ _ _ _ O2 Hc1); intros b Hb ->%list_elem_of_singleton; apply (Hdis a); [apply list_elem_of_here|done]|].
    split; [split; [apply lookup_store|split; (apply (sub_only nil _ _ _ _ _ O2); [done|]); intros b Hb ->%list_elem_of_singleton; tauto]|].
    split; [|split; [exact R1|rewrite (proj1 O2); [done|]; intros ->%list_elem_of_singleton; tauto]].
    eapply only_weaken; [exact (only_trans _ _ _ _ _ O1 O2)|]. set_solver.
Qed.

(** [delete z] for a node that no cell of the tree mentions. *)
Lemma delete_ok s z (t : tree (T := T)) np fr n :
  heap s !! z = Some n -> sub nil (heap s) nil t -> NoDup (addrs t) -> nil ∉ addrs t -> z ∉ addrs t -> z <> nil ->
  heap s !! nil = Some (mkNode None BLACK nil nil np) -> nil_ s = nil -> root_ s = root t ->
  (forall a, is_Some (heap s !! a) <-> a = nil \/ a = z \/ a ∈ addrs t) -> fresh s = fr -> (forall a, is_Some (heap s !! a) -> (a < fr)%nat) ->
  exists s', delete_node z s = Ok (s', ()) /\ rep s' np fr t.
Proof.
  intros Ez Hs Hd Hn Hz Hzn Hsen Hnil Hr Hdom Hfr Hlt. unfold delete_node. rewrite Ez. eexists. split; [done|].
  assert (Hother : forall a, a <> z -> delete z (heap s) !! a = heap s !! a) by (intros; by apply lookup_delete_ne).
  assert (Hsome : forall a, is_Some (delete z (heap s) !! a) <-> a <> z /\ is_Some (heap s !! a)).
  { intros a. destruct (decide (a = z)) as [->|Hne]; [rewrite lookup_delete_eq; split; [by intros [? ?]|by intros [? _]]|]. rewrite Hother by done. tauto. }
  split; cbn [heap nil_ root_ fresh]; try done.
  - apply (sub_frame nil (heap s)); [done|]. intros a Ha. apply Hother. by intros ->.
  - by rewrite Hother by auto.
  - intros a. rewrite Hsome, Hdom. split; [tauto|]. intros [->|Ha]; [auto|]. split; [by intros ->|auto].
  - split; [done|]. intros a [_ Ha]%Hsome. by apply Hlt.
Qed.

(** A node with at most one child is replaced by it. *)
Lemma splice_ok d ctx c z v (V : tree (T := T)) s np fr :
  rep s np fr (zip ctx (br d c Leaf z v V)) ->
  exists s', (_ ← Transplant z (root V); delete_node z) s = Ok (s', ()) /\
    rep s' (match V with Leaf => up nil ctx | _ => np end) fr (zip ctx V).
Proof.
  intros [Hs Hd Hn Hsen Hnil Hroot Hdom [Hfr Hlt]]. apply sub_zip in Hs as [Ht Hc]. apply sub_br in Ht as (Ez & _ & HV). rewrite root_br in Hc.
  assert (Hp : addrs (zip ctx (br d c Leaf z v V)) ≡ₚ z :: addrs (zip ctx V)) by (rewrite !addrs_zip, addrs_br; done).
  assert (Hp2 : addrs (zip ctx V) ≡ₚ addrs V ++ caddrs ctx) by apply addrs_zip. rewrite Hp in Hd, Hn. rewrite Hp2 in Hd, Hn.
  destruct (Transplant_ok ctx z _ V z np s Hc Ez (parent_cell _ _ _ _ _ _) HV Hsen Hnil Hd Hn) as (s1 & E1 & Hc1 & HV1 & O1 & R1 & Hsen1).
  rewrite (bind_ok _ _ _ _ _ E1). apply list.NoDup_cons in Hd as [Hz Hd]. not_in.
  assert (Ez1 : heap s1 !! z = Some (cell d v c nil (root V) (up nil ctx))) by (rewrite (proj1 O1); [done|]; not_in; intuition).
  destruct O1 as (_ & Od & On & Of).
  eapply delete_ok; [exact Ez1| | | | | |exact Hsen1| | | | |].
  - apply sub_zip. by split.
  - by rewrite Hp2.
  - rewrite Hp2. not_in.
  - rewrite Hp2. not_in.
  - intros ->. tauto.
  - by rewrite On.
  - rewrite R1, Hroot, !root_zip, root_br. symmetry. by destruct ctx as [|[]].
  - intros a. rewrite Od, Hdom, Hp, elem_of_cons. tauto.
  - by rewrite Of.
  - intros a. rewrite Od. apply Hlt.
Qed.

(** The node [y], detached from its old place, takes the place and the colour of [z]. *)
Definition take_place (z y : nat) : M T () :=
  _ ← Transplant z y;
  zl ← get left z;
  _ ← set_left y zl;
  yl ← get left y;
  _ ← set_parent yl y;
  zc ← get color z;
  set_color y zc.

Record detached (s : RedBlackTree2 T) (np fr : nat) ctx (z : nat) (cz : NodeColor) (zl : tree (T := T)) (y : nat) (vy : T) (Z : tree (T := T)) : Prop := {
  de_z : exists v r, heap s !! z = Some (mkNode (Some v) cz (root zl) r (up nil ctx));
  de_y : exists c p, heap s !! y = Some (mkNode (Some vy) c nil (root Z) p);
  de_zl : sub nil (heap s) z zl;
  de_Z : sub nil (heap s) y Z;
  de_ctx : csub nil (heap s) ctx z;
  de_leaf : zl <> Leaf;
  de_nodup : NoDup (z :: y :: addrs zl ++ addrs Z ++ caddrs ctx);
  de_nil : nil ∉ z :: y :: addrs zl ++ addrs Z ++ caddrs ctx;
  de_sen : heap s !! nil = Some (mkNode None BLACK nil nil np);
  de_nil_ : nil_ s = nil;
  de_root : root_ s = root_at ctx z;
  de_dom : forall a, is_Some (heap s !! a) <-> a = nil \/ a ∈ z :: y :: addrs zl ++ addrs Z ++ caddrs ctx;
  de_fresh : fresh s = fr /\ forall a, is_Some (heap s !! a) -> (a < fr)%nat;
}.

Lemma take_place_ok s np fr ctx z cz zl y vy Z :
  detached s np fr ctx z cz zl y vy Z ->
  exists s', (_ ← take_place z y; delete_node z) s = Ok (s', ()) /\ rep s' np fr (zip ctx (Br cz zl y vy Z)).
Proof.
  intros [(vz & rz & Ez) (cy & py & Ey) Hzl HZ Hc Hleaf Hd Hn Hsen Hnil Hroot Hdom [Hfr Hlt]].
  apply list.NoDup_cons in Hd as [Hz Hd]. apply list.NoDup_cons in Hd as [Hy Hd]. pose proof Hd as Hd0.
  apply list.NoDup_app in Hd as (Hdl & Hl & Hd). apply list.NoDup_app in Hd as (HdZ & HZc & Hdc). not_in.
  set (V := Br cy Leaf y vy Z). assert (HV : sub nil (heap s) py V) by (by split).
  destruct (Transplant_ok ctx z _ V py np s Hc Ez eq_refl HV Hsen Hnil) as (s1 & E1 & Hc1 & [Ey1 [_ HZ1]] & O1 & R1 & Hsen1).
  { cbn. apply list.NoDup_cons. split; [not_in; intuition|]. apply list.NoDup_cons. split; [not_in; intuition|].
    apply list.NoDup_app. auto. }
  { cbn. not_in. }
  assert (Hoff : forall a, a ∈ z :: addrs zl -> a ∉ nil :: addrs V ++ caddrs ctx).
  { intros a Ha. cbn. rewrite elem_of_cons in Ha. destruct Ha as [->|Ha]; [not_in; intuition|]. specialize (Hl a Ha). not_in.
    repeat split; try (intros ->); tauto. }
  assert (Ez1 : heap s1 !! z = Some (mkNode (Some vz) cz (root zl) rz (up nil ctx))) by (rewrite (proj1 O1) by (apply Hoff, list_elem_of_here); done).
  assert (Hzl1 : sub nil (heap s1) z zl) by (apply (sub_only nil _ _ _ _ _ O1 Hzl); intros a Ha; apply Hoff; by apply elem_of_cons; right).
  set (n2 := mkNode (Some vy) cy (root zl) (root Z) (up nil ctx)). set (s2 := with_store s1 y n2).
  pose proof (only_store s1 y n2 _ Ey1 : only [y] s1 s2) as O2.
  destruct (reparent_ok nil z y zl s2) as (s3 & E3 & Hzl3 & O3 & R3); [apply (sub_only nil _ _ _ _ _ O2 Hzl1); set_solver|done|tauto|].
  assert (Ey3 : heap s3 !! y = Some n2) by (rewrite (proj1 O3) by tauto; apply lookup_store).
  assert (Ez3 : heap s3 !! z = Some (mkNode (Some vz) cz (root zl) rz (up nil ctx))) by (rewrite (proj1 O3), (proj1 O2) by set_solver; done).
  set (n4 := mkNode (Some vy) cz (root zl) (root Z) (up nil ctx)). set (s4 := with_store s3 y n4).
  pose proof (only_store s3 y n4 _ Ey3 : only [y] s3 s4) as O4.
  assert (E : take_place z y s = Ok (s4, ())).
  { unfold take_place. change y with (root V). rewrite (bind_ok _ _ _ _ _ E1), (bind_ok _ _ _ _ _ (get_ok left _ _ _ Ez1)). cbn [RedBlackHeap.root V left].
    rewrite (bind_ok _ _ s1 s2 ()) by (unfold set_left; by rewrite (store_ok _ _ _ _ Ey1)).
    rewrite (bind_ok _ _ _ _ _ (get_ok left _ _ _ (lookup_store s1 y n2))). cbn [left n2].
    assert (E3' : set_parent (root zl) y s2 = Ok (s3, ())).
    { rewrite <- E3. unfold reparent. rewrite (proj2 (Nat.eqb_neq (root zl) nil)); [done|]. intros Er. pose proof (root_elem nil zl Hleaf). rewrite Er in *. tauto. }
    rewrite (bind_ok _ _ _ _ _ E3'), (bind_ok _ _ _ _ _ (get_ok color _ _ _ Ez3)). unfold set_color. by rewrite (store_ok _ _ _ _ Ey3). }
  rewrite (bind_ok _ _ _ _ _ E).
  pose proof (only_trans _ _ _ _ _ O2 (only_trans _ _ _ _ _ O3 O4)) as O24. pose proof (only_trans _ _ _ _ _ O1 O24) as (_ & Od & On & Of).
  assert (Hp : addrs (zip ctx (Br cz zl y vy Z)) ≡ₚ y :: addrs zl ++ addrs Z ++ caddrs ctx) by (rewrite addrs_zip; cbn; by rewrite <- app_assoc).
  eapply (delete_ok s4 z _ np fr).
  - unfold s4, with_store. cbn. rewrite lookup_insert_ne by intuition. exact Ez3.
  - apply sub_zip. split; [split; [apply lookup_store|split]|].
    + apply (sub_only nil _ _ _ _ _ O4 Hzl3). set_solver.
    + apply (sub_only nil _ _ _ _ _ O24 HZ1). set_solver.
    + apply (csub_only nil _ _ _ _ _ O24 Hc1). set_solver.
  - rewrite Hp. apply list.NoDup_cons. split; [not_in|exact Hd0].
  - rewrite Hp. not_in.
  - rewrite Hp. not_in.
  - intuition.
  - rewrite (proj1 O24) by set_solver. exact Hsen1.
  - by rewrite On.
  - rewrite root_zip. cbn [RedBlackHeap.root]. change (root_ s4) with (root_ s3). rewrite R3. change (root_ s2) with (root_ s1). rewrite R1, Hroot. symmetry. by destruct ctx as [|[]].
  - intros a. rewrite Od, Hdom, Hp, elem_of_cons. done.
  - by rewrite Of.
  - intros a. rewrite Od. apply Hlt.
Qed.

(** The first node of a subtree. *)
Definition leftmost (ctx : list (frame (T := T))) : Prop := Forall (fun f => f_side f = L) ctx.

Lemma leftmost_first ctx : leftmost ctx -> precede ctx = [].
Proof. induction 1 as [|[d c a v sib] ctx Hd H IH]; cbn; [done|]. cbn in Hd. subst d. by rewrite IH. Qed.

Lemma Minimum_loop_ok fuel ctx (t : tree (T := T)) s :
  view nil s (zip ctx t) -> t <> Leaf -> (length (addrs t) < fuel)%nat ->
  exists ctx2 c y vy yr, t = zip ctx2 (Br c Leaf y vy yr) /\ leftmost ctx2 /\ Minimum_loop fuel (root t) s = Ok (s, y).
Proof.
  revert ctx t. induction fuel as [|fuel IH]; intros ctx t H Hne Hf; [lia|]. destruct t as [|c l a v r]; [done|].
  cbn [Minimum_loop RedBlackHeap.root]. rewrite (get_nil_at _ _ _ H), (get_left_at _ _ _ _ _ _ _ _ H).
  cbn [addrs length] in Hf. rewrite length_app in Hf. destruct l as [|cl ll al vl lr].
  - cbn [RedBlackHeap.root]. rewrite Nat.eqb_refl. exists [], c, a, v, r. split; [done|]. split; [constructor|done].
  - destruct (view_at _ (F L c a v r :: ctx) _ _ _ _ _ H) as [_ Ha]. cbn [RedBlackHeap.root]. rewrite (proj2 (Nat.eqb_neq al nil) Ha).
    destruct (IH (F L c a v r :: ctx) (Br cl ll al vl lr) H ltac:(done)) as (ctx2 & c2 & y & vy & yr & E & Hl & Em); [lia|].
    exists (ctx2 ++ [F L c a v r]), c2, y, vy, yr. split; [by rewrite zip_app, <- E|]. split; [|done]. apply Forall_app. split; [done|]. by repeat constructor.
Qed.

End Surgery.
