(* ===== verification/RedBlackRemove.v ===== *)
(** * Erase of base::RedBlackTree2

    A node with two children is replaced by its successor, which first leaves its own
    place ([detach]); the place that lost a node is then repaired by [FixDelete].
    [Erase] as a whole removes one entry of the ordered sequence and keeps the rest. *)

From stdpp Require Import gmap.
From S2P Require Import Prelude Memory RedBlackTree RedBlackHeap RedBlackInsert RedBlackErase.

Set Default Proof Using "Type".
Set Warnings "-clear-no-such-hyp".

Section Detach.

Context {T : Type} (nil : nat).

Abbreviation rep := (rep (T := T) nil).
Abbreviation root := (root (T := T) nil).

Lemma bind_assoc {A B C} (m : M T A) (k : A -> M T B) (k2 : B -> M T C) s :
  ((m ≫= k) ≫= k2) s = (m ≫= (fun x => k x ≫= k2)) s.
Proof. unfold mbind, M_bind. by destruct (m s) as [[s1 a]| |]. Qed.

Lemma bind_ext {A B} (m : M T A) (k k' : A -> M T B) s : (forall a s, k a s = k' a s) -> (m ≫= k) s = (m ≫= k') s.
Proof. intros H. unfold mbind, M_bind. destruct (m s) as [[s1 a]| |]; cbn; [apply H|done|done]. Qed.

(** The successor [y] of [z] leaves its place to its right child [x]. *)
Definition detach (z y x : nat) : M T () :=
  py ← get parent y;
  if (py =? z)%nat then set_parent x y
  else
    _ ← Transplant y x;
    zr ← get right z;
    _ ← set_right y zr;
    yr ← get right y;
    set_parent yr y.

(** The places of the addresses around [z] and its successor. *)
Lemma successor_addrs ctx ctx2 cz zl (z : nat) (vz : T) cy y vy yr :
  addrs (zip ctx (Br cz zl z vz (zip ctx2 (Br cy Leaf y vy yr)))) ≡ₚ z :: y :: addrs zl ++ addrs (zip ctx2 yr) ++ caddrs ctx.
Proof.
  rewrite addrs_zip. cbn. rewrite !addrs_zip. cbn. constructor. rewrite <- Permutation_middle. cbn. constructor. by rewrite <- !app_assoc.
Qed.

(** The successor is the right child itself. *)
Lemma detach_near ctx cz zl z vz cy y vy yr s np fr :
  rep s np fr (zip ctx (Br cz zl z vz (Br cy Leaf y vy yr))) -> zl <> Leaf ->
  exists s', detach z y (root yr) s = Ok (s', ()) /\
    detached nil s' (match yr with Leaf => y | _ => np end) fr ctx z cz zl y vy yr.
Proof.
  intros [Hs Hd Hn Hsen Hnil Hroot Hdom Hfr] Hleaf. pose proof (successor_addrs ctx [] cz zl z vz cy y vy yr) as Hp. cbn [zip] in Hp.
  rewrite Hp in Hd, Hn. apply sub_zip in Hs as [(Ez & Hzl & (Ey & _ & Hyr)) Hc]. rewrite root_zip in Hroot. cbn [RedBlackHeap.root] in *.
  assert (Hdom2 : forall a, is_Some (heap s !! a) <-> a = nil \/ a ∈ z :: y :: addrs zl ++ addrs yr ++ caddrs ctx) by (intros a; by rewrite Hdom, Hp).
  unfold detach. rewrite (bind_ok _ _ _ _ _ (get_ok parent _ _ _ Ey)). cbn [parent]. rewrite Nat.eqb_refl.
  destruct yr as [|cr rl r vr rr]; cbn [RedBlackHeap.root] in *.
  - rewrite (set_parent_ok _ _ _ _ _ _ _ _ Hsen). eexists. split; [done|].
    pose proof (only_store s nil (mkNode None BLACK nil nil y) _ Hsen) as O. set (s' := with_store _ _ _) in *.
    assert (Hne : forall a, a ∈ z :: y :: addrs zl ++ caddrs ctx -> heap s' !! a = heap s !! a).
    { intros a Ha. apply (proj1 O). rewrite list_elem_of_singleton. intros ->. exact (Hn Ha). }
    split; try done.
    + exists vz, y. rewrite Hne by apply list_elem_of_here. done.
    + exists cy, z. rewrite Hne by (apply elem_of_cons; right; apply list_elem_of_here). done.
    + apply (sub_frame nil (heap s)); [done|]. intros a Ha. apply Hne. set_solver.
    + apply (csub_frame nil (heap s)); [done|]. intros a Ha. apply Hne. set_solver.
    + apply lookup_store.
    + intros a. rewrite (proj1 (proj2 O)). apply Hdom2.
    + split; [apply Hfr|]. intros a. rewrite (proj1 (proj2 O)). apply Hfr.
  - destruct Hyr as (Er & Hrl & Hrr). rewrite (set_parent_ok _ _ _ _ _ _ _ _ Er).
    replace (with_store s r _) with s.
    + exists s. split; [done|]. split; try done; eauto.
    + unfold with_store. rewrite insert_id by done. by destruct s.
Qed.

(** The successor lies deeper: it first takes over the right subtree of [z]. *)
Lemma detach_far ctx f ctx2 cz zl z vz cy y vy yr s np fr :
  rep s np fr (zip ctx (Br cz zl z vz (zip (f :: ctx2) (Br cy Leaf y vy yr)))) -> zl <> Leaf ->
  exists s', detach z y (root yr) s = Ok (s', ()) /\
    detached nil s' (match yr with Leaf => up nil (f :: ctx2) | _ => np end) fr ctx z cz zl y vy (zip (f :: ctx2) yr).
Proof.
  intros [Hs Hd Hn Hsen Hnil Hroot Hdom Hfr] Hleaf. pose proof (successor_addrs ctx (f :: ctx2) cz zl z vz cy y vy yr) as Hp.
  rewrite Hp in Hd, Hn. apply sub_zip in Hs as [Hz Hc]. rewrite root_zip in Hroot. cbn [RedBlackHeap.root] in *.
  assert (Hdom2 : forall a, is_Some (heap s !! a) <-> a = nil \/ a ∈ z :: y :: addrs zl ++ addrs (zip (f :: ctx2) yr) ++ caddrs ctx) by (intros a; by rewrite Hdom, Hp).
  clear Hp Hdom. pose proof Hz as (_ & Hzl0 & Hzr). cbn in Hz. destruct Hz as (Ez0 & _ & _).
  set (ctx' := F R cz z vz zl :: ctx).
  assert (Hy : sub nil (heap s) (up nil ((f :: ctx2) ++ ctx')) (Br cy Leaf y vy yr) /\ csub nil (heap s) ((f :: ctx2) ++ ctx') y).
  { change y with (root (Br cy Leaf y vy yr)) at 2. apply (csub_zip nil). split; [exact Hzr|]. split; [exact Ez0|by split]. }
  destruct Hy as [(Ey & _ & Hyr) Hcy].
  pose proof (addrs_zip (f :: ctx2) yr) as HpZ.
  assert (Hzip : forall x, x ∈ addrs (zip (f :: ctx2) yr) <-> x ∈ addrs yr \/ x ∈ caddrs (f :: ctx2)) by (intros x; by rewrite HpZ, elem_of_app).
  assert (Hperm : y :: addrs yr ++ caddrs ((f :: ctx2) ++ ctx') ≡ₚ z :: y :: addrs zl ++ addrs (zip (f :: ctx2) yr) ++ caddrs ctx).
  { rewrite HpZ, caddrs_app. unfold ctx'. cbn [caddrs]. solve_Permutation. }
  assert (Hpy : up nil ((f :: ctx2) ++ ctx') <> z).
  { intros E. assert (Hin : z ∈ addrs (zip (f :: ctx2) yr)) by (apply Hzip; right; rewrite <- E; destruct f; apply list_elem_of_here).
    apply list.NoDup_cons in Hd as [Hd _]. apply Hd. rewrite elem_of_cons, !elem_of_app. auto. }
  unfold detach. rewrite (bind_ok _ _ _ _ _ (get_ok parent _ _ _ Ey)). cbn [parent]. rewrite (proj2 (Nat.eqb_neq _ _) Hpy).
  destruct (Transplant_ok nil _ y _ yr y np s Hcy Ey eq_refl Hyr Hsen Hnil) as (s1 & E1 & Hc1 & Hyr1 & O1 & R1 & Hsen1); [by rewrite Hperm|by rewrite Hperm|].
  rewrite (bind_ok _ _ _ _ _ E1). destruct (proj1 (csub_zip nil _ _ _ _) (conj Hyr1 Hc1)) as [HZ1 (Ez1 & Hzl1 & Hc1')].
  cbn [up ctx'] in HZ1. set (Z := zip (f :: ctx2) yr) in *. clear Hc1 Hyr1 Hcy Hyr.
  rewrite (bind_ok _ _ _ _ _ (get_ok right _ _ _ Ez1)). cbn [right cell].
  assert (Hyin : (y ∉ addrs zl ++ addrs Z ++ caddrs ctx) /\ z <> y /\ (z ∉ addrs Z)).
  { apply list.NoDup_cons in Hd as [Hz Hd]. apply list.NoDup_cons in Hd as [Hy _]. not_in. }
  destruct Hyin as (Hyin & Hzy & HzZ). assert (HyX : y ∉ nil :: addrs yr ++ caddrs ((f :: ctx2) ++ ctx')).
  { rewrite elem_of_cons. intros [->|Hin]; [apply Hn; apply elem_of_cons; right; apply list_elem_of_here|].
    rewrite <- Hperm in Hd. apply list.NoDup_cons in Hd as [Hd _]. done. }
  assert (Ey1 : heap s1 !! y = Some (mkNode (Some vy) cy nil (root yr) (up nil ((f :: ctx2) ++ ctx')))) by (by rewrite (proj1 O1)).
  set (n2 := mkNode (Some vy) cy nil (root Z) (up nil ((f :: ctx2) ++ ctx'))). set (s2 := with_store s1 y n2).
  rewrite (bind_ok _ _ s1 s2 ()) by (unfold set_right; by rewrite (store_ok _ _ _ _ Ey1)).
  pose proof (only_store s1 y n2 _ Ey1 : only [y] s1 s2) as O2. rewrite (bind_ok _ _ _ _ _ (get_ok right _ _ _ (lookup_store s1 y n2))). cbn [right n2].
  apply list.NoDup_cons in Hd as Hd1. destruct Hd1 as [_ [_ Hd1]%list.NoDup_cons]. apply list.NoDup_app in Hd1 as (_ & HlZ & Hd1).
  apply list.NoDup_app in Hd1 as (HdZ & HZc & _). rewrite !not_elem_of_cons, !not_elem_of_app in Hn. rewrite !not_elem_of_app in Hyin.
  destruct (reparent_ok nil z y Z s2) as (s3 & E3 & HZ3 & O3 & R3); [apply (sub_only nil _ _ _ _ _ O2 HZ1); set_solver|done|tauto|].
  assert (HZl : root Z <> nil).
  { intros E. assert (Hin : root Z ∈ addrs Z) by (apply root_elem; unfold Z; intros E0; pose proof (Permutation_length HpZ) as El; fold Z in El; unfold Z in El; rewrite E0 in El; destruct f; cbn in El; rewrite length_app in El; cbn in El; lia).
    rewrite E in Hin. tauto. }
  exists s3. split; [unfold reparent in E3; by rewrite (proj2 (Nat.eqb_neq _ _) HZl) in E3|].
  pose proof (only_trans _ _ _ _ _ O2 O3) as O23. pose proof (only_trans _ _ _ _ _ O1 O23) as (_ & Od & On & Of).
  assert (Hkeep : forall a, a ∉ [y] ++ addrs Z -> heap s3 !! a = heap s1 !! a) by (intros a Ha; by apply (proj1 O23)).
  split.
  - exists vz, (root Z). rewrite Hkeep by set_solver. exact Ez1.
  - exists cy, (up nil ((f :: ctx2) ++ ctx')). rewrite (proj1 O3) by tauto. apply lookup_store.
  - apply (sub_only nil _ _ _ _ _ O23 Hzl1). set_solver.
  - exact HZ3.
  - apply (csub_only nil _ _ _ _ _ O23 Hc1'). set_solver.
  - done.
  - exact Hd.
  - rewrite !not_elem_of_cons, !not_elem_of_app. tauto.
  - rewrite Hkeep by set_solver. rewrite Hsen1. by destruct yr.
  - by rewrite On.
  - rewrite R3. change (root_ s2) with (root_ s1). rewrite R1. cbn [app]. done.
  - intros a. rewrite Od. apply Hdom2.
  - rewrite Of. split; [apply Hfr|]. intros a. rewrite Od. apply Hfr.
Qed.

(** ** The balance of what is left *)

Lemma crb_rename (ctx1 : list (frame (T := T))) d c a v a' v' sib ctx pc n :
  crb (ctx1 ++ F d c a v sib :: ctx) pc n -> crb (ctx1 ++ F d c a' v' sib :: ctx) pc n.
Proof.
  revert pc n. induction ctx1 as [|f ctx1 IH]; intros pc n H; cbn [app] in *.
  - inversion H; subst; by econstructor.
  - inversion H; subst.
    + econstructor; [by apply IH|done].
    + destruct ctx1 as [|f1 ctx1]; cbn [app] in *; simplify_eq; (constructor; [by apply IH|done]).
Qed.

(** A node without a left child (seen from side [d]) leaves its place to the other one. *)
Lemma repair_ok d ctx c a v (V : tree (T := T)) s np fr pc n :
  rep s (match V with Leaf => up nil ctx | _ => np end) fr (zip ctx V) ->
  crb ctx pc n -> rb (br d c Leaf a v V) c n -> fits_under pc c -> (ctx = [] -> c = BLACK) ->
  exists np', recolored nil np' fr (zip ctx V) ((if is_black c then FixDelete (root V) else mret ()) s).
Proof.
  intros H Hc Hb Hf Hr. eexists. apply rb_br_inv in Hb as [_ Hb]. destruct c; cbn [is_black is_red negb].
  - destruct Hb as [_ HV]. exists s, (zip ctx V). split; [done|]. split; [exact H|]. split; [done|]. by eapply zip_rb_black.
  - destruct Hb as (m & c1 & c2 & -> & Hl & HV). inversion Hl; subst c1 m. eapply FixDelete_ok; [exact H|by intros ->| |done].
    destruct c2; [right|left; split; [by eapply rb_color|done]]. inversion HV; subst. split; [done|]. cbn. by econstructor.
Qed.

Definition take_successor (z zr : nat) : M T (nat * NodeColor) :=
  y ← Minimum zr;
  originalColor ← get color y;
  x ← get right y;
  _ ← detach z y x;
  _ ← take_place z y;
  mret (x, originalColor).

Lemma bind_inv {A B} (m : M T A) (k : A -> M T B) s r : (m ≫= k) s = Ok r -> exists s1 a, m s = Ok (s1, a) /\ k a s1 = Ok r.
Proof. unfold mbind, M_bind. destruct (m s) as [[s1 a]| |] eqn:E; cbn; [|done|done]. intros H. by exists s1, a. Qed.

(** What a removal leaves. *)
Definition removed (fr z : nat) (vz : T) (old : tree) (r : res (RedBlackTree2 T * ())) : Prop :=
  exists l1 l2 t np, inorder old = l1 ++ (z, vz) :: l2 /\ inorder t = l1 ++ l2 /\ recolored nil np fr t r.

Lemma removed_intro d ctx c a v (V : tree (T := T)) s np fr m z vz old l1 l2 :
  rep s (match V with Leaf => up nil ctx | _ => np end) fr (zip ctx V) ->
  rb (zip ctx (br d c Leaf a v V)) BLACK m ->
  inorder old = l1 ++ (z, vz) :: l2 -> inorder (zip ctx V) = l1 ++ l2 ->
  removed fr z vz old ((if is_black c then FixDelete (root V) else mret ()) s).
Proof.
  intros H Hb E1 E2. destruct (unzip_rb _ _ _ Hb) as (pc & c' & n & Hc & Hb' & Hf & Hr).
  pose proof (rb_br_inv _ _ _ _ _ _ _ _ Hb') as [<- _].
  destruct (repair_ok d ctx c a v V s np fr pc n H Hc Hb' Hf Hr) as [np' Hrec]. by exists l1, l2, (zip ctx V), np'.
Qed.

(** A node without a child on side [d]. *)
Lemma single_ok d ctx c z vz (V : tree (T := T)) s np fr m :
  rep s np fr (zip ctx (br d c Leaf z vz V)) -> rb (zip ctx (br d c Leaf z vz V)) BLACK m ->
  exists s1 s2 : RedBlackTree2 T, Transplant z (root V) s = Ok (s1, ()) /\ delete_node z s1 = Ok (s2, ()) /\ removed fr z vz (zip ctx (br d c Leaf z vz V)) ((if is_black c then FixDelete (root V) else mret ()) s2).
Proof.
  intros H Hb. destruct (splice_ok nil d ctx c z vz V s np fr H) as (s2 & E & H2).
  apply bind_inv in E as (s1 & [] & E1 & E2). exists s1, s2. split; [done|]. split; [done|].
  destruct d.
  - apply (removed_intro L ctx c z vz V s2 np fr m z vz _ (precede ctx) (inorder V ++ follow ctx)); [done|done|by rewrite inorder_around|by rewrite inorder_around].
  - apply (removed_intro R ctx c z vz V s2 np fr m z vz _ (precede ctx ++ inorder V) (follow ctx)); [done|done| |]; rewrite inorder_around; same_order.
Qed.

(** The node [z] with two children is gone, its successor in its place. *)
Lemma successor_ok ctx cz zl z vz zr s np fr m :
  rep s np fr (zip ctx (Br cz zl z vz zr)) -> rb (zip ctx (Br cz zl z vz zr)) BLACK m -> zl <> Leaf -> zr <> Leaf ->
  exists x oc (s1 s2 : RedBlackTree2 T), take_successor z (root zr) s = Ok (s1, (x, oc)) /\ delete_node z s1 = Ok (s2, ()) /\ removed fr z vz (zip ctx (Br cz zl z vz zr)) ((if is_black oc then FixDelete x else mret ()) s2).
Proof.
  intros H Hb Hl Hr. set (cr := F R cz z vz zl :: ctx). pose proof (rep_view _ _ _ _ H : view nil s (zip cr zr)) as Hv.
  destruct (Minimum_loop_ok nil (base.size (heap s)) cr zr s Hv Hr) as (ctx2 & cy & y & vy & yr & -> & Hleft & Em).
  { rewrite (rep_size _ _ _ _ _ H), addrs_zip. cbn. rewrite !length_app. lia. }
  assert (Ey : heap s !! y = Some (mkNode (Some vy) cy nil (root yr) (up nil (ctx2 ++ cr)))).
  { change (zip ctx (Br cz zl z vz (zip ctx2 (Br cy Leaf y vy yr)))) with (zip cr (zip ctx2 (br L cy Leaf y vy yr))) in H.
    rewrite <- zip_app in H. apply (read_at nil _ _ _ _ _ _ _ _ _ _ H). }
  set (cr' := F R cz y vy zl :: ctx).
  assert (Hd : exists s1, detach z y (root yr) s = Ok (s1, ()) /\ detached nil s1 (match yr with Leaf => up nil (ctx2 ++ cr') | _ => np end) fr ctx z cz zl y vy (zip ctx2 yr)).
  { destruct ctx2 as [|f ctx2]; [exact (detach_near _ _ _ _ _ _ _ _ _ _ _ _ H Hl)|].
    destruct (detach_far _ _ _ _ _ _ _ _ _ _ _ _ _ _ H Hl) as (s1 & E1 & H1). exists s1. split; [done|]. by destruct f. }
  destruct Hd as (s1 & E1 & H1). destruct (take_place_ok nil _ _ _ _ _ _ _ _ _ _ H1) as (s3 & E & H3).
  apply bind_inv in E as (s2 & [] & E2 & E3). exists (root yr), cy, s2, s3. split; [|split; [done|]].
  - unfold take_successor. rewrite (bind_ok _ _ s s y) by exact Em. rewrite (bind_ok _ _ _ _ _ (get_ok color _ _ _ Ey)), (bind_ok _ _ _ _ _ (get_ok right _ _ _ Ey)).
    cbn [right color]. rewrite (bind_ok _ _ _ _ _ E1), (bind_ok _ _ _ _ _ E2). done.
  - change (zip ctx (Br cz zl y vy (zip ctx2 yr))) with (zip cr' (zip ctx2 yr)) in H3. rewrite <- zip_app in H3.
    change (zip ctx (Br cz zl z vz (zip ctx2 (Br cy Leaf y vy yr)))) with (zip cr (zip ctx2 (br L cy Leaf y vy yr))) in Hb |- *. rewrite <- zip_app in Hb |- *.
    destruct (unzip_rb _ _ _ Hb) as (pc & c' & n & Hc & Hb' & Hf & Hrt). apply crb_rename with (a' := y) (v' := vy) in Hc. fold cr' in Hc.
    pose proof (rb_br_inv _ _ _ _ _ _ _ _ Hb') as [<- _].
    destruct (repair_ok L (ctx2 ++ cr') cy y vy yr s3 np fr pc n H3 Hc Hb' Hf) as [np' Hrec]; [by destruct ctx2|].
    exists (precede ctx ++ inorder zl), ((y, vy) :: inorder yr ++ follow ctx2 ++ follow ctx), (zip (ctx2 ++ cr') yr), np'.
    split; [|split; [|done]]; rewrite zip_app; cbn [zip cr cr']; rewrite inorder_around; cbn [inorder br]; rewrite inorder_around, (leftmost_first ctx2 Hleft); same_order.
Qed.

Lemma take_successor_code z zr (s : RedBlackTree2 T) :
  (y ← Minimum zr;
   originalColor ← get color y;
   x ← get right y;
   py ← get parent y;
   _ ← (if (py =? z)%nat then set_parent x y
        else
          _ ← Transplant y x;
          zr ← get right z;
          _ ← set_right y zr;
          yr ← get right y;
          set_parent yr y);
   _ ← Transplant z y;
   zl ← get left z;
   _ ← set_left y zl;
   yl ← get left y;
   _ ← set_parent yl y;
   zc ← get color z;
   _ ← set_color y zc;
   mret (x, originalColor)) s = take_successor z zr s.
Proof.
  unfold take_successor. do 3 (apply bind_ext; intros ? ?). unfold detach. rewrite bind_assoc. apply bind_ext; intros py ?.
  apply bind_ext; intros [] ?. unfold take_place. repeat (rewrite bind_assoc; apply bind_ext; intros ? ?). apply bind_ext. by intros [] ?.
Qed.

End Detach.

(** ** Erase *)

Section Erase.

#[local] Set Default Proof Using "Type*".

Context {T : Type} (nil : nat) (less_than equals : T -> T -> bool) `{!Comparator less_than equals}.

Abbreviation rep := (rep (T := T) nil).
Abbreviation root := (root (T := T) nil).

Lemma inorder_split (t : tree (T := T)) e : e ∈ inorder t -> exists ctx c l r, t = zip ctx (Br c l e.1 e.2 r).
Proof using Type.
  induction t as [|c l IHl a v r IHr]; cbn; [by intros ?%not_elem_of_nil|]. intros [H|[->|H]%elem_of_cons]%elem_of_app.
  - destruct (IHl H) as (ctx & c' & l' & r' & ->). exists (ctx ++ [F L c a v r]), c', l', r'. by rewrite zip_app.
  - by exists [], c, l, r.
  - destruct (IHr H) as (ctx & c' & l' & r' & ->). exists (ctx ++ [F R c a v l]), c', l', r'. by rewrite zip_app.
Qed.

Lemma remove_entry_app l1 (e : nat * T) l2 v :
  ordered less_than (l1 ++ e :: l2) -> equals v e.2 = true -> remove_entry equals v (l1 ++ e :: l2) = l1 ++ l2.
Proof.
  intros Ho E. pose proof Ho as (_ & [H2 _] & H1)%(ordered_app less_than). unfold remove_entry.
  assert (Hkeep : forall l : list (nat * T), (forall e', e' ∈ l -> equals v e'.2 = false) -> filter (fun e : nat * T => equals v e.2 = false) l = l).
  { induction l as [|e' l IH]; intros H; [done|]. rewrite list.filter_cons_True by (apply H, list_elem_of_here). f_equal. apply IH. intros e2 He. apply H. by apply elem_of_cons; right. }
  rewrite list.filter_app, list.filter_cons_False by congruence. rewrite !Hkeep; [done|..].
  - intros e' He. apply (lt_not_equals less_than equals v e'.2). eapply cmp_equals_l; [done|by apply H2].
  - intros e' He. apply (lt_not_equals less_than equals e'.2 v). eapply cmp_equals_r; [apply H1; [done|apply list_elem_of_here]|]. by rewrite (equals_sym less_than equals).
Qed.

(** The node [z] is found: the two outcomes of the surgery end [Erase] alike. *)
Lemma Erase_found s v z ctx cz zl vz zr np fr m :
  rep s np fr (zip ctx (Br cz zl z vz zr)) -> rb (zip ctx (Br cz zl z vz zr)) BLACK m ->
  SearchTree less_than equals (root (zip ctx (Br cz zl z vz zr))) v s = Ok (s, z) ->
  exists (s' : RedBlackTree2 T) (r : M T ()), Erase less_than equals v s = (_ ← r; mret true) s' /\ removed nil fr z vz (zip ctx (Br cz zl z vz zr)) (r s').
Proof.
  intros H Hb Es. unfold Erase. rewrite (bind_ok _ _ _ _ _ (get_nil_ok _ _ _ _ _ H)), (bind_ok _ _ _ _ _ (get_root_ok _ _ _ _ _ H)), (bind_ok _ _ _ _ _ Es).
  pose proof (rep_view _ _ _ _ H : view nil s (zip ctx _)) as Hv. destruct (view_at _ _ _ _ _ _ _ Hv) as [Ez Hz]. rewrite (proj2 (Nat.eqb_neq _ _) Hz).
  rewrite (get_left_at _ _ _ _ _ _ _ _ Hv), (get_right_at _ _ _ _ _ _ _ _ Hv).
  assert (Hnn : forall c l a (w : T) r, (Br c l a w r = zl \/ Br c l a w r = zr) -> (a =? nil)%nat = false).
  { intros c l a w r Ht. apply Nat.eqb_neq. intros ->. apply (rep_nil _ _ _ _ _ H). rewrite addrs_zip. cbn. destruct Ht as [<-|<-]; cbn; set_solver. }
  assert (Hend : forall x oc s1 s2 (m0 : M T (nat * NodeColor)), m0 s = Ok (s1, (x, oc)) -> delete_node z s1 = Ok (s2, ()) ->
    removed nil fr z vz (zip ctx (Br cz zl z vz zr)) ((if is_black oc then FixDelete x else mret ()) s2) ->
    exists (s' : RedBlackTree2 T) (r : M T ()), ('(x, originalColor) ← m0; _ ← delete_node z; _ ← (if is_black originalColor then FixDelete x else mret ()); mret true) s = (_ ← r; mret true) s' /\
      removed nil fr z vz (zip ctx (Br cz zl z vz zr)) (r s')).
  { intros x oc s1 s2 m0 E1 E2 Hr. rewrite (bind_ok _ _ _ _ _ E1), (bind_ok _ _ _ _ _ E2). by exists s2, (if is_black oc then FixDelete x else mret ()). }
  destruct zl as [|cl ll al vl lr]; [|destruct zr as [|cr rl ar vr rr]]; cbn [RedBlackHeap.root].
  - rewrite Nat.eqb_refl. destruct (single_ok nil L ctx cz z vz zr s np fr m H Hb) as (s1 & s2 & E1 & E2 & Hr).
    eapply Hend; [|exact E2|exact Hr]. rewrite (bind_ok _ _ _ _ _ (get_ok color _ _ _ Ez)), (bind_ok _ _ _ _ _ E1). done.
  - rewrite (Hnn cl ll al vl lr) by auto. rewrite Nat.eqb_refl.
    destruct (single_ok nil R ctx cz z vz (Br cl ll al vl lr) s np fr m H Hb) as (s1 & s2 & E1 & E2 & Hr).
    eapply Hend; [|exact E2|exact Hr]. rewrite (bind_ok _ _ _ _ _ (get_ok color _ _ _ Ez)), (bind_ok _ _ _ _ _ E1). done.
  - rewrite (Hnn cl ll al vl lr), (Hnn cr rl ar vr rr) by auto.
    destruct (successor_ok nil ctx cz _ z vz _ s np fr m H Hb) as (x & oc & s1 & s2 & E1 & E2 & Hr); [done|done|].
    eapply Hend; [|exact E2|exact Hr]. rewrite take_successor_code. exact E1.
Qed.

Lemma Erase_ok s np fr t v m :
  rep s np fr t -> ordered less_than (inorder t) -> rb t BLACK m ->
  match lookup_entry equals v (inorder t) with
  | None => Erase less_than equals v s = Ok (s, false)
  | Some _ => exists s' t' np' m', Erase less_than equals v s = Ok (s', true) /\ rep s' np' fr t' /\
      inorder t' = remove_entry equals v (inorder t) /\ rb t' BLACK m'
  end.
Proof.
  intros H Ho Hb. pose proof (SearchTree_ok nil less_than equals s np fr t v H Ho) as Es.
  destruct (lookup_entry equals v (inorder t)) as [[z vz]|] eqn:El.
  - destruct (lookup_nonnil nil less_than equals t v _ El (rep_nil _ _ _ _ _ H)) as [_ Hin].
    destruct (inorder_split t _ Hin) as (ctx & cz & zl & zr & ->). cbn [fst snd] in *.
    destruct (Erase_found s v z ctx cz zl vz zr np fr m H Hb Es) as (s1 & r & -> & l1 & l2 & t & np' & E1 & E2 & s2 & t2 & Er & H2 & I2 & m2 & B2).
    rewrite (bind_ok _ _ _ _ _ Er). exists s2, t2, np', m2. split; [done|]. split; [done|]. split; [|done].
    rewrite I2, E2, E1. symmetry. rewrite E1 in Ho. apply (remove_entry_app _ (z, vz)); [done|]. apply List.find_some in El. by destruct El.
  - unfold Erase. rewrite (bind_ok _ _ _ _ _ (get_nil_ok _ _ _ _ _ H)), (bind_ok _ _ _ _ _ (get_root_ok _ _ _ _ _ H)), (bind_ok _ _ _ _ _ Es).
    by rewrite Nat.eqb_refl.
Qed.

End Erase.
