(* ===== verification/RedBlackWalk.v ===== *)
(** * Walks over base::RedBlackTree2

    The neighbours of a node, the bounds of a value, and the operations on whole trees:
    [Clear], destruction and the copy. *)

From stdpp Require Import gmap sorting.
From S2P Require Import Prelude Memory RedBlackTree RedBlackHeap RedBlackInsert RedBlackErase.

Set Default Proof Using "Type".
Set Warnings "-clear-no-such-hyp".

Section Neighbours.

Context {T : Type} (nil : nat).

Abbreviation rep := (rep (T := T) nil).
Abbreviation root := (root (T := T) nil).
Abbreviation view := (view (T := T) nil).

(** The address of the first and of the last of some entries. *)
Definition first_of (l : list (nat * T)) : nat := match l with [] => nil | e :: _ => e.1 end.
Definition last_of (l : list (nat * T)) : nat := first_of (reverse l).

Lemma first_of_app l1 l2 : first_of (l1 ++ l2) = match l1 with [] => first_of l2 | e :: _ => e.1 end.
Proof. by destruct l1. Qed.

Lemma last_of_app l1 l2 : last_of (l1 ++ l2) = match l2 with [] => last_of l1 | _ => last_of l2 end.
Proof. unfold last_of. rewrite reverse_app, first_of_app. destruct l2 as [|e l2]; [done|]. rewrite reverse_cons. by destruct (reverse l2). Qed.

Lemma last_of_snoc l e : last_of (l ++ [e]) = e.1.
Proof. by rewrite last_of_app. Qed.

Lemma fuel_view ctx t s np fr : rep s np fr (zip ctx t) -> (length (addrs t) < base.size (heap s))%nat.
Proof. intros H. rewrite (rep_size _ _ _ _ _ H), addrs_zip, length_app. lia. Qed.

Lemma Minimum_ok ctx (t : tree (T := T)) s np fr :
  rep s np fr (zip ctx t) -> t <> Leaf -> Minimum (root t) s = Ok (s, first_of (inorder t)).
Proof.
  intros H Hne. unfold Minimum. rewrite (bind_ok _ _ s s (base.size (heap s))) by done.
  destruct (Minimum_loop_ok nil (base.size (heap s)) ctx t s) as (ctx2 & c & y & vy & yr & -> & Hl & ->); [by eapply rep_view|done|by eapply fuel_view|].
  rewrite inorder_around, (leftmost_first ctx2 Hl). done.
Qed.

Lemma Maximum_loop_ok fuel ctx (t : tree (T := T)) s :
  view s (zip ctx t) -> t <> Leaf -> (length (addrs t) < fuel)%nat -> Maximum_loop fuel (root t) s = Ok (s, last_of (inorder t)).
Proof.
  revert ctx t. induction fuel as [|fuel IH]; intros ctx t H Hne Hf; [lia|]. destruct t as [|c l a v r]; [done|].
  cbn [Maximum_loop RedBlackHeap.root]. rewrite (get_nil_at _ _ _ H), (get_right_at _ _ _ _ _ _ _ _ H).
  cbn [addrs length] in Hf. rewrite length_app in Hf. destruct r as [|cr rl ar vr rr].
  - cbn [RedBlackHeap.root inorder]. by rewrite Nat.eqb_refl, last_of_snoc.
  - destruct (view_at _ (F R c a v l :: ctx) _ _ _ _ _ H) as [_ Ha]. cbn [RedBlackHeap.root]. rewrite (proj2 (Nat.eqb_neq ar nil) Ha).
    etransitivity; [apply (IH (F R c a v l :: ctx) (Br cr rl ar vr rr) H); [done|lia]|].
    change (inorder (Br c l a v (Br cr rl ar vr rr))) with (inorder l ++ [(a, v)] ++ inorder (Br cr rl ar vr rr)).
    rewrite app_assoc, (last_of_app (inorder l ++ _)). cbn [inorder]. by destruct (inorder rl).
Qed.

Lemma Maximum_ok ctx (t : tree (T := T)) s np fr :
  rep s np fr (zip ctx t) -> t <> Leaf -> Maximum (root t) s = Ok (s, last_of (inorder t)).
Proof.
  intros H Hne. unfold Maximum. rewrite (bind_ok _ _ s s (base.size (heap s))) by done.
  apply (Maximum_loop_ok _ ctx); [by eapply rep_view|done|by eapply fuel_view].
Qed.

(** The climb out of a right spine: to the first ancestor on whose left the node lies. *)
Lemma up_from_right_ok fuel ctx (t : tree (T := T)) s np fr :
  rep s np fr (zip ctx t) -> t <> Leaf -> (length ctx < fuel)%nat -> up_from_right fuel (root t) (up nil ctx) s = Ok (s, first_of (follow ctx)).
Proof.
  revert ctx t. induction fuel as [|fuel IH]; intros ctx t H Hne Hf; [lia|]. cbn [up_from_right].
  rewrite (bind_ok _ _ _ _ _ (get_nil_ok _ _ _ _ _ H)). destruct ctx as [|[d c a v sib] ctx]; cbn [up]; [by rewrite Nat.eqb_refl|].
  change (zip (F d c a v sib :: ctx) t) with (zip ctx (br d c t a v sib)) in H.
  destruct (focus_apart nil _ _ _ _ _ _ _ _ _ _ H) as (Ha & _ & _ & Hlr & _). specialize (Hlr Hne). rewrite (proj2 (Nat.eqb_neq a nil) Ha).
  rewrite (bind_ok _ _ _ _ _ (get_ok right _ _ _ (read_at _ _ _ _ _ _ _ _ _ _ _ H))). cbn [length] in Hf. destruct d; cbn [cell right follow app].
  - by rewrite (proj2 (Nat.eqb_neq _ _) Hlr).
  - rewrite Nat.eqb_refl. rewrite (bind_ok _ _ _ _ _ (get_ok parent _ _ _ (read_at _ _ _ _ _ _ _ _ _ _ _ H))). cbn [cell parent].
    rewrite <- (root_br nil R c t a v sib) at 1. apply IH; [done|done|lia].
Qed.

Lemma up_from_left_ok fuel ctx (t : tree (T := T)) s np fr :
  rep s np fr (zip ctx t) -> t <> Leaf -> (length ctx < fuel)%nat -> up_from_left fuel (root t) (up nil ctx) s = Ok (s, last_of (precede ctx)).
Proof.
  revert ctx t. induction fuel as [|fuel IH]; intros ctx t H Hne Hf; [lia|]. cbn [up_from_left].
  rewrite (bind_ok _ _ _ _ _ (get_nil_ok _ _ _ _ _ H)). destruct ctx as [|[d c a v sib] ctx]; cbn [up]; [by rewrite Nat.eqb_refl|].
  change (zip (F d c a v sib :: ctx) t) with (zip ctx (br d c t a v sib)) in H.
  destruct (focus_apart nil _ _ _ _ _ _ _ _ _ _ H) as (Ha & _ & _ & Hlr & _). specialize (Hlr Hne). rewrite (proj2 (Nat.eqb_neq a nil) Ha).
  rewrite (bind_ok _ _ _ _ _ (get_ok left _ _ _ (read_at _ _ _ _ _ _ _ _ _ _ _ H))). cbn [length] in Hf. destruct d; cbn [cell left precede].
  - rewrite Nat.eqb_refl, app_nil_r. rewrite (bind_ok _ _ _ _ _ (get_ok parent _ _ _ (read_at _ _ _ _ _ _ _ _ _ _ _ H))). cbn [cell parent].
    rewrite <- (root_br nil L c t a v sib) at 1. apply IH; [done|done|lia].
  - by rewrite (proj2 (Nat.eqb_neq _ _) Hlr), app_assoc, last_of_snoc.
Qed.

(** The neighbours of the node at a place. *)
Lemma Successor_ok ctx c l a v r s np fr :
  rep s np fr (zip ctx (Br c l a v r)) -> Successor a s = Ok (s, first_of (inorder r ++ follow ctx)).
Proof.
  intros H. unfold Successor. pose proof (rep_view _ _ _ _ H : view s _) as Hv.
  rewrite (get_nil_at _ _ _ Hv), (get_right_at _ _ _ _ _ _ _ _ Hv). destruct r as [|cr rl ar vr rr]; cbn [RedBlackHeap.root].
  - rewrite Nat.eqb_refl. cbn [negb]. rewrite (bind_ok _ _ _ _ _ (get_ok parent _ _ _ (proj1 (view_at _ _ _ _ _ _ _ Hv)))).
    rewrite (bind_ok _ _ s s (base.size (heap s))) by done. cbn [parent]. apply (up_from_right_ok _ ctx (Br c l a v Leaf) s np fr H); [done|].
    by eapply ctx_size.
  - destruct (view_at _ (F R c a v l :: ctx) _ _ _ _ _ Hv) as [_ Ha]. rewrite (proj2 (Nat.eqb_neq ar nil) Ha). cbn [negb].
    etransitivity; [apply (Minimum_ok (F R c a v l :: ctx) (Br cr rl ar vr rr) s np fr H); done|]. rewrite first_of_app. cbn [inorder]. by destruct (inorder rl).
Qed.

Lemma Predecessor_ok ctx c l a v r s np fr :
  rep s np fr (zip ctx (Br c l a v r)) -> Predecessor a s = Ok (s, last_of (precede ctx ++ inorder l)).
Proof.
  intros H. unfold Predecessor. pose proof (rep_view _ _ _ _ H : view s _) as Hv. rewrite (get_nil_at _ _ _ Hv).
  destruct (view_at _ _ _ _ _ _ _ Hv) as [E Ha]. rewrite (proj2 (Nat.eqb_neq a nil) Ha), (get_left_at _ _ _ _ _ _ _ _ Hv).
  destruct l as [|cl ll al vl lr]; cbn [RedBlackHeap.root].
  - rewrite Nat.eqb_refl. cbn [negb]. rewrite (bind_ok _ _ _ _ _ (get_ok parent _ _ _ E)).
    rewrite (bind_ok _ _ s s (base.size (heap s))) by done. cbn [parent inorder]. rewrite app_nil_r.
    apply (up_from_left_ok _ ctx (Br c Leaf a v r) s np fr H); [done|]. by eapply ctx_size.
  - destruct (view_at _ (F L c a v r :: ctx) _ _ _ _ _ Hv) as [_ Hal]. rewrite (proj2 (Nat.eqb_neq al nil) Hal). cbn [negb].
    etransitivity; [apply (Maximum_ok (F L c a v r :: ctx) (Br cl ll al vl lr) s np fr H); done|]. rewrite last_of_app. cbn [inorder]. by destruct (inorder ll).
Qed.

(** The last node, from the end. *)
Lemma Predecessor_end t s np fr : rep s np fr t -> Predecessor nil s = Ok (s, last_of (inorder t)).
Proof.
  intros H. unfold Predecessor, empty. rewrite (bind_ok _ _ _ _ _ (get_nil_ok _ _ _ _ _ H)), Nat.eqb_refl.
  rewrite (bind_ok _ _ s s (root t =? nil)%nat) by (by rewrite (bind_ok _ _ _ _ _ (get_root_ok _ _ _ _ _ H)), (bind_ok _ _ _ _ _ (get_nil_ok _ _ _ _ _ H))).
  destruct t as [|c l a v r]; cbn [RedBlackHeap.root]; [by rewrite Nat.eqb_refl|].
  assert (Ha : a <> nil) by (intros ->; apply (rep_nil _ _ _ _ _ H), list_elem_of_here). rewrite (proj2 (Nat.eqb_neq a nil) Ha).
  rewrite (bind_ok _ _ _ _ _ (get_root_ok _ _ _ _ _ H)). by apply (Maximum_ok [] (Br c l a v r) s np fr H).
Qed.

End Neighbours.

(** ** Bounds *)

Section Bounds.

#[local] Set Default Proof Using "Type*".

Context {T : Type} (nil : nat) (less_than equals : T -> T -> bool) `{!Comparator less_than equals}.

Abbreviation rep := (rep (T := T) nil).
Abbreviation root := (root (T := T) nil).
Abbreviation view := (view (T := T) nil).

Definition address (found : nat) (e : option (nat * T)) : nat := match e with Some e => e.1 | None => found end.

Definition not_less (v : T) (e : nat * T) : bool := negb (less_than e.2 v).
Definition greater (v : T) (e : nat * T) : bool := less_than v e.2.

Lemma find_app_address p (l1 l2 : list (nat * T)) found :
  address found (List.find p (l1 ++ l2)) = address (address found (List.find p l2)) (List.find p l1).
Proof using Type. induction l1 as [|e l1 IH]; cbn; [done|]. by destruct (p e). Qed.

Lemma LowerBound_loop_ok fuel ctx t found v s :
  view s (zip ctx t) -> ordered less_than (inorder t) -> (length (addrs t) < fuel)%nat ->
  LowerBound_loop less_than fuel (root t) found v s = Ok (s, address found (List.find (not_less v) (inorder t))).
Proof.
  revert ctx t found. induction fuel as [|fuel IH]; intros ctx t found H Ho Hf; [lia|]. cbn [LowerBound_loop]. rewrite (get_nil_at _ _ _ H).
  destruct t as [|c l a w r]; cbn [RedBlackHeap.root]; [by rewrite Nat.eqb_refl|].
  destruct (view_at _ _ _ _ _ _ _ H) as [_ Ha]. rewrite (proj2 (Nat.eqb_neq _ _) Ha), (get_value_at _ _ _ _ _ _ _ _ H).
  cbn [inorder addrs length] in *. rewrite length_app in Hf. pose proof Ho as (Hl & [_ Hr] & Hlr)%(ordered_app less_than).
  destruct (less_than w v) eqn:E.
  - rewrite (get_right_at _ _ _ _ _ _ _ _ H), (IH (F R c a w l :: ctx)) by (done || lia). rewrite find_app_none.
    + cbn; unfold not_less; cbn; by rewrite E.
    + intros e He. unfold not_less. apply negb_false_iff. eapply cmp_trans; [apply (Hlr e (a, w)); [done|apply list_elem_of_here]|done].
  - rewrite (get_left_at _ _ _ _ _ _ _ _ H), (IH (F L c a w r :: ctx)) by (done || lia). rewrite find_app_address. cbn; unfold not_less; cbn; by rewrite E.
Qed.

Lemma UpperBound_loop_ok fuel ctx t found v s :
  view s (zip ctx t) -> ordered less_than (inorder t) -> (length (addrs t) < fuel)%nat ->
  UpperBound_loop less_than fuel (root t) found v s = Ok (s, address found (List.find (greater v) (inorder t))).
Proof.
  revert ctx t found. induction fuel as [|fuel IH]; intros ctx t found H Ho Hf; [lia|]. cbn [UpperBound_loop]. rewrite (get_nil_at _ _ _ H).
  destruct t as [|c l a w r]; cbn [RedBlackHeap.root]; [by rewrite Nat.eqb_refl|].
  destruct (view_at _ _ _ _ _ _ _ H) as [_ Ha]. rewrite (proj2 (Nat.eqb_neq _ _) Ha), (get_value_at _ _ _ _ _ _ _ _ H).
  cbn [inorder addrs length] in *. rewrite length_app in Hf. pose proof Ho as (Hl & [_ Hr] & Hlr)%(ordered_app less_than).
  destruct (less_than v w) eqn:E.
  - rewrite (get_left_at _ _ _ _ _ _ _ _ H), (IH (F L c a w r :: ctx)) by (done || lia). rewrite find_app_address. cbn; unfold greater; cbn; by rewrite E.
  - rewrite (get_right_at _ _ _ _ _ _ _ _ H), (IH (F R c a w l :: ctx)) by (done || lia). rewrite find_app_none.
    + cbn; unfold greater; cbn; by rewrite E.
    + intros e He. unfold greater. destruct (less_than v e.2) eqn:D; [|done]. rewrite <- E. symmetry.
      eapply cmp_trans; [exact D|]. apply (Hlr e (a, w)); [done|apply list_elem_of_here].
Qed.

Lemma LowerBound_ok s np fr t v :
  rep s np fr t -> ordered less_than (inorder t) -> LowerBound less_than v s = Ok (s, address nil (List.find (not_less v) (inorder t))).
Proof.
  intros H Ho. unfold LowerBound. rewrite (bind_ok _ _ s s (base.size (heap s))) by done.
  rewrite (bind_ok _ _ _ _ _ (get_nil_ok _ _ _ _ _ H)), (bind_ok _ _ _ _ _ (get_root_ok _ _ _ _ _ H)).
  apply (LowerBound_loop_ok _ []); [by eapply rep_view|done|by eapply size_fuel].
Qed.

Lemma UpperBound_ok s np fr t v :
  rep s np fr t -> ordered less_than (inorder t) -> UpperBound less_than v s = Ok (s, address nil (List.find (greater v) (inorder t))).
Proof.
  intros H Ho. unfold UpperBound. rewrite (bind_ok _ _ s s (base.size (heap s))) by done.
  rewrite (bind_ok _ _ _ _ _ (get_nil_ok _ _ _ _ _ H)), (bind_ok _ _ _ _ _ (get_root_ok _ _ _ _ _ H)).
  apply (UpperBound_loop_ok _ []); [by eapply rep_view|done|by eapply size_fuel].
Qed.

End Bounds.

(** ** Whole trees *)

Section Whole.

Context {T : Type} (nil : nat).

Abbreviation rep := (rep (T := T) nil).
Abbreviation root := (root (T := T) nil).

(** The nodes in [X] are deleted and nothing else happens. *)
Definition freed (X : list nat) (s s' : RedBlackTree2 T) : Prop :=
  (forall a, a ∈ X -> heap s' !! a = None) /\ (forall a, a ∉ X -> heap s' !! a = heap s !! a) /\
  root_ s' = root_ s /\ nil_ s' = nil_ s /\ fresh s' = fresh s.

Lemma freed_trans X Y s1 s2 s3 : freed X s1 s2 -> freed Y s2 s3 -> freed (X ++ Y) s1 s3.
Proof.
  intros (A1 & B1 & C1 & D1 & E1) (A2 & B2 & C2 & D2 & E2). split; [|split; [|split; [congruence|split; congruence]]]; intros a Ha.
  - destruct (decide (a ∈ Y)) as [Hy|Hy]; [by apply A2|]. rewrite B2 by done. apply A1. set_solver.
  - rewrite elem_of_app in Ha. rewrite B2, B1 by tauto. done.
Qed.

Lemma DeleteTree_ok fuel (t : tree (T := T)) p s :
  sub nil (heap s) p t -> NoDup (addrs t) -> nil ∉ addrs t -> nil_ s = nil -> (length (addrs t) < fuel)%nat ->
  exists s', DeleteTree fuel (root t) s = Ok (s', ()) /\ freed (addrs t) s s'.
Proof.
  revert t p s. induction fuel as [|fuel IH]; intros t p s Hs Hd Hn Hnil Hf; [lia|]. cbn [DeleteTree].
  rewrite (bind_ok _ _ s s nil) by (unfold get_nil; by rewrite Hnil). destruct t as [|c l a v r]; cbn [RedBlackHeap.root].
  { rewrite Nat.eqb_refl. exists s. split; [done|]. split; [by intros a ?%not_elem_of_nil|done]. }
  destruct Hs as (Ea & Hl & Hr). cbn [addrs length] in *. rewrite length_app in Hf. apply list.NoDup_cons in Hd as [Ha Hd].
  apply list.NoDup_app in Hd as (Hdl & Hlr & Hdr). rewrite not_elem_of_cons, not_elem_of_app in Hn. rewrite not_elem_of_app in Ha.
  rewrite (proj2 (Nat.eqb_neq a nil)) by (intros ->; tauto).
  rewrite (bind_ok _ _ _ _ _ (get_ok left _ _ _ Ea)). cbn [left].
  destruct (IH l a s Hl Hdl) as (s1 & E1 & F1); [tauto|done|lia|]. rewrite (bind_ok _ _ _ _ _ E1).
  assert (Ea1 : heap s1 !! a = Some (mkNode (Some v) c (root l) (root r) p)) by (rewrite (proj1 (proj2 F1)) by tauto; done).
  rewrite (bind_ok _ _ _ _ _ (get_ok right _ _ _ Ea1)). cbn [right].
  destruct (IH r a s1) as (s2 & E2 & F2); [|done|tauto|by destruct F1 as (_ & _ & _ & -> & _)|lia|].
  { apply (sub_frame nil (heap s)); [done|]. intros b Hb. apply F1. intros Hbl. by apply (Hlr b). }
  rewrite (bind_ok _ _ _ _ _ E2). pose proof (freed_trans _ _ _ _ _ F1 F2) as F12.
  assert (Ea2 : heap s2 !! a = Some (mkNode (Some v) c (root l) (root r) p)) by (rewrite (proj1 (proj2 F2)) by tauto; done).
  unfold delete_node. rewrite Ea2. eexists. split; [done|].
  assert (F3 : freed [a] s2 (mkTree (delete a (heap s2)) (root_ s2) (nil_ s2) (fresh s2))).
  { split; [intros b ->%list_elem_of_singleton; apply lookup_delete_eq|]. split; [|done]. intros b Hb. apply lookup_delete_ne. intros ->. apply Hb, list_elem_of_here. }
  destruct (freed_trans _ _ _ _ _ F12 F3) as (A & B & C). split; [intros b Hb; apply A; set_solver|]. split; [intros b Hb; apply B; set_solver|done].
Qed.

(** The constructor. *)
Lemma new_tree_ok : rep (new_tree nil) nil (S nil) Leaf.
Proof.
  split; cbn; try done.
  - constructor.
  - by intros ?%not_elem_of_nil.
  - by rewrite lookup_singleton_eq.
  - intros a. destruct (decide (a = nil)) as [->|Hne]; [rewrite lookup_singleton_eq; split; eauto|].
    rewrite lookup_singleton_ne by done. split; [by intros [? ?]|intros [?|?%not_elem_of_nil]; done].
  - split; [done|]. intros a [n [<- _]%lookup_singleton_Some]. lia.
Qed.

Lemma Clear_ok s np fr t : rep s np fr t -> exists s', Clear s = Ok (s', ()) /\ rep s' np fr Leaf.
Proof.
  intros H. unfold Clear. rewrite (bind_ok _ _ s s (base.size (heap s))), (bind_ok _ _ _ _ _ (get_root_ok _ _ _ _ _ H)) by done.
  pose proof H as [Hs Hd Hn Hsen Hnil Hroot Hdom [Hfr Hlt]].
  destruct (DeleteTree_ok (base.size (heap s)) t nil s Hs Hd Hn Hnil) as (s1 & E1 & A & B & C & D & G); [rewrite (rep_size _ _ _ _ _ H); lia|].
  rewrite (bind_ok _ _ _ _ _ E1), (bind_ok _ _ s1 s1 nil) by (unfold get_nil; by rewrite D, Hnil). eexists. split; [done|].
  assert (Hdom1 : forall a, is_Some (heap s1 !! a) <-> a = nil).
  { intros a. destruct (decide (a ∈ addrs t)) as [Ha|Ha].
    - rewrite A by done. split; [by intros [? ?]|]. by intros ->.
    - rewrite B, Hdom by done. tauto. }
  split; cbn [heap root_ nil_ fresh]; try done.
  - constructor.
  - by intros ?%not_elem_of_nil.
  - by rewrite B.
  - by rewrite D.
  - intros a. rewrite Hdom1. split; [by left|]. by intros [?|?%not_elem_of_nil].
  - rewrite G. split; [done|]. intros a ->%Hdom1. apply Hlt. apply Hdom. by left.
Qed.

(** The destructor leaves nothing behind. *)
Lemma tree_destroy_ok s np fr t : rep s np fr t -> exists s', destroy s = Ok (s', ()) /\ heap s' = ∅.
Proof.
  intros H. unfold destroy. rewrite (bind_ok _ _ s s (base.size (heap s))), (bind_ok _ _ _ _ _ (get_root_ok _ _ _ _ _ H)) by done.
  pose proof H as [Hs Hd Hn Hsen Hnil Hroot Hdom [Hfr Hlt]].
  destruct (DeleteTree_ok (base.size (heap s)) t nil s Hs Hd Hn Hnil) as (s1 & E1 & A & B & C & D & G); [rewrite (rep_size _ _ _ _ _ H); lia|].
  rewrite (bind_ok _ _ _ _ _ E1), (bind_ok _ _ s1 s1 nil) by (unfold get_nil; by rewrite D, Hnil).
  assert (E2 : heap s1 !! nil = heap s !! nil) by (by apply B). unfold delete_node. rewrite E2, Hsen. eexists. split; [done|]. cbn.
  apply map_eq. intros a. rewrite lookup_empty. destruct (decide (a = nil)) as [->|Hne]; [apply lookup_delete_eq|]. rewrite lookup_delete_ne by done.
  destruct (decide (a ∈ addrs t)) as [Ha|Ha]; [by apply A|]. rewrite B by done.
  destruct (heap s !! a) eqn:Ea; [|done]. destruct (proj1 (Hdom a) ltac:(eauto)); done.
Qed.

End Whole.

(** ** Copies *)

Section Copy.

#[local] Set Default Proof Using "Type*".

Context {T : Type} (nil nil2 : nat) (less_than equals : T -> T -> bool) `{!Comparator less_than equals}.

Abbreviation rep := (rep (T := T) nil).

Definition values (t : tree (T := T)) : list T := (inorder t).*2.

Lemma insert_entry_perm (e : nat * T) l : insert_entry less_than e l ≡ₚ e :: l.
Proof using Type. induction l as [|e' l IH]; cbn; [done|]. destruct (less_than e.2 e'.2); [done|]. rewrite IH. apply perm_swap. Qed.

Lemma lookup_entry_none v (l : list (nat * T)) : (forall w, w ∈ l.*2 -> equals v w = false) -> lookup_entry equals v l = None.
Proof using Type. intros H. apply find_none. intros e He. apply H. apply list_elem_of_fmap. by exists e. Qed.

Lemma ordered_values l : ordered less_than l -> StronglySorted (fun v w => less_than v w = true) (l.*2).
Proof using Type.
  induction l as [|e l IH]; cbn; [constructor|]. intros [H Ho]. constructor; [by apply IH|]. apply list.Forall_forall.
  intros w (e' & -> & He)%list_elem_of_fmap. by apply H.
Qed.

(** An ordered sequence is determined by its values. *)
Lemma ordered_unique l1 l2 : ordered less_than l1 -> ordered less_than l2 -> l1.*2 ≡ₚ l2.*2 -> l1.*2 = l2.*2.
Proof.
  intros H1 H2 Hp. apply (StronglySorted_unique_strong (fun v w => less_than v w = true)); [|by apply ordered_values|by apply ordered_values|done].
  intros x1 x2 _ _ E1 E2. by rewrite (lt_asym less_than equals _ _ E1) in E2.
Qed.

Lemma CopySubtree_ok fuel (t : tree (T := T)) p other s np fr td m :
  sub nil2 (heap other) p t -> nil2 ∉ addrs t -> nil_ other = nil2 -> ordered less_than (inorder t) -> (length (addrs t) < fuel)%nat ->
  rep s np fr td -> ordered less_than (inorder td) -> rb td BLACK m ->
  (forall v w, v ∈ values t -> w ∈ values td -> equals v w = false) ->
  exists s' td' m', CopySubtree less_than equals fuel other (root nil2 t) s = Ok (s', ()) /\ rep s' np (fr + length (addrs t)) td' /\
    ordered less_than (inorder td') /\ rb td' BLACK m' /\ values td' ≡ₚ values t ++ values td.
Proof.
  revert t p s fr td m. induction fuel as [|fuel IH]; intros t p s fr td m Hs Hn Hnil Ho Hf H Hod Hb Hap; [lia|]. cbn [CopySubtree]. rewrite Hnil.
  destruct t as [|c l a v r]; cbn [RedBlackHeap.root].
  { rewrite Nat.eqb_refl. exists s, td, m. cbn [addrs length]. rewrite Nat.add_0_r. done. }
  destruct Hs as (Ea & Hl & Hr). cbn [addrs length inorder] in *. rewrite length_app in *. rewrite not_elem_of_cons, not_elem_of_app in Hn.
  rewrite (proj2 (Nat.eqb_neq a nil2)), Ea by (intros ->; tauto). unfold values in *. cbn [inorder] in *. rewrite fmap_app, fmap_cons in *. cbn [snd] in *.
  pose proof Ho as (Hol & [Hvr Hor] & Hlr)%(ordered_app less_than).
  assert (Hlv : forall w, w ∈ (inorder l).*2 -> less_than w v = true).
  { intros w (e & -> & He)%list_elem_of_fmap. apply (Hlr e (a, v)); [done|apply list_elem_of_here]. }
  assert (Hrv : forall w, w ∈ (inorder r).*2 -> less_than v w = true) by (intros w (e & -> & He)%list_elem_of_fmap; by apply Hvr).
  assert (Hlr2 : forall w u, w ∈ (inorder l).*2 -> u ∈ (inorder r).*2 -> less_than w u = true).
  { intros w u Hw Hu. eapply cmp_trans; [by apply Hlv|by apply Hrv]. }
  assert (En : lookup_entry equals v (inorder td) = None) by (apply lookup_entry_none; intros w Hw; apply Hap; [set_solver|done]).
  pose proof (FindOrInsert_ok nil less_than equals s np fr td v m H Hod Hb) as Hi. rewrite En in Hi. destruct Hi as (s1 & t1 & m1 & E1 & H1 & I1 & B1).
  rewrite (bind_ok _ _ _ _ _ E1). pose proof (insert_ordered less_than equals (fr, v) _ Hod En) as O1. rewrite <- I1 in O1.
  assert (P1 : (inorder t1).*2 ≡ₚ v :: (inorder td).*2) by (by rewrite I1, insert_entry_perm).
  destruct (IH l a s1 (S fr) t1 m1 Hl ltac:(tauto) Hnil Hol ltac:(lia) H1 O1 B1) as (s2 & t2 & m2 & E2 & H2 & O2 & B2 & P2).
  { intros w u Hw Hu. rewrite P1 in Hu. apply elem_of_cons in Hu as [->|Hu]; [apply (lt_not_equals less_than equals _ _ (Hlv w Hw))|apply Hap; [set_solver|done]]. }
  rewrite (bind_ok _ _ _ _ _ E2).
  destruct (IH r a s2 (S fr + length (addrs l))%nat t2 m2 Hr ltac:(tauto) Hnil Hor ltac:(lia) H2 O2 B2) as (s3 & t3 & m3 & E3 & H3 & O3 & B3 & P3).
  { intros w u Hw Hu. rewrite P2, P1, elem_of_app, elem_of_cons in Hu. destruct Hu as [Hu|[->|Hu]].
    - apply (lt_not_equals less_than equals u w). by apply Hlr2.
    - apply (lt_not_equals less_than equals v w). by apply Hrv.
    - apply Hap; [set_solver|done]. }
  exists s3, t3, m3. split; [done|]. split; [|split; [done|split; [done|]]].
  - by replace (fr + S (length (addrs l) + length (addrs r)))%nat with (S fr + length (addrs l) + length (addrs r))%nat by lia.
  - rewrite P3, P2, P1. solve_Permutation.
Qed.

(** Copying into an empty tree. *)
Lemma CopyFrom_ok other np2 fr2 t s np fr :
  RedBlackHeap.rep nil2 other np2 fr2 t -> ordered less_than (inorder t) -> rep s np fr Leaf ->
  exists s' t' m, CopyFrom less_than equals other s = Ok (s', ()) /\ rep s' np (fr + length (inorder t)) t' /\
    ordered less_than (inorder t') /\ rb t' BLACK m /\ values t' = values t.
Proof.
  intros Ht Ho H. unfold CopyFrom. rewrite (rep_root _ _ _ _ _ Ht).
  destruct (CopySubtree_ok (base.size (heap other)) t nil2 other s np fr Leaf 0) as (s' & t' & m & E & H' & O' & B' & P'); [apply Ht|apply Ht|apply Ht|done| |done|done|constructor| |].
  - rewrite (rep_size _ _ _ _ _ Ht). lia.
  - by intros v w _ ?%not_elem_of_nil.
  - exists s', t', m. split; [done|]. split; [|split; [done|split; [done|]]].
    + rewrite <- (length_fmap fst (inorder t)). by rewrite (Permutation_length (addrs_inorder t)).
    + unfold values in *. cbn in P'. rewrite app_nil_r in P'. by apply ordered_unique.
Qed.

End Copy.
