(* ===== verification/OrderedMap.v ===== *)
(** * base::Map and base::Set (containers/map.h, containers/set.h): the code

    Both count the values of a red-black tree of their own.  An iterator is the address
    of a node, or of the sentinel at the end.  The map stores pairs and compares their
    keys; [Probe] is the pair it searches with. *)

From stdpp Require Import gmap.
From S2P Require Import Prelude Memory RedBlackTree.

Set Default Proof Using "Type".

(** What [Map] and [Set] hold. *)
Record Counted {T : Type} := mkCounted { tree_ : RedBlackTree2 T; size_ : Z }.
Arguments Counted T : clear implicits.
Arguments mkCounted {T}.

(** A call on the tree. *)
Definition on_tree {T A} (m : M T A) (c : Counted T) : res (Counted T * A) := '(t, a) ← m (tree_ c); Ok (mkCounted t (size_ c), a).

Definition empty_counted {T} (nil : nat) : Counted T := mkCounted (new_tree nil) 0.

(** ** Set *)

Section Set_.

Context {T : Type} (less_than equals : T -> T -> bool).

Definition Set_insert (c : Counted T) (v : T) : res (Counted T * (nat * bool)) :=
  '(c, (node, inserted)) ← on_tree (FindOrInsert less_than equals v) c;
  Ok (mkCounted (tree_ c) (wrap 64 (size_ c + Z.b2z inserted)), (node, inserted)).

Definition Set_of_list (nil : nat) (vs : list T) : res (Counted T) :=
  foldl (fun c v => c ← c; '(c, _) ← Set_insert c v; Ok c) (Ok (empty_counted nil)) vs.

Definition Set_begin (c : Counted T) : res (Counted T * nat) :=
  on_tree (e ← empty; if e : bool then get_nil else r ← get_root; Minimum r) c.

Definition Set_end (c : Counted T) : res (Counted T * nat) := on_tree get_nil c.

Definition Set_next (c : Counted T) (it : nat) : res (Counted T * nat) := on_tree (Successor it) c.
Definition Set_prev (c : Counted T) (it : nat) : res (Counted T * nat) := on_tree (Predecessor it) c.
Definition Set_read (c : Counted T) (it : nat) : res (Counted T * T) := on_tree (get_value it) c.

Definition Set_empty (c : Counted T) : bool := size_ c =? 0.

Definition Set_find (c : Counted T) (v : T) : res (Counted T * nat) := on_tree (RedBlackTree.Find less_than equals v) c.
Definition Set_contains (c : Counted T) (v : T) : res (Counted T * bool) := on_tree (Contains less_than equals v) c.
Definition Set_count (c : Counted T) (v : T) : res (Counted T * Z) := '(c, b) ← Set_contains c v; Ok (c, if b : bool then 1 else 0).
Definition Set_lower_bound (c : Counted T) (v : T) : res (Counted T * nat) := on_tree (LowerBound less_than v) c.
Definition Set_upper_bound (c : Counted T) (v : T) : res (Counted T * nat) := on_tree (UpperBound less_than v) c.

Definition Set_erase (c : Counted T) (v : T) : res (Counted T * bool) :=
  '(c, erased) ← on_tree (Erase less_than equals v) c;
  if negb erased then Ok (c, false) else Ok (mkCounted (tree_ c) (wrap 64 (size_ c - 1)), true).

Definition Set_erase_at (c : Counted T) (it : nat) : res (Counted T * nat) :=
  '(c, next) ← on_tree (Successor it) c;
  '(c, v) ← on_tree (get_value it) c;
  '(c, erased) ← on_tree (Erase less_than equals v) c;
  Ok (if erased : bool then mkCounted (tree_ c) (wrap 64 (size_ c - 1)) else c, next).

Definition Set_clear (c : Counted T) : res (Counted T) := '(c, _) ← on_tree Clear c; Ok (mkCounted (tree_ c) 0).

(** [Set(const Set&)], and assignment from another set. *)
Definition Set_copy (nil : nat) (other : Counted T) : res (Counted T) :=
  '(t, _) ← CopyFrom less_than equals (tree_ other) (new_tree nil); Ok (mkCounted t (size_ other)).

Definition Set_assign (c other : Counted T) : res (Counted T) :=
  '(t, _) ← copy_assign less_than equals (tree_ other) (tree_ c); Ok (mkCounted t (size_ other)).

(** [Set(Set&&)] and move assignment; the second component is what [other] becomes. *)
Definition Set_move (nil : nat) (other : Counted T) : Counted T * Counted T :=
  let '(t, t') := Swap (new_tree nil) (tree_ other) in (mkCounted t (size_ other), mkCounted t' 0).

Definition Set_move_assign (c other : Counted T) : res (Counted T * Counted T) :=
  '(t, _) ← Clear (tree_ c);
  let '(t, t') := Swap t (tree_ other) in Ok (mkCounted t (size_ other), mkCounted t' 0).

(** [for (const T& v : set)]: the values an iterator passes until the end. *)
Fixpoint visit (fuel : nat) (c : Counted T) (it last_ : nat) : res (list T) :=
  match fuel with
  | O => Undef
  | S fuel =>
    if (it =? last_)%nat then Ok []
    else '(c, v) ← Set_read c it; '(c, it) ← Set_next c it; vs ← visit fuel c it last_; Ok (v :: vs)
  end.

Definition for_each (fuel : nat) (c : Counted T) : res (list T) := '(c, b) ← Set_begin c; '(c, e) ← Set_end c; visit fuel c b e.

End Set_.

(** ** Map *)

Section Map.

Context {K V : Type} (lt eq : K -> K -> bool) (dflt : V).

Definition key_less (x y : K * V) : bool := lt x.1 y.1.
Definition key_equals (x y : K * V) : bool := eq x.1 y.1.

Definition Map : Type := Counted (K * V).

Definition Probe (k : K) : K * V := (k, dflt).

Definition Map_clear (m : Map) : res Map := '(m, _) ← on_tree Clear m; Ok (mkCounted (tree_ m) 0).

Definition FirstNode (m : Map) : res (Map * nat) := on_tree (e ← empty; if e : bool then get_nil else r ← get_root; Minimum r) m.

Definition Map_begin (m : Map) : res (Map * nat) := FirstNode m.
Definition Map_end (m : Map) : res (Map * nat) := on_tree get_nil m.

Definition Map_next (m : Map) (it : nat) : res (Map * nat) := on_tree (Successor it) m.
Definition Map_prev (m : Map) (it : nat) : res (Map * nat) := on_tree (Predecessor it) m.

(** [*it], and [it->second = v]. *)
Definition Map_read (m : Map) (it : nat) : res (Map * (K * V)) := on_tree (get_value it) m.
Definition Map_write (m : Map) (it : nat) (v : V) : res (Map * ()) :=
  on_tree (p ← get_value it; store it (fun n => mkNode (Some (p.1, v)) (color n) (left n) (right n) (parent n))) m.

Definition Map_empty (m : Map) : bool := size_ m =? 0.

Definition Map_find (m : Map) (k : K) : res (Map * nat) := on_tree (RedBlackTree.Find key_less key_equals (Probe k)) m.
Definition Map_contains (m : Map) (k : K) : res (Map * bool) := on_tree (Contains key_less key_equals (Probe k)) m.
Definition Map_count (m : Map) (k : K) : res (Map * Z) := '(m, b) ← Map_contains m k; Ok (m, if b : bool then 1 else 0).
Definition Map_lower_bound (m : Map) (k : K) : res (Map * nat) := on_tree (LowerBound key_less (Probe k)) m.
Definition Map_upper_bound (m : Map) (k : K) : res (Map * nat) := on_tree (UpperBound key_less (Probe k)) m.

Definition Emplace (m : Map) (k : K) (v : V) : res (Map * (nat * bool)) :=
  '(m, (node, inserted)) ← on_tree (FindOrInsert key_less key_equals (k, v)) m;
  Ok (if inserted : bool then mkCounted (tree_ m) (wrap 64 (size_ m + 1)) else m, (node, inserted)).

Definition Map_subscript (m : Map) (k : K) : res (Map * nat) := '(m, (node, _)) ← Emplace m k dflt; Ok (m, node).

(** [Insert], and [Find] with its null pointer for a missing key. *)
Definition Map_Insert (m : Map) (k : K) (v : V) : res (Map * bool) := '(m, (_, inserted)) ← Emplace m k v; Ok (m, inserted).
Definition Map_Find (m : Map) (k : K) : res (Map * option nat) :=
  '(m, node) ← Map_find m k; '(m, e) ← Map_end m; Ok (m, if negb (node =? e)%nat then Some node else None).

Definition Map_erase (m : Map) (k : K) : res (Map * bool) :=
  '(m, erased) ← on_tree (Erase key_less key_equals (Probe k)) m;
  if erased : bool then Ok (mkCounted (tree_ m) (wrap 64 (size_ m - 1)), true) else Ok (m, false).

Definition Map_erase_at (m : Map) (it : nat) : res (Map * nat) :=
  '(m, next) ← on_tree (Successor it) m;
  '(m, v) ← on_tree (get_value it) m;
  '(m, erased) ← on_tree (Erase key_less key_equals v) m;
  Ok (if erased : bool then mkCounted (tree_ m) (wrap 64 (size_ m - 1)) else m, next).

Definition Map_copy (nil : nat) (other : Map) : res Map :=
  '(t, _) ← CopyFrom key_less key_equals (tree_ other) (new_tree nil); Ok (mkCounted t (size_ other)).

Definition Map_assign (m other : Map) : res Map :=
  '(t, _) ← copy_assign key_less key_equals (tree_ other) (tree_ m); Ok (mkCounted t (size_ other)).

Definition Map_move (nil : nat) (other : Map) : Map * Map :=
  let '(t, t') := Swap (new_tree nil) (tree_ other) in (mkCounted t (size_ other), mkCounted t' 0).

Definition Map_move_assign (m other : Map) : res (Map * Map) :=
  '(t, _) ← Clear (tree_ m);
  let '(t, t') := Swap t (tree_ other) in Ok (mkCounted t (size_ other), mkCounted t' 0).

End Map.
