(* ===== verification/OrderedMapSpec.v ===== *)
(** * The contract of base::Map: a sorted sequence with stable addresses

    Programs over a map refine programs over the list of its entries in key order, each
    with the address of its node.  An address stays valid until its own entry is erased;
    insertions and removals of others, with all their rotations, move nothing. *)

From stdpp Require Import gmap sorting.
From S2P Require Import Prelude Memory Refine RedBlackTree RedBlackHeap RedBlackInsert RedBlackErase RedBlackRemove RedBlackWalk OrderedMap.

Set Default Proof Using "Type".
Set Warnings "-clear-no-such-hyp".

(** ** Entries by address *)

Section Entries.

Context {T : Type} (nil : nat).

Implicit Types l : list (nat * T).

Definition entry_at (it : nat) l : option (nat * T) := List.find (fun e => (e.1 =? it)%nat) l.

Fixpoint next_of (it : nat) l : nat :=
  match l with [] => nil | e :: l => if (e.1 =? it)%nat then first_of nil l else next_of it l end.

Definition prev_of (it : nat) l : nat := next_of it (reverse l).

Definition remove_at (it : nat) l : list (nat * T) := filter (fun e => e.1 <> it) l.

Definition write_at (it : nat) (f : T -> T) l : list (nat * T) := map (fun e => if (e.1 =? it)%nat then (e.1, f e.2) else e) l.

Lemma not_here (a : nat) l e : a ∉ l.*1 -> e ∈ l -> e.1 <> a.
Proof. intros Ha He <-. apply Ha. apply list_elem_of_fmap. by exists e. Qed.

Lemma entry_at_app a v l1 l2 : a ∉ l1.*1 -> entry_at a (l1 ++ (a, v) :: l2) = Some (a, v).
Proof.
  intros Ha. unfold entry_at. rewrite find_app_none; [cbn; by rewrite Nat.eqb_refl|].
  intros e He. apply Nat.eqb_neq. by apply (not_here a l1).
Qed.

Lemma next_of_app a v l1 l2 : a ∉ l1.*1 -> next_of a (l1 ++ (a, v) :: l2) = first_of nil l2.
Proof.
  induction l1 as [|e l1 IH]; cbn; [by rewrite Nat.eqb_refl|]. rewrite not_elem_of_cons. intros [Hne Ha].
  rewrite (proj2 (Nat.eqb_neq _ _)) by auto. by apply IH.
Qed.

Lemma prev_of_app a v l1 l2 : a ∉ l2.*1 -> prev_of a (l1 ++ (a, v) :: l2) = last_of nil l1.
Proof.
  intros Ha. unfold prev_of. rewrite reverse_app, reverse_cons, <- app_assoc. cbn [app]. apply next_of_app.
  rewrite fmap_reverse. by rewrite elem_of_reverse.
Qed.

Lemma remove_at_app a v l1 l2 : a ∉ l1.*1 -> a ∉ l2.*1 -> remove_at a (l1 ++ (a, v) :: l2) = l1 ++ l2.
Proof.
  intros H1 H2. unfold remove_at.
  assert (Hkeep : forall l, a ∉ l.*1 -> filter (fun e : nat * T => e.1 <> a) l = l).
  { induction l as [|e l IH]; [done|]. rewrite fmap_cons, not_elem_of_cons. intros [Hne Ha]. rewrite list.filter_cons_True by auto. by rewrite IH. }
  rewrite list.filter_app, list.filter_cons_False by (cbn; auto). by rewrite !Hkeep.
Qed.

Lemma write_at_app a v f l1 l2 : a ∉ l1.*1 -> a ∉ l2.*1 -> write_at a f (l1 ++ (a, v) :: l2) = l1 ++ (a, f v) :: l2.
Proof.
  intros H1 H2. unfold write_at.
  assert (Hkeep : forall l, a ∉ l.*1 -> map (fun e => if (e.1 =? a)%nat then (e.1, f e.2) else e) l = l).
  { induction l as [|e l IH]; cbn; [done|]. rewrite not_elem_of_cons. intros [Hne Ha]. rewrite (proj2 (Nat.eqb_neq _ _)) by auto. by rewrite IH. }
  rewrite map_app. cbn [map]. rewrite !Hkeep by done. cbn. by rewrite Nat.eqb_refl.
Qed.

Lemma entry_at_elem it l e : entry_at it l = Some e -> e ∈ l /\ e.1 = it.
Proof. intros [Hin He]%List.find_some. apply list_elem_of_In in Hin. by apply Nat.eqb_eq in He. Qed.

End Entries.

(** ** The abstraction *)

Record Ordered {T : Type} := mkOrdered { entries : list (nat * T); next : nat }.
Arguments Ordered T : clear implicits.
Arguments mkOrdered {T}.

Section Relation.

#[local] Set Default Proof Using "Type*".

Context {T : Type} (nil : nat) (less_than equals : T -> T -> bool) `{!Comparator less_than equals}.

Abbreviation rep := (rep (T := T) nil).

Record rel (c : Counted T) (a : Ordered T) : Prop := {
  rel_tree : exists np t m, rep (tree_ c) np (next a) t /\ inorder t = entries a /\ rb t BLACK m;
  rel_ordered : ordered less_than (entries a);
  rel_size : size_ c = wrap 64 (Z.of_nat (length (entries a)));
}.

Lemma read_tree {A} (m : M T A) (c : Counted T) r : m (tree_ c) = Ok (tree_ c, r) -> on_tree m c = Ok (c, r).
Proof using Type. intros E. unfold on_tree. rewrite E. by destruct c. Qed.

Lemma step_tree {A} (m : M T A) (c : Counted T) t r : m (tree_ c) = Ok (t, r) -> on_tree m c = Ok (mkCounted t (size_ c), r).
Proof using Type. intros E. unfold on_tree. by rewrite E. Qed.

Lemma rel_nodup c a : rel c a -> NoDup ((entries a).*1) /\ (nil ∉ (entries a).*1).
Proof using Type. intros [(np & t & m & H & <- & _) _ _]. rewrite addrs_inorder. split; apply H. Qed.

(** An entry of the sequence has a place in the tree. *)
Lemma rel_place c a it e : rel c a -> entry_at it (entries a) = Some e ->
  exists np ctx col l r m, rep (tree_ c) np (next a) (zip ctx (Br col l it e.2 r)) /\ rb (zip ctx (Br col l it e.2 r)) BLACK m /\
    entries a = (precede ctx ++ inorder l) ++ (it, e.2) :: inorder r ++ follow ctx /\
    (it ∉ (precede ctx ++ inorder l).*1) /\ (it ∉ (inorder r ++ follow ctx).*1).
Proof using Type.
  intros Hrel [Hin <-]%entry_at_elem. pose proof (rel_nodup c a Hrel) as [Hd _]. destruct Hrel as [(np & t & m & H & E & B) _ _]. rewrite <- E in Hin.
  destruct (inorder_split t e Hin) as (ctx & col & l & r & ->). exists np, ctx, col, l, r, m. split; [done|]. split; [done|].
  assert (E2 : entries a = (precede ctx ++ inorder l) ++ (e.1, e.2) :: inorder r ++ follow ctx) by (rewrite <- E, inorder_around; same_order).
  split; [done|]. rewrite E2, fmap_app, fmap_cons in Hd. cbn [fst] in Hd. apply list.NoDup_app in Hd as (_ & Hd & [H2 _]%list.NoDup_cons).
  split; [|done]. intros Hi. by apply (Hd _ Hi), list_elem_of_here.
Qed.

Lemma rel_empty : rel (empty_counted nil) (mkOrdered [] (S nil)).
Proof using Type. split; [|done|done]. exists nil, Leaf, 0%nat. split; [apply new_tree_ok|]. split; [done|constructor]. Qed.

(** *** Reading *)

Lemma rel_find c a v : rel c a -> on_tree (Find less_than equals v) c = Ok (c, address nil (lookup_entry equals v (entries a))).
Proof.
  intros [(np & t & m & H & E & B) Ho _]. apply read_tree. unfold Find. rewrite (bind_ok _ _ _ _ _ (get_root_ok _ _ _ _ _ H)).
  rewrite <- E in *. by rewrite (SearchTree_ok nil less_than equals _ np _ t v H Ho).
Qed.

Lemma rel_contains c a v : rel c a -> on_tree (Contains less_than equals v) c = Ok (c, bool_decide (is_Some (lookup_entry equals v (entries a)))).
Proof.
  intros [(np & t & m & H & E & B) Ho _]. apply read_tree. unfold Contains, Find. rewrite (bind_ok _ _ _ _ _ (get_nil_ok _ _ _ _ _ H)).
  rewrite <- E in *. rewrite (bind_ok _ _ (tree_ c) (tree_ c) (address nil (lookup_entry equals v (inorder t)))).
  - destruct (lookup_entry equals v (inorder t)) as [e|] eqn:El; cbn.
    + destruct (lookup_nonnil nil less_than equals t v e El (rep_nil _ _ _ _ _ H)) as [Hne _]. by rewrite (proj2 (Nat.eqb_neq _ _) Hne).
    + by rewrite Nat.eqb_refl.
  - rewrite (bind_ok _ _ _ _ _ (get_root_ok _ _ _ _ _ H)). apply (SearchTree_ok nil less_than equals _ np _ t v H Ho).
Qed.

Lemma rel_lower c a v : rel c a -> on_tree (LowerBound less_than v) c = Ok (c, address nil (List.find (not_less less_than v) (entries a))).
Proof. intros [(np & t & m & H & E & B) Ho _]. apply read_tree. rewrite <- E in *. by eapply LowerBound_ok. Qed.

Lemma rel_upper c a v : rel c a -> on_tree (UpperBound less_than v) c = Ok (c, address nil (List.find (greater less_than v) (entries a))).
Proof. intros [(np & t & m & H & E & B) Ho _]. apply read_tree. rewrite <- E in *. by eapply UpperBound_ok. Qed.

Lemma rel_begin c a : rel c a ->
  on_tree (e ← empty; if e : bool then get_nil else r ← get_root; Minimum r) c = Ok (c, first_of nil (entries a)).
Proof using Type.
  intros [(np & t & m & H & E & B) Ho _]. apply read_tree. rewrite <- E in *. unfold empty.
  rewrite (bind_ok _ _ (tree_ c) (tree_ c) (root nil t =? nil)%nat) by (by rewrite (bind_ok _ _ _ _ _ (get_root_ok _ _ _ _ _ H)), (bind_ok _ _ _ _ _ (get_nil_ok _ _ _ _ _ H))).
  destruct (Nat.eqb_spec (root nil t) nil) as [Er|Hne].
  - destruct t as [|col l x v r]; [apply (get_nil_ok _ _ _ _ _ H)|]. exfalso. cbn in Er. apply (rep_nil _ _ _ _ _ H). rewrite <- Er. apply list_elem_of_here.
  - rewrite (bind_ok _ _ _ _ _ (get_root_ok _ _ _ _ _ H)). apply (Minimum_ok nil [] t _ np _ H). by intros ->.
Qed.

Lemma rel_end c a : rel c a -> on_tree get_nil c = Ok (c, nil).
Proof using Type. intros [(np & t & m & H & E & B) Ho _]. apply read_tree. by apply (get_nil_ok _ _ _ _ _ H). Qed.

Lemma rel_value c a it e : rel c a -> entry_at it (entries a) = Some e -> on_tree (get_value it) c = Ok (c, e.2).
Proof using Type.
  intros Hrel He. destruct (rel_place c a it e Hrel He) as (np & ctx & col & l & r & m & H & _). apply read_tree.
  destruct (view_at _ _ _ _ _ _ _ (rep_view _ _ _ _ H)) as [E _]. unfold get_value. by rewrite (bind_ok _ _ _ _ _ (get_ok value _ _ _ E)).
Qed.

Lemma rel_next c a it e : rel c a -> entry_at it (entries a) = Some e -> on_tree (Successor it) c = Ok (c, next_of nil it (entries a)).
Proof using Type.
  intros Hrel He. destruct (rel_place c a it e Hrel He) as (np & ctx & col & l & r & m & H & _ & E & H1 & _). apply read_tree.
  rewrite E, next_of_app by done. by eapply Successor_ok.
Qed.

Lemma rel_prev c a it e : rel c a -> entry_at it (entries a) = Some e -> on_tree (Predecessor it) c = Ok (c, prev_of nil it (entries a)).
Proof using Type.
  intros Hrel He. destruct (rel_place c a it e Hrel He) as (np & ctx & col & l & r & m & H & _ & E & _ & H2). apply read_tree.
  rewrite E, prev_of_app by done. by eapply Predecessor_ok.
Qed.

Lemma rel_prev_end c a : rel c a -> on_tree (Predecessor nil) c = Ok (c, last_of nil (entries a)).
Proof using Type. intros [(np & t & m & H & E & B) Ho _]. apply read_tree. rewrite <- E. by eapply Predecessor_end. Qed.

(** *** Changing *)

Lemma wrap_succ n : wrap 64 (wrap 64 (Z.of_nat n) + 1) = wrap 64 (Z.of_nat (S n)).
Proof using Type. unfold wrap. rewrite Zplus_mod_idemp_l. f_equal. lia. Qed.

Lemma wrap_pred n : wrap 64 (wrap 64 (Z.of_nat (S n)) - 1) = wrap 64 (Z.of_nat n).
Proof using Type. unfold wrap. rewrite Zminus_mod_idemp_l. f_equal. lia. Qed.

Lemma ordered_rel_insert c a v : rel c a ->
  match lookup_entry equals v (entries a) with
  | Some e => on_tree (FindOrInsert less_than equals v) c = Ok (c, (e.1, false))
  | None => exists t, on_tree (FindOrInsert less_than equals v) c = Ok (mkCounted t (size_ c), (next a, true)) /\
      rel (mkCounted t (wrap 64 (size_ c + 1))) (mkOrdered (insert_entry less_than (next a, v) (entries a)) (S (next a)))
  end.
Proof.
  intros [(np & t & m & H & E & B) Ho Hsz]. rewrite <- E in *. pose proof (FindOrInsert_ok nil less_than equals _ np _ t v m H Ho B) as Hi.
  destruct (lookup_entry equals v (inorder t)) as [e|] eqn:El; [by apply read_tree|].
  destruct Hi as (s' & t' & m' & E' & H' & I' & B'). exists s'. split; [by apply step_tree|]. split; cbn.
  - by exists np, t', m'.
  - by apply (insert_ordered less_than equals).
  - rewrite Hsz, wrap_succ. by rewrite (Permutation_length (insert_entry_perm less_than _ _)).
Qed.

Lemma rel_erase c a v : rel c a ->
  match lookup_entry equals v (entries a) with
  | None => on_tree (Erase less_than equals v) c = Ok (c, false)
  | Some e => exists t, on_tree (Erase less_than equals v) c = Ok (mkCounted t (size_ c), true) /\
      rel (mkCounted t (wrap 64 (size_ c - 1))) (mkOrdered (remove_entry equals v (entries a)) (next a))
  end.
Proof.
  intros [(np & t & m & H & E & B) Ho Hsz]. rewrite <- E in *. pose proof (Erase_ok nil less_than equals _ np _ t v m H Ho B) as Hi.
  destruct (lookup_entry equals v (inorder t)) as [e|] eqn:El; [|by apply read_tree].
  destruct Hi as (s' & t' & np' & m' & E' & H' & I' & B'). exists s'. split; [by apply step_tree|].
  destruct (lookup_nonnil nil less_than equals t v e El (rep_nil _ _ _ _ _ H)) as [_ (l1 & l2 & El2)%list_elem_of_split].
  apply List.find_some in El as [_ Eq]. rewrite El2 in *. rewrite (remove_entry_app less_than equals) in * by done. split; cbn.
  - by exists np', t', m'.
  - apply ordered_app in Ho as (H1 & [H2 H3] & H4). apply ordered_app. split; [done|]. split; [done|]. intros e1 e2 He1 He2. apply H4; [done|by apply elem_of_cons; right].
  - rewrite Hsz, !length_app. cbn [length]. rewrite Nat.add_succ_r, wrap_pred. done.
Qed.

Lemma rel_clear c a : rel c a -> exists t, on_tree Clear c = Ok (mkCounted t (size_ c), ()) /\ rel (mkCounted t 0) (mkOrdered [] (next a)).
Proof using Type.
  intros [(np & t & m & H & E & B) Ho Hsz]. destruct (Clear_ok nil _ _ _ _ H) as (s' & E' & H'). exists s'. split; [by apply step_tree|].
  split; [|done|done]. exists np, Leaf, 0%nat. split; [done|]. split; [done|constructor].
Qed.

(** Erasing the entry at an address. *)
Lemma rel_erase_at c a it e : rel c a -> entry_at it (entries a) = Some e ->
  lookup_entry equals e.2 (entries a) = Some (it, e.2) /\ remove_entry equals e.2 (entries a) = remove_at it (entries a).
Proof.
  intros Hrel He. destruct (rel_place c a it e Hrel He) as (np & ctx & col & l & r & m & H & _ & E & H1 & H2).
  pose proof (rel_ordered _ _ Hrel) as Ho. rewrite E in *.
  assert (Eq : equals e.2 (it, e.2).2 = true) by (cbn; by rewrite (equals_spec less_than equals), (cmp_irrefl (less_than := less_than) (equals := equals))).
  split; [by eapply lookup_here|]. rewrite (remove_entry_app less_than equals), remove_at_app; done.
Qed.

(** Replacing the value at an address by one of the same rank. *)
Lemma rb_same ctx (t t' : tree (T := T)) : (forall c n, rb t c n -> rb t' c n) -> forall c n, rb (zip ctx t) c n -> rb (zip ctx t') c n.
Proof using Type.
  revert t t'. induction ctx as [|[d c a v sib] ctx IH]; intros t t' Ht; cbn [zip]; [done|]. apply IH. intros c' n.
  destruct d; cbn; inversion 1; subst; econstructor; eauto.
Qed.

Lemma rel_write c a it e f : rel c a -> entry_at it (entries a) = Some e ->
  (forall w, less_than (f e.2) w = less_than e.2 w) -> (forall w, less_than w (f e.2) = less_than w e.2) ->
  exists t, on_tree (p ← get_value it; store it (fun n => mkNode (Some (f p)) (color n) (left n) (right n) (parent n))) c = Ok (mkCounted t (size_ c), ()) /\
    rel (mkCounted t (size_ c)) (mkOrdered (write_at it f (entries a)) (next a)).
Proof.
  intros Hrel He Hf1 Hf2. destruct (rel_place c a it e Hrel He) as (np & ctx & col & l & r & m & H & B & E & H1 & H2).
  destruct (view_at _ _ _ _ _ _ _ (rep_view _ _ _ _ H)) as [Ei _].
  set (n' := mkNode (Some (f e.2)) col (root nil l) (root nil r) (up nil ctx)). exists (with_store (tree_ c) it n'). split.
  { apply step_tree. rewrite (get_value_at _ _ _ _ _ _ _ _ (rep_view _ _ _ _ H)). by rewrite (store_ok _ _ _ _ Ei). }
  destruct Hrel as [_ Ho Hsz]. rewrite E in *. rewrite write_at_app by done. split; cbn [tree_ size_ entries RedBlackTree.heap next].
  - exists np, (zip ctx (Br col l it (f e.2) r)), m. split; [|split; [rewrite inorder_around; same_order|by eapply rb_same; [|done]; inversion 1; subst; econstructor]].
    pose proof (only_store _ it n' _ Ei) as O. pose proof H as [Hs Hd Hn _ _ Hroot _ _]. rewrite addrs_zip in Hd, Hn. cbn in Hd, Hn.
    apply list.NoDup_cons in Hd as [Hi Hd]. rewrite not_elem_of_cons in Hn. rewrite <- app_assoc, !not_elem_of_app in Hi.
    apply sub_zip in Hs as [(_ & Hl & Hr) Hc]. eapply (rep_update nil [it] _ _ _ _ _ _ H O); [set_solver| |by rewrite !addrs_zip|by rewrite root_zip in Hroot |- *].
    apply sub_zip. split; [split; [apply lookup_store|split; (eapply sub_only; [exact O|done|set_solver])]|eapply csub_only; [exact O|done|set_solver]].
  - apply ordered_app in Ho as (O1 & [O2 O3] & O4). apply ordered_app. split; [done|]. split; [split; [|done]|].
    + intros e' He'. cbn. rewrite Hf1. by apply O2.
    + intros e1 e2 He1 [->|He2]%elem_of_cons; [cbn; rewrite Hf2; apply (O4 e1 (it, e.2)); [done|apply list_elem_of_here]|apply O4; [done|by apply elem_of_cons; right]].
  - rewrite Hsz, !length_app. done.
Qed.

End Relation.

(** ** Programs *)

Section Programs.

#[local] Set Default Proof Using "Type*".

Context {K V : Type} (lt eq : K -> K -> bool) (dflt : V) (nil : nat) `{!Comparator lt eq}.

#[export] Instance key_comparator : Comparator (key_less (V := V) lt) (key_equals eq).
Proof using Comparator0.
  split; unfold key_less, key_equals; intros.
  - by eapply cmp_trans.
  - apply cmp_equals.
  - by eapply cmp_irrefl.
  - by eapply cmp_equals_l.
  - by eapply cmp_equals_r.
Qed.

Inductive op :=
  | OpEmplace (k : K) (v : V)
  | OpSubscript (k : K)
  | OpInsert (k : K) (v : V)
  | OpRead (it : nat)
  | OpWrite (it : nat) (v : V)
  | OpFind (k : K)
  | OpFindPointer (k : K)
  | OpContains (k : K)
  | OpCount (k : K)
  | OpLowerBound (k : K)
  | OpUpperBound (k : K)
  | OpBegin
  | OpEnd
  | OpNext (it : nat)
  | OpPrev (it : nat)
  | OpErase (k : K)
  | OpEraseAt (it : nat)
  | OpClear
  | OpSize
  | OpIsEmpty.

Inductive out := Done | Flag (b : bool) | Elem (p : K * V) | Where (it : nat) | Added (it : nat) (fresh : bool) | Pointer (it : option nat) | Number (n : Z).

Definition run_op (o : op) (m : Map) : res (Map * out) :=
  match o with
  | OpEmplace k v => '(m, (it, b)) ← Emplace lt eq m k v; Ok (m, Added it b)
  | OpSubscript k => '(m, it) ← Map_subscript lt eq dflt m k; Ok (m, Where it)
  | OpInsert k v => '(m, b) ← Map_Insert lt eq m k v; Ok (m, Flag b)
  | OpRead it => '(m, p) ← Map_read m it; Ok (m, Elem p)
  | OpWrite it v => '(m, _) ← Map_write m it v; Ok (m, Done)
  | OpFind k => '(m, it) ← Map_find lt eq dflt m k; Ok (m, Where it)
  | OpFindPointer k => '(m, it) ← Map_Find lt eq dflt m k; Ok (m, Pointer it)
  | OpContains k => '(m, b) ← Map_contains lt eq dflt m k; Ok (m, Flag b)
  | OpCount k => '(m, n) ← Map_count lt eq dflt m k; Ok (m, Number n)
  | OpLowerBound k => '(m, it) ← Map_lower_bound lt dflt m k; Ok (m, Where it)
  | OpUpperBound k => '(m, it) ← Map_upper_bound lt dflt m k; Ok (m, Where it)
  | OpBegin => '(m, it) ← Map_begin m; Ok (m, Where it)
  | OpEnd => '(m, it) ← Map_end m; Ok (m, Where it)
  | OpNext it => '(m, it) ← Map_next m it; Ok (m, Where it)
  | OpPrev it => '(m, it) ← Map_prev m it; Ok (m, Where it)
  | OpErase k => '(m, b) ← Map_erase lt eq dflt m k; Ok (m, Flag b)
  | OpEraseAt it => '(m, it) ← Map_erase_at lt eq m it; Ok (m, Where it)
  | OpClear => m ← Map_clear m; Ok (m, Done)
  | OpSize => Ok (m, Number (size_ m))
  | OpIsEmpty => Ok (m, Flag (Map_empty m))
  end.

(** *** Specification *)

Implicit Types l : list (nat * (K * V)).

Definition lookup_key (k : K) l := List.find (fun e => eq k e.2.1) l.
Definition remove_key (k : K) l := filter (fun e => eq k e.2.1 = false) l.
Definition first_not_less (k : K) l := List.find (fun e => negb (lt e.2.1 k)) l.
Definition first_greater (k : K) l := List.find (fun e => lt k e.2.1) l.
Definition insert_key (it : nat) (k : K) (v : V) l := insert_entry (key_less lt) (it, (k, v)) l.

Definition count_of l : Z := wrap 64 (Z.of_nat (length l)).

Definition emplaced (a : Ordered (K * V)) (k : K) (v : V) : Ordered (K * V) * (nat * bool) :=
  match lookup_key k (entries a) with
  | Some e => (a, (e.1, false))
  | None => (mkOrdered (insert_key (next a) k v (entries a)) (S (next a)), (next a, true))
  end.

Definition spec_op (o : op) (a : Ordered (K * V)) : option (Ordered (K * V) * out) :=
  let l := entries a in
  match o with
  | OpEmplace k v => let '(a, (it, b)) := emplaced a k v in Some (a, Added it b)
  | OpSubscript k => let '(a, (it, _)) := emplaced a k dflt in Some (a, Where it)
  | OpInsert k v => let '(a, (_, b)) := emplaced a k v in Some (a, Flag b)
  | OpRead it => e ← entry_at it l; Some (a, Elem e.2)
  | OpWrite it v => _ ← entry_at it l; Some (mkOrdered (write_at it (fun p => (p.1, v)) l) (next a), Done)
  | OpFind k => Some (a, Where (address nil (lookup_key k l)))
  | OpFindPointer k => Some (a, Pointer (fst <$> lookup_key k l))
  | OpContains k => Some (a, Flag (bool_decide (is_Some (lookup_key k l))))
  | OpCount k => Some (a, Number (if decide (is_Some (lookup_key k l)) then 1 else 0))
  | OpLowerBound k => Some (a, Where (address nil (first_not_less k l)))
  | OpUpperBound k => Some (a, Where (address nil (first_greater k l)))
  | OpBegin => Some (a, Where (first_of nil l))
  | OpEnd => Some (a, Where nil)
  | OpNext it => _ ← entry_at it l; Some (a, Where (next_of nil it l))
  | OpPrev it =>
    if decide (it = nil) then Some (a, Where (last_of nil l)) else _ ← entry_at it l; Some (a, Where (prev_of nil it l))
  | OpErase k =>
    match lookup_key k l with Some _ => Some (mkOrdered (remove_key k l) (next a), Flag true) | None => Some (a, Flag false) end
  | OpEraseAt it => _ ← entry_at it l; Some (mkOrdered (remove_at it l) (next a), Where (next_of nil it l))
  | OpClear => Some (mkOrdered [] (next a), Done)
  | OpSize => Some (a, Number (count_of l))
  | OpIsEmpty => Some (a, Flag (count_of l =? 0))
  end.

Abbreviation rel := (rel nil (key_less (V := V) lt)).

Lemma Emplace_ok m a k v : rel m a ->
  exists m', Emplace lt eq m k v = Ok (m', (emplaced a k v).2) /\ rel m' (emplaced a k v).1.
Proof.
  intros H. pose proof (ordered_rel_insert nil (key_less lt) (key_equals eq) m a (k, v) H) as Hi.
  change (lookup_entry (key_equals eq) (k, v) (entries a)) with (lookup_key k (entries a)) in Hi.
  unfold Emplace, emplaced. destruct (lookup_key k (entries a)) as [e|].
  - rewrite Hi. by exists m.
  - destruct Hi as (t & -> & H'). eexists. by split.
Qed.

Lemma Map_erase_ok m a k : rel m a ->
  exists m', Map_erase lt eq dflt m k = Ok (m', if decide (is_Some (lookup_key k (entries a))) then true else false) /\
    rel m' (match lookup_key k (entries a) with Some _ => mkOrdered (remove_key k (entries a)) (next a) | None => a end).
Proof.
  intros H. pose proof (rel_erase nil (key_less lt) (key_equals eq) m a (Probe dflt k) H) as Hi.
  change (lookup_entry (key_equals eq) (Probe dflt k) (entries a)) with (lookup_key k (entries a)) in Hi.
  unfold Map_erase. destruct (lookup_key k (entries a)) as [e|].
  - destruct Hi as (t & -> & H'). eexists. by split.
  - rewrite Hi. by exists m.
Qed.

Lemma Map_erase_at_ok m a it e : rel m a -> entry_at it (entries a) = Some e ->
  exists m', Map_erase_at lt eq m it = Ok (m', next_of nil it (entries a)) /\ rel m' (mkOrdered (remove_at it (entries a)) (next a)).
Proof.
  intros H He. unfold Map_erase_at. rewrite (rel_next nil (key_less lt) m a it e H He). cbn.
  rewrite (rel_value nil (key_less lt) m a it e H He). cbn.
  destruct (rel_erase_at nil (key_less lt) (key_equals eq) m a it e H He) as [El Er].
  pose proof (rel_erase nil (key_less lt) (key_equals eq) m a e.2 H) as Hi. rewrite El, Er in Hi. destruct Hi as (t & -> & H'). eexists. by split.
Qed.

Lemma Map_write_ok m a it e v : rel m a -> entry_at it (entries a) = Some e ->
  exists m', Map_write m it v = Ok (m', ()) /\ rel m' (mkOrdered (write_at it (fun p => (p.1, v)) (entries a)) (next a)).
Proof.
  intros H He. destruct (rel_write nil (key_less lt) (key_equals eq) m a it e (fun p => (p.1, v)) H He) as (t & E & H'); [done|done|].
  eexists. by split.
Qed.

Lemma Map_clear_ok m a : rel m a -> exists m', Map_clear m = Ok m' /\ rel m' (mkOrdered [] (next a)).
Proof. intros H. destruct (rel_clear nil (key_less lt) m a H) as (t & E & H'). unfold Map_clear. rewrite E. eexists. by split. Qed.

Lemma Map_Find_ok m a k : rel m a -> Map_Find lt eq dflt m k = Ok (m, fst <$> lookup_key k (entries a)).
Proof.
  intros H. unfold Map_Find, Map_find, Map_end. rewrite (rel_find nil (key_less lt) (key_equals eq) m a (Probe dflt k) H). cbn -[on_tree].
  rewrite (rel_end nil (key_less lt) m a H). cbn.
  change (lookup_entry (key_equals eq) (Probe dflt k) (entries a)) with (lookup_key k (entries a)).
  destruct (lookup_key k (entries a)) as [e|] eqn:El; cbn; [|by rewrite Nat.eqb_refl].
  destruct (rel_nodup nil (key_less lt) m a H) as [_ Hn]. rewrite (proj2 (Nat.eqb_neq _ _)); [done|].
  apply List.find_some in El as [Hin%list_elem_of_In _]. by apply (not_here _ _ _ Hn).
Qed.

(** Every operation implements its specification. *)
#[export] Instance Map_refines : Refines run_op spec_op (fun _ _ => True) rel.
Proof.
  intros R o m a a' r H Hs _. apply wp_ok.
  pose proof (rel_size _ _ _ _ H) as Hsz.
  assert (Hread : forall A (q : res (Map * A)) (f : A -> out) x, q = Ok (m, x) -> Some (a, f x) = Some (a', r) ->
    exists p, ('(m, y) ← q; Ok (m, f y)) = Ok p /\ rel p.1 a' /\ p.2 = r).
  { intros A q f x -> [= <- <-]. by exists (m, f x). }
  assert (Hemplace : forall k v, exists m', Emplace lt eq m k v = Ok (m', (emplaced a k v).2) /\ rel m' (emplaced a k v).1) by (intros; by apply Emplace_ok).
  destruct o; cbn [run_op spec_op] in Hs |- *.
  - destruct (Hemplace k v) as (m' & -> & H'). destruct (emplaced a k v) as [a1 [it b]]. injection Hs as <- <-. eexists. by split.
  - unfold Map_subscript. destruct (Hemplace k dflt) as (m' & -> & H'). destruct (emplaced a k dflt) as [a1 [it b]]. injection Hs as <- <-. eexists. by split.
  - unfold Map_Insert. destruct (Hemplace k v) as (m' & -> & H'). destruct (emplaced a k v) as [a1 [it b]]. injection Hs as <- <-. eexists. by split.
  - destruct (entry_at it (entries a)) as [e|] eqn:He; [|done]. apply (Hread _ _ Elem e.2); [by eapply rel_value|exact Hs].
  - destruct (entry_at it (entries a)) as [e|] eqn:He; [|done]. injection Hs as <- <-. destruct (Map_write_ok m a it e v H He) as (m' & -> & H'). eexists. by split.
  - apply (Hread _ _ Where (address nil (lookup_key k (entries a)))); [by apply (rel_find nil (key_less lt) (key_equals eq))|exact Hs].
  - apply (Hread _ _ Pointer (fst <$> lookup_key k (entries a))); [by apply Map_Find_ok|exact Hs].
  - apply (Hread _ _ Flag (bool_decide (is_Some (lookup_key k (entries a))))); [by apply (rel_contains nil (key_less lt) (key_equals eq))|exact Hs].
  - apply (Hread _ _ Number (if decide (is_Some (lookup_key k (entries a))) then 1 else 0)); [|exact Hs].
    unfold Map_count, Map_contains. rewrite (rel_contains nil (key_less lt) (key_equals eq) m a (Probe dflt k) H).
    change (lookup_entry (key_equals eq) (Probe dflt k) (entries a)) with (lookup_key k (entries a)). by destruct (lookup_key k (entries a)).
  - apply (Hread _ _ Where (address nil (first_not_less k (entries a)))); [by apply (rel_lower nil (key_less lt) (key_equals eq))|exact Hs].
  - apply (Hread _ _ Where (address nil (first_greater k (entries a)))); [by apply (rel_upper nil (key_less lt) (key_equals eq))|exact Hs].
  - apply (Hread _ _ Where (first_of nil (entries a))); [by eapply rel_begin|exact Hs].
  - apply (Hread _ _ Where nil); [by eapply rel_end|exact Hs].
  - destruct (entry_at it (entries a)) as [e|] eqn:He; [|done]. apply (Hread _ _ Where (next_of nil it (entries a))); [by eapply rel_next|exact Hs].
  - destruct (decide (it = nil)) as [->|Hne]; [apply (Hread _ _ Where (last_of nil (entries a))); [by eapply rel_prev_end|exact Hs]|].
    destruct (entry_at it (entries a)) as [e|] eqn:He; [|done]. apply (Hread _ _ Where (prev_of nil it (entries a))); [by eapply rel_prev|exact Hs].
  - destruct (Map_erase_ok m a k H) as (m' & -> & H'). destruct (lookup_key k (entries a)); injection Hs as <- <-; eexists; by split.
  - destruct (entry_at it (entries a)) as [e|] eqn:He; [|done]. injection Hs as <- <-. destruct (Map_erase_at_ok m a it e H He) as (m' & -> & H'). eexists. by split.
  - injection Hs as <- <-. destruct (Map_clear_ok m a H) as (m' & -> & H'). eexists. by split.
  - injection Hs as <- <-. rewrite Hsz. by eexists.
  - injection Hs as <- <-. unfold Map_empty. rewrite Hsz. by eexists.
Qed.

End Programs.

(** ** Well-formed maps *)

Section WellFormed.

#[local] Set Default Proof Using "Type*".

Context {K V : Type} (lt eq : K -> K -> bool) (dflt : V) `{!Comparator lt eq}.

Abbreviation mrel n := (rel n (key_less (V := V) lt)).

(** The operations whose iterators point to elements ([--end()] included). *)
Definition valid_op (nil : nat) (o : op (K := K) (V := V)) (m : Map (K := K) (V := V)) : Prop :=
  match o with
  | OpRead it | OpWrite it _ | OpNext it | OpEraseAt it => is_Some (heap (tree_ m) !! it) /\ it <> nil
  | OpPrev it => is_Some (heap (tree_ m) !! it)
  | _ => True
  end.

(** The maps a program can build, with the address of their sentinel. *)
Inductive reachable : nat -> Map (K := K) (V := V) -> Prop :=
  | reach_new nil : reachable nil (empty_counted nil)
  | reach_op nil m o m' r : reachable nil m -> valid_op nil o m -> run_op lt eq dflt o m = Ok (m', r) -> reachable nil m'
  | reach_copy nil nil' m m' : reachable nil m -> Map_copy lt eq nil' m = Ok m' -> reachable nil' m'
  | reach_assign nil nil' m o m' : reachable nil m -> reachable nil' o -> Map_assign lt eq m o = Ok m' -> reachable nil m'
  | reach_move nil nil' m m1 m2 : reachable nil m -> Map_move nil' m = (m1, m2) -> reachable nil m1
  | reach_moved_from nil nil' m m1 m2 : reachable nil m -> Map_move nil' m = (m1, m2) -> reachable nil' m2
  | reach_move_assign nil nil' m o m1 m2 : reachable nil m -> reachable nil' o -> Map_move_assign m o = Ok (m1, m2) -> reachable nil' m1
  | reach_swapped nil nil' m o m1 m2 : reachable nil m -> reachable nil' o -> Map_move_assign m o = Ok (m1, m2) -> reachable nil m2.

Lemma entry_at_some (it : nat) (l : list (nat * (K * V))) : it ∈ l.*1 -> exists e, entry_at it l = Some e.
Proof using Type.
  intros (e & -> & He)%list_elem_of_fmap. unfold entry_at. destruct (List.find _ l) as [e'|] eqn:E; [eauto|].
  apply list_elem_of_In in He. pose proof (List.find_none _ _ E e He) as D. cbn in D. by rewrite Nat.eqb_refl in D.
Qed.

Lemma valid_spec nil o m a : mrel nil m a -> valid_op nil o m -> exists a' r, spec_op lt eq dflt nil o a = Some (a', r).
Proof using Type.
  intros H Ho. assert (Hat : forall it, is_Some (heap (tree_ m) !! it) -> it <> nil -> exists e, entry_at it (entries a) = Some e).
  { intros it Hs Hne. apply entry_at_some. destruct H as [(np & t & n & H & E & _) _ _]. rewrite <- E, addrs_inorder. by destruct (proj1 (rep_dom _ _ _ _ _ H it) Hs). }
  destruct o; cbn in Ho |- *; try destruct (emplaced _ _ _ _) as [? []]; eauto.
  - destruct Ho as [Hs Hne]. destruct (Hat it Hs Hne) as [e ->]. cbn. eauto.
  - destruct Ho as [Hs Hne]. destruct (Hat it Hs Hne) as [e ->]. cbn. eauto.
  - destruct Ho as [Hs Hne]. destruct (Hat it Hs Hne) as [e ->]. cbn. eauto.
  - destruct (decide (it = nil)) as [|Hne]; [eauto|]. destruct (Hat it Ho Hne) as [e ->]. cbn. eauto.
  - destruct (lookup_key eq k (entries a)); eauto.
  - destruct Ho as [Hs Hne]. destruct (Hat it Hs Hne) as [e ->]. cbn. eauto.
Qed.

(** One operation: it returns, and what it returns and leaves is specified. *)
Lemma valid_step nil o m a : mrel nil m a -> valid_op nil o m ->
  exists m' r a', run_op lt eq dflt o m = Ok (m', r) /\ mrel nil m' a'.
Proof.
  intros H Ho. destruct (valid_spec nil o m a H Ho) as (a' & r & Hs).
  pose proof (Map_refines lt eq dflt nil True o m a a' r H Hs (fun _ => I)) as Hw. destruct (run_op lt eq dflt o m) as [[m' r']| |] eqn:E; cbn in Hw; [|done|done].
  destruct Hw as [Hr ->]. by exists m', r, a'.
Qed.

(** The copy has the same keys and values in the same order. *)
Lemma copy_rel nil nil' np fr (t0 : RedBlackTree2 (K * V)) m a : mrel nil m a -> RedBlackHeap.rep nil' t0 np fr Leaf ->
  exists t a', CopyFrom (key_less lt) (key_equals eq) (tree_ m) t0 = Ok (t, ()) /\
    mrel nil' (mkCounted t (size_ m)) a' /\ (entries a').*2 = (entries a).*2.
Proof.
  intros [(np0 & t & n & H & E & B) Ho Hsz] H0. rewrite <- E in *.
  destruct (CopyFrom_ok nil' nil (key_less lt) (key_equals eq) _ _ _ t t0 np fr H Ho H0) as (s' & t' & n' & E' & H' & O' & B' & V').
  exists s', (mkOrdered (inorder t') (fr + length (inorder t))). split; [done|]. split; [|done]. split; cbn.
  - by exists np, t', n'.
  - done.
  - rewrite Hsz. rewrite <- (length_fmap snd (inorder t')), <- (length_fmap snd (inorder t)). unfold values in V'. by rewrite V'.
Qed.

Lemma Map_copy_ok nil nil' m a : mrel nil m a ->
  exists m' a', Map_copy lt eq nil' m = Ok m' /\ mrel nil' m' a' /\ (entries a').*2 = (entries a).*2.
Proof.
  intros H. destruct (copy_rel nil nil' nil' (S nil') (new_tree nil') m a H) as (t & a' & E & H' & V'); [apply new_tree_ok|].
  unfold Map_copy. rewrite E. eexists _, a'. by split.
Qed.

Lemma Map_assign_ok nil nil' m o a b : mrel nil m a -> mrel nil' o b ->
  exists m' a', Map_assign lt eq m o = Ok m' /\ mrel nil m' a' /\ (entries a').*2 = (entries b).*2.
Proof.
  intros [(np0 & t & n & H & E & B) Ho Hsz] Hb. destruct (Clear_ok nil _ _ _ _ H) as (s1 & E1 & H1).
  destruct (copy_rel nil' nil np0 (next a) s1 o b Hb H1) as (t' & a' & E' & H' & V').
  unfold Map_assign, copy_assign. rewrite (bind_ok _ _ _ _ _ E1), E'. eexists _, a'. by split.
Qed.

Lemma Map_move_assign_ok nil nil' m o a b : mrel nil m a -> mrel nil' o b ->
  exists m1 m2, Map_move_assign m o = Ok (m1, m2) /\ mrel nil' m1 b /\ mrel nil m2 (mkOrdered [] (next a)).
Proof using Type.
  intros [(np0 & t & n & H & E & B) Ho Hsz] Hb. destruct (Clear_ok nil _ _ _ _ H) as (s1 & E1 & H1).
  unfold Map_move_assign. rewrite E1. cbn. eexists _, _. split; [done|]. split; [by destruct o|]. split; [|done|done]. exists np0, Leaf, 0%nat. split; [done|]. split; [done|constructor].
Qed.

(** Programs without iterators in their operations. *)
Lemma reach_ops nil os m m' outs :
  reachable nil m -> Forall (fun o => match o with OpRead _ | OpWrite _ _ | OpNext _ | OpPrev _ | OpEraseAt _ => False | _ => True end) os ->
  run_ops (run_op lt eq dflt) os m = Ok (m', outs) -> reachable nil m'.
Proof using Type.
  intros Hm Hos. revert m outs Hm. induction Hos as [|o os Ho Hos IH]; intros m outs Hm; cbn; [by intros [= <- <-]|].
  destruct (run_op lt eq dflt o m) as [[m1 r]| |] eqn:E; [cbn|done|done]. destruct (run_ops (run_op lt eq dflt) os m1) as [[m2 rs]| |] eqn:Es; [cbn|done|done].
  intros [= <- <-]. apply (IH m1 rs); [|done]. eapply reach_op; [done| |done]. by destruct o.
Qed.

Lemma reachable_rel nil m : reachable nil m -> exists a, mrel nil m a.
Proof.
  induction 1 as [nil|nil m o m' r _ [a H] Hv E|nil nil' m m' _ [a H] E|nil nil' m o m' _ [a H] _ [b H'] E|nil nil' m m1 m2 _ [a H] E
    |nil nil' m m1 m2 _ [a H] E|nil nil' m o m1 m2 _ [a H] _ [b H'] E|nil nil' m o m1 m2 _ [a H] _ [b H'] E].
  - eexists. apply rel_empty.
  - destruct (valid_step nil o m a H Hv) as (m2 & r2 & a' & E' & H'). rewrite E in E'. injection E' as <- <-. by exists a'.
  - destruct (Map_copy_ok nil nil' m a H) as (m2 & a' & E' & H' & _). rewrite E in E'. injection E' as <-. by exists a'.
  - destruct (Map_assign_ok nil nil' m o a b H H') as (m2 & a' & E' & H2 & _). rewrite E in E'. injection E' as <-. by exists a'.
  - injection E as <- <-. exists a. by destruct m.
  - injection E as <- <-. eexists. apply rel_empty.
  - destruct (Map_move_assign_ok nil nil' m o a b H H') as (? & ? & E' & H1 & H2). rewrite E in E'. injection E' as <- <-. by exists b.
  - destruct (Map_move_assign_ok nil nil' m o a b H H') as (? & ? & E' & H1 & H2). rewrite E in E'. injection E' as <- <-. eauto.
Qed.

End WellFormed.

(** ** Set *)

Section Sets.

#[local] Set Default Proof Using "Type*".

Context {T : Type} (less_than equals : T -> T -> bool) (nil : nat) `{!Comparator less_than equals}.

Abbreviation rel := (rel (T := T) nil less_than).

Lemma Set_insert_ok c a v : rel c a ->
  exists c' r a', Set_insert less_than equals c v = Ok (c', r) /\ rel c' a' /\
    entries a' = match lookup_entry equals v (entries a) with Some _ => entries a | None => insert_entry less_than (next a, v) (entries a) end.
Proof.
  intros H. pose proof (ordered_rel_insert nil less_than equals c a v H) as Hi. unfold Set_insert.
  destruct (lookup_entry equals v (entries a)) as [e|].
  - rewrite Hi. cbn. eexists _, _, a. split; [done|]. split; [|done]. destruct c as [t n]. pose proof (rel_size _ _ _ _ H) as Hsz. cbn in Hsz |- *.
    replace (wrap 64 (n + 0)) with n; [done|]. rewrite Hsz, Z.add_0_r. unfold wrap. by rewrite Zmod_mod.
  - destruct Hi as (t & -> & H'). cbn. eexists _, _, _. by split.
Qed.

Lemma equals_trans u v w : equals u v = true -> equals v w = equals u w.
Proof.
  intros E. pose proof E as E'. rewrite (equals_sym less_than equals) in E'. apply eq_true_iff_eq.
  assert (H : forall u v w, equals u v = true -> equals v w = true -> equals u w = true).
  { clear u v w E E'. intros u v w E1 E2. rewrite (equals_spec less_than equals). apply andb_true_iff. split; apply negb_true_iff; apply not_true_is_false; intros D.
    - apply (cmp_equals_l v u w) in D; [|by rewrite (equals_sym less_than equals)]. rewrite (proj1 (lt_not_equals less_than equals _ _ D)) in E2. done.
    - rewrite (equals_sym less_than equals) in E1. apply (cmp_equals_r w u v) in D; [|by rewrite (equals_sym less_than equals)].
      rewrite (equals_sym less_than equals), (proj1 (lt_not_equals less_than equals _ _ D)) in E2. done. }
  split; intros Hw; by eapply H.
Qed.

(** Which values an ordered sequence has. *)
Definition has (v : T) (vs : list T) : Prop := exists w, w ∈ vs /\ equals v w = true.

Lemma lookup_has v (l : list (nat * T)) : is_Some (lookup_entry equals v l) <-> has v (l.*2).
Proof using Type.
  split.
  - intros [e [Hin%list_elem_of_In He]%List.find_some]. exists e.2. split; [|done]. apply list_elem_of_fmap. by exists e.
  - intros (w & (e & -> & He)%list_elem_of_fmap & Hw). unfold lookup_entry. destruct (List.find _ l) eqn:E; [done|].
    apply list_elem_of_In in He. pose proof (List.find_none _ _ E e He) as D. cbn in D. by rewrite D in Hw.
Qed.

(** Building a set from a list, from a set that has already some of the values. *)
Lemma Set_of_list_from vs c a : rel c a ->
  exists c' a', foldl (fun c v => c ← c; '(c, _) ← Set_insert less_than equals c v; Ok c) (Ok c) vs = Ok c' /\ rel c' a' /\
    (forall v, has v ((entries a').*2) <-> has v ((entries a).*2 ++ vs)) /\ (length (entries a') <= length (entries a) + length vs)%nat.
Proof.
  revert c a. induction vs as [|v vs IH]; intros c a H; cbn [foldl].
  - exists c, a. split; [done|]. split; [done|]. split; [intros w; by rewrite app_nil_r|cbn; lia].
  - destruct (Set_insert_ok c a v H) as (c1 & r & a1 & E1 & H1 & I1). destruct (IH c1 a1 H1) as (c2 & a2 & E2 & H2 & I2 & L2). exists c2, a2. split; [by cbn; rewrite E1|]. split; [done|].
    assert (Hv : forall w, has w ((entries a1).*2) <-> has w ((entries a).*2) \/ equals w v = true).
    { intros w. rewrite I1. destruct (lookup_entry equals v (entries a)) as [e|] eqn:El.
      - split; [by left|]. intros [?|Hw]; [done|]. destruct (proj1 (lookup_has v (entries a)) ltac:(eauto)) as (u & Hu & Hvu).
        exists u. split; [done|]. by rewrite <- (equals_trans w v u).
      - unfold has. setoid_rewrite (insert_entry_perm less_than (next a, v) (entries a)). cbn. split.
        + intros (u & [->|Hu]%elem_of_cons & Hw); [by right|left; by exists u].
        + intros [(u & Hu & Hw)|Hw]; [exists u; split; [by apply elem_of_cons; right|done]|exists v; split; [apply list_elem_of_here|done]]. }
    split.
    + intros w. rewrite I2. unfold has in *. setoid_rewrite elem_of_app. setoid_rewrite elem_of_cons. specialize (Hv w). split.
      * intros (u & [Hu|Hu] & Hw); [destruct (proj1 Hv (ex_intro _ u (conj Hu Hw))) as [(x & ? & ?)|?]; eauto|eauto].
      * intros (u & [Hu|[->|Hu]] & Hw); [destruct (proj2 Hv (or_introl (ex_intro _ u (conj Hu Hw)))) as (x & ? & ?); eauto|destruct (proj2 Hv (or_intror Hw)) as (x & ? & ?); eauto|eauto].
    + cbn [length]. rewrite I1 in L2. destruct (lookup_entry equals v (entries a)); [lia|]. rewrite (Permutation_length (insert_entry_perm less_than _ _)) in L2. cbn in L2. lia.
Qed.

(** The range-for loop passes every value once, in order, and ends. *)
Lemma visit_ok fuel c a l1 l2 : rel c a -> entries a = l1 ++ l2 -> (length l2 < fuel)%nat -> visit fuel c (first_of nil l2) nil = Ok (l2.*2).
Proof using Type.
  revert l1 l2. induction fuel as [|fuel IH]; intros l1 l2 H E Hf; [lia|]. cbn [visit]. destruct l2 as [|[it v] l2]; cbn [first_of fst].
  - by rewrite Nat.eqb_refl.
  - destruct (rel_nodup nil less_than c a H) as [Hd Hn]. rewrite E in Hd, Hn. rewrite fmap_app, fmap_cons in Hd, Hn. cbn [fst] in Hd, Hn.
    apply list.NoDup_app in Hd as (_ & Hd & _). rewrite not_elem_of_app, not_elem_of_cons in Hn.
    assert (Hi : it ∉ l1.*1) by (intros Hi; by apply (Hd it Hi), list_elem_of_here).
    assert (He : entry_at it (entries a) = Some (it, v)) by (rewrite E; by apply entry_at_app).
    rewrite (proj2 (Nat.eqb_neq it nil)) by (intros ->; tauto). unfold Set_read, Set_next.
    rewrite (rel_value nil less_than c a it (it, v) H He). cbn -[on_tree visit]. rewrite (rel_next nil less_than c a it (it, v) H He). cbn -[visit].
    rewrite E, next_of_app by done. cbn [length] in Hf. rewrite (IH (l1 ++ [(it, v)]) l2 H); [done|by rewrite E, <- app_assoc|lia].
Qed.

Lemma for_each_ok fuel c a : rel c a -> (length (entries a) < fuel)%nat -> for_each fuel c = Ok ((entries a).*2).
Proof using Type.
  intros H Hf. unfold for_each, Set_begin, Set_end. rewrite (rel_begin nil less_than c a H). cbn -[on_tree visit].
  rewrite (rel_end nil less_than c a H). cbn -[visit]. by apply (visit_ok fuel c a [] (entries a)).
Qed.

End Sets.

(** ** Theorems *)

Section Theorems.

Context {K V : Type} (lt eq : K -> K -> bool) (dflt : V) (nil : nat) `{!Comparator lt eq}.

(** C14. base::Map implements a sorted association list with stable addresses: every
    program of insertions, removals by key and by iterator, lookups, bounds, iterator
    steps, reads and writes through iterators that is legal on the list returns, with
    the results the list gives, and leaves a map that stands for the final list. *)
Theorem Map_programs (os : list op) a' outs :
  spec_ops (spec_op lt eq dflt nil) os (mkOrdered [] (S nil)) = Some (a', outs) ->
  exists m', run_ops (run_op lt eq dflt) os (empty_counted nil) = Ok (m', outs) /\ rel nil (key_less lt) m' a'.
Proof using Comparator0.
  intros Hs. pose proof (programs_refine (run_op lt eq dflt) (spec_op lt eq dflt nil) (fun _ _ => True) _ os _ _ a' outs (rel_empty nil (key_less (V := V) lt)) Hs) as (_ & _ & H).
  apply H. clear. generalize (mkOrdered (T := K * V) [] (S nil)). induction os as [|o os IH]; intros a; cbn; [done|]. split; [done|]. by destruct (spec_op _ _ _ _ _ _) as [[]|].
Qed.

(** C15. Every map that operations, copies, moves and assignments can build is well
    formed: its heap is exactly one tree and the sentinel, the tree is red-black (no red
    node has a red child, all paths have as many black nodes) with a black root, its keys
    are strictly ordered, its height is at most twice the logarithm of the number of its
    elements plus one, and the size field counts them; and on such a map every operation
    with valid iterators returns and keeps all of this. *)
Theorem Map_well_formed m :
  reachable lt eq dflt nil m ->
  (exists t np fr bh, rep nil (tree_ m) np fr t /\ rb t BLACK bh /\ ordered (key_less lt) (inorder t) /\
     Z.of_nat (height t) <= 2 * Z.log2 (Z.of_nat (length (inorder t)) + 1) /\ size_ m = wrap 64 (Z.of_nat (length (inorder t)))) /\
  forall o, valid_op nil o m -> exists m' r, run_op lt eq dflt o m = Ok (m', r) /\ reachable lt eq dflt nil m'.
Proof using Comparator0.
  intros Hm. destruct (reachable_rel lt eq dflt nil m Hm) as [a H]. split.
  - destruct H as [(np & t & bh & H & E & B) Ho Hsz]. rewrite <- E in *. exists t, np, (next a), bh. split; [done|]. split; [done|]. split; [done|]. split; [|done].
    by eapply rb_log_height.
  - intros o Ho. destruct (valid_step lt eq dflt nil o m a H Ho) as (m' & r & a' & Er & _). exists m', r. split; [done|]. by eapply reach_op.
Qed.

(** C16. A search takes logarithmic time: with [n] elements, the descent from the root ends
    after at most [2 log2 (n + 1) + 1] turns of its loop, with the result of [Find]. *)
Theorem Find_logarithmic m k :
  reachable lt eq dflt nil m ->
  let n := Z.of_nat (base.size (heap (tree_ m))) - 1 in
  exists r, SearchTree_loop (key_less lt) (key_equals eq) (Z.to_nat (2 * Z.log2 (n + 1) + 1)) (root_ (tree_ m)) (Probe dflt k) (tree_ m) = Ok (tree_ m, r) /\
    Map_find lt eq dflt m k = Ok (m, r).
Proof using Comparator0.
  intros Hm n. destruct (reachable_rel lt eq dflt nil m Hm) as [a H]. pose proof (rel_find nil (key_less lt) (key_equals eq) m a (Probe dflt k) H) as Ef.
  destruct H as [(np & t & bh & H & E & B) Ho Hsz]. rewrite <- E in *.
  exists (address nil (lookup_entry (key_equals eq) (Probe dflt k) (inorder t))). split; [|exact Ef].
  rewrite (rep_root _ _ _ _ _ H). apply (SearchTree_loop_ok nil (key_less lt) (key_equals eq) _ [] t); [by eapply rep_view|done|].
  pose proof (rb_log_height t BLACK bh B eq_refl) as Hh. unfold n. rewrite (rep_size _ _ _ _ _ H).
  rewrite <- (Permutation_length (addrs_inorder t)), length_fmap. replace (Z.of_nat (S (length (inorder t))) - 1 + 1) with (Z.of_nat (length (inorder t)) + 1) by lia. lia.
Qed.

End Theorems.

Section SetTheorems.

Context {T : Type} (less_than equals : T -> T -> bool) (nil : nat) `{!Comparator less_than equals}.

(** Building a base::Set from a list and walking it with the range-for loop sorts the
    list and drops its duplicates: the walk ends, its values are strictly increasing, and
    they are, up to [equals], the values of the list. *)
Theorem Set_sorts (vs : list T) :
  exists c out, Set_of_list less_than equals nil vs = Ok c /\ for_each (S (length vs)) c = Ok out /\
    StronglySorted (fun v w => less_than v w = true) out /\ forall v, has equals v out <-> has equals v vs.
Proof using Comparator0.
  destruct (Set_of_list_from less_than equals nil vs (empty_counted nil) _ (rel_empty nil less_than)) as (c & a & E & H & I & L).
  exists c, ((entries a).*2). split; [exact E|]. split; [apply (for_each_ok less_than nil _ c a H); cbn in L; lia|].
  split; [apply ordered_values, H|exact I].
Qed.

End SetTheorems.

(** ** Examples *)

#[export] Instance Z_comparator : Comparator Z.ltb Z.eqb.
Proof.
  split.
  - intros x y z. rewrite !Z.ltb_lt. lia.
  - intros x y. rewrite (Z.eqb_sym x y). destruct (Z.ltb_spec x y), (Z.ltb_spec y x), (Z.eqb_spec y x); cbn; lia || done.
  - intros x. apply Z.ltb_irrefl.
  - intros x y z. rewrite Z.eqb_eq, !Z.ltb_lt. lia.
  - intros x y z. rewrite Z.eqb_eq, !Z.ltb_lt. lia.
Qed.

Definition example_ops : list (op (K := Z) (V := Z)) :=
  [OpEmplace 5 50; OpEmplace 1 10; OpSubscript 3; OpWrite 3 30; OpEmplace 4 40; OpEmplace 2 20; OpEmplace 3 99;
   OpLowerBound 3; OpUpperBound 3; OpErase 3; OpFindPointer 3; OpBegin; OpNext 2; OpRead 5; OpEraseAt 5; OpPrev 0; OpCount 4; OpSize].

Definition example_outs : list (out (K := Z) (V := Z)) :=
  [Added 1 true; Added 2 true; Where 3; Done; Added 4 true; Added 5 true; Added 3 false;
   Where 3; Where 4; Flag true; Pointer None; Where 2; Where 5; Elem (2, 20); Where 4; Where 1; Number 1; Number 3].

Lemma Map_programs_witness :
  exists m', run_ops (run_op Z.ltb Z.eqb 0) example_ops (empty_counted 0) = Ok (m', example_outs) /\
    rel 0 (key_less Z.ltb) m' (mkOrdered [(2%nat, (1, 10)); (4%nat, (4, 40)); (1%nat, (5, 50))] 6).
Proof. apply (Map_programs Z.ltb Z.eqb 0 0 example_ops). reflexivity. Defined.

(** A map of three elements. *)
Definition example_map : Map (K := Z) (V := Z) :=
  match run_ops (run_op Z.ltb Z.eqb 0) [OpEmplace 1 10; OpEmplace 3 30; OpEmplace 2 20] (empty_counted 0) with Ok (m, _) => m | _ => empty_counted 0 end.

Lemma example_reachable : reachable Z.ltb Z.eqb 0 0 example_map.
Proof.
  apply (reach_ops Z.ltb Z.eqb 0 0 [OpEmplace 1 10; OpEmplace 3 30; OpEmplace 2 20] (empty_counted 0) example_map [Added 1 true; Added 2 true; Added 3 true]).
  - apply reach_new.
  - repeat constructor.
  - vm_compute. reflexivity.
Qed.

Lemma Map_well_formed_witness : size_ example_map = 3 /\
  exists m' r, run_op Z.ltb Z.eqb 0 (OpErase 1) example_map = Ok (m', r) /\ reachable Z.ltb Z.eqb 0 0 m'.
Proof. split; [vm_compute; reflexivity|]. exact (proj2 (Map_well_formed Z.ltb Z.eqb 0 0 example_map example_reachable) (OpErase 1) I). Defined.

Lemma Find_logarithmic_witness :
  let n := Z.of_nat (base.size (heap (tree_ example_map))) - 1 in
  n = 3 /\
  exists r, SearchTree_loop (key_less Z.ltb) (key_equals Z.eqb) (Z.to_nat (2 * Z.log2 (n + 1) + 1)) (root_ (tree_ example_map)) (Probe 0 2) (tree_ example_map) = Ok (tree_ example_map, r) /\
    Map_find Z.ltb Z.eqb 0 example_map 2 = Ok (example_map, r).
Proof. split; [vm_compute; reflexivity|]. exact (Find_logarithmic Z.ltb Z.eqb 0 0 example_map 2 example_reachable). Defined.

Lemma Set_sorts_witness : exists c out, Set_of_list Z.ltb Z.eqb 0 [3; 1; 3; 2] = Ok c /\ for_each 5 c = Ok out /\
  StronglySorted (fun v w => (v <? w) = true) out /\ forall v, has Z.eqb v out <-> has Z.eqb v [3; 1; 3; 2].
Proof. exact (Set_sorts Z.ltb Z.eqb 0 [3; 1; 3; 2]). Defined.

Example Set_sorts_example : (c ← Set_of_list Z.ltb Z.eqb 0 [3; 1; 3; 2]; for_each 5 c) = Ok [1; 2; 3].
Proof. vm_compute. reflexivity. Qed.
