(* ===== verification/CMemory.v ===== *)
(** * Byte memory (memory/mem_ops.h)

    The strings of the library share storage between fields, copy whole objects byte by
    byte and take pointers into buffers they are about to replace.  Their model is
    therefore a memory of blocks of bytes: a byte is uninitialised, a number, or a
    fragment of a stored pointer.  A block is static (an object, a literal) or dynamic
    (from the allocator); a pointer is a block and an offset.  An access outside a block
    or after its end of life, a value read from uninitialised bytes, an overlapping
    [MemCopy] and a wrong [Free] are [Undef]. *)

From stdpp Require Import gmap.
From S2P Require Import Prelude Memory.

Set Default Proof Using "Type".

Inductive mbyte := Uninit | Byte (z : Z) | Frag (a i : nat).

#[export] Instance mbyte_eq_dec : EqDecision mbyte.
Proof. solve_decision. Defined.

Definition mblock : Type := bool * list mbyte.

Record memory := mkMemory { blocks : gmap nat mblock; next_block : nat }.

Abbreviation ptr := (nat * nat)%type.

Definition Prog (A : Type) : Type := memory -> res (memory * A).

#[export] Instance Prog_ret : MRet Prog := fun A a m => Ok (m, a).
#[export] Instance Prog_bind : MBind Prog := fun A B k p m => '(m, a) ← p m; k a m.

Definition lift {A} (r : res A) : Prog A := fun m => a ← r; Ok (m, a).
Definition bug_check (b : bool) : Prog () := lift (dcheck b).

Definition advance_ptr (p : ptr) (n : Z) : ptr := (p.1, (p.2 + Z.to_nat n)%nat).

(** ** Bytes *)

(** [xs] in place of the elements of [l] from [off] on. *)
Definition splice {A} (l : list A) (off : nat) (xs : list A) : list A := take off l ++ xs ++ drop (off + length xs) l.

Definition load_bytes (p : ptr) (n : nat) : Prog (list mbyte) := fun m =>
  match blocks m !! p.1 with
  | Some (_, c) => if (p.2 + n <=? length c)%nat then Ok (m, take n (drop p.2 c)) else Undef
  | None => Undef
  end.

Definition store_bytes (p : ptr) (xs : list mbyte) : Prog () := fun m =>
  match blocks m !! p.1 with
  | Some (d, c) =>
    if (p.2 + length xs <=? length c)%nat then Ok (mkMemory (<[p.1 := (d, splice c p.2 xs)]> (blocks m)) (next_block m), ()) else Undef
  | None => Undef
  end.

(** ** The raw operations; for no bytes the pointers do not matter *)

Definition MemMove (dst src : ptr) (n : nat) : Prog () :=
  if (n =? 0)%nat then mret () else xs ← load_bytes src n; store_bytes dst xs.

Definition overlap (p q : ptr) (n : nat) : bool := (p.1 =? q.1)%nat && (p.2 <? q.2 + n)%nat && (q.2 <? p.2 + n)%nat.

Definition MemCopy (dst src : ptr) (n : nat) : Prog () := if overlap dst src n then lift Undef else MemMove dst src n.

Definition MemSet (dst : ptr) (value : Z) (n : nat) : Prog () :=
  if (n =? 0)%nat then mret () else store_bytes dst (replicate n (Byte (u8 value))).

Fixpoint as_numbers (xs : list mbyte) : option (list Z) :=
  match xs with
  | [] => Some []
  | Byte z :: xs => zs ← as_numbers xs; Some (z :: zs)
  | _ => None
  end.

Definition load_numbers (p : ptr) (n : nat) : Prog (list Z) :=
  xs ← load_bytes p n; lift (match as_numbers xs with Some zs => Ok zs | None => Undef end).

(** The sign of the first difference. *)
Fixpoint compare_numbers (xs ys : list Z) : Z :=
  match xs, ys with
  | x :: xs, y :: ys => if x =? y then compare_numbers xs ys else if x <? y then -1 else 1
  | _, _ => 0
  end.

Definition MemCompare (lhs rhs : ptr) (n : nat) : Prog Z :=
  if (n =? 0)%nat then mret 0 else xs ← load_numbers lhs n; ys ← load_numbers rhs n; mret (compare_numbers xs ys).

(** ** Typed accesses *)

Definition load_byte (p : ptr) : Prog Z := zs ← load_numbers p 1; mret (List.hd 0 zs).
Definition store_byte (p : ptr) (z : Z) : Prog () := store_bytes p [Byte z].

(** Little endian. *)
Fixpoint bytes_of (n : nat) (z : Z) : list Z := match n with O => [] | S n => z mod 256 :: bytes_of n (z / 256) end.

Definition load_u64 (p : ptr) : Prog Z := zs ← load_numbers p 8; mret (lval 256 zs).
Definition store_u64 (p : ptr) (z : Z) : Prog () := store_bytes p (Byte <$> bytes_of 8 z).

Definition fragments (a : nat) : list mbyte := Frag a <$> seq 0 8.

Definition load_ptr (p : ptr) : Prog nat :=
  xs ← load_bytes p 8;
  lift (match xs with Frag a _ :: _ => if decide (xs = fragments a) then Ok a else Undef | _ => Undef end).

Definition store_ptr (p : ptr) (a : nat) : Prog () := store_bytes p (fragments a).

(** ** Blocks *)

Section Allocator.

(** Which requests the allocator grants. *)
Context (allocates : Z -> bool).

Definition Allocate (n : Z) : Prog (option nat) := fun m =>
  if allocates n then Ok (mkMemory (<[next_block m := (true, replicate (Z.to_nat n) Uninit)]> (blocks m)) (S (next_block m)), Some (next_block m))
  else Ok (m, None).

End Allocator.

Definition Free (a : nat) (n : Z) : Prog () := fun m =>
  match blocks m !! a with
  | Some (true, c) => if Z.of_nat (length c) =? n then Ok (mkMemory (delete a (blocks m)) (next_block m), ()) else Undef
  | _ => Undef
  end.

(** The storage of an object of automatic lifetime: [n] bytes, and its end. *)
Definition begin_object (n : nat) : Prog nat := fun m =>
  Ok (mkMemory (<[next_block m := (false, replicate n Uninit)]> (blocks m)) (S (next_block m)), next_block m).

Definition end_object (a : nat) : Prog () := fun m =>
  match blocks m !! a with Some (false, _) => Ok (mkMemory (delete a (blocks m)) (next_block m), ()) | _ => Undef end.

(** ** Reasoning *)

Definition with_block (m : memory) (a : nat) (b : mblock) : memory := mkMemory (<[a := b]> (blocks m)) (next_block m).

Lemma prog_bind {A B} (p : Prog A) (k : A -> Prog B) m m' a : p m = Ok (m', a) -> (p ≫= k) m = k a m'.
Proof. intros E. unfold mbind, Prog_bind. by rewrite E. Qed.

Lemma prog_wp_bind {A B} R (p : Prog A) (k : A -> Prog B) m P Q :
  wp R (p m) (fun q => Q q.1 q.2) -> (forall m' a, Q m' a -> wp R (k a m') P) -> wp R ((p ≫= k) m) P.
Proof. unfold mbind, Prog_bind. destruct (p m) as [[m' a]| |]; cbn; auto. Qed.

Lemma length_splice {A} (l : list A) off xs : (off + length xs <= length l)%nat -> length (splice l off xs) = length l.
Proof. intros H. unfold splice. rewrite !length_app, length_take, length_drop. lia. Qed.

Lemma splice_nil {A} (l : list A) off : splice l off [] = l.
Proof. unfold splice. rewrite Nat.add_0_r. apply take_drop. Qed.

Lemma splice_middle {A} (l1 l2 l3 xs : list A) : length xs = length l2 -> splice (l1 ++ l2 ++ l3) (length l1) xs = l1 ++ xs ++ l3.
Proof.
  intros E. unfold splice. rewrite take_app_length. rewrite E, drop_app_add, drop_app_length. done.
Qed.

Lemma splice_app_l {A} (l1 l2 : list A) off xs : (off + length xs <= length l1)%nat -> splice (l1 ++ l2) off xs = splice l1 off xs ++ l2.
Proof.
  intros H. unfold splice. rewrite take_app_le by lia. rewrite drop_app_le by lia. by rewrite <- !app_assoc.
Qed.

Lemma load_bytes_ok p n m d c : blocks m !! p.1 = Some (d, c) -> (p.2 + n <= length c)%nat -> load_bytes p n m = Ok (m, take n (drop p.2 c)).
Proof. intros E H. unfold load_bytes. rewrite E. by rewrite (proj2 (Nat.leb_le _ _) H). Qed.

Lemma store_bytes_ok p xs m d c : blocks m !! p.1 = Some (d, c) -> (p.2 + length xs <= length c)%nat ->
  store_bytes p xs m = Ok (with_block m p.1 (d, splice c p.2 xs), ()).
Proof. intros E H. unfold store_bytes. rewrite E. by rewrite (proj2 (Nat.leb_le _ _) H). Qed.

Lemma free_ok a n m c : blocks m !! a = Some (true, c) -> Z.of_nat (length c) = n ->
  Free a n m = Ok (mkMemory (delete a (blocks m)) (next_block m), ()).
Proof. intros E <-. unfold Free. rewrite E. by rewrite Z.eqb_refl. Qed.

Lemma as_numbers_bytes zs : as_numbers (Byte <$> zs) = Some zs.
Proof. induction zs as [|z zs IH]; cbn; [done|]. by rewrite IH. Qed.

Lemma load_numbers_ok p n m d c zs : blocks m !! p.1 = Some (d, c) -> (p.2 + n <= length c)%nat -> take n (drop p.2 c) = Byte <$> zs ->
  load_numbers p n m = Ok (m, zs).
Proof. intros E H Ez. unfold load_numbers. rewrite (prog_bind _ _ _ _ _ (load_bytes_ok _ _ _ _ _ E H)), Ez, as_numbers_bytes. done. Qed.

Lemma lval_bytes n z : 0 <= z < 256 ^ Z.of_nat n -> lval 256 (bytes_of n z) = z.
Proof.
  revert z. induction n as [|n IH]; intros z H; cbn [bytes_of lval].
  - cbn in H. lia.
  - rewrite Nat2Z.inj_succ, Z.pow_succ_r in H by lia. rewrite IH; [pose proof (Z_div_mod_eq_full z 256); lia|].
    split; [apply Z.div_pos; lia|apply Z.div_lt_upper_bound; lia].
Qed.

Lemma length_bytes_of n z : length (bytes_of n z) = n.
Proof. revert z. induction n as [|n IH]; intros z; cbn; [done|]. by rewrite IH. Qed.

Lemma length_fragments a : length (fragments a) = 8%nat.
Proof. done. Qed.
