(* ===== verification/BaseString.v ===== *)
(** * base::BasicBaseString<char> (strings/base_string.h, strings/char_algorithms.h): the code

    A string object is 24 bytes: either a pointer, a size and a capacity, or 22
    characters, their terminator and a byte that holds the size; the top bit of the last
    byte, which is also the top bit of the capacity, tells which.  Everything below works
    on those bytes, through the address [this] of the object.  The size type is 64 bits
    wide, a character one byte.  [None] is the null pointer. *)

From stdpp Require Import gmap.
From S2P Require Import Prelude Memory CMemory.

Set Default Proof Using "Type".

(** ** char_algorithms.h *)

(** [strlen], and the loop that stops at a limit; the fuel is the length of the block. *)
Fixpoint count_loop (fuel : nat) (p : ptr) (limit n : Z) : Prog Z :=
  match fuel with
  | O => lift Undef
  | S fuel =>
    if n =? limit then mret n
    else c ← load_byte (advance_ptr p n); if c =? 0 then mret n else count_loop fuel p limit (n + 1)
  end.

Definition block_length (p : ptr) : Prog nat := fun m =>
  match blocks m !! p.1 with Some (_, c) => Ok (m, length c) | None => Undef end.

Definition CountStringLength (p : ptr) (limit : Z) : Prog Z := n ← block_length p; count_loop (S n) p limit 0.

Definition kNoLimit : Z := mem_size_max.

Fixpoint find_char_loop (fuel : nat) (haystack : ptr) (needle : Z) : Prog (option ptr) :=
  match fuel with
  | O => lift Undef
  | S fuel =>
    c ← load_byte haystack;
    if c =? needle then mret (Some haystack) else if c =? 0 then mret None else find_char_loop fuel (advance_ptr haystack 1) needle
  end.

Definition FindChar (haystack : ptr) (needle : Z) : Prog (option ptr) := n ← block_length haystack; find_char_loop (S n) haystack needle.

Fixpoint find_last_loop (fuel : nat) (haystack : ptr) (needle : Z) (found : option ptr) : Prog (option ptr) :=
  match fuel with
  | O => lift Undef
  | S fuel =>
    c ← load_byte haystack;
    let found := if c =? needle then Some haystack else found in
    if c =? 0 then mret found else find_last_loop fuel (advance_ptr haystack 1) needle found
  end.

Definition FindLastChar (haystack : ptr) (needle : Z) : Prog (option ptr) := n ← block_length haystack; find_last_loop (S n) haystack needle None.

Fixpoint FindNullTerminator_loop (n : nat) (p s : ptr) : Prog Z :=
  match n with
  | O => mret 0
  | S n => c ← load_byte s; if c =? 0 then mret (Z.of_nat s.2 - Z.of_nat p.2) else FindNullTerminator_loop n p (advance_ptr s 1)
  end.

Definition FindNullTerminator (p : ptr) (n : Z) : Prog Z := FindNullTerminator_loop (Z.to_nat n) p p.

(** [base::find] on a character range, as the index of the hit, or the length. *)
Fixpoint find_in (n : nat) (first : ptr) (value : Z) : Prog Z :=
  match n with
  | O => mret 0
  | S n => c ← load_byte first; if c =? value then mret 0 else i ← find_in n (advance_ptr first 1) value; mret (i + 1)
  end.

(** ** Layout *)

Definition npos : Z := mem_size_max.
Definition kLargeFlag : Z := 0x80.
Definition sizeof_LargeLayout : Z := 24.
Definition kSmallCapacity : Z := (sizeof_LargeLayout - 1) / 1 - 1.
Definition kSmallTailBytes : Z := sizeof_LargeLayout - (kSmallCapacity + 1) * 1.

Definition kCapacityFlagBit : Z := Z.shiftl kLargeFlag 56.
Definition kCapacityFieldMax : Z := Z.land mem_size_max (u64 (Z.lnot kCapacityFlagBit)).
Definition kBufferBytesMax : Z := Z.min mem_size_max (2 ^ 63 - 1).
Definition kCharCountMax : Z := kBufferBytesMax / 1 - 1.
Definition kMaxCapacity : Z := if kCapacityFieldMax <? kCharCountMax then kCapacityFieldMax else kCharCountMax.

(** The members of the union: [large_.data_], [large_.size_], [large_.capacity_], and the
    last element of [small_.tail_]. *)
Definition data_field (this : nat) : ptr := (this, 0%nat).
Definition size_field (this : nat) : ptr := (this, 8%nat).
Definition capacity_field (this : nat) : ptr := (this, 16%nat).
Definition flag_field (this : nat) : ptr := (this, 23%nat).

Section String.

Context (allocates : Z -> bool).

Definition flag_byte (this : nat) : Prog Z := load_byte (flag_field this).

Definition is_large (this : nat) : Prog bool := f ← flag_byte this; mret (negb (Z.land f kLargeFlag =? 0)).

Definition get_size (this : nat) : Prog Z :=
  l ← is_large this; if l : bool then load_u64 (size_field this) else f ← flag_byte this; mret (Z.land f (Z.lnot kLargeFlag)).

Definition get_data (this : nat) : Prog ptr :=
  l ← is_large this; if l : bool then d ← load_ptr (data_field this); mret (d, 0%nat) else mret (this, 0%nat).

Definition get_capacity (this : nat) : Prog Z :=
  l ← is_large this;
  if negb l then mret kSmallCapacity
  else c ← load_u64 (capacity_field this); mret (Z.land c (u64 (Z.lnot (Z.shiftl kLargeFlag 56)))).

Definition set_size (this : nat) (new_size : Z) : Prog () :=
  l ← is_large this;
  if l : bool then store_u64 (size_field this) new_size else store_byte (flag_field this) (u8 (Z.land new_size (Z.lnot kLargeFlag))).

Definition ensure_null_terminated (this : nat) : Prog () := d ← get_data this; n ← get_size this; store_byte (advance_ptr d n) 0.

Definition init_empty (this : nat) : Prog () :=
  _ ← store_u64 (size_field this) 0; _ ← store_byte (flag_field this) 0; store_byte (this, 0%nat) 0.

(** [flag_byte() |= kLargeFlag] *)
Definition set_large (this : nat) : Prog () := f ← flag_byte this; store_byte (flag_field this) (Z.lor f kLargeFlag).

(** ** Capacity *)

Definition buffer_byte_size (capacity : Z) : Z := u64 ((capacity + 1) * 1).

Definition allocate_buffer (capacity : Z) : Prog nat :=
  _ ← lift (fatal_check (capacity <=? kMaxCapacity));
  data ← Allocate allocates (buffer_byte_size capacity);
  lift (match data with Some data => Ok data | None => Fatal end).

Definition checked_length_sum (a b : Z) : Prog Z :=
  _ ← lift (fatal_check (a <=? u64 (mem_size_max - b))); mret (u64 (a + b)).

Definition grow_capacity (required : Z) : Z :=
  if required >=? kMaxCapacity then required
  else
    let headroom := kMaxCapacity - required in
    let extra := required / 2 in
    u64 (required + (if extra <? headroom then extra else headroom)).

Definition deallocate_large (this : nat) : Prog () :=
  l ← is_large this;
  if l : bool then d ← load_ptr (data_field this); c ← get_capacity this; Free d (buffer_byte_size c) else mret ().

(** [large_ = {data, size, capacity}] with the flag set. *)
Definition install (this data : nat) (size capacity : Z) : Prog () :=
  _ ← deallocate_large this;
  _ ← store_ptr (data_field this) data;
  _ ← store_u64 (size_field this) size;
  _ ← store_u64 (capacity_field this) capacity;
  set_large this.

Definition realloc_to (this : nat) (target_capacity : Z) : Prog () :=
  n ← get_size this;
  _ ← bug_check (n <=? target_capacity);
  new_data ← allocate_buffer target_capacity;
  cur_size ← get_size this;
  _ ← (if 0 <? cur_size then d ← get_data this; MemCopy (new_data, 0%nat) d (Z.to_nat cur_size) else mret ());
  _ ← store_byte (new_data, Z.to_nat cur_size) 0;
  install this new_data cur_size target_capacity.

Definition grow_to_at_least (this : nat) (min_capacity : Z) : Prog () :=
  c ← get_capacity this; if c <? min_capacity then realloc_to this (grow_capacity min_capacity) else mret ().

(** ** Contents *)

Definition clear (this : nat) : Prog () := _ ← deallocate_large this; init_empty this.

Definition assign (this : nat) (str : option ptr) (len : Z) : Prog () :=
  match str with
  | None => clear this
  | Some str =>
    if len =? 0 then clear this
    else
      c ← get_capacity this;
      if c <? len then
        new_data ← allocate_buffer len;
        _ ← MemCopy (new_data, 0%nat) str (Z.to_nat len);
        _ ← store_byte (new_data, Z.to_nat len) 0;
        install this new_data len len
      else
        d ← get_data this;
        _ ← MemMove d str (Z.to_nat len);
        _ ← set_size this len;
        ensure_null_terminated this
  end.

Definition assign_cstr (this : nat) (str : ptr) : Prog () := n ← CountStringLength str kNoLimit; assign this (Some str) n.

Definition assign_string (this other : nat) : Prog () := d ← get_data other; n ← get_size other; assign this (Some d) n.

(** The constructors; the storage of the object is there. *)
Definition construct_empty (this : nat) : Prog () := init_empty this.

Definition construct_cstr (this : nat) (str : option ptr) : Prog () :=
  _ ← init_empty this; match str with Some str => assign_cstr this str | None => mret () end.

Definition construct_chars (this : nat) (str : option ptr) (len : Z) : Prog () := _ ← init_empty this; assign this str len.

(** [for (i = 0; i < n; ++i) p[i] = c] *)
Fixpoint fill_chars (n : nat) (p : ptr) (c : Z) : Prog () :=
  match n with O => mret () | S n => _ ← store_byte p c; fill_chars n (advance_ptr p 1) c end.

Definition construct_fill (this : nat) (count c : Z) : Prog () :=
  _ ← init_empty this;
  if 0 <? count then
    _ ← grow_to_at_least this count;
    d ← get_data this;
    _ ← fill_chars (Z.to_nat count) d c;
    _ ← set_size this count;
    ensure_null_terminated this
  else mret ().

(** [BasicBaseString(const char (&arr)[N])] *)
Definition construct_array (this : nat) (arr : ptr) (N : Z) : Prog () :=
  _ ← init_empty this; n ← CountStringLength arr (if 0 <? N then N - 1 else 0); assign this (Some arr) n.

Definition copy_construct (this other : nat) : Prog () :=
  _ ← init_empty this;
  l ← is_large other;
  if l : bool then d ← load_ptr (data_field other); n ← load_u64 (size_field other); assign this (Some (d, 0%nat)) n
  else MemCopy (this, 0%nat) (other, 0%nat) 24.

Definition move_construct (this other : nat) : Prog () := _ ← MemCopy (this, 0%nat) (other, 0%nat) 24; init_empty other.

Definition destruct_string (this : nat) : Prog () := deallocate_large this.

Definition copy_assign (this other : nat) : Prog () := if (this =? other)%nat then mret () else assign_string this other.

Definition move_assign (this other : nat) : Prog () :=
  if (this =? other)%nat then mret ()
  else _ ← deallocate_large this; _ ← MemCopy (this, 0%nat) (other, 0%nat) 24; init_empty other.

(** ** Access *)

Definition empty (this : nat) : Prog bool := n ← get_size this; mret (n =? 0).

Definition at_ (this : nat) (pos : Z) : Prog Z := n ← get_size this; _ ← bug_check (pos <? n); d ← get_data this; load_byte (advance_ptr d pos).
Definition set_at (this : nat) (pos c : Z) : Prog () := n ← get_size this; _ ← bug_check (pos <? n); d ← get_data this; store_byte (advance_ptr d pos) c.
Definition front (this : nat) : Prog Z := e ← empty this; _ ← bug_check (negb e); d ← get_data this; load_byte d.
Definition back (this : nat) : Prog Z := e ← empty this; _ ← bug_check (negb e); d ← get_data this; n ← get_size this; load_byte (advance_ptr d (n - 1)).

Definition byte_size (this : nat) : Prog Z := n ← get_size this; mret (n * 1).
Definition is_inline (this : nat) : Prog bool := l ← is_large this; mret (negb l).
Definition max_size : Z := kMaxCapacity.

Definition reserve (this : nat) (new_capacity : Z) : Prog () :=
  c ← get_capacity this; if c <? new_capacity then realloc_to this new_capacity else mret ().

Definition resize (this : nat) (new_size : Z) : Prog () :=
  old_size ← get_size this;
  _ ← (if old_size <? new_size then
         _ ← grow_to_at_least this new_size; d ← get_data this; MemSet (advance_ptr d old_size) 0 (Z.to_nat (new_size - old_size))
       else mret ());
  _ ← set_size this new_size;
  ensure_null_terminated this.

(** [buf] is the snapshot on the stack. *)
Definition shrink_to_fit (this : nat) : Prog () :=
  l ← is_large this;
  n ← get_size this;
  c ← get_capacity this;
  if negb l || (n =? c) then mret ()
  else
    current_size ← get_size this;
    if current_size <=? kSmallCapacity then
      old_data ← load_ptr (data_field this);
      old_capacity ← get_capacity this;
      buf ← (if 0 <? current_size then load_bytes (old_data, 0%nat) (Z.to_nat current_size) else mret []);
      _ ← init_empty this;
      _ ← store_bytes (this, 0%nat) buf;
      _ ← store_byte (flag_field this) (u8 (Z.land current_size (Z.lnot kLargeFlag)));
      _ ← ensure_null_terminated this;
      Free old_data (buffer_byte_size old_capacity)
    else
      new_data ← allocate_buffer current_size;
      old_data ← load_ptr (data_field this);
      _ ← MemCopy (new_data, 0%nat) (old_data, 0%nat) (Z.to_nat current_size);
      _ ← store_byte (new_data, Z.to_nat current_size) 0;
      install this new_data current_size current_size.

(** ** Modification *)

Definition append (this : nat) (str : ptr) (count : Z) : Prog () :=
  if count =? 0 then mret ()
  else
    old_size ← get_size this;
    new_size ← checked_length_sum old_size count;
    c ← get_capacity this;
    if c <? new_size then
      let new_capacity := grow_capacity new_size in
      new_data ← allocate_buffer new_capacity;
      _ ← (if 0 <? old_size then d ← get_data this; MemCopy (new_data, 0%nat) d (Z.to_nat old_size) else mret ());
      _ ← MemCopy (new_data, Z.to_nat old_size) str (Z.to_nat count);
      _ ← store_byte (new_data, Z.to_nat new_size) 0;
      install this new_data new_size new_capacity
    else
      d ← get_data this;
      _ ← MemCopy (advance_ptr d old_size) str (Z.to_nat count);
      _ ← set_size this new_size;
      ensure_null_terminated this.

Definition append_cstr (this : nat) (str : ptr) : Prog () := n ← CountStringLength str kNoLimit; append this str n.

Definition append_string (this other : nat) : Prog () := d ← get_data other; n ← get_size other; append this d n.

Definition append_fill (this : nat) (count c : Z) : Prog () :=
  if count =? 0 then mret ()
  else
    old_size ← get_size this;
    new_size ← checked_length_sum old_size count;
    _ ← grow_to_at_least this new_size;
    d ← get_data this;
    _ ← fill_chars (Z.to_nat count) (advance_ptr d old_size) c;
    _ ← set_size this new_size;
    ensure_null_terminated this.

Definition pop_back (this : nat) : Prog () :=
  e ← empty this; _ ← bug_check (negb e); n ← get_size this; _ ← set_size this (u64 (n - 1)); ensure_null_terminated this.

Definition push_back (this : nat) (ch : Z) : Prog () :=
  old_size ← get_size this;
  new_size ← checked_length_sum old_size 1;
  c ← get_capacity this;
  _ ← (if old_size =? c then grow_to_at_least this new_size else mret ());
  d ← get_data this;
  _ ← store_byte (advance_ptr d old_size) ch;
  _ ← set_size this new_size;
  ensure_null_terminated this.

Definition insert (this : nat) (pos count ch : Z) : Prog () :=
  n ← get_size this;
  _ ← bug_check (pos <=? n);
  if count =? 0 then mret ()
  else
    old_size ← get_size this;
    new_size ← checked_length_sum old_size count;
    _ ← grow_to_at_least this new_size;
    d ← get_data this;
    _ ← MemMove (advance_ptr d (pos + count)) (advance_ptr d pos) (Z.to_nat (old_size - pos));
    _ ← fill_chars (Z.to_nat count) (advance_ptr d pos) ch;
    _ ← set_size this new_size;
    ensure_null_terminated this.

Definition erase (this : nat) (pos count : Z) : Prog () :=
  current_size ← get_size this;
  _ ← bug_check (pos <=? current_size);
  let count := Z.min count (current_size - pos) in
  if count =? 0 then mret ()
  else
    d ← get_data this;
    _ ← MemMove (advance_ptr d pos) (advance_ptr d (pos + count)) (Z.to_nat (current_size - pos - count));
    _ ← set_size this (current_size - count);
    ensure_null_terminated this.

(** The pointer overloads. *)
Definition erase_ptr (this : nat) (p : ptr) : Prog () :=
  d ← get_data this;
  let pos := u64 (Z.of_nat p.2 - Z.of_nat d.2) in
  _ ← bug_check (p.1 =? d.1)%nat;
  n ← get_size this;
  _ ← bug_check (pos <? n);
  erase this pos 1.

Definition erase_range (this : nat) (start end_ : ptr) : Prog () :=
  _ ← bug_check ((start.1 =? end_.1)%nat && (start.2 <? end_.2)%nat);
  d ← get_data this;
  _ ← bug_check (start.1 =? d.1)%nat;
  let pos := u64 (Z.of_nat start.2 - Z.of_nat d.2) in
  n ← get_size this;
  _ ← bug_check (pos <? n);
  erase this pos (u64 (Z.of_nat end_.2 - Z.of_nat start.2)).

Definition remove_suffix (this : nat) (n : Z) : Prog () :=
  current_size ← get_size this; _ ← bug_check (n <=? current_size); _ ← set_size this (current_size - n); ensure_null_terminated this.

(** [substr], into the storage [result]. *)
Definition substr (result this : nat) (pos count : Z) : Prog () :=
  current_size ← get_size this;
  _ ← bug_check (pos <=? current_size);
  let count := Z.min count (current_size - pos) in
  d ← get_data this;
  construct_chars result (Some (advance_ptr d pos)) count.

(** [lhs + rhs], into the storage [result]. *)
Definition concat (result lhs rhs : nat) : Prog () :=
  _ ← construct_empty result;
  n1 ← get_size lhs;
  n2 ← get_size rhs;
  _ ← reserve result (u64 (n1 + n2));
  d1 ← get_data lhs; n1 ← get_size lhs; _ ← append result d1 n1;
  d2 ← get_data rhs; n2 ← get_size rhs; append result d2 n2.

Definition concat_cstr (result lhs : nat) (rhs : ptr) : Prog () := _ ← copy_construct result lhs; append_cstr result rhs.

Definition cstr_concat (result : nat) (lhs : ptr) (rhs : nat) : Prog () :=
  _ ← construct_cstr result (Some lhs); d ← get_data rhs; n ← get_size rhs; append result d n.

End String.
