(* ===== verification/BaseStringRep.v ===== *)
(** * Strings in memory (strings/base_string.h)

    When the 24 bytes of an object and its buffer stand for a text ([string_at]), what
    the small layout operations do to them, and the triples of the modifiers: the text and
    the capacity they leave, and that they touch nothing but the string's own blocks. *)

From stdpp Require Import gmap.
From S2P Require Import Prelude Memory CMemory BaseString.

Set Default Proof Using "Type".
Set Warnings "-clear-no-such-hyp".

(** ** Constants and bytes *)

Lemma kMaxCapacity_eq : kMaxCapacity = 2 ^ 63 - 2.
Proof. reflexivity. Qed.

Lemma kCapacityFlagBit_eq : kCapacityFlagBit = 256 ^ Z.of_nat 7 * 128.
Proof. reflexivity. Qed.

Lemma bytes_of_snoc n z : bytes_of (S n) z = bytes_of n z ++ [z / 256 ^ Z.of_nat n mod 256].
Proof.
  revert z. induction n as [|n IH]; intros z; [cbn; by rewrite Z.div_1_r|].
  change (bytes_of (S (S n)) z) with (z mod 256 :: bytes_of (S n) (z / 256)). rewrite IH. cbn [bytes_of app]. do 3 f_equal.
  rewrite Nat2Z.inj_succ, Z.pow_succ_r by lia. by rewrite Z.div_div by lia.
Qed.

Lemma bytes_of_add n z k : bytes_of n (z + 256 ^ Z.of_nat n * k) = bytes_of n z.
Proof.
  revert z. induction n as [|n IH]; intros z; [done|]. cbn [bytes_of]. rewrite Nat2Z.inj_succ, Z.pow_succ_r by lia.
  replace (z + 256 * 256 ^ Z.of_nat n * k) with (z + (256 ^ Z.of_nat n * k) * 256) by ring.
  rewrite Z_mod_plus_full, Z_div_plus_full by lia. by rewrite IH.
Qed.

(** The capacity field: the flag is the top bit of the last byte. *)
Lemma capacity_bytes cap : 0 <= cap < 2 ^ 63 ->
  bytes_of 8 cap = bytes_of 7 cap ++ [cap / 2 ^ 56] /\ bytes_of 8 (cap + kCapacityFlagBit) = bytes_of 7 cap ++ [cap / 2 ^ 56 + 128].
Proof.
  intros H. rewrite !(bytes_of_snoc 7), kCapacityFlagBit_eq, (bytes_of_add 7). change (256 ^ Z.of_nat 7) with (2 ^ 56).
  assert (0 <= cap / 2 ^ 56 < 128) by (split; [apply Z.div_pos; lia|apply Z.div_lt_upper_bound; [lia|change (2 ^ 56 * 128) with (2 ^ 63); lia]]).
  rewrite Z.mul_comm, Z_div_plus_full by lia. by rewrite !Z.mod_small by lia.
Qed.

Lemma flag_small n : 0 <= n < 128 -> Z.land n kLargeFlag = 0 /\ Z.land n (Z.lnot kLargeFlag) = n /\ Z.lor n kLargeFlag = n + 128 /\ u8 (Z.land n (Z.lnot kLargeFlag)) = n.
Proof.
  intros H. pose proof (range_check 128 (fun n => (Z.land n kLargeFlag =? 0) && (Z.land n (Z.lnot kLargeFlag) =? n) && (Z.lor n kLargeFlag =? n + 128) && (u8 (Z.land n (Z.lnot kLargeFlag)) =? n)) eq_refl n H) as E.
  cbn beta in E. rewrite !andb_true_iff, !Z.eqb_eq in E. tauto.
Qed.

Lemma flag_large n : 128 <= n < 256 -> (Z.land n kLargeFlag =? 0) = false.
Proof.
  intros H. pose proof (range_check 128 (fun n => negb (Z.land (n + 128) kLargeFlag =? 0)) eq_refl (n - 128) ltac:(lia)) as E.
  cbn beta in E. replace (n - 128 + 128) with n in E by lia. by apply negb_true_iff in E.
Qed.

Lemma masked_capacity cap : 0 <= cap < 2 ^ 63 -> Z.land (cap + kCapacityFlagBit) (u64 (Z.lnot (Z.shiftl kLargeFlag 56))) = cap.
Proof.
  intros H. change (u64 (Z.lnot (Z.shiftl kLargeFlag 56))) with (2 ^ 63 - 1). rewrite land_low_mask by lia.
  change kCapacityFlagBit with (1 * 2 ^ 63). rewrite Z_mod_plus_full. by apply Z.mod_small.
Qed.

(** ** Layouts *)

Inductive layout := Small | Large (d : nat) (cap : Z).

Definition data_of (lay : layout) : option nat := match lay with Small => None | Large d _ => Some d end.
Definition cap_of (lay : layout) : Z := match lay with Small => 22 | Large _ cap => cap end.
Definition buffer_of (this : nat) (lay : layout) : nat := match lay with Small => this | Large d _ => d end.

Definition object_bytes (lay : layout) (n : Z) (buf : list mbyte) : list mbyte :=
  match lay with
  | Small => buf ++ [Byte n]
  | Large d cap => fragments d ++ (Byte <$> bytes_of 8 n) ++ (Byte <$> bytes_of 8 (cap + kCapacityFlagBit))
  end.

(** The object says size [n], and its characters and what follows them are [buf]. *)
Record holds (m : memory) (this : nat) (lay : layout) (n : Z) (buf : list mbyte) : Prop := {
  h_object : blocks m !! this = Some (false, object_bytes lay n buf);
  h_buffer : match lay with Small => True | Large d _ => blocks m !! d = Some (true, buf) end;
  h_length : Z.of_nat (length buf) = cap_of lay + 1;
  h_size : 0 <= n <= cap_of lay;
  h_cap : match lay with Small => True | Large _ cap => 22 < cap <= kMaxCapacity end;
}.

Definition text_buffer (l : list Z) (buf : list mbyte) : Prop := exists junk, buf = (Byte <$> l) ++ Byte 0 :: junk.

(** The string at [this] is [l]. *)
Definition string_at (m : memory) (this : nat) (lay : layout) (l : list Z) : Prop :=
  exists buf, holds m this lay (Z.of_nat (length l)) buf /\ text_buffer l buf.

(** Blocks are numbered in the order of their creation. *)
Definition mem_wf (m : memory) : Prop := forall b, is_Some (blocks m !! b) -> (b < next_block m)%nat.

(** From [m] to [m'] only the object and its buffer changed; the old buffer is gone if
    the object has a new one. *)
Record frame (this : nat) (lay lay' : layout) (m m' : memory) : Prop := {
  fr_same b : b <> this -> data_of lay <> Some b -> data_of lay' <> Some b -> blocks m' !! b = blocks m !! b;
  fr_freed b : data_of lay = Some b -> data_of lay' = Some b \/ blocks m' !! b = None;
  fr_new b : data_of lay' = Some b -> data_of lay = Some b \/ (next_block m <= b)%nat;
  fr_next : (next_block m <= next_block m')%nat;
  fr_wf : mem_wf m -> mem_wf m';
}.

Lemma frame_refl this lay m : frame this lay lay m m.
Proof. split; auto. Qed.

Lemma frame_trans this lay1 lay2 lay3 m1 m2 m3 : mem_wf m1 -> data_of lay1 <> Some this ->
  frame this lay1 lay2 m1 m2 -> frame this lay2 lay3 m2 m3 -> frame this lay1 lay3 m1 m3.
Proof.
  intros Hw Ht [A1 B1 C1 D1 W1] [A2 B2 C2 D2 W2].
  assert (Hnew : forall b, data_of lay2 = Some b -> data_of lay1 <> Some b -> blocks m1 !! b = None).
  { intros b E2 E1. destruct (blocks m1 !! b) eqn:E; [|done]. destruct (C1 b E2) as [|Hn]; [done|]. specialize (Hw b ltac:(eauto)). lia. }
  split.
  - intros b Hb H1 H3. destruct (decide (data_of lay2 = Some b)) as [E2|E2].
    + destruct (B2 b E2) as [?|E]; [done|]. rewrite E. symmetry. by apply Hnew.
    + rewrite A2, A1 by done. done.
  - intros b E1. destruct (B1 b E1) as [E2|E2]; [by apply B2|].
    destruct (decide (data_of lay3 = Some b)) as [E3|E3]; [by left|]. right.
    destruct (decide (data_of lay2 = Some b)) as [E2'|E2']; [by destruct (B2 b E2')|]. rewrite A2; [done| |done|done]. intros ->. done.
  - intros b E3. destruct (C2 b E3) as [E2|E2]; [by apply C1|]. right. lia.
  - lia.
  - auto.
Qed.

Lemma holds_apart m this lay n buf : holds m this lay n buf -> data_of lay <> Some this.
Proof. intros [E1 E2 _ _ _]. destruct lay as [|d cap]; [done|]. intros [= ->]. rewrite E1 in E2. done. Qed.

(** ** Reading the fields *)

Lemma cap_lt lay : match lay with Small => True | Large _ cap => 22 < cap <= kMaxCapacity end -> 22 <= cap_of lay <= kMaxCapacity /\ cap_of lay < 2 ^ 63.
Proof. rewrite kMaxCapacity_eq. destruct lay; cbn [cap_of]; lia. Qed.

Lemma holds_flag m this lay n buf : holds m this lay n buf ->
  flag_byte this m = Ok (m, match lay with Small => n | Large _ cap => cap / 2 ^ 56 + 128 end).
Proof.
  intros [E _ Hl Hn Hc]. unfold flag_byte, load_byte.
  rewrite (prog_bind _ _ m m [match lay with Small => n | Large _ cap => cap / 2 ^ 56 + 128 end]); [done|].
  destruct lay as [|d cap]; cbn [object_bytes cap_of] in *.
  - eapply load_numbers_ok; [exact E|cbn [snd flag_field]; rewrite length_app; cbn [length]; lia|].
    cbn [snd flag_field]. replace 23%nat with (length buf) by lia. by rewrite drop_app_length.
  - pose proof (cap_lt (Large d cap) Hc) as [_ Hc2]. cbn [cap_of] in Hc2. destruct (capacity_bytes cap ltac:(lia)) as [_ Eb].
    eapply load_numbers_ok; [exact E|done|]. rewrite Eb. reflexivity.
Qed.

Lemma holds_large m this lay n buf : holds m this lay n buf -> is_large this m = Ok (m, match lay with Small => false | Large _ _ => true end).
Proof.
  intros H. unfold is_large. rewrite (prog_bind _ _ _ _ _ (holds_flag _ _ _ _ _ H)). unfold mret, Prog_ret. do 2 f_equal.
  destruct H as [_ _ _ Hn Hc]. destruct lay as [|d cap]; cbn [cap_of] in *.
  - by rewrite (proj1 (flag_small n ltac:(lia))).
  - pose proof (cap_lt (Large d cap) Hc) as [_ Hc2]. cbn [cap_of] in Hc2. rewrite flag_large; [done|].
    assert (0 <= cap / 2 ^ 56 < 128) by (split; [apply Z.div_pos; lia|apply Z.div_lt_upper_bound; [lia|change (2 ^ 56 * 128) with (2 ^ 63); lia]]). lia.
Qed.

Lemma load_u64_ok m p d c z : blocks m !! p.1 = Some (d, c) -> (p.2 + 8 <= length c)%nat -> take 8 (drop p.2 c) = Byte <$> bytes_of 8 z -> 0 <= z < 2 ^ 64 ->
  load_u64 p m = Ok (m, z).
Proof.
  intros E H Et Hz. unfold load_u64. rewrite (prog_bind _ _ _ _ _ (load_numbers_ok _ _ _ _ _ _ E H Et)). unfold mret, Prog_ret. do 2 f_equal.
  apply lval_bytes. exact Hz.
Qed.

Lemma holds_size m this lay n buf : holds m this lay n buf -> get_size this m = Ok (m, n).
Proof.
  intros H. unfold get_size. rewrite (prog_bind _ _ _ _ _ (holds_large _ _ _ _ _ H)). destruct lay as [|d cap].
  - rewrite (prog_bind _ _ _ _ _ (holds_flag _ _ _ _ _ H)). destruct H as [_ _ _ Hn _]. cbn [cap_of] in Hn.
    by destruct (flag_small n ltac:(lia)) as (_ & -> & _).
  - pose proof (cap_lt (Large d cap) (h_cap _ _ _ _ _ H)) as Hc. cbn [cap_of] in Hc. destruct H as [E _ _ Hn _]. cbn [cap_of] in Hn.
    eapply load_u64_ok; [exact E|cbn; lia|reflexivity|lia].
Qed.

Lemma load_ptr_ok m p d c a : blocks m !! p.1 = Some (d, c) -> (p.2 + 8 <= length c)%nat -> take 8 (drop p.2 c) = fragments a -> load_ptr p m = Ok (m, a).
Proof.
  intros E H Et. unfold load_ptr. rewrite (prog_bind _ _ _ _ _ (load_bytes_ok _ _ _ _ _ E H)), Et. unfold lift.
  change (fragments a) with (Frag a 0 :: (Frag a <$> seq 1 7)) at 1. cbv iota. by rewrite decide_True.
Qed.

Lemma holds_data m this lay n buf : holds m this lay n buf -> get_data this m = Ok (m, (buffer_of this lay, 0%nat)).
Proof.
  intros H. unfold get_data. rewrite (prog_bind _ _ _ _ _ (holds_large _ _ _ _ _ H)). destruct lay as [|d cap]; [done|].
  rewrite (prog_bind _ _ m m d); [done|]. destruct H as [E _ _ _ _]. eapply load_ptr_ok; [exact E|cbn; lia|reflexivity].
Qed.

Lemma holds_capacity m this lay n buf : holds m this lay n buf -> get_capacity this m = Ok (m, cap_of lay).
Proof.
  intros H. unfold get_capacity. rewrite (prog_bind _ _ _ _ _ (holds_large _ _ _ _ _ H)). destruct lay as [|d cap]; [done|]. cbn [negb cap_of].
  pose proof (cap_lt (Large d cap) (h_cap _ _ _ _ _ H)) as Hc. cbn [cap_of] in Hc.
  rewrite (prog_bind _ _ m m (cap + kCapacityFlagBit)).
  - rewrite masked_capacity by lia. done.
  - destruct H as [E _ _ _ _]. eapply load_u64_ok; [exact E|cbn; lia|reflexivity|]. change kCapacityFlagBit with (2 ^ 63). lia.
Qed.

Lemma holds_pointer m this d cap n buf : holds m this (Large d cap) n buf -> load_ptr (data_field this) m = Ok (m, d).
Proof.
  intros [E _ _ _ _]. eapply load_ptr_ok; [exact E|cbn; lia|reflexivity].
Qed.

(** ** Writing *)

Lemma with_block_same m a b x : b <> a -> blocks (with_block m a x) !! b = blocks m !! b.
Proof. intros H. by apply lookup_insert_ne. Qed.

Lemma with_block_at m a x : blocks (with_block m a x) !! a = Some x.
Proof. apply lookup_insert_eq. Qed.

(** A write to the string's own blocks. *)
Lemma frame_write m this lay n buf a x : holds m this lay n buf -> a = this \/ data_of lay = Some a -> frame this lay lay m (with_block m a x).
Proof.
  intros [E1 E2 _ _ _] Ha. split; auto.
  - intros b Hb Hd _. apply with_block_same. intros ->. by destruct Ha.
  - intros Hw b Hb. cbn. destruct (decide (b = a)) as [->|Hne]; [|apply Hw; by rewrite with_block_same in Hb]. apply Hw.
    destruct Ha as [->|Ha]; [by eauto|]. destruct lay as [|d cap]; [done|]. injection Ha as <-. eauto.
Qed.

Lemma put_ok m this lay n buf off xs : holds m this lay n buf -> (off + length xs <= length buf)%nat ->
  exists m', store_bytes (buffer_of this lay, off) xs m = Ok (m', ()) /\ holds m' this lay n (splice buf off xs) /\ frame this lay lay m m'.
Proof.
  intros H Hoff. pose proof (holds_apart _ _ _ _ _ H) as Hap. pose proof H as [E1 E2 Hl Hn Hc].
  assert (Hx : exists d c, blocks m !! buffer_of this lay = Some (d, c) /\ (off + length xs <= length c)%nat).
  { destruct lay as [|d cap]; cbn [buffer_of object_bytes] in *; [|by exists true, buf].
    eexists _, _. split; [exact E1|]. rewrite length_app. lia. }
  destruct Hx as (d0 & c & Ec & Hoc). rewrite (store_bytes_ok (buffer_of this lay, off) xs m d0 c Ec Hoc). cbn [fst snd].
  eexists. split; [done|]. split; [|eapply frame_write; [done|]; destruct lay; cbn; auto].
  destruct lay as [|d cap]; cbn [buffer_of object_bytes cap_of] in *.
  - rewrite E1 in Ec. injection Ec as <- <-. split; cbn [object_bytes cap_of]; rewrite ?length_splice by done; try done.
    rewrite with_block_at. by rewrite splice_app_l by done.
  - rewrite E2 in Ec. injection Ec as <- <-. split; cbn [object_bytes cap_of]; rewrite ?length_splice by done; try done.
    + rewrite with_block_same; [exact E1|]. cbn in Hap. congruence.
    + by rewrite with_block_at.
Qed.

Lemma set_size_ok m this lay n buf k : holds m this lay n buf -> 0 <= k <= cap_of lay ->
  exists m', set_size this k m = Ok (m', ()) /\ holds m' this lay k buf /\ frame this lay lay m m'.
Proof.
  intros H Hk. pose proof (holds_apart _ _ _ _ _ H) as Hap. pose proof H as [E1 E2 Hl Hn Hc]. unfold set_size. rewrite (prog_bind _ _ _ _ _ (holds_large _ _ _ _ _ H)).
  destruct lay as [|d cap]; cbn [object_bytes cap_of] in *.
  - destruct (flag_small k ltac:(lia)) as (_ & _ & _ & ->). unfold store_byte.
    rewrite (store_bytes_ok (flag_field this) _ m _ _ E1) by (cbn; rewrite length_app; cbn; lia). eexists. split; [done|].
    split; [|eapply frame_write; [done|by left]]. split; cbn [object_bytes cap_of]; try done.
    cbn [fst snd flag_field]. rewrite with_block_at. do 2 f_equal. replace 23%nat with (length buf) by lia.
    rewrite <- (app_nil_r [Byte n]) at 1. rewrite splice_middle by done. by rewrite app_nil_r.
  - unfold store_u64. rewrite (store_bytes_ok (size_field this) _ m _ _ E1) by (cbn; lia). eexists. split; [done|].
    split; [|eapply frame_write; [done|by left]]. split; cbn [object_bytes cap_of]; try done.
    + cbn [fst snd size_field]. rewrite with_block_at. reflexivity.
    + rewrite with_block_same; [done|]. cbn in *. congruence.
Qed.

(** [set_size(k); ensure_null_terminated();] *)
Lemma finish_ok m this lay n buf k : holds m this lay n buf -> 0 <= k <= cap_of lay -> mem_wf m ->
  exists m', (_ ← set_size this k; ensure_null_terminated this) m = Ok (m', ()) /\
    holds m' this lay k (splice buf (Z.to_nat k) [Byte 0]) /\ frame this lay lay m m'.
Proof.
  intros H Hk Hw. destruct (set_size_ok _ _ _ _ _ k H Hk) as (m1 & E1 & H1 & F1). rewrite (prog_bind _ _ _ _ _ E1).
  unfold ensure_null_terminated. rewrite (prog_bind _ _ _ _ _ (holds_data _ _ _ _ _ H1)), (prog_bind _ _ _ _ _ (holds_size _ _ _ _ _ H1)).
  destruct (put_ok _ _ _ _ _ (Z.to_nat k) [Byte 0] H1) as (m2 & E2 & H2 & F2); [pose proof (h_length _ _ _ _ _ H1); cbn; lia|].
  exists m2. split; [exact E2|]. split; [done|]. eapply frame_trans; [done|by eapply holds_apart|done|done].
Qed.

(** ** Fresh buffers *)

(** [m1] is [m0] with one more block, [d]. *)
Definition with_fresh (m0 : memory) (buf : list mbyte) : memory := mkMemory (<[next_block m0 := (true, buf)]> (blocks m0)) (S (next_block m0)).

Lemma fresh_lookup m0 buf b : mem_wf m0 -> blocks (with_fresh m0 buf) !! b = if decide (b = next_block m0) then Some (true, buf) else blocks m0 !! b.
Proof. intros Hw. cbn. destruct (decide (b = next_block m0)) as [->|Hne]; [apply lookup_insert_eq|by apply lookup_insert_ne]. Qed.

Lemma wf_none m0 : mem_wf m0 -> blocks m0 !! next_block m0 = None.
Proof. intros Hw. destruct (blocks m0 !! next_block m0) eqn:E; [|done]. specialize (Hw (next_block m0) ltac:(eauto)). lia. Qed.

Lemma fresh_holds m0 buf0 this lay n buf : mem_wf m0 -> holds m0 this lay n buf -> holds (with_fresh m0 buf0) this lay n buf.
Proof.
  intros Hw [E1 E2 Hl Hn Hc]. assert (Hne : forall a x, blocks m0 !! a = Some x -> blocks (with_fresh m0 buf0) !! a = Some x).
  { intros a x E. rewrite fresh_lookup by done. destruct (decide (a = next_block m0)) as [->|]; [|done]. by rewrite wf_none in E. }
  split; try done; [by apply Hne|]. destruct lay; [done|by apply Hne].
Qed.

Lemma fresh_write m0 buf off xs : mem_wf m0 -> (off + length xs <= length buf)%nat ->
  store_bytes (next_block m0, off) xs (with_fresh m0 buf) = Ok (with_fresh m0 (splice buf off xs), ()).
Proof.
  intros Hw H. rewrite (store_bytes_ok (next_block m0, off) xs _ true buf); [|apply lookup_insert_eq|done].
  unfold with_block, with_fresh. cbn. by rewrite insert_insert_eq.
Qed.

Section Allocation.

Context (allocates : Z -> bool).

(** The request of [allocate_buffer] is granted. *)
Definition grants (cap : Z) : Prop := cap <= kMaxCapacity /\ allocates (cap + 1) = true.

Lemma buffer_bytes cap : 0 <= cap <= kMaxCapacity -> buffer_byte_size cap = cap + 1.
Proof. rewrite kMaxCapacity_eq. intros H. unfold buffer_byte_size. rewrite Z.mul_1_r. apply wrap_small. unfold fits. lia. Qed.

Lemma allocate_ok R cap m (P : memory * nat -> Prop) : 0 <= cap -> (R -> grants cap) ->
  (cap <= kMaxCapacity -> P (with_fresh m (replicate (Z.to_nat (cap + 1)) Uninit), next_block m)) ->
  wp R (allocate_buffer allocates cap m) P.
Proof.
  intros Hc HR HP. unfold allocate_buffer, mbind, Prog_bind, lift, fatal_check. destruct (Z.leb_spec cap kMaxCapacity) as [Hle|Hgt]; cbn.
  - rewrite buffer_bytes by lia. unfold Allocate. destruct (allocates (cap + 1)) eqn:E; cbn; [by apply HP|].
    intros r. destruct (HR r). congruence.
  - intros r. destruct (HR r). lia.
Qed.

End Allocation.

(** [deallocate_large()] and the new fields. *)
Lemma deallocate_ok m this lay n buf : holds m this lay n buf ->
  deallocate_large this m = Ok (match lay with Small => m | Large d _ => mkMemory (delete d (blocks m)) (next_block m) end, ()).
Proof.
  intros H. unfold deallocate_large. rewrite (prog_bind _ _ _ _ _ (holds_large _ _ _ _ _ H)). destruct lay as [|d cap]; [done|].
  rewrite (prog_bind _ _ _ _ _ (holds_pointer _ _ _ _ _ _ H)), (prog_bind _ _ _ _ _ (holds_capacity _ _ _ _ _ H)). cbn [cap_of].
  pose proof (cap_lt (Large d cap) (h_cap _ _ _ _ _ H)) as [Hc _]. destruct H as [_ E Hl _ Hcap]. cbn [cap_of] in *. rewrite buffer_bytes by lia. unfold Free. rewrite E.
  destruct (Z.eqb_spec (Z.of_nat (length buf)) (cap + 1)); [done|]. exfalso. lia.
Qed.

Lemma with_block_twice m a x y : with_block (with_block m a x) a y = with_block m a y.
Proof. unfold with_block. cbn. by rewrite insert_insert_eq. Qed.

(** A write to a block whose contents are known in three parts. *)
Lemma store_middle p xs m d l1 l2 l3 : blocks m !! p.1 = Some (d, l1 ++ l2 ++ l3) -> p.2 = length l1 -> length xs = length l2 ->
  store_bytes p xs m = Ok (with_block m p.1 (d, l1 ++ xs ++ l3), ()).
Proof.
  intros E Ep El. rewrite (store_bytes_ok _ _ _ _ _ E) by (rewrite !length_app; lia). by rewrite Ep, splice_middle.
Qed.

Lemma write_fields m this c0 d k cap : blocks m !! this = Some (false, c0) -> length c0 = 24%nat -> 0 <= cap < 2 ^ 63 ->
  (_ ← store_ptr (data_field this) d; _ ← store_u64 (size_field this) k; _ ← store_u64 (capacity_field this) cap; set_large this) m =
    Ok (with_block m this (false, object_bytes (Large d cap) k []), ()).
Proof.
  intros E Hl Hc.
  assert (Hc0 : exists x1 x2 x3, c0 = x1 ++ x2 ++ x3 /\ length x1 = 8%nat /\ length x2 = 8%nat /\ length x3 = 8%nat).
  { exists (take 8 c0), (take 8 (drop 8 c0)), (drop 8 (drop 8 c0)). by rewrite !take_drop, !length_take, !length_drop, Hl. }
  destruct Hc0 as (x1 & x2 & x3 & -> & H1 & H2 & H3). destruct (capacity_bytes cap Hc) as [Eb Ef].
  rewrite (prog_bind _ _ _ _ _ (store_middle (data_field this) (fragments d) m false [] x1 (x2 ++ x3) E eq_refl ltac:(by rewrite H1))). cbn [app fst data_field].
  rewrite (prog_bind _ _ _ _ _ (store_middle (size_field this) (Byte <$> bytes_of 8 k) _ false (fragments d) x2 x3 (with_block_at _ _ _) eq_refl ltac:(by rewrite H2))).
  cbn [fst size_field]. rewrite with_block_twice.
  assert (E3 : blocks (with_block m this (false, fragments d ++ (Byte <$> bytes_of 8 k) ++ x3)) !! this = Some (false, (fragments d ++ (Byte <$> bytes_of 8 k)) ++ x3 ++ [])).
  { rewrite with_block_at, app_nil_r. by rewrite app_assoc. }
  rewrite (prog_bind _ _ _ _ _ (store_middle (capacity_field this) (Byte <$> bytes_of 8 cap) _ false (fragments d ++ (Byte <$> bytes_of 8 k)) x3 [] E3 eq_refl ltac:(by rewrite H3))).
  cbn [fst capacity_field]. rewrite with_block_twice, Eb, fmap_app, app_nil_r.
  assert (Hcap : 0 <= cap / 2 ^ 56 < 128) by (split; [apply Z.div_pos; lia|apply Z.div_lt_upper_bound; [lia|change (2 ^ 56 * 128) with (2 ^ 63); lia]]).
  set (body := (fragments d ++ (Byte <$> bytes_of 8 k)) ++ (Byte <$> bytes_of 7 cap)).
  set (m3 := with_block m this _).
  assert (E4 : blocks m3 !! this = Some (false, body ++ [Byte (cap / 2 ^ 56)] ++ [])).
  { unfold m3. rewrite with_block_at, app_nil_r. unfold body. by rewrite <- !app_assoc. }
  assert (E5 : flag_byte this m3 = Ok (m3, cap / 2 ^ 56)).
  { unfold flag_byte, load_byte. by rewrite (prog_bind _ _ _ _ _ (load_numbers_ok (flag_field this) 1 m3 _ _ [cap / 2 ^ 56] E4 ltac:(cbn; lia) eq_refl)). }
  unfold set_large. rewrite (prog_bind _ _ _ _ _ E5). destruct (flag_small _ Hcap) as (_ & _ & -> & _). unfold store_byte.
  rewrite (store_middle (flag_field this) [Byte (cap / 2 ^ 56 + 128)] m3 false body [Byte (cap / 2 ^ 56)] [] E4 eq_refl eq_refl). cbn [fst flag_field]. unfold m3. rewrite with_block_twice.
  cbn [object_bytes]. unfold body. rewrite Ef, fmap_app, app_nil_r, <- !app_assoc. done.
Qed.

Lemma object_length lay n buf : Z.of_nat (length buf) = cap_of lay + 1 -> length (object_bytes lay n buf) = 24%nat.
Proof. destruct lay; cbn [object_bytes cap_of]; intros H; [rewrite length_app; cbn; lia|done]. Qed.

Lemma install_ok m0 this lay n buf k cap buf' : mem_wf m0 -> holds m0 this lay n buf ->
  Z.of_nat (length buf') = cap + 1 -> 22 < cap <= kMaxCapacity -> 0 <= k <= cap ->
  exists m', install this (next_block m0) k cap (with_fresh m0 buf') = Ok (m', ()) /\
    holds m' this (Large (next_block m0) cap) k buf' /\ frame this lay (Large (next_block m0) cap) m0 m'.
Proof.
  intros Hw H Hlen Hcap Hk. pose proof (fresh_holds m0 buf' _ _ _ _ Hw H) as Hf. pose proof (holds_apart _ _ _ _ _ H) as Hap. unfold install.
  rewrite (prog_bind _ _ _ _ _ (deallocate_ok _ _ _ _ _ Hf)). set (m1 := match lay with Small => _ | Large _ _ => _ end).
  assert (Hthis : (this < next_block m0)%nat) by (apply Hw; destruct H as [E _ _ _ _]; eauto).
  assert (Hm1 : forall b, blocks m1 !! b = if decide (data_of lay = Some b) then None else if decide (b = next_block m0) then Some (true, buf') else blocks m0 !! b).
  { intros b. rewrite <- fresh_lookup by done. unfold m1. destruct lay as [|d c]; cbn [data_of]; [by rewrite decide_False by done|]. cbn.
    destruct (decide (Some d = Some b)) as [[= ->]|Hne]; [apply lookup_delete_eq|apply lookup_delete_ne; congruence]. }
  assert (En : next_block m1 = S (next_block m0)) by (by destruct lay).
  assert (E1 : blocks m1 !! this = Some (false, object_bytes lay n buf)).
  { rewrite Hm1, decide_False by done. rewrite decide_False by lia. apply H. }
  rewrite (write_fields m1 this _ (next_block m0) k cap E1 (object_length _ _ _ (h_length _ _ _ _ _ H))) by (rewrite kMaxCapacity_eq in Hcap; lia).
  eexists. split; [done|]. assert (Hdl : data_of lay <> Some (next_block m0)).
  { destruct lay as [|d c]; [done|]. cbn. intros [= ->]. destruct H as [_ E _ _ _]. by rewrite wf_none in E. }
  split; [split; cbn [cap_of]; try done|split].
  - by rewrite with_block_at.
  - rewrite with_block_same, Hm1, decide_False by (done || lia). by rewrite decide_True.
  - intros b Hb H1 H2. rewrite with_block_same, Hm1, decide_False by done. rewrite decide_False; [done|]. intros ->. by apply H2.
  - intros b Hb. right. rewrite with_block_same; [by rewrite Hm1, decide_True|]. intros ->. done.
  - intros b [= <-]. by right.
  - cbn. lia.
  - intros _ b. cbn [next_block with_block]. rewrite En. destruct (decide (b = this)) as [->|Hne]; [lia|]. rewrite with_block_same, Hm1 by done.
    destruct (decide (data_of lay = Some b)); [by intros [? ?]|]. destruct (decide (b = next_block m0)) as [->|]; [lia|]. intros Hb. specialize (Hw b Hb). lia.
Qed.

(** ** Copies *)

(** The characters at [p]; no pointer is needed for none. *)
Definition readable (m : memory) (p : ptr) (xs : list Z) : Prop :=
  xs = [] \/ exists d c, blocks m !! p.1 = Some (d, c) /\ (p.2 + length xs <= length c)%nat /\ take (length xs) (drop p.2 c) = Byte <$> xs.

Lemma readable_load m p x xs : readable m p (x :: xs) -> load_bytes p (length (x :: xs)) m = Ok (m, Byte <$> x :: xs).
Proof. intros [?|(d & c & E & Hl & Et)]; [done|]. by rewrite (load_bytes_ok _ _ _ _ _ E Hl), Et. Qed.

Lemma readable_block m p x xs : readable m p (x :: xs) -> is_Some (blocks m !! p.1).
Proof. intros [?|(d & c & E & _)]; [done|eauto]. Qed.

Lemma readable_same m m' p xs : (xs <> [] -> blocks m' !! p.1 = blocks m !! p.1) -> readable m p xs -> readable m' p xs.
Proof.
  intros Hs [->|(d & c & E & H)]; [by left|]. destruct xs as [|x xs]; [by left|]. right. exists d, c. split; [|done].
  exact (eq_trans (Hs ltac:(done)) E).
Qed.

Lemma copy_fresh m0 buf src xs off : mem_wf m0 -> readable m0 src xs -> (off + length xs <= length buf)%nat ->
  MemCopy (next_block m0, off) src (length xs) (with_fresh m0 buf) = Ok (with_fresh m0 (splice buf off (Byte <$> xs)), ()).
Proof.
  intros Hw Hr Hl. destruct xs as [|x xs].
  { unfold MemCopy, MemMove. cbn [length]. replace (overlap _ _ 0) with false; [cbn; by rewrite splice_nil|].
    unfold overlap. cbn [fst snd]. destruct (Nat.ltb_spec off (src.2 + 0)), (Nat.ltb_spec src.2 (off + 0)); rewrite ?andb_false_r; try done. lia. }
  pose proof (readable_block _ _ _ _ Hr) as Hs. specialize (Hw _ Hs) as Hlt.
  unfold MemCopy, overlap. cbn [fst]. rewrite (proj2 (Nat.eqb_neq (next_block m0) src.1)) by lia. cbn [andb]. unfold MemMove.
  rewrite (proj2 (Nat.eqb_neq (length (x :: xs)) 0)) by done.
  rewrite (prog_bind _ _ (with_fresh m0 buf) (with_fresh m0 buf) (Byte <$> x :: xs)).
  - apply fresh_write; [done|]. by rewrite length_fmap.
  - apply readable_load. eapply readable_same; [|done]. intros _. rewrite fresh_lookup by done. apply decide_False. lia.
Qed.

Lemma move_own m this lay n buf src xs off : holds m this lay n buf -> readable m src xs -> (off + length xs <= length buf)%nat ->
  exists m', MemMove (buffer_of this lay, off) src (length xs) m = Ok (m', ()) /\
    holds m' this lay n (splice buf off (Byte <$> xs)) /\ frame this lay lay m m'.
Proof.
  intros H Hr Hl. destruct xs as [|x xs].
  { exists m. split; [done|]. cbn. rewrite splice_nil. split; [done|apply frame_refl]. }
  unfold MemMove. rewrite (proj2 (Nat.eqb_neq (length (x :: xs)) 0)) by done. rewrite (prog_bind _ _ _ _ _ (readable_load _ _ _ _ Hr)).
  apply put_ok; [done|]. by rewrite length_fmap.
Qed.

Lemma copy_own m this lay n buf src xs off : holds m this lay n buf -> readable m src xs -> (off + length xs <= length buf)%nat ->
  (src.1 = buffer_of this lay -> (src.2 + length xs <= off)%nat) ->
  exists m', MemCopy (buffer_of this lay, off) src (length xs) m = Ok (m', ()) /\
    holds m' this lay n (splice buf off (Byte <$> xs)) /\ frame this lay lay m m'.
Proof.
  intros H Hr Hl Hap. unfold MemCopy. replace (overlap _ _ _) with false; [by apply move_own|]. unfold overlap. cbn [fst snd].
  destruct (Nat.eqb_spec (buffer_of this lay) src.1) as [E|]; [|done]. specialize (Hap (eq_sym E)).
  destruct (Nat.ltb_spec off (src.2 + length xs)); [lia|done].
Qed.

Lemma splice_cons {A} (l : list A) off x xs : (off < length l)%nat -> splice (splice l off [x]) (S off) xs = splice l off (x :: xs).
Proof.
  intros H. unfold splice. cbn [length app]. rewrite Nat.add_1_r.
  assert (Et : length (take off l) = off) by (rewrite length_take; lia).
  assert (Es : take off l ++ x :: drop (S off) l = (take off l ++ [x]) ++ drop (S off) l) by (by rewrite <- app_assoc).
  rewrite Es. assert (El : length (take off l ++ [x]) = S off) by (rewrite length_app, Et; cbn; lia).
  rewrite take_app_le, take_ge by lia. rewrite drop_app_ge, drop_drop by lia. rewrite <- app_assoc. cbn. do 3 f_equal. rewrite El. f_equal. lia.
Qed.

Lemma fill_ok n c m this lay k buf off : mem_wf m -> holds m this lay k buf -> (off + n <= length buf)%nat ->
  exists m', fill_chars n (buffer_of this lay, off) c m = Ok (m', ()) /\
    holds m' this lay k (splice buf off (replicate n (Byte c))) /\ frame this lay lay m m'.
Proof.
  revert m buf off. induction n as [|n IH]; intros m buf off Hw H Hl; cbn [fill_chars replicate].
  - exists m. rewrite splice_nil. split; [done|]. split; [done|apply frame_refl].
  - destruct (put_ok _ _ _ _ _ off [Byte c] H) as (m1 & E1 & H1 & F1); [cbn; lia|]. unfold store_byte. rewrite (prog_bind _ _ _ _ _ E1).
    unfold advance_ptr. cbn [fst snd]. change (Z.to_nat 1) with 1%nat. rewrite Nat.add_1_r.
    destruct (IH m1 _ (S off) (fr_wf _ _ _ _ _ F1 Hw) H1) as (m2 & E2 & H2 & F2); [rewrite length_splice by (cbn; lia); lia|].
    exists m2. split; [exact E2|]. rewrite splice_cons in H2 by lia. split; [done|]. eapply frame_trans; [done|by eapply holds_apart|done|done].
Qed.

(** ** Texts *)

Lemma string_holds m this lay l : string_at m this lay l -> exists buf, holds m this lay (Z.of_nat (length l)) buf /\ text_buffer l buf.
Proof. done. Qed.

Lemma text_room m this lay n buf (l : list Z) : holds m this lay n buf -> Z.of_nat (length l) <= cap_of lay -> (length l < length buf)%nat.
Proof. intros [_ _ Hl _ _] H. lia. Qed.

Lemma splice_text (l l' : list Z) x rest : splice ((Byte <$> l) ++ x :: rest) (length l) (Byte <$> l') = (Byte <$> l ++ l') ++ drop (length l') (x :: rest).
Proof.
  unfold splice. rewrite <- (length_fmap Byte l) at 1. rewrite take_app_length. rewrite length_fmap. rewrite <- (length_fmap Byte l), drop_app_add.
  by rewrite fmap_app, <- app_assoc.
Qed.

Lemma terminate (l : list Z) buf rest : buf = (Byte <$> l) ++ rest -> (length l < length buf)%nat -> text_buffer l (splice buf (length l) [Byte 0]).
Proof.
  intros -> H. rewrite length_app, length_fmap in H. destruct rest as [|x rest]; [cbn in H; lia|]. exists rest.
  change [Byte 0] with (Byte <$> [0]). rewrite splice_text, fmap_app, <- app_assoc. done.
Qed.

(** [set_size; ensure_null_terminated] after the characters have been written. *)
Lemma finish_text m this lay n buf l rest : holds m this lay n buf -> mem_wf m -> buf = (Byte <$> l) ++ rest -> Z.of_nat (length l) <= cap_of lay ->
  exists m', (_ ← set_size this (Z.of_nat (length l)); ensure_null_terminated this) m = Ok (m', ()) /\
    string_at m' this lay l /\ frame this lay lay m m'.
Proof.
  intros H Hw E Hl. destruct (finish_ok _ _ _ _ _ (Z.of_nat (length l)) H) as (m' & E' & H' & F); [lia|done|].
  exists m'. split; [done|]. split; [|done]. eexists. split; [exact H'|]. rewrite Nat2Z.id. eapply terminate; [exact E|by eapply text_room].
Qed.

(** What a modifier leaves. *)
Definition becomes (this : nat) (lay : layout) (m : memory) (l' : list Z) (cap' : Z) (m' : memory) : Prop :=
  exists lay', string_at m' this lay' l' /\ cap_of lay' = cap' /\ frame this lay lay' m m'.

Lemma string_cap m this lay l : string_at m this lay l -> Z.of_nat (length l) <= cap_of lay /\ 22 <= cap_of lay <= kMaxCapacity.
Proof. intros (buf & H & _). split; [apply H|]. apply cap_lt. apply H. Qed.

Lemma string_apart m this lay l : string_at m this lay l -> data_of lay <> Some this.
Proof. intros (buf & H & _). by eapply holds_apart. Qed.

(** The buffer of a string as the contents of a block. *)
Lemma string_block m this lay l : string_at m this lay l ->
  exists d junk, blocks m !! buffer_of this lay = Some (d, (Byte <$> l) ++ Byte 0 :: junk) /\ Z.of_nat (length l) + Z.of_nat (length junk) >= cap_of lay.
Proof.
  intros (buf & [E1 E2 Hl _ _] & junk & ->). rewrite length_app, length_fmap in Hl. cbn [length] in Hl. destruct lay as [|d cap]; cbn [buffer_of object_bytes cap_of] in *.
  - exists false, (junk ++ [Byte (Z.of_nat (length l))]). split; [by rewrite E1, <- app_assoc|]. rewrite length_app. lia.
  - exists true, junk. split; [done|]. lia.
Qed.

Lemma readable_own m this lay l off n : string_at m this lay l -> (off + n <= length l)%nat -> readable m (buffer_of this lay, off) (take n (drop off l)).
Proof.
  intros H Hl. destruct (string_block _ _ _ _ H) as (d & junk & E & _). right. exists d, ((Byte <$> l) ++ Byte 0 :: junk). split; [done|]. cbn [fst snd].
  rewrite length_take, length_drop. replace (n `min` (length l - off))%nat with n by lia. rewrite length_app, length_fmap. split; [lia|].
  rewrite drop_app_le by (rewrite length_fmap; lia). rewrite take_app_le by (rewrite length_drop, length_fmap; lia). by rewrite <- fmap_drop, <- fmap_take.
Qed.

Lemma readable_text m this lay l : string_at m this lay l -> readable m (buffer_of this lay, 0%nat) l.
Proof. intros H. pose proof (readable_own m this lay l 0 (length l) H ltac:(lia)) as Hr. by rewrite drop_0, firstn_all in Hr. Qed.
