(* ===== verification/BaseStringModify.v ===== *)
(** * Modifiers of the strings (strings/base_string.h)

    What each modifier leaves: the text, and the exact capacity (22 inline, the requested
    one after [reserve] and [assign], one and a half times the required size when a buffer
    grows).  The source of a copy may lie in the string itself.  [R] is the assumption that
    the allocator grants what the operation asks for; without it an operation may stop the
    program, but never breaks a rule. *)

From stdpp Require Import gmap.
From S2P Require Import Prelude Memory CMemory BaseString BaseStringRep.

Set Default Proof Using "Type".

Lemma wp_step {A B} R (p : Prog A) (k : A -> Prog B) m m' a P : p m = Ok (m', a) -> wp R (k a m') P -> wp R ((p ≫= k) m) P.
Proof. intros E. by rewrite (prog_bind _ _ _ _ _ E). Qed.

Lemma prog_wp_done {A} R (p : Prog A) m m' a (P : memory * A -> Prop) : p m = Ok (m', a) -> P (m', a) -> wp R (p m) P.
Proof. by intros ->. Qed.

(** ** Reading a string *)

Section Read.

Context {m : memory} {this : nat} {lay : layout} {l : list Z} (H : string_at m this lay l).

Lemma string_size : get_size this m = Ok (m, Z.of_nat (length l)).
Proof using H. destruct H as (buf & Hb & _). by eapply holds_size. Qed.

Lemma string_data : get_data this m = Ok (m, (buffer_of this lay, 0%nat)).
Proof using H. destruct H as (buf & Hb & _). by eapply holds_data. Qed.

Lemma string_capacity : get_capacity this m = Ok (m, cap_of lay).
Proof using H. destruct H as (buf & Hb & _). by eapply holds_capacity. Qed.

Lemma string_large : is_large this m = Ok (m, match lay with Small => false | Large _ _ => true end).
Proof using H. destruct H as (buf & Hb & _). by eapply holds_large. Qed.

Lemma string_pointer d cap : lay = Large d cap -> load_ptr (data_field this) m = Ok (m, d).
Proof using H. intros ->. destruct H as (buf & Hb & _). by eapply holds_pointer. Qed.

(** The character at a position, the terminator included. *)
Lemma string_byte i x : (l ++ [0]) !! i = Some x -> load_byte (buffer_of this lay, i) m = Ok (m, x).
Proof using H.
  intros Ex. destruct (string_block _ _ _ _ H) as (d & junk & E & _). unfold load_byte.
  pose proof (lookup_lt_Some _ _ _ Ex) as Hlt. rewrite length_app in Hlt. cbn [length] in Hlt.
  rewrite (prog_bind _ _ m m [x]); [done|]. eapply load_numbers_ok; [exact E|cbn [snd]; rewrite length_app, length_fmap; cbn; lia|].
  cbn [snd]. replace ((Byte <$> l) ++ Byte 0 :: junk) with ((Byte <$> l ++ [0]) ++ junk) by (by rewrite fmap_app, <- app_assoc).
  rewrite drop_app_le by (rewrite length_fmap, length_app; cbn; lia).
  rewrite (drop_S _ (Byte x)); [done|]. by rewrite list_lookup_fmap, Ex.
Qed.

End Read.

Lemma becomes_refl m this lay l : string_at m this lay l -> becomes this lay m l (cap_of lay) m.
Proof. intros H. exists lay. split; [done|]. split; [done|apply frame_refl]. Qed.

Lemma becomes_same m this lay l m' : string_at m' this lay l -> frame this lay lay m m' -> becomes this lay m l (cap_of lay) m'.
Proof. intros H F. by exists lay. Qed.

Lemma becomes_trans m this lay l1 lay2 m1 l2 cap m2 : mem_wf m -> data_of lay <> Some this ->
  string_at m1 this lay2 l1 -> frame this lay lay2 m m1 -> becomes this lay2 m1 l2 cap m2 -> becomes this lay m l2 cap m2.
Proof.
  intros Hw Ha H1 F (lay3 & H3 & Hc & F3). exists lay3. split; [done|]. split; [done|].
  eapply frame_trans; [done|done|exact F|exact F3].
Qed.

Lemma install_becomes m0 this lay l k cap buf' l' : mem_wf m0 -> string_at m0 this lay l ->
  Z.of_nat (length buf') = cap + 1 -> 22 < cap <= kMaxCapacity -> text_buffer l' buf' -> k = Z.of_nat (length l') -> Z.of_nat (length l') <= cap ->
  exists m', install this (next_block m0) k cap (with_fresh m0 buf') = Ok (m', ()) /\ becomes this lay m0 l' cap m'.
Proof.
  intros Hw (buf & H & _) Hlen Hcap Ht -> Hl. destruct (install_ok m0 this lay _ buf (Z.of_nat (length l')) cap buf' Hw H Hlen Hcap) as (m' & E & H' & F); [split; [lia|exact Hl]|].
  exists m'. split; [done|]. exists (Large (next_block m0) cap). split; [by exists buf'|]. done.
Qed.

(** ** Growing *)

Lemma grow_capacity_range n : 0 <= n -> n <= grow_capacity n /\ (n <= kMaxCapacity -> grow_capacity n <= kMaxCapacity) /\ (kMaxCapacity < n -> grow_capacity n = n).
Proof.
  intros Hn. unfold grow_capacity. rewrite Z.geb_leb. pose proof kMaxCapacity_eq as Ek. destruct (Z.leb_spec kMaxCapacity n); [lia|]. cbv zeta.
  pose proof (Z.div_pos n 2). destruct (Z.ltb_spec (n / 2) (kMaxCapacity - n)); rewrite wrap_small by (unfold fits; lia); lia.
Qed.

(** Below the ceiling the capacity grows by half of what is required. *)
Lemma grow_capacity_half n : 0 <= n -> n + n / 2 <= kMaxCapacity -> grow_capacity n = n + n / 2.
Proof.
  intros Hn H. unfold grow_capacity. rewrite Z.geb_leb. pose proof kMaxCapacity_eq as Ek. pose proof (Z.div_pos n 2).
  destruct (Z.leb_spec kMaxCapacity n); cbv zeta.
  - lia.
  - destruct (Z.ltb_spec (n / 2) (kMaxCapacity - n)); rewrite wrap_small by (unfold fits; lia); lia.
Qed.

Definition grown (cap n : Z) : Z := if cap <? n then grow_capacity n else cap.

Section Modifiers.

Context (allocates : Z -> bool) (R : Prop).
Context (m : memory) (this : nat) (lay : layout) (l : list Z).
Context (Hw : mem_wf m) (H : string_at m this lay l).

Abbreviation size_z := (Z.of_nat (length l)).

(** The characters of the string in a fresh buffer. *)
Lemma copy_text_fresh (P : memory * () -> Prop) (k : () -> Prog ()) c :
  (length l <= c)%nat ->
  wp R (k () (with_fresh m ((Byte <$> l) ++ replicate (c - length l) Uninit))) P ->
  wp R (((if 0 <? size_z then d ← get_data this; MemCopy (next_block m, 0%nat) d (Z.to_nat size_z) else mret ()) ≫= k)
          (with_fresh m (replicate c Uninit))) P.
Proof using Hw H.
  intros Hc HP. refine (wp_step _ _ _ _ (with_fresh m ((Byte <$> l) ++ replicate (c - length l) Uninit)) () _ _ HP).
  destruct (Z.ltb_spec 0 size_z).
  - assert (Hf : string_at (with_fresh m (replicate c Uninit)) this lay l) by (destruct H as (buf & Hb & Ht); exists buf; split; [by apply fresh_holds|done]).
    rewrite (prog_bind _ _ _ _ _ (string_data Hf)), Nat2Z.id, (copy_fresh m _ _ l 0 Hw (readable_text _ _ _ _ H)) by (rewrite length_replicate; lia).
    do 3 f_equal. unfold splice. cbn [take app]. by rewrite length_fmap, drop_replicate.
  - assert (El : length l = 0%nat) by lia. apply nil_length_inv in El. rewrite El. cbn. by rewrite Nat.sub_0_r.
Qed.

Lemma realloc_to_ok target : size_z <= target -> 22 < target -> (R -> grants allocates target) ->
  wp R (realloc_to allocates this target m) (fun q => becomes this lay m l target q.1).
Proof using Hw H.
  intros Hle H22 HR. unfold realloc_to. eapply wp_step; [exact (string_size H)|]. unfold bug_check, dcheck.
  rewrite (proj2 (Z.leb_le _ _) Hle). refine (wp_step _ _ _ m m () _ eq_refl _).
  refine (prog_wp_bind _ _ _ _ _ (fun m1 d => target <= kMaxCapacity /\ m1 = with_fresh m (replicate (Z.to_nat (target + 1)) Uninit) /\ d = next_block m) _ _).
  { apply (allocate_ok allocates R); [lia|done|]. done. }
  intros m1 d (Hmax & -> & ->). assert (Hf : forall b, string_at (with_fresh m b) this lay l) by (intros b; destruct H as (buf & Hb & Ht); exists buf; split; [by apply fresh_holds|done]).
  eapply wp_step; [exact (string_size (Hf _))|]. apply copy_text_fresh; [lia|].
  eapply wp_step.
  { unfold store_byte. rewrite Nat2Z.id. apply fresh_write; [done|]. rewrite length_app, length_fmap, length_replicate. cbn. lia. }
  destruct (install_becomes m this lay l size_z target (splice ((Byte <$> l) ++ replicate (Z.to_nat (target + 1) - length l) Uninit) (length l) [Byte 0]) l Hw H) as (m' & E & Hb); [|done| |done|done|].
  - rewrite length_splice; rewrite length_app, length_fmap, length_replicate; cbn; lia.
  - eapply terminate; [done|]. rewrite length_app, length_fmap, length_replicate. lia.
  - by eapply prog_wp_done.
Qed.

Lemma grow_ok n : 0 <= n -> (R -> cap_of lay < n -> grants allocates (grow_capacity n)) ->
  wp R (grow_to_at_least allocates this n m) (fun q => becomes this lay m l (grown (cap_of lay) n) q.1).
Proof using Hw H.
  intros Hn HR. unfold grow_to_at_least, grown. eapply wp_step; [exact (string_capacity H)|]. destruct (Z.ltb_spec (cap_of lay) n).
  - pose proof (grow_capacity_range n Hn) as [Hg _]. pose proof (string_cap _ _ _ _ H). apply realloc_to_ok; [lia|lia|]. intros r. by apply HR.
  - eapply prog_wp_done; [done|]. by apply becomes_refl.
Qed.

Lemma reserve_ok n : 0 <= n -> (R -> cap_of lay < n -> grants allocates n) ->
  wp R (reserve allocates this n m) (fun q => becomes this lay m l (Z.max (cap_of lay) n) q.1).
Proof using Hw H.
  intros Hn HR. unfold reserve. eapply wp_step; [exact (string_capacity H)|]. pose proof (string_cap _ _ _ _ H). destruct (Z.ltb_spec (cap_of lay) n).
  - rewrite Z.max_r by lia. apply realloc_to_ok; [lia|lia|]. intros r. by apply HR.
  - rewrite Z.max_l by lia. eapply prog_wp_done; [done|]. by apply becomes_refl.
Qed.

End Modifiers.

(** ** Writing into the buffer *)

Lemma text_splice l rest off xs : (off <= length l)%nat ->
  exists rest', splice ((Byte <$> l) ++ rest) off (Byte <$> xs) = (Byte <$> take off l ++ xs) ++ rest'.
Proof.
  intros H. eexists. unfold splice. rewrite take_app_le by (rewrite length_fmap; lia). by rewrite <- fmap_take, fmap_app, <- app_assoc.
Qed.

Lemma splice_before {A} (b : list A) off xs ys : (off + length ys <= length b)%nat ->
  splice (splice b (off + length ys) xs) off ys = splice b off (ys ++ xs).
Proof.
  intros H. unfold splice. rewrite take_app_le by (rewrite length_take; lia). rewrite take_take, Nat.min_l by lia. f_equal.
  rewrite <- app_assoc. f_equal. rewrite drop_app_ge by (rewrite length_take; lia).
  rewrite length_take, Nat.min_l, Nat.sub_diag, drop_0 by lia. do 2 f_equal. rewrite length_app. lia.
Qed.

(** The last two calls of a modifier that has written the characters in place. *)
Lemma finish_becomes R m m1 this lay l' rest k n z buf : mem_wf m -> frame this lay lay m m1 -> holds m1 this lay k buf ->
  buf = (Byte <$> l') ++ rest -> n = Z.of_nat (length l') -> n <= cap_of lay -> z = n ->
  wp R ((_ ← set_size this z; ensure_null_terminated this) m1) (fun q => becomes this lay m l' (cap_of lay) q.1).
Proof.
  intros Hw F Hb E -> Hn ->. destruct (finish_text m1 this lay k buf l' rest Hb (fr_wf _ _ _ _ _ F Hw) E Hn) as (m2 & E2 & H2 & F2).
  eapply prog_wp_done; [exact E2|]. apply becomes_same; [done|]. eapply frame_trans; [done|by eapply string_apart in H2|exact F|exact F2].
Qed.

Lemma wp_grown R (p : Prog ()) (k : () -> Prog ()) m this lay l c l' c' : mem_wf m -> data_of lay <> Some this ->
  wp R (p m) (fun q => becomes this lay m l c q.1) ->
  (forall lay1 m1, mem_wf m1 -> string_at m1 this lay1 l -> cap_of lay1 = c -> wp R (k () m1) (fun q => becomes this lay1 m1 l' c' q.1)) ->
  wp R ((p ≫= k) m) (fun q => becomes this lay m l' c' q.1).
Proof.
  intros Hw Ha Hp Hk. refine (prog_wp_bind R p k m _ (fun m1 _ => becomes this lay m l c m1) Hp _).
  intros m1 [] (lay1 & H1 & Hc & F1). eapply wp_mono; [apply (Hk lay1 m1 (fr_wf _ _ _ _ _ F1 Hw) H1 Hc)|].
  intros q Hq. by eapply becomes_trans.
Qed.

(** Writing characters into the buffer from a position of the text on, then the size. *)
Lemma fill_finish R m this lay l off n c z : mem_wf m -> string_at m this lay l -> (off <= length l)%nat -> z = Z.of_nat (off + n) -> z <= cap_of lay ->
  wp R ((_ ← fill_chars n (buffer_of this lay, off) c; _ ← set_size this z; ensure_null_terminated this) m)
     (fun q => becomes this lay m (take off l ++ replicate n c) (cap_of lay) q.1).
Proof.
  intros Hw (buf & Hb & junk & Ej) Hoff Hz Hc.
  destruct (fill_ok n c m this lay _ buf off Hw Hb) as (m1 & E1 & H1 & F1); [pose proof (h_length _ _ _ _ _ Hb); lia|].
  eapply wp_step; [exact E1|]. destruct (text_splice l (Byte 0 :: junk) off (replicate n c) Hoff) as (rest & Er).
  eapply (finish_becomes R m m1 _ _ _ rest _ z z); [done|exact F1|exact H1| |rewrite length_app, length_take, length_replicate; lia|done|done].
  rewrite <- Er, Ej, fmap_replicate. done.
Qed.

Lemma move_finish R m this lay l src xs off z : mem_wf m -> string_at m this lay l -> readable m src xs -> (off <= length l)%nat ->
  z = Z.of_nat (off + length xs) -> z <= cap_of lay ->
  wp R ((_ ← MemMove (buffer_of this lay, off) src (length xs); _ ← set_size this z; ensure_null_terminated this) m)
     (fun q => becomes this lay m (take off l ++ xs) (cap_of lay) q.1).
Proof.
  intros Hw (buf & Hb & junk & Ej) Hr Hoff Hz Hc.
  destruct (move_own m this lay _ buf src xs off Hb Hr) as (m1 & E1 & H1 & F1); [pose proof (h_length _ _ _ _ _ Hb); lia|].
  eapply wp_step; [exact E1|]. destruct (text_splice l (Byte 0 :: junk) off xs Hoff) as (rest & Er).
  eapply (finish_becomes R m m1 _ _ _ rest _ z z); [done|exact F1|exact H1| |rewrite length_app, length_take; lia|done|done].
  by rewrite <- Er, Ej.
Qed.

(** A single store is a loop of one. *)
Lemma fill_one {B} R p c (k : Prog B) m P :
  wp R ((_ ← (_ ← store_byte p c; mret ()); k) m) P -> wp R ((_ ← store_byte p c; k) m) P.
Proof. unfold mbind, Prog_bind. by destruct (store_byte p c m) as [[m1 []]| |]. Qed.

Lemma checked_sum_ok {B} R a b (k : Z -> Prog B) m P : 0 <= a < 2 ^ 64 -> 0 <= b < 2 ^ 64 -> (R -> a + b < 2 ^ 64) ->
  (a + b < 2 ^ 64 -> wp R (k (a + b) m) P) -> wp R ((checked_length_sum a b ≫= k) m) P.
Proof.
  intros Ha Hb HR Hk. unfold checked_length_sum. change mem_size_max with (2 ^ 64 - 1). rewrite (wrap_small 64 (2 ^ 64 - 1 - b)) by (unfold fits; lia).
  unfold fatal_check. destruct (Z.leb_spec a (2 ^ 64 - 1 - b)).
  - rewrite wrap_small by (unfold fits; lia). eapply wp_step; [done|]. apply Hk. lia.
  - cbn. intros r. specialize (HR r). lia.
Qed.

(** Lengths of buffers under construction. *)
Ltac lengths :=
  repeat (rewrite length_splice; [|lengths]);
  rewrite ?length_app, ?length_fmap, ?length_replicate, ?length_take, ?length_drop; cbn [length fst snd]; lia.

Lemma copy_is_move dst src n : (src.1 = dst.1 -> (src.2 + n <= dst.2)%nat) -> MemCopy dst src n = MemMove dst src n.
Proof.
  intros H. unfold MemCopy, overlap. destruct (Nat.eqb_spec dst.1 src.1) as [E|]; [|done]. specialize (H (eq_sym E)).
  destruct (Nat.ltb_spec dst.2 (src.2 + n)); [lia|done].
Qed.

(** ** Storage without a string *)

(** 24 bytes that hold no string, or one whose buffer is gone, become the empty string. *)
Lemma init_empty_ok m this c0 : blocks m !! this = Some (false, c0) -> length c0 = 24%nat ->
  exists m', init_empty this m = Ok (m', ()) /\ string_at m' this Small [] /\
    (forall b, b <> this -> blocks m' !! b = blocks m !! b) /\ next_block m' = next_block m.
Proof.
  intros E Hl.
  assert (Hc0 : exists b0 x1 x2 x3 b1, c0 = [b0] ++ x1 ++ x2 ++ x3 ++ [b1] /\ length x1 = 7%nat /\ length x2 = 8%nat /\ length x3 = 7%nat).
  { do 25 (destruct c0 as [|? c0]; try done). do 5 eexists. split; [|split; [|split]]; [|instantiate (1 := [_; _; _; _; _; _; _])|instantiate (1 := [_; _; _; _; _; _; _; _])|instantiate (1 := [_; _; _; _; _; _; _])]; reflexivity. }
  destruct Hc0 as (b0 & x1 & x2 & x3 & b1 & -> & H1 & H2 & H3). unfold init_empty.
  assert (E1 : blocks m !! (size_field this).1 = Some (false, ([b0] ++ x1) ++ x2 ++ (x3 ++ [b1]))) by (cbn [fst size_field]; by rewrite E, <- app_assoc).
  rewrite (prog_bind _ _ _ _ _ (store_middle (size_field this) (Byte <$> bytes_of 8 0) m false ([b0] ++ x1) x2 (x3 ++ [b1]) E1 ltac:(cbn; by rewrite H1) ltac:(cbn; by rewrite H2))).
  cbn [fst size_field]. set (m1 := with_block m this _).
  assert (E2 : blocks m1 !! (flag_field this).1 = Some (false, (([b0] ++ x1) ++ (Byte <$> bytes_of 8 0) ++ x3) ++ [b1] ++ [])).
  { unfold m1. cbn [fst flag_field]. by rewrite with_block_at, <- !app_assoc. }
  rewrite (prog_bind _ _ _ _ _ (store_middle (flag_field this) [Byte 0] m1 false _ [b1] [] E2 ltac:(rewrite !length_app; cbn; lia) eq_refl)).
  cbn [fst flag_field]. unfold m1. rewrite with_block_twice. set (m2 := with_block m this _).
  assert (E3 : blocks m2 !! this = Some (false, [] ++ [b0] ++ (x1 ++ (Byte <$> bytes_of 8 0) ++ x3 ++ [Byte 0]))).
  { unfold m2. rewrite with_block_at. by rewrite app_nil_r, <- !app_assoc. }
  unfold store_byte. rewrite (store_middle (this, 0%nat) [Byte 0] m2 false [] [b0] _ E3 eq_refl eq_refl). cbn [fst]. unfold m2. rewrite with_block_twice.
  eexists. split; [done|]. split; [|by split; [intros b Hb; apply with_block_same|]].
  exists ([Byte 0] ++ x1 ++ (Byte <$> bytes_of 8 0) ++ x3). split; [|by eexists]. split; cbn [object_bytes cap_of]; try done.
  - rewrite with_block_at, <- !app_assoc. done.
  - rewrite !length_app. cbn. lia.
Qed.

Section Modifiers.

Context (allocates : Z -> bool) (R : Prop).
Context (m : memory) (this : nat) (lay : layout) (l : list Z).
Context (Hw : mem_wf m) (H : string_at m this lay l).

Abbreviation size_z := (Z.of_nat (length l)).
Abbreviation leaves l' c p := (wp R (p m) (fun q => becomes this lay m l' c q.1)).

Lemma clear_ok : leaves [] 22 (clear this).
Proof using Hw H.
  pose proof H as (buf & Hb & _). pose proof (holds_apart _ _ _ _ _ Hb) as Hap. unfold clear. eapply wp_step; [by eapply deallocate_ok|].
  set (m1 := match lay with Small => m | Large _ _ => _ end).
  assert (Hm1 : forall b, blocks m1 !! b = if decide (data_of lay = Some b) then None else blocks m !! b).
  { intros b. unfold m1. destruct lay as [|d c]; cbn [data_of]; [done|]. cbn. destruct (decide (Some d = Some b)) as [[= ->]|Hne]; [apply lookup_delete_eq|apply lookup_delete_ne; congruence]. }
  assert (En : next_block m1 = next_block m) by (unfold m1; by destruct lay).
  destruct (init_empty_ok m1 this (object_bytes lay size_z buf)) as (m2 & E2 & H2 & F2 & N2).
  { rewrite Hm1, decide_False by done. apply Hb. }
  { eapply object_length, Hb. }
  eapply prog_wp_done; [exact E2|]. cbn [fst]. exists Small. split; [done|]. split; [done|]. split.
  - intros b Hne Hd _. by rewrite F2, Hm1, decide_False.
  - intros b Hd. right. rewrite F2, Hm1, decide_True by congruence. done.
  - done.
  - rewrite N2, En. lia.
  - intros _ b Hs. rewrite N2, En. destruct (decide (b = this)) as [->|Hne]; [apply Hw; destruct Hb as [Eo _ _ _ _]; eauto|].
    rewrite F2, Hm1 in Hs by done. destruct (decide (data_of lay = Some b)); [by destruct Hs|]. by apply Hw.
Qed.

(** [src] may be null, or point into the string. *)
Lemma assign_ok (src : option ptr) xs : match src with Some p => readable m p xs | None => True end ->
  (R -> is_Some src -> cap_of lay < Z.of_nat (length xs) -> grants allocates (Z.of_nat (length xs))) ->
  leaves (match src with Some _ => xs | None => [] end) (match src with Some _ => if (length xs =? 0)%nat then 22 else Z.max (cap_of lay) (Z.of_nat (length xs)) | None => 22 end)
    (assign allocates this src (Z.of_nat (length xs))).
Proof using Hw H.
  intros Hr HR. unfold assign. destruct src as [p|]; [|exact clear_ok]. destruct xs as [|x xs']; [exact clear_ok|]. set (xs := x :: xs') in *.
  rewrite (proj2 (Z.eqb_neq (Z.of_nat (length xs)) 0)) by done. rewrite (proj2 (Nat.eqb_neq (length xs) 0)) by done.
  pose proof (string_cap _ _ _ _ H) as [Hlen Hcap]. eapply wp_step; [exact (string_capacity H)|]. destruct (Z.ltb_spec (cap_of lay) (Z.of_nat (length xs))) as [Hlt|Hge].
  - rewrite Z.max_r by lia. refine (prog_wp_bind _ _ _ _ _ (fun m1 d => Z.of_nat (length xs) <= kMaxCapacity /\ m1 = with_fresh m (replicate (Z.to_nat (Z.of_nat (length xs) + 1)) Uninit) /\ d = next_block m) _ _).
    { apply (allocate_ok allocates R); [lia| |done]. intros r. by apply HR. }
    intros m1 d (Hmax & -> & ->). rewrite Nat2Z.id. eapply wp_step; [apply copy_fresh; [done|done|rewrite length_replicate; lia]|].
    eapply wp_step; [apply fresh_write; [done|]|].
    { lengths. }
    destruct (install_becomes m this lay l (Z.of_nat (length xs)) (Z.of_nat (length xs))
      (splice (splice (replicate (Z.to_nat (Z.of_nat (length xs) + 1)) Uninit) 0 (Byte <$> xs)) (length xs) [Byte 0]) xs Hw H) as (m' & E & Hb); [|lia| |done|lia|].
    + lengths.
    + destruct (text_splice [] (replicate (Z.to_nat (Z.of_nat (length xs) + 1)) Uninit) 0 xs ltac:(done)) as (rest & Er). cbn [fmap list_fmap app take] in Er.
      eapply terminate; [exact Er|]. lengths.
    + by eapply prog_wp_done.
  - rewrite Z.max_l by lia. eapply wp_step; [exact (string_data H)|]. rewrite Nat2Z.id. apply (move_finish R m this lay l p xs 0 (Z.of_nat (length xs))); try done; lia.
Qed.

Lemma append_ok src xs : readable m src xs -> Z.of_nat (length xs) < 2 ^ 64 ->
  (src.1 = buffer_of this lay -> (src.2 + length xs <= length l)%nat) ->
  (R -> let n := size_z + Z.of_nat (length xs) in cap_of lay < n -> grants allocates (grow_capacity n)) ->
  leaves (l ++ xs) (grown (cap_of lay) (size_z + Z.of_nat (length xs))) (append allocates this src (Z.of_nat (length xs))).
Proof using Hw H.
  intros Hr Hfit Hap HR. cbn zeta in HR. unfold append. pose proof (string_cap _ _ _ _ H) as [Hlen Hcap]. pose proof kMaxCapacity_eq as Ek.
  destruct (Z.eqb_spec (Z.of_nat (length xs)) 0) as [E0|Hne].
  { assert (xs = []) as -> by (apply nil_length_inv; lia). rewrite app_nil_r. unfold grown. cbn [length]. rewrite Z.add_0_r, (proj2 (Z.ltb_ge _ _) Hlen).
    eapply prog_wp_done; [done|]. by apply becomes_refl. }
  set (n := size_z + Z.of_nat (length xs)) in *. destruct (grow_capacity_range n ltac:(lia)) as (Hg1 & Hg2 & Hg3).
  assert (Hgrant : R -> cap_of lay < n -> n <= kMaxCapacity).
  { intros r Hlt. destruct (HR r Hlt) as [Hle _]. lia. }
  eapply wp_step; [exact (string_size H)|]. apply checked_sum_ok; [lia|lia| |].
  { intros r. specialize (Hgrant r). lia. }
  fold n. intros Hn. eapply wp_step; [exact (string_capacity H)|]. unfold grown. destruct (Z.ltb_spec (cap_of lay) n) as [Hlt|Hge].
  - refine (prog_wp_bind _ _ _ _ _ (fun m1 d => grow_capacity n <= kMaxCapacity /\ m1 = with_fresh m (replicate (Z.to_nat (grow_capacity n + 1)) Uninit) /\ d = next_block m) _ _).
    { apply (allocate_ok allocates R); [lia| |done]. intros r. by apply HR. }
    intros m1 d (Hmax & -> & ->). apply (copy_text_fresh R m this lay l Hw H); [lia|].
    set (b1 := (Byte <$> l) ++ _). rewrite !Nat2Z.id. assert (Hb1 : length b1 = Z.to_nat (grow_capacity n + 1)) by (unfold b1; rewrite length_app, length_fmap, length_replicate; lia).
    eapply wp_step; [apply copy_fresh; [done|done|lia]|].
    destruct (text_splice l (replicate (Z.to_nat (grow_capacity n + 1) - length l) Uninit) (length l) xs ltac:(lia)) as (rest & Er). rewrite firstn_all in Er. fold b1 in Er.
    assert (En : Z.to_nat n = length (l ++ xs)) by (rewrite length_app; lia).
    eapply wp_step; [apply fresh_write; [done|]|].
    { lengths. }
    destruct (install_becomes m this lay l n (grow_capacity n) (splice (splice b1 (length l) (Byte <$> xs)) (Z.to_nat n) [Byte 0]) (l ++ xs) Hw H) as (m' & E & Hb); [|lia| |rewrite length_app; lia|rewrite length_app; lia|].
    + lengths.
    + rewrite En. eapply terminate; [exact Er|]. lengths.
    + by eapply prog_wp_done.
  - eapply wp_step; [exact (string_data H)|]. unfold advance_ptr. cbn [fst snd Nat.add]. rewrite !Nat2Z.id, copy_is_move by exact Hap.
    pose proof (move_finish R m this lay l src xs (length l) n Hw H Hr ltac:(lia) ltac:(lia) ltac:(lia)) as Hm. by rewrite firstn_all in Hm.
Qed.

End Modifiers.

Lemma wp_assoc {A B C} R (p : Prog A) (k : A -> Prog B) (k2 : B -> Prog C) m P :
  wp R ((p ≫= fun a => k a ≫= k2) m) P -> wp R (((p ≫= k) ≫= k2) m) P.
Proof. unfold mbind, Prog_bind. by destruct (p m) as [[m1 a]| |]. Qed.

Lemma set_finish R m this lay l off n z : mem_wf m -> string_at m this lay l -> (off <= length l)%nat -> z = Z.of_nat (off + n) -> z <= cap_of lay ->
  wp R ((_ ← MemSet (buffer_of this lay, off) 0 n; _ ← set_size this z; ensure_null_terminated this) m)
     (fun q => becomes this lay m (take off l ++ replicate n 0) (cap_of lay) q.1).
Proof.
  intros Hw (buf & Hb & junk & Ej) Hoff Hz Hc. pose proof (h_length _ _ _ _ _ Hb) as Hl.
  assert (Hm : exists m1, MemSet (buffer_of this lay, off) 0 n m = Ok (m1, ()) /\ holds m1 this lay (Z.of_nat (length l)) (splice buf off (replicate n (Byte 0))) /\ frame this lay lay m m1).
  { unfold MemSet. destruct (Nat.eqb_spec n 0) as [->|]; [|apply put_ok; [done|lengths]].
    exists m. cbn [replicate]. rewrite splice_nil. split; [done|]. split; [done|apply frame_refl]. }
  destruct Hm as (m1 & E1 & H1 & F1). eapply wp_step; [exact E1|]. destruct (text_splice l (Byte 0 :: junk) off (replicate n 0) Hoff) as (rest & Er).
  eapply (finish_becomes R m m1 _ _ _ rest _ z z); [done|exact F1|exact H1| |lengths|done|done].
  by rewrite <- Er, Ej, fmap_replicate.
Qed.

Lemma splice_one {A} (b : list A) i x : (i < length b)%nat -> splice b i [x] = <[i := x]> b.
Proof. intros Hi. unfold splice. rewrite insert_take_drop by done. by rewrite Nat.add_1_r. Qed.

Lemma ensure_ok m this lay k buf : holds m this lay k buf ->
  exists m', ensure_null_terminated this m = Ok (m', ()) /\ holds m' this lay k (splice buf (Z.to_nat k) [Byte 0]) /\ frame this lay lay m m'.
Proof.
  intros Hb. unfold ensure_null_terminated. rewrite (prog_bind _ _ _ _ _ (holds_data _ _ _ _ _ Hb)), (prog_bind _ _ _ _ _ (holds_size _ _ _ _ _ Hb)).
  apply put_ok; [done|]. pose proof (h_length _ _ _ _ _ Hb). pose proof (h_size _ _ _ _ _ Hb). cbn. lia.
Qed.

(** The heap-to-inline branch of [shrink_to_fit]. *)
Lemma shrink_inline_ok R m this d cap l : mem_wf m -> string_at m this (Large d cap) l -> Z.of_nat (length l) <= 22 ->
  wp R ((old_data ← load_ptr (data_field this);
         old_capacity ← get_capacity this;
         buf ← (if 0 <? Z.of_nat (length l) then load_bytes (old_data, 0%nat) (Z.to_nat (Z.of_nat (length l))) else mret []);
         _ ← init_empty this;
         _ ← store_bytes (this, 0%nat) buf;
         _ ← store_byte (flag_field this) (u8 (Z.land (Z.of_nat (length l)) (Z.lnot kLargeFlag)));
         _ ← ensure_null_terminated this;
         Free old_data (buffer_byte_size old_capacity)) m) (fun q => becomes this (Large d cap) m l 22 q.1).
Proof.
  intros Hw H Hs. pose proof (string_apart _ _ _ _ H) as Hap. pose proof H as (buf & Hb & Ht). pose proof Hb as [Eo Ed Hl Hn Hc]. cbn [cap_of data_of] in *.
  eapply wp_step; [by eapply (string_pointer H)|]. eapply wp_step; [exact (string_capacity H)|].
  refine (wp_step _ _ _ m m (Byte <$> l) _ _ _).
  { destruct (Z.ltb_spec 0 (Z.of_nat (length l))) as [Hlt|]; [|assert (l = []) as -> by (apply nil_length_inv; lia); done].
    rewrite Nat2Z.id. destruct l as [|x l']; [cbn in Hlt; lia|]. exact (readable_load _ (d, 0%nat) _ _ (readable_text _ _ _ _ H)). }
  destruct (init_empty_ok m this _ Eo (object_length (Large d cap) _ _ Hl)) as (m1 & E1 & (b1 & H1 & _) & F1 & N1). eapply wp_step; [exact E1|].
  pose proof (h_length _ _ _ _ _ H1) as Hl1. cbn [cap_of] in Hl1.
  destruct (put_ok m1 this Small _ b1 0 (Byte <$> l) H1) as (m2 & E2 & H2 & F2); [lengths|]. eapply wp_step; [exact E2|].
  destruct (set_size_ok m2 this Small _ _ (Z.of_nat (length l)) H2) as (m3 & E3 & H3 & F3); [cbn; lia|].
  unfold set_size in E3. rewrite (prog_bind _ _ _ _ _ (holds_large _ _ _ _ _ H2)) in E3. eapply wp_step; [exact E3|].
  destruct (ensure_ok _ _ _ _ _ H3) as (m4 & E4 & H4 & F4). eapply wp_step; [exact E4|].
  assert (Hd : d <> this) by congruence.
  assert (Hsame : forall b, b <> this -> blocks m4 !! b = blocks m !! b).
  { intros b Hne. rewrite (fr_same _ _ _ _ _ F4), (fr_same _ _ _ _ _ F3), (fr_same _ _ _ _ _ F2) by done. by apply F1. }
  assert (Efree : Free d (buffer_byte_size (cap_of (Large d cap))) m4 = Ok (mkMemory (delete d (blocks m4)) (next_block m4), ())).
  { apply (free_ok d _ m4 buf); [exact (eq_trans (Hsame d Hd) Ed)|]. cbn [cap_of]. rewrite buffer_bytes by lia. lia. }
  eapply prog_wp_done; [exact Efree|]. cbn [fst]. exists Small. split; [|split; [done|split]].
  - exists (splice (splice b1 0 (Byte <$> l)) (Z.to_nat (Z.of_nat (length l))) [Byte 0]). split.
    + destruct H4 as [A1 A2 A3 A4 A5]. split; try done. cbn [blocks]. by rewrite lookup_delete_ne.
    + rewrite Nat2Z.id. destruct (text_splice [] b1 0 l ltac:(done)) as (rest & Er). eapply terminate; [exact Er|lengths].
  - intros b Hb1 Hb2 _. cbn [blocks]. rewrite lookup_delete_ne by (cbn in Hb2; congruence). by apply Hsame.
  - intros b [= <-]. right. apply lookup_delete_eq.
  - done.
  - cbn [next_block]. pose proof (fr_next _ _ _ _ _ F2). pose proof (fr_next _ _ _ _ _ F3). pose proof (fr_next _ _ _ _ _ F4). lia.
  - intros _ b. cbn [blocks next_block]. assert (Hw4 : mem_wf m4).
    { apply (fr_wf _ _ _ _ _ F4), (fr_wf _ _ _ _ _ F3), (fr_wf _ _ _ _ _ F2). intros x Hx. rewrite N1. destruct (decide (x = this)) as [->|Hne]; [apply Hw; eauto|]. rewrite F1 in Hx by done. by apply Hw. }
    destruct (decide (b = d)) as [->|Hne]; [rewrite lookup_delete_eq; by intros [? ?]|]. rewrite lookup_delete_ne by done. apply Hw4.
Qed.

Section MoreModifiers.

Context (allocates : Z -> bool) (R : Prop).
Context (m : memory) (this : nat) (lay : layout) (l : list Z).
Context (Hw : mem_wf m) (H : string_at m this lay l).

Abbreviation size_z := (Z.of_nat (length l)).
Abbreviation leaves l' c p := (wp R (p m) (fun q => becomes this lay m l' c q.1)).
(** The allocator grants the growth to [n] characters, if there is one. *)
Abbreviation grants_growth n := (R -> cap_of lay < n -> grants allocates (grow_capacity n)).

(** A granted growth is below the ceiling. *)
Lemma granted_size n : 0 <= n -> grants_growth n -> R -> n < 2 ^ 64.
Proof using H.
  intros Hn HR r. pose proof (string_cap _ _ _ _ H) as [_ Hcap]. pose proof kMaxCapacity_eq. destruct (Z.lt_ge_cases (cap_of lay) n) as [Hlt|]; [|lia].
  destruct (HR r Hlt) as [Hle _]. pose proof (grow_capacity_range n Hn). lia.
Qed.

Lemma grown_range n : 0 <= n -> n <= grown (cap_of lay) n.
Proof using Type. intros Hn. unfold grown. destruct (Z.ltb_spec (cap_of lay) n); [|done]. by apply grow_capacity_range. Qed.

Lemma append_fill_ok count c : Z.of_nat count < 2 ^ 64 -> grants_growth (size_z + Z.of_nat count) ->
  leaves (l ++ replicate count c) (grown (cap_of lay) (size_z + Z.of_nat count)) (append_fill allocates this (Z.of_nat count) c).
Proof using Hw H.
  intros Hfit HR. unfold append_fill. pose proof (string_cap _ _ _ _ H) as [Hlen Hcap]. pose proof kMaxCapacity_eq as Ek.
  destruct (Z.eqb_spec (Z.of_nat count) 0) as [E0|Hne].
  { assert (count = 0%nat) as -> by lia. cbn [replicate]. rewrite app_nil_r. unfold grown. rewrite Z.add_0_r, (proj2 (Z.ltb_ge _ _) Hlen).
    eapply prog_wp_done; [done|]. by apply becomes_refl. }
  eapply wp_step; [exact (string_size H)|]. apply checked_sum_ok; [lia|lia|apply granted_size; [lia|done]|]. intros Hn.
  eapply wp_grown; [done|by eapply string_apart|apply (grow_ok allocates R m this lay l Hw H); [lia|exact HR]|].
  intros lay1 m1 Hw1 H1 Hc1. rewrite <- Hc1. eapply wp_step; [exact (string_data H1)|]. unfold advance_ptr. cbn [fst snd Nat.add]. rewrite !Nat2Z.id.
  pose proof (fill_finish R m1 this lay1 l (length l) count c (size_z + Z.of_nat count) Hw1 H1 ltac:(lia) ltac:(lia)) as Hf. rewrite firstn_all in Hf.
  apply Hf. rewrite Hc1. apply grown_range. lia.
Qed.

Lemma resize_ok n : Z.of_nat n < 2 ^ 64 -> grants_growth (Z.of_nat n) ->
  leaves (take n l ++ replicate (n - length l) 0) (grown (cap_of lay) (Z.of_nat n)) (resize allocates this (Z.of_nat n)).
Proof using Hw H.
  intros Hfit HR. unfold resize. pose proof (string_cap _ _ _ _ H) as [Hlen Hcap]. eapply wp_step; [exact (string_size H)|].
  destruct (Z.ltb_spec size_z (Z.of_nat n)) as [Hlt|Hge].
  - rewrite take_ge by lia. apply wp_assoc.
    eapply wp_grown; [done|by eapply string_apart|apply (grow_ok allocates R m this lay l Hw H); [lia|exact HR]|].
    intros lay1 m1 Hw1 H1 Hc1. rewrite <- Hc1. apply wp_assoc. eapply wp_step; [exact (string_data H1)|].
    unfold advance_ptr. cbn [fst snd Nat.add]. rewrite Nat2Z.id. replace (Z.to_nat (Z.of_nat n - size_z)) with (n - length l)%nat by lia.
    pose proof (set_finish R m1 this lay1 l (length l) (n - length l) (Z.of_nat n) Hw1 H1 ltac:(lia) ltac:(lia)) as Hf.
    rewrite firstn_all in Hf. apply Hf. rewrite Hc1. apply grown_range. lia.
  - replace (n - length l)%nat with 0%nat by lia. cbn [replicate]. rewrite app_nil_r. unfold grown. rewrite (proj2 (Z.ltb_ge _ _)) by lia.
    eapply wp_step; [done|]. destruct H as (buf & Hb & junk & Ej).
    eapply (finish_becomes R m m this lay (take n l) ((Byte <$> drop n l) ++ Byte 0 :: junk) _ (Z.of_nat n) (Z.of_nat n) buf); [done|apply frame_refl|exact Hb| | |lia|done].
    + by rewrite Ej, app_assoc, <- fmap_app, take_drop.
    + rewrite length_take. lia.
Qed.

(** [set_size(k); ensure_null_terminated()] alone: a prefix. *)
Lemma shorten_ok k : (k <= length l)%nat -> leaves (take k l) (cap_of lay) (fun m => (_ ← set_size this (Z.of_nat k); ensure_null_terminated this) m).
Proof using Hw H.
  intros Hk. pose proof (string_cap _ _ _ _ H) as [Hlen Hcap]. destruct H as (buf & Hb & junk & Ej).
  eapply (finish_becomes R m m this lay (take k l) ((Byte <$> drop k l) ++ Byte 0 :: junk) _ (Z.of_nat k) (Z.of_nat k) buf); [done|apply frame_refl|exact Hb| | |lia|done].
  + by rewrite Ej, app_assoc, <- fmap_app, take_drop.
  + rewrite length_take. lia.
Qed.

Lemma remove_suffix_ok n : (n <= length l)%nat -> leaves (take (length l - n) l) (cap_of lay) (remove_suffix this (Z.of_nat n)).
Proof using Hw H.
  intros Hn. unfold remove_suffix. eapply wp_step; [exact (string_size H)|]. unfold bug_check, dcheck.
  rewrite (proj2 (Z.leb_le _ _)) by lia. refine (wp_step _ _ _ m m () _ eq_refl _).
  replace (size_z - Z.of_nat n) with (Z.of_nat (length l - n)) by lia. apply shorten_ok. lia.
Qed.

Lemma string_pop_back_ok : l <> [] -> leaves (take (length l - 1) l) (cap_of lay) (pop_back this).
Proof using Hw H.
  intros Hn. unfold pop_back, empty. pose proof (string_cap _ _ _ _ H) as [Hlen Hcap]. pose proof kMaxCapacity_eq. assert (0 < length l)%nat by (destruct l; [done|cbn; lia]).
  apply wp_assoc. eapply wp_step; [exact (string_size H)|]. refine (wp_step _ _ _ m m _ _ eq_refl _). unfold bug_check, dcheck.
  rewrite (proj2 (Z.eqb_neq size_z 0)) by lia. refine (wp_step _ _ _ m m () _ eq_refl _). eapply wp_step; [exact (string_size H)|].
  rewrite wrap_small by (unfold fits; lia). replace (size_z - 1) with (Z.of_nat (length l - 1)) by lia. apply shorten_ok. lia.
Qed.

Lemma push_back_ok ch : grants_growth (size_z + 1) -> leaves (l ++ [ch]) (grown (cap_of lay) (size_z + 1)) (push_back allocates this ch).
Proof using Hw H.
  intros HR. unfold push_back. pose proof (string_cap _ _ _ _ H) as [Hlen Hcap]. pose proof kMaxCapacity_eq as Ek.
  eapply wp_step; [exact (string_size H)|]. apply checked_sum_ok; [lia|lia|lia|]. intros Hn.
  eapply wp_step; [exact (string_capacity H)|].
  eapply (wp_grown R _ _ m this lay l (grown (cap_of lay) (size_z + 1))); [done|by eapply string_apart| |].
  { destruct (Z.eqb_spec size_z (cap_of lay)) as [E|Hne]; [apply (grow_ok allocates R m this lay l Hw H); [lia|exact HR]|].
    unfold grown. rewrite (proj2 (Z.ltb_ge (cap_of lay) (size_z + 1))) by lia. eapply prog_wp_done; [done|]. by apply becomes_refl. }
  intros lay1 m1 Hw1 H1 Hc1. rewrite <- Hc1. eapply wp_step; [exact (string_data H1)|]. unfold advance_ptr. cbn [fst snd Nat.add]. rewrite Nat2Z.id.
  pose proof (fill_finish R m1 this lay1 l (length l) 1 ch (size_z + 1) Hw1 H1 ltac:(lia) ltac:(lia)) as Hf. rewrite firstn_all in Hf. cbn [fill_chars] in Hf.
  apply fill_one. apply Hf. rewrite Hc1. apply grown_range. lia.
Qed.

(** [base::Min(count, size - pos)] characters go. *)
Lemma erase_ok pos count : (pos <= length l)%nat -> 0 <= count ->
  leaves (take pos l ++ drop (pos + Z.to_nat (Z.min count (size_z - Z.of_nat pos))) l) (cap_of lay) (erase this (Z.of_nat pos) count).
Proof using Hw H.
  intros Hp Hc. unfold erase. pose proof (string_cap _ _ _ _ H) as [Hlen Hcap]. eapply wp_step; [exact (string_size H)|]. unfold bug_check, dcheck.
  rewrite (proj2 (Z.leb_le _ _)) by lia. refine (wp_step _ _ _ m m () _ eq_refl _). set (n := Z.min count (size_z - Z.of_nat pos)). cbv zeta. fold n.
  destruct (Z.eqb_spec n 0) as [->|Hne].
  { change (Z.to_nat 0) with 0%nat. rewrite Nat.add_0_r, take_drop. eapply prog_wp_done; [done|]. by apply becomes_refl. }
  eapply wp_step; [exact (string_data H)|]. unfold advance_ptr. cbn [fst snd Nat.add]. rewrite Nat2Z.id.
  set (xs := drop (pos + Z.to_nat n) l). assert (Hxs : length xs = (length l - pos - Z.to_nat n)%nat) by (unfold xs; rewrite length_drop; lia).
  replace (Z.to_nat (size_z - Z.of_nat pos - n)) with (length xs) by lia.
  apply (move_finish R m this lay l _ xs pos); [done|done| |lia|lia|lia].
  pose proof (readable_own m this lay l (Z.to_nat (Z.of_nat pos + n)) (length xs) H ltac:(lia)) as Hr.
  replace (Z.to_nat (Z.of_nat pos + n)) with (pos + Z.to_nat n)%nat in * by lia. fold xs in Hr. by rewrite firstn_all in Hr.
Qed.

Lemma insert_ok pos count c : (pos <= length l)%nat -> Z.of_nat count < 2 ^ 64 -> grants_growth (size_z + Z.of_nat count) ->
  leaves (take pos l ++ replicate count c ++ drop pos l) (grown (cap_of lay) (size_z + Z.of_nat count))
    (insert allocates this (Z.of_nat pos) (Z.of_nat count) c).
Proof using Hw H.
  intros Hp Hfit HR. unfold insert. pose proof (string_cap _ _ _ _ H) as [Hlen Hcap]. pose proof kMaxCapacity_eq as Ek.
  eapply wp_step; [exact (string_size H)|]. unfold bug_check, dcheck. rewrite (proj2 (Z.leb_le _ _)) by lia. refine (wp_step _ _ _ m m () _ eq_refl _).
  destruct (Z.eqb_spec (Z.of_nat count) 0) as [E0|Hne].
  { assert (count = 0%nat) as -> by lia. cbn [replicate app]. rewrite take_drop. unfold grown. rewrite Z.add_0_r, (proj2 (Z.ltb_ge _ _) Hlen).
    eapply prog_wp_done; [done|]. by apply becomes_refl. }
  eapply wp_step; [exact (string_size H)|]. apply checked_sum_ok; [lia|lia|apply granted_size; [lia|done]|]. intros Hn.
  eapply wp_grown; [done|by eapply string_apart|apply (grow_ok allocates R m this lay l Hw H); [lia|exact HR]|].
  intros lay1 m1 Hw1 H1 Hc1. pose proof (grown_range (size_z + Z.of_nat count) ltac:(lia)) as Hg. rewrite <- Hc1 in *. clear Hcap HR.
  eapply wp_step; [exact (string_data H1)|]. unfold advance_ptr. cbn [fst snd Nat.add]. rewrite !Nat2Z.id.
  pose proof (readable_own m1 this lay1 l pos (length l - pos) H1 ltac:(lia)) as Hr.
  assert (Ed : length (drop pos l) = (length l - pos)%nat) by apply length_drop. rewrite <- Ed, firstn_all in Hr.
  destruct H1 as (buf & Hb & junk & Ej). pose proof (h_length _ _ _ _ _ Hb) as Hbl.
  replace (Z.to_nat (Z.of_nat pos + Z.of_nat count)) with (pos + count)%nat by lia. replace (Z.to_nat (size_z - Z.of_nat pos)) with (length (drop pos l)) by lia.
  destruct (move_own m1 this lay1 _ buf _ _ (pos + count) Hb Hr) as (m2 & E2 & H2 & F2); [lia|]. eapply wp_step; [exact E2|].
  pose proof (fr_wf _ _ _ _ _ F2 Hw1) as Hw2.
  destruct (fill_ok count c m2 this lay1 _ _ pos Hw2 H2) as (m3 & E3 & H3 & F3); [lengths|]. eapply wp_step; [exact E3|].
  pose proof (splice_before buf pos (Byte <$> drop pos l) (replicate count (Byte c))) as Es. rewrite length_replicate in Es. rewrite Es in H3 by lia.
  rewrite <- fmap_replicate, <- fmap_app in H3. destruct (text_splice l (Byte 0 :: junk) pos (replicate count c ++ drop pos l) Hp) as (rest & Er).
  eapply (finish_becomes R m1 m3 this lay1 _ rest _ (size_z + Z.of_nat count) _ _ Hw1 (frame_trans _ _ _ _ _ _ _ Hw1 (holds_apart _ _ _ _ _ Hb) F2 F3) H3); [by rewrite Ej|lengths|lia|done].
Qed.

Lemma set_at_ok pos c : (pos < length l)%nat -> leaves (<[pos := c]> l) (cap_of lay) (set_at this (Z.of_nat pos) c).
Proof using Hw H.
  intros Hp. unfold set_at. eapply wp_step; [exact (string_size H)|]. unfold bug_check, dcheck. rewrite (proj2 (Z.ltb_lt _ _)) by lia.
  refine (wp_step _ _ _ m m () _ eq_refl _). eapply wp_step; [exact (string_data H)|]. unfold advance_ptr. cbn [fst snd Nat.add]. rewrite Nat2Z.id.
  destruct H as (buf & Hb & junk & Ej). destruct (put_ok m this lay _ buf pos [Byte c] Hb) as (m1 & E1 & H1 & F1); [rewrite Ej; lengths|].
  eapply prog_wp_done; [exact E1|]. apply becomes_same; [|done]. eexists. split; [rewrite length_insert; exact H1|]. exists junk.
  rewrite Ej, splice_one by (rewrite length_app, length_fmap; lia). rewrite insert_app_l by (rewrite length_fmap; lia). by rewrite list_fmap_insert.
Qed.

(** A heap string that fits inline moves there; a longer one gets a buffer of its size. *)
Lemma shrink_to_fit_ok : (R -> 22 < size_z < cap_of lay -> grants allocates size_z) -> leaves l (Z.max 22 size_z) (shrink_to_fit allocates this).
Proof using Hw H.
  intros HR. pose proof (string_cap _ _ _ _ H) as [Hlen Hcap]. pose proof kMaxCapacity_eq as Ek. unfold shrink_to_fit.
  eapply wp_step; [exact (string_large H)|]. eapply wp_step; [exact (string_size H)|]. eapply wp_step; [exact (string_capacity H)|].
  destruct lay as [|d cap] eqn:El; cbn [negb orb cap_of] in *.
  { rewrite Z.max_l by lia. eapply prog_wp_done; [done|]. exact (becomes_refl m this Small l H). }
  destruct (Z.eqb_spec size_z cap) as [E|Hne].
  { pose proof H as (buf & [_ _ _ _ Hc] & _). cbn [cap_of] in Hc. rewrite Z.max_r by lia. eapply prog_wp_done; [done|]. rewrite E.
    exact (becomes_refl m this (Large d cap) l H). }
  eapply wp_step; [exact (string_size H)|]. change kSmallCapacity with 22. destruct (Z.leb_spec size_z 22) as [Hs|Hs].
  - rewrite Z.max_l by lia. by apply shrink_inline_ok.
  - rewrite Z.max_r by lia.
    refine (prog_wp_bind _ _ _ _ _ (fun m1 d => size_z <= kMaxCapacity /\ m1 = with_fresh m (replicate (Z.to_nat (size_z + 1)) Uninit) /\ d = next_block m) _ _).
    { apply (allocate_ok allocates R); [lia| |done]. intros r. apply HR; [done|lia]. }
    intros m1 b (Hmax & -> & ->). assert (Hf : string_at (with_fresh m (replicate (Z.to_nat (size_z + 1)) Uninit)) this (Large d cap) l) by (destruct H as (buf & Hb & Ht); exists buf; split; [by apply fresh_holds|done]).
    eapply wp_step; [by eapply (string_pointer Hf)|]. rewrite Nat2Z.id. eapply wp_step; [apply (copy_fresh m _ (d, 0%nat) l 0 Hw (readable_text _ _ _ _ H)); lengths|].
    eapply wp_step; [apply fresh_write; [done|lengths]|].
    destruct (text_splice [] (replicate (Z.to_nat (size_z + 1)) Uninit) 0 l ltac:(done)) as (rest & Er). cbn [fmap list_fmap app take] in Er.
    destruct (install_becomes m this (Large d cap) l size_z size_z
      (splice (splice (replicate (Z.to_nat (size_z + 1)) Uninit) 0 (Byte <$> l)) (length l) [Byte 0]) l Hw H) as (m' & E & Hb); [lengths|lia| |done|lia|].
    + eapply terminate; [exact Er|]. lengths.
    + by eapply prog_wp_done.
Qed.

End MoreModifiers.
