(* ===== verification/BaseStringConstruct.v ===== *)
(** * Constructors, copies and moves of the strings (strings/base_string.h)

    [CountStringLength] against the text before the first null, the constructors on raw
    storage, and the operations that involve two objects. *)

From stdpp Require Import gmap.
From S2P Require Import Prelude Memory CMemory BaseString BaseStringRep BaseStringModify.

Set Default Proof Using "Type".

(** ** Null-terminated text *)

Fixpoint until_zero (zs : list Z) : list Z :=
  match zs with [] => [] | z :: zs => if z =? 0 then [] else z :: until_zero zs end.

Lemma until_zero_prefix zs : until_zero zs `prefix_of` zs.
Proof. induction zs as [|z zs IH]; cbn; [done|]. destruct (z =? 0); [apply prefix_nil|by apply prefix_cons]. Qed.

Lemma until_zero_length zs : (length (until_zero zs) <= length zs)%nat.
Proof. apply prefix_length, until_zero_prefix. Qed.

Lemma until_zero_take zs : take (length (until_zero zs)) zs = until_zero zs.
Proof. destruct (until_zero_prefix zs) as [r E]. rewrite E at 2. by rewrite take_app_length. Qed.

(** Before the null every character is one; the null ends the text. *)
Lemma until_zero_lookup zs i z : zs !! i = Some z -> (i <= length (until_zero zs))%nat -> (z = 0 <-> i = length (until_zero zs)).
Proof.
  revert i. induction zs as [|x zs IH]; intros i Ei Hi; [done|]. cbn in Hi |- *. destruct (Z.eqb_spec x 0) as [->|Hx].
  - cbn in Hi |- *. assert (i = 0%nat) as -> by lia. injection Ei as <-. done.
  - cbn in Hi |- *. destruct i as [|i]; [injection Ei as <-; done|]. cbn in Ei. rewrite (IH i Ei ltac:(lia)). lia.
Qed.

Lemma until_zero_snoc l : (0 ∉ l) -> until_zero (l ++ [0]) = l.
Proof. induction l as [|x l IH]; intros H; [done|]. cbn. destruct (Z.eqb_spec x 0) as [->|]; [by destruct H; left|]. f_equal. apply IH. intros Hin. apply H. by right. Qed.

Lemma until_zero_min k zs : length (until_zero (take k zs)) = Nat.min k (length (until_zero zs)).
Proof. revert k. induction zs as [|z zs IH]; intros [|k]; cbn; try done. destruct (z =? 0); [done|]. cbn. by rewrite IH. Qed.

Lemma readable_byte m p zs n x : readable m p zs -> zs !! n = Some x -> load_byte (advance_ptr p (Z.of_nat n)) m = Ok (m, x).
Proof.
  intros [->|(d & c & E & Hl & Et)] Ex; [done|]. pose proof (lookup_lt_Some _ _ _ Ex) as Hlt. unfold load_byte.
  rewrite (prog_bind _ _ m m [x]); [done|]. unfold advance_ptr. rewrite Nat2Z.id. eapply load_numbers_ok; [exact E|cbn [snd]; lia|]. cbn [snd].
  rewrite <- drop_drop. assert (Ec : drop p.2 c !! n = Some (Byte x)).
  { rewrite <- (lookup_take_lt (drop p.2 c) (length zs) n) by done. by rewrite Et, list_lookup_fmap, Ex. }
  by rewrite (drop_S _ _ _ Ec).
Qed.

Lemma readable_length m p x zs : readable m p (x :: zs) -> exists n, block_length p m = Ok (m, n) /\ (length (x :: zs) <= n)%nat.
Proof. intros [?|(d & c & E & Hl & _)]; [done|]. exists (length c). unfold block_length. rewrite E. split; [done|lia]. Qed.

(** Characters enough for the scan: up to the null, or to the limit. *)
Definition scannable (zs : list Z) (limit : Z) : Prop := (length (until_zero zs) < length zs)%nat \/ 0 <= limit <= Z.of_nat (length zs).

Lemma count_loop_ok m p zs limit : readable m p zs -> scannable zs limit -> 0 <= limit ->
  forall fuel n, (length zs < n + fuel)%nat -> (n <= length (until_zero zs))%nat -> Z.of_nat n <= limit ->
  count_loop fuel p limit (Z.of_nat n) m = Ok (m, Z.min limit (Z.of_nat (length (until_zero zs)))).
Proof.
  intros Hr Hs Hlim. pose proof (until_zero_length zs) as Hu. induction fuel as [|fuel IH]; intros n Hf Hn Hl; [lia|]. cbn [count_loop].
  destruct (Z.eqb_spec (Z.of_nat n) limit) as [El|Hne]; [by rewrite <- El, Z.min_l by lia|].
  assert (Hlt : (n < length zs)%nat) by (destruct Hs; lia). destruct (lookup_lt_is_Some_2 zs n Hlt) as [x Ex].
  rewrite (prog_bind _ _ _ _ _ (readable_byte _ _ _ _ _ Hr Ex)). pose proof (until_zero_lookup _ _ _ Ex Hn) as Hz.
  destruct (Z.eqb_spec x 0) as [E|E].
  - apply Hz in E. rewrite Z.min_r by lia. by rewrite <- E.
  - replace (Z.of_nat n + 1) with (Z.of_nat (S n)) by lia. apply IH; [lia| |lia]. assert (n <> length (until_zero zs)) by tauto. lia.
Qed.

Lemma CountStringLength_ok m p z zs limit : readable m p (z :: zs) -> scannable (z :: zs) limit -> 0 <= limit ->
  CountStringLength p limit m = Ok (m, Z.min limit (Z.of_nat (length (until_zero (z :: zs))))).
Proof.
  intros Hr Hs Hl. unfold CountStringLength. destruct (readable_length _ _ _ _ Hr) as (n & E & Hn). rewrite (prog_bind _ _ _ _ _ E).
  apply (count_loop_ok m p (z :: zs) limit Hr Hs Hl (S n) 0); lia.
Qed.

Lemma readable_prefix m p zs k : readable m p zs -> readable m p (take k zs).
Proof.
  intros [->|(d & c & E & Hl & Et)]; [left; apply take_nil|]. right. exists d, c. split; [done|]. rewrite length_take. split; [lia|].
  by rewrite <- take_take, Et, fmap_take.
Qed.

Lemma readable_drop m q zs k : readable m q zs -> readable m (q.1, (q.2 + k)%nat) (drop k zs).
Proof.
  intros [->|(d & c & Ec & Hl & Et)]; [left; apply drop_nil|]. destruct (le_dec k (length zs)); [|left; apply drop_ge; lia].
  right. exists d, c. cbn [fst snd]. split; [done|]. rewrite length_drop. split; [lia|]. rewrite <- drop_drop, fmap_drop, <- Et.
  by rewrite skipn_firstn_comm.
Qed.

Lemma readable_from m p zs k : readable m p zs -> readable m (advance_ptr p (Z.of_nat k)) (drop k zs).
Proof. unfold advance_ptr. rewrite Nat2Z.id. apply readable_drop. Qed.

(** A null-terminated string at [p]. *)
Definition cstring_at (m : memory) (p : ptr) (xs : list Z) : Prop := exists zs, readable m p zs /\ until_zero zs = xs /\ (length xs < length zs)%nat.

Lemma cstring_count m p xs : cstring_at m p xs -> Z.of_nat (length xs) < kNoLimit -> CountStringLength p kNoLimit m = Ok (m, Z.of_nat (length xs)).
Proof.
  intros (zs & Hr & E & Hl) Hb. destruct zs as [|z zs]; [cbn in Hl; lia|].
  rewrite (CountStringLength_ok m p z zs kNoLimit Hr); [rewrite E; by rewrite Z.min_r by lia|left; by rewrite E|done].
Qed.

Lemma cstring_readable m p xs : cstring_at m p xs -> readable m p xs.
Proof. intros (zs & Hr & <- & _). rewrite <- until_zero_take. by apply readable_prefix. Qed.

(** ** Construction on raw storage *)

Definition storage (m : memory) (this : nat) : Prop := exists c0, blocks m !! this = Some (false, c0) /\ length c0 = 24%nat.

Lemma string_storage m this lay l : string_at m this lay l -> storage m this.
Proof. intros (buf & Hb & _). eexists. split; [apply Hb|]. by eapply object_length, Hb. Qed.

Lemma init_ok m this : mem_wf m -> storage m this ->
  exists m', init_empty this m = Ok (m', ()) /\ string_at m' this Small [] /\ frame this Small Small m m'.
Proof.
  intros Hw (c0 & E & Hl). destruct (init_empty_ok m this c0 E Hl) as (m' & E' & H' & F & N). exists m'. split; [done|]. split; [done|]. split; try done.
  - intros b Hb _ _. by apply F.
  - lia.
  - intros _ b Hb. rewrite N. destruct (decide (b = this)) as [->|Hne]; [apply Hw; eauto|]. rewrite F in Hb by done. by apply Hw.
Qed.

(** A construction: the empty string first, then a modifier. *)
Lemma wp_init R (k : () -> Prog ()) m this l c : mem_wf m -> storage m this ->
  (forall m1, mem_wf m1 -> string_at m1 this Small [] -> (forall b, b <> this -> blocks m1 !! b = blocks m !! b) ->
     wp R (k () m1) (fun q => becomes this Small m1 l c q.1)) ->
  wp R ((init_empty this ≫= k) m) (fun q => becomes this Small m l c q.1).
Proof.
  intros Hw Hs Hk. destruct (init_ok m this Hw Hs) as (m1 & E1 & H1 & F1). eapply wp_step; [exact E1|].
  eapply wp_mono; [apply (Hk m1 (fr_wf _ _ _ _ _ F1 Hw) H1)|].
  - intros b Hb. apply (fr_same _ _ _ _ _ F1); done.
  - intros q Hq. by eapply becomes_trans.
Qed.

(** The capacity after [assign] of [n] characters to an empty inline string. *)
Definition fitted (n : Z) : Z := Z.max 22 n.

Lemma fitted_assign n : (if (n =? 0)%nat then 22 else Z.max (cap_of Small) (Z.of_nat n)) = fitted (Z.of_nat n).
Proof. unfold fitted. cbn [cap_of]. destruct (Nat.eqb_spec n 0); [subst|]; lia. Qed.

Section Construct.

Context (allocates : Z -> bool) (R : Prop).
Context (m : memory) (this : nat) (Hw : mem_wf m) (Hs : storage m this).

Abbreviation constructs l c p := (wp R (p m) (fun q => becomes this Small m l c q.1)).
(** A buffer of [n] characters is granted, if it does not fit inline. *)
Abbreviation grants_buffer n := (R -> 22 < n -> grants allocates n).

Lemma construct_empty_ok : constructs [] 22 (construct_empty this).
Proof using Hw Hs.
  destruct (init_ok m this Hw Hs) as (m1 & E1 & H1 & F1). eapply prog_wp_done; [exact E1|]. by exists Small.
Qed.

Lemma construct_chars_ok src xs : readable m src xs -> (xs <> [] -> src.1 <> this) -> grants_buffer (Z.of_nat (length xs)) ->
  constructs xs (fitted (Z.of_nat (length xs))) (construct_chars allocates this (Some src) (Z.of_nat (length xs))).
Proof using Hw Hs.
  intros Hr Hne HR. unfold construct_chars. apply wp_init; [done|done|]. intros m1 Hw1 H1 F1. rewrite <- fitted_assign.
  apply (assign_ok allocates R m1 this Small [] Hw1 H1 (Some src) xs).
  - eapply readable_same; [|exact Hr]. intros Hx. apply F1. by apply Hne.
  - intros r _ Hlt. by apply HR.
Qed.

Lemma construct_null_ok len : 0 <= len -> constructs [] 22 (construct_chars allocates this None len).
Proof using Hw Hs. intros _. unfold construct_chars. apply wp_init; [done|done|]. intros m1 Hw1 H1 F1. exact (clear_ok R m1 this Small [] Hw1 H1). Qed.

Lemma cstring_same m1 p xs : (p.1 <> this) -> (forall b, b <> this -> blocks m1 !! b = blocks m !! b) -> cstring_at m p xs -> cstring_at m1 p xs.
Proof using Type. intros Hp F (zs & Hr & E & Hl). exists zs. split; [|done]. eapply readable_same; [|exact Hr]. intros _. by apply F. Qed.

Lemma construct_cstr_ok src xs : cstring_at m src xs -> src.1 <> this -> Z.of_nat (length xs) < kNoLimit -> grants_buffer (Z.of_nat (length xs)) ->
  constructs xs (fitted (Z.of_nat (length xs))) (construct_cstr allocates this (Some src)).
Proof using Hw Hs.
  intros Hc Hne Hfit HR. unfold construct_cstr. apply wp_init; [done|done|]. intros m1 Hw1 H1 F1. pose proof (cstring_same m1 _ _ Hne F1 Hc) as Hc1.
  unfold assign_cstr. eapply wp_step; [by apply cstring_count|]. rewrite <- fitted_assign.
  apply (assign_ok allocates R m1 this Small [] Hw1 H1 (Some src) xs); [by apply cstring_readable|]. intros r _ Hlt. by apply HR.
Qed.

Lemma construct_no_cstr_ok : constructs [] 22 (construct_cstr allocates this None).
Proof using Hw Hs.
  unfold construct_cstr. apply wp_init; [done|done|]. intros m1 Hw1 H1 F1. eapply prog_wp_done; [done|]. exact (becomes_refl m1 this Small [] H1).
Qed.

Lemma construct_fill_ok count c : (R -> 22 < Z.of_nat count -> grants allocates (grow_capacity (Z.of_nat count))) ->
  constructs (replicate count c) (grown 22 (Z.of_nat count)) (construct_fill allocates this (Z.of_nat count) c).
Proof using Hw Hs.
  intros HR. unfold construct_fill. apply wp_init; [done|done|]. intros m1 Hw1 H1 F1. destruct (Z.ltb_spec 0 (Z.of_nat count)) as [Hlt|Hge].
  - eapply wp_grown; [done|done|apply (grow_ok allocates R m1 this Small [] Hw1 H1); [lia|exact HR]|].
    intros lay2 m2 Hw2 H2 Hc2. cbn [cap_of] in Hc2. rewrite <- Hc2. eapply wp_step; [exact (string_data H2)|]. rewrite Nat2Z.id.
    apply (fill_finish R m2 this lay2 [] 0 count c); [done|done|lia|lia|]. rewrite Hc2. exact (grown_range Small (Z.of_nat count) ltac:(lia)).
  - assert (count = 0%nat) as -> by lia. eapply prog_wp_done; [done|]. exact (becomes_refl m1 this Small [] H1).
Qed.

(** [arr] holds [zs]; the last element is taken for a terminator. *)
Lemma construct_array_ok arr z zs : readable m arr (z :: zs) -> arr.1 <> this ->
  let xs := until_zero (take (length zs) (z :: zs)) in grants_buffer (Z.of_nat (length xs)) ->
  constructs xs (fitted (Z.of_nat (length xs))) (construct_array allocates this arr (Z.of_nat (length (z :: zs)))).
Proof using Hw Hs.
  intros Hr Hne xs HR. unfold construct_array. apply wp_init; [done|done|]. intros m1 Hw1 H1 F1.
  assert (Hr1 : readable m1 arr (z :: zs)) by (eapply readable_same; [intros _; by apply F1|done]).
  rewrite (proj2 (Z.ltb_lt _ _)) by (cbn; lia). replace (Z.of_nat (length (z :: zs)) - 1) with (Z.of_nat (length zs)) by (cbn; lia).
  eapply wp_step; [apply (CountStringLength_ok m1 arr z zs (Z.of_nat (length zs)) Hr1); [right; cbn; lia|lia]|].
  assert (Ex : Z.of_nat (length xs) = Z.min (Z.of_nat (length zs)) (Z.of_nat (length (until_zero (z :: zs))))) by (unfold xs; rewrite until_zero_min; lia).
  rewrite <- Ex, <- fitted_assign. apply (assign_ok allocates R m1 this Small [] Hw1 H1 (Some arr) xs).
  - assert (Exs : xs = take (length xs) (z :: zs)).
    { unfold xs. rewrite <- until_zero_take at 1. rewrite take_take. f_equal. pose proof (until_zero_length (take (length zs) (z :: zs))) as Hu. rewrite length_take in Hu. lia. }
    rewrite Exs. by apply readable_prefix.
  - intros r _ Hlt. by apply HR.
Qed.

End Construct.

(** ** Two objects *)

Lemma frame_block m m' this lay lay' b : mem_wf m -> frame this lay lay' m m' -> is_Some (blocks m !! b) -> b <> this -> data_of lay <> Some b ->
  blocks m' !! b = blocks m !! b.
Proof.
  intros Hw F Hb Hne Hd. apply (fr_same _ _ _ _ _ F); [done|done|]. intros E. destruct (fr_new _ _ _ _ _ F b E) as [|Hn]; [done|].
  specialize (Hw b Hb). lia.
Qed.

(** The string at [s] has nothing in common with the one at [this]. *)
Definition apart (this : nat) (lay : layout) (s : nat) (lays : layout) : Prop :=
  s <> this /\ data_of lay <> Some s /\ data_of lays <> Some this /\ forall d, data_of lays = Some d -> data_of lay <> Some d.

Lemma string_keeps m m' s lays ls : string_at m s lays ls -> (forall b, b = s \/ data_of lays = Some b -> blocks m' !! b = blocks m !! b) -> string_at m' s lays ls.
Proof.
  intros (buf & [E1 E2 Hl Hn Hc] & Ht) Hb. exists buf. split; [|done]. split; try done.
  - exact (eq_trans (Hb s (or_introl eq_refl)) E1).
  - destruct lays as [|d c]; [done|]. exact (eq_trans (Hb d (or_intror eq_refl)) E2).
Qed.

Lemma string_blocks m s lays ls b : string_at m s lays ls -> b = s \/ data_of lays = Some b -> is_Some (blocks m !! b).
Proof. intros (buf & [E1 E2 _ _ _] & _) [->|Hd]; [eauto|]. destruct lays as [|d c]; [done|]. injection Hd as ->. eauto. Qed.

Lemma frame_other m m' this lay lay' s lays ls : mem_wf m -> frame this lay lay' m m' -> apart this lay s lays -> string_at m s lays ls -> string_at m' s lays ls.
Proof.
  intros Hw F (Hne & Hd & Hd2 & Hd3) H. eapply string_keeps; [done|]. intros b Hb. eapply frame_block; [done|exact F|by eapply string_blocks| |].
  - destruct Hb as [->|Hb]; [done|]. intros ->. done.
  - destruct Hb as [->|Hb]; [done|]. by apply Hd3.
Qed.

Lemma storage_apart m this s lays ls : storage m this -> string_at m s lays ls -> s <> this -> apart this Small s lays.
Proof.
  intros (c0 & E & _) (buf & [E1 E2 _ _ _] & _) Hne. split; [done|]. split; [done|]. split; [|done].
  destruct lays as [|d c]; [done|]. intros [= ->]. by rewrite E in E2.
Qed.

Lemma buffer_is_block m s lays ls : string_at m s lays ls -> is_Some (blocks m !! buffer_of s lays).
Proof. intros H. eapply string_blocks; [done|]. destruct lays; [by left|by right]. Qed.

Section Pairs.

Context (allocates : Z -> bool) (R : Prop).
Context (m : memory) (this : nat) (Hw : mem_wf m) (Hs : storage m this).

Abbreviation constructs l c p := (wp R (p m) (fun q => becomes this Small m l c q.1)).
Abbreviation grants_buffer n := (R -> 22 < n -> grants allocates n).

Lemma buffer_not_this other layo lo : string_at m other layo lo -> other <> this -> buffer_of other layo <> this.
Proof using Hs.
  intros Ho Hne. destruct (storage_apart _ _ _ _ _ Hs Ho Hne) as (_ & _ & Hd & _). destruct layo; cbn in *; [done|]. congruence.
Qed.

Lemma copy_construct_ok other layo lo : string_at m other layo lo -> other <> this -> grants_buffer (Z.of_nat (length lo)) ->
  constructs lo (fitted (Z.of_nat (length lo))) (copy_construct allocates this other).
Proof using Hw Hs.
  intros Ho Hne HR. pose proof (storage_apart _ _ _ _ _ Hs Ho Hne) as Hap. pose proof (buffer_not_this _ _ _ Ho Hne) as Hb.
  unfold copy_construct. apply wp_init; [done|done|]. intros m1 Hw1 H1 F1.
  assert (Ho1 : string_at m1 other layo lo).
  { eapply string_keeps; [exact Ho|]. intros b Hb'. apply F1. intros ->. destruct Hap as (? & _ & ? & _). by destruct Hb'. }
  eapply wp_step; [exact (string_large Ho1)|]. destruct layo as [|d cap].
  - destruct Ho1 as (buf & [E1 _ Hl Hn _] & Ht). cbn [cap_of] in *. unfold fitted. rewrite Z.max_l by lia. rewrite copy_is_move by done.
    destruct H1 as (buf1 & [E1' _ Hl1 _ _] & _). cbn [object_bytes cap_of] in *.
    assert (El : load_bytes (other, 0%nat) 24 m1 = Ok (m1, buf ++ [Byte (Z.of_nat (length lo))])).
    { rewrite (load_bytes_ok (other, 0%nat) 24 m1 _ _ E1) by lengths. cbn [snd]. rewrite drop_0. rewrite take_ge by lengths. done. }
    unfold MemMove. change (24 =? 0)%nat with false. cbv iota. eapply wp_step; [exact El|].
    eapply prog_wp_done; [apply (store_bytes_ok (this, 0%nat) _ m1 _ _ E1'); lengths|]. cbn [fst snd]. exists Small. split; [|split; [done|]].
    + exists buf. split; [|done]. split; cbn [cap_of object_bytes]; try done. rewrite with_block_at. unfold splice. cbn [take app]. rewrite drop_ge by lengths. by rewrite app_nil_r.
    + split; try done; [intros b Hb' _ _; by apply with_block_same|]. intros _ b Hb'. cbn [next_block with_block]. apply Hw1.
      destruct (decide (b = this)) as [->|Hn']; [eauto|]. by rewrite with_block_same in Hb'.
  - pose proof Ho1 as (buf & Hh & _). eapply wp_step; [by eapply holds_pointer|]. eapply wp_step.
    { pose proof (string_size Ho1) as Es. unfold get_size in Es. by rewrite (prog_bind _ _ _ _ _ (string_large Ho1)) in Es. }
    rewrite <- fitted_assign. apply (assign_ok allocates R m1 this Small [] Hw1 H1 (Some (d, 0%nat)) lo).
    + exact (readable_text _ _ _ _ Ho1).
    + intros r _ Hlt. by apply HR.
Qed.

Lemma substr_ok other layo lo pos count : string_at m other layo lo -> other <> this -> (pos <= length lo)%nat -> 0 <= count ->
  let xs := take (Z.to_nat (Z.min count (Z.of_nat (length lo) - Z.of_nat pos))) (drop pos lo) in grants_buffer (Z.of_nat (length xs)) ->
  constructs xs (fitted (Z.of_nat (length xs))) (substr allocates this other (Z.of_nat pos) count).
Proof using Hw Hs.
  intros Ho Hne Hp Hc xs HR. unfold substr. eapply wp_step; [exact (string_size Ho)|]. unfold bug_check, dcheck. rewrite (proj2 (Z.leb_le _ _)) by lia.
  refine (wp_step _ _ _ m m () _ eq_refl _). eapply wp_step; [exact (string_data Ho)|]. unfold advance_ptr. cbn [fst snd Nat.add]. rewrite Nat2Z.id.
  set (n := Z.min count _) in *. assert (En : n = Z.of_nat (length xs)) by (unfold xs; rewrite length_take, length_drop; lia). cbv zeta. rewrite En.
  apply construct_chars_ok; [done|done| |intros _; by eapply buffer_not_this|done].
  pose proof (readable_own m other layo lo pos (Z.to_nat n) Ho ltac:(lia)) as Hr. exact Hr.
Qed.

(** Appending to the object under construction what was readable before. *)
Lemma append_result m2 lay2 l2 p xs : frame this Small lay2 m m2 -> string_at m2 this lay2 l2 -> readable m p xs -> (xs <> [] -> p.1 <> this) ->
  Z.of_nat (length xs) < 2 ^ 64 ->
  (R -> let n := Z.of_nat (length l2) + Z.of_nat (length xs) in cap_of lay2 < n -> grants allocates (grow_capacity n)) ->
  wp R (append allocates this p (Z.of_nat (length xs)) m2) (fun q => becomes this lay2 m2 (l2 ++ xs) (grown (cap_of lay2) (Z.of_nat (length l2) + Z.of_nat (length xs))) q.1).
Proof using Hw.
  intros F H2 Hr Hne Hfit HR. destruct xs as [|x xs].
  { rewrite app_nil_r. unfold grown. cbn [length]. pose proof (string_cap _ _ _ _ H2). rewrite (proj2 (Z.ltb_ge (cap_of lay2) _)) by lia.
    eapply prog_wp_done; [done|]. by apply becomes_refl. }
  specialize (Hne ltac:(done)). pose proof (readable_block _ _ _ _ Hr) as Hb.
  apply (append_ok allocates R m2 this lay2 l2 (fr_wf _ _ _ _ _ F Hw) H2 p (x :: xs)); [|done| |exact HR].
  - eapply readable_same; [|exact Hr]. intros _. by eapply frame_block.
  - intros E. exfalso. destruct lay2 as [|d c]; cbn in E; [done|]. destruct (fr_new _ _ _ _ _ F d eq_refl) as [|Hn]; [done|]. specialize (Hw _ Hb). lia.
Qed.

(** The steps of a construction, each seen from the memory it began in. *)
Lemma wp_result lay1 m1 (p : Prog ()) (k : () -> Prog ()) l c Q : frame this Small lay1 m m1 ->
  wp R (p m1) (fun q => becomes this lay1 m1 l c q.1) ->
  (forall lay2 m2, frame this Small lay2 m m2 -> string_at m2 this lay2 l -> cap_of lay2 = c -> wp R (k () m2) Q) ->
  wp R ((p ≫= k) m1) Q.
Proof using Hw.
  intros F1 Hp Hk. refine (prog_wp_bind R p k m1 _ (fun m2 _ => becomes this lay1 m1 l c m2) Hp _).
  intros m2 [] (lay2 & H2 & Hc & F2). apply (Hk lay2 m2); [|done|done]. by eapply frame_trans.
Qed.

Lemma last_result lay1 m1 (p : Prog ()) l c : frame this Small lay1 m m1 ->
  wp R (p m1) (fun q => becomes this lay1 m1 l c q.1) -> wp R (p m1) (fun q => becomes this Small m l c q.1).
Proof using Hw.
  intros F1 Hp. eapply wp_mono; [exact Hp|]. intros q (lay2 & H2 & Hc & F2). exists lay2. split; [done|]. split; [done|]. by eapply frame_trans.
Qed.

Lemma cstring_frame lay1 m1 p xs : frame this Small lay1 m m1 -> cstring_at m p xs -> p.1 <> this -> cstring_at m1 p xs.
Proof using Hw.
  intros F (zs & Hr & E & Hl) Hp. exists zs. split; [|done]. eapply readable_same; [|exact Hr]. intros Hne. destruct zs as [|z zs]; [done|].
  eapply frame_block; [done|exact F|by eapply readable_block|done|done].
Qed.

Lemma concat_ok lhs rhs layl layr l1 l2 : string_at m lhs layl l1 -> string_at m rhs layr l2 -> lhs <> this -> rhs <> this ->
  grants_buffer (Z.of_nat (length l1 + length l2)) ->
  constructs (l1 ++ l2) (fitted (Z.of_nat (length l1 + length l2))) (concat allocates this lhs rhs).
Proof using Hw Hs.
  intros H1 H2 Hn1 Hn2 HR. unfold concat. pose proof kMaxCapacity_eq as Ek. pose proof (string_cap _ _ _ _ H1). pose proof (string_cap _ _ _ _ H2).
  pose proof (storage_apart _ _ _ _ _ Hs H1 Hn1) as A1. pose proof (storage_apart _ _ _ _ _ Hs H2 Hn2) as A2.
  set (n := Z.of_nat (length l1 + length l2)) in *. eapply wp_result; [apply frame_refl|by apply construct_empty_ok|].
  intros lay3 m3 F3 H3 C3. pose proof (fr_wf _ _ _ _ _ F3 Hw) as Hw3. eapply wp_step; [exact (string_size (frame_other _ _ _ _ _ _ _ _ Hw F3 A1 H1))|].
  eapply wp_step; [exact (string_size (frame_other _ _ _ _ _ _ _ _ Hw F3 A2 H2))|]. rewrite wrap_small by (unfold fits; lia).
  replace (Z.of_nat (length l1) + Z.of_nat (length l2)) with n by lia.
  eapply (wp_result lay3 m3 _ _ [] (fitted n)); [exact F3| |].
  { eapply wp_mono; [apply (reserve_ok allocates R m3 this lay3 [] Hw3 H3 n); [lia|intros r Hlt; apply HR; [done|lia]]|]. rewrite C3. done. }
  intros lay4 m4 F4 H4 C4. pose proof (frame_other _ _ _ _ _ _ _ _ Hw F4 A1 H1) as H1'.
  eapply wp_step; [exact (string_data H1')|]. eapply wp_step; [exact (string_size H1')|].
  eapply (wp_result lay4 m4 _ _ l1 (fitted n)); [exact F4| |].
  { pose proof (append_result m4 lay4 [] (buffer_of lhs layl, 0%nat) l1 F4 H4 (readable_text _ _ _ _ H1) ltac:(intros _; by eapply buffer_not_this) ltac:(lia)) as Ha.
    cbn [length app] in Ha. unfold grown in Ha. rewrite C4, (proj2 (Z.ltb_ge (fitted n) _)) in Ha by (unfold fitted; lia). apply Ha. unfold fitted. lia. }
  intros lay5 m5 F5 H5 C5. pose proof (frame_other _ _ _ _ _ _ _ _ Hw F5 A2 H2) as H2'.
  eapply wp_step; [exact (string_data H2')|]. eapply wp_step; [exact (string_size H2')|].
  apply (last_result lay5 m5); [done|]. pose proof (append_result m5 lay5 l1 (buffer_of rhs layr, 0%nat) l2 F5 H5 (readable_text _ _ _ _ H2) ltac:(intros _; by eapply buffer_not_this) ltac:(lia)) as Ha.
  unfold grown in Ha. rewrite C5, (proj2 (Z.ltb_ge (fitted n) _)) in Ha by (unfold fitted; lia). apply Ha. unfold fitted. lia.
Qed.

Lemma concat_cstr_ok lhs layl l1 p xs : string_at m lhs layl l1 -> lhs <> this -> cstring_at m p xs -> p.1 <> this -> Z.of_nat (length xs) < kNoLimit ->
  grants_buffer (Z.of_nat (length l1)) ->
  (R -> let n := Z.of_nat (length l1) + Z.of_nat (length xs) in fitted (Z.of_nat (length l1)) < n -> grants allocates (grow_capacity n)) ->
  constructs (l1 ++ xs) (grown (fitted (Z.of_nat (length l1))) (Z.of_nat (length l1) + Z.of_nat (length xs))) (concat_cstr allocates this lhs p).
Proof using Hw Hs.
  intros H1 Hn1 Hc Hp Hfit HR HR2. unfold concat_cstr. eapply wp_result; [apply frame_refl|by eapply copy_construct_ok|].
  intros lay2 m2 F2 H2 C2. unfold append_cstr. eapply wp_step; [apply (cstring_count m2 p xs); [by eapply cstring_frame|done]|].
  apply (last_result lay2 m2); [done|]. rewrite <- C2 in HR2 |- *. apply (append_result m2 lay2 l1 p xs F2 H2); [by apply cstring_readable|done|change kNoLimit with (2 ^ 64 - 1) in Hfit; lia|exact HR2].
Qed.

Lemma cstr_concat_ok p xs rhs layr l2 : cstring_at m p xs -> p.1 <> this -> Z.of_nat (length xs) < kNoLimit -> string_at m rhs layr l2 -> rhs <> this ->
  grants_buffer (Z.of_nat (length xs)) ->
  (R -> let n := Z.of_nat (length xs) + Z.of_nat (length l2) in fitted (Z.of_nat (length xs)) < n -> grants allocates (grow_capacity n)) ->
  constructs (xs ++ l2) (grown (fitted (Z.of_nat (length xs))) (Z.of_nat (length xs) + Z.of_nat (length l2))) (cstr_concat allocates this p rhs).
Proof using Hw Hs.
  intros Hc Hp Hfit H2 Hn2 HR HR2. unfold cstr_concat. eapply wp_result; [apply frame_refl|by apply construct_cstr_ok|].
  intros lay1 m1 F1 H1 C1. pose proof (storage_apart _ _ _ _ _ Hs H2 Hn2) as A2. pose proof (frame_other _ _ _ _ _ _ _ _ Hw F1 A2 H2) as H2'.
  eapply wp_step; [exact (string_data H2')|]. eapply wp_step; [exact (string_size H2')|]. pose proof (string_cap _ _ _ _ H2). pose proof kMaxCapacity_eq.
  apply (last_result lay1 m1); [done|]. rewrite <- C1 in HR2 |- *. apply (append_result m1 lay1 xs _ l2 F1 H1 (readable_text _ _ _ _ H2)); [intros _; by eapply buffer_not_this|lia|exact HR2].
Qed.

End Pairs.

(** ** Moves, assignments and the end of a string *)

(** The object at [this] has taken over the bytes of the one at [other], which is empty. *)
Record moved_to (m : memory) (this other : nat) (layo : layout) (lo : list Z) (m' : memory) : Prop := {
  mv_this : string_at m' this layo lo;
  mv_other : string_at m' other Small [];
  mv_same b : b <> this -> b <> other -> blocks m' !! b = blocks m !! b;
  mv_next : next_block m' = next_block m;
}.

Lemma moved_wf m this other layo lo m' : mem_wf m -> is_Some (blocks m !! this) -> is_Some (blocks m !! other) -> moved_to m this other layo lo m' -> mem_wf m'.
Proof.
  intros Hw Ht Ho [_ _ Hs Hn] b Hb. rewrite Hn. destruct (decide (b = this)) as [->|]; [by apply Hw|]. destruct (decide (b = other)) as [->|]; [by apply Hw|].
  rewrite Hs in Hb by done. by apply Hw.
Qed.

Lemma take_over_ok m this other layo lo : storage m this -> string_at m other layo lo -> other <> this ->
  exists m', (_ ← MemCopy (this, 0%nat) (other, 0%nat) 24; init_empty other) m = Ok (m', ()) /\ moved_to m this other layo lo m'.
Proof.
  intros Hs Ho Hne. pose proof (storage_apart _ _ _ _ _ Hs Ho Hne) as (_ & _ & Hd & _). destruct Hs as (c0 & E0 & Hl0).
  destruct Ho as (buf & Hb & Ht). pose proof Hb as [E1 E2 Hl Hn Hc]. set (ob := object_bytes layo (Z.of_nat (length lo)) buf) in *.
  assert (Hob : length ob = 24%nat) by (by apply object_length).
  assert (El : load_bytes (other, 0%nat) 24 m = Ok (m, ob)).
  { rewrite (load_bytes_ok (other, 0%nat) 24 m _ _ E1) by (cbn; lia). cbn [snd]. rewrite drop_0, take_ge by lia. done. }
  set (m1 := with_block m this (false, ob)).
  assert (Em : MemCopy (this, 0%nat) (other, 0%nat) 24 m = Ok (m1, ())).
  { rewrite copy_is_move by done. unfold MemMove. change (24 =? 0)%nat with false. cbv iota. rewrite (prog_bind _ _ _ _ _ El).
    rewrite (store_bytes_ok (this, 0%nat) ob m _ _ E0) by (cbn; lia). do 4 f_equal. cbn [snd]. unfold splice. cbn [take app]. rewrite drop_ge by lia. by rewrite app_nil_r. }
  rewrite (prog_bind _ _ _ _ _ Em). destruct (init_empty_ok m1 other ob) as (m2 & E & H2 & F2 & N2); [exact (eq_trans (with_block_same m this other (false, ob) Hne) E1)|done|].
  exists m2. split; [exact E|]. split; [|done| |done].
  - exists buf. split; [|done]. split; try done.
    + rewrite F2 by done. unfold m1. by rewrite with_block_at.
    + destruct layo as [|d c]; [done|]. cbn in Hd. assert (Hdo : d <> other) by (intros ->; rewrite E1 in E2; done). rewrite F2 by done. unfold m1. rewrite with_block_same by congruence. done.
  - intros b Hb1 Hb2. rewrite F2 by done. by apply with_block_same.
Qed.

Lemma move_construct_ok m this other layo lo : storage m this -> string_at m other layo lo -> other <> this ->
  exists m', move_construct this other m = Ok (m', ()) /\ moved_to m this other layo lo m'.
Proof. apply take_over_ok. Qed.

(** The buffer of the string at [this] is gone. *)
Definition released (m : memory) (lay : layout) : memory :=
  match lay with Small => m | Large d _ => mkMemory (delete d (blocks m)) (next_block m) end.

Lemma released_lookup m lay b : blocks (released m lay) !! b = if decide (data_of lay = Some b) then None else blocks m !! b.
Proof.
  destruct lay as [|d c]; cbn [data_of released]; [done|]. cbn. destruct (decide (Some d = Some b)) as [[= ->]|Hne]; [apply lookup_delete_eq|apply lookup_delete_ne; congruence].
Qed.

Lemma released_wf m lay : mem_wf m -> mem_wf (released m lay).
Proof.
  intros Hw b. rewrite released_lookup. destruct (decide (data_of lay = Some b)); [by intros [? ?]|]. intros Hb. destruct lay; by apply Hw.
Qed.

Lemma released_storage m this lay l : string_at m this lay l -> storage (released m lay) this.
Proof.
  intros H. destruct (string_storage _ _ _ _ H) as (c0 & E & Hl). exists c0. split; [|done]. rewrite released_lookup, decide_False; [done|]. by eapply string_apart.
Qed.

Lemma released_other m this lay s lays ls : apart this lay s lays -> string_at m s lays ls -> string_at (released m lay) s lays ls.
Proof.
  intros (_ & Hd & _ & Hd3) H. eapply string_keeps; [done|]. intros b Hb. rewrite released_lookup, decide_False; [done|].
  destruct Hb as [->|Hb]; [done|]. by apply Hd3.
Qed.

Lemma deallocate_string m this lay l : string_at m this lay l -> deallocate_large this m = Ok (released m lay, ()).
Proof. intros (buf & Hb & _). by eapply deallocate_ok. Qed.

Lemma move_assign_ok m this other lay layo l lo : string_at m this lay l -> string_at m other layo lo -> other <> this -> apart this lay other layo ->
  exists m', move_assign this other m = Ok (m', ()) /\ moved_to (released m lay) this other layo lo m'.
Proof.
  intros H Ho Hne Hap. unfold move_assign. rewrite (proj2 (Nat.eqb_neq this other)) by done. rewrite (prog_bind _ _ _ _ _ (deallocate_string _ _ _ _ H)).
  apply take_over_ok; [by eapply released_storage|by eapply released_other|done].
Qed.

Lemma self_move m this : move_assign this this m = Ok (m, ()).
Proof. unfold move_assign. by rewrite Nat.eqb_refl. Qed.

(** Destructor and end of the storage. *)
Lemma destruct_ok m this lay l : string_at m this lay l ->
  (_ ← destruct_string this; end_object this) m = Ok (mkMemory (delete this (blocks (released m lay))) (next_block m), ()).
Proof.
  intros H. unfold destruct_string. rewrite (prog_bind _ _ _ _ _ (deallocate_string _ _ _ _ H)). destruct (released_storage _ _ _ _ H) as (c0 & E & _).
  unfold end_object. rewrite E. by destruct lay.
Qed.

Section Assign.

Context (allocates : Z -> bool) (R : Prop).
Context (m : memory) (this : nat) (lay : layout) (l : list Z).
Context (Hw : mem_wf m) (H : string_at m this lay l).

Abbreviation leaves l' c p := (wp R (p m) (fun q => becomes this lay m l' c q.1)).

(** The capacity [assign] leaves. *)
Definition assigned (cap : Z) (n : nat) : Z := if (n =? 0)%nat then 22 else Z.max cap (Z.of_nat n).

Abbreviation grants_assign n := (R -> cap_of lay < Z.of_nat n -> grants allocates (Z.of_nat n)).

Lemma assign_string_ok other layo lo : string_at m other layo lo -> grants_assign (length lo) ->
  leaves lo (assigned (cap_of lay) (length lo)) (assign_string allocates this other).
Proof using Hw H.
  intros Ho HR. unfold assign_string. eapply wp_step; [exact (string_data Ho)|]. eapply wp_step; [exact (string_size Ho)|].
  apply (assign_ok allocates R m this lay l Hw H (Some (buffer_of other layo, 0%nat)) lo); [exact (readable_text _ _ _ _ Ho)|]. intros r _. by apply HR.
Qed.

Lemma copy_assign_ok other layo lo : string_at m other layo lo -> other <> this -> grants_assign (length lo) ->
  leaves lo (assigned (cap_of lay) (length lo)) (copy_assign allocates this other).
Proof using Hw H. intros Ho Hne HR. unfold copy_assign. rewrite (proj2 (Nat.eqb_neq this other)) by done. by eapply assign_string_ok. Qed.

Lemma self_assign : copy_assign allocates this this m = Ok (m, ()).
Proof using Type. unfold copy_assign. by rewrite Nat.eqb_refl. Qed.

Lemma assign_cstr_ok p xs : cstring_at m p xs -> Z.of_nat (length xs) < kNoLimit -> grants_assign (length xs) ->
  leaves xs (assigned (cap_of lay) (length xs)) (assign_cstr allocates this p).
Proof using Hw H.
  intros Hc Hfit HR. unfold assign_cstr. eapply wp_step; [by apply cstring_count|].
  apply (assign_ok allocates R m this lay l Hw H (Some p) xs); [by apply cstring_readable|]. intros r _. by apply HR.
Qed.

Abbreviation grants_growth n := (R -> cap_of lay < n -> grants allocates (grow_capacity n)).

Lemma append_string_ok other layo lo : string_at m other layo lo -> grants_growth (Z.of_nat (length l) + Z.of_nat (length lo)) ->
  (other <> this -> buffer_of other layo <> buffer_of this lay) -> (other = this -> lo = l) ->
  leaves (l ++ lo) (grown (cap_of lay) (Z.of_nat (length l) + Z.of_nat (length lo))) (append_string allocates this other).
Proof using Hw H.
  intros Ho HR Hne Heq. unfold append_string. eapply wp_step; [exact (string_data Ho)|]. eapply wp_step; [exact (string_size Ho)|].
  pose proof (string_cap _ _ _ _ Ho). pose proof kMaxCapacity_eq.
  apply (append_ok allocates R m this lay l Hw H _ lo); [exact (readable_text _ _ _ _ Ho)|lia| |exact HR].
  cbn [fst snd]. intros E. destruct (decide (other = this)) as [->|Hn]; [rewrite Heq by done; lia|]. by destruct (Hne Hn).
Qed.

Lemma append_cstr_ok p xs : cstring_at m p xs -> Z.of_nat (length xs) < kNoLimit -> grants_growth (Z.of_nat (length l) + Z.of_nat (length xs)) ->
  (p.1 = buffer_of this lay -> (p.2 + length xs <= length l)%nat) ->
  leaves (l ++ xs) (grown (cap_of lay) (Z.of_nat (length l) + Z.of_nat (length xs))) (append_cstr allocates this p).
Proof using Hw H.
  intros Hc Hfit HR Hap. unfold append_cstr. eapply wp_step; [by apply cstring_count|].
  apply (append_ok allocates R m this lay l Hw H p xs); [by apply cstring_readable|change kNoLimit with (2 ^ 64 - 1) in Hfit; lia|done|exact HR].
Qed.

(** The pointer overloads of [erase]: a position in the text, and a range that starts there. *)
Lemma erase_ptr_ok pos : (pos < length l)%nat -> leaves (take pos l ++ drop (S pos) l) (cap_of lay) (erase_ptr this (buffer_of this lay, pos)).
Proof using Hw H.
  intros Hp. pose proof (string_cap _ _ _ _ H) as [Hlen Hcap]. pose proof kMaxCapacity_eq as Ek. unfold erase_ptr. eapply wp_step; [exact (string_data H)|]. cbn [fst snd].
  rewrite wrap_small by (unfold fits; lia). unfold bug_check, dcheck. rewrite Nat.eqb_refl. refine (wp_step _ _ _ m m () _ eq_refl _). eapply wp_step; [exact (string_size H)|].
  rewrite (proj2 (Z.ltb_lt _ _)) by lia. refine (wp_step _ _ _ m m () _ eq_refl _). rewrite Z.sub_0_r.
  pose proof (erase_ok R m this lay l Hw H pos 1 ltac:(lia) ltac:(lia)) as He. rewrite Z.min_l in He by lia. change (Z.to_nat 1) with 1%nat in He. by rewrite Nat.add_1_r in He.
Qed.

Lemma string_erase_range_ok pos last : (pos < last)%nat -> (pos < length l)%nat -> Z.of_nat last < 2 ^ 64 ->
  leaves (take pos l ++ drop last l) (cap_of lay) (erase_range this (buffer_of this lay, pos) (buffer_of this lay, last)).
Proof using Hw H.
  intros Hlt Hp Hfit. pose proof (string_cap _ _ _ _ H) as [Hlen Hcap]. pose proof kMaxCapacity_eq as Ek. unfold erase_range, bug_check, dcheck. cbn [fst snd].
  rewrite Nat.eqb_refl, (proj2 (Nat.ltb_lt _ _)) by lia. cbn [andb]. refine (wp_step _ _ _ m m () _ eq_refl _). eapply wp_step; [exact (string_data H)|]. cbn [fst snd].
  rewrite Nat.eqb_refl. refine (wp_step _ _ _ m m () _ eq_refl _). rewrite !wrap_small by (unfold fits; lia). eapply wp_step; [exact (string_size H)|].
  rewrite (proj2 (Z.ltb_lt _ _)) by lia. refine (wp_step _ _ _ m m () _ eq_refl _). rewrite Z.sub_0_r.
  pose proof (erase_ok R m this lay l Hw H pos (Z.of_nat last - Z.of_nat pos) ltac:(lia) ltac:(lia)) as He.
  destruct (le_dec last (length l)).
  - by replace (pos + Z.to_nat (Z.min (Z.of_nat last - Z.of_nat pos) (Z.of_nat (length l) - Z.of_nat pos)))%nat with last in He by lia.
  - replace (pos + Z.to_nat (Z.min (Z.of_nat last - Z.of_nat pos) (Z.of_nat (length l) - Z.of_nat pos)))%nat with (length l) in He by lia.
    rewrite (drop_ge l (length l)) in He by done. by rewrite drop_ge by lia.
Qed.

End Assign.
