(* ===== verification/BaseStringSearch.v ===== *)
(** * Searching and comparing strings (strings/base_string.h)

    The code of [compare], [find] and its relatives, and what each finds: the least, or
    the greatest, position with a property of the text.  [npos] is the answer for none. *)

From stdpp Require Import gmap.
From S2P Require Import Prelude Memory CMemory BaseString BaseStringRep BaseStringModify BaseStringConstruct.

Set Default Proof Using "Type".
Set Warnings "-clear-no-such-hyp".

(** ** Comparison *)

Definition compare (this other : nat) : Prog Z :=
  left_size ← get_size this;
  right_size ← get_size other;
  let min_size := Z.min left_size right_size in
  d1 ← get_data this;
  d2 ← get_data other;
  result ← MemCompare d1 d2 (Z.to_nat min_size);
  mret (if negb (result =? 0) then result else if left_size <? right_size then -1 else if right_size <? left_size then 1 else 0).

Definition compare_chars (this : nat) (str : ptr) (count : Z) : Prog Z :=
  left_size ← get_size this;
  let min_size := Z.min left_size count in
  d ← get_data this;
  result ← MemCompare d str (Z.to_nat min_size);
  mret (if negb (result =? 0) then result else if left_size <? count then -1 else if count <? left_size then 1 else 0).

Definition compare_cstr (this : nat) (str : ptr) : Prog Z :=
  left_size ← get_size this;
  right_size ← CountStringLength str kNoLimit;
  let min_size := Z.min left_size right_size in
  d ← get_data this;
  result ← MemCompare d str (Z.to_nat min_size);
  mret (if negb (result =? 0) then result else if left_size <? right_size then -1 else if right_size <? left_size then 1 else 0).

(** [compare(offset, count, str)] *)
Definition compare_window (this : nat) (offset count : Z) (str : ptr) : Prog Z :=
  n ← get_size this;
  _ ← bug_check (offset <=? n);
  n ← get_size this;
  let left_size := n - offset in
  let min_size := Z.min left_size count in
  d ← get_data this;
  result ← MemCompare (advance_ptr d offset) str (Z.to_nat min_size);
  mret (if negb (result =? 0) then result else if left_size <? count then -1 else 0).

(** [compare(pos, len, str)] *)
Definition compare_part (this : nat) (pos len : Z) (str : nat) : Prog Z :=
  n ← get_size this;
  _ ← bug_check (pos <=? n);
  n ← get_size this;
  let rlen := Z.min len (n - pos) in
  other_len ← get_size str;
  let min_len := Z.min rlen other_len in
  d1 ← get_data this;
  d2 ← get_data str;
  result ← MemCompare (advance_ptr d1 pos) d2 (Z.to_nat min_len);
  mret (if negb (result =? 0) then result else if rlen <? other_len then -1 else if other_len <? rlen then 1 else 0).

Definition equal_strings (lhs rhs : nat) : Prog bool :=
  n1 ← get_size lhs;
  n2 ← get_size rhs;
  if negb (n1 =? n2) then mret false
  else d1 ← get_data lhs; d2 ← get_data rhs; n ← byte_size lhs; r ← MemCompare d1 d2 (Z.to_nat n); mret (r =? 0).

Definition equal_cstr (lhs : nat) (rhs : option ptr) : Prog bool :=
  e ← empty lhs;
  match rhs with
  | None => mret e
  | Some rhs =>
    k ← CountStringLength rhs kNoLimit;
    n ← get_size lhs;
    if negb (k =? n) then mret false
    else d ← get_data lhs; n ← byte_size lhs; r ← MemCompare d rhs (Z.to_nat n); mret (r =? 0)
  end.

Definition less (lhs rhs : nat) : Prog bool := r ← compare lhs rhs; mret (r <? 0).
Definition less_equal (lhs rhs : nat) : Prog bool := r ← compare lhs rhs; mret (r <=? 0).
Definition greater (lhs rhs : nat) : Prog bool := r ← compare lhs rhs; mret (0 <? r).
Definition greater_equal (lhs rhs : nat) : Prog bool := r ← compare lhs rhs; mret (0 <=? r).
Definition not_equal (lhs rhs : nat) : Prog bool := r ← equal_strings lhs rhs; mret (negb r).

(** ** Upward searches *)

Definition find_char (this : nat) (c pos : Z) : Prog Z :=
  n ← get_size this;
  if n <=? pos then mret npos
  else
    d ← get_data this;
    i ← find_in (Z.to_nat (n - pos)) (advance_ptr d pos) c;
    mret (if i =? n - pos then npos else pos + i).

(** [for (i = pos; i <= last; ++i)] *)
Fixpoint find_loop (fuel : nat) (d s : ptr) (s_len i last : Z) : Prog Z :=
  match fuel with
  | O => lift Undef
  | S fuel =>
    if i <=? last then
      r ← MemCompare (advance_ptr d i) s (Z.to_nat s_len);
      if r =? 0 then mret i else find_loop fuel d s s_len (i + 1) last
    else mret npos
  end.

Definition find_cstr (this : nat) (s : option ptr) (pos : Z) : Prog Z :=
  match s with
  | None => mret npos
  | Some s =>
    cur ← get_size this;
    s_len ← CountStringLength s kNoLimit;
    if s_len =? 0 then mret (if pos <=? cur then pos else npos)
    else if cur <? s_len then mret npos
    else if cur - s_len <? pos then mret npos
    else d ← get_data this; find_loop (S (Z.to_nat cur)) d s s_len pos (cur - s_len)
  end.

Definition find_string (this s : nat) (pos : Z) : Prog Z := d ← get_data s; find_cstr this (Some d) pos.

(** [base::find(set, set + n, c) != set + n] *)
Definition in_set (set : ptr) (n c : Z) : Prog bool := i ← find_in (Z.to_nat n) set c; mret (negb (i =? n)).

(** [for (i = pos; i < get_size(); ++i)] *)
Fixpoint first_loop (fuel : nat) (this : nat) (test : Z -> Prog bool) (i : Z) : Prog Z :=
  match fuel with
  | O => lift Undef
  | S fuel =>
    n ← get_size this;
    if i <? n then
      d ← get_data this;
      c ← load_byte (advance_ptr d i);
      b ← test c;
      if b : bool then mret i else first_loop fuel this test (i + 1)
    else mret npos
  end.

Definition first_from (this : nat) (test : Z -> Prog bool) (pos : Z) : Prog Z := n ← get_size this; first_loop (S (Z.to_nat n)) this test pos.

Definition find_first_of (this : nat) (set : option ptr) (pos : Z) : Prog Z :=
  match set with
  | None => mret npos
  | Some set => set_len ← CountStringLength set kNoLimit; first_from this (in_set set set_len) pos
  end.

Definition find_first_not_of (this : nat) (set : option ptr) (pos : Z) : Prog Z :=
  match set with
  | None => mret npos
  | Some set => set_len ← CountStringLength set kNoLimit; first_from this (fun c => b ← in_set set set_len c; mret (negb b)) pos
  end.

Definition find_first_not_of_char (this : nat) (c pos : Z) : Prog Z := first_from this (fun x => mret (negb (x =? c))) pos.

(** ** Downward searches *)

(** [for (;; --i) { ...; if (i == 0) return npos; }] *)
Fixpoint down_loop (i : nat) (this : nat) (test : Z -> Prog bool) : Prog Z :=
  d ← get_data this;
  c ← load_byte (advance_ptr d (Z.of_nat i));
  b ← test c;
  if b : bool then mret (Z.of_nat i) else match i with O => mret npos | S i => down_loop i this test end.

(** [pos == npos || pos >= get_size() ? get_size() - 1 : pos] *)
Definition last_start (pos n : Z) : Z := if (pos =? npos) || (n <=? pos) then n - 1 else pos.

Definition find_last_not_of (this : nat) (set : option ptr) (pos : Z) : Prog Z :=
  match set with
  | None => mret npos
  | Some set =>
    n ← get_size this;
    if n =? 0 then mret npos
    else
      set_len ← CountStringLength set kNoLimit;
      n ← get_size this;
      down_loop (Z.to_nat (last_start pos n)) this (fun c => b ← in_set set set_len c; mret (negb b))
  end.

Definition find_last_not_of_char (this : nat) (c pos : Z) : Prog Z :=
  n ← get_size this;
  if n =? 0 then mret npos else down_loop (Z.to_nat (last_start pos n)) this (fun x => mret (negb (x =? c))).

(** [for (i = start; i != size_type(-1); --i)], which wraps below zero. *)
Fixpoint wrap_loop (fuel : nat) (this : nat) (test : Z -> Prog bool) (i : Z) : Prog Z :=
  match fuel with
  | O => lift Undef
  | S fuel =>
    if i =? u64 (-1) then mret npos
    else
      d ← get_data this;
      c ← load_byte (advance_ptr d i);
      b ← test c;
      if b : bool then mret i else wrap_loop fuel this test (u64 (i - 1))
  end.

Definition find_last_of_char (this : nat) (c pos : Z) : Prog Z :=
  n ← get_size this;
  if n =? 0 then mret npos else wrap_loop (S (S (Z.to_nat n))) this (fun x => mret (x =? c)) (last_start pos n).

(** [s + s_len] has to be inside or at the end of the array. *)
Definition pointer_to_end (s : ptr) (n : Z) : Prog () := len ← block_length s; lift (dcheck (Z.of_nat s.2 + n <=? Z.of_nat len)).

Definition find_last_of (this : nat) (s : option ptr) (pos s_len : Z) : Prog Z :=
  n ← get_size this;
  match s with
  | None => mret npos
  | Some s =>
    if (n =? 0) || (s_len =? 0) then mret npos
    else wrap_loop (S (S (Z.to_nat n))) this (fun x => _ ← pointer_to_end s s_len; in_set s s_len x) (last_start pos n)
  end.

Definition rfind_char (this : nat) (c pos : Z) : Prog Z := find_last_of_char this c pos.

Fixpoint rfind_loop (i : nat) (d s : ptr) (s_len : Z) : Prog Z :=
  r ← MemCompare (advance_ptr d (Z.of_nat i)) s (Z.to_nat s_len);
  if r =? 0 then mret (Z.of_nat i) else match i with O => mret npos | S i => rfind_loop i d s s_len end.

Definition rfind_cstr (this : nat) (s : option ptr) (pos : Z) : Prog Z :=
  match s with
  | None => mret npos
  | Some s =>
    cur ← get_size this;
    s_len ← CountStringLength s kNoLimit;
    if s_len =? 0 then mret (if pos <? cur then pos else cur)
    else if cur <? s_len then mret npos
    else
      let i := if (pos =? npos) || (cur - s_len <? pos) then cur - s_len else pos in
      d ← get_data this; rfind_loop (Z.to_nat i) d s s_len
  end.

Definition rfind_string (this s : nat) (pos : Z) : Prog Z := d ← get_data s; rfind_cstr this (Some d) pos.

(** ** Predicates *)

Definition contains_char (this : nat) (c : Z) : Prog bool := r ← find_char this c 0; mret (negb (r =? npos)).
Definition contains_cstr (this : nat) (s : option ptr) : Prog bool := r ← find_cstr this s 0; mret (negb (r =? npos)).
Definition contains_string (this s : nat) : Prog bool := r ← find_string this s 0; mret (negb (r =? npos)).

Definition starts_with_char (this : nat) (c : Z) : Prog bool :=
  e ← empty this; if e : bool then mret false else d ← get_data this; x ← load_byte d; mret (x =? c).

Definition starts_with_cstr (this : nat) (s : option ptr) : Prog bool :=
  match s with
  | None => mret false
  | Some s =>
    s_len ← CountStringLength s kNoLimit;
    n ← get_size this;
    if n <? s_len then mret false else d ← get_data this; r ← MemCompare d s (Z.to_nat s_len); mret (r =? 0)
  end.

Definition starts_with_string (this s : nat) : Prog bool :=
  k ← get_size s;
  n ← get_size this;
  if n <? k then mret false else d1 ← get_data this; d2 ← get_data s; k ← byte_size s; r ← MemCompare d1 d2 (Z.to_nat k); mret (r =? 0).

Definition ends_with_char (this : nat) (c : Z) : Prog bool := e ← empty this; if e : bool then mret false else x ← back this; mret (x =? c).

Definition ends_with_cstr (this : nat) (s : option ptr) : Prog bool :=
  match s with
  | None => mret false
  | Some s =>
    s_len ← CountStringLength s kNoLimit;
    n ← get_size this;
    if n <? s_len then mret false
    else d ← get_data this; n ← get_size this; r ← MemCompare (advance_ptr d (n - s_len)) s (Z.to_nat s_len); mret (r =? 0)
  end.

Definition ends_with_string (this s : nat) : Prog bool :=
  k ← get_size s;
  n ← get_size this;
  if n <? k then mret false
  else d1 ← get_data this; n ← get_size this; k ← get_size s; d2 ← get_data s; b ← byte_size s; r ← MemCompare (advance_ptr d1 (n - k)) d2 (Z.to_nat b); mret (r =? 0).

(** ** What the comparisons compute *)

(** The lexicographic order on texts. *)
Fixpoint lex_compare (xs ys : list Z) : Z :=
  match xs, ys with
  | [], [] => 0
  | [], _ :: _ => -1
  | _ :: _, [] => 1
  | x :: xs, y :: ys => if x =? y then lex_compare xs ys else if x <? y then -1 else 1
  end.

(** [memcmp] on the common length, then the lengths. *)
Lemma lex_compare_split xs ys : let n := Nat.min (length xs) (length ys) in let r := compare_numbers (take n xs) (take n ys) in
  (if negb (r =? 0) then r else if Z.of_nat (length xs) <? Z.of_nat (length ys) then -1 else if Z.of_nat (length ys) <? Z.of_nat (length xs) then 1 else 0) = lex_compare xs ys.
Proof.
  revert ys. induction xs as [|x xs IH]; intros [|y ys]; try done. cbn [length Nat.min take compare_numbers lex_compare]. destruct (Z.eqb_spec x y) as [->|]; [|destruct (x <? y); done].
  specialize (IH ys). cbv zeta in IH |- *. rewrite <- IH. rewrite !Nat2Z.inj_succ.
  assert (Es : forall a b, (Z.succ a <? Z.succ b) = (a <? b)) by (intros a b; apply eq_true_iff_eq; rewrite !Z.ltb_lt; lia).
  by rewrite !Es.
Qed.

Lemma compare_numbers_refl xs : compare_numbers xs xs = 0.
Proof. induction xs as [|x xs IH]; [done|]. cbn. by rewrite Z.eqb_refl. Qed.

Lemma compare_numbers_eq xs ys : length xs = length ys -> (compare_numbers xs ys =? 0) = bool_decide (xs = ys).
Proof.
  revert ys. induction xs as [|x xs IH]; intros [|y ys] E; try done. injection E as E. cbn. destruct (Z.eqb_spec x y) as [->|Hne].
  - rewrite IH by done. apply bool_decide_ext. split; congruence.
  - rewrite bool_decide_false by congruence. by destruct (x <? y).
Qed.

Lemma MemCompare_ok m p q xs ys : readable m p xs -> readable m q ys -> length xs = length ys ->
  MemCompare p q (length xs) m = Ok (m, compare_numbers xs ys).
Proof.
  intros Hx Hy E. unfold MemCompare. destruct xs as [|x xs]; [done|]. destruct ys as [|y ys]; [done|].
  rewrite (proj2 (Nat.eqb_neq (length (x :: xs)) 0)) by done.
  assert (Hl : forall r z zs, readable m r (z :: zs) -> load_numbers r (length (z :: zs)) m = Ok (m, z :: zs)).
  { intros r z zs [?|(d & c & Ec & Hl & Et)]; [done|]. by eapply load_numbers_ok. }
  rewrite (prog_bind _ _ _ _ _ (Hl _ _ _ Hx)), E. by rewrite (prog_bind _ _ _ _ _ (Hl _ _ _ Hy)).
Qed.

Lemma take_min_l {A} (xs : list A) n : take (Nat.min (length xs) n) xs = take n xs.
Proof. destruct (Nat.le_ge_cases n (length xs)); [by rewrite Nat.min_r by done|]. rewrite Nat.min_l, firstn_all, take_ge by done. done. Qed.

Section Compare.

Context {m : memory} {this : nat} {lay : layout} {l : list Z} (H : string_at m this lay l).

(** [memcmp] of a part of the string with what is at [q]. *)
Lemma compare_at pos k q ys : (pos + k <= length l)%nat -> readable m q ys -> length ys = k ->
  MemCompare (advance_ptr (buffer_of this lay, 0%nat) (Z.of_nat pos)) q k m = Ok (m, compare_numbers (take k (drop pos l)) ys).
Proof using H.
  intros Hp Hq El. unfold advance_ptr. cbn [fst snd Nat.add]. rewrite Nat2Z.id.
  pose proof (readable_own m this lay l pos k H Hp) as Hr. assert (Ek : length (take k (drop pos l)) = k) by (rewrite length_take, length_drop; lia).
  rewrite <- Ek at 1. apply MemCompare_ok; [done|done|lia].
Qed.

Lemma compare_start k q ys : (k <= length l)%nat -> readable m q ys -> length ys = k ->
  MemCompare (buffer_of this lay, 0%nat) q k m = Ok (m, compare_numbers (take k l) ys).
Proof using H. intros Hk Hq El. exact (compare_at 0 k q ys ltac:(lia) Hq El). Qed.

Lemma compare_ok other layo lo : string_at m other layo lo -> compare this other m = Ok (m, lex_compare l lo).
Proof using H.
  intros Ho. unfold compare. rewrite (prog_bind _ _ _ _ _ (string_size H)), (prog_bind _ _ _ _ _ (string_size Ho)).
  rewrite (prog_bind _ _ _ _ _ (string_data H)), (prog_bind _ _ _ _ _ (string_data Ho)). rewrite <- Nat2Z.inj_min, Nat2Z.id.
  set (n := Nat.min (length l) (length lo)). assert (En : length (take n lo) = n) by (rewrite length_take; lia).
  erewrite prog_bind; [|apply (compare_start n _ (take n lo)); [lia|exact (readable_prefix _ _ _ n (readable_text _ _ _ _ Ho))|done]].
  unfold mret, Prog_ret. by rewrite <- lex_compare_split.
Qed.

Lemma compare_chars_ok p xs : readable m p xs -> compare_chars this p (Z.of_nat (length xs)) m = Ok (m, lex_compare l xs).
Proof using H.
  intros Hr. unfold compare_chars. rewrite (prog_bind _ _ _ _ _ (string_size H)), (prog_bind _ _ _ _ _ (string_data H)). rewrite <- Nat2Z.inj_min, Nat2Z.id.
  set (n := Nat.min (length l) (length xs)). erewrite prog_bind; [|apply (compare_start n _ (take n xs)); [lia|by apply readable_prefix|rewrite length_take; lia]].
  unfold mret, Prog_ret. by rewrite <- lex_compare_split.
Qed.

Lemma compare_cstr_ok p xs : cstring_at m p xs -> Z.of_nat (length xs) < kNoLimit -> compare_cstr this p m = Ok (m, lex_compare l xs).
Proof using H.
  intros Hc Hfit. unfold compare_cstr. rewrite (prog_bind _ _ _ _ _ (string_size H)), (prog_bind _ _ _ _ _ (cstring_count _ _ _ Hc Hfit)).
  pose proof (compare_chars_ok p xs (cstring_readable _ _ _ Hc)) as E. unfold compare_chars in E. by rewrite (prog_bind _ _ _ _ _ (string_size H)) in E.
Qed.

(** A window of the text against as many characters of the argument: a longer text is no difference. *)
Definition window_compare (w xs : list Z) (count : Z) : Z :=
  let r := compare_numbers w xs in if negb (r =? 0) then r else if Z.of_nat (length w) <? count then -1 else 0.

Lemma compare_window_ok pos count p xs : (pos <= length l)%nat -> 0 <= count -> readable m p xs ->
  length xs = Z.to_nat (Z.min (Z.of_nat (length l) - Z.of_nat pos) count) ->
  compare_window this (Z.of_nat pos) count p m = Ok (m, window_compare (take (Z.to_nat count) (drop pos l)) xs count).
Proof using H.
  intros Hp Hc Hr El. unfold compare_window. rewrite (prog_bind _ _ _ _ _ (string_size H)). unfold bug_check, dcheck. rewrite (proj2 (Z.leb_le _ _)) by lia.
  rewrite (prog_bind _ _ m m ()) by done. rewrite (prog_bind _ _ _ _ _ (string_size H)), (prog_bind _ _ _ _ _ (string_data H)).
  erewrite prog_bind; [|apply (compare_at pos _ p xs); [lia|done|done]]. unfold mret, Prog_ret, window_compare. do 2 f_equal.
  assert (Et : take (Z.to_nat (Z.min (Z.of_nat (length l) - Z.of_nat pos) count)) (drop pos l) = take (Z.to_nat count) (drop pos l)).
  { rewrite Z2Nat.inj_min. replace (Z.to_nat (Z.of_nat (length l) - Z.of_nat pos)) with (length (drop pos l)) by (rewrite length_drop; lia). apply take_min_l. }
  rewrite Et. cbv zeta. destruct (compare_numbers _ xs =? 0); cbn [negb]; [|done]. rewrite length_take, length_drop.
  destruct (Z.ltb_spec (Z.of_nat (length l) - Z.of_nat pos) count), (Z.ltb_spec (Z.of_nat (Z.to_nat count `min` (length l - pos))) count); try done; lia.
Qed.

Lemma compare_part_ok pos len other layo lo : (pos <= length l)%nat -> 0 <= len -> string_at m other layo lo ->
  compare_part this (Z.of_nat pos) len other m = Ok (m, lex_compare (take (Z.to_nat len) (drop pos l)) lo).
Proof using H.
  intros Hp Hc Ho. unfold compare_part. rewrite (prog_bind _ _ _ _ _ (string_size H)). unfold bug_check, dcheck. rewrite (proj2 (Z.leb_le _ _)) by lia.
  rewrite (prog_bind _ _ m m ()) by done. rewrite (prog_bind _ _ _ _ _ (string_size H)), (prog_bind _ _ _ _ _ (string_size Ho)).
  rewrite (prog_bind _ _ _ _ _ (string_data H)), (prog_bind _ _ _ _ _ (string_data Ho)).
  set (w := take (Z.to_nat len) (drop pos l)). assert (Ew : Z.min len (Z.of_nat (length l) - Z.of_nat pos) = Z.of_nat (length w)) by (unfold w; rewrite length_take, length_drop; lia).
  rewrite Ew, <- Nat2Z.inj_min, Nat2Z.id. set (n := Nat.min (length w) (length lo)). assert (Hw : (length w <= length l - pos)%nat) by lia.
  erewrite prog_bind; [|apply (compare_at pos n _ (take n lo)); [lia|exact (readable_prefix _ _ _ n (readable_text _ _ _ _ Ho))|rewrite length_take; lia]].
  unfold mret, Prog_ret. rewrite <- lex_compare_split. cbv zeta. fold n.
  assert (Hn : (n <= Z.to_nat len)%nat) by (unfold n, w; rewrite length_take; lia).
  assert (Et : take n (drop pos l) = take n w) by (unfold w; rewrite take_take; f_equal; lia).
  by rewrite Et.
Qed.

Lemma compare_whole q xs : readable m q xs -> length xs = length l ->
  (d ← get_data this; n ← byte_size this; r ← MemCompare d q (Z.to_nat n); mret (r =? 0)) m = Ok (m, bool_decide (l = xs)).
Proof using H.
  intros Hr E. rewrite (prog_bind _ _ _ _ _ (string_data H)). unfold byte_size. rewrite (prog_bind _ _ m m (Z.of_nat (length l))).
  2: { rewrite (prog_bind _ _ _ _ _ (string_size H)). by rewrite Z.mul_1_r. }
  rewrite Nat2Z.id. erewrite prog_bind; [|apply (compare_start (length l) q xs); [lia|done|done]]. rewrite firstn_all.
  unfold mret, Prog_ret. by rewrite compare_numbers_eq.
Qed.

Lemma equal_strings_ok other layo lo : string_at m other layo lo -> equal_strings this other m = Ok (m, bool_decide (l = lo)).
Proof using H.
  intros Ho. unfold equal_strings. rewrite (prog_bind _ _ _ _ _ (string_size H)), (prog_bind _ _ _ _ _ (string_size Ho)).
  destruct (Z.eqb_spec (Z.of_nat (length l)) (Z.of_nat (length lo))) as [E|E]; cbn [negb].
  - pose proof (compare_whole _ lo (readable_text _ _ _ _ Ho) ltac:(lia)) as Ew. rewrite (prog_bind _ _ _ _ _ (string_data H)) in Ew.
    rewrite (prog_bind _ _ _ _ _ (string_data H)), (prog_bind _ _ _ _ _ (string_data Ho)). exact Ew.
  - unfold mret, Prog_ret. rewrite bool_decide_false; [done|]. intros ->. done.
Qed.

Lemma string_empty_ok : empty this m = Ok (m, bool_decide (l = [])).
Proof using H. unfold empty. rewrite (prog_bind _ _ _ _ _ (string_size H)). unfold mret, Prog_ret. do 2 f_equal. by destruct l. Qed.

Lemma equal_cstr_ok rhs xs : match rhs with Some p => cstring_at m p xs | None => xs = [] end -> Z.of_nat (length xs) < kNoLimit ->
  equal_cstr this rhs m = Ok (m, bool_decide (l = xs)).
Proof using H.
  intros Hc Hfit. unfold equal_cstr. rewrite (prog_bind _ _ _ _ _ string_empty_ok). destruct rhs as [p|]; [|cbn in Hc; rewrite Hc; unfold mret, Prog_ret; do 2 f_equal; by apply bool_decide_ext].
  rewrite (prog_bind _ _ _ _ _ (cstring_count _ _ _ Hc Hfit)), (prog_bind _ _ _ _ _ (string_size H)).
  destruct (Z.eqb_spec (Z.of_nat (length xs)) (Z.of_nat (length l))) as [E|E]; cbn [negb].
  - apply compare_whole; [by apply cstring_readable|lia].
  - unfold mret, Prog_ret. rewrite bool_decide_false; [done|]. intros ->. done.
Qed.

End Compare.

(** ** What the searches compute *)

(** The first position in [[i, i + n)] with [P], and the last one up to [i]. *)
Fixpoint first_at (P : nat -> bool) (n i : nat) : option nat :=
  match n with O => None | S n => if P i then Some i else first_at P n (S i) end.

Fixpoint last_at (P : nat -> bool) (i : nat) : option nat :=
  if P i then Some i else match i with O => None | S i => last_at P i end.

Definition index (o : option nat) : Z := match o with Some i => Z.of_nat i | None => npos end.

Lemma first_at_spec P n i :
  match first_at P n i with
  | Some j => (i <= j < i + n)%nat /\ P j = true /\ forall k, (i <= k < j)%nat -> P k = false
  | None => forall k, (i <= k < i + n)%nat -> P k = false
  end.
Proof.
  revert i. induction n as [|n IH]; intros i; cbn [first_at]; [lia|]. destruct (P i) eqn:E; [split; [lia|]; split; [done|lia]|].
  specialize (IH (S i)). destruct (first_at P n (S i)) as [j|].
  - destruct IH as (Hj & Pj & Hk). split; [lia|]. split; [done|]. intros k Hki. destruct (decide (k = i)) as [->|]; [done|]. apply Hk. lia.
  - intros k Hki. destruct (decide (k = i)) as [->|]; [done|]. apply IH. lia.
Qed.

Lemma last_at_spec P i :
  match last_at P i with
  | Some j => (j <= i)%nat /\ P j = true /\ forall k, (j < k <= i)%nat -> P k = false
  | None => forall k, (k <= i)%nat -> P k = false
  end.
Proof.
  induction i as [|i IH]; cbn [last_at].
  - destruct (P 0%nat) eqn:E; [split; [lia|]; split; [done|lia]|]. intros k Hk. by assert (k = 0%nat) as -> by lia.
  - destruct (P (S i)) eqn:E; [split; [lia|]; split; [done|lia]|]. destruct (last_at P i) as [j|].
    + destruct IH as (Hj & Pj & Hk). split; [lia|]. split; [done|]. intros k Hki. destruct (decide (k = S i)) as [->|]; [done|]. apply Hk. lia.
    + intros k Hki. destruct (decide (k = S i)) as [->|]; [done|]. apply IH. lia.
Qed.

Lemma first_at_ext P Q n i : (forall k, (i <= k < i + n)%nat -> P k = Q k) -> first_at P n i = first_at Q n i.
Proof.
  revert i. induction n as [|n IH]; intros i H; cbn [first_at]; [done|]. rewrite H by lia. by rewrite IH by (intros k Hk; apply H; lia).
Qed.

Lemma first_at_cut P n k i : (k <= n)%nat -> (forall j, (i + k <= j < i + n)%nat -> P j = false) -> first_at P n i = first_at P k i.
Proof.
  revert k i. induction n as [|n IH]; intros k i Hk H; [by assert (k = 0%nat) as -> by lia|]. destruct k as [|k]; cbn [first_at].
  - rewrite H by lia. rewrite (IH 0%nat); [done|lia|]. intros j Hj. apply H. lia.
  - destruct (P i); [done|]. apply IH; [lia|]. intros j Hj. apply H. lia.
Qed.

Lemma last_at_cut P i k : (k <= i)%nat -> (forall j, (k < j <= i)%nat -> P j = false) -> last_at P i = last_at P k.
Proof.
  induction i as [|i IH]; intros Hk H; [by assert (k = 0%nat) as -> by lia|]. destruct (decide (k = S i)) as [->|]; [done|]. cbn [last_at].
  rewrite H by lia. apply IH; [lia|]. intros j Hj. apply H. lia.
Qed.

(** The character at [i] passes the test. *)
Definition char_test (l : list Z) (T : Z -> bool) (i : nat) : bool := match l !! i with Some c => T c | None => false end.

(** [s] occurs in [l] at [i]. *)
Definition occurs (l s : list Z) (i : nat) : bool := bool_decide (take (length s) (drop i l) = s).

Lemma occurs_short l s i : (length l < i + length s)%nat -> s <> [] -> occurs l s i = false.
Proof.
  intros H Hs. apply bool_decide_false. intros E. apply (f_equal length) in E. rewrite length_take, length_drop in E.
  assert (length s <> 0%nat) by (by destruct s). lia.
Qed.

(** The last position at or before [pos] in a text of [n] characters. *)
Definition last_before (P : nat -> bool) (pos : Z) (n : nat) : option nat :=
  match n with O => None | S k => last_at P (Z.to_nat (Z.min pos (Z.of_nat k))) end.

(** [base::find] on a range: how far the first hit is. *)
Fixpoint position (v : Z) (xs : list Z) : nat := match xs with [] => 0%nat | x :: xs => if x =? v then 0%nat else S (position v xs) end.

Lemma position_length v xs : (position v xs <= length xs)%nat.
Proof. induction xs as [|x xs IH]; cbn; [lia|]. destruct (x =? v); lia. Qed.

Lemma position_elem v xs : negb (Z.of_nat (position v xs) =? Z.of_nat (length xs)) = bool_decide (v ∈ xs).
Proof.
  induction xs as [|x xs IH]; [done|]. cbn [position length]. destruct (Z.eqb_spec x v) as [->|Hne].
  - rewrite bool_decide_true by left. done.
  - rewrite !Nat2Z.inj_succ. rewrite (bool_decide_ext _ (v ∈ xs)) by (rewrite elem_of_cons; split; [by intros [->|]|by right]). rewrite <- IH. f_equal.
    apply eq_true_iff_eq. rewrite !Z.eqb_eq. lia.
Qed.

Lemma readable_tail m p x xs : readable m p (x :: xs) -> readable m (advance_ptr p 1) xs.
Proof.
  intros [?|(d & c & E & Hl & Et)]; [done|]. right. exists d, c. split; [done|]. unfold advance_ptr. cbn [fst snd length] in *. change (Z.to_nat 1) with 1%nat.
  split; [lia|]. rewrite <- drop_drop. destruct (drop p.2 c) as [|y ys]; [done|]. cbn in Et |- *. rewrite drop_0. by injection Et.
Qed.

Lemma string_find_in_ok m v : forall xs p, readable m p xs -> find_in (length xs) p v m = Ok (m, Z.of_nat (position v xs)).
Proof.
  induction xs as [|x xs IH]; intros p Hr; cbn [length find_in position]; [done|].
  assert (El : load_byte p m = Ok (m, x)).
  { pose proof (readable_byte m p (x :: xs) 0 x Hr eq_refl) as E. unfold advance_ptr in E. cbn in E. rewrite Nat.add_0_r in E. by destruct p. }
  rewrite (prog_bind _ _ _ _ _ El). destruct (x =? v); [done|].
  rewrite (prog_bind _ _ _ _ _ (IH (advance_ptr p 1) (readable_tail _ _ _ _ Hr))). unfold mret, Prog_ret. do 2 f_equal. lia.
Qed.

Lemma size_zero (l : list Z) : (Z.of_nat (length l) =? 0) = bool_decide (l = []).
Proof. by destruct l. Qed.

Section Search.

Context {m : memory} {this : nat} {lay : layout} {l : list Z} (H : string_at m this lay l).

Lemma string_byte_at i x : l !! i = Some x -> load_byte (advance_ptr (buffer_of this lay, 0%nat) (Z.of_nat i)) m = Ok (m, x).
Proof using H.
  intros Ex. unfold advance_ptr. cbn [fst snd Nat.add]. rewrite Nat2Z.id. apply (string_byte H). by apply lookup_app_l_Some.
Qed.

Lemma find_char_ok c pos : 0 <= pos ->
  find_char this c pos m = Ok (m, index (first_at (char_test l (Z.eqb c)) (length l - Z.to_nat pos) (Z.to_nat pos))).
Proof using H.
  intros Hp. unfold find_char. rewrite (prog_bind _ _ _ _ _ (string_size H)). destruct (Z.leb_spec (Z.of_nat (length l)) pos).
  { replace (length l - Z.to_nat pos)%nat with 0%nat by lia. done. }
  rewrite (prog_bind _ _ _ _ _ (string_data H)). unfold advance_ptr. cbn [fst snd Nat.add].
  set (k := Z.to_nat pos). pose proof (readable_own m this lay l k (length l - k) H ltac:(lia)) as Hr.
  set (xs := drop k l) in *. assert (Ex : length xs = (length l - k)%nat) by (unfold xs; apply length_drop). rewrite <- Ex, firstn_all in Hr.
  replace (Z.to_nat (Z.of_nat (length l) - pos)) with (length xs) by lia. rewrite (prog_bind _ _ _ _ _ (string_find_in_ok m c _ _ Hr)).
  unfold mret, Prog_ret. do 2 f_equal. replace (Z.of_nat (length l) - pos) with (Z.of_nat (length xs)) by lia.
  replace pos with (Z.of_nat k) by lia. rewrite <- Ex.
  assert (Hk : forall j y, xs !! j = Some y -> l !! (k + j)%nat = Some y) by (intros j y; unfold xs; by rewrite lookup_drop).
  clearbody xs. clearbody k. clear -Hk. revert k Hk. induction xs as [|x xs IH]; intros k Hk; [done|]. cbn [length position first_at].
  unfold char_test at 1. pose proof (Hk 0%nat x eq_refl) as E0. rewrite Nat.add_0_r in E0. rewrite E0, (Z.eqb_sym c x).
  destruct (x =? c); [cbn -[Z.of_nat]; by rewrite Z.add_0_r|]. specialize (IH (S k)). rewrite !Nat2Z.inj_succ in *. rewrite <- IH.
  - destruct (Z.eqb_spec (Z.succ (Z.of_nat (position c xs))) (Z.succ (Z.of_nat (length xs)))), (Z.eqb_spec (Z.of_nat (position c xs)) (Z.of_nat (length xs))); lia.
  - intros j y Ej. replace (S k + j)%nat with (k + S j)%nat by lia. by apply Hk.
Qed.

(** A test that reads the memory and gives [T]. *)
Definition decides (test : Z -> Prog bool) (T : Z -> bool) : Prop := forall c, test c m = Ok (m, T c).

Lemma first_loop_ok test T fuel i : decides test T -> (length l - i < fuel)%nat ->
  first_loop fuel this test (Z.of_nat i) m = Ok (m, index (first_at (char_test l T) (length l - i) i)).
Proof using H.
  intros HT. revert i. induction fuel as [|fuel IH]; intros i Hf; cbn [first_loop].
  - lia.
  - rewrite (prog_bind _ _ _ _ _ (string_size H)). destruct (Z.ltb_spec (Z.of_nat i) (Z.of_nat (length l))) as [Hlt|].
    + destruct (lookup_lt_is_Some_2 l i ltac:(lia)) as [c Ec]. rewrite (prog_bind _ _ _ _ _ (string_data H)), (prog_bind _ _ _ _ _ (string_byte_at _ _ Ec)).
      rewrite (prog_bind _ _ _ _ _ (HT c)). replace (length l - i)%nat with (S (length l - S i)) by lia. cbn [first_at]. unfold char_test at 1. rewrite Ec.
      destruct (T c); [done|]. replace (Z.of_nat i + 1) with (Z.of_nat (S i)) by lia. apply IH. lia.
    + replace (length l - i)%nat with 0%nat by lia. done.
Qed.

Lemma string_first_from_ok test T pos : decides test T -> 0 <= pos ->
  first_from this test pos m = Ok (m, index (first_at (char_test l T) (length l - Z.to_nat pos) (Z.to_nat pos))).
Proof using H.
  intros HT Hp. unfold first_from. rewrite (prog_bind _ _ _ _ _ (string_size H)), Nat2Z.id. rewrite <- (Z2Nat.id pos) at 1 by done.
  apply first_loop_ok; [done|lia].
Qed.

Lemma down_loop_ok test T i : decides test T -> (i < length l)%nat -> down_loop i this test m = Ok (m, index (last_at (char_test l T) i)).
Proof using H.
  intros HT. induction i as [|i IH]; intros Hi; cbn [down_loop last_at]; destruct (lookup_lt_is_Some_2 l _ Hi) as [c Ec].
  all: rewrite (prog_bind _ _ _ _ _ (string_data H)), (prog_bind _ _ _ _ _ (string_byte_at _ _ Ec)), (prog_bind _ _ _ _ _ (HT c)).
  all: unfold char_test at 1; rewrite Ec; destruct (T c); [done|].
  - done.
  - apply IH. lia.
Qed.

Lemma wrap_loop_ok test T fuel i : decides test T -> (i < length l)%nat -> (S i < fuel)%nat ->
  wrap_loop fuel this test (Z.of_nat i) m = Ok (m, index (last_at (char_test l T) i)).
Proof using H.
  intros HT. pose proof (string_cap _ _ _ _ H) as [Hlen Hcap]. pose proof kMaxCapacity_eq as Ek.
  revert i. induction fuel as [|fuel IH]; intros i Hi Hf; [lia|]. cbn [wrap_loop]. change (u64 (-1)) with (2 ^ 64 - 1).
  rewrite (proj2 (Z.eqb_neq (Z.of_nat i) (2 ^ 64 - 1))) by lia. destruct (lookup_lt_is_Some_2 l _ Hi) as [c Ec].
  rewrite (prog_bind _ _ _ _ _ (string_data H)), (prog_bind _ _ _ _ _ (string_byte_at _ _ Ec)), (prog_bind _ _ _ _ _ (HT c)).
  destruct i as [|i]; cbn [last_at]; unfold char_test at 1; rewrite Ec; destruct (T c); try done.
  - destruct fuel as [|fuel]; [lia|done].
  - rewrite wrap_small by (unfold fits; lia). replace (Z.of_nat (S i) - 1) with (Z.of_nat i) by lia. apply IH; lia.
Qed.

Lemma in_set_ok set xs c : readable m set xs -> in_set set (Z.of_nat (length xs)) c m = Ok (m, bool_decide (c ∈ xs)).
Proof using Type.
  intros Hr. unfold in_set. rewrite Nat2Z.id, (prog_bind _ _ _ _ _ (string_find_in_ok m c xs set Hr)). unfold mret, Prog_ret. by rewrite position_elem.
Qed.

Lemma not_in_set_ok set xs : readable m set xs -> decides (fun c => b ← in_set set (Z.of_nat (length xs)) c; mret (negb b)) (fun c => bool_decide (c ∉ xs)).
Proof using Type.
  intros Hr c. rewrite (prog_bind _ _ _ _ _ (in_set_ok set xs c Hr)). unfold mret, Prog_ret. by rewrite bool_decide_not.
Qed.

Lemma differs_ok c : decides (fun x => mret (negb (x =? c))) (fun x => bool_decide (x <> c)).
Proof using Type. intros x. unfold mret, Prog_ret. do 2 f_equal. rewrite bool_decide_not. f_equal. by destruct (Z.eqb_spec x c); [rewrite bool_decide_true|rewrite bool_decide_false]. Qed.

(** The optional null-terminated argument of a search. *)
Definition argument (s : option ptr) (xs : list Z) : Prop :=
  match s with Some p => cstring_at m p xs | None => True end /\ Z.of_nat (length xs) < kNoLimit.

Lemma argument_count p xs : argument (Some p) xs -> CountStringLength p kNoLimit m = Ok (m, Z.of_nat (length xs)).
Proof using Type. intros [Hc Hf]. by apply cstring_count. Qed.

Lemma argument_readable p xs : argument (Some p) xs -> readable m p xs.
Proof using Type. intros [Hc _]. by apply cstring_readable. Qed.

Lemma find_first_of_ok set xs pos : argument set xs -> 0 <= pos ->
  find_first_of this set pos m = Ok (m, match set with
    | Some _ => index (first_at (char_test l (fun c => bool_decide (c ∈ xs))) (length l - Z.to_nat pos) (Z.to_nat pos))
    | None => npos end).
Proof using H.
  intros Ha Hp. unfold find_first_of. destruct set as [p|]; [|done]. rewrite (prog_bind _ _ _ _ _ (argument_count _ _ Ha)).
  apply string_first_from_ok; [|done]. intros c. by apply in_set_ok, argument_readable.
Qed.

Lemma find_first_not_of_ok set xs pos : argument set xs -> 0 <= pos ->
  find_first_not_of this set pos m = Ok (m, match set with
    | Some _ => index (first_at (char_test l (fun c => bool_decide (c ∉ xs))) (length l - Z.to_nat pos) (Z.to_nat pos))
    | None => npos end).
Proof using H.
  intros Ha Hp. unfold find_first_not_of. destruct set as [p|]; [|done]. rewrite (prog_bind _ _ _ _ _ (argument_count _ _ Ha)).
  apply string_first_from_ok; [|done]. by apply not_in_set_ok, argument_readable.
Qed.

Lemma find_first_not_of_char_ok c pos : 0 <= pos ->
  find_first_not_of_char this c pos m = Ok (m, index (first_at (char_test l (fun x => bool_decide (x <> c))) (length l - Z.to_nat pos) (Z.to_nat pos))).
Proof using H. intros Hp. apply string_first_from_ok; [apply differs_ok|done]. Qed.

(** Where the downward searches of a text that is not empty start. *)
Lemma last_start_ok pos : 0 <= pos -> l <> [] -> exists i, last_start pos (Z.of_nat (length l)) = Z.of_nat i /\ (i < length l)%nat /\
  forall P, last_before P pos (length l) = last_at P i.
Proof using H.
  intros Hp Hl. pose proof (string_cap _ _ _ _ H) as [Hlen Hcap]. pose proof kMaxCapacity_eq as Ek. assert (length l <> 0%nat) by (by destruct l).
  exists (Z.to_nat (Z.min pos (Z.of_nat (length l - 1)))). unfold last_start, last_before. change npos with (2 ^ 64 - 1). split; [|split; [lia|]].
  - destruct (Z.eqb_spec pos (2 ^ 64 - 1)), (Z.leb_spec (Z.of_nat (length l)) pos); cbn [orb]; lia.
  - intros P. destruct (length l) as [|k]; [done|]. by rewrite Nat.sub_succ, Nat.sub_0_r.
Qed.

Lemma find_last_not_of_ok set xs pos : argument set xs -> 0 <= pos ->
  find_last_not_of this set pos m = Ok (m, match set with
    | Some _ => index (last_before (char_test l (fun c => bool_decide (c ∉ xs))) pos (length l))
    | None => npos end).
Proof using H.
  intros Ha Hp. unfold find_last_not_of. destruct set as [p|]; [|done]. rewrite (prog_bind _ _ _ _ _ (string_size H)), size_zero.
  destruct (decide (l = [])) as [->|Hl]; [done|]. rewrite bool_decide_false by done. rewrite (prog_bind _ _ _ _ _ (argument_count _ _ Ha)), (prog_bind _ _ _ _ _ (string_size H)).
  destruct (last_start_ok pos Hp Hl) as (i & -> & Hi & ->). rewrite Nat2Z.id. apply down_loop_ok; [by apply not_in_set_ok, argument_readable|done].
Qed.

Lemma find_last_not_of_char_ok c pos : 0 <= pos ->
  find_last_not_of_char this c pos m = Ok (m, index (last_before (char_test l (fun x => bool_decide (x <> c))) pos (length l))).
Proof using H.
  intros Hp. unfold find_last_not_of_char. rewrite (prog_bind _ _ _ _ _ (string_size H)), size_zero.
  destruct (decide (l = [])) as [->|Hl]; [done|]. rewrite bool_decide_false by done.
  destruct (last_start_ok pos Hp Hl) as (i & -> & Hi & ->). rewrite Nat2Z.id. apply down_loop_ok; [apply differs_ok|done].
Qed.

Lemma find_last_of_char_ok c pos : 0 <= pos ->
  find_last_of_char this c pos m = Ok (m, index (last_before (char_test l (fun x => x =? c)) pos (length l))).
Proof using H.
  intros Hp. unfold find_last_of_char. rewrite (prog_bind _ _ _ _ _ (string_size H)), size_zero.
  destruct (decide (l = [])) as [->|Hl]; [done|]. rewrite bool_decide_false by done.
  destruct (last_start_ok pos Hp Hl) as (i & -> & Hi & ->). apply wrap_loop_ok; [done|done|lia].
Qed.

(** With the number of characters in the set given. *)
Lemma find_last_of_ok set xs pos : match set with Some p => readable m p xs | None => True end -> 0 <= pos ->
  find_last_of this set pos (Z.of_nat (length xs)) m = Ok (m, match set with
    | Some _ => index (last_before (char_test l (fun c => bool_decide (c ∈ xs))) pos (length l))
    | None => npos end).
Proof using H.
  intros Hr Hp. unfold find_last_of. rewrite (prog_bind _ _ _ _ _ (string_size H)), size_zero. destruct set as [p|]; [|done].
  destruct (decide (l = [])) as [->|Hl]; [done|]. rewrite bool_decide_false by done. destruct (last_start_ok pos Hp Hl) as (i & -> & Hi & ->).
  destruct xs as [|x xs].
  { cbn [orb length]. rewrite Z.eqb_refl. unfold mret, Prog_ret. do 2 f_equal. pose proof (last_at_spec (char_test l (fun c => bool_decide (c ∈ []))) i) as Hs.
    destruct (last_at _ i) as [j|]; [|done]. destruct Hs as (_ & E & _). unfold char_test in E. destruct (l !! j); [|done]. by rewrite bool_decide_false in E by set_solver. }
  rewrite (proj2 (Z.eqb_neq (Z.of_nat (length (x :: xs))) 0)) by done. cbn [orb]. apply wrap_loop_ok; [|done|lia].
  intros c. unfold pointer_to_end. destruct (readable_length _ _ _ _ Hr) as (n & E & Hn).
  assert (Ep : pointer_to_end p (Z.of_nat (length (x :: xs))) m = Ok (m, ())).
  { unfold pointer_to_end. rewrite (prog_bind _ _ _ _ _ E). destruct Hr as [?|(d & c0 & Ec & Hl2 & _)]; [done|]. unfold block_length in E. rewrite Ec in E.
    injection E as <-. unfold lift, dcheck. by rewrite (proj2 (Z.leb_le _ _)) by lia. }
  unfold pointer_to_end in Ep. rewrite (prog_bind _ _ _ _ _ Ep). by apply in_set_ok.
Qed.

(** With the default argument [s_len = npos] the end of the set is no address: no program
    may search a text this way. *)
Lemma find_last_of_default p pos n : l <> [] -> 0 <= pos -> block_length p m = Ok (m, n) -> Z.of_nat n < npos ->
  find_last_of this (Some p) pos npos m = Undef.
Proof using H.
  intros Hl Hp E Hn. unfold find_last_of. rewrite (prog_bind _ _ _ _ _ (string_size H)), size_zero, bool_decide_false by done.
  change (npos =? 0) with false. cbn [orb]. destruct (last_start_ok pos Hp Hl) as (i & -> & Hi & _). cbn [wrap_loop].
  pose proof (string_cap _ _ _ _ H) as [Hlen Hcap]. pose proof kMaxCapacity_eq as Ek. change (u64 (-1)) with (2 ^ 64 - 1). rewrite (proj2 (Z.eqb_neq (Z.of_nat i) (2 ^ 64 - 1))) by lia.
  destruct (lookup_lt_is_Some_2 l _ Hi) as [c Ec]. rewrite (prog_bind _ _ _ _ _ (string_data H)), (prog_bind _ _ _ _ _ (string_byte_at _ _ Ec)).
  assert (Ep : pointer_to_end p npos m = Undef).
  { unfold pointer_to_end. rewrite (prog_bind _ _ _ _ _ E). unfold lift, dcheck. by rewrite (proj2 (Z.leb_gt _ _)) by lia. }
  unfold mbind, Prog_bind. by rewrite Ep.
Qed.

End Search.

(** ** Substrings *)

Section Substring.

Context {m : memory} {this : nat} {lay : layout} {l : list Z} (H : string_at m this lay l).

Lemma occurs_here s q i : readable m q s -> (i + length s <= length l)%nat ->
  (r ← MemCompare (advance_ptr (buffer_of this lay, 0%nat) (Z.of_nat i)) q (length s); mret (r =? 0)) m = Ok (m, occurs l s i).
Proof using H.
  intros Hr Hi. rewrite (prog_bind _ _ _ _ _ (compare_at H i (length s) q s Hi Hr eq_refl)). unfold mret, Prog_ret, occurs. do 2 f_equal.
  apply compare_numbers_eq. rewrite length_take, length_drop. lia.
Qed.

(** A test on the result of a comparison. *)
Lemma occurs_branch {B} s q i (k1 k2 : Prog B) : readable m q s -> (i + length s <= length l)%nat ->
  (r ← MemCompare (advance_ptr (buffer_of this lay, 0%nat) (Z.of_nat i)) q (Z.to_nat (Z.of_nat (length s))); if r =? 0 then k1 else k2) m = (if occurs l s i then k1 else k2) m.
Proof using H.
  intros Hr Hi. rewrite Nat2Z.id. pose proof (occurs_here s q i Hr Hi) as E. unfold mbind, Prog_bind in E |- *.
  destruct (MemCompare _ q (length s) m) as [[m1 r]| |]; [|done|done]. injection E as E1 E2. subst m1. rewrite <- E2. reflexivity.
Qed.

Lemma string_find_loop_ok s q fuel i : readable m q s -> (length s <= length l)%nat -> (length l - length s + 1 - i < fuel)%nat ->
  find_loop fuel (buffer_of this lay, 0%nat) q (Z.of_nat (length s)) (Z.of_nat i) (Z.of_nat (length l) - Z.of_nat (length s)) m =
    Ok (m, index (first_at (occurs l s) (length l - length s + 1 - i) i)).
Proof using H.
  intros Hr Hs. revert i. induction fuel as [|fuel IH]; intros i Hf; [lia|]. cbn [find_loop].
  destruct (Z.leb_spec (Z.of_nat i) (Z.of_nat (length l) - Z.of_nat (length s))).
  - rewrite occurs_branch by (done || lia). replace (length l - length s + 1 - i)%nat with (S (length l - length s + 1 - S i)) by lia. cbn [first_at].
    destruct (occurs l s i); [done|]. replace (Z.of_nat i + 1) with (Z.of_nat (S i)) by lia. apply IH. lia.
  - replace (length l - length s + 1 - i)%nat with 0%nat by lia. done.
Qed.

(** The least occurrence at or after [pos]; the empty text occurs up to the end. *)
Lemma find_cstr_ok s xs pos : argument (m := m) s xs -> 0 <= pos ->
  find_cstr this s pos m = Ok (m, match s with
    | Some _ => index (first_at (occurs l xs) (S (length l) - Z.to_nat pos) (Z.to_nat pos))
    | None => npos end).
Proof using H.
  intros Ha Hp. unfold find_cstr. destruct s as [q|]; [|done]. rewrite (prog_bind _ _ _ _ _ (string_size H)), (prog_bind _ _ _ _ _ (argument_count _ _ Ha)).
  destruct (decide (xs = [])) as [->|Hx].
  { cbn [length]. change (Z.of_nat 0 =? 0) with true. cbv iota. destruct (Z.leb_spec pos (Z.of_nat (length l))).
    - replace (S (length l) - Z.to_nat pos)%nat with (S (length l - Z.to_nat pos)) by lia. cbn [first_at index]. unfold occurs. cbn [length take]. rewrite bool_decide_true by done.
      unfold mret, Prog_ret. do 2 f_equal. cbn. lia.
    - replace (S (length l) - Z.to_nat pos)%nat with 0%nat by lia. done. }
  rewrite size_zero, bool_decide_false by done. pose proof (argument_readable _ _ Ha) as Hr.
  destruct (Z.ltb_spec (Z.of_nat (length l)) (Z.of_nat (length xs))).
  { rewrite (first_at_cut _ _ 0); [done|lia|]. intros j Hj. apply occurs_short; [lia|done]. }
  destruct (Z.ltb_spec (Z.of_nat (length l) - Z.of_nat (length xs)) pos).
  { rewrite (first_at_cut _ _ 0); [done|lia|]. intros j Hj. apply occurs_short; [lia|done]. }
  assert (length xs <> 0%nat) by (by destruct xs).
  rewrite (prog_bind _ _ _ _ _ (string_data H)), Nat2Z.id. rewrite <- (Z2Nat.id pos) at 1 by done. rewrite string_find_loop_ok by (done || lia).
  do 3 f_equal. symmetry. apply first_at_cut; [lia|]. intros j Hj. apply occurs_short; [lia|done].
Qed.

Lemma rfind_loop_ok s q i : readable m q s -> (i + length s <= length l)%nat ->
  rfind_loop i (buffer_of this lay, 0%nat) q (Z.of_nat (length s)) m = Ok (m, index (last_at (occurs l s) i)).
Proof using H.
  intros Hr. induction i as [|i IH]; intros Hi; cbn [rfind_loop last_at]; rewrite occurs_branch by (done || lia).
  - by destruct (occurs l s 0).
  - destruct (occurs l s (S i)); [done|]. apply IH. lia.
Qed.

(** The last occurrence at or before [pos]. *)
Lemma rfind_cstr_ok s xs pos : argument (m := m) s xs -> 0 <= pos ->
  rfind_cstr this s pos m = Ok (m, match s with
    | Some _ => index (last_at (occurs l xs) (Z.to_nat (Z.min pos (Z.of_nat (length l)))))
    | None => npos end).
Proof using H.
  intros Ha Hp. unfold rfind_cstr. destruct s as [q|]; [|done]. rewrite (prog_bind _ _ _ _ _ (string_size H)), (prog_bind _ _ _ _ _ (argument_count _ _ Ha)).
  destruct (decide (xs = [])) as [->|Hx].
  { cbn [length]. change (Z.of_nat 0 =? 0) with true. cbv iota. set (i := Z.to_nat (Z.min pos (Z.of_nat (length l)))).
    assert (E : last_at (occurs l []) i = Some i) by (destruct i; unfold last_at, occurs; cbn [length take]; by rewrite bool_decide_true). rewrite E.
    unfold mret, Prog_ret, index, i. do 2 f_equal. destruct (Z.ltb_spec pos (Z.of_nat (length l))); lia. }
  rewrite size_zero, bool_decide_false by done. pose proof (argument_readable _ _ Ha) as Hr.
  destruct (Z.ltb_spec (Z.of_nat (length l)) (Z.of_nat (length xs))) as [Hlt|Hge].
  { unfold mret, Prog_ret. pose proof (last_at_spec (occurs l xs) (Z.to_nat (Z.min pos (Z.of_nat (length l))))) as Hs.
    destruct (last_at _ _) as [j|]; [|done]. destruct Hs as (Hj & E & _). rewrite occurs_short in E; [done|lia|done]. }
  cbv zeta. set (i := if (pos =? npos) || _ then _ else pos). pose proof (string_cap _ _ _ _ H) as [Hlen Hcap]. pose proof kMaxCapacity_eq as Ek.
  assert (Ei : i = Z.min pos (Z.of_nat (length l) - Z.of_nat (length xs))).
  { unfold i. change npos with (2 ^ 64 - 1). destruct (Z.eqb_spec pos (2 ^ 64 - 1)), (Z.ltb_spec (Z.of_nat (length l) - Z.of_nat (length xs)) pos); cbn [orb]; lia. }
  rewrite Ei. replace (Z.min pos (Z.of_nat (length l) - Z.of_nat (length xs))) with (Z.of_nat (Z.to_nat (Z.min pos (Z.of_nat (length l) - Z.of_nat (length xs))))) by lia.
  rewrite Nat2Z.id, (prog_bind _ _ _ _ _ (string_data H)), rfind_loop_ok by (done || lia). do 3 f_equal.
  symmetry. apply last_at_cut; [lia|]. intros j Hj. apply occurs_short; [lia|done].
Qed.

End Substring.

(** ** Predicates *)

Definition found (o : option nat) : bool := match o with Some _ => true | None => false end.

(** [l] ends in [s]. *)
Definition ends_in (l s : list Z) : bool := bool_decide (drop (length l - length s) l = s).

Section Predicates.

Context {m : memory} {this : nat} {lay : layout} {l : list Z} (H : string_at m this lay l).

Lemma index_found P n : (n <= S (length l))%nat -> negb (index (first_at P n 0) =? npos) = found (first_at P n 0).
Proof using H.
  intros Hn. pose proof (first_at_spec P n 0) as Hs. pose proof (string_cap _ _ _ _ H). pose proof kMaxCapacity_eq.
  destruct (first_at P n 0) as [j|]; cbn [index found]; [|done]. destruct Hs as (Hj & _). change npos with (2 ^ 64 - 1). by rewrite (proj2 (Z.eqb_neq (Z.of_nat j) (2 ^ 64 - 1))) by lia.
Qed.

Lemma contains_char_ok c : contains_char this c m = Ok (m, bool_decide (c ∈ l)).
Proof using H.
  unfold contains_char. rewrite (prog_bind _ _ _ _ _ (find_char_ok H c 0 ltac:(done))). change (Z.to_nat 0) with 0%nat. rewrite Nat.sub_0_r.
  unfold mret, Prog_ret. rewrite index_found by lia. do 2 f_equal. pose proof (first_at_spec (char_test l (Z.eqb c)) (length l) 0) as Hs.
  destruct (first_at _ _ _) as [j|]; cbn [found]; symmetry.
  - apply bool_decide_true. destruct Hs as (_ & E & _). unfold char_test in E. destruct (l !! j) as [x|] eqn:Ex; [|done]. apply Z.eqb_eq in E as ->. by eapply list_elem_of_lookup_2.
  - apply bool_decide_false. intros Hin. apply list_elem_of_lookup_1 in Hin as [i Ei]. specialize (Hs i). unfold char_test in Hs. rewrite Ei, Z.eqb_refl in Hs.
    pose proof (lookup_lt_Some _ _ _ Ei). specialize (Hs ltac:(lia)). done.
Qed.

Lemma contains_cstr_ok s xs : argument (m := m) s xs ->
  contains_cstr this s m = Ok (m, match s with Some _ => found (first_at (occurs l xs) (S (length l)) 0) | None => false end).
Proof using H.
  intros Ha. unfold contains_cstr. rewrite (prog_bind _ _ _ _ _ (find_cstr_ok H s xs 0 Ha ltac:(done))). destruct s as [q|]; [|done].
  change (Z.to_nat 0) with 0%nat. rewrite Nat.sub_0_r. unfold mret, Prog_ret. by rewrite index_found.
Qed.

Lemma starts_with_char_ok c : starts_with_char this c m = Ok (m, bool_decide (l !! 0%nat = Some c)).
Proof using H.
  unfold starts_with_char. rewrite (prog_bind _ _ _ _ _ (string_empty_ok H)). destruct l as [|x l'] eqn:El; [done|]. rewrite bool_decide_false by done.
  rewrite (prog_bind _ _ _ _ _ (string_data H)). rewrite (prog_bind _ _ m m x) by (by apply (string_byte H)). unfold mret, Prog_ret. do 2 f_equal. cbn.
  destruct (Z.eqb_spec x c) as [->|]; [by rewrite bool_decide_true|rewrite bool_decide_false by congruence; done].
Qed.

Lemma starts_with_part q xs : readable m q xs ->
  (if Z.of_nat (length l) <? Z.of_nat (length xs) then mret false
   else d ← get_data this; r ← MemCompare d q (length xs); mret (r =? 0)) m = Ok (m, occurs l xs 0).
Proof using H.
  intros Hr. destruct (Z.ltb_spec (Z.of_nat (length l)) (Z.of_nat (length xs))).
  - rewrite occurs_short; [done|lia|]. intros ->. cbn in *. lia.
  - rewrite (prog_bind _ _ _ _ _ (string_data H)). exact (occurs_here H xs q 0 Hr ltac:(lia)).
Qed.

Lemma starts_with_cstr_ok s xs : argument (m := m) s xs ->
  starts_with_cstr this s m = Ok (m, match s with Some _ => occurs l xs 0 | None => false end).
Proof using H.
  intros Ha. unfold starts_with_cstr. destruct s as [q|]; [|done]. rewrite (prog_bind _ _ _ _ _ (argument_count _ _ Ha)), (prog_bind _ _ _ _ _ (string_size H)), Nat2Z.id.
  by apply starts_with_part, argument_readable.
Qed.

Lemma byte_size_ok s lays ls : string_at m s lays ls -> byte_size s m = Ok (m, Z.of_nat (length ls)).
Proof using Type. intros Hs. unfold byte_size. rewrite (prog_bind _ _ _ _ _ (string_size Hs)). by rewrite Z.mul_1_r. Qed.

Lemma starts_with_string_ok s lays ls : string_at m s lays ls -> starts_with_string this s m = Ok (m, occurs l ls 0).
Proof using H.
  intros Hs. unfold starts_with_string. rewrite (prog_bind _ _ _ _ _ (string_size Hs)), (prog_bind _ _ _ _ _ (string_size H)).
  pose proof (starts_with_part _ ls (readable_text _ _ _ _ Hs)) as E. destruct (Z.of_nat (length l) <? Z.of_nat (length ls)); [exact E|].
  rewrite (prog_bind _ _ _ _ _ (string_data H)) in E. rewrite (prog_bind _ _ _ _ _ (string_data H)). rewrite (prog_bind _ _ _ _ _ (string_data Hs)), (prog_bind _ _ _ _ _ (byte_size_ok _ _ _ Hs)), Nat2Z.id. exact E.
Qed.

Lemma ends_with_char_ok c : ends_with_char this c m = Ok (m, bool_decide (l !! Nat.pred (length l) = Some c)).
Proof using H.
  unfold ends_with_char, back. rewrite (prog_bind _ _ _ _ _ (string_empty_ok H)). destruct (decide (l = [])) as [->|Hl]; [done|]. rewrite bool_decide_false by done.
  assert (Hlen : length l <> 0%nat) by (by destruct l).
  destruct (lookup_lt_is_Some_2 l (length l - 1) ltac:(lia)) as [x Ex]. assert (El : l !! Nat.pred (length l) = Some x) by (by rewrite <- Nat.sub_1_r).
  assert (Eb : (e ← empty this; _ ← bug_check (negb e); d ← get_data this; n ← get_size this; load_byte (advance_ptr d (n - 1))) m = Ok (m, x)).
  { rewrite (prog_bind _ _ _ _ _ (string_empty_ok H)), bool_decide_false by done. rewrite (prog_bind _ _ m m ()) by done.
    rewrite (prog_bind _ _ _ _ _ (string_data H)), (prog_bind _ _ _ _ _ (string_size H)).
    replace (Z.of_nat (length l) - 1) with (Z.of_nat (length l - 1)) by lia. by apply (string_byte_at H). }
  rewrite (prog_bind _ _ _ _ _ Eb), El. unfold mret, Prog_ret. do 2 f_equal.
  destruct (Z.eqb_spec x c) as [->|]; [by rewrite bool_decide_true|rewrite bool_decide_false by congruence; done].
Qed.

Lemma ends_with_part q xs : readable m q xs ->
  (if Z.of_nat (length l) <? Z.of_nat (length xs) then mret false
   else d ← get_data this; r ← MemCompare (advance_ptr d (Z.of_nat (length l) - Z.of_nat (length xs))) q (length xs); mret (r =? 0)) m = Ok (m, ends_in l xs).
Proof using H.
  intros Hr. unfold ends_in. destruct (Z.ltb_spec (Z.of_nat (length l)) (Z.of_nat (length xs))).
  - rewrite bool_decide_false; [done|]. intros E. apply (f_equal length) in E. rewrite length_drop in E. lia.
  - rewrite (prog_bind _ _ _ _ _ (string_data H)). replace (Z.of_nat (length l) - Z.of_nat (length xs)) with (Z.of_nat (length l - length xs)) by lia.
    rewrite (occurs_here H xs q _ Hr) by lia. unfold occurs. rewrite take_ge; [done|]. rewrite length_drop. lia.
Qed.

Lemma ends_with_cstr_ok s xs : argument (m := m) s xs ->
  ends_with_cstr this s m = Ok (m, match s with Some _ => ends_in l xs | None => false end).
Proof using H.
  intros Ha. unfold ends_with_cstr. destruct s as [q|]; [|done]. rewrite (prog_bind _ _ _ _ _ (argument_count _ _ Ha)), (prog_bind _ _ _ _ _ (string_size H)).
  pose proof (ends_with_part q xs (argument_readable _ _ Ha)) as E. destruct (Z.of_nat (length l) <? Z.of_nat (length xs)); [exact E|].
  rewrite (prog_bind _ _ _ _ _ (string_data H)) in E. rewrite (prog_bind _ _ _ _ _ (string_data H)). rewrite (prog_bind _ _ _ _ _ (string_size H)), Nat2Z.id. exact E.
Qed.

Lemma ends_with_string_ok s lays ls : string_at m s lays ls -> ends_with_string this s m = Ok (m, ends_in l ls).
Proof using H.
  intros Hs. unfold ends_with_string. rewrite (prog_bind _ _ _ _ _ (string_size Hs)), (prog_bind _ _ _ _ _ (string_size H)).
  pose proof (ends_with_part _ ls (readable_text _ _ _ _ Hs)) as E. destruct (Z.of_nat (length l) <? Z.of_nat (length ls)); [exact E|].
  rewrite (prog_bind _ _ _ _ _ (string_data H)) in E. rewrite (prog_bind _ _ _ _ _ (string_data H)).
  rewrite (prog_bind _ _ _ _ _ (string_size H)), (prog_bind _ _ _ _ _ (string_size Hs)), (prog_bind _ _ _ _ _ (string_data Hs)), (prog_bind _ _ _ _ _ (byte_size_ok _ _ _ Hs)), Nat2Z.id. exact E.
Qed.

(** [find(const BasicBaseString&)] stops at the first null of the argument. *)
Lemma string_argument s lays ls : string_at m s lays ls -> argument (m := m) (Some (buffer_of s lays, 0%nat)) (until_zero (ls ++ [0])).
Proof using Type.
  intros Hs. pose proof (string_cap _ _ _ _ Hs) as [Hl Hc]. pose proof kMaxCapacity_eq as Ek. pose proof (until_zero_length (ls ++ [0])) as Hu. rewrite length_app in Hu. cbn [length] in Hu.
  split; [|change kNoLimit with (2 ^ 64 - 1); lia]. exists (ls ++ [0]). split; [|split; [done|]].
  - destruct (string_block _ _ _ _ Hs) as (d & junk & E & _). right. eexists d, _. split; [exact E|]. cbn [fst snd]. rewrite !length_app, length_fmap. cbn [length].
    split; [lia|]. rewrite drop_0. replace ((Byte <$> ls) ++ Byte 0 :: junk) with ((Byte <$> ls ++ [0]) ++ junk) by (by rewrite fmap_app, <- app_assoc).
    replace (length ls + 1)%nat with (length (Byte <$> ls ++ [0])) by (rewrite length_fmap, length_app; cbn; lia). by rewrite take_app_length.
  - rewrite length_app. cbn [length]. clear. induction ls as [|x ls IH]; cbn; [lia|]. destruct (x =? 0); cbn; lia.
Qed.

Lemma find_string_ok s lays ls pos : string_at m s lays ls -> 0 <= pos ->
  find_string this s pos m = Ok (m, index (first_at (occurs l (until_zero (ls ++ [0]))) (S (length l) - Z.to_nat pos) (Z.to_nat pos))).
Proof using H.
  intros Hs Hp. unfold find_string. rewrite (prog_bind _ _ _ _ _ (string_data Hs)). exact (find_cstr_ok H _ _ pos (string_argument _ _ _ Hs) Hp).
Qed.

Lemma rfind_string_ok s lays ls pos : string_at m s lays ls -> 0 <= pos ->
  rfind_string this s pos m = Ok (m, index (last_at (occurs l (until_zero (ls ++ [0]))) (Z.to_nat (Z.min pos (Z.of_nat (length l)))))).
Proof using H.
  intros Hs Hp. unfold rfind_string. rewrite (prog_bind _ _ _ _ _ (string_data Hs)). exact (rfind_cstr_ok H _ _ pos (string_argument _ _ _ Hs) Hp).
Qed.

Lemma contains_string_ok s lays ls : string_at m s lays ls ->
  contains_string this s m = Ok (m, found (first_at (occurs l (until_zero (ls ++ [0]))) (S (length l)) 0)).
Proof using H.
  intros Hs. unfold contains_string. rewrite (prog_bind _ _ _ _ _ (find_string_ok _ _ _ 0 Hs ltac:(done))). change (Z.to_nat 0) with 0%nat. rewrite Nat.sub_0_r.
  unfold mret, Prog_ret. by rewrite index_found.
Qed.

End Predicates.

(** ** char_algorithms.h: searches of a null-terminated array *)

(** The text at [p] and its terminator. *)
Definition terminated (m : memory) (p : ptr) (xs : list Z) : Prop := readable m p (xs ++ [0]) /\ (0 ∉ xs).

Lemma terminated_tail m p x xs : terminated m p (x :: xs) -> x <> 0 /\ load_byte p m = Ok (m, x) /\ terminated m (advance_ptr p 1) xs.
Proof.
  intros [Hr Hn]. split; [intros ->; apply Hn; by left|]. split; [|split; [by eapply readable_tail|by intros H; apply Hn; right]].
  pose proof (readable_byte m p (x :: xs ++ [0]) 0 x Hr eq_refl) as E. unfold advance_ptr in E. cbn in E. rewrite Nat.add_0_r in E. by destruct p.
Qed.

Lemma terminated_end m p : terminated m p [] -> load_byte p m = Ok (m, 0).
Proof.
  intros [Hr _]. pose proof (readable_byte m p [0] 0 0 Hr eq_refl) as E. unfold advance_ptr in E. cbn in E. rewrite Nat.add_0_r in E. by destruct p.
Qed.

Lemma terminated_block m p xs : terminated m p xs -> exists n, block_length p m = Ok (m, n) /\ (length xs < n)%nat.
Proof.
  intros [Hr _]. destruct (xs ++ [0]) as [|y ys] eqn:E; [by destruct xs|]. destruct (readable_length m p y ys Hr) as (n & En & Hn).
  exists n. split; [done|]. rewrite <- E, length_app in Hn. cbn in Hn. lia.
Qed.

Definition shifted (p : ptr) (o : option nat) : option ptr := (fun i : nat => (p.1, (p.2 + i)%nat)) <$> o.

Definition list_index (o : bool) (i : nat) : option nat := if o then Some i else None.

Lemma find_char_loop_ok m c xs : forall p fuel, terminated m p xs -> (length xs < fuel)%nat ->
  find_char_loop fuel p c m = Ok (m, shifted p (list_index (bool_decide (c ∈ xs ++ [0])) (position c (xs ++ [0])))).
Proof.
  induction xs as [|x xs IH]; intros p fuel Ht Hf; (destruct fuel as [|fuel]; [cbn in Hf; lia|]); cbn [find_char_loop app position].
  - rewrite (prog_bind _ _ _ _ _ (terminated_end _ _ Ht)). destruct (Z.eqb_spec 0 c) as [<-|Hc].
    + rewrite bool_decide_true by (by left). cbn. rewrite Nat.add_0_r. by destruct p.
    + rewrite bool_decide_false by set_solver. done.
  - destruct (terminated_tail _ _ _ _ Ht) as (Hx & El & Ht'). rewrite (prog_bind _ _ _ _ _ El). destruct (Z.eqb_spec x c) as [->|Hc].
    + rewrite bool_decide_true by (by left). cbn. rewrite Nat.add_0_r. by destruct p.
    + rewrite (proj2 (Z.eqb_neq x 0)) by done. cbn [length] in Hf. rewrite (IH _ fuel Ht') by lia.
      rewrite (bool_decide_ext (c ∈ x :: xs ++ [0]) (c ∈ xs ++ [0])) by set_solver. do 2 f_equal. destruct (bool_decide _); cbn; [|done]. do 2 f_equal. lia.
Qed.

(** [strchr]: the first occurrence, the terminator included. *)
Lemma FindChar_ok m p xs c : terminated m p xs ->
  FindChar p c m = Ok (m, shifted p (list_index (bool_decide (c ∈ xs ++ [0])) (position c (xs ++ [0])))).
Proof.
  intros Ht. unfold FindChar. destruct (terminated_block _ _ _ Ht) as (n & E & Hn). rewrite (prog_bind _ _ _ _ _ E). apply find_char_loop_ok; [done|lia].
Qed.

(** The last occurrence. *)
Fixpoint last_position (c : Z) (xs : list Z) : option nat :=
  match xs with
  | [] => None
  | x :: xs => match last_position c xs with Some i => Some (S i) | None => if x =? c then Some 0%nat else None end
  end.

Lemma find_last_loop_ok m c xs : forall p fuel o, terminated m p xs -> (length xs < fuel)%nat ->
  find_last_loop fuel p c o m = Ok (m, match last_position c (xs ++ [0]) with Some i => Some (p.1, (p.2 + i)%nat) | None => o end).
Proof.
  induction xs as [|x xs IH]; intros p fuel o Ht Hf; (destruct fuel as [|fuel]; [cbn in Hf; lia|]); cbn [find_last_loop app last_position].
  - rewrite (prog_bind _ _ _ _ _ (terminated_end _ _ Ht)). change (0 =? 0) with true. cbv iota zeta. unfold mret, Prog_ret. do 2 f_equal.
    destruct (0 =? c); [|done]. rewrite Nat.add_0_r. by destruct p.
  - destruct (terminated_tail _ _ _ _ Ht) as (Hx & El & Ht'). rewrite (prog_bind _ _ _ _ _ El). cbv zeta. rewrite (proj2 (Z.eqb_neq x 0)) by done.
    cbn [length] in Hf. rewrite (IH _ fuel _ Ht') by lia. do 2 f_equal. destruct (last_position c (xs ++ [0])) as [i|]; [cbn; do 2 f_equal; lia|].
    destruct (x =? c); [|done]. rewrite Nat.add_0_r. by destruct p.
Qed.

(** [strrchr]. *)
Lemma FindLastChar_ok m p xs c : terminated m p xs -> FindLastChar p c m = Ok (m, shifted p (last_position c (xs ++ [0]))).
Proof.
  intros Ht. unfold FindLastChar. destruct (terminated_block _ _ _ Ht) as (n & E & Hn). rewrite (prog_bind _ _ _ _ _ E), (find_last_loop_ok m c xs p (S n) None Ht) by lia. by destruct (last_position c _).
Qed.

(** The index of the first null of an array; 0 also stands for none. *)
Lemma FindNullTerminator_loop_ok m base zs : forall p, readable m p zs -> p.1 = base.1 ->
  FindNullTerminator_loop (length zs) base p m = Ok (m, if (length (until_zero zs) <? length zs)%nat then Z.of_nat (p.2 + length (until_zero zs)) - Z.of_nat base.2 else 0).
Proof.
  induction zs as [|z zs IH]; intros p Hr Hp; cbn [length FindNullTerminator_loop until_zero]; [done|].
  assert (El : load_byte p m = Ok (m, z)) by (pose proof (readable_byte m p (z :: zs) 0 z Hr eq_refl) as E; unfold advance_ptr in E; cbn in E; rewrite Nat.add_0_r in E; by destruct p).
  rewrite (prog_bind _ _ _ _ _ El). destruct (z =? 0); [cbn; by rewrite Nat.add_0_r|]. rewrite (IH (advance_ptr p 1) (readable_tail _ _ _ _ Hr) Hp).
  cbn [length]. do 2 f_equal. change (S (length (until_zero zs)) <? S (length zs))%nat with (length (until_zero zs) <? length zs)%nat.
  unfold advance_ptr. cbn [snd]. change (Z.to_nat 1) with 1%nat. destruct (_ <? _)%nat; [|done]. do 2 f_equal. lia.
Qed.

Lemma FindNullTerminator_ok m p zs : readable m p zs ->
  FindNullTerminator p (Z.of_nat (length zs)) m = Ok (m, if (length (until_zero zs) <? length zs)%nat then Z.of_nat (length (until_zero zs)) else 0).
Proof.
  intros Hr. unfold FindNullTerminator. rewrite Nat2Z.id, (FindNullTerminator_loop_ok m p zs p Hr eq_refl). do 2 f_equal. destruct (_ <? _)%nat; lia.
Qed.

(** C18. [find] of a null-terminated text gives the least position at or after [pos] where the argument
    occurs, [rfind] the greatest one at or before [pos], and both [npos] when there is
    none; the empty argument occurs everywhere up to the end. *)
Theorem BaseString_find_first_last m this lay l p xs pos : string_at m this lay l -> cstring_at m p xs -> Z.of_nat (length xs) < kNoLimit ->
  let here i := (i <= length l)%nat /\ take (length xs) (drop i l) = xs in
  (exists r, find_cstr this (Some p) (Z.of_nat pos) m = Ok (m, r) /\
     ((r = npos /\ forall i, (pos <= i)%nat -> ~ here i) \/
      exists i, r = Z.of_nat i /\ (pos <= i)%nat /\ here i /\ forall j, (pos <= j < i)%nat -> ~ here j)) /\
  (exists r, rfind_cstr this (Some p) (Z.of_nat pos) m = Ok (m, r) /\
     ((r = npos /\ forall i, (i <= pos)%nat -> ~ here i) \/
      exists i, r = Z.of_nat i /\ (i <= pos)%nat /\ here i /\ forall j, (i < j <= pos)%nat -> ~ here j)).
Proof.
  intros H Hc Hf here. assert (Ha : argument (m := m) (Some p) xs) by done.
  assert (Hocc : forall i, occurs l xs i = true <-> take (length xs) (drop i l) = xs) by (intros i; apply bool_decide_eq_true).
  assert (Hno : forall i, occurs l xs i = false -> ~ here i) by (intros i E [_ E2]; apply Hocc in E2; congruence).
  split.
  - eexists. split; [apply (find_cstr_ok H (Some p) xs (Z.of_nat pos) Ha); lia|].
    rewrite Nat2Z.id. pose proof (first_at_spec (occurs l xs) (S (length l) - pos) pos) as Hs. destruct (first_at _ _ _) as [i|]; cbn [index].
    + destruct Hs as (Hi & Ei & Hlt). right. exists i. split; [done|]. split; [lia|]. split; [split; [lia|by apply Hocc]|]. intros j Hj. by apply Hno, Hlt.
    + left. split; [done|]. intros i Hi [Hl E]. apply (Hno i); [apply Hs; lia|by split].
  - eexists. split; [apply (rfind_cstr_ok H (Some p) xs (Z.of_nat pos) Ha); lia|].
    pose proof (last_at_spec (occurs l xs) (Z.to_nat (Z.min (Z.of_nat pos) (Z.of_nat (length l))))) as Hs. destruct (last_at _ _) as [i|]; cbn [index].
    + destruct Hs as (Hi & Ei & Hlt). right. exists i. split; [done|]. split; [lia|]. split; [split; [lia|by apply Hocc]|].
      intros j Hj [Hl E]. apply (Hno j); [apply Hlt; lia|by split].
    + left. split; [done|]. intros i Hi [Hl E]. apply (Hno i); [apply Hs; lia|by split].
Qed.

(** "abcab" inline, and "ab". *)
Definition search_memory : memory :=
  mkMemory {[0%nat := (false, (Byte <$> [97; 98; 99; 97; 98; 0] ++ replicate 17 0) ++ [Byte 5]); 1%nat := (false, Byte <$> [97; 98; 0])]} 2.

Lemma BaseString_find_first_last_witness :
  let here i := (i <= 5)%nat /\ take 2 (drop i [97; 98; 99; 97; 98]) = [97; 98] in
  (exists r, find_cstr 0 (Some (1%nat, 0%nat)) (Z.of_nat 1) search_memory = Ok (search_memory, r) /\
     ((r = npos /\ forall i, (1 <= i)%nat -> ~ here i) \/
      exists i, r = Z.of_nat i /\ (1 <= i)%nat /\ here i /\ forall j, (1 <= j < i)%nat -> ~ here j)) /\
  (exists r, rfind_cstr 0 (Some (1%nat, 0%nat)) (Z.of_nat 1) search_memory = Ok (search_memory, r) /\
     ((r = npos /\ forall i, (i <= 1)%nat -> ~ here i) \/
      exists i, r = Z.of_nat i /\ (i <= 1)%nat /\ here i /\ forall j, (i < j <= 1)%nat -> ~ here j)).
Proof.
  apply (BaseString_find_first_last search_memory 0 Small [97; 98; 99; 97; 98] (1%nat, 0%nat) [97; 98] 1).
  - exists (Byte <$> [97; 98; 99; 97; 98; 0] ++ replicate 17 0). split; [|by eexists]. split; done.
  - exists [97; 98; 0]. split; [|split; [done|cbn; lia]]. right. exists false, (Byte <$> [97; 98; 0]). split; [reflexivity|]. split; [cbn; lia|done].
  - reflexivity.
Defined.
