(* ===== verification/BaseStringSpec.v ===== *)
(** * The contract of base::String: programs over several strings refine programs over texts

    A program constructs, edits, moves, reads and destroys named strings; the arguments
    may point into character arrays of the caller or into the strings themselves, the
    edited one included.  [run_op] executes the definitions of BaseString.v and
    BaseStringSearch.v on the byte memory; [spec_op] says on (text, capacity) pairs what
    is meant, with [None] where the caller breaks a precondition.  The relation says that
    every block of the memory is an array of the caller, a string object or the buffer of
    one: nothing leaks. *)

From stdpp Require Import gmap.
From S2P Require Import Prelude Memory Refine CMemory BaseString BaseStringRep BaseStringModify BaseStringConstruct BaseStringSearch.

Set Default Proof Using "Type".

(** A pointer argument: null, into an array of the caller, or [s.data() + off]. *)
Inductive source := Null | Lit (a off : nat) | Own (s off : nat).

#[export] Instance source_eq_dec : EqDecision source.
Proof. solve_decision. Defined.

(** Modifiers of one string. *)
Inductive edit :=
  | EClear
  | EAssignChars (p : source) (n : nat)
  | EAssignCStr (p : source)
  | EAssignString (t : nat)
  | ECopyAssign (t : nat)
  | EReserve (n : nat)
  | EResize (n : nat)
  | EShrinkToFit
  | EAppendChars (p : source) (n : nat)
  | EAppendCStr (p : source)
  | EAppendString (t : nat)
  | EAppendFill (n : nat) (c : Z)
  | EPushBack (c : Z)
  | EPopBack
  | EInsert (pos n : nat) (c : Z)
  | EErase (pos : nat) (count : Z)
  | ERemoveSuffix (n : nat)
  | ESetAt (pos : nat) (c : Z).

(** Constructors other than the move. *)
Inductive make :=
  | MEmpty
  | MCStr (p : source)
  | MChars (p : source) (n : nat)
  | MFill (n : nat) (c : Z)
  | MArray (a : nat)
  | MCopy (t : nat)
  | MSubstr (t pos : nat) (count : Z)
  | MConcat (t u : nat)
  | MConcatCStr (t : nat) (p : source)
  | MCStrConcat (p : source) (t : nat).

(** Observers of a string. *)
Inductive query :=
  | QSize
  | QCapacity
  | QIsInline
  | QEmpty
  | QAt (pos : nat)
  | QFront
  | QBack
  | QCStr
  | QCompare (t : nat)
  | QCompareCStr (p : source)
  | QCompareChars (p : source) (n : nat)
  | QComparePart (pos : nat) (len : Z) (t : nat)
  | QEqual (t : nat)
  | QEqualCStr (p : source)
  | QLess (t : nat)
  | QFindChar (c : Z) (pos : nat)
  | QFind (p : source) (pos : nat)
  | QFindString (t pos : nat)
  | QFindFirstOf (p : source) (pos : nat)
  | QFindFirstNotOf (p : source) (pos : nat)
  | QFindLastNotOf (p : source) (pos : nat)
  | QFindLastOfChar (c : Z) (pos : nat)
  | QFindLastOf (p : source) (pos n : nat)
  | QRFind (p : source) (pos : nat)
  | QContains (p : source)
  | QStartsWith (t : nat)
  | QEndsWith (t : nat).

Inductive value := Num (z : Z) | Bool (b : bool) | Chars (xs : list Z).

Inductive op :=
  | Make (s : nat) (k : make)
  | MoveConstruct (s t : nat)
  | Edit (s : nat) (e : edit)
  | MoveAssign (s t : nat)
  | Destroy (s : nat)
  | Ask (s : nat) (q : query).

Section Programs.

Context (allocates : Z -> bool).
(** The character arrays of the caller. *)
Context (lits : gmap nat (list Z)).

Abbreviation env := (gmap nat nat).
Abbreviation texts := (gmap nat (list Z * Z)).

(** ** Execution *)

Definition address (E : env) (s : nat) : Prog nat := lift (match E !! s with Some a => Ok a | None => Undef end).

Definition pointer (E : env) (p : source) : Prog (option ptr) :=
  match p with
  | Null => mret None
  | Lit a off => mret (Some (a, off))
  | Own s off => a ← address E s; d ← get_data a; mret (Some (advance_ptr d (Z.of_nat off)))
  end.

(** A pointer the operation may not be given null for. *)
Definition some_pointer (E : env) (p : source) : Prog ptr := q ← pointer E p; lift (match q with Some q => Ok q | None => Undef end).

Definition run_edit (E : env) (this : nat) (e : edit) : Prog () :=
  match e with
  | EClear => clear this
  | EAssignChars p n => q ← pointer E p; assign allocates this q (Z.of_nat n)
  | EAssignCStr p => q ← some_pointer E p; assign_cstr allocates this q
  | EAssignString t => other ← address E t; assign_string allocates this other
  | ECopyAssign t => other ← address E t; copy_assign allocates this other
  | EReserve n => reserve allocates this (Z.of_nat n)
  | EResize n => resize allocates this (Z.of_nat n)
  | EShrinkToFit => shrink_to_fit allocates this
  | EAppendChars p n => q ← some_pointer E p; append allocates this q (Z.of_nat n)
  | EAppendCStr p => q ← some_pointer E p; append_cstr allocates this q
  | EAppendString t => other ← address E t; append_string allocates this other
  | EAppendFill n c => append_fill allocates this (Z.of_nat n) c
  | EPushBack c => push_back allocates this c
  | EPopBack => pop_back this
  | EInsert pos n c => insert allocates this (Z.of_nat pos) (Z.of_nat n) c
  | EErase pos count => erase this (Z.of_nat pos) count
  | ERemoveSuffix n => remove_suffix this (Z.of_nat n)
  | ESetAt pos c => set_at this (Z.of_nat pos) c
  end.

Definition run_make (E : env) (this : nat) (k : make) : Prog () :=
  match k with
  | MEmpty => construct_empty this
  | MCStr p => q ← pointer E p; construct_cstr allocates this q
  | MChars p n => q ← pointer E p; construct_chars allocates this q (Z.of_nat n)
  | MFill n c => construct_fill allocates this (Z.of_nat n) c
  | MArray a => n ← block_length (a, 0%nat); construct_array allocates this (a, 0%nat) (Z.of_nat n)
  | MCopy t => other ← address E t; copy_construct allocates this other
  | MSubstr t pos count => other ← address E t; substr allocates this other (Z.of_nat pos) count
  | MConcat t u => lhs ← address E t; rhs ← address E u; concat allocates this lhs rhs
  | MConcatCStr t p => lhs ← address E t; q ← some_pointer E p; concat_cstr allocates this lhs q
  | MCStrConcat p t => q ← some_pointer E p; rhs ← address E t; cstr_concat allocates this q rhs
  end.

Definition ask_num (p : Prog Z) : Prog value := z ← p; mret (Num z).
Definition ask_bool (p : Prog bool) : Prog value := b ← p; mret (Bool b).

Definition run_query (E : env) (this : nat) (q : query) : Prog value :=
  match q with
  | QSize => ask_num (get_size this)
  | QCapacity => ask_num (get_capacity this)
  | QIsInline => ask_bool (is_inline this)
  | QEmpty => ask_bool (empty this)
  | QAt pos => ask_num (at_ this (Z.of_nat pos))
  | QFront => ask_num (front this)
  | QBack => ask_num (back this)
  | QCStr => d ← get_data this; n ← get_size this; xs ← load_numbers d (S (Z.to_nat n)); mret (Chars xs)
  | QCompare t => other ← address E t; ask_num (compare this other)
  | QCompareCStr p => r ← some_pointer E p; ask_num (compare_cstr this r)
  | QCompareChars p n => r ← some_pointer E p; ask_num (compare_chars this r (Z.of_nat n))
  | QComparePart pos len t => other ← address E t; ask_num (compare_part this (Z.of_nat pos) len other)
  | QEqual t => other ← address E t; ask_bool (equal_strings this other)
  | QEqualCStr p => r ← some_pointer E p; ask_bool (equal_cstr this (Some r))
  | QLess t => other ← address E t; ask_bool (less this other)
  | QFindChar c pos => ask_num (find_char this c (Z.of_nat pos))
  | QFind p pos => r ← pointer E p; ask_num (find_cstr this r (Z.of_nat pos))
  | QFindString t pos => other ← address E t; ask_num (find_string this other (Z.of_nat pos))
  | QFindFirstOf p pos => r ← pointer E p; ask_num (find_first_of this r (Z.of_nat pos))
  | QFindFirstNotOf p pos => r ← pointer E p; ask_num (find_first_not_of this r (Z.of_nat pos))
  | QFindLastNotOf p pos => r ← pointer E p; ask_num (find_last_not_of this r (Z.of_nat pos))
  | QFindLastOfChar c pos => ask_num (find_last_of_char this c (Z.of_nat pos))
  | QFindLastOf p pos n => r ← some_pointer E p; ask_num (find_last_of this (Some r) (Z.of_nat pos) (Z.of_nat n))
  | QRFind p pos => r ← pointer E p; ask_num (rfind_cstr this r (Z.of_nat pos))
  | QContains p => r ← pointer E p; ask_bool (contains_cstr this r)
  | QStartsWith t => other ← address E t; ask_bool (starts_with_string this other)
  | QEndsWith t => other ← address E t; ask_bool (ends_with_string this other)
  end.

Abbreviation state := (memory * env)%type.

Definition on_memory {A} (p : Prog A) (f : A -> env * option value) (s : state) : res (state * option value) :=
  '(m, a) ← p s.1; Ok ((m, (f a).1), (f a).2).

Definition run_op (o : op) (st : state) : res (state * option value) :=
  let E := st.2 in
  match o with
  | Make s k => on_memory (this ← begin_object 24; _ ← run_make E this k; mret this) (fun this => (<[s := this]> E, None)) st
  | MoveConstruct s t => on_memory (other ← address E t; this ← begin_object 24; _ ← move_construct this other; mret this) (fun this => (<[s := this]> E, None)) st
  | Edit s e => on_memory (this ← address E s; run_edit E this e) (fun _ => (E, None)) st
  | MoveAssign s t => on_memory (this ← address E s; other ← address E t; move_assign this other) (fun _ => (E, None)) st
  | Destroy s => on_memory (this ← address E s; _ ← destruct_string this; end_object this) (fun _ => (delete s E, None)) st
  | Ask s q => on_memory (this ← address E s; run_query E this q) (fun v => (E, Some v)) st
  end.

(** ** Meaning *)

Definition guard_ {A} (b : bool) (x : option A) : option A := if b then x else None.

(** What can be read from a pointer argument on. *)
Definition chars_at (A : texts) (p : source) : option (list Z) :=
  match p with
  | Null => None
  | Lit a off => zs ← lits !! a; guard_ (off <=? length zs)%nat (Some (drop off zs))
  | Own s off => '(l, _) ← A !! s; guard_ (off <=? length l)%nat (Some (drop off (l ++ [0])))
  end.

(** The null-terminated text there. *)
Definition cstr_at (A : texts) (p : source) : option (list Z) :=
  zs ← chars_at A p;
  let xs := until_zero zs in
  guard_ ((length xs <? length zs)%nat && (Z.of_nat (length xs) <? kNoLimit)) (Some xs).

Definition some_chars (A : texts) (p : source) (n : nat) : option (list Z) :=
  zs ← chars_at A p; guard_ ((n <=? length zs)%nat && (Z.of_nat n <? 2 ^ 64)) (Some (take n zs)).

(** The argument of an append may not include the terminator of the string appended to. *)
Definition not_terminator (s : nat) (l : list Z) (p : source) (n : nat) : bool :=
  match p with Own t off => negb (t =? s)%nat || (off + n <=? length l)%nat | _ => true end.

Definition spec_edit (A : texts) (s : nat) (e : edit) (l : list Z) (cap : Z) : option (list Z * Z) :=
  let len := Z.of_nat (length l) in
  match e with
  | EClear => Some ([], 22)
  | EAssignChars Null _ => Some ([], 22)
  | EAssignChars p n => xs ← some_chars A p n; Some (xs, assigned cap n)
  | EAssignCStr p => xs ← cstr_at A p; Some (xs, assigned cap (length xs))
  | EAssignString t => '(xs, _) ← A !! t; Some (xs, assigned cap (length xs))
  | ECopyAssign t => '(xs, _) ← A !! t; if (t =? s)%nat then Some (l, cap) else Some (xs, assigned cap (length xs))
  | EReserve n => Some (l, Z.max cap (Z.of_nat n))
  | EResize n => guard_ (Z.of_nat n <? 2 ^ 64) (Some (take n l ++ replicate (n - length l) 0, grown cap (Z.of_nat n)))
  | EShrinkToFit => Some (l, Z.max 22 len)
  | EAppendChars p n => xs ← some_chars A p n; guard_ (not_terminator s l p n) (Some (l ++ xs, grown cap (len + Z.of_nat n)))
  | EAppendCStr p => xs ← cstr_at A p; Some (l ++ xs, grown cap (len + Z.of_nat (length xs)))
  | EAppendString t => '(xs, _) ← A !! t; Some (l ++ xs, grown cap (len + Z.of_nat (length xs)))
  | EAppendFill n c => guard_ (Z.of_nat n <? 2 ^ 64) (Some (l ++ replicate n c, grown cap (len + Z.of_nat n)))
  | EPushBack c => Some (l ++ [c], grown cap (len + 1))
  | EPopBack => guard_ (negb (length l =? 0)%nat) (Some (take (length l - 1) l, cap))
  | EInsert pos n c =>
      guard_ ((pos <=? length l)%nat && (Z.of_nat n <? 2 ^ 64)) (Some (take pos l ++ replicate n c ++ drop pos l, grown cap (len + Z.of_nat n)))
  | EErase pos count =>
      guard_ ((pos <=? length l)%nat && (0 <=? count)) (Some (take pos l ++ drop (pos + Z.to_nat (Z.min count (len - Z.of_nat pos))) l, cap))
  | ERemoveSuffix n => guard_ (n <=? length l)%nat (Some (take (length l - n) l, cap))
  | ESetAt pos c => guard_ (pos <? length l)%nat (Some (<[pos := c]> l, cap))
  end.

Definition spec_make (A : texts) (k : make) : option (list Z * Z) :=
  match k with
  | MEmpty => Some ([], 22)
  | MCStr Null => Some ([], 22)
  | MCStr p => xs ← cstr_at A p; Some (xs, fitted (Z.of_nat (length xs)))
  | MChars Null _ => Some ([], 22)
  | MChars p n => xs ← some_chars A p n; Some (xs, fitted (Z.of_nat n))
  | MFill n c => Some (replicate n c, grown 22 (Z.of_nat n))
  | MArray a => zs ← lits !! a; guard_ (negb (length zs =? 0)%nat) (let xs := until_zero (take (length zs - 1) zs) in Some (xs, fitted (Z.of_nat (length xs))))
  | MCopy t => '(xs, _) ← A !! t; Some (xs, fitted (Z.of_nat (length xs)))
  | MSubstr t pos count =>
      '(l, _) ← A !! t;
      let xs := take (Z.to_nat (Z.min count (Z.of_nat (length l) - Z.of_nat pos))) (drop pos l) in
      guard_ ((pos <=? length l)%nat && (0 <=? count)) (Some (xs, fitted (Z.of_nat (length xs))))
  | MConcat t u => '(l1, _) ← A !! t; '(l2, _) ← A !! u; Some (l1 ++ l2, fitted (Z.of_nat (length l1 + length l2)))
  | MConcatCStr t p =>
      '(l1, _) ← A !! t; xs ← cstr_at A p; Some (l1 ++ xs, grown (fitted (Z.of_nat (length l1))) (Z.of_nat (length l1) + Z.of_nat (length xs)))
  | MCStrConcat p t =>
      xs ← cstr_at A p; '(l2, _) ← A !! t; Some (xs ++ l2, grown (fitted (Z.of_nat (length xs))) (Z.of_nat (length xs) + Z.of_nat (length l2)))
  end.

Definition num (z : Z) : option value := Some (Num z).
Definition flag (b : bool) : option value := Some (Bool b).

(** The answer of a search with a pointer that may be null. *)
Definition search_arg (A : texts) (p : source) (k : list Z -> Z) : option value :=
  match p with Null => num npos | _ => xs ← cstr_at A p; num (k xs) end.

Definition spec_query (A : texts) (q : query) (l : list Z) (cap : Z) : option value :=
  match q with
  | QSize => num (Z.of_nat (length l))
  | QCapacity => num cap
  | QIsInline => flag (cap =? 22)
  | QEmpty => flag (bool_decide (l = []))
  | QAt pos => x ← l !! pos; num x
  | QFront => x ← l !! 0%nat; num x
  | QBack => guard_ (negb (length l =? 0)%nat) (x ← l !! (length l - 1)%nat; num x)
  | QCStr => Some (Chars (l ++ [0]))
  | QCompare t => '(xs, _) ← A !! t; num (lex_compare l xs)
  | QCompareCStr p => xs ← cstr_at A p; num (lex_compare l xs)
  | QCompareChars p n => xs ← some_chars A p n; num (lex_compare l xs)
  | QComparePart pos len t => '(xs, _) ← A !! t; guard_ ((pos <=? length l)%nat && (0 <=? len)) (num (lex_compare (take (Z.to_nat len) (drop pos l)) xs))
  | QEqual t => '(xs, _) ← A !! t; flag (bool_decide (l = xs))
  | QEqualCStr p => xs ← cstr_at A p; flag (bool_decide (l = xs))
  | QLess t => '(xs, _) ← A !! t; flag (lex_compare l xs <? 0)
  | QFindChar c pos => num (index (first_at (char_test l (Z.eqb c)) (length l - pos) pos))
  | QFind p pos => search_arg A p (fun xs => index (first_at (occurs l xs) (S (length l) - pos) pos))
  | QFindString t pos => '(xs, _) ← A !! t; num (index (first_at (occurs l (until_zero (xs ++ [0]))) (S (length l) - pos) pos))
  | QFindFirstOf p pos => search_arg A p (fun xs => index (first_at (char_test l (fun c => bool_decide (c ∈ xs))) (length l - pos) pos))
  | QFindFirstNotOf p pos => search_arg A p (fun xs => index (first_at (char_test l (fun c => bool_decide (c ∉ xs))) (length l - pos) pos))
  | QFindLastNotOf p pos => search_arg A p (fun xs => index (last_before (char_test l (fun c => bool_decide (c ∉ xs))) (Z.of_nat pos) (length l)))
  | QFindLastOfChar c pos => num (index (last_before (char_test l (fun x => x =? c)) (Z.of_nat pos) (length l)))
  | QFindLastOf p pos n => xs ← some_chars A p n; num (index (last_before (char_test l (fun c => bool_decide (c ∈ xs))) (Z.of_nat pos) (length l)))
  | QRFind p pos => search_arg A p (fun xs => index (last_at (occurs l xs) (Z.to_nat (Z.min (Z.of_nat pos) (Z.of_nat (length l))))))
  | QContains Null => flag false
  | QContains p => xs ← cstr_at A p; flag (found (first_at (occurs l xs) (S (length l)) 0))
  | QStartsWith t => '(xs, _) ← A !! t; flag (occurs l xs 0)
  | QEndsWith t => '(xs, _) ← A !! t; flag (ends_in l xs)
  end.

Definition spec_op (o : op) (A : texts) : option (texts * option value) :=
  match o with
  | Make s k => match A !! s with Some _ => None | None => b ← spec_make A k; Some (<[s := b]> A, None) end
  | MoveConstruct s t => match A !! s with Some _ => None | None => b ← A !! t; Some (<[s := b]> (<[t := ([], 22)]> A), None) end
  | Edit s e => '(l, cap) ← A !! s; b ← spec_edit A s e l cap; Some (<[s := b]> A, None)
  | MoveAssign s t =>
      _ ← A !! s; b ← A !! t; if (s =? t)%nat then Some (A, None) else Some (<[s := b]> (<[t := ([], 22)]> A), None)
  | Destroy s => _ ← A !! s; Some (delete s A, None)
  | Ask s q => '(l, cap) ← A !! s; v ← spec_query A q l cap; Some (A, Some v)
  end.

(** ** Resources *)

(** A buffer of [n] characters, where one is needed. *)
Definition need_above (cap n : Z) : Prop := cap < n -> grants allocates n.
Definition need_growth (cap n : Z) : Prop := cap < n -> grants allocates (grow_capacity n).

Definition need_edit (A : texts) (s : nat) (e : edit) (l : list Z) (cap : Z) : Prop :=
  let len := Z.of_nat (length l) in
  match e with
  | EAssignChars Null _ => True
  | EAssignChars _ n => need_above cap (Z.of_nat n)
  | EAssignCStr p => match cstr_at A p with Some xs => need_above cap (Z.of_nat (length xs)) | None => True end
  | EAssignString t => match A !! t with Some (xs, _) => need_above cap (Z.of_nat (length xs)) | None => True end
  | ECopyAssign t => match A !! t with Some (xs, _) => (t <> s -> need_above cap (Z.of_nat (length xs))) | None => True end
  | EReserve n => need_above cap (Z.of_nat n)
  | EResize n => need_growth cap (Z.of_nat n)
  | EShrinkToFit => 22 < len < cap -> grants allocates len
  | EAppendChars _ n => need_growth cap (len + Z.of_nat n)
  | EAppendCStr p => match cstr_at A p with Some xs => need_growth cap (len + Z.of_nat (length xs)) | None => True end
  | EAppendString t => match A !! t with Some (xs, _) => need_growth cap (len + Z.of_nat (length xs)) | None => True end
  | EAppendFill n _ => need_growth cap (len + Z.of_nat n)
  | EPushBack _ => need_growth cap (len + 1)
  | EInsert _ n _ => need_growth cap (len + Z.of_nat n)
  | _ => True
  end.

Definition need_make (A : texts) (k : make) : Prop :=
  match k with
  | MChars p n => match p with Null => True | _ => need_above 22 (Z.of_nat n) end
  | MFill n _ => need_growth 22 (Z.of_nat n)
  | MConcatCStr t p =>
      match A !! t, cstr_at A p with
      | Some (l1, _), Some xs => need_above 22 (Z.of_nat (length l1)) /\ need_growth (fitted (Z.of_nat (length l1))) (Z.of_nat (length l1) + Z.of_nat (length xs))
      | _, _ => True
      end
  | MCStrConcat p t =>
      match cstr_at A p, A !! t with
      | Some xs, Some (l2, _) => need_above 22 (Z.of_nat (length xs)) /\ need_growth (fitted (Z.of_nat (length xs))) (Z.of_nat (length xs) + Z.of_nat (length l2))
      | _, _ => True
      end
  | MEmpty => True
  | _ => match spec_make A k with Some (xs, _) => need_above 22 (Z.of_nat (length xs)) | None => True end
  end.

Definition need_op (o : op) (A : texts) : Prop :=
  match o with
  | Make s k => need_make A k
  | Edit s e => match A !! s with Some (l, cap) => need_edit A s e l cap | None => True end
  | _ => True
  end.

End Programs.
