(* ===== verification/BaseStringRefine.v ===== *)
(** * base::String implements its contract (strings/base_string.h)

    The relation between a memory and the texts of its strings, how constructions, edits,
    moves and destructions keep it, and the theorem on whole programs. *)

From stdpp Require Import gmap.
From S2P Require Import Prelude Memory Refine CMemory BaseString BaseStringRep BaseStringModify BaseStringConstruct BaseStringSearch BaseStringSpec.

Set Default Proof Using "Type".

Section World.

Context (lits : gmap nat (list Z)).

Abbreviation env := (gmap nat nat).
Abbreviation texts := (gmap nat (list Z * Z)).

(** An object an operation is busy with: it and its buffer belong to no named string. *)
Abbreviation focus := (option (nat * layout)).

Record world (m : memory) (E : env) (A : texts) (L : nat -> layout) (f : focus) : Prop := {
  w_wf : mem_wf m;
  w_names s : is_Some (E !! s) <-> is_Some (A !! s);
  w_string s a l cap : E !! s = Some a -> A !! s = Some (l, cap) -> string_at m a (L s) l /\ cap_of (L s) = cap;
  w_apart s t a b : s <> t -> E !! s = Some a -> E !! t = Some b -> apart a (L s) b (L t);
  w_literal a zs : lits !! a = Some zs -> blocks m !! a = Some (false, Byte <$> zs);
  w_constant s a : E !! s = Some a -> lits !! a = None;
  w_focus a lay : f = Some (a, lay) ->
    is_Some (blocks m !! a) /\ lits !! a = None /\ data_of lay <> Some a /\ (forall d, data_of lay = Some d -> exists c, blocks m !! d = Some (true, c)) /\
    forall t b, E !! t = Some b -> apart a lay b (L t);
  w_all b : is_Some (blocks m !! b) -> is_Some (lits !! b) \/ (exists s a, E !! s = Some a /\ (b = a \/ data_of (L s) = Some b)) \/
    (exists a lay, f = Some (a, lay) /\ (b = a \/ data_of lay = Some b));
}.

Lemma apart_sym a lay b lay2 : apart a lay b lay2 -> apart b lay2 a lay.
Proof. intros (H1 & H2 & H3 & H4). split; [done|]. split; [done|]. split; [done|]. intros d Hd Hd2. by apply (H4 d). Qed.

Lemma world_text m E A L f s l cap : world m E A L f -> A !! s = Some (l, cap) -> exists a, E !! s = Some a /\ string_at m a (L s) l /\ cap_of (L s) = cap.
Proof.
  intros W Hs. destruct (proj2 (w_names _ _ _ _ _ W s) ltac:(eauto)) as [a Ea]. exists a. split; [done|]. by apply (w_string _ _ _ _ _ W).
Qed.

Lemma world_address m E A L f s a : world m E A L f -> E !! s = Some a -> exists l cap, A !! s = Some (l, cap).
Proof. intros W Es. destruct (proj1 (w_names _ _ _ _ _ W s) ltac:(eauto)) as [[l cap] HA]. eauto. Qed.

Definition upd (L : nat -> layout) (s : nat) (lay : layout) : nat -> layout := fun t => if decide (t = s) then lay else L t.

Lemma upd_same L s lay : upd L s lay s = lay.
Proof. unfold upd. by rewrite decide_True. Qed.

Lemma upd_other L s lay t : t <> s -> upd L s lay t = L t.
Proof. intros H. unfold upd. by rewrite decide_False. Qed.

(** The buffer of a string is a dynamic block. *)
Lemma string_buffer m a lay l d : string_at m a lay l -> data_of lay = Some d -> exists c, blocks m !! d = Some (true, c).
Proof. intros (buf & [_ E2 _ _ _] & _) Hd. destruct lay as [|d' c]; [done|]. injection Hd as ->. eauto. Qed.

(** ** Taking a string out and putting it back *)

Lemma take_out m E A L s a l cap : world m E A L None -> E !! s = Some a -> A !! s = Some (l, cap) ->
  world m (delete s E) (delete s A) L (Some (a, L s)) /\ string_at m a (L s) l /\ cap_of (L s) = cap.
Proof.
  intros W Es Hs. destruct (w_string _ _ _ _ _ W _ _ _ _ Es Hs) as [Ha Hc]. split; [|done]. split.
  - apply (w_wf _ _ _ _ _ W).
  - intros t. destruct (decide (t = s)) as [->|Hne]; [rewrite !lookup_delete_eq|rewrite !lookup_delete_ne by done; apply (w_names _ _ _ _ _ W)]. split; by intros [? ?].
  - intros t b l' c' Eb Hb. apply lookup_delete_Some in Eb as [_ Eb]. apply lookup_delete_Some in Hb as [_ Hb]. by apply (w_string _ _ _ _ _ W).
  - intros t u b c Hne Et Eu. apply lookup_delete_Some in Et as [_ Et]. apply lookup_delete_Some in Eu as [_ Eu]. by apply (w_apart _ _ _ _ _ W).
  - apply (w_literal _ _ _ _ _ W).
  - intros t b Et. apply lookup_delete_Some in Et as [_ Et]. by apply (w_constant _ _ _ _ _ W t).
  - intros a' lay [= <- <-]. split; [by eapply string_blocks; [|left]|]. split; [by apply (w_constant _ _ _ _ _ W s)|]. split; [by eapply string_apart|]. split; [intros d; by apply string_buffer with a l|].
    intros t b Et. apply lookup_delete_Some in Et as [Hne Et]. by apply (w_apart _ _ _ _ _ W s t).
  - intros b Hb. destruct (w_all _ _ _ _ _ W b Hb) as [|[(t & c & Et & Hb')|(? & ? & ? & _)]]; [by left| |done]. right.
    destruct (decide (t = s)) as [->|Hne]; [|left; exists t, c; by rewrite lookup_delete_ne]. rewrite Es in Et. injection Et as ->. right. by exists c, (L s).
Qed.

Lemma literal_not_data m E A L f a b lay zs : world m E A L f -> f = Some (a, lay) -> lits !! b = Some zs -> b <> a /\ data_of lay <> Some b.
Proof.
  intros W -> Hb. destruct (w_focus _ _ _ _ _ W a lay eq_refl) as (_ & Hl & _ & Hd & _). split; [by intros ->; rewrite Hl in Hb|].
  intros E1. destruct (Hd _ E1) as [c Ec]. rewrite (w_literal _ _ _ _ _ W _ _ Hb) in Ec. done.
Qed.

Lemma put_back m m' E A L s a lay l c : world m E A L (Some (a, lay)) -> E !! s = None -> becomes a lay m l c m' ->
  exists L', world m' (<[s := a]> E) (<[s := (l, c)]> A) L' None.
Proof.
  intros W Es (lay' & Hstr & Hc & F). pose proof (w_wf _ _ _ _ _ W) as Hw. destruct (w_focus _ _ _ _ _ W a lay eq_refl) as (Hfa & Hfl & Hfn & Hfd & Hfo).
  assert (Hname : forall t b, t <> s -> <[s := a]> E !! t = Some b -> E !! t = Some b) by (intros t b Hne; by rewrite lookup_insert_ne).
  assert (Hold : forall t b, E !! t = Some b -> exists l' c', A !! t = Some (l', c') /\ string_at m b (L t) l' /\ cap_of (L t) = c').
  { intros t b Et. destruct (world_address _ _ _ _ _ _ _ W Et) as (l' & c' & HA). exists l', c'. split; [done|]. by apply (w_string _ _ _ _ _ W). }
  assert (Hnew : forall t b, E !! t = Some b -> apart a lay' b (L t)).
  { intros t b Et. destruct (Hfo t b Et) as (H1 & H2 & H3 & H4). destruct (Hold t b Et) as (l' & c' & _ & Ht & _).
    assert (Hx : forall x, x = b \/ data_of (L t) = Some x -> data_of lay <> Some x -> data_of lay' <> Some x).
    { intros x Hx Hn Hd. destruct (fr_new _ _ _ _ _ F x Hd) as [|Hge]; [done|]. specialize (Hw x (string_blocks _ _ _ _ _ Ht Hx)). lia. }
    split; [done|]. split; [apply Hx; [by left|done]|]. split; [done|]. intros d Hd. apply Hx; [by right|by apply H4]. }
  exists (upd L s lay'). split.
  - by apply (fr_wf _ _ _ _ _ F).
  - intros t. destruct (decide (t = s)) as [->|Hne]; [rewrite !lookup_insert_eq; by split; eauto|rewrite !lookup_insert_ne by done; apply (w_names _ _ _ _ _ W)].
  - intros t b l' c' Et HA. destruct (decide (t = s)) as [->|Hne].
    + rewrite lookup_insert_eq in Et. rewrite lookup_insert_eq in HA. injection Et as <-. injection HA as <- <-. by rewrite upd_same.
    + apply Hname in Et; [|done]. rewrite lookup_insert_ne in HA by done. rewrite upd_other by done. destruct (w_string _ _ _ _ _ W _ _ _ _ Et HA) as [Ht Htc].
      split; [|done]. eapply frame_other; [done|exact F|by apply Hfo|done].
  - intros t u b d Hne Et Eu. destruct (decide (t = s)) as [->|Ht], (decide (u = s)) as [->|Hu]; [done| | |].
    + rewrite lookup_insert_eq in Et. injection Et as <-. apply Hname in Eu; [|done]. rewrite upd_same, upd_other by done. by apply Hnew.
    + rewrite lookup_insert_eq in Eu. injection Eu as <-. apply Hname in Et; [|done]. rewrite upd_same, upd_other by done. by apply apart_sym, Hnew.
    + apply Hname in Et; [|done]. apply Hname in Eu; [|done]. rewrite !upd_other by done. by apply (w_apart _ _ _ _ _ W).
  - intros b zs Hb. destruct (literal_not_data _ _ _ _ _ _ _ _ _ W eq_refl Hb) as [H1 H2]. pose proof (w_literal _ _ _ _ _ W _ _ Hb) as Eb.
    rewrite <- Eb. eapply frame_block; [done|exact F|eauto|done|done].
  - intros t b Et. destruct (decide (t = s)) as [->|Hne]; [rewrite lookup_insert_eq in Et; by injection Et as <-|]. apply (w_constant _ _ _ _ _ W t). by apply Hname.
  - done.
  - intros b Hb. destruct (decide (b = a)) as [->|Hba]; [right; left; exists s, a; rewrite lookup_insert_eq; by auto|].
    destruct (decide (data_of lay' = Some b)) as [Hbd|Hbd]; [right; left; exists s, a; rewrite lookup_insert_eq, upd_same; by auto|].
    destruct (decide (data_of lay = Some b)) as [Hbo|Hbo]; [destruct (fr_freed _ _ _ _ _ F b Hbo) as [|En]; [done|rewrite En in Hb; by destruct Hb]|].
    rewrite (fr_same _ _ _ _ _ F) in Hb by done. destruct (w_all _ _ _ _ _ W b Hb) as [|[(t & d & Et & Hd)|(a' & lay2 & [= <- <-] & Hd)]]; [by left| |by destruct Hd].
    right. left. exists t, d. assert (t <> s) by (intros ->; by rewrite Es in Et). rewrite lookup_insert_ne, upd_other by done. done.
Qed.

(** ** New storage, moves and ends *)

Lemma open_storage m E A L : world m E A L None ->
  exists m1, begin_object 24 m = Ok (m1, next_block m) /\ storage m1 (next_block m) /\ world m1 E A L (Some (next_block m, Small)).
Proof.
  intros W. pose proof (w_wf _ _ _ _ _ W) as Hw. set (a := next_block m). eexists. split; [done|]. set (m1 := mkMemory _ _).
  assert (Ha : blocks m1 !! a = Some (false, replicate 24 Uninit)) by apply lookup_insert_eq.
  assert (Hne : forall b, is_Some (blocks m !! b) -> b <> a) by (intros b Hb ->; specialize (Hw _ Hb); unfold a in Hw; lia).
  assert (Hsame : forall b, is_Some (blocks m !! b) -> blocks m1 !! b = blocks m !! b) by (intros b Hb; apply lookup_insert_ne; by apply not_eq_sym, Hne).
  assert (Hold : forall t b, E !! t = Some b -> exists l' c', string_at m b (L t) l' /\ cap_of (L t) = c' /\ A !! t = Some (l', c')).
  { intros t b Et. destruct (world_address _ _ _ _ _ _ _ W Et) as (l' & c' & HA). destruct (w_string _ _ _ _ _ W _ _ _ _ Et HA). eauto. }
  split; [by eexists|]. split.
  - intros b Hb. destruct (decide (b = a)) as [->|Hba]; [cbn; unfold a; lia|]. assert (is_Some (blocks m !! b)) as Hb' by (unfold m1 in Hb; cbn in Hb; by rewrite lookup_insert_ne in Hb by done).
    specialize (Hw b Hb'). cbn. lia.
  - apply (w_names _ _ _ _ _ W).
  - intros t b l c Et HA. destruct (w_string _ _ _ _ _ W _ _ _ _ Et HA) as [Ht Hc]. split; [|done]. eapply string_keeps; [exact Ht|].
    intros x Hx. apply Hsame. by eapply string_blocks.
  - apply (w_apart _ _ _ _ _ W).
  - intros b zs Hb. pose proof (w_literal _ _ _ _ _ W _ _ Hb) as Eb. rewrite <- Eb. apply Hsame. eauto.
  - apply (w_constant _ _ _ _ _ W).
  - intros a' lay [= <- <-]. split; [eauto|]. split; [|split; [done|split; [done|]]].
    + destruct (lits !! a) as [zs|] eqn:El; [|done]. pose proof (w_literal _ _ _ _ _ W _ _ El) as Eb. exfalso. by apply (Hne a ltac:(eauto)).
    + intros t b Et. destruct (Hold t b Et) as (l' & c' & Ht & _). split; [|split; [done|split; [|done]]].
      * apply Hne. eapply string_blocks; [exact Ht|by left].
      * intros Hd. apply (Hne a); [|done]. eapply string_blocks; [exact Ht|by right].
  - intros b Hb. destruct (decide (b = a)) as [->|Hba]; [right; right; by exists a, Small; auto|].
    assert (is_Some (blocks m !! b)) as Hb' by (unfold m1 in Hb; cbn in Hb; by rewrite lookup_insert_ne in Hb by done).
    destruct (w_all _ _ _ _ _ W b Hb') as [|[|(? & ? & ? & _)]]; [by left|by right; left|done].
Qed.

(** The object in focus takes over the one named [t]; its own buffer is gone. *)
Lemma moved_world m m' E A L a lay s t b lt ct : world m E A L (Some (a, lay)) -> E !! s = None -> E !! t = Some b -> A !! t = Some (lt, ct) ->
  moved_to (released m lay) a b (L t) lt m' ->
  exists L', world m' (<[s := a]> E) (<[s := (lt, ct)]> (<[t := ([], 22)]> A)) L' None.
Proof.
  intros W Es Et HAt M. pose proof (w_wf _ _ _ _ _ W) as Hw. destruct (w_focus _ _ _ _ _ W a lay eq_refl) as (Hfa & Hfl & Hfn & Hfd & Hfo).
  destruct (w_string _ _ _ _ _ W _ _ _ _ Et HAt) as [Hst Hct]. assert (Hts : t <> s) by (intros ->; by rewrite Es in Et).
  pose proof (Hfo t b Et) as (Hba & Hlb & Hda & Hdd).
  assert (Hsame : forall x, x <> a -> x <> b -> data_of lay <> Some x -> blocks m' !! x = blocks m !! x).
  { intros x H1 H2 H3. rewrite (mv_same _ _ _ _ _ _ M) by done. by rewrite released_lookup, decide_False. }
  assert (Hthird : forall u c, u <> s -> u <> t -> <[s := a]> E !! u = Some c -> E !! u = Some c /\ apart a (L t) c (L u) /\ apart b Small c (L u)).
  { intros u c Hus Hut Eu. rewrite lookup_insert_ne in Eu by done. split; [done|]. destruct (Hfo u c Eu) as (H1 & H2 & H3 & H4).
    destruct (w_apart _ _ _ _ _ W t u b c ltac:(done) Et Eu) as (G1 & G2 & G3 & G4). split; [by split|]. by split. }
  assert (Hrel : is_Some (blocks (released m lay) !! a) /\ is_Some (blocks (released m lay) !! b)).
  { rewrite !released_lookup, !decide_False by done. split; [done|]. eapply string_blocks; [exact Hst|by left]. }
  exists (upd (upd L t Small) s (L t)). split.
  - exact (moved_wf _ a b _ _ _ (released_wf _ _ Hw) (proj1 Hrel) (proj2 Hrel) M).
  - intros u. destruct (decide (u = s)) as [->|Hus]; [rewrite !lookup_insert_eq; by split; eauto|]. rewrite !(lookup_insert_ne _ s) by done.
    destruct (decide (u = t)) as [->|Hut]; [rewrite lookup_insert_eq, Et; by split; eauto|]. rewrite lookup_insert_ne by done. apply (w_names _ _ _ _ _ W).
  - intros u c l' c' Eu HA. destruct (decide (u = s)) as [->|Hus].
    { rewrite lookup_insert_eq in Eu. rewrite lookup_insert_eq in HA. injection Eu as <-. injection HA as <- <-. rewrite upd_same. split; [apply M|done]. }
    rewrite lookup_insert_ne in HA by done. rewrite upd_other by done. destruct (decide (u = t)) as [->|Hut].
    { rewrite lookup_insert_ne, Et in Eu by done. injection Eu as <-. rewrite lookup_insert_eq in HA. injection HA as <- <-. rewrite upd_same. split; [apply M|done]. }
    rewrite lookup_insert_ne in HA by done. rewrite upd_other by done. destruct (Hthird u c Hus Hut Eu) as (Eu' & (H1 & H2 & H3 & H4) & (G1 & G2 & G3 & G4)).
    destruct (w_string _ _ _ _ _ W _ _ _ _ Eu' HA) as [Hu Huc]. split; [|done]. eapply string_keeps; [exact Hu|]. intros x Hx. pose proof (Hfo u c Eu') as (F1 & F2 & F3 & F4).
    apply Hsame; destruct Hx as [->|Hx]; try done; [by intros ->|by intros ->|by apply F4].
  - intros u v c d Huv Eu Ev. assert (Hcase : forall u, u = s \/ u = t \/ (u <> s /\ u <> t)) by (intros x; destruct (decide (x = s)), (decide (x = t)); tauto).
    assert (Es' : <[s := a]> E !! s = Some a) by apply lookup_insert_eq. assert (Et' : <[s := a]> E !! t = Some b) by (by rewrite lookup_insert_ne).
    assert (Hab : apart a (L t) b Small) by (split; [done|]; split; [by apply (string_apart m b (L t) lt)|done]).
    destruct (Hcase u) as [->|[->|[Hu1 Hu2]]], (Hcase v) as [->|[->|[Hv1 Hv2]]]; try done; rewrite ?upd_same; rewrite ?(upd_other _ s) by done; rewrite ?upd_same; rewrite ?upd_other by done.
    all: try (rewrite Es' in Eu; injection Eu as <-); try (rewrite Es' in Ev; injection Ev as <-); try (rewrite Et' in Eu; injection Eu as <-); try (rewrite Et' in Ev; injection Ev as <-).
    all: try done; try (by apply apart_sym).
    + by destruct (Hthird v d Hv1 Hv2 Ev) as (_ & ? & _).
    + by destruct (Hthird v d Hv1 Hv2 Ev) as (_ & _ & ?).
    + apply apart_sym. by destruct (Hthird u c Hu1 Hu2 Eu) as (_ & ? & _).
    + apply apart_sym. by destruct (Hthird u c Hu1 Hu2 Eu) as (_ & _ & ?).
    + destruct (Hthird u c Hu1 Hu2 Eu) as (Eu' & _). destruct (Hthird v d Hv1 Hv2 Ev) as (Ev' & _). by apply (w_apart _ _ _ _ _ W u v).
  - intros x zs Hx. destruct (literal_not_data _ _ _ _ _ _ _ _ _ W eq_refl Hx) as [H1 H2]. rewrite Hsame; [by apply (w_literal _ _ _ _ _ W)|done| |done].
    intros ->. by rewrite (w_constant _ _ _ _ _ W _ _ Et) in Hx.
  - intros u c Eu. destruct (decide (u = s)) as [->|Hne]; [rewrite lookup_insert_eq in Eu; by injection Eu as <-|]. rewrite lookup_insert_ne in Eu by done. by apply (w_constant _ _ _ _ _ W u).
  - done.
  - intros x Hx. assert (Es' : <[s := a]> E !! s = Some a) by apply lookup_insert_eq. assert (Et' : <[s := a]> E !! t = Some b) by (by rewrite lookup_insert_ne).
    destruct (decide (x = a)) as [->|Hxa]; [right; left; exists s, a; by auto|]. destruct (decide (x = b)) as [->|Hxb]; [right; left; exists t, b; by auto|].
    rewrite (mv_same _ _ _ _ _ _ M), released_lookup in Hx by done. destruct (decide (data_of lay = Some x)); [by destruct Hx|].
    destruct (w_all _ _ _ _ _ W x Hx) as [|[(u & c & Eu & Hc)|(a' & lay2 & [= <- <-] & Hd)]]; [by left| |by destruct Hd]. right. left.
    destruct (decide (u = t)) as [->|Hut].
    + rewrite Et in Eu. injection Eu as <-. destruct Hc as [|Hc]; [done|]. exists s, a. rewrite upd_same. auto.
    + assert (u <> s) by (intros ->; by rewrite Es in Eu). exists u, c. rewrite lookup_insert_ne, !upd_other by done. done.
Qed.

(** The end of the object in focus and of its buffer. *)
Lemma ended_world m E A L a lay : world m E A L (Some (a, lay)) -> world (mkMemory (delete a (blocks (released m lay))) (next_block m)) E A L None.
Proof.
  intros W. pose proof (w_wf _ _ _ _ _ W) as Hw. destruct (w_focus _ _ _ _ _ W a lay eq_refl) as (Hfa & Hfl & Hfn & Hfd & Hfo). set (m' := mkMemory _ _).
  assert (Hb : forall b, blocks m' !! b = if decide (b = a) then None else if decide (data_of lay = Some b) then None else blocks m !! b).
  { intros b. unfold m'. cbn. destruct (decide (b = a)) as [->|Hne]; [apply lookup_delete_eq|]. rewrite lookup_delete_ne by done. apply released_lookup. }
  assert (Hkeep : forall b, b <> a -> data_of lay <> Some b -> blocks m' !! b = blocks m !! b) by (intros b H1 H2; by rewrite Hb, !decide_False).
  split.
  - intros b Hs. rewrite Hb in Hs. destruct (decide (b = a)); [by destruct Hs|]. destruct (decide (data_of lay = Some b)); [by destruct Hs|]. by apply Hw.
  - apply (w_names _ _ _ _ _ W).
  - intros t b l c Et HA. destruct (w_string _ _ _ _ _ W _ _ _ _ Et HA) as [Ht Hc]. split; [|done]. destruct (Hfo t b Et) as (H1 & H2 & H3 & H4).
    eapply string_keeps; [exact Ht|]. intros x [->|Hx]; apply Hkeep; try done; [by intros ->|by apply H4].
  - apply (w_apart _ _ _ _ _ W).
  - intros b zs Hz. destruct (literal_not_data _ _ _ _ _ _ _ _ _ W eq_refl Hz). rewrite Hkeep by done. by apply (w_literal _ _ _ _ _ W).
  - apply (w_constant _ _ _ _ _ W).
  - done.
  - intros b Hs. rewrite Hb in Hs. destruct (decide (b = a)); [by destruct Hs|]. destruct (decide (data_of lay = Some b)); [by destruct Hs|].
    destruct (w_all _ _ _ _ _ W b Hs) as [|[|(a' & lay2 & [= <- <-] & Hd)]]; [by left|by right; left|by destruct Hd].
Qed.

End World.

(** ** Pointer arguments *)

Section Arguments.

Context {lits : gmap nat (list Z)} {m : memory} {E : gmap nat nat} {A : gmap nat (list Z * Z)} {L : nat -> layout} {f : option (nat * layout)}.
Context (W : world lits m E A L f).

Lemma address_ok s l cap : A !! s = Some (l, cap) -> exists a, address E s m = Ok (m, a) /\ E !! s = Some a /\ string_at m a (L s) l /\ cap_of (L s) = cap.
Proof using W.
  intros Hs. destruct (world_text _ _ _ _ _ _ _ _ _ W Hs) as (a & Ea & Hst & Hc). exists a. unfold address, lift. by rewrite Ea.
Qed.

Lemma readable_all s a l cap : E !! s = Some a -> A !! s = Some (l, cap) -> readable m (buffer_of a (L s), 0%nat) (l ++ [0]).
Proof using W.
  intros Es Hs. destruct (w_string _ _ _ _ _ _ W _ _ _ _ Es Hs) as [Hst _]. destruct (string_block _ _ _ _ Hst) as (d & junk & Eb & _).
  right. exists d, ((Byte <$> l) ++ Byte 0 :: junk). split; [done|]. cbn [fst snd]. split; [rewrite !length_app, length_fmap; cbn; lia|]. rewrite drop_0.
  replace ((Byte <$> l) ++ Byte 0 :: junk) with ((Byte <$> l ++ [0]) ++ junk) by (by rewrite fmap_app, <- app_assoc).
  replace (length (l ++ [0])) with (length (Byte <$> l ++ [0])) by apply length_fmap. by rewrite take_app_length.
Qed.

(** Where a pointer argument points. *)
Definition points (p : source) (q : ptr) : Prop :=
  match p with Null => False | Lit a off => q = (a, off) | Own s off => exists a, E !! s = Some a /\ q = (buffer_of a (L s), off) end.

Lemma pointer_ok p zs : chars_at lits A p = Some zs ->
  exists q, pointer E p m = Ok (m, Some q) /\ some_pointer E p m = Ok (m, q) /\ readable m q zs /\ points p q /\ forall a lay, f = Some (a, lay) -> q.1 <> a.
Proof using W.
  intros Hp. assert (Hsome : forall q, pointer E p m = Ok (m, Some q) -> some_pointer E p m = Ok (m, q)).
  { intros q Eq. unfold some_pointer. by rewrite (prog_bind _ _ _ _ _ Eq). }
  destruct p as [|b off|s off]; [done| |]; cbn [chars_at] in Hp.
  - destruct (lits !! b) as [ys|] eqn:Eb; cbn in Hp; [|done]. destruct (Nat.leb_spec off (length ys)); cbn in Hp; [|done]. injection Hp as <-.
    exists (b, off). split; [done|]. split; [by apply Hsome|]. split; [|split; [done|]].
    + apply (readable_drop _ (b, 0%nat)). right. pose proof (w_literal _ _ _ _ _ _ W _ _ Eb) as Em. exists false, (Byte <$> ys). split; [exact Em|]. cbn [fst snd].
      rewrite length_fmap. split; [done|]. rewrite drop_0. rewrite <- (length_fmap Byte ys) at 1. apply firstn_all.
    + cbn [fst]. intros a lay Hf <-. destruct (w_focus _ _ _ _ _ _ W b lay Hf) as (_ & Hl & _). by rewrite Hl in Eb.
  - destruct (A !! s) as [[l cap]|] eqn:Es; cbn in Hp; [|done]. destruct (Nat.leb_spec off (length l)); cbn in Hp; [|done]. injection Hp as <-.
    destruct (address_ok s l cap Es) as (a & Ea & Ea' & Hst & _). exists (buffer_of a (L s), off).
    assert (Eq : pointer E (Own s off) m = Ok (m, Some (buffer_of a (L s), off))).
    { cbn [pointer]. rewrite (prog_bind _ _ _ _ _ Ea), (prog_bind _ _ _ _ _ (string_data Hst)). unfold advance_ptr. cbn [fst snd Nat.add]. by rewrite Nat2Z.id. }
    split; [done|]. split; [by apply Hsome|]. split; [|split; [by exists a|]].
    + apply (readable_drop _ (buffer_of a (L s), 0%nat)). by eapply readable_all.
    + intros a' lay Hf. destruct (w_focus _ _ _ _ _ _ W a' lay Hf) as (_ & _ & _ & _ & Ho). destruct (Ho s a Ea') as (H1 & _ & H3 & _). cbn [fst].
      destruct (L s); cbn; [done|]. cbn in H3. congruence.
Qed.

Lemma some_chars_ok p n xs : some_chars lits A p n = Some xs ->
  exists q, pointer E p m = Ok (m, Some q) /\ some_pointer E p m = Ok (m, q) /\ readable m q xs /\ points p q /\ length xs = n /\ Z.of_nat n < 2 ^ 64 /\
    forall a lay, f = Some (a, lay) -> q.1 <> a.
Proof using W.
  unfold some_chars. destruct (chars_at lits A p) as [zs|] eqn:Ez; cbn; [|done]. destruct (Nat.leb_spec n (length zs)); cbn; [|done].
  destruct (Z.ltb_spec (Z.of_nat n) (2 ^ 64)); cbn; [|done]. intros [= <-]. destruct (pointer_ok p zs Ez) as (q & Ep & Es & Hr & Hq & Hf).
  exists q. split; [done|]. split; [done|]. split; [by apply readable_prefix|]. split; [done|]. split; [rewrite length_take; lia|]. done.
Qed.

Lemma cstr_at_ok p xs : cstr_at lits A p = Some xs ->
  exists q, pointer E p m = Ok (m, Some q) /\ some_pointer E p m = Ok (m, q) /\ cstring_at m q xs /\ points p q /\ Z.of_nat (length xs) < kNoLimit /\
    (forall a lay, f = Some (a, lay) -> q.1 <> a) /\ (forall s off l cap, p = Own s off -> A !! s = Some (l, cap) -> (off + length xs <= length l)%nat).
Proof using W.
  unfold cstr_at. destruct (chars_at lits A p) as [zs|] eqn:Ez; cbn [mbind option_bind]; [|done]. destruct (Nat.ltb_spec (length (until_zero zs)) (length zs)); cbn; [|done].
  destruct (Z.ltb_spec (Z.of_nat (length (until_zero zs))) kNoLimit); cbn; [|done]. intros [= <-]. destruct (pointer_ok p zs Ez) as (q & Ep & Es & Hr & Hq & Hf).
  exists q. split; [done|]. split; [done|]. split; [by exists zs|]. split; [done|]. split; [done|]. split; [done|].
  intros s off l cap -> Hs. cbn [chars_at] in Ez. rewrite Hs in Ez. cbn in Ez. destruct (Nat.leb_spec off (length l)); cbn in Ez; [|done]. injection Ez as <-.
  rewrite length_drop, length_app in *. cbn [length] in *. lia.
Qed.

Lemma block_length_literal a zs : lits !! a = Some zs -> block_length (a, 0%nat) m = Ok (m, length zs).
Proof using W.
  intros Ha. pose proof (w_literal _ _ _ _ _ _ W _ _ Ha) as Em. unfold block_length. cbn [fst]. destruct (blocks m !! a) as [[d c]|]; [|done].
  injection Em as -> ->. by rewrite length_fmap.
Qed.

End Arguments.

(** ** Edits *)

Section Edits.

Context (allocates : Z -> bool) (R : Prop).
Context {lits : gmap nat (list Z)} {m : memory} {E : gmap nat nat} {A : gmap nat (list Z * Z)} {L : nat -> layout}.
Context (W : world lits m E A L None) {s a : nat} {l : list Z} (Es : E !! s = Some a) (HA : A !! s = Some (l, cap_of (L s))).

Abbreviation cap := (cap_of (L s)).
Abbreviation leaves l' c p := (wp R (p m) (fun q => becomes a (L s) m l' c q.1)).

Lemma edited_string : string_at m a (L s) l.
Proof using W Es HA. by apply (w_string _ _ _ _ _ _ W s a l cap). Qed.

Lemma edited_wf : mem_wf m.
Proof using W. apply (w_wf _ _ _ _ _ _ W). Qed.

Lemma buffers_differ t b : t <> s -> E !! t = Some b -> b <> a /\ buffer_of b (L t) <> buffer_of a (L s).
Proof using W Es.
  clear HA. intros Hne Et. destruct (w_apart _ _ _ _ _ _ W s t a b (not_eq_sym Hne) Es Et) as (H1 & H2 & H3 & H4). split; [done|].
  destruct (L s) as [|d c], (L t) as [|d' c']; cbn in *; try done; try congruence. intros ->. by apply (H4 d).
Qed.

(** A pointer into the edited string's buffer is one made from its name. *)
Lemma points_alias p q : points (E := E) (L := L) p q -> q.1 = buffer_of a (L s) -> exists off, p = Own s off /\ q.2 = off \/ exists b, p = Lit b q.2 /\ q.1 = b /\ lits !! b = None.
Proof using W Es HA.
  destruct p as [|b off|t off]; [done| |].
  - intros Hq Eb. cbn in Hq. subst q. cbn in Eb. exists 0%nat. right. exists b. split; [done|]. split; [done|]. destruct (lits !! b) as [zs|] eqn:El; [|done]. exfalso.
    pose proof (w_literal _ _ _ _ _ _ W _ _ El) as Em. pose proof edited_string as Hst. destruct (L s) as [|d c] eqn:ELs; cbn in Eb; subst b.
    + pose proof (w_constant _ _ _ _ _ _ W _ _ Es) as Hn. by rewrite Hn in El.
    + destruct (string_buffer _ _ _ _ d Hst eq_refl) as [c0 Ec]. by rewrite Em in Ec.
  - intros (b & Et & ->) Eb. cbn in Eb. destruct (decide (t = s)) as [->|Hne]; [|by destruct (buffers_differ t b Hne Et)]. exists off. by left.
Qed.

Lemma append_alias p q xs n : some_chars lits A p n = Some xs -> points (E := E) (L := L) p q -> length xs = n -> not_terminator s l p n = true ->
  q.1 = buffer_of a (L s) -> (q.2 + length xs <= length l)%nat.
Proof using W Es HA.
  intros Hc Hp El Hn Eb. destruct (points_alias p q Hp Eb) as (off & [[-> ->]|(b & -> & Hq & Hl)]).
  - cbn in Hn. rewrite Nat.eqb_refl in Hn. cbn in Hn. apply Nat.leb_le in Hn. lia.
  - unfold some_chars in Hc. cbn in Hc. by rewrite Hl in Hc.
Qed.

Lemma cstr_alias p q xs : cstr_at lits A p = Some xs -> points (E := E) (L := L) p q ->
  (forall s off l cap, p = Own s off -> A !! s = Some (l, cap) -> (off + length xs <= length l)%nat) ->
  q.1 = buffer_of a (L s) -> (q.2 + length xs <= length l)%nat.
Proof using W Es HA.
  intros Hc Hp Ho Eb. destruct (points_alias p q Hp Eb) as (off & [[-> ->]|(b & -> & Hq & Hl)]); [by eapply Ho|].
  unfold cstr_at in Hc. cbn in Hc. by rewrite Hl in Hc.
Qed.

Lemma edit_ok e l' cap' : spec_edit lits A s e l cap = Some (l', cap') -> (R -> need_edit allocates lits A s e l cap) ->
  leaves l' cap' (run_edit allocates E a e).
Proof using W Es HA.
  intros Hs HR. pose proof edited_string as H. pose proof edited_wf as Hw. destruct e; cbn [spec_edit need_edit run_edit] in *.
  - injection Hs as <- <-. by eapply clear_ok.
  - assert (Hnull : p = Null \/ exists xs, some_chars lits A p n = Some xs /\ l' = xs /\ cap' = assigned cap n /\ (R -> need_above allocates cap (Z.of_nat n))).
    { destruct p; [by left| |]; right; destruct (some_chars lits A _ n) as [xs|]; [|done| |done]; injection Hs as <- <-; by exists xs. }
    destruct Hnull as [->|(xs & Ex & -> & -> & HR')].
    + injection Hs as <- <-. eapply wp_step; [done|]. rewrite <- (length_replicate n 0). by apply (assign_ok allocates R m a (L s) l Hw H None (replicate n 0)); [|intros _ []].
    + destruct (some_chars_ok W p n xs Ex) as (q & Ep & _ & Hr & _ & <- & _). eapply wp_step; [exact Ep|].
      apply (assign_ok allocates R m a (L s) l Hw H (Some q) xs); [done|]. intros r _. by apply HR'.
  - destruct (cstr_at lits A p) as [xs|] eqn:Ex; cbn in Hs; [|done]. injection Hs as <- <-. destruct (cstr_at_ok W p xs Ex) as (q & _ & Ep & Hc & _ & Hf & _).
    eapply wp_step; [exact Ep|]. by eapply assign_cstr_ok.
  - destruct (A !! t) as [[xs ct]|] eqn:Et; cbn in Hs; [|done]. injection Hs as <- <-. destruct (address_ok W t xs ct Et) as (b & Eb & _ & Hb & _).
    eapply wp_step; [exact Eb|]. by eapply assign_string_ok.
  - destruct (A !! t) as [[xs ct]|] eqn:Et; cbn in Hs; [|done]. destruct (address_ok W t xs ct Et) as (b & Eb & Eb' & Hb & _).
    eapply wp_step; [exact Eb|]. destruct (Nat.eqb_spec t s) as [->|Hne]; injection Hs as <- <-.
    + rewrite Es in Eb'. injection Eb' as <-. eapply prog_wp_done; [apply self_assign|]. by apply becomes_refl.
    + destruct (buffers_differ t b Hne Eb') as [Hba _]. eapply copy_assign_ok; [done|done|exact Hb|done|]. intros r. by apply HR.
  - injection Hs as <- <-. apply reserve_ok; [done|done|lia|done].
  - destruct (Z.ltb_spec (Z.of_nat n) (2 ^ 64)); cbn in Hs; [|done]. injection Hs as <- <-. by apply resize_ok.
  - injection Hs as <- <-. by apply shrink_to_fit_ok.
  - destruct (some_chars lits A p n) as [xs|] eqn:Ex; cbn in Hs; [|done]. destruct (not_terminator s l p n) eqn:En; cbn in Hs; [|done]. injection Hs as <- <-.
    destruct (some_chars_ok W p n xs Ex) as (q & _ & Ep & Hr & Hq & El & Hf & _). pose proof (append_alias p q xs n Ex Hq El En) as Hal. subst n. eapply wp_step; [exact Ep|]. by apply append_ok.
  - destruct (cstr_at lits A p) as [xs|] eqn:Ex; cbn in Hs; [|done]. injection Hs as <- <-. destruct (cstr_at_ok W p xs Ex) as (q & _ & Ep & Hc & Hq & Hf & _ & Ho).
    pose proof (cstr_alias p q xs Ex Hq Ho) as Hal. eapply wp_step; [exact Ep|]. by apply append_cstr_ok.
  - destruct (A !! t) as [[xs ct]|] eqn:Et; cbn in Hs; [|done]. injection Hs as <- <-. destruct (address_ok W t xs ct Et) as (b & Eb & Eb' & Hb & _).
    eapply wp_step; [exact Eb|]. eapply append_string_ok; [done|done|exact Hb|done| |].
    + intros Hne. apply (buffers_differ t b); [|done]. intros ->. rewrite Es in Eb'. by injection Eb' as ->.
    + intros ->. destruct (decide (t = s)) as [->|Hne]; [rewrite HA in Et; by injection Et as ->|]. by destruct (buffers_differ t a Hne Eb').
  - destruct (Z.ltb_spec (Z.of_nat n) (2 ^ 64)); cbn in Hs; [|done]. injection Hs as <- <-. by apply append_fill_ok.
  - injection Hs as <- <-. by apply push_back_ok.
  - destruct (Nat.eqb_spec (length l) 0); cbn in Hs; [done|]. injection Hs as <- <-. apply string_pop_back_ok; [done|done|]. by intros ->.
  - destruct (Nat.leb_spec pos (length l)); cbn in Hs; [|done]. destruct (Z.ltb_spec (Z.of_nat n) (2 ^ 64)); cbn in Hs; [|done]. injection Hs as <- <-. by apply insert_ok.
  - destruct (Nat.leb_spec pos (length l)); cbn in Hs; [|done]. destruct (Z.leb_spec 0 count); cbn in Hs; [|done]. injection Hs as <- <-. by apply erase_ok.
  - destruct (Nat.leb_spec n (length l)); cbn in Hs; [|done]. injection Hs as <- <-. by apply remove_suffix_ok.
  - destruct (Nat.ltb_spec pos (length l)); cbn in Hs; [|done]. injection Hs as <- <-. by apply set_at_ok.
Qed.

End Edits.

(** ** Constructions *)

Section Makes.

Context (allocates : Z -> bool) (R : Prop).
Context {lits : gmap nat (list Z)} {m : memory} {E : gmap nat nat} {A : gmap nat (list Z * Z)} {L : nat -> layout} {a : nat}.
Context (W : world lits m E A L (Some (a, Small))) (Hst : storage m a).

Abbreviation makes l' c p := (wp R (p m) (fun q => becomes a Small m l' c q.1)).

Lemma not_made t b : E !! t = Some b -> b <> a.
Proof using W. intros Et. destruct (w_focus _ _ _ _ _ _ W a Small eq_refl) as (_ & _ & _ & _ & Ho). by destruct (Ho t b Et). Qed.

Lemma cstr_some p xs : cstr_at lits A p = Some xs -> p <> Null.
Proof using Type. by intros H ->. Qed.

Lemma make_ok k l' cap' : spec_make lits A k = Some (l', cap') -> (R -> need_make allocates lits A k) -> makes l' cap' (run_make allocates E a k).
Proof using W Hst.
  intros Hs HR. pose proof (w_wf _ _ _ _ _ _ W) as Hw. destruct k; cbn [spec_make need_make run_make] in *.
  - injection Hs as <- <-. by apply construct_empty_ok.
  - destruct (decide (p = Null)) as [->|Hp].
    { injection Hs as <- <-. eapply wp_step; [done|]. by apply construct_no_cstr_ok. }
    assert (Hx : exists xs, cstr_at lits A p = Some xs /\ l' = xs /\ cap' = fitted (Z.of_nat (length xs)) /\ (R -> need_above allocates 22 (Z.of_nat (length xs)))).
    { destruct p; [done| |]; destruct (cstr_at lits A _) as [xs|]; cbn in Hs, HR; [|done| |done]; injection Hs as <- <-; by exists xs. }
    destruct Hx as (xs & Ex & -> & -> & HR'). destruct (cstr_at_ok W p xs Ex) as (q & Ep & _ & Hc & _ & Hf & Ha & _).
    eapply wp_step; [exact Ep|]. apply construct_cstr_ok; [done|done|done|by eapply Ha|done|done].
  - destruct (decide (p = Null)) as [->|Hp].
    { injection Hs as <- <-. eapply wp_step; [done|]. apply construct_null_ok; [done|done|lia]. }
    assert (Hx : exists xs, some_chars lits A p n = Some xs /\ l' = xs /\ cap' = fitted (Z.of_nat n) /\ (R -> need_above allocates 22 (Z.of_nat n))).
    { destruct p; [done| |]; destruct (some_chars lits A _ n) as [xs|]; cbn in Hs, HR; [|done| |done]; injection Hs as <- <-; by exists xs. }
    destruct Hx as (xs & Ex & -> & -> & HR'). destruct (some_chars_ok W p n xs Ex) as (q & Ep & _ & Hr & _ & <- & _ & Ha).
    eapply wp_step; [exact Ep|]. apply construct_chars_ok; [done|done|done|intros _; by eapply Ha|done].
  - injection Hs as <- <-. by apply construct_fill_ok.
  - destruct (lits !! a0) as [[|z zs]|] eqn:Ea; cbn in Hs; [done| |done]. rewrite Nat.sub_0_r in *. injection Hs as <- <-. cbn in HR. rewrite Nat.sub_0_r in HR.
    eapply wp_step; [by eapply (block_length_literal W)|]. pose proof (w_literal _ _ _ _ _ _ W _ _ Ea) as Em.
    apply construct_array_ok; [done|done| | |exact HR].
    + right. exists false, (Byte <$> z :: zs). split; [exact Em|]. cbn [fst snd]. rewrite length_fmap. split; [lia|]. rewrite drop_0, <- (length_fmap Byte (z :: zs)). apply firstn_all.
    + cbn [fst]. intros ->. destruct (w_focus _ _ _ _ _ _ W a Small eq_refl) as (_ & Hl & _). by rewrite Hl in Ea.
  - destruct (A !! t) as [[xs ct]|] eqn:Et; cbn in Hs, HR; [|done]. injection Hs as <- <-. destruct (address_ok W t xs ct Et) as (b & Eb & Eb' & Hb & _).
    eapply wp_step; [exact Eb|]. eapply copy_construct_ok; [done|done|exact Hb|by eapply not_made|done].
  - destruct (A !! t) as [[xs ct]|] eqn:Et; cbn in Hs, HR; [|done]. destruct (Nat.leb_spec pos (length xs)); cbn in Hs, HR; [|done]. destruct (Z.leb_spec 0 count); cbn in Hs, HR; [|done].
    injection Hs as <- <-. destruct (address_ok W t xs ct Et) as (b & Eb & Eb' & Hb & _).
    eapply wp_step; [exact Eb|]. eapply substr_ok; [done|done|exact Hb|by eapply not_made|done|done|done].
  - destruct (A !! t) as [[l1 c1]|] eqn:Et; cbn in Hs, HR; [|done]. destruct (A !! u) as [[l2 c2]|] eqn:Eu; cbn in Hs, HR; [|done].
    injection Hs as <- <-. destruct (address_ok W t l1 c1 Et) as (b & Eb & Eb' & Hb & _). destruct (address_ok W u l2 c2 Eu) as (d & Ed & Ed' & Hd & _).
    eapply wp_step; [exact Eb|]. eapply wp_step; [exact Ed|]. rewrite length_app in HR. eapply concat_ok; [done|done|exact Hb|exact Hd|by eapply not_made|by eapply not_made|exact HR].
  - destruct (A !! t) as [[l1 c1]|] eqn:Et; cbn in Hs, HR; [|done]. destruct (cstr_at lits A p) as [xs|] eqn:Ex; cbn in Hs, HR; [|done].
    injection Hs as <- <-. destruct (address_ok W t l1 c1 Et) as (b & Eb & Eb' & Hb & _). destruct (cstr_at_ok W p xs Ex) as (q & _ & Ep & Hc & _ & Hf & Ha & _).
    eapply wp_step; [exact Eb|]. eapply wp_step; [exact Ep|].
    eapply concat_cstr_ok; [done|done|exact Hb|by eapply not_made|done|by eapply Ha|done|intros r; apply (HR r)|intros r; apply (HR r)].
  - destruct (cstr_at lits A p) as [xs|] eqn:Ex; cbn in Hs, HR; [|done]. destruct (A !! t) as [[l2 c2]|] eqn:Et; cbn in Hs, HR; [|done].
    injection Hs as <- <-. destruct (address_ok W t l2 c2 Et) as (b & Eb & Eb' & Hb & _). destruct (cstr_at_ok W p xs Ex) as (q & _ & Ep & Hc & _ & Hf & Ha & _).
    eapply wp_step; [exact Ep|]. eapply wp_step; [exact Eb|].
    eapply cstr_concat_ok; [done|done|exact Hc|by eapply Ha|done|exact Hb|by eapply not_made|intros r; apply (HR r)|intros r; apply (HR r)].
Qed.

End Makes.

(** ** Queries *)

Section Queries.

Context {lits : gmap nat (list Z)} {m : memory} {E : gmap nat nat} {A : gmap nat (list Z * Z)} {L : nat -> layout}.
Context (W : world lits m E A L None) {s a : nat} {l : list Z} {cap : Z} (Es : E !! s = Some a) (HA : A !! s = Some (l, cap)).

Lemma ask_num_ok p z v : p m = Ok (m, z) -> Some (Num z) = Some v -> ask_num p m = Ok (m, v).
Proof using Type. intros Ep [= <-]. unfold ask_num. by rewrite (prog_bind _ _ _ _ _ Ep). Qed.

Lemma ask_bool_ok p b v : p m = Ok (m, b) -> Some (Bool b) = Some v -> ask_bool p m = Ok (m, v).
Proof using Type. intros Ep [= <-]. unfold ask_bool. by rewrite (prog_bind _ _ _ _ _ Ep). Qed.

(** A search with a pointer that may be null. *)
Lemma search_ok p k v (f : option ptr -> Prog Z) : search_arg lits A p k = Some v ->
  (forall xs q, argument (m := m) (Some q) xs -> f (Some q) m = Ok (m, k xs)) -> f None m = Ok (m, npos) ->
  (r ← pointer E p; ask_num (f r)) m = Ok (m, v).
Proof using W.
  intros Hs Hf Hn. destruct (decide (p = Null)) as [->|Hp]; [by apply (ask_num_ok _ npos)|].
  assert (Hx : exists xs, cstr_at lits A p = Some xs /\ Some (Num (k xs)) = Some v).
  { destruct p; [done| |]; cbn [search_arg] in Hs; destruct (cstr_at lits A _) as [xs|]; try done; by exists xs. }
  destruct Hx as (xs & Ex & Hv). destruct (cstr_at_ok W p xs Ex) as (q & Ep & _ & Hc & _ & Hfit & _). rewrite (prog_bind _ _ _ _ _ Ep).
  eapply ask_num_ok; [by apply Hf|done].
Qed.

Lemma query_ok q v : spec_query lits A q l cap = Some v -> run_query E a q m = Ok (m, v).
Proof using W Es HA.
  intros Hs. destruct (w_string _ _ _ _ _ _ W _ _ _ _ Es HA) as [H Hcap]. destruct q; cbn [spec_query run_query] in *.
  - eapply ask_num_ok; [exact (string_size H)|done].
  - eapply ask_num_ok; [exact (string_capacity H)|by rewrite Hcap].
  - eapply ask_bool_ok; [|exact Hs]. unfold is_inline. rewrite (prog_bind _ _ _ _ _ (string_large H)). unfold mret, Prog_ret. do 2 f_equal. subst cap.
    destruct H as (buf & [_ _ _ _ Hc] & _). destruct (L s); cbn in *; [done|]. destruct (Z.eqb_spec cap 22); [lia|done].
  - eapply ask_bool_ok; [exact (string_empty_ok H)|done].
  - destruct (l !! pos) as [x|] eqn:Ex; cbn in Hs; [|done]. pose proof (lookup_lt_Some _ _ _ Ex). eapply ask_num_ok; [|exact Hs]. unfold at_.
    rewrite (prog_bind _ _ _ _ _ (string_size H)). unfold bug_check, dcheck. rewrite (proj2 (Z.ltb_lt _ _)) by lia. rewrite (prog_bind _ _ m m ()) by done.
    rewrite (prog_bind _ _ _ _ _ (string_data H)). by apply (string_byte_at H).
  - destruct (l !! 0%nat) as [x|] eqn:Ex; cbn in Hs; [|done]. eapply ask_num_ok; [|exact Hs]. unfold front. rewrite (prog_bind _ _ _ _ _ (string_empty_ok H)).
    rewrite bool_decide_false by (by intros ->). rewrite (prog_bind _ _ m m ()) by done. rewrite (prog_bind _ _ _ _ _ (string_data H)). apply (string_byte H). by apply lookup_app_l_Some.
  - destruct (Nat.eqb_spec (length l) 0) as [|Hl]; cbn in Hs; [done|]. destruct (l !! (length l - 1)%nat) as [x|] eqn:Ex; cbn in Hs; [|done]. eapply ask_num_ok; [|exact Hs]. unfold back.
    rewrite (prog_bind _ _ _ _ _ (string_empty_ok H)), bool_decide_false by (by intros ->). rewrite (prog_bind _ _ m m ()) by done.
    rewrite (prog_bind _ _ _ _ _ (string_data H)), (prog_bind _ _ _ _ _ (string_size H)). replace (Z.of_nat (length l) - 1) with (Z.of_nat (length l - 1)) by lia. by apply (string_byte_at H).
  - injection Hs as <-. rewrite (prog_bind _ _ _ _ _ (string_data H)), (prog_bind _ _ _ _ _ (string_size H)), Nat2Z.id.
    pose proof (readable_all W s a l cap Es HA) as Hr. assert (El : load_numbers (buffer_of a (L s), 0%nat) (S (length l)) m = Ok (m, l ++ [0])).
    { destruct Hr as [Hr|(d & c & Ec & Hl & Et)]; [by destruct l|]. rewrite length_app in Hl, Et. cbn [length] in Hl, Et. rewrite Nat.add_1_r in Hl, Et. by eapply load_numbers_ok. }
    by rewrite (prog_bind _ _ _ _ _ El).
  - destruct (A !! t) as [[xs ct]|] eqn:Et; cbn in Hs; [|done]. destruct (address_ok W t xs ct Et) as (b & Eb & _ & Hb & _). rewrite (prog_bind _ _ _ _ _ Eb).
    eapply ask_num_ok; [by eapply (compare_ok H)|done].
  - destruct (cstr_at lits A p) as [xs|] eqn:Ex; cbn in Hs; [|done]. destruct (cstr_at_ok W p xs Ex) as (q & _ & Ep & Hc & _ & Hf & _). rewrite (prog_bind _ _ _ _ _ Ep).
    eapply ask_num_ok; [by apply (compare_cstr_ok H)|done].
  - destruct (some_chars lits A p n) as [xs|] eqn:Ex; cbn in Hs; [|done]. destruct (some_chars_ok W p n xs Ex) as (q & _ & Ep & Hr & _ & <- & _). rewrite (prog_bind _ _ _ _ _ Ep).
    eapply ask_num_ok; [by apply (compare_chars_ok H)|done].
  - destruct (A !! t) as [[xs ct]|] eqn:Et; cbn in Hs; [|done]. destruct (Nat.leb_spec pos (length l)); cbn in Hs; [|done]. destruct (Z.leb_spec 0 len); cbn in Hs; [|done].
    destruct (address_ok W t xs ct Et) as (b & Eb & _ & Hb & _). rewrite (prog_bind _ _ _ _ _ Eb). eapply ask_num_ok; [by eapply (compare_part_ok H)|done].
  - destruct (A !! t) as [[xs ct]|] eqn:Et; cbn in Hs; [|done]. destruct (address_ok W t xs ct Et) as (b & Eb & _ & Hb & _). rewrite (prog_bind _ _ _ _ _ Eb).
    eapply ask_bool_ok; [by eapply (equal_strings_ok H)|done].
  - destruct (cstr_at lits A p) as [xs|] eqn:Ex; cbn in Hs; [|done]. destruct (cstr_at_ok W p xs Ex) as (q & _ & Ep & Hc & _ & Hf & _). rewrite (prog_bind _ _ _ _ _ Ep).
    eapply ask_bool_ok; [by apply (equal_cstr_ok H (Some q))|done].
  - destruct (A !! t) as [[xs ct]|] eqn:Et; cbn in Hs; [|done]. destruct (address_ok W t xs ct Et) as (b & Eb & _ & Hb & _). rewrite (prog_bind _ _ _ _ _ Eb).
    eapply ask_bool_ok; [|exact Hs]. unfold less. by rewrite (prog_bind _ _ _ _ _ (compare_ok H b (L t) xs Hb)).
  - eapply ask_num_ok; [|exact Hs]. rewrite (find_char_ok H) by lia. by rewrite Nat2Z.id.
  - eapply (search_ok p _ v (fun r => find_cstr a r (Z.of_nat pos))); [exact Hs| |done]. intros xs q Hq. rewrite (find_cstr_ok H (Some q) xs) by (done || lia). by rewrite Nat2Z.id.
  - destruct (A !! t) as [[xs ct]|] eqn:Et; cbn [mbind option_bind] in Hs; [|done]. destruct (address_ok W t xs ct Et) as (b & Eb & _ & Hb & _). rewrite (prog_bind _ _ _ _ _ Eb).
    eapply ask_num_ok; [|exact Hs]. rewrite (find_string_ok H b (L t) xs) by (done || lia). by rewrite Nat2Z.id.
  - eapply (search_ok p _ v (fun r => find_first_of a r (Z.of_nat pos))); [exact Hs| |done]. intros xs q Hq. rewrite (find_first_of_ok H (Some q) xs) by (done || lia). by rewrite Nat2Z.id.
  - eapply (search_ok p _ v (fun r => find_first_not_of a r (Z.of_nat pos))); [exact Hs| |done]. intros xs q Hq. rewrite (find_first_not_of_ok H (Some q) xs) by (done || lia). by rewrite Nat2Z.id.
  - eapply (search_ok p _ v (fun r => find_last_not_of a r (Z.of_nat pos))); [exact Hs| |done]. intros xs q Hq. by rewrite (find_last_not_of_ok H (Some q) xs) by (done || lia).
  - eapply ask_num_ok; [|exact Hs]. apply (find_last_of_char_ok H). lia.
  - destruct (some_chars lits A p n) as [xs|] eqn:Ex; cbn [mbind option_bind] in Hs; [|done]. destruct (some_chars_ok W p n xs Ex) as (q & _ & Ep & Hr & _ & <- & _). rewrite (prog_bind _ _ _ _ _ Ep).
    eapply ask_num_ok; [|exact Hs]. apply (find_last_of_ok H (Some q) xs); [done|lia].
  - eapply (search_ok p _ v (fun r => rfind_cstr a r (Z.of_nat pos))); [exact Hs| |done]. intros xs q Hq. by rewrite (rfind_cstr_ok H (Some q) xs) by (done || lia).
  - destruct (decide (p = Null)) as [->|Hp]; [by eapply ask_bool_ok|].
    assert (Hx : exists xs, cstr_at lits A p = Some xs /\ Some (Bool (found (first_at (occurs l xs) (S (length l)) 0))) = Some v).
    { destruct p; [done| |]; destruct (cstr_at lits A _) as [xs|]; try done; by exists xs. }
    destruct Hx as (xs & Ex & Hv). destruct (cstr_at_ok W p xs Ex) as (q & Ep & _ & Hc & _ & Hfit & _). rewrite (prog_bind _ _ _ _ _ Ep).
    eapply ask_bool_ok; [by apply (contains_cstr_ok H (Some q) xs)|done].
  - destruct (A !! t) as [[xs ct]|] eqn:Et; cbn in Hs; [|done]. destruct (address_ok W t xs ct Et) as (b & Eb & _ & Hb & _). rewrite (prog_bind _ _ _ _ _ Eb).
    eapply ask_bool_ok; [by eapply (starts_with_string_ok H)|done].
  - destruct (A !! t) as [[xs ct]|] eqn:Et; cbn in Hs; [|done]. destruct (address_ok W t xs ct Et) as (b & Eb & _ & Hb & _). rewrite (prog_bind _ _ _ _ _ Eb).
    eapply ask_bool_ok; [by eapply (ends_with_string_ok H)|done].
Qed.

End Queries.

(** ** Programs *)

Section Refinement.

Context (allocates : Z -> bool) (lits : gmap nat (list Z)).

(** The strings of a state hold these texts, and the memory holds nothing else. *)
Definition strings_hold (st : memory * gmap nat nat) (A : gmap nat (list Z * Z)) : Prop := exists L, world lits st.1 st.2 A L None.

Lemma on_memory_ok {B} (R : Prop) (p : Prog B) f (st : memory * gmap nat nat) (P : (memory * gmap nat nat) * option value -> Prop) :
  wp R (p st.1) (fun q => P ((q.1, (f q.2).1), (f q.2).2)) -> wp R (on_memory p f st) P.
Proof using Type. intros H. unfold on_memory. apply wp_bind. eapply wp_mono; [exact H|]. by intros [m b]. Qed.

#[export] Instance string_refines : Refines (run_op allocates) (spec_op lits) (need_op allocates lits) strings_hold.
Proof using Type.
  intros R o [m E] A A' r [L W] Hs HR. cbn [fst snd] in W. destruct o as [s k|s t|s e|s t|s|s q]; cbn [spec_op need_op run_op snd] in *; apply on_memory_ok; cbn [fst snd].
  - destruct (A !! s) eqn:HA; [done|]. destruct (spec_make lits A k) as [[l' c']|] eqn:Ek; cbn in Hs; [|done]. injection Hs as <- <-.
    assert (Es : E !! s = None) by (apply eq_None_not_Some; intros Hx; apply (w_names _ _ _ _ _ _ W) in Hx; rewrite HA in Hx; by destruct Hx).
    destruct (open_storage _ _ _ _ _ W) as (m1 & Eb & Hst & W1). eapply wp_step; [exact Eb|]. pose proof (make_ok allocates R W1 Hst k l' c' Ek HR) as Hm.
    refine (prog_wp_bind R _ _ m1 _ (fun m2 _ => becomes (next_block m) Small m1 l' c' m2) Hm _). intros m2 _ Hbec. cbn. split; [|done]. by eapply put_back.
  - destruct (A !! s) eqn:HA; [done|]. destruct (A !! t) as [[lt ct]|] eqn:HAt; cbn in Hs; [|done]. injection Hs as <- <-.
    assert (Es : E !! s = None) by (apply eq_None_not_Some; intros Hx; apply (w_names _ _ _ _ _ _ W) in Hx; rewrite HA in Hx; by destruct Hx).
    destruct (address_ok W t lt ct HAt) as (b & Eb & Eb' & _). eapply wp_step; [exact Eb|].
    destruct (open_storage _ _ _ _ _ W) as (m1 & Eo & Hst & W1). eapply wp_step; [exact Eo|]. destruct (w_string _ _ _ _ _ _ W1 _ _ _ _ Eb' HAt) as [Hb _].
    destruct (move_construct_ok m1 (next_block m) b (L t) lt Hst Hb (not_made W1 t b Eb')) as (m2 & Em & M). eapply wp_step; [exact Em|].
    cbn. split; [|done]. exact (moved_world lits m1 m2 E A L (next_block m) Small s t b lt ct W1 Es Eb' HAt M).
  - destruct (A !! s) as [[l cap]|] eqn:HA; cbn in Hs; [|done]. destruct (spec_edit lits A s e l cap) as [[l' c']|] eqn:Ee; cbn in Hs; [|done]. injection Hs as <- <-.
    destruct (address_ok W s l cap HA) as (a & Ea & Ea' & _ & <-). eapply wp_step; [exact Ea|].
    eapply wp_mono; [apply (edit_ok allocates R W Ea' HA e l' c' Ee HR)|]. intros [m2 []] Hbec. cbn in *. split; [|done].
    destruct (take_out _ _ _ _ _ _ _ _ _ W Ea' HA) as [W1 _]. destruct (put_back lits m m2 _ _ L s a (L s) l' c' W1 (lookup_delete_eq _ _) Hbec) as [L' W2].
    exists L'. cbn [fst snd]. rewrite !insert_delete_eq in W2. by rewrite (insert_id E s a Ea') in W2.
  - destruct (A !! s) as [[l cap]|] eqn:HA; cbn in Hs; [|done]. destruct (A !! t) as [[lt ct]|] eqn:HAt; cbn in Hs; [|done].
    destruct (address_ok W s l cap HA) as (a & Ea & Ea' & Hsa & _). destruct (address_ok W t lt ct HAt) as (b & Eb & Eb' & Hsb & _).
    eapply wp_step; [exact Ea|]. eapply wp_step; [exact Eb|]. destruct (Nat.eqb_spec s t) as [<-|Hne]; injection Hs as <- <-.
    + rewrite Ea' in Eb'. injection Eb' as <-. eapply prog_wp_done; [apply self_move|]. split; [by exists L|done].
    + pose proof (w_apart _ _ _ _ _ _ W s t a b Hne Ea' Eb') as Hap. destruct (move_assign_ok m a b (L s) (L t) l lt Hsa Hsb (proj1 Hap) Hap) as (m2 & Em & M).
      eapply prog_wp_done; [exact Em|]. cbn. split; [|done]. destruct (take_out _ _ _ _ _ _ _ _ _ W Ea' HA) as [W1 _].
      destruct (moved_world lits m m2 _ _ L a (L s) s t b lt ct W1 (lookup_delete_eq _ _)) as [L' W2]; [by rewrite lookup_delete_ne|by rewrite lookup_delete_ne|exact M|].
      exists L'. cbn [fst snd]. rewrite insert_delete_eq, (insert_id E s a Ea') in W2. rewrite <- delete_insert_ne, insert_delete_eq in W2 by done. exact W2.
  - destruct (A !! s) as [[l cap]|] eqn:HA; cbn in Hs; [|done]. injection Hs as <- <-. destruct (address_ok W s l cap HA) as (a & Ea & Ea' & Hsa & _).
    eapply wp_step; [exact Ea|]. eapply prog_wp_done; [exact (destruct_ok m a (L s) l Hsa)|]. cbn. split; [|done]. exists L. cbn [fst snd].
    destruct (take_out _ _ _ _ _ _ _ _ _ W Ea' HA) as [W1 _]. exact (ended_world _ _ _ _ _ _ _ W1).
  - destruct (A !! s) as [[l cap]|] eqn:HA; cbn in Hs; [|done]. destruct (spec_query lits A q l cap) as [v|] eqn:Eq; cbn in Hs; [|done]. injection Hs as <- <-.
    destruct (address_ok W s l cap HA) as (a & Ea & Ea' & _). eapply wp_step; [exact Ea|]. eapply prog_wp_done; [by eapply (query_ok W Ea' HA)|].
    cbn. split; [by exists L|done].
Qed.

(** C17. Every program over strings that the text semantics accepts runs without breaking a
    rule of the memory: no access outside an object, a buffer or an array, no read of an
    uninitialised byte, no overlapping [MemCopy], no buffer freed twice or with another
    size than it was allocated with, and no [BASE_BUGCHECK] fails, also where an argument
    points into the string being changed.  The text and the capacity of every string and
    every answer are the specified ones, and no other block exists.  It stops early only
    when the allocator refuses a request or a length does not fit, and never when the
    stated requests are granted. *)
Theorem BaseString_programs os st A A' outs :
  strings_hold st A -> spec_ops (spec_op lits) os A = Some (A', outs) ->
  run_ops (run_op allocates) os st <> Undef /\
  (forall st' outs', run_ops (run_op allocates) os st = Ok (st', outs') -> strings_hold st' A' /\ outs' = outs) /\
  (needs (spec_op lits) (need_op allocates lits) os A -> exists st', run_ops (run_op allocates) os st = Ok (st', outs) /\ strings_hold st' A').
Proof using Type. apply (programs_refine (run_op allocates) (spec_op lits) (need_op allocates lits) strings_hold). Qed.

(** When a program has destroyed the strings it made, the memory holds the arrays of
    the caller as they were, and nothing else. *)
Theorem BaseString_no_leak os st A outs st' outs' :
  strings_hold st A -> spec_ops (spec_op lits) os A = Some (∅, outs) -> run_ops (run_op allocates) os st = Ok (st', outs') ->
  forall b, blocks st'.1 !! b = (fun zs => (false, Byte <$> zs)) <$> lits !! b.
Proof using Type.
  intros H Hs Hr b. destruct (programs_refine (run_op allocates) (spec_op lits) (need_op allocates lits) strings_hold os st A ∅ outs H Hs) as (_ & Hok & _).
  destruct (Hok _ _ Hr) as [[L W] _]. destruct (lits !! b) as [zs|] eqn:Eb; [exact (w_literal _ _ _ _ _ _ W _ _ Eb)|]. cbn.
  apply eq_None_not_Some. intros Hb. destruct (w_all _ _ _ _ _ _ W b Hb) as [Hl|[(s & a & Es & _)|(a & lay & [=] & _)]].
  - rewrite Eb in Hl. by destruct Hl.
  - destruct (world_address _ _ _ _ _ _ _ _ W Es) as (l & cap & HA). by rewrite lookup_empty in HA.
Qed.

End Refinement.

(** A program with an inline string that grows from its own buffer, copies, moves,
    shrinks, searches and compares. *)
Definition example_lits : gmap nat (list Z) := {[0%nat := [104; 101; 108; 108; 111; 0]]}.

Definition example_memory : memory := mkMemory {[0%nat := (false, Byte <$> [104; 101; 108; 108; 111; 0])]} 1.

Definition example_ops : list op :=
  [Make 0 (MCStr (Lit 0 0)); Edit 0 (EAppendChars (Own 0 1) 3); Edit 0 (EInsert 2 10 120); Edit 0 (EAppendString 0);
   Ask 0 QCapacity; Make 1 (MCopy 0); Edit 1 (EErase 4 (2 ^ 64 - 1)); Edit 1 EShrinkToFit; Ask 1 QCStr; Ask 1 QIsInline;
   MoveConstruct 2 0; Ask 0 QSize; Ask 2 (QFind (Lit 0 3) 0); Ask 2 (QRFind (Lit 0 3) 99); Ask 2 (QCompare 1);
   Make 3 (MConcat 2 1); MoveAssign 1 3; Ask 1 QSize; Edit 1 (EAssignChars (Own 1 2) 4); Edit 1 (EResize 6); Ask 1 QCStr;
   Destroy 0; Destroy 1; Destroy 2; Destroy 3].

Definition example_answers : list (option value) :=
  [None; None; None; None; Some (Num 54); None; None; None; Some (Chars [104; 101; 120; 120; 0]); Some (Bool true);
   None; Some (Num 0); Some (Num 13); Some (Num 31); Some (Num 1);
   None; None; Some (Num 40); None; None; Some (Chars [120; 120; 120; 120; 0; 0; 0]);
   None; None; None; None].

Lemma example_holds : strings_hold example_lits (example_memory, ∅) ∅.
Proof.
  exists (fun _ => Small). split; cbn [fst snd].
  - intros b Hb. destruct (decide (b = 0)%nat) as [->|Hne]; [cbn; lia|]. unfold example_memory in Hb. cbn in Hb. rewrite lookup_singleton_ne in Hb by done. by destruct Hb.
  - intros s. by rewrite !lookup_empty.
  - intros s a l cap. by rewrite lookup_empty.
  - intros s t a b _. by rewrite lookup_empty.
  - intros a zs Ha. unfold example_lits in Ha. apply lookup_singleton_Some in Ha as [<- <-]. apply lookup_singleton_eq.
  - intros s a. by rewrite lookup_empty.
  - done.
  - intros b Hb. left. unfold example_memory in Hb. cbn in Hb. unfold example_lits. destruct (decide (b = 0)%nat) as [->|Hne]; [by rewrite lookup_singleton_eq|].
    rewrite lookup_singleton_ne in Hb by done. by destruct Hb.
Qed.

Lemma BaseString_programs_witness :
  exists st', run_ops (run_op (fun _ => true)) example_ops (example_memory, ∅) = Ok (st', example_answers) /\ strings_hold example_lits st' ∅.
Proof.
  apply (BaseString_programs (fun _ => true) example_lits example_ops (example_memory, ∅) ∅ ∅ example_answers).
  - exact example_holds.
  - vm_compute. reflexivity.
  - vm_compute. repeat (split || intros ? || discriminate || reflexivity || exact I).
Defined.

Lemma BaseString_no_leak_witness : exists st',
  run_ops (run_op (fun _ => true)) example_ops (example_memory, ∅) = Ok (st', example_answers) /\
  forall b, blocks st'.1 !! b = (fun zs => (false, Byte <$> zs)) <$> example_lits !! b.
Proof.
  eexists. split; [vm_compute; reflexivity|].
  apply (BaseString_no_leak (fun _ => true) example_lits example_ops (example_memory, ∅) ∅ example_answers _ example_answers).
  - exact example_holds.
  - vm_compute. reflexivity.
  - vm_compute. reflexivity.
Defined.
