(* ===== verification/EqPageTable.v ===== *)
(** * base::PageTable (allocator/eq_alloc/page_table.cc)

    The page table hands out pages of a reserved range of addresses, one by one or in
    runs.  Its entries are the metadata page; the operating system's answers are
    parameters: [commits] and [decommits] say which requests it grants.  [DEBUG_TRAP]
    stops the process.  Every operation runs under the table's lock. *)

From S2P Require Import Prelude Memory.

Set Default Proof Using "Type".

(** ** The code *)

Definition IN_USE : Z := 1.
Definition FREE : Z := 2.

Record PageEntry := mkEntry { flags : Z; size : Z; address : Z }.

Record PageTable := mkTable {
  entries : list PageEntry;
  address_space_ : Z;
  space_size_ : Z;
  page_size_ : Z;
  current_page_count_ : Z;
}.

Definition available (e : PageEntry) : bool := negb (Z.land (flags e) FREE =? 0).

Definition Contains (e : PageEntry) (block : Z) : bool := (address e <=? block) && (block <? u64 (address e + size e)).

(** The addresses of the pages; the metadata page comes zeroed. *)
Definition reserve_entries (address_space page_size : Z) (n : nat) : list PageEntry :=
  map (fun i => mkEntry FREE 0 (u64 (address_space + u64 (page_size * Z.of_nat i)))) (seq 0 n).

(** [raw] is what the operating system reserved, 0 for a refusal. *)
Definition ReserveAddressSpace (raw address_space_size page_size : Z) (reserve_count : nat) : res PageTable :=
  let extra := u64 (page_size - 1) in
  _ ← fatal_check (negb (raw =? 0));
  let address_space := Z.land (u64 (raw + extra)) (u64 (Z.lnot extra)) in
  Ok (mkTable (reserve_entries address_space page_size reserve_count) address_space address_space_size page_size 0).

(** What the destructor frees: the range of addresses and the page of [metadata_page_]. *)
Definition destroyed_ranges (t : PageTable) (metadata_page_ : Z) : list (Z * Z) :=
  (if negb (address_space_ t =? 0) then [(address_space_ t, space_size_ t)] else []) ++
  (if negb (metadata_page_ =? 0) then [(metadata_page_, u64 (16 * Z.of_nat (length (entries t))))] else []).

Definition PageOffset (t : PageTable) (a : Z) : res Z := _ ← dcheck (negb (address_space_ t =? 0)); Ok (u64 (a - address_space_ t)).

Fixpoint find_free (es : list PageEntry) (i : nat) : option nat :=
  match es with [] => None | e :: es => if available e then Some i else find_free es (S i) end.

Definition FindFreePage (t : PageTable) : option nat := find_free (entries t) 0.

Fixpoint find_backing (es : list PageEntry) (block : Z) (i : nat) : option nat :=
  match es with [] => None | e :: es => if address e =? block then Some i else find_backing es block (S i) end.

(** A page that is not there stops the process. *)
Definition FindBackingPage (t : PageTable) (block : Z) : res nat :=
  match find_backing (entries t) block 0 with Some i => Ok i | None => Fatal end.

Definition with_entries (t : PageTable) (es : list PageEntry) (count : Z) : PageTable :=
  mkTable es (address_space_ t) (space_size_ t) (page_size_ t) count.

Section PageTable.

Context (commits : Z -> Z -> bool) (decommits : Z -> Z -> bool).

Definition CommitRange (at_address total_size : Z) : res Z := _ ← fatal_check (commits at_address total_size); Ok at_address.

(** The block and its size, or null. *)
Definition RequestPage (t : PageTable) : res (PageTable * option (Z * Z)) :=
  match FindFreePage t with
  | None => Ok (t, None)
  | Some i =>
    match entries t !! i with
    | None => Undef
    | Some e =>
      _ ← fatal_check (negb (address e =? 0));
      block ← CommitRange (address e) (page_size_ t);
      let e := mkEntry IN_USE (u32 (page_size_ t)) block in
      Ok (with_entries t (<[i := e]> (entries t)) (u64 (current_page_count_ t + 1)), Some (block, size e))
    end
  end.

(** The inner loop: the first of [count] entries from [i] on that is in use. *)
Fixpoint first_busy (es : list PageEntry) (i count : nat) (j : nat) : res (option nat) :=
  match count with
  | O => Ok None
  | S count =>
    match es !! (i + j)%nat with
    | None => Undef
    | Some e => if available e then first_busy es i count (S j) else Ok (Some j)
    end
  end.

Fixpoint mark_used (es : list PageEntry) (i count : nat) (page_size : Z) : list PageEntry :=
  match count with
  | O => es
  | S count => mark_used (alter (fun e => mkEntry IN_USE (u32 page_size) (address e)) i es) (S i) count page_size
  end.

Fixpoint run_loop (fuel : nat) (t : PageTable) (count i : nat) : res (PageTable * option (Z * Z)) :=
  match fuel with
  | O => Undef
  | S fuel =>
    if (i + count <=? length (entries t))%nat then
      busy ← first_busy (entries t) i count 0;
      match busy with
      | Some j => run_loop fuel t count (S (i + j))
      | None =>
        match entries t !! i with
        | None => Undef
        | Some e =>
          let total := u64 (page_size_ t * Z.of_nat count) in
          base ← CommitRange (address e) total;
          Ok (with_entries t (mark_used (entries t) i count (page_size_ t)) (u64 (current_page_count_ t + Z.of_nat count)), Some (base, total))
        end
      end
    else Ok (t, None)
  end.

Definition RequestPages (t : PageTable) (count : nat) : res (PageTable * option (Z * Z)) :=
  if (count =? 0)%nat then Ok (t, None)
  else if (count =? 1)%nat then RequestPage t
  else run_loop (S (length (entries t))) t count 0.

Definition ReleasePage (t : PageTable) (page_pointer : Z) : res (PageTable * Z) :=
  if (page_pointer =? 0) || negb (decommits page_pointer (page_size_ t)) then Ok (t, 0)
  else
    i ← FindBackingPage t page_pointer;
    Ok (with_entries t (alter (fun e => mkEntry FREE (size e) (address e)) i (entries t)) (u64 (current_page_count_ t - 1)), page_size_ t).

Fixpoint release_loop (count : nat) (t : PageTable) (addr i total : Z) : res (PageTable * Z) :=
  match count with
  | O => Ok (t, total)
  | S count =>
    '(t, n) ← ReleasePage t (u64 (addr + u64 (page_size_ t * i)));
    release_loop count t addr (i + 1) (u64 (total + n))
  end.

Definition ReleasePages (t : PageTable) (addr : Z) (count : nat) : res (PageTable * Z) := release_loop count t addr 0 0.

End PageTable.

(** ** The state it keeps *)

(** Which pages are in use, from the base [b] on, [2^k] bytes each. *)
Definition entry_of (b ps : Z) (i : nat) (e : PageEntry) (used : bool) : Prop :=
  flags e = (if used then IN_USE else FREE) /\ address e = b + ps * Z.of_nat i /\ (used = true -> size e = ps).

Fixpoint count_used (us : list bool) : nat := match us with [] => 0%nat | u :: us => ((if u then 1 else 0) + count_used us)%nat end.

Record table_ok (t : PageTable) (us : list bool) : Prop := {
  t_entries : length (entries t) = length us /\ forall i e u, entries t !! i = Some e -> us !! i = Some u -> entry_of (address_space_ t) (page_size_ t) i e u;
  t_count : current_page_count_ t = Z.of_nat (count_used us);
  t_page : exists k, 7 <= k < 32 /\ page_size_ t = 2 ^ k;
  t_aligned : address_space_ t mod page_size_ t = 0;
  t_range : 0 < address_space_ t /\ address_space_ t + page_size_ t * Z.of_nat (length us) <= 2 ^ 64;
}.

Definition page_at (t : PageTable) (i : nat) : Z := address_space_ t + page_size_ t * Z.of_nat i.

(** ** Lemmas *)

Lemma land_page_mask a k : 0 <= k <= 64 -> 0 <= a < 2 ^ 64 -> Z.land a (u64 (Z.lnot (2 ^ k - 1))) = a - a mod 2 ^ k.
Proof.
  intros Hk Ha. assert (E : Z.land a (u64 (Z.lnot (2 ^ k - 1))) = Z.ldiff a (Z.ones k)).
  { apply Z.bits_inj'. intros i Hi. rewrite Z.land_spec, Z.ldiff_spec. unfold wrap. replace (2 ^ k - 1) with (Z.ones k) by (rewrite Z.ones_equiv; lia).
    destruct (Z.lt_ge_cases i 64) as [Hlt|Hge]; [by rewrite Z.mod_pow2_bits_low, Z.lnot_spec by lia|]. by rewrite (testbit_high a 64 i) by lia. }
  rewrite E, Z.ldiff_ones_r, Z.shiftl_mul_pow2, Z.shiftr_div_pow2 by lia. pose proof (Z_div_mod_eq_full a (2 ^ k)). lia.
Qed.

Lemma count_used_app us vs : count_used (us ++ vs) = (count_used us + count_used vs)%nat.
Proof. induction us as [|u us IH]; cbn; lia. Qed.

Lemma count_used_replicate n : count_used (replicate n false) = 0%nat.
Proof. induction n; cbn; lia. Qed.

Lemma count_used_insert us i (u v : bool) : us !! i = Some u ->
  Z.of_nat (count_used (<[i := v]> us)) = Z.of_nat (count_used us) + (if v then 1 else 0) - (if u then 1 else 0).
Proof.
  revert i. induction us as [|x us IH]; intros [|i] E; try done.
  - injection E as ->. change (<[0%nat:=v]> (u :: us)) with (v :: us). cbn [count_used]. destruct u, v; lia.
  - specialize (IH i E). change (<[S i:=v]> (x :: us)) with (x :: <[i:=v]> us). cbn [count_used]. destruct x, u, v; lia.
Qed.

Lemma count_used_le us : (count_used us <= length us)%nat.
Proof. induction us as [|[] us IH]; cbn; lia. Qed.

Section Table.

Context {t : PageTable} {us : list bool} (H : table_ok t us).

Lemma entry_at i e : entries t !! i = Some e -> exists u, us !! i = Some u /\ entry_of (address_space_ t) (page_size_ t) i e u.
Proof using H.
  intros E. destruct (t_entries _ _ H) as [Hl He]. destruct (lookup_lt_is_Some_2 us i) as [u Eu]; [rewrite <- Hl; by eapply lookup_lt_Some|]. eauto.
Qed.

Lemma at_entry i u : us !! i = Some u -> exists e, entries t !! i = Some e /\ entry_of (address_space_ t) (page_size_ t) i e u.
Proof using H.
  intros E. destruct (t_entries _ _ H) as [Hl He]. destruct (lookup_lt_is_Some_2 (entries t) i) as [e Ee]; [rewrite Hl; by eapply lookup_lt_Some|]. eauto.
Qed.

Lemma page_size_pos : 128 <= page_size_ t < 2 ^ 32.
Proof using H.
  destruct (t_page _ _ H) as (k & Hk & ->). split; [change 128 with (2 ^ 7); apply Z.pow_le_mono_r; lia|apply Z.pow_lt_mono_r; lia].
Qed.

Lemma page_at_range i : (i < length us)%nat -> 0 < page_at t i /\ page_at t i + page_size_ t <= 2 ^ 64.
Proof using H. pose proof page_size_pos. destruct (t_range _ _ H). unfold page_at. intros Hi. split; nia. Qed.

Lemma page_at_inj i j : page_at t i = page_at t j -> i = j.
Proof using H. pose proof page_size_pos. unfold page_at. intros E. nia. Qed.

(** Different pages do not overlap. *)
Lemma pages_apart i j : i <> j -> page_at t i + page_size_ t <= page_at t j \/ page_at t j + page_size_ t <= page_at t i.
Proof using H. pose proof page_size_pos. unfold page_at. intros Hij. assert (i < j \/ j < i)%nat as [?|?] by lia; [left|right]; nia. Qed.

Lemma available_ok i e u : entry_of (address_space_ t) (page_size_ t) i e u -> available e = negb u.
Proof using Type. intros (E & _ & _). unfold available. rewrite E. by destruct u. Qed.

End Table.

(** *** The reservation *)

Lemma reserve_lookup b ps n i : reserve_entries b ps n !! i = if decide (i < n)%nat then Some (mkEntry FREE 0 (u64 (b + u64 (ps * Z.of_nat i)))) else None.
Proof.
  unfold reserve_entries. destruct (decide (i < n)%nat) as [Hi|Hi].
  - rewrite list_lookup_fmap, lookup_seq_lt by done. done.
  - rewrite list_lookup_fmap, lookup_seq_ge by lia. done.
Qed.

(** The usable range starts at the first multiple of the page size in the reservation. *)
Lemma ReserveAddressSpace_ok raw space k n : 7 <= k < 32 -> 0 < raw -> (0 < n)%nat -> raw + (2 ^ k - 1) + 2 ^ k * Z.of_nat n <= 2 ^ 64 ->
  exists t, ReserveAddressSpace raw space (2 ^ k) n = Ok t /\ table_ok t (replicate n false) /\ page_size_ t = 2 ^ k /\ raw <= address_space_ t < raw + 2 ^ k.
Proof.
  intros Hk Hraw Hn Hfit. assert (Hp : 128 <= 2 ^ k < 2 ^ 32) by (split; [change 128 with (2 ^ 7); apply Z.pow_le_mono_r; lia|apply Z.pow_lt_mono_r; lia]).
  unfold ReserveAddressSpace. rewrite (proj2 (Z.eqb_neq raw 0)) by lia. cbn [negb fatal_check mbind]. cbn. rewrite (wrap_small 64 (2 ^ k - 1)) by (unfold fits; lia).
  rewrite (wrap_small 64 (raw + _)) by (unfold fits; nia). rewrite land_page_mask by (lia || nia). set (b := raw + (2 ^ k - 1) - (raw + (2 ^ k - 1)) mod 2 ^ k).
  pose proof (Z.mod_pos_bound (raw + (2 ^ k - 1)) (2 ^ k) ltac:(lia)) as Hmod. eexists. split; [done|]. split; [|split; [done|cbn; lia]]. split; cbn [entries address_space_ page_size_ current_page_count_].
  - unfold reserve_entries. rewrite length_map, length_seq, length_replicate. split; [done|]. intros i e u Ee Eu. change (map _ (seq 0 n)) with (reserve_entries b (2 ^ k) n) in Ee.
    rewrite reserve_lookup in Ee. apply lookup_replicate in Eu as [-> Hi]. rewrite decide_True in Ee by done. injection Ee as <-. split; [done|]. split; [|done]. cbn [address].
    rewrite (wrap_small 64 (2 ^ k * _)) by (unfold fits; nia). apply wrap_small. unfold fits. nia.
  - by rewrite count_used_replicate.
  - by exists k.
  - unfold b. rewrite Zminus_mod_idemp_r, Z.sub_diag. apply Zmod_0_l.
  - rewrite length_replicate. split; lia.
Qed.

(** *** One page *)

(** The first page that is free. *)
Fixpoint first_free (us : list bool) (i : nat) : option nat :=
  match us with [] => None | u :: us => if u then first_free us (S i) else Some i end.

Lemma first_free_spec us k : match first_free us k with
  | Some i => (k <= i)%nat /\ us !! (i - k)%nat = Some false /\ forall j, (k <= j < i)%nat -> us !! (j - k)%nat = Some true
  | None => forall j u, us !! j = Some u -> u = true
  end.
Proof.
  revert k. induction us as [|u us IH]; intros k; cbn [first_free]; [done|]. destruct u.
  - specialize (IH (S k)). destruct (first_free us (S k)) as [i|].
    + destruct IH as (H1 & H2 & H3). split; [lia|]. replace (i - k)%nat with (S (i - S k)) by lia. split; [done|]. intros j Hj.
      destruct (decide (j = k)) as [->|]; [by rewrite Nat.sub_diag|]. replace (j - k)%nat with (S (j - S k)) by lia. apply H3. lia.
    + intros [|j] u; cbn; [by intros [= <-]|apply IH].
  - split; [done|]. rewrite Nat.sub_diag. split; [done|lia].
Qed.

Lemma find_free_ok t us : table_ok t us -> FindFreePage t = first_free us 0.
Proof.
  intros H. unfold FindFreePage. destruct (t_entries _ _ H) as [Hl He]. revert Hl He. generalize (address_space_ t) (page_size_ t). intros b ps.
  assert (Hg : forall es vs k, length es = length vs -> (forall i e u, es !! i = Some e -> vs !! i = Some u -> available e = negb u) -> find_free es k = first_free vs k).
  { induction es as [|e es IH]; intros [|v vs] k Hl Ha; cbn; try done. rewrite (Ha 0%nat e v eq_refl eq_refl). injection Hl as Hl. destruct v; [|done].
    apply IH; [done|]. intros i e' u' E1 E2. by apply (Ha (S i)). }
  intros Hl He. apply Hg; [done|]. intros i e u E1 E2. destruct (He i e u E1 E2) as (Ef & _). unfold available. rewrite Ef. by destruct u.
Qed.

(** The rest of the table stays. *)
Definition same_pages (t t' : PageTable) : Prop := address_space_ t' = address_space_ t /\ page_size_ t' = page_size_ t /\ space_size_ t' = space_size_ t.

Lemma set_entry_ok t us i e u v count : table_ok t us -> us !! i = Some u -> entry_of (address_space_ t) (page_size_ t) i e v ->
  count = Z.of_nat (count_used (<[i := v]> us)) -> table_ok (with_entries t (<[i := e]> (entries t)) count) (<[i := v]> us).
Proof.
  intros H Eu He Hc. destruct (t_entries _ _ H) as [Hl Hes]. destruct (t_range _ _ H). split; cbn.
  - rewrite !length_insert. split; [done|]. intros j e' u' E1 E2. destruct (decide (i = j)) as [<-|Hne].
    + rewrite list_lookup_insert_eq in E1 by (rewrite Hl; by eapply lookup_lt_Some). rewrite list_lookup_insert_eq in E2 by (by eapply lookup_lt_Some).
      injection E1 as <-. by injection E2 as <-.
    + rewrite list_lookup_insert_ne in E1 by done. rewrite list_lookup_insert_ne in E2 by done. by apply Hes.
  - done.
  - apply (t_page _ _ H).
  - apply (t_aligned _ _ H).
  - rewrite length_insert. done.
Qed.

Lemma pages_bound t us : table_ok t us -> Z.of_nat (length us) < 2 ^ 57 + 1.
Proof. intros H. pose proof (page_size_pos H). destruct (t_range _ _ H). nia. Qed.

Section Requests.

Context (commits : Z -> Z -> bool) (decommits : Z -> Z -> bool) (R : Prop).

(** Under [R] the operating system grants every commit inside the reservation. *)
Definition grants_pages (t : PageTable) : Prop := forall i n, commits (page_at t i) (page_size_ t * Z.of_nat n) = true.

Lemma RequestPage_ok t us : table_ok t us -> (R -> grants_pages t) ->
  wp R (RequestPage commits t) (fun r => same_pages t r.1 /\
    match first_free us 0 with
    | Some i => table_ok r.1 (<[i := true]> us) /\ r.2 = Some (page_at t i, page_size_ t)
    | None => r = (t, None)
    end).
Proof.
  intros H HR. pose proof (page_size_pos H) as Hps. unfold RequestPage. rewrite (find_free_ok t us H). pose proof (first_free_spec us 0) as Hs. destruct (first_free us 0) as [i|]; [|done].
  destruct Hs as (_ & Eu & _). rewrite Nat.sub_0_r in Eu. destruct (at_entry H i false Eu) as (e & Ee & (Ef & Ea & _)). rewrite Ee.
  pose proof (page_at_range H i ltac:(by eapply lookup_lt_Some)) as [Hp1 Hp2]. fold (page_at t i) in Ea. rewrite Ea, (proj2 (Z.eqb_neq (page_at t i) 0)) by lia. cbn [negb fatal_check mbind]. cbn.
  unfold CommitRange. destruct (commits (page_at t i) (page_size_ t)) eqn:Ec; cbn.
  - split; [done|]. rewrite (wrap_small 32) by (unfold fits; lia). split; [|done]. apply (set_entry_ok t us i _ false true); [done|done| |].
    + split; [done|]. by split.
    + rewrite (count_used_insert us i false true Eu). rewrite (t_count _ _ H). pose proof (count_used_le us). pose proof (pages_bound t us H). rewrite Z.sub_0_r. apply wrap_small. unfold fits. lia.
  - intros r. specialize (HR r i 1%nat). rewrite Z.mul_1_r in HR. congruence.
Qed.

(** *** A run of pages *)

Fixpoint set_range (us : list bool) (i n : nat) (b : bool) : list bool :=
  match n with O => us | S n => set_range (<[i := b]> us) (S i) n b end.

Definition free_run (us : list bool) (i n : nat) : Prop := (i + n <= length us)%nat /\ forall j, (j < n)%nat -> us !! (i + j)%nat = Some false.

Lemma length_set_range us i n b : length (set_range us i n b) = length us.
Proof. revert us i. induction n as [|n IH]; intros us i; [done|]. cbn [set_range]. by rewrite IH, length_insert. Qed.

Lemma set_range_lookup us i n b j : (i + n <= length us)%nat ->
  set_range us i n b !! j = if decide (i <= j < i + n)%nat then Some b else us !! j.
Proof.
  revert us i. induction n as [|n IH]; intros us i Hl; cbn [set_range]; [by rewrite decide_False by lia|].
  rewrite IH by (rewrite length_insert; lia). destruct (decide (j = i)) as [->|Hne].
  - rewrite decide_False by lia. rewrite decide_True by lia. rewrite list_lookup_insert_eq by lia. done.
  - rewrite list_lookup_insert_ne by done. destruct (decide (S i <= j < S i + n)%nat); [by rewrite decide_True by lia|by rewrite decide_False by lia].
Qed.

Lemma first_busy_ok t us i count j : table_ok t us -> (i + j + count <= length us)%nat ->
  exists r, first_busy (entries t) i count j = Ok r /\
    match r with
    | Some x => (j <= x < j + count)%nat /\ us !! (i + x)%nat = Some true
    | None => forall x, (j <= x < j + count)%nat -> us !! (i + x)%nat = Some false
    end.
Proof.
  intros H. revert j. induction count as [|count IH]; intros j Hl; cbn [first_busy].
  - exists None. split; [done|lia].
  - destruct (lookup_lt_is_Some_2 us (i + j)) as [u Eu]; [lia|]. destruct (at_entry H _ u Eu) as (e & Ee & He). rewrite Ee, (available_ok _ _ _ He).
    destruct u; cbn [negb]; [exists (Some j); split; [done|split; [lia|done]]|].
    destruct (IH (S j) ltac:(lia)) as (r & E & Hr). exists r. split; [done|]. destruct r as [x|]; [split; [lia|apply Hr]|].
    intros x Hx. destruct (decide (x = j)) as [->|]; [done|]. apply Hr. lia.
Qed.

Lemma mark_used_ok t us i n c : table_ok t us -> free_run us i n -> c = Z.of_nat (count_used us) + Z.of_nat n ->
  table_ok (with_entries t (mark_used (entries t) i n (page_size_ t)) c) (set_range us i n true).
Proof.
  intros H Hf ->. revert t us i H Hf. induction n as [|n IH]; intros t us i H [Hl Hf]; cbn [mark_used set_range].
  - destruct H. split; cbn; try done. lia.
  - pose proof (Hf 0%nat ltac:(lia)) as Eu. rewrite Nat.add_0_r in Eu. destruct (at_entry H i false Eu) as (e & Ee & (Ef & Ea & _)).
    set (e' := mkEntry IN_USE (u32 (page_size_ t)) (address e)). assert (Eal : alter (fun e => mkEntry IN_USE (u32 (page_size_ t)) (address e)) i (entries t) = <[i := e']> (entries t)).
    { apply list_eq. intros j. destruct (decide (j = i)) as [->|Hne]; [rewrite list_lookup_alter_eq, Ee, list_lookup_insert_eq by (by eapply lookup_lt_Some); done|].
      by rewrite list_lookup_alter_ne, list_lookup_insert_ne by done. }
    rewrite Eal. pose proof (page_size_pos H) as Hps. pose proof (count_used_insert us i false true Eu) as Hc.
    assert (H1 : table_ok (with_entries t (<[i:=e']> (entries t)) (Z.of_nat (count_used (<[i:=true]> us)))) (<[i:=true]> us)).
    { apply (set_entry_ok t us i _ false true); [done|done| |done]. split; [done|]. split; [done|]. intros _. apply wrap_small. unfold fits. lia. }
    pose proof (IH _ _ (S i) H1) as IH'. cbn [with_entries entries page_size_] in IH'.
    replace (Z.of_nat (count_used us) + Z.of_nat (S n)) with (Z.of_nat (count_used (<[i:=true]> us)) + Z.of_nat n) by lia. apply IH'.
    split; [rewrite length_insert; lia|]. intros j Hj. rewrite list_lookup_insert_ne by lia. replace (S i + j)%nat with (i + S j)%nat by lia. apply Hf. lia.
Qed.

(** What a request of [count] pages may answer: the first run of free pages, if there is one. *)
Definition requested (t : PageTable) (us : list bool) (count : nat) (r : PageTable * option (Z * Z)) : Prop :=
  (exists i, free_run us i count /\ (forall k, (k < i)%nat -> ~ free_run us k count) /\ same_pages t r.1 /\
     table_ok r.1 (set_range us i count true) /\ r.2 = Some (page_at t i, page_size_ t * Z.of_nat count)) \/
  ((forall k, ~ free_run us k count) /\ r = (t, None)).

Lemma run_loop_ok t us count i fuel : table_ok t us -> (R -> grants_pages t) -> (0 < count)%nat -> (length us < fuel + i)%nat -> (i <= length us)%nat ->
  (forall k, (k < i)%nat -> ~ free_run us k count) -> wp R (run_loop commits fuel t count i) (requested t us count).
Proof.
  intros H HR Hcount. pose proof (proj1 (t_entries _ _ H)) as Hlen. revert i. induction fuel as [|fuel IH]; intros i Hfuel Hi Hno; [lia|]. cbn [run_loop]. rewrite Hlen.
  destruct (Nat.leb_spec (i + count) (length us)) as [Hle|Hgt].
  2:{ right. split; [|done]. intros k [Hk Hf]. destruct (decide (k < i)%nat) as [Hki|]; [by apply (Hno k Hki)|lia]. }
  destruct (first_busy_ok t us i count 0 H ltac:(lia)) as (r & -> & Hr). cbn [mbind res_bind]. destruct r as [j|].
  - destruct Hr as [Hj Eu]. apply IH; [lia|lia|]. intros k Hk [Hk1 Hf]. destruct (decide (k < i)%nat) as [Hki|]; [by apply (Hno k Hki)|].
    specialize (Hf (i + j - k)%nat ltac:(lia)). replace (k + (i + j - k))%nat with (i + j)%nat in Hf by lia. congruence.
  - assert (Hf : free_run us i count) by (split; [done|]; intros j Hj; apply Hr; lia). pose proof (proj2 Hf 0%nat Hcount) as Eu. rewrite Nat.add_0_r in Eu.
    destruct (at_entry H i false Eu) as (e & Ee & (_ & Ea & _)). rewrite Ee. fold (page_at t i) in Ea. rewrite Ea. pose proof (page_size_pos H) as Hps. pose proof (t_range _ _ H).
    rewrite (wrap_small 64 (page_size_ t * Z.of_nat count)) by (unfold fits; nia). unfold CommitRange.
    destruct (commits (page_at t i) (page_size_ t * Z.of_nat count)) eqn:Ec; cbn; [|intros r; specialize (HR r i count); congruence].
    left. exists i. split; [done|]. split; [done|]. split; [done|]. split; [|done]. apply mark_used_ok; [done|done|]. rewrite (t_count _ _ H).
    pose proof (count_used_le us). pose proof (pages_bound t us H). apply wrap_small. unfold fits. lia.
Qed.

Lemma first_free_run us : match first_free us 0 with
  | Some i => free_run us i 1 /\ forall k, (k < i)%nat -> ~ free_run us k 1
  | None => forall k, ~ free_run us k 1
  end.
Proof.
  pose proof (first_free_spec us 0) as Hs. destruct (first_free us 0) as [i|].
  - destruct Hs as (_ & E & Hb). rewrite Nat.sub_0_r in E. split.
    + split; [apply lookup_lt_Some in E; lia|]. intros j Hj. by replace (i + j)%nat with i by lia.
    + intros k Hk [_ Hf]. specialize (Hf 0%nat ltac:(lia)). specialize (Hb k ltac:(lia)). rewrite Nat.sub_0_r in Hb. rewrite Nat.add_0_r in Hf. congruence.
  - intros k [_ Hf]. specialize (Hs (k + 0)%nat false (Hf 0%nat ltac:(lia))). done.
Qed.

Lemma RequestPages_ok t us count : table_ok t us -> (R -> grants_pages t) ->
  wp R (RequestPages commits t count) (fun r => if (count =? 0)%nat then r = (t, None) else requested t us count r).
Proof.
  intros H HR. unfold RequestPages. destruct (Nat.eqb_spec count 0) as [->|Hc]; [done|]. destruct (Nat.eqb_spec count 1) as [->|Hc1].
  - eapply wp_mono; [by apply RequestPage_ok|]. cbn. intros r [Hs Hr]. pose proof (first_free_run us) as Hf. destruct (first_free us 0) as [i|]; [|by right].
    left. exists i. destruct Hf, Hr. rewrite Z.mul_1_r. done.
  - apply run_loop_ok; [done|done|lia|rewrite (proj1 (t_entries _ _ H)); lia|lia|lia].
Qed.

(** *** Giving pages back *)

Lemma find_backing_ok t us i : table_ok t us -> (i < length us)%nat -> FindBackingPage t (page_at t i) = Ok i.
Proof.
  intros H Hi. unfold FindBackingPage. destruct (t_entries _ _ H) as [Hl Hes]. pose proof (page_size_pos H) as Hps.
  assert (Hg : forall es k, (forall j e, es !! j = Some e -> address e = page_at t (k + j)) -> (k <= i < k + length es)%nat -> find_backing es (page_at t i) k = Some i).
  { induction es as [|e es IH]; intros k Ha Hk; cbn in *; [lia|]. pose proof (Ha 0%nat e eq_refl) as E. rewrite Nat.add_0_r in E. rewrite E.
    destruct (Z.eqb_spec (page_at t k) (page_at t i)) as [E2|Hne]; [apply (page_at_inj H) in E2; by subst|].
    apply IH; [|destruct (decide (k = i)) as [->|]; [done|lia]]. intros j e' Ej. rewrite (Ha (S j) e' Ej). f_equal. lia. }
  rewrite (Hg (entries t) 0%nat); [done| |lia]. intros j e Ej. destruct (entry_at H j e Ej) as (u & _ & _ & Ea & _). done.
Qed.

(** What is not a page stops the process, if the operating system decommitted it at all. *)
Lemma find_backing_none t us a : table_ok t us -> (forall i, (i < length us)%nat -> a <> page_at t i) -> FindBackingPage t a = Fatal.
Proof.
  intros H Ha. unfold FindBackingPage. destruct (t_entries _ _ H) as [Hl Hes].
  assert (Hg : forall es k, (forall e, In e es -> address e <> a) -> find_backing es a k = None).
  { induction es as [|e es IH]; intros k Hn; cbn in *; [done|]. rewrite (proj2 (Z.eqb_neq (address e) a)) by auto. apply IH. auto. }
  rewrite Hg; [done|]. intros e He. apply list_elem_of_In, list_elem_of_lookup in He as [i Ei]. destruct (entry_at H i e Ei) as (u & Eu & _ & Ea & _).
  intros E. apply (Ha i); [by eapply lookup_lt_Some|]. unfold page_at. congruence.
Qed.

Lemma ReleasePage_ok t us i : table_ok t us -> us !! i = Some true ->
  exists t', same_pages t t' /\
    if decommits (page_at t i) (page_size_ t)
    then ReleasePage decommits t (page_at t i) = Ok (t', page_size_ t) /\ table_ok t' (<[i := false]> us)
    else ReleasePage decommits t (page_at t i) = Ok (t', 0) /\ t' = t.
Proof.
  intros H Eu. unfold ReleasePage. pose proof (page_at_range H i ltac:(by eapply lookup_lt_Some)) as [Hp _]. rewrite (proj2 (Z.eqb_neq (page_at t i) 0)) by lia. cbn [orb].
  destruct (decommits (page_at t i) (page_size_ t)); cbn [negb]; [|by exists t].
  rewrite (find_backing_ok t us i) by (done || by eapply lookup_lt_Some). cbn [mbind res_bind]. eexists. split; [|split; [done|]]; [done|].
  destruct (at_entry H i true Eu) as (e & Ee & (Ef & Ea & Es)). assert (Eal : alter (fun e => mkEntry FREE (size e) (address e)) i (entries t) = <[i := mkEntry FREE (size e) (address e)]> (entries t)).
  { apply list_eq. intros j. destruct (decide (j = i)) as [->|Hne]; [rewrite list_lookup_alter_eq, Ee, list_lookup_insert_eq by (by eapply lookup_lt_Some); done|].
    by rewrite list_lookup_alter_ne, list_lookup_insert_ne by done. }
  rewrite Eal. apply (set_entry_ok t us i _ true false); [done|done| |].
  - split; [done|]. split; [done|]. done.
  - pose proof (count_used_insert us i true false Eu) as Hc. rewrite (t_count _ _ H). pose proof (count_used_le us). pose proof (pages_bound t us H). rewrite wrap_small; unfold fits; lia.
Qed.

Lemma release_loop_ok t us addr i n k total : table_ok t us -> (forall j, (j < n)%nat -> us !! (k + i + j)%nat = Some true) ->
  (forall a, decommits a (page_size_ t) = true) -> addr = page_at t k -> total = page_size_ t * Z.of_nat i ->
  exists t', release_loop decommits n t addr (Z.of_nat i) total = Ok (t', page_size_ t * Z.of_nat (i + n)) /\ same_pages t t' /\ table_ok t' (set_range us (k + i) n false).
Proof.
  intros H Hu Hd -> ->. revert t us i H Hu Hd. induction n as [|n IH]; intros t us i H Hu Hd; cbn [release_loop set_range].
  - exists t. rewrite Nat.add_0_r. by split.
  - pose proof (Hu 0%nat ltac:(lia)) as Eu. rewrite Nat.add_0_r in Eu. pose proof (page_at_range H (k + i) ltac:(by eapply lookup_lt_Some)) as [Hp1 Hp2].
    pose proof (page_size_pos H) as Hps. destruct (t_range _ _ H) as [Hb1 Hb2]. unfold page_at in Hp1, Hp2.
    rewrite (wrap_small 64 (page_size_ t * Z.of_nat i)) by (unfold fits; nia). rewrite wrap_small by (unfold fits, page_at; nia).
    replace (page_at t k + page_size_ t * Z.of_nat i) with (page_at t (k + i)) by (unfold page_at; nia).
    destruct (ReleasePage_ok t us (k + i) H Eu) as (t' & Hs & Hr). rewrite Hd in Hr. destruct Hr as [-> H']. cbn [mbind res_bind].
    pose proof Hs as (Ea & Ep & _). rewrite <- Ep. rewrite wrap_small by (unfold fits; rewrite Ep; nia).
    destruct (IH t' _ (S i) H') as (t2 & E2 & Hs2 & H2).
    + intros j Hj. rewrite list_lookup_insert_ne by lia. replace (k + S i + j)%nat with (k + i + S j)%nat by lia. apply Hu. lia.
    + intros a. by rewrite Ep.
    + exists t2. replace (page_at t' k) with (page_at t k) in E2 by (unfold page_at; congruence).
      replace (page_size_ t' * Z.of_nat i + page_size_ t') with (page_size_ t' * Z.of_nat (S i)) by nia. replace (Z.of_nat i + 1) with (Z.of_nat (S i)) by lia.
      rewrite E2. split; [by replace (S i + n)%nat with (i + S n)%nat by lia|]. split; [unfold same_pages in *; destruct Hs2 as (? & ? & ?); destruct Hs as (? & ? & ?); split; [congruence|]; split; congruence|].
      by replace (k + S i)%nat with (S (k + i)) in H2 by lia.
Qed.

End Requests.
