(* ===== verification/EqAllocator.v ===== *)
(** * base::Allocator (allocator/eq_alloc/allocator.h): the interface of eq_alloc

    The operations every allocator of eq_alloc offers, over bytes addressed by 64-bit
    numbers, and the laws their clients need: a block that is live keeps its bytes until
    it is written or freed.  [client] programs name their blocks by handles; the laws are
    enough to show that such a program cannot tell the allocator from independent arrays. *)

From stdpp Require Export gmap.
From S2P Require Import Prelude Memory CMemory.

Set Default Proof Using "Type".

(** ** The bytes of the address space *)

Definition bytes_map : Type := Z -> Z.

Definition read_bytes (m : bytes_map) (a : Z) (n : nat) : list Z := map (fun i => m (a + Z.of_nat i)) (seq 0 n).

Definition write_bytes (m : bytes_map) (a : Z) (bs : list Z) : bytes_map := fun x =>
  if (a <=? x) && (x <? a + Z.of_nat (length bs)) then nth (Z.to_nat (x - a)) bs 0 else m x.

(** [*reinterpret_cast<void**>(a)] *)
Definition load64 (m : bytes_map) (a : Z) : Z := lval 256 (read_bytes m a 8).
Definition store64 (m : bytes_map) (a v : Z) : bytes_map := write_bytes m a (bytes_of 8 v).

(** memcpy between ranges that do not overlap. *)
Definition mem_copy (m : bytes_map) (dst src : Z) (n : nat) : res bytes_map :=
  if (dst <? src + Z.of_nat n) && (src <? dst + Z.of_nat n) then Undef else Ok (write_bytes m dst (read_bytes m src n)).

(** ** The interface *)

(** A request names the thread it comes from and a size; the null pointer is 0. *)
Class Allocator (S : Type) := {
  Allocate : S -> nat -> Z -> res (S * Z);
  ReAllocate : S -> nat -> Z -> Z -> res (S * Z);
  Free : S -> Z -> res (S * Z);
  QueryAllocationSize : S -> Z -> res Z;
  bytes : S -> bytes_map;
  with_bytes : S -> bytes_map -> S;
}.

(** What the clients rely on; [live] holds the blocks with what was written into them,
    [granted] says that the operating system grants memory. *)
Class AllocatorLaws (S : Type) `{Allocator S} (granted : Prop) := {
  inv : S -> gmap Z (list Z) -> Prop;
  max_size : Z;
  law_live s live p bs : inv s live -> live !! p = Some bs -> p <> 0 /\ read_bytes (bytes s) p (length bs) = bs;
  law_write s live p bs i b : inv s live -> live !! p = Some bs -> (i < length bs)%nat ->
    inv (with_bytes s (write_bytes (bytes s) (p + Z.of_nat i) [b])) (<[p := <[i := b]> bs]> live);
  law_allocate s live tid n : inv s live -> 0 < n <= max_size ->
    wp granted (Allocate s tid n) (fun r =>
      (r.2 = 0 /\ inv r.1 live) \/ (r.2 <> 0 /\ live !! r.2 = None /\ exists bs, Z.of_nat (length bs) = n /\ inv r.1 (<[r.2 := bs]> live)));
  law_reallocate s live tid p bs n : inv s live -> live !! p = Some bs -> 0 < n <= max_size ->
    wp granted (ReAllocate s tid p n) (fun r =>
      (r.2 = 0 /\ inv r.1 live) \/
      (r.2 <> 0 /\ (r.2 = p \/ live !! r.2 = None) /\ exists bs', Z.of_nat (length bs') = n /\
         take (min (length bs) (length bs')) bs' = take (min (length bs) (length bs')) bs /\ inv r.1 (<[r.2 := bs']> (delete p live))));
  law_free s live p bs : inv s live -> live !! p = Some bs -> wp granted (Free s p) (fun r => inv r.1 (delete p live));
  law_query s live p bs : inv s live -> live !! p = Some bs -> wp granted (QueryAllocationSize s p) (fun n => Z.of_nat (length bs) <= n);
}.

(** ** Clients *)

Inductive client_op :=
  | CAllocate (h : nat) (tid : nat) (n : Z)
  | CReAllocate (h : nat) (tid : nat) (n : Z)
  | CFree (h : nat)
  | CWrite (h : nat) (i : nat) (b : Z)
  | CRead (h : nat) (i : nat)
  | CQuery (h : nat).

Inductive client_out := Done | Failed | Skipped | Value (z : Z).

(** Requests a client may make of the allocator. *)
Definition op_fits (limit : Z) (o : client_op) : Prop :=
  match o with CAllocate _ _ n | CReAllocate _ _ n => 0 < n <= limit | _ => True end.

Section Client.

Context {S : Type} `{Allocator S}.

(** The client keeps its pointers with the sizes it asked for. *)
Abbreviation client := (S * gmap nat (Z * nat))%type.

Definition run_op (o : client_op) (c : client) : res (client * client_out) :=
  let '(s, hs) := c in
  match o with
  | CAllocate h tid n =>
    match hs !! h with
    | Some _ => Ok (c, Skipped)
    | None => '(s, p) ← Allocate s tid n; if p =? 0 then Ok ((s, hs), Failed) else Ok ((s, <[h := (p, Z.to_nat n)]> hs), Done)
    end
  | CReAllocate h tid n =>
    match hs !! h with
    | None => Ok (c, Skipped)
    | Some (p, _) => '(s, q) ← ReAllocate s tid p n; if q =? 0 then Ok ((s, hs), Failed) else Ok ((s, <[h := (q, Z.to_nat n)]> hs), Done)
    end
  | CFree h =>
    match hs !! h with None => Ok (c, Skipped) | Some (p, _) => '(s, _) ← Free s p; Ok ((s, delete h hs), Done) end
  | CWrite h i b =>
    match hs !! h with
    | Some (p, n) => if (i <? n)%nat then Ok ((with_bytes s (write_bytes (bytes s) (p + Z.of_nat i) [b]), hs), Done) else Ok (c, Skipped)
    | None => Ok (c, Skipped)
    end
  | CRead h i =>
    match hs !! h with
    | Some (p, n) => if (i <? n)%nat then Ok (c, Value (bytes s (p + Z.of_nat i))) else Ok (c, Skipped)
    | None => Ok (c, Skipped)
    end
  | CQuery h => match hs !! h with None => Ok (c, Skipped) | Some (p, _) => n ← QueryAllocationSize s p; Ok (c, Value n) end
  end.

Fixpoint run_client (os : list client_op) (c : client) : res (client * list client_out) :=
  match os with
  | [] => Ok (c, [])
  | o :: os => '(c, r) ← run_op o c; '(c, rs) ← run_client os c; Ok (c, r :: rs)
  end.

End Client.

(** ** The specification: arrays that have nothing to do with each other *)

Abbreviation arrays := (gmap nat (list Z)).

Inductive array_step : arrays -> client_op -> client_out -> arrays -> Prop :=
  | as_allocate a h tid n bs : a !! h = None -> Z.of_nat (length bs) = n -> array_step a (CAllocate h tid n) Done (<[h := bs]> a)
  | as_allocate_failed a h tid n : a !! h = None -> array_step a (CAllocate h tid n) Failed a
  | as_allocate_skip a h tid n bs : a !! h = Some bs -> array_step a (CAllocate h tid n) Skipped a
  | as_reallocate a h tid n bs bs' : a !! h = Some bs -> Z.of_nat (length bs') = n ->
      take (min (length bs) (length bs')) bs' = take (min (length bs) (length bs')) bs -> array_step a (CReAllocate h tid n) Done (<[h := bs']> a)
  | as_reallocate_failed a h tid n bs : a !! h = Some bs -> array_step a (CReAllocate h tid n) Failed a
  | as_free a h bs : a !! h = Some bs -> array_step a (CFree h) Done (delete h a)
  | as_write a h i b bs : a !! h = Some bs -> (i < length bs)%nat -> array_step a (CWrite h i b) Done (<[h := <[i := b]> bs]> a)
  | as_read a h i b bs : a !! h = Some bs -> bs !! i = Some b -> array_step a (CRead h i) (Value b) a
  | as_out a h i b bs : a !! h = Some bs -> (length bs <= i)%nat -> array_step a (CWrite h i b) Skipped a
  | as_read_out a h i bs : a !! h = Some bs -> (length bs <= i)%nat -> array_step a (CRead h i) Skipped a
  | as_query a h n bs : a !! h = Some bs -> Z.of_nat (length bs) <= n -> array_step a (CQuery h) (Value n) a
  | as_absent a o h : a !! h = None -> match o with CAllocate _ _ _ => False | CReAllocate g _ _ | CFree g | CWrite g _ _ | CRead g _ | CQuery g => g = h end ->
      array_step a o Skipped a.

Inductive array_steps : arrays -> list client_op -> list client_out -> arrays -> Prop :=
  | as_nil a : array_steps a [] [] a
  | as_cons a o r b os rs c : array_step a o r b -> array_steps b os rs c -> array_steps a (o :: os) (r :: rs) c.

(** ** Bytes *)

Lemma length_read_bytes m a n : length (read_bytes m a n) = n.
Proof. unfold read_bytes. by rewrite length_map, length_seq. Qed.

Lemma read_bytes_lookup m a n i : (i < n)%nat -> read_bytes m a n !! i = Some (m (a + Z.of_nat i)).
Proof. intros Hi. unfold read_bytes. rewrite list_lookup_fmap, lookup_seq_lt by done. done. Qed.

Lemma read_bytes_ext m m' a n : (forall x, a <= x < a + Z.of_nat n -> m' x = m x) -> read_bytes m' a n = read_bytes m a n.
Proof.
  intros E. apply list_eq. intros i. destruct (decide (i < n)%nat).
  - rewrite !read_bytes_lookup by done. f_equal. apply E. lia.
  - rewrite !lookup_ge_None_2 by (rewrite length_read_bytes; lia). done.
Qed.

Lemma read_bytes_take m a n k : (k <= n)%nat -> take k (read_bytes m a n) = read_bytes m a k.
Proof.
  intros Hk. apply list_eq. intros i. destruct (decide (i < k)%nat).
  - rewrite lookup_take_lt, !read_bytes_lookup by lia. done.
  - rewrite !lookup_ge_None_2 by (rewrite ?length_take, length_read_bytes; lia). done.
Qed.

Lemma write_bytes_in m a bs i : (i < length bs)%nat -> write_bytes m a bs (a + Z.of_nat i) = nth i bs 0.
Proof.
  intros Hi. unfold write_bytes. rewrite (proj2 (Z.leb_le a _)), (proj2 (Z.ltb_lt _ _)) by lia. cbn. f_equal. lia.
Qed.

Lemma write_bytes_out m a bs x : x < a \/ a + Z.of_nat (length bs) <= x -> write_bytes m a bs x = m x.
Proof. intros Hx. unfold write_bytes. destruct (Z.leb_spec a x), (Z.ltb_spec x (a + Z.of_nat (length bs))); cbn; (done || lia). Qed.

Lemma read_write m a bs : read_bytes (write_bytes m a bs) a (length bs) = bs.
Proof.
  apply list_eq. intros i. destruct (decide (i < length bs)%nat).
  - rewrite read_bytes_lookup, write_bytes_in by done. destruct (lookup_lt_is_Some_2 bs i) as [x E]; [done|]. by rewrite E, (nth_lookup_Some _ _ 0 _ E).
  - by rewrite !lookup_ge_None_2 by (rewrite ?length_read_bytes; lia).
Qed.

Lemma read_write_apart m a bs b n : b + Z.of_nat n <= a \/ a + Z.of_nat (length bs) <= b -> read_bytes (write_bytes m a bs) b n = read_bytes m b n.
Proof. intros Hd. apply read_bytes_ext. intros x Hx. apply write_bytes_out. lia. Qed.

(** One byte of a range that is overwritten. *)
Lemma read_write_byte m a bs i b : read_bytes m a (length bs) = bs -> (i < length bs)%nat ->
  read_bytes (write_bytes m (a + Z.of_nat i) [b]) a (length bs) = <[i := b]> bs.
Proof.
  intros E Hi. apply list_eq. intros j. destruct (decide (j < length bs)%nat).
  - rewrite read_bytes_lookup by done. destruct (decide (j = i)) as [->|Hne].
    + rewrite list_lookup_insert_eq by done. f_equal. unfold write_bytes. rewrite Z.leb_refl, (proj2 (Z.ltb_lt _ _)) by (cbn; lia). cbn. by rewrite Z.sub_diag.
    + rewrite list_lookup_insert_ne by done. rewrite write_bytes_out by (cbn; lia). rewrite <- E at 1. by rewrite read_bytes_lookup.
  - by rewrite !lookup_ge_None_2 by (rewrite ?length_read_bytes, ?length_insert; lia).
Qed.

Lemma load_store64 m a v : fits 64 v -> load64 (store64 m a v) a = v.
Proof.
  intros Hv. unfold load64, store64. pose proof (read_write m a (bytes_of 8 v)) as E. rewrite length_bytes_of in E. rewrite E. apply lval_bytes. change (256 ^ Z.of_nat 8) with (2 ^ 64). done.
Qed.

Lemma load64_ext m m' a : (forall x, a <= x < a + 8 -> m' x = m x) -> load64 m' a = load64 m a.
Proof. intros E. unfold load64. by rewrite (read_bytes_ext m m'). Qed.

Lemma mem_copy_ok m dst src n : dst + Z.of_nat n <= src \/ src + Z.of_nat n <= dst -> mem_copy m dst src n = Ok (write_bytes m dst (read_bytes m src n)).
Proof. intros Hd. unfold mem_copy. destruct (Z.ltb_spec dst (src + Z.of_nat n)), (Z.ltb_spec src (dst + Z.of_nat n)); cbn; (done || lia). Qed.

(** ** Every lawful allocator refines the arrays *)

Section Refinement.

Context {S : Type} {G : Prop} `{Laws : AllocatorLaws S G}.

(** The handles name different live blocks. *)
Record client_ok (c : S * gmap nat (Z * nat)) (live : gmap Z (list Z)) (a : arrays) : Prop := {
  c_inv : inv c.1 live;
  c_blocks h : match c.2 !! h with Some (p, n) => exists bs, live !! p = Some bs /\ length bs = n /\ a !! h = Some bs | None => a !! h = None end;
  c_apart h h' p n n' : c.2 !! h = Some (p, n) -> c.2 !! h' = Some (p, n') -> h = h';
}.

Lemma client_block s hs live a h p n : client_ok (s, hs) live a -> hs !! h = Some (p, n) -> exists bs, live !! p = Some bs /\ length bs = n /\ a !! h = Some bs.
Proof using Type. intros Hc E. pose proof (c_blocks _ _ _ Hc h) as Hb. cbn in Hb. by rewrite E in Hb. Qed.

Lemma client_none s hs live a h : client_ok (s, hs) live a -> hs !! h = None -> a !! h = None.
Proof using Type. intros Hc E. pose proof (c_blocks _ _ _ Hc h) as Hb. cbn in Hb. by rewrite E in Hb. Qed.

(** One handle gets a block that no other handle names. *)
Lemma client_put s s' hs live live' a h p bs : client_ok (s, hs) live a -> inv s' live' -> live' !! p = Some bs ->
  (forall h' p' n', h' <> h -> hs !! h' = Some (p', n') -> p' <> p /\ live' !! p' = live !! p') ->
  client_ok (s', <[h := (p, length bs)]> hs) live' (<[h := bs]> a).
Proof using Type.
  intros Hc Hi Ep Ho. split; cbn.
  - done.
  - intros h'. destruct (decide (h' = h)) as [->|Hne]; [rewrite !lookup_insert_eq; eauto|]. rewrite !lookup_insert_ne by done.
    pose proof (c_blocks _ _ _ Hc h') as Hb. cbn in Hb. destruct (hs !! h') as [[p' n']|] eqn:E; [|done]. destruct Hb as (bs' & E' & ? & ?).
    exists bs'. by rewrite (proj2 (Ho _ _ _ Hne E)).
  - intros h1 h2 q n1 n2. destruct (decide (h1 = h)) as [->|N1]; destruct (decide (h2 = h)) as [->|N2]; rewrite ?lookup_insert_eq, ?lookup_insert_ne by done.
    + done.
    + intros [= <- <-] E. by destruct (Ho _ _ _ N2 E).
    + intros E [= <- <-]. by destruct (Ho _ _ _ N1 E).
    + intros E1 E2. by apply (c_apart _ _ _ Hc h1 h2 q n1 n2).
Qed.

Lemma client_drop s s' hs live live' a h : client_ok (s, hs) live a -> inv s' live' ->
  (forall h' p' n', h' <> h -> hs !! h' = Some (p', n') -> live' !! p' = live !! p') -> client_ok (s', delete h hs) live' (delete h a).
Proof using Type.
  intros Hc Hi Ho. split; cbn.
  - done.
  - intros h'. destruct (decide (h' = h)) as [->|Hne]; [by rewrite !lookup_delete_eq|]. rewrite !lookup_delete_ne by done.
    pose proof (c_blocks _ _ _ Hc h') as Hb. cbn in Hb. destruct (hs !! h') as [[p' n']|] eqn:E; [|done]. destruct Hb as (bs' & E' & ? & ?).
    exists bs'. by rewrite (Ho _ _ _ Hne E).
  - intros h1 h2 q n1 n2 E1 E2. apply lookup_delete_Some in E1 as [_ E1]. apply lookup_delete_Some in E2 as [_ E2]. by apply (c_apart _ _ _ Hc h1 h2 q n1 n2).
Qed.

Lemma client_inv s s' hs live a : client_ok (s, hs) live a -> inv s' live -> client_ok (s', hs) live a.
Proof using Type. intros [? ? ?] Hi. by split. Qed.

Lemma others_apart s hs live a h p n : client_ok (s, hs) live a -> hs !! h = Some (p, n) -> forall h' p' n', h' <> h -> hs !! h' = Some (p', n') -> p' <> p.
Proof using Type. intros Hc E h' p' n' Hne E' ->. apply Hne. by apply (c_apart _ _ _ Hc h' h p n' n). Qed.

Lemma run_op_refines o c live a : client_ok c live a -> op_fits max_size o ->
  wp G (run_op o c) (fun r => exists live' a', client_ok r.1 live' a' /\ array_step a o r.2 a').
Proof using Type.
  destruct c as [s hs]. intros Hc Hf. pose proof (c_inv _ _ _ Hc) as Hi. cbn in Hi.
  destruct o as [h tid n|h tid n|h|h i b|h i|h]; cbn [run_op]; (destruct (hs !! h) as [[p k]|] eqn:Eh; [destruct (client_block _ _ _ _ _ _ _ Hc Eh) as (bs & El & Ek & Ea)|pose proof (client_none _ _ _ _ _ Hc Eh) as Ea]).
  - exists live, a. split; [done|by econstructor].
  - apply wp_bind. eapply wp_mono; [by apply law_allocate|]. intros [s' p] Hr; cbn in Hr. destruct Hr as [[-> Hi']|(Hp & Ep & bs & En & Hi')]; cbn.
    + exists live, a. split; [by apply (client_inv s)|by constructor].
    + rewrite (proj2 (Z.eqb_neq p 0)) by done. cbn. exists (<[p := bs]> live), (<[h := bs]> a). split; [|by constructor].
      rewrite <- En, Nat2Z.id. apply (client_put s s' hs live); [done|done|apply lookup_insert_eq|]. intros h' p' n' Hne E.
      destruct (client_block _ _ _ _ _ _ _ Hc E) as (bs' & El & _). assert (p' <> p) by congruence. by rewrite lookup_insert_ne.
  - apply wp_bind. eapply wp_mono; [by apply law_reallocate|]. intros [s' q] Hr; cbn in Hr. destruct Hr as [[-> Hi']|(Hq & Eq & bs' & En & Et & Hi')]; cbn.
    + exists live, a. split; [by apply (client_inv s)|by econstructor].
    + rewrite (proj2 (Z.eqb_neq q 0)) by done. cbn. exists (<[q := bs']> (delete p live)), (<[h := bs']> a). split; [|by econstructor].
      rewrite <- En, Nat2Z.id. apply (client_put s s' hs live); [done|done|apply lookup_insert_eq|]. intros h' p' n' Hne E.
      pose proof (others_apart _ _ _ _ _ _ _ Hc Eh _ _ _ Hne E) as Hp. destruct (client_block _ _ _ _ _ _ _ Hc E) as (bs2 & El2 & _).
      assert (p' <> q) by (destruct Eq as [->|Eq]; congruence). rewrite lookup_insert_ne, lookup_delete_ne by done. done.
  - exists live, a. split; [done|by eapply as_absent].
  - apply wp_bind. eapply wp_mono; [by apply (law_free s live p bs)|]. intros [s' n] Hi'; cbn in *. exists (delete p live), (delete h a). split; [|by econstructor].
    apply (client_drop s s' hs live); [done|done|]. intros h' p' n' Hne E. rewrite lookup_delete_ne; [done|]. intros ->. by apply (others_apart _ _ _ _ _ _ _ Hc Eh _ _ _ Hne E).
  - exists live, a. split; [done|by eapply as_absent].
  - subst k. destruct (Nat.ltb_spec i (length bs)) as [Hlt|Hge].
    + pose proof (law_write _ _ _ _ i b Hi El Hlt) as Hi'. exists (<[p := <[i := b]> bs]> live), (<[h := <[i := b]> bs]> a). split; [|by constructor].
      cbn. rewrite <- (insert_id hs h _ Eh). rewrite <- (length_insert bs i b) at 1. apply (client_put s _ hs live); [done|done|apply lookup_insert_eq|].
      intros h' p' n' Hne E. pose proof (others_apart _ _ _ _ _ _ _ Hc Eh _ _ _ Hne E) as Hp. by rewrite lookup_insert_ne.
    + exists live, a. split; [done|by eapply as_out].
  - exists live, a. split; [done|by eapply as_absent].
  - subst k. destruct (Nat.ltb_spec i (length bs)) as [Hlt|Hge].
    + exists live, a. split; [done|]. apply as_read with bs; [done|]. destruct (law_live _ _ _ _ Hi El) as [_ E]. rewrite <- E at 1. by apply read_bytes_lookup.
    + exists live, a. split; [done|by eapply as_read_out].
  - exists live, a. split; [done|by eapply as_absent].
  - apply wp_bind. eapply wp_mono; [by apply (law_query s live p bs)|]. cbn. intros n Hn. exists live, a. split; [done|by econstructor].
  - exists live, a. split; [done|by eapply as_absent].
Qed.

Lemma run_client_refines os c live a : client_ok c live a -> Forall (op_fits max_size) os ->
  wp G (run_client os c) (fun r => exists live' a', client_ok r.1 live' a' /\ array_steps a os r.2 a').
Proof using Type.
  revert c live a. induction os as [|o os IH]; intros c live a Hc Hf; cbn [run_client]; [exists live, a; split; [done|constructor]|].
  apply Forall_cons_1 in Hf as [Ho Hf]. apply wp_bind. eapply wp_mono; [by apply (run_op_refines o c live a)|]. intros [c1 r] (live1 & a1 & Hc1 & Hs1). cbn in *.
  apply wp_bind. eapply wp_mono; [by apply (IH c1 live1 a1)|]. intros [c2 rs] (live2 & a2 & Hc2 & Hs2). cbn in *. exists live2, a2. split; [done|by econstructor].
Qed.

(** From an allocator with no live block, every client sees independent arrays. *)
Lemma client_refines os s : inv s ∅ -> Forall (op_fits max_size) os ->
  wp G (run_client os (s, ∅)) (fun r => exists a, array_steps ∅ os r.2 a).
Proof using Type.
  intros Hi Hf. eapply wp_mono; [apply (run_client_refines os (s, ∅) ∅ ∅)|]; [|done|].
  - split; cbn; [done| |]; intros *; rewrite lookup_empty; done.
  - intros r (live & a & _ & Hs). by exists a.
Qed.

End Refinement.
