(* ===== verification/Bits.v ===== *)
(** * Counting bits (containers/builtins_bit.h)

    The compiler's builtins have their documented meaning: [builtin_clz] and
    [builtin_ctz] say nothing of zero. *)

From S2P Require Import Prelude Memory.

Set Default Proof Using "Type".

(** ** The compiler's builtins *)

Definition builtin_clz (w v : Z) : res Z := if v =? 0 then Undef else Ok (w - 1 - Z.log2 v).

Fixpoint ones_from (n : nat) (v : Z) : Z := match n with O => 0 | S n => Z.b2z (Z.odd v) + ones_from n (Z.div2 v) end.
Fixpoint zeros_from (n : nat) (v : Z) : Z := match n with O => 0 | S n => if Z.odd v then 0 else 1 + zeros_from n (Z.div2 v) end.

Definition builtin_popcount (w v : Z) : Z := ones_from (Z.to_nat w) v.
Definition builtin_ctz (w v : Z) : res Z := if v =? 0 then Undef else Ok (zeros_from (Z.to_nat w) v).

(** ** The code, for an unsigned type of [digits] bits *)

Definition PopCount (digits value : Z) : Z :=
  if digits <=? 16 then builtin_popcount 32 (u32 value)
  else if digits =? 32 then builtin_popcount 32 value
  else builtin_popcount 64 value.

Definition CountLeftZero (digits value : Z) : res Z :=
  if value =? 0 then Ok digits
  else if digits <=? 32 then n ← builtin_clz 32 (u32 value); Ok (n - (32 - digits))
  else builtin_clz 64 (u64 value).

Definition CountRightZero (digits value : Z) : res Z :=
  if value =? 0 then Ok digits
  else if digits <=? 32 then builtin_ctz 32 (u32 value)
  else builtin_ctz 64 (u64 value).

(** ** What they count *)

(** The widths of the library's unsigned types. *)
Definition width_ok (w : Z) : Prop := w = 8 \/ w = 16 \/ w = 32 \/ w = 64.

Lemma fits_wider w w' v : w <= w' -> fits w v -> fits w' v.
Proof. intros Hw [H1 H2]. split; [done|]. pose proof (Z.pow_le_mono_r 2 w w' ltac:(lia) Hw). lia. Qed.

(** The highest bit that is set. *)
Lemma CountLeftZero_ok w v : width_ok w -> fits w v ->
  exists n, CountLeftZero w v = Ok n /\ 0 <= n <= w /\
    (v <> 0 -> n = w - 1 - Z.log2 v) /\ (v = 0 -> n = w).
Proof.
  intros Hw Hv. unfold CountLeftZero. destruct (Z.eqb_spec v 0) as [->|Hne]; [exists w; unfold width_ok in Hw; split; [done|]; split; [lia|]; done|].
  assert (Hl : 0 <= Z.log2 v < w) by (split; [apply Z.log2_nonneg|]; destruct Hv; apply Z.log2_lt_pow2; lia).
  exists (w - 1 - Z.log2 v). unfold builtin_clz. destruct (Z.leb_spec w 32) as [H|H].
  - rewrite wrap_small by (by apply (fits_wider w)). rewrite (proj2 (Z.eqb_neq v 0)) by done. cbn. split; [f_equal; lia|]. split; [lia|]. split; [lia|done].
  - rewrite wrap_small by (apply (fits_wider w); [unfold width_ok in Hw; lia|done]). rewrite (proj2 (Z.eqb_neq v 0)) by done.
    unfold width_ok in Hw. split; [f_equal; lia|]. split; [lia|]. split; [lia|done].
Qed.

Lemma ones_from_S n v : ones_from (S n) v = ones_from n v + Z.b2z (Z.testbit v (Z.of_nat n)).
Proof.
  revert v. induction n as [|n IH]; intros v; [cbn [ones_from]; rewrite Z.bit0_odd; lia|].
  change (ones_from (S (S n)) v) with (Z.b2z (Z.odd v) + ones_from (S n) (Z.div2 v)). rewrite IH. cbn [ones_from]. rewrite Z.div2_spec, Z.shiftr_spec by lia.
  replace (Z.of_nat n + 1) with (Z.of_nat (S n)) by lia. lia.
Qed.

(** [PopCount] sums the bits. *)
Lemma ones_from_sum n v : ones_from n v = Z.of_nat (length (filter (fun i => Z.testbit v (Z.of_nat i) = true) (seq 0 n))).
Proof.
  induction n as [|n IH]; [done|]. rewrite ones_from_S, IH, seq_S, list.filter_app, length_app. cbn [Nat.add]. rewrite filter_cons, filter_nil.
  destruct (Z.testbit v (Z.of_nat n)); [rewrite decide_True by done|rewrite decide_False by done]; cbn; lia.
Qed.

Lemma ones_from_wider n m v : (n <= m)%nat -> fits (Z.of_nat n) v -> ones_from m v = ones_from n v.
Proof.
  intros Hm Hv. induction Hm as [|m Hm IH]; [done|]. rewrite ones_from_S, IH, (testbit_high v (Z.of_nat n)) by (done || lia). cbn. lia.
Qed.

(** The number of bits that are set. *)
Lemma PopCount_ok w v : width_ok w -> fits w v ->
  PopCount w v = Z.of_nat (length (filter (fun i => Z.testbit v (Z.of_nat i) = true) (seq 0 (Z.to_nat w)))).
Proof.
  intros Hw Hv. rewrite <- ones_from_sum. unfold PopCount, builtin_popcount.
  destruct Hw as [-> | [-> | [-> | ->]]]; cbn [Z.leb Z.compare Pos.compare Pos.compare_cont Z.eqb Pos.eqb].
  - rewrite wrap_small by (by apply (fits_wider 8)). by apply (ones_from_wider 8); [lia|].
  - rewrite wrap_small by (by apply (fits_wider 16)). by apply (ones_from_wider 16); [lia|].
  - done.
  - done.
Qed.

Lemma zeros_from_ok n v : 0 <= zeros_from n v <= Z.of_nat n /\ (forall i, 0 <= i < zeros_from n v -> Z.testbit v i = false) /\
  (zeros_from n v < Z.of_nat n -> Z.testbit v (zeros_from n v) = true).
Proof.
  revert v. induction n as [|n IH]; intros v; cbn [zeros_from]; [split; [lia|]; split; [lia|lia]|]. destruct (Z.odd v) eqn:E.
  - split; [lia|]. split; [lia|]. intros _. by rewrite Z.bit0_odd.
  - destruct (IH (Z.div2 v)) as (H1 & H2 & H3). rewrite Z.div2_spec in *. split; [lia|]. split.
    + intros i Hi. destruct (decide (i = 0)) as [->|]; [by rewrite Z.bit0_odd|]. specialize (H2 (i - 1) ltac:(lia)). rewrite Z.shiftr_spec in H2 by lia.
      by replace (i - 1 + 1) with i in H2 by lia.
    + intros Hlt. specialize (H3 ltac:(lia)). rewrite Z.shiftr_spec in H3 by lia. by replace (1 + zeros_from n (Z.shiftr v 1)) with (zeros_from n (Z.shiftr v 1) + 1) by lia.
Qed.

(** The lowest bit that is set. *)
Lemma CountRightZero_ok w v : width_ok w -> fits w v ->
  exists n, CountRightZero w v = Ok n /\ 0 <= n <= w /\ (forall i, 0 <= i < n -> Z.testbit v i = false) /\ (v <> 0 -> Z.testbit v n = true).
Proof.
  intros Hw Hv. unfold CountRightZero. destruct (Z.eqb_spec v 0) as [->|Hne].
  - exists w. unfold width_ok in Hw. split; [done|]. split; [lia|]. split; [intros; apply Z.testbit_0_l|done].
  - assert (Hz : forall k, w <= k -> 0 <= zeros_from (Z.to_nat k) v <= w /\ (forall i, 0 <= i < zeros_from (Z.to_nat k) v -> Z.testbit v i = false) /\
      Z.testbit v (zeros_from (Z.to_nat k) v) = true).
    { intros k Hk. destruct (zeros_from_ok (Z.to_nat k) v) as (H1 & H2 & H3). assert (Hlt : zeros_from (Z.to_nat k) v <= Z.log2 v).
      { apply Z.le_ngt. intros Hgt. specialize (H2 (Z.log2 v) ltac:(pose proof (Z.log2_nonneg v); lia)). rewrite Z.bit_log2 in H2 by (destruct Hv; lia). done. }
      assert (Z.log2 v < w) by (destruct Hv; apply Z.log2_lt_pow2; lia). split; [lia|]. split; [done|]. apply H3. unfold width_ok in Hw. lia. }
    unfold builtin_ctz.
    destruct (Z.leb_spec w 32) as [H|H]; rewrite (wrap_small _ v) by (apply (fits_wider w); [unfold width_ok in Hw; lia|done]); rewrite (proj2 (Z.eqb_neq v 0)) by done.
    + destruct (Hz 32 H) as (? & ? & ?). by eexists.
    + destruct (Hz 64 ltac:(unfold width_ok in Hw; lia)) as (? & ? & ?). by eexists.
Qed.
