(* ===== verification/EqBucket.v ===== *)
(** * base::BucketAllocator (allocator/eq_alloc/bucket_allocator.h, bucket_allocator.cc)

    Small blocks are slots of slabs, pages that serve one size class each.  A slab's
    header is a record at the base of its page; the slots and the list of the free ones,
    linked through their first eight bytes, are bytes of memory.  Every operation runs
    under the lock of its size class and is one step here, on behalf of any thread: the
    active slabs are per thread, the slabs are shared. *)

From S2P Require Import Prelude Memory CMemory EqPageTable EqAllocator Bits.

Set Default Proof Using "Type".
Set Warnings "-clear-no-such-hyp".
#[local] Open Scope Z_scope.

(** ** The code *)

Definition kPageSize : Z := 65536.
Definition kNumClasses : Z := 8.
Definition kClassSizes : list Z := [8; 16; 32; 64; 128; 256; 512; 1024].

Record SlabHeader := mkSlab {
  free_list : Z;
  next_page : Z;
  class_index : Z;
  slot_size : Z;
  total_slots : Z;
  bump : Z;
}.

Definition sizeof_SlabHeader : Z := 64.

(** [active] holds [tl_] of every thread, null where nothing was written. *)
Record Bucket := mkBucket {
  page_table_ : PageTable;
  page_mask_ : Z;
  slabs : gmap Z SlabHeader;
  active : gmap (nat * nat) Z;
  heap : bytes_map;
}.

Definition set_slab (s : Bucket) (b : Z) (h : SlabHeader) : Bucket := mkBucket (page_table_ s) (page_mask_ s) (<[b := h]> (slabs s)) (active s) (heap s).
Definition set_heap (s : Bucket) (m : bytes_map) : Bucket := mkBucket (page_table_ s) (page_mask_ s) (slabs s) (active s) m.
Definition with_bump (h : SlabHeader) (n : Z) : SlabHeader := mkSlab (free_list h) (next_page h) (class_index h) (slot_size h) (total_slots h) n.
Definition with_free (h : SlabHeader) (p : Z) : SlabHeader := mkSlab p (next_page h) (class_index h) (slot_size h) (total_slots h) (bump h).

(** The constructor; [m] is what the memory holds, [others] the other threads' slabs. *)
Definition BucketAllocator (pt : PageTable) (m : bytes_map) (tid : nat) (others : gmap (nat * nat) Z) : Bucket :=
  mkBucket pt (u64 (Z.lnot (u64 (page_size_ pt - 1)))) ∅ (filter (fun p => p.1.1 <> tid) others) m.

Definition ClassIndex (size : Z) : res Z :=
  if size <=? 8 then Ok 0 else n ← CountLeftZero 64 (u64 (size - 1)); Ok (64 - n - 3).

(** The write that faults the system pages in. *)
Definition prefault (m : bytes_map) (raw page_size : Z) : bytes_map :=
  fold_left (fun m i => write_bytes m (raw + 4096 * Z.of_nat i) [0]) (seq 0 (Z.to_nat ((page_size + 4095) / 4096))) m.

Definition SlabFromPtr (s : Bucket) (p : Z) : Z := Z.land p (page_mask_ s).

Section Bucket.

Context (commits : Z -> Z -> bool).

Definition NewSlab (s : Bucket) (idx : Z) : res (Bucket * Z) :=
  '(t, raw) ← RequestPage commits (page_table_ s);
  match raw with
  | None => Ok (mkBucket t (page_mask_ s) (slabs s) (active s) (heap s), 0)
  | Some (raw, _) =>
    match kClassSizes !! Z.to_nat idx with
    | None => Undef
    | Some size =>
      let m := prefault (heap s) raw (page_size_ t) in
      let slot_size := u32 size in
      let usable := u32 (page_size_ t - sizeof_SlabHeader) in
      Ok (mkBucket t (page_mask_ s) (<[raw := mkSlab 0 0 (u32 idx) slot_size (usable / slot_size) 0]> (slabs s)) (active s) m, raw)
    end
  end.

Definition AllocateSlowLocked (s : Bucket) (tid : nat) (idx : Z) : res (Bucket * Z) :=
  '(s, slab) ← NewSlab s idx;
  if slab =? 0 then Ok (s, 0) else
  match slabs s !! slab with
  | None => Undef
  | Some h => Ok (mkBucket (page_table_ s) (page_mask_ s) (<[slab := with_bump h 1]> (slabs s)) (<[(tid, Z.to_nat idx) := slab]> (active s)) (heap s), slab + sizeof_SlabHeader)
  end.

(** [bins_[idx]] has to exist. *)
Definition bucket_allocate (s : Bucket) (tid : nat) (size : Z) : res (Bucket * Z) :=
  idx ← ClassIndex size;
  if (idx <? 0) || (kNumClasses <=? idx) then Undef else
  let slab := default 0 (active s !! (tid, Z.to_nat idx)) in
  if slab =? 0 then AllocateSlowLocked s tid idx else
  match slabs s !! slab with
  | None => Undef
  | Some h =>
    if negb (free_list h =? 0) then
      Ok (set_slab s slab (with_free h (load64 (heap s) (free_list h))), free_list h)
    else if bump h <? total_slots h then
      Ok (set_slab s slab (with_bump h (u32 (bump h + 1))), slab + sizeof_SlabHeader + u64 (bump h * slot_size h))
    else AllocateSlowLocked s tid idx
  end.

Definition bucket_free (s : Bucket) (block : Z) : res (Bucket * Z) :=
  if block =? 0 then Ok (s, 0) else
  let slab := SlabFromPtr s block in
  match slabs s !! slab with
  | None => Undef
  | Some h =>
    _ ← dcheck (class_index h <? kNumClasses);
    Ok (set_slab (set_heap s (store64 (heap s) block (free_list h))) slab (with_free h block), slot_size h)
  end.

Definition bucket_reallocate (s : Bucket) (tid : nat) (former_block new_size : Z) : res (Bucket * Z) :=
  if former_block =? 0 then bucket_allocate s tid new_size
  else if new_size =? 0 then '(s, _) ← bucket_free s former_block; Ok (s, 0)
  else
    match slabs s !! SlabFromPtr s former_block with
    | None => Undef
    | Some h =>
      if new_size <=? slot_size h then Ok (s, former_block) else
      '(s, new_block) ← bucket_allocate s tid new_size;
      if new_block =? 0 then Ok (s, 0) else
      match slabs s !! SlabFromPtr s former_block with
      | None => Undef
      | Some h =>
        m ← mem_copy (heap s) new_block former_block (Z.to_nat (slot_size h));
        '(s, _) ← bucket_free (set_heap s m) former_block;
        Ok (s, new_block)
      end
    end.

Definition bucket_query (s : Bucket) (block : Z) : res Z :=
  if block =? 0 then Ok 0 else
  let slab := SlabFromPtr s block in
  if slab =? 0 then Ok 0 else match slabs s !! slab with None => Undef | Some h => Ok (slot_size h) end.

#[export] Instance bucket_allocator : Allocator Bucket := {|
  Allocate := bucket_allocate; ReAllocate := bucket_reallocate; Free := bucket_free;
  QueryAllocationSize := bucket_query; bytes := heap; with_bytes := set_heap |}.

End Bucket.

(** ** The invariant *)

Definition slot (b : Z) (h : SlabHeader) (i : nat) : Z := b + sizeof_SlabHeader + slot_size h * Z.of_nat i.

(** The free slots in the order they are linked. *)
Fixpoint chain (m : bytes_map) (at_ : nat -> Z) (p : Z) (fl : list nat) : Prop :=
  match fl with [] => p = 0 | i :: fl => p = at_ i /\ chain m at_ (load64 m (at_ i)) fl end.

Record slab_shape (t : PageTable) (us : list bool) (b : Z) (h : SlabHeader) : Prop := {
  sh_page : exists i, us !! i = Some true /\ b = page_at t i;
  sh_class : 0 <= class_index h < kNumClasses;
  sh_size : slot_size h = 2 ^ (3 + class_index h);
  sh_total : total_slots h = (kPageSize - sizeof_SlabHeader) / slot_size h;
  sh_bump : 0 <= bump h <= total_slots h;
}.

(** The slots handed out so far are live or on the list, never both. *)
Definition slab_free (m : bytes_map) (live : gmap Z (list Z)) (b : Z) (h : SlabHeader) (fl : list nat) : Prop :=
  chain m (slot b h) (free_list h) fl /\ NoDup fl /\ forall i, i ∈ fl <-> Z.of_nat i < bump h /\ live !! slot b h i = None.

Record bucket_ok (us : list bool) (s : Bucket) (live : gmap Z (list Z)) : Prop := {
  bo_table : table_ok (page_table_ s) us;
  bo_page : page_size_ (page_table_ s) = kPageSize;
  bo_mask : page_mask_ s = u64 (Z.lnot (kPageSize - 1));
  bo_shape b h : slabs s !! b = Some h -> slab_shape (page_table_ s) us b h;
  bo_free b h : slabs s !! b = Some h -> exists fl, slab_free (heap s) live b h fl;
  bo_live p bs : live !! p = Some bs -> exists b h i, slabs s !! b = Some h /\ Z.of_nat i < bump h /\ p = slot b h i /\
      Z.of_nat (length bs) <= slot_size h /\ read_bytes (heap s) p (length bs) = bs;
  bo_active tid c b : active s !! (tid, c) = Some b -> b = 0 \/ exists h, slabs s !! b = Some h /\ class_index h = Z.of_nat c;
}.

(** ** Where slots are *)

Lemma class_sizes c : 0 <= c < kNumClasses -> kClassSizes !! Z.to_nat c = Some (2 ^ (3 + c)).
Proof. unfold kNumClasses. intros H. assert (c = 0 \/ c = 1 \/ c = 2 \/ c = 3 \/ c = 4 \/ c = 5 \/ c = 6 \/ c = 7) as [-> | [-> | [-> | [-> | [-> | [-> | [-> | ->]]]]]]] by lia; done. Qed.

Lemma class_size_bounds c : 0 <= c < kNumClasses -> 8 <= 2 ^ (3 + c) <= 1024.
Proof. unfold kNumClasses. intros H. split; [change 8 with (2 ^ 3)|change 1024 with (2 ^ 10)]; apply Z.pow_le_mono_r; lia. Qed.

(** Every size up to 1 KiB has a class, the smallest that fits. *)
Lemma ClassIndex_ok size : 0 < size <= 1024 ->
  exists c, ClassIndex size = Ok c /\ 0 <= c < kNumClasses /\ size <= 2 ^ (3 + c) /\ (0 < c -> 2 ^ (2 + c) < size).
Proof.
  intros Hs. unfold ClassIndex, kNumClasses. destruct (Z.leb_spec size 8) as [H8|H8]; [exists 0; split; [done|]; lia|].
  rewrite wrap_small by (unfold fits; lia). destruct (CountLeftZero_ok 64 (size - 1)) as (n & -> & Hn & En & _); [unfold width_ok; lia|unfold fits; lia|].
  rewrite En by lia. cbn [mbind res_bind]. set (k := Z.log2 (size - 1)). destruct (Z.log2_spec (size - 1)) as [H1 H2]; [lia|]. fold k in H1, H2.
  assert (Hk : 2 < k < 10). { split; (apply (Z.pow_lt_mono_r_iff 2); [lia|unfold k; pose proof (Z.log2_nonneg (size - 1)); lia|]).
    - apply Z.le_lt_trans with 4; [lia|]. assert (~ 2 ^ k <= 4); [|lia]. intros Hc. rewrite Z.pow_succ_r in H2 by (unfold k; apply Z.log2_nonneg). lia.
    - change (2 ^ 10) with 1024. lia. }
  exists (k - 2). split; [f_equal; lia|]. split; [lia|]. replace (3 + (k - 2)) with (Z.succ k) by lia. replace (2 + (k - 2)) with k by lia. lia.
Qed.

Section Slots.

Context {t : PageTable} {us : list bool} (Ht : table_ok t us) (Hp : page_size_ t = kPageSize).

Lemma slab_base b h : slab_shape t us b h -> 0 < b /\ b + kPageSize <= 2 ^ 64 /\ b mod kPageSize = 0.
Proof using Ht Hp.
  intros [(i & Eu & ->) _ _ _ _]. pose proof (page_at_range Ht i ltac:(by eapply lookup_lt_Some)). rewrite Hp in *. split; [lia|]. split; [lia|].
  unfold page_at. rewrite Hp, Z.mul_comm, Z_mod_plus_full, <- Hp. apply (t_aligned _ _ Ht).
Qed.

Lemma slot_bounds b h i : slab_shape t us b h -> Z.of_nat i < total_slots h ->
  b + 64 <= slot b h i /\ slot b h i + slot_size h <= b + kPageSize /\ 8 <= slot_size h <= 1024.
Proof using Type.
  intros [_ Hc Es Et _] Hi. pose proof (class_size_bounds _ Hc) as Hb. rewrite <- Es in Hb. unfold slot, sizeof_SlabHeader, kPageSize in *. rewrite Et in Hi.
  pose proof (Z.mul_div_le (65536 - 64) (slot_size h) ltac:(lia)). nia.
Qed.

(** A slot leads back to its slab. *)
Lemma slab_of_slot b h i k : slab_shape t us b h -> Z.of_nat i < total_slots h -> 0 <= k < slot_size h ->
  Z.land (slot b h i + k) (u64 (Z.lnot (kPageSize - 1))) = b.
Proof using Ht Hp.
  intros Hs Hi Hk. destruct (slab_base b h Hs) as (H1 & H2 & H3). pose proof (slot_bounds b h i Hs Hi) as Hb. change (kPageSize) with (2 ^ 16) at 1.
  rewrite land_page_mask by (unfold kPageSize in *; lia). change (2 ^ 16) with kPageSize.
  replace ((slot b h i + k) mod kPageSize) with (slot b h i + k - b); [lia|].
  apply (Z.mod_unique _ _ (b / kPageSize)); [left; unfold kPageSize in *; lia|]. pose proof (Z_div_mod_eq_full b kPageSize). lia.
Qed.

(** Different slots do not overlap. *)
Lemma slots_apart b h i b' h' i' : slab_shape t us b h -> slab_shape t us b' h' -> Z.of_nat i < total_slots h -> Z.of_nat i' < total_slots h' ->
  (b = b' -> slot_size h = slot_size h') -> b <> b' \/ i <> i' ->
  slot b h i + slot_size h <= slot b' h' i' \/ slot b' h' i' + slot_size h' <= slot b h i.
Proof using Ht Hp.
  intros Hs Hs' Hi Hi' Eh Hd. pose proof (slot_bounds b h i Hs Hi). pose proof (slot_bounds b' h' i' Hs' Hi'). destruct (decide (b = b')) as [->|Hne].
  - rewrite <- (Eh eq_refl) in *. unfold slot in *. rewrite <- (Eh eq_refl) in *. assert (i < i' \/ i' < i)%nat as [?|?] by (destruct Hd; [done|lia]); [left|right]; nia.
  - destruct (sh_page _ _ _ _ Hs) as (k & _ & Ek). destruct (sh_page _ _ _ _ Hs') as (k' & _ & Ek').
    pose proof (pages_apart Ht k k' ltac:(intros ->; congruence)) as Ha. rewrite Hp, <- Ek, <- Ek' in Ha. lia.
Qed.

End Slots.

Lemma chain_ext m m' at_ p fl : (forall i, i ∈ fl -> load64 m' (at_ i) = load64 m (at_ i)) -> chain m at_ p fl -> chain m' at_ p fl.
Proof.
  revert p. induction fl as [|i fl IH]; intros p E H; cbn in *; [done|]. destruct H as [-> H]. split; [done|]. rewrite E by set_solver.
  apply IH; [|done]. intros j Hj. apply E. set_solver.
Qed.

Lemma chain_head m at_ p fl : chain m at_ p fl -> (p = 0 /\ fl = []) \/ exists i l, fl = i :: l /\ p = at_ i /\ chain m at_ (load64 m (at_ i)) l.
Proof. destruct fl as [|i l]; cbn; [by left|]. intros [-> H]. right. by exists i, l. Qed.

(** ** One slot changes *)

(** What the headers of a slab never change. *)
Definition same_slab (h h' : SlabHeader) : Prop := class_index h' = class_index h /\ slot_size h' = slot_size h /\ total_slots h' = total_slots h.

Lemma slot_same b h h' i : same_slab h h' -> slot b h' i = slot b h i.
Proof. intros (_ & E & _). unfold slot. by rewrite E. Qed.

Lemma slot_with_bump b h n i : slot b (with_bump h n) i = slot b h i.
Proof. done. Qed.

Lemma slot_with_free b h p i : slot b (with_free h p) i = slot b h i.
Proof. done. Qed.

Lemma bump_with_bump h n : bump (with_bump h n) = n.
Proof. done. Qed.

Lemma bump_with_free h p : bump (with_free h p) = bump h.
Proof. done. Qed.

Section Update.

Context {us : list bool} {s : Bucket} {live : gmap Z (list Z)} (H : bucket_ok us s live).

Lemma shape_at b h : slabs s !! b = Some h -> slab_shape (page_table_ s) us b h.
Proof using H. apply (bo_shape _ _ _ H). Qed.

Lemma apart_at b h i b' h' i' : slabs s !! b = Some h -> slabs s !! b' = Some h' -> Z.of_nat i < total_slots h -> Z.of_nat i' < total_slots h' ->
  b <> b' \/ i <> i' -> slot b h i + slot_size h <= slot b' h' i' \/ slot b' h' i' + slot_size h' <= slot b h i.
Proof using H.
  intros E E' Hi Hi' Hd. eapply (slots_apart (bo_table _ _ _ H) (bo_page _ _ _ H)); eauto using shape_at. intros <-. congruence.
Qed.

Lemma size_at b h : slabs s !! b = Some h -> 8 <= slot_size h <= 1024.
Proof using H. intros E. destruct (shape_at b h E) as [_ Hc Es _ _]. rewrite Es. by apply class_size_bounds. Qed.

Lemma bump_at b h : slabs s !! b = Some h -> 0 <= bump h <= total_slots h.
Proof using H. intros E. by destruct (shape_at b h E). Qed.

Lemma bucket_update b h i0 h' m' live' fl' : slabs s !! b = Some h -> same_slab h h' -> bump h <= bump h' <= total_slots h -> Z.of_nat i0 < bump h' ->
  (forall x, x < slot b h i0 \/ slot b h i0 + slot_size h <= x -> m' x = heap s x) ->
  (forall q, q <> slot b h i0 -> live' !! q = live !! q) ->
  slab_free m' live' b h' fl' ->
  (forall bs, live' !! slot b h i0 = Some bs -> Z.of_nat (length bs) <= slot_size h /\ read_bytes m' (slot b h i0) (length bs) = bs) ->
  bucket_ok us (set_slab (set_heap s m') b h') live'.
Proof using H.
  intros Eb Hsame Hbump Hi0 Hm Hl Hf Hnew. pose proof Hsame as (Ec & Es & Et). pose proof (size_at b h Eb) as Hsz. pose proof (bump_at b h Eb) as Hb. split; cbn; try apply H.
  - intros b2 h2 E2. destruct (decide (b2 = b)) as [->|Hne].
    + rewrite lookup_insert_eq in E2. injection E2 as <-. destruct (shape_at b h Eb). split; rewrite ?Ec, ?Es, ?Et; (done || lia).
    + rewrite lookup_insert_ne in E2 by done. by apply shape_at.
  - intros b2 h2 E2. destruct (decide (b2 = b)) as [->|Hne].
    + rewrite lookup_insert_eq in E2. injection E2 as <-. by exists fl'.
    + rewrite lookup_insert_ne in E2 by done. destruct (bo_free _ _ _ H b2 h2 E2) as (fl & Hc & Hn & Hi). pose proof (bump_at _ _ E2) as Hb2. pose proof (size_at _ _ E2) as Hs2. exists fl. split; [|split; [done|]].
      * apply (chain_ext (heap s)); [|done]. intros i Hin. apply load64_ext. intros x Hx. apply Hm. apply Hi in Hin as [Hin _].
        destruct (apart_at b h i0 b2 h2 i Eb E2) as [?|?]; lia || (left; congruence).
      * intros i. rewrite Hi. split; intros [Hib El]; (split; [done|]); rewrite <- El; [|symmetry]; apply Hl; intros Eq; destruct (apart_at b h i0 b2 h2 i Eb E2); lia || (left; congruence).
  - intros p bs Ep. destruct (decide (p = slot b h i0)) as [->|Hne].
    + destruct (Hnew bs Ep) as [H1 H2]. exists b, h', i0. rewrite lookup_insert_eq, (slot_same _ h h'), Es by done. done.
    + rewrite Hl in Ep by done. destruct (bo_live _ _ _ H p bs Ep) as (b2 & h2 & i2 & E2 & Hi2 & -> & Hlen & Hr). pose proof (bump_at _ _ E2) as Hb2.
      assert (Hread : read_bytes m' (slot b2 h2 i2) (length bs) = bs).
      { rewrite <- Hr at 2. apply read_bytes_ext. intros x Hx. apply Hm. assert (Hd : b <> b2 \/ i0 <> i2).
        { destruct (decide (b = b2)) as [<-|]; [|by left]. right. intros ->. apply Hne. congruence. }
        destruct (apart_at b h i0 b2 h2 i2 Eb E2); lia || done. }
      destruct (decide (b2 = b)) as [->|Hb'].
      * assert (h2 = h) as -> by congruence. exists b, h', i2. rewrite lookup_insert_eq, (slot_same _ h h'), Es by done. split; [done|]. split; [lia|]. done.
      * exists b2, h2, i2. rewrite lookup_insert_ne by done. done.
  - intros tid c b2 E2. destruct (bo_active _ _ _ H tid c b2 E2) as [->|(h2 & Eh & Ecl)]; [by left|right]. destruct (decide (b2 = b)) as [->|Hne].
    + exists h'. rewrite lookup_insert_eq. split; [done|]. rewrite Ec. congruence.
    + exists h2. by rewrite lookup_insert_ne.
Qed.

End Update.

(** ** The operations *)

(** Slabs stay what they are. *)
Definition keeps_slabs (s s' : Bucket) : Prop := forall b h, slabs s !! b = Some h -> exists h', slabs s' !! b = Some h' /\ same_slab h h'.

(** A new block holds whatever its bytes hold. *)
Definition handed_out (s : Bucket) (live : gmap Z (list Z)) (n : Z) (us' : list bool) (r : Bucket * Z) : Prop :=
  r.2 <> 0 /\ live !! r.2 = None /\ keeps_slabs s r.1 /\ exists bs, Z.of_nat (length bs) = n /\ bucket_ok us' r.1 (<[r.2 := bs]> live).

Lemma keeps_set s b h h' : slabs s !! b = Some h -> same_slab h h' -> keeps_slabs s (set_slab s b h').
Proof.
  intros E Hs b2 h2 E2. cbn. destruct (decide (b2 = b)) as [->|Hne]; [rewrite lookup_insert_eq; assert (h2 = h) as -> by congruence; by exists h'|].
  rewrite lookup_insert_ne by done. by exists h2.
Qed.

Section Steps.

Context {us : list bool} {s : Bucket} {live : gmap Z (list Z)} (H : bucket_ok us s live).

Lemma slot_nonzero b h i : slabs s !! b = Some h -> Z.of_nat i < total_slots h -> 0 < slot b h i < 2 ^ 64.
Proof using H.
  intros E Hi. pose proof (shape_at H b h E) as Hs. pose proof (slot_bounds b h i Hs Hi). destruct (slab_base (bo_table _ _ _ H) (bo_page _ _ _ H) b h Hs) as (? & ? & _). lia.
Qed.

Lemma slab_of b h i : slabs s !! b = Some h -> Z.of_nat i < total_slots h -> SlabFromPtr s (slot b h i) = b.
Proof using H.
  intros E Hi. unfold SlabFromPtr. rewrite (bo_mask _ _ _ H). pose proof (size_at H b h E). rewrite <- (Z.add_0_r (slot b h i)).
  apply (slab_of_slot (bo_table _ _ _ H) (bo_page _ _ _ H)); [by apply (shape_at H)|done|lia].
Qed.

Lemma not_yet_live b h i : slabs s !! b = Some h -> bump h <= Z.of_nat i < total_slots h -> live !! slot b h i = None.
Proof using H.
  intros E Hi. destruct (live !! slot b h i) as [bs|] eqn:El; [|done]. exfalso. destruct (bo_live _ _ _ H _ _ El) as (b2 & h2 & i2 & E2 & Hi2 & Es & _).
  pose proof (bump_at H _ _ E2). pose proof (size_at H _ _ E2). pose proof (size_at H _ _ E). assert (Hd : b <> b2 \/ i <> i2).
  { destruct (decide (b = b2)) as [<-|]; [|by left]. right. intros ->. assert (h = h2) as -> by congruence. lia. }
  destruct (apart_at H b h i b2 h2 i2 E E2); lia || done.
Qed.

(** Distinct slots of a slab have distinct addresses. *)
Lemma slot_inj b h i j : slabs s !! b = Some h -> slot b h i = slot b h j -> i = j.
Proof using H. intros E Es. pose proof (size_at H b h E). unfold slot in Es. nia. Qed.

Lemma u32_bump b h : slabs s !! b = Some h -> total_slots h < 2 ^ 32.
Proof using H. intros E. destruct (shape_at H b h E) as [_ _ _ -> _]. pose proof (size_at H b h E). assert ((kPageSize - sizeof_SlabHeader) / slot_size h <= 65472) by (apply Z.div_le_upper_bound; unfold kPageSize, sizeof_SlabHeader; lia). lia. Qed.

Lemma bump_ok b h n : slabs s !! b = Some h -> bump h < total_slots h -> 0 < n <= slot_size h ->
  handed_out s live n us (set_slab s b (with_bump h (bump h + 1)), slot b h (Z.to_nat (bump h))).
Proof using H.
  intros E Hlt Hn. pose proof (bump_at H b h E) as Hb. set (i := Z.to_nat (bump h)). assert (Ei : Z.of_nat i = bump h) by lia.
  split; [cbn; pose proof (slot_nonzero b h i E); lia|]. split; [cbn; apply (not_yet_live b h i E); lia|]. split; [by apply (keeps_set s b h)|]. cbn [fst snd].
  exists (read_bytes (heap s) (slot b h i) (Z.to_nat n)). split; [rewrite length_read_bytes; lia|].
  destruct (bo_free _ _ _ H b h E) as (fl & Hc & Hnd & Hf).
  apply (bucket_update H b h i (with_bump h (bump h + 1)) (heap s) _ fl); [done|done|cbn; lia|cbn; lia|done| | |].
  - intros q Hq. by rewrite lookup_insert_ne.
  - split; [done|]. split; [done|]. intros j. rewrite Hf. rewrite bump_with_bump, slot_with_bump. destruct (decide (j = i)) as [->|Hne].
    + rewrite lookup_insert_eq. split; [lia|]. by intros [_ ?].
    + rewrite lookup_insert_ne by (intros Eq; by apply Hne, eq_sym, (slot_inj b h)). split; intros [? ?]; (split; [lia|done]).
  - intros bs Ebs. rewrite lookup_insert_eq in Ebs. injection Ebs as <-. rewrite length_read_bytes. split; [lia|done].
Qed.

Lemma pop_ok b h n : slabs s !! b = Some h -> free_list h <> 0 -> 0 < n <= slot_size h ->
  handed_out s live n us (set_slab s b (with_free h (load64 (heap s) (free_list h))), free_list h).
Proof using H.
  intros E Hne Hn. pose proof (bump_at H b h E) as Hb. destruct (bo_free _ _ _ H b h E) as (fl & Hc & Hnd & Hf). destruct fl as [|i fl]; [done|]. destruct Hc as [Ep Hc].
  apply list.NoDup_cons in Hnd as [Hnin Hnd]. destruct (proj1 (Hf i)) as [Hi El]; [set_solver|].
  split; [done|]. split; [cbn; by rewrite Ep|]. split; [by apply (keeps_set s b h)|]. cbn [fst snd]. rewrite Ep. exists (read_bytes (heap s) (slot b h i) (Z.to_nat n)). split; [rewrite length_read_bytes; lia|].
  apply (bucket_update H b h i (with_free h _) (heap s) _ fl); [done|done|cbn; lia|cbn; lia|done| | |].
  - intros q Hq. by rewrite lookup_insert_ne.
  - split; [done|]. split; [done|]. intros j. rewrite bump_with_free, slot_with_free. destruct (decide (j = i)) as [->|Hji].
    + rewrite lookup_insert_eq. split; [done|]. by intros [_ ?].
    + rewrite lookup_insert_ne by (intros Eq; by apply Hji, eq_sym, (slot_inj b h)). rewrite <- Hf. set_solver.
  - intros bs Ebs. rewrite lookup_insert_eq in Ebs. injection Ebs as <-. rewrite length_read_bytes. split; [lia|done].
Qed.

Lemma bucket_free_ok p bs : live !! p = Some bs ->
  exists s' n, bucket_free s p = Ok (s', n) /\ Z.of_nat (length bs) <= n /\ bucket_ok us s' (delete p live).
Proof using H.
  intros Ep. destruct (bo_live _ _ _ H p bs Ep) as (b & h & i & E & Hi & -> & Hlen & Hr). pose proof (bump_at H b h E) as Hb. pose proof (size_at H b h E) as Hsz.
  pose proof (slot_nonzero b h i E ltac:(lia)) as Hp. unfold bucket_free. rewrite (proj2 (Z.eqb_neq (slot b h i) 0)) by lia. rewrite (slab_of b h i) by (done || lia). rewrite E.
  pose proof (sh_class _ _ _ _ (shape_at H b h E)) as Hcl. rewrite (proj2 (Z.ltb_lt (class_index h) _)) by lia. cbn [dcheck mbind res_bind]. do 2 eexists. split; [done|]. split; [done|].
  destruct (bo_free _ _ _ H b h E) as (fl & Hc & Hnd & Hf). assert (Hnin : i ∉ fl) by (rewrite Hf; intros [_ ?]; congruence).
  assert (Hfit : fits 64 (free_list h)). { destruct fl as [|j fl]; cbn in Hc; [rewrite Hc; unfold fits; lia|]. destruct Hc as [-> _]. destruct (proj1 (Hf j)) as [Hj _]; [set_solver|]. pose proof (slot_nonzero b h j E ltac:(lia)). unfold fits. lia. }
  assert (Hout : forall x, x < slot b h i \/ slot b h i + 8 <= x -> store64 (heap s) (slot b h i) (free_list h) x = heap s x) by (intros x Hx; apply write_bytes_out; rewrite length_bytes_of; lia).
  apply (bucket_update H b h i (with_free h _) _ _ (i :: fl)); [done|done|cbn; lia|cbn; lia| | | |].
  - intros x Hx. apply Hout. lia.
  - intros q Hq. by rewrite lookup_delete_ne.
  - split; [|split].
    + split; [done|]. rewrite slot_with_free, load_store64 by done.
      apply (chain_ext (heap s)); [|done]. intros j Hj. rewrite slot_with_free. apply load64_ext. intros x Hx. apply Hout. assert (i <> j) by congruence. apply Hf in Hj as [Hj _].
      destruct (apart_at H b h i b h j E E); lia || by right.
    + apply list.NoDup_cons. done.
    + intros j. rewrite bump_with_free, slot_with_free. destruct (decide (j = i)) as [->|Hji].
      * rewrite lookup_delete_eq. split; [done|]. set_solver.
      * rewrite lookup_delete_ne by (intros Eq; by apply Hji, eq_sym, (slot_inj b h)). rewrite <- Hf. set_solver.
  - intros bs'. by rewrite lookup_delete_eq.
Qed.

(** The contents of a live slot change. *)
Lemma bucket_rewrite b h i bs bs' m' : slabs s !! b = Some h -> Z.of_nat i < bump h -> live !! slot b h i = Some bs ->
  (forall x, x < slot b h i \/ slot b h i + slot_size h <= x -> m' x = heap s x) ->
  Z.of_nat (length bs') <= slot_size h -> read_bytes m' (slot b h i) (length bs') = bs' ->
  bucket_ok us (set_heap s m') (<[slot b h i := bs']> live).
Proof using H.
  intros E Hi El Hout Hlen Hr. pose proof (bump_at H b h E) as Hb. pose proof (size_at H b h E) as Hsz. destruct (bo_free _ _ _ H b h E) as (fl & Hc & Hnd & Hf).
  assert (Es : set_heap s m' = set_slab (set_heap s m') b h) by (unfold set_slab, set_heap; cbn; by rewrite insert_id).
  rewrite Es. apply (bucket_update H b h i h _ _ fl); [done|done|lia|done|done| | |].
  - intros q Hq. by rewrite lookup_insert_ne.
  - split; [|split; [done|]].
    + apply (chain_ext (heap s)); [|done]. intros j Hj. apply load64_ext. intros x Hx. apply Hout. apply Hf in Hj as [Hj Ej].
      assert (i <> j) by congruence. destruct (apart_at H b h i b h j E E); lia || by right.
    + intros j. rewrite Hf. destruct (decide (j = i)) as [->|Hne]; [rewrite lookup_insert_eq; split; intros [_ ?]; congruence|].
      rewrite lookup_insert_ne by (intros Eq; by apply Hne, eq_sym, (slot_inj b h)). done.
  - intros bs2. rewrite lookup_insert_eq. intros [= <-]. done.
Qed.

Lemma bucket_write_ok p bs i b : live !! p = Some bs -> (i < length bs)%nat ->
  bucket_ok us (set_heap s (write_bytes (heap s) (p + Z.of_nat i) [b])) (<[p := <[i := b]> bs]> live).
Proof using H.
  intros Ep Hlt. destruct (bo_live _ _ _ H p bs Ep) as (sb & h & k & E & Hk & -> & Hlen & Hr).
  apply (bucket_rewrite sb h k bs); [done|done|done| |by rewrite length_insert|rewrite length_insert; by apply read_write_byte].
  intros x Hx. apply write_bytes_out. cbn. lia.
Qed.

End Steps.

(** ** A new slab *)

Lemma fold_left_out (m : bytes_map) (ks : list nat) raw x : (forall i, i ∈ ks -> x <> raw + 4096 * Z.of_nat i) ->
  fold_left (fun m i => write_bytes m (raw + 4096 * Z.of_nat i) [0]) ks m x = m x.
Proof.
  revert m. induction ks as [|k ks IH]; intros m Hx; [done|]. cbn [fold_left]. rewrite IH by set_solver. apply write_bytes_out. cbn. specialize (Hx k ltac:(set_solver)). lia.
Qed.

Lemma prefault_out m raw x : x < raw \/ raw + kPageSize <= x -> prefault m raw kPageSize x = m x.
Proof.
  intros Hx. unfold prefault. apply fold_left_out. intros i Hi. apply elem_of_seq in Hi. unfold kPageSize in *. change (Z.to_nat ((65536 + 4095) / 4096)) with 16%nat in Hi. lia.
Qed.

Definition with_table (s : Bucket) (t : PageTable) (m : bytes_map) : Bucket := mkBucket t (page_mask_ s) (slabs s) (active s) m.

Section Grow.

Context {commits : Z -> Z -> bool}.

(** The operating system grants every commit. *)
Definition os_grants : Prop := forall a n, commits a n = true.

(** A page that was free becomes used: the slabs stay. *)
Lemma take_page us s live i t m : bucket_ok us s live -> us !! i = Some false -> table_ok t (<[i := true]> us) -> same_pages (page_table_ s) t ->
  (forall x, x < page_at (page_table_ s) i \/ page_at (page_table_ s) i + kPageSize <= x -> m x = heap s x) ->
  bucket_ok (<[i := true]> us) (with_table s t m) live /\ slabs s !! page_at (page_table_ s) i = None.
Proof using Type.
  intros H Eu Ht Hs Hm. pose proof Hs as (Ea & Ep & _). assert (Hpage : forall j, page_at t j = page_at (page_table_ s) j) by (intros j; unfold page_at; congruence).
  assert (Hout : forall b h j x, slabs s !! b = Some h -> Z.of_nat j < total_slots h -> 0 <= x < slot_size h -> m (slot b h j + x) = heap s (slot b h j + x)).
  { intros b h j x E Hj Hx. pose proof (shape_at H b h E) as Hsh. pose proof (slot_bounds b h j Hsh Hj). destruct (sh_page _ _ _ _ Hsh) as (k & Ek & ->). apply Hm.
    pose proof (pages_apart (bo_table _ _ _ H) k i ltac:(intros ->; congruence)) as Ha. rewrite (bo_page _ _ _ H) in Ha. lia. }
  split.
  2:{ destruct (slabs s !! page_at (page_table_ s) i) as [h|] eqn:E; [|done]. destruct (sh_page _ _ _ _ (shape_at H _ h E)) as (k & Ek & Eq). apply (page_at_inj (bo_table _ _ _ H)) in Eq as <-. congruence. }
  split; cbn; try apply H; try done.
  - rewrite Ep. apply H.
  - intros b h E. destruct (shape_at H b h E) as [(k & Ek & ->) ? ? ? ?]. split; try done. exists k. rewrite Hpage. split; [|done].
    destruct (decide (k = i)) as [->|]; [congruence|]. by rewrite list_lookup_insert_ne.
  - intros b h E. pose proof (bump_at H b h E). pose proof (size_at H b h E). destruct (bo_free _ _ _ H b h E) as (fl & Hc & Hnd & Hf). exists fl. split; [|by split]. apply (chain_ext (heap s)); [|done].
    intros j Hj. apply Hf in Hj as [Hj _]. apply load64_ext. intros x Hx. replace x with (slot b h j + (x - slot b h j)) by lia. apply Hout; (done || lia).
  - intros p bs El. destruct (bo_live _ _ _ H p bs El) as (b & h & j & E & Hj & -> & Hlen & Hr). pose proof (bump_at H b h E). exists b, h, j. split; [done|]. split; [done|]. split; [done|]. split; [done|].
    rewrite <- Hr at 2. apply read_bytes_ext. intros x Hx. replace x with (slot b h j + (x - slot b h j)) by lia. apply Hout; (done || lia).
Qed.

(** A slab that has handed nothing out. *)
Lemma add_slab us s live b h : bucket_ok us s live -> slabs s !! b = None -> slab_shape (page_table_ s) us b h -> free_list h = 0 -> bump h = 0 ->
  bucket_ok us (set_slab s b h) live.
Proof using Type.
  intros H Eb Hsh Ef E0. split; cbn; try apply H.
  - intros b2 h2 E2. destruct (decide (b2 = b)) as [->|Hne]; [rewrite lookup_insert_eq in E2; by injection E2 as <-|rewrite lookup_insert_ne in E2 by done; by apply (shape_at H)].
  - intros b2 h2 E2. destruct (decide (b2 = b)) as [->|Hne]; [rewrite lookup_insert_eq in E2; injection E2 as <-|rewrite lookup_insert_ne in E2 by done; by apply (bo_free _ _ _ H)].
    exists []. split; [done|]. split; [constructor|]. intros i. split; [set_solver|lia].
  - intros p bs El. destruct (bo_live _ _ _ H p bs El) as (b2 & h2 & j & E2 & Hj). exists b2, h2, j. rewrite lookup_insert_ne by congruence. done.
  - intros tid c b2 E2. destruct (bo_active _ _ _ H tid c b2 E2) as [->|(h2 & Eh & Ecl)]; [by left|right]. exists h2. by rewrite lookup_insert_ne by congruence.
Qed.

Lemma set_active us s live tid c b h : bucket_ok us s live -> slabs s !! b = Some h -> class_index h = Z.of_nat c ->
  bucket_ok us (mkBucket (page_table_ s) (page_mask_ s) (slabs s) (<[(tid, c) := b]> (active s)) (heap s)) live.
Proof using Type.
  intros H Eb Ec. split; cbn; try apply H. intros tid' c' b' E. destruct (decide ((tid', c') = (tid, c))) as [Eq|Hne].
  - rewrite Eq, lookup_insert_eq in E. injection E as <-. injection Eq as -> ->. right. by exists h.
  - rewrite lookup_insert_ne in E by done. by apply (bo_active _ _ _ H tid' c').
Qed.

Lemma NewSlab_ok us s live c : bucket_ok us s live -> 0 <= c < kNumClasses ->
  wp os_grants (NewSlab commits s c) (fun r =>
    (r.2 = 0 /\ FindFreePage (page_table_ s) = None /\ bucket_ok us r.1 live) \/
    (exists us' h, r.2 <> 0 /\ keeps_slabs s r.1 /\ bucket_ok us' r.1 live /\ slabs r.1 !! r.2 = Some h /\ bump h = 0 /\ class_index h = c)).
Proof using Type.
  intros H Hc. unfold NewSlab. apply wp_bind. eapply wp_mono; [apply (RequestPage_ok commits os_grants _ us (bo_table _ _ _ H)); intros Hg ? ?; apply Hg|].
  intros [t raw] [Hs Hr]. cbn in Hs, Hr. pose proof (first_free_spec us 0) as Hff. rewrite (find_free_ok _ us (bo_table _ _ _ H)). destruct (first_free us 0) as [i|].
  - destruct Hr as [Ht ->]. destruct Hff as (_ & Eu & _). rewrite Nat.sub_0_r in Eu. rewrite (class_sizes c Hc). cbn. right. pose proof Hs as (Ea & Ep & _). rewrite Ep, (bo_page _ _ _ H).
    pose proof (class_size_bounds c Hc) as Hb. set (raw := page_at (page_table_ s) i).
    destruct (take_page us s live i t (prefault (heap s) raw kPageSize) H Eu Ht Hs) as [H1 Hnone]; [intros x Hx; by apply prefault_out|].
    pose proof (page_at_range (bo_table _ _ _ H) i ltac:(by eapply lookup_lt_Some)) as [Hraw _]. fold raw in Hraw, Hnone.
    rewrite (wrap_small 32 (2 ^ (3 + c))), (wrap_small 32 c), (wrap_small 32 (kPageSize - _)) by (unfold fits, kPageSize, sizeof_SlabHeader, kNumClasses in *; lia).
    exists (<[i:=true]> us), (mkSlab 0 0 c (2 ^ (3 + c)) ((kPageSize - sizeof_SlabHeader) / 2 ^ (3 + c)) 0). split; [lia|].
    split; [intros b h E; exists h; cbn in Hnone |- *; by rewrite lookup_insert_ne by congruence|]. split; [|rewrite lookup_insert_eq; done].
    apply (add_slab (<[i:=true]> us) (with_table s t (prefault (heap s) raw kPageSize)) live raw _ H1 Hnone); [|done|done]. split; cbn; try done.
    + exists i. rewrite list_lookup_insert_eq by (by eapply lookup_lt_Some). split; [done|]. unfold raw, page_at. congruence.
    + split; [done|]. apply Z.div_pos; unfold kPageSize, sizeof_SlabHeader; lia.
  - injection Hr as -> ->. cbn. left. split; [done|]. split; [done|]. by destruct s.
Qed.

(** What an allocator answers: a block, or null when no page is left. *)
Definition answered (us : list bool) (s : Bucket) (live : gmap Z (list Z)) (n : Z) (r : Bucket * Z) : Prop :=
  (r.2 = 0 /\ FindFreePage (page_table_ s) = None /\ bucket_ok us r.1 live) \/ exists us', handed_out s live n us' r.

Lemma total_positive us s live b h : bucket_ok us s live -> slabs s !! b = Some h -> 0 < total_slots h.
Proof using Type.
  intros H E. destruct (shape_at H b h E) as [_ Hc Es -> _]. pose proof (class_size_bounds _ Hc). rewrite Es. apply Z.div_str_pos. unfold kPageSize, sizeof_SlabHeader. lia.
Qed.

Lemma AllocateSlowLocked_ok us s live tid c n : bucket_ok us s live -> 0 <= c < kNumClasses -> 0 < n <= 2 ^ (3 + c) ->
  wp os_grants (AllocateSlowLocked commits s tid c) (answered us s live n).
Proof using Type.
  intros H Hc Hn. unfold AllocateSlowLocked. apply wp_bind. eapply wp_mono; [by apply (NewSlab_ok us s live c)|]. intros [s1 slab] Hr. cbn in Hr.
  destruct Hr as [(-> & Hf & H1)|(us' & h & Hslab & Hk & H1 & E & E0 & Ec)]; [by left|]. rewrite (proj2 (Z.eqb_neq slab 0)) by done. rewrite E. cbn. right. exists us'.
  destruct (shape_at H1 slab h E) as [_ _ Es _ _]. pose proof (total_positive _ _ _ _ _ H1 E) as Htot.
  destruct (bump_ok H1 slab h n E) as (Hp & Hnone & _ & bs & Elen & H2); [lia|rewrite Es, Ec; done|]. cbn [fst snd] in *. rewrite E0 in *. replace (slot slab h (Z.to_nat 0)) with (slab + sizeof_SlabHeader) in * by (unfold slot; lia).
  split; [done|]. split; [done|]. split.
  { intros b2 h2 E2. destruct (Hk b2 h2 E2) as (h3 & E3 & Hs3). cbn. destruct (decide (b2 = slab)) as [->|Hne]; [rewrite lookup_insert_eq|rewrite lookup_insert_ne by done; by exists h3].
    assert (h3 = h) as -> by congruence. by exists (with_bump h 1). }
  exists bs. split; [done|]. apply (set_active us' _ _ tid (Z.to_nat c) slab (with_bump h (0 + 1))) in H2; [done|cbn; by rewrite lookup_insert_eq|cbn; lia].
Qed.

Lemma bucket_allocate_ok us s live tid n : bucket_ok us s live -> 0 < n <= 1024 -> wp os_grants (bucket_allocate commits s tid n) (answered us s live n).
Proof using Type.
  intros H Hn. unfold bucket_allocate. destruct (ClassIndex_ok n Hn) as (c & -> & Hc & Hfit & _). cbn [mbind res_bind].
  rewrite (proj2 (Z.ltb_ge c 0)), (proj2 (Z.leb_gt kNumClasses c)) by lia. cbn [orb]. set (slab := default 0 (active s !! (tid, Z.to_nat c))).
  destruct (Z.eqb_spec slab 0) as [_|Hne]; [apply AllocateSlowLocked_ok; (done || lia)|].
  assert (Hs : exists h, slabs s !! slab = Some h /\ class_index h = c).
  { unfold slab in *. destruct (active s !! (tid, Z.to_nat c)) as [b|] eqn:E; [|done]. cbn in *. destruct (bo_active _ _ _ H tid _ b E) as [->|(h & Eh & Ec)]; [done|]. exists h. split; [done|lia]. }
  destruct Hs as (h & E & Ec). rewrite E. destruct (shape_at H slab h E) as [_ _ Es _ Hb]. rewrite Ec in Es. pose proof (u32_bump H slab h E) as H32.
  destruct (Z.eqb_spec (free_list h) 0) as [_|Hf]; cbn [negb].
  - destruct (Z.ltb_spec (bump h) (total_slots h)) as [Hlt|Hge].
    + cbn. right. exists us. rewrite (wrap_small 32) by (unfold fits; lia). destruct (size_at H slab h E) as [? ?].
      replace (slab + sizeof_SlabHeader + u64 (bump h * slot_size h)) with (slot slab h (Z.to_nat (bump h))); [apply bump_ok; (done || lia)|].
      rewrite wrap_small by (unfold fits; nia). unfold slot. rewrite Z2Nat.id by lia. lia.
    + apply AllocateSlowLocked_ok; (done || lia).
  - cbn. right. exists us. apply pop_ok; (done || lia).
Qed.

Lemma same_slab_trans h1 h2 h3 : same_slab h1 h2 -> same_slab h2 h3 -> same_slab h1 h3.
Proof using Type. unfold same_slab. intros (? & ? & ?) (? & ? & ?). split; [congruence|]. split; congruence. Qed.

(** The block moves to another class with what it held. *)
Lemma move_block_ok us s live p bs q bs1 h : bucket_ok us s (<[q := bs1]> live) -> live !! p = Some bs -> p <> q -> q <> 0 ->
  slabs s !! SlabFromPtr s p = Some h -> slot_size h < Z.of_nat (length bs1) ->
  exists m s' n bs', mem_copy (heap s) q p (Z.to_nat (slot_size h)) = Ok m /\ bucket_free (set_heap s m) p = Ok (s', n) /\ length bs' = length bs1 /\
    take (length bs) bs' = bs /\ bucket_ok us s' (<[q := bs']> (delete p live)).
Proof using Type.
  intros H Ep Hpq Hq E Hlt. assert (Ep1 : <[q := bs1]> live !! p = Some bs) by (by rewrite lookup_insert_ne). assert (Eq1 : <[q := bs1]> live !! q = Some bs1) by apply lookup_insert_eq.
  destruct (bo_live _ _ _ H p bs Ep1) as (b & h' & i & Eb & Hi & Es & Hlen & Hr). pose proof (bump_at H b h' Eb) as Hb.
  rewrite Es, (slab_of H b h' i) in E by (done || lia). assert (h' = h) as -> by congruence. clear E. pose proof (size_at H b h Eb) as Hsz.
  destruct (bo_live _ _ _ H q bs1 Eq1) as (b2 & h2 & i2 & Eb2 & Hi2 & Es2 & Hlen2 & Hr2). pose proof (bump_at H b2 h2 Eb2) as Hb2.
  assert (Hd : b <> b2 \/ i <> i2). { destruct (decide (b = b2)) as [<-|]; [|by left]. right. intros ->. assert (h2 = h) as -> by congruence. congruence. }
  pose proof (apart_at H b h i b2 h2 i2 Eb Eb2 ltac:(lia) ltac:(lia) Hd) as Hap. rewrite <- Es, <- Es2 in Hap.
  set (k := Z.to_nat (slot_size h)). set (m := write_bytes (heap s) q (read_bytes (heap s) p k)). exists m.
  set (bs' := read_bytes m q (length bs1)). assert (Hl' : length bs' = length bs1) by apply length_read_bytes.
  assert (H1 : bucket_ok us (set_heap s m) (<[q := bs']> live)).
  { pose proof (bucket_rewrite H b2 h2 i2 bs1 bs' m Eb2 Hi2) as Hw. rewrite <- Es2, insert_insert_eq, Hl' in Hw. apply Hw; [done| |done|done].
    intros x Hx. apply write_bytes_out. rewrite length_read_bytes. lia. }
  destruct (bucket_free_ok H1 p bs) as (s' & n & Ef & _ & H2); [by rewrite lookup_insert_ne|]. exists s', n, bs'. rewrite mem_copy_ok by lia. split; [done|]. split; [done|]. split; [done|].
  rewrite delete_insert_ne in H2 by done. split; [|done]. unfold bs'. rewrite read_bytes_take by lia. rewrite <- Hr at 2.
  pose proof (read_write (heap s) q (read_bytes (heap s) p k)) as Hrw. rewrite length_read_bytes in Hrw. fold m in Hrw. rewrite <- (read_bytes_take m q k) by lia. rewrite Hrw. apply read_bytes_take. lia.
Qed.

Lemma bucket_reallocate_ok us s live tid p bs n : bucket_ok us s live -> live !! p = Some bs -> 0 < n <= 1024 ->
  wp os_grants (bucket_reallocate commits s tid p n) (fun r =>
    (r.2 = 0 /\ bucket_ok us r.1 live) \/
    (r.2 <> 0 /\ (r.2 = p \/ live !! r.2 = None) /\ exists us' bs', Z.of_nat (length bs') = n /\
       take (min (length bs) (length bs')) bs' = take (min (length bs) (length bs')) bs /\ bucket_ok us' r.1 (<[r.2 := bs']> (delete p live)))).
Proof using Type.
  intros H Ep Hn. destruct (bo_live _ _ _ H p bs Ep) as (b & h & i & E & Hi & Es & Hlen & Hr). pose proof (bump_at H b h E) as Hb. pose proof (slot_nonzero H b h i E ltac:(lia)) as Hp. rewrite <- Es in Hp.
  unfold bucket_reallocate. rewrite (proj2 (Z.eqb_neq p 0)), (proj2 (Z.eqb_neq n 0)) by lia. pose proof (slab_of H b h i E ltac:(lia)) as Hsl. rewrite <- Es in Hsl. rewrite Hsl, E.
  destruct (Z.leb_spec n (slot_size h)) as [Hle|Hgt].
  - cbn. right. split; [lia|]. split; [by left|]. exists us, (read_bytes (heap s) p (Z.to_nat n)). rewrite length_read_bytes. split; [lia|]. split.
    + rewrite read_bytes_take by lia. rewrite <- (read_bytes_take (heap s) p (length bs)) by lia. by rewrite Hr.
    + rewrite insert_delete_eq. pose proof (bucket_rewrite H b h i bs (read_bytes (heap s) p (Z.to_nat n)) (heap s) E Hi) as Hw. rewrite <- Es, length_read_bytes in Hw.
      destruct s. apply Hw; [done|done|lia|done].
  - apply wp_bind. eapply wp_mono; [by apply bucket_allocate_ok|]. intros [s1 q] Hr1. destruct Hr1 as [(Hq & _ & H1)|(us' & Hq & Hnone & Hk & bs1 & Elen & H1)]; cbn in *.
    + subst q. cbn. by left.
    + rewrite (proj2 (Z.eqb_neq q 0)) by done. assert (Hpq : p <> q) by congruence. destruct (Hk b h E) as (h1 & E1 & _ & Esz & _).
      assert (Hsl1 : SlabFromPtr s1 p = b) by (unfold SlabFromPtr in *; by rewrite (bo_mask _ _ _ H1), <- (bo_mask _ _ _ H)).
      destruct (move_block_ok us' s1 live p bs q bs1 h1 H1 Ep Hpq Hq) as (m & s' & k & bs' & Em & Ef & El & Et & H2); [by rewrite Hsl1|lia|].
      rewrite Hsl1, E1, Em. cbn. rewrite Ef. cbn. right. split; [done|]. split; [by right|]. exists us', bs'. split; [lia|]. split; [|done].
      rewrite Nat.min_l by lia. rewrite Et. by rewrite firstn_all.
Qed.

Lemma bucket_query_ok us s live p bs : bucket_ok us s live -> live !! p = Some bs -> exists n, bucket_query s p = Ok n /\ Z.of_nat (length bs) <= n.
Proof using Type.
  intros H Ep. destruct (bo_live _ _ _ H p bs Ep) as (b & h & i & E & Hi & -> & Hlen & Hr). pose proof (bump_at H b h E) as Hb. pose proof (slot_nonzero H b h i E ltac:(lia)).
  unfold bucket_query. rewrite (proj2 (Z.eqb_neq (slot b h i) 0)) by lia. rewrite (slab_of H b h i) by (done || lia). destruct (slab_base (bo_table _ _ _ H) (bo_page _ _ _ H) b h (shape_at H b h E)).
  rewrite (proj2 (Z.eqb_neq b 0)) by lia. rewrite E. by exists (slot_size h).
Qed.

(** ** The allocator keeps the laws of its interface *)

#[export] Program Instance bucket_laws : AllocatorLaws (H := bucket_allocator commits) Bucket os_grants := {|
  inv s live := exists us, bucket_ok us s live;
  max_size := 1024;
|}.
Next Obligation.
  intros s live p bs [us H] Ep. destruct (bo_live _ _ _ H p bs Ep) as (b & h & i & E & Hi & Es & _ & Hr). pose proof (bump_at H b h E). split; [|done].
  pose proof (slot_nonzero H b h i E). lia.
Qed.
Next Obligation. intros s live p bs i b [us H] Ep Hi. exists us. by apply bucket_write_ok. Qed.
Next Obligation.
  intros s live tid n [us H] Hn. eapply wp_mono; [by apply (bucket_allocate_ok us)|]. intros r [(? & _ & ?)|(us' & ? & ? & _ & bs & ? & ?)]; [left; eauto|right]. eauto 10.
Qed.
Next Obligation.
  intros s live tid p bs n [us H] Ep Hn. eapply wp_mono; [by apply (bucket_reallocate_ok us)|]. intros r [(? & ?)|(? & ? & us' & bs' & ? & ? & ?)]; [left; eauto|right]. eauto 10.
Qed.
Next Obligation. intros s live p bs [us H] Ep. destruct (bucket_free_ok H p bs Ep) as (s' & n & E & _ & H'). cbn. rewrite E. cbn. by exists us. Qed.
Next Obligation. intros s live p bs [us H] Ep. destruct (bucket_query_ok us s live p bs H Ep) as (n & E & Hn). cbn. by rewrite E. Qed.

End Grow.

(** ** From the reservation on *)

(** The allocator as it starts, over a range of [n] pages the operating system reserved at [raw]. *)
Definition start (raw space : Z) (n : nat) (m : bytes_map) (tid : nat) : res Bucket :=
  t ← ReserveAddressSpace raw space kPageSize n; Ok (BucketAllocator t m tid ∅).

Lemma start_ok raw space n m tid : 0 < raw -> (0 < n)%nat -> raw + (kPageSize - 1) + kPageSize * Z.of_nat n <= 2 ^ 64 ->
  exists s, start raw space n m tid = Ok s /\ bucket_ok (replicate n false) s ∅.
Proof.
  intros Hraw Hn Hfit. destruct (ReserveAddressSpace_ok raw space 16 n) as (t & E & Ht & Ep & _); [lia|done|done|done|].
  change kPageSize with (2 ^ 16). unfold start. change kPageSize with (2 ^ 16). rewrite E. eexists. split; [done|].
  split; cbn; try done. by rewrite Ep.
Qed.

(** C19. A program that allocates, resizes, writes, reads and frees blocks of up to 1 KiB from any
    number of threads cannot tell the bucket allocator from arrays that share nothing: what is read
    is what was written last, growing keeps the contents, sizes are at least those asked for.  The
    allocator never touches memory outside its slabs, and stops only if the operating system refuses
    to commit a page. *)
Theorem BucketAllocator_refines_arrays commits raw space n m tid os :
  0 < raw -> (0 < n)%nat -> raw + (kPageSize - 1) + kPageSize * Z.of_nat n <= 2 ^ 64 -> Forall (op_fits 1024) os ->
  let run := s ← start raw space n m tid; run_client (H := bucket_allocator commits) os (s, ∅) in
  run <> Undef /\ ((forall a k, commits a k = true) -> run <> Fatal) /\
  (forall c outs, run = Ok (c, outs) -> exists a, array_steps ∅ os outs a).
Proof.
  intros Hraw Hn Hfit Hos run. destruct (start_ok raw space n m tid Hraw Hn Hfit) as (s & E & Hs).
  pose proof (client_refines (Laws := bucket_laws (commits := commits)) os s (ex_intro _ _ Hs) Hos) as Hw. unfold run. rewrite E. cbn [mbind res_bind].
  destruct (run_client os (s, ∅)) as [r| |]; cbn in Hw.
  - split; [done|]. split; [done|]. intros c outs [= ->]. done.
  - split; [done|]. split; [|done]. intros Hg. by destruct Hw.
  - done.
Qed.

Lemma BucketAllocator_refines_arrays_witness :
  let os := [CAllocate 0 0 24; CAllocate 1 1 24; CWrite 0 3 7; CWrite 1 3 9; CReAllocate 0 0 100; CRead 0 3; CFree 1; CAllocate 2 0 20; CQuery 2] in
  let run := s ← start 1000000 1048576 4 (fun _ => 0) 0; run_client (H := bucket_allocator (fun _ _ => true)) os (s, ∅) in
  (match run with Ok (_, outs) => outs | _ => [] end) = [Done; Done; Done; Done; Done; Value 7; Done; Done; Value 32] /\
  exists a, array_steps ∅ os (match run with Ok (_, outs) => outs | _ => [] end) a.
Proof.
  intros os run. split; [vm_compute; reflexivity|].
  destruct (BucketAllocator_refines_arrays (fun _ _ => true) 1000000 1048576 4 (fun _ => 0) 0 os) as (H1 & H2 & H3); [lia|lia|unfold kPageSize; lia|repeat constructor; cbn; lia|].
  fold run in H1, H2, H3. destruct run as [[c outs]| |]; [by apply (H3 c)|by destruct H2|done].
Defined.
