(* ===== verification/EqPages.v ===== *)
(** * base::PageAllocator (allocator/eq_alloc/page_allocator.h, page_allocator.cc)

    A block is a page of the page table; pages that were freed are kept on a stack that is
    linked through their first eight bytes.  Every operation runs under the allocator's
    lock. *)

From S2P Require Import Prelude Memory CMemory EqPageTable EqAllocator EqBucket.

Set Default Proof Using "Type".
Set Warnings "-clear-no-such-hyp".
#[local] Open Scope Z_scope.

(** ** The code *)

Definition kPageThreshold : Z := 65536.

Record Pages := mkPages { pages_table : PageTable; free_stack_ : Z; pages_heap : bytes_map }.

Definition PushFreePage (s : Pages) (page : Z) : Pages := mkPages (pages_table s) page (store64 (pages_heap s) page (free_stack_ s)).

Definition PopFreePage (s : Pages) : Pages * Z :=
  if free_stack_ s =? 0 then (s, 0) else (mkPages (pages_table s) (load64 (pages_heap s) (free_stack_ s)) (pages_heap s), free_stack_ s).

Section Pages.

Context (commits : Z -> Z -> bool).

Definition pages_allocate (s : Pages) (tid : nat) (size : Z) : res (Pages * Z) :=
  _ ← dcheck (size <=? kPageThreshold);
  let '(s, cached) := PopFreePage s in
  if negb (cached =? 0) then Ok (s, cached) else
  '(t, r) ← RequestPage commits (pages_table s);
  Ok (mkPages t (free_stack_ s) (pages_heap s), match r with Some (p, _) => p | None => 0 end).

Definition pages_reallocate (s : Pages) (tid : nat) (former_block new_size : Z) : res (Pages * Z) :=
  if new_size <=? kPageThreshold then Ok (s, former_block) else Ok (s, 0).

Definition pages_free (s : Pages) (block : Z) : res (Pages * Z) := Ok (PushFreePage s block, kPageSize).

Definition pages_query (s : Pages) (block : Z) : res Z := Ok kPageSize.

#[export] Instance page_allocator : Allocator Pages := {|
  Allocate := pages_allocate; ReAllocate := pages_reallocate; Free := pages_free; QueryAllocationSize := pages_query;
  bytes := pages_heap; with_bytes s m := mkPages (pages_table s) (free_stack_ s) m |}.

End Pages.

(** ** The invariant *)

(** A page that was requested is live or on the stack. *)
Record pages_ok (us : list bool) (fl : list nat) (s : Pages) (live : gmap Z (list Z)) : Prop := {
  po_table : table_ok (pages_table s) us;
  po_page : page_size_ (pages_table s) = kPageSize;
  po_chain : chain (pages_heap s) (page_at (pages_table s)) (free_stack_ s) fl;
  po_nodup : NoDup fl;
  po_used i : i ∈ fl -> us !! i = Some true /\ live !! page_at (pages_table s) i = None;
  po_live p bs : live !! p = Some bs -> exists i, us !! i = Some true /\ p = page_at (pages_table s) i /\ Z.of_nat (length bs) <= kPageSize /\
      read_bytes (pages_heap s) p (length bs) = bs;
}.

Section Laws.

Context {us : list bool} {fl : list nat} {s : Pages} {live : gmap Z (list Z)} (H : pages_ok us fl s live).

Lemma pages_pos i : us !! i = Some true -> 0 < page_at (pages_table s) i < 2 ^ 64.
Proof using H. intros E. pose proof (page_at_range (po_table _ _ _ _ H) i ltac:(by eapply lookup_lt_Some)) as Hp. rewrite (po_page _ _ _ _ H) in Hp. unfold kPageSize in Hp. lia. Qed.

Lemma pages_disjoint i j : i <> j -> page_at (pages_table s) i + kPageSize <= page_at (pages_table s) j \/ page_at (pages_table s) j + kPageSize <= page_at (pages_table s) i.
Proof using H. intros Hij. pose proof (pages_apart (po_table _ _ _ _ H) i j Hij) as Ha. by rewrite (po_page _ _ _ _ H) in Ha. Qed.

(** One page changes owner or contents. *)
Lemma pages_update i m' live' fl' stack : us !! i = Some true ->
  (forall x, x < page_at (pages_table s) i \/ page_at (pages_table s) i + kPageSize <= x -> m' x = pages_heap s x) ->
  (forall q, q <> page_at (pages_table s) i -> live' !! q = live !! q) ->
  chain m' (page_at (pages_table s)) stack fl' -> NoDup fl' -> (forall j, j ∈ fl' -> us !! j = Some true /\ live' !! page_at (pages_table s) j = None) ->
  (forall bs, live' !! page_at (pages_table s) i = Some bs -> Z.of_nat (length bs) <= kPageSize /\ read_bytes m' (page_at (pages_table s) i) (length bs) = bs) ->
  pages_ok us fl' (mkPages (pages_table s) stack m') live'.
Proof using H.
  intros Eu Hm Hl Hc Hn Hf Hnew. split; cbn; try done; try apply H. intros p bs Ep. destruct (decide (p = page_at (pages_table s) i)) as [->|Hne].
  - exists i. split; [done|]. split; [done|]. by apply Hnew.
  - rewrite Hl in Ep by done. destruct (po_live _ _ _ _ H p bs Ep) as (j & Ej & -> & Hlen & Hr). exists j. split; [done|]. split; [done|]. split; [done|].
    rewrite <- Hr at 2. apply read_bytes_ext. intros x Hx. apply Hm. destruct (pages_disjoint i j); [congruence|lia|lia].
Qed.

(** A change of contents leaves the stack alone. *)
Lemma pages_rewrite i bs bs' m' : live !! page_at (pages_table s) i = Some bs -> us !! i = Some true ->
  (forall x, x < page_at (pages_table s) i \/ page_at (pages_table s) i + kPageSize <= x -> m' x = pages_heap s x) ->
  Z.of_nat (length bs') <= kPageSize -> read_bytes m' (page_at (pages_table s) i) (length bs') = bs' ->
  pages_ok us fl (mkPages (pages_table s) (free_stack_ s) m') (<[page_at (pages_table s) i := bs']> live).
Proof using H.
  intros El Eu Hm Hlen Hr. assert (Hni : forall j, j ∈ fl -> j <> i) by (intros j Hj ->; destruct (po_used _ _ _ _ H i Hj); congruence).
  apply (pages_update i); [done|done|by intros q Hq; rewrite lookup_insert_ne| |apply H| |].
  - apply (chain_ext (pages_heap s)); [|apply H]. intros j Hj. apply load64_ext. intros x Hx. apply Hm. destruct (pages_disjoint i j); [by apply not_eq_sym, Hni|unfold kPageSize in *; lia|unfold kPageSize in *; lia].
  - intros j Hj. destruct (po_used _ _ _ _ H j Hj) as [Ej Enj]. split; [done|]. rewrite lookup_insert_ne; [done|]. intros Eq. apply (page_at_inj (po_table _ _ _ _ H)) in Eq. by apply (Hni j Hj).
  - intros bs2. rewrite lookup_insert_eq. intros [= <-]. done.
Qed.

Lemma pages_allocate_ok commits tid n : 0 < n <= kPageThreshold ->
  wp (os_grants (commits := commits)) (pages_allocate commits s tid n) (fun r =>
    (r.2 = 0 /\ pages_ok us fl r.1 live) \/
    (r.2 <> 0 /\ live !! r.2 = None /\ exists us' fl' bs, Z.of_nat (length bs) = n /\ pages_ok us' fl' r.1 (<[r.2 := bs]> live))).
Proof using H.
  intros Hn. unfold pages_allocate, kPageThreshold in *. rewrite (proj2 (Z.leb_le n 65536)) by lia. cbn [dcheck mbind res_bind]. unfold PopFreePage.
  pose proof (po_chain _ _ _ _ H) as Hc. destruct (Z.eqb_spec (free_stack_ s) 0) as [E0|Hne]; cbn [negb Z.eqb].
  - apply wp_bind. eapply wp_mono; [apply (RequestPage_ok commits (os_grants (commits := commits)) _ us (po_table _ _ _ _ H)); intros Hg ? ?; apply Hg|].
    intros [t r] [Hs Hr]. cbn in Hs, Hr. pose proof (first_free_spec us 0) as Hff. destruct (first_free us 0) as [i|].
    2:{ injection Hr as -> ->. cbn. left. split; [done|]. destruct s. apply H. }
    destruct Hr as [Ht ->]. destruct Hff as (_ & Eu & _). rewrite Nat.sub_0_r in Eu. cbn. right. pose proof Hs as (Ea & Ep & _).
    assert (Hpage : forall j, page_at t j = page_at (pages_table s) j) by (intros j; unfold page_at; congruence). set (p := page_at (pages_table s) i).
    pose proof (page_at_range (po_table _ _ _ _ H) i ltac:(by eapply lookup_lt_Some)) as [Hp _]. fold p in Hp.
    assert (Hnone : live !! p = None). { destruct (live !! p) as [bs|] eqn:E; [|done]. destruct (po_live _ _ _ _ H p bs E) as (j & Ej & Eq & _). apply (page_at_inj (po_table _ _ _ _ H)) in Eq as <-. congruence. }
    split; [lia|]. split; [done|]. exists (<[i:=true]> us), fl, (read_bytes (pages_heap s) p (Z.to_nat n)). rewrite length_read_bytes. split; [lia|].
    assert (Hkeep : forall j, us !! j = Some true -> j <> i /\ (<[i:=true]> us) !! j = Some true) by (intros j Ej; assert (j <> i) by congruence; by rewrite list_lookup_insert_ne).
    split; cbn; try done.
    + by rewrite Ep, (po_page _ _ _ _ H).
    + destruct (chain_head _ _ _ _ Hc) as [[_ ->]|(j & l & Efl & Hj & _)]; [done|]. rewrite E0 in Hj. destruct (po_used _ _ _ _ H j) as [Ej _]; [set_solver|]. pose proof (pages_pos j Ej). lia.
    + apply H.
    + intros j Hj. destruct (po_used _ _ _ _ H j Hj) as [Ej Enj]. destruct (Hkeep j Ej) as [Hji ?]. rewrite Hpage. split; [done|]. rewrite lookup_insert_ne; [done|].
      intros Eq. by apply (page_at_inj (po_table _ _ _ _ H)) in Eq.
    + intros q bs Eq. destruct (decide (q = p)) as [->|Hq].
      * rewrite lookup_insert_eq in Eq. injection Eq as <-. exists i. rewrite Hpage, length_read_bytes. split; [by rewrite list_lookup_insert_eq by (by eapply lookup_lt_Some)|]. split; [done|]. split; [unfold kPageSize; lia|done].
      * rewrite lookup_insert_ne in Eq by done. destruct (po_live _ _ _ _ H q bs Eq) as (j & Ej & -> & Hlen & Hr). exists j. rewrite Hpage. by destruct (Hkeep j Ej).
  - destruct (chain_head _ _ _ _ Hc) as [[? _]|(i & l & Efl & Ei & Hc')]; [done|]. clear Hc. destruct (po_used _ _ _ _ H i) as [Eu El]; [set_solver|]. pose proof (po_nodup _ _ _ _ H) as Hnd. rewrite Efl in Hnd. apply list.NoDup_cons in Hnd as [Hnin Hnd].
    rewrite (proj2 (Z.eqb_neq (free_stack_ s) 0)) by done. cbn. right. rewrite Ei in *. split; [done|]. split; [done|].
    exists us, l, (read_bytes (pages_heap s) (page_at (pages_table s) i) (Z.to_nat n)). rewrite length_read_bytes. split; [lia|].
    apply (pages_update i); [done|done|by intros q Hq; rewrite lookup_insert_ne|done|done| |].
    + intros j Hj. destruct (po_used _ _ _ _ H j) as [Ej Enj]; [set_solver|]. split; [done|]. rewrite lookup_insert_ne; [done|].
      intros Eq. apply (page_at_inj (po_table _ _ _ _ H)) in Eq as <-. done.
    + intros bs. rewrite lookup_insert_eq. intros [= <-]. rewrite length_read_bytes. unfold kPageSize. split; [lia|done].
Qed.

Lemma pages_free_ok p bs : live !! p = Some bs -> exists i, pages_ok us (i :: fl) (PushFreePage s p) (delete p live).
Proof using H.
  intros Ep. destruct (po_live _ _ _ _ H p bs Ep) as (i & Eu & -> & _ & _). exists i. assert (Hni : forall j, j ∈ fl -> j <> i) by (intros j Hj ->; destruct (po_used _ _ _ _ H i Hj); congruence).
  assert (Hfit : fits 64 (free_stack_ s)). { destruct (chain_head _ _ _ _ (po_chain _ _ _ _ H)) as [[-> _]|(j & l & Efl & -> & _)]; [unfold fits; lia|]. destruct (po_used _ _ _ _ H j) as [Ej _]; [set_solver|]. pose proof (pages_pos j Ej). unfold fits. lia. }
  assert (Hout : forall x, x < page_at (pages_table s) i \/ page_at (pages_table s) i + 8 <= x -> store64 (pages_heap s) (page_at (pages_table s) i) (free_stack_ s) x = pages_heap s x) by (intros x Hx; apply write_bytes_out; rewrite length_bytes_of; lia).
  apply (pages_update i); [done|intros x Hx; apply Hout; unfold kPageSize in Hx; lia|by intros q Hq; rewrite lookup_delete_ne| | | |by intros bs'; rewrite lookup_delete_eq].
  - split; [done|]. rewrite load_store64 by done. apply (chain_ext (pages_heap s)); [|apply H]. intros j Hj. apply load64_ext. intros x Hx. apply Hout.
    destruct (pages_disjoint i j); [by apply not_eq_sym, Hni|unfold kPageSize in *; lia|unfold kPageSize in *; lia].
  - apply list.NoDup_cons. split; [|apply H]. intros Hi. by apply (Hni i).
  - intros j Hj. apply elem_of_cons in Hj as [->|Hj]; [split; [done|apply lookup_delete_eq]|]. destruct (po_used _ _ _ _ H j Hj) as [Ej Enj]. split; [done|].
    rewrite lookup_delete_ne; [done|]. intros Eq. apply (page_at_inj (po_table _ _ _ _ H)) in Eq. by apply (Hni j Hj).
Qed.

Lemma pages_reallocate_ok p bs n : live !! p = Some bs -> 0 < n <= kPageThreshold ->
  exists bs', Z.of_nat (length bs') = n /\ take (min (length bs) (length bs')) bs' = take (min (length bs) (length bs')) bs /\ pages_ok us fl s (<[p := bs']> (delete p live)).
Proof using H.
  intros Ep Hn. destruct (po_live _ _ _ _ H p bs Ep) as (i & Eu & -> & Hlen & Hr). exists (read_bytes (pages_heap s) (page_at (pages_table s) i) (Z.to_nat n)). rewrite length_read_bytes. split; [lia|]. split.
  - rewrite read_bytes_take by lia. rewrite <- (read_bytes_take (pages_heap s) _ (length bs)) by lia. by rewrite Hr.
  - rewrite insert_delete_eq. pose proof (pages_rewrite i bs (read_bytes (pages_heap s) (page_at (pages_table s) i) (Z.to_nat n)) (pages_heap s) Ep Eu) as Hw.
    rewrite length_read_bytes in Hw. unfold kPageThreshold, kPageSize in *. destruct s. apply Hw; [done|lia|done].
Qed.

Lemma pages_write_ok p bs i b : live !! p = Some bs -> (i < length bs)%nat ->
  pages_ok us fl (mkPages (pages_table s) (free_stack_ s) (write_bytes (pages_heap s) (p + Z.of_nat i) [b])) (<[p := <[i := b]> bs]> live).
Proof using H.
  intros Ep Hlt. destruct (po_live _ _ _ _ H p bs Ep) as (k & Eu & -> & Hlen & Hr). apply (pages_rewrite k bs); [done|done| |by rewrite length_insert|rewrite length_insert; by apply read_write_byte].
  intros x Hx. apply write_bytes_out. cbn. lia.
Qed.

End Laws.

(** ** The laws of the interface *)

#[export] Program Instance pages_laws (commits : Z -> Z -> bool) : AllocatorLaws (H := page_allocator commits) Pages (os_grants (commits := commits)) := {|
  inv s live := exists us fl, pages_ok us fl s live;
  max_size := kPageThreshold;
|}.
Next Obligation. intros commits s live p bs (us & fl & H) Ep. destruct (po_live _ _ _ _ H p bs Ep) as (i & Eu & -> & _ & Hr). pose proof (pages_pos H i Eu). split; [lia|done]. Qed.
Next Obligation. intros commits s live p bs i b (us & fl & H) Ep Hi. exists us, fl. by apply pages_write_ok. Qed.
Next Obligation.
  intros commits s live tid n (us & fl & H) Hn. eapply wp_mono; [by apply (pages_allocate_ok H)|]. intros r [(? & ?)|(? & ? & us' & fl' & bs & ? & ?)]; [left; eauto|right]. eauto 10.
Qed.
Next Obligation.
  intros commits s live tid p bs n (us & fl & H) Ep Hn. cbn. unfold pages_reallocate. rewrite (proj2 (Z.leb_le n kPageThreshold)) by lia. cbn. right.
  destruct (po_live _ _ _ _ H p bs Ep) as (i & Eu & Eq & _). pose proof (pages_pos H i Eu). split; [lia|]. split; [by left|]. destruct (pages_reallocate_ok H p bs n Ep Hn) as (bs' & ? & ? & ?). eauto 10.
Qed.
Next Obligation. intros commits s live p bs (us & fl & H) Ep. cbn. destruct (pages_free_ok H p bs Ep) as [i H']. by exists us, (i :: fl). Qed.
Next Obligation. intros commits s live p bs (us & fl & H) Ep. cbn. destruct (po_live _ _ _ _ H p bs Ep) as (i & _ & _ & Hlen & _). done. Qed.

(** ** From the reservation on *)

Lemma pages_start_ok raw space n m : 0 < raw -> (0 < n)%nat -> raw + (kPageSize - 1) + kPageSize * Z.of_nat n <= 2 ^ 64 ->
  exists t, ReserveAddressSpace raw space kPageSize n = Ok t /\ pages_ok (replicate n false) [] (mkPages t 0 m) ∅.
Proof.
  intros Hraw Hn Hfit. destruct (ReserveAddressSpace_ok raw space 16 n) as (t & E & Ht & Ep & _); [lia|done|done|done|]. exists t. split; [done|].
  split; cbn; try done; [constructor|]. intros i Hi. set_solver.
Qed.
