(* ===== verification/EqHeap.v ===== *)
(** * base::HeapAllocator (allocator/eq_alloc/heap_allocator.h, heap_allocator.cc)

    Large blocks are runs of pages with a header in front.  They come from a list of freed
    blocks, sorted by size and doubly linked through the headers, from an arena that is cut
    from its front, or straight from the page table.  A header is a record at the address
    of its block; the bytes behind it are the client's. *)

From S2P Require Import Prelude Memory CMemory EqPageTable EqAllocator EqBucket.

Set Default Proof Using "Type".
Set Warnings "-clear-no-such-hyp".
#[local] Open Scope Z_scope.

(** ** The code *)

Definition kMagic : Z := 3926985869.
Definition kFree : Z := 0.
Definition kInUse : Z := 1.
Definition sizeof_BlockHeader : Z := 48.
Definition kArenaChunkPages : nat := 256.

Record BlockHeader := mkHeader {
  magic : Z;
  page_count : Z;
  total_size : Z;
  user_size : Z;
  block_flags : Z;
  next_free : Z;
  prev_free : Z;
}.

Record Heap := mkHeap {
  heap_table : PageTable;
  free_list_ : Z;
  arena_cursor_ : Z;
  arena_end_ : Z;
  headers : gmap Z BlockHeader;
  heap_bytes : bytes_map;
}.

Definition header_at (hs : gmap Z BlockHeader) (b : Z) : res BlockHeader := match hs !! b with Some h => Ok h | None => Undef end.

Definition set_next (h : BlockHeader) (p : Z) : BlockHeader := mkHeader (magic h) (page_count h) (total_size h) (user_size h) (block_flags h) p (prev_free h).
Definition set_prev (h : BlockHeader) (p : Z) : BlockHeader := mkHeader (magic h) (page_count h) (total_size h) (user_size h) (block_flags h) (next_free h) p.
Definition set_flags (h : BlockHeader) (f : Z) : BlockHeader := mkHeader (magic h) (page_count h) (total_size h) (user_size h) f (next_free h) (prev_free h).
Definition set_user_size (h : BlockHeader) (n : Z) : BlockHeader := mkHeader (magic h) (page_count h) (total_size h) n (block_flags h) (next_free h) (prev_free h).

(** [b->next_free = p] *)
Definition write_next (hs : gmap Z BlockHeader) (b p : Z) : res (gmap Z BlockHeader) := h ← header_at hs b; Ok (<[b := set_next h p]> hs).
Definition write_prev (hs : gmap Z BlockHeader) (b p : Z) : res (gmap Z BlockHeader) := h ← header_at hs b; Ok (<[b := set_prev h p]> hs).

Definition with_headers (s : Heap) (head : Z) (hs : gmap Z BlockHeader) : Heap := mkHeap (heap_table s) head (arena_cursor_ s) (arena_end_ s) hs (heap_bytes s).
Definition heap_with_bytes (s : Heap) (m : bytes_map) : Heap := mkHeap (heap_table s) (free_list_ s) (arena_cursor_ s) (arena_end_ s) (headers s) m.

Definition UserData (b : Z) : Z := u64 (b + sizeof_BlockHeader).
Definition FromUserData (p : Z) : Z := u64 (p - sizeof_BlockHeader).
Definition Validate (h : BlockHeader) : bool := magic h =? kMagic.

(** The nodes the search stops between. *)
Fixpoint insert_walk (fuel : nat) (hs : gmap Z BlockHeader) (prev curr total : Z) : res (Z * Z) :=
  match fuel with
  | O => Undef
  | S fuel =>
    if curr =? 0 then Ok (prev, curr) else
    h ← header_at hs curr;
    if total_size h <? total then insert_walk fuel hs curr (next_free h) total else Ok (prev, curr)
  end.

Definition FreeListInsert (s : Heap) (block : Z) : res Heap :=
  h ← header_at (headers s) block;
  let h := set_prev (set_next (set_flags h kFree) 0) 0 in
  let hs := <[block := h]> (headers s) in
  if free_list_ s =? 0 then Ok (with_headers s block hs) else
  '(prev, curr) ← insert_walk (S (size hs)) hs 0 (free_list_ s) (total_size h);
  hs ← write_next hs block curr;
  hs ← write_prev hs block prev;
  '(head, hs) ← (if negb (prev =? 0) then hs ← write_next hs prev block; Ok (free_list_ s, hs) else Ok (block, hs));
  hs ← (if negb (curr =? 0) then write_prev hs curr block else Ok hs);
  Ok (with_headers s head hs).

Definition FreeListRemove (s : Heap) (block : Z) : res Heap :=
  h ← header_at (headers s) block;
  '(head, hs) ← (if negb (prev_free h =? 0) then hs ← write_next (headers s) (prev_free h) (next_free h); Ok (free_list_ s, hs) else Ok (next_free h, headers s));
  h ← header_at hs block;
  hs ← (if negb (next_free h =? 0) then write_prev hs (next_free h) (prev_free h) else Ok hs);
  hs ← write_next hs block 0;
  hs ← write_prev hs block 0;
  Ok (with_headers s head hs).

Fixpoint best_fit_loop (fuel : nat) (hs : gmap Z BlockHeader) (curr required_size : Z) : res Z :=
  match fuel with
  | O => Undef
  | S fuel =>
    if curr =? 0 then Ok 0 else
    h ← header_at hs curr;
    if required_size <=? total_size h then Ok curr else best_fit_loop fuel hs (next_free h) required_size
  end.

Definition FreeListFindBestFit (s : Heap) (required_pages : Z) : res Z :=
  best_fit_loop (S (size (headers s))) (headers s) (free_list_ s) (u64 (required_pages * page_size_ (heap_table s))).

Definition PagesRequired (s : Heap) (user_size : Z) : Z := u64 (user_size + sizeof_BlockHeader + page_size_ (heap_table s) - 1) / page_size_ (heap_table s).

(** The header a block gets when it is cut from the arena or the page table. *)
Definition new_header (pages total size : Z) : BlockHeader := mkHeader kMagic (u32 pages) total size kInUse 0 0.

Definition cut_arena (s : Heap) (pages alloc_bytes size : Z) : Heap * Z :=
  (mkHeap (heap_table s) (free_list_ s) (u64 (arena_cursor_ s + alloc_bytes)) (arena_end_ s)
     (<[arena_cursor_ s := new_header pages alloc_bytes size]> (headers s)) (heap_bytes s), UserData (arena_cursor_ s)).

Section Heap.

Context (commits : Z -> Z -> bool).

Definition GrowArena (s : Heap) : res (Heap * bool) :=
  '(t, chunk) ← RequestPages commits (heap_table s) kArenaChunkPages;
  match chunk with
  | None => Ok (mkHeap t (free_list_ s) (arena_cursor_ s) (arena_end_ s) (headers s) (heap_bytes s), false)
  | Some (chunk, chunk_size) => Ok (mkHeap t (free_list_ s) chunk (u64 (chunk + chunk_size)) (headers s) (heap_bytes s), true)
  end.

Definition heap_allocate (s : Heap) (tid : nat) (size : Z) : res (Heap * Z) :=
  if size =? 0 then Ok (s, 0) else
  let pages := PagesRequired s size in
  let alloc_bytes := u64 (pages * page_size_ (heap_table s)) in
  block ← FreeListFindBestFit s pages;
  if negb (block =? 0) then
    s ← FreeListRemove s block;
    h ← header_at (headers s) block;
    Ok (with_headers s (free_list_ s) (<[block := set_user_size (set_flags h kInUse) size]> (headers s)), UserData block)
  else if u64 (arena_cursor_ s + alloc_bytes) <=? arena_end_ s then Ok (cut_arena s pages alloc_bytes size)
  else
    '(s, grown) ← GrowArena s;
    if grown && (u64 (arena_cursor_ s + alloc_bytes) <=? arena_end_ s) then Ok (cut_arena s pages alloc_bytes size)
    else
      '(t, memory) ← RequestPages commits (heap_table s) (Z.to_nat pages);
      match memory with
      | None => Fatal
      | Some (memory, allocated_size) =>
        Ok (mkHeap t (free_list_ s) (arena_cursor_ s) (arena_end_ s) (<[memory := new_header pages allocated_size size]> (headers s)) (heap_bytes s), UserData memory)
      end.

Definition heap_free (s : Heap) (block : Z) : res (Heap * Z) :=
  if block =? 0 then Ok (s, 0) else
  h ← header_at (headers s) (FromUserData block);
  _ ← dcheck (Validate h);
  _ ← dcheck (block_flags h =? kInUse);
  s ← FreeListInsert s (FromUserData block);
  Ok (s, user_size h).

Definition heap_reallocate (s : Heap) (tid : nat) (former_block new_size : Z) : res (Heap * Z) :=
  if former_block =? 0 then heap_allocate s tid new_size
  else if new_size =? 0 then '(s, _) ← heap_free s former_block; Ok (s, 0)
  else
    let header := FromUserData former_block in
    h ← header_at (headers s) header;
    _ ← dcheck (Validate h);
    let old_user_size := user_size h in
    if PagesRequired s new_size <=? page_count h then
      Ok (with_headers s (free_list_ s) (<[header := set_user_size h new_size]> (headers s)), former_block)
    else
      '(s, new_block) ← heap_allocate s tid new_size;
      if new_block =? 0 then Ok (s, 0) else
      m ← mem_copy (heap_bytes s) new_block former_block (Z.to_nat (if old_user_size <? new_size then old_user_size else new_size));
      '(s, _) ← heap_free (heap_with_bytes s m) former_block;
      Ok (s, new_block).

Definition heap_query (s : Heap) (block : Z) : res Z :=
  if block =? 0 then Ok 0 else
  h ← header_at (headers s) (FromUserData block);
  _ ← dcheck (Validate h);
  Ok (user_size h).

#[export] Instance heap_allocator : Allocator Heap := {|
  Allocate := heap_allocate; ReAllocate := heap_reallocate; Free := heap_free; QueryAllocationSize := heap_query;
  bytes := heap_bytes; with_bytes := heap_with_bytes |}.

End Heap.

(** ** The list of free blocks *)

Definition nth_at (fl : list Z) (i : nat) : Z := default 0 (fl !! i).
Definition before (fl : list Z) (i : nat) : Z := match i with O => 0 | S i => nth_at fl i end.

(** [fl] are the nodes in order. *)
Record linked (hs : gmap Z BlockHeader) (fl : list Z) : Prop := {
  l_nodup : NoDup fl;
  l_nonzero b : b ∈ fl -> b <> 0;
  l_node i b : fl !! i = Some b -> exists h, hs !! b = Some h /\ next_free h = nth_at fl (S i) /\ prev_free h = before fl i;
}.

(** All of a header but its links. *)
Definition same_block (h h' : BlockHeader) : Prop :=
  magic h' = magic h /\ page_count h' = page_count h /\ total_size h' = total_size h /\ user_size h' = user_size h /\ block_flags h' = block_flags h.

(** Only links differ. *)
Definition relinked (hs hs' : gmap Z BlockHeader) : Prop :=
  forall x, match hs !! x, hs' !! x with Some h, Some h' => same_block h h' | None, None => True | _, _ => False end.

Lemma relinked_refl hs : relinked hs hs.
Proof. intros x. by destruct (hs !! x). Qed.

Lemma relinked_trans hs1 hs2 hs3 : relinked hs1 hs2 -> relinked hs2 hs3 -> relinked hs1 hs3.
Proof.
  intros H1 H2 x. specialize (H1 x). specialize (H2 x). destruct (hs1 !! x), (hs2 !! x), (hs3 !! x); try done.
  unfold same_block in *. destruct H1 as (? & ? & ? & ? & ?), H2 as (? & ? & ? & ? & ?). repeat split; congruence.
Qed.

Lemma relinked_alter hs b (f : BlockHeader -> BlockHeader) : (forall h, same_block h (f h)) -> relinked hs (alter f b hs).
Proof.
  intros Hf x. destruct (decide (x = b)) as [->|Hne]; [rewrite lookup_alter_eq|rewrite lookup_alter_ne by done]; destruct (hs !! _); cbn; done.
Qed.

Definition edit (f : BlockHeader -> Z -> BlockHeader) (hs : gmap Z BlockHeader) (b p : Z) : gmap Z BlockHeader := alter (fun h => f h p) b hs.

Lemma alter_insert (hs : gmap Z BlockHeader) b h (f : BlockHeader -> BlockHeader) : hs !! b = Some h -> alter f b hs = <[b := f h]> hs.
Proof.
  intros E. apply map_eq. intros x. destruct (decide (x = b)) as [->|Hne]; [by rewrite lookup_alter_eq, lookup_insert_eq, E|by rewrite lookup_alter_ne, lookup_insert_ne].
Qed.

Lemma header_at_ok hs b h : hs !! b = Some h -> header_at hs b = Ok h.
Proof. unfold header_at. by intros ->. Qed.

Lemma write_next_ok hs b p h : hs !! b = Some h -> write_next hs b p = Ok (edit set_next hs b p).
Proof. intros E. unfold write_next, header_at, edit. rewrite E. cbn. by rewrite (alter_insert hs b h). Qed.

Lemma write_prev_ok hs b p h : hs !! b = Some h -> write_prev hs b p = Ok (edit set_prev hs b p).
Proof. intros E. unfold write_prev, header_at, edit. rewrite E. cbn. by rewrite (alter_insert hs b h). Qed.

Lemma edit_next_relinked hs b p : relinked hs (edit set_next hs b p).
Proof. apply relinked_alter. done. Qed.

Lemma edit_prev_relinked hs b p : relinked hs (edit set_prev hs b p).
Proof. apply relinked_alter. done. Qed.

Lemma edit_lookup f hs b p x : edit f hs b p !! x = if decide (x = b) then (fun h => f h p) <$> hs !! x else hs !! x.
Proof. unfold edit. destruct (decide (x = b)) as [->|Hne]; [by rewrite lookup_alter_eq|by rewrite lookup_alter_ne]. Qed.

(** The writes that are skipped for null. *)
Definition edit_opt (f : BlockHeader -> Z -> BlockHeader) (hs : gmap Z BlockHeader) (b p : Z) : gmap Z BlockHeader := if decide (b = 0) then hs else edit f hs b p.

Lemma edit_opt_lookup f hs b p x : x <> 0 -> edit_opt f hs b p !! x = if decide (x = b) then (fun h => f h p) <$> hs !! x else hs !! x.
Proof. intros Hx. unfold edit_opt. destruct (decide (b = 0)) as [->|]; [by rewrite decide_False|apply edit_lookup]. Qed.

Lemma edit_opt_relinked f hs b p : (forall h, same_block h (f h p)) -> relinked hs (edit_opt f hs b p).
Proof. intros Hf. unfold edit_opt. destruct (decide _); [apply relinked_refl|by apply relinked_alter]. Qed.

Lemma write_next_opt hs b p : (b <> 0 -> is_Some (hs !! b)) -> (if negb (b =? 0) then write_next hs b p else Ok hs) = Ok (edit_opt set_next hs b p).
Proof.
  intros Hs. unfold edit_opt. destruct (Z.eqb_spec b 0) as [->|Hne]; cbn [negb]; [by rewrite decide_True|]. rewrite decide_False by done. destruct (Hs Hne) as [h E]. by rewrite (write_next_ok _ _ _ h).
Qed.

Lemma write_prev_opt hs b p : (b <> 0 -> is_Some (hs !! b)) -> (if negb (b =? 0) then write_prev hs b p else Ok hs) = Ok (edit_opt set_prev hs b p).
Proof.
  intros Hs. unfold edit_opt. destruct (Z.eqb_spec b 0) as [->|Hne]; cbn [negb]; [by rewrite decide_True|]. rewrite decide_False by done. destruct (Hs Hne) as [h E]. by rewrite (write_prev_ok _ _ _ h).
Qed.

(** The same write with the new head of the list. *)
Lemma write_next_head hs b p (head new : Z) : (b <> 0 -> is_Some (hs !! b)) ->
  (if negb (b =? 0) then hs ← write_next hs b p; Ok (head, hs) else Ok (new, hs)) = Ok (if decide (b = 0) then new else head, edit_opt set_next hs b p).
Proof.
  intros Hs. pose proof (write_next_opt hs b p Hs) as E. destruct (Z.eqb_spec b 0) as [->|Hne]; cbn [negb] in *; [done|]. rewrite E. cbn. by rewrite decide_False.
Qed.

Section Linked.

Context {hs : gmap Z BlockHeader} {fl : list Z} (H : linked hs fl).

Lemma nth_at_some i b : fl !! i = Some b -> nth_at fl i = b.
Proof using Type. unfold nth_at. by intros ->. Qed.

Lemma nth_at_none i : (length fl <= i)%nat -> nth_at fl i = 0.
Proof using Type. intros Hi. unfold nth_at. by rewrite lookup_ge_None_2. Qed.

Lemma nth_at_inj i j b : fl !! i = Some b -> nth_at fl j = b -> i = j.
Proof using H.
  intros E1 E2. unfold nth_at in E2. destruct (fl !! j) as [c|] eqn:E; cbn in E2.
  - subst c. by apply (NoDup_lookup fl i j b (l_nodup _ _ H)).
  - exfalso. apply (l_nonzero _ _ H b); [by eapply list_elem_of_lookup_2|done].
Qed.

Lemma before_inj i j b : fl !! i = Some b -> before fl j = b -> j = S i.
Proof using H.
  intros E1 E2. destruct j as [|j]; cbn in E2; [|f_equal; by rewrite (nth_at_inj i j b)].
  exfalso. apply (l_nonzero _ _ H b); [by eapply list_elem_of_lookup_2|done].
Qed.

Lemma length_linked : (length fl <= size hs)%nat.
Proof using H.
  rewrite <- (size_dom (D := gset Z)). rewrite <- (size_list_to_set (C := gset Z) fl) by apply H. apply subseteq_size. intros b Hb. apply elem_of_list_to_set in Hb.
  apply list_elem_of_lookup in Hb as [i Ei]. destruct (l_node _ _ H i b Ei) as (h & E & _). apply elem_of_dom. by exists h.
Qed.

(** A node or the end. *)
Lemma nth_at_cases i : (nth_at fl i = 0 /\ (length fl <= i)%nat) \/ exists b h, fl !! i = Some b /\ nth_at fl i = b /\ b <> 0 /\ hs !! b = Some h /\ next_free h = nth_at fl (S i) /\ prev_free h = before fl i.
Proof using H.
  destruct (decide (length fl <= i)%nat) as [Hge|Hlt]; [left; split; [by apply nth_at_none|done]|right].
  destruct (lookup_lt_is_Some_2 fl i ltac:(lia)) as [b E]. destruct (l_node _ _ H i b E) as (h & ? & ? & ?). exists b, h. split; [done|]. split; [by apply nth_at_some|]. split; [|done].
  apply (l_nonzero _ _ H). by eapply list_elem_of_lookup_2.
Qed.

Lemma insert_walk_ok total i fuel : (i <= length fl)%nat -> (length fl - i < fuel)%nat ->
  exists k, insert_walk fuel hs (before fl i) (nth_at fl i) total = Ok (before fl k, nth_at fl k) /\ (i <= k <= length fl)%nat /\
    (forall j b h, (i <= j < k)%nat -> fl !! j = Some b -> hs !! b = Some h -> total_size h < total) /\
    (forall b h, fl !! k = Some b -> hs !! b = Some h -> total <= total_size h).
Proof using H.
  revert i. induction fuel as [|fuel IH]; intros i Hi Hf; [lia|]. cbn [insert_walk]. destruct (nth_at_cases i) as [[-> Hge]|(b & h & Ei & -> & Hb & Eh & En & _)].
  - exists i. rewrite (nth_at_none i) by done. split; [done|]. split; [lia|]. split; [lia|]. intros b h E. apply lookup_lt_Some in E. lia.
  - rewrite (proj2 (Z.eqb_neq b 0)) by done. rewrite (header_at_ok _ _ _ Eh). cbn [mbind res_bind]. pose proof (lookup_lt_Some _ _ _ Ei) as Hlt. destruct (Z.ltb_spec (total_size h) total) as [Hl|Hl].
    + rewrite En. rewrite <- (nth_at_some i b Ei). change (nth_at fl i) with (before fl (S i)). destruct (IH (S i)) as (k & E & Hk & H1 & H2); [lia|lia|]. exists k. split; [done|]. split; [lia|]. split; [|done].
      intros j b' h' Hj Ej Eh'. destruct (decide (j = i)) as [->|]; [|by apply (H1 j b'); [lia| |]]. assert (b' = b) as -> by congruence. congruence.
    + exists i. rewrite (nth_at_some i b Ei). split; [done|]. split; [lia|]. split; [lia|]. intros b' h' Eb' Eh'. assert (b' = b) as -> by congruence. congruence.
Qed.

Lemma best_fit_loop_ok required i fuel : (i <= length fl)%nat -> (length fl - i < fuel)%nat ->
  exists k, best_fit_loop fuel hs (nth_at fl i) required = Ok (nth_at fl k) /\ (i <= k <= length fl)%nat /\
    (forall j b h, (i <= j < k)%nat -> fl !! j = Some b -> hs !! b = Some h -> total_size h < required) /\
    (forall b h, fl !! k = Some b -> hs !! b = Some h -> required <= total_size h).
Proof using H.
  revert i. induction fuel as [|fuel IH]; intros i Hi Hf; [lia|]. cbn [best_fit_loop]. destruct (nth_at_cases i) as [[-> Hge]|(b & h & Ei & -> & Hb & Eh & En & _)].
  - exists i. rewrite (nth_at_none i) by done. split; [done|]. split; [lia|]. split; [lia|]. intros b h E. apply lookup_lt_Some in E. lia.
  - rewrite (proj2 (Z.eqb_neq b 0)) by done. rewrite (header_at_ok _ _ _ Eh). cbn [mbind res_bind]. pose proof (lookup_lt_Some _ _ _ Ei) as Hlt. destruct (Z.leb_spec required (total_size h)) as [Hl|Hl].
    + exists i. rewrite (nth_at_some i b Ei). split; [done|]. split; [lia|]. split; [lia|]. intros b' h' Eb' Eh'. assert (b' = b) as -> by congruence. congruence.
    + rewrite En. destruct (IH (S i)) as (k & E & Hk & H1 & H2); [lia|lia|]. exists k. split; [done|]. split; [lia|]. split; [|done].
      intros j b' h' Hj Ej Eh'. destruct (decide (j = i)) as [->|]; [|by apply (H1 j b'); [lia| |]]. assert (b' = b) as -> by congruence. congruence.
Qed.

End Linked.

(** *** Insertion *)

Definition insert_at (fl : list Z) (k : nat) (b : Z) : list Z := take k fl ++ b :: drop k fl.

Lemma insert_at_lookup fl k b j : (k <= length fl)%nat ->
  insert_at fl k b !! j = if decide (j < k)%nat then fl !! j else if decide (j = k) then Some b else fl !! (j - 1)%nat.
Proof.
  intros Hk. unfold insert_at. destruct (decide (j < k)%nat) as [Hlt|Hge].
  - rewrite lookup_app_l by (rewrite length_take; lia). by rewrite lookup_take_lt.
  - rewrite lookup_app_r by (rewrite length_take; lia). rewrite length_take, Nat.min_l by done. destruct (decide (j = k)) as [->|Hne]; [by rewrite Nat.sub_diag|].
    destruct (j - k)%nat as [|d] eqn:Ed; [lia|]. change ((b :: drop k fl) !! S d) with (drop k fl !! d). rewrite lookup_drop. f_equal. lia.
Qed.

Lemma elem_of_insert_at fl k b x : x ∈ insert_at fl k b <-> x = b \/ x ∈ fl.
Proof. unfold insert_at. rewrite elem_of_app, elem_of_cons. rewrite <- (take_drop k fl) at 3. rewrite elem_of_app. tauto. Qed.

Lemma NoDup_insert_at fl k b : NoDup fl -> b ∉ fl -> NoDup (insert_at fl k b).
Proof.
  intros Hn Hb. unfold insert_at. apply (NoDup_Permutation_proper _ (b :: fl)); [|by apply list.NoDup_cons]. rewrite <- Permutation_middle. by rewrite take_drop.
Qed.

(** The links after [block] went in before position [k]. *)
Lemma linked_insert hs hs' fl k block : linked hs fl -> block ∉ fl -> block <> 0 -> (k <= length fl)%nat ->
  (forall x h, x ∈ fl -> hs !! x = Some h -> exists h', hs' !! x = Some h' /\
     next_free h' = (if decide (x = before fl k) then block else next_free h) /\ prev_free h' = (if decide (x = nth_at fl k) then block else prev_free h)) ->
  (exists h', hs' !! block = Some h' /\ next_free h' = nth_at fl k /\ prev_free h' = before fl k) -> linked hs' (insert_at fl k block).
Proof.
  intros H Hb Hb0 Hk Hx Hblock. split; [apply NoDup_insert_at; [apply H|done]|intros b; rewrite elem_of_insert_at; intros [->|?]; [done|by apply (l_nonzero _ _ H)]|].
  intros i b Ei. rewrite insert_at_lookup in Ei by done. destruct (decide (i < k)%nat) as [Hlt|Hge]; [|destruct (decide (i = k)) as [->|Hne]].
  - pose proof (list_elem_of_lookup_2 _ _ _ Ei) as Hin. destruct (l_node _ _ H i b Ei) as (h & E & En & Ep). destruct (Hx b h Hin E) as (h' & E' & En' & Ep'). exists h'. split; [done|]. rewrite En', Ep'. split.
    + unfold nth_at at 1. rewrite insert_at_lookup by done. destruct (decide (S i < k)%nat) as [Hlt'|]; [rewrite decide_False; [done|]; intros Eq; pose proof (before_inj H i k b Ei (eq_sym Eq)); lia|].
      assert (Eq : k = S i) by lia. subst k. rewrite (decide_True (P := b = _)) by (cbn; by rewrite (nth_at_some i b Ei)). by rewrite decide_True.
    + rewrite decide_False by (intros Eq; pose proof (nth_at_inj H i k b Ei (eq_sym Eq)); lia). rewrite Ep. destruct i as [|i]; [done|]. cbn. unfold nth_at. rewrite insert_at_lookup, decide_True by lia. done.
  - injection Ei as <-. destruct Hblock as (h' & E' & En' & Ep'). exists h'. split; [done|]. rewrite En', Ep'. split.
    + unfold nth_at. rewrite insert_at_lookup by done. rewrite decide_False, decide_False by lia. f_equal. f_equal. lia.
    + destruct k as [|k]; [done|]. cbn. unfold nth_at. rewrite insert_at_lookup, decide_True by lia. done.
  - pose proof (list_elem_of_lookup_2 _ _ _ Ei) as Hin. destruct (l_node _ _ H _ b Ei) as (h & E & En & Ep). destruct (Hx b h Hin E) as (h' & E' & En' & Ep'). exists h'. split; [done|]. rewrite En', Ep'. split.
    + rewrite decide_False by (intros Eq; pose proof (before_inj H _ k b Ei (eq_sym Eq)); lia). rewrite En. unfold nth_at. rewrite insert_at_lookup by done. rewrite decide_False, decide_False by lia. f_equal. f_equal. lia.
    + destruct (decide (b = nth_at fl k)) as [Eq|Hnk].
      * pose proof (nth_at_inj H _ k b Ei (eq_sym Eq)). assert (i = S k) as -> by lia. cbn. unfold nth_at. rewrite insert_at_lookup, decide_False, decide_True by lia. done.
      * rewrite Ep. destruct i as [|i]; [lia|]. rewrite Nat.sub_1_r. cbn [Nat.pred before]. assert (i <> k). { intros ->. rewrite Nat.sub_1_r in Ei. cbn in Ei. apply Hnk. symmetry. by apply nth_at_some. }
        destruct i as [|i]; [lia|]. cbn. unfold nth_at. rewrite insert_at_lookup by done. rewrite decide_False, decide_False by lia. f_equal. f_equal. lia.
Qed.

(** What [FreeListInsert] does to the headers: only [block] and its neighbours change. *)
Definition freed (hs : gmap Z BlockHeader) (block : Z) (h : BlockHeader) : gmap Z BlockHeader := <[block := set_flags h kFree]> hs.

Lemma FreeListInsert_ok s fl block h : linked (headers s) fl -> free_list_ s = nth_at fl 0 -> headers s !! block = Some h -> block ∉ fl -> block <> 0 ->
  exists k hs', FreeListInsert s block = Ok (with_headers s (nth_at (insert_at fl k block) 0) hs') /\ linked hs' (insert_at fl k block) /\ (k <= length fl)%nat /\
    relinked (freed (headers s) block h) hs' /\
    (forall j b hb, (j < k)%nat -> fl !! j = Some b -> headers s !! b = Some hb -> total_size hb < total_size h) /\
    (forall b hb, fl !! k = Some b -> headers s !! b = Some hb -> total_size h <= total_size hb).
Proof.
  intros H Hhead Eh Hb Hb0. unfold FreeListInsert. rewrite (header_at_ok _ _ _ Eh). cbn [mbind res_bind]. set (h0 := set_prev (set_next (set_flags h kFree) 0) 0). set (hs0 := <[block := h0]> (headers s)).
  assert (Hrl : relinked (freed (headers s) block h) hs0).
  { intros x. unfold freed, hs0. destruct (decide (x = block)) as [->|Hne]; [rewrite !lookup_insert_eq; done|rewrite !lookup_insert_ne by done]. by destruct (headers s !! x). }
  assert (H0 : linked hs0 fl).
  { split; try apply H. intros i b Ei. unfold hs0. rewrite lookup_insert_ne; [by apply H|]. intros ->. apply Hb. by eapply list_elem_of_lookup_2. }
  assert (Eb0 : hs0 !! block = Some h0) by apply lookup_insert_eq.
  assert (Hother : forall b hb, b ∈ fl -> headers s !! b = Some hb <-> hs0 !! b = Some hb) by (intros b hb Hin; unfold hs0; rewrite lookup_insert_ne by congruence; done).
  destruct (nth_at_cases H 0) as [[E0 Hlen]|(b & hb & Ei & E0 & Hbne & _)].
  - assert (fl = []) as -> by (destruct fl; [done|cbn in Hlen; lia]). rewrite Hhead, E0. cbn. exists 0%nat, hs0. split; [done|]. split; [|split; [lia|split; [done|split; [lia|done]]]].
    apply (linked_insert hs0 hs0 [] 0 block H0); [done|done|done|set_solver|]. exists h0. done.
  - rewrite Hhead. rewrite (proj2 (Z.eqb_neq (nth_at fl 0) 0)) by congruence.
    destruct (insert_walk_ok H0 (total_size h0) 0 (S (size hs0))) as (k & Ew & Hk & Hlo & Hhi); [lia|pose proof (length_linked H0); lia|]. cbn [before] in Ew. rewrite Ew. cbn [mbind res_bind].
    rewrite (write_next_ok hs0 block _ h0 Eb0). cbn [mbind res_bind]. set (hs1 := edit set_next hs0 block (nth_at fl k)).
    assert (E1 : hs1 !! block = Some (set_next h0 (nth_at fl k))) by (unfold hs1; rewrite edit_lookup, decide_True, Eb0 by done; done). rewrite (write_prev_ok hs1 block _ _ E1). cbn [mbind res_bind]. set (hs2 := edit set_prev hs1 block (before fl k)).
    assert (E2 : hs2 !! block = Some (set_prev (set_next h0 (nth_at fl k)) (before fl k))) by (unfold hs2; rewrite edit_lookup, decide_True, E1 by done; done).
    assert (Hnode : forall b, b ∈ fl -> exists hb, hs0 !! b = Some hb /\ hs2 !! b = Some hb /\ b <> 0).
    { intros x Hx. apply list_elem_of_lookup in Hx as [i Ex]. destruct (l_node _ _ H0 i x Ex) as (hx & Ehx & _). assert (x <> block) by (intros ->; apply Hb; by eapply list_elem_of_lookup_2).
      exists hx. unfold hs2, hs1. rewrite !edit_lookup, !decide_False by done. split; [done|]. split; [done|]. apply (l_nonzero _ _ H). by eapply list_elem_of_lookup_2. }
    assert (Hprev : before fl k <> 0 -> before fl k ∈ fl). { destruct k as [|k']; cbn; [done|]. destruct (nth_at_cases H k') as [[-> _]|(x & hx & Ex & -> & _)]; [done|]. intros _. by eapply list_elem_of_lookup_2. }
    assert (Hcurr : nth_at fl k <> 0 -> nth_at fl k ∈ fl). { destruct (nth_at_cases H k) as [[-> _]|(x & hx & Ex & -> & _)]; [done|]. intros _. by eapply list_elem_of_lookup_2. }
    assert (Hsome : forall x, x ∈ fl -> is_Some (hs2 !! x)) by (intros x Hx; destruct (Hnode x Hx) as (hx & _ & E & _); eauto).
    rewrite write_next_head by auto. cbn [mbind res_bind]. set (hs3 := edit_opt set_next hs2 (before fl k) block).
    rewrite write_prev_opt by (intros Hnz; unfold hs3; rewrite edit_opt_lookup by done; destruct (Hsome _ (Hcurr Hnz)) as [hc ->]; by destruct (decide _)).
    cbn [mbind res_bind]. set (hs4 := edit_opt set_prev hs3 (nth_at fl k) block). exists k, hs4. split; [|split; [|split; [lia|split; [|split]]]].
    + do 2 f_equal. destruct k as [|k']; [by rewrite decide_True|]. rewrite decide_False. 2:{ cbn. destruct (nth_at_cases H k') as [[_ ?]|(x & hx & _ & Ex & ? & _)]; [lia|congruence]. }
      unfold nth_at. rewrite insert_at_lookup, decide_True by lia. done.
    + apply (linked_insert hs0 hs4 fl k block H0); [done|done|lia| |].
      * intros x hx Hx Ex. destruct (Hnode x Hx) as (hx' & Ex0 & Ex2 & Hx0). assert (hx' = hx) as -> by congruence.
        unfold hs4, hs3. rewrite !edit_opt_lookup, Ex2 by done.
        destruct (decide (x = before fl k)); destruct (decide (x = nth_at fl k)); cbn; eexists; (split; [reflexivity|done]).
      * exists (set_prev (set_next h0 (nth_at fl k)) (before fl k)). split; [|done].
        assert (block <> nth_at fl k) by (intros Eq; apply Hb; rewrite Eq; apply Hcurr; congruence). assert (block <> before fl k) by (intros Eq; apply Hb; rewrite Eq; apply Hprev; congruence).
        unfold hs4, hs3. rewrite !edit_opt_lookup by done. by rewrite !decide_False.
    + apply (relinked_trans _ hs0); [done|]. apply (relinked_trans _ hs1); [apply edit_next_relinked|]. apply (relinked_trans _ hs2); [apply edit_prev_relinked|].
      apply (relinked_trans _ hs3); by apply edit_opt_relinked.
    + intros j x hx Hj Ej Ex. apply (Hlo j x); [lia|done|]. apply Hother; [by eapply list_elem_of_lookup_2|done].
    + intros x hx Ej Ex. apply (Hhi x); [done|]. apply Hother; [by eapply list_elem_of_lookup_2|done].
Qed.

(** *** Removal *)

Definition remove_at (fl : list Z) (k : nat) : list Z := take k fl ++ drop (S k) fl.

Lemma remove_at_lookup fl k j : (k < length fl)%nat -> remove_at fl k !! j = if decide (j < k)%nat then fl !! j else fl !! S j.
Proof.
  intros Hk. unfold remove_at. destruct (decide (j < k)%nat) as [Hlt|Hge].
  - rewrite lookup_app_l by (rewrite length_take; lia). by rewrite lookup_take_lt.
  - rewrite lookup_app_r by (rewrite length_take; lia). rewrite length_take, Nat.min_l, lookup_drop by lia. f_equal. lia.
Qed.

Lemma remove_at_perm fl k b : fl !! k = Some b -> fl ≡ₚ (b :: remove_at fl k).
Proof. intros E. unfold remove_at. rewrite <- (take_drop_middle fl k b E) at 1. by rewrite <- Permutation_middle. Qed.

Lemma NoDup_remove_at fl k b : NoDup fl -> fl !! k = Some b -> (b ∉ remove_at fl k) /\ NoDup (remove_at fl k).
Proof. intros Hn E. apply remove_at_perm in E. revert E. generalize (remove_at fl k). intros l E. rewrite E in Hn. by apply list.NoDup_cons in Hn. Qed.

Lemma elem_of_remove_at fl k b x : NoDup fl -> fl !! k = Some b -> x ∈ remove_at fl k <-> x <> b /\ x ∈ fl.
Proof.
  intros Hn E. destruct (NoDup_remove_at fl k b Hn E) as [Hb _]. apply remove_at_perm in E. revert E Hb. generalize (remove_at fl k). intros l E Hb.
  rewrite E, elem_of_cons. split; [intros Hx; split; [intros ->; done|by right]|]. intros [? [?|?]]; done.
Qed.

(** The links after the node at [k] went out. *)
Lemma linked_remove hs hs' fl k block : linked hs fl -> fl !! k = Some block ->
  (forall x h, x ∈ fl -> x <> block -> hs !! x = Some h -> exists h', hs' !! x = Some h' /\
     next_free h' = (if decide (x = before fl k) then nth_at fl (S k) else next_free h) /\ prev_free h' = (if decide (x = nth_at fl (S k)) then before fl k else prev_free h)) ->
  linked hs' (remove_at fl k).
Proof.
  intros H Ek Hx. pose proof (lookup_lt_Some _ _ _ Ek) as Hk. split; [apply (NoDup_remove_at fl k block); [apply H|done]|intros b Hb; apply (elem_of_remove_at fl k block) in Hb as [_ Hb]; [by apply (l_nonzero _ _ H)|apply H|done]|].
  intros i b Ei. rewrite remove_at_lookup in Ei by done. set (i0 := if decide (i < k)%nat then i else S i). assert (Ei0 : fl !! i0 = Some b) by (unfold i0; by destruct (decide _)).
  assert (Hik : i0 <> k) by (unfold i0; destruct (decide _); lia). assert (Hb : b <> block) by (intros ->; apply Hik; by apply (NoDup_lookup fl i0 k block (l_nodup _ _ H))).
  destruct (l_node _ _ H i0 b Ei0) as (h & E & En & Ep). destruct (Hx b h (list_elem_of_lookup_2 _ _ _ Ei0) Hb E) as (h' & E' & En' & Ep'). exists h'. split; [done|]. rewrite En', Ep', En, Ep. clear Hx En' Ep'.
  assert (Hbef : forall j, b = before fl j -> j = S i0) by (intros j Eq; by apply (before_inj H i0 j b)). assert (Hat : forall j, b = nth_at fl j -> j = i0) by (intros j Eq; symmetry; by apply (nth_at_inj H i0 j b)).
  unfold i0 in *. destruct (decide (i < k)%nat) as [Hlt|Hge]; split.
  - unfold nth_at at 3. rewrite remove_at_lookup by done. destruct (decide (S i < k)%nat) as [Hlt'|].
    + rewrite decide_False; [done|]. intros Eq. apply Hbef in Eq. lia.
    + assert (k = S i) as -> by lia. rewrite decide_True; [done|]. cbn. symmetry. by apply nth_at_some.
  - rewrite decide_False by (intros Eq; apply Hat in Eq; lia). destruct i as [|i]; [done|]. cbn. unfold nth_at. rewrite remove_at_lookup, decide_True by lia. done.
  - rewrite decide_False by (intros Eq; apply Hbef in Eq; lia). unfold nth_at. rewrite remove_at_lookup, decide_False by lia. done.
  - destruct (decide (b = nth_at fl (S k))) as [Eq|Hne].
    + apply Hat in Eq. assert (i = k) as -> by lia. destruct k as [|k]; [done|]. cbn. unfold nth_at. rewrite remove_at_lookup, decide_True by lia. done.
    + cbn [before]. assert (i <> k). { intros ->. apply Hne. symmetry. by apply nth_at_some. } destruct i as [|i]; [lia|]. cbn [before]. unfold nth_at. rewrite remove_at_lookup, decide_False by lia. done.
Qed.

Lemma FreeListRemove_ok s fl k block : linked (headers s) fl -> free_list_ s = nth_at fl 0 -> fl !! k = Some block ->
  exists hs', FreeListRemove s block = Ok (with_headers s (nth_at (remove_at fl k) 0) hs') /\ linked hs' (remove_at fl k) /\ relinked (headers s) hs'.
Proof.
  intros H Hhead Ek. destruct (l_node _ _ H k block Ek) as (h & Eh & En & Ep). pose proof (lookup_lt_Some _ _ _ Ek) as Hk. unfold FreeListRemove. rewrite (header_at_ok _ _ _ Eh). cbn [mbind res_bind].
  set (hs := headers s) in *. assert (Hb0 : block <> 0) by (apply (l_nonzero _ _ H); by eapply list_elem_of_lookup_2).
  assert (Hnode : forall i, nth_at fl i <> 0 -> nth_at fl i ∈ fl /\ is_Some (hs !! nth_at fl i)).
  { intros i Hi. destruct (nth_at_cases H i) as [[? _]|(x & hx & Ex & -> & _ & Ehx & _)]; [done|]. split; [by eapply list_elem_of_lookup_2|eauto]. }
  assert (Hprev : before fl k <> 0 -> before fl k ∈ fl /\ is_Some (hs !! before fl k)) by (destruct k as [|k']; [done|apply Hnode]).
  assert (Hnb : block <> before fl k) by (intros Eq; pose proof (before_inj H k k block Ek (eq_sym Eq)); lia). assert (Hnc : block <> nth_at fl (S k)) by (intros Eq; pose proof (nth_at_inj H k (S k) block Ek (eq_sym Eq)); lia).
  rewrite Ep, En, write_next_head by (intros Hnz; by apply Hprev). cbn [mbind res_bind]. set (hs1 := edit_opt set_next hs (before fl k) (nth_at fl (S k))).
  assert (E1 : hs1 !! block = Some h) by (unfold hs1; by rewrite edit_opt_lookup, decide_False). rewrite (header_at_ok _ _ _ E1). cbn [mbind res_bind]. rewrite En, Ep.
  rewrite write_prev_opt by (intros Hnz; unfold hs1; rewrite edit_opt_lookup by done; destruct (proj2 (Hnode (S k) Hnz)) as [hc ->]; by destruct (decide _)).
  cbn [mbind res_bind]. set (hs2 := edit_opt set_prev hs1 (nth_at fl (S k)) (before fl k)). assert (E2 : hs2 !! block = Some h) by (unfold hs2; by rewrite edit_opt_lookup, decide_False).
  rewrite (write_next_ok hs2 block 0 h E2). cbn [mbind res_bind]. rewrite (write_prev_ok _ block 0 (set_next h 0)) by (rewrite edit_lookup, decide_True, E2 by done; done). cbn [mbind res_bind]. eexists. split; [|split].
  - do 2 f_equal. destruct k as [|k']; [rewrite decide_True by done; unfold nth_at; by rewrite remove_at_lookup, decide_False by lia|]. rewrite decide_False; [rewrite Hhead; unfold nth_at; by rewrite remove_at_lookup, decide_True by lia|].
    cbn. destruct (nth_at_cases H k') as [[_ ?]|(x & hx & _ & Ex & ? & _)]; [lia|congruence].
  - apply (linked_remove hs _ fl k block H Ek). intros x hx Hx Hne Ex. pose proof (l_nonzero _ _ H x Hx) as Hx0. rewrite !edit_lookup, !(decide_False (P := x = block)) by done. unfold hs2, hs1.
    rewrite !edit_opt_lookup, Ex by done. destruct (decide (x = before fl k)); destruct (decide (x = nth_at fl (S k))); cbn; eexists; (split; [reflexivity|done]).
  - apply (relinked_trans _ hs1); [by apply edit_opt_relinked|]. apply (relinked_trans _ hs2); [by apply edit_opt_relinked|]. eapply relinked_trans; [apply edit_next_relinked|apply edit_prev_relinked].
Qed.
