(* ===== verification/EqHeapLaws.v ===== *)
(** * base::HeapAllocator: its invariant and its contract

    Blocks, arena and free pages share the reserved range without overlap ([layout]); the
    free list holds the blocks that are not live, smallest first.  With these the allocator
    keeps the laws of its interface for requests of up to 2^47 bytes; it stops the process
    when no run of pages is left. *)

From S2P Require Import Prelude Memory CMemory EqPageTable EqAllocator EqBucket EqHeap.

Set Default Proof Using "Type".
Set Warnings "-clear-no-such-hyp".
#[local] Open Scope Z_scope.

(** ** The layout *)

Definition apart (a n b m : Z) : Prop := a + n <= b \/ b + m <= a.

(** [c] and [e] bound the arena. *)
Record layout (us : list bool) (t : PageTable) (c e : Z) (hs : gmap Z BlockHeader) : Prop := {
  la_table : table_ok t us;
  la_page : page_size_ t = kPageSize;
  la_range : page_at t (length us) <= 2 ^ 48;
  la_block b h : hs !! b = Some h -> 0 < b /\ b + total_size h <= 2 ^ 48 /\ 0 < page_count h /\ total_size h = kPageSize * page_count h;
  la_blocks b h b' h' : hs !! b = Some h -> hs !! b' = Some h' -> b <> b' -> apart b (total_size h) b' (total_size h');
  la_bounds : 0 <= c <= e /\ e <= 2 ^ 48 /\ (c = 0 -> e = 0);
  la_arena b h : c < e -> hs !! b = Some h -> apart b (total_size h) c (e - c);
  la_pages i : us !! i = Some false -> (forall b h, hs !! b = Some h -> apart b (total_size h) (page_at t i) kPageSize) /\ (c < e -> apart c (e - c) (page_at t i) kPageSize);
}.

(** The layout only sees where the blocks are and how long. *)
Lemma layout_ext us t c e hs hs' : layout us t c e hs ->
  (forall b h', hs' !! b = Some h' -> exists h, hs !! b = Some h /\ total_size h' = total_size h /\ page_count h' = page_count h) -> layout us t c e hs'.
Proof.
  intros H Hx. split; try apply H.
  - intros b h' E. destruct (Hx b h' E) as (h & Eh & -> & ->). by apply (la_block _ _ _ _ _ H).
  - intros b h b' h' E E' Hne. destruct (Hx b h E) as (h1 & E1 & -> & _), (Hx b' h' E') as (h2 & E2 & -> & _). by apply (la_blocks _ _ _ _ _ H).
  - intros b h' Hce E. destruct (Hx b h' E) as (h & Eh & -> & _). by apply (la_arena _ _ _ _ _ H).
  - intros i Ei. destruct (la_pages _ _ _ _ _ H i Ei) as [H1 H2]. split; [|done]. intros b h' E. destruct (Hx b h' E) as (h & Eh & -> & _). by apply H1.
Qed.

Lemma relinked_some hs hs' b h' : relinked hs hs' -> hs' !! b = Some h' -> exists h, hs !! b = Some h /\ same_block h h'.
Proof. intros H E. specialize (H b). rewrite E in H. destruct (hs !! b) as [h|]; [by exists h|done]. Qed.

Lemma relinked_to hs hs' b h : relinked hs hs' -> hs !! b = Some h -> exists h', hs' !! b = Some h' /\ same_block h h'.
Proof. intros H E. specialize (H b). rewrite E in H. destruct (hs' !! b) as [h'|]; [by exists h'|done]. Qed.

Lemma layout_relinked us t c e hs hs' : layout us t c e hs -> relinked hs hs' -> layout us t c e hs'.
Proof. intros H Hr. apply (layout_ext _ _ _ _ hs); [done|]. intros b h' E. destruct (relinked_some _ _ _ _ Hr E) as (h & Eh & (_ & E2 & E3 & _)). by exists h. Qed.

(** The front of the arena becomes a block. *)
Lemma layout_cut us t c e hs h : layout us t c e hs -> 0 < page_count h -> total_size h = kPageSize * page_count h -> c + total_size h <= e ->
  hs !! c = None /\ layout us t (c + total_size h) e (<[c := h]> hs).
Proof.
  intros H Hn Ht Hfit. destruct (la_bounds _ _ _ _ _ H) as (Hb1 & Hb2 & Hb3). assert (Hpos : 0 < total_size h) by (unfold kPageSize in *; lia).
  assert (Hnone : hs !! c = None). { destruct (hs !! c) as [h'|] eqn:E; [|done]. pose proof (la_arena _ _ _ _ _ H c h' ltac:(lia) E) as Ha. destruct (la_block _ _ _ _ _ H c h' E) as (? & ? & ? & ?). unfold apart, kPageSize in *. lia. }
  split; [done|]. split; try apply H.
  - intros b h' E. apply lookup_insert_Some in E as [[<- <-]|[_ E]]; [|by apply (la_block _ _ _ _ _ H)]. split; [lia|]. split; [lia|]. done.
  - assert (Hc : forall b h', hs !! b = Some h' -> apart b (total_size h') c (total_size h)) by (intros b h' E; pose proof (la_arena _ _ _ _ _ H b h' ltac:(lia) E); unfold apart in *; lia).
    intros b h1 b' h2 E E' Hne. apply lookup_insert_Some in E as [[<- <-]|[_ E]]; apply lookup_insert_Some in E' as [[<- <-]|[_ E']]; [done| | |by apply (la_blocks _ _ _ _ _ H)].
    + specialize (Hc b' h2 E'). unfold apart in *. lia.
    + by apply Hc.
  - lia.
  - intros b h' Hce E. apply lookup_insert_Some in E as [[<- <-]|[_ E]]; [unfold apart; lia|]. pose proof (la_arena _ _ _ _ _ H b h' ltac:(lia) E). unfold apart in *. lia.
  - intros i Ei. destruct (la_pages _ _ _ _ _ H i Ei) as [H1 H2]. specialize (H2 ltac:(lia)). split; [|intros _; unfold apart in *; lia].
    intros b h' E. apply lookup_insert_Some in E as [[<- <-]|[_ E]]; [unfold apart in *; lia|by apply H1].
Qed.

(** What is apart from every page of a run is apart from the run. *)
Lemma run_apart x s p n : 0 < s -> (forall j, (j < n)%nat -> apart x s (p + kPageSize * Z.of_nat j) kPageSize) -> (0 < n)%nat -> apart x s p (kPageSize * Z.of_nat n).
Proof.
  intros Hs. induction n as [|n IH]; intros Hj Hn; [lia|]. destruct (decide (n = 0)%nat) as [->|Hne].
  - specialize (Hj 0%nat ltac:(lia)). rewrite Z.mul_0_r, Z.add_0_r in Hj. by rewrite Z.mul_1_r.
  - specialize (IH ltac:(intros j ?; apply Hj; lia) ltac:(lia)). specialize (Hj n ltac:(lia)). unfold apart in *. rewrite Nat2Z.inj_succ, Z.mul_succ_r. lia.
Qed.

(** A run of free pages leaves the page table. *)
Lemma run_leaves us t c e hs i n t' : layout us t c e hs -> free_run us i n -> (0 < n)%nat -> same_pages t t' -> table_ok t' (set_range us i n true) ->
  layout (set_range us i n true) t' c e hs /\ 0 < page_at t i /\ page_at t i + kPageSize * Z.of_nat n <= 2 ^ 48 /\
  (forall b h, hs !! b = Some h -> apart b (total_size h) (page_at t i) (kPageSize * Z.of_nat n)) /\
  (c < e -> apart c (e - c) (page_at t i) (kPageSize * Z.of_nat n)) /\
  (forall j, set_range us i n true !! j = Some false -> apart (page_at t i) (kPageSize * Z.of_nat n) (page_at t' j) kPageSize).
Proof.
  intros H [Hl Hf] Hn (Ea & Ep & _) Ht'. assert (Hpage : forall j, page_at t' j = page_at t j) by (intros j; unfold page_at; congruence). pose proof (la_page _ _ _ _ _ H) as Hps.
  assert (Hstep : forall j, page_at t (i + j) = page_at t i + kPageSize * Z.of_nat j) by (intros j; unfold page_at; rewrite Hps; lia).
  assert (Hfree : forall j, set_range us i n true !! j = Some false -> us !! j = Some false /\ ((j < i)%nat \/ (i + n <= j)%nat)).
  { intros j Ej. rewrite set_range_lookup in Ej by done. destruct (decide (i <= j < i + n)%nat); [done|]. split; [done|lia]. }
  split; [|split; [|split; [|split; [|split]]]].
  - split; try apply H; [done|congruence|rewrite length_set_range, Hpage; apply H|]. intros j Ej. destruct (Hfree j Ej) as [Ej' _]. rewrite Hpage. by apply (la_pages _ _ _ _ _ H).
  - apply (page_at_range (la_table _ _ _ _ _ H)). lia.
  - rewrite <- Hstep. pose proof (la_range _ _ _ _ _ H). unfold page_at in *. rewrite Hps in *. unfold kPageSize in *. lia.
  - intros b h E. destruct (la_block _ _ _ _ _ H b h E) as (? & ? & ? & ?). apply run_apart; [unfold kPageSize in *; lia| |done]. intros j Hj. rewrite <- Hstep. apply (la_pages _ _ _ _ _ H (i + j)); [by apply Hf|done].
  - intros Hce. apply run_apart; [lia| |done]. intros j Hj. rewrite <- Hstep. apply (la_pages _ _ _ _ _ H (i + j)); [by apply Hf|done].
  - intros j Ej. destruct (Hfree j Ej) as [_ Hd]. rewrite Hpage. unfold apart, page_at. rewrite Hps. unfold kPageSize. lia.
Qed.

(** A run becomes the arena, or a block of its own. *)
Lemma layout_grow us t c e hs i n t' : layout us t c e hs -> free_run us i n -> (0 < n)%nat -> same_pages t t' -> table_ok t' (set_range us i n true) ->
  layout (set_range us i n true) t' (page_at t i) (page_at t i + kPageSize * Z.of_nat n) hs.
Proof.
  intros H Hf Hn Hs Ht'. destruct (run_leaves us t c e hs i n t' H Hf Hn Hs Ht') as (H1 & Hp & Hr & Hb & _ & Hfree). replace (page_at t i + kPageSize * Z.of_nat n - page_at t i) with (kPageSize * Z.of_nat n) by lia.
  split; try apply H1; [unfold kPageSize in *; lia| |].
  - intros b h _ E. replace (page_at t i + kPageSize * Z.of_nat n - page_at t i) with (kPageSize * Z.of_nat n) by lia. by apply Hb.
  - intros j Ej. split; [by apply (la_pages _ _ _ _ _ H1)|]. intros _. replace (page_at t i + kPageSize * Z.of_nat n - page_at t i) with (kPageSize * Z.of_nat n) by lia. by apply Hfree.
Qed.

Lemma layout_direct us t c e hs i n t' h : layout us t c e hs -> free_run us i n -> (0 < n)%nat -> same_pages t t' -> table_ok t' (set_range us i n true) ->
  page_count h = Z.of_nat n -> total_size h = kPageSize * Z.of_nat n ->
  hs !! page_at t i = None /\ layout (set_range us i n true) t' c e (<[page_at t i := h]> hs).
Proof.
  intros H Hf Hn Hs Ht' Hc Ht. destruct (run_leaves us t c e hs i n t' H Hf Hn Hs Ht') as (H1 & Hp & Hr & Hb & Ha & Hfree). rewrite <- Ht in *.
  assert (Hnone : hs !! page_at t i = None). { destruct (hs !! page_at t i) as [h'|] eqn:E; [|done]. pose proof (Hb _ _ E). destruct (la_block _ _ _ _ _ H _ _ E) as (? & ? & ? & ?). unfold apart, kPageSize in *. lia. }
  split; [done|]. split; try apply H1.
  - intros b h' E. apply lookup_insert_Some in E as [[<- <-]|[_ E]]; [|by apply (la_block _ _ _ _ _ H)]. split; [done|]. split; [done|]. split; [lia|congruence].
  - intros b h1 b' h2 E E' Hne. apply lookup_insert_Some in E as [[<- <-]|[_ E]]; apply lookup_insert_Some in E' as [[<- <-]|[_ E']]; [done| |by apply Hb|by apply (la_blocks _ _ _ _ _ H)].
    specialize (Hb b' h2 E'). unfold apart in *. lia.
  - intros b h' Hce E. apply lookup_insert_Some in E as [[<- <-]|[_ E]]; [specialize (Ha Hce); unfold apart in *; lia|by apply (la_arena _ _ _ _ _ H)].
  - intros j Ej. destruct (la_pages _ _ _ _ _ H1 j Ej) as [H2 H3]. split; [|done]. intros b h' E. apply lookup_insert_Some in E as [[<- <-]|[_ E]]; [by apply Hfree|by apply H2].
Qed.

(** ** The allocator's invariant *)

Record heap_ok (us : list bool) (fl : list Z) (s : Heap) (live : gmap Z (list Z)) : Prop := {
  ho_layout : layout us (heap_table s) (arena_cursor_ s) (arena_end_ s) (headers s);
  ho_linked : linked (headers s) fl;
  ho_head : free_list_ s = nth_at fl 0;
  ho_sorted i j a b ha hb : (i < j)%nat -> fl !! i = Some a -> fl !! j = Some b -> headers s !! a = Some ha -> headers s !! b = Some hb -> total_size ha <= total_size hb;
  ho_magic b h : headers s !! b = Some h -> magic h = kMagic;
  ho_flags b h : headers s !! b = Some h -> block_flags h = if decide (b ∈ fl) then kFree else kInUse;
  ho_live p bs : live !! p = Some bs -> exists b h, p = b + sizeof_BlockHeader /\ headers s !! b = Some h /\ (b ∉ fl) /\ user_size h = Z.of_nat (length bs) /\
      Z.of_nat (length bs) + sizeof_BlockHeader <= total_size h /\ read_bytes (heap_bytes s) p (length bs) = bs;
}.

(** A live block stays what it is when headers and bytes elsewhere change. *)
Definition block_of (s : Heap) (fl : list Z) (p : Z) (bs : list Z) (b : Z) (h : BlockHeader) : Prop :=
  p = b + sizeof_BlockHeader /\ headers s !! b = Some h /\ (b ∉ fl) /\ user_size h = Z.of_nat (length bs) /\
  Z.of_nat (length bs) + sizeof_BlockHeader <= total_size h /\ read_bytes (heap_bytes s) p (length bs) = bs.

Section HeapSteps.

Context {us : list bool} {fl : list Z} {s : Heap} {live : gmap Z (list Z)} (H : heap_ok us fl s live).

Lemma heap_block b h : headers s !! b = Some h -> 0 < b /\ b + total_size h <= 2 ^ 48 /\ 0 < page_count h < 2 ^ 32 /\ total_size h = kPageSize * page_count h /\ sizeof_BlockHeader < total_size h.
Proof using H. intros E. destruct (la_block _ _ _ _ _ (ho_layout _ _ _ _ H) b h E) as (? & ? & ? & ?). unfold kPageSize, sizeof_BlockHeader in *. lia. Qed.

Lemma user_data b h : headers s !! b = Some h -> UserData b = b + sizeof_BlockHeader /\ FromUserData (b + sizeof_BlockHeader) = b.
Proof using H. intros E. destruct (heap_block b h E). unfold UserData, FromUserData, sizeof_BlockHeader in *. split; [apply wrap_small; unfold fits; lia|]. rewrite wrap_small by (unfold fits; lia). lia. Qed.

(** The bytes of one block change, perhaps with its size; the free list stays. *)
Lemma heap_rewrite b h h' m' live' bs' : headers s !! b = Some h -> (b ∉ fl) -> same_block (set_user_size h (user_size h')) h' -> next_free h' = next_free h -> prev_free h' = prev_free h ->
  (forall x, x < b + sizeof_BlockHeader \/ b + total_size h <= x -> m' x = heap_bytes s x) ->
  live' = <[b + sizeof_BlockHeader := bs']> live -> user_size h' = Z.of_nat (length bs') -> Z.of_nat (length bs') + sizeof_BlockHeader <= total_size h ->
  read_bytes m' (b + sizeof_BlockHeader) (length bs') = bs' ->
  heap_ok us fl (mkHeap (heap_table s) (free_list_ s) (arena_cursor_ s) (arena_end_ s) (<[b := h']> (headers s)) m') live'.
Proof using H.
  intros E Hb (Em & Ec & Et & _ & Ef) En Ep Hm -> Eu Hlen Hr. cbn in Em, Ec, Et, Ef.
  assert (Htot : forall x hx, (<[b := h']> (headers s)) !! x = Some hx -> exists h0, headers s !! x = Some h0 /\ total_size hx = total_size h0 /\ page_count hx = page_count h0).
  { intros x hx Ex. apply lookup_insert_Some in Ex as [[<- <-]|[_ Ex]]; [by exists h|by exists hx]. }
  split; cbn; try apply H.
  - apply (layout_ext _ _ _ _ (headers s)); [apply H|]. intros x hx Ex. destruct (Htot x hx Ex) as (h0 & E0 & E1 & E2). by exists h0.
  - destruct (ho_linked _ _ _ _ H) as [Hn Hz Hl]. split; [done|done|]. intros i x Ex. destruct (Hl i x Ex) as (hx & Ehx & ? & ?). exists hx. rewrite lookup_insert_ne; [done|]. intros ->. apply Hb. by eapply list_elem_of_lookup_2.
  - intros i j x y hx hy Hij Ex Ey Ehx Ehy. destruct (Htot x hx Ehx) as (h1 & E1 & -> & _), (Htot y hy Ehy) as (h2 & E2 & -> & _). by apply (ho_sorted _ _ _ _ H i j x y).
  - intros x hx Ex. apply lookup_insert_Some in Ex as [[<- <-]|[_ Ex]]; [rewrite Em; by apply (ho_magic _ _ _ _ H b)|by apply (ho_magic _ _ _ _ H x)].
  - intros x hx Ex. apply lookup_insert_Some in Ex as [[<- <-]|[_ Ex]]; [rewrite Ef; by apply (ho_flags _ _ _ _ H)|by apply (ho_flags _ _ _ _ H)].
  - intros p bs Eb. apply lookup_insert_Some in Eb as [[<- <-]|[Hne Eb]].
    + exists b, h'. rewrite lookup_insert_eq. split; [done|]. split; [done|]. split; [done|]. split; [done|]. rewrite Et. done.
    + destruct (ho_live _ _ _ _ H p bs Eb) as (b2 & h2 & -> & E2 & Hb2 & Eu2 & Hl2 & Hr2). assert (b <> b2) by congruence. exists b2, h2. rewrite lookup_insert_ne by done. split; [done|]. split; [done|]. split; [done|]. split; [done|]. split; [done|].
      rewrite <- Hr2 at 2. apply read_bytes_ext. intros x Hx. apply Hm. pose proof (la_blocks _ _ _ _ _ (ho_layout _ _ _ _ H) b h b2 h2 E E2 ltac:(done)) as Ha. unfold apart, sizeof_BlockHeader in *. lia.
Qed.

(** The header and the list change by links alone. *)
Lemma heap_relink hs' fl' h0 : linked hs' fl' -> relinked h0 hs' ->
  (forall x hx, h0 !! x = Some hx -> exists h, headers s !! x = Some h /\ magic hx = magic h /\ page_count hx = page_count h /\ total_size hx = total_size h /\ user_size hx = user_size h /\ block_flags hx = if decide (x ∈ fl') then kFree else kInUse) ->
  (forall x h, headers s !! x = Some h -> is_Some (h0 !! x)) ->
  (forall i j a b ha hb, (i < j)%nat -> fl' !! i = Some a -> fl' !! j = Some b -> headers s !! a = Some ha -> headers s !! b = Some hb -> total_size ha <= total_size hb) ->
  (forall p bs b h, live !! p = Some bs -> block_of s fl p bs b h -> b ∉ fl') ->
  heap_ok us fl' (with_headers s (nth_at fl' 0) hs') live.
Proof using H.
  intros Hl Hr Hx Hsome Hsort Hlive. assert (Hback : forall x hx, hs' !! x = Some hx -> exists h, headers s !! x = Some h /\ magic hx = magic h /\ page_count hx = page_count h /\ total_size hx = total_size h /\ user_size hx = user_size h /\
    block_flags hx = if decide (x ∈ fl') then kFree else kInUse).
  { intros x hx Ex. destruct (relinked_some _ _ _ _ Hr Ex) as (h1 & E1 & (? & ? & ? & ? & ?)). destruct (Hx x h1 E1) as (h & E & ? & ? & ? & ? & ?). exists h. split; [done|]. repeat split; congruence. }
  split; cbn.
  - apply (layout_ext _ _ _ _ (headers s)); [apply H|]. intros b hb Eb. destruct (Hback b hb Eb) as (h & E & _ & ? & ? & _). by exists h.
  - done.
  - done.
  - intros i j a b ha hb Hij Ea Eb Eha Ehb. destruct (Hback a ha Eha) as (h1 & E1 & _ & _ & -> & _), (Hback b hb Ehb) as (h2 & E2 & _ & _ & -> & _). by apply (Hsort i j a b).
  - intros b h E. destruct (Hback b h E) as (h1 & E1 & -> & _). by apply (ho_magic _ _ _ _ H b).
  - intros b h E. by destruct (Hback b h E) as (h1 & E1 & _ & _ & _ & _ & ->).
  - intros p bs Ep. destruct (ho_live _ _ _ _ H p bs Ep) as (b & h & -> & E & Hb & Eu & Hlen & Hrd). destruct (Hsome b h E) as [h1 E1]. destruct (relinked_to _ _ _ _ Hr E1) as (h2 & E2 & _).
    destruct (Hback b h2 E2) as (h3 & E3 & _ & _ & Et & Eu' & _). assert (h3 = h) as -> by congruence. exists b, h2. rewrite Et, Eu'. split; [done|]. split; [done|]. split; [by apply (Hlive (b + sizeof_BlockHeader) bs b h)|]. done.
Qed.

Lemma sorted_at i j a b ha hb : (i <= j)%nat -> fl !! i = Some a -> fl !! j = Some b -> headers s !! a = Some ha -> headers s !! b = Some hb -> total_size ha <= total_size hb.
Proof using H.
  intros Hij Ea Eb Eha Ehb. destruct (decide (i = j)) as [->|]; [|apply (ho_sorted _ _ _ _ H i j a b); (done || lia)]. assert (a = b) as -> by congruence. assert (ha = hb) as -> by congruence. lia.
Qed.

Lemma forget_live p : heap_ok us fl s (delete p live).
Proof using H. destruct H as [H1 H2 H3 H4 H5 H6 H7]. split; try done. intros q bs' Eq. apply lookup_delete_Some in Eq as [_ Eq]. by apply H7. Qed.

(** Inserting a free block where [FreeListInsert] stops keeps the sizes in order. *)
Lemma insert_sorted b h k : headers s !! b = Some h -> (k <= length fl)%nat ->
  (forall j x hx, (j < k)%nat -> fl !! j = Some x -> headers s !! x = Some hx -> total_size hx < total_size h) ->
  (forall x hx, fl !! k = Some x -> headers s !! x = Some hx -> total_size h <= total_size hx) ->
  forall i j x y hx hy, (i < j)%nat -> insert_at fl k b !! i = Some x -> insert_at fl k b !! j = Some y -> headers s !! x = Some hx -> headers s !! y = Some hy -> total_size hx <= total_size hy.
Proof using H.
  intros E Hk Hlo Hhi i j x y hx hy Hij Ex Ey Ehx Ehy. rewrite insert_at_lookup in Ex, Ey by done. destruct (decide (i < k)%nat) as [Hi|Hi]; [|destruct (decide (i = k)) as [->|Hi']].
  - destruct (decide (j < k)%nat) as [Hj|Hj]; [|destruct (decide (j = k)) as [->|Hj']].
    + by apply (sorted_at i j x y); [lia| | | |].
    + injection Ey as <-. assert (hy = h) as -> by congruence. pose proof (Hlo i x hx Hi Ex Ehx). lia.
    + by apply (sorted_at i (j - 1) x y); [lia| | | |].
  - injection Ex as <-. assert (hx = h) as -> by congruence. rewrite decide_False, decide_False in Ey by lia. destruct (lookup_lt_is_Some_2 fl k) as [z Ez]; [apply lookup_lt_Some in Ey; lia|].
    destruct (l_node _ _ (ho_linked _ _ _ _ H) k z Ez) as (hz & Ehz & _). pose proof (Hhi z hz Ez Ehz). pose proof (sorted_at k (j - 1) z y hz hy ltac:(lia) Ez Ey Ehz Ehy). lia.
  - rewrite decide_False, decide_False in Ey by lia. by apply (sorted_at (i - 1) (j - 1) x y); [lia| | | |].
Qed.

Lemma remove_sorted k : (k < length fl)%nat ->
  forall i j x y hx hy, (i < j)%nat -> remove_at fl k !! i = Some x -> remove_at fl k !! j = Some y -> headers s !! x = Some hx -> headers s !! y = Some hy -> total_size hx <= total_size hy.
Proof using H.
  intros Hk i j x y hx hy Hij Ex Ey Ehx Ehy. rewrite remove_at_lookup in Ex, Ey by done. destruct (decide (i < k)%nat), (decide (j < k)%nat);
    [apply (sorted_at i j x y)|apply (sorted_at i (S j) x y)|lia|apply (sorted_at (S i) (S j) x y)]; (done || lia).
Qed.

End HeapSteps.

Section HeapOps.

Context {us : list bool} {fl : list Z} {s : Heap} {live : gmap Z (list Z)} (H : heap_ok us fl s live).

Lemma heap_free_ok p bs : live !! p = Some bs -> exists s' n fl', heap_free s p = Ok (s', n) /\ n = Z.of_nat (length bs) /\ heap_ok us fl' s' (delete p live).
Proof using H.
  intros Ep. destruct (ho_live _ _ _ _ H p bs Ep) as (b & h & -> & E & Hb & Eu & Hlen & Hr). pose proof (heap_block H b h E) as Hbl. destruct (user_data H b h E) as [_ Efu]. unfold heap_free.
  rewrite (proj2 (Z.eqb_neq _ 0)) by (unfold sizeof_BlockHeader in *; lia). rewrite Efu, (header_at_ok _ _ _ E). cbn [mbind res_bind]. unfold Validate. rewrite (ho_magic _ _ _ _ H b h E), Z.eqb_refl. cbn [dcheck mbind res_bind].
  rewrite (ho_flags _ _ _ _ H b h E), decide_False by done. change (kInUse =? kInUse) with true. cbn [dcheck mbind res_bind].
  destruct (FreeListInsert_ok s fl b h (ho_linked _ _ _ _ H) (ho_head _ _ _ _ H) E Hb ltac:(lia)) as (k & hs' & Ei & Hl & Hk & Hrl & Hlo & Hhi). rewrite Ei. cbn [mbind res_bind]. do 2 eexists. exists (insert_at fl k b). split; [done|]. split; [done|].
  apply (heap_relink (forget_live H (b + sizeof_BlockHeader)) hs' (insert_at fl k b) (freed (headers s) b h)); [done|done| | | |].
  - intros x hx Ex. unfold freed in Ex. apply lookup_insert_Some in Ex as [[<- <-]|[Hne Ex]]; [exists h; rewrite decide_True by (apply elem_of_insert_at; by left); done|].
    exists hx. split; [done|]. do 4 (split; [done|]). rewrite (ho_flags _ _ _ _ H x hx Ex). apply decide_ext. rewrite elem_of_insert_at. split; [by right|intros [->|?]; done].
  - intros x hx Ex. unfold freed. destruct (decide (x = b)) as [->|Hne]; [rewrite lookup_insert_eq; eauto|rewrite lookup_insert_ne by done; eauto].
  - by apply (insert_sorted H b h k).
  - intros q bs' b' h' Eq (-> & E' & Hb' & _). rewrite elem_of_insert_at. intros [->|?]; [|done]. by rewrite lookup_delete_eq in Eq.
Qed.

(** *** Allocation *)

Lemma pages_required n : 0 < n <= 2 ^ 47 -> let k := PagesRequired s n in 0 < k < 2 ^ 32 /\ n + sizeof_BlockHeader <= kPageSize * k < n + sizeof_BlockHeader + kPageSize.
Proof using H.
  intros Hn k. unfold k, PagesRequired. rewrite (la_page _ _ _ _ _ (ho_layout _ _ _ _ H)). unfold kPageSize, sizeof_BlockHeader in *. rewrite wrap_small by (unfold fits; lia).
  pose proof (Z_div_mod_eq_full (n + 48 + 65536 - 1) 65536). pose proof (Z.mod_pos_bound (n + 48 + 65536 - 1) 65536 ltac:(lia)). lia.
Qed.

(** A block nobody else has, of at least the size asked for. *)
Definition heap_handed_out (n : Z) (r : Heap * Z) : Prop :=
  r.2 <> 0 /\ live !! r.2 = None /\ exists us' fl' bs, Z.of_nat (length bs) = n /\ heap_ok us' fl' r.1 (<[r.2 := bs]> live).

(** A header that appears at a new place. *)
Lemma heap_new_block us' t c e b h n : 0 < n -> layout us' t c e (<[b := h]> (headers s)) -> headers s !! b = None ->
  magic h = kMagic -> block_flags h = kInUse -> user_size h = n -> n + sizeof_BlockHeader <= total_size h ->
  heap_handed_out n (mkHeap t (free_list_ s) c e (<[b := h]> (headers s)) (heap_bytes s), UserData b).
Proof using H.
  intros Hn Hla Hnone Em Ef Eu Hfit. destruct (la_block _ _ _ _ _ Hla b h) as (Hb1 & Hb2 & _); [apply lookup_insert_eq|].
  assert (Eud : UserData b = b + sizeof_BlockHeader) by (unfold UserData, sizeof_BlockHeader in *; apply wrap_small; unfold fits; lia). unfold heap_handed_out. cbn [fst snd]. rewrite Eud.
  assert (Hbfl : b ∉ fl). { intros Hin. apply list_elem_of_lookup in Hin as [i Ei]. destruct (l_node _ _ (ho_linked _ _ _ _ H) i b Ei) as (h' & E' & _). congruence. }
  assert (Hold : forall x hx, headers s !! x = Some hx -> (<[b := h]> (headers s)) !! x = Some hx /\ x <> b) by (intros x hx Ex; assert (x <> b) by congruence; by rewrite lookup_insert_ne).
  assert (Hnew : forall x hx, (<[b := h]> (headers s)) !! x = Some hx -> x <> b -> headers s !! x = Some hx) by (intros x hx Ex Hne; by rewrite lookup_insert_ne in Ex).
  split; [unfold sizeof_BlockHeader; lia|]. split.
  { destruct (live !! (b + sizeof_BlockHeader)) as [bs|] eqn:El; [|done]. destruct (ho_live _ _ _ _ H _ _ El) as (b2 & h2 & Eb & E2 & _). assert (b2 = b) as -> by lia. congruence. }
  exists us', fl, (read_bytes (heap_bytes s) (b + sizeof_BlockHeader) (Z.to_nat n)). rewrite length_read_bytes. split; [lia|]. split; cbn; try apply H; [done| | | | |].
  - destruct (ho_linked _ _ _ _ H) as [Hnd Hz Hl]. split; [done|done|]. intros i x Ex. destruct (Hl i x Ex) as (hx & Ehx & ? & ?). exists hx. by destruct (Hold x hx Ehx).
  - assert (Hin : forall i x, fl !! i = Some x -> x <> b) by (intros i x Ex ->; apply Hbfl; by eapply list_elem_of_lookup_2).
    intros i j x y hx hy Hij Ex Ey Ehx Ehy. apply (ho_sorted _ _ _ _ H i j x y); [done|done|done|apply Hnew; [done|by eapply Hin]|apply Hnew; [done|by eapply Hin]].
  - intros x hx Ex. apply lookup_insert_Some in Ex as [[<- <-]|[_ Ex]]; [done|by apply (ho_magic _ _ _ _ H x)].
  - intros x hx Ex. apply lookup_insert_Some in Ex as [[<- <-]|[_ Ex]]; [by rewrite decide_False|by apply (ho_flags _ _ _ _ H)].
  - intros q bs Eq. apply lookup_insert_Some in Eq as [[<- <-]|[Hne Eq]].
    + exists b, h. rewrite lookup_insert_eq, length_read_bytes. split; [done|]. split; [done|]. split; [done|]. split; [lia|]. split; [lia|done].
    + destruct (ho_live _ _ _ _ H q bs Eq) as (b2 & h2 & -> & E2 & ? & ? & ? & ?). exists b2, h2. by destruct (Hold b2 h2 E2).
Qed.

(** The smallest free block that is large enough is used again. *)
Lemma reuse_ok n k b : 0 < n -> fl !! k = Some b -> (forall h, headers s !! b = Some h -> n + sizeof_BlockHeader <= total_size h) ->
  wp False (s ← FreeListRemove s b; h ← header_at (headers s) b; Ok (with_headers s (free_list_ s) (<[b := set_user_size (set_flags h kInUse) n]> (headers s)), UserData b)) (heap_handed_out n).
Proof using H.
  intros Hn Ek Hfit. destruct (FreeListRemove_ok s fl k b (ho_linked _ _ _ _ H) (ho_head _ _ _ _ H) Ek) as (hs' & -> & Hl & Hrl). cbn [mbind res_bind].
  destruct (l_node _ _ (ho_linked _ _ _ _ H) k b Ek) as (h & E & _). specialize (Hfit h E). destruct (relinked_to _ _ _ _ Hrl E) as (h' & E' & (Em & Ec & Et & Eu & Ef)).
  cbn [with_headers headers]. rewrite (header_at_ok _ _ _ E'). cbn [mbind res_bind wp]. destruct (user_data H b h E) as [Eud _]. unfold heap_handed_out. cbn [fst snd with_headers headers free_list_ heap_table arena_cursor_ arena_end_ heap_bytes]. rewrite Eud.
  pose proof (lookup_lt_Some _ _ _ Ek) as Hk. pose proof (l_nodup _ _ (ho_linked _ _ _ _ H)) as Hnd. destruct (NoDup_remove_at fl k b Hnd Ek) as [Hbout _]. destruct (heap_block H b h E) as (Hb0 & _).
  assert (Hnone : live !! (b + sizeof_BlockHeader) = None). { destruct (live !! (b + sizeof_BlockHeader)) as [bs|] eqn:El; [|done]. destruct (ho_live _ _ _ _ H _ _ El) as (b2 & h2 & Eb & _ & Hb2 & _). assert (b2 = b) as -> by lia. exfalso. apply Hb2. by eapply list_elem_of_lookup_2. }
  split; [unfold sizeof_BlockHeader; lia|]. split; [done|].
  set (h2 := set_user_size (set_flags h' kInUse) n). set (bs := read_bytes (heap_bytes s) (b + sizeof_BlockHeader) (Z.to_nat n)). exists us, (remove_at fl k), bs. unfold bs at 1. rewrite length_read_bytes. split; [lia|].
  assert (H1 : heap_ok us (remove_at fl k) (with_headers s (nth_at (remove_at fl k) 0) (<[b := set_flags h' kInUse]> hs')) live).
  { apply (heap_relink H _ (remove_at fl k) (<[b := set_flags h kInUse]> (headers s))).
    - destruct Hl as [H1 H2 H3]. split; [done|done|]. intros i x Ex. destruct (H3 i x Ex) as (hx & Ehx & ? & ?). exists hx. rewrite lookup_insert_ne; [done|]. intros ->. apply Hbout. by eapply list_elem_of_lookup_2.
    - intros x. destruct (decide (x = b)) as [->|Hne]; [rewrite !lookup_insert_eq; by split|rewrite !lookup_insert_ne by done; apply Hrl].
    - intros x hx Ex. apply lookup_insert_Some in Ex as [[<- <-]|[Hne Ex]]; [exists h; by rewrite decide_False|]. exists hx. split; [done|]. do 4 (split; [done|]). rewrite (ho_flags _ _ _ _ H x hx Ex). apply decide_ext.
      rewrite (elem_of_remove_at fl k b x Hnd Ek). split; [intros ?; split; [by apply not_eq_sym|done]|by intros [_ ?]].
    - intros x hx Ex. destruct (decide (x = b)) as [->|Hne]; [rewrite lookup_insert_eq; eauto|rewrite lookup_insert_ne by done; eauto].
    - by apply (remove_sorted H).
    - intros q bs' b' hb' Eq (-> & _ & Hb' & _). rewrite (elem_of_remove_at fl k b b' Hnd Ek). by intros [_ ?]. }
  pose proof (heap_rewrite H1 b (set_flags h' kInUse) h2 (heap_bytes s) (<[b + sizeof_BlockHeader := bs]> live) bs) as Hw.
  cbn [with_headers headers free_list_ heap_table arena_cursor_ arena_end_ heap_bytes] in Hw. rewrite insert_insert_eq in Hw. apply Hw; [apply lookup_insert_eq|done|by split|done|done|done|done| | |].
  - cbn. unfold bs. rewrite length_read_bytes. lia.
  - cbn. unfold bs. rewrite length_read_bytes. lia.
  - unfold bs. by rewrite length_read_bytes.
Qed.

End HeapOps.

Lemma retable us us' fl s live t c e : heap_ok us fl s live -> layout us' t c e (headers s) -> heap_ok us' fl (mkHeap t (free_list_ s) c e (headers s) (heap_bytes s)) live.
Proof. intros [] Hl. by split. Qed.

Lemma cut_ok us fl s live n k : heap_ok us fl s live -> 0 < n -> 0 < k < 2 ^ 32 -> n + sizeof_BlockHeader <= kPageSize * k -> arena_cursor_ s + kPageSize * k <= arena_end_ s ->
  heap_handed_out (live := live) n (cut_arena s k (kPageSize * k) n).
Proof.
  intros H Hn Hk Hfit Hroom. unfold cut_arena. destruct (la_bounds _ _ _ _ _ (ho_layout _ _ _ _ H)) as (Hb1 & Hb2 & Hb3). rewrite (wrap_small 64 (_ + _)) by (unfold fits, kPageSize in *; lia).
  set (h := new_header k (kPageSize * k) n). assert (Ec : page_count h = k) by (cbn; apply wrap_small; unfold fits; lia).
  destruct (layout_cut us _ _ _ _ h (ho_layout _ _ _ _ H)) as [Hnone Hl]; [lia|cbn in Ec |- *; by rewrite Ec|done|]. by apply (heap_new_block H us).
Qed.

Section HeapAlloc.

Context (commits : Z -> Z -> bool).

Lemma request_run us t n P : table_ok t us -> (0 < n)%nat -> (forall r, requested t us n r -> P r) -> wp False (RequestPages commits t n) P.
Proof using Type.
  intros Ht Hn HP. eapply wp_mono; [by apply (RequestPages_ok commits False t us n Ht)|]. intros r Hr. apply HP. by rewrite (proj2 (Nat.eqb_neq n 0)) in Hr by lia.
Qed.

Lemma GrowArena_ok us fl s live : heap_ok us fl s live -> wp False (GrowArena commits s) (fun r => exists us', heap_ok us' fl r.1 live).
Proof using Type.
  intros H. pose proof (ho_layout _ _ _ _ H) as Hla. unfold GrowArena. apply wp_bind. apply (request_run us); [apply Hla|unfold kArenaChunkPages; lia|]. intros [t r] [(i & Hf & _ & Hs & Ht & Er)|[_ Er]]; cbn in Er; [cbn in Hs, Ht; subst r|]; cbn.
  - exists (set_range us i kArenaChunkPages true). destruct (run_leaves us _ _ _ _ i kArenaChunkPages t Hla Hf ltac:(unfold kArenaChunkPages; lia) Hs Ht) as (_ & ? & ? & _).
    rewrite (la_page _ _ _ _ _ Hla). rewrite wrap_small by (unfold fits; unfold kPageSize in *; lia). apply (retable us); [done|]. apply (layout_grow us (heap_table s) (arena_cursor_ s) (arena_end_ s)); (done || unfold kArenaChunkPages; lia).
  - injection Er as -> ->. exists us. by destruct s.
Qed.

Lemma heap_allocate_ok us fl s live tid n : heap_ok us fl s live -> 0 < n <= 2 ^ 47 -> wp False (heap_allocate commits s tid n) (heap_handed_out (live := live) n).
Proof using Type.
  intros H Hn. unfold heap_allocate. rewrite (proj2 (Z.eqb_neq n 0)) by lia. destruct (pages_required H n Hn) as [Hk Hfit]. set (k := PagesRequired s n) in *. pose proof (ho_layout _ _ _ _ H) as Hla.
  rewrite (la_page _ _ _ _ _ Hla). unfold FreeListFindBestFit. rewrite (la_page _ _ _ _ _ Hla). replace (k * kPageSize) with (kPageSize * k) by lia. rewrite (wrap_small 64 (kPageSize * k)) by (unfold fits, kPageSize in *; lia).
  rewrite (ho_head _ _ _ _ H). pose proof (length_linked (ho_linked _ _ _ _ H)) as Hlen. destruct (best_fit_loop_ok (ho_linked _ _ _ _ H) (kPageSize * k) 0 (S (size (headers s))) ltac:(lia) ltac:(lia)) as (j & -> & Hj & _ & Hhi). cbn [mbind res_bind].
  destruct (nth_at_cases (ho_linked _ _ _ _ H) j) as [[-> _]|(b & h & Ej & -> & Hb & E & _)]; cbn [negb Z.eqb].
  2:{ rewrite (proj2 (Z.eqb_neq b 0)) by done. cbn [negb]. apply (reuse_ok H n j b); [lia|done|]. intros h' Eh'. specialize (Hhi b h' Ej Eh'). lia. }
  assert (Hcut : forall us1 s1, heap_ok us1 fl s1 live -> (u64 (arena_cursor_ s1 + kPageSize * k) <=? arena_end_ s1) = true -> heap_handed_out (live := live) n (cut_arena s1 k (kPageSize * k) n)).
  { intros us1 s1 H1 Hle. destruct (la_bounds _ _ _ _ _ (ho_layout _ _ _ _ H1)). rewrite wrap_small in Hle by (unfold fits, kPageSize in *; lia). apply Z.leb_le in Hle. apply (cut_ok us1 fl); (done || lia). }
  destruct (u64 (arena_cursor_ s + kPageSize * k) <=? arena_end_ s) eqn:Eroom; [cbn; by apply (Hcut us)|].
  apply wp_bind. eapply wp_mono; [by apply (GrowArena_ok us fl)|]. intros [s1 grown] [us1 H1]. cbn in H1. destruct (grown && _) eqn:Eg; [apply andb_true_iff in Eg as [_ Eg]; cbn; by apply (Hcut us1)|].
  apply wp_bind. apply (request_run us1); [apply (ho_layout _ _ _ _ H1)|lia|]. intros [t r] [(i & Hf & _ & Hs & Ht & Er)|[_ Er]]; cbn in Er; [cbn in Hs, Ht; subst r|injection Er as -> ->; cbn; by intros []]; cbn.
  pose proof (ho_layout _ _ _ _ H1) as Hla1. rewrite (la_page _ _ _ _ _ Hla1), Z2Nat.id by lia. set (hd := new_header k (kPageSize * k) n). assert (Ec : page_count hd = k) by (cbn; apply wrap_small; unfold fits; lia).
  destruct (layout_direct us1 _ _ _ _ i (Z.to_nat k) t hd Hla1 Hf ltac:(lia) Hs Ht) as [Hnone Hl]; [lia|cbn; lia|]. apply (heap_new_block H1 (set_range us1 i (Z.to_nat k) true)); try done; [lia|cbn; lia].
Qed.

(** *** Reallocation *)

(** The block moves with what fits of it. *)
Lemma heap_move us fl s live p bs q bs1 : heap_ok us fl s (<[q := bs1]> live) -> live !! p = Some bs -> p <> q ->
  exists m s' n fl' bs', mem_copy (heap_bytes s) q p (min (length bs) (length bs1)) = Ok m /\ heap_free (heap_with_bytes s m) p = Ok (s', n) /\ length bs' = length bs1 /\
    take (min (length bs) (length bs1)) bs' = take (min (length bs) (length bs1)) bs /\ heap_ok us fl' s' (<[q := bs']> (delete p live)).
Proof using Type.
  intros H Ep Hpq. assert (Ep1 : <[q := bs1]> live !! p = Some bs) by (by rewrite lookup_insert_ne). assert (Eq1 : <[q := bs1]> live !! q = Some bs1) by apply lookup_insert_eq.
  destruct (ho_live _ _ _ _ H p bs Ep1) as (b & h & Eb & E & Hb & Eu & Hlen & Hr). destruct (ho_live _ _ _ _ H q bs1 Eq1) as (b2 & h2 & Eb2 & E2 & Hb2 & Eu2 & Hlen2 & Hr2).
  pose proof (la_blocks _ _ _ _ _ (ho_layout _ _ _ _ H) b h b2 h2 E E2 ltac:(congruence)) as Ha. unfold apart, sizeof_BlockHeader in *.
  set (k := min (length bs) (length bs1)). set (m := write_bytes (heap_bytes s) q (read_bytes (heap_bytes s) p k)). exists m. set (bs' := read_bytes m q (length bs1)). assert (Hl' : length bs' = length bs1) by apply length_read_bytes.
  assert (H1 : heap_ok us fl (heap_with_bytes s m) (<[q := bs']> live)).
  { pose proof (heap_rewrite H b2 h2 h2 m (<[q := bs']> live) bs' E2 Hb2) as Hw. rewrite (insert_id (headers s)) in Hw by done. unfold sizeof_BlockHeader in Hw. rewrite <- Eb2, Hl' in Hw. apply Hw; [by split|done|done| |by rewrite insert_insert_eq|done|done|done].
    intros x Hx. apply write_bytes_out. rewrite length_read_bytes. lia. }
  destruct (heap_free_ok H1 p bs) as (s' & n & fl' & Ef & _ & H2); [by rewrite lookup_insert_ne|]. exists s', n, fl', bs'. rewrite mem_copy_ok by lia. split; [done|]. split; [done|]. split; [done|].
  rewrite delete_insert_ne in H2 by done. split; [|done]. unfold bs'. rewrite read_bytes_take by lia. pose proof (read_write (heap_bytes s) q (read_bytes (heap_bytes s) p k)) as Hrw. rewrite length_read_bytes in Hrw. fold m in Hrw.
  rewrite Hrw. rewrite <- Hr at 1. symmetry. apply read_bytes_take. lia.
Qed.

Lemma heap_reallocate_ok us fl s live tid p bs n : heap_ok us fl s live -> live !! p = Some bs -> 0 < n <= 2 ^ 47 ->
  wp False (heap_reallocate commits s tid p n) (fun r =>
    r.2 <> 0 /\ (r.2 = p \/ live !! r.2 = None) /\ exists us' fl' bs', Z.of_nat (length bs') = n /\
       take (min (length bs) (length bs')) bs' = take (min (length bs) (length bs')) bs /\ heap_ok us' fl' r.1 (<[r.2 := bs']> (delete p live))).
Proof using Type.
  intros H Ep Hn. destruct (ho_live _ _ _ _ H p bs Ep) as (b & h & Eb & E & Hb & Eu & Hlen & Hr). pose proof (heap_block H b h E) as Hbl. destruct (user_data H b h E) as [_ Efu]. rewrite <- Eb in Efu.
  unfold heap_reallocate. rewrite (proj2 (Z.eqb_neq p 0)), (proj2 (Z.eqb_neq n 0)) by (unfold sizeof_BlockHeader in *; lia). rewrite Efu, (header_at_ok _ _ _ E). cbn [mbind res_bind].
  unfold Validate. rewrite (ho_magic _ _ _ _ H b h E), Z.eqb_refl. cbn [dcheck mbind res_bind]. destruct (pages_required H n Hn) as [Hk Hfit]. destruct (Z.leb_spec (PagesRequired s n) (page_count h)) as [Hle|Hgt].
  - cbn. split; [unfold sizeof_BlockHeader in *; lia|]. split; [by left|]. set (bs' := read_bytes (heap_bytes s) p (Z.to_nat n)). exists us, fl, bs'. unfold bs' at 1 2 3 4. rewrite length_read_bytes. split; [lia|]. split.
    + rewrite read_bytes_take by lia. rewrite <- Hr at 3. by rewrite read_bytes_take by lia.
    + rewrite insert_delete_eq. pose proof (heap_rewrite H b h (set_user_size h n) (heap_bytes s) (<[p := bs']> live) bs' E Hb) as Hw. rewrite <- Eb in Hw. unfold bs' in Hw. rewrite length_read_bytes in Hw.
      apply Hw; [by split|done|done|done|done|cbn; lia| |done]. unfold kPageSize in *. lia.
  - apply wp_bind. eapply wp_mono; [by apply (heap_allocate_ok us fl)|]. intros [s1 q] (Hq & Hnone & us' & fl' & bs1 & Elen & H1). cbn in *. rewrite (proj2 (Z.eqb_neq q 0)) by done.
    destruct (heap_move us' fl' s1 live p bs q bs1 H1 Ep ltac:(congruence)) as (m & s' & k & fl2 & bs' & Em & Ef & El & Et & H2).
    replace (Z.to_nat (if user_size h <? n then user_size h else n)) with (min (length bs) (length bs1)) by (rewrite Eu; destruct (Z.ltb_spec (Z.of_nat (length bs)) n); lia).
    rewrite Em. cbn. rewrite Ef. cbn. split; [done|]. split; [by right|]. exists us', fl2, bs'. rewrite El. split; [done|]. split; done.
Qed.

Lemma heap_query_ok us fl s live p bs : heap_ok us fl s live -> live !! p = Some bs -> heap_query s p = Ok (Z.of_nat (length bs)).
Proof using Type.
  intros H Ep. destruct (ho_live _ _ _ _ H p bs Ep) as (b & h & -> & E & Hb & Eu & Hlen & Hr). pose proof (heap_block H b h E) as Hbl. destruct (user_data H b h E) as [_ Efu].
  unfold heap_query. rewrite (proj2 (Z.eqb_neq _ 0)) by (unfold sizeof_BlockHeader in *; lia). rewrite Efu, (header_at_ok _ _ _ E). cbn [mbind res_bind]. unfold Validate. rewrite (ho_magic _ _ _ _ H b h E), Z.eqb_refl. cbn. by rewrite Eu.
Qed.

#[export] Program Instance heap_laws : AllocatorLaws (H := heap_allocator commits) Heap False := {|
  inv s live := exists us fl, heap_ok us fl s live;
  max_size := 2 ^ 47;
|}.
Next Obligation.
  intros s live p bs (us & fl & H) Ep. destruct (ho_live _ _ _ _ H p bs Ep) as (b & h & -> & E & _ & _ & _ & Hr). pose proof (heap_block H b h E). split; [unfold sizeof_BlockHeader in *; lia|done].
Qed.
Next Obligation.
  intros s live p bs i x (us & fl & H) Ep Hi. exists us, fl. destruct (ho_live _ _ _ _ H p bs Ep) as (b & h & -> & E & Hb & Eu & Hlen & Hr).
  pose proof (heap_rewrite H b h h (write_bytes (heap_bytes s) (b + sizeof_BlockHeader + Z.of_nat i) [x]) (<[b + sizeof_BlockHeader := <[i := x]> bs]> live) (<[i := x]> bs) E Hb) as Hw. rewrite (insert_id (headers s)) in Hw by done. apply Hw; [by split|done|done| |done|by rewrite length_insert|by rewrite length_insert|rewrite length_insert; by apply read_write_byte].
  intros y Hy. apply write_bytes_out. cbn. lia.
Qed.
Next Obligation. intros s live tid n (us & fl & H) Hn. eapply wp_mono; [by apply (heap_allocate_ok us fl)|]. intros r (? & ? & us' & fl' & bs & ? & ?). right. eauto 10. Qed.
Next Obligation. intros s live tid p bs n (us & fl & H) Ep Hn. eapply wp_mono; [by apply (heap_reallocate_ok us fl)|]. intros r (? & ? & us' & fl' & bs' & ? & ? & ?). right. eauto 10. Qed.
Next Obligation. intros s live p bs (us & fl & H) Ep. destruct (heap_free_ok H p bs Ep) as (s' & n & fl' & E & _ & H'). cbn. rewrite E. cbn. eauto. Qed.
Next Obligation. intros s live p bs (us & fl & H) Ep. cbn. rewrite (heap_query_ok us fl s live p bs H Ep). cbn. lia. Qed.

End HeapAlloc.

(** ** From the reservation on *)

Definition HeapAllocator (t : PageTable) (m : bytes_map) : Heap := mkHeap t 0 0 0 ∅ m.

Lemma heap_start_ok raw space n m : 0 < raw -> (0 < n)%nat -> raw + kPageSize + kPageSize * Z.of_nat n <= 2 ^ 48 ->
  exists t, ReserveAddressSpace raw space kPageSize n = Ok t /\ heap_ok (replicate n false) [] (HeapAllocator t m) ∅.
Proof.
  intros Hraw Hn Hfit. unfold kPageSize in *. destruct (ReserveAddressSpace_ok raw space 16 n) as (t & E & Ht & Ep & Hr); [lia|done|done|lia|]. exists t. split; [done|].
  split; cbn; try done.
  - split; cbn; try done.
    + unfold page_at. rewrite length_replicate, Ep. change (2 ^ 16) with 65536 in *. lia.
  - split; [constructor|set_solver|done].
Qed.

(** C20. A program that allocates, resizes, writes, reads and frees large blocks cannot tell the
    heap allocator from arrays that share nothing, whatever mix of reuse from the size-sorted list
    of freed blocks, cuts from the arena, new arenas and direct page runs it takes: headers, list
    links and other blocks are never disturbed, and no freed block is handed out twice.  The process
    stops only where the allocator asks the page table in vain. *)
Theorem HeapAllocator_refines_arrays commits raw space n m os :
  0 < raw -> (0 < n)%nat -> raw + kPageSize + kPageSize * Z.of_nat n <= 2 ^ 48 -> Forall (op_fits (2 ^ 47)) os ->
  let run := t ← ReserveAddressSpace raw space kPageSize n; run_client (H := heap_allocator commits) os (HeapAllocator t m, ∅) in
  run <> Undef /\ (forall c outs, run = Ok (c, outs) -> exists a, array_steps ∅ os outs a).
Proof.
  intros Hraw Hn Hfit Hos run. destruct (heap_start_ok raw space n m Hraw Hn Hfit) as (t & E & Hs).
  pose proof (client_refines (Laws := heap_laws commits) os (HeapAllocator t m) (ex_intro _ _ (ex_intro _ _ Hs)) Hos) as Hw. unfold run. rewrite E. cbn [mbind res_bind].
  destruct (run_client os (HeapAllocator t m, ∅)) as [r| |]; cbn in Hw; [|done|done]. split; [done|]. by intros c outs [= ->].
Qed.

(** A freed block of the right size is used again; a larger request moves with its contents. *)
Lemma HeapAllocator_refines_arrays_witness :
  let os := [CAllocate 0 0 100; CWrite 0 3 7; CAllocate 1 0 70000; CFree 0; CAllocate 2 0 50; CWrite 2 5 9; CReAllocate 2 0 90000; CRead 2 5; CQuery 2; CFree 2] in
  let run := t ← ReserveAddressSpace 1000000 1048576 kPageSize 300; run_client (H := heap_allocator (fun _ _ => true)) os (HeapAllocator t (fun _ => 0), ∅) in
  (match run with Ok (_, outs) => outs | _ => [] end) = [Done; Done; Done; Done; Done; Done; Done; Value 9; Value 90000; Done] /\
  exists a, array_steps ∅ os (match run with Ok (_, outs) => outs | _ => [] end) a.
Proof.
  intros os run. assert (E : (match run with Ok (_, outs) => outs | _ => [] end) = [Done; Done; Done; Done; Done; Done; Done; Value 9; Value 90000; Done]) by (vm_compute; reflexivity).
  split; [done|]. destruct (HeapAllocator_refines_arrays (fun _ _ => true) 1000000 1048576 300 (fun _ => 0) os) as (H1 & H2); [lia|lia|unfold kPageSize; lia|repeat constructor; cbn; lia|].
  fold run in H1, H2. destruct run as [[c outs]| |]; [by apply (H2 c)|done|done].
Defined.
