(* ===== verification/EqRouter.v ===== *)
(** * base::MemoryScope and base::EQMemoryRouter (allocator/memory_context.h, memory_context.cc,
    allocator/eq_alloc/eq_memory_router.h)

    [MemoryScope] overrides the allocator of a thread for a scope; the router sends a
    request to an allocator, remembers per MiB of the range which one it was, and finds it
    again for what is resized or freed.  The allocators are the interface of EqAllocator.v
    over one state; the page table only gives the offset of a block. *)

From S2P Require Import Prelude Memory CMemory EqPageTable EqAllocator EqBucket.

Set Default Proof Using "Type".
#[local] Open Scope Z_scope.

(** ** MemoryScope *)

Definition NoOverride : Z := -1.

(** [current_allocator_id] and [previous_allocator_] after [Enter(new_id)]; an [allocator_id] is a byte. *)
Definition Enter (current new_id : Z) : Z * Z := (u8 new_id, current).

(** The constructor: the thread's allocator and the object's [previous_allocator_]. *)
Definition MemoryScope (current id : Z) : res (Z * Z) :=
  _ ← dcheck ((0 <? id) && (id <=? 255));
  Ok (if negb (current =? id) then Enter current id else (current, 0)).

(** The destructor. *)
Definition leave_scope (current previous : Z) : Z := fst (Enter current previous).

(** ** The router *)

Definition kMibShift : Z := 20.
Definition kMaxAllocators : Z := 255.
Definition kBucketAllocator : Z := 0.
Definition kPageAllocator : Z := 1.
Definition kHeapAllocator : Z := 2.
Definition kBucketThreshold : Z := 1024.
Definition page_threshold : Z := 65536.
Definition mapping_entries : Z := 1048576.

(** [MemoryScope::allocator_handle()]: a value-initialised [i16]. *)
Definition allocator_handle : Z := 0.

Fixpoint next_power_loop (fuel : nat) (size : Z) : option Z :=
  match fuel with
  | O => None
  | S fuel => if 0 <? Z.land size (u64 (size - 1)) then next_power_loop fuel (Z.land size (u64 (size - 1))) else Some (u64 (Z.shiftl size 1))
  end.

Definition nextPowerOfTwo (size : Z) : option Z :=
  if size =? 0 then Some 1 else if Z.land size (u64 (size - 1)) =? 0 then Some size else next_power_loop 65 size.

Section Router.

Context {S : Type} (allocators_ : Z -> option (Allocator S)) (page_table : S -> PageTable) (mem : S -> bytes_map) (set_mem : S -> bytes_map -> S).

(** [allocator_mapping_table_]: what was not written is the initialiser, its first entry only. *)
Record Router := mkRouter { state : S; mapping_ : gmap Z Z }.

Definition mapping_at (r : Router) (idx : Z) : res Z :=
  if (0 <=? idx) && (idx <? mapping_entries) then Ok (default (if idx =? 0 then kMaxAllocators else 0) (mapping_ r !! idx)) else Undef.

Fixpoint map_blocks (n : nat) (mapping : gmap Z Z) (idx id : Z) : res (gmap Z Z) :=
  match n with
  | O => Ok mapping
  | Datatypes.S n => if idx <? mapping_entries then map_blocks n (<[idx := u8 id]> mapping) (idx + 1) id else Undef
  end.

Definition allocator_at (id : Z) : res (Allocator S) := match allocators_ id with Some a => Ok a | None => Undef end.

Definition router_allocate (r : Router) (tid : nat) (size : Z) : res (Router * Z) :=
  let id := allocator_handle in
  let id :=
    if negb (id =? NoOverride) then id
    else if size <=? kBucketThreshold then kBucketAllocator
    else if size <=? page_threshold then kPageAllocator
    else kHeapAllocator in
  a ← allocator_at id;
  '(s, block) ← Allocate (Allocator := a) (state r) tid size;
  po ← PageOffset (page_table s) block;
  let first_idx := Z.shiftr po kMibShift in
  let last_idx := Z.shiftr (u64 (u64 (po + size) - 1)) kMibShift in
  mapping ← map_blocks (Z.to_nat (last_idx - first_idx + 1)) (mapping_ r) first_idx id;
  Ok (mkRouter s mapping, block).

Definition FindOwningAllocator (r : Router) (block : Z) : res (option (Allocator S)) :=
  po ← PageOffset (page_table (state r)) block;
  let index := Z.shiftr po kMibShift in
  _ ← dcheck (index <? mapping_entries);
  _ ← dcheck (negb (index =? kMaxAllocators));
  id ← mapping_at r index;
  if negb (id =? kMaxAllocators) then a ← allocator_at id; Ok (Some a) else Ok None.

Definition AllocateAligned (r : Router) (tid : nat) (size alignment : Z) : res (Router * Z) :=
  let expanded_size := u64 (u64 (size + alignment) + 8) in
  '(r, raw_block) ← router_allocate r tid expanded_size;
  if raw_block =? 0 then Ok (r, 0) else
  let adjustment := u64 (alignment - Z.land raw_block (u64 (alignment - 1))) in
  let aligned_block := u64 (raw_block + adjustment) in
  Ok (mkRouter (set_mem (state r) (store64 (mem (state r)) (u64 (aligned_block - 8)) adjustment)) (mapping_ r), aligned_block).

(** The block and [diff_out]. *)
Definition router_reallocate (r : Router) (tid : nat) (former new_size : Z) : res (Router * Z * Z) :=
  a ← FindOwningAllocator r former;
  match a with
  | None => Undef
  | Some a =>
    former_size ← QueryAllocationSize (Allocator := a) (state r) former;
    '(s, p) ← ReAllocate (Allocator := a) (state r) tid former new_size;
    Ok (mkRouter s (mapping_ r), p, i64 (new_size - former_size))
  end.

Definition router_free (r : Router) (block : Z) : res (Router * Z) :=
  a ← FindOwningAllocator r block;
  match a with
  | None => Undef
  | Some a => '(s, n) ← Free (Allocator := a) (state r) block; Ok (mkRouter s (mapping_ r), n)
  end.

(** The address the aligned block was cut from. *)
Definition raw_of (m : bytes_map) (aligned_block : Z) : Z := u64 (aligned_block - load64 m (u64 (aligned_block - 8))).

Definition ReAllocateAligned (r : Router) (tid : nat) (former_block former_size new_size alignment : Z) : res (Router * Z) :=
  '(r, new_block) ← AllocateAligned r tid new_size alignment;
  if new_block =? 0 then Ok (r, 0) else
  let copy_size := if former_size <? new_size then former_size else new_size in
  m ← mem_copy (mem (state r)) new_block former_block (Z.to_nat copy_size);
  let r := mkRouter (set_mem (state r) m) (mapping_ r) in
  '(r, _) ← router_free r (raw_of m former_block);
  Ok (r, new_block).

Definition Deallocate (r : Router) (block size alignment : Z) : res (Router * bool) := '(r, _) ← router_free r block; Ok (r, true).

End Router.

(** ** Overrides *)

(** Leaving a scope restores the override that was in force only if there was one and it was a
    different one: with none in force the thread is left on allocator 255, and inside a scope of the
    same allocator it is left on allocator 0. *)
Theorem MemoryScope_restores current id : 0 < id <= 255 -> current = NoOverride \/ 0 <= current <= 255 ->
  exists inner previous, MemoryScope current id = Ok (inner, previous) /\ inner = id /\
    leave_scope inner previous = (if current =? id then 0 else if current =? NoOverride then 255 else current).
Proof.
  intros Hid Hc. unfold MemoryScope. rewrite (proj2 (Z.ltb_lt 0 id)), (proj2 (Z.leb_le id 255)) by lia. cbn [andb dcheck mbind res_bind].
  destruct (Z.eqb_spec current id) as [->|Hne]; cbn [negb]; [by exists id, 0|]. exists (u8 id), current. split; [done|]. split; [apply wrap_small; unfold fits; lia|].
  unfold leave_scope, Enter, fst. destruct (Z.eqb_spec current NoOverride) as [->|Hn]; [done|]. apply wrap_small. unfold fits. lia.
Qed.

Lemma MemoryScope_restores_witness :
  (exists inner previous, MemoryScope NoOverride 7 = Ok (inner, previous) /\ inner = 7 /\ leave_scope inner previous = 255) /\
  (exists inner previous, MemoryScope 3 7 = Ok (inner, previous) /\ inner = 7 /\ leave_scope inner previous = 3).
Proof. split; [apply (MemoryScope_restores NoOverride 7 ltac:(lia)); by left|apply (MemoryScope_restores 3 7 ltac:(lia)); lia]. Defined.

(** ** Where requests go *)

Lemma ClassIndex_large size : 1024 < size < 2 ^ 64 -> exists c, ClassIndex size = Ok c /\ kNumClasses <= c.
Proof.
  intros Hs. unfold ClassIndex, kNumClasses. rewrite (proj2 (Z.leb_gt size 8)) by lia. rewrite wrap_small by (unfold fits; lia).
  destruct (Bits.CountLeftZero_ok 64 (size - 1)) as (n & -> & Hn & En & _); [unfold Bits.width_ok; lia|unfold fits; lia|]. rewrite En by lia. cbn [mbind res_bind]. eexists. split; [done|].
  assert (10 <= Z.log2 (size - 1)); [|lia]. apply Z.log2_le_pow2; lia.
Qed.

(** C21. The router asks allocator 0 whatever the size, because it compares a value-initialised
    handle with [NoOverride]: every request above 1 KiB reaches the bucket allocator, whose table of
    size classes it indexes out of range. *)
Theorem Router_large_requests commits allocators_ page_table r tid size :
  allocators_ kBucketAllocator = Some (bucket_allocator commits) -> 1024 < size < 2 ^ 64 ->
  router_allocate allocators_ page_table r tid size = Undef.
Proof.
  intros Ha Hs. unfold router_allocate, allocator_at. change (if negb (allocator_handle =? NoOverride) then allocator_handle else _) with kBucketAllocator. rewrite Ha. cbn [mbind res_bind].
  cbn [Allocate bucket_allocator]. unfold bucket_allocate. destruct (ClassIndex_large size Hs) as (c & -> & Hc). cbn [mbind res_bind]. by rewrite (proj2 (Z.leb_le _ _) Hc), orb_true_r.
Qed.

Lemma Router_large_requests_witness : exists s, EqBucket.start 1000000 1048576 4 (fun _ => 0) 0 = Ok s /\
  router_allocate (fun id => if id =? 0 then Some (bucket_allocator (fun _ _ => true)) else None) page_table_ (mkRouter s ∅) 0 4096 = Undef.
Proof. eexists. split; [reflexivity|]. apply (Router_large_requests (fun _ _ => true)); [done|lia]. Defined.

(** ** Aligned blocks *)

Section Aligned.

Context {S : Type} (allocators_ : Z -> option (Allocator S)) (page_table : S -> PageTable) (mem : S -> bytes_map) (set_mem : S -> bytes_map -> S).
Context (mem_set : forall s m, mem (set_mem s m) = m).

(** An aligned block lies inside the block it was cut from, at a multiple of its alignment, and
    the word in front of it, itself inside that block, leads back to it.  The adjustment fits in
    front because alignments are multiples of 8 and so are the blocks of the allocators. *)
Theorem AllocateAligned_recovers r tid size k r1 p : 3 <= k < 32 -> 0 <= size < 2 ^ 62 ->
  router_allocate allocators_ page_table r tid (size + 2 ^ k + 8) = Ok (r1, p) -> 0 < p -> p mod 8 = 0 -> p + (size + 2 ^ k + 8) <= 2 ^ 64 ->
  exists r2 q, AllocateAligned allocators_ page_table mem set_mem r tid size (2 ^ k) = Ok (r2, q) /\
    q mod 2 ^ k = 0 /\ p + 8 <= q /\ q + size <= p + (size + 2 ^ k + 8) /\ raw_of (mem (state r2)) q = p /\
    (forall x, x < q - 8 \/ q <= x -> mem (state r2) x = mem (state r1) x).
Proof using mem_set.
  intros Hk Hs E Hp H8 Hfit. assert (Hpow : 2 ^ k = 8 * 2 ^ (k - 3)) by (change 8 with (2 ^ 3); rewrite <- Z.pow_add_r by lia; f_equal; lia).
  pose proof (Z.pow_pos_nonneg 2 (k - 3) ltac:(lia) ltac:(lia)) as Hpos. assert (H32 : 2 ^ k < 2 ^ 32) by (apply Z.pow_lt_mono_r; lia).
  unfold AllocateAligned. rewrite (wrap_small 64 (size + 2 ^ k)), (wrap_small 64 (_ + 8)) by (unfold fits; lia). rewrite E. cbn [mbind res_bind].
  rewrite (proj2 (Z.eqb_neq p 0)) by lia. rewrite (wrap_small 64 (2 ^ k - 1)) by (unfold fits; lia). rewrite land_low_mask by lia. pose proof (Z.mod_pos_bound p (2 ^ k) ltac:(lia)) as Hm.
  rewrite (wrap_small 64 (2 ^ k - p mod 2 ^ k)) by (unfold fits; lia). set (adj := 2 ^ k - p mod 2 ^ k). rewrite (wrap_small 64 (p + adj)) by (unfold fits, adj; lia).
  assert (Hadj : 8 <= adj). { assert (Hd : adj mod 8 = 0); [|pose proof (Z_div_mod_eq_full adj 8); unfold adj in *; lia]. unfold adj. rewrite Hpow at 1. rewrite Zminus_mod.
    replace ((8 * 2 ^ (k - 3)) mod 8) with 0 by (symmetry; rewrite Z.mul_comm; apply Z_mod_mult). rewrite Hpow. rewrite Z.rem_mul_r by lia. rewrite H8. rewrite Z.add_0_l, (Z.mul_comm 8), Z_mod_mult. done. }
  rewrite (wrap_small 64 (p + adj - 8)) by (unfold fits, adj; lia). do 2 eexists. split; [done|]. cbn [state]. rewrite mem_set. split; [|split; [lia|split; [unfold adj; lia|split]]].
  - unfold adj. replace (p + (2 ^ k - p mod 2 ^ k)) with (p - p mod 2 ^ k + 1 * 2 ^ k) by lia. rewrite Z_mod_plus_full, Zminus_mod_idemp_r, Z.sub_diag. apply Zmod_0_l.
  - unfold raw_of. rewrite (wrap_small 64 (p + adj - 8)) by (unfold fits, adj; lia). rewrite load_store64 by (unfold fits, adj; lia). rewrite wrap_small; unfold fits; lia.
  - intros x Hx. apply write_bytes_out. rewrite length_bytes_of. lia.
Qed.

End Aligned.

(** An allocator that always answers the same block. *)
Definition fixed_allocator (p : Z) : Allocator bytes_map := {|
  Allocate m _ _ := Ok (m, p); ReAllocate m _ _ _ := Ok (m, 0); Free m _ := Ok (m, 0); QueryAllocationSize _ _ := Ok 0; bytes m := m; with_bytes _ m := m |}.

Lemma AllocateAligned_recovers_witness :
  let table := mkTable [] 65536 0 65536 0 in
  exists r2 q, AllocateAligned (fun _ => Some (fixed_allocator 66536)) (fun _ => table) (fun m => m) (fun _ m => m) (mkRouter (fun _ => 0) ∅) 0 100 64 = Ok (r2, q) /\
    q mod 64 = 0 /\ 66544 <= q /\ q + 100 <= 66536 + 172 /\ raw_of (state r2) q = 66536 /\ (forall x, x < q - 8 \/ q <= x -> state r2 x = 0).
Proof.
  intros table. destruct (AllocateAligned_recovers (fun _ => Some (fixed_allocator 66536)) (fun _ => table) (fun m => m) (fun _ m => m) (fun _ _ => eq_refl) (mkRouter (fun _ => 0) ∅) 0 100 6
    (mkRouter (fun _ => 0) {[0 := 0]}) 66536) as (r2 & q & E & H1 & H2 & H3 & H4 & H5); [lia|lia|reflexivity|lia|reflexivity|lia|].
  exists r2, q. split; [exact E|]. split; [exact H1|]. split; [lia|]. split; [lia|]. split; [exact H4|exact H5].
Defined.
