(* ===== verification/EqInit.v ===== *)
(** * The construction of the page table (allocator/eq_alloc/eq_memory_router.cc)

    The first requests of all threads build the page table and the allocators; one thread wins.
    A step is one access to [page_table_state_] or the construction itself, which makes the table
    and then the three allocators over it; the storage is overwritten by every construction, so
    their number is part of the state. *)

From S2P Require Import Prelude.

Set Default Proof Using "Type".
#[local] Open Scope Z_scope.

Definition kUninitialized : Z := 0.
Definition kInitializing : Z := 1.
Definition kInitialized : Z := 2.

(** Where a call stands: before the fast path, before the claim, the winner before the
    construction and before the publication, a loser in its loop, and behind the return. *)
Inductive stage := Enter | Claim | Construct | Publish | Losing | Returned.

#[export] Instance stage_eq_dec : EqDecision stage.
Proof. solve_decision. Defined.

Record Storage := mkStorage { page_table_state_ : Z; constructions : nat; stages : list stage }.

Definition at_stage (s : Storage) (t : nat) (p : stage) : Storage := mkStorage (page_table_state_ s) (constructions s) (<[t := p]> (stages s)).
Definition with_state (s : Storage) (z : Z) : Storage := mkStorage z (constructions s) (stages s).

(** The construction of the table and [InitializeAllocators]. *)
Definition InitializeAllocators (s : Storage) : Storage := mkStorage (page_table_state_ s) (S (constructions s)) (stages s).

(** One step of a call of [page_table]. *)
Definition page_table_step (s : Storage) (t : nat) : option Storage :=
  p ← stages s !! t;
  match p with
  | Enter => Some (at_stage s t (if page_table_state_ s =? kInitialized then Returned else Claim))
  | Claim => Some (if page_table_state_ s =? kUninitialized then at_stage (with_state s kInitializing) t Construct else at_stage s t Losing)
  | Construct => Some (at_stage (InitializeAllocators s) t Publish)
  | Publish => Some (at_stage (with_state s kInitialized) t Returned)
  | Losing => Some (at_stage s t (if page_table_state_ s =? kInitialized then Returned else Losing))
  | Returned => None
  end.

Fixpoint run_calls (s : Storage) (ts : list nat) : option Storage :=
  match ts with [] => Some s | t :: ts => s ← page_table_step s t; run_calls s ts end.

(** [n] threads make their first request. *)
Definition first_requests (n : nat) : Storage := mkStorage kUninitialized 0 (replicate n Enter).

(** ** Invariant *)

Definition winning (p : stage) : bool := match p with Construct | Publish => true | _ => false end.

Record built (s : Storage) : Prop := {
  b_state : page_table_state_ s = kUninitialized /\ constructions s = 0%nat /\ (forall t p, stages s !! t = Some p -> p = Enter \/ p = Claim) \/
    page_table_state_ s = kInitializing /\ (exists t, (stages s !! t = Some Construct /\ constructions s = 0%nat \/ stages s !! t = Some Publish /\ constructions s = 1%nat) /\
      forall u p, u <> t -> stages s !! u = Some p -> winning p = false /\ p <> Returned) \/
    page_table_state_ s = kInitialized /\ constructions s = 1%nat /\ (forall t p, stages s !! t = Some p -> winning p = false) }.

Lemma stage_lookup (l : list stage) t p u q : <[t := p]> l !! u = Some q -> (u = t /\ q = p) \/ (u <> t /\ l !! u = Some q).
Proof. intros H. apply list_lookup_insert_Some in H as [(-> & -> & _)|[? ?]]; [by left|right; split; [congruence|done]]. Qed.

Lemma page_table_step_built s t s' : built s -> page_table_step s t = Some s' -> built s'.
Proof.
  intros [H]. unfold page_table_step. destruct (stages s !! t) as [p|] eqn:Ht; [|done]. cbn [mbind option_bind]. pose proof (lookup_lt_Some _ _ _ Ht) as Hlt.
  assert (Hins : forall q, <[t := q]> (stages s) !! t = Some q) by (intros q; by apply list_lookup_insert_eq).
  destruct H as [(E & Ec & H)|[(E & (w & Hw & H))|(E & Ec & H)]]; rewrite E; intros Hs.
  - destruct (H t p Ht) as [-> | ->]; injection Hs as <-; split; cbn; [left|right; left].
    + split; [done|]. split; [done|]. intros u q [[-> ->]|[_ Hu]]%stage_lookup; [by right|by apply (H u)].
    + split; [done|]. exists t. split; [left; by rewrite Hins|]. intros u q Hne [[-> ->]|[_ Hu]]%stage_lookup; [done|by destruct (H u q Hu) as [-> | ->]].
  - destruct (decide (t = w)) as [->|Hne].
    + destruct Hw as [[Hw Ec]|[Hw Ec]]; rewrite Hw in Ht; injection Ht as <-; injection Hs as <-; split; cbn; [right; left|right; right].
      * split; [done|]. exists w. split; [right; by rewrite Hins, Ec|]. intros u q Hu [[-> ->]|[_ Hq]]%stage_lookup; [done|by apply (H u)].
      * split; [done|]. split; [done|]. intros u q [[-> ->]|[Hu Hq]]%stage_lookup; [done|by apply (H u)].
    + destruct (H t p Hne Ht) as [Hp Hr]. destruct p; try done; injection Hs as <-; split; cbn; rewrite E; right; left; (split; [done|]; exists w; rewrite list_lookup_insert_ne by done; split; [done|];
        intros u q Hu [[-> ->]|[_ Hq]]%stage_lookup; [done|by apply (H u)]).
  - pose proof (H t p Ht) as Hp. destruct p; try done; injection Hs as <-; split; cbn; rewrite E; right; right; (split; [done|]; split; [done|]; intros u q [[-> ->]|[_ Hu]]%stage_lookup; [done|by apply (H u)]).
Qed.

Lemma run_calls_built ts s s' : built s -> run_calls s ts = Some s' -> built s'.
Proof.
  revert s. induction ts as [|t ts IH]; intros s H Hr; cbn in Hr; [by injection Hr as <-|].
  destruct (page_table_step s t) as [s1|] eqn:E; [|done]. by eapply IH; [eapply page_table_step_built|].
Qed.

Lemma first_requests_built n : built (first_requests n).
Proof. split. left. split; [done|]. split; [done|]. intros t p Ht. apply lookup_replicate_1 in Ht as [-> _]. by left. Qed.

(** What a call still has to do once the state is published, or by itself before that. *)
Definition turns (p : stage) : nat := match p with Enter => 4 | Claim => 3 | Construct => 2 | Publish => 1 | Losing => 1 | Returned => 0 end.

(** However the first requests of [n] threads interleave, the table is built at most once, a call
    that has returned finds it complete, and unless all have returned some call can take a step that
    brings it closer to its return: the losers wait for a winner that never waits. *)
Theorem page_table_once n ts s : run_calls (first_requests n) ts = Some s ->
  (constructions s <= 1)%nat /\
  (forall t, stages s !! t = Some Returned -> constructions s = 1%nat /\ page_table_state_ s = kInitialized) /\
  (forall t p, stages s !! t = Some p -> p <> Returned ->
    exists u q s' q', stages s !! u = Some q /\ page_table_step s u = Some s' /\ stages s' !! u = Some q' /\ (turns q' < turns q)%nat).
Proof.
  intros Hr. destruct (run_calls_built ts _ s (first_requests_built n) Hr) as [H]. split; [|split].
  - destruct H as [(_ & -> & _)|[(_ & (w & [[_ ->]|[_ ->]] & _))|(_ & -> & _)]]; lia.
  - intros t Ht. destruct H as [(_ & _ & H)|[(_ & (w & Hw & H))|(E & Ec & _)]]; [by destruct (H t _ Ht)| |done].
    exfalso. destruct (decide (t = w)) as [->|Hne]; [destruct Hw as [[Hw _]|[Hw _]]; congruence|by destruct (H t _ Hne Ht)].
  - intros t p Ht Hp. assert (Hgo : exists u q, stages s !! u = Some q /\ q <> Returned /\ (q = Losing -> page_table_state_ s = kInitialized)).
    { destruct H as [(E & _ & H)|[(E & (w & Hw & H))|(E & _ & H)]].
      - exists t, p. split; [done|]. split; [done|]. intros ->. by destruct (H t _ Ht).
      - destruct Hw as [[Hw _]|[Hw _]]; exists w; eexists; (split; [exact Hw|done]).
      - by exists t, p. }
    destruct Hgo as (u & q & Hu & Hq & Hl). exists u, q. unfold page_table_step. rewrite Hu. cbn [mbind option_bind].
    assert (Hins : forall q', <[u := q']> (stages s) !! u = Some q') by (intros q'; apply list_lookup_insert_eq; by eapply lookup_lt_Some).
    destruct q; try done; [destruct (_ =? _)|destruct (_ =? _)| | |rewrite (Hl eq_refl)]; eexists _, _; (split; [done|]); (split; [done|]); (split; [apply Hins|cbn; lia]).
Qed.

Lemma page_table_once_witness : exists s, run_calls (first_requests 3) [0; 1; 1; 0; 2; 0; 1]%nat = Some s /\ constructions s = 1%nat /\
  exists u q s' q', stages s !! u = Some q /\ page_table_step s u = Some s' /\ stages s' !! u = Some q' /\ (turns q' < turns q)%nat.
Proof.
  eexists. split; [vm_compute; reflexivity|]. split; [reflexivity|]. match goal with |- context [stages ?s] => refine (proj2 (proj2 (page_table_once 3 [0; 1; 1; 0; 2; 0; 1]%nat s _)) 0%nat Losing _ _) end; [reflexivity|reflexivity|done].
Defined.
