(* ===== verification/Algorithm.v ===== *)
(** * The generic algorithms (algorithm.h)

    A range of an array is two indices into the array's list of values; reading or writing
    outside the array is undefined.  Moving from an element leaves [moved] of its value
    there.  Each loop is a recursion over the number of turns the range leaves it, except
    the introsort, whose depth limit bounds it. *)

From S2P Require Import Prelude Memory.
From Stdlib Require Import Sorting.Sorted.

Set Default Proof Using "Type".
#[local] Open Scope nat_scope.

Section Algorithm.

Context {T : Type} (moved : T -> T).

(** ** Elements *)

Definition read (a : list T) (i : nat) : res T := match a !! i with Some v => Ok v | None => Undef end.
Definition write (a : list T) (i : nat) (v : T) : res (list T) := if i <? length a then Ok (<[i := v]> a) else Undef.

(** [v = move(a[i])] *)
Definition move_from (a : list T) (i : nat) : res (list T * T) := v ← read a i; a ← write a i (moved v); Ok (a, v).

(** [a[i] = move(a[j])] *)
Definition move_to (a : list T) (i j : nat) : res (list T) := '(a, v) ← move_from a j; write a i v.

Definition Swap (a : list T) (i j : nat) : res (list T) :=
  '(a, tmp) ← move_from a i; a ← move_to a i j; write a j tmp.

(** ** Filling and copying *)

Fixpoint fill_range_loop (n : nat) (a : list T) (first : nat) (value : T) : res (list T) :=
  match n with O => Ok a | S n => a ← write a first value; fill_range_loop n a (S first) value end.

Definition Fill (a : list T) (first last : nat) (value : T) : res (list T) := fill_range_loop (last - first) a first value.

(** Source and destination are ranges of one array; the result is the end of the destination. *)
Fixpoint CopyN (a : list T) (first count dest : nat) : res (list T * nat) :=
  match count with O => Ok (a, dest) | S count => v ← read a first; a ← write a dest v; CopyN a (S first) count (S dest) end.

Definition Copy (a : list T) (first last dest : nat) : res (list T * nat) := CopyN a first (last - first) dest.

Definition Prev (it : nat) : nat := it - 1.
Definition Next (it : nat) : nat := S it.

(** ** Searching and counting *)

Fixpoint find_if_loop (n : nat) (a : list T) (first : nat) (pred : T -> bool) : res nat :=
  match n with O => Ok first | S n => v ← read a first; if pred v then Ok first else find_if_loop n a (S first) pred end.

Definition FindIf (a : list T) (first last : nat) (pred : T -> bool) : res nat := find_if_loop (last - first) a first pred.

Fixpoint any_loop (n : nat) (a : list T) (first : nat) (pred : T -> bool) : res bool :=
  match n with O => Ok false | S n => v ← read a first; if pred v then Ok true else any_loop n a (S first) pred end.

Definition AnyOf (a : list T) (first last : nat) (pred : T -> bool) : res bool := any_loop (last - first) a first pred.
Definition NoneOf (a : list T) (first last : nat) (pred : T -> bool) : res bool := b ← AnyOf a first last pred; Ok (negb b).

Fixpoint all_loop (n : nat) (a : list T) (first : nat) (pred : T -> bool) : res bool :=
  match n with O => Ok true | S n => v ← read a first; if negb (pred v) then Ok false else all_loop n a (S first) pred end.

Definition AllOf (a : list T) (first last : nat) (pred : T -> bool) : res bool := all_loop (last - first) a first pred.

Fixpoint count_if_loop (k : nat) (a : list T) (first : nat) (pred : T -> bool) (n : Z) : res Z :=
  match k with O => Ok n | S k => v ← read a first; count_if_loop k a (S first) pred (if pred v then u64 (n + 1) else n) end.

Definition CountIf (a : list T) (first last : nat) (pred : T -> bool) : res Z := count_if_loop (last - first) a first pred 0.

(** ** Compacting *)

Fixpoint remove_if_loop (n : nat) (a : list T) (first result : nat) (pred : T -> bool) : res (list T * nat) :=
  match n with
  | O => Ok (a, result)
  | S n =>
    v ← read a first;
    if pred v then remove_if_loop n a (S first) result pred
    else a ← (if result =? first then Ok a else move_to a result first); remove_if_loop n a (S first) (S result) pred
  end.

Definition RemoveIf (a : list T) (first last : nat) (pred : T -> bool) : res (list T * nat) := remove_if_loop (last - first) a first first pred.

(** [EraseIf] of a contiguous container: [erase(kept, last)] drops the tail. *)
Definition EraseIf (a : list T) (pred : T -> bool) : res (list T * Z) :=
  '(a, kept) ← RemoveIf a 0 (length a) pred;
  let removed := length a - kept in
  Ok (if 0 <? removed then take kept a else a, Z.of_nat removed).

(** ** Folding *)

Fixpoint iota_loop (n : nat) (a : list T) (first : nat) (value : T) (next : T -> T) : res (list T) :=
  match n with O => Ok a | S n => a ← write a first value; iota_loop n a (S first) (next value) next end.

Definition Iota (a : list T) (first last : nat) (value : T) (next : T -> T) : res (list T) := iota_loop (last - first) a first value next.

Fixpoint sum_loop {B} (n : nat) (a : list T) (first : nat) (init : B) (add : B -> T -> B) : res B :=
  match n with O => Ok init | S n => v ← read a first; sum_loop n a (S first) (add init v) add end.

Definition Accumulate {B} (a : list T) (first last : nat) (init : B) (add : B -> T -> B) : res B := sum_loop (last - first) a first init add.

(** ** Reversing *)

Fixpoint reverse_loop (fuel : nat) (a : list T) (first last : nat) : res (list T) :=
  match fuel with
  | O => Undef
  | S fuel => if first <? last then a ← Swap a first (last - 1); reverse_loop fuel a (S first) (last - 1) else Ok a
  end.

Definition Reverse (a : list T) (first last : nat) : res (list T) := reverse_loop (S (last - first)) a first last.

(** ** Sorting, with [comp] for [operator<] or the comparator *)

Context (comp : T -> T -> bool).

(** The hole is at [k], which is [j + 1] of the code. *)
Fixpoint insert_loop (a : list T) (key : T) (first k : nat) : res (list T * nat) :=
  match k with
  | O => Ok (a, k)
  | S j =>
    if first <=? j then
      v ← read a j;
      if comp key v then a ← move_to a (S j) j; insert_loop a key first j else Ok (a, k)
    else Ok (a, k)
  end.

Fixpoint insertion_loop (n : nat) (a : list T) (first i : nat) : res (list T) :=
  match n with
  | O => Ok a
  | S n =>
    '(a, key) ← move_from a i;
    '(a, k) ← insert_loop a key first i;
    a ← write a k key;
    insertion_loop n a first (S i)
  end.

Definition InsertionSort (a : list T) (first last : nat) : res (list T) := insertion_loop (last - S first) a first (S first).

Fixpoint partition_loop (n : nat) (a : list T) (pivot i j : nat) : res (list T * nat) :=
  match n with
  | O => Ok (a, i)
  | S n =>
    x ← read a j;
    p ← read a pivot;
    if comp x p then a ← Swap a i j; partition_loop n a pivot (S i) (S j) else partition_loop n a pivot i (S j)
  end.

Definition Partition (a : list T) (first last : nat) : res (list T * nat) :=
  let pivot := last - 1 in
  '(a, i) ← partition_loop (pivot - first) a pivot first first;
  a ← Swap a i pivot;
  Ok (a, i).

Fixpoint IntroSortImpl (depth : nat) (a : list T) (first last : nat) : res (list T) :=
  if 16 <? last - first then
    match depth with
    | O => InsertionSort a first last
    | S depth =>
      '(a, pivot) ← Partition a first last;
      if pivot - first <? last - pivot then
        a ← IntroSortImpl depth a first pivot; IntroSortImpl depth a (S pivot) last
      else
        a ← IntroSortImpl depth a (S pivot) last; IntroSortImpl depth a first pivot
    end
  else InsertionSort a first last.

Fixpoint log2_loop (fuel : nat) (n : Z) (k : nat) : option nat :=
  match fuel with O => None | S fuel => if (1 <? n)%Z then log2_loop fuel (Z.shiftr n 1) (S k) else Some k end.

Definition Log2 (n : Z) : option nat := log2_loop 65 n 0.

Definition Sort (a : list T) (first last : nat) : res (list T) :=
  if last - first <=? 1 then Ok a else
  match Log2 (Z.of_nat (last - first)) with
  | None => Undef
  | Some k => IntroSortImpl (2 * k) a first last
  end.

(** ** Unique *)

Context (eqb : T -> T -> bool).

Fixpoint unique_loop (n : nat) (a : list T) (result first : nat) : res (list T * nat) :=
  match n with
  | O => Ok (a, result)
  | S n =>
    r ← read a result;
    v ← read a first;
    if negb (eqb r v) then
      a ← (if S result =? first then Ok a else move_to a (S result) first);
      unique_loop n a (S result) (S first)
    else unique_loop n a result (S first)
  end.

Definition Unique (a : list T) (first last : nat) : res (list T * nat) :=
  if first =? last then Ok (a, last) else '(a, result) ← unique_loop (last - S first) a first (S first); Ok (a, S result).

(** ** Binary search *)

(** [before v] says that the answer lies behind [v]. *)
Fixpoint bound_loop (fuel : nat) (a : list T) (before : T -> bool) (first last : nat) : res nat :=
  match fuel with
  | O => Undef
  | S fuel =>
    if first <? last then
      let mid := first + (last - first) / 2 in
      v ← read a mid;
      if before v then bound_loop fuel a before (S mid) last else bound_loop fuel a before first mid
    else Ok first
  end.

Definition LowerBound {V} (a : list T) (first last : nat) (value : V) (less : T -> V -> bool) : res nat :=
  bound_loop (S (last - first)) a (fun v => less v value) first last.

Definition UpperBound {V} (a : list T) (first last : nat) (value : V) (less : V -> T -> bool) : res nat :=
  bound_loop (S (last - first)) a (fun v => negb (less value v)) first last.

End Algorithm.

(** [Find] and [Count] compare with a value; [Clamp] is on an ordered type. *)
Definition Find {T} (eqb : T -> T -> bool) (a : list T) (first last : nat) (value : T) : res nat := FindIf a first last (fun v => eqb v value).
Definition Count {T} (eqb : T -> T -> bool) (a : list T) (first last : nat) (value : T) : res Z := CountIf a first last (fun v => eqb v value).
Definition Max {T} (less : T -> T -> bool) (x y : T) : T := if less y x then x else y.
Definition Min {T} (less : T -> T -> bool) (x y : T) : T := if less x y then x else y.
Definition Clamp {T} (less : T -> T -> bool) (value lo hi : T) : T := Max less lo (Min less value hi).

(** Over the elements of an array; the first has to be there. *)
Definition min_values {T} (less : T -> T -> bool) (values : list T) : res T :=
  match values with [] => Undef | v :: vs => Ok (fold_left (fun m v => if less v m then v else m) vs v) end.

Definition max_values {T} (less : T -> T -> bool) (values : list T) : res T :=
  match values with [] => Undef | v :: vs => Ok (fold_left (fun m v => if less m v then v else m) vs v) end.
