(* ===== verification/AlgorithmSort.v ===== *)
(** * The algorithms: what they compute

    A range is handled as the middle of a list, [l ++ s ++ r]: every lemma says what becomes
    of [s] and that [l] and [r] stay.  Sorting permutes the range for any comparator and
    sorts it for a strict weak order. *)

From Stdlib Require Import Sorting.Sorted Permutation.
From S2P Require Import Prelude Memory Algorithm.
From stdpp Require Import list sets.
Set Warnings "-clear-no-such-hyp".

Set Default Proof Using "Type".
#[local] Open Scope nat_scope.

Section Ranges.

Context {T : Type} (moved : T -> T).

(** ** One element *)

Lemma read_mid (l r : list T) x i : i = length l -> read (l ++ x :: r) i = Ok x.
Proof. intros ->. unfold read. by rewrite list_lookup_middle. Qed.

Lemma write_mid (l r : list T) x v i : i = length l -> write (l ++ x :: r) i v = Ok (l ++ v :: r).
Proof.
  intros ->. unfold write. rewrite (proj2 (Nat.ltb_lt _ _)) by (rewrite length_app; cbn; lia). f_equal.
  rewrite insert_app_r_alt, Nat.sub_diag by done. done.
Qed.

Lemma move_from_mid (l r : list T) x i : i = length l -> move_from moved (l ++ x :: r) i = Ok (l ++ moved x :: r, x).
Proof. intros E. unfold move_from. rewrite read_mid by done. cbn. by rewrite write_mid. Qed.

Lemma app_mid (l m r : list T) x : l ++ m ++ x :: r = (l ++ m) ++ x :: r.
Proof. by rewrite app_assoc. Qed.

(** A move to an earlier place, and to a later one. *)
Lemma move_to_left (l m r : list T) x y i j : i = length l -> j = length l + S (length m) ->
  move_to moved (l ++ x :: m ++ y :: r) i j = Ok (l ++ y :: m ++ moved y :: r).
Proof.
  intros Ei Ej. unfold move_to. change (l ++ x :: m ++ y :: r) with (l ++ (x :: m) ++ y :: r). rewrite app_mid, move_from_mid by (rewrite length_app; cbn; lia). cbn.
  rewrite <- app_assoc. cbn. by rewrite write_mid.
Qed.

Lemma move_to_right (l m r : list T) x y i j : i = length l -> j = length l + S (length m) ->
  move_to moved (l ++ x :: m ++ y :: r) j i = Ok (l ++ moved x :: m ++ x :: r).
Proof.
  intros Ei Ej. unfold move_to. rewrite move_from_mid by done. cbn. change (l ++ moved x :: m ++ y :: r) with (l ++ (moved x :: m) ++ y :: r).
  rewrite app_mid, write_mid by (rewrite length_app; cbn; lia). by rewrite <- app_assoc.
Qed.

Lemma Swap_mid (l m r : list T) x y i j : i = length l -> j = length l + S (length m) ->
  Swap moved (l ++ x :: m ++ y :: r) i j = Ok (l ++ y :: m ++ x :: r).
Proof.
  intros Ei Ej. unfold Swap. rewrite move_from_mid by done. cbn. rewrite move_to_left by done. cbn.
  change (l ++ y :: m ++ moved y :: r) with (l ++ (y :: m) ++ moved y :: r). rewrite app_mid, write_mid by (rewrite length_app; cbn; lia). by rewrite <- app_assoc.
Qed.

(** Swapping an element with itself leaves it what it was. *)
Lemma Swap_self (l r : list T) x i : i = length l -> Swap moved (l ++ x :: r) i i = Ok (l ++ x :: r).
Proof.
  intros E. unfold Swap, move_to. rewrite move_from_mid by done. cbn. rewrite move_from_mid by done. cbn. rewrite write_mid by done. cbn. by rewrite write_mid.
Qed.

(** ** Searching *)

(** How many elements lead the list before the first that satisfies [pred]. *)
Fixpoint prefix_length (pred : T -> bool) (s : list T) : nat := match s with [] => 0 | v :: s => if pred v then 0 else S (prefix_length pred s) end.

Lemma FindIf_mid pred (l s r : list T) : FindIf (l ++ s ++ r) (length l) (length l + length s) pred = Ok (length l + prefix_length pred s).
Proof.
  unfold FindIf. replace (length l + length s - length l) with (length s) by lia. revert l. induction s as [|v s IH]; intros l; cbn [find_if_loop length prefix_length app]; [f_equal; lia|].
  rewrite read_mid by done. cbn [mbind res_bind]. destruct (pred v); [f_equal; lia|].
  specialize (IH (l ++ [v])). rewrite <- app_assoc, length_app in IH. cbn [app length] in IH. replace (S (length l)) with (length l + 1) by lia. rewrite IH. f_equal. lia.
Qed.

Lemma AnyOf_mid pred (l s r : list T) : AnyOf (l ++ s ++ r) (length l) (length l + length s) pred = Ok (existsb pred s).
Proof.
  unfold AnyOf. replace (length l + length s - length l) with (length s) by lia. revert l. induction s as [|v s IH]; intros l; cbn [any_loop length existsb app]; [done|].
  rewrite read_mid by done. cbn [mbind res_bind]. destruct (pred v); [done|]. specialize (IH (l ++ [v])). rewrite <- app_assoc, length_app in IH. cbn [app length] in IH. by rewrite <- Nat.add_1_r.
Qed.

Lemma AllOf_mid pred (l s r : list T) : AllOf (l ++ s ++ r) (length l) (length l + length s) pred = Ok (forallb pred s).
Proof.
  unfold AllOf. replace (length l + length s - length l) with (length s) by lia. revert l. induction s as [|v s IH]; intros l; cbn [all_loop length forallb app]; [done|].
  rewrite read_mid by done. cbn [mbind res_bind]. destruct (pred v); cbn [negb andb]; [|done]. specialize (IH (l ++ [v])). rewrite <- app_assoc, length_app in IH. cbn [app length] in IH. by rewrite <- Nat.add_1_r.
Qed.

Lemma CountIf_mid pred (l s r : list T) : (Z.of_nat (length s) < 2 ^ 64)%Z ->
  CountIf (l ++ s ++ r) (length l) (length l + length s) pred = Ok (Z.of_nat (length (List.filter pred s))).
Proof.
  unfold CountIf. replace (length l + length s - length l) with (length s) by lia. intros Hs.
  assert (Hg : forall n, (0 <= n)%Z -> (n + Z.of_nat (length s) < 2 ^ 64)%Z -> count_if_loop (length s) (l ++ s ++ r) (length l) pred n = Ok (n + Z.of_nat (length (List.filter pred s)))%Z); [|by apply (Hg 0%Z)].
  clear Hs. revert l. induction s as [|v s IH]; intros l n Hn Hb; cbn [count_if_loop length List.filter app]; [f_equal; cbn; lia|]. rewrite read_mid by done. cbn [mbind res_bind length] in *.
  specialize (IH (l ++ [v])). rewrite <- app_assoc, length_app in IH. cbn [app length] in IH. rewrite <- Nat.add_1_r. destruct (pred v).
  - rewrite wrap_small by (unfold fits; lia). rewrite IH by lia. f_equal. cbn [length]. lia.
  - rewrite IH by lia. f_equal.
Qed.

(** ** Filling, copying, reversing *)

Lemma Fill_mid (l s r : list T) v : Fill (l ++ s ++ r) (length l) (length l + length s) v = Ok (l ++ replicate (length s) v ++ r).
Proof.
  unfold Fill. replace (length l + length s - length l) with (length s) by lia. revert l. induction s as [|x s IH]; intros l; cbn [fill_range_loop length replicate app]; [done|].
  rewrite write_mid by done. cbn [mbind res_bind]. specialize (IH (l ++ [v])). rewrite <- app_assoc, length_app in IH. cbn [app length] in IH. rewrite <- Nat.add_1_r, IH. by rewrite <- app_assoc.
Qed.

Lemma Reverse_mid (l s r : list T) : Reverse moved (l ++ s ++ r) (length l) (length l + length s) = Ok (l ++ rev s ++ r).
Proof.
  unfold Reverse. replace (length l + length s - length l) with (length s) by lia.
  assert (Hg : forall fuel n l s r, length s <= n -> n < fuel -> reverse_loop moved fuel (l ++ s ++ r) (length l) (length l + length s) = Ok (l ++ rev s ++ r)); [|by apply (Hg _ (length s)); lia].
  clear l s r. induction fuel as [|fuel IH]; intros n l s r Hn Hf; [lia|]. cbn [reverse_loop]. destruct s as [|x s]; [rewrite Nat.add_0_r, Nat.ltb_irrefl; done|].
  rewrite (proj2 (Nat.ltb_lt _ _)) by (cbn; lia). destruct s as [|y m _] using rev_ind.
  - cbn [length app rev]. replace (length l + 1 - 1) with (length l) by lia. rewrite Swap_self by done. cbn [mbind res_bind]. destruct fuel as [|fuel]; [cbn in Hn; lia|]. cbn [reverse_loop]. by rewrite (proj2 (Nat.ltb_ge _ _)) by lia.
  - cbn [length app]. rewrite length_app. cbn [length]. rewrite <- app_assoc. cbn [app]. rewrite Swap_mid by lia. cbn [mbind res_bind].
    specialize (IH (n - 2) (l ++ [y]) m (x :: r)). rewrite <- app_assoc, length_app in IH. cbn [app length] in IH. cbn in Hn. rewrite length_app in Hn. cbn in Hn.
    replace (S (length l)) with (length l + 1) by lia. replace (length l + S (length m + 1) - 1) with (length l + 1 + length m) by lia. rewrite IH by lia.
    cbn [rev]. rewrite rev_app_distr. cbn [rev app]. rewrite <- !app_assoc. cbn [app]. done.
Qed.

(** A forward copy reads only what it has not written yet, unless the destination starts inside the source. *)
Lemma CopyN_ok (a : list T) first count dest : first + count <= length a -> dest + count <= length a -> dest <= first \/ first + count <= dest ->
  exists b, CopyN a first count dest = Ok (b, dest + count) /\ length b = length a /\
    forall i, b !! i = if decide (dest <= i < dest + count) then a !! (first + (i - dest)) else a !! i.
Proof.
  revert a first dest. induction count as [|count IH]; intros a first dest Hf Hd Ho; cbn [CopyN].
  - exists a. rewrite Nat.add_0_r. split; [done|]. split; [done|]. intros i. by rewrite decide_False by lia.
  - unfold read. destruct (lookup_lt_is_Some_2 a first) as [v Ev]; [lia|]. rewrite Ev. cbn [mbind res_bind]. unfold write. rewrite (proj2 (Nat.ltb_lt _ _)) by lia. cbn [mbind res_bind].
    destruct (IH (<[dest := v]> a) (S first) (S dest)) as (b & E & El & Hb); [rewrite length_insert; lia|rewrite length_insert; lia|lia|]. exists b. rewrite E. split; [do 2 f_equal; lia|]. rewrite length_insert in El. split; [done|].
    intros i. rewrite Hb. destruct (decide (i = dest)) as [->|Hne].
    + rewrite decide_False, decide_True by lia. rewrite list_lookup_insert_eq by lia. by rewrite Nat.sub_diag, Nat.add_0_r.
    + destruct (decide (S dest <= i < S dest + count)).
      * rewrite decide_True by lia. rewrite list_lookup_insert_ne by lia. f_equal. lia.
      * rewrite decide_False by lia. by rewrite list_lookup_insert_ne.
Qed.

(** ** Compacting *)

(** [kept] has been compacted, [gap] lies between it and what is still to be looked at. *)
Lemma remove_if_loop_ok pred (l kept gap s r : list T) :
  exists gap', remove_if_loop moved (length s) (l ++ kept ++ gap ++ s ++ r) (length l + length kept + length gap) (length l + length kept) pred =
    Ok (l ++ kept ++ List.filter (fun v => negb (pred v)) s ++ gap' ++ r, length l + length kept + length (List.filter (fun v => negb (pred v)) s)) /\
    length gap' + length (List.filter (fun v => negb (pred v)) s) = length gap + length s.
Proof.
  revert kept gap. induction s as [|v s IH]; intros kept gap; cbn [remove_if_loop length List.filter]; [exists gap; split; [do 2 f_equal; lia|lia]|].
  assert (Er : read (l ++ kept ++ gap ++ (v :: s) ++ r) (length l + length kept + length gap) = Ok v).
  { replace (l ++ kept ++ gap ++ (v :: s) ++ r) with ((l ++ kept ++ gap) ++ v :: s ++ r) by (by rewrite <- !app_assoc). apply read_mid. rewrite !length_app. lia. }
  rewrite Er. cbn [mbind res_bind]. destruct (pred v); cbn [negb].
  - destruct (IH kept (gap ++ [v])) as (gap' & E & El). exists gap'. rewrite <- app_assoc, length_app in E. cbn [app length] in E. replace (S (length l + length kept + length gap)) with (length l + length kept + (length gap + 1)) by lia.
    cbn [app]. rewrite E. split; [done|]. rewrite length_app in El. cbn [length] in El. lia.
  - destruct (IH (kept ++ [v]) (if gap is g :: gap' then gap' ++ [moved v] else [])) as (gap2 & E & El). exists gap2. rewrite !length_app in E. cbn [length] in E.
    destruct gap as [|g gap].
    + rewrite (proj2 (Nat.eqb_eq _ _)) by (cbn; lia). cbn [mbind res_bind app length]. replace (S (length l + length kept + 0)) with (length l + (length kept + 1) + 0) by lia. replace (S (length l + length kept)) with (length l + (length kept + 1)) by lia.
      rewrite <- !app_assoc in E. cbn [app length] in E. rewrite E. split; [do 2 f_equal; cbn [length]; lia|cbn [length] in *; lia].
    + rewrite (proj2 (Nat.eqb_neq _ _)) by (cbn; lia).
      assert (Em : move_to moved (l ++ kept ++ (g :: gap) ++ (v :: s) ++ r) (length l + length kept) (length l + length kept + length (g :: gap)) = Ok (l ++ kept ++ v :: gap ++ moved v :: s ++ r)).
      { rewrite (app_assoc l kept). cbn [app]. rewrite (move_to_left (l ++ kept) gap (s ++ r)) by (rewrite length_app; cbn; lia). by rewrite <- app_assoc. }
      rewrite Em. cbn [mbind res_bind]. rewrite length_app in E. cbn [length] in E |- *. rewrite <- !app_assoc in E. cbn [app] in E.
      replace (S (length l + length kept + S (length gap))) with (length l + (length kept + 1) + (length gap + 1)) by lia. replace (S (length l + length kept)) with (length l + (length kept + 1)) by lia. rewrite E.
      split; [do 2 f_equal; lia|]. rewrite length_app in El. cbn [length] in El. lia.
Qed.

(** [RemoveIf] keeps what does not satisfy the predicate, in order. *)
Lemma RemoveIf_mid pred (l s r : list T) : exists rest,
  RemoveIf moved (l ++ s ++ r) (length l) (length l + length s) pred =
    Ok (l ++ List.filter (fun v => negb (pred v)) s ++ rest ++ r, length l + length (List.filter (fun v => negb (pred v)) s)) /\
  length rest + length (List.filter (fun v => negb (pred v)) s) = length s.
Proof.
  unfold RemoveIf. replace (length l + length s - length l) with (length s) by lia. destruct (remove_if_loop_ok pred l [] [] s r) as (rest & E & El). exists rest. cbn [app length] in *. rewrite !Nat.add_0_r in E. by rewrite E.
Qed.

Lemma EraseIf_ok pred (s : list T) : EraseIf moved s pred = Ok (List.filter (fun v => negb (pred v)) s, Z.of_nat (length (List.filter pred s))).
Proof.
  unfold EraseIf. destruct (RemoveIf_mid pred [] s []) as (rest & E & El). cbn [app length Nat.add] in E. rewrite !app_nil_r in E. rewrite E. cbn [mbind res_bind].
  assert (Ec : length (List.filter pred s) + length (List.filter (fun v => negb (pred v)) s) = length s) by (clear; induction s as [|v s IH]; cbn; [done|]; destruct (pred v); cbn; lia).
  rewrite length_app. set (k := List.filter (fun v => negb (pred v)) s) in *. replace (length k + length rest - length k) with (length rest) by lia. do 2 f_equal; [|lia].
  destruct rest as [|x rest]; [cbn; by rewrite app_nil_r|]. cbn [length Nat.ltb Nat.leb]. by rewrite take_app_length.
Qed.

(** What [Unique] keeps behind [r]. *)
Fixpoint uniq (eqb : T -> T -> bool) (r : T) (s : list T) : list T :=
  match s with [] => [] | v :: s => if eqb r v then uniq eqb r s else v :: uniq eqb v s end.

Lemma unique_loop_ok eqb (l kept gap s r : list T) x :
  exists gap', unique_loop moved eqb (length s) (l ++ kept ++ x :: gap ++ s ++ r) (length l + length kept) (length l + length kept + S (length gap)) =
    Ok (l ++ kept ++ x :: uniq eqb x s ++ gap' ++ r, length l + length kept + length (uniq eqb x s)) /\
    length gap' + length (uniq eqb x s) = length gap + length s.
Proof.
  revert kept gap x. induction s as [|v s IH]; intros kept gap x; cbn [unique_loop length uniq]; [exists gap; split; [cbn [app length]; do 2 f_equal; lia|cbn; lia]|].
  assert (Ex : read (l ++ kept ++ x :: gap ++ (v :: s) ++ r) (length l + length kept) = Ok x) by (rewrite (app_assoc l kept); apply read_mid; rewrite length_app; lia).
  assert (Ev : read (l ++ kept ++ x :: gap ++ (v :: s) ++ r) (length l + length kept + S (length gap)) = Ok v).
  { replace (l ++ kept ++ x :: gap ++ (v :: s) ++ r) with ((l ++ kept ++ x :: gap) ++ v :: s ++ r) by (by rewrite <- !app_assoc). apply read_mid. rewrite !length_app. cbn. lia. }
  rewrite Ex, Ev. cbn [mbind res_bind]. destruct (eqb x v); cbn [negb].
  - destruct (IH kept (gap ++ [v]) x) as (gap' & E & El). exists gap'. rewrite <- app_assoc, length_app in E. cbn [app length] in E. replace (S (length l + length kept + S (length gap))) with (length l + length kept + S (length gap + 1)) by lia.
    cbn [app]. rewrite E. split; [done|]. rewrite length_app in El. cbn [length] in El. lia.
  - destruct (IH (kept ++ [x]) (if gap is g :: gap' then gap' ++ [moved v] else []) v) as (gap2 & E & El). exists gap2. rewrite !length_app in E. cbn [length] in E. rewrite <- !app_assoc in E. cbn [app] in E.
    replace (length l + (length kept + 1)) with (S (length l + length kept)) in E by lia. destruct gap as [|g gap].
    + rewrite (proj2 (Nat.eqb_eq _ _)) by (cbn; lia). cbn [mbind res_bind app length] in *. replace (S (length l + length kept + 1)) with (S (length l + length kept) + 1) by lia.
      rewrite E. split; [do 2 f_equal; lia|lia].
    + rewrite (proj2 (Nat.eqb_neq _ _)) by (cbn; lia).
      assert (Em : move_to moved (l ++ kept ++ x :: (g :: gap) ++ (v :: s) ++ r) (S (length l + length kept)) (length l + length kept + S (length (g :: gap))) = Ok (l ++ kept ++ x :: v :: gap ++ moved v :: s ++ r)).
      { replace (l ++ kept ++ x :: (g :: gap) ++ (v :: s) ++ r) with ((l ++ kept ++ [x]) ++ g :: gap ++ v :: s ++ r) by (by rewrite <- !app_assoc). rewrite move_to_left by (rewrite !length_app; cbn; lia). by rewrite <- !app_assoc. }
      rewrite Em. cbn [mbind res_bind]. rewrite length_app in E. cbn [length] in E |- *. rewrite <- !app_assoc in E. cbn [app] in E.
      replace (S (length l + length kept + S (S (length gap)))) with (S (length l + length kept) + S (length gap + 1)) by lia. rewrite E.
      split; [do 2 f_equal; lia|]. rewrite length_app in El. cbn [length] in El. lia.
Qed.

Lemma Unique_mid eqb (l s r : list T) x : exists rest,
  Unique moved eqb (l ++ (x :: s) ++ r) (length l) (length l + length (x :: s)) = Ok (l ++ (x :: uniq eqb x s) ++ rest ++ r, length l + S (length (uniq eqb x s))) /\
  length rest + length (uniq eqb x s) = length s.
Proof.
  unfold Unique. rewrite (proj2 (Nat.eqb_neq _ _)) by (cbn; lia). cbn [length]. replace (length l + S (length s) - S (length l)) with (length s) by lia.
  destruct (unique_loop_ok eqb l [] [] s r x) as (rest & E & El). exists rest. cbn [app length] in *. rewrite !Nat.add_0_r in E. rewrite <- Nat.add_1_r. rewrite E. cbn [mbind res_bind]. split; [do 2 f_equal; lia|done].
Qed.

(** ** Binary search *)

Lemma bound_loop_ok (a : list T) before first last fuel : first <= last <= length a -> last - first < fuel ->
  (forall i j x y, first <= i < j -> j < last -> a !! i = Some x -> a !! j = Some y -> before y = true -> before x = true) ->
  exists p, bound_loop fuel a before first last = Ok p /\ first <= p <= last /\
    (forall i x, first <= i < p -> a !! i = Some x -> before x = true) /\ (forall i x, p <= i < last -> a !! i = Some x -> before x = false).
Proof.
  revert first last. induction fuel as [|fuel IH]; intros first last Hl Hf Hp; [lia|]. cbn [bound_loop]. destruct (Nat.ltb_spec first last) as [Hlt|Hge].
  2:{ exists first. split; [done|]. split; [lia|]. split; lia. }
  set (mid := first + (last - first) / 2). pose proof (Nat.div_lt (last - first) 2 ltac:(lia) ltac:(lia)) as Hdiv. unfold read. destruct (lookup_lt_is_Some_2 a mid) as [v Ev]; [lia|]. rewrite Ev. cbn [mbind res_bind].
  destruct (before v) eqn:Eb.
  - destruct (IH (S mid) last) as (p & E & Hpr & H1 & H2); [lia|lia|intros i j x y Hij; apply Hp; lia|]. exists p. split; [done|]. split; [lia|]. split; [|done].
    intros i x Hi Ex. destruct (decide (i = mid)) as [->|]; [congruence|]. destruct (decide (i < mid)) as [Him|]; [|apply (H1 i); [lia|done]]. apply (Hp i mid x v); (done || lia).
  - destruct (IH first mid) as (p & E & Hpr & H1 & H2); [lia|lia|intros i j x y Hij Hj; apply Hp; lia|]. exists p. split; [done|]. split; [lia|]. split; [done|].
    intros i x Hi Ex. destruct (decide (i < mid)) as [Him|]; [apply (H2 i); [lia|done]|]. destruct (decide (i = mid)) as [->|]; [congruence|]. destruct (before x) eqn:Ex2; [|done]. rewrite <- Eb. symmetry. apply (Hp mid i v x); (done || lia).
Qed.

End Ranges.

(** ** Sorting *)

(** The order a comparator is meant to be: [x] may come before [y] when [y] is not less. *)
Definition may_precede {T} (comp : T -> T -> bool) (x y : T) : Prop := comp y x = false.

(** A strict weak order. *)
Class StrictWeak {T} (comp : T -> T -> bool) : Prop := {
  sw_asym x y : comp x y = true -> comp y x = false;
  sw_trans x y z : may_precede comp x y -> may_precede comp y z -> may_precede comp x z;
}.

Section Sorting.

Context {T : Type} (moved : T -> T) (comp : T -> T -> bool).

Abbreviation le := (may_precede comp).

Lemma sorted_app (s1 s2 : list T) : StronglySorted le s1 -> StronglySorted le s2 -> (forall x y, x ∈ s1 -> y ∈ s2 -> le x y) -> StronglySorted le (s1 ++ s2).
Proof using Type.
  intros H1 H2 Hx. induction H1 as [|x s1 H1 IH Hf]; [done|]. cbn. constructor; [apply IH; intros; apply Hx; [by right|done]|].
  apply Forall_app. split; [done|]. apply Forall_forall. intros y Hy. apply Hx; [by left|done].
Qed.

Lemma sorted_split (s1 s2 : list T) : StronglySorted le (s1 ++ s2) -> StronglySorted le s1 /\ StronglySorted le s2 /\ forall x y, x ∈ s1 -> y ∈ s2 -> le x y.
Proof using Type.
  induction s1 as [|x s1 IH]; cbn; [intros H; split; [constructor|]; split; [done|set_solver]|]. intros H. apply StronglySorted_inv in H as [H Hf]. destruct (IH H) as (H1 & H2 & Hx). apply Forall_app in Hf as [Hf1 Hf2].
  split; [by constructor|]. split; [done|]. intros y z Hy Hz. apply elem_of_cons in Hy as [->|Hy]; [|by apply Hx]. rewrite Forall_forall in Hf2. by apply Hf2.
Qed.

(** The inner loop of the insertion sort moves what is greater than the key one place up. *)
Lemma insert_loop_ok key (l s r : list T) h : exists s1 s2 h',
  insert_loop moved comp (l ++ s ++ h :: r) key (length l) (length l + length s) = Ok (l ++ s1 ++ h' :: s2 ++ r, length l + length s1) /\
  s = s1 ++ s2 /\ Forall (fun x => comp key x = true) s2 /\ (s1 = [] \/ exists s0 x, s1 = s0 ++ [x] /\ comp key x = false).
Proof using Type.
  revert h r. induction s as [|x s IH] using rev_ind; intros h r.
  - exists [], [], h. split; [|split; [done|split; [constructor|by left]]]. cbn [length app]. rewrite Nat.add_0_r. destruct (length l) as [|j] eqn:El; cbn [insert_loop]; [done|]. by rewrite (proj2 (Nat.leb_gt _ _)) by lia.
  - rewrite length_app. cbn [length]. replace (length l + (length s + 1)) with (S (length l + length s)) by lia. cbn [insert_loop]. rewrite (proj2 (Nat.leb_le _ _)) by lia.
    assert (Er : (l ++ (s ++ [x]) ++ h :: r) = (l ++ s) ++ x :: h :: r) by (by rewrite <- !app_assoc). rewrite Er, read_mid by (rewrite length_app; lia). cbn [mbind res_bind]. destruct (comp key x) eqn:Ec.
    + pose proof (move_to_left moved (l ++ s) [] r h x (S (length l + length s)) (length l + length s)) as _.
      assert (Em : move_to moved ((l ++ s) ++ x :: h :: r) (S (length l + length s)) (length l + length s) = Ok ((l ++ s) ++ moved x :: x :: r)).
      { apply (move_to_right moved (l ++ s) [] r x h); rewrite length_app; cbn; lia. }
      rewrite Em. cbn [mbind res_bind]. rewrite <- app_assoc. destruct (IH (moved x) (x :: r)) as (s1 & s2 & h' & -> & -> & Hf & Hs1). exists s1, (s2 ++ [x]), h'. rewrite <- !app_assoc. split; [done|]. split; [done|]. split; [|done].
      apply Forall_app. split; [done|]. by constructor.
    + exists (s ++ [x]), [], h. rewrite <- Er. rewrite app_nil_r, length_app. cbn [length]. split; [do 2 f_equal; lia|]. split; [done|]. split; [constructor|]. right. by exists s, x.
Qed.

Lemma insertion_step key (s1 s2 : list T) : StrictWeak comp -> StronglySorted le (s1 ++ s2) -> Forall (fun x => comp key x = true) s2 -> (s1 = [] \/ exists s0 x, s1 = s0 ++ [x] /\ comp key x = false) ->
  StronglySorted le (s1 ++ key :: s2).
Proof using Type.
  intros Hw Hs Hf Hl. destruct (sorted_split s1 s2 Hs) as (H1 & H2 & H12). rewrite Forall_forall in Hf.
  assert (Hk1 : forall x, x ∈ s1 -> le x key).
  { intros x Hx. destruct Hl as [->|(s0 & y & -> & Ey)]; [set_solver|]. apply elem_of_app in Hx as [Hx|Hx]; [|by apply list_elem_of_singleton in Hx as ->].
    apply (sw_trans x y); [|done]. destruct (sorted_split s0 [y] H1) as (_ & _ & H0). apply H0; [done|by apply list_elem_of_singleton]. }
  apply sorted_app; [done| |].
  - constructor; [done|]. apply Forall_forall. intros x Hx. by apply sw_asym, Hf.
  - intros x y Hx Hy. apply elem_of_cons in Hy as [->|Hy]; [by apply Hk1|by apply H12].
Qed.

Lemma insertion_loop_ok (l s u r : list T) : exists s', insertion_loop moved comp (length u) (l ++ s ++ u ++ r) (length l) (length l + length s) = Ok (l ++ s' ++ r) /\
  s' ≡ₚ s ++ u /\ (StrictWeak comp -> StronglySorted le s -> StronglySorted le s').
Proof using Type.
  revert s. induction u as [|key u IH]; intros s; cbn [insertion_loop length]; [exists s; by rewrite app_nil_r|].
  assert (Ea : l ++ s ++ (key :: u) ++ r = (l ++ s) ++ key :: u ++ r) by (by rewrite <- app_assoc). rewrite Ea, move_from_mid by (rewrite length_app; lia). cbn [mbind res_bind]. rewrite <- app_assoc.
  destruct (insert_loop_ok key l s (u ++ r) (moved key)) as (s1 & s2 & h' & -> & -> & Hf & Hs1). cbn [mbind res_bind].
  assert (Ew : write (l ++ s1 ++ h' :: s2 ++ u ++ r) (length l + length s1) key = Ok (l ++ (s1 ++ key :: s2) ++ u ++ r)).
  { rewrite app_assoc, write_mid by (rewrite length_app; lia). f_equal. rewrite <- !app_assoc. done. }
  rewrite Ew. cbn [mbind res_bind]. destruct (IH (s1 ++ key :: s2)) as (s' & E & Hp & Hs). exists s'. replace (S (length l + length (s1 ++ s2))) with (length l + length (s1 ++ key :: s2)) by (rewrite !length_app; cbn; lia).
  rewrite E. split; [done|]. split; [|intros Hw Hss; by apply Hs; [|apply insertion_step]].
  rewrite Hp, <- !app_assoc. cbn [app]. rewrite (Permutation_middle s2 u key). done.
Qed.

Lemma InsertionSort_mid (l s r : list T) : exists s', InsertionSort moved comp (l ++ s ++ r) (length l) (length l + length s) = Ok (l ++ s' ++ r) /\ s' ≡ₚ s /\ (StrictWeak comp -> StronglySorted le s').
Proof using Type.
  unfold InsertionSort. destruct s as [|x s].
  - exists []. cbn [length]. replace (length l + 0 - S (length l)) with 0 by lia. split; [done|]. split; [done|]. intros _. constructor.
  - cbn [length]. replace (length l + S (length s) - S (length l)) with (length s) by lia. destruct (insertion_loop_ok l [x] s r) as (s' & E & Hp & Hs). exists s'. cbn [app length] in *. rewrite <- Nat.add_1_r, E. split; [done|]. split; [done|].
    intros Hw. apply Hs; [done|]. repeat constructor.
Qed.

(** [A] are less than the pivot, [B] are not. *)
Lemma partition_loop_ok (l A B u : list T) p r : exists A' B', partition_loop moved comp (length u) (l ++ A ++ B ++ u ++ p :: r) (length l + length A + length B + length u) (length l + length A) (length l + length A + length B) =
    Ok (l ++ A' ++ B' ++ p :: r, length l + length A') /\ A' ++ B' ≡ₚ A ++ B ++ u /\
  (Forall (fun x => comp x p = true) A -> Forall (fun x => comp x p = true) A') /\ (Forall (fun x => comp x p = false) B -> Forall (fun x => comp x p = false) B').
Proof using Type.
  revert A B. induction u as [|x u IH]; intros A B; cbn [partition_loop length]; [exists A, B; rewrite app_nil_r; done|].
  assert (Er : read (l ++ A ++ B ++ (x :: u) ++ p :: r) (length l + length A + length B) = Ok x).
  { replace (l ++ A ++ B ++ (x :: u) ++ p :: r) with ((l ++ A ++ B) ++ x :: u ++ p :: r) by (by rewrite <- !app_assoc). apply read_mid. rewrite !length_app. lia. }
  assert (Ep : read (l ++ A ++ B ++ (x :: u) ++ p :: r) (length l + length A + length B + S (length u)) = Ok p).
  { replace (l ++ A ++ B ++ (x :: u) ++ p :: r) with ((l ++ A ++ B ++ x :: u) ++ p :: r) by (by rewrite <- !app_assoc). apply read_mid. rewrite !length_app. cbn. lia. }
  rewrite Er, Ep. cbn [mbind res_bind]. destruct (comp x p) eqn:Ec.
  - destruct B as [|b B].
    + assert (Es : Swap moved (l ++ A ++ [] ++ (x :: u) ++ p :: r) (length l + length A) (length l + length A + length (A := T) []) = Ok (l ++ (A ++ [x]) ++ [] ++ u ++ p :: r)).
      { cbn [app length]. rewrite Nat.add_0_r. rewrite (app_assoc l A), Swap_self by (rewrite length_app; lia). f_equal. by rewrite <- !app_assoc. }
      rewrite Es. cbn [mbind res_bind]. destruct (IH (A ++ [x]) []) as (A' & B' & E & Hp & HA & HB). exists A', B'. rewrite length_app in E. cbn [length] in *.
      replace (length l + length A + 0 + S (length u)) with (length l + (length A + 1) + 0 + length u) by lia. replace (S (length l + length A)) with (length l + (length A + 1)) by lia. replace (S (length l + length A + 0)) with (length l + (length A + 1) + 0) by lia.
      rewrite E. split; [done|]. split; [by rewrite Hp, <- app_assoc|]. split; [|done]. intros H. apply HA. apply Forall_app. split; [done|]. by constructor.
    + assert (Es : Swap moved (l ++ A ++ (b :: B) ++ (x :: u) ++ p :: r) (length l + length A) (length l + length A + length (b :: B)) = Ok (l ++ (A ++ [x]) ++ (B ++ [b]) ++ u ++ p :: r)).
      { cbn [app]. rewrite (app_assoc l A), Swap_mid by (rewrite length_app; cbn; lia). f_equal. by rewrite <- !app_assoc. }
      rewrite Es. cbn [mbind res_bind]. destruct (IH (A ++ [x]) (B ++ [b])) as (A' & B' & E & Hp & HA & HB). exists A', B'. rewrite !length_app in E. cbn [length] in *.
      replace (length l + length A + S (length B) + S (length u)) with (length l + (length A + 1) + (length B + 1) + length u) by lia. replace (S (length l + length A)) with (length l + (length A + 1)) by lia. replace (S (length l + length A + S (length B))) with (length l + (length A + 1) + (length B + 1)) by lia.
      rewrite E. split; [done|]. split; [|split].
      * rewrite Hp, <- !app_assoc. cbn [app]. apply Permutation_app_head. rewrite <- (Permutation_middle B u b). rewrite perm_swap. rewrite <- (Permutation_middle B u x). done.
      * intros H. apply HA. apply Forall_app. split; [done|]. by constructor.
      * intros H. apply HB. apply Forall_cons_1 in H as [Hb H]. apply Forall_app. split; [done|]. by constructor.
  - destruct (IH A (B ++ [x])) as (A' & B' & E & Hp & HA & HB). exists A', B'. rewrite length_app in E. cbn [length] in *. rewrite <- app_assoc in E. cbn [app] in E |- *.
    replace (length l + length A + length B + S (length u)) with (length l + length A + (length B + 1) + length u) by lia. replace (S (length l + length A + length B)) with (length l + length A + (length B + 1)) by lia.
    rewrite E. split; [done|]. split; [by rewrite Hp, <- app_assoc|]. split; [done|]. intros H. apply HB. apply Forall_app. split; [done|]. by constructor.
Qed.

Lemma Partition_mid (l s r : list T) : s <> [] -> exists A p B, Partition moved comp (l ++ s ++ r) (length l) (length l + length s) = Ok (l ++ (A ++ p :: B) ++ r, length l + length A) /\
  A ++ p :: B ≡ₚ s /\ Forall (fun x => comp x p = true) A /\ Forall (fun x => comp x p = false) B.
Proof using Type.
  intros Hne. destruct s as [|p s _] using rev_ind; [done|]. clear Hne. unfold Partition. rewrite length_app. cbn [length]. replace (length l + (length s + 1) - 1) with (length l + length s) by lia. replace (length l + length s - length l) with (length s) by lia.
  destruct (partition_loop_ok l [] [] s p r) as (A & B & E & Hp & HA & HB). cbn [app length] in E. rewrite !Nat.add_0_r in E. rewrite <- app_assoc. cbn [app]. rewrite E. cbn [mbind res_bind].
  cbn [app] in Hp. assert (Hlen : length A + length B = length s) by (apply Permutation_length in Hp; rewrite length_app in Hp; done).
  destruct B as [|b B].
  - cbn [app]. cbn [length] in Hlen. rewrite <- Hlen, Nat.add_0_r. rewrite (app_assoc l A), Swap_self by (rewrite length_app; lia). cbn [mbind res_bind]. exists A, p, []. split; [do 2 f_equal; by rewrite <- !app_assoc|]. rewrite app_nil_r in Hp.
    split; [by rewrite Hp|]. split; [by apply HA|constructor].
  - rewrite <- Hlen. cbn [app length]. rewrite (app_assoc l A), Swap_mid by (rewrite length_app; cbn; lia). cbn [mbind res_bind]. exists A, p, (B ++ [b]). split; [do 2 f_equal; rewrite <- !app_assoc; cbn [app]; by rewrite <- app_assoc|].
    specialize (HB ltac:(constructor)). apply Forall_cons_1 in HB as [Hb HB]. split; [|split; [by apply HA|apply Forall_app; split; [done|by constructor]]].
    rewrite <- Hp. rewrite <- (Permutation_cons_append B b). rewrite <- !app_assoc. cbn [app]. apply Permutation_app_head. rewrite perm_swap. rewrite (Permutation_cons_append B p). done.
Qed.

Lemma IntroSort_mid depth (l s r : list T) : exists s', IntroSortImpl moved comp depth (l ++ s ++ r) (length l) (length l + length s) = Ok (l ++ s' ++ r) /\ s' ≡ₚ s /\ (StrictWeak comp -> StronglySorted le s').
Proof using Type.
  revert l s r. induction depth as [|depth IH]; intros l s r; cbn [IntroSortImpl]; (destruct (Nat.ltb_spec 16 (length l + length s - length l)) as [Hgt|Hle]; [|apply InsertionSort_mid]); [apply InsertionSort_mid|].
  destruct (Partition_mid l s r ltac:(intros ->; cbn in Hgt; lia)) as (A & p & B & E & Hp & HA & HB). rewrite E. cbn [mbind res_bind].
  assert (Hlen : length s = length A + S (length B)) by (apply Permutation_length in Hp; rewrite length_app in Hp; cbn in Hp; lia). rewrite Hlen.
  assert (Hjoin : forall A' B', A' ≡ₚ A -> B' ≡ₚ B -> (StrictWeak comp -> StronglySorted le A') -> (StrictWeak comp -> StronglySorted le B') -> A' ++ p :: B' ≡ₚ s /\ (StrictWeak comp -> StronglySorted le (A' ++ p :: B'))).
  { intros A' B' PA PB SA SB. split; [by rewrite PA, PB|]. intros Hw. rewrite <- PA in HA. rewrite <- PB in HB. rewrite Forall_forall in HA, HB. apply sorted_app; [by apply SA| |].
    - constructor; [by apply SB|]. apply Forall_forall. intros y Hy. by apply HB.
    - intros x y Hx Hy. apply elem_of_cons in Hy as [->|Hy]; [by apply sw_asym, HA|]. apply (sw_trans x p); [by apply sw_asym, HA|by apply HB]. }
  assert (Hright : forall A', length A' = length A -> exists B', IntroSortImpl moved comp depth (l ++ (A' ++ p :: B) ++ r) (S (length l + length A)) (length l + (length A + S (length B))) = Ok (l ++ (A' ++ p :: B') ++ r) /\ B' ≡ₚ B /\ (StrictWeak comp -> StronglySorted le B')).
  { intros A' HlA. destruct (IH (l ++ A' ++ [p]) B r) as (B' & EB & PB & SB). exists B'. rewrite !length_app in EB. cbn [length] in EB. rewrite <- !app_assoc in EB. cbn [app] in EB. rewrite <- !app_assoc. cbn [app].
    replace (S (length l + length A)) with (length l + (length A' + 1)) by lia. replace (length l + (length A + S (length B))) with (length l + (length A' + 1) + length B) by lia. done. }
  assert (Hleft : forall B', exists A', IntroSortImpl moved comp depth (l ++ (A ++ p :: B') ++ r) (length l) (length l + length A) = Ok (l ++ (A' ++ p :: B') ++ r) /\ A' ≡ₚ A /\ (StrictWeak comp -> StronglySorted le A')).
  { intros B'. destruct (IH l A ((p :: B') ++ r)) as (A' & EA & PA & SA). exists A'. rewrite <- !app_assoc. done. }
  destruct (_ <? _).
  - destruct (Hleft B) as (A' & -> & PA & SA). cbn [mbind res_bind]. destruct (Hright A' (Permutation_length PA)) as (B' & -> & PB & SB). exists (A' ++ p :: B'). by destruct (Hjoin A' B' PA PB SA SB).
  - destruct (Hright A eq_refl) as (B' & -> & PB & SB). cbn [mbind res_bind]. destruct (Hleft B') as (A' & -> & PA & SA). exists (A' ++ p :: B'). by destruct (Hjoin A' B' PA PB SA SB).
Qed.

Lemma Log2_total n : (0 <= n < 2 ^ 64)%Z -> exists k, Log2 n = Some k.
Proof using Type.
  intros Hn. unfold Log2. assert (Hg : forall fuel m k, (0 <= m < 2 ^ Z.of_nat fuel)%Z -> exists j, log2_loop (S fuel) m k = Some j).
  { induction fuel as [|fuel IH]; intros m k Hm; cbn [log2_loop]; destruct (Z.ltb_spec 1 m) as [H1|H1]; eauto; [cbn in Hm; lia|]. apply IH. rewrite Z.shiftr_div_pow2 by lia. change (2 ^ 1)%Z with 2%Z.
    rewrite Nat2Z.inj_succ, Z.pow_succ_r in Hm by lia. split; [apply Z.div_pos; lia|apply Z.div_lt_upper_bound; lia]. }
  by apply (Hg 64).
Qed.

(** C22. [Sort] never touches anything outside the range, leaves a permutation of it for any
    comparator at all, and for a strict weak order leaves it sorted; the depth limit makes the
    introsort end. *)
Theorem Sort_sorts (l s r : list T) : (Z.of_nat (length s) < 2 ^ 63)%Z ->
  exists s', Sort moved comp (l ++ s ++ r) (length l) (length l + length s) = Ok (l ++ s' ++ r) /\ s' ≡ₚ s /\ (StrictWeak comp -> StronglySorted le s').
Proof using Type.
  intros Hs. unfold Sort. destruct (Nat.leb_spec (length l + length s - length l) 1) as [H1|H1].
  - exists s. split; [done|]. split; [done|]. intros _. destruct s as [|x [|y s]]; [constructor|repeat constructor|cbn in H1; lia].
  - destruct (Log2_total (Z.of_nat (length l + length s - length l)) ltac:(lia)) as [k ->]. apply IntroSort_mid.
Qed.

End Sorting.

Lemma ltb_strict_weak : StrictWeak Nat.ltb.
Proof.
  split; unfold may_precede; intros *; rewrite ?Nat.ltb_lt, ?Nat.ltb_ge; lia.
Qed.

Lemma Sort_sorts_witness :
  let s := map (fun i => (i * 7) mod 20) (seq 0 20) in
  exists s', Sort (fun _ => 99) Nat.ltb ([50] ++ s ++ [60]) 1 21 = Ok ([50] ++ s' ++ [60]) /\ s' ≡ₚ s /\ StronglySorted (may_precede Nat.ltb) s'.
Proof.
  intros s. destruct (Sort_sorts (fun _ => 99) Nat.ltb [50] s [60]) as (s' & E & Hp & Hs); [vm_compute; reflexivity|].
  exists s'. split; [exact E|]. split; [exact Hp|]. apply Hs, ltb_strict_weak.
Defined.

Example sort_20 : Sort (fun _ => 99) Nat.ltb (map (fun i => (i * 7) mod 20) (seq 0 20)) 0 20 = Ok (seq 0 20).
Proof. vm_compute. reflexivity. Qed.
