(* ===== verification/Bitsets.v ===== *)
(** * The bit sets (containers/bitsets/bitset.h, better_bitset.h, dynamic_bitset.h)

    A set of [N] bits is a list of machine words.  [BitSet] counts its words from
    [kWords + 1]; [BetterBitSet] picks the width of its words by [N] and masks the last one;
    [DynamicBitSet] is the same with [N] chosen at run time.  An index outside the words is
    undefined, as is a failed [BASE_DCHECK]. *)

From S2P Require Import Prelude Memory Bits.

Set Default Proof Using "Type".

(** ** Words *)

Definition word (ws : list Z) (i : nat) : res Z := match ws !! i with Some w => Ok w | None => Undef end.
Definition set_word (ws : list Z) (i : nat) (w : Z) : res (list Z) := if (i <? length ws)%nat then Ok (<[i := w]> ws) else Undef.

(** [for (i = n - 1; 0 <= i; --i) array[i] = body(i)], and upwards from [i]. *)
Fixpoint down_loop (n : nat) (body : list Z -> nat -> res Z) (ws : list Z) : res (list Z) :=
  match n with O => Ok ws | S n => w ← body ws n; ws ← set_word ws n w; down_loop n body ws end.

Fixpoint up_loop (n i : nat) (body : list Z -> nat -> res Z) (ws : list Z) : res (list Z) :=
  match n with O => Ok ws | S n => w ← body ws i; ws ← set_word ws i w; up_loop n (S i) body ws end.

Fixpoint count_loop (n i : nat) (digits : Z) (ws : list Z) (count : Z) : res Z :=
  match n with O => Ok count | S n => w ← word ws i; count_loop n (S i) digits ws (u64 (count + PopCount digits w)) end.

(** All words from [i] on are zero. *)
Fixpoint high_words_zero (n i : nat) (ws : list Z) : res unit :=
  match n with O => Ok () | S n => w ← word ws i; _ ← dcheck (w =? 0); high_words_zero n (S i) ws end.

(** ** BitSet *)

Module BitSet.

Section BitSet.

Context (N : Z).

Definition kBitsPerWord : Z := if N <=? 32 then 32 else 64.
Definition kWords : Z := if N =? 0 then 0 else (N - 1) / kBitsPerWord.
Definition words : nat := Z.to_nat (kWords + 1).
Definition kNeedsMask : bool := N <? 64.
Definition kMask : Z := u64 (Z.shiftl 1 (if kNeedsMask then N else 0) - 1).

Definition trunc (z : Z) : Z := wrap kBitsPerWord z.

Definition BitSet_default : list Z := replicate words 0.
Definition BitSet_of (val : Z) : list Z := trunc (if kNeedsMask then Z.land val kMask else val) :: replicate (words - 1) 0.

Definition Reset (ws : list Z) : list Z := replicate (length ws) 0.

Definition Set_ (ws : list Z) (pos : Z) (toggle : bool) : res (list Z) :=
  _ ← dcheck (pos <? N);
  let i := Z.to_nat (pos / kBitsPerWord) in
  selected_word ← word ws i;
  let new_bit := Z.shiftl 1 (pos mod kBitsPerWord) in
  set_word ws i (if toggle then Z.lor selected_word new_bit else Z.land selected_word (trunc (Z.lnot new_bit))).

Definition Flip (ws : list Z) (pos : Z) : res (list Z) :=
  _ ← dcheck (pos <? N);
  let i := Z.to_nat (pos / kBitsPerWord) in
  w ← word ws i;
  set_word ws i (Z.lxor w (Z.shiftl 1 (pos mod kBitsPerWord))).

Definition Test (ws : list Z) (pos : Z) : res bool :=
  _ ← dcheck (pos <? N);
  w ← word ws (Z.to_nat (pos / kBitsPerWord));
  Ok (negb (Z.land w (Z.shiftl 1 (pos mod kBitsPerWord)) =? 0)).

Definition CountSetBits (ws : list Z) : res Z := count_loop words 0 kBitsPerWord ws 0.

Definition to_ulong (ws : list Z) : res Z :=
  if N =? 0 then Ok 0
  else if N <=? 32 then w ← word ws 0; Ok (u32 w)
  else
    _ ← (if 64 <? N then high_words_zero (words - 1) 1 ws else Ok ());
    w ← word ws 0;
    _ ← dcheck (w <? 2 ^ 64 - 1);
    Ok (u32 w).

Definition to_ullong (ws : list Z) : res Z :=
  if N =? 0 then Ok 0 else
  _ ← (if 64 <? N then high_words_zero (words - 1) 1 ws else Ok ());
  word ws 0.

Definition and_assign (ws rhs : list Z) : res (list Z) := up_loop words 0 (fun ws i => x ← word ws i; y ← word rhs i; Ok (Z.land x y)) ws.
Definition or_assign (ws rhs : list Z) : res (list Z) := up_loop words 0 (fun ws i => x ← word ws i; y ← word rhs i; Ok (Z.lor x y)) ws.
Definition xor_assign (ws rhs : list Z) : res (list Z) := up_loop words 0 (fun ws i => x ← word ws i; y ← word rhs i; Ok (Z.lxor x y)) ws.

(** [array_[i] << pos | array_[i - 1] >> (kBitsPerWord - pos)] *)
Definition shl_word (pos : Z) (ws : list Z) (i : nat) : res Z :=
  x ← word ws i; y ← word ws (i - 1); Ok (Z.lor (trunc (Z.shiftl x pos)) (Z.shiftr y (kBitsPerWord - pos))).

(** The loop stops above word 0, which is shifted alone. *)
Definition shl_bits (pos : Z) (ws : list Z) (i : nat) : res Z := if (i =? 0)%nat then x ← word ws 0; Ok (trunc (Z.shiftl x pos)) else shl_word pos ws i.

Definition shl_assign (ws : list Z) (pos : Z) : res (list Z) :=
  let word_shift := Z.to_nat (pos / kBitsPerWord) in
  ws ← (if (word_shift =? 0)%nat then Ok ws else down_loop words (fun ws i => if (word_shift <=? i)%nat then word ws (i - word_shift) else Ok 0) ws);
  let pos := pos mod kBitsPerWord in
  if pos =? 0 then Ok ws else down_loop words (shl_bits pos) ws.

Definition shr_word (pos : Z) (ws : list Z) (i : nat) : res Z :=
  x ← word ws i; y ← word ws (S i); Ok (Z.lor (Z.shiftr x pos) (trunc (Z.shiftl y (kBitsPerWord - pos)))).

Definition shr_bits (pos : Z) (ws : list Z) (i : nat) : res Z := if (S i =? words)%nat then x ← word ws i; Ok (Z.shiftr x pos) else shr_word pos ws i.

Definition shr_assign (ws : list Z) (pos : Z) : res (list Z) :=
  let word_shift := Z.to_nat (pos / kBitsPerWord) in
  ws ← (if (word_shift =? 0)%nat then Ok ws else up_loop words 0 (fun ws i => if (word_shift + i <? words)%nat then word ws (i + word_shift) else Ok 0) ws);
  let pos := pos mod kBitsPerWord in
  if pos =? 0 then Ok ws else up_loop words 0 (shr_bits pos) ws.

Definition equal (ws rhs : list Z) : bool := bool_decide (ws = rhs).
Definition not_equal (ws rhs : list Z) : bool := negb (equal ws rhs).

End BitSet.

End BitSet.

(** ** BetterBitSet *)

Module BetterBitSet.

Section BetterBitSet.

Context (N : Z).

Definition width : Z := if 32 <? N then 64 else if 16 <? N then 32 else if 8 <? N then 16 else 8.
Definition kLastMask : Z := u64 (Z.lnot (u64 (Z.shiftl (u64 (Z.lnot 1)) (u64 (N - 1) mod 64)))).
Definition kWords : nat := Z.to_nat ((N + 63) / 64).
Definition kNeedsMask : bool := N <? 64.
Definition kMask : Z := u64 (Z.shiftl 1 (if kNeedsMask then N else 0) - 1).
Definition trunc (z : Z) : Z := wrap width z.

Definition BetterBitSet_default : list Z := replicate kWords 0.
Definition BetterBitSet_of (val : Z) : list Z := trunc (if kNeedsMask then Z.land val kMask else val) :: replicate (kWords - 1) 0.

Definition CountSetBits (ws : list Z) : res Z := count_loop kWords 0 width ws 0.

Definition at_ (ws : list Z) (pos : Z) : res bool :=
  _ ← dcheck (pos <? N);
  if 64 <? N then w ← word ws (Z.to_nat (pos / 64)); Ok (negb (Z.shiftr w (pos mod 64) =? 0))
  else w ← word ws 0; Ok (negb (Z.land (Z.shiftr w pos) 1 =? 0)).

Definition Test (ws : list Z) (pos : Z) : res bool := at_ ws pos.

Definition SetAll (ws : list Z) : res (list Z) :=
  ws ← up_loop (kWords - 1) 0 (fun _ _ => Ok (2 ^ width - 1)) ws;
  set_word ws (kWords - 1) (trunc kLastMask).

Definition reset_pos (ws : list Z) (pos : Z) : res (list Z) :=
  _ ← dcheck (pos <? N);
  if 64 <? N then
    let chunk := Z.to_nat (pos / 64) in
    let cleared := u64 (Z.lnot (Z.shiftl 1 (pos mod 64))) in
    w ← word ws chunk;
    set_word ws chunk (Z.land w (if (chunk =? kWords - 1)%nat then Z.land cleared kLastMask else cleared))
  else w ← word ws 0; set_word ws 0 (trunc (Z.land w (Z.land (u64 (Z.lnot (u64 (Z.shiftl 1 pos)))) kLastMask))).

Definition Set_ (ws : list Z) (pos : Z) (value : bool) : res (list Z) :=
  _ ← dcheck (pos <? N);
  if negb value then reset_pos ws pos
  else if 64 <? N then
    let chunk := Z.to_nat (pos / 64) in
    w ← word ws chunk; set_word ws chunk (Z.lor w (Z.shiftl 1 (pos mod 64)))
  else w ← word ws 0; set_word ws 0 (Z.lor w (trunc (u64 (Z.shiftl 1 pos)))).

(** The high words are checked not to be zero, as the code has it; [DCHECK] is read as [BASE_DCHECK]. *)
Fixpoint high_words_nonzero (n i : nat) (ws : list Z) : res unit :=
  match n with O => Ok () | S n => w ← word ws i; _ ← dcheck (negb (w =? 0)); high_words_nonzero n (S i) ws end.

Definition to_number (ws : list Z) : res Z :=
  if N <=? 8 then w ← word ws 0; Ok (u8 w)
  else if N <=? 16 then w ← word ws 0; Ok (u16 w)
  else if N <=? 32 then w ← word ws 0; Ok (u32 w)
  else
    _ ← (if 64 <? N then high_words_nonzero (kWords - 1) 1 ws else Ok ());
    w ← word ws 0;
    _ ← dcheck (w <? 2 ^ 64 - 1);
    Ok (u32 w).

Definition flip (ws : list Z) : res (list Z) :=
  ws ← up_loop (kWords - 1) 0 (fun ws i => w ← word ws i; Ok (trunc (Z.lnot w))) ws;
  w ← word ws (kWords - 1);
  set_word ws (kWords - 1) (trunc (Z.land (u64 (Z.lnot w)) kLastMask)).

Definition reset (ws : list Z) : list Z := replicate (length ws) 0.

Definition assign_number (ws : list Z) (value : Z) : res (list Z) := set_word ws 0 value.
Definition assign (ws rhs : list Z) : list Z := rhs.
Definition equal (ws rhs : list Z) : bool := bool_decide (ws = rhs).

(** Only for [N <= 64]. *)
Definition and_assign (ws rhs : list Z) : res (list Z) :=
  up_loop kWords 0 (fun ws i => x ← word ws i; y ← word rhs i; Ok (Z.land x (Z.land y kLastMask))) ws.

(** [Set(i, this[i] | rhs[i])] for the first [kWords] positions. *)
Fixpoint or_loop (n : nat) (i : Z) (ws rhs : list Z) : res (list Z) :=
  match n with O => Ok ws | S n => x ← at_ ws i; y ← at_ rhs i; ws ← Set_ ws i (x || y); or_loop n (i + 1) ws rhs end.

Definition or_assign (ws rhs : list Z) : res (list Z) := or_loop kWords 0 ws rhs.
Definition xor_assign (ws rhs : list Z) : res (list Z) := up_loop kWords 0 (fun ws i => x ← word ws i; y ← word rhs i; Ok (Z.lxor x y)) ws.

End BetterBitSet.

End BetterBitSet.

(** ** DynamicBitSet *)

Module DynamicBitSet.

Record DynamicBitSet := mkDynamic { vector_ : list Z; bit_count_ : Z; last_mask_ : Z }.

Definition with_words (s : DynamicBitSet) (ws : list Z) : DynamicBitSet := mkDynamic ws (bit_count_ s) (last_mask_ s).

Definition reserve_count (bit_count : Z) : Z := if bit_count =? 0 then 1 else u64 (bit_count + 63) / 64.
Definition last_mask (bit_count : Z) : Z := u64 (Z.lnot (u64 (Z.shiftl (u64 (Z.lnot 1)) (u64 (bit_count - 1) mod 64)))).

Definition construct (val bit_count : Z) : res DynamicBitSet :=
  let needs_mask := bit_count <? 64 in
  let mask := u64 (Z.shiftl 1 (if needs_mask then bit_count else 0) - 1) in
  ws ← set_word (replicate (Z.to_nat (reserve_count bit_count)) 0) 0 (if needs_mask then Z.land val mask else val);
  Ok (mkDynamic ws bit_count (last_mask bit_count)).

Definition storage_size (s : DynamicBitSet) : nat := length (vector_ s).
Definition word_count (s : DynamicBitSet) : nat := Z.to_nat (u64 (bit_count_ s + 63) / 64).

Definition at_ (s : DynamicBitSet) (pos : Z) : res bool :=
  _ ← dcheck (pos <? bit_count_ s);
  w ← word (vector_ s) (Z.to_nat (pos / 64));
  Ok (negb (Z.land (Z.shiftr w (pos mod 64)) 1 =? 0)).

Definition Test (s : DynamicBitSet) (pos : Z) : res bool := at_ s pos.

Definition CountSetBits (s : DynamicBitSet) : res Z := count_loop (storage_size s) 0 64 (vector_ s) 0.

Definition SetAll (s : DynamicBitSet) : res DynamicBitSet :=
  ws ← up_loop (storage_size s - 1) 0 (fun _ _ => Ok (2 ^ 64 - 1)) (vector_ s);
  ws ← set_word ws (storage_size s - 1) (last_mask_ s);
  Ok (with_words s ws).

Definition reset_pos (s : DynamicBitSet) (pos : Z) : res DynamicBitSet :=
  _ ← dcheck (pos <? bit_count_ s);
  if 64 <? bit_count_ s then
    let chunk := Z.to_nat (pos / 64) in
    let cleared := u64 (Z.lnot (Z.shiftl 1 (pos mod 64))) in
    w ← word (vector_ s) chunk;
    ws ← set_word (vector_ s) chunk (Z.land w (if (chunk =? word_count s - 1)%nat then Z.land cleared (last_mask_ s) else cleared));
    Ok (with_words s ws)
  else
    w ← word (vector_ s) 0;
    ws ← set_word (vector_ s) 0 (Z.land w (Z.land (u64 (Z.lnot (Z.shiftl 1 pos))) (last_mask_ s)));
    Ok (with_words s ws).

(** Without a check of [pos]; a shift by 64 or more is undefined. *)
Definition Set_ (s : DynamicBitSet) (pos : Z) (value : bool) : res DynamicBitSet :=
  if negb value then reset_pos s pos
  else if 64 <? bit_count_ s then
    let chunk := Z.to_nat (pos / 64) in
    w ← word (vector_ s) chunk;
    ws ← set_word (vector_ s) chunk (Z.lor w (Z.shiftl 1 (pos mod 64)));
    Ok (with_words s ws)
  else if 64 <=? pos then Undef
  else
    w ← word (vector_ s) 0;
    ws ← set_word (vector_ s) 0 (Z.lor w (Z.shiftl 1 pos));
    Ok (with_words s ws).

Definition to_ullong (s : DynamicBitSet) : res Z :=
  if bit_count_ s =? 0 then Ok 0 else
  _ ← (if 64 <? bit_count_ s then high_words_zero (word_count s - 1) 1 (vector_ s) else Ok ());
  word (vector_ s) 0.

(** [word_count() - 1] wraps for an empty set. *)
Definition flip (s : DynamicBitSet) : res DynamicBitSet :=
  if (word_count s =? 0)%nat then Undef else
  ws ← up_loop (word_count s - 1) 0 (fun ws i => w ← word ws i; Ok (u64 (Z.lnot w))) (vector_ s);
  w ← word ws (word_count s - 1);
  ws ← set_word ws (word_count s - 1) (Z.land (u64 (Z.lnot w)) (last_mask_ s));
  Ok (with_words s ws).

Definition reset (s : DynamicBitSet) : DynamicBitSet := with_words s (replicate (length (vector_ s)) 0).

Definition assign_number (s : DynamicBitSet) (val : Z) : res DynamicBitSet := ws ← set_word (vector_ s) 0 val; Ok (with_words s ws).

(** The comparison reads as many words of [rhs] as it has itself. *)
Definition equal (s rhs : DynamicBitSet) : bool := (bit_count_ s =? bit_count_ rhs) && bool_decide (vector_ s = vector_ rhs).

(** The two loops of the compound assignments: every [j <= i] is applied to [i]. *)
Fixpoint inner_loop (n : nat) (j i : nat) (body : DynamicBitSet -> nat -> nat -> res DynamicBitSet) (s : DynamicBitSet) : res DynamicBitSet :=
  match n with O => Ok s | S n => if (i <? j)%nat then Ok s else s ← body s i j; inner_loop n (S j) i body s end.

Fixpoint outer_loop (n : nat) (i : nat) (rhs_size : nat) (body : DynamicBitSet -> nat -> nat -> res DynamicBitSet) (s : DynamicBitSet) : res DynamicBitSet :=
  match n with O => Ok s | S n => s ← inner_loop rhs_size 0 i body s; outer_loop n (S i) rhs_size body s end.

Definition and_assign (s rhs : DynamicBitSet) : res DynamicBitSet :=
  _ ← dcheck (bit_count_ s <=? 64);
  outer_loop (storage_size s) 0 (storage_size rhs) (fun s i j =>
    x ← word (vector_ s) i; y ← word (vector_ rhs) j; ws ← set_word (vector_ s) i (Z.land x (Z.land y (last_mask_ s))); Ok (with_words s ws)) s.

Definition or_assign (s rhs : DynamicBitSet) : res DynamicBitSet :=
  outer_loop (storage_size s) 0 (storage_size rhs) (fun s i j => x ← at_ s (Z.of_nat i); y ← at_ rhs (Z.of_nat j); Set_ s (Z.of_nat i) (x || y)) s.

Definition xor_assign (s rhs : DynamicBitSet) : res DynamicBitSet :=
  outer_loop (storage_size s) 0 (storage_size rhs) (fun s i j =>
    x ← word (vector_ s) i; y ← word (vector_ rhs) j; ws ← set_word (vector_ s) i (Z.lxor x y); Ok (with_words s ws)) s.

End DynamicBitSet.
