(* ===== verification/BitsetsSpec.v ===== *)
(** * The bit sets: what their operations compute

    [bit] reads one position of a list of words.  Every operation of [BitSet] is stated by
    the bits of its result; shifts move the positions of all the words, those behind [N]
    included.  Two operations of the other classes do not do what their names say. *)

From S2P Require Import Prelude Memory Bits Bitsets.

Set Default Proof Using "Type".

(** The bit at position [i] of words of [b] bits. *)
Definition bit (b : Z) (ws : list Z) (i : Z) : bool := Z.testbit (default 0 (ws !! Z.to_nat (i / b))) (i mod b).

Definition words_fit (b : Z) (ws : list Z) : Prop := forall i w, ws !! i = Some w -> fits b w.

(** ** Loops over words *)

Lemma set_word_ok ws i w : (i < length ws)%nat -> set_word ws i w = Ok (<[i := w]> ws).
Proof. intros Hi. unfold set_word. by rewrite (proj2 (Nat.ltb_lt _ _)). Qed.

Lemma word_ok ws i : (i < length ws)%nat -> exists w, ws !! i = Some w /\ word ws i = Ok w.
Proof. intros Hi. destruct (lookup_lt_is_Some_2 ws i Hi) as [w E]. exists w. unfold word. by rewrite E. Qed.

(** A loop whose turn only reads what it has not written yet maps the words it met. *)
Lemma up_words_ok body f n i ws : (i + n <= length ws)%nat ->
  (forall ws' k, length ws' = length ws -> (i <= k < i + n)%nat -> (forall j, (k <= j)%nat -> ws' !! j = ws !! j) -> body ws' k = Ok (f k)) ->
  exists r, up_loop n i body ws = Ok r /\ length r = length ws /\ forall k, r !! k = if decide (i <= k < i + n)%nat then Some (f k) else ws !! k.
Proof.
  revert i ws. induction n as [|n IH]; intros i ws Hl Hb; cbn [up_loop].
  - exists ws. split; [done|]. split; [done|]. intros k. by rewrite decide_False by lia.
  - rewrite (Hb ws i) by (done || lia). cbn [mbind res_bind]. rewrite set_word_ok by lia. cbn [mbind res_bind].
    destruct (IH (S i) (<[i := f i]> ws)) as (r & E & El & Hr); [rewrite length_insert; lia| |].
    + intros ws' k Hl' Hk Hj. rewrite length_insert in Hl'. apply Hb; [done|lia|]. intros j Hkj. rewrite Hj by done. apply list_lookup_insert_ne. lia.
    + exists r. rewrite length_insert in El. split; [done|]. split; [done|]. intros k. rewrite Hr. destruct (decide (k = i)) as [->|Hne].
      * rewrite decide_False by lia. rewrite list_lookup_insert_eq by lia. by rewrite decide_True by lia.
      * rewrite list_lookup_insert_ne by done. destruct (decide (S i <= k < S i + n)%nat); [by rewrite decide_True by lia|by rewrite decide_False by lia].
Qed.

Lemma down_words_ok body f n ws : (n <= length ws)%nat ->
  (forall ws' k, length ws' = length ws -> (k < n)%nat -> (forall j, (j <= k)%nat -> ws' !! j = ws !! j) -> body ws' k = Ok (f k)) ->
  exists r, down_loop n body ws = Ok r /\ length r = length ws /\ forall k, r !! k = if decide (k < n)%nat then Some (f k) else ws !! k.
Proof.
  revert ws. induction n as [|n IH]; intros ws Hl Hb; cbn [down_loop].
  - exists ws. split; [done|]. split; [done|]. intros k. by rewrite decide_False by lia.
  - rewrite (Hb ws n) by (done || lia). cbn [mbind res_bind]. rewrite set_word_ok by lia. cbn [mbind res_bind].
    destruct (IH (<[n := f n]> ws)) as (r & E & El & Hr); [rewrite length_insert; lia| |].
    + intros ws' k Hl' Hk Hj. rewrite length_insert in Hl'. apply Hb; [done|lia|]. intros j Hjk. rewrite Hj by done. apply list_lookup_insert_ne. lia.
    + exists r. rewrite length_insert in El. split; [done|]. split; [done|]. intros k. rewrite Hr. destruct (decide (k = n)) as [->|Hne].
      * rewrite decide_False by lia. rewrite list_lookup_insert_eq by lia. by rewrite decide_True by lia.
      * rewrite list_lookup_insert_ne by done. destruct (decide (k < n)%nat); [by rewrite decide_True by lia|by rewrite decide_False by lia].
Qed.

(** ** BitSet *)

Module BitSetSpec.

Import Bitsets.BitSet.

Section BitSetSpec.

Context (N : Z) (HN : 0 < N < 2 ^ 63).

Abbreviation b := (kBitsPerWord N).

Lemma b_cases : b = 32 \/ b = 64.
Proof using Type. unfold kBitsPerWord. destruct (N <=? 32); auto. Qed.

Lemma b_pos : 0 < b.
Proof using Type. destruct b_cases as [-> | ->]; lia. Qed.

Record wf (ws : list Z) : Prop := { wf_length : length ws = words N; wf_fit : words_fit b ws }.

Lemma words_pos : (0 < words N)%nat.
Proof using HN. unfold words, kWords. rewrite (proj2 (Z.eqb_neq N 0)) by lia. pose proof (Z.div_pos (N - 1) b ltac:(lia) b_pos). lia. Qed.

(** Every position lies in a word. *)
Lemma pos_in_words p : 0 <= p < N -> (Z.to_nat (p / b) < words N)%nat.
Proof using HN.
  intros Hp. unfold words, kWords. rewrite (proj2 (Z.eqb_neq N 0)) by lia. pose proof b_pos. pose proof (Z.div_pos p b ltac:(lia) ltac:(lia)). pose proof (Z.div_le_mono p (N - 1) b ltac:(lia) ltac:(lia)). lia.
Qed.

(** One word and one position. *)
Lemma bit_insert ws i w q : (i < length ws)%nat -> 0 <= q ->
  bit b (<[i := w]> ws) q = if decide (Z.to_nat (q / b) = i) then Z.testbit w (q mod b) else bit b ws q.
Proof using Type.
  intros Hi Hq. unfold bit. destruct (decide (Z.to_nat (q / b) = i)) as [->|Hne]; [by rewrite list_lookup_insert_eq|by rewrite list_lookup_insert_ne].
Qed.

Lemma same_word p q : 0 <= p -> 0 <= q -> Z.to_nat (q / b) = Z.to_nat (p / b) -> q mod b = p mod b -> q = p.
Proof using Type.
  intros Hp Hq E1 E2. pose proof b_pos. pose proof (Z.div_pos p b ltac:(lia) ltac:(lia)). pose proof (Z.div_pos q b ltac:(lia) ltac:(lia)).
  rewrite (Z_div_mod_eq_full p b), (Z_div_mod_eq_full q b), E2. f_equal. f_equal. lia.
Qed.

Lemma wf_insert ws i w : wf ws -> fits b w -> wf (<[i := w]> ws).
Proof using Type.
  intros [Hl Hf] Hw. split; [by rewrite length_insert|]. intros j x E. apply list_lookup_insert_Some in E as [(-> & <- & _)|[_ E]]; [done|by apply (Hf j)].
Qed.

Lemma one_bit_fits k : 0 <= k < b -> fits b (Z.shiftl 1 k).
Proof using Type. intros Hk. rewrite Z.shiftl_1_l. unfold fits. split; [apply Z.pow_nonneg; lia|apply Z.pow_lt_mono_r; lia]. Qed.

Lemma testbit_one k j : 0 <= k -> 0 <= j -> Z.testbit (Z.shiftl 1 k) j = bool_decide (j = k).
Proof using Type.
  intros Hk Hj. rewrite Z.shiftl_1_l. case_bool_decide as E; [subst; by rewrite Z.pow2_bits_true|by rewrite Z.pow2_bits_false by lia].
Qed.

Lemma mod_b p : 0 <= p mod b < b.
Proof using Type. apply Z.mod_pos_bound, b_pos. Qed.

Lemma Test_ok ws p : wf ws -> 0 <= p < N -> Test N ws p = Ok (bit b ws p).
Proof using HN.
  intros H Hp. unfold Test. rewrite (proj2 (Z.ltb_lt p N)) by lia. cbn [dcheck mbind res_bind]. destruct (word_ok ws (Z.to_nat (p / b))) as (w & Ew & ->); [rewrite (wf_length _ H); by apply pos_in_words|].
  cbn [mbind res_bind]. f_equal. unfold bit. rewrite Ew. cbn [default from_option id]. pose proof (mod_b p). destruct (Z.testbit w (p mod b)) eqn:Et.
  - apply negb_true_iff, Z.eqb_neq. intros E0. apply (f_equal (fun z => Z.testbit z (p mod b))) in E0. rewrite Z.land_spec, Et, testbit_one, bool_decide_true, Z.bits_0 in E0 by lia. done.
  - apply negb_false_iff, Z.eqb_eq. apply Z.bits_inj'. intros j Hj. rewrite Z.land_spec, testbit_one, Z.bits_0 by lia. case_bool_decide as E; [subst; by rewrite Et|by rewrite andb_false_r].
Qed.

Lemma Set_ok ws p v : wf ws -> 0 <= p < N -> exists r, Set_ N ws p v = Ok r /\ wf r /\ forall q, 0 <= q -> bit b r q = if decide (q = p) then v else bit b ws q.
Proof using HN.
  intros H Hp. unfold Set_. rewrite (proj2 (Z.ltb_lt p N)) by lia. cbn [dcheck mbind res_bind]. pose proof (pos_in_words p Hp) as Hi. rewrite <- (wf_length _ H) in Hi.
  destruct (word_ok ws (Z.to_nat (p / b)) Hi) as (w & Ew & ->). cbn [mbind res_bind]. rewrite set_word_ok by done. pose proof (mod_b p) as Hm. pose proof (wf_fit _ H _ _ Ew) as Hw. pose proof (one_bit_fits _ Hm) as H1.
  eexists. split; [done|]. split.
  - apply wf_insert; [done|]. pose proof b_pos. destruct v; [apply lor_fits; (done || lia)|apply land_fits; (done || lia)].
  - intros q Hq. rewrite bit_insert by done. destruct (decide (Z.to_nat (q / b) = Z.to_nat (p / b))) as [E|E].
    + assert (Eb : bit b ws q = Z.testbit w (q mod b)) by (unfold bit; by rewrite E, Ew). pose proof (mod_b q) as Hmq. rewrite Eb.
      assert (Hd : q mod b = p mod b <-> q = p) by (split; [by apply same_word; lia|by intros ->]).
      destruct v; rewrite ?Z.lor_spec, ?Z.land_spec; unfold trunc, wrap; rewrite ?Z.mod_pow2_bits_low, ?Z.lnot_spec by lia; rewrite testbit_one by lia;
        case_bool_decide as Ed; [rewrite orb_true_r|rewrite orb_false_r|rewrite andb_false_r|rewrite andb_true_r]; [rewrite decide_True|rewrite decide_False|rewrite decide_True|rewrite decide_False]; tauto.
    + rewrite decide_False by congruence. done.
Qed.

Lemma Flip_ok ws p : wf ws -> 0 <= p < N -> exists r, Flip N ws p = Ok r /\ wf r /\ forall q, 0 <= q -> bit b r q = xorb (bit b ws q) (bool_decide (q = p)).
Proof using HN.
  intros H Hp. unfold Flip. rewrite (proj2 (Z.ltb_lt p N)) by lia. cbn [dcheck mbind res_bind]. pose proof (pos_in_words p Hp) as Hi. rewrite <- (wf_length _ H) in Hi.
  destruct (word_ok ws (Z.to_nat (p / b)) Hi) as (w & Ew & ->). cbn [mbind res_bind]. rewrite set_word_ok by done. pose proof (mod_b p) as Hm. pose proof b_pos. eexists. split; [done|]. split.
  - apply wf_insert; [done|]. apply lxor_fits; [lia|by apply (wf_fit _ H _ _ Ew)|by apply one_bit_fits].
  - intros q Hq. rewrite bit_insert by done. destruct (decide (Z.to_nat (q / b) = Z.to_nat (p / b))) as [E|E].
    + assert (Eb : bit b ws q = Z.testbit w (q mod b)) by (unfold bit; by rewrite E, Ew). pose proof (mod_b q). rewrite Eb, Z.lxor_spec, testbit_one by lia. f_equal. apply bool_decide_ext. split; [by apply same_word; lia|by intros ->].
    + rewrite bool_decide_false by congruence. by rewrite xorb_false_r.
Qed.

(** Word by word. *)
Lemma bitwise_ok (op : Z -> Z -> Z) (f : bool -> bool -> bool) ws rhs : (forall x y j, Z.testbit (op x y) j = f (Z.testbit x j) (Z.testbit y j)) -> (forall x y, fits b x -> fits b y -> fits b (op x y)) -> f false false = false ->
  wf ws -> wf rhs -> exists r, up_loop (words N) 0 (fun ws i => x ← word ws i; y ← word rhs i; Ok (op x y)) ws = Ok r /\ wf r /\ forall q, 0 <= q -> bit b r q = f (bit b ws q) (bit b rhs q).
Proof using Type.
  intros Hop Hfit Hff H Hr. set (g := fun k => op (default 0 (ws !! k)) (default 0 (rhs !! k))).
  destruct (up_words_ok (fun ws i => x ← word ws i; y ← word rhs i; Ok (op x y)) g (words N) 0 ws) as (r & E & El & Hk); [rewrite (wf_length _ H); lia| |].
  - intros ws' k Hl Hk Hj. destruct (word_ok ws' k) as (x & Ex & ->); [rewrite Hl, (wf_length _ H); lia|]. destruct (word_ok rhs k) as (y & Ey & ->); [rewrite (wf_length _ Hr); lia|]. cbn. unfold g. rewrite <- Hj by lia. by rewrite Ex, Ey.
  - exists r. split; [done|]. split.
    + split; [by rewrite El, (wf_length _ H)|]. intros i w Ei. rewrite Hk in Ei. destruct (decide _) as [Hd|Hd]; [|by apply (wf_fit _ H i)]. injection Ei as <-. unfold g.
      destruct (lookup_lt_is_Some_2 ws i) as [x Ex]; [rewrite (wf_length _ H); lia|]. destruct (lookup_lt_is_Some_2 rhs i) as [y Ey]; [rewrite (wf_length _ Hr); lia|]. rewrite Ex, Ey. apply Hfit; [by apply (wf_fit _ H i)|by apply (wf_fit _ Hr i)].
    + intros q Hq. unfold bit at 1. rewrite Hk. destruct (decide _) as [Hd|Hd]; cbn [default from_option id]; [apply Hop|]. unfold bit. rewrite !lookup_ge_None_2 by (rewrite ?(wf_length _ H), ?(wf_length _ Hr); lia). cbn. by rewrite !Z.testbit_0_l.
Qed.

(** *** Shifts *)

(** Subtracting positions, by word and by bit in the word. *)
Lemma position_sub q p : 0 <= p -> 0 <= q ->
  if decide (p mod b <= q mod b) then (q - p) / b = q / b - p / b /\ (q - p) mod b = q mod b - p mod b
  else (q - p) / b = q / b - p / b - 1 /\ (q - p) mod b = q mod b - p mod b + b.
Proof using Type.
  intros Hp Hq. pose proof b_pos. pose proof (mod_b p). pose proof (mod_b q). pose proof (Z_div_mod_eq_full p b). pose proof (Z_div_mod_eq_full q b).
  destruct (decide (p mod b <= q mod b)); split; symmetry.
  - apply (Z.div_unique_pos _ _ _ (q mod b - p mod b)); lia.
  - apply (Z.mod_unique_pos _ _ (q / b - p / b)); lia.
  - apply (Z.div_unique_pos _ _ _ (q mod b - p mod b + b)); lia.
  - apply (Z.mod_unique_pos _ _ (q / b - p / b - 1)); lia.
Qed.

Lemma sub_pos_iff q p : 0 <= p -> 0 <= q -> (p <= q <-> 0 <= (q - p) / b).
Proof using Type. intros Hp Hq. pose proof b_pos. split; [intros; apply Z.div_pos; lia|]. intros Hd. pose proof (Z_div_mod_eq_full (q - p) b). pose proof (mod_b (q - p)). nia. Qed.

(** The word a position reads after a shift by whole words. *)
Definition moved_word (ws : list Z) (k : Z) : Z := if decide (0 <= k) then default 0 (ws !! Z.to_nat k) else 0.

Lemma moved_word_fits ws k : wf ws -> fits b (moved_word ws k).
Proof using Type.
  intros H. pose proof b_pos. unfold moved_word. assert (Hz : fits b 0) by (unfold fits; split; [lia|apply Z.pow_pos_nonneg; lia]). destruct (decide _); [|done]. destruct (ws !! Z.to_nat k) as [w|] eqn:E; [by apply (wf_fit _ H _ _ E)|done].
Qed.

Lemma bit_moved ws q : 0 <= (q / b) -> bit b ws q = Z.testbit (moved_word ws (q / b)) (q mod b).
Proof using Type. intros Hq. unfold bit, moved_word. by rewrite decide_True. Qed.

(** A bit of two neighbouring words that are shifted into each other. *)
Lemma shl_bit x y p j : fits b y -> 0 < p < b -> 0 <= j < b ->
  Z.testbit (Z.lor (trunc N (Z.shiftl x p)) (Z.shiftr y (b - p))) j = if decide (p <= j) then Z.testbit x (j - p) else Z.testbit y (j - p + b).
Proof using Type.
  intros Hy Hp Hj. unfold trunc, wrap. rewrite Z.lor_spec, Z.mod_pow2_bits_low, Z.shiftl_spec, Z.shiftr_spec by lia. destruct (decide (p <= j)).
  - rewrite (testbit_high y b (j + (b - p))) by (done || lia). apply orb_false_r.
  - rewrite Z.testbit_neg_r by lia. cbn. f_equal. lia.
Qed.

Lemma shr_bit x y p j : fits b x -> 0 < p < b -> 0 <= j < b ->
  Z.testbit (Z.lor (Z.shiftr x p) (trunc N (Z.shiftl y (b - p)))) j = if decide (j + p < b) then Z.testbit x (j + p) else Z.testbit y (j + p - b).
Proof using Type.
  intros Hx Hp Hj. unfold trunc, wrap. rewrite Z.lor_spec, Z.mod_pow2_bits_low, Z.shiftl_spec, Z.shiftr_spec by lia. destruct (decide (j + p < b)).
  - rewrite (Z.testbit_neg_r y) by lia. apply orb_false_r.
  - rewrite (testbit_high x b (j + p)) by (done || lia). cbn. f_equal. lia.
Qed.

(** The loop that moves whole words up. *)
Lemma shl_words_ok ws s : wf ws -> exists r, (if (s =? 0)%nat then Ok ws else down_loop (words N) (fun ws i => if (s <=? i)%nat then word ws (i - s) else Ok 0) ws) = Ok r /\ wf r /\
  forall k, (k < words N)%nat -> r !! k = Some (moved_word ws (Z.of_nat k - Z.of_nat s)).
Proof using Type.
  intros H. destruct (Nat.eqb_spec s 0) as [->|Hs].
  - exists ws. split; [done|]. split; [done|]. intros k Hk. unfold moved_word. rewrite decide_True by lia. replace (Z.to_nat (Z.of_nat k - Z.of_nat 0)) with k by lia. destruct (lookup_lt_is_Some_2 ws k) as [w E]; [by rewrite (wf_length _ H)|]. by rewrite E.
  - destruct (down_words_ok (fun ws i => if (s <=? i)%nat then word ws (i - s) else Ok 0) (fun k => moved_word ws (Z.of_nat k - Z.of_nat s)) (words N) ws) as (r & E & El & Hk); [by rewrite (wf_length _ H)| |].
    + intros ws' k Hl Hk Hj. unfold moved_word. destruct (Nat.leb_spec s k) as [Hle|Hlt]; [|by rewrite decide_False by lia]. rewrite decide_True by lia.
      destruct (word_ok ws' (k - s)) as (w & Ew & ->); [rewrite Hl, (wf_length _ H); lia|]. rewrite Hj in Ew by lia. replace (Z.to_nat (Z.of_nat k - Z.of_nat s)) with (k - s)%nat by lia. by rewrite Ew.
    + exists r. split; [done|]. split; [|intros k Hlt; rewrite Hk; by rewrite decide_True]. split; [by rewrite El, (wf_length _ H)|]. intros i w Ei. rewrite Hk in Ei. destruct (decide _); [injection Ei as <-; by apply moved_word_fits|by apply (wf_fit _ H i)].
Qed.

Lemma shr_words_ok ws s : wf ws -> exists r, (if (s =? 0)%nat then Ok ws else up_loop (words N) 0 (fun ws i => if (s + i <? words N)%nat then word ws (i + s) else Ok 0) ws) = Ok r /\ wf r /\
  forall k, (k < words N)%nat -> r !! k = Some (moved_word ws (Z.of_nat k + Z.of_nat s)).
Proof using Type.
  intros H. destruct (Nat.eqb_spec s 0) as [->|Hs].
  - exists ws. split; [done|]. split; [done|]. intros k Hk. unfold moved_word. rewrite decide_True by lia. replace (Z.to_nat (Z.of_nat k + Z.of_nat 0)) with k by lia. destruct (lookup_lt_is_Some_2 ws k) as [w E]; [by rewrite (wf_length _ H)|]. by rewrite E.
  - destruct (up_words_ok (fun ws i => if (s + i <? words N)%nat then word ws (i + s) else Ok 0) (fun k => moved_word ws (Z.of_nat k + Z.of_nat s)) (words N) 0 ws) as (r & E & El & Hk); [rewrite (wf_length _ H); lia| |].
    + intros ws' k Hl Hk Hj. unfold moved_word. rewrite decide_True by lia. replace (Z.to_nat (Z.of_nat k + Z.of_nat s)) with (k + s)%nat by lia. destruct (Nat.ltb_spec (s + k) (words N)) as [Hlt|Hge].
      * destruct (word_ok ws' (k + s)) as (w & Ew & ->); [rewrite Hl, (wf_length _ H); lia|]. rewrite Hj in Ew by lia. by rewrite Ew.
      * by rewrite lookup_ge_None_2 by (rewrite (wf_length _ H); lia).
    + exists r. split; [done|]. split; [|intros k Hlt; rewrite Hk; by rewrite decide_True by lia]. split; [by rewrite El, (wf_length _ H)|]. intros i w Ei. rewrite Hk in Ei. destruct (decide _); [injection Ei as <-; by apply moved_word_fits|by apply (wf_fit _ H i)].
Qed.

(** A shift left moves every position up and brings zeros in. *)
Lemma shl_assign_ok ws p : wf ws -> 0 <= p -> exists r, shl_assign N ws p = Ok r /\ wf r /\
  forall q, 0 <= q -> (Z.to_nat (q / b) < words N)%nat -> bit b r q = if decide (p <= q) then bit b ws (q - p) else false.
Proof using HN.
  intros H Hp. unfold shl_assign. pose proof b_pos as Hb. destruct (shl_words_ok ws (Z.to_nat (p / b)) H) as (r1 & -> & H1 & Hw1). cbn [mbind res_bind].
  pose proof (Z.div_pos p b ltac:(lia) Hb) as Hpb. pose proof (mod_b p) as Hmp. assert (Hget : forall k, (k < words N)%nat -> default 0 (r1 !! k) = moved_word ws (Z.of_nat k - p / b)) by (intros k Hk; rewrite Hw1 by done; cbn; f_equal; lia).
  assert (Hfin : forall r, (forall q, 0 <= q -> (Z.to_nat (q / b) < words N)%nat -> bit b r q = Z.testbit (moved_word ws ((q - p) / b)) ((q - p) mod b)) ->
    forall q, 0 <= q -> (Z.to_nat (q / b) < words N)%nat -> bit b r q = if decide (p <= q) then bit b ws (q - p) else false).
  { intros r Hr q Hq Hk. rewrite Hr by done. destruct (decide (p <= q)) as [Hle|Hgt]; [symmetry; apply bit_moved; by apply (proj1 (sub_pos_iff q p Hp Hq))|].
    unfold moved_word. rewrite decide_False; [apply Z.testbit_0_l|]. intros Hc. apply Hgt. by apply (proj2 (sub_pos_iff q p Hp Hq)). }
  destruct (Z.eqb_spec (p mod b) 0) as [E0|Hne].
  - exists r1. split; [done|]. split; [done|]. apply Hfin. intros q Hq Hk. unfold bit. rewrite Hget by done. pose proof (position_sub q p Hp Hq) as Hs. rewrite decide_True in Hs by (pose proof (mod_b q); lia). destruct Hs as [-> ->].
    rewrite E0, Z.sub_0_r. f_equal. f_equal. pose proof (Z.div_pos q b Hq Hb). lia.
  - set (p' := p mod b) in *. set (f := fun k => if (k =? 0)%nat then trunc N (Z.shiftl (moved_word r1 0) p') else Z.lor (trunc N (Z.shiftl (moved_word r1 (Z.of_nat k)) p')) (Z.shiftr (moved_word r1 (Z.of_nat k - 1)) (b - p'))).
    assert (Hread : forall ws' k, length ws' = length r1 -> (k < words N)%nat -> ws' !! k = r1 !! k -> word ws' k = Ok (moved_word r1 (Z.of_nat k))).
    { intros ws' k Hl Hk Ej. destruct (word_ok ws' k) as (w & Ew & ->); [rewrite Hl, (wf_length _ H1); lia|]. unfold moved_word. rewrite decide_True, Nat2Z.id by lia. by rewrite <- Ej, Ew. }
    destruct (down_words_ok (shl_bits N p') f (words N) r1) as (r & E & El & Hk); [by rewrite (wf_length _ H1)| |].
    { intros ws' k Hl Hk Hj. unfold shl_bits, shl_word, f. destruct (Nat.eqb_spec k 0) as [->|Hk0].
      - rewrite (Hread ws' 0%nat) by (done || (apply Hj; lia)). done.
      - rewrite (Hread ws' k) by (done || (apply Hj; lia)). cbn [mbind res_bind]. rewrite (Hread ws' (k - 1)%nat) by (done || lia || (apply Hj; lia)). cbn [mbind res_bind]. do 3 f_equal. f_equal. lia. }
    assert (Hfit : forall k, fits b (f k)).
    { intros k. unfold f, trunc. pose proof (moved_word_fits r1 (Z.of_nat k - 1) H1) as Hm. destruct (k =? 0)%nat; [apply wrap_range; lia|]. apply lor_fits; [lia|apply wrap_range; lia|]. unfold fits in *. rewrite shiftr_div by lia. pose proof (pow2_pos (b - p') ltac:(lia)). split; [apply Z.div_pos; lia|]. apply Z.le_lt_trans with (moved_word r1 (Z.of_nat k - 1)); [apply Z.div_le_upper_bound; nia|lia]. }
    exists r. split; [done|]. split; [split; [by rewrite El, (wf_length _ H1)|intros i w Ei; rewrite Hk in Ei; destruct (decide _); [injection Ei as <-; apply Hfit|by apply (wf_fit _ H1 i)]]|].
    apply Hfin. intros q Hq Hkq. unfold bit. rewrite Hk, decide_True by done. cbn [default from_option id]. pose proof (mod_b q) as Hmq. pose proof (Z.div_pos q b Hq Hb) as Hqb. set (k := Z.to_nat (q / b)) in *.
    assert (Hmw : forall d, 0 <= d -> d <= Z.of_nat k -> moved_word r1 (Z.of_nat k - d) = moved_word ws (q / b - p / b - d)).
    { intros d Hd Hdk. unfold moved_word at 1. rewrite decide_True by lia. rewrite Hget by lia. f_equal. lia. }
    pose proof (position_sub q p Hp Hq) as Hs. fold p' in Hs.
    assert (Ef : Z.testbit (f k) (q mod b) = if decide (p' <= q mod b) then Z.testbit (moved_word ws (q / b - p / b)) (q mod b - p') else Z.testbit (moved_word ws (q / b - p / b - 1)) (q mod b - p' + b)).
    { unfold f. destruct (Nat.eqb_spec k 0) as [E0|Hk0].
      - replace (trunc N (Z.shiftl (moved_word r1 0) p')) with (Z.lor (trunc N (Z.shiftl (moved_word r1 0) p')) (Z.shiftr 0 (b - p'))) by (by rewrite Z.shiftr_0_l, Z.lor_0_r). rewrite shl_bit by (unfold fits; (split; [lia|apply pow2_pos; lia]) || lia). pose proof (Hmw 0 ltac:(lia) ltac:(lia)) as E1. rewrite E0, !Z.sub_0_r in E1. change (Z.of_nat 0) with 0 in E1. rewrite E1.
        destruct (decide _); [done|]. unfold moved_word. rewrite decide_False by lia. by rewrite Z.testbit_0_l.
      - rewrite shl_bit by (lia || by apply moved_word_fits). pose proof (Hmw 0 ltac:(lia) ltac:(lia)) as E1. rewrite !Z.sub_0_r in E1. by rewrite E1, (Hmw 1) by lia. }
    rewrite Ef. destruct (decide (p' <= q mod b)); destruct Hs as [-> ->]; done.
Qed.

Lemma position_add q p : 0 <= p -> 0 <= q ->
  if decide (q mod b + p mod b < b) then (q + p) / b = q / b + p / b /\ (q + p) mod b = q mod b + p mod b
  else (q + p) / b = q / b + p / b + 1 /\ (q + p) mod b = q mod b + p mod b - b.
Proof using Type.
  intros Hp Hq. pose proof b_pos. pose proof (mod_b p). pose proof (mod_b q). pose proof (Z_div_mod_eq_full p b). pose proof (Z_div_mod_eq_full q b).
  destruct (decide (q mod b + p mod b < b)); split; symmetry.
  - apply (Z.div_unique_pos _ _ _ (q mod b + p mod b)); lia.
  - apply (Z.mod_unique_pos _ _ (q / b + p / b)); lia.
  - apply (Z.div_unique_pos _ _ _ (q mod b + p mod b - b)); lia.
  - apply (Z.mod_unique_pos _ _ (q / b + p / b + 1)); lia.
Qed.

Lemma shifted_fits x p : fits b x -> 0 <= p -> fits b (Z.shiftr x p).
Proof using Type.
  intros Hx Hp. unfold fits in *. rewrite shiftr_div by lia. pose proof (pow2_pos p Hp). split; [apply Z.div_pos; lia|]. apply Z.le_lt_trans with x; [apply Z.div_le_upper_bound; nia|lia].
Qed.

(** A shift right moves every position down; zeros come in behind the last word. *)
Lemma shr_assign_ok ws p : wf ws -> 0 <= p -> exists r, shr_assign N ws p = Ok r /\ wf r /\
  forall q, 0 <= q -> (Z.to_nat (q / b) < words N)%nat -> bit b r q = bit b ws (q + p).
Proof using HN.
  intros H Hp. unfold shr_assign. pose proof b_pos as Hb. destruct (shr_words_ok ws (Z.to_nat (p / b)) H) as (r1 & -> & H1 & Hw1). cbn [mbind res_bind].
  pose proof (Z.div_pos p b ltac:(lia) Hb) as Hpb. pose proof (mod_b p) as Hmp.
  assert (Hget : forall k, 0 <= k -> moved_word r1 k = moved_word ws (k + p / b)).
  { intros k Hk. unfold moved_word at 1. rewrite decide_True by done. destruct (decide (Z.to_nat k < words N)%nat) as [Hlt|Hge]; [rewrite Hw1 by done; cbn; f_equal; lia|].
    rewrite lookup_ge_None_2 by (rewrite (wf_length _ H1); lia). unfold moved_word. rewrite decide_True by lia. by rewrite lookup_ge_None_2 by (rewrite (wf_length _ H); lia). }
  assert (Hfin : forall q, 0 <= q -> bit b ws (q + p) = Z.testbit (moved_word ws ((q + p) / b)) ((q + p) mod b)) by (intros q Hq; apply bit_moved; apply Z.div_pos; lia).
  destruct (Z.eqb_spec (p mod b) 0) as [E0|Hne].
  - exists r1. split; [done|]. split; [done|]. intros q Hq Hk. pose proof (Z.div_pos q b Hq Hb). rewrite bit_moved, Hget by lia. rewrite Hfin by done. pose proof (position_add q p Hp Hq) as Hs. rewrite decide_True in Hs by (pose proof (mod_b q); lia). destruct Hs as [-> ->].
    by rewrite E0, Z.add_0_r.
  - set (p' := p mod b) in *. set (f := fun k => Z.lor (Z.shiftr (moved_word r1 (Z.of_nat k)) p') (trunc N (Z.shiftl (moved_word r1 (Z.of_nat k + 1)) (b - p')))).
    assert (Hread : forall ws' k, length ws' = length r1 -> (k < words N)%nat -> ws' !! k = r1 !! k -> word ws' k = Ok (moved_word r1 (Z.of_nat k))).
    { intros ws' k Hl Hk Ej. destruct (word_ok ws' k) as (w & Ew & ->); [rewrite Hl, (wf_length _ H1); lia|]. unfold moved_word. rewrite decide_True, Nat2Z.id by lia. by rewrite <- Ej, Ew. }
    destruct (up_words_ok (shr_bits N p') f (words N) 0 r1) as (r & E & El & Hk); [rewrite (wf_length _ H1); lia| |].
    { intros ws' k Hl Hk Hj. unfold shr_bits, shr_word, f. rewrite (Hread ws' k) by (done || lia || (apply Hj; lia)). cbn [mbind res_bind]. destruct (Nat.eqb_spec (S k) (words N)) as [Elast|Hk0].
      - assert (E0 : moved_word r1 (Z.of_nat k + 1) = 0) by (unfold moved_word; rewrite decide_True by lia; by rewrite lookup_ge_None_2 by (rewrite (wf_length _ H1); lia)).
        rewrite E0, Z.shiftl_0_l. change (trunc N 0) with (0 mod 2 ^ kBitsPerWord N). by rewrite Zmod_0_l, Z.lor_0_r.
      - rewrite (Hread ws' (S k)) by (done || lia || (apply Hj; lia)). cbn [mbind res_bind]. by replace (Z.of_nat (S k)) with (Z.of_nat k + 1) by lia. }
    assert (Hfit : forall k, fits b (f k)) by (intros k; unfold f, trunc; apply lor_fits; [lia|apply shifted_fits; [by apply moved_word_fits|lia]|apply wrap_range; lia]).
    exists r. split; [done|]. split; [split; [by rewrite El, (wf_length _ H1)|intros i w Ei; rewrite Hk in Ei; destruct (decide _); [injection Ei as <-; apply Hfit|by apply (wf_fit _ H1 i)]]|].
    intros q Hq Hkq. unfold bit at 1. rewrite Hk, decide_True by lia. cbn [default from_option id]. pose proof (mod_b q) as Hmq. pose proof (Z.div_pos q b Hq Hb) as Hqb. rewrite Hfin by done.
    unfold f. rewrite shr_bit by (lia || by apply moved_word_fits). rewrite !Hget by lia. replace (Z.of_nat (Z.to_nat (q / b)) + 1 + p / b) with (q / b + p / b + 1) by lia. replace (Z.of_nat (Z.to_nat (q / b)) + p / b) with (q / b + p / b) by lia.
    pose proof (position_add q p Hp Hq) as Hs. fold p' in Hs. destruct (decide (q mod b + p' < b)); destruct Hs as [-> ->]; done.
Qed.

(** *** Counting *)

(** How many of [n] positions from [lo] on are set. *)
Fixpoint set_between (ws : list Z) (lo : Z) (n : nat) : Z := match n with O => 0 | S n => set_between ws lo n + Z.b2z (bit b ws (lo + Z.of_nat n)) end.

Lemma set_between_app ws lo n m : set_between ws lo (n + m) = set_between ws lo n + set_between ws (lo + Z.of_nat n) m.
Proof using Type.
  induction m as [|m IH]; [rewrite Nat.add_0_r; cbn; lia|]. replace (n + S m)%nat with (S (n + m)) by lia. cbn [set_between]. rewrite IH. replace (lo + Z.of_nat (n + m)) with (lo + Z.of_nat n + Z.of_nat m) by lia. lia.
Qed.

Lemma set_between_bounds ws lo n : 0 <= set_between ws lo n <= Z.of_nat n.
Proof using Type. induction n as [|n IH]; cbn [set_between]; [lia|]. destruct (bit b ws _); cbn [Z.b2z]; lia. Qed.

Lemma PopCount_word ws k w : wf ws -> ws !! k = Some w -> PopCount b w = set_between ws (b * Z.of_nat k) (Z.to_nat b).
Proof using Type.
  intros H Ek. pose proof b_pos as Hb. pose proof (wf_fit _ H _ _ Ek) as Hw. rewrite PopCount_ok by (done || (unfold width_ok; destruct b_cases; lia)). rewrite <- ones_from_sum.
  assert (Hg : forall n, Z.of_nat n <= b -> ones_from n w = set_between ws (b * Z.of_nat k) n); [|apply Hg; lia].
  induction n as [|n IH]; intros Hn; [done|]. rewrite ones_from_S, IH by lia. cbn [set_between]. do 2 f_equal. unfold bit. replace (b * Z.of_nat k + Z.of_nat n) with (Z.of_nat n + Z.of_nat k * b) by lia.
  rewrite Z_div_plus_full, Z_mod_plus_full, Z.div_small, Z.mod_small by lia. by rewrite Z.add_0_l, Nat2Z.id, Ek.
Qed.

(** The count is over all positions of the words. *)
Lemma CountSetBits_ok ws : wf ws -> b * Z.of_nat (words N) < 2 ^ 64 -> CountSetBits N ws = Ok (set_between ws 0 (Z.to_nat b * words N)).
Proof using Type.
  intros H Hsmall. pose proof b_pos as Hb. unfold CountSetBits.
  assert (Hg : forall n i c, (i + n = words N)%nat -> c = set_between ws 0 (Z.to_nat b * i) -> count_loop n i b ws c = Ok (set_between ws 0 (Z.to_nat b * words N))); [|by apply Hg; [|rewrite Nat.mul_0_r]].
  induction n as [|n IH]; intros i c Hi ->; cbn [count_loop]; [by replace i with (words N) by lia|]. destruct (word_ok ws i) as (w & Ew & ->); [rewrite (wf_length _ H); lia|]. cbn [mbind res_bind]. apply IH; [lia|].
  rewrite (PopCount_word ws i w H Ew). replace (Z.to_nat b * S i)%nat with (Z.to_nat b * i + Z.to_nat b)%nat by lia. rewrite set_between_app. replace (0 + Z.of_nat (Z.to_nat b * i)) with (b * Z.of_nat i) by lia.
  apply wrap_small. pose proof (set_between_bounds ws 0 (Z.to_nat b * i)). pose proof (set_between_bounds ws (b * Z.of_nat i) (Z.to_nat b)). unfold fits. nia.
Qed.


End BitSetSpec.


End BitSetSpec.

(** ** BetterBitSet and DynamicBitSet *)

Module BetterBitSetSpec.

Import Bitsets.BetterBitSet.

(** For more than 64 bits [BetterBitSet::operator[]] answers whether any position of the word at
    or above the asked one is set, because the mask with 1 is missing. *)
Theorem BetterBitSet_index N ws p w : 64 < N -> 0 <= p < N -> ws !! Z.to_nat (p / 64) = Some w -> fits 64 w ->
  exists r, at_ N ws p = Ok r /\ (r = true <-> exists j, p mod 64 <= j < 64 /\ Z.testbit w j = true).
Proof.
  intros HN Hp Ew Hw. unfold at_. rewrite (proj2 (Z.ltb_lt p N)), (proj2 (Z.ltb_lt 64 N)) by lia. cbn [dcheck mbind res_bind]. unfold word. rewrite Ew. cbn [mbind res_bind]. eexists. split; [done|].
  pose proof (Z.mod_pos_bound p 64 ltac:(lia)) as Hm. rewrite negb_true_iff, Z.eqb_neq. split.
  - intros Hne. destruct (Z.eq_dec (Z.shiftr w (p mod 64)) 0) as [|H0]; [done|]. set (v := Z.shiftr w (p mod 64)) in *.
    assert (Hv : 0 < v) by (assert (0 <= v) by (apply Z.shiftr_nonneg; destruct Hw; lia); lia). exists (Z.log2 v + p mod 64). pose proof (Z.log2_nonneg v). assert (Ht : Z.testbit w (Z.log2 v + p mod 64) = true) by (rewrite <- Z.shiftr_spec by lia; by apply Z.bit_log2).
    split; [|done]. split; [lia|]. destruct (Z.lt_ge_cases (Z.log2 v + p mod 64) 64); [done|]. by rewrite (testbit_high w 64) in Ht by (done || lia).
  - intros (j & Hj & Ht) E. apply (f_equal (fun z => Z.testbit z (j - p mod 64))) in E. rewrite Z.shiftr_spec, Z.bits_0 in E by lia. replace (j - p mod 64 + p mod 64) with j in E by lia. congruence.
Qed.

(** Position 0 of a set whose only element is 5 reads as set. *)
Lemma BetterBitSet_index_witness : exists r, at_ 100 [32; 0] 0 = Ok r /\ r = true.
Proof.
  destruct (BetterBitSet_index 100 [32; 0] 0 32 ltac:(lia) ltac:(lia) eq_refl) as (r & E & Hr); [vm_compute; split; [intros E; discriminate E|reflexivity]|].
  exists r. split; [exact E|]. apply Hr. exists 5. split; [vm_compute; split; [intros E'; discriminate E'|reflexivity]|reflexivity].
Defined.

(** [operator|=] of 64 bits takes over position 0 only. *)
Lemma or_assign_64 w v : fits 64 w -> fits 64 v -> or_assign 64 [w] [v] = Ok [if Z.testbit w 0 || Z.testbit v 0 then Z.lor w 1 else Z.land w (2 ^ 64 - 2)].
Proof.
  intros Hw Hv. unfold or_assign. change (kWords 64) with 1%nat. cbn [or_loop]. unfold at_, word. cbn [dcheck mbind res_bind Z.ltb Z.compare list_lookup lookup]. rewrite !Z.shiftr_0_r.
  assert (Hb : forall x, negb (Z.land x 1 =? 0) = Z.testbit x 0).
  { intros x. change 1 with (Z.ones 1). rewrite Z.land_ones by lia. rewrite Z.bit0_odd, Zmod_odd. by destruct (Z.odd x). }
  rewrite !Hb. unfold Set_, reset_pos. change (0 <? 64) with true. cbn [dcheck mbind res_bind]. change (64 <? 64) with false. unfold word. cbn [list_lookup lookup]. 
  assert (E1 : set_word [w] 0 (Z.lor w (trunc 64 (u64 (Z.shiftl 1 0)))) = Ok [Z.lor w 1]) by done.
  assert (E2 : set_word [w] 0 (trunc 64 (Z.land w (Z.land (u64 (Z.lnot (u64 (Z.shiftl 1 0)))) (kLastMask 64)))) = Ok [Z.land w (2 ^ 64 - 2)]).
  { unfold set_word. cbn [length Nat.ltb Nat.leb]. f_equal. unfold trunc. change (width 64) with 64. change (Z.land (u64 (Z.lnot (u64 (Z.shiftl 1 0)))) (kLastMask 64)) with (2 ^ 64 - 2). rewrite wrap_small; [done|]. apply land_fits; [lia|done]. }
  destruct (Z.testbit w 0), (Z.testbit v 0); cbn [orb negb mbind res_bind]; rewrite ?E1, ?E2; done.
Qed.

End BetterBitSetSpec.

Module DynamicBitSetSpec.

Import Bitsets.DynamicBitSet.

(** [operator^=] combines word 1 with both words of the other set. *)
Example xor_assign_wrong : exists s, xor_assign (mkDynamic [0; 0] 128 (2 ^ 64 - 1)) (mkDynamic [1; 4] 128 (2 ^ 64 - 1)) = Ok s /\ vector_ s = [1; 5].
Proof. eexists. split; [vm_compute; reflexivity|reflexivity]. Qed.

(** One bit at a time the class is right. *)
Lemma Dynamic_Set_ok s p v w : 64 < bit_count_ s -> 0 <= p < bit_count_ s -> vector_ s !! Z.to_nat (p / 64) = Some w -> v = true ->
  exists s', Set_ s p v = Ok s' /\ bit_count_ s' = bit_count_ s /\ forall q, 0 <= q < bit_count_ s -> is_Some (vector_ s !! Z.to_nat (q / 64)) ->
    at_ s' q = if decide (q = p) then Ok true else at_ s q.
Proof.
  intros H64 Hp Ew ->. unfold Set_. cbn [negb]. rewrite (proj2 (Z.ltb_lt 64 _)) by lia. unfold word. rewrite Ew. cbn [mbind res_bind]. rewrite set_word_ok by (by eapply lookup_lt_Some). cbn [mbind res_bind].
  eexists. split; [done|]. split; [done|]. intros q Hq [x Ex]. unfold at_. cbn [with_words bit_count_ vector_]. rewrite (proj2 (Z.ltb_lt q _)) by lia. cbn [dcheck mbind res_bind]. unfold word.
  pose proof (Z.mod_pos_bound p 64 ltac:(lia)). pose proof (Z.mod_pos_bound q 64 ltac:(lia)).
  assert (Hb : forall z k, 0 <= k -> negb (Z.land (Z.shiftr z k) 1 =? 0) = Z.testbit z k).
  { intros z k Hk. change 1 with (Z.ones 1). rewrite Z.land_ones by lia. rewrite <- (Z.add_0_l k) at 2. rewrite <- Z.shiftr_spec by lia. rewrite Z.bit0_odd, Zmod_odd. by destruct (Z.odd _). }
  destruct (decide (Z.to_nat (q / 64) = Z.to_nat (p / 64))) as [E|E].
  - rewrite E, list_lookup_insert_eq by (by eapply lookup_lt_Some). rewrite Ew. cbn [mbind res_bind]. rewrite !Hb by lia. rewrite Z.lor_spec, Z.shiftl_1_l.
    destruct (decide (q = p)) as [->|Hne]; [by rewrite Z.pow2_bits_true, orb_true_r by lia|]. rewrite Z.pow2_bits_false by (intros Em; apply Hne; pose proof (Z_div_mod_eq_full p 64); pose proof (Z_div_mod_eq_full q 64); pose proof (Z.div_pos p 64 ltac:(lia) ltac:(lia)); pose proof (Z.div_pos q 64 ltac:(lia) ltac:(lia)); lia).
    by rewrite orb_false_r.
  - rewrite list_lookup_insert_ne by done. rewrite Ex. by rewrite decide_False by congruence.
Qed.

End DynamicBitSetSpec.

