(* ===== verification/SpinningMutex.v ===== *)
(** * base::SpinningMutex (threading/spinning_mutex.h, spinning_mutex.cc)

    The futex implementation.  Threads take steps in any order; a step is one access to
    [state_] or one entry into the kernel, and a thread between two steps is described by the
    place it stands at.  A wait compares and sleeps in one step, as a futex does, and may
    return for no reason; a wake ends the sleep of one thread if any sleeps; a weak
    compare-and-exchange may fail for no reason. *)

From stdpp Require Import gmap.
From S2P Require Import Prelude Memory.

Set Default Proof Using "Type".
#[local] Open Scope Z_scope.

Definition kUnlocked : Z := 0.
Definition kLockedUncontended : Z := 1.
Definition kLockedContended : Z := 2.
Definition kSpinCount : Z := 64.
Definition kMaxBackoff : Z := 16.

(** Who called [Try]: [try_lock], the fast path of [Acquire], or the spinning loop. *)
Inductive caller := TryLock | Fast | Spin (tries backoff : Z).

(** Where a thread stands: outside, before the load and before the exchange of [Try], before
    the exchange of [LockSlow], before the comparison of the wait, asleep in it, inside the
    critical section, and between the exchange of [Release] and the wake. *)
Inductive place :=
  | Outside | TryLoad (c : caller) | TryExchange (c : caller) | SlowExchange | Wait | Asleep | Inside | Wake.

#[export] Instance caller_eq_dec : EqDecision caller.
Proof. solve_decision. Defined.
#[export] Instance place_eq_dec : EqDecision place.
Proof. solve_decision. Defined.

Record Sys := mkSys { state_ : Z; places : gmap nat place }.

Definition place_of (s : Sys) (t : nat) : place := default Outside (places s !! t).
Definition goto (s : Sys) (t : nat) (p : place) : Sys := mkSys (state_ s) (<[t := p]> (places s)).
Definition store (s : Sys) (z : Z) : Sys := mkSys z (places s).

(** The inner loop of [AcquireSpinThenBlock] pauses [backoff] times; then the backoff doubles
    up to its maximum. *)
Definition spin_on (tries backoff : Z) : place :=
  let tries := tries + backoff in
  let backoff := Z.min kMaxBackoff (Z.shiftl backoff 1) in
  if tries <? kSpinCount then TryLoad (Spin tries backoff) else SlowExchange.

(** [AcquireSpinThenBlock] begins with [tries = 0] and [backoff = 1]. *)
Definition AcquireSpinThenBlock : place := TryLoad (Spin 0 1).

(** Where a failed [Try] leads. *)
Definition try_failed (c : caller) : place :=
  match c with TryLock => Outside | Fast => AcquireSpinThenBlock | Spin tries backoff => spin_on tries backoff end.

(** What the environment decides: the call of a thread outside, whether a weak exchange fails,
    whether a sleep ends for no reason, and whom a wake reaches. *)
Inductive choice := CallAcquire | CallTry | CallRelease | Go | Spurious | WakeOne (u : nat).

#[export] Instance choice_eq_dec : EqDecision choice.
Proof. solve_decision. Defined.

(** [Reinit] is [Release]. *)
Definition Reinit : choice := CallRelease.

(** [Try]: the load, then the weak exchange. *)
Definition Try_load (s : Sys) (t : nat) (c : caller) : Sys := goto s t (if state_ s =? kUnlocked then TryExchange c else try_failed c).
Definition Try_exchange (s : Sys) (t : nat) (c : caller) : Sys :=
  if state_ s =? kUnlocked then goto (store s kLockedUncontended) t Inside else goto s t (try_failed c).

(** One turn of [LockSlow]: the exchange, then the wait. *)
Definition LockSlow_exchange (s : Sys) (t : nat) : Sys := goto (store s kLockedContended) t (if state_ s =? kUnlocked then Inside else Wait).
Definition FutexWait (s : Sys) (t : nat) : Sys := goto s t (if state_ s =? kLockedContended then Asleep else SlowExchange).

(** [Release]: the exchange, then the wake of [u] or of nobody. *)
Definition Release_exchange (s : Sys) (t : nat) : Sys := goto (store s kUnlocked) t (if state_ s =? kLockedContended then Wake else Outside).
Definition FutexWake (s : Sys) (t u : nat) : option Sys := if decide (place_of s u = Asleep) then Some (goto (goto s t Outside) u SlowExchange) else None.
Definition FutexWake_nobody (s : Sys) (t : nat) : option Sys := if decide (map_Forall (fun _ p => p <> Asleep) (places s)) then Some (goto s t Outside) else None.

(** [None] where the choice does not apply. *)
Definition step (s : Sys) (t : nat) (c : choice) : option Sys :=
  match place_of s t, c with
  | Outside, CallAcquire => Some (goto s t (TryLoad Fast))
  | Outside, CallTry => Some (goto s t (TryLoad TryLock))
  | TryLoad c, Go => Some (Try_load s t c)
  | TryExchange c, Go => Some (Try_exchange s t c)
  | TryExchange c, Spurious => Some (goto s t (try_failed c))
  | SlowExchange, Go => Some (LockSlow_exchange s t)
  | Wait, Go => Some (FutexWait s t)
  | Asleep, Spurious => Some (goto s t SlowExchange)
  | Inside, CallRelease => Some (Release_exchange s t)
  | Wake, WakeOne u => FutexWake s t u
  | Wake, Go => FutexWake_nobody s t
  | _, _ => None
  end.

Fixpoint run_steps (s : Sys) (ms : list (nat * choice)) : option Sys :=
  match ms with [] => Some s | (t, c) :: ms => s ← step s t c; run_steps s ms end.

Definition start : Sys := mkSys kUnlocked ∅.

(** ** Invariant *)

Implicit Types (z : Z) (P : nat -> place).

Record inv z P : Prop := {
  i_state : z = kUnlocked \/ z = kLockedUncontended \/ z = kLockedContended;
  i_excl : forall t u, P t = Inside -> P u = Inside -> t = u;
  i_held : z <> kUnlocked -> exists t, P t = Inside;
  i_free : z = kUnlocked -> forall t, P t <> Inside;
  (** Whoever sleeps is remembered in [state_] or by a thread that is about to act. *)
  i_sleep : forall t, P t = Asleep -> z = kLockedContended \/ exists u, P u = Wake \/ P u = SlowExchange;
}.

Definition move P (t : nat) (p : place) : nat -> place := fun u => if decide (u = t) then p else P u.

Lemma place_goto s t p u : place_of (goto s t p) u = move (place_of s) t p u.
Proof. unfold place_of, goto, move. cbn. case_decide as E; [subst; by rewrite lookup_insert_eq|by rewrite lookup_insert_ne]. Qed.

Lemma inv_places z P P' : (forall u, P u = P' u) -> inv z P -> inv z P'.
Proof.
  intros E [H1 H2 H3 H4 H5]. split; [done|intros t u; rewrite <- !E; apply H2|intros Hz; destruct (H3 Hz) as [t Ht]; exists t; by rewrite <- E|intros Hz t; rewrite <- E; by apply H4|].
  intros t. rewrite <- E. intros Ht. destruct (H5 t Ht) as [?|[u Hu]]; [by left|right; exists u; by rewrite <- E].
Qed.

Ltac moved := unfold move in *; repeat case_decide; subst; try done; try congruence.

(** A thread that does not hold the lock and owes no wake goes somewhere it does neither. *)
Lemma inv_local z P t p : inv z P -> P t <> Inside -> P t <> Wake -> P t <> SlowExchange -> p <> Inside -> p <> Asleep -> inv z (move P t p).
Proof.
  intros [H1 H2 H3 H4 H5] N1 N2 N3 N4 N5. split; [done| | | |].
  - intros a b. moved. apply H2.
  - intros Hz. destruct (H3 Hz) as [a Ha]. exists a. moved.
  - intros Hz a. moved. by apply H4.
  - intros a. moved. intros Ha. destruct (H5 a Ha) as [?|[u Hu]]; [by left|right; exists u; moved]. destruct Hu; congruence.
Qed.

(** The lock is taken. *)
Lemma inv_lock z P t z' : inv z P -> z = kUnlocked -> z' = kLockedContended \/ z' = kLockedUncontended /\ P t <> SlowExchange -> P t <> Wake -> inv z' (move P t Inside).
Proof.
  intros [H1 H2 H3 H4 H5] -> Hz' N. assert (N0 : z' <> kUnlocked) by (destruct Hz' as [-> | [-> _]]; done). split.
  - destruct Hz' as [-> | [-> _]]; auto.
  - intros a b. moved; intros Ha Hb; exfalso; by eapply H4.
  - intros _. exists t. moved.
  - done.
  - intros a. moved. intros Ha. destruct Hz' as [-> | [-> Nt]]; [by left|]. right. destruct (H5 a Ha) as [?|[u Hu]]; [done|]. exists u. moved. destruct Hu; congruence.
Qed.

(** The exchange of [LockSlow] marks a held lock as contended. *)
Lemma inv_mark z P t : inv z P -> z <> kUnlocked -> P t = SlowExchange -> inv kLockedContended (move P t Wait).
Proof.
  intros [H1 H2 H3 H4 H5] Hz Ht. split; [auto| | |done|by left].
  - intros a b. moved. apply H2.
  - intros _. destruct (H3 Hz) as [a Ha]. exists a. moved.
Qed.

Lemma inv_sleep P t : inv kLockedContended P -> P t = Wait -> inv kLockedContended (move P t Asleep).
Proof.
  intros [H1 H2 H3 H4 H5] Ht. split; [auto| | |done|by left].
  - intros a b. moved. apply H2.
  - intros _. destruct (H3 ltac:(done)) as [a Ha]. exists a. moved.
Qed.

Lemma inv_release z P t : inv z P -> P t = Inside -> inv kUnlocked (move P t (if z =? kLockedContended then Wake else Outside)).
Proof.
  intros [H1 H2 H3 H4 H5] Ht. split; [auto| |done| |].
  - intros a b. destruct (z =? kLockedContended); moved; intros; exfalso; eauto.
  - intros _ a. destruct (z =? kLockedContended); moved; intros Ha; pose proof (H2 _ _ Ha Ht); congruence.
  - intros a Ha. right. destruct (Z.eqb_spec z kLockedContended) as [E|E].
    + exists t. left. moved.
    + assert (Ha' : P a = Asleep) by (revert Ha; moved). destruct (H5 a Ha') as [?|[u Hu]]; [done|]. exists u. moved. destruct Hu; congruence.
Qed.

Lemma inv_wake z P t u : inv z P -> P t = Wake -> P u = Asleep -> inv z (move (move P t Outside) u SlowExchange).
Proof.
  intros [H1 H2 H3 H4 H5] Ht Hu. split; [done| | | |].
  - intros a b. moved; apply H2.
  - intros Hz. destruct (H3 Hz) as [a Ha]. exists a. moved.
  - intros Hz a. moved. by apply H4.
  - intros a _. right. exists u. right. moved.
Qed.

Lemma inv_wake_nobody z P t : inv z P -> P t = Wake -> (forall u, P u <> Asleep) -> inv z (move P t Outside).
Proof.
  intros [H1 H2 H3 H4 H5] Ht Hn. split; [done| | | |].
  - intros a b. moved. apply H2.
  - intros Hz. destruct (H3 Hz) as [a Ha]. exists a. moved.
  - intros Hz a. moved. by apply H4.
  - intros a. moved.
Qed.

Definition sys_inv (s : Sys) : Prop := inv (state_ s) (place_of s).

Lemma spin_place tries backoff : spin_on tries backoff = SlowExchange \/ exists c, spin_on tries backoff = TryLoad c.
Proof. unfold spin_on. destruct (_ <? _); eauto. Qed.

Lemma try_failed_place c : try_failed c = Outside \/ try_failed c = SlowExchange \/ exists c', try_failed c = TryLoad c'.
Proof. destruct c as [| |tries backoff]; cbn; [auto|unfold AcquireSpinThenBlock; eauto|]. destruct (spin_place tries backoff) as [-> | [c ->]]; eauto. Qed.

Lemma step_inv s t c s' : sys_inv s -> step s t c = Some s' -> sys_inv s'.
Proof.
  unfold sys_inv, step, Try_load, Try_exchange, LockSlow_exchange, FutexWait, Release_exchange, FutexWake, FutexWake_nobody. intros H. pose proof (fun p => inv_local _ _ t p H) as Hl.
  assert (Hg : forall z p, inv z (move (place_of s) t p) -> inv (state_ (goto (store s z) t p)) (place_of (goto (store s z) t p))) by (intros z p; apply inv_places; intros u; symmetry; apply (place_goto (store s z))).
  assert (Hg0 : forall p, inv (state_ s) (move (place_of s) t p) -> inv (state_ (goto s t p)) (place_of (goto s t p))) by (intros p; apply (Hg (state_ s) p)).
  assert (Hfail : forall cl, place_of s t = TryLoad cl \/ place_of s t = TryExchange cl -> inv (state_ s) (move (place_of s) t (try_failed cl))).
  { intros cl [E|E]; apply Hl; rewrite ?E; try done; destruct (try_failed_place cl) as [-> | [-> | [c' ->]]]; done. }
  destruct (place_of s t) eqn:E; destruct c; try done; try (intros [= <-]).
  - apply Hg0, Hl; done.
  - apply Hg0, Hl; done.
  - destruct (state_ s =? kUnlocked); [apply Hg0, Hl; done|apply Hg0, Hfail; auto].
  - destruct (Z.eqb_spec (state_ s) kUnlocked) as [Ez|Ez]; [apply Hg; eapply inv_lock; eauto; [right; split; [done|congruence]|congruence]|apply Hg0, Hfail; auto].
  - apply Hg0, Hfail. auto.
  - destruct (Z.eqb_spec (state_ s) kUnlocked) as [Ez|Ez]; apply Hg; [eapply inv_lock; eauto; congruence|by eapply inv_mark].
  - destruct (Z.eqb_spec (state_ s) kLockedContended) as [Ez|Ez]; apply Hg0; [rewrite Ez in *; by apply inv_sleep|].
    apply Hl; done.
  - apply Hg0, Hl; done.
  - apply Hg. by apply inv_release.
  - case_decide as Hm; [|done]. intros [= <-]. apply Hg0, inv_wake_nobody; try done. intros u Hu. unfold place_of in Hu. destruct (places s !! u) as [p|] eqn:Eu; [|done]. cbn in Hu. by apply (Hm u p Eu).
  - case_decide as Hu; [|done]. intros [= <-]. eapply inv_places; [|apply (inv_wake _ _ t u H E Hu)].
    intros a. rewrite (place_goto (goto s t Outside)). unfold move at 1 3. case_decide; [done|]. symmetry. apply place_goto.
Qed.

Lemma start_inv : sys_inv start.
Proof. split; unfold start, place_of; cbn; auto; try done; intros t; rewrite lookup_empty; done. Qed.

Lemma run_steps_inv s ms s' : sys_inv s -> run_steps s ms = Some s' -> sys_inv s'.
Proof.
  revert s. induction ms as [|[t c] ms IH]; intros s H; cbn [run_steps]; [by intros [= <-]|].
  destruct (step s t c) as [s1|] eqn:E; [|done]. cbn. apply IH. by eapply step_inv.
Qed.

(** What the threads of a program can bring about. *)
Definition reachable (s : Sys) : Prop := exists ms, run_steps start ms = Some s.

Lemma reachable_inv s : reachable s -> sys_inv s.
Proof. intros [ms H]. exact (run_steps_inv _ _ _ start_inv H). Qed.

(** C24. At most one thread is inside the critical section, and the lock word is 0 exactly when
    none is. *)
Theorem SpinningMutex_exclusive s : reachable s ->
  (forall t u, place_of s t = Inside -> place_of s u = Inside -> t = u) /\
  (state_ s = kUnlocked <-> forall t, place_of s t <> Inside).
Proof.
  intros [H1 H2 H3 H4 H5]%reachable_inv. split; [done|]. split; [apply H4|]. intros Hn.
  destruct (Z.eq_dec (state_ s) kUnlocked) as [|Hz]; [done|]. destruct (H3 Hz) as [t Ht]. by destruct (Hn t).
Qed.

(** Thread 1 meets a held lock, spins until it sleeps, and is woken into the critical section. *)
Definition contended_run : list (nat * choice) :=
  [(0%nat, CallAcquire); (0%nat, Go); (0%nat, Go); (1%nat, CallAcquire); (1%nat, Go)] ++ repeat (1%nat, Go) 8 ++ [(1%nat, Go); (1%nat, Go)].

Definition after (s : Sys) (ms : list (nat * choice)) : Sys := default s (run_steps s ms).

Lemma SpinningMutex_exclusive_witness : let s := after start contended_run in
  reachable s /\ place_of s 0 = Inside /\ place_of s 1 = Asleep /\ state_ s <> kUnlocked.
Proof.
  intros s. assert (H : reachable s) by (exists contended_run; reflexivity).
  split; [exact H|]. split; [reflexivity|]. split; [reflexivity|]. intros E. exact (proj1 (proj2 (SpinningMutex_exclusive s H)) E 0%nat eq_refl).
Defined.

(** ** No thread sleeps forever *)

Definition can_enter (s : Sys) (t : nat) : Prop := exists ms s', run_steps s ms = Some s' /\ place_of s' t = Inside.

Lemma can_step s u c s1 t : step s u c = Some s1 -> can_enter s1 t -> can_enter s t.
Proof. intros E (ms & s' & H & Hp). exists ((u, c) :: ms), s'. split; [|done]. cbn. by rewrite E. Qed.

Lemma can_slow s t : state_ s = kUnlocked -> place_of s t = SlowExchange -> can_enter s t.
Proof.
  intros Hz Ht. eapply (can_step s t Go); [unfold step, LockSlow_exchange; by rewrite Ht, Hz|]. eexists [], _. split; [done|]. rewrite place_goto. moved.
Qed.

Lemma can_wake s u t : state_ s = kUnlocked -> place_of s u = Wake -> place_of s t = Asleep -> can_enter s t.
Proof.
  intros Hz Hu Ht. eapply (can_step s u (WakeOne t)); [unfold step, FutexWake; rewrite Hu; by rewrite decide_True|].
  apply can_slow; [done|]. rewrite place_goto. moved.
Qed.

Lemma can_release s h t : state_ s = kLockedContended -> place_of s h = Inside -> place_of s t = Asleep -> can_enter s t.
Proof.
  intros Hz Hh Ht. eapply (can_step s h CallRelease); [unfold step, Release_exchange; by rewrite Hh, Hz|].
  apply (can_wake _ h); [done| |]; rewrite place_goto; moved.
Qed.

(** The thread before the exchange takes the lock and passes it on. *)
Lemma can_pass s u t : state_ s = kUnlocked -> place_of s u = SlowExchange -> place_of s t = Asleep -> can_enter s t.
Proof.
  intros Hz Hu Ht. eapply (can_step s u Go); [unfold step, LockSlow_exchange; by rewrite Hu, Hz|].
  apply (can_release _ u); [done| |]; rewrite place_goto; moved.
Qed.

Lemma can_unlocked s u t : state_ s = kUnlocked -> place_of s u = Wake \/ place_of s u = SlowExchange -> place_of s t = Asleep -> can_enter s t.
Proof. intros Hz [Hu|Hu] Ht; [by eapply can_wake|by eapply can_pass]. Qed.

(** C25. No wake is lost: whenever a thread sleeps some other thread is inside the critical
    section, about to wake a sleeper or about to try the lock again, and from there the sleeper
    can always be brought into the critical section. *)
Theorem SpinningMutex_wakes s t : reachable s -> place_of s t = Asleep ->
  (exists u, place_of s u = Inside \/ place_of s u = Wake \/ place_of s u = SlowExchange) /\ can_enter s t.
Proof.
  intros H%reachable_inv Ht. pose proof H as [H1 H2 H3 H4 H5]. destruct (Z.eq_dec (state_ s) kUnlocked) as [Hz|Hz].
  - destruct (H5 t Ht) as [E|[u Hu]]; [by rewrite Hz in E|]. split; [exists u; tauto|by eapply can_unlocked].
  - destruct (H3 Hz) as [h Hh]. split; [eauto|]. destruct H1 as [?|[E|E]]; [done| |by eapply can_release].
    destruct (H5 t Ht) as [E'|[u Hu]]; [rewrite E in E'; discriminate|].
    eapply (can_step s h CallRelease); [unfold step, Release_exchange; by rewrite Hh, E|]. apply (can_unlocked _ u); [done| |rewrite place_goto; moved].
    rewrite !place_goto. unfold move. case_decide; [subst; destruct Hu; congruence|exact Hu].
Qed.

Lemma SpinningMutex_wakes_witness : let s := after start contended_run in reachable s /\ place_of s 1 = Asleep /\ can_enter s 1.
Proof.
  intros s. assert (H : reachable s) by (exists contended_run; reflexivity). split; [exact H|]. split; [reflexivity|].
  exact (proj2 (SpinningMutex_wakes s 1 H eq_refl)).
Defined.

(** ** Spinning ends *)

Fixpoint spins (n : nat) (p : place) : place :=
  match n, p with S n, TryLoad (Spin tries backoff) => spins n (spin_on tries backoff) | _, _ => p end.

(** After eight failed attempts [Acquire] goes into the kernel. *)
Lemma spin_bound : spins 8 AcquireSpinThenBlock = SlowExchange /\ spins 7 AcquireSpinThenBlock <> SlowExchange.
Proof. by vm_compute. Qed.
