(* ===== verification/Interleaving.v ===== *)
(** * Programs over shared memory

    The lock-free containers are sequences of atomic accesses to a shared state.  A [prog] is
    such a sequence with what the thread does after each answer; it runs alone with [run], and
    with others, one access of one thread at a time, with [interleave].  [Halt] ends a loop
    whose bound is used up: such a thread takes no further steps.

    The second part is a small rely-guarantee logic: [guards t p P Q] says that thread [t]
    running [p] from a state its local assertion [P] holds of keeps the invariant of the
    shared state, moves it only as its guarantee allows, and ends with [Q]. *)

From S2P Require Import Prelude Memory.

Set Default Proof Using "Type".

Section Programs.

Context {S : Type}.

Inductive prog (A : Type) : Type :=
  | Ret (a : A)
  | Step {R : Type} (f : S -> res (S * R)) (k : R -> prog A)
  | Halt.

#[global] Arguments Ret {A} a.
#[global] Arguments Step {A R} f k.
#[global] Arguments Halt {A}.

#[export] Instance prog_ret : MRet prog := fun _ a => Ret a.

#[export] Instance prog_bind : MBind prog := fun A B g =>
  fix bind (p : prog A) : prog B :=
    match p with Ret a => g a | Step f k => Step f (fun r => bind (k r)) | Halt => Halt end.

(** One access, a read, and a write that reads nothing. *)
Definition act {R} (f : S -> res (S * R)) : prog R := Step f (fun r => Ret r).
Definition get {R} (f : S -> res R) : prog R := act (fun s => r ← f s; Ok (s, r)).
Definition put (f : S -> res S) : prog () := act (fun s => s ← f s; Ok (s, ())).

(** [while (true)]: [inl] goes round again, [inr] leaves the loop. *)
Fixpoint forever {L A} (fuel : nat) (body : L -> prog (L + A)) (l : L) : prog A :=
  match fuel with
  | O => Halt
  | Datatypes.S fuel => r ← body l; match r with inl l => forever fuel body l | inr a => Ret a end
  end.

(** ** One thread *)

Fixpoint run {A} (p : prog A) (s : S) : res (S * A) :=
  match p with
  | Ret a => Ok (s, a)
  | Step f k => '(s, r) ← f s; run (k r) s
  | Halt => Undef
  end.

Lemma run_bind {A B} (p : prog A) (g : A -> prog B) s : run (p ≫= g) s = ('(s, a) ← run p s; run (g a) s).
Proof. revert s. induction p as [a|R f k IH|]; intros s; cbn; [done| |done]. destruct (f s) as [[s' r]| |]; cbn; [apply IH|done|done]. Qed.

Lemma run_bind_ok {A B} (p : prog A) (g : A -> prog B) s s' a : run p s = Ok (s', a) -> run (p ≫= g) s = run (g a) s'.
Proof. intros E. by rewrite run_bind, E. Qed.

Lemma run_act {R} (f : S -> res (S * R)) s : run (act f) s = f s.
Proof. unfold act. cbn. by destruct (f s) as [[s' r]| |]. Qed.

Lemma run_get {R} (f : S -> res R) s : run (get f) s = (r ← f s; Ok (s, r)).
Proof. unfold get. by rewrite run_act. Qed.

Lemma run_put (f : S -> res S) s : run (put f) s = (s ← f s; Ok (s, ())).
Proof. unfold put. by rewrite run_act. Qed.

(** A loop is done when its body leaves it. *)
Lemma run_forever {L A} fuel (body : L -> prog (L + A)) l s s' r : run (body l) s = Ok (s', r) ->
  run (forever (Datatypes.S fuel) body l) s = match r with inl l => run (forever fuel body l) s' | inr a => Ok (s', a) end.
Proof. intros E. cbn [forever]. rewrite (run_bind_ok _ _ _ _ _ E). by destruct r. Qed.

(** ** Many threads *)

Section Threads.

Context {A : Type}.

(** Thread [i] takes its next access; a thread that has returned or halted takes none. *)
Definition step_thread (s : S) (ps : list (prog A)) (i : nat) : res (S * list (prog A)) :=
  match ps !! i with
  | Some (Step f k) => '(s, r) ← f s; Ok (s, <[i := k r]> ps)
  | _ => Ok (s, ps)
  end.

Fixpoint interleave (schedule : list nat) (s : S) (ps : list (prog A)) : res (S * list (prog A)) :=
  match schedule with
  | [] => Ok (s, ps)
  | i :: schedule => '(s, ps) ← step_thread s ps i; interleave schedule s ps
  end.

(** ** Rely and guarantee *)

Context (I : S -> Prop) (G : nat -> S -> S -> Prop).

Definition stable (t : nat) (P : S -> Prop) : Prop := forall u s s', u <> t -> I s -> P s -> G u s s' -> I s' -> P s'.

Fixpoint guards (t : nat) (p : prog A) (P : S -> Prop) (Q : A -> S -> Prop) : Prop :=
  match p with
  | Ret a => forall s, I s -> P s -> Q a s
  | Step f k => exists P' : _ -> S -> Prop, (forall r, stable t (P' r)) /\ (forall r, guards t (k r) (P' r) Q) /\
      forall s, I s -> P s -> exists s' r, f s = Ok (s', r) /\ I s' /\ G t s s' /\ P' r s'
  | Halt => True
  end.

(** Every thread is where its program says, with an assertion the others respect. *)
Definition all_guard (s : S) (ps : list (prog A)) (Q : nat -> A -> S -> Prop) : Prop :=
  I s /\ forall t p, ps !! t = Some p -> exists P, stable t P /\ P s /\ guards t p P (Q t).

Lemma step_thread_sound s ps Q i : all_guard s ps Q -> exists s' ps', step_thread s ps i = Ok (s', ps') /\ all_guard s' ps' Q.
Proof.
  intros [HI Hall]. unfold step_thread. destruct (ps !! i) as [p|] eqn:Ei; [|by exists s, ps]. destruct p as [a|R f k|]; [by exists s, ps| |by exists s, ps].
  destruct (Hall i _ Ei) as (P & _ & HP & P' & Hst & Hk & Hf). destruct (Hf s HI HP) as (s' & r & -> & HI' & HG & HP').
  exists s', (<[i := k r]> ps). split; [done|]. split; [done|]. intros t p Ht. destruct (decide (t = i)) as [->|Hne].
  - rewrite list_lookup_insert_eq in Ht by by eapply lookup_lt_Some. injection Ht as <-. exists (P' r). eauto.
  - rewrite list_lookup_insert_ne in Ht by done. destruct (Hall t p Ht) as (Pt & Hs & HPt & Hg). exists Pt. split; [done|]. split; [|done]. exact (Hs i s s' ltac:(done) HI HPt HG HI').
Qed.

(** Whatever the schedule, no access is undefined and the invariant holds. *)
Lemma interleave_sound schedule s ps Q : all_guard s ps Q -> exists s' ps', interleave schedule s ps = Ok (s', ps') /\ all_guard s' ps' Q.
Proof.
  revert s ps. induction schedule as [|i l IH]; intros s ps H; [by exists s, ps|]. cbn [interleave].
  destruct (step_thread_sound s ps Q i H) as (s1 & ps1 & -> & H1). cbn. by apply IH.
Qed.

End Threads.

(** The rules of the logic. *)

Context (I : S -> Prop) (G : nat -> S -> S -> Prop) (t : nat).

Lemma guards_weaken {A} (p : prog A) (P P2 : S -> Prop) (Q : A -> S -> Prop) : (forall s, I s -> P2 s -> P s) -> guards I G t p P Q -> guards I G t p P2 Q.
Proof. destruct p as [a|R f k|]; cbn; [by eauto| |done]. intros H (P' & H1 & H2 & H3). exists P'. eauto. Qed.

Lemma guards_conseq {A} (p : prog A) P (Q Q2 : A -> S -> Prop) : (forall a s, I s -> Q a s -> Q2 a s) -> guards I G t p P Q -> guards I G t p P Q2.
Proof. intros H. revert P. induction p as [a|R f k IH|]; intros P; cbn; [by eauto| |done]. intros (P' & H1 & H2 & H3). exists P'. eauto. Qed.

Lemma guards_bind {A B} (p : prog A) (g : A -> prog B) P (Q : A -> S -> Prop) R :
  guards I G t p P Q -> (forall a, guards I G t (g a) (Q a) R) -> guards I G t (p ≫= g) P R.
Proof.
  intros Hp Hg. revert P Hp. induction p as [a|R' f k IH|]; intros P; cbn; [|intros (P' & H1 & H2 & H3); exists P'; eauto|done].
  intros H. eapply guards_weaken; [|apply Hg]. eauto.
Qed.

Lemma guards_act {R} (f : S -> res (S * R)) (P : S -> Prop) (Q : R -> S -> Prop) : (forall r, stable I G t (Q r)) ->
  (forall s, I s -> P s -> exists s' r, f s = Ok (s', r) /\ I s' /\ G t s s' /\ Q r s') -> guards I G t (act f) P Q.
Proof. intros H1 H2. exists Q. cbn. eauto. Qed.

Lemma guards_get {R} (f : S -> res R) (P : S -> Prop) (Q : R -> S -> Prop) : (forall s, G t s s) -> (forall r, stable I G t (Q r)) ->
  (forall s, I s -> P s -> exists r, f s = Ok r /\ Q r s) -> guards I G t (get f) P Q.
Proof. intros Hr H1 H2. apply guards_act; [done|]. intros s HI HP. destruct (H2 s HI HP) as (r & -> & HQ). exists s, r. eauto. Qed.

Lemma guards_put (f : S -> res S) (P : S -> Prop) (Q : () -> S -> Prop) : (forall r, stable I G t (Q r)) ->
  (forall s, I s -> P s -> exists s', f s = Ok s' /\ I s' /\ G t s s' /\ Q () s') -> guards I G t (put f) P Q.
Proof. intros H1 H2. apply guards_act; [done|]. intros s HI HP. destruct (H2 s HI HP) as (s' & -> & HQ). exists s', (). eauto. Qed.

(** A loop with an assertion about where its next turn starts. *)
Lemma guards_forever {L A} fuel (body : L -> prog (L + A)) (P : L -> S -> Prop) (Q : A -> S -> Prop) :
  (forall l, guards I G t (body l) (P l) (fun r s => match r with inl l => P l s | inr a => Q a s end)) ->
  forall l, guards I G t (forever fuel body l) (P l) Q.
Proof.
  intros H. induction fuel as [|fuel IH]; intros l; [done|]. cbn [forever]. eapply guards_bind; [apply H|].
  intros [l'|a]; [apply IH|]. cbn. eauto.
Qed.

(** What every thread preserves comes through. *)
Lemma guards_frame {A} (p : prog A) P (Q : A -> S -> Prop) (F : S -> Prop) : (forall u s s', I s -> F s -> G u s s' -> I s' -> F s') ->
  guards I G t p P Q -> guards I G t p (fun s => P s /\ F s) (fun a s => Q a s /\ F s).
Proof.
  intros HF. revert P. induction p as [a|R f k IH|]; intros P; cbn; [intros H s HI [HP Hs]; eauto| |done].
  intros (P' & H1 & H2 & H3). exists (fun r s => P' r s /\ F s). split; [|split].
  - intros r u s s' Hu HI [HP Hs] HG HI'. split; [exact (H1 r u s s' Hu HI HP HG HI')|exact (HF u s s' HI Hs HG HI')].
  - intros r. by apply IH.
  - intros s HI [HP Hs]. destruct (H3 s HI HP) as (s' & r & -> & HI' & HG & HP'). exists s', r. do 3 (split; [done|]). split; [done|exact (HF t s s' HI Hs HG HI')].
Qed.

(** Nothing is to be shown of a thread that cannot be there. *)
Lemma guards_absurd {A} (p : prog A) (P : S -> Prop) (Q : A -> S -> Prop) : (forall s, I s -> P s -> False) -> guards I G t p P Q.
Proof.
  revert P. induction p as [a|R f k IH|]; intros P H; cbn; [intros s HI HP; by destruct (H s HI HP)| |done].
  exists (fun _ _ => False). split; [by intros r u s s' _ _|]. split; [intros r; by apply IH|]. intros s HI HP. by destruct (H s HI HP).
Qed.

(** An answer that is known in advance. *)
Lemma guards_bind_known {R A} (f : S -> res R) (r : R) (g : R -> prog A) (P : S -> Prop) (Q : A -> S -> Prop) : (forall s, G t s s) -> EqDecision R -> stable I G t P ->
  (forall s, I s -> P s -> f s = Ok r) -> guards I G t (g r) P Q -> guards I G t (get f ≫= g) P Q.
Proof.
  intros Hrefl Hdec Hst Hf Hg. apply (guards_bind (get f) g P (fun r' s => r' = r /\ P s)).
  - apply guards_get; [done|intros r' u s s' Hu HI [-> HP] HG HI'; split; [done|exact (Hst u s s' Hu HI HP HG HI')]|]. intros s HI HP. exists r. rewrite (Hf s HI HP). done.
  - intros r'. destruct (decide (r' = r)) as [->|Hne]; [eapply guards_weaken; [|exact Hg]; by intros s _ [_ ?]|]. apply guards_absurd. by intros s _ [? _].
Qed.

Lemma guards_ret {A} (a : A) (P : S -> Prop) (Q : A -> S -> Prop) : (forall s, I s -> P s -> Q a s) -> guards I G t (Ret a) P Q.
Proof. done. Qed.

End Programs.

Arguments prog S A : clear implicits.
