(* ===== verification/LockFreeHashMap.v ===== *)
(** * base::LockFreeHashMap (containers/lock_free_concurrent_hashmap.h)

    A fixed array of buckets, each a chain of nodes that only grows at its front; a removal
    marks its node.  The operations are programs over the shared state, one step per atomic
    access.  Two fields of a node that no operation reads record who made it while it is
    private, and which removal marked it.  [weak_] says which of the coming weak exchanges fail
    for no reason. *)

From stdpp Require Import gmap.
From S2P Require Import Prelude Memory Interleaving.

Set Default Proof Using "Type".
#[local] Open Scope Z_scope.

Section LockFreeHashMap.

Context {V : Type}.

(** A call of a thread: the thread and the number of the call in it. *)
Abbreviation ticket := (nat * nat)%type.

Record Node := mkNode { key : Z; value : V; next : option nat; dead : bool; owner : option ticket; killer : option ticket }.

Record LockFreeHashMap := mkMap { nodes : gmap nat Node; fresh : nat; buckets : list (option nat); weak_ : list bool }.

Context (bucketCount : Z).

Abbreviation prog := (prog LockFreeHashMap).

(** The constructor: every bucket is empty. *)
Definition new_map (weak : list bool) : LockFreeHashMap := mkMap ∅ 0 (replicate (Z.to_nat bucketCount) None) weak.

Definition with_nodes (s : LockFreeHashMap) (h : gmap nat Node) : LockFreeHashMap := mkMap h (fresh s) (buckets s) (weak_ s).
Definition with_buckets (s : LockFreeHashMap) (b : list (option nat)) : LockFreeHashMap := mkMap (nodes s) (fresh s) b (weak_ s).

(** A node that is not there has been freed. *)
Definition node_at (s : LockFreeHashMap) (a : nat) : res Node := match nodes s !! a with Some n => Ok n | None => Undef end.
Definition set_node (s : LockFreeHashMap) (a : nat) (n : Node) : LockFreeHashMap := with_nodes s (<[a := n]> (nodes s)).

Definition hash (k : Z) : res nat := if bucketCount =? 0 then Undef else Ok (Z.to_nat (k mod bucketCount)).

(** ** Accesses *)

Definition load_bucket (i : nat) : prog (option nat) := get (fun s => match buckets s !! i with Some p => Ok p | None => Undef end).

(** The constructor of [Node]. *)
Definition new_node (me : ticket) (k : Z) (v : V) : prog nat :=
  act (fun s => Ok (mkMap (<[fresh s := mkNode k v None false (Some me) None]> (nodes s)) (S (fresh s)) (buckets s) (weak_ s), fresh s)).

Definition store_next (a : nat) (p : option nat) : prog () :=
  put (fun s => n ← node_at s a; Ok (set_node s a (mkNode (key n) (value n) p (dead n) (owner n) (killer n)))).

Definition load_next (a : nat) : prog (option nat) := get (fun s => n ← node_at s a; Ok (next n)).
Definition read_key (a : nat) : prog Z := get (fun s => n ← node_at s a; Ok (key n)).
Definition read_value (a : nat) : prog V := get (fun s => n ← node_at s a; Ok (value n)).
Definition load_dead (a : nat) : prog bool := get (fun s => n ← node_at s a; Ok (dead n)).

(** [buckets[i].compare_exchange_weak(expected, a)]: whether it succeeded, and what it found. *)
Definition exchange_bucket (i : nat) (expected : option nat) (a : nat) : prog (bool * option nat) :=
  act (fun s =>
    let fails := match weak_ s with b :: _ => b | [] => false end in
    let s := mkMap (nodes s) (fresh s) (buckets s) (tail (weak_ s)) in
    match buckets s !! i with
    | None => Undef
    | Some found =>
      if fails then Ok (s, (false, found))
      else if decide (found = expected) then
        n ← node_at s a;
        Ok (with_buckets (set_node s a (mkNode (key n) (value n) (next n) (dead n) None (killer n))) (<[i := Some a]> (buckets s)), (true, found))
      else Ok (s, (false, found))
    end).

(** [dead.compare_exchange_strong(false, true)] *)
Definition exchange_dead (me : ticket) (a : nat) : prog bool :=
  act (fun s =>
    n ← node_at s a;
    if dead n then Ok (s, false) else Ok (set_node s a (mkNode (key n) (value n) (next n) true (owner n) (Some me)), true)).

(** ** Operations *)

(** The loop over the bucket's head, from the head the last attempt found. *)
Definition insert_turn (index newNode : nat) (oldHead : option nat) : prog (option nat + ()) :=
  _ ← store_next newNode oldHead;
  '(done, found) ← exchange_bucket index oldHead newNode;
  Ret (if done : bool then inr () else inl found).

Definition insert (fuel : nat) (me : ticket) (k : Z) (v : V) : prog () :=
  index ← get (fun _ => hash k);
  newNode ← new_node me k v;
  oldHead ← load_bucket index;
  forever fuel (insert_turn index newNode) oldHead.

(** [head->keyValue.first == key && !head->dead.load()] *)
Definition live_match (a : nat) (k : Z) : prog bool :=
  k' ← read_key a;
  if k' =? k then d ← load_dead a; Ret (negb d) else Ret false.

Definition find_turn (k : Z) (head : option nat) : prog (option nat + option V) :=
  match head with
  | None => Ret (inr None)
  | Some a =>
    m ← live_match a k;
    if m : bool then v ← read_value a; Ret (inr (Some v))
    else next ← load_next a; Ret (inl next)
  end.

Definition find (fuel : nat) (k : Z) : prog (option V) :=
  index ← get (fun _ => hash k);
  head ← load_bucket index;
  forever fuel (find_turn k) head.

Definition remove_turn (me : ticket) (k : Z) (head : option nat) : prog (option nat + bool) :=
  match head with
  | None => Ret (inr false)
  | Some a =>
    m ← live_match a k;
    if m : bool then b ← exchange_dead me a; Ret (inr b)
    else next ← load_next a; Ret (inl next)
  end.

Definition remove (fuel : nat) (me : ticket) (k : Z) : prog bool :=
  index ← get (fun _ => hash k);
  head ← load_bucket index;
  forever fuel (remove_turn me k) head.

(** ** Iteration

    An iterator is its bucket and its node. *)

Fixpoint skip_dead (fuel : nat) (node : option nat) : prog (option nat) :=
  match fuel with
  | O => Halt
  | S fuel =>
    match node with
    | None => Ret None
    | Some a => d ← load_dead a; if d : bool then next ← load_next a; skip_dead fuel next else Ret (Some a)
    end
  end.

Definition advance_turn (fuel : nat) (it : nat * option nat) : prog (nat * option nat + nat * option nat) :=
  let '(bucketIndex, node) := it in
  node ← skip_dead fuel node;
  match node with
  | Some _ => Ret (inr (bucketIndex, node))
  | None =>
    if u64 (bucketCount - 1) <=? Z.of_nat bucketIndex then Ret (inr (bucketIndex, None))
    else node ← load_bucket (S bucketIndex); Ret (inl (S bucketIndex, node))
  end.

Definition AdvanceToLive (fuel : nat) (it : nat * option nat) : prog (nat * option nat) := forever fuel (advance_turn fuel) it.

Definition iterator_next (fuel : nat) (it : nat * option nat) : prog (nat * option nat) :=
  node ← match snd it with Some a => load_next a | None => Ret None end;
  AdvanceToLive fuel (fst it, node).

Definition end_iterator (fuel : nat) : prog (nat * option nat) := AdvanceToLive fuel (Z.to_nat bucketCount, None).

Fixpoint begin_loop (n i fuel : nat) : prog (nat * option nat) :=
  match n with
  | O => end_iterator fuel
  | S n =>
    node ← load_bucket i;
    match node with Some _ => AdvanceToLive fuel (i, node) | None => begin_loop n (S i) fuel end
  end.

Definition begin_iterator (fuel : nat) : prog (nat * option nat) := begin_loop (Z.to_nat bucketCount) 0 fuel.

(** [for (it = begin(); it != end(); ++it) *it] *)
Definition iterate_turn (fuel : nat) (l : list (Z * V) * (nat * option nat)) : prog (list (Z * V) * (nat * option nat) + list (Z * V)) :=
  let '(seen, it) := l in
  match snd it with
  | None => Ret (inr seen)
  | Some a => k ← read_key a; v ← read_value a; it ← iterator_next fuel it; Ret (inl (seen ++ [(k, v)], it))
  end.

Definition iterate (fuel : nat) : prog (list (Z * V)) := it ← begin_iterator fuel; forever fuel (iterate_turn fuel) ([], it).

(** ** Reclamation: no other thread runs *)

Definition delete_node (a : nat) : prog () := put (fun s => _ ← node_at s a; Ok (with_nodes s (delete a (nodes s)))).
Definition store_bucket (i : nat) (p : option nat) : prog () :=
  put (fun s => if (i <? length (buckets s))%nat then Ok (with_buckets s (<[i := p]> (buckets s))) else Undef).

Definition collect_turn (i : nat) (l : option nat * option nat) : prog (option nat * option nat + ()) :=
  let '(prev, node) := l in
  match node with
  | None => Ret (inr ())
  | Some a =>
    after ← load_next a;
    d ← load_dead a;
    if d : bool then
      _ ← match prev with Some p => store_next p after | None => store_bucket i after end;
      _ ← delete_node a;
      Ret (inl (prev, after))
    else Ret (inl (Some a, after))
  end.

Fixpoint collect_loop (n i fuel : nat) : prog () :=
  match n with
  | O => Ret ()
  | S n => node ← load_bucket i; _ ← forever fuel (collect_turn i) (None, node); collect_loop n (S i) fuel
  end.

Definition collect_garbage (fuel : nat) : prog () := collect_loop (Z.to_nat bucketCount) 0 fuel.

Definition destroy_turn (head : option nat) : prog (option nat + ()) :=
  match head with None => Ret (inr ()) | Some a => after ← load_next a; _ ← delete_node a; Ret (inl after) end.

Fixpoint destroy_loop (n i fuel : nat) : prog () :=
  match n with
  | O => Ret ()
  | S n => head ← load_bucket i; _ ← forever fuel destroy_turn head; destroy_loop n (S i) fuel
  end.

Definition destroy (fuel : nat) : prog () := destroy_loop (Z.to_nat bucketCount) 0 fuel.

End LockFreeHashMap.
