(* ===== verification/LockFreeHashMapSpec.v ===== *)
(** * What LockFreeHashMap promises its threads

    Under every schedule of insertions, searches and removals no step touches a node that is
    not there; a search that finds nothing has seen every entry it could have seen marked; two
    removals that succeed have removed different entries. *)

From stdpp Require Import gmap.
From S2P Require Import Prelude Memory Interleaving LockFreeHashMap.

Set Default Proof Using "Type*".
#[local] Open Scope Z_scope.

Section LockFreeHashMapSpec.

Context {V : Type} (bucketCount : Z) (Hcount : 0 < bucketCount).

Abbreviation Map := (LockFreeHashMap (V := V)).
Abbreviation hash := (hash bucketCount).

Implicit Types (s : Map) (a b : nat) (n : Node (V := V)).

(** ** Published nodes *)

Definition published s a n : Prop := nodes s !! a = Some n /\ owner n = None.

(** A chain from a pointer. *)
Inductive reach s : option nat -> nat -> Prop :=
  | reach_here a : reach s (Some a) a
  | reach_next a n b : nodes s !! a = Some n -> reach s (next n) b -> reach s (Some a) b.

Record inv s : Prop := {
  v_length : length (buckets s) = Z.to_nat bucketCount;
  v_fresh : forall a, is_Some (nodes s !! a) -> (a < fresh s)%nat;
  v_bucket : forall i a, buckets s !! i = Some (Some a) -> exists n, published s a n;
  v_next : forall a n b, nodes s !! a = Some n -> next n = Some b -> exists m, published s b m;
  v_killer : forall a n, nodes s !! a = Some n -> dead n = true <-> is_Some (killer n);
  (** Every published node is in the chain of its bucket. *)
  v_reach : forall a n i p, published s a n -> hash (key n) = Ok i -> buckets s !! i = Some p -> reach s p a;
}.

(** What nobody but the owner of a private node changes. *)
Definition keeps n n' : Prop :=
  key n' = key n /\ value n' = value n /\ next n' = next n /\ owner n' = owner n /\ (dead n = true -> dead n' = true /\ killer n' = killer n).

Lemma keeps_refl n : keeps n n.
Proof. by repeat split. Qed.

Definition G (t : nat) s s' : Prop :=
  forall a n, nodes s !! a = Some n -> (forall tk, owner n = Some tk -> tk.1 <> t) -> exists n', nodes s' !! a = Some n' /\ keeps n n'.

Lemma G_refl t s : G t s s.
Proof. intros a n E _. exists n. split; [done|apply keeps_refl]. Qed.

(** Published nodes stay published, whoever moves. *)
Lemma G_published t s s' a n : G t s s' -> published s a n -> exists n', published s' a n' /\ keeps n n'.
Proof. intros H [E Eo]. destruct (H a n E) as (n' & E' & Hk); [congruence|]. exists n'. split; [|done]. split; [done|]. destruct Hk as (_ & _ & _ & -> & _). done. Qed.

Definition points s (p : option nat) : Prop := match p with Some a => exists n, published s a n | None => True end.

Lemma points_next s a n : inv s -> nodes s !! a = Some n -> points s (next n).
Proof. intros H E. destruct (next n) as [b|] eqn:En; [|done]. cbn. by eapply v_next. Qed.

(** Chains of published nodes only lose nothing. *)
Lemma reach_stable s s' p a : inv s -> (forall b n, published s b n -> exists n', nodes s' !! b = Some n' /\ next n' = next n) -> points s p -> reach s p a -> reach s' p a.
Proof.
  intros Hi H Hp Hr. induction Hr as [|x n b E Hr IH]; [constructor|]. destruct Hp as [m Hm]. destruct (H x m Hm) as (n' & E' & En). destruct Hm as [E0 _]. rewrite E in E0. injection E0 as <-.
  eapply reach_next; [exact E'|]. rewrite En. apply IH. by eapply points_next.
Qed.

Lemma G_reach t s s' p a : inv s -> G t s s' -> points s p -> reach s p a -> reach s' p a.
Proof.
  intros Hi HG. apply reach_stable; [done|]. intros b n Hb. destruct (G_published _ _ _ _ _ HG Hb) as (n' & [E' _] & Hk). exists n'. split; [done|]. apply Hk.
Qed.

Lemma G_points t s s' p : G t s s' -> points s p -> points s' p.
Proof. intros HG. destruct p as [a|]; [|done]. intros [n Hn]. destruct (G_published _ _ _ _ _ HG Hn) as (n' & H & _). by exists n'. Qed.

Lemma hash_ok k : exists i, hash k = Ok i /\ (i < Z.to_nat bucketCount)%nat.
Proof.
  unfold LockFreeHashMap.hash. rewrite (proj2 (Z.eqb_neq _ _)) by lia. eexists. split; [done|]. pose proof (Z.mod_pos_bound k bucketCount). lia.
Qed.

(** ** The steps keep the invariant *)

Lemma inv_update s (h : gmap nat Node) (a : nat) n n' : inv s -> nodes s !! a = Some n -> h = <[a := n']> (nodes s) ->
  next n' = next n -> key n' = key n -> owner n' = owner n -> (dead n' = true <-> is_Some (killer n')) -> inv (with_nodes s h).
Proof.
  intros H E -> En Ek Eo Hd. assert (Hpub : forall b m, published s b m -> exists m', published (with_nodes s (<[a := n']> (nodes s))) b m' /\ next m' = next m /\ key m' = key m).
  { intros b m [Eb Ebo]. unfold published. cbn. destruct (decide (b = a)) as [->|Hne]; [rewrite lookup_insert_eq|rewrite lookup_insert_ne by done; by exists m].
    rewrite E in Eb. injection Eb as <-. exists n'. repeat split; congruence. }
  assert (Hback : forall b m, nodes (with_nodes s (<[a := n']> (nodes s))) !! b = Some m -> exists m0, nodes s !! b = Some m0 /\ next m = next m0 /\ key m = key m0 /\ owner m = owner m0).
  { intros b m. cbn. destruct (decide (b = a)) as [->|Hne]; [rewrite lookup_insert_eq; intros [= <-]; by exists n|rewrite lookup_insert_ne by done; intros Em; by exists m]. }
  destruct H as [H1 H2 H3 H4 H5 H6]. split; cbn.
  - done.
  - intros b Hb. apply H2. destruct (decide (b = a)) as [->|Hne]; [by rewrite E|by rewrite lookup_insert_ne in Hb].
  - intros i b Hb. destruct (H3 i b Hb) as [m Hm]. destruct (Hpub b m Hm) as (m' & Hm' & _). by exists m'.
  - intros x m b Em Eb. destruct (Hback x m Em) as (m0 & E0 & En0 & _). destruct (H4 x m0 b E0) as [y Hy]; [congruence|]. destruct (Hpub b y Hy) as (y' & Hy' & _). by exists y'.
  - intros b m. destruct (decide (b = a)) as [->|Hne]; [rewrite lookup_insert_eq; by intros [= <-]|rewrite lookup_insert_ne by done; apply H5].
  - intros b m i p [Em Emo] Eh Ep. destruct (Hback b m Em) as (m0 & E0 & _ & Ek0 & Eo0). rewrite Ek0 in Eh.
    eapply (reach_stable s); [by split| |destruct p; [by eapply H3|done]|apply (H6 b m0 i p); [split; congruence|done|done]].
    intros c y Hy. destruct (Hpub c y Hy) as (y' & [Ey' _] & Eny & _). by exists y'.
Qed.

(** ** Facts that last

    The threads start from [s0]; what was published there stays. *)

Context (s0 : Map).

Definition extends s : Prop := forall a n, published s0 a n -> exists n', published s a n' /\ keeps n n'.
Definition I s : Prop := inv s /\ extends s.

Lemma keeps_trans n1 n2 n3 : keeps n1 n2 -> keeps n2 n3 -> keeps n1 n3.
Proof.
  intros (A1 & A2 & A3 & A4 & A5) (B1 & B2 & B3 & B4 & B5). do 4 (split; [congruence|]). intros Hd. destruct (A5 Hd) as [Hd' Hk]. destruct (B5 Hd') as [? Hk']. split; congruence.
Qed.

Lemma I_step t s s' : I s -> inv s' -> G t s s' -> I s'.
Proof.
  intros [_ He] Hi HG. split; [done|]. intros a n Hn. destruct (He a n Hn) as (n1 & H1 & K1). destruct (G_published _ _ _ _ _ HG H1) as (n2 & H2 & K2). exists n2. split; [done|by eapply keeps_trans].
Qed.

Definition lasting (F : Map -> Prop) : Prop := forall u s s', I s -> F s -> G u s s' -> I s' -> F s'.

Lemma lasting_stable t F : lasting F -> stable I G t F.
Proof. intros H u s s' _ HI HF HG HI'. exact (H u s s' HI HF HG HI'). Qed.

Definition at_node (F : Node -> Prop) (a : nat) s : Prop := exists n, published s a n /\ F n.
Definition chained (p : option nat) (a : nat) s : Prop := points s p /\ reach s p a.

Lemma lasting_at F a : (forall n n', keeps n n' -> F n -> F n') -> lasting (at_node F a).
Proof. intros HF u s s' _ (n & Hn & Fn) HG _. destruct (G_published _ _ _ _ _ HG Hn) as (n' & Hn' & K). exists n'. split; [done|by eapply HF]. Qed.

Lemma lasting_points p : lasting (fun s => points s p).
Proof. intros u s s' _ Hp HG _. by eapply G_points. Qed.

Lemma lasting_chained p a : lasting (chained p a).
Proof. intros u s s' [Hi _] [Hp Hr] HG _. split; [by eapply G_points|by eapply G_reach]. Qed.

Lemma lasting_and F1 F2 : lasting F1 -> lasting F2 -> lasting (fun s => F1 s /\ F2 s).
Proof. intros H1 H2 u s s' HI [F1s F2s] HG HI'. split; [exact (H1 u s s' HI F1s HG HI')|exact (H2 u s s' HI F2s HG HI')]. Qed.

Lemma lasting_or F1 F2 : lasting F1 -> lasting F2 -> lasting (fun s => F1 s \/ F2 s).
Proof. intros H1 H2 u s s' HI [F1s|F2s] HG HI'; [left; exact (H1 u s s' HI F1s HG HI')|right; exact (H2 u s s' HI F2s HG HI')]. Qed.

Lemma lasting_forall {X} (F : X -> Map -> Prop) : (forall x, lasting (F x)) -> lasting (fun s => forall x, F x s).
Proof. intros H u s s' HI HF HG HI' x. exact (H x u s s' HI (HF x) HG HI'). Qed.

Lemma lasting_impl (X : Prop) F : lasting F -> lasting (fun s => X -> F s).
Proof. intros H u s s' HI HF HG HI' x. exact (H u s s' HI (HF x) HG HI'). Qed.

Lemma lasting_exists {X} (F : X -> Map -> Prop) : (forall x, lasting (F x)) -> lasting (fun s => exists x, F x s).
Proof. intros H u s s' HI [x Hx] HG HI'. exists x. exact (H x u s s' HI Hx HG HI'). Qed.

Lemma lasting_const (X : Prop) : lasting (fun _ => X).
Proof. intros u s s' _ H _ _. done. Qed.

Lemma keeps_key k n n' : keeps n n' -> key n = k -> key n' = k.
Proof. intros (-> & _). done. Qed.

Lemma keeps_entry k v n n' : keeps n n' -> key n = k /\ value n = v -> key n' = k /\ value n' = v.
Proof. intros (-> & -> & _). done. Qed.

Lemma keeps_dead n n' : keeps n n' -> dead n = true -> dead n' = true.
Proof. intros (_ & _ & _ & _ & H) Hd. by apply H. Qed.

Lemma keeps_next p n n' : keeps n n' -> next n = p -> next n' = p.
Proof. intros (_ & _ & -> & _). done. Qed.

Lemma keeps_other k n n' : keeps n n' -> key n <> k -> key n' <> k.
Proof. intros (-> & _). done. Qed.

Ltac lasting :=
  intros; cbv beta;
  repeat first
    [ apply lasting_points | apply lasting_chained
    | apply lasting_at; first [ intros ???; done | apply keeps_key | apply keeps_entry | apply keeps_dead | apply keeps_next | apply keeps_other ]
    | apply lasting_const | apply lasting_and | apply lasting_or | apply lasting_impl | apply lasting_forall; intro | apply lasting_exists; intro ].

(** ** The accesses *)

Abbreviation guards me := (guards I G (fst (A := nat) (B := nat) me)).

(** A read of a published node. *)
Lemma guards_read {R} me (f : Map -> res R) P (Q : R -> Map -> Prop) : (forall r, lasting (Q r)) ->
  (forall s, I s -> P s -> exists r, f s = Ok r /\ Q r s) -> guards me (get f) P Q.
Proof. intros H1 H2. apply guards_get; [apply G_refl|intros r; by apply lasting_stable|done]. Qed.

Definition all_of (k : Z) (F : nat -> Map -> Prop) s : Prop := forall a n, published s0 a n -> key n = k -> F a s.

Lemma lasting_all_of k F : (forall a, lasting (F a)) -> lasting (all_of k F).
Proof. intros H u s s' HI Ha HG HI' a n Hn Ek. exact (H a u s s' HI (Ha a n Hn Ek) HG HI'). Qed.

Lemma guards_load_bucket me k i : hash k = Ok i ->
  guards me (load_bucket i) (fun _ => True) (fun p s => points s p /\ all_of k (chained p) s).
Proof.
  intros Eh. apply guards_read; [intros p; apply lasting_and; [lasting|apply lasting_all_of; lasting]|]. intros s [Hi He] _.
  destruct (hash_ok k) as (i' & Eh' & Hlt). rewrite Eh in Eh'. injection Eh' as <-. rewrite <- (v_length s Hi) in Hlt.
  destruct (lookup_lt_is_Some_2 _ _ Hlt) as [p Ep]. rewrite Ep. exists p. split; [done|].
  assert (Hp : points s p) by (destruct p; [by eapply v_bucket|done]). split; [done|]. intros a n Hn Ek. split; [done|].
  destruct (He a n Hn) as (n' & Hn' & Ek' & _). eapply v_reach; try done. by rewrite Ek', Ek.
Qed.

Lemma guards_read_key me a : guards me (read_key a) (fun s => points s (Some a)) (fun k => at_node (fun n => key n = k) a).
Proof. apply guards_read; [lasting|]. intros s _ [n [E Eo]]. unfold node_at. rewrite E. cbn. eexists. split; [done|]. exists n. by repeat split. Qed.

Lemma guards_load_dead me a : guards me (load_dead a) (fun s => points s (Some a)) (fun d s => points s (Some a) /\ (d = true -> at_node (fun n => dead n = true) a s)).
Proof. apply guards_read; [lasting|]. intros s _ [n [E Eo]]. unfold node_at. rewrite E. cbn. eexists. split; [done|]. split; [by exists n|]. intros Hd. exists n. by repeat split. Qed.

Lemma guards_read_value me a k : guards me (read_value a) (at_node (fun n => key n = k) a) (fun v => at_node (fun n => key n = k /\ value n = v) a).
Proof. apply guards_read; [lasting|]. intros s _ (n & [E Eo] & Ek). unfold node_at. rewrite E. cbn. eexists. split; [done|]. exists n. by repeat split. Qed.

Lemma guards_load_next me a : guards me (load_next a) (fun s => points s (Some a)) (fun p s => points s p /\ at_node (fun n => next n = p) a s).
Proof.
  apply guards_read; [lasting|]. intros s [Hi _] [n [E Eo]]. unfold node_at. rewrite E. cbn. eexists. split; [done|].
  split; [by eapply points_next|]. exists n. by repeat split.
Qed.

(** ** The operations *)

(** A first program, then the rest with what lasted through it. *)
Lemma bind_with {A B} me (p : prog Map A) (g : A -> prog Map B) P Q F P2 R : lasting F -> guards me p P Q ->
  (forall s, I s -> P2 s -> P s /\ F s) -> (forall x, guards me (g x) (fun s => Q x s /\ F s) R) -> guards me (p ≫= g) P2 R.
Proof.
  intros HF Hp Hw Hg. eapply guards_bind; [|exact Hg]. eapply guards_weaken; [exact Hw|]. apply guards_frame; [exact HF|exact Hp].
Qed.

Definition dead_at a : Map -> Prop := at_node (fun n => dead n = true) a.
Definition entry_at k v a : Map -> Prop := at_node (fun n => key n = k /\ value n = v) a.

(** Whether the node passes the test of the searches. *)
Definition matched (m : bool) k a s : Prop := if m then at_node (fun n => key n = k) a s else at_node (fun n => key n <> k) a s \/ dead_at a s.

Lemma lasting_matched m k a : lasting (matched m k a).
Proof. destruct m; [apply lasting_at, keeps_key|unfold matched, dead_at; lasting]. Qed.

Lemma guards_live_match me a k : guards me (live_match a k) (fun s => points s (Some a)) (fun m s => matched m k a s /\ points s (Some a)).
Proof.
  unfold live_match. eapply (bind_with me); [apply (lasting_points (Some a))|apply guards_read_key|done|]. intros k'. destruct (Z.eqb_spec k' k) as [->|Hne]; cbv beta.
  - eapply (bind_with me _ _ _ _ (at_node (fun n => key n = k) a)); [lasting|apply guards_load_dead|intros s _ [H1 H2]; exact (conj H2 H1)|].
    intros d. apply guards_ret. intros s _ [[Hp Hd] Hk]. split; [|done]. destruct d; cbn; [right; by apply Hd|done].
  - apply guards_ret. intros s _ [(n & Hn & Ek) Hp]. split; [|done]. left. exists n. split; [done|congruence].
Qed.

(** Where a search stands: what it still has to see is in the chain before it, or was marked. *)
Definition searching k p s : Prop := points s p /\ all_of k (fun a s => chained p a s \/ dead_at a s) s.

Lemma lasting_searching k p : lasting (searching k p).
Proof. apply lasting_and; [apply lasting_points|apply lasting_all_of; intros a; unfold dead_at; lasting]. Qed.

(** Past a node that does not match. *)
Lemma searching_next k a p s : I s -> searching k (Some a) s -> matched false k a s -> points s p -> at_node (fun n => next n = p) a s -> searching k p s.
Proof.
  intros [Hi He] [_ Hall] Hm Hp (n & [E Eo] & En). split; [done|]. intros b m Hb Ek. destruct (Hall b m Hb Ek) as [[_ Hr]|Hd]; [|by right].
  inversion Hr as [x Ex|x n' c E' Hr' Ex]; subst.
  - destruct Hm as [(n' & [E' _] & Hne)|Hd]; [|by right]. destruct (He b m Hb) as (m' & [Em _] & Ek' & _). congruence.
  - left. split; [done|]. rewrite E in E'. injection E' as <-. done.
Qed.

Lemma searching_end k s : searching k None s -> all_of k dead_at s.
Proof. intros [_ Hall] a n Hn Ek. destruct (Hall a n Hn Ek) as [[_ Hr]|Hd]; [inversion Hr|done]. Qed.

Lemma guards_start_search me k i : hash k = Ok i -> guards me (load_bucket i) (fun _ => True) (fun p s => searching k p s).
Proof.
  intros Eh. eapply guards_conseq; [|by apply guards_load_bucket]. intros p s _ [Hp Hall]. split; [done|]. intros a n Hn Ek. left. by eapply Hall.
Qed.

Lemma guards_find_turn me k head : guards me (find_turn k head) (searching k head)
  (fun r s => match r with inl p => searching k p s | inr None => all_of k dead_at s | inr (Some v) => exists a, entry_at k v a s end).
Proof.
  unfold find_turn. destruct head as [a|]; [|apply guards_ret; intros s _; apply searching_end].
  eapply (bind_with me); [apply (lasting_searching k (Some a))|apply guards_live_match|intros s _ H; split; [apply H|exact H]|]. intros [|]; cbv beta.
  - eapply guards_bind; [eapply guards_weaken; [|apply guards_read_value]; intros s _ [[H _] _]; exact H|]. intros v. apply guards_ret. intros s _ H. by exists a.
  - eapply (bind_with me _ _ _ _ (fun s => searching k (Some a) s /\ matched false k a s)); [apply lasting_and; [apply lasting_searching|apply lasting_matched]|apply guards_load_next| |].
    + intros s _ [[Hm Hp] Hs]. done.
    + intros p. apply guards_ret. intros s HI [[Hp Hn] [Hs Hm]]. by eapply searching_next.
Qed.

Lemma bind_hash {A} me k i (g : nat -> prog Map A) P Q : hash k = Ok i -> stable I G (fst me) P -> guards me (g i) P Q -> guards me (get (fun _ => hash k) ≫= g) P Q.
Proof. intros Eh HP Hg. apply (guards_bind_known I G (fst me) _ i); try done; [apply G_refl|apply _]. Qed.

Lemma guards_find me fuel k : guards me (find bucketCount fuel k) (fun _ => True)
  (fun r s => match r with None => all_of k dead_at s | Some v => exists a, entry_at k v a s end).
Proof.
  unfold find. destruct (hash_ok k) as (i & Eh & _). apply (bind_hash me k i); [done|done|].
  eapply guards_bind; [by apply guards_start_search|]. intros head. apply guards_forever. intros p. apply guards_find_turn.
Qed.

(** ** Marking a node *)

Definition killed_by me k a : Map -> Prop := at_node (fun n => key n = k /\ dead n = true /\ killer n = Some me) a.
Definition dead_entry k a : Map -> Prop := at_node (fun n => key n = k /\ dead n = true) a.

Lemma lasting_killed me k a : lasting (killed_by me k a).
Proof. apply lasting_at. intros n n' (-> & _ & _ & _ & H) (? & Hd & HF). destruct (H Hd) as [? ->]. done. Qed.

Lemma lasting_dead_entry k a : lasting (dead_entry k a).
Proof. apply lasting_at. intros n n' (-> & _ & _ & _ & H) (? & Hd). by destruct (H Hd). Qed.

(** The node was live before the threads started. *)
Definition live_before a : Prop := forall n, published s0 a n -> dead n = false.

Lemma guards_exchange_dead me a k : guards me (exchange_dead me a) (at_node (fun n => key n = k) a)
  (fun r s => if r : bool then killed_by me k a s /\ live_before a else dead_entry k a s).
Proof.
  apply guards_act; [intros [|]; apply lasting_stable; [apply lasting_and; [apply lasting_killed|apply lasting_const]|apply lasting_dead_entry]|]. intros s HI (n & [E Eo] & Ek). unfold node_at. rewrite E. cbn. destruct (dead n) eqn:Ed.
  - exists s, false. do 2 (split; [done|]). split; [apply G_refl|]. exists n. by repeat split.
  - set (n' := mkNode _ _ _ _ _ _). exists (set_node s a n'), true. split; [done|].
    assert (HG : G (fst me) s (set_node s a n')).
    { intros b m Em _. cbn. destruct (decide (b = a)) as [->|Hne]; [rewrite lookup_insert_eq; exists n'; rewrite E in Em; injection Em as <-; split; [done|]; repeat split; congruence|].
      rewrite lookup_insert_ne by done. exists m. split; [done|apply keeps_refl]. }
    assert (Hi : inv (set_node s a n')) by (apply (inv_update s _ a n n'); try done; by destruct HI).
    split; [by eapply I_step|]. split; [done|]. split; [exists n'; split; [split; [apply lookup_insert_eq|done]|done]|].
    intros m Hm. destruct (proj2 HI a m Hm) as (m' & [Em' _] & K). destruct (dead m) eqn:Edm; [|done]. destruct K as (_ & _ & _ & _ & K). destruct (K Edm). congruence.
Qed.

Definition removal me k (r : bool) s : Prop :=
  if r then exists a, killed_by me k a s /\ live_before a else all_of k dead_at s \/ exists a, dead_entry k a s.

Lemma lasting_all_dead k : lasting (all_of k dead_at).
Proof. apply lasting_all_of. intros a. apply lasting_at, keeps_dead. Qed.

Lemma lasting_removal me k r : lasting (removal me k r).
Proof.
  destruct r; [apply lasting_exists; intros a; apply lasting_and; [apply lasting_killed|apply lasting_const]|].
  apply lasting_or; [apply lasting_all_dead|apply lasting_exists; intros a; apply lasting_dead_entry].
Qed.

Lemma guards_remove_turn me k head : guards me (remove_turn me k head) (searching k head)
  (fun r s => match r with inl p => searching k p s | inr r => removal me k r s end).
Proof.
  unfold remove_turn. destruct head as [a|]; [|apply guards_ret; intros s _ H; left; by apply searching_end].
  eapply (bind_with me); [apply (lasting_searching k (Some a))|apply guards_live_match|intros s _ H; split; [apply H|exact H]|]. intros [|]; cbv beta.
  - eapply guards_bind; [eapply guards_weaken; [|apply guards_exchange_dead]; intros s _ [[H _] _]; exact H|]. intros r. apply guards_ret. intros s _ H. destruct r; [by exists a|right; by exists a].
  - eapply (bind_with me _ _ _ _ (fun s => searching k (Some a) s /\ matched false k a s)); [apply lasting_and; [apply lasting_searching|apply lasting_matched]|apply guards_load_next| |].
    + intros s _ [[Hm Hp] Hs]. done.
    + intros p. apply guards_ret. intros s HI [[Hp Hn] [Hs Hm]]. by eapply searching_next.
Qed.

Lemma guards_remove me fuel k : guards me (remove bucketCount fuel me k) (fun _ => True) (removal me k).
Proof.
  unfold remove. destruct (hash_ok k) as (i & Eh & _). apply (bind_hash me k i); [done|done|].
  eapply guards_bind; [by apply guards_start_search|]. intros head. apply guards_forever. intros p. apply guards_remove_turn.
Qed.

(** ** Publishing a node *)

Definition own me a k v s : Prop := exists n, nodes s !! a = Some n /\ key n = k /\ value n = v /\ owner n = Some me.
Definition own_next me a k v p s : Prop := points s p /\ exists n, nodes s !! a = Some n /\ key n = k /\ value n = v /\ owner n = Some me /\ next n = p.

Lemma own_kept me a k v u s s' : u <> fst me -> own me a k v s -> G u s s' -> own me a k v s'.
Proof.
  intros Hu (n & E & Ek & Ev & Eo) HG. destruct (HG a n E) as (n' & E' & K1 & K2 & _ & K4 & _); [intros tk Et; congruence|]. exists n'. repeat split; congruence.
Qed.

Lemma own_stable me a k v : stable I G (fst me) (own me a k v).
Proof. intros u s s' Hu _ Ho HG _. by eapply own_kept. Qed.

Lemma own_next_stable me a k v p : stable I G (fst me) (own_next me a k v p).
Proof.
  intros u s s' Hu _ [Hp (n & E & Ek & Ev & Eo & En)] HG _. split; [by eapply G_points|]. destruct (HG a n E) as (n' & E' & K1 & K2 & K3 & K4 & _); [intros tk Et; congruence|]. exists n'. repeat split; congruence.
Qed.

Lemma guards_new_node me k v : guards me (new_node me k v) (fun _ => True) (fun a => own me a k v).
Proof.
  apply guards_act; [intros a; apply own_stable|]. intros s [Hi He] _. eexists _, _. split; [done|]. set (s' := mkMap _ _ _ _).
  assert (Hf : nodes s !! fresh s = None) by (destruct (nodes s !! fresh s) eqn:E; [|done]; pose proof (v_fresh s Hi (fresh s) ltac:(eauto)); lia).
  assert (Hk : forall b m, nodes s !! b = Some m -> nodes s' !! b = Some m) by (intros b m Em; cbn; rewrite lookup_insert_ne; [done|congruence]).
  assert (HG : G (fst me) s s') by (intros b m Em _; exists m; split; [by apply Hk|apply keeps_refl]).
  assert (Hb : forall b m, nodes s' !! b = Some m -> nodes s !! b = Some m \/ b = fresh s /\ m = mkNode k v None false (Some me) None).
  { intros b m. cbn. destruct (decide (b = fresh s)) as [->|Hne]; [rewrite lookup_insert_eq; intros [= <-]; auto|rewrite lookup_insert_ne by done; auto]. }
  assert (Hp : forall b m, published s b m -> published s' b m) by (intros b m [E Eo]; split; [by apply Hk|done]).
  split; [eapply I_step; [by split| |exact HG]|split; [done|]].
  - split; cbn.
    + apply Hi.
    + intros b [m Em]. destruct (Hb b m Em) as [Em'|[-> _]]; [|lia]. pose proof (v_fresh s Hi b ltac:(eauto)). lia.
    + intros i b Eb. destruct (v_bucket s Hi i b Eb) as [m Hm]. exists m. by apply Hp.
    + intros x m b Em Eb. destruct (Hb x m Em) as [Em'|[-> ->]]; [|done]. destruct (v_next s Hi x m b Em' Eb) as [y Hy]. exists y. by apply Hp.
    + intros x m Em. destruct (Hb x m Em) as [Em'|[-> ->]]; [by eapply v_killer|]. cbn. split; [done|by intros [? ?]].
    + intros x m i p [Em Eo] Eh Ep. destruct (Hb x m Em) as [Em'|[-> ->]]; [|done].
      apply (reach_stable s); [done| |destruct p; [by eapply v_bucket|done]|apply (v_reach s Hi x m i p); done]. intros b y [Ey _]. exists y. split; [by apply Hk|done].
  - exists (mkNode k v None false (Some me) None). split; [apply lookup_insert_eq|done].
Qed.

Lemma guards_store_next me a k v p : guards me (store_next a p) (fun s => points s p /\ own me a k v s) (fun _ => own_next me a k v p).
Proof.
  apply guards_put; [intros _; apply own_next_stable|]. intros s HI [Hp (n & E & Ek & Ev & Eo)]. unfold node_at. rewrite E. cbn. eexists. split; [done|]. set (n' := mkNode _ _ _ _ _ _).
  assert (Hother : forall b m, published s b m -> published (set_node s a n') b m).
  { intros b m [Em Emo]. split; [|done]. cbn. rewrite lookup_insert_ne; [done|congruence]. }
  assert (Hpoints : forall q, points s q -> points (set_node s a n') q) by (intros [b|]; [intros [m Hm]; exists m; by apply Hother|done]).
  assert (HG : G (fst me) s (set_node s a n')).
  { intros b m Em Ht. destruct (decide (b = a)) as [->|Hne]; [rewrite E in Em; injection Em as <-; by destruct (Ht me)|]. cbn. rewrite lookup_insert_ne by done. exists m. split; [done|apply keeps_refl]. }
  pose proof (proj1 HI) as Hi. split; [eapply I_step; [exact HI| |exact HG]|split; [done|]].
  - destruct Hi as [H1 H2 H3 H4 H5 H6]. split; cbn.
    + done.
    + intros b Hb. apply H2. destruct (decide (b = a)) as [->|Hne]; [by rewrite E|by rewrite lookup_insert_ne in Hb].
    + intros i b Eb. destruct (H3 i b Eb) as [m Hm]. exists m. by apply Hother.
    + intros x m b. destruct (decide (x = a)) as [->|Hne]; [rewrite lookup_insert_eq; intros [= <-]; cbn; intros ->; by apply (Hpoints (Some b))|].
      rewrite lookup_insert_ne by done. intros Em Eb. destruct (H4 x m b Em Eb) as [y Hy]. exists y. by apply Hother.
    + intros x m. destruct (decide (x = a)) as [->|Hne]; [rewrite lookup_insert_eq; intros [= <-]; cbn; by apply (H5 a)|rewrite lookup_insert_ne by done; apply H5].
    + intros x m i q [Em Emo] Eh Eq. cbn in Em. destruct (decide (x = a)) as [->|Hne]; [rewrite lookup_insert_eq in Em; injection Em as <-; cbn in Emo; congruence|]. rewrite lookup_insert_ne in Em by done.
      apply (reach_stable s); [by split| |destruct q; [by eapply H3|done]|by apply (H6 x m i q)]. intros b y Hy. exists y. split; [apply (Hother b y Hy)|done].
  - split; [by apply Hpoints|]. exists n'. split; [apply lookup_insert_eq|done].
Qed.

Lemma weak_step s l : inv s -> inv (mkMap (nodes s) (fresh s) (buckets s) l).
Proof.
  intros [H1 H2 H3 H4 H5 H6]. split; try done. intros a n i p Hn Eh Ep. apply (reach_stable s); [by split| |destruct p; [by eapply H3|done]|by eapply H6].
  intros b m [Em _]. by exists m.
Qed.

(** The exchange publishes the node: its chain is the old chain behind it. *)
Lemma publish_inv s i a n p k : inv s -> buckets s !! i = Some p -> nodes s !! a = Some n -> next n = p -> key n = k -> hash k = Ok i -> is_Some (owner n) ->
  let n' := mkNode (key n) (value n) (next n) (dead n) None (killer n) in inv (with_buckets (set_node s a n') (<[i := Some a]> (buckets s))).
Proof.
  intros Hi Ei E En Ek Eh [me Eo] n'. set (s' := with_buckets _ _).
  assert (Hother : forall b m, published s b m -> b <> a /\ published s' b m).
  { intros b m [Em Emo]. assert (b <> a) by congruence. split; [done|]. split; [|done]. cbn. by rewrite lookup_insert_ne. }
  assert (Ea : nodes s' !! a = Some n') by apply lookup_insert_eq.
  assert (Hkept : forall b m, published s b m -> exists m', nodes s' !! b = Some m' /\ next m' = next m) by (intros b m Hm; exists m; split; [apply Hother, Hm|done]).
  pose proof Hi as [H1 H2 H3 H4 H5 H6]. split; cbn.
  - by rewrite length_insert.
  - intros b Hb. apply H2. destruct (decide (b = a)) as [->|Hne]; [by rewrite E|by rewrite lookup_insert_ne in Hb].
  - intros j b Eb. destruct (decide (j = i)) as [->|Hne].
    + rewrite list_lookup_insert_eq in Eb by by eapply lookup_lt_Some. injection Eb as <-. by exists n'.
    + rewrite list_lookup_insert_ne in Eb by done. destruct (H3 j b Eb) as [m Hm]. exists m. by apply Hother.
  - intros x m b. assert (Hb : (exists y m0, nodes s !! y = Some m0 /\ next m0 = Some b) -> exists m', published s' b m') by (intros (y & m0 & Ey & Eb); destruct (H4 y m0 b Ey Eb) as [z Hz]; exists z; by apply Hother).
    destruct (decide (x = a)) as [->|Hne]; [rewrite lookup_insert_eq; intros [= <-]; cbn|rewrite lookup_insert_ne by done]; intros; apply Hb; eauto.
  - intros x m. destruct (decide (x = a)) as [->|Hne]; [rewrite lookup_insert_eq; intros [= <-]; cbn; by apply (H5 a)|rewrite lookup_insert_ne by done; apply H5].
  - assert (Hold : forall x m j q, published s x m -> hash (key m) = Ok j -> buckets s !! j = Some q -> reach s' q x).
    { intros x m j q Hm Ehx Eq. apply (reach_stable s); [done|done|destruct q; [by eapply H3|done]|by eapply H6]. }
    intros x m j q [Em Emo] Ehx Eq. cbn in Em. destruct (decide (x = a)) as [->|Hxa].
    + rewrite lookup_insert_eq in Em. injection Em as <-. cbn in Ehx. rewrite Ek, Eh in Ehx. injection Ehx as <-.
      rewrite list_lookup_insert_eq in Eq by by eapply lookup_lt_Some. injection Eq as <-. constructor.
    + rewrite lookup_insert_ne in Em by done. destruct (decide (j = i)) as [->|Hne].
      * rewrite list_lookup_insert_eq in Eq by by eapply lookup_lt_Some. injection Eq as <-. eapply reach_next; [exact Ea|]. cbn. rewrite En. by eapply Hold.
      * rewrite list_lookup_insert_ne in Eq by done. by eapply Hold.
Qed.

Lemma guards_exchange_bucket me i a k v p : hash k = Ok i -> guards me (exchange_bucket i p a) (own_next me a k v p)
  (fun r s => if fst r : bool then entry_at k v a s else points s (snd r) /\ own me a k v s).
Proof.
  intros Eh. apply guards_act.
  { intros [[|] found]; cbn; [apply lasting_stable; unfold entry_at; lasting|]. intros u s s' Hu HI [Hp Ho] HG HI'. split; [by eapply G_points|by eapply own_kept]. }
  intros s HI [Hp (n & E & Ek & Ev & Eo & En)]. pose proof (proj1 HI) as Hi. cbn [weak_ buckets].
  destruct (hash_ok k) as (i' & Eh' & Hlt). rewrite Eh in Eh'. injection Eh' as <-. rewrite <- (v_length s Hi) in Hlt. destruct (lookup_lt_is_Some_2 _ _ Hlt) as [found Ef]. rewrite Ef.
  set (s1 := mkMap (nodes s) (fresh s) (buckets s) (tail (weak_ s))). assert (Hi1 : inv s1) by by apply weak_step.
  assert (Hpf : points s1 found) by (destruct found; [by eapply (v_bucket s1)|done]).
  assert (Hfail : exists s' r, Ok (s1, (false, found)) = Ok (s', r) /\ I s' /\ G (fst me) s s' /\ (if fst r : bool then entry_at k v a s' else points s' (snd r) /\ own me a k v s')).
  { exists s1, (false, found). assert (HG : G (fst me) s s1) by (intros b m Em _; exists m; split; [done|apply keeps_refl]). split; [done|]. split; [by eapply I_step|]. split; [done|]. split; [done|]. by exists n. }
  destruct (match weak_ s with b :: _ => b | [] => false end); [exact Hfail|]. destruct (decide (found = p)) as [->|]; [|exact Hfail].
  unfold node_at. change (nodes s1) with (nodes s). rewrite E. cbn [mbind res_bind]. eexists _, _. split; [done|].
  set (n' := mkNode _ _ _ _ _ _). set (s' := with_buckets _ _).
  assert (HG : G (fst me) s s').
  { intros b m Em Ht. destruct (decide (b = a)) as [->|Hne]; [rewrite E in Em; injection Em as <-; by destruct (Ht me)|]. cbn. rewrite lookup_insert_ne by done. exists m. split; [done|apply keeps_refl]. }
  split; [eapply I_step; [exact HI| |exact HG]; by apply (publish_inv s1 i a n p k)|]. split; [done|]. cbn. exists n'. split; [split; [apply lookup_insert_eq|done]|done].
Qed.

Lemma guards_insert me fuel k v : guards me (insert bucketCount fuel me k v) (fun _ => True) (fun _ s => exists a, entry_at k v a s).
Proof.
  unfold insert. destruct (hash_ok k) as (i & Eh & Hlt). apply (bind_hash me k i); [done|done|].
  eapply guards_bind; [apply guards_new_node|]. intros a. cbv beta.
  eapply guards_bind; [apply (guards_get I G (fst me) _ _ (fun p s => points s p /\ own me a k v s))|].
  - apply G_refl.
  - intros p u s s' Hu HI [Hp Ho] HG HI'. split; [by eapply G_points|by eapply own_kept].
  - intros s [Hi _] Ho. rewrite <- (v_length s Hi) in Hlt. destruct (lookup_lt_is_Some_2 _ _ Hlt) as [p Ep]. rewrite Ep. exists p. split; [done|]. split; [destruct p; [by eapply v_bucket|done]|done].
  - apply (guards_forever I G (fst me) fuel _ (fun p s => points s p /\ own me a k v s)). intros p. unfold insert_turn.
    eapply guards_bind; [apply guards_store_next|]. intros u. cbv beta. eapply guards_bind; [by apply guards_exchange_bucket|]. intros [[|] found]; apply guards_ret; cbn; [intros s _ H; by exists a|done].
Qed.

(** ** Threads of calls *)

Inductive call := CInsert (k : Z) (v : V) | CFind (k : Z) | CRemove (k : Z).
Inductive answer := AInsert | AFind (r : option V) | ARemove (r : bool).

Definition do_call (fuel : nat) (me : nat * nat) (c : call) : prog Map answer :=
  match c with
  | CInsert k v => _ ← insert bucketCount fuel me k v; Ret AInsert
  | CFind k => r ← find bucketCount fuel k; Ret (AFind r)
  | CRemove k => r ← remove bucketCount fuel me k; Ret (ARemove r)
  end.

Fixpoint thread (fuel t i : nat) (cs : list call) : prog Map (list answer) :=
  match cs with [] => Ret [] | c :: cs => x ← do_call fuel (t, i) c; xs ← thread fuel t (S i) cs; Ret (x :: xs) end.

Definition justified me (c : call) (x : answer) s : Prop :=
  match c, x with
  | CInsert k v, AInsert => exists a, entry_at k v a s
  | CFind k, AFind (Some v) => exists a, entry_at k v a s
  | CFind k, AFind None => all_of k dead_at s
  | CRemove k, ARemove r => removal me k r s
  | _, _ => False
  end.

Lemma lasting_justified me c x : lasting (justified me c x).
Proof.
  destruct c, x as [|[v'|]|r]; cbn; try apply lasting_const; try (apply lasting_exists; intros a; apply lasting_at, keeps_entry); [apply lasting_all_dead|apply lasting_removal].
Qed.

Lemma guards_call fuel me c : guards me (do_call fuel me c) (fun _ => True) (fun x => justified me c x).
Proof.
  destruct c as [k v|k|k]; cbn [do_call]; (eapply guards_bind; [first [apply guards_insert|apply guards_find|apply guards_remove]|]); intros r; apply guards_ret; intros s _ H; cbn; [done|destruct r; done|done].
Qed.

Fixpoint all_justified t i cs xs s : Prop :=
  match cs, xs with
  | [], [] => True
  | c :: cs, x :: xs => justified (t, i) c x s /\ all_justified t (S i) cs xs s
  | _, _ => False
  end.

Lemma lasting_all_justified t i cs xs : lasting (all_justified t i cs xs).
Proof.
  revert i xs. induction cs as [|c cs IH]; intros i [|x xs]; cbn; try apply lasting_const. apply lasting_and; [apply lasting_justified|apply IH].
Qed.

Lemma guards_thread fuel t i cs : guards (t, i) (thread fuel t i cs) (fun _ => True) (fun xs => all_justified t i cs xs).
Proof.
  revert i. induction cs as [|c cs IH]; intros i; [done|]. cbn [thread]. eapply guards_bind; [apply guards_call|]. intros x.
  eapply (bind_with (t, i) _ _ (fun _ => True) _ (justified (t, i) c x)); [apply lasting_justified|exact (IH (S i))|done|]. intros xs. apply guards_ret. by intros s _ [H1 H2].
Qed.

(** A program is the calls of each of its threads. *)
Definition threads (fuel : nat) (css : list (list call)) : list (prog Map (list answer)) := imap (fun t cs => thread fuel t 0 cs) css.

Lemma all_justified_lookup t i cs xs s j c : all_justified t i cs xs s -> cs !! j = Some c -> exists x, xs !! j = Some x /\ justified (t, (i + j)%nat) c x s.
Proof.
  revert i xs j. induction cs as [|c' cs IH]; intros i [|x xs] j; cbn; try done. intros [Hj Hall]. destruct j as [|j]; cbn.
  - intros [= <-]. exists x. by rewrite Nat.add_0_r.
  - intros E. destruct (IH (S i) xs j Hall E) as (y & Ey & Hy). exists y. split; [done|]. by replace (i + S j)%nat with (S i + j)%nat by lia.
Qed.

(** C26. Whatever the calls of the threads and the schedule of their steps: no step touches a node
    that is not there; what was published stays; a search that found a value found it in an entry of
    its key; a search that found nothing has left every entry of its key from before the run marked;
    and a removal that succeeded marked a live entry of its key that no other removal marked. *)
Theorem LockFreeHashMap_concurrent fuel css schedule : inv s0 ->
  exists s ps, interleave schedule s0 (threads fuel css) = Ok (s, ps) /\ inv s /\ extends s /\
    (forall t cs xs j c, css !! t = Some cs -> ps !! t = Some (Ret xs) -> cs !! j = Some c -> exists x, xs !! j = Some x /\ justified (t, j) c x s) /\
    (forall me me' k k' a, killed_by me k a s -> killed_by me' k' a s -> me = me').
Proof.
  intros Hi. assert (HI : I s0) by (split; [done|]; intros a n Hn; exists n; split; [done|apply keeps_refl]).
  destruct (interleave_sound I G schedule s0 (threads fuel css) (fun t xs s => forall cs, css !! t = Some cs -> all_justified t 0 cs xs s)) as (s & ps & E & [HI' Hall]).
  - split; [done|]. intros t p Ep. unfold threads in Ep. rewrite list_lookup_imap in Ep. destruct (css !! t) as [cs|] eqn:Ec; [|done]. injection Ep as <-.
    exists (fun _ => True). split; [done|]. split; [done|]. eapply guards_conseq; [|apply (guards_thread fuel t 0 cs)]. cbv beta. intros xs s _ H cs' Ecs. by injection Ecs as <-.
  - exists s, ps. split; [done|]. split; [apply HI'|]. split; [apply HI'|]. split.
    + intros t cs xs j c Ec Ep Ej. destruct (Hall t (Ret xs) Ep) as (P & _ & HP & Hg). cbn in Hg. destruct (all_justified_lookup t 0 cs xs s j c (Hg s HI' HP cs Ec) Ej) as (x & Ex & Hx). by exists x.
    + intros me me' k k' a (n & [E1 _] & _ & _ & K1) (n' & [E2 _] & _ & _ & K2). congruence.
Qed.

End LockFreeHashMapSpec.

Lemma new_map_inv {V} bucketCount weak : inv bucketCount (new_map (V := V) bucketCount weak).
Proof.
  assert (H : forall i p, replicate (Z.to_nat bucketCount) (@None nat) !! i = Some p -> p = None) by (intros i p E; by apply lookup_replicate in E as [-> _]).
  split; unfold new_map; cbn.
  - apply length_replicate.
  - intros a [n E]. cbn in E; by apply lookup_empty_Some in E.
  - intros i a E. by apply H in E.
  - intros a n b E. cbn in E; by apply lookup_empty_Some in E.
  - intros a n E. cbn in E; by apply lookup_empty_Some in E.
  - intros a n i p [E _]. cbn in E; by apply lookup_empty_Some in E.
Qed.

(** What the threads that are done have answered. *)
Definition outcomes {V} (r : res (LockFreeHashMap (V := V) * list (prog (LockFreeHashMap (V := V)) (list (answer (V := V)))))) : list (option (list (answer (V := V)))) :=
  match r with Ok (_, ps) => map (fun p => match p with Ret xs => Some xs | _ => None end) ps | _ => [] end.

(** Two threads work on one key in one bucket; the first exchange of the bucket fails. *)
Definition two_threads : list (list (call (V := Z))) := [[CInsert 1 10; CRemove 1; CFind 1]; [CInsert 3 30; CFind 1]].
Definition turns : list nat := repeat 0%nat 5 ++ repeat 1%nat 5 ++ repeat 0%nat 5 ++ repeat 1%nat 20 ++ repeat 0%nat 20.

Lemma LockFreeHashMap_concurrent_witness : let s0 := new_map (V := Z) 2 [true] in
  outcomes (interleave turns s0 (threads 2 8 two_threads)) = [Some [AInsert; ARemove true; AFind None]; Some [AInsert; AFind (Some 10)]] /\
  exists s ps, interleave turns s0 (threads 2 8 two_threads) = Ok (s, ps) /\ forall me me' k k' a, killed_by me k a s -> killed_by me' k' a s -> me = me'.
Proof.
  intros s0. split; [vm_compute; reflexivity|].
  destruct (LockFreeHashMap_concurrent 2 ltac:(lia) s0 8 two_threads turns (new_map_inv 2 [true])) as (s & ps & E & _ & _ & _ & H). exists s, ps. split; [exact E|exact H].
Defined.

(** Two entries of one key: the removal that loses the race for one of them returns false while
    the other entry is live, and a search afterwards finds it. *)
Example remove_loses_race :
  outcomes (interleave (repeat 0%nat 4 ++ repeat 1%nat 4 ++ concat (repeat [0; 1]%nat 12))
    (match run (_ ← insert 1 4 (7, 0)%nat 5 50; insert 1 4 (7, 1)%nat 5 51) (new_map 1 []) with Ok (s, _) => s | _ => new_map 1 [] end)
    (threads (V := Z) 1 8 [[CRemove 5]; [CRemove 5; CFind 5]])) = [Some [ARemove true]; Some [ARemove false; AFind (Some 50)]].
Proof. vm_compute. reflexivity. Qed.

(** Reclamation and iteration, with nobody else about. *)
Example collect_and_iterate :
  let p := _ ← insert 2 4 (0, 0)%nat 1 10; _ ← insert 2 4 (0, 1)%nat 2 20; _ ← insert 2 4 (0, 2)%nat 3 30; _ ← remove 2 4 (0, 3)%nat 1; _ ← collect_garbage 2 9; iterate 2 9 in
  match run p (new_map (V := Z) 2 []) with Ok (s, l) => l = [(2, 20); (3, 30)] /\ map fst (map_to_list (nodes s)) = [2; 1]%nat | _ => False end.
Proof. vm_compute. done. Qed.
