(* ===== verification/Ebr.v ===== *)
(** * Epoch-based reclamation (namespace ebr of containers/lock_free_ordered_map.h)

    Threads enter and leave critical sections and try to advance the global epoch, one access
    to a shared word at a time and in any order.  What holds the pool mutex is one step.  A
    move that does not apply where its thread stands changes nothing; a slot beyond the array
    is undefined.  Epochs are counted in [Z]: a [long] has room for 2^63 advances. *)

From stdpp Require Import gmap.
From S2P Require Import Prelude Memory.

Set Warnings "-clear-no-such-hyp".

Set Default Proof Using "Type".
#[local] Open Scope Z_scope.

Definition kMaxSlots : nat := 4096.

(** Where a thread stands in [Guard::Guard] and [announce], or the epoch it is pinned at. *)
Inductive pin_place := Unpinned | AnnounceLoad | AnnounceStore (e : Z) | AnnounceCheck (e : Z) | Pinned (e : Z).

(** Where it stands in [try_advance]: with the epoch it loaded, the number of slots to scan and
    the next of them. *)
Inductive advance_place := Idle | LoadWatermark (e : Z) | Scan (e : Z) (n i : nat).

(** [ThreadReg]: an id between its acquisition and its release, which is two steps. *)
Inductive registration := Unregistered | Registered (id : nat) | Releasing (id : nat).

Record Thread := mkThread { reg : registration; nest_count : nat; pin : pin_place; advancing : advance_place }.

Definition new_thread : Thread := mkThread Unregistered 0 Unpinned Idle.

Record EpochState := mkEpoch { current : Z; slots : gmap nat Z; free_ids : list nat; high_watermark : nat; thread_map : gmap nat Thread }.

Definition new_state : EpochState := mkEpoch 0 ∅ [] 0 ∅.

Definition thread_of (s : EpochState) (t : nat) : Thread := default new_thread (thread_map s !! t).
Definition with_thread (s : EpochState) (t : nat) (x : Thread) : EpochState := mkEpoch (current s) (slots s) (free_ids s) (high_watermark s) (<[t := x]> (thread_map s)).

(** A slot that nobody wrote holds -1. *)
Definition slot (s : EpochState) (id : nat) : res Z := if (id <? kMaxSlots)%nat then Ok (default (-1) (slots s !! id)) else Undef.
Definition store_slot (s : EpochState) (id : nat) (e : Z) : res EpochState :=
  if (id <? kMaxSlots)%nat then Ok (mkEpoch (current s) (<[id := e]> (slots s)) (free_ids s) (high_watermark s) (thread_map s)) else Undef.

Definition get_current (s : EpochState) : Z := current s.

Definition with_pin (x : Thread) (p : pin_place) : Thread := mkThread (reg x) (nest_count x) p (advancing x).
Definition with_advance (x : Thread) (a : advance_place) : Thread := mkThread (reg x) (nest_count x) (pin x) a.

(** [free_ids] has its back at the head of the list. *)
Definition acquire_id (s : EpochState) (t : nat) : EpochState :=
  let x := thread_of s t in
  match free_ids s with
  | id :: ids => with_thread (mkEpoch (current s) (slots s) ids (high_watermark s) (thread_map s)) t (mkThread (Registered id) (nest_count x) (pin x) (advancing x))
  | [] => with_thread (mkEpoch (current s) (slots s) [] (S (high_watermark s)) (thread_map s)) t (mkThread (Registered (high_watermark s)) (nest_count x) (pin x) (advancing x))
  end.

(** The store, then the push under the mutex. *)
Definition release_id (s : EpochState) (t id : nat) : res EpochState :=
  let x := thread_of s t in
  s ← store_slot s id (-1); Ok (with_thread s t (mkThread (Releasing id) (nest_count x) (pin x) (advancing x))).

Definition release_push (s : EpochState) (t id : nat) : EpochState :=
  let x := thread_of s t in
  with_thread (mkEpoch (current s) (slots s) (id :: free_ids s) (high_watermark s) (thread_map s)) t (mkThread Unregistered (nest_count x) (pin x) (advancing x)).

(** One access of [announce]. *)
Definition announce_step (s : EpochState) (t id : nat) : res EpochState :=
  let x := thread_of s t in
  match pin x with
  | AnnounceLoad => Ok (with_thread s t (with_pin x (AnnounceStore (current s))))
  | AnnounceStore e => s ← store_slot s id e; Ok (with_thread s t (with_pin x (AnnounceCheck e)))
  | AnnounceCheck e => Ok (with_thread s t (with_pin x (if current s =? e then Pinned e else AnnounceLoad)))
  | Unpinned | Pinned _ => Ok s
  end.

Definition unannounce (s : EpochState) (id : nat) : res EpochState := store_slot s id (-1).

(** [Guard::Guard] and [Guard::~Guard]: the outermost guard announces. *)
Definition guard_enter (s : EpochState) (t : nat) : EpochState :=
  let x := thread_of s t in
  with_thread s t (mkThread (reg x) (S (nest_count x)) (if (nest_count x =? 0)%nat then AnnounceLoad else pin x) (advancing x)).

Definition guard_leave (s : EpochState) (t id : nat) : res EpochState :=
  let x := thread_of s t in
  if (nest_count x =? 1)%nat then s ← unannounce s id; Ok (with_thread s t (mkThread (reg x) 0 Unpinned (advancing x)))
  else Ok (with_thread s t (mkThread (reg x) (pred (nest_count x)) (pin x) (advancing x))).

(** One access of [try_advance]. *)
Definition advance_step (s : EpochState) (t : nat) : res EpochState :=
  let x := thread_of s t in
  match advancing x with
  | Idle => Ok (with_thread s t (with_advance x (LoadWatermark (current s))))
  | LoadWatermark e => Ok (with_thread s t (with_advance x (Scan e (high_watermark s) 0)))
  | Scan e n i =>
    if (i <? n)%nat then
      a ← slot s i;
      Ok (with_thread s t (with_advance x (if negb (a =? -1) && (a <? e) then Idle else Scan e n (S i))))
    else
      let s := if current s =? e then mkEpoch (e + 1) (slots s) (free_ids s) (high_watermark s) (thread_map s) else s in
      Ok (with_thread s t (with_advance x Idle))
  end.

Inductive move := Register (t : nat) | Exit (t : nat) | Enter (t : nat) | Announce (t : nat) | Leave (t : nat) | Advance (t : nat).

#[export] Instance move_eq_dec : EqDecision move.
Proof. solve_decision. Defined.

Definition is_pinned (p : pin_place) : bool := match p with Pinned _ => true | _ => false end.

Definition step (s : EpochState) (m : move) : res EpochState :=
  match m with
  | Register t => match reg (thread_of s t) with Unregistered => Ok (acquire_id s t) | _ => Ok s end
  | Exit t =>
    match reg (thread_of s t) with
    | Registered id => if (nest_count (thread_of s t) =? 0)%nat then release_id s t id else Ok s
    | Releasing id => Ok (release_push s t id)
    | Unregistered => Ok s
    end
  | Enter t => match reg (thread_of s t) with Registered _ => if (nest_count (thread_of s t) =? 0)%nat || is_pinned (pin (thread_of s t)) then Ok (guard_enter s t) else Ok s | _ => Ok s end
  | Announce t => match reg (thread_of s t) with Registered id => announce_step s t id | _ => Ok s end
  | Leave t => match reg (thread_of s t) with Registered id => if is_pinned (pin (thread_of s t)) then guard_leave s t id else Ok s | _ => Ok s end
  | Advance t => advance_step s t
  end.

Fixpoint steps (s : EpochState) (ms : list move) : res EpochState :=
  match ms with [] => Ok s | m :: ms => s ← step s m; steps s ms end.

(** ** Guards as values

    A guard is active or not; moving one takes its activity along. *)

Record Guard := mkGuard { active_ : bool }.

Definition Guard_move (o : Guard) : Guard * Guard := (mkGuard (active_ o), mkGuard false).

(** [g = move(o)]: whether the old section of [g] is left, and the two guards. *)
Definition Guard_assign (g o : Guard) : bool * Guard * Guard := (active_ g, mkGuard (active_ o), mkGuard false).

(** ** Invariant *)

Implicit Types (s : EpochState) (x : Thread).

Definition id_of x : option nat := match reg x with Registered id | Releasing id => Some id | Unregistered => None end.

(** What a scan that is under way knows: while the epoch is the one it loaded, every thread
    pinned behind it or registered after it is pinned at that epoch. *)
Definition scan_ok s (e : Z) (n i : nat) : Prop :=
  0 <= e <= current s /\ (n <= high_watermark s)%nat /\
  (current s = e -> forall u p id, pin (thread_of s u) = Pinned p -> reg (thread_of s u) = Registered id -> (id < i \/ n <= id)%nat -> e <= p).

Definition advance_ok s x : Prop :=
  match advancing x with Idle => True | LoadWatermark e => 0 <= e <= current s | Scan e n i => scan_ok s e n i end.

(** What a thread on its way into a critical section has published. *)
Definition pin_ok s x : Prop :=
  match pin x with
  | Unpinned => True
  | AnnounceLoad => nest_count x <> 0%nat /\ exists id, reg x = Registered id
  | AnnounceStore e => 0 <= e <= current s /\ nest_count x <> 0%nat /\ exists id, reg x = Registered id
  | AnnounceCheck e => 0 <= e <= current s /\ nest_count x <> 0%nat /\ exists id, reg x = Registered id /\ slots s !! id = Some e
  | Pinned e => 0 <= e <= current s /\ current s <= e + 1 /\ nest_count x <> 0%nat /\ exists id, reg x = Registered id /\ slots s !! id = Some e
  end.

Record inv s : Prop := {
  e_current : 0 <= current s;
  e_ids : forall u id, id_of (thread_of s u) = Some id -> (id < high_watermark s)%nat /\ id ∉ free_ids s;
  e_unique : forall u v id, id_of (thread_of s u) = Some id -> id_of (thread_of s v) = Some id -> u = v;
  e_free : NoDup (free_ids s) /\ forall id, id ∈ free_ids s -> (id < high_watermark s)%nat;
  e_pin : forall u, pin_ok s (thread_of s u);
  e_advance : forall u, advance_ok s (thread_of s u);
}.

Lemma thread_of_with s t x u : thread_of (with_thread s t x) u = if decide (u = t) then x else thread_of s u.
Proof. unfold thread_of, with_thread. cbn. case_decide as E; [subst; by rewrite lookup_insert_eq|by rewrite lookup_insert_ne]. Qed.

Lemma pin_ok_slots s s' x : pin_ok s x -> current s' = current s -> (forall id, reg x = Registered id -> slots s' !! id = slots s !! id) -> pin_ok s' x.
Proof.
  unfold pin_ok. intros H Ec Hs. destruct (pin x); rewrite ?Ec; [done|done|done| |].
  - destruct H as (? & ? & id & Er & E). do 2 (split; [done|]). exists id. by rewrite Hs.
  - destruct H as (? & ? & ? & id & Er & E). do 3 (split; [done|]). exists id. by rewrite Hs.
Qed.

(** One thread moves, and may write its own slot. *)
Lemma ebr_inv_local s t x sl : let s' := with_thread (mkEpoch (current s) sl (free_ids s) (high_watermark s) (thread_map s)) t x in
  inv s -> id_of x = id_of (thread_of s t) -> (forall id, id_of (thread_of s t) <> Some id -> sl !! id = slots s !! id) ->
  pin_ok s' x -> (forall p, pin x = Pinned p -> pin (thread_of s t) = Pinned p /\ reg x = reg (thread_of s t) \/ p = current s) ->
  match advancing x with Idle => True | LoadWatermark e => 0 <= e <= current s | Scan e n i => scan_ok s e n i end -> inv s'.
Proof.
  intros s' [H1 H2 H3 H4 H5 H6] Eid Hsl Hp Hpin Ha.
  assert (ET : forall u, thread_of s' u = if decide (u = t) then x else thread_of s u) by (intros u; unfold s'; rewrite thread_of_with; done).
  assert (Hid : forall u, id_of (thread_of s' u) = id_of (thread_of s u)) by (intros u; rewrite ET; case_decide; subst; done).
  assert (Hscan : forall e n i, scan_ok s e n i -> scan_ok s' e n i).
  { intros e n i (A1 & A2 & A3). do 2 (split; [done|]). intros Ec u p id. rewrite ET. case_decide as D; [|by apply A3]. subst u. intros Ep Er Hi.
    destruct (Hpin p Ep) as [[Ep' Er']| ->]; [apply (A3 Ec t p id Ep'); [congruence|done]|cbn in Ec; lia]. }
  split; try done.
  - intros u id. rewrite Hid. apply H2.
  - intros u v id. rewrite !Hid. apply H3.
  - intros u. rewrite ET. case_decide as D; [done|]. apply (pin_ok_slots s); [apply H5|done|]. intros id Er. cbn. apply Hsl. intros Et. apply D, (H3 u t id); [unfold id_of; by rewrite Er|done].
  - intros u. rewrite ET. unfold advance_ok. case_decide as D.
    + destruct (advancing x); [done|done|by apply Hscan].
    + pose proof (H6 u) as Hu. unfold advance_ok in Hu. destruct (advancing (thread_of s u)); [done|done|by apply Hscan].
Qed.

(** The same without the write. *)
Lemma inv_thread s t x : inv s -> id_of x = id_of (thread_of s t) -> pin_ok s x ->
  (forall p, pin x = Pinned p -> pin (thread_of s t) = Pinned p /\ reg x = reg (thread_of s t) \/ p = current s) ->
  match advancing x with Idle => True | LoadWatermark e => 0 <= e <= current s | Scan e n i => scan_ok s e n i end -> inv (with_thread s t x).
Proof. intros H Eid Hp Hpin Ha. apply (ebr_inv_local s t x (slots s)); done. Qed.

Lemma announce_slot_ok s id e s' : store_slot s id e = Ok s' -> s' = mkEpoch (current s) (<[id := e]> (slots s)) (free_ids s) (high_watermark s) (thread_map s).
Proof. unfold store_slot. destruct (_ <? _)%nat; [by intros [= <-]|done]. Qed.

Lemma pinned_registered s x : pin_ok s x -> pin x = Unpinned \/ nest_count x <> 0%nat /\ exists id, reg x = Registered id.
Proof.
  unfold pin_ok. intros H. destruct (pin x); [by left|..]; right.
  - done.
  - by destruct H as (_ & ? & ?).
  - destruct H as (_ & ? & id & ? & _). eauto.
  - destruct H as (_ & _ & ? & id & ? & _). eauto.
Qed.

Lemma inv_acquire s t : inv s -> reg (thread_of s t) = Unregistered -> inv (acquire_id s t).
Proof.
  intros [H1 H2 H3 H4 H5 H6] Er. unfold acquire_id. set (x := thread_of s t) in *.
  assert (Hpin : pin x = Unpinned) by (destruct (pinned_registered s x (H5 t)) as [|[_ [id E]]]; congruence).
  assert (Hidx : id_of x = None) by (unfold id_of; by rewrite Er).
  assert (Hgen : forall id ids hw, (id < hw)%nat -> id ∉ ids -> (forall u, id_of (thread_of s u) <> Some id) -> (high_watermark s <= hw)%nat -> NoDup ids -> (forall j, j ∈ ids -> j ∈ free_ids s) ->
    inv (with_thread (mkEpoch (current s) (slots s) ids hw (thread_map s)) t (mkThread (Registered id) (nest_count x) (pin x) (advancing x)))).
  { intros id ids hw Hid Hnin Hnone Hhw Hnd Hsub. set (s' := with_thread _ _ _). assert (ET : forall u, thread_of s' u = if decide (u = t) then mkThread (Registered id) (nest_count x) (pin x) (advancing x) else thread_of s u) by (intros u; unfold s'; by rewrite thread_of_with).
    assert (Hscan : forall e n i, scan_ok s e n i -> scan_ok s' e n i).
    { intros e n i (A1 & A2 & A3). split; [done|]. split; [cbn; lia|]. intros Ec u p j. rewrite ET. case_decide; [cbn; congruence|by apply A3]. }
    split; try done.
    - intros u j. rewrite ET. case_decide as D; [cbn; by intros [= <-]|]. intros Ej. destruct (H2 u j Ej). cbn. split; [lia|]. intros Hj. by apply Hsub in Hj.
    - intros u v j. rewrite !ET. repeat case_decide; subst; cbn; try done; [by intros [= <-] Ev; destruct (Hnone v)|by intros Eu [= <-]; destruct (Hnone u)|apply H3].
    - split; [done|]. intros j Hj. cbn. destruct H4 as [_ H4]. specialize (H4 j (Hsub j Hj)). lia.
    - intros u. rewrite ET. case_decide as D; [unfold pin_ok; cbn; by rewrite Hpin|]. by apply (pin_ok_slots s).
    - intros u. rewrite ET. unfold advance_ok. case_decide as D; cbn [advancing].
      + pose proof (H6 t) as Hu. unfold advance_ok in Hu. fold x in Hu. destruct (advancing x); [done|done|by apply Hscan].
      + pose proof (H6 u) as Hu. unfold advance_ok in Hu. destruct (advancing (thread_of s u)); [done|done|by apply Hscan]. }
  destruct (free_ids s) as [|id ids] eqn:Ef.
  - apply Hgen; [lia|set_solver|intros u E; destruct (H2 u _ E); lia|lia|constructor|done].
  - destruct H4 as [Hnd Hlt]. apply list.NoDup_cons in Hnd as [Hn Hnd]. apply Hgen; [apply Hlt; set_solver|done|intros u E; destruct (H2 u _ E); set_solver|lia|done|set_solver].
Qed.

Lemma inv_push s t id : inv s -> reg (thread_of s t) = Releasing id -> inv (release_push s t id).
Proof.
  intros [H1 H2 H3 H4 H5 H6] Er. unfold release_push. set (x := thread_of s t) in *. set (s' := with_thread _ _ _).
  assert (Hpin : pin x = Unpinned) by (destruct (pinned_registered s x (H5 t)) as [|[_ [j E]]]; congruence).
  assert (Hidx : id_of x = Some id) by (unfold id_of; by rewrite Er).
  assert (ET : forall u, thread_of s' u = if decide (u = t) then mkThread Unregistered (nest_count x) (pin x) (advancing x) else thread_of s u) by (intros u; unfold s'; by rewrite thread_of_with).
  assert (Hscan : forall e n i, scan_ok s e n i -> scan_ok s' e n i).
  { intros e n i (A1 & A2 & A3). do 2 (split; [done|]). intros Ec u p j. rewrite ET. case_decide; [cbn; congruence|by apply A3]. }
  destruct (H2 t id Hidx) as [Hlt Hnin]. split; try done.
  - intros u j. rewrite ET. case_decide as D; [done|]. intros Ej. destruct (H2 u j Ej) as [Hj Hnj]. split; [done|]. cbn.
    intros [->|?]%elem_of_cons; [|done]. by apply D, (H3 u t id).
  - intros u v j. rewrite !ET. repeat case_decide; try done. apply H3.
  - cbn. destruct H4 as [Hnd Hf]. split; [by constructor|]. intros j [->|Hj]%elem_of_cons; [done|by apply Hf].
  - intros u. rewrite ET. case_decide as D; [unfold pin_ok; cbn; by rewrite Hpin|]. by apply (pin_ok_slots s).
  - intros u. rewrite ET. unfold advance_ok. case_decide as D; cbn [advancing].
    + pose proof (H6 t) as Hu. unfold advance_ok in Hu. fold x in Hu. destruct (advancing x); [done|done|by apply Hscan].
    + pose proof (H6 u) as Hu. unfold advance_ok in Hu. destruct (advancing (thread_of s u)); [done|done|by apply Hscan].
Qed.

(** The epoch is advanced by a scan that found nobody behind it. *)
Lemma inv_bump s e n i : inv s -> scan_ok s e n i -> (n <= i)%nat -> current s = e ->
  inv (mkEpoch (e + 1) (slots s) (free_ids s) (high_watermark s) (thread_map s)).
Proof.
  intros [H1 H2 H3 H4 H5 H6] (A1 & A2 & A3) Hni Ec. set (s' := mkEpoch _ _ _ _ _). split; cbn; try done; try lia.
  - intros u. change (thread_of s' u) with (thread_of s u). pose proof (H5 u) as Hu. pose proof (A3 Ec u) as Hp. unfold pin_ok in *. cbn. destruct (pin (thread_of s u)) as [| |a|a|a]; [done|done| | |].
    + destruct Hu as (? & ?). split; [lia|done].
    + destruct Hu as (? & ?). split; [lia|done].
    + destruct Hu as (Ha & Ha' & Hn & id & Er & Es). specialize (Hp a id eq_refl Er ltac:(lia)). split; [lia|]. split; [lia|]. eauto.
  - intros u. change (thread_of s' u) with (thread_of s u). pose proof (H6 u) as Hu. unfold advance_ok in *. destruct (advancing (thread_of s u)) as [|e'|e' n' i']; [done|cbn; lia|].
    destruct Hu as (B1 & B2 & _). split; [cbn; lia|]. split; [done|]. cbn. lia.
Qed.

Lemma inv_advance s t s' : inv s -> advance_step s t = Ok s' -> inv s'.
Proof.
  intros H. pose proof (e_advance s H t) as Ha. unfold advance_ok in Ha. unfold advance_step. set (x := thread_of s t) in *.
  assert (Hx : forall a, match a with Idle => True | LoadWatermark e => 0 <= e <= current s | Scan e n i => scan_ok s e n i end -> inv (with_thread s t (with_advance x a))).
  { intros a Hax. apply inv_thread; try done; [exact (e_pin s H t)|]. intros p Ep. by left. }
  destruct (advancing x) as [|e|e n i]; [intros [= <-]|intros [= <-]|].
  - apply Hx. pose proof (e_current s H). lia.
  - apply Hx. split; [done|]. split; [done|]. intros Ec u p id Ep Er Hid. assert (Hi : id_of (thread_of s u) = Some id) by (unfold id_of; by rewrite Er). destruct (e_ids s H u id Hi). lia.
  - destruct (Nat.ltb_spec i n) as [Hi|Hi].
    + destruct (slot s i) as [a| |] eqn:Es; [|done|done]. cbn [mbind res_bind]. intros [= <-]. destruct (negb (a =? -1) && (a <? e)) eqn:Eb; [by apply Hx|]. apply Hx. destruct Ha as (A1 & A2 & A3). do 2 (split; [done|]). intros Ec u p id Ep Er Hid.
      destruct (decide (id = i)) as [->|Hne]; [|apply (A3 Ec u p id Ep Er); lia]. pose proof (e_pin s H u) as Hu. unfold pin_ok in Hu. rewrite Ep in Hu. destruct Hu as (Hp & _ & _ & id' & Er' & Esl).
      assert (id' = i) as -> by congruence. unfold slot in Es. rewrite Esl in Es. destruct (i <? kMaxSlots)%nat; [|done]. cbn in Es. injection Es as <-. apply andb_false_iff in Eb as [Eb|Eb]; [apply negb_false_iff, Z.eqb_eq in Eb; lia|apply Z.ltb_ge in Eb; lia].
    + intros [= <-]. destruct (Z.eqb_spec (current s) e) as [Ec|Ec]; [|by apply Hx].
      pose proof (inv_bump s e n i H Ha Hi Ec) as H'. apply inv_thread; try done.
      * pose proof (e_pin _ H' t) as Hp. exact Hp.
      * intros p Ep. by left.
Qed.

Lemma ebr_step_inv s m s' : inv s -> step s m = Ok s' -> inv s'.
Proof.
  intros H. pose proof (fun t => e_pin s H t) as Hpin. pose proof (fun t => e_advance s H t) as Hadv. destruct m as [t|t|t|t|t|t]; cbn [step]; [..|by apply inv_advance].
  - destruct (reg (thread_of s t)) eqn:Er; intros [= <-]; [by apply inv_acquire|done|done].
  - destruct (reg (thread_of s t)) as [|id|id] eqn:Er; [by intros [= <-]| |intros [= <-]; by apply inv_push].
    destruct (Nat.eqb_spec (nest_count (thread_of s t)) 0) as [En|En]; [|by intros [= <-]]. unfold release_id. destruct (store_slot s id (-1)) as [s1| |] eqn:Es; [|done|done]. apply announce_slot_ok in Es as ->. intros [= <-].
    destruct (pinned_registered s _ (Hpin t)) as [Hu|[? _]]; [|done].
    apply ebr_inv_local; try done; [unfold id_of; cbn; by rewrite Er|intros j Hj; apply lookup_insert_ne; unfold id_of in Hj; rewrite Er in Hj; congruence|unfold pin_ok; cbn; by rewrite Hu|cbn; intros p Ep; congruence|exact (Hadv t)].
  - destruct (reg (thread_of s t)) as [|id|id] eqn:Er; [by intros [= <-]| |by intros [= <-]].
    destruct ((nest_count (thread_of s t) =? 0)%nat || is_pinned (pin (thread_of s t))) eqn:Eb; [|by intros [= <-]]. intros [= <-]. unfold guard_enter.
    apply inv_thread; try done; [|cbn; intros p; case_match; [done|]; intros Ep; by left|exact (Hadv t)].
    pose proof (Hpin t) as Hp. unfold pin_ok in *. cbn. destruct (Nat.eqb_spec (nest_count (thread_of s t)) 0) as [En|En]; [eauto|]. destruct (pin (thread_of s t)); try done.
    destruct Hp as (? & ? & ? & ?). eauto.
  - destruct (reg (thread_of s t)) as [|id|id] eqn:Er; [by intros [= <-]| |by intros [= <-]]. unfold announce_step.
    pose proof (Hpin t) as Hp. unfold pin_ok in Hp. destruct (pin (thread_of s t)) as [| |e|e|e] eqn:Ep; [by intros [= <-]|intros [= <-]| |intros [= <-]|by intros [= <-]].
    + apply inv_thread; try done; [|exact (Hadv t)]. unfold pin_ok. cbn. destruct Hp as [? ?]. pose proof (e_current s H). split; [lia|done].
    + destruct (store_slot s id e) as [s1| |] eqn:Es; [|done|done]. apply announce_slot_ok in Es as ->. intros [= <-].
      apply ebr_inv_local; try done; [intros j Hj; apply lookup_insert_ne; unfold id_of in Hj; rewrite Er in Hj; congruence| |exact (Hadv t)].
      destruct Hp as (? & ? & _). unfold pin_ok. cbn. do 2 (split; [done|]). exists id. split; [done|apply lookup_insert_eq].
    + destruct Hp as (Hp & Hn & Hex). apply inv_thread; try done; [| |exact (Hadv t)].
      * unfold pin_ok. cbn. destruct (Z.eqb_spec (current s) e) as [Ec|Ec]; [split; [done|]; split; [lia|done]|]. destruct Hex as (j & ? & _). eauto.
      * cbn. intros p. destruct (Z.eqb_spec (current s) e) as [Ec|Ec]; [|done]. intros [= <-]. by right.
  - destruct (reg (thread_of s t)) as [|id|id] eqn:Er; [by intros [= <-]| |by intros [= <-]].
    destruct (is_pinned (pin (thread_of s t))) eqn:Eb; [|by intros [= <-]]. unfold guard_leave, unannounce. destruct (Nat.eqb_spec (nest_count (thread_of s t)) 1) as [En|En].
    + destruct (store_slot s id (-1)) as [s1| |] eqn:Es; [|done|done]. apply announce_slot_ok in Es as ->. intros [= <-].
      apply ebr_inv_local; try done; [intros j Hj; apply lookup_insert_ne; unfold id_of in Hj; rewrite Er in Hj; congruence|exact (Hadv t)].
    + intros [= <-]. apply inv_thread; try done; [|intros p Ep; by left|exact (Hadv t)]. pose proof (Hpin t) as Hp. unfold pin_ok in *. cbn. destruct (pin (thread_of s t)); try done.
      destruct Hp as (? & ? & ? & ?). repeat split; try done; lia.
Qed.

(** ** The grace period *)

Lemma new_state_inv : inv new_state.
Proof.
  assert (E : forall u, thread_of new_state u = new_thread) by (intros u; unfold thread_of, new_state; cbn; by rewrite lookup_empty).
  split; try done; try (intros u; rewrite E; done).
  split; [constructor|]. intros id Hid. by apply not_elem_of_nil in Hid.
Qed.

Lemma steps_inv s ms s' : inv s -> steps s ms = Ok s' -> inv s'.
Proof.
  revert s. induction ms as [|m ms IH]; intros s H; cbn [steps]; [by intros [= <-]|]. destruct (step s m) as [s1| |] eqn:E; [|done|done]. cbn. apply IH. by eapply ebr_step_inv.
Qed.

Definition reachable s : Prop := exists ms, steps new_state ms = Ok s.

Lemma ebr_reachable_inv s : reachable s -> inv s.
Proof. intros [ms H]. exact (steps_inv _ _ _ new_state_inv H). Qed.

(** Thread [t] is in one critical section all along. *)
Fixpoint inside (t : nat) s (ms : list move) : Prop :=
  is_pinned (pin (thread_of s t)) = true /\
  match ms with [] => True | m :: ms => match step s m with Ok s' => inside t s' ms | _ => True end end.

(** What a step makes of a thread that stays pinned. *)
Lemma pinned_with s s1 u x t p q : (forall v, thread_of s1 v = thread_of s v) -> pin (thread_of s t) = Pinned p ->
  (u = t -> pin x = Pinned p \/ pin x = Unpinned) -> pin (thread_of (with_thread s1 u x) t) = Pinned q -> q = p.
Proof.
  intros Hv Ep Hx. rewrite thread_of_with. case_decide as D; [|rewrite Hv; congruence]. intros Eq. destruct (Hx (eq_sym D)); congruence.
Qed.

Lemma store_threads s id e s1 : store_slot s id e = Ok s1 -> forall v, thread_of s1 v = thread_of s v.
Proof. by intros ->%announce_slot_ok. Qed.

Lemma pinned_advance s u s' t p q : advance_step s u = Ok s' -> pin (thread_of s t) = Pinned p -> pin (thread_of s' t) = Pinned q -> q = p.
Proof.
  unfold advance_step. intros Hs Ep. destruct (advancing (thread_of s u)) as [|e|e n i]; [injection Hs as <-|injection Hs as <-|].
  - apply (pinned_with s); try done. intros ->. by left.
  - apply (pinned_with s); try done. intros ->. by left.
  - destruct (_ <? _)%nat.
    + destruct (slot s i); [|done|done]. injection Hs as <-. apply (pinned_with s); try done. intros ->. by left.
    + injection Hs as <-. apply (pinned_with s); [intros v; by destruct (_ =? _)|done|]. intros ->. by left.
Qed.

(** No step takes a thread from one epoch to another while it is pinned. *)
Lemma pinned_step s m s' t p q : inv s -> step s m = Ok s' -> pin (thread_of s t) = Pinned p -> pin (thread_of s' t) = Pinned q -> q = p.
Proof.
  intros H Hs Ep. destruct m as [u|u|u|u|u|u]; cbn [step] in Hs; [..|by eapply pinned_advance];
    (destruct (reg (thread_of s u)) as [|id|id] eqn:Er; [try (injection Hs as <-; congruence)| |try (injection Hs as <-; congruence)]); try (injection Hs as <-; congruence).
  - injection Hs as <-. unfold acquire_id. destruct (free_ids s); apply (pinned_with s); try done; intros ->; by left.
  - destruct (_ =? _)%nat; [|injection Hs as <-; congruence]. unfold release_id in Hs. destruct (store_slot s id (-1)) eqn:Es; [|done|done]. injection Hs as <-.
    apply (pinned_with s); [by eapply store_threads|done|intros ->; by left].
  - injection Hs as <-. apply (pinned_with s); [done|done|intros ->; by left].
  - destruct (_ || _); injection Hs as <-; [|congruence]. apply (pinned_with s); [done|done|]. intros ->. cbn. left.
    pose proof (e_pin s H t) as Hp. unfold pin_ok in Hp. rewrite Ep in Hp. destruct Hp as (_ & _ & Hn & _). by rewrite (proj2 (Nat.eqb_neq _ _) Hn).
  - unfold announce_step in Hs. destruct (pin (thread_of s u)) as [| |e|e|e] eqn:Eu; try (injection Hs as <-; congruence).
    + injection Hs as <-. apply (pinned_with s); [done|done|intros ->; congruence].
    + destruct (store_slot s id e) eqn:Es; [|done|done]. injection Hs as <-. apply (pinned_with s); [by eapply store_threads|done|intros ->; congruence].
    + injection Hs as <-. apply (pinned_with s); [done|done|intros ->; congruence].
  - destruct (is_pinned (pin (thread_of s u))); [|injection Hs as <-; congruence]. unfold guard_leave, unannounce in Hs. destruct (_ =? _)%nat.
    + destruct (store_slot s id (-1)) eqn:Es; [|done|done]. injection Hs as <-. apply (pinned_with s); [by eapply store_threads|done|intros ->; by right].
    + injection Hs as <-. apply (pinned_with s); [done|done|intros ->; by left].
Qed.

Lemma inside_pinned ms t s s' p : inv s -> steps s ms = Ok s' -> inside t s ms -> pin (thread_of s t) = Pinned p -> pin (thread_of s' t) = Pinned p.
Proof.
  revert s. induction ms as [|m ms IH]; intros s H; cbn [steps inside]; [by intros [= <-]|]. destruct (step s m) as [s1| |] eqn:E; [|done|done]. cbn. intros Hs [_ Hin] Ep.
  assert (Hq : exists q, pin (thread_of s1 t) = Pinned q) by (destruct ms; destruct Hin as [Hi _]; destruct (pin (thread_of s1 t)); try done; eauto). destruct Hq as [q Eq].
  pose proof (pinned_step s m s1 t p q H E Ep Eq) as ->. apply (IH s1); try done. by eapply ebr_step_inv.
Qed.

(** C27. The grace period: while a thread stays in one critical section the global epoch moves at
    most one past where it was when anything was retired meanwhile.  A node stamped with the epoch
    [get_current] at a time the thread is inside is therefore not freed, by the test
    [retired_epoch + 2 <= get_current], before the thread has left. *)
Theorem EBR_grace_period s ms s' t : reachable s -> steps s ms = Ok s' -> inside t s ms -> get_current s' < get_current s + 2.
Proof.
  intros H%ebr_reachable_inv Hs Hin. assert (Hp : exists p, pin (thread_of s t) = Pinned p) by (destruct ms; destruct Hin as [Hi _]; destruct (pin (thread_of s t)); try done; eauto).
  destruct Hp as [p Ep]. pose proof (inside_pinned ms t s s' p H Hs Hin Ep) as Ep'. pose proof (steps_inv s ms s' H Hs) as H'.
  pose proof (e_pin s H t) as Hs1. pose proof (e_pin s' H' t) as Hs2. unfold pin_ok in *. rewrite Ep in Hs1. rewrite Ep' in Hs2. unfold get_current. lia.
Qed.

(** Thread 0 stays inside while thread 1 enters, leaves and advances as often as it can. *)
Definition busy : list move := concat (repeat [Enter 1; Announce 1; Announce 1; Announce 1; Leave 1; Advance 1; Advance 1; Advance 1; Advance 1; Advance 1] 5)%nat.
Definition entered : list move := [Register 0; Register 1; Enter 0; Announce 0; Announce 0; Announce 0]%nat.
Definition after_steps (ms : list move) s : EpochState := match steps s ms with Ok s => s | _ => s end.

Lemma EBR_grace_period_witness : let s := after_steps entered new_state in
  get_current s = 0 /\ get_current (after_steps busy s) = 1 /\ get_current (after_steps busy s) < get_current s + 2.
Proof.
  intros s. split; [reflexivity|]. split; [vm_compute; reflexivity|].
  apply (EBR_grace_period s busy (after_steps busy s) 0); [exists entered; reflexivity|vm_compute; reflexivity|vm_compute; tauto].
Defined.

(** ** Progress *)

(** When nobody is pinned behind it, a thread that runs alone advances the epoch. *)
Lemma scan_alone s t e n i : advancing (thread_of s t) = Scan e n i -> (i <= n <= kMaxSlots)%nat ->
  (forall j, (i <= j < n)%nat -> default (-1) (slots s !! j) = -1 \/ e <= default (-1) (slots s !! j)) ->
  exists s', steps s (repeat (Advance t) (n - i)) = Ok s' /\ advancing (thread_of s' t) = Scan e n n /\ current s' = current s.
Proof.
  intros Ea Hin. remember (n - i)%nat as k eqn:Ek. revert s i Ea Hin Ek. induction k as [|k IH]; intros s i Ea Hin Ek Hsl.
  - exists s. replace n with i at 2 by lia. done.
  - cbn [repeat steps step]. unfold advance_step. rewrite Ea, (proj2 (Nat.ltb_lt i n)) by lia. unfold slot. rewrite (proj2 (Nat.ltb_lt i kMaxSlots)) by lia. cbn [mbind res_bind].
    assert (Eb : negb (default (-1) (slots s !! i) =? -1) && (default (-1) (slots s !! i) <? e) = false).
    { destruct (Hsl i ltac:(lia)) as [->|Hge]; [done|]. apply andb_false_iff. right. apply Z.ltb_ge. lia. }
    rewrite Eb. destruct (IH (with_thread s t (with_advance (thread_of s t) (Scan e n (S i)))) (S i)) as (s' & E & Es & Ec); [rewrite thread_of_with; by rewrite decide_True|lia|lia|intros j Hj; apply Hsl; lia|].
    exists s'. split; [exact E|done].
Qed.

Lemma advance_alone s t : advancing (thread_of s t) = Idle -> (high_watermark s <= kMaxSlots)%nat ->
  (forall j, (j < high_watermark s)%nat -> default (-1) (slots s !! j) = -1 \/ current s <= default (-1) (slots s !! j)) ->
  exists s', steps s (Advance t :: Advance t :: repeat (Advance t) (high_watermark s) ++ [Advance t]) = Ok s' /\ current s' = current s + 1.
Proof.
  intros Ea Hw Hsl. assert (Happ : forall l1 l2 s0 s1, steps s0 l1 = Ok s1 -> steps s0 (l1 ++ l2) = steps s1 l2).
  { intros l1 l2. induction l1 as [|m l1 IH]; intros s0 s1; cbn [steps app]; [by intros [= <-]|]. destruct (step s0 m); [|done|done]. cbn. apply IH. }
  set (s0 := with_thread s t (with_advance (thread_of s t) (LoadWatermark (current s)))).
  assert (E0 : advance_step s t = Ok s0) by (unfold advance_step; by rewrite Ea).
  assert (Ea0 : advancing (thread_of s0 t) = LoadWatermark (current s)) by (unfold s0; rewrite thread_of_with; by rewrite decide_True).
  set (s1 := with_thread s0 t (with_advance (thread_of s0 t) (Scan (current s) (high_watermark s) 0))).
  assert (E1 : advance_step s0 t = Ok s1) by (unfold advance_step; by rewrite Ea0).
  cbn [steps step]. rewrite E0. cbn [mbind res_bind]. rewrite E1. cbn [mbind res_bind]. destruct (scan_alone s1 t (current s) (high_watermark s) 0) as (s2 & E2 & Ea2 & Ec2); [unfold s1; rewrite thread_of_with; by rewrite decide_True|lia|intros j Hj; apply Hsl; lia|].
  rewrite Nat.sub_0_r in E2. rewrite (Happ _ _ _ _ E2). cbn [steps step]. unfold advance_step. rewrite Ea2, Nat.ltb_irrefl. cbn [mbind res_bind]. rewrite Ec2. change (current s1) with (current s). rewrite Z.eqb_refl. eexists. split; [done|done].
Qed.
