(* ===== verification/LockFreeOrderedMap.v ===== *)
(** * base::LockFreeOrderedHashMap (containers/lock_free_ordered_map.h)

    A hash map over chains of nodes that also links its nodes in the order of their insertion,
    with marked deletion, a stack of nodes the collector has not seen, and reclamation by
    epochs.  Operations are programs over the shared state, one step per atomic access, as the
    thread [t] that runs them; a freed node cannot be accessed.  [weak_] says which of the
    coming weak exchanges fail for no reason. *)

From stdpp Require Import gmap.
From S2P Require Import Prelude Memory Interleaving Ebr.

Set Default Proof Using "Type".
#[local] Open Scope Z_scope.

Section LockFreeOrderedMap.

(** [moved] is what moving a key leaves behind. *)
Context {K V : Type} (key_eqb : K -> K -> bool) (keyHasher : K -> Z) (moved : K -> K).

Record Node := mkNode {
  key : K; value : V; bucketNext : option nat; orderNext : option nat; is_deleted : bool;
  staging_next : option nat; bucket_swept : bool; order_swept : bool; retired_epoch : Z }.

Record Map := mkMap {
  nodes : gmap nat Node; fresh : nat; buckets : list (option nat); orderHead : option nat; orderTail : option nat;
  staging_head_ : option nat; gc_mutex_ : bool; all_nodes_ : list nat; delete_since_gc_ : Z; op_count_ : Z;
  epoch : EpochState; weak_ : list bool }.

Abbreviation prog := (prog Map).

Definition new_map (count : nat) : Map := mkMap ∅ 0 (replicate (if (0 <? count)%nat then count else 1%nat) None) None None None false [] 0 0 new_state [].

Definition bucketCount (s : Map) : nat := length (buckets s).

(** ** Accesses *)

Definition node_at (s : Map) (a : nat) : res Node := match nodes s !! a with Some n => Ok n | None => Undef end.

Definition with_nodes (s : Map) (h : gmap nat Node) : Map :=
  mkMap h (fresh s) (buckets s) (orderHead s) (orderTail s) (staging_head_ s) (gc_mutex_ s) (all_nodes_ s) (delete_since_gc_ s) (op_count_ s) (epoch s) (weak_ s).
Definition with_buckets (s : Map) (b : list (option nat)) : Map :=
  mkMap (nodes s) (fresh s) b (orderHead s) (orderTail s) (staging_head_ s) (gc_mutex_ s) (all_nodes_ s) (delete_since_gc_ s) (op_count_ s) (epoch s) (weak_ s).
Definition with_order (s : Map) (h t : option nat) : Map :=
  mkMap (nodes s) (fresh s) (buckets s) h t (staging_head_ s) (gc_mutex_ s) (all_nodes_ s) (delete_since_gc_ s) (op_count_ s) (epoch s) (weak_ s).
Definition with_staging (s : Map) (p : option nat) : Map :=
  mkMap (nodes s) (fresh s) (buckets s) (orderHead s) (orderTail s) p (gc_mutex_ s) (all_nodes_ s) (delete_since_gc_ s) (op_count_ s) (epoch s) (weak_ s).
Definition with_gc (s : Map) (locked : bool) (all : list nat) : Map :=
  mkMap (nodes s) (fresh s) (buckets s) (orderHead s) (orderTail s) (staging_head_ s) locked all (delete_since_gc_ s) (op_count_ s) (epoch s) (weak_ s).
Definition with_counts (s : Map) (d o : Z) : Map :=
  mkMap (nodes s) (fresh s) (buckets s) (orderHead s) (orderTail s) (staging_head_ s) (gc_mutex_ s) (all_nodes_ s) d o (epoch s) (weak_ s).
Definition with_epoch (s : Map) (e : EpochState) : Map :=
  mkMap (nodes s) (fresh s) (buckets s) (orderHead s) (orderTail s) (staging_head_ s) (gc_mutex_ s) (all_nodes_ s) (delete_since_gc_ s) (op_count_ s) e (weak_ s).
Definition with_weak (s : Map) (w : list bool) : Map :=
  mkMap (nodes s) (fresh s) (buckets s) (orderHead s) (orderTail s) (staging_head_ s) (gc_mutex_ s) (all_nodes_ s) (delete_since_gc_ s) (op_count_ s) (epoch s) w.

Definition update_node (s : Map) (a : nat) (f : Node -> Node) : res Map := n ← node_at s a; Ok (with_nodes s (<[a := f n]> (nodes s))).

Definition set_bucketNext (p : option nat) (n : Node) : Node := mkNode (key n) (value n) p (orderNext n) (is_deleted n) (staging_next n) (bucket_swept n) (order_swept n) (retired_epoch n).
Definition set_orderNext (p : option nat) (n : Node) : Node := mkNode (key n) (value n) (bucketNext n) p (is_deleted n) (staging_next n) (bucket_swept n) (order_swept n) (retired_epoch n).
Definition set_deleted (n : Node) : Node := mkNode (key n) (value n) (bucketNext n) (orderNext n) true (staging_next n) (bucket_swept n) (order_swept n) (retired_epoch n).
Definition set_staging (p : option nat) (n : Node) : Node := mkNode (key n) (value n) (bucketNext n) (orderNext n) (is_deleted n) p (bucket_swept n) (order_swept n) (retired_epoch n).
Definition set_swept (b o : bool) (n : Node) : Node := mkNode (key n) (value n) (bucketNext n) (orderNext n) (is_deleted n) (staging_next n) (bucket_swept n || b) (order_swept n || o) (retired_epoch n).
Definition set_retired (e : Z) (n : Node) : Node := mkNode (key n) (value n) (bucketNext n) (orderNext n) (is_deleted n) (staging_next n) (bucket_swept n) (order_swept n) e.
Definition set_value (v : V) (n : Node) : Node := mkNode (key n) v (bucketNext n) (orderNext n) (is_deleted n) (staging_next n) (bucket_swept n) (order_swept n) (retired_epoch n).

(** The atomic pointers of the structure, as the code passes them around. *)
Inductive cell := CBucket (i : nat) | CNext (a : nat) | CHead | CTail | COrder (a : nat) | CStaging.

Definition read_cell (s : Map) (c : cell) : res (option nat) :=
  match c with
  | CBucket i => match buckets s !! i with Some p => Ok p | None => Undef end
  | CNext a => n ← node_at s a; Ok (bucketNext n)
  | CHead => Ok (orderHead s)
  | CTail => Ok (orderTail s)
  | COrder a => n ← node_at s a; Ok (orderNext n)
  | CStaging => Ok (staging_head_ s)
  end.

Definition write_cell (s : Map) (c : cell) (p : option nat) : res Map :=
  match c with
  | CBucket i => if (i <? bucketCount s)%nat then Ok (with_buckets s (<[i := p]> (buckets s))) else Undef
  | CNext a => update_node s a (set_bucketNext p)
  | CHead => Ok (with_order s p (orderTail s))
  | CTail => Ok (with_order s (orderHead s) p)
  | COrder a => update_node s a (set_orderNext p)
  | CStaging => Ok (with_staging s p)
  end.

Definition load (c : cell) : prog (option nat) := get (fun s => read_cell s c).
Definition store (c : cell) (p : option nat) : prog () := put (fun s => write_cell s c p).

(** Whether the exchange succeeded, and what it found. *)
Definition compare_exchange (s : Map) (c : cell) (expected desired : option nat) : res (Map * (bool * option nat)) :=
  found ← read_cell s c;
  if decide (found = expected) then s ← write_cell s c desired; Ok (s, (true, found)) else Ok (s, (false, found)).

Definition compare_exchange_strong (c : cell) (expected desired : option nat) : prog (bool * option nat) := act (fun s => compare_exchange s c expected desired).

Definition compare_exchange_weak (c : cell) (expected desired : option nat) : prog (bool * option nat) :=
  act (fun s =>
    let fails := match weak_ s with b :: _ => b | [] => false end in
    let s := with_weak s (tail (weak_ s)) in
    if fails then found ← read_cell s c; Ok (s, (false, found)) else compare_exchange s c expected desired).

Definition read_key (a : nat) : prog K := get (fun s => n ← node_at s a; Ok (key n)).
Definition read_value (a : nat) : prog V := get (fun s => n ← node_at s a; Ok (value n)).
Definition load_deleted (a : nat) : prog bool := get (fun s => n ← node_at s a; Ok (is_deleted n)).
Definition node_set (a : nat) (f : Node -> Node) : prog () := put (fun s => update_node s a f).

Definition new_node (k : K) (v : V) : prog nat :=
  act (fun s => Ok (mkMap (<[fresh s := mkNode k v None None false None false false (-1)]> (nodes s)) (S (fresh s)) (buckets s) (orderHead s) (orderTail s) (staging_head_ s) (gc_mutex_ s) (all_nodes_ s)
    (delete_since_gc_ s) (op_count_ s) (epoch s) (weak_ s), fresh s)).

Definition delete_node (a : nat) : prog () := put (fun s => _ ← node_at s a; Ok (with_nodes s (delete a (nodes s)))).

(** [is_deleted.compare_exchange_weak(false, true)] *)
Definition exchange_deleted (a : nat) : prog (bool * bool) :=
  act (fun s =>
    let fails := match weak_ s with b :: _ => b | [] => false end in
    let s := with_weak s (tail (weak_ s)) in
    n ← node_at s a;
    if fails || is_deleted n then Ok (s, (false, is_deleted n)) else s ← update_node s a set_deleted; Ok (s, (true, false))).

(** ** Epochs *)

Definition ebr (m : move) : prog () := put (fun s => e ← Ebr.step (epoch s) m; Ok (with_epoch s e)).

Definition pinned_at (t : nat) : prog bool := get (fun s => Ok (is_pinned (pin (thread_of (epoch s) t)))).

(** [Guard guard;] and its end. *)
Definition enter_guard (fuel t : nat) : prog () :=
  _ ← ebr (Register t);
  _ ← ebr (Enter t);
  forever fuel (fun _ : () => b ← pinned_at t; if b : bool then Ret (inr ()) else _ ← ebr (Announce t); Ret (inl ())) ().

Definition leave_guard (t : nat) : prog () := ebr (Leave t).

Definition try_advance (fuel t : nat) : prog () :=
  forever fuel (fun _ : () => _ ← ebr (Advance t); b ← get (fun s => Ok (match advancing (thread_of (epoch s) t) with Idle => true | _ => false end)); Ret (if b : bool then inr () else inl ())) ().

Definition get_epoch : prog Z := get (fun s => Ok (get_current (epoch s))).

(** ** Helpers *)

Definition hash_key (k : K) : prog nat := get (fun s => if (bucketCount s =? 0)%nat then Fatal else Ok (Z.to_nat (keyHasher k mod Z.of_nat (bucketCount s)))).

Definition find_in_bucket (fuel : nat) (k : K) : prog (option nat) :=
  index ← hash_key k;
  curr ← load (CBucket index);
  forever fuel (fun curr : option nat =>
    match curr with
    | None => Ret (inr None)
    | Some a => k' ← read_key a; if key_eqb k' k then Ret (inr (Some a)) else next ← load (CNext a); Ret (inl next)
    end) curr.

Definition unlink_turn (node : nat) (l : cell * option nat) : prog (cell * option nat + bool) :=
  let '(prev_ptr, curr) := l in
  match curr with
  | None => Ret (inr false)
  | Some c =>
    if decide (c = node) then
      next ← load (CNext node);
      '(done, _) ← compare_exchange_strong prev_ptr (Some node) next;
      Ret (inr done)
    else next ← load (CNext c); Ret (inl (CNext c, next))
  end.

Definition try_unlink_from_bucket (fuel node : nat) : prog bool :=
  k ← read_key node;
  index ← hash_key k;
  curr ← load (CBucket index);
  forever fuel (unlink_turn node) (CBucket index, curr).

Definition stage_node (fuel node : nat) : prog () :=
  old_head ← load CStaging;
  forever fuel (fun old_head : option nat =>
    _ ← node_set node (set_staging old_head);
    '(done, found) ← compare_exchange_weak CStaging old_head (Some node);
    Ret (if done : bool then inr () else inl found)) old_head.

(** ** Insertion *)

(** The scan behind a node that has just been put in front: whether an older live node has the key. *)
Definition duplicate_turn (k : K) (check : option nat) : prog (option nat + bool) :=
  match check with
  | None => Ret (inr false)
  | Some c =>
    k' ← read_key c;
    d ← (if key_eqb k' k then load_deleted c else Ret true);
    if d : bool then next ← load (CNext c); Ret (inl next) else Ret (inr true)
  end.

(** One turn of phase 1, with the node of an earlier turn if there is one.  A key that was passed
    to be moved is [moved key] once the node has it.  The turn ends the operation with [false] or
    the phase with the node. *)
Definition bucket_turn (fuel : nat) (rvalue : bool) (index : nat) (k : K) (v : V) (newNode : option nat) : prog (option nat + option nat) :=
  let used := match newNode with Some _ => if rvalue then moved k else k | None => k end in
  existing ← find_in_bucket fuel used;
  match existing with
  | Some e =>
    d ← load_deleted e;
    if d : bool then _ ← try_unlink_from_bucket fuel e; Ret (inl newNode)
    else _ ← match newNode with Some a => delete_node a | None => Ret () end; Ret (inr None)
  | None =>
    a ← match newNode with Some a => Ret a | None => new_node k v end;
    let used := if rvalue then moved k else k in
    oldHead ← load (CBucket index);
    _ ← store (CNext a) oldHead;
    '(done, _) ← compare_exchange_weak (CBucket index) oldHead (Some a);
    if done : bool then
      check ← load (CNext a);
      dup ← forever fuel (duplicate_turn used) check;
      if dup : bool then
        _ ← node_set a set_deleted;
        _ ← node_set a (set_swept false true);
        _ ← try_unlink_from_bucket fuel a;
        _ ← stage_node fuel a;
        Ret (inr None)
      else _ ← stage_node fuel a; Ret (inr (Some a))
    else Ret (inl (Some a))
  end.

(** One turn of phase 2, with [expected_tail]. *)
Definition order_turn (a : nat) (expected_tail : option nat) : prog (option nat + ()) :=
  current_tail ← load CTail;
  match current_tail with
  | None =>
    '(done, _) ← compare_exchange_weak CHead expected_tail (Some a);
    if done : bool then _ ← compare_exchange_strong CTail expected_tail (Some a); Ret (inr ()) else Ret (inl None)
  | Some ct =>
    tail_next ← load (COrder ct);
    again ← load CTail;
    if decide (again = Some ct) then
      match tail_next with
      | Some _ => _ ← compare_exchange_weak CTail (Some ct) tail_next; Ret (inl (Some ct))
      | None =>
        '(done, _) ← compare_exchange_weak (COrder ct) None (Some a);
        if done : bool then _ ← compare_exchange_strong CTail (Some ct) (Some a); Ret (inr ()) else Ret (inl (Some ct))
      end
    else Ret (inl (Some ct))
  end.

Definition insert_internal (fuel t : nat) (rvalue : bool) (k : K) (v : V) : prog bool :=
  _ ← enter_guard fuel t;
  index ← hash_key k;
  r ← forever fuel (bucket_turn fuel rvalue index k v) None;
  match r with
  | None => _ ← leave_guard t; Ret false
  | Some a =>
    _ ← store (COrder a) None;
    _ ← forever fuel (order_turn a) None;
    _ ← leave_guard t;
    Ret true
  end.

Definition insert (fuel t : nat) (k : K) (v : V) : prog bool := insert_internal fuel t false k v.
Definition insert_moved (fuel t : nat) (k : K) (v : V) : prog bool := insert_internal fuel t true k v.

(** ** Searching *)

Definition live_turn (k : K) (curr : option nat) : prog (option nat + option nat) :=
  match curr with
  | None => Ret (inr None)
  | Some a =>
    k' ← read_key a;
    d ← (if key_eqb k' k then load_deleted a else Ret true);
    if d : bool then next ← load (CNext a); Ret (inl next) else Ret (inr (Some a))
  end.

Definition find_live (fuel : nat) (k : K) : prog (option nat) :=
  index ← hash_key k; curr ← load (CBucket index); forever fuel (live_turn k) curr.

Definition find (fuel t : nat) (k : K) : prog (option V) :=
  _ ← enter_guard fuel t;
  r ← find_live fuel k;
  v ← match r with Some a => v ← read_value a; Ret (Some v) | None => Ret None end;
  _ ← leave_guard t;
  Ret v.

(** The callback gets the value by reference and may change it. *)
Definition with_value (fuel t : nat) (k : K) (callback : V -> V) : prog bool :=
  _ ← enter_guard fuel t;
  r ← find_live fuel k;
  b ← match r with Some a => v ← read_value a; _ ← node_set a (set_value (callback v)); Ret true | None => Ret false end;
  _ ← leave_guard t;
  Ret b.

Definition snapshot_turn (l : list K * option nat) : prog (list K * option nat + list K) :=
  let '(keys, curr) := l in
  match curr with
  | None => Ret (inr keys)
  | Some a =>
    d ← load_deleted a;
    keys ← (if d : bool then Ret keys else k ← read_key a; Ret (keys ++ [k]));
    next ← load (COrder a);
    Ret (inl (keys, next))
  end.

Definition ordered_keys_snapshot (fuel t : nat) : prog (list K) :=
  _ ← enter_guard fuel t;
  curr ← load CHead;
  keys ← forever fuel snapshot_turn ([], curr);
  _ ← leave_guard t;
  Ret keys.

(** ** Reclamation *)

Definition drain_turn (staged : option nat) : prog (option nat + ()) :=
  match staged with
  | None => Ret (inr ())
  | Some a => next ← get (fun s => n ← node_at s a; Ok (staging_next n)); _ ← put (fun s => Ok (with_gc s (gc_mutex_ s) (all_nodes_ s ++ [a]))); Ret (inl next)
  end.

Definition sweep_turn (i : nat) (l : cell * option nat) : prog (cell * option nat + ()) :=
  let '(prev_ptr, curr) := l in
  match curr with
  | None => Ret (inr ())
  | Some c =>
    next ← load (CNext c);
    d ← load_deleted c;
    if d : bool then
      '(done, _) ← compare_exchange_strong prev_ptr (Some c) next;
      if done : bool then _ ← node_set c (set_swept true false); Ret (inl (prev_ptr, next))
      else curr ← load (CBucket i); Ret (inl (CBucket i, curr))
    else Ret (inl (CNext c, next))
  end.

Fixpoint sweep_buckets (fuel n i : nat) : prog () :=
  match n with
  | O => Ret ()
  | S n => curr ← load (CBucket i); _ ← forever fuel (sweep_turn i) (CBucket i, curr); sweep_buckets fuel n (S i)
  end.

Definition order_cell (prev : option nat) : cell := match prev with Some p => COrder p | None => CHead end.

Definition sweep_order_turn (l : option nat * option nat) : prog (option nat * option nat + ()) :=
  let '(prev, curr) := l in
  match curr with
  | None => Ret (inr ())
  | Some c =>
    next ← load (COrder c);
    d ← load_deleted c;
    if (d : bool) && match next with Some _ => true | None => false end then
      '(done, _) ← compare_exchange_strong (order_cell prev) (Some c) next;
      if done : bool then _ ← node_set c (set_swept false true); Ret (inl (prev, next))
      else curr ← load (order_cell prev); Ret (inl (prev, curr))
    else Ret (inl (Some c, next))
  end.

(** Stamps the nodes that both sweeps have unlinked. *)
Fixpoint stamp_nodes (e : Z) (l : list nat) : prog () :=
  match l with
  | [] => Ret ()
  | a :: l =>
    n ← get (fun s => node_at s a);
    _ ← (if bucket_swept n && order_swept n && (retired_epoch n <? 0) then node_set a (set_retired e) else Ret ());
    stamp_nodes e l
  end.

(** Frees what was retired two epochs ago; the rest is kept in order. *)
Fixpoint free_nodes (safe : Z) (l kept : list nat) : prog (list nat) :=
  match l with
  | [] => Ret kept
  | a :: l =>
    n ← get (fun s => node_at s a);
    if (0 <=? retired_epoch n) && (retired_epoch n + 2 <=? safe) then _ ← delete_node a; free_nodes safe l kept
    else free_nodes safe l (kept ++ [a])
  end.

Definition collect_garbage_locked (fuel t : nat) : prog () :=
  staged ← act (fun s => Ok (with_staging s None, staging_head_ s));
  _ ← forever fuel drain_turn staged;
  _ ← put (fun s => Ok (with_counts s 0 (op_count_ s)));
  n ← get (fun s => Ok (bucketCount s));
  _ ← sweep_buckets fuel n 0;
  curr ← load CHead;
  _ ← forever fuel sweep_order_turn (None, curr);
  e ← get_epoch;
  l ← get (fun s => Ok (all_nodes_ s));
  _ ← stamp_nodes e l;
  _ ← try_advance fuel t;
  safe ← get_epoch;
  l ← get (fun s => Ok (all_nodes_ s));
  kept ← free_nodes safe l [];
  put (fun s => Ok (with_gc s (gc_mutex_ s) kept)).

Definition try_lock_gc : prog bool := act (fun s => if gc_mutex_ s then Ok (s, false) else Ok (with_gc s true (all_nodes_ s), true)).
Definition unlock_gc : prog () := put (fun s => Ok (with_gc s false (all_nodes_ s))).

Definition collect_garbage (fuel t : nat) : prog () :=
  _ ← forever fuel (fun _ : () => b ← try_lock_gc; Ret (if b : bool then inr () else inl ())) ();
  _ ← collect_garbage_locked fuel t;
  unlock_gc.

(** ** Removal *)

Definition kAutoGCThreshold : Z := 4096.

Definition remove_turn (fuel : nat) (k : K) (_ : ()) : prog (() + bool) :=
  node ← find_in_bucket fuel k;
  match node with
  | None => Ret (inr false)
  | Some a =>
    '(done, expected) ← exchange_deleted a;
    if done : bool then
      _ ← try_unlink_from_bucket fuel a;
      _ ← put (fun s => Ok (with_counts s (u64 (delete_since_gc_ s + 1)) (op_count_ s)));
      Ret (inr true)
    else Ret (if expected : bool then inr false else inl ())
  end.

Definition remove_guarded (fuel t : nat) (k : K) : prog bool :=
  _ ← enter_guard fuel t;
  r ← forever fuel (remove_turn fuel k) ();
  _ ← leave_guard t;
  Ret r.

Definition post_mutate (fuel t : nat) : prog () :=
  n ← act (fun s => Ok (with_counts s (delete_since_gc_ s) (u64 (op_count_ s + 1)), op_count_ s));
  _ ← (if Z.land n 255 =? 0 then try_advance fuel t else Ret ());
  d ← get (fun s => Ok (delete_since_gc_ s));
  if kAutoGCThreshold <=? d then
    b ← try_lock_gc;
    if b : bool then _ ← collect_garbage_locked fuel t; unlock_gc else Ret ()
  else Ret ().

Definition remove (fuel t : nat) (k : K) : prog bool :=
  removed ← remove_guarded fuel t k;
  _ ← post_mutate fuel t;
  Ret removed.

(** ** Iteration

    An iterator is its node, and its bucket where it walks the buckets; whoever holds it is in
    a guard. *)

Fixpoint skip_deleted {L} (fuel : nat) (node : L -> option nat) (advance : L -> prog L) (it : L) : prog L :=
  match fuel with
  | O => Halt
  | S fuel =>
    match node it with
    | None => Ret it
    | Some a => d ← load_deleted a; if d : bool then it ← advance it; skip_deleted fuel node advance it else Ret it
    end
  end.

Definition order_advance (it : option nat) : prog (option nat) := match it with Some a => load (COrder a) | None => Ret None end.

Definition order_begin (fuel t : nat) : prog (option nat) :=
  _ ← enter_guard fuel t; it ← load CHead; skip_deleted fuel (fun it => it) order_advance it.

Definition order_next (fuel : nat) (it : option nat) : prog (option nat) :=
  match it with Some _ => it ← order_advance it; skip_deleted fuel (fun it => it) order_advance it | None => Ret None end.

(** The next bucket with a node, from [bucketIndex] on. *)
Fixpoint next_bucket (n bucketIndex : nat) (count : nat) : prog (nat * option nat) :=
  match n with
  | O => Ret (count, None)
  | S n => p ← load (CBucket (S bucketIndex)); match p with Some a => Ret (S bucketIndex, Some a) | None => next_bucket n (S bucketIndex) count end
  end.

Definition bucket_advance (it : nat * option nat) : prog (nat * option nat) :=
  match it with
  | (bucketIndex, Some a) =>
    next ← load (CNext a);
    match next with
    | Some b => Ret (bucketIndex, Some b)
    | None => count ← get (fun s => Ok (bucketCount s)); next_bucket (count - 1 - bucketIndex) bucketIndex count
    end
  | (_, None) => Ret it
  end.

(** [advance_impl] while the base class is constructed: [bucketIndex] has no value yet, so reading
    it at the end of a chain is undefined. *)
Definition advance_unset (it : option nat) : prog (option nat) :=
  match it with
  | Some a => next ← load (CNext a); match next with Some b => Ret (Some b) | None => get (fun _ => Undef) end
  | None => Ret None
  end.

(** With whether the iterator holds a guard: the one behind the last node does not. *)
Fixpoint begin_loop (fuel t n i count : nat) : prog (nat * option nat * bool) :=
  match n with
  | O => _ ← leave_guard t; Ret (count, None, false)
  | S n =>
    p ← load (CBucket i);
    match p with Some a => it ← skip_deleted fuel (fun it => it) advance_unset (Some a); Ret (i, it, true) | None => begin_loop fuel t n (S i) count end
  end.

Definition begin_iterator (fuel t : nat) : prog (nat * option nat * bool) :=
  _ ← enter_guard fuel t; count ← get (fun s => Ok (bucketCount s)); begin_loop fuel t count 0 count.

Definition bucket_next (fuel : nat) (it : nat * option nat) : prog (nat * option nat) :=
  match snd it with Some _ => it ← bucket_advance it; skip_deleted fuel snd bucket_advance it | None => Ret it end.

(** [for (it = order_begin(); it != order_end(); ++it) *it] and the same over the buckets. *)
Definition iterate_with {L} (fuel : nat) (node : L -> option nat) (next : L -> prog L) (l : list (K * V) * L) : prog (list (K * V) * L + list (K * V)) :=
  let '(seen, it) := l in
  match node it with
  | None => Ret (inr seen)
  | Some a => k ← read_key a; v ← read_value a; it ← next it; Ret (inl (seen ++ [(k, v)], it))
  end.

Definition iterate_order (fuel t : nat) : prog (list (K * V)) :=
  it ← order_begin fuel t; l ← forever fuel (iterate_with fuel (fun it => it) (order_next fuel)) ([], it); _ ← leave_guard t; Ret l.

Definition iterate_buckets (fuel t : nat) : prog (list (K * V)) :=
  '(it, guarded) ← begin_iterator fuel t;
  l ← forever fuel (iterate_with fuel snd (bucket_next fuel)) ([], it);
  _ ← (if guarded : bool then leave_guard t else Ret ());
  Ret l.

(** ** Destruction: nobody else runs *)

Definition free_staged_turn (staged : option nat) : prog (option nat + ()) :=
  match staged with
  | None => Ret (inr ())
  | Some a => next ← get (fun s => n ← node_at s a; Ok (staging_next n)); _ ← delete_node a; Ret (inl next)
  end.

Fixpoint free_all (l : list nat) : prog () := match l with [] => Ret () | a :: l => _ ← delete_node a; free_all l end.

Definition destroy (fuel : nat) : prog () :=
  staged ← load CStaging; _ ← forever fuel free_staged_turn staged; l ← get (fun s => Ok (all_nodes_ s)); free_all l.

End LockFreeOrderedMap.
