(* ===== verification/LockFreeOrderedMapSpec.v ===== *)
(** * One thread and a LockFreeOrderedHashMap

    Run by one thread, every operation computes the list of entries in the order of their
    insertion.  The collector, though, frees nothing: a node that its own removal unlinked from
    its bucket is never noted as unlinked.  The examples at the end run several threads: a
    reader can meet a node that has been freed. *)

From stdpp Require Import gmap.
From S2P Require Import Prelude Memory Interleaving Ebr LockFreeOrderedMap.

Set Default Proof Using "Type*".
Set Warnings "-clear-no-such-hyp".
#[local] Open Scope Z_scope.

Section LockFreeOrderedMapSpec.

Context {K V : Type} (key_eqb : K -> K -> bool) (keyHasher : K -> Z) (moved : K -> K) (key_spec : forall k1 k2, key_eqb k1 k2 = true <-> k1 = k2).

Abbreviation Map := (Map (K := K) (V := V)).
Abbreviation Node := (Node (K := K) (V := V)).

Implicit Types (s : Map) (h : gmap nat Node) (n : Node) (a : nat) (l oc sl : list nat).

(** ** Chains *)

(** The nodes from [p] to [q] along one of the links. *)
Fixpoint seg (f : Node -> option nat) h (p : option nat) l (q : option nat) : Prop :=
  match l with [] => p = q | a :: l => p = Some a /\ exists n, h !! a = Some n /\ seg f h (f n) l q end.

Definition path f h p l : Prop := seg f h p l None.

Lemma seg_frame f h h' p l q : (forall a n, a ∈ l -> h !! a = Some n -> exists n', h' !! a = Some n' /\ f n' = f n) -> seg f h p l q -> seg f h' p l q.
Proof.
  revert p. induction l as [|a l IH]; intros p H; cbn; [done|]. intros (-> & n & E & Hp). split; [done|].
  destruct (H a n ltac:(apply list_elem_of_here) E) as (n' & E' & En). exists n'. split; [done|]. rewrite En. apply IH; [|done]. intros b m Hb. apply H. by apply list_elem_of_further.
Qed.

Lemma seg_elem f h p l q a : seg f h p l q -> a ∈ l -> is_Some (h !! a).
Proof.
  revert p. induction l as [|b l IH]; intros p; cbn; [by intros _ ?%not_elem_of_nil|]. intros (_ & n & E & Hp) [->|Ha]%elem_of_cons; [eauto|by eapply IH].
Qed.

Lemma seg_app f h p l1 l2 q : seg f h p (l1 ++ l2) q <-> exists r, seg f h p l1 r /\ seg f h r l2 q.
Proof.
  revert p. induction l1 as [|a l1 IH]; intros p; cbn.
  - split; [intros H; by exists p|by intros (r & -> & H)].
  - split.
    + intros (-> & n & E & H). apply IH in H as (r & H1 & H2). exists r. split; [eauto|done].
    + intros (r & (-> & n & E & H1) & H2). split; [done|]. exists n. split; [done|]. apply IH. eauto.
Qed.

(** A change of other fields, or of a node off the chain. *)
Lemma seg_insert f h p l q a n n' : h !! a = Some n -> f n' = f n -> seg f h p l q -> seg f (<[a := n']> h) p l q.
Proof.
  intros En Ef. apply seg_frame. intros b m _ E. destruct (decide (b = a)) as [->|Hne]; [exists n'; rewrite lookup_insert_eq; split; [done|congruence]|exists m; by rewrite lookup_insert_ne].
Qed.

Lemma seg_off f h p l q a n' : (a ∉ l) -> seg f h p l q -> seg f (<[a := n']> h) p l q.
Proof. intros Ha. apply seg_frame. intros b n Hb E. exists n. rewrite lookup_insert_ne; [done|]. by intros ->. Qed.

(** ** The representation *)

Definition bucket_of (c : nat) (k : K) : nat := Z.to_nat (keyHasher k mod Z.of_nat c).

(** The entry of a node, unless it is marked. *)
Definition entry h a : option (K * V) := n ← h !! a; if is_deleted n then None else Some (key n, value n).

Definition in_bucket h (c i : nat) a : bool := match entry h a with Some (k, _) => (bucket_of c k =? i)%nat | None => false end.

(** The entries of the map in the order of their insertion. *)
Definition entries h oc : list (K * V) := omap (entry h) oc.

(** [oc] is the chain of insertion, [sl] the stack of nodes the collector has not seen. *)
Record rep s oc sl : Prop := {
  r_order : path orderNext (nodes s) (orderHead s) oc;
  r_tail : orderTail s = list.last oc;
  r_nodup : NoDup oc;
  r_bucket : forall i p, buckets s !! i = Some p -> path bucketNext (nodes s) p (rev (filter (fun a => in_bucket (nodes s) (bucketCount s) i a = true) oc));
  r_keys : NoDup (entries (nodes s) oc).*1;
  r_staging : path staging_next (nodes s) (staging_head_ s) sl;
  r_known : forall a, is_Some (nodes s !! a) <-> a ∈ sl ++ all_nodes_ s;
  r_known_once : NoDup (sl ++ all_nodes_ s);
  r_unswept : forall a n, nodes s !! a = Some n -> bucket_swept n = false /\ retired_epoch n = -1;
  r_fresh : forall a, is_Some (nodes s !! a) -> (a < fresh s)%nat;
  r_weak : weak_ s = [];
  r_some : (0 < bucketCount s)%nat;
}.

(** What the epochs look like to the only thread there is. *)
Definition quiet (t : nat) (e : EpochState) : Prop :=
  thread_of e t = new_thread /\ free_ids e = [] /\ high_watermark e = 0%nat \/
  thread_of e t = mkThread (Registered 0) 0 Unpinned Idle /\ free_ids e = [] /\ high_watermark e = 1%nat /\ default (-1) (slots e !! 0%nat) = -1.

Definition pinned (t : nat) (e : EpochState) : Prop :=
  exists p, thread_of e t = mkThread (Registered 0) 1 (Pinned p) Idle /\ free_ids e = [] /\ high_watermark e = 1%nat.

(** ** Entering and leaving *)

Lemma run_ebr m s e : Ebr.step (epoch s) m = Ok e -> run (ebr m) s = Ok (with_epoch s e, ()).
Proof. intros E. unfold ebr. rewrite run_put, E. done. Qed.

Lemma thread_of_eq e t x : thread_of (with_thread e t x) t = x.
Proof. rewrite thread_of_with. by rewrite decide_True. Qed.

(** One turn of the loop of [enter_guard] that announces. *)
Lemma announce_turn t s e x fuel : thread_of (epoch s) t = x -> is_pinned (pin x) = false -> Ebr.step (epoch s) (Announce t) = Ok e ->
  run (forever (S fuel) (fun _ : () => b ← pinned_at t; if b : bool then Ret (inr ()) else _ ← ebr (Announce t); Ret (inl ())) ()) s =
  run (forever fuel (fun _ : () => b ← pinned_at t; if b : bool then Ret (inr ()) else _ ← ebr (Announce t); Ret (inl ())) ()) (with_epoch s e).
Proof.
  intros Ex Ep Es. rewrite (run_forever _ _ _ s (with_epoch s e) (inl ())); [done|]. unfold pinned_at. rewrite run_bind, run_get. cbn [mbind res_bind]. rewrite Ex, Ep, run_bind, (run_ebr _ _ _ Es). done.
Qed.

Lemma enter_guard_ok t s fuel : quiet t (epoch s) -> (4 <= fuel)%nat -> exists e, run (enter_guard fuel t) s = Ok (with_epoch s e, ()) /\ pinned t e.
Proof.
  intros Hq Hf. destruct fuel as [|[|[|[|fuel]]]]; try lia. unfold enter_guard.
  assert (Hr : exists e1, Ebr.step (epoch s) (Register t) = Ok e1 /\ thread_of e1 t = mkThread (Registered 0) 0 Unpinned Idle /\ free_ids e1 = [] /\ high_watermark e1 = 1%nat).
  { destruct Hq as [(Em & Ef & Eh)|(Em & Ef & Eh & Es)]; cbn [step]; rewrite Em; cbn.
    - unfold acquire_id. rewrite Ef, Em, Eh. eexists. split; [done|]. rewrite thread_of_eq. done.
    - by exists (epoch s). }
  destruct Hr as (e1 & E1 & Em1 & Ef1 & Eh1). rewrite run_bind, (run_ebr _ _ _ E1). cbn [mbind res_bind].
  set (x2 := mkThread (Registered 0) 1 AnnounceLoad Idle). set (e2 := with_thread e1 t x2).
  assert (E2 : Ebr.step e1 (Enter t) = Ok e2) by (cbn [step]; rewrite Em1; unfold guard_enter; by rewrite Em1).
  rewrite run_bind, (run_ebr _ (with_epoch s e1) _ E2). cbn [mbind res_bind].
  assert (Et2 : thread_of e2 t = x2) by (unfold e2; rewrite thread_of_with; by rewrite decide_True).
  set (x3 := mkThread (Registered 0) 1 (AnnounceStore (current e1)) Idle). set (e3 := with_thread e2 t x3).
  assert (E3 : Ebr.step e2 (Announce t) = Ok e3) by (cbn [step]; rewrite Et2; cbn [reg x2]; unfold announce_step; by rewrite Et2).
  rewrite (announce_turn t (with_epoch (with_epoch s e1) e2) e3 x2 _ Et2 eq_refl E3).
  assert (Et3 : thread_of e3 t = x3) by (unfold e3; rewrite thread_of_with; by rewrite decide_True).
  set (x4 := mkThread (Registered 0) 1 (AnnounceCheck (current e1)) Idle). set (e4 := with_thread (mkEpoch (current e1) (<[0%nat := current e1]> (slots e1)) (free_ids e1) (high_watermark e1) (thread_map e3)) t x4).
  assert (E4 : Ebr.step e3 (Announce t) = Ok e4) by (cbn [step]; rewrite Et3; cbn [reg x3]; unfold announce_step; by rewrite Et3).
  rewrite (announce_turn t (with_epoch _ e3) e4 x3 _ Et3 eq_refl E4).
  assert (Et4 : thread_of e4 t = x4) by (unfold e4; rewrite thread_of_with; by rewrite decide_True).
  set (x5 := mkThread (Registered 0) 1 (Pinned (current e1)) Idle). set (e5 := with_thread e4 t x5).
  assert (E5 : Ebr.step e4 (Announce t) = Ok e5) by (cbn [step]; rewrite Et4; cbn [reg x4]; unfold announce_step; rewrite Et4; cbn; by rewrite Z.eqb_refl).
  rewrite (announce_turn t (with_epoch _ e4) e5 x4 _ Et4 eq_refl E5).
  assert (Et5 : thread_of e5 t = x5) by (unfold e5; rewrite thread_of_with; by rewrite decide_True).
  rewrite (run_forever _ _ _ _ (with_epoch s e5) (inr ())) by (unfold pinned_at; rewrite run_bind, run_get; cbn [mbind res_bind epoch with_epoch]; by rewrite Et5).
  exists e5. split; [done|]. exists (current e1). split; [exact Et5|done].
Qed.

Lemma leave_guard_ok t s : pinned t (epoch s) -> exists e, run (leave_guard t) s = Ok (with_epoch s e, ()) /\ quiet t e.
Proof.
  intros (p & Em & Ef & Eh). unfold leave_guard.
  assert (E : Ebr.step (epoch s) (Leave t) = Ok (with_thread (mkEpoch (current (epoch s)) (<[0%nat := -1]> (slots (epoch s))) [] 1 (thread_map (epoch s))) t (mkThread (Registered 0) 0 Unpinned Idle))).
  { cbn [step]. rewrite Em. cbn. unfold guard_leave. rewrite Em. cbn. by rewrite Ef, Eh. }
  eexists. rewrite (run_ebr _ _ _ E). split; [done|]. right. rewrite thread_of_eq. cbn. by rewrite lookup_insert_eq.
Qed.

(** One access of [try_advance] and the look at where it stands. *)
Lemma advance_turn t s e fuel : Ebr.step (epoch s) (Advance t) = Ok e ->
  run (try_advance (S fuel) t) s = if match advancing (thread_of e t) with Idle => true | _ => false end then Ok (with_epoch s e, ()) else run (try_advance fuel t) (with_epoch s e).
Proof.
  intros E. unfold try_advance. set (body := fun _ : () => _). rewrite (run_forever fuel body () s (with_epoch s e) (if match advancing (thread_of e t) with Idle => true | _ => false end then inr () else inl ())).
  - by destruct (advancing (thread_of e t)).
  - unfold body. rewrite run_bind, (run_ebr _ _ _ E). cbn [mbind res_bind]. rewrite run_bind, run_get. cbn. by destruct (advancing (thread_of e t)).
Qed.

(** Slot by slot up to the watermark, for a thread outside every section. *)
Lemma try_advance_ok t s fuel : quiet t (epoch s) -> (4 <= fuel)%nat -> exists e, run (try_advance fuel t) s = Ok (with_epoch s e, ()) /\ quiet t e.
Proof.
  intros Hq Hf. set (e0 := epoch s) in *. set (x := thread_of e0 t).
  assert (Hx : advancing x = Idle) by (destruct Hq as [(Em & _)|(Em & _)]; unfold x; by rewrite Em).
  assert (Hhw : (high_watermark e0 = 0 \/ high_watermark e0 = 1)%nat) by (destruct Hq as [(_ & _ & Eh)|(_ & _ & Eh & _)]; auto).
  set (e1 := with_thread e0 t (with_advance x (LoadWatermark (current e0)))). set (e2 := with_thread e1 t (with_advance x (Scan (current e0) (high_watermark e0) 0))).
  assert (E1 : Ebr.step e0 (Advance t) = Ok e1) by (cbn [step]; unfold advance_step; fold x; by rewrite Hx).
  assert (Et1 : thread_of e1 t = with_advance x (LoadWatermark (current e0))) by apply thread_of_eq.
  assert (Et2 : thread_of e2 t = with_advance x (Scan (current e0) (high_watermark e0) 0)) by apply thread_of_eq.
  assert (E2 : Ebr.step e1 (Advance t) = Ok e2) by (cbn [step]; unfold advance_step; by rewrite Et1).
  destruct fuel as [|[|[|fuel]]]; try lia. rewrite (advance_turn t s e1 _ E1), Et1. cbn [advancing with_advance].
  rewrite (advance_turn t (with_epoch s e1) e2 _ E2), Et2. cbn [advancing with_advance].
  assert (Hend : forall e3 (m i : nat) fuel, thread_of e3 t = with_advance x (Scan (current e0) m i) -> (m <= i)%nat -> free_ids e3 = free_ids e0 -> high_watermark e3 = high_watermark e0 -> slots e3 = slots e0 ->
    exists e, run (try_advance (S fuel) t) (with_epoch s e3) = Ok (with_epoch s e, ()) /\ quiet t e).
  { intros e3 m i fuel' E3 Hni Ef Eh Es. eassert (E : Ebr.step e3 (Advance t) = Ok _) by (cbn [step]; unfold advance_step; rewrite E3; cbn [advancing with_advance]; rewrite (proj2 (Nat.ltb_ge i m)) by done; reflexivity).
    eexists. rewrite (advance_turn t (with_epoch s e3) _ _ E). rewrite thread_of_eq. split; [done|]. unfold quiet. rewrite thread_of_eq. destruct (_ =? _); cbn; rewrite Ef, Eh, Es; destruct Hq as [(Em & ? & ?)|(Em & ? & ? & ?)]; unfold x; rewrite Em; [by left|by right|by left|by right]. }
  destruct Hhw as [Ehw|Ehw].
  - apply (Hend e2 0%nat 0%nat); try done. by rewrite Et2, Ehw.
  - assert (Es : default (-1) (slots e0 !! 0%nat) = -1) by (destruct Hq as [(_ & _ & Eh)|(_ & _ & _ & Es)]; [congruence|done]).
    set (e3 := with_thread e2 t (with_advance x (Scan (current e0) 1 1))).
    assert (E3 : Ebr.step e2 (Advance t) = Ok e3) by (cbn [step]; unfold advance_step; rewrite Et2; cbn [advancing with_advance]; rewrite Ehw; cbn; by rewrite Es).
    assert (Et3 : thread_of e3 t = with_advance x (Scan (current e0) 1 1)) by apply thread_of_eq.
    rewrite (advance_turn t (with_epoch s e2) e3 _ E3), Et3. cbn [advancing with_advance]. destruct fuel as [|fuel]; [lia|].
    by apply (Hend e3 1%nat 1%nat).
Qed.

(** ** Accesses of one thread *)

Lemma run_load c p s : read_cell s c = Ok p -> run (load c) s = Ok (s, p).
Proof. intros E. unfold load. by rewrite run_get, E. Qed.

Lemma run_store c p s s' : write_cell s c p = Ok s' -> run (store c p) s = Ok (s', ()).
Proof. intros E. unfold store. by rewrite run_put, E. Qed.

Lemma run_exchange c p q s s' : read_cell s c = Ok p -> write_cell s c q = Ok s' -> run (compare_exchange_strong c p q) s = Ok (s', (true, p)).
Proof. intros E1 E2. unfold compare_exchange_strong, compare_exchange. rewrite run_act, E1. cbn [mbind res_bind]. by rewrite decide_True, E2. Qed.

Lemma with_weak_nil s : weak_ s = [] -> with_weak s [] = s.
Proof. destruct s. cbn. by intros ->. Qed.

Lemma run_exchange_weak c p q s s' : weak_ s = [] -> read_cell s c = Ok p -> write_cell s c q = Ok s' -> run (compare_exchange_weak c p q) s = Ok (s', (true, p)).
Proof.
  intros Ew E1 E2. unfold compare_exchange_weak, compare_exchange. rewrite run_act, Ew. cbn [tail]. rewrite with_weak_nil, E1 by done. cbn [mbind res_bind]. by rewrite decide_True, E2.
Qed.

Lemma run_node_set a f s n : nodes s !! a = Some n -> run (node_set a f) s = Ok (with_nodes s (<[a := f n]> (nodes s)), ()).
Proof. intros E. unfold node_set. rewrite run_put. unfold update_node, node_at. by rewrite E. Qed.

Lemma run_node {R} (f : Node -> R) a s n : nodes s !! a = Some n -> run (get (fun s => n ← node_at s a; Ok (f n))) s = Ok (s, f n).
Proof. intros E. rewrite run_get. unfold node_at. by rewrite E. Qed.

Lemma run_next a s n : nodes s !! a = Some n -> run (load (CNext a)) s = Ok (s, bucketNext n).
Proof. intros E. apply run_load. cbn. unfold node_at. by rewrite E. Qed.

Lemma run_order a s n : nodes s !! a = Some n -> run (load (COrder a)) s = Ok (s, orderNext n).
Proof. intros E. apply run_load. cbn. unfold node_at. by rewrite E. Qed.

Lemma write_next a p s n : nodes s !! a = Some n -> write_cell s (CNext a) p = Ok (with_nodes s (<[a := set_bucketNext p n]> (nodes s))).
Proof. intros E. cbn. unfold update_node, node_at. by rewrite E. Qed.

Lemma write_order a p s n : nodes s !! a = Some n -> write_cell s (COrder a) p = Ok (with_nodes s (<[a := set_orderNext p n]> (nodes s))).
Proof. intros E. cbn. unfold update_node, node_at. by rewrite E. Qed.

Lemma write_bucket i p q s : buckets s !! i = Some q -> write_cell s (CBucket i) p = Ok (with_buckets s (<[i := p]> (buckets s))).
Proof. intros E. cbn [write_cell]. unfold bucketCount. by rewrite (proj2 (Nat.ltb_lt _ _)) by by eapply lookup_lt_Some. Qed.

Lemma bucket_lt c k : (0 < c)%nat -> (bucket_of c k < c)%nat.
Proof. intros Hc. unfold bucket_of. pose proof (Z.mod_pos_bound (keyHasher k) (Z.of_nat c)). lia. Qed.

Lemma run_hash k s : (0 < bucketCount s)%nat -> run (hash_key keyHasher k) s = Ok (s, bucket_of (bucketCount s) k).
Proof. intros Hc. unfold hash_key. rewrite run_get, (proj2 (Nat.eqb_neq _ _)) by lia. done. Qed.

Lemma entry_spec h a k v : entry h a = Some (k, v) <-> exists n, h !! a = Some n /\ is_deleted n = false /\ key n = k /\ value n = v.
Proof.
  unfold entry. destruct (h !! a) as [n|]; cbn; [|by split; [|intros (n & ? & _)]]. destruct (is_deleted n) eqn:Ed.
  - split; [done|]. intros (m & [= <-] & ? & _). congruence.
  - split; [intros [= <- <-]; eauto|]. by intros (m & [= <-] & _ & <- & <-).
Qed.

Lemma in_bucket_spec h c i a : in_bucket h c i a = true <-> exists k v, entry h a = Some (k, v) /\ bucket_of c k = i.
Proof.
  unfold in_bucket. destruct (entry h a) as [[k v]|]; [|by split; [|intros (? & ? & ? & _)]]. rewrite Nat.eqb_eq. split; [intros <-; eauto|by intros (? & ? & [= <- <-] & ?)].
Qed.

(** The chain of a bucket. *)
Definition bucket_list s oc (i : nat) : list nat := rev (filter (fun a => in_bucket (nodes s) (bucketCount s) i a = true) oc).

Lemma elem_of_bucket s oc i a : a ∈ bucket_list s oc i <-> a ∈ oc /\ exists k v, entry (nodes s) a = Some (k, v) /\ bucket_of (bucketCount s) k = i.
Proof. unfold bucket_list. rewrite list_elem_of_In, <- in_rev, <- list_elem_of_In, list_elem_of_filter, in_bucket_spec. tauto. Qed.

Lemma bucket_length s oc i : (length (bucket_list s oc i) <= length oc)%nat.
Proof. unfold bucket_list. rewrite length_rev. apply length_filter. Qed.

Lemma bucket_path s oc sl k : rep s oc sl -> exists p, read_cell s (CBucket (bucket_of (bucketCount s) k)) = Ok p /\ path bucketNext (nodes s) p (bucket_list s oc (bucket_of (bucketCount s) k)).
Proof.
  intros H. pose proof (bucket_lt (bucketCount s) k (r_some _ _ _ H)) as Hlt. destruct (lookup_lt_is_Some_2 _ _ Hlt) as [p Ep]. exists p. cbn. rewrite Ep. split; [done|]. by apply (r_bucket _ _ _ H).
Qed.

(** A search along a chain of live nodes. *)
Lemma chain_walk_ok {A} s k (hit : nat -> A) (miss : A) (body : option nat -> prog Map (option nat + A)) fuel p l :
  (forall a n, nodes s !! a = Some n -> is_deleted n = false -> run (body (Some a)) s = Ok (s, if key_eqb (key n) k then inr (hit a) else inl (bucketNext n))) -> run (body None) s = Ok (s, inr miss) ->
  seg bucketNext (nodes s) p l None -> (forall a, a ∈ l -> exists e, entry (nodes s) a = Some e) -> (length l < fuel)%nat ->
  exists r, run (forever fuel body p) s = Ok (s, match r with Some a => hit a | None => miss end) /\
    match r with Some a => a ∈ l /\ exists v, entry (nodes s) a = Some (k, v) | None => forall a v, a ∈ l -> entry (nodes s) a <> Some (k, v) end.
Proof.
  intros Hs Hn. revert fuel p. induction l as [|a l IH]; intros fuel p; cbn [seg]; intros Hp Hl Hf; (destruct fuel as [|fuel]; [cbn in Hf; lia|]).
  - subst p. rewrite (run_forever _ _ _ _ _ _ Hn). exists None. split; [done|]. intros a v Ha. by apply not_elem_of_nil in Ha.
  - destruct Hp as (-> & n & En & Hp). destruct (Hl a ltac:(apply list_elem_of_here)) as [[k' v'] Ee]. pose proof (proj1 (entry_spec _ _ _ _) Ee) as (m & Em & Ed & Ek & Ev). rewrite En in Em. injection Em as <-.
    rewrite (run_forever _ _ _ _ _ _ (Hs a n En Ed)). destruct (key_eqb (key n) k) eqn:Eq.
    + apply key_spec in Eq. exists (Some a). split; [done|]. split; [apply list_elem_of_here|]. exists v'. rewrite Ee. congruence.
    + destruct (IH fuel (bucketNext n) Hp) as (r & Er & Hr); [intros b Hb; apply Hl; by apply list_elem_of_further|cbn in Hf; lia|]. exists r. split; [done|].
      destruct r as [b|]; [destruct Hr as [Hb Hv]; split; [by apply list_elem_of_further|done]|]. intros b v [->|Hb]%elem_of_cons; [|by apply Hr]. rewrite Ee. intros [= E _]. rewrite <- Ek in E. apply key_spec in E. congruence.
Qed.

(** What a search of the map answers. *)
Definition found s oc (k : K) (r : option nat) : Prop :=
  match r with Some a => a ∈ oc /\ exists v, entry (nodes s) a = Some (k, v) | None => forall a v, a ∈ oc -> entry (nodes s) a <> Some (k, v) end.

Lemma found_bucket s oc k r : match r with Some a => a ∈ bucket_list s oc (bucket_of (bucketCount s) k) /\ exists v, entry (nodes s) a = Some (k, v) | None => forall a v, a ∈ bucket_list s oc (bucket_of (bucketCount s) k) -> entry (nodes s) a <> Some (k, v) end -> found s oc k r.
Proof.
  destruct r as [a|]; cbn; [by intros [[Ha _]%elem_of_bucket Hv]|]. intros H a v Ha E. apply (H a v); [apply elem_of_bucket; eauto|done].
Qed.

Lemma bucket_entries s oc i a : a ∈ bucket_list s oc i -> exists e, entry (nodes s) a = Some e.
Proof. intros (_ & k & v & E & _)%elem_of_bucket. eauto. Qed.

Lemma find_in_bucket_ok s oc sl k fuel : rep s oc sl -> (length oc < fuel)%nat -> exists r, run (find_in_bucket key_eqb keyHasher fuel k) s = Ok (s, r) /\ found s oc k r.
Proof.
  intros H Hf. destruct (bucket_path s oc sl k H) as (p & Ep & Hp). unfold find_in_bucket. rewrite (run_bind_ok _ _ _ _ _ (run_hash k s (r_some _ _ _ H))), (run_bind_ok _ _ _ _ _ (run_load _ _ _ Ep)).
  destruct (chain_walk_ok s k Some None (fun curr : option nat => match curr with None => Ret (inr None) | Some a => k' ← read_key a; if key_eqb k' k then Ret (inr (Some a)) else next ← load (CNext a); Ret (inl next) end) fuel p (bucket_list s oc (bucket_of (bucketCount s) k))) as (r & Er & Hr); [|done|exact Hp|by apply bucket_entries|pose proof (bucket_length s oc (bucket_of (bucketCount s) k)); lia|].
  - intros a n En _. rewrite (run_bind_ok _ _ _ _ _ (run_node key a s n En)). destruct (key_eqb (key n) k); [done|]. by rewrite (run_bind_ok _ _ _ _ _ (run_next a s n En)).
  - exists r. split; [rewrite Er; by destruct r|by apply found_bucket].
Qed.

Lemma find_live_ok s oc sl k fuel : rep s oc sl -> (length oc < fuel)%nat -> exists r, run (find_live key_eqb keyHasher fuel k) s = Ok (s, r) /\ found s oc k r.
Proof.
  intros H Hf. destruct (bucket_path s oc sl k H) as (p & Ep & Hp). unfold find_live. rewrite (run_bind_ok _ _ _ _ _ (run_hash k s (r_some _ _ _ H))), (run_bind_ok _ _ _ _ _ (run_load _ _ _ Ep)).
  destruct (chain_walk_ok s k Some None (live_turn key_eqb k) fuel p (bucket_list s oc (bucket_of (bucketCount s) k))) as (r & Er & Hr); [|done|exact Hp|by apply bucket_entries|pose proof (bucket_length s oc (bucket_of (bucketCount s) k)); lia|].
  - intros a n En Ed. unfold live_turn. rewrite (run_bind_ok _ _ _ _ _ (run_node key a s n En)). destruct (key_eqb (key n) k).
    + rewrite (run_bind_ok _ _ _ _ _ (run_node is_deleted a s n En)), Ed. done.
    + rewrite (run_bind_ok (Ret true) _ s s true eq_refl). by rewrite (run_bind_ok _ _ _ _ _ (run_next a s n En)).
  - exists r. split; [rewrite Er; by destruct r|by apply found_bucket].
Qed.

(** ** Insertion *)

Lemma filter_same (P Q : nat -> bool) l : (forall a, a ∈ l -> P a = Q a) -> filter (fun a => P a = true) l = filter (fun a => Q a = true) l.
Proof.
  induction l as [|a l IH]; intros H; [done|]. rewrite !filter_cons, (H a) by apply list_elem_of_here. rewrite IH; [done|]. intros b Hb. apply H. by apply list_elem_of_further.
Qed.

Lemma entries_same h h' oc : (forall a, a ∈ oc -> entry h' a = entry h a) -> entries h' oc = entries h oc.
Proof.
  unfold entries. induction oc as [|a l IH]; intros H; [done|]. cbn. rewrite (H a) by apply list_elem_of_here. rewrite IH; [done|]. intros b Hb. apply H. by apply list_elem_of_further.
Qed.

Lemma entries_app h l1 l2 : entries h (l1 ++ l2) = entries h l1 ++ entries h l2.
Proof. unfold entries. apply omap_app. Qed.

Lemma elem_of_entries h oc k v : (k, v) ∈ entries h oc <-> exists a, a ∈ oc /\ entry h a = Some (k, v).
Proof. unfold entries. rewrite list_elem_of_omap. done. Qed.

(** The state with a new last node [a]. *)
Definition linked h (ct : option nat) a : gmap nat Node := match ct with Some c => alter (set_orderNext (Some a)) c h | None => h end.

Definition appended s (k : K) (v : V) (i : nat) (p : option nat) : Map :=
  let a := fresh s in
  mkMap (<[a := mkNode k v p None false (staging_head_ s) false false (-1)]> (linked (nodes s) (orderTail s) a)) (S a) (<[i := Some a]> (buckets s))
    (match orderTail s with Some _ => orderHead s | None => Some a end) (Some a) (Some a) (gc_mutex_ s) (all_nodes_ s) (delete_since_gc_ s) (op_count_ s) (epoch s) (weak_ s).

Lemma linked_lookup h ct a b n : h !! b = Some n -> exists n', linked h ct a !! b = Some n' /\ key n' = key n /\ value n' = value n /\ bucketNext n' = bucketNext n /\ is_deleted n' = is_deleted n /\
  staging_next n' = staging_next n /\ bucket_swept n' = bucket_swept n /\ order_swept n' = order_swept n /\ retired_epoch n' = retired_epoch n /\ orderNext n' = if decide (ct = Some b) then Some a else orderNext n.
Proof.
  intros E. unfold linked. destruct ct as [c|]; [|exists n; by rewrite decide_False]. destruct (decide (c = b)) as [->|Hne].
  - rewrite lookup_alter_eq, E. eexists. split; [done|]. rewrite decide_True by done. done.
  - rewrite lookup_alter_ne by done. exists n. rewrite decide_False by congruence. done.
Qed.

Lemma linked_back h ct a b n' : linked h ct a !! b = Some n' -> is_Some (h !! b).
Proof. unfold linked. destruct ct as [c|]; [|eauto]. destruct (decide (c = b)) as [->|Hne]; [rewrite lookup_alter_eq; destruct (h !! b); [eauto|done]|rewrite lookup_alter_ne by done; eauto]. Qed.

Lemma linked_seg f h ct a p l q : (forall n n' : Node, bucketNext n' = bucketNext n -> staging_next n' = staging_next n -> f n' = f n) -> seg f h p l q -> seg f (linked h ct a) p l q.
Proof. intros Hf. apply seg_frame. intros b n _ E. destruct (linked_lookup h ct a b n E) as (n' & E' & H). exists n'. split; [done|]. apply Hf; apply H. Qed.

Lemma linked_entry h ct a b : entry (linked h ct a) b = entry h b.
Proof.
  unfold entry. destruct (h !! b) as [n|] eqn:E.
  - destruct (linked_lookup h ct a b n E) as (n' & -> & Ek & Ev & _ & Ed & _). cbn. by rewrite Ek, Ev, Ed.
  - destruct (linked h ct a !! b) eqn:E'; [|done]. apply linked_back in E' as [? ?]. congruence.
Qed.

Lemma rep_elem s oc sl a : rep s oc sl -> a ∈ oc -> is_Some (nodes s !! a).
Proof. intros H Ha. exact (seg_elem _ _ _ _ _ a (r_order _ _ _ H) Ha). Qed.

Lemma rep_appended s oc sl k v p : rep s oc sl -> found s oc k None -> buckets s !! bucket_of (bucketCount s) k = Some p ->
  let s' := appended s k v (bucket_of (bucketCount s) k) p in rep s' (oc ++ [fresh s]) (fresh s :: sl) /\ entries (nodes s') (oc ++ [fresh s]) = entries (nodes s) oc ++ [(k, v)].
Proof.
  intros H Hk Ep. set (i := bucket_of _ _) in *. set (a := fresh s). cbn zeta. set (s' := appended s k v i p). set (n := mkNode k v p None false (staging_head_ s) false false (-1)).
  assert (Hnew : nodes s !! a = None) by (destruct (nodes s !! a) eqn:E; [|done]; pose proof (r_fresh _ _ _ H a ltac:(eauto)); unfold a in *; lia).
  assert (Hoc : a ∉ oc) by (intros Ha; destruct (rep_elem s oc sl a H Ha); congruence).
  assert (Hsl : a ∉ sl) by (intros Ha; destruct (seg_elem _ _ _ _ _ a (r_staging _ _ _ H) Ha); congruence).
  assert (Ea : nodes s' !! a = Some n) by apply lookup_insert_eq.
  assert (Eb : forall b, b <> a -> nodes s' !! b = linked (nodes s) (orderTail s) a !! b) by (intros b Hb; cbn; by rewrite lookup_insert_ne).
  assert (Hent : forall b, b <> a -> entry (nodes s') b = entry (nodes s) b) by (intros b Hb; unfold entry; rewrite (Eb b Hb); apply linked_entry).
  assert (Henta : entry (nodes s') a = Some (k, v)) by (unfold entry; by rewrite Ea).
  assert (Hentries : entries (nodes s') (oc ++ [a]) = entries (nodes s) oc ++ [(k, v)]).
  { rewrite entries_app. rewrite (entries_same (nodes s) (nodes s') oc) by (intros b Hb; apply Hent; congruence). f_equal. unfold entries. cbn [omap list_omap]. by rewrite Henta. }
  assert (Hseg : forall f q l r, (forall n n' : Node, bucketNext n' = bucketNext n -> staging_next n' = staging_next n -> f n' = f n) -> a ∉ l -> seg f (nodes s) q l r -> seg f (nodes s') q l r).
  { intros f q l r Hf Hl Hs. apply seg_off; [done|]. by apply linked_seg. }
  assert (Hbl : forall j, bucket_list s' (oc ++ [a]) j = (if decide (j = i) then [a] else []) ++ bucket_list s oc j).
  { intros j. unfold bucket_list. assert (Ec : bucketCount s' = bucketCount s) by apply length_insert. rewrite Ec, list.filter_app, rev_app_distr. f_equal.
    - rewrite filter_cons, filter_nil. unfold in_bucket. rewrite Henta. fold i. destruct (Nat.eqb_spec i j) as [->|Hne]; [by rewrite !decide_True|]. rewrite !decide_False by congruence. done.
    - f_equal. apply (filter_same (in_bucket (nodes s') (bucketCount s) j) (in_bucket (nodes s) (bucketCount s) j)). intros b Hb. unfold in_bucket. rewrite Hent by congruence. done. }
  split; [|exact Hentries]. split.
  - change (orderHead s') with (match orderTail s with Some _ => orderHead s | None => Some a end). apply seg_app. pose proof (r_order _ _ _ H) as Ho. pose proof (r_tail _ _ _ H) as Ht. destruct oc as [|b oc'] using rev_ind; [|clear IHoc'].
    + cbn in Ht. rewrite Ht. exists (Some a). split; [done|]. split; [done|]. exists n. split; [exact Ea|done].
    + rewrite last_snoc in Ht. rewrite Ht. apply seg_app in Ho as (r & Ho1 & Hb). destruct Hb as (-> & m & Em & Hm). exists (Some a). pose proof (r_nodup _ _ _ H) as Hnd. apply list.NoDup_app in Hnd as (_ & Hnd & _). split.
      * apply seg_app. exists (Some b). assert (Hba : b <> a) by set_solver. split.
        -- apply (seg_frame _ (nodes s)); [|done]. intros c x Hc E. rewrite Eb by set_solver. destruct (linked_lookup (nodes s) (orderTail s) a c x E) as (x' & E' & Hx). exists x'. split; [done|].
           destruct Hx as (_ & _ & _ & _ & _ & _ & _ & _ & ->). rewrite decide_False; [done|]. rewrite Ht. intros [= ->]. apply (Hnd c Hc). set_solver.
        -- split; [done|]. destruct (linked_lookup (nodes s) (orderTail s) a b m Em) as (x' & E' & Hx). exists x'. rewrite Eb by done. split; [done|]. destruct Hx as (_ & _ & _ & _ & _ & _ & _ & _ & ->). by rewrite decide_True.
      * split; [done|]. by exists n.
  - cbn. by rewrite last_snoc.
  - apply list.NoDup_app. split; [apply H|]. split; [|apply list.NoDup_singleton]. intros b Hb Hb'%list_elem_of_singleton. congruence.
  - intros j q Eq. change (path bucketNext (nodes s') q (bucket_list s' (oc ++ [a]) j)). rewrite Hbl. cbn in Eq. assert (Hbs : forall j, a ∉ bucket_list s oc j) by (intros j' [Ha _]%elem_of_bucket; done). destruct (decide (j = i)) as [->|Hne].
    + rewrite list_lookup_insert_eq in Eq by by eapply lookup_lt_Some. injection Eq as <-. split; [done|]. exists n. split; [done|]. apply Hseg; [done|apply Hbs|]. by apply (r_bucket _ _ _ H).
    + rewrite list_lookup_insert_ne in Eq by done. apply Hseg; [done|apply Hbs|]. by apply (r_bucket _ _ _ H).
  - rewrite Hentries, fmap_app. apply list.NoDup_app. split; [apply H|]. split; [|apply list.NoDup_singleton]. intros k' Hk' Hk2%list_elem_of_singleton. cbn in Hk2. subst k'.
    apply list_elem_of_fmap in Hk' as ([k' v'] & Ek & He). cbn in Ek. subst k'. apply elem_of_entries in He as (b & Hb & E). exact (Hk b v' Hb E).
  - cbn. split; [done|]. exists n. split; [done|]. apply Hseg; [done|done|apply H].
  - intros b. change (is_Some (nodes s' !! b) <-> b ∈ a :: (sl ++ all_nodes_ s)). rewrite elem_of_cons. destruct (decide (b = a)) as [->|Hne]; [rewrite Ea; split; [by left|eauto]|].
    rewrite Eb by done. rewrite <- (r_known _ _ _ H b). split.
    + intros [m Em]. right. by apply linked_back in Em.
    + intros [?|[m Em]]; [done|]. destruct (linked_lookup (nodes s) (orderTail s) a b m Em) as (m' & -> & _). eauto.
  - cbn. constructor; [|apply H]. intros Ha. apply (r_known _ _ _ H) in Ha as [m Em]. congruence.
  - intros b m. destruct (decide (b = a)) as [->|Hne]; [rewrite Ea; by intros [= <-]|]. rewrite Eb by done. intros Em. pose proof (linked_back _ _ _ _ _ Em) as [m0 E0].
    destruct (linked_lookup (nodes s) (orderTail s) a b m0 E0) as (m' & Em' & Hm). rewrite Em in Em'. injection Em' as <-. destruct Hm as (_ & _ & _ & _ & _ & -> & _ & -> & _). by apply (r_unswept _ _ _ H b).
  - intros b. destruct (decide (b = a)) as [->|Hne]; [cbn; unfold a; lia|]. rewrite Eb by done. intros [m Em]. apply linked_back in Em. apply (r_fresh _ _ _ H) in Em. cbn. lia.
  - apply H.
  - unfold bucketCount. cbn. rewrite length_insert. apply H.
Qed.

(** What a search does is the same whatever the epochs are. *)
Lemma rep_epoch s oc sl e : rep s oc sl -> rep (with_epoch s e) oc sl.
Proof. by intros []. Qed.

Lemma entry_insert_off h a b n : a <> b -> entry (<[a := n]> h) b = entry h b.
Proof. intros Hne. unfold entry. by rewrite lookup_insert_ne. Qed.

Lemma rep_fresh s oc sl : rep s oc sl -> nodes s !! fresh s = None.
Proof. intros H. destruct (nodes s !! fresh s) eqn:E; [|done]. pose proof (r_fresh _ _ _ H (fresh s) ltac:(eauto)). lia. Qed.

Lemma run_new_node k v s : run (new_node k v) s =
  Ok (mkMap (<[fresh s := mkNode k v None None false None false false (-1)]> (nodes s)) (S (fresh s)) (buckets s) (orderHead s) (orderTail s) (staging_head_ s) (gc_mutex_ s) (all_nodes_ s)
    (delete_since_gc_ s) (op_count_ s) (epoch s) (weak_ s), fresh s).
Proof. unfold new_node. by rewrite run_act. Qed.

(** The state after phase 1. *)
Definition staged s (k : K) (v : V) (i : nat) (p : option nat) : Map :=
  let a := fresh s in
  mkMap (<[a := mkNode k v p None false (staging_head_ s) false false (-1)]> (nodes s)) (S a) (<[i := Some a]> (buckets s))
    (orderHead s) (orderTail s) (Some a) (gc_mutex_ s) (all_nodes_ s) (delete_since_gc_ s) (op_count_ s) (epoch s) (weak_ s).

Lemma stage_node_ok fuel a n s : (0 < fuel)%nat -> weak_ s = [] -> nodes s !! a = Some n ->
  run (stage_node fuel a) s = Ok (with_staging (with_nodes s (<[a := set_staging (staging_head_ s) n]> (nodes s))) (Some a), ()).
Proof.
  intros Hf Hw En. destruct fuel as [|fuel]; [lia|]. unfold stage_node. rewrite (run_bind_ok _ _ _ _ _ (run_load CStaging _ s eq_refl)).
  set (s1 := with_nodes s (<[a := set_staging (staging_head_ s) n]> (nodes s))).
  rewrite (run_forever _ _ _ s (with_staging s1 (Some a)) (inr ())); [done|]. rewrite (run_bind_ok _ _ _ _ _ (run_node_set a (set_staging (staging_head_ s)) s n En)).
  rewrite (run_bind_ok _ _ _ _ _ (run_exchange_weak CStaging (staging_head_ s) (Some a) s1 _ Hw eq_refl eq_refl)). done.
Qed.

(** The scan for an older node with the key of a new one finds none. *)
Lemma duplicates_ok s oc sl s' k p fuel : rep s oc sl -> found s oc k None -> buckets s !! bucket_of (bucketCount s) k = Some p -> (forall a, is_Some (nodes s !! a) -> nodes s' !! a = nodes s !! a) -> (length oc < fuel)%nat ->
  run (forever fuel (duplicate_turn key_eqb k) p) s' = Ok (s', false).
Proof.
  intros H Hk Ep Hsame Hf. set (l := bucket_list s oc (bucket_of (bucketCount s) k)). pose proof (r_bucket _ _ _ H _ _ Ep) as Hp. fold l in Hp. change (rev _) with l in Hp.
  assert (Hin : forall a, a ∈ l -> is_Some (nodes s !! a)) by (intros a Ha; by apply (seg_elem _ _ _ _ _ a Hp)).
  assert (Hent : forall a, a ∈ l -> entry (nodes s') a = entry (nodes s) a) by (intros a Ha; unfold entry; by rewrite Hsame by by apply Hin).
  destruct (chain_walk_ok s' k (fun _ => true) false (duplicate_turn key_eqb k) fuel p l) as (r & Er & Hr).
  - intros a n En Ed. unfold duplicate_turn. rewrite (run_bind_ok _ _ _ _ _ (run_node key a s' n En)). destruct (key_eqb (key n) k).
    + by rewrite (run_bind_ok _ _ _ _ _ (run_node is_deleted a s' n En)), Ed.
    + rewrite (run_bind_ok (Ret true) _ s' s' true eq_refl). by rewrite (run_bind_ok _ _ _ _ _ (run_next a s' n En)).
  - done.
  - apply (seg_frame _ (nodes s)); [|exact Hp]. intros a n _ E. exists n. by rewrite Hsame by eauto.
  - intros a Ha. rewrite Hent by done. by eapply bucket_entries.
  - pose proof (bucket_length s oc (bucket_of (bucketCount s) k)). unfold l. lia.
  - rewrite Er. destruct r as [a|]; [|done]. destruct Hr as [Ha [v Ev]]. rewrite Hent in Ev by done. apply elem_of_bucket in Ha as [Ha _]. by destruct (Hk a v Ha).
Qed.

Lemma alter_as_insert (f : Node -> Node) c h m : h !! c = Some m -> alter f c h = <[c := f m]> h.
Proof.
  intros E. apply map_eq. intros j. destruct (decide (j = c)) as [->|Hne]; [by rewrite lookup_alter_eq, lookup_insert_eq, E|by rewrite lookup_alter_ne, lookup_insert_ne].
Qed.

(** The last node of the order has no next one. *)
Lemma rep_tail s oc sl : rep s oc sl -> match orderTail s with Some c => exists m, nodes s !! c = Some m /\ orderNext m = None | None => orderHead s = None end.
Proof.
  intros H. pose proof (r_order _ _ _ H) as Ho. rewrite (r_tail _ _ _ H). destruct oc as [|b oc' _] using rev_ind; [exact Ho|]. rewrite last_snoc.
  apply seg_app in Ho as (r & _ & _ & m & Em & Hm). by exists m.
Qed.

(** Whether a live node has the key. *)
Definition present s oc (k : K) : bool := existsb (fun e => key_eqb e.1 k) (entries (nodes s) oc).

Lemma present_found s oc k r : found s oc k r -> present s oc k = match r with Some _ => true | None => false end.
Proof.
  unfold present. destruct r as [a|]; cbn.
  - intros [Ha [v Ev]]. apply existsb_exists. exists (k, v). split; [|by apply key_spec]. apply list_elem_of_In, elem_of_entries. eauto.
  - intros H. apply not_true_iff_false. intros Hex. apply existsb_exists in Hex as ([k' v] & Hin%list_elem_of_In & Ek). apply key_spec in Ek. cbn in Ek. subst k'. apply elem_of_entries in Hin as (a & Ha & E). exact (H a v Ha E).
Qed.

Section Insertion.

Context (rvalue : bool) (moved_same : forall k, rvalue = true -> moved k = k).

Lemma used_same k : (if rvalue then moved k else k) = k.
Proof. destruct rvalue eqn:E; [by apply moved_same|done]. Qed.

(** Phase 1 for a key that is not there. *)
Lemma bucket_turn_new s oc sl k v p fuel : rep s oc sl -> run (find_in_bucket key_eqb keyHasher fuel k) s = Ok (s, None) -> found s oc k None -> buckets s !! bucket_of (bucketCount s) k = Some p -> (length oc < fuel)%nat ->
  run (bucket_turn key_eqb keyHasher moved fuel rvalue (bucket_of (bucketCount s) k) k v None) s = Ok (staged s k v (bucket_of (bucketCount s) k) p, inr (Some (fresh s))).
Proof.
  intros H Hfind Hk Ep Hf. set (i := bucket_of _ _) in *. set (a := fresh s). unfold bucket_turn. rewrite (run_bind_ok _ _ _ _ _ Hfind), (run_bind_ok _ _ _ _ _ (run_new_node k v s)). cbn zeta. rewrite used_same. fold a.
  set (s1 := mkMap _ _ _ _ _ _ _ _ _ _ _ _). set (n1 := mkNode k v None None false None false false (-1)). assert (E1 : nodes s1 !! a = Some n1) by apply lookup_insert_eq.
  rewrite (run_bind_ok _ _ _ _ _ (run_load (CBucket i) p s1 ltac:(cbn; by rewrite Ep))).
  set (n2 := set_bucketNext p n1). set (s2 := with_nodes s1 (<[a := n2]> (nodes s1))). rewrite (run_bind_ok _ _ _ _ _ (run_store (CNext a) p s1 s2 (write_next a p s1 n1 E1))).
  set (s3 := with_buckets s2 (<[i := Some a]> (buckets s))). assert (E3 : nodes s3 !! a = Some n2) by apply lookup_insert_eq.
  rewrite (run_bind_ok _ _ _ _ _ (run_exchange_weak (CBucket i) p (Some a) s2 s3 (r_weak _ _ _ H) ltac:(cbn; by rewrite Ep) (write_bucket i (Some a) p s2 Ep))).
  rewrite (run_bind_ok _ _ _ _ _ (run_next a s3 n2 E3)). cbn [bucketNext n2 set_bucketNext].
  assert (Hsame : forall b, is_Some (nodes s !! b) -> nodes s3 !! b = nodes s !! b).
  { intros b [m Em]. pose proof (rep_fresh _ _ _ H). assert (b <> a) by (unfold a; congruence). cbn. by rewrite !lookup_insert_ne by done. }
  rewrite (run_bind_ok _ _ _ _ _ (duplicates_ok s oc sl s3 k p fuel H Hk Ep Hsame Hf)), (run_bind_ok _ _ _ _ _ (stage_node_ok fuel a n2 s3 ltac:(lia) (r_weak _ _ _ H) E3)). cbn [run]. f_equal. f_equal. unfold staged. cbn. unfold with_nodes, with_staging. cbn. by rewrite !insert_insert_eq.
Qed.

(** Phase 2: the new node goes behind the last one. *)
Lemma order_turn_ok s oc sl k v i p fuel : rep s oc sl -> (0 < fuel)%nat -> run (forever fuel (order_turn (fresh s)) None) (staged s k v i p) = Ok (appended s k v i p, ()).
Proof.
  intros H Hf. destruct fuel as [|fuel]; [lia|]. set (a := fresh s). set (s1 := staged s k v i p). pose proof (rep_tail _ _ _ H) as Ht. pose proof (rep_fresh _ _ _ H) as Hnew. fold a in Hnew.
  pose proof (r_weak _ _ _ H) as Hw. rewrite (run_forever _ _ _ s1 (appended s k v i p) (inr ())); [done|]. unfold order_turn. rewrite (run_bind_ok _ _ _ _ _ (run_load CTail _ s1 eq_refl)). cbn [orderTail s1 staged].
  destruct (orderTail s) as [c|] eqn:Et.
  - destruct Ht as (m & Em & Hm). assert (Hca : c <> a) by congruence. assert (E1 : nodes s1 !! c = Some m) by (cbn; by rewrite lookup_insert_ne by done).
    rewrite (run_bind_ok _ _ _ _ _ (run_order c s1 m E1)), (run_bind_ok _ _ _ _ _ (run_load CTail _ s1 eq_refl)). cbn [orderTail s1 staged]. rewrite decide_True, Hm by done.
    set (s2 := with_nodes s1 (<[c := set_orderNext (Some a) m]> (nodes s1))).
    rewrite (run_bind_ok _ _ _ _ _ (run_exchange_weak (COrder c) None (Some a) s1 s2 Hw ltac:(cbn [read_cell]; unfold node_at; rewrite E1; cbn; by rewrite Hm) (write_order c (Some a) s1 m E1))).
    rewrite (run_bind_ok _ _ _ _ _ (run_exchange CTail (Some c) (Some a) s2 (with_order s2 (orderHead s) (Some a)) ltac:(cbn; by rewrite Et) eq_refl)). cbn [run]. f_equal. f_equal.
    unfold appended. fold a. rewrite Et. cbn [linked]. rewrite (alter_as_insert _ c _ m Em). unfold s2, s1, staged, with_order, with_nodes. cbn. fold a. by rewrite (insert_insert_ne _ a c) by done.
  - rewrite (run_bind_ok _ _ _ _ _ (run_exchange_weak CHead None (Some a) s1 (with_order s1 (Some a) None) Hw ltac:(cbn; by rewrite Ht) ltac:(cbn; by rewrite Et))).
    rewrite (run_bind_ok _ _ _ _ _ (run_exchange CTail None (Some a) (with_order s1 (Some a) None) (with_order s1 (Some a) (Some a)) eq_refl eq_refl)). cbn [run]. f_equal. f_equal.
    unfold appended. fold a. by rewrite Et.
Qed.

Lemma map_insert_ok t s oc sl k v fuel : rep s oc sl -> quiet t (epoch s) -> (length oc + 4 <= fuel)%nat ->
  exists s' oc' sl', run (insert_internal key_eqb keyHasher moved fuel t rvalue k v) s = Ok (s', negb (present s oc k)) /\ rep s' oc' sl' /\ quiet t (epoch s') /\
    entries (nodes s') oc' = entries (nodes s) oc ++ (if present s oc k then [] else [(k, v)]) /\ (length oc' <= S (length oc))%nat /\
    size (nodes s') = (size (nodes s) + if present s oc k then 0 else 1)%nat /\ gc_mutex_ s' = gc_mutex_ s.
Proof.
  intros H Hq Hf. unfold insert_internal. destruct (enter_guard_ok t s fuel Hq ltac:(lia)) as (e & Ee & Hpin). rewrite (run_bind_ok _ _ _ _ _ Ee). pose proof (rep_epoch _ _ _ e H) as H1. set (s1 := with_epoch s e) in *.
  rewrite (run_bind_ok _ _ _ _ _ (run_hash k s1 (r_some _ _ _ H1))). destruct (find_in_bucket_ok s1 oc sl k fuel H1 ltac:(lia)) as (r & Er & Hr). pose proof (present_found s1 oc k r Hr) as Hpr. change (present s1 oc k) with (present s oc k) in Hpr.
  destruct fuel as [|fuel']; [lia|]. destruct r as [a|].
  - destruct Hr as [Ha [v' Ev]]. apply entry_spec in Ev as (n & En & Ed & _). rewrite Hpr.
    rewrite (run_bind_ok _ _ s1 s1 None); [|rewrite (run_forever _ _ _ s1 s1 (inr None)); [done|]; unfold bucket_turn; rewrite (run_bind_ok _ _ _ _ _ Er), (run_bind_ok _ _ _ _ _ (run_node is_deleted a s1 n En)), Ed; done].
    destruct (leave_guard_ok t s1 Hpin) as (e' & El & Hq'). rewrite (run_bind_ok _ _ _ _ _ El). exists (with_epoch s1 e'), oc, sl. rewrite app_nil_r. split; [done|]. split; [by apply rep_epoch|]. repeat split; try done; cbn; lia.
  - rewrite Hpr. destruct (bucket_path s1 oc sl k H1) as (p & Ep & _). cbn in Ep. destruct (buckets s !! _) as [p'|] eqn:Eb; [|done]. injection Ep as ->.
    rewrite (run_bind_ok _ _ s1 (staged s1 k v (bucket_of (bucketCount s1) k) p) (Some (fresh s1))); [|rewrite (run_forever _ _ _ _ _ _ (bucket_turn_new s1 oc sl k v p (S fuel') H1 Er Hr Eb ltac:(lia))); done].
    set (s2 := staged _ _ _ _ _). set (n := mkNode k v p None false (staging_head_ s1) false false (-1)). assert (E2 : nodes s2 !! fresh s1 = Some n) by apply lookup_insert_eq.
    rewrite (run_bind_ok _ _ s2 s2 ()); [|apply run_store; rewrite (write_order _ _ _ _ E2); change (set_orderNext None n) with n; by rewrite (insert_id _ _ _ E2)].
    set (s3 := appended s1 k v (bucket_of (bucketCount s1) k) p). rewrite (run_bind_ok _ _ s2 s3 () (order_turn_ok s1 oc sl k v _ p (S fuel') H1 ltac:(lia))). destruct (leave_guard_ok t s3 Hpin) as (e' & El & Hq'). rewrite (run_bind_ok _ _ _ _ _ El).
    destruct (rep_appended s1 oc sl k v p H1 Hr Eb) as [H3 He]. exists (with_epoch s3 e'), (oc ++ [fresh s1]), (fresh s1 :: sl). split; [done|]. split; [by apply rep_epoch|]. split; [done|]. split; [exact He|]. rewrite length_app. split; [cbn; lia|]. split; [|done].
    cbn [nodes with_epoch s3 appended]. rewrite map_size_insert_None.
    + unfold linked. pose proof (rep_tail _ _ _ H1) as Ht. destruct (orderTail s1) as [c|]; [|cbn; lia]. destruct Ht as (m & Em & _). rewrite (alter_as_insert _ c _ m Em), map_size_insert_Some by eauto. cbn. lia.
    + destruct (linked (nodes s1) (orderTail s1) (fresh s1) !! fresh s1) eqn:E; [|done]. apply linked_back in E. rewrite (rep_fresh _ _ _ H1) in E. by destruct E.
Qed.

End Insertion.

(** ** Changes of a heap that keep its nodes *)

Definition kept n n' : Prop := key n' = key n /\ staging_next n' = staging_next n /\ bucket_swept n' = bucket_swept n /\ retired_epoch n' = retired_epoch n.

Definition kept_heap h h' : Prop := forall b, option_Forall2 kept (h !! b) (h' !! b).

#[local] Instance kept_heap_refl : Reflexive kept_heap.
Proof. intros h b. by destruct (h !! b); constructor. Qed.

#[local] Instance kept_heap_trans : Transitive kept_heap.
Proof.
  intros h1 h2 h3 H1 H2 b. specialize (H1 b). specialize (H2 b). destruct H1 as [n1 n2 Hk1|]; inversion H2 as [? n3 Hk2|]; subst; [|by constructor].
  constructor. unfold kept in *. destruct Hk1 as (? & ? & ? & ?), Hk2 as (? & ? & ? & ?). repeat split; congruence.
Qed.

Lemma kept_insert h a n n' : h !! a = Some n -> kept n n' -> kept_heap h (<[a := n']> h).
Proof.
  intros E Hk b. destruct (decide (b = a)) as [->|Hne]; [rewrite lookup_insert_eq, E; by constructor|]. rewrite lookup_insert_ne by done. by destruct (h !! b); constructor.
Qed.

Lemma kept_some h h' b : kept_heap h h' -> (is_Some (h' !! b) <-> is_Some (h !! b)).
Proof. intros H. specialize (H b). inversion H; split; intros [? ?]; eauto; congruence. Qed.

Lemma kept_size h h' : kept_heap h h' -> size h' = size h.
Proof. intros H. rewrite <- !size_dom. f_equal. apply set_eq. intros b. rewrite !elem_of_dom. by apply kept_some. Qed.

(** The parts of [rep] that only look at what such a change keeps. *)
Lemma rep_kept s s' oc oc' sl : rep s oc sl -> kept_heap (nodes s) (nodes s') -> path orderNext (nodes s') (orderHead s') oc' -> orderTail s' = list.last oc' -> NoDup oc' ->
  (forall i p, buckets s' !! i = Some p -> path bucketNext (nodes s') p (bucket_list s' oc' i)) -> NoDup (entries (nodes s') oc').*1 ->
  staging_head_ s' = staging_head_ s -> all_nodes_ s' = all_nodes_ s -> fresh s' = fresh s -> weak_ s' = weak_ s -> bucketCount s' = bucketCount s -> rep s' oc' sl.
Proof.
  intros H Hk Ho Ht Hnd Hb Hkeys Es Ea Ef Ew Ec. split; try done.
  - rewrite Es. apply (seg_frame _ (nodes s)); [|apply H]. intros a n _ En. specialize (Hk a). rewrite En in Hk. inversion Hk as [? n' (? & ? & _)|]; subst. eauto.
  - intros a. rewrite Ea, (kept_some _ _ a Hk). apply H.
  - rewrite Ea. apply H.
  - intros a n' En'. specialize (Hk a). rewrite En' in Hk. inversion Hk as [n ? Hkn En Eq|]; subst. unfold kept in Hkn. destruct Hkn as (_ & _ & -> & ->). symmetry in En. exact (r_unswept _ _ _ H a n En).
  - intros a. rewrite Ef, (kept_some _ _ a Hk). apply H.
  - rewrite Ew. apply H.
  - rewrite Ec. apply H.
Qed.

(** ** Removal *)

Definition last_cell (c : cell) l : cell := match list.last l with Some b => CNext b | None => c end.

Lemma write_read s c p q : read_cell s c = Ok p -> exists s', write_cell s c q = Ok s'.
Proof.
  destruct c as [i|a| | |a|]; cbn [read_cell]; intros E; try (by eexists).
  - destruct (buckets s !! i) eqn:Eb; [|done]. eexists. by apply (write_bucket i q _ s Eb).
  - unfold node_at in E. destruct (nodes s !! a) eqn:En; [|done]. eexists. by apply (write_next a q s _ En).
  - unfold node_at in E. destruct (nodes s !! a) eqn:En; [|done]. eexists. by apply (write_order a q s _ En).
Qed.

(** The loop finds the node and takes it out behind whatever is before it. *)
Lemma unlink_ok fuel a n s c p l : nodes s !! a = Some n -> read_cell s c = Ok p -> seg bucketNext (nodes s) p l (Some a) -> (a ∉ l) -> (length l < fuel)%nat ->
  exists s', write_cell s (last_cell c l) (bucketNext n) = Ok s' /\ run (forever fuel (unlink_turn a) (c, p)) s = Ok (s', true).
Proof.
  intros En. revert fuel c p. induction l as [|b l IH]; intros fuel c p Ec Hp Ha Hf; (destruct fuel as [|fuel]; [cbn in Hf; lia|]).
  - cbn in Hp. subst p. destruct (write_read s c _ (bucketNext n) Ec) as [s' Es']. exists s'. split; [done|]. rewrite (run_forever _ _ _ s s' (inr true)); [done|].
    unfold unlink_turn. rewrite decide_True, (run_bind_ok _ _ _ _ _ (run_next a s n En)), (run_bind_ok _ _ _ _ _ (run_exchange c (Some a) (bucketNext n) s s' Ec Es')) by done. done.
  - destruct Hp as (-> & m & Em & Hp). destruct (IH fuel (CNext b) (bucketNext m)) as (s' & Es' & Er); [cbn; unfold node_at; by rewrite Em|done|set_solver|cbn in Hf; lia|]. exists s'. split.
    + unfold last_cell in *. rewrite last_cons. by destruct (list.last l).
    + rewrite (run_forever _ _ _ s s (inl (CNext b, bucketNext m))); [done|]. unfold unlink_turn. rewrite decide_False by set_solver. by rewrite (run_bind_ok _ _ _ _ _ (run_next b s m Em)).
Qed.

Lemma try_unlink_ok fuel a n s p l : nodes s !! a = Some n -> (0 < bucketCount s)%nat -> buckets s !! bucket_of (bucketCount s) (key n) = Some p -> seg bucketNext (nodes s) p l (Some a) -> (a ∉ l) -> (length l < fuel)%nat ->
  exists s', write_cell s (last_cell (CBucket (bucket_of (bucketCount s) (key n))) l) (bucketNext n) = Ok s' /\ run (try_unlink_from_bucket keyHasher fuel a) s = Ok (s', true).
Proof.
  intros En Hc Ep Hp Ha Hf. destruct (unlink_ok fuel a n s (CBucket (bucket_of (bucketCount s) (key n))) p l En) as (s' & Es' & Er); [cbn; by rewrite Ep|done|done|done|]. exists s'. split; [done|].
  unfold try_unlink_from_bucket. rewrite (run_bind_ok _ _ _ _ _ (run_node key a s n En)), (run_bind_ok _ _ _ _ _ (run_hash (key n) s Hc)), (run_bind_ok _ _ s s p); [done|]. apply run_load. cbn. by rewrite Ep.
Qed.

(** The chain of a bucket around one of its nodes. *)
Lemma bucket_split s oc sl k v a : rep s oc sl -> a ∈ oc -> entry (nodes s) a = Some (k, v) ->
  exists l1 l2, bucket_list s oc (bucket_of (bucketCount s) k) = l1 ++ a :: l2 /\ NoDup (l1 ++ a :: l2) /\ forall i, i <> bucket_of (bucketCount s) k -> a ∉ bucket_list s oc i.
Proof.
  intros H Ha Ev. assert (Hin : a ∈ bucket_list s oc (bucket_of (bucketCount s) k)) by (apply elem_of_bucket; eauto). apply list_elem_of_split in Hin as (l1 & l2 & El). exists l1, l2. split; [done|]. split.
  - rewrite <- El. unfold bucket_list. apply NoDup_ListNoDup, List.NoDup_rev, NoDup_ListNoDup, list.NoDup_filter, H.
  - intros i Hne (_ & k' & v' & E & Hi)%elem_of_bucket. rewrite Ev in E. injection E as <- <-. congruence.
Qed.

Lemma entry_unique h oc a b k v w : NoDup (entries h oc).*1 -> a ∈ oc -> b ∈ oc -> entry h a = Some (k, v) -> entry h b = Some (k, w) -> a = b.
Proof.
  intros Hnd Ha Hb Ea Eb. revert Hnd Ha Hb. unfold entries. induction oc as [|c l IH]; intros Hnd Ha Hb; [by apply not_elem_of_nil in Ha|].
  assert (Hin : forall x u, x ∈ l -> entry h x = Some (k, u) -> k ∈ (omap (entry h) l).*1) by (intros x u Hx E; apply list_elem_of_fmap; exists (k, u); split; [done|]; apply list_elem_of_omap; eauto).
  cbn in Hnd. apply elem_of_cons in Ha, Hb. destruct Ha as [->|Ha], Hb as [->|Hb]; [done| | |].
  - rewrite Ea in Hnd. cbn in Hnd. apply list.NoDup_cons in Hnd as [Hn _]. by destruct (Hn (Hin b w Hb Eb)).
  - rewrite Eb in Hnd. cbn in Hnd. apply list.NoDup_cons in Hnd as [Hn _]. by destruct (Hn (Hin a v Ha Ea)).
  - apply IH; [|done|done]. destruct (entry h c); [by apply list.NoDup_cons in Hnd as [_ ?]|done].
Qed.

(** The entries and the chains of the buckets when the entry of [a] goes. *)
Lemma entries_drop h h' oc a k v : NoDup (entries h oc).*1 -> a ∈ oc -> entry h a = Some (k, v) -> (forall b, b ∈ oc -> entry h' b = if decide (b = a) then None else entry h b) ->
  entries h' oc = filter (fun e => key_eqb e.1 k = false) (entries h oc).
Proof.
  intros Hnd Ha Ea He. assert (Hu : forall b w, b ∈ oc -> entry h b = Some (k, w) -> b = a) by (intros b w Hb Eb; by apply (entry_unique h oc b a k w v)).
  clear Hnd Ha. unfold entries. induction oc as [|b l IH]; [done|]. cbn. rewrite (He b) by apply list_elem_of_here. assert (IH' := IH ltac:(intros c Hc; apply He; by apply list_elem_of_further) ltac:(intros c w Hc; apply Hu; by apply list_elem_of_further)).
  destruct (decide (b = a)) as [->|Hne].
  - rewrite Ea, filter_cons. rewrite decide_False; [exact IH'|]. cbn. rewrite (proj2 (key_spec k k) eq_refl). done.
  - destruct (entry h b) as [[k' w]|] eqn:Eb; [|exact IH']. rewrite filter_cons, decide_True, IH'; [done|]. cbn. apply not_true_iff_false. intros E%key_spec. subst k'. by apply Hne, (Hu b w ltac:(apply list_elem_of_here)).
Qed.

Lemma bucket_drop s s' oc a i : bucketCount s' = bucketCount s -> (forall b, b ∈ oc -> entry (nodes s') b = if decide (b = a) then None else entry (nodes s) b) ->
  bucket_list s' oc i = filter (fun b => b <> a) (bucket_list s oc i).
Proof.
  intros Ec He. unfold bucket_list. rewrite Ec. induction oc as [|b l IH]; [done|]. assert (IH' := IH ltac:(intros c Hc; apply He; by apply list_elem_of_further)). rewrite !filter_cons.
  assert (Hib : in_bucket (nodes s') (bucketCount s) i b = if decide (b = a) then false else in_bucket (nodes s) (bucketCount s) i b) by (unfold in_bucket; rewrite (He b) by apply list_elem_of_here; by destruct (decide (b = a))). rewrite Hib.
  destruct (decide (b = a)) as [->|Hne].
  - rewrite decide_False by done. rewrite IH'. destruct (decide _); [|done]. cbn [rev]. rewrite list.filter_app, filter_cons, filter_nil, decide_False by tauto. by rewrite app_nil_r.
  - destruct (decide _); [|done]. cbn [rev]. rewrite list.filter_app, filter_cons, filter_nil, decide_True by done. by rewrite IH'.
Qed.

Lemma filter_out a l : (a ∉ l) -> filter (fun b => b <> a) l = l.
Proof. induction l as [|b l IH]; [done|]. intros [Hne Ha]%not_elem_of_cons. rewrite filter_cons, decide_True, IH by auto. done. Qed.

(** What a search met on the way keeps its links when the node behind it goes. *)
Record unlinked s s' (a : nat) (i : nat) (l : list nat) (p : option nat) : Prop := {
  u_kept : kept_heap (nodes s) (nodes s');
  u_node : forall b x, nodes s !! b = Some x -> exists x', nodes s' !! b = Some x' /\ key x' = key x /\ value x' = value x /\ orderNext x' = orderNext x /\
    is_deleted x' = (if decide (b = a) then true else is_deleted x) /\ bucketNext x' = (if decide (list.last l = Some b) then p else bucketNext x);
  u_buckets : buckets s' = match list.last l with Some _ => buckets s | None => <[i := p]> (buckets s) end;
  u_rest : orderHead s' = orderHead s /\ orderTail s' = orderTail s /\ staging_head_ s' = staging_head_ s /\ all_nodes_ s' = all_nodes_ s /\ fresh s' = fresh s /\ weak_ s' = weak_ s /\ gc_mutex_ s' = gc_mutex_ s /\
    epoch s' = epoch s /\ delete_since_gc_ s' = delete_since_gc_ s /\ op_count_ s' = op_count_ s;
}.

Lemma unlinked_write s s' a i l n q : nodes s !! a = Some n -> buckets s !! i = Some q -> (list.last l <> Some a) ->
  write_cell (with_nodes s (<[a := set_deleted n]> (nodes s))) (last_cell (CBucket i) l) (bucketNext n) = Ok s' -> unlinked s s' a i l (bucketNext n).
Proof.
  intros En Eq Hla E. set (s2 := with_nodes _ _) in E. set (p := bucketNext n) in *. assert (Hk : kept_heap (nodes s) (nodes s2)) by (by apply (kept_insert _ a n)).
  assert (H2 : forall b x, nodes s !! b = Some x -> nodes s2 !! b = Some (if decide (b = a) then set_deleted x else x)) by (intros b x Eb; cbn; destruct (decide (b = a)) as [->|Hne]; [rewrite lookup_insert_eq; congruence|by rewrite lookup_insert_ne]).
  unfold last_cell in E. destruct (list.last l) as [c|] eqn:El.
  - destruct (nodes s2 !! c) as [m|] eqn:Em; [|cbn in E; unfold update_node, node_at in E; by rewrite Em in E]. rewrite (write_next c p s2 m Em) in E. injection E as <-. split; [|..].
    + etransitivity; [exact Hk|]. by apply (kept_insert _ c m).
    + intros b x Eb. pose proof (H2 b x Eb) as E2. destruct (decide (Some c = Some b)) as [[= ->]|Hne].
      * rewrite Em in E2. injection E2 as ->. cbn [nodes with_nodes]. rewrite lookup_insert_eq. eexists. split; [done|]. rewrite El, (decide_True (P := Some b = Some b)) by done. by destruct (decide (b = a)).
      * cbn [nodes with_nodes]. rewrite lookup_insert_ne by congruence. eexists. split; [exact E2|]. rewrite El, (decide_False (P := Some c = Some b)) by done. by destruct (decide (b = a)).
    + by rewrite El.
    + repeat split.
  - rewrite (write_bucket i p q s2 Eq) in E. injection E as <-. split; [done| | |by repeat split].
    + intros b x Eb. exists (if decide (b = a) then set_deleted x else x). split; [by apply H2|]. rewrite El, (decide_False (P := None = Some b)) by done. by destruct (decide (b = a)).
    + by rewrite El.
Qed.

(** The end of a part of a chain moves to [p]. *)
Lemma seg_redirect f h h' q l r p : seg f h q l r -> NoDup l -> (forall b x, b ∈ l -> h !! b = Some x -> exists x', h' !! b = Some x' /\ f x' = if decide (list.last l = Some b) then p else f x) ->
  seg f h' (match list.last l with Some _ => q | None => p end) l p.
Proof.
  intros Hs Hnd Hf. destruct l as [|b l' _] using rev_ind; [done|]. rewrite last_snoc in *. apply seg_app in Hs as (u & H1 & -> & x & Ex & _). apply list.NoDup_app in Hnd as (_ & Hn & _). apply seg_app. exists (Some b). split.
  - apply (seg_frame _ h); [|done]. intros c y Hc Ey. destruct (Hf c y ltac:(apply elem_of_app; by left) Ey) as (y' & Ey' & Hy). exists y'. split; [done|]. rewrite Hy, decide_False; [done|]. intros [= ->]. apply (Hn c Hc). apply list_elem_of_here.
  - split; [done|]. destruct (Hf b x ltac:(apply elem_of_app; right; apply list_elem_of_here) Ex) as (x' & Ex' & Hx). exists x'. split; [done|]. rewrite Hx, decide_True by done. done.
Qed.

Lemma seg_same f h h' q l r p (o : option nat) : seg f h q l r -> (forall b x, h !! b = Some x -> exists x', h' !! b = Some x' /\ f x' = if decide (o = Some b) then p else f x) -> (forall b, o = Some b -> b ∉ l) -> seg f h' q l r.
Proof.
  intros Hs Hf Ho. apply (seg_frame _ h); [|done]. intros b x Hb Ex. destruct (Hf b x Ex) as (x' & Ex' & Hx). exists x'. split; [done|]. rewrite Hx, decide_False; [done|]. intros E. by apply (Ho b E).
Qed.

Lemma last_in l a : list.last l = Some a -> a ∈ l.
Proof. destruct l as [|b l' _] using rev_ind; [done|]. rewrite last_snoc. intros [= ->]. apply elem_of_app. right. apply list_elem_of_here. Qed.

Lemma rep_unlinked s s' oc sl a n k v l1 l2 : rep s oc sl -> a ∈ oc -> nodes s !! a = Some n -> entry (nodes s) a = Some (k, v) ->
  bucket_list s oc (bucket_of (bucketCount s) k) = l1 ++ a :: l2 -> NoDup (l1 ++ a :: l2) -> (forall i, i <> bucket_of (bucketCount s) k -> a ∉ bucket_list s oc i) ->
  unlinked s s' a (bucket_of (bucketCount s) k) l1 (bucketNext n) -> rep s' oc sl /\ entries (nodes s') oc = filter (fun e => key_eqb e.1 k = false) (entries (nodes s) oc).
Proof.
  intros H Ha En Ev El Hnd Hoff [Hk Hn Hb (Eh & Et & Es & Ea & Ef & Ew & _)]. set (i := bucket_of _ _) in *. set (p := bucketNext n) in *.
  assert (Hent : forall b, b ∈ oc -> entry (nodes s') b = if decide (b = a) then None else entry (nodes s) b).
  { intros b Hbo. destruct (rep_elem _ _ _ b H Hbo) as [x Ex]. destruct (Hn b x Ex) as (x' & Ex' & Kx & Vx & _ & Dx & _). unfold entry. rewrite Ex, Ex'. cbn. rewrite Dx. destruct (decide (b = a)); [done|]. by rewrite Kx, Vx. }
  pose proof (entries_drop _ _ _ a k v (r_keys _ _ _ H) Ha Ev Hent) as Hentries. split; [|exact Hentries].
  assert (Hc : bucketCount s' = bucketCount s) by (unfold bucketCount; rewrite Hb; destruct (list.last l1); [done|by rewrite length_insert]).
  apply list.NoDup_app in Hnd as (Hnd1 & Hd & Hnd2). apply list.NoDup_cons in Hnd2 as [Ha2 Hnd2]. assert (Ha1 : a ∉ l1) by (intros Hin; apply (Hd a Hin), list_elem_of_here).
  assert (Hlast : forall j b, j <> i -> list.last l1 = Some b -> b ∉ bucket_list s oc j).
  { intros j b Hj Hl1 (_ & k1 & v1 & E1 & H1)%elem_of_bucket. assert (Hin : b ∈ bucket_list s oc i) by (rewrite El; apply elem_of_app; left; by apply last_in). apply elem_of_bucket in Hin as (_ & k2 & v2 & E2 & H2). rewrite E1 in E2. injection E2 as <- <-. congruence. }
  assert (Hnext : forall b x, nodes s !! b = Some x -> exists x', nodes s' !! b = Some x' /\ bucketNext x' = if decide (list.last l1 = Some b) then p else bucketNext x) by (intros b x Ex; destruct (Hn b x Ex) as (x' & ? & ? & ? & ? & ? & ?); eauto).
  assert (Horder : path orderNext (nodes s') (orderHead s') oc) by (rewrite Eh; apply (seg_frame _ (nodes s)); [|apply H]; intros b x _ Ex; destruct (Hn b x Ex) as (x' & ? & ? & ? & ? & ?); eauto).
  apply (rep_kept s s' oc oc sl); try done; [by rewrite Et; apply H|apply H| |].
  - intros j q Eq. rewrite (bucket_drop s s' oc a j Hc Hent). destruct (decide (j = i)) as [->|Hj].
    + rewrite El, list.filter_app, filter_cons, decide_False by tauto. rewrite !filter_out by done. apply seg_app. assert (exists q0, buckets s !! i = Some q0 /\ q = match list.last l1 with Some _ => q0 | None => p end) as (q0 & Eq0 & ->).
      { rewrite Hb in Eq. destruct (list.last l1); [eauto|]. destruct (buckets s !! i) as [q0|] eqn:E; [|pose proof (proj1 (lookup_ge_None _ _) E); rewrite list_insert_ge in Eq by done; congruence]. exists q0. split; [done|]. rewrite list_lookup_insert_eq in Eq by by eapply lookup_lt_Some. congruence. }
      pose proof (r_bucket _ _ _ H i q0 Eq0) as Hp. change (rev _) with (bucket_list s oc i) in Hp. rewrite El in Hp. apply seg_app in Hp as (u & Hp1 & -> & m & Em & Hp2). rewrite En in Em. injection Em as <-. exists p. split.
      * apply (seg_redirect _ (nodes s) _ q0 l1 (Some a)); [done|done|]. intros b x _ Ex. by apply Hnext.
      * apply (seg_same _ (nodes s) _ p l2 None p (list.last l1)); [done|exact Hnext|]. intros b Hl1 Hin. apply (Hd b (last_in _ _ Hl1)). by apply list_elem_of_further.
    + rewrite filter_out by (by apply Hoff). apply (seg_same _ (nodes s) _ q _ None p (list.last l1)); [|exact Hnext|by intros b; apply Hlast]. apply (r_bucket _ _ _ H). rewrite Hb in Eq. destruct (list.last l1); [done|]. by rewrite list_lookup_insert_ne in Eq.
  - rewrite Hentries. apply (sublist_NoDup _ (entries (nodes s) oc).*1); [apply H|]. apply fmap_sublist, sublist_filter.
Qed.

(** ** Collection *)

Lemma drain_ok s p l fuel : path staging_next (nodes s) p l -> (length l < fuel)%nat -> run (forever fuel drain_turn p) s = Ok (with_gc s (gc_mutex_ s) (all_nodes_ s ++ l), ()).
Proof.
  revert s p fuel. induction l as [|a l IH]; intros s p fuel Hp Hf; (destruct fuel as [|fuel]; [cbn in Hf; lia|]).
  - cbn in Hp. subst p. rewrite (run_forever _ _ _ s s (inr ())) by done. rewrite app_nil_r. by destruct s.
  - destruct Hp as (-> & n & En & Hp). set (s1 := with_gc s (gc_mutex_ s) (all_nodes_ s ++ [a])). rewrite (run_forever _ _ _ s s1 (inl (staging_next n))).
    + rewrite (IH s1 (staging_next n) fuel Hp) by (cbn in Hf; lia). cbn. by rewrite <- app_assoc.
    + unfold drain_turn. rewrite (run_bind_ok _ _ _ _ _ (run_node staging_next a s n En)). by rewrite (run_bind_ok _ _ s s1 ()) by (by rewrite run_put).
Qed.

Lemma sweep_chain_ok i c p l s fuel : seg bucketNext (nodes s) p l None -> (forall a, a ∈ l -> exists e, entry (nodes s) a = Some e) -> (length l < fuel)%nat -> run (forever fuel (sweep_turn i) (c, p)) s = Ok (s, ()).
Proof.
  revert c p fuel. induction l as [|a l IH]; intros c p fuel Hp Hl Hf; (destruct fuel as [|fuel]; [cbn in Hf; lia|]).
  - cbn in Hp. subst p. by rewrite (run_forever _ _ _ s s (inr ())).
  - destruct Hp as (-> & n & En & Hp). destruct (Hl a ltac:(apply list_elem_of_here)) as [[k v] (m & Em & Ed & _)%entry_spec]. rewrite En in Em. injection Em as <-. rewrite (run_forever _ _ _ s s (inl (CNext a, bucketNext n))).
    + apply IH; [done|intros b Hb; apply Hl; by apply list_elem_of_further|cbn in Hf; lia].
    + unfold sweep_turn. by rewrite (run_bind_ok _ _ _ _ _ (run_next a s n En)), (run_bind_ok _ _ _ _ _ (run_node is_deleted a s n En)), Ed.
Qed.

(** Every chain of a bucket holds live nodes only, so the sweep of the buckets finds nothing. *)
Lemma sweep_buckets_ok s oc sl fuel (c i : nat) : rep s oc sl -> (length oc < fuel)%nat -> (i + c <= bucketCount s)%nat -> run (sweep_buckets fuel c i) s = Ok (s, ()).
Proof.
  intros H Hf. revert i. induction c as [|c IH]; intros i Hi; [done|]. cbn [sweep_buckets]. destruct (buckets s !! i) as [p|] eqn:Ep; [|apply lookup_ge_None in Ep; unfold bucketCount in Hi; lia].
  rewrite (run_bind_ok _ _ s s p) by (apply run_load; cbn; by rewrite Ep). rewrite (run_bind_ok _ _ s s ()); [apply IH; lia|]. apply (sweep_chain_ok i _ p (bucket_list s oc i)); [by apply (r_bucket _ _ _ H)|by apply bucket_entries|]. pose proof (bucket_length s oc i). lia.
Qed.

(** What the sweep of the order leaves alone. *)
Definition rest_same s s' : Prop := kept_heap (nodes s) (nodes s') /\ buckets s' = buckets s /\ orderTail s' = orderTail s /\ staging_head_ s' = staging_head_ s /\ gc_mutex_ s' = gc_mutex_ s /\ all_nodes_ s' = all_nodes_ s /\
  fresh s' = fresh s /\ weak_ s' = weak_ s /\ epoch s' = epoch s /\ delete_since_gc_ s' = delete_since_gc_ s /\ op_count_ s' = op_count_ s.

#[local] Instance rest_same_trans : Transitive rest_same.
Proof. intros s1 s2 s3. unfold rest_same. intros [Hk1 Hr1] [Hk2 Hr2]. split; [by transitivity (nodes s2)|]. destruct_and!. repeat split; congruence. Qed.

(** Taking a marked node that is not the last out of the order. *)
Lemma skip_order s s1 s' l1 c d l2 sl x : rep s (l1 ++ c :: d :: l2) sl -> nodes s !! c = Some x -> is_deleted x = true ->
  write_cell s (order_cell (list.last l1)) (Some d) = Ok s1 -> s' = with_nodes s1 (alter (set_swept false true) c (nodes s1)) ->
  rest_same s s' /\ orderHead s' = match list.last l1 with Some _ => orderHead s | None => Some d end /\
  forall b y, nodes s !! b = Some y -> exists y', nodes s' !! b = Some y' /\ key y' = key y /\ value y' = value y /\ is_deleted y' = is_deleted y /\ bucketNext y' = bucketNext y /\
    orderNext y' = if decide (list.last l1 = Some b) then Some d else orderNext y.
Proof.
  intros H Ec Ed Ew ->. assert (Hswept : forall h, kept_heap h (alter (set_swept false true) c h)).
  { intros h. destruct (h !! c) as [y|] eqn:E; [|by rewrite alter_id by (intros ? ?; congruence)]. rewrite (alter_as_insert _ c h y E). apply (kept_insert h c y); [done|]. unfold kept. cbn. by rewrite orb_false_r. }
  assert (Halter : forall h b y, h !! b = Some y -> exists y', alter (set_swept false true) c h !! b = Some y' /\ key y' = key y /\ value y' = value y /\ is_deleted y' = is_deleted y /\ bucketNext y' = bucketNext y /\ orderNext y' = orderNext y).
  { intros h b y E. destruct (decide (b = c)) as [->|Hne]; [rewrite lookup_alter_eq, E; eexists; by split|rewrite lookup_alter_ne by done; by exists y]. }
  destruct (list.last l1) as [b0|] eqn:El; cbn [order_cell] in Ew.
  - assert (Hb0 : is_Some (nodes s !! b0)) by (apply (rep_elem _ _ _ b0 H), elem_of_app; left; by apply last_in). destruct Hb0 as [z Ez]. rewrite (write_order b0 (Some d) s z Ez) in Ew. injection Ew as <-. split; [|split; [done|]].
    + unfold rest_same. cbn. repeat split. etransitivity; [|apply Hswept]. by apply (kept_insert _ b0 z).
    + intros b y Eb. cbn. destruct (decide (Some b0 = Some b)) as [[= ->]|Hne].
      * rewrite Ez in Eb. injection Eb as ->. destruct (Halter (<[b := set_orderNext (Some d) y]> (nodes s)) b (set_orderNext (Some d) y)) as (y' & ? & ? & ? & ? & ? & ?); [apply lookup_insert_eq|]. by exists y'.
      * destruct (Halter (<[b0 := set_orderNext (Some d) z]> (nodes s)) b y) as (y' & ? & ? & ? & ? & ? & ?); [rewrite lookup_insert_ne by congruence; done|]. by exists y'.
  - injection Ew as <-. split; [by repeat split; try apply Hswept|]. split; [done|]. intros b y Eb. destruct (Halter (nodes s) b y Eb) as (y' & ? & ? & ? & ? & ? & ?). by exists y'.
Qed.

Lemma rep_skip s s1 s' l1 c d l2 sl x : rep s (l1 ++ c :: d :: l2) sl -> nodes s !! c = Some x -> is_deleted x = true ->
  write_cell s (order_cell (list.last l1)) (Some d) = Ok s1 -> s' = with_nodes s1 (alter (set_swept false true) c (nodes s1)) ->
  rep s' (l1 ++ d :: l2) sl /\ entries (nodes s') (l1 ++ d :: l2) = entries (nodes s) (l1 ++ c :: d :: l2).
Proof.
  intros H Ec Ed Ew Es. destruct (skip_order s s1 s' l1 c d l2 sl x H Ec Ed Ew Es) as ((Hk & Eb & Et & Est & _ & Ea & Ef & Ewk & _) & Eh & Hn).
  assert (Hent : forall b, b ∈ l1 ++ c :: d :: l2 -> entry (nodes s') b = entry (nodes s) b).
  { intros b Hin. destruct (rep_elem _ _ _ b H Hin) as [y Ey]. destruct (Hn b y Ey) as (y' & Ey' & K1 & V1 & D1 & _). unfold entry. rewrite Ey, Ey'. cbn. by rewrite K1, V1, D1. }
  assert (Hc : entry (nodes s) c = None) by (unfold entry; rewrite Ec; cbn; by rewrite Ed).
  assert (Hsub : forall b, b ∈ l1 ++ d :: l2 -> b ∈ l1 ++ c :: d :: l2) by (intros b; rewrite !elem_of_app, !elem_of_cons; tauto).
  assert (Hentries : entries (nodes s') (l1 ++ d :: l2) = entries (nodes s) (l1 ++ c :: d :: l2)).
  { rewrite (entries_same (nodes s) (nodes s')) by (intros b Hb; by apply Hent, Hsub). rewrite !entries_app. f_equal. unfold entries. cbn. by rewrite Hc. }
  split; [|exact Hentries]. pose proof (r_nodup _ _ _ H) as Hnd. pose proof (r_order _ _ _ H) as Ho. apply seg_app in Ho as (u & Ho1 & -> & m & Em & Ho2). apply list.NoDup_app in Hnd as (Hnd1 & Hd & Hnd2). apply list.NoDup_cons in Hnd2 as [Hc2 Hnd2].
  assert (Hnext : forall b y, nodes s !! b = Some y -> exists y', nodes s' !! b = Some y' /\ orderNext y' = if decide (list.last l1 = Some b) then Some d else orderNext y) by (intros b y Ey; destruct (Hn b y Ey) as (y' & ? & ? & ? & ? & ? & ?); eauto).
  assert (Hcount : bucketCount s' = bucketCount s) by (unfold bucketCount; by rewrite Eb).
  apply (rep_kept s s' (l1 ++ c :: d :: l2)); try done.
  - rewrite Eh. apply seg_app. exists (Some d). split; [apply (seg_redirect _ (nodes s) _ _ l1 (Some c)); [done|done|]; intros b y _ Ey; by apply Hnext|].
    apply (seg_same _ (nodes s) _ (Some d) _ None (Some d) (list.last l1)); [|exact Hnext|intros b Hl Hin; apply (Hd b (last_in _ _ Hl)); by apply list_elem_of_further]. destruct Ho2 as (E & y & Ey & Ho2). split; [done|]. exists y. done.
  - rewrite Et, (r_tail _ _ _ H), !last_app. cbn. by destruct l2.
  - apply list.NoDup_app. split; [done|]. split; [|done]. intros b Hb Hin. apply (Hd b Hb). by apply list_elem_of_further.
  - intros i p Ep. assert (El : bucket_list s' (l1 ++ d :: l2) i = bucket_list s (l1 ++ c :: d :: l2) i).
    { unfold bucket_list. f_equal. rewrite Hcount. rewrite (filter_same (in_bucket (nodes s') (bucketCount s) i) (in_bucket (nodes s) (bucketCount s) i)) by (intros b Hb; unfold in_bucket; by rewrite Hent by by apply Hsub).
      rewrite !list.filter_app. f_equal. rewrite (filter_cons _ c), decide_False; [done|]. unfold in_bucket. by rewrite Hc. }
    rewrite El. apply (seg_frame _ (nodes s)); [|apply (r_bucket _ _ _ H); congruence]. intros b y _ Ey. destruct (Hn b y Ey) as (y' & ? & ? & ? & ? & ? & ?). eauto.
  - rewrite Hentries. apply H.
Qed.

Lemma rest_same_refl s : rest_same s s.
Proof. by repeat split. Qed.

(** The order loses the marked nodes but the last. *)
Lemma sweep_order_ok fuel s l1 l2 sl : rep s (l1 ++ l2) sl -> (length l2 < fuel)%nat ->
  exists s' oc', run (forever fuel sweep_order_turn (list.last l1, head l2)) s = Ok (s', ()) /\ rep s' oc' sl /\ entries (nodes s') oc' = entries (nodes s) (l1 ++ l2) /\ rest_same s s'.
Proof.
  revert s l1 l2. induction fuel as [|fuel IH]; intros s l1 l2 H Hf; [lia|]. destruct l2 as [|c l2]; cbn [head].
  - exists s, (l1 ++ []). rewrite (run_forever _ _ _ s s (inr ())) by done. split; [done|]. split; [exact H|]. split; [done|apply rest_same_refl].
  - pose proof (r_order _ _ _ H) as Ho. apply seg_app in Ho as (u & Ho1 & Hu & x & Ex & Ho2). assert (Hx : orderNext x = head l2) by (destruct l2; [done|by destruct Ho2]).
    destruct (is_deleted x && match head l2 with Some _ => true | None => false end) eqn:Eb.
    + apply andb_true_iff in Eb as [Ed Eb]. destruct l2 as [|d l2]; [done|]. cbn [head] in *. assert (Eread : read_cell s (order_cell (list.last l1)) = Ok (Some c)).
      { destruct l1 as [|b0 l1 _] using rev_ind; [cbn in *; congruence|]. rewrite last_snoc. apply seg_app in Ho1 as (w & _ & _ & y & Ey & Hy). cbn in Hy |- *. unfold node_at. rewrite Ey. cbn. congruence. }
      destruct (write_read s _ _ (Some d) Eread) as [s1 Ew]. set (s2 := with_nodes s1 (alter (set_swept false true) c (nodes s1))). destruct (rep_skip s s1 s2 l1 c d l2 sl x H Ex Ed Ew eq_refl) as [H2 He2]. destruct (skip_order s s1 s2 l1 c d l2 sl x H Ex Ed Ew eq_refl) as (Hr2 & _).
      assert (E1 : exists x1, nodes s1 !! c = Some x1) by (destruct Hr2 as [Hk _]; specialize (Hk c); rewrite Ex in Hk; cbn in Hk; rewrite lookup_alter_eq in Hk; destruct (nodes s1 !! c); [eauto|by inversion Hk]). destruct E1 as [x1 E1].
      destruct (IH s2 l1 (d :: l2) H2 ltac:(cbn in Hf |- *; lia)) as (s' & oc' & Er & H' & He' & Hr'). exists s', oc'. split; [|split; [done|split; [congruence|by transitivity s2]]].
      rewrite (run_forever _ _ _ s s2 (inl (list.last l1, Some d))); [exact Er|]. unfold sweep_order_turn. rewrite (run_bind_ok _ _ _ _ _ (run_order c s x Ex)), (run_bind_ok _ _ _ _ _ (run_node is_deleted c s x Ex)), Ed, Hx. cbn [andb].
      rewrite (run_bind_ok _ _ _ _ _ (run_exchange (order_cell (list.last l1)) (Some c) (Some d) s s1 Eread Ew)). rewrite (run_bind_ok _ _ s1 s2 ()); [done|]. rewrite (run_node_set c _ s1 x1 E1). unfold s2. by rewrite (alter_as_insert _ c _ x1 E1).
    + destruct (IH s (l1 ++ [c]) l2) as (s' & oc' & Er & H' & He' & Hr'); [by rewrite <- app_assoc|cbn in Hf; lia|]. rewrite <- app_assoc in He'. exists s', oc'. split; [|by split]. rewrite last_snoc in Er.
      rewrite (run_forever _ _ _ s s (inl (Some c, head l2))); [exact Er|]. unfold sweep_order_turn. rewrite (run_bind_ok _ _ _ _ _ (run_order c s x Ex)), (run_bind_ok _ _ _ _ _ (run_node is_deleted c s x Ex)), Hx, Eb. done.
Qed.

(** No node was noted as out of its bucket, so none is stamped and none is freed. *)
Lemma stamp_nodes_ok e l s : (forall a, a ∈ l -> exists n, nodes s !! a = Some n /\ bucket_swept n = false) -> run (stamp_nodes e l) s = Ok (s, ()).
Proof.
  induction l as [|a l IH]; intros Hl; [done|]. destruct (Hl a ltac:(apply list_elem_of_here)) as (n & En & Eb). cbn [stamp_nodes]. rewrite (run_bind_ok _ _ s s n) by (rewrite run_get; unfold node_at; by rewrite En). rewrite Eb. cbn [andb].
  rewrite (run_bind_ok (Ret ()) _ s s () eq_refl). apply IH. intros b Hb. apply Hl. by apply list_elem_of_further.
Qed.

Lemma free_nodes_ok e l kept s : (forall a, a ∈ l -> exists n, nodes s !! a = Some n /\ retired_epoch n = -1) -> run (free_nodes e l kept) s = Ok (s, kept ++ l).
Proof.
  revert kept. induction l as [|a l IH]; intros kept Hl; [by rewrite app_nil_r|]. destruct (Hl a ltac:(apply list_elem_of_here)) as (n & En & Er). cbn [free_nodes]. rewrite (run_bind_ok _ _ s s n) by (rewrite run_get; unfold node_at; by rewrite En). rewrite Er. cbn.
  rewrite IH; [by rewrite <- app_assoc|]. intros b Hb. apply Hl. by apply list_elem_of_further.
Qed.

Lemma rep_sizes s oc sl : rep s oc sl -> (length oc <= size (nodes s))%nat /\ (length sl <= size (nodes s))%nat.
Proof.
  intros H. rewrite <- size_dom. assert (Hle : forall l, NoDup l -> (forall a, a ∈ l -> is_Some (nodes s !! a)) -> (length l <= size (dom (nodes s)))%nat).
  { intros l Hnd Hl. rewrite <- (size_list_to_set (C := gset nat) l Hnd). apply subseteq_size. intros a. rewrite elem_of_list_to_set, elem_of_dom. apply Hl. }
  split; apply Hle; [apply H|intros a; by apply (rep_elem s oc sl)| |].
  - pose proof (r_known_once _ _ _ H) as Hn. by apply list.NoDup_app in Hn as (? & _ & _).
  - intros a Ha. apply (r_known _ _ _ H). apply elem_of_app. by left.
Qed.

Lemma rep_drained s oc sl d : rep s oc sl -> rep (with_counts (with_gc (with_staging s None) (gc_mutex_ s) (all_nodes_ s ++ sl)) 0 d) oc [].
Proof.
  intros H. split; try apply H.
  - done.
  - intros a. cbn. rewrite (r_known _ _ _ H a), !elem_of_app. tauto.
  - cbn. rewrite (Permutation_app_comm (all_nodes_ s) sl). apply H.
Qed.

Lemma collect_garbage_locked_ok t s oc sl fuel : rep s oc sl -> quiet t (epoch s) -> (size (nodes s) + 4 <= fuel)%nat ->
  exists s' oc', run (collect_garbage_locked fuel t) s = Ok (s', ()) /\ rep s' oc' [] /\ quiet t (epoch s') /\ entries (nodes s') oc' = entries (nodes s) oc /\ size (nodes s') = size (nodes s) /\ gc_mutex_ s' = gc_mutex_ s.
Proof.
  intros H Hq Hf. destruct (rep_sizes _ _ _ H) as [Hoc Hsl]. unfold collect_garbage_locked. rewrite (run_bind_ok _ _ s (with_staging s None) (staging_head_ s)) by (by rewrite run_act).
  rewrite (run_bind_ok _ _ _ _ _ (drain_ok (with_staging s None) (staging_head_ s) sl fuel (r_staging _ _ _ H) ltac:(lia))).
  pose proof (rep_drained s oc sl (op_count_ s) H) as H1. set (s1 := with_counts _ _ _) in H1. rewrite (run_bind_ok _ _ _ s1 ()) by (by rewrite run_put). rewrite (run_bind_ok _ _ s1 s1 (bucketCount s1)) by (by rewrite run_get).
  rewrite (run_bind_ok _ _ _ _ _ (sweep_buckets_ok s1 oc [] fuel (bucketCount s1) 0 H1 ltac:(lia) ltac:(lia))). rewrite (run_bind_ok _ _ s1 s1 (head oc)).
  2: { apply run_load. cbn. pose proof (r_order _ _ _ H) as Ho. destruct oc as [|a oc']; [by cbn in Ho; rewrite Ho|]. destruct Ho as [-> _]. done. }
  destruct (sweep_order_ok fuel s1 [] oc [] H1 ltac:(lia)) as (s2 & oc' & Er & H2 & He & (Hk & _ & _ & _ & Eg & Ea & _ & _ & Ee & _)). cbn [list.last] in Er. rewrite (run_bind_ok _ _ _ _ _ Er).
  rewrite (run_bind_ok _ _ s2 s2 (current (epoch s2))) by (unfold get_epoch; by rewrite run_get). rewrite (run_bind_ok _ _ s2 s2 (all_nodes_ s2)) by (by rewrite run_get).
  assert (Hall : forall a, a ∈ all_nodes_ s2 -> exists n, nodes s2 !! a = Some n /\ bucket_swept n = false /\ retired_epoch n = -1).
  { intros a Ha. destruct (proj2 (r_known _ _ _ H2 a) Ha) as [n En]. exists n. split; [done|]. by apply (r_unswept _ _ _ H2 a). }
  rewrite (run_bind_ok _ _ s2 s2 ()) by (apply stamp_nodes_ok; intros a Ha; destruct (Hall a Ha) as (n & ? & ? & _); eauto).
  destruct (try_advance_ok t s2 fuel ltac:(rewrite Ee; exact Hq) ltac:(lia)) as (e & Et & Hq'). rewrite (run_bind_ok _ _ _ _ _ Et). set (s3 := with_epoch s2 e). rewrite (run_bind_ok _ _ s3 s3 (current e)) by (unfold get_epoch; by rewrite run_get).
  rewrite (run_bind_ok _ _ s3 s3 (all_nodes_ s3)) by (by rewrite run_get). rewrite (run_bind_ok _ _ s3 s3 (all_nodes_ s3)) by (apply free_nodes_ok; intros a Ha; destruct (Hall a Ha) as (n & ? & _ & ?); eauto).
  rewrite run_put. cbn [mbind res_bind]. exists s3, oc'. split; [by destruct s3|]. split; [by apply rep_epoch|]. split; [done|]. split; [done|]. split; [by apply kept_size|done].
Qed.

(** ** The operations on the list of entries *)

(** The map of the only thread [t], with the entries [L] and [N] nodes in memory. *)
Definition state t s (L : list (K * V)) (N : nat) : Prop :=
  exists oc sl, rep s oc sl /\ quiet t (epoch s) /\ entries (nodes s) oc = L /\ size (nodes s) = N /\ gc_mutex_ s = false.

Fixpoint lookup_entry (k : K) (L : list (K * V)) : option V :=
  match L with [] => None | (k', v) :: L => if key_eqb k' k then Some v else lookup_entry k L end.

Definition remove_entry (k : K) (L : list (K * V)) : list (K * V) := filter (fun e => key_eqb e.1 k = false) L.

Definition update_entry (k : K) (f : V -> V) (L : list (K * V)) : list (K * V) := map (fun e => if key_eqb e.1 k then (e.1, f e.2) else e) L.

Definition has_entry (k : K) (L : list (K * V)) : bool := match lookup_entry k L with Some _ => true | None => false end.

Lemma found_lookup s oc sl k r : rep s oc sl -> found s oc k r ->
  match r with Some a => exists n, nodes s !! a = Some n /\ is_deleted n = false /\ key n = k /\ a ∈ oc /\ lookup_entry k (entries (nodes s) oc) = Some (value n) | None => lookup_entry k (entries (nodes s) oc) = None end.
Proof.
  intros H. pose proof (r_keys _ _ _ H) as Hnd. destruct r as [a|]; cbn.
  - intros [Ha [v Ev]]. pose proof (proj1 (entry_spec _ _ _ _) Ev) as (n & En & Ed & Ek & Hv). exists n. repeat split; try done. rewrite Hv. assert (Hin : (k, v) ∈ entries (nodes s) oc) by (apply elem_of_entries; eauto).
    revert Hnd Hin. generalize (entries (nodes s) oc) as L. induction L as [|[k' v'] L IH]; intros Hnd Hin; [by apply not_elem_of_nil in Hin|]. cbn in Hnd |- *. apply list.NoDup_cons in Hnd as [Hn Hnd]. apply elem_of_cons in Hin as [[= <- <-]|Hin]; [by rewrite (proj2 (key_spec k k) eq_refl)|].
    destruct (key_eqb k' k) eqn:E; [|by apply IH]. apply key_spec in E. subst k'. destruct Hn. apply list_elem_of_fmap. by exists (k, v).
  - intros Hno. assert (Hl : forall v, (k, v) ∉ entries (nodes s) oc) by (intros v (a & Ha & E)%elem_of_entries; exact (Hno a v Ha E)). clear Hno Hnd. induction (entries (nodes s) oc) as [|[k' v'] L IH]; [done|]. cbn.
    destruct (key_eqb k' k) eqn:E; [apply key_spec in E; subst k'; destruct (Hl v'); apply list_elem_of_here|]. apply IH. intros v Hv. apply (Hl v). by apply list_elem_of_further.
Qed.

Lemma present_has s oc sl k r : rep s oc sl -> found s oc k r -> present s oc k = has_entry k (entries (nodes s) oc).
Proof. intros H Hr. rewrite (present_found _ _ _ _ Hr). unfold has_entry. pose proof (found_lookup _ _ _ _ _ H Hr) as Hl. destruct r as [a|]; [destruct Hl as (n & _ & _ & _ & _ & ->)|rewrite Hl]; done. Qed.

Lemma remove_absent k L : lookup_entry k L = None -> remove_entry k L = L.
Proof.
  induction L as [|[k' v] L IH]; [done|]. unfold remove_entry in *. cbn [lookup_entry]. rewrite filter_cons. cbn [fst]. destruct (key_eqb k' k); [done|]. intros H. by rewrite decide_True, (IH H).
Qed.

(** *** Behind a removal *)

Lemma try_lock_free s : gc_mutex_ s = false -> run try_lock_gc s = Ok (with_gc s true (all_nodes_ s), true).
Proof. intros Hg. unfold try_lock_gc. by rewrite run_act, Hg. Qed.

Lemma locked_collect_ok t s L N fuel : state t s L N -> (N + 4 <= fuel)%nat ->
  exists s', run (_ ← collect_garbage_locked fuel t; unlock_gc) (with_gc s true (all_nodes_ s)) = Ok (s', ()) /\ state t s' L N.
Proof.
  intros (oc & sl & H & Hq & <- & <- & Hg) Hf. set (s1 := with_gc s true (all_nodes_ s)). destruct (collect_garbage_locked_ok t s1 oc sl fuel ltac:(by destruct H) Hq Hf) as (s2 & oc' & Er & H2 & Hq2 & He & Hs & _).
  rewrite (run_bind_ok _ _ _ _ _ Er). unfold unlock_gc. rewrite run_put. cbn [mbind res_bind]. eexists. split; [done|]. exists oc', []. split; [by destruct H2|]. done.
Qed.

Lemma collect_garbage_ok t s L N fuel : state t s L N -> (N + 4 <= fuel)%nat -> exists s', run (collect_garbage fuel t) s = Ok (s', ()) /\ state t s' L N.
Proof.
  intros H Hf. pose proof H as (_ & _ & _ & _ & _ & _ & Hg). unfold collect_garbage. destruct (locked_collect_ok t s L N fuel H Hf) as (s' & Er & H'). exists s'. split; [|done]. destruct fuel as [|fuel]; [lia|].
  rewrite (run_bind_ok _ _ s (with_gc s true (all_nodes_ s)) ()); [exact Er|]. rewrite (run_forever _ _ _ s (with_gc s true (all_nodes_ s)) (inr ())); [done|]. by rewrite (run_bind_ok _ _ _ _ _ (try_lock_free s Hg)).
Qed.

Lemma state_counts t s L N d o : state t s L N -> state t (with_counts s d o) L N.
Proof. intros (oc & sl & [] & Hr). by exists oc, sl. Qed.

Lemma post_mutate_ok t s L N fuel : state t s L N -> (N + 4 <= fuel)%nat -> exists s', run (post_mutate fuel t) s = Ok (s', ()) /\ state t s' L N.
Proof.
  intros H Hf. unfold post_mutate. rewrite (run_bind_ok _ _ s (with_counts s (delete_since_gc_ s) (u64 (op_count_ s + 1))) (op_count_ s)) by (by rewrite run_act). set (s1 := with_counts _ _ _). assert (H1 : state t s1 L N) by (by apply state_counts).
  assert (exists s2, run (if Z.land (op_count_ s) 255 =? 0 then try_advance fuel t else Ret ()) s1 = Ok (s2, ()) /\ state t s2 L N) as (s2 & Er & H2).
  { destruct (_ =? 0); [|by exists s1]. destruct H1 as (oc & sl & Hrep & Hq & He & Hn & Hg). destruct (try_advance_ok t s1 fuel Hq ltac:(lia)) as (e & Ee & Hq'). exists (with_epoch s1 e). split; [done|]. exists oc, sl. split; [by apply rep_epoch|]. done. }
  rewrite (run_bind_ok _ _ _ _ _ Er). rewrite (run_bind_ok _ _ s2 s2 (delete_since_gc_ s2)) by (by rewrite run_get). destruct (_ <=? _); [|by exists s2].
  rewrite (run_bind_ok _ _ _ _ _ (try_lock_free s2 ltac:(by destruct H2 as (? & ? & ? & ? & ? & ? & ?)))). by apply locked_collect_ok.
Qed.

(** *** Removal *)

Lemma remove_turn_ok s oc sl k fuel : rep s oc sl -> (length oc < fuel)%nat ->
  exists s', run (remove_turn key_eqb keyHasher fuel k ()) s = Ok (s', inr (has_entry k (entries (nodes s) oc))) /\ rep s' oc sl /\ epoch s' = epoch s /\ gc_mutex_ s' = gc_mutex_ s /\
    entries (nodes s') oc = remove_entry k (entries (nodes s) oc) /\ size (nodes s') = size (nodes s).
Proof.
  intros H Hf. destruct (find_in_bucket_ok s oc sl k fuel H Hf) as (r & Er & Hr). pose proof (found_lookup _ _ _ _ _ H Hr) as Hl. unfold remove_turn, has_entry. rewrite (run_bind_ok _ _ _ _ _ Er). destruct r as [a|].
  - destruct Hl as (n & En & Ed & Ek & Ha & ->). destruct Hr as [_ [v Ev]]. destruct (bucket_split s oc sl k v a H Ha Ev) as (l1 & l2 & El & Hnd & Hoff). set (i := bucket_of (bucketCount s) k) in *. set (s2 := with_nodes s (<[a := set_deleted n]> (nodes s))).
    rewrite (run_bind_ok _ _ s s2 (true, false)). 2: { unfold exchange_deleted. rewrite run_act, (r_weak _ _ _ H). cbn [tail]. rewrite with_weak_nil by apply H. unfold node_at, update_node, node_at. rewrite En. cbn. by rewrite Ed. }
    destruct (buckets s !! i) as [q|] eqn:Eq; [|apply lookup_ge_None in Eq; pose proof (bucket_lt (bucketCount s) k (r_some _ _ _ H)); unfold bucketCount in *; lia].
    assert (E2 : nodes s2 !! a = Some (set_deleted n)) by apply lookup_insert_eq. apply list.NoDup_app in Hnd as Hnd'. destruct Hnd' as (_ & Hd & _). assert (Ha1 : a ∉ l1) by (intros Hin; apply (Hd a Hin), list_elem_of_here).
    pose proof (r_bucket _ _ _ H i q Eq) as Hp. change (rev _) with (bucket_list s oc i) in Hp. rewrite El in Hp. apply seg_app in Hp as (u & Hp1 & -> & _).
    destruct (try_unlink_ok fuel a (set_deleted n) s2 q l1 E2) as (s3 & Ew & Et); [apply H|cbn; rewrite Ek; exact Eq|by apply (seg_insert _ _ _ _ _ a n)|done|pose proof (bucket_length s oc i); rewrite El, length_app in *; lia|].
    cbn [key set_deleted bucketNext] in Ew. rewrite Ek in Ew. assert (Hla : list.last l1 <> Some a) by (intros E; by apply Ha1, last_in). pose proof (unlinked_write s s3 a i l1 n q En Eq Hla Ew) as Hu. destruct (rep_unlinked s s3 oc sl a n k v l1 l2 H Ha En Ev El Hnd Hoff Hu) as [H3 He].
    cbn [fst]. rewrite (run_bind_ok _ _ _ _ _ Et). destruct Hu as [Hk _ _ (_ & _ & _ & _ & _ & _ & Eg & Ee & _)]. rewrite (run_bind_ok _ _ s3 (with_counts s3 (u64 (delete_since_gc_ s3 + 1)) (op_count_ s3)) ()) by (by rewrite run_put).
    eexists. split; [done|]. split; [by destruct H3|]. repeat split; try done. by apply kept_size.
  - rewrite Hl. exists s. rewrite (remove_absent _ _ Hl). split; [done|]. split; [exact H|]. by repeat split.
Qed.

Lemma remove_ok t s L N k fuel : state t s L N -> (N + 4 <= fuel)%nat -> exists s', run (remove key_eqb keyHasher fuel t k) s = Ok (s', has_entry k L) /\ state t s' (remove_entry k L) N.
Proof.
  intros (oc & sl & H & Hq & <- & <- & Hg) Hf. destruct (rep_sizes _ _ _ H) as [Hoc _]. unfold remove, remove_guarded. destruct (enter_guard_ok t s fuel Hq ltac:(lia)) as (e & Ee & Hpin). pose proof (rep_epoch _ _ _ e H) as H1. set (s1 := with_epoch s e) in *.
  destruct (remove_turn_ok s1 oc sl k fuel H1 ltac:(lia)) as (s2 & Er & H2 & Ee2 & Eg2 & He2 & Hs2). destruct (leave_guard_ok t s2 ltac:(by rewrite Ee2)) as (e' & El & Hq'). set (s3 := with_epoch s2 e') in *.
  assert (H3 : state t s3 (remove_entry k (entries (nodes s) oc)) (size (nodes s))) by (exists oc, sl; split; [by apply rep_epoch|]; split; [exact Hq'|]; split; [exact He2|]; split; [exact Hs2|]; cbn; by rewrite Eg2).
  destruct (post_mutate_ok t s3 _ _ fuel H3 Hf) as (s4 & Ep & H4). exists s4. split; [|done]. destruct fuel as [|fuel']; [lia|].
  rewrite (run_bind_ok _ _ s s3 (has_entry k (entries (nodes s) oc))); [by rewrite (run_bind_ok _ _ _ _ _ Ep)|]. rewrite (run_bind_ok _ _ _ _ _ Ee). rewrite (run_bind_ok _ _ s1 s2 (has_entry k (entries (nodes s) oc))); [by rewrite (run_bind_ok _ _ _ _ _ El)|]. by rewrite (run_forever _ _ _ _ _ _ Er).
Qed.

(** *** Insertion and searches *)

Lemma insert_state t s L N k v fuel : state t s L N -> (N + 4 <= fuel)%nat ->
  exists s', run (insert key_eqb keyHasher moved fuel t k v) s = Ok (s', negb (has_entry k L)) /\ state t s' (if has_entry k L then L else L ++ [(k, v)]) (if has_entry k L then N else S N).
Proof.
  intros (oc & sl & H & Hq & <- & <- & Hg) Hf. destruct (rep_sizes _ _ _ H) as [Hoc _]. destruct (map_insert_ok false ltac:(done) t s oc sl k v fuel H Hq ltac:(lia)) as (s' & oc' & sl' & Er & H' & Hq' & He & _ & Hs & Eg).
  destruct (find_live_ok s oc sl k fuel H ltac:(lia)) as (r & _ & Hr). rewrite (present_has _ _ _ _ _ H Hr) in *. exists s'. split; [exact Er|]. exists oc', sl'. destruct (has_entry k _).
  - rewrite app_nil_r in He. rewrite Nat.add_0_r in Hs. by rewrite Eg.
  - rewrite Nat.add_1_r in Hs. by rewrite Eg.
Qed.

Lemma find_state t s L N k fuel : state t s L N -> (N + 4 <= fuel)%nat -> exists s', run (find key_eqb keyHasher fuel t k) s = Ok (s', lookup_entry k L) /\ state t s' L N.
Proof.
  intros (oc & sl & H & Hq & <- & <- & Hg) Hf. destruct (rep_sizes _ _ _ H) as [Hoc _]. unfold find. destruct (enter_guard_ok t s fuel Hq ltac:(lia)) as (e & Ee & Hpin). rewrite (run_bind_ok _ _ _ _ _ Ee). pose proof (rep_epoch _ _ _ e H) as H1. set (s1 := with_epoch s e) in *.
  destruct (find_live_ok s1 oc sl k fuel H1 ltac:(lia)) as (r & Er & Hr). rewrite (run_bind_ok _ _ _ _ _ Er). pose proof (found_lookup _ _ _ _ _ H1 Hr) as Hl. change (nodes s1) with (nodes s) in Hl.
  rewrite (run_bind_ok _ _ s1 s1 (lookup_entry k (entries (nodes s) oc))).
  - destruct (leave_guard_ok t s1 Hpin) as (e' & El & Hq'). rewrite (run_bind_ok _ _ _ _ _ El). eexists. split; [done|]. exists oc, sl. split; [by apply rep_epoch|]. done.
  - destruct r as [a|]; [|by rewrite Hl]. destruct Hl as (n & En & _ & _ & _ & ->). by rewrite (run_bind_ok _ _ _ _ _ (run_node value a s1 n En)).
Qed.

Lemma update_absent k f L : lookup_entry k L = None -> update_entry k f L = L.
Proof. unfold update_entry. induction L as [|[k' v] L IH]; cbn; [done|]. destruct (key_eqb k' k); [done|]. intros H. by rewrite (IH H). Qed.

Lemma update_keys k f L : (update_entry k f L).*1 = L.*1.
Proof. unfold update_entry. induction L as [|[k' w] L IH]; [done|]. cbn. rewrite IH. by destruct (key_eqb _ _). Qed.

Lemma entries_update h h' oc a k v f : entry h a = Some (k, v) -> entry h' a = Some (k, f v) -> (forall b, b <> a -> entry h' b = entry h b) -> (forall b w, b ∈ oc -> entry h b = Some (k, w) -> b = a) ->
  entries h' oc = update_entry k f (entries h oc).
Proof.
  intros Ea Ea' Hb' Hu. unfold entries. induction oc as [|b l IH]; [done|]. cbn. assert (IH' := IH ltac:(intros c w Hc; apply Hu; by apply list_elem_of_further)).
  destruct (decide (b = a)) as [->|Hne]; [rewrite Ea, Ea'; cbn; rewrite (proj2 (key_spec k k) eq_refl); by rewrite IH'|]. rewrite Hb' by done. destruct (entry h b) as [[k' w]|] eqn:Ec; [|done]. cbn.
  destruct (key_eqb k' k) eqn:Ek; [|by rewrite IH']. apply key_spec in Ek. subst k'. destruct (Hne (Hu b w ltac:(apply list_elem_of_here) Ec)).
Qed.

Lemma rep_set_value s oc sl a n f : rep s oc sl -> a ∈ oc -> nodes s !! a = Some n -> is_deleted n = false ->
  let s' := with_nodes s (<[a := set_value (f (value n)) n]> (nodes s)) in rep s' oc sl /\ entries (nodes s') oc = update_entry (key n) f (entries (nodes s) oc).
Proof.
  intros H Ha En Ed. cbn zeta. set (s' := with_nodes _ _). assert (Ev : entry (nodes s) a = Some (key n, value n)) by (apply entry_spec; eauto).
  assert (Ha' : entry (nodes s') a = Some (key n, f (value n))) by (unfold entry; cbn; rewrite lookup_insert_eq; cbn; by rewrite Ed).
  assert (Hb' : forall b, b <> a -> entry (nodes s') b = entry (nodes s) b) by (intros b Hb; by apply entry_insert_off).
  assert (Hu : forall b w, b ∈ oc -> entry (nodes s) b = Some (key n, w) -> b = a) by (intros b w Hb Eb; by apply (entry_unique (nodes s) oc b a (key n) w (value n)); [apply H| | | |]).
  assert (Hentries : entries (nodes s') oc = update_entry (key n) f (entries (nodes s) oc)).
  { by apply (entries_update (nodes s) (nodes s') oc a (key n) (value n)). }
  split; [|exact Hentries]. apply (rep_kept s s' oc oc sl); try done; [by apply (kept_insert _ a n)|apply (seg_insert _ _ _ _ _ a n); [done|done|apply H]|apply H|apply H| |].
  - intros i p Ep. assert (El : bucket_list s' oc i = bucket_list s oc i).
    { unfold bucket_list. f_equal. apply (filter_same (in_bucket (nodes s') (bucketCount s) i) (in_bucket (nodes s) (bucketCount s) i)). intros b _. unfold in_bucket. destruct (decide (b = a)) as [->|Hne]; [by rewrite Ha', Ev|by rewrite Hb']. }
    rewrite El. apply (seg_insert _ _ _ _ _ a n); [done|done|]. by apply (r_bucket _ _ _ H).
  - rewrite Hentries, update_keys. apply H.
Qed.

Lemma with_value_state t s L N k f fuel : state t s L N -> (N + 4 <= fuel)%nat -> exists s', run (with_value key_eqb keyHasher fuel t k f) s = Ok (s', has_entry k L) /\ state t s' (update_entry k f L) N.
Proof.
  intros (oc & sl & H & Hq & <- & <- & Hg) Hf. destruct (rep_sizes _ _ _ H) as [Hoc _]. unfold with_value. destruct (enter_guard_ok t s fuel Hq ltac:(lia)) as (e & Ee & Hpin). rewrite (run_bind_ok _ _ _ _ _ Ee). pose proof (rep_epoch _ _ _ e H) as H1. set (s1 := with_epoch s e) in *.
  destruct (find_live_ok s1 oc sl k fuel H1 ltac:(lia)) as (r & Er & Hr). rewrite (run_bind_ok _ _ _ _ _ Er). pose proof (found_lookup _ _ _ _ _ H1 Hr) as Hl. change (nodes s1) with (nodes s) in Hl. unfold has_entry. destruct r as [a|].
  - destruct Hl as (n & En & Ed & Ek & Ha & El'). rewrite El'. set (s2 := with_nodes s1 (<[a := set_value (f (value n)) n]> (nodes s1))). destruct (rep_set_value s1 oc sl a n f H1 Ha En Ed) as [H2 He2]. change (with_nodes _ _) with s2 in H2, He2. rewrite Ek in He2.
    rewrite (run_bind_ok _ _ s1 s2 true) by (by rewrite (run_bind_ok _ _ _ _ _ (run_node value a s1 n En)), (run_bind_ok _ _ _ _ _ (run_node_set a (set_value (f (value n))) s1 n En))).
    destruct (leave_guard_ok t s2 Hpin) as (e' & El & Hq'). rewrite (run_bind_ok _ _ _ _ _ El). eexists. split; [done|]. exists oc, sl. split; [by apply rep_epoch|]. split; [done|]. split; [exact He2|]. split; [|done]. cbn [nodes with_epoch s2 with_nodes]. by rewrite map_size_insert_Some by eauto.
  - rewrite Hl. rewrite (run_bind_ok _ _ s1 s1 false) by done. destruct (leave_guard_ok t s1 Hpin) as (e' & El & Hq'). rewrite (run_bind_ok _ _ _ _ _ El), (update_absent _ _ _ Hl). eexists. split; [done|]. exists oc, sl. split; [by apply rep_epoch|]. done.
Qed.

(** *** Walks along the order *)

Lemma snapshot_loop s p l keys fuel : path orderNext (nodes s) p l -> (length l < fuel)%nat -> run (forever fuel snapshot_turn (keys, p)) s = Ok (s, keys ++ (entries (nodes s) l).*1).
Proof.
  revert p keys fuel. induction l as [|a l IH]; intros p keys fuel Hp Hf; (destruct fuel as [|fuel]; [cbn in Hf; lia|]).
  - cbn in Hp. subst p. rewrite (run_forever _ _ _ s s (inr keys)) by done. by rewrite app_nil_r.
  - destruct Hp as (-> & n & En & Hp). rewrite (run_forever _ _ _ s s (inl (if is_deleted n then keys else keys ++ [key n], orderNext n))).
    + rewrite IH by (done || cbn in Hf; lia). unfold entries. cbn. unfold entry at 2. rewrite En. cbn. destruct (is_deleted n); [done|]. cbn. by rewrite <- app_assoc.
    + unfold snapshot_turn. rewrite (run_bind_ok _ _ _ _ _ (run_node is_deleted a s n En)). rewrite (run_bind_ok _ _ s s (if is_deleted n then keys else keys ++ [key n])).
      * by rewrite (run_bind_ok _ _ _ _ _ (run_order a s n En)).
      * destruct (is_deleted n); [done|]. by rewrite (run_bind_ok _ _ _ _ _ (run_node key a s n En)).
Qed.

(** [skip_deleted] goes to the next live node. *)
Lemma skip_deleted_ok s p l fuel : path orderNext (nodes s) p l -> (length l < fuel)%nat ->
  exists l', run (skip_deleted fuel (fun it => it) order_advance p) s = Ok (s, head l') /\ path orderNext (nodes s) (head l') l' /\ entries (nodes s) l' = entries (nodes s) l /\ (length l' <= length l)%nat /\
    forall a, head l' = Some a -> is_Some (entry (nodes s) a).
Proof.
  revert p fuel. induction l as [|a l IH]; intros p fuel Hp Hf; (destruct fuel as [|fuel]; [cbn in Hf; lia|]).
  - cbn in Hp. subst p. by exists [].
  - destruct Hp as (-> & n & En & Hp). cbn [skip_deleted]. rewrite (run_bind_ok _ _ _ _ _ (run_node is_deleted a s n En)). destruct (is_deleted n) eqn:Ed.
    + unfold order_advance at 1. rewrite (run_bind_ok _ _ _ _ _ (run_order a s n En)). destruct (IH (orderNext n) fuel Hp ltac:(cbn in Hf; lia)) as (l' & Er & Hp' & He & Hl & Hh). exists l'. split; [done|]. split; [done|]. split; [|split; [cbn; lia|done]].
      rewrite He. unfold entries. cbn. unfold entry at 2. rewrite En. cbn. by rewrite Ed.
    + exists (a :: l). split; [done|]. split; [split; [done|]; eauto|]. split; [done|]. split; [done|]. intros b [= <-]. exists (key n, value n). apply entry_spec. eauto.
Qed.

Lemma iterate_loop s l seen fuel fuel2 : path orderNext (nodes s) (head l) l -> (forall a, head l = Some a -> is_Some (entry (nodes s) a)) -> (length l < fuel)%nat -> (length l < fuel2)%nat ->
  run (forever fuel (iterate_with fuel2 (fun it => it) (order_next fuel2)) (seen, head l)) s = Ok (s, seen ++ entries (nodes s) l).
Proof.
  revert l seen. induction fuel as [|fuel IH]; intros l seen Hp Hh Hf Hf2; [lia|]. destruct l as [|a l]; cbn [head] in *.
  - rewrite (run_forever _ _ _ s s (inr seen)) by done. by rewrite app_nil_r.
  - destruct Hp as (_ & n & En & Hp). destruct (Hh a eq_refl) as [[k v] Ee]. pose proof (proj1 (entry_spec _ _ _ _) Ee) as (m & Em & Ed & Ek & Ev). rewrite En in Em. injection Em as <-.
    destruct (skip_deleted_ok s (orderNext n) l fuel2 Hp ltac:(cbn in Hf2; lia)) as (l' & Er & Hp' & He & Hl & Hh'). rewrite (run_forever _ _ _ s s (inl (seen ++ [(k, v)], head l'))).
    + rewrite IH by (done || cbn in Hf, Hf2; lia). rewrite He. unfold entries. cbn. rewrite Ee. by rewrite <- app_assoc.
    + unfold iterate_with. rewrite (run_bind_ok _ _ _ _ _ (run_node key a s n En)), (run_bind_ok _ _ _ _ _ (run_node value a s n En)), Ek, Ev. rewrite (run_bind_ok _ _ s s (head l')); [done|].
      unfold order_next, order_advance at 1. by rewrite (run_bind_ok _ _ _ _ _ (run_order a s n En)).
Qed.

Lemma snapshot_state t s L N fuel : state t s L N -> (N + 4 <= fuel)%nat -> exists s', run (ordered_keys_snapshot fuel t) s = Ok (s', L.*1) /\ state t s' L N.
Proof.
  intros (oc & sl & H & Hq & <- & <- & Hg) Hf. destruct (rep_sizes _ _ _ H) as [Hoc _]. destruct (enter_guard_ok t s fuel Hq ltac:(lia)) as (e & Ee & Hpin). unfold ordered_keys_snapshot. rewrite (run_bind_ok _ _ _ _ _ Ee). set (s1 := with_epoch s e) in *.
  rewrite (run_bind_ok _ _ s1 s1 (orderHead s1)) by (by apply run_load). rewrite (run_bind_ok _ _ _ _ _ (snapshot_loop s1 (orderHead s1) oc [] fuel (r_order _ _ _ H) ltac:(lia))).
  destruct (leave_guard_ok t s1 Hpin) as (e' & El & Hq'). rewrite (run_bind_ok _ _ _ _ _ El). eexists. split; [done|]. exists oc, sl. split; [by do 2 apply rep_epoch|]. done.
Qed.

Lemma iterate_order_state t s L N fuel : state t s L N -> (N + 4 <= fuel)%nat -> exists s', run (iterate_order fuel t) s = Ok (s', L) /\ state t s' L N.
Proof.
  intros (oc & sl & H & Hq & <- & <- & Hg) Hf. destruct (rep_sizes _ _ _ H) as [Hoc _]. destruct (enter_guard_ok t s fuel Hq ltac:(lia)) as (e & Ee & Hpin). set (s1 := with_epoch s e) in *.
  destruct (skip_deleted_ok s1 (orderHead s1) oc fuel (r_order _ _ _ H) ltac:(lia)) as (l' & Es & Hp' & He & Hl & Hh). unfold iterate_order. rewrite (run_bind_ok _ _ s s1 (head l')).
  - rewrite (run_bind_ok _ _ s1 s1 (entries (nodes s) oc)) by (change (nodes s) with (nodes s1); rewrite <- He; apply (iterate_loop s1 l' [] fuel fuel); (done || lia)).
    destruct (leave_guard_ok t s1 Hpin) as (e' & El & Hq'). rewrite (run_bind_ok _ _ _ _ _ El). eexists. split; [done|]. exists oc, sl. split; [by do 2 apply rep_epoch|]. done.
  - unfold order_begin. rewrite (run_bind_ok _ _ _ _ _ Ee), (run_bind_ok _ _ s1 s1 (orderHead s1)) by (by apply run_load). exact Es.
Qed.

(** ** Sequences of operations *)

Inductive operation := OpInsert (k : K) (v : V) | OpFind (k : K) | OpWithValue (k : K) (f : V -> V) | OpRemove (k : K) | OpCollect | OpSnapshot | OpIterate.

Inductive answer := ABool (b : bool) | AValue (v : option V) | AUnit | AKeys (l : list K) | AEntries (l : list (K * V)).

Definition perform (fuel t : nat) (o : operation) : prog Map answer :=
  match o with
  | OpInsert k v => b ← insert key_eqb keyHasher moved fuel t k v; Ret (ABool b)
  | OpFind k => v ← find key_eqb keyHasher fuel t k; Ret (AValue v)
  | OpWithValue k f => b ← with_value key_eqb keyHasher fuel t k f; Ret (ABool b)
  | OpRemove k => b ← remove key_eqb keyHasher fuel t k; Ret (ABool b)
  | OpCollect => _ ← collect_garbage fuel t; Ret AUnit
  | OpSnapshot => l ← ordered_keys_snapshot fuel t; Ret (AKeys l)
  | OpIterate => l ← iterate_order fuel t; Ret (AEntries l)
  end.

Fixpoint perform_all (fuel t : nat) (l : list operation) : prog Map (list answer) :=
  match l with [] => Ret [] | o :: l => a ← perform fuel t o; rest ← perform_all fuel t l; Ret (a :: rest) end.

(** The same on the entries in the order of their insertion, and on the number of nodes in
    memory, which nothing but an insertion changes. *)
Definition spec_step (L : list (K * V)) (N : nat) (o : operation) : list (K * V) * nat * answer :=
  match o with
  | OpInsert k v => if has_entry k L then (L, N, ABool false) else (L ++ [(k, v)], S N, ABool true)
  | OpFind k => (L, N, AValue (lookup_entry k L))
  | OpWithValue k f => (update_entry k f L, N, ABool (has_entry k L))
  | OpRemove k => (remove_entry k L, N, ABool (has_entry k L))
  | OpCollect => (L, N, AUnit)
  | OpSnapshot => (L, N, AKeys L.*1)
  | OpIterate => (L, N, AEntries L)
  end.

Fixpoint spec_all (L : list (K * V)) (N : nat) (l : list operation) : list (K * V) * nat * list answer :=
  match l with [] => (L, N, []) | o :: l => let '(L, N, a) := spec_step L N o in let '(L, N, rest) := spec_all L N l in (L, N, a :: rest) end.

Lemma perform_ok t s L N fuel o : state t s L N -> (N + 4 <= fuel)%nat ->
  let '(L', N', a) := spec_step L N o in (N' <= S N)%nat /\ exists s', run (perform fuel t o) s = Ok (s', a) /\ state t s' L' N'.
Proof.
  intros H Hf. destruct o as [k v|k|k f|k| | |]; cbn [spec_step perform].
  - destruct (insert_state t s L N k v fuel H Hf) as (s' & Er & H'). destruct (has_entry k L); (split; [lia|]; exists s'; by rewrite (run_bind_ok _ _ _ _ _ Er)).
  - destruct (find_state t s L N k fuel H Hf) as (s' & Er & H'). split; [lia|]. exists s'. by rewrite (run_bind_ok _ _ _ _ _ Er).
  - destruct (with_value_state t s L N k f fuel H Hf) as (s' & Er & H'). split; [lia|]. exists s'. by rewrite (run_bind_ok _ _ _ _ _ Er).
  - destruct (remove_ok t s L N k fuel H Hf) as (s' & Er & H'). split; [lia|]. exists s'. by rewrite (run_bind_ok _ _ _ _ _ Er).
  - destruct (collect_garbage_ok t s L N fuel H Hf) as (s' & Er & H'). split; [lia|]. exists s'. by rewrite (run_bind_ok _ _ _ _ _ Er).
  - destruct (snapshot_state t s L N fuel H Hf) as (s' & Er & H'). split; [lia|]. exists s'. by rewrite (run_bind_ok _ _ _ _ _ Er).
  - destruct (iterate_order_state t s L N fuel H Hf) as (s' & Er & H'). split; [lia|]. exists s'. by rewrite (run_bind_ok _ _ _ _ _ Er).
Qed.

Lemma perform_all_ok t s L N fuel (ops : list operation) : state t s L N -> (N + length ops + 4 <= fuel)%nat ->
  let '(L', N', a) := spec_all L N ops in exists s', run (perform_all fuel t ops) s = Ok (s', a) /\ state t s' L' N'.
Proof.
  revert s L N. induction ops as [|o ops IH]; intros s L N H Hf; [by exists s|]. cbn [spec_all perform_all]. pose proof (perform_ok t s L N fuel o H ltac:(lia)) as Ho. destruct (spec_step L N o) as [[L1 N1] a]. destruct Ho as (Hn & s1 & Er & H1).
  pose proof (IH s1 L1 N1 H1 ltac:(cbn in Hf; lia)) as Hl. destruct (spec_all L1 N1 ops) as [[L2 N2] rest]. destruct Hl as (s2 & Er2 & H2). exists s2. split; [|done]. by rewrite (run_bind_ok _ _ _ _ _ Er), (run_bind_ok _ _ _ _ _ Er2).
Qed.

Lemma new_map_state t count : state t (new_map count) [] 0.
Proof.
  exists [], []. split; [|by repeat split; left]. set (s := new_map count). assert (Hno : forall a, ~ is_Some (nodes s !! a)) by (intros a [n E]; change (nodes s) with (∅ : gmap nat Node) in E; by rewrite lookup_empty in E).
  split; try done; try apply NoDup_nil_2.
  - intros i p E. apply lookup_replicate in E as [-> _]. done.
  - intros a. split; [intros Ha; by destruct (Hno a)|by intros ?%not_elem_of_nil].
  - intros a Ha. by destruct (Hno a).
  - change (0 < length (replicate (if (0 <? count)%nat then count else 1%nat) (None : option nat)))%nat. rewrite length_replicate. destruct (0 <? count)%nat eqn:E; [by apply Nat.ltb_lt|lia].
Qed.


End LockFreeOrderedMapSpec.

(** ** Examples *)

#[local] Abbreviation zinsert t k v := (insert (V := Z) Z.eqb (fun z => z) (fun _ => 0) 60 t k v).
#[local] Abbreviation zremove t k := (remove (V := Z) Z.eqb (fun z => z) 60 t k).
#[local] Abbreviation zfind t k := (find (V := Z) Z.eqb (fun z => z) 60 t k).
#[local] Abbreviation zcollect t := (collect_garbage (K := Z) (V := Z) 60 t).

Definition example_ops : list (operation (K := Z) (V := Z)) :=
  [OpInsert 5 50; OpInsert 7 70; OpInsert 5 51; OpRemove 7; OpCollect; OpCollect; OpCollect; OpFind 7; OpFind 5; OpWithValue 5 Z.succ; OpIterate].


(** What an insertion that may move its key scans the chain for is the key it has moved from: a
    map that holds the moved-from key refuses every other key of the same bucket. *)
Example insert_moved_key :
  (match run (_ ← zinsert 0 0 10; insert_moved (V := Z) Z.eqb (fun z => z) (fun _ => 0) 60 0 7 70) (new_map 1) with Ok (_, b) => Some b | _ => None end) = Some false.
Proof. vm_compute. reflexivity. Qed.

(** Whether a schedule of threads [ts] after [p] meets something undefined. *)
Definition undefined_after (p : prog (Map (K := Z) (V := Z)) ()) (ts : list (prog (Map (K := Z) (V := Z)) ())) (schedule : list nat) : bool :=
  match run p (new_map 1) with Ok (s, _) => match interleave schedule s ts with Undef => true | _ => false end | _ => false end.

(** [begin] next to a removal that has marked the node but not unlinked it: the iterator leaves
    the chain before its bucket index is set. *)
Example begin_beside_remove :
  undefined_after (_ ← zinsert 0 1 10; Ret ()) [(_ ← zremove 0 1; Ret ()); (_ ← begin_iterator (K := Z) (V := Z) 60 1; Ret ())] (repeat 0%nat 15 ++ repeat 1%nat 40) = true.
Proof. vm_compute. reflexivity. Qed.

(** Two removals, two collections and a search.  The collector unlinks node 2, which its removal
    has marked, between the load and the exchange with which the removal of 3 unlinks the node
    in front of it; the exchange links 2 in again, and the collector, which has noted it as
    unlinked, retires and frees it while the search is on its way. *)
Definition removal_schedule : list nat :=
  repeat 1%nat 15 ++ repeat 2%nat 14 ++ repeat 0%nat 17 ++ repeat 2%nat 3 ++ repeat 1%nat 40 ++ repeat 0%nat 40 ++ repeat 2%nat 30 ++ repeat 3%nat 11 ++ repeat 2%nat 100 ++ repeat 3%nat 20.

Example search_meets_freed_node :
  undefined_after (_ ← zinsert 0 1 10; _ ← zinsert 0 2 20; _ ← zinsert 0 3 30; Ret ())
    [(_ ← zremove 1 3; Ret ()); (_ ← zremove 2 2; Ret ()); (_ ← zcollect 0; _ ← zcollect 0; Ret ()); (_ ← zfind 3 1; Ret ())] removal_schedule = true.
Proof. vm_compute. reflexivity. Qed.
