(* ===== verification/StringSearch.v ===== *)
(** * Substring search (strings/string_search.h)

    [StringSearch] skips by the last character of the needle: a reference search tries every
    position in turn, and the two agree.  Also the searches for a character outside a set. *)

From S2P Require Import Prelude Memory CMemory BaseString BaseStringRep BaseStringModify BaseStringConstruct BaseStringSearch.

Set Default Proof Using "Type".

(** The characters of a search are read through a pointer or, where the caller passes the
    address of its own argument, from that one character. *)
Inductive chars := At (p : ptr) | One (c : Z).

Definition char_at (s : chars) (i : Z) : Prog Z :=
  match s with
  | At p => load_byte (advance_ptr p i)
  | One c => if i =? 0 then mret c else lift Undef
  end.

(** [while (i[needle_size_len] != last_needle)]; [None] where the end is met. *)
Fixpoint last_loop (fuel : nat) (haystack : ptr) (len1 last i iEnd : Z) : Prog (option Z) :=
  match fuel with
  | O => lift Undef
  | S fuel =>
    c ← load_byte (advance_ptr haystack (i + len1));
    if c =? last then mret (Some i) else if i + 1 =? iEnd then mret None else last_loop fuel haystack len1 last (i + 1) iEnd
  end.

Fixpoint skip_loop (fuel : nat) (needle : chars) (len1 last skip : Z) : Prog Z :=
  match fuel with
  | O => lift Undef
  | S fuel =>
    if skip <=? len1 then c ← char_at needle (len1 - skip); if c =? last then mret skip else skip_loop fuel needle len1 last (skip + 1)
    else mret skip
  end.

(** [for (mem_size j = 0;;)]: whether the needle is there. *)
Fixpoint match_loop (fuel : nat) (haystack : ptr) (needle : chars) (needle_size i j : Z) : Prog bool :=
  match fuel with
  | O => lift Undef
  | S fuel =>
    _ ← bug_check (j <? needle_size);
    c ← load_byte (advance_ptr haystack (i + j));
    d ← char_at needle j;
    if negb (c =? d) then mret false else if j + 1 =? needle_size then mret true else match_loop fuel haystack needle needle_size i (j + 1)
  end.

(** [turns] bounds the loops: the length of the haystack and one more. *)
Fixpoint search_loop (turns fuel : nat) (haystack : ptr) (needle : chars) (needle_size last i iEnd skip : Z) : Prog Z :=
  match fuel with
  | O => lift Undef
  | S fuel =>
    if i <? iEnd then
      r ← last_loop turns haystack (needle_size - 1) last i iEnd;
      match r with
      | None => mret npos
      | Some i =>
        b ← match_loop turns haystack needle needle_size i 0;
        if b : bool then mret i
        else
          skip ← (if skip =? 0 then skip_loop turns needle (needle_size - 1) last 1 else mret skip);
          search_loop turns fuel haystack needle needle_size last (i + skip) iEnd skip
      end
    else mret npos
  end.

Definition StringSearch (haystack : ptr) (size : Z) (needle : chars) (start_pos needle_size : Z) : Prog Z :=
  _ ← bug_check (negb (size =? 0));
  _ ← bug_check (negb (needle_size =? 0));
  if (size <? u64 (needle_size + start_pos)) || (u64 (needle_size + start_pos) <? start_pos) then mret npos
  else if needle_size =? 0 then mret start_pos
  else
    last ← char_at needle (needle_size - 1);
    let turns := S (Z.to_nat size) in
    search_loop turns turns haystack needle needle_size last start_pos (size - (needle_size - 1)) 0.

(** Whether a character is none of the needle's. *)
Fixpoint absent_loop (n : nat) (needle : ptr) (c i : Z) : Prog bool :=
  match n with
  | O => mret true
  | S n => d ← load_byte (advance_ptr needle i); if c =? d then mret false else absent_loop n needle c (i + 1)
  end.

Fixpoint not_of_loop (fuel : nat) (haystack : ptr) (size : Z) (needle : ptr) (needle_size curPos : Z) : Prog Z :=
  match fuel with
  | O => lift Undef
  | S fuel =>
    if curPos <? size then
      c ← load_byte (advance_ptr haystack curPos);
      found ← absent_loop (Z.to_nat needle_size) needle c 0;
      if found : bool then mret curPos else not_of_loop fuel haystack size needle needle_size (curPos + 1)
    else mret npos
  end.

Definition StringSearchNotOf (haystack : ptr) (size : Z) (needle : ptr) (start_pos needle_size : Z) : Prog Z :=
  _ ← bug_check (negb (size =? 0));
  _ ← bug_check (negb (needle_size =? 0));
  not_of_loop (S (Z.to_nat size)) haystack size needle needle_size start_pos.

(** Downwards; no pointer to before the array may be formed. *)
Fixpoint last_not_of_loop (i : nat) (haystack needle : ptr) (needle_size : Z) : Prog Z :=
  c ← load_byte (advance_ptr haystack (Z.of_nat i));
  found ← absent_loop (Z.to_nat needle_size) needle c 0;
  if found : bool then mret (Z.of_nat i) else match i with O => lift Undef | S i => last_not_of_loop i haystack needle needle_size end.

Definition StringSearchLastNotOf (haystack : ptr) (size : Z) (needle : ptr) (needle_size : Z) : Prog Z :=
  match Z.to_nat size with O => lift Undef | S i => last_not_of_loop i haystack needle needle_size end.

(** ** The search *)

Definition chars_at (m : memory) (s : chars) (xs : list Z) : Prop := match s with At p => readable m p xs | One c => xs = [c] end.

Lemma char_at_ok m s xs (i : nat) x : chars_at m s xs -> xs !! i = Some x -> char_at s (Z.of_nat i) m = Ok (m, x).
Proof.
  destruct s as [p|c]; cbn [chars_at char_at]; [apply readable_byte|]. intros -> Ex. destruct i; [|done]. by injection Ex as ->.
Qed.

Lemma occurs_spec l s i : (i + length s <= length l)%nat -> occurs l s i = true <-> forall j, (j < length s)%nat -> l !! (i + j)%nat = s !! j.
Proof.
  intros Hi. unfold occurs. rewrite bool_decide_eq_true. split.
  - intros E j Hj. rewrite <- E, lookup_take_lt, lookup_drop by done. done.
  - intros H. apply list_eq. intros j. destruct (decide (j < length s)%nat) as [Hj|Hj]; [rewrite lookup_take_lt, lookup_drop by done; by apply H|].
    rewrite !(proj2 (lookup_ge_None _ _)); [done|lia|rewrite length_take; lia].
Qed.

Lemma first_at_hit P n i k : (i <= k < i + n)%nat -> P k = true -> (forall d, (i <= d < k)%nat -> P d = false) -> first_at P n i = Some k.
Proof.
  intros Hk Pk Hd. pose proof (first_at_spec P n i) as H. destruct (first_at P n i) as [j|].
  - destruct H as (Hj & Pj & Hno). destruct (lt_eq_lt_dec j k) as [[Hlt| ->]|Hgt]; [|done|].
    + rewrite Hd in Pj by lia. done.
    + rewrite Hno in Pk by lia. done.
  - rewrite H in Pk by lia. done.
Qed.

Lemma first_at_none P n i : (forall d, (i <= d < i + n)%nat -> P d = false) -> first_at P n i = None.
Proof. intros Hd. pose proof (first_at_spec P n i) as H. destruct (first_at P n i) as [j|]; [|done]. destruct H as (Hj & Pj & _). by rewrite Hd in Pj. Qed.

Lemma first_at_move P n i k : (i <= k)%nat -> (forall d, (i <= d < k)%nat -> (d < i + n)%nat -> P d = false) -> first_at P n i = first_at P (n - (k - i)) k.
Proof.
  revert i. induction n as [|n IH]; intros i Hk Hd; [done|]. destruct (decide (i = k)) as [->|Hne]; [by rewrite Nat.sub_diag, Nat.sub_0_r|]. cbn [first_at]. rewrite Hd by lia.
  rewrite IH by (lia || (intros d H1 H2; apply Hd; lia)). f_equal. lia.
Qed.

Lemma last_char (s : list Z) c : list.last s = Some c -> (0 < length s)%nat /\ s !! (length s - 1)%nat = Some c.
Proof. intros E. split; [destruct s; [done|cbn; lia]|]. by rewrite Nat.sub_1_r, <- last_lookup. Qed.

Section Search.

Context (m : memory) (haystack : ptr) (needle : chars) (l s : list Z) (last : Z).
Context (Hl : readable m haystack l) (Hs : chars_at m needle s) (Hlast : list.last s = Some last) (Hfit : (length s <= length l)%nat).

Lemma needle_some : (0 < length s)%nat.
Proof using Hlast. exact (proj1 (last_char s last Hlast)). Qed.

Lemma needle_last : s !! (length s - 1)%nat = Some last.
Proof using Hlast. exact (proj2 (last_char s last Hlast)). Qed.

Lemma hay_char (i : nat) : (i < length l)%nat -> exists c, l !! i = Some c /\ load_byte (advance_ptr haystack (Z.of_nat i)) m = Ok (m, c).
Proof using Hl. intros Hi. destruct (lookup_lt_is_Some_2 l i Hi) as [c Ec]. exists c. split; [done|]. by apply (readable_byte m haystack l). Qed.

(** A position whose last character differs is no occurrence. *)
Lemma last_loop_ok fuel (i : nat) : (i <= length l - length s)%nat -> (length l - length s - i < fuel)%nat ->
  exists r, last_loop fuel haystack (Z.of_nat (length s) - 1) last (Z.of_nat i) (Z.of_nat (length l) - (Z.of_nat (length s) - 1)) m = Ok (m, Z.of_nat <$> r) /\
    match r with
    | Some k => (i <= k <= length l - length s)%nat /\ l !! (k + (length s - 1))%nat = Some last /\ forall d, (i <= d < k)%nat -> occurs l s d = false
    | None => forall d, (i <= d <= length l - length s)%nat -> occurs l s d = false
    end.
Proof using Hl Hlast Hfit.
  pose proof needle_some as Hn. revert i. induction fuel as [|fuel IH]; intros i Hi Hf; [lia|]. cbn [last_loop].
  destruct (hay_char (i + (length s - 1)) ltac:(lia)) as (c & Ec & Er). replace (Z.of_nat i + (Z.of_nat (length s) - 1)) with (Z.of_nat (i + (length s - 1))) by lia. rewrite (prog_bind _ _ _ _ _ Er).
  destruct (Z.eqb_spec c last) as [->|Hne].
  - exists (Some i). split; [done|]. split; [lia|]. split; [done|]. lia.
  - assert (Hno : occurs l s i = false).
    { apply not_true_iff_false. intros Ho. pose proof (proj1 (occurs_spec l s i ltac:(lia)) Ho (length s - 1)%nat ltac:(lia)) as E. rewrite needle_last, Ec in E. congruence. }
    destruct (Z.eqb_spec (Z.of_nat i + 1) (Z.of_nat (length l) - (Z.of_nat (length s) - 1))) as [He|He].
    + exists None. split; [done|]. intros d Hd. by assert (d = i) as -> by lia.
    + replace (Z.of_nat i + 1) with (Z.of_nat (S i)) by lia. destruct (IH (S i) ltac:(lia) ltac:(lia)) as (r & Er' & Hr). exists r. split; [done|]. destruct r as [k|].
      * destruct Hr as (Hk & El & Hd). split; [lia|]. split; [done|]. intros d Hd'. destruct (decide (d = i)) as [->|]; [done|]. apply Hd. lia.
      * intros d Hd. destruct (decide (d = i)) as [->|]; [done|]. apply Hr. lia.
Qed.

Lemma match_loop_ok fuel (i j : nat) : (i <= length l - length s)%nat -> (j < length s)%nat -> (length s - j <= fuel)%nat -> (forall k, (k < j)%nat -> l !! (i + k)%nat = s !! k) ->
  match_loop fuel haystack needle (Z.of_nat (length s)) (Z.of_nat i) (Z.of_nat j) m = Ok (m, occurs l s i).
Proof using Hl Hs Hlast Hfit.
  intros Hi. revert j. induction fuel as [|fuel IH]; intros j Hj Hf Hk; [lia|]. cbn [match_loop]. rewrite (prog_bind _ _ m m ()) by (unfold bug_check, lift; by rewrite (proj2 (Z.ltb_lt _ _)) by lia).
  destruct (hay_char (i + j) ltac:(lia)) as (c & Ec & Er). rewrite <- Nat2Z.inj_add, (prog_bind _ _ _ _ _ Er). destruct (lookup_lt_is_Some_2 s j Hj) as [d Ed]. rewrite (prog_bind _ _ _ _ _ (char_at_ok _ _ _ _ _ Hs Ed)).
  destruct (Z.eqb_spec c d) as [->|Hne]; cbn [negb].
  - assert (Hk' : forall k, (k < S j)%nat -> l !! (i + k)%nat = s !! k) by (intros k Hkj; destruct (decide (k = j)) as [->|]; [congruence|apply Hk; lia]).
    destruct (Z.eqb_spec (Z.of_nat j + 1) (Z.of_nat (length s))) as [He|He].
    + rewrite (proj2 (occurs_spec l s i ltac:(lia))); [done|]. intros k Hks. apply Hk'. lia.
    + replace (Z.of_nat j + 1) with (Z.of_nat (S j)) by lia. apply IH; [lia|lia|done].
  - replace (occurs l s i) with false; [done|]. symmetry. apply not_true_iff_false. intros Ho. pose proof (proj1 (occurs_spec l s i ltac:(lia)) Ho j Hj). congruence.
Qed.

(** How far the search may move on once the last character has matched. *)
Definition safe_skip (skip : nat) : Prop := (1 <= skip <= length s)%nat /\ forall d, (1 <= d < skip)%nat -> s !! (length s - 1 - d)%nat <> Some last.

Lemma skip_loop_ok fuel (k : nat) : (1 <= k <= length s)%nat -> (length s - k < fuel)%nat -> safe_skip k ->
  exists r, skip_loop fuel needle (Z.of_nat (length s) - 1) last (Z.of_nat k) m = Ok (m, Z.of_nat r) /\ safe_skip r.
Proof using Hl Hs Hlast Hfit.
  revert k. induction fuel as [|fuel IH]; intros k Hk Hf Hsafe; [lia|]. cbn [skip_loop]. destruct (Z.leb_spec (Z.of_nat k) (Z.of_nat (length s) - 1)) as [Hle|Hgt]; [|by exists k].
  destruct (lookup_lt_is_Some_2 s (length s - 1 - k)%nat ltac:(lia)) as [c Ec]. replace (Z.of_nat (length s) - 1 - Z.of_nat k) with (Z.of_nat (length s - 1 - k)) by lia. rewrite (prog_bind _ _ _ _ _ (char_at_ok _ _ _ _ _ Hs Ec)).
  destruct (Z.eqb_spec c last) as [->|Hne]; [by exists k|]. replace (Z.of_nat k + 1) with (Z.of_nat (S k)) by lia. apply IH; [lia|lia|]. split; [lia|]. intros d Hd. destruct (decide (d = k)) as [->|]; [congruence|]. apply Hsafe. lia.
Qed.

(** Behind a failed match nothing occurs before the skip. *)
Lemma skip_misses (k skip : nat) : (k <= length l - length s)%nat -> l !! (k + (length s - 1))%nat = Some last -> safe_skip skip ->
  forall d, (k < d < k + skip)%nat -> (d <= length l - length s)%nat -> occurs l s d = false.
Proof using Hl Hs Hlast Hfit.
  intros Hk El [Hle Hsafe] d Hd Hdl. apply not_true_iff_false. intros Ho. pose proof (proj1 (occurs_spec l s d ltac:(lia)) Ho (k + (length s - 1) - d)%nat ltac:(lia)) as E.
  replace (d + (k + (length s - 1) - d))%nat with (k + (length s - 1))%nat in E by lia. rewrite El in E. apply (Hsafe (d - k)%nat ltac:(lia)). rewrite E. f_equal. lia.
Qed.

Lemma search_loop_ok fuel (i : nat) skip : (length l - i < fuel)%nat -> skip = 0 \/ (exists k, skip = Z.of_nat k /\ safe_skip k) ->
  search_loop (S (length l)) fuel haystack needle (Z.of_nat (length s)) last (Z.of_nat i) (Z.of_nat (length l) - (Z.of_nat (length s) - 1)) skip m =
    Ok (m, index (first_at (occurs l s) (length l - length s + 1 - i) i)).
Proof using Hl Hs Hlast Hfit.
  pose proof needle_some as Hn. revert i skip. induction fuel as [|fuel IH]; intros i skip Hf Hskip; [lia|]. cbn [search_loop]. destruct (Z.ltb_spec (Z.of_nat i) (Z.of_nat (length l) - (Z.of_nat (length s) - 1))) as [Hi|Hi].
  2: { replace (length l - length s + 1 - i)%nat with 0%nat by lia. done. }
  destruct (last_loop_ok (S (length l)) i ltac:(lia) ltac:(lia)) as (r & Er & Hr). rewrite (prog_bind _ _ _ _ _ Er). destruct r as [k|]; cbn [fmap option_fmap option_map].
  2: { rewrite first_at_none; [done|]. intros d Hd. apply Hr. lia. }
  destruct Hr as (Hk & Ek & Hno). rewrite (prog_bind _ _ _ _ _ (match_loop_ok (S (length l)) k 0 ltac:(lia) ltac:(lia) ltac:(lia) ltac:(lia))). destruct (occurs l s k) eqn:Eo; [by rewrite (first_at_hit _ _ _ k) by (done || lia)|].
  assert (exists q, (if skip =? 0 then skip_loop (S (length l)) needle (Z.of_nat (length s) - 1) last 1 else mret skip) m = Ok (m, Z.of_nat q) /\ safe_skip q) as (q & Eq & Hq).
  { destruct Hskip as [->|(q & -> & Hq)].
    - apply (skip_loop_ok (S (length l)) 1); [lia|lia|]. split; [lia|]. lia.
    - exists q. rewrite (proj2 (Z.eqb_neq _ _)) by (destruct Hq; lia). done. }
  rewrite (prog_bind _ _ _ _ _ Eq). rewrite <- Nat2Z.inj_add, IH by (destruct Hq; lia || (right; by exists q)). do 2 f_equal. destruct Hq as [Hq1 Hq2].
  rewrite (first_at_move _ (length l - length s + 1 - i) i (k + q)); [do 2 f_equal; lia|lia|]. intros d Hd Hdl. destruct (lt_eq_lt_dec d k) as [[Hlt| ->]|Hgt]; [apply Hno; lia|done|]. apply (skip_misses k q); (done || lia).
Qed.

End Search.

Lemma first_at_short l s n i : (length l < i + length s)%nat -> s <> [] -> first_at (occurs l s) n i = None.
Proof. intros H Hs. apply first_at_none. intros d Hd. apply occurs_short; [lia|done]. Qed.

Lemma StringSearch_ok m haystack needle l s pos : readable m haystack l -> chars_at m needle s -> l <> [] -> s <> [] -> Z.of_nat (length l) < 2 ^ 64 -> Z.of_nat (length s) < 2 ^ 64 -> 0 <= pos < 2 ^ 64 ->
  StringSearch haystack (Z.of_nat (length l)) needle pos (Z.of_nat (length s)) m = Ok (m, index (first_at (occurs l s) (length l - Z.to_nat pos) (Z.to_nat pos))).
Proof.
  intros Hl Hs Hl0 Hs0 Hll Hsl Hpos. unfold StringSearch. assert (Hn : (0 < length s)%nat) by (destruct s; [done|cbn; lia]). assert (Hn' : (0 < length l)%nat) by (destruct l; [done|cbn; lia]).
  rewrite !(proj2 (Z.eqb_neq _ 0)) by lia. cbn [negb]. rewrite !(prog_bind _ _ m m ()) by done.
  destruct ((Z.of_nat (length l) <? u64 (Z.of_nat (length s) + pos)) || (u64 (Z.of_nat (length s) + pos) <? pos)) eqn:Eb.
  - rewrite first_at_short; [done| |done]. apply orb_true_iff in Eb as [Eb|Eb]; apply Z.ltb_lt in Eb; unfold u64, wrap in Eb; destruct (decide (Z.of_nat (length s) + pos < 2 ^ 64)); [rewrite Z.mod_small in Eb by lia; lia|lia|rewrite Z.mod_small in Eb by lia; lia|lia].
  - apply orb_false_iff in Eb as [E1 E2]. apply Z.ltb_ge in E1, E2. assert (Hsum : Z.of_nat (length s) + pos < 2 ^ 64).
    { destruct (decide (Z.of_nat (length s) + pos < 2 ^ 64)) as [|Hge]; [done|]. unfold u64, wrap in E2. rewrite <- (Z.mod_unique (Z.of_nat (length s) + pos) (2 ^ 64) 1 (Z.of_nat (length s) + pos - 2 ^ 64)) in E2 by lia. lia. }
    unfold u64, wrap in E1. rewrite Z.mod_small in E1 by lia. destruct (list.last s) as [c|] eqn:El; [|by apply last_None in El].
    pose proof (proj2 (last_char s c El)) as Ec.
    replace (Z.of_nat (length s) - 1) with (Z.of_nat (length s - 1)) by lia. rewrite (prog_bind _ _ _ _ _ (char_at_ok m needle s _ _ Hs Ec)). rewrite Nat2Z.id.
    replace (Z.of_nat (length s - 1)) with (Z.of_nat (length s) - 1) by lia. rewrite <- (Z2Nat.id pos) at 1 by lia. rewrite (search_loop_ok m haystack needle l s c); [|done|done|done|lia|lia|by left].
    do 3 f_equal. symmetry. apply first_at_cut; [lia|]. intros j Hj. apply occurs_short; [lia|done].
Qed.

(** C29. The search that skips finds exactly what trying every position finds: the first place at
    or behind [start_pos] where the needle occurs, and [npos] when there is none, also when
    the position and the needle's length overflow together.  It ends. *)
Theorem StringSearch_first m haystack needle l s pos : readable m haystack l -> chars_at m needle s -> l <> [] -> s <> [] -> Z.of_nat (length l) < 2 ^ 64 -> Z.of_nat (length s) < 2 ^ 64 -> 0 <= pos < 2 ^ 64 ->
  StringSearch haystack (Z.of_nat (length l)) needle pos (Z.of_nat (length s)) m = Ok (m, index (first_at (occurs l s) (length l - Z.to_nat pos) (Z.to_nat pos))).
Proof. apply StringSearch_ok. Qed.

(** ** Examples *)

Definition search_bytes (l : list Z) (s : list Z) : memory := mkMemory {[0%nat := (false, Byte <$> l); 1%nat := (false, Byte <$> s)]} 2.

Lemma search_bytes_0 l s : readable (search_bytes l s) (0%nat, 0%nat) l.
Proof. right. exists false, (Byte <$> l). split; [done|]. cbn [snd]. rewrite drop_0, length_fmap. split; [done|]. by rewrite <- (length_fmap Byte l), firstn_all. Qed.

Lemma search_bytes_1 l s : readable (search_bytes l s) (1%nat, 0%nat) s.
Proof. right. exists false, (Byte <$> s). split; [done|]. cbn [snd]. rewrite drop_0, length_fmap. split; [done|]. by rewrite <- (length_fmap Byte s), firstn_all. Qed.

(** "abxabyab" and "aby": the first mismatch lets the search skip. *)
Example StringSearch_first_witness :
  StringSearch (0%nat, 0%nat) 8 (At (1%nat, 0%nat)) 0 3 (search_bytes [97; 98; 120; 97; 98; 121; 97; 98] [97; 98; 121]) = Ok (search_bytes [97; 98; 120; 97; 98; 121; 97; 98] [97; 98; 121], 3).
Proof.
  exact (StringSearch_first (search_bytes [97; 98; 120; 97; 98; 121; 97; 98] [97; 98; 121]) (0%nat, 0%nat) (At (1%nat, 0%nat)) [97; 98; 120; 97; 98; 121; 97; 98] [97; 98; 121] 0
    (search_bytes_0 _ _) (search_bytes_1 _ _) ltac:(done) ltac:(done) ltac:(done) ltac:(done) ltac:(done)).
Defined.

(** An empty haystack or needle violates a check of the search. *)
Example StringSearch_empty : StringSearch (0%nat, 0%nat) 0 (One 97) 0 1 (search_bytes [] []) = Undef.
Proof. reflexivity. Qed.

(** Where every character is in the set, the search from the end steps in front of the array. *)
Example StringSearchLastNotOf_steps_off : StringSearchLastNotOf (0%nat, 0%nat) 2 (1%nat, 0%nat) 1 (search_bytes [97; 97] [97]) = Undef.
Proof. reflexivity. Qed.
