(* ===== verification/StringRef.v ===== *)
(** * base::StringRef (strings/string_ref.h)

    A view of characters that somebody else owns: a pointer, a 32 bit length, and whether the
    characters are followed by a null.  The views are values; what they point to is the byte
    memory of the strings.  [sizeof(TChar)] is 1. *)

From S2P Require Import Prelude Memory CMemory BaseString BaseStringRep BaseStringModify BaseStringConstruct BaseStringSearch StringSearch.

Set Default Proof Using "Type".
Set Warnings "-clear-no-such-hyp".

Module StringRef.

Record StringRef := mkRef { data_ : ptr; length_ : Z; is_null_term : bool }.

Definition max_size_bytes : Z := 2 ^ 32 - 1.
Definition max_size_characters : Z := max_size_bytes / 1.

(** ** Construction *)

(** [s_empty_] is a static null. *)
Definition default_ref (s_empty_ : ptr) : StringRef := mkRef s_empty_ 0 true.

Definition of_string (str : nat) : Prog StringRef :=
  d ← get_data str; n ← get_size str; size ← byte_size str;
  _ ← bug_check (size <=? max_size_characters); mret (mkRef d (u32 n) true).

Definition of_view (data : ptr) (size : Z) : Prog StringRef := _ ← bug_check (size <=? max_size_characters); mret (mkRef data (u32 size) false).

Definition of_data (data : ptr) (length : Z) : Prog StringRef :=
  i ← FindNullTerminator data length; mret (mkRef data (u32 length) (negb (i =? 0))).

Definition of_literal (data : ptr) (length : Z) (is_null_terminated : bool) : StringRef := mkRef data (u32 length) is_null_terminated.

Definition of_cstr (data : ptr) : Prog StringRef :=
  n ← CountStringLength data max_size_bytes;
  let length := u32 n in
  i ← FindNullTerminator data (if 0 <? length then u32 (length + 1) else 0);
  mret (mkRef data length (negb (i =? 0))).

(** Copies, in construction and assignment. *)
Definition assign (other : StringRef) : StringRef := mkRef (data_ other) (length_ other) (is_null_term other).

(** ** Access *)

Definition c_str (r : StringRef) : Prog ptr := _ ← bug_check (is_null_term r); mret (data_ r).
Definition end_ (r : StringRef) : ptr := advance_ptr (data_ r) (length_ r).
Definition empty (r : StringRef) : bool := length_ r =? 0.

Definition back (r : StringRef) : Prog Z := _ ← bug_check (0 <? length_ r); load_byte (advance_ptr (data_ r) (length_ r - 1)).
Definition front (r : StringRef) : Prog Z := _ ← bug_check (0 <? length_ r); load_byte (data_ r).
Definition at_ (r : StringRef) (offset : Z) : Prog Z := _ ← bug_check (offset <? length_ r); load_byte (advance_ptr (data_ r) offset).

Definition remove_suffix (r : StringRef) (n : Z) : Prog StringRef :=
  _ ← bug_check (n <=? length_ r); mret (mkRef (data_ r) (u32 (length_ r - u32 n)) false).

Definition remove_prefix (r : StringRef) (n : Z) : Prog StringRef :=
  _ ← bug_check (n <=? length_ r); mret (mkRef (advance_ptr (data_ r) n) (u32 (length_ r - u32 n)) (is_null_term r)).

Definition subslice (r : StringRef) (pos count : Z) : Prog StringRef :=
  let pos := if length_ r <? pos then length_ r else pos in
  let count := if length_ r - pos <? count then length_ r - pos else count in
  of_data (advance_ptr (data_ r) pos) count.

Definition substr (r : StringRef) (pos count : Z) : Prog StringRef := _ ← bug_check (pos <=? length_ r); subslice r pos count.

(** [allocates]: which requests the allocator grants. *)
Definition to_string (allocates : Z -> bool) (result : nat) (r : StringRef) : Prog () := construct_chars allocates result (Some (data_ r)) (length_ r).

Definition MakeStringCopy (allocates : Z -> bool) (strong : nat) (slice : StringRef) (no_nterm : bool) : Prog () :=
  _ ← construct_chars allocates strong (Some (data_ slice)) (length_ slice + if no_nterm then 0 else 1);
  if no_nterm then mret () else set_at strong (length_ slice) 0.

(** ** Comparison *)

Definition compare_chars (r : StringRef) (rhs : ptr) (character_count : Z) : Prog bool :=
  c ← MemCompare (data_ r) rhs (Z.to_nat character_count); mret (c =? 0).

Definition compare_at (r : StringRef) (offset : Z) (rhs : ptr) (character_count : Z) : Prog bool :=
  c ← MemCompare (advance_ptr (data_ r) offset) rhs (Z.to_nat character_count); mret (c =? 0).

Definition equal (lhs rhs : StringRef) : Prog bool :=
  if negb (length_ lhs =? length_ rhs) then mret false
  else c ← MemCompare (data_ lhs) (data_ rhs) (Z.to_nat (length_ lhs)); mret (c =? 0).

Definition not_equal (lhs rhs : StringRef) : Prog bool := b ← equal lhs rhs; mret (negb b).

Definition less (lhs rhs : StringRef) : Prog bool :=
  let min_len := if length_ lhs <? length_ rhs then length_ lhs else length_ rhs in
  result ← MemCompare (data_ lhs) (data_ rhs) (Z.to_nat min_len);
  mret (if negb (result =? 0) then result <? 0 else length_ lhs <? length_ rhs).

Definition less_equal (lhs rhs : StringRef) : Prog bool := b ← less rhs lhs; mret (negb b).
Definition greater (lhs rhs : StringRef) : Prog bool := less rhs lhs.
Definition greater_equal (lhs rhs : StringRef) : Prog bool := b ← less lhs rhs; mret (negb b).

Definition compare_to (r other : StringRef) : Prog Z :=
  let shortest := if length_ r <? length_ other then length_ r else length_ other in
  diff ← (if 0 <? shortest then MemCompare (data_ r) (data_ other) (Z.to_nat shortest) else mret 0);
  mret (if negb (diff =? 0) then diff else if length_ r =? length_ other then 0 else if length_ r <? length_ other then -1 else 1).

Definition compare_slice (r : StringRef) (pos count : Z) (other : StringRef) : Prog Z := s ← subslice r pos count; compare_to s other.

(** ** Searches *)

Definition find_chars (r : StringRef) (s : ptr) (pos count : Z) : Prog Z := StringSearch (data_ r) (length_ r) (At s) pos count.
Definition find_char_from (r : StringRef) (c pos : Z) : Prog Z := StringSearch (data_ r) (length_ r) (One c) pos 1.
Definition find_char (r : StringRef) (c : Z) : Prog Z := StringSearch (data_ r) (length_ r) (One c) 0 1.
Definition find_cstr (r : StringRef) (s : ptr) : Prog Z := n ← CountStringLength s kNoLimit; StringSearch (data_ r) (length_ r) (At s) 0 n.
Definition find_ref (r s : StringRef) (pos : Z) : Prog Z := StringSearch (data_ r) (length_ r) (At (data_ s)) pos (length_ s).

Definition contains_char (r : StringRef) (c : Z) : Prog bool := i ← find_char r c; mret (negb (i =? npos)).
Definition contains_cstr (r : StringRef) (s : ptr) : Prog bool := i ← find_cstr r s; mret (negb (i =? npos)).

(** [for (mem_size i = pos; i < length_; ++i)] over the characters with [test]. *)
Fixpoint up_loop (n : nat) (data : ptr) (test : Z -> Prog bool) (i : Z) : Prog Z :=
  match n with
  | O => mret npos
  | S n => c ← load_byte (advance_ptr data i); b ← test c; if b : bool then mret i else up_loop n data test (i + 1)
  end.

(** [for (;; --i)]: down to the first character. *)
Fixpoint ref_down_loop (i : nat) (data : ptr) (test : Z -> Prog bool) : Prog Z :=
  c ← load_byte (advance_ptr data (Z.of_nat i));
  b ← test c;
  if b : bool then mret (Z.of_nat i) else match i with O => mret npos | S i => ref_down_loop i data test end.

(** Where the searches from the end start. *)
Definition last_index (pos n : Z) : Z := if (pos =? npos) || (n <=? pos) then n - 1 else pos.

Definition ends_at (r : StringRef) (pos : Z) (test : Z -> Prog bool) : Prog Z :=
  if length_ r =? 0 then mret npos else ref_down_loop (Z.to_nat (last_index pos (length_ r))) (data_ r) test.

Fixpoint contains_loop (n : nat) (set : chars) (c k : Z) : Prog bool :=
  match n with
  | O => mret false
  | S n => d ← char_at set k; if d =? c then mret true else contains_loop n set c (k + 1)
  end.

Definition ContainsChar (set : chars) (count c : Z) : Prog bool := contains_loop (Z.to_nat count) set c 0.

Definition rfind_char (r : StringRef) (c pos : Z) : Prog Z := ends_at r pos (fun x => mret (x =? c)).

Fixpoint rfind_chars_loop (i : nat) (data s : ptr) (s_len : Z) : Prog Z :=
  c ← MemCompare (advance_ptr data (Z.of_nat i)) s (Z.to_nat s_len);
  if c =? 0 then mret (Z.of_nat i) else match i with O => mret npos | S i => rfind_chars_loop i data s s_len end.

Definition rfind_cstr (r : StringRef) (s : option ptr) (pos : Z) : Prog Z :=
  match s with
  | None => mret npos
  | Some s =>
    s_len ← CountStringLength s kNoLimit;
    if s_len =? 0 then mret (if pos <? length_ r then pos else length_ r)
    else if length_ r <? s_len then mret npos
    else
      let i := if (pos =? npos) || (length_ r - s_len <? pos) then length_ r - s_len else pos in
      rfind_chars_loop (Z.to_nat i) (data_ r) s s_len
  end.

Definition find_last_of_char (r : StringRef) (c pos : Z) : Prog Z := rfind_char r c pos.

Definition find_last_of (r : StringRef) (set : option ptr) (pos : Z) : Prog Z :=
  match set with
  | None => mret npos
  | Some set => if length_ r =? 0 then mret npos else set_len ← CountStringLength set kNoLimit; ends_at r pos (ContainsChar (At set) set_len)
  end.

Definition starts_at (r : StringRef) (pos : Z) (test : Z -> Prog bool) : Prog Z := up_loop (Z.to_nat (length_ r - pos)) (data_ r) test pos.

Definition find_first_of (r : StringRef) (set : option ptr) (pos : Z) : Prog Z :=
  match set with
  | None => mret npos
  | Some set => set_len ← CountStringLength set kNoLimit; starts_at r pos (ContainsChar (At set) set_len)
  end.

Definition outside (set : chars) (count : Z) (c : Z) : Prog bool := b ← ContainsChar set count c; mret (negb b).

Definition find_first_not_of_chars (r : StringRef) (s : chars) (pos count : Z) : Prog Z := starts_at r pos (outside s count).

Definition find_first_not_of (r : StringRef) (set : option ptr) (pos : Z) : Prog Z :=
  match set with None => mret npos | Some set => n ← CountStringLength set kNoLimit; find_first_not_of_chars r (At set) pos n end.

Definition find_first_not_of_char (r : StringRef) (c pos : Z) : Prog Z := find_first_not_of_chars r (One c) pos 1.

Definition find_last_not_of_chars (r : StringRef) (s : chars) (pos count : Z) : Prog Z := ends_at r pos (outside s count).

Definition find_last_not_of (r : StringRef) (set : option ptr) (pos : Z) : Prog Z :=
  match set with None => mret npos | Some set => n ← CountStringLength set kNoLimit; find_last_not_of_chars r (At set) pos n end.

Definition find_last_not_of_char (r : StringRef) (c pos : Z) : Prog Z := find_last_not_of_chars r (One c) pos 1.

(** ** Ends *)

Definition starts_with_char (r : StringRef) (c : Z) : Prog bool := if 0 <? length_ r then x ← load_byte (data_ r); mret (x =? c) else mret false.

Definition starts_with_cstr (r : StringRef) (s : option ptr) : Prog bool :=
  match s with
  | None => mret false
  | Some s => n ← CountStringLength s kNoLimit; if length_ r <? n then mret false else c ← MemCompare (data_ r) s (Z.to_nat n); mret (c =? 0)
  end.

Definition starts_with_ref (r s : StringRef) : Prog bool :=
  if length_ r <? length_ s then mret false else c ← MemCompare (data_ r) (data_ s) (Z.to_nat (length_ s)); mret (c =? 0).

Definition ends_with_char (r : StringRef) (c : Z) : Prog bool :=
  if 0 <? length_ r then x ← load_byte (advance_ptr (data_ r) (length_ r - 1)); mret (x =? c) else mret false.

Definition ends_with_cstr (r : StringRef) (s : option ptr) : Prog bool :=
  match s with
  | None => mret false
  | Some s =>
    n ← CountStringLength s kNoLimit;
    if length_ r <? n then mret false else c ← MemCompare (advance_ptr (data_ r) (length_ r - n)) s (Z.to_nat n); mret (c =? 0)
  end.

Definition ends_with_ref (r s : StringRef) : Prog bool :=
  if length_ r <? length_ s then mret false else c ← MemCompare (advance_ptr (data_ r) (length_ r - length_ s)) (data_ s) (Z.to_nat (length_ s)); mret (c =? 0).

End StringRef.

Import StringRef.

(** ** What a view shows *)

Definition view_at (m : memory) (r : StringRef) (l : list Z) : Prop :=
  readable m (data_ r) l /\ length_ r = Z.of_nat (length l) /\ Z.of_nat (length l) < 2 ^ 32.

Lemma mret_eq {A} (a b : A) (m : memory) : a = b -> (mret a : Prog A) m = Ok (m, b).
Proof. by intros ->. Qed.

Section View.

Context {m : memory} {r : StringRef} {l : list Z} (H : view_at m r l).

Lemma ref_char i : (i < length l)%nat -> exists x, l !! i = Some x /\ load_byte (advance_ptr (data_ r) (Z.of_nat i)) m = Ok (m, x).
Proof using H. intros Hi. destruct (lookup_lt_is_Some_2 l i Hi) as [x Ex]. exists x. split; [done|]. exact (readable_byte m _ l i x (proj1 H) Ex). Qed.

Lemma up_loop_ok test T n i : decides (m := m) test T -> (i + n <= length l)%nat -> up_loop n (data_ r) test (Z.of_nat i) m = Ok (m, index (first_at (char_test l T) n i)).
Proof using H.
  intros HT. revert i. induction n as [|n IH]; intros i Hi; cbn [up_loop first_at]; [done|]. destruct (ref_char i ltac:(lia)) as (x & Ex & Er). rewrite (prog_bind _ _ _ _ _ Er), (prog_bind _ _ _ _ _ (HT x)).
  unfold char_test at 1. rewrite Ex. destruct (T x); [done|]. replace (Z.of_nat i + 1) with (Z.of_nat (S i)) by lia. apply IH. lia.
Qed.

Lemma ref_down_loop_ok test T i : decides (m := m) test T -> (i < length l)%nat -> ref_down_loop i (data_ r) test m = Ok (m, index (last_at (char_test l T) i)).
Proof using H.
  intros HT. induction i as [|i IH]; intros Hi; cbn [ref_down_loop last_at]; destruct (ref_char _ Hi) as (x & Ex & Er); rewrite (prog_bind _ _ _ _ _ Er), (prog_bind _ _ _ _ _ (HT x)).
  all: unfold char_test at 1; rewrite Ex; destruct (T x); try done. apply IH. lia.
Qed.

(** Upwards from [pos], and downwards from [pos] or the end. *)
Lemma starts_at_ok test T pos : decides (m := m) test T -> 0 <= pos -> starts_at r pos test m = Ok (m, index (first_at (char_test l T) (length l - Z.to_nat pos) (Z.to_nat pos))).
Proof using H.
  intros HT Hp. unfold starts_at. destruct H as (_ & El & _). rewrite El. replace (Z.to_nat (Z.of_nat (length l) - pos)) with (length l - Z.to_nat pos)%nat by lia.
  destruct (decide (Z.to_nat pos <= length l)%nat); [|replace (length l - Z.to_nat pos)%nat with 0%nat by lia; done]. pose proof (up_loop_ok test T (length l - Z.to_nat pos) (Z.to_nat pos) HT ltac:(lia)) as E. by rewrite Z2Nat.id in E by done.
Qed.

Lemma ends_at_ok test T pos : decides (m := m) test T -> 0 <= pos -> ends_at r pos test m = Ok (m, index (last_before (char_test l T) pos (length l))).
Proof using H.
  intros HT Hp. unfold ends_at, last_before. pose proof H as (_ & El & Hb). rewrite El. destruct (length l) as [|k] eqn:Ek; [done|]. rewrite (proj2 (Z.eqb_neq _ 0)) by lia. replace (Z.to_nat (last_index pos (Z.of_nat (S k)))) with (Z.to_nat (Z.min pos (Z.of_nat k))).
  - apply ref_down_loop_ok; [done|]. rewrite Ek. lia.
  - unfold last_index, npos, mem_size_max. destruct (Z.eqb_spec pos (2 ^ 64 - 1)), (Z.leb_spec (Z.of_nat (S k)) pos); cbn [orb]; lia.
Qed.

End View.

Section Sets.

Context {m : memory}.

Lemma contains_loop_ok set xs c (n k : nat) : chars_at m set xs -> (k + n = length xs)%nat -> contains_loop n set c (Z.of_nat k) m = Ok (m, bool_decide (c ∈ drop k xs)).
Proof.
  intros Hs. revert k. induction n as [|n IH]; intros k Hk; cbn [contains_loop].
  - rewrite drop_ge by lia. by rewrite bool_decide_false by (by apply not_elem_of_nil).
  - destruct (lookup_lt_is_Some_2 xs k ltac:(lia)) as [d Ed]. rewrite (prog_bind _ _ _ _ _ (char_at_ok m set xs k d Hs Ed)). rewrite (drop_S xs d k Ed). destruct (Z.eqb_spec d c) as [->|Hne].
    + by rewrite bool_decide_true by (by left).
    + replace (Z.of_nat k + 1) with (Z.of_nat (S k)) by lia. rewrite IH by lia. do 2 f_equal. apply bool_decide_ext. rewrite elem_of_cons. split; [by right|]. by intros [->|].
Qed.

Lemma ContainsChar_ok set xs : chars_at m set xs -> decides (m := m) (ContainsChar set (Z.of_nat (length xs))) (fun c => bool_decide (c ∈ xs)).
Proof. intros Hs c. unfold ContainsChar. rewrite Nat2Z.id. exact (contains_loop_ok set xs c (length xs) 0 Hs eq_refl). Qed.

Lemma outside_ok set xs : chars_at m set xs -> decides (m := m) (outside set (Z.of_nat (length xs))) (fun c => bool_decide (c ∉ xs)).
Proof. intros Hs c. unfold outside. rewrite (prog_bind _ _ _ _ _ (ContainsChar_ok set xs Hs c)). apply mret_eq. by rewrite bool_decide_not. Qed.

Lemma same_ok c : decides (m := m) (fun x => mret (x =? c)) (fun x => x =? c).
Proof. by intros x. Qed.

End Sets.

(** The null-terminated argument of a search. *)
Lemma argument_chars m p xs : argument (m := m) (Some p) xs -> chars_at m (At p) xs.
Proof. apply argument_readable. Qed.

Section Searches.

Context {m : memory} {r : StringRef} {l : list Z} (H : view_at m r l).

Lemma ref_find_last_of_ok set xs pos : argument (m := m) (Some set) xs -> 0 <= pos -> find_last_of r (Some set) pos m = Ok (m, index (last_before (char_test l (fun c => bool_decide (c ∈ xs))) pos (length l))).
Proof using H.
  intros Ha Hp. unfold find_last_of. pose proof H as (_ & El & _). rewrite El, size_zero. case_bool_decide as Hl; [by rewrite Hl|]. rewrite (prog_bind _ _ _ _ _ (argument_count _ _ Ha)). apply (ends_at_ok H); [|done]. by apply ContainsChar_ok, argument_chars.
Qed.

Lemma ref_find_first_of_ok set xs pos : argument (m := m) (Some set) xs -> 0 <= pos -> find_first_of r (Some set) pos m = Ok (m, index (first_at (char_test l (fun c => bool_decide (c ∈ xs))) (length l - Z.to_nat pos) (Z.to_nat pos))).
Proof using H.
  intros Ha Hp. unfold find_first_of. rewrite (prog_bind _ _ _ _ _ (argument_count _ _ Ha)). apply (starts_at_ok H); [|done]. by apply ContainsChar_ok, argument_chars.
Qed.

Lemma ref_find_first_not_of_ok set xs pos : argument (m := m) (Some set) xs -> 0 <= pos -> find_first_not_of r (Some set) pos m = Ok (m, index (first_at (char_test l (fun c => bool_decide (c ∉ xs))) (length l - Z.to_nat pos) (Z.to_nat pos))).
Proof using H.
  intros Ha Hp. unfold find_first_not_of. rewrite (prog_bind _ _ _ _ _ (argument_count _ _ Ha)). apply (starts_at_ok H); [|done]. by apply outside_ok, argument_chars.
Qed.

Lemma ref_find_last_not_of_ok set xs pos : argument (m := m) (Some set) xs -> 0 <= pos -> find_last_not_of r (Some set) pos m = Ok (m, index (last_before (char_test l (fun c => bool_decide (c ∉ xs))) pos (length l))).
Proof using H.
  intros Ha Hp. unfold find_last_not_of. rewrite (prog_bind _ _ _ _ _ (argument_count _ _ Ha)). apply (ends_at_ok H); [|done]. by apply outside_ok, argument_chars.
Qed.

Lemma view_part k n : (k + n <= length l)%nat -> readable m (advance_ptr (data_ r) (Z.of_nat k)) (take n (drop k l)).
Proof using H. intros Hk. apply readable_prefix, readable_from, H. Qed.

Lemma ref_occurs q s i : readable m q s -> (i + length s <= length l)%nat -> MemCompare (advance_ptr (data_ r) (Z.of_nat i)) q (length s) m = Ok (m, compare_numbers (take (length s) (drop i l)) s) /\
  (compare_numbers (take (length s) (drop i l)) s =? 0) = occurs l s i.
Proof using H.
  intros Hq Hi. assert (El : length (take (length s) (drop i l)) = length s) by (rewrite length_take, length_drop; lia). split.
  - rewrite <- El at 1. by apply MemCompare_ok; [apply view_part| |].
  - by rewrite compare_numbers_eq.
Qed.

Lemma rfind_chars_loop_ok q s i : readable m q s -> (i + length s <= length l)%nat -> rfind_chars_loop i (data_ r) q (Z.of_nat (length s)) m = Ok (m, index (last_at (occurs l s) i)).
Proof using H.
  intros Hq. induction i as [|i IH]; intros Hi; cbn [rfind_chars_loop last_at]; destruct (ref_occurs q s _ Hq Hi) as [E1 E2]; rewrite Nat2Z.id, (prog_bind _ _ _ _ _ E1), E2.
  - by destruct (occurs l s 0).
  - destruct (occurs l s (S i)); [done|]. apply IH. lia.
Qed.

Lemma ref_rfind_cstr_ok s xs pos : argument (m := m) (Some s) xs -> 0 <= pos -> rfind_cstr r (Some s) pos m = Ok (m, index (last_at (occurs l xs) (Z.to_nat (Z.min pos (Z.of_nat (length l)))))).
Proof using H.
  intros Ha Hp. unfold rfind_cstr. pose proof H as (_ & El & Hb). rewrite (prog_bind _ _ _ _ _ (argument_count _ _ Ha)), El. set (i := Z.to_nat (Z.min pos (Z.of_nat (length l)))). destruct (decide (xs = [])) as [->|Hx].
  { change (Z.of_nat (length []) =? 0) with true. cbv iota. assert (E : last_at (occurs l []) i = Some i) by (destruct i; unfold last_at, occurs; cbn [length take]; by rewrite bool_decide_true). rewrite E. apply mret_eq. unfold index, i. destruct (Z.ltb_spec pos (Z.of_nat (length l))); lia. }
  rewrite size_zero, bool_decide_false by done. destruct (Z.ltb_spec (Z.of_nat (length l)) (Z.of_nat (length xs))) as [Hlt|Hge].
  { apply mret_eq. pose proof (last_at_spec (occurs l xs) i) as Hs. destruct (last_at _ _) as [j|]; [|done]. destruct Hs as (Hj & E & _). rewrite occurs_short in E; [done|lia|done]. }
  cbv zeta. set (k := if (pos =? npos) || _ then _ else pos). assert (Ek : Z.to_nat k = Z.to_nat (Z.min pos (Z.of_nat (length l) - Z.of_nat (length xs)))).
  { unfold k, npos, mem_size_max. destruct (Z.eqb_spec pos (2 ^ 64 - 1)), (Z.ltb_spec (Z.of_nat (length l) - Z.of_nat (length xs)) pos); cbn [orb]; lia. }
  rewrite Ek, (rfind_chars_loop_ok s xs _ (argument_readable _ _ Ha)) by lia. do 3 f_equal. symmetry. apply last_at_cut; [unfold i; lia|]. intros j Hj. apply occurs_short; [lia|done].
Qed.

Lemma ref_find_ok needle xs pos : chars_at m needle xs -> l <> [] -> xs <> [] -> Z.of_nat (length xs) < 2 ^ 64 -> 0 <= pos < 2 ^ 64 ->
  StringSearch (data_ r) (length_ r) needle pos (Z.of_nat (length xs)) m = Ok (m, index (first_at (occurs l xs) (length l - Z.to_nat pos) (Z.to_nat pos))).
Proof using H. intros Hc Hl Hx Hf Hp. destruct H as (Hr & -> & Hb). apply StringSearch_ok; (done || lia). Qed.

End Searches.

(** ** Order *)

Section Order.

Context {m : memory} {r1 r2 : StringRef} {l1 l2 : list Z} (H1 : view_at m r1 l1) (H2 : view_at m r2 l2).

Lemma common_compare : let n := Nat.min (length l1) (length l2) in MemCompare (data_ r1) (data_ r2) n m = Ok (m, compare_numbers (take n l1) (take n l2)).
Proof using H1 H2.
  cbv zeta. destruct H1 as (Hr1 & _), H2 as (Hr2 & _). set (n := Nat.min _ _). assert (El : length (take n l1) = n) by (rewrite length_take; unfold n; lia). rewrite <- El at 1.
  apply MemCompare_ok; [by apply readable_prefix|by apply readable_prefix|]. rewrite El, length_take. unfold n. lia.
Qed.

Lemma ref_equal_ok : equal r1 r2 m = Ok (m, bool_decide (l1 = l2)).
Proof using H1 H2.
  unfold equal. destruct H1 as (Hr1 & -> & _), H2 as (Hr2 & -> & _). destruct (Z.eqb_spec (Z.of_nat (length l1)) (Z.of_nat (length l2))) as [E|E]; cbn [negb].
  - rewrite Nat2Z.id, (prog_bind _ _ _ _ _ (MemCompare_ok m _ _ l1 l2 Hr1 Hr2 ltac:(lia))). apply mret_eq. apply compare_numbers_eq. lia.
  - apply mret_eq. rewrite bool_decide_false; [done|]. intros ->. done.
Qed.

Lemma min_length : Z.to_nat (if Z.of_nat (length l1) <? Z.of_nat (length l2) then Z.of_nat (length l1) else Z.of_nat (length l2)) = Nat.min (length l1) (length l2).
Proof using Type. destruct (Z.ltb_spec (Z.of_nat (length l1)) (Z.of_nat (length l2))); lia. Qed.

Lemma ref_less_ok : less r1 r2 m = Ok (m, lex_compare l1 l2 <? 0).
Proof using H1 H2.
  unfold less. pose proof common_compare as E. cbv zeta in E. destruct H1 as (_ & -> & _), H2 as (_ & -> & _). rewrite min_length, (prog_bind _ _ _ _ _ E). apply mret_eq. rewrite <- (lex_compare_split l1 l2). cbv zeta.
  destruct (compare_numbers _ _ =? 0); cbn [negb]; [|done]. destruct (Z.ltb_spec (Z.of_nat (length l1)) (Z.of_nat (length l2))); [done|]. by destruct (Z.of_nat (length l2) <? Z.of_nat (length l1)).
Qed.

Lemma compare_to_ok : compare_to r1 r2 m = Ok (m, lex_compare l1 l2).
Proof using H1 H2.
  unfold compare_to. pose proof common_compare as E. cbv zeta in E. destruct H1 as (_ & -> & _), H2 as (_ & -> & _). cbv zeta. set (k := if _ <? _ then Z.of_nat (length l1) else _).
  assert (Ek : Z.to_nat k = Nat.min (length l1) (length l2)) by apply min_length. rewrite (prog_bind _ _ m m (compare_numbers (take (Nat.min (length l1) (length l2)) l1) (take (Nat.min (length l1) (length l2)) l2))).
  - apply mret_eq. rewrite <- (lex_compare_split l1 l2). cbv zeta. destruct (compare_numbers _ _ =? 0); cbn [negb]; [|done].
    destruct (Z.eqb_spec (Z.of_nat (length l1)) (Z.of_nat (length l2))), (Z.ltb_spec (Z.of_nat (length l1)) (Z.of_nat (length l2))), (Z.ltb_spec (Z.of_nat (length l2)) (Z.of_nat (length l1))); (done || lia).
  - rewrite Ek. destruct (Z.ltb_spec 0 k); [done|]. replace (Nat.min (length l1) (length l2)) with 0%nat by lia. done.
Qed.

End Order.

(** ** The null behind the text *)

(** What the flag promises, for texts without a null in them. *)
Definition null_ok (m : memory) (r : StringRef) (l : list Z) : Prop := view_at m r l /\ (0 ∉ l) /\ (is_null_term r = true -> cstring_at m (data_ r) l).

Lemma until_zero_free zs : 0 ∉ zs -> until_zero zs = zs.
Proof. induction zs as [|z zs IH]; [done|]. intros [Hne Hz]%not_elem_of_cons. cbn [until_zero]. rewrite (proj2 (Z.eqb_neq z 0)) by congruence. by rewrite IH. Qed.

Lemma until_zero_end l : 0 ∉ l -> until_zero (l ++ [0]) = l.
Proof. induction l as [|z l IH]; [done|]. intros [Hne Hz]%not_elem_of_cons. cbn. rewrite (proj2 (Z.eqb_neq z 0)) by congruence. by rewrite IH. Qed.

Lemma of_data_ok m p l : readable m p l -> 0 ∉ l -> Z.of_nat (length l) < 2 ^ 32 -> of_data p (Z.of_nat (length l)) m = Ok (m, mkRef p (Z.of_nat (length l)) false).
Proof.
  intros Hr Hz Hb. unfold of_data. rewrite (prog_bind _ _ _ _ _ (FindNullTerminator_ok m p l Hr)). rewrite until_zero_free, Nat.ltb_irrefl by done. apply mret_eq. by rewrite wrap_small by (unfold fits; lia).
Qed.

Lemma cstring_ends m p l : cstring_at m p l -> readable m p (l ++ [0]) /\ (0 ∉ l).
Proof.
  intros (zs & Hr & <- & Hl). assert (Ht : take (S (length (until_zero zs))) zs = until_zero zs ++ [0] /\ (0 ∉ until_zero zs)).
  { clear Hr. induction zs as [|z zs IH]; [cbn in Hl; lia|]. cbn [until_zero] in *. destruct (Z.eqb_spec z 0) as [->|Hne]; [split; [done|by apply not_elem_of_nil]|]. cbn [length] in *. destruct (IH ltac:(lia)) as [E Hz]. split; [|apply not_elem_of_cons; split; [congruence|done]].
    rewrite firstn_cons, E. done. }
  destruct Ht as [<- Hz]. split; [by apply readable_prefix|done].
Qed.

Lemma ends_cstring m p l : readable m p (l ++ [0]) -> 0 ∉ l -> cstring_at m p l.
Proof.
  intros Hr Hz. exists (l ++ [0]). split; [done|]. split; [by apply until_zero_end|rewrite length_app; cbn; lia].
Qed.

(** The constructors. *)
Lemma default_null_ok m s : readable m s [0] -> null_ok m (default_ref s) [].
Proof. intros Hr. split; [split; [by left|done]|]. split; [by apply not_elem_of_nil|]. intros _. by apply ends_cstring; [|apply not_elem_of_nil]. Qed.

Lemma of_string_null_ok m this lay l : string_at m this lay l -> 0 ∉ l -> Z.of_nat (length l) < 2 ^ 32 -> exists r, of_string this m = Ok (m, r) /\ null_ok m r l.
Proof.
  intros H Hz Hb. exists (mkRef (buffer_of this lay, 0%nat) (Z.of_nat (length l)) true). split.
  - unfold of_string. rewrite (prog_bind _ _ _ _ _ (string_data H)), (prog_bind _ _ _ _ _ (string_size H)), (prog_bind _ _ _ _ _ (byte_size_ok _ _ _ H)). rewrite (prog_bind _ _ m m ()).
    + apply mret_eq. by rewrite wrap_small by (unfold fits; lia).
    + unfold bug_check, lift. rewrite (proj2 (Z.leb_le _ _)); [done|]. change max_size_characters with (2 ^ 32 - 1). lia.
  - split; [split; [by apply (readable_text m this lay)|done]|]. split; [done|]. intros _. destruct (string_argument this lay l H) as [Hc _]. cbn [argument] in Hc.
    by rewrite until_zero_end in Hc.
Qed.

Lemma of_cstr_null_ok m p l : cstring_at m p l -> Z.of_nat (length l) < 2 ^ 32 - 1 -> of_cstr p m = Ok (m, mkRef p (Z.of_nat (length l)) (bool_decide (l <> []))) /\ null_ok m (mkRef p (Z.of_nat (length l)) (bool_decide (l <> []))) l.
Proof.
  intros Hc Hb. destruct (cstring_ends m p l Hc) as [Hr Hz]. pose proof (until_zero_end l Hz) as Hu. split.
  - unfold of_cstr. destruct (l ++ [0]) as [|z zs] eqn:Ez; [by destruct l|]. rewrite (prog_bind _ _ m m (Z.of_nat (length l))).
    2: { rewrite (CountStringLength_ok m p z zs max_size_bytes Hr); [by rewrite Hu, Z.min_r by (unfold max_size_bytes; lia)| |done]. left. rewrite Hu, <- Ez, length_app. cbn. lia. }
    cbv zeta. rewrite wrap_small by (unfold fits; lia). destruct (Z.ltb_spec 0 (Z.of_nat (length l))) as [Hl|Hl].
    + rewrite wrap_small by (unfold fits; lia). replace (Z.of_nat (length l) + 1) with (Z.of_nat (length (l ++ [0]))) by (rewrite length_app; cbn; lia). rewrite Ez. rewrite (prog_bind _ _ _ _ _ (FindNullTerminator_ok m p (z :: zs) Hr)), Hu, <- Ez, length_app. cbn [length]. rewrite (proj2 (Nat.ltb_lt _ _)) by lia.
      apply mret_eq. rewrite (proj2 (Z.eqb_neq _ 0)) by lia. rewrite bool_decide_true; [done|]. by destruct l.
    + destruct l; [|cbn in Hl; lia]. done.
  - split; [split; [by apply cstring_readable|cbn; split; [done|lia]]|]. split; [done|]. by intros _.
Qed.

Lemma part_elem (x : Z) n k l : x ∈ take n (drop k l) -> x ∈ l.
Proof. intros H. rewrite <- (take_drop k l). apply elem_of_app. right. rewrite <- (take_drop n (drop k l)). apply elem_of_app. by left. Qed.

Lemma subslice_ok m r l pos count : null_ok m r l -> 0 <= pos -> 0 <= count ->
  exists r', subslice r pos count m = Ok (m, r') /\ null_ok m r' (take (Z.to_nat count) (drop (Z.to_nat pos) l)).
Proof.
  intros ((Hr & El & Hb) & Hz & _) Hp Hc. unfold subslice. rewrite El. set (k := Nat.min (Z.to_nat pos) (length l)). replace (if Z.of_nat (length l) <? pos then Z.of_nat (length l) else pos) with (Z.of_nat k) by (unfold k; destruct (Z.ltb_spec (Z.of_nat (length l)) pos); lia).
  assert (Ed : drop (Z.to_nat pos) l = drop k l) by (unfold k; destruct (decide (Z.to_nat pos <= length l)%nat); [by rewrite Nat.min_l by lia|rewrite !drop_ge by lia; done]). rewrite Ed. cbv zeta. set (xs := take (Z.to_nat count) (drop k l)).
  assert (Ex : Z.of_nat (length xs) = if Z.of_nat (length l) - Z.of_nat k <? count then Z.of_nat (length l) - Z.of_nat k else count) by (unfold xs; rewrite length_take, length_drop; destruct (Z.ltb_spec (Z.of_nat (length l) - Z.of_nat k) count); lia).
  rewrite <- Ex. assert (Hrx : readable m (advance_ptr (data_ r) (Z.of_nat k)) xs) by (by apply readable_prefix, readable_from). assert (Hzx : 0 ∉ xs) by (intros Hin; by apply Hz, (part_elem _ (Z.to_nat count) k)).
  assert (Hbx : Z.of_nat (length xs) < 2 ^ 32) by (unfold xs; rewrite length_take, length_drop; lia). eexists. split; [by apply of_data_ok|]. split; [by split|]. by split.
Qed.

Lemma ref_remove_suffix_ok m r l n : null_ok m r l -> 0 <= n <= Z.of_nat (length l) -> exists r', remove_suffix r n m = Ok (m, r') /\ null_ok m r' (take (length l - Z.to_nat n) l).
Proof.
  intros ((Hr & El & Hb) & Hz & _) Hn. unfold remove_suffix. rewrite El, (prog_bind _ _ m m ()) by (unfold bug_check, lift; by rewrite (proj2 (Z.leb_le _ _)) by lia). rewrite !wrap_small by (unfold fits; try rewrite wrap_small by (unfold fits; lia); lia).
  eexists. split; [done|]. split; [|split; [intros Hin; apply Hz; apply (part_elem _ (length l - Z.to_nat n) 0); by rewrite drop_0|done]]. split; [by apply readable_prefix|]. cbn [length_]. rewrite length_take. lia.
Qed.

Lemma remove_prefix_ok m r l n : null_ok m r l -> 0 <= n <= Z.of_nat (length l) -> exists r', remove_prefix r n m = Ok (m, r') /\ null_ok m r' (drop (Z.to_nat n) l) /\ is_null_term r' = is_null_term r.
Proof.
  intros ((Hr & El & Hb) & Hz & Hc) Hn. unfold remove_prefix. rewrite El, (prog_bind _ _ m m ()) by (unfold bug_check, lift; by rewrite (proj2 (Z.leb_le _ _)) by lia). rewrite !wrap_small by (unfold fits; try rewrite wrap_small by (unfold fits; lia); lia).
  eexists. split; [done|]. split; [|done]. assert (Hz' : 0 ∉ drop (Z.to_nat n) l) by (intros Hin; apply Hz; rewrite <- (take_drop (Z.to_nat n) l); apply elem_of_app; by right). rewrite <- (Z2Nat.id n) by lia. split; [|split; [by rewrite Nat2Z.id|]].
  - rewrite Nat2Z.id. split; [rewrite <- (Nat2Z.id (Z.to_nat n)) at 2; rewrite Nat2Z.id; by apply readable_from|]. cbn [length_]. rewrite length_drop. lia.
  - cbn [is_null_term data_]. intros Ht. destruct (cstring_ends _ _ _ (Hc Ht)) as [Hr0 _]. rewrite Nat2Z.id. apply ends_cstring; [|done]. pose proof (readable_from m (data_ r) (l ++ [0]) (Z.to_nat n) Hr0) as Hd. by rewrite drop_app_le in Hd by lia.
Qed.

(** C30. Views of text without a null in it keep their promise: slices and prefixes removed show
    what they should and are flagged only with a null behind their text, so that [c_str]
    either refuses or gives a null-terminated string that is exactly the text. *)
Theorem StringRef_null_terminated m r l pos count n : null_ok m r l -> 0 <= pos -> 0 <= count -> 0 <= n <= Z.of_nat (length l) ->
  (exists s, subslice r pos count m = Ok (m, s) /\ null_ok m s (take (Z.to_nat count) (drop (Z.to_nat pos) l))) /\
  (exists s, remove_prefix r n m = Ok (m, s) /\ null_ok m s (drop (Z.to_nat n) l) /\ is_null_term s = is_null_term r) /\
  (exists s, remove_suffix r n m = Ok (m, s) /\ null_ok m s (take (length l - Z.to_nat n) l)) /\
  (is_null_term r = true -> exists p, c_str r m = Ok (m, p) /\ cstring_at m p l).
Proof.
  intros H Hp Hc Hn. split; [by apply subslice_ok|]. split; [by apply remove_prefix_ok|]. split; [by apply ref_remove_suffix_ok|]. intros Ht. destruct H as (_ & _ & Hs). exists (data_ r). split; [|by apply Hs]. unfold c_str. by rewrite Ht.
Qed.

(** The comparisons of two views are those of the texts: equality, and the order of the first
    different character or else of the lengths. *)
Theorem StringRef_order m r1 r2 l1 l2 : view_at m r1 l1 -> view_at m r2 l2 ->
  equal r1 r2 m = Ok (m, bool_decide (l1 = l2)) /\ not_equal r1 r2 m = Ok (m, bool_decide (l1 <> l2)) /\ compare_to r1 r2 m = Ok (m, lex_compare l1 l2) /\
  less r1 r2 m = Ok (m, lex_compare l1 l2 <? 0) /\ less_equal r1 r2 m = Ok (m, negb (lex_compare l2 l1 <? 0)) /\ greater r1 r2 m = Ok (m, lex_compare l2 l1 <? 0) /\ greater_equal r1 r2 m = Ok (m, negb (lex_compare l1 l2 <? 0)).
Proof.
  intros H1 H2. split; [by apply ref_equal_ok|]. split; [unfold not_equal; rewrite (prog_bind _ _ _ _ _ (ref_equal_ok H1 H2)); apply mret_eq; by rewrite bool_decide_not|]. split; [by apply compare_to_ok|]. split; [by apply ref_less_ok|].
  split; [unfold less_equal; by rewrite (prog_bind _ _ _ _ _ (ref_less_ok H2 H1))|]. split; [by apply ref_less_ok|]. unfold greater_equal. by rewrite (prog_bind _ _ _ _ _ (ref_less_ok H1 H2)).
Qed.

(** Every search of a view gives the least, or the greatest, position that it should. *)
Theorem StringRef_searches m r l p xs pos : view_at m r l -> argument (m := m) (Some p) xs -> l <> [] -> xs <> [] -> 0 <= pos < 2 ^ 64 ->
  find_chars r p pos (Z.of_nat (length xs)) m = Ok (m, index (first_at (occurs l xs) (length l - Z.to_nat pos) (Z.to_nat pos))) /\
  rfind_cstr r (Some p) pos m = Ok (m, index (last_at (occurs l xs) (Z.to_nat (Z.min pos (Z.of_nat (length l)))))) /\
  find_first_of r (Some p) pos m = Ok (m, index (first_at (char_test l (fun c => bool_decide (c ∈ xs))) (length l - Z.to_nat pos) (Z.to_nat pos))) /\
  find_first_not_of r (Some p) pos m = Ok (m, index (first_at (char_test l (fun c => bool_decide (c ∉ xs))) (length l - Z.to_nat pos) (Z.to_nat pos))) /\
  find_last_of r (Some p) pos m = Ok (m, index (last_before (char_test l (fun c => bool_decide (c ∈ xs))) pos (length l))) /\
  find_last_not_of r (Some p) pos m = Ok (m, index (last_before (char_test l (fun c => bool_decide (c ∉ xs))) pos (length l))).
Proof.
  intros H Ha Hl Hx Hp. split; [|split; [|split; [|split; [|split]]]].
  - apply (ref_find_ok H (At p) xs pos); try done; [by apply argument_readable|]. destruct Ha as [_ Hk]. unfold kNoLimit, mem_size_max in Hk. lia.
  - apply (ref_rfind_cstr_ok H); [done|lia].
  - apply (ref_find_first_of_ok H); [done|lia].
  - apply (ref_find_first_not_of_ok H); [done|lia].
  - apply (ref_find_last_of_ok H); [done|lia].
  - apply (ref_find_last_not_of_ok H); [done|lia].
Qed.

(** ** Examples *)

(** "abcab", "bc" and "a\0bc" without a null at its end; object storage at 3. *)
Definition ref_memory : memory :=
  mkMemory {[0%nat := (false, Byte <$> [97; 98; 99; 97; 98; 0]); 1%nat := (false, Byte <$> [98; 99; 0]); 2%nat := (false, Byte <$> [97; 0; 98; 99]); 3%nat := (false, replicate 24 Uninit)]} 4.

Definition text_ref : StringRef := mkRef (0%nat, 0%nat) 5 true.

Lemma ref_block a zs : blocks ref_memory !! a = Some (false, Byte <$> zs) -> readable ref_memory (a, 0%nat) zs.
Proof. intros E. right. exists false, (Byte <$> zs). split; [done|]. cbn [snd]. rewrite drop_0, length_fmap. split; [done|]. by rewrite <- (length_fmap Byte zs), firstn_all. Qed.

Lemma text_view : view_at ref_memory text_ref [97; 98; 99; 97; 98].
Proof. split; [|done]. exact (readable_prefix ref_memory (0%nat, 0%nat) [97; 98; 99; 97; 98; 0] 5 (ref_block 0 _ eq_refl)). Qed.

Lemma text_null_ok : null_ok ref_memory text_ref [97; 98; 99; 97; 98].
Proof. split; [apply text_view|]. assert (Hz : 0 ∉ [97; 98; 99; 97; 98]) by (by apply (bool_decide_unpack _)). split; [done|]. intros _. apply ends_cstring; [|done]. exact (ref_block 0 [97; 98; 99; 97; 98; 0] eq_refl). Qed.

Lemma set_argument : argument (m := ref_memory) (Some (1%nat, 0%nat)) [98; 99].
Proof. split; [|done]. apply ends_cstring; [exact (ref_block 1 [98; 99; 0] eq_refl)|by apply (bool_decide_unpack _)]. Qed.

Example StringRef_null_terminated_witness :
  (exists s, subslice text_ref 1 2 ref_memory = Ok (ref_memory, s) /\ null_ok ref_memory s [98; 99]) /\
  (exists p, c_str text_ref ref_memory = Ok (ref_memory, p) /\ cstring_at ref_memory p [97; 98; 99; 97; 98]).
Proof.
  destruct (StringRef_null_terminated ref_memory text_ref _ 1 2 0 text_null_ok ltac:(done) ltac:(done) ltac:(done)) as (H1 & _ & _ & H4). split; [exact H1|]. exact (H4 eq_refl).
Defined.

Example StringRef_order_witness : compare_to text_ref text_ref ref_memory = Ok (ref_memory, 0) /\ less text_ref text_ref ref_memory = Ok (ref_memory, false).
Proof. destruct (StringRef_order ref_memory text_ref text_ref _ _ text_view text_view) as (_ & _ & H3 & H4 & _). split; [exact H3|exact H4]. Defined.

Example StringRef_searches_witness :
  find_chars text_ref (1%nat, 0%nat) 0 2 ref_memory = Ok (ref_memory, 1) /\ find_first_of text_ref (Some (1%nat, 0%nat)) 2 ref_memory = Ok (ref_memory, 2) /\ find_last_not_of text_ref (Some (1%nat, 0%nat)) npos ref_memory = Ok (ref_memory, 3).
Proof.
  destruct (StringRef_searches ref_memory text_ref _ (1%nat, 0%nat) _ 0 text_view set_argument ltac:(done) ltac:(done) ltac:(done)) as (H1 & _).
  destruct (StringRef_searches ref_memory text_ref _ (1%nat, 0%nat) _ 2 text_view set_argument ltac:(done) ltac:(done) ltac:(done)) as (_ & _ & H2 & _).
  destruct (StringRef_searches ref_memory text_ref _ (1%nat, 0%nat) _ npos text_view set_argument ltac:(done) ltac:(done) ltac:(done)) as (_ & _ & _ & _ & _ & H3).
  split; [exact H1|]. split; [exact H2|exact H3].
Defined.

(** The constructor from characters and a length looks for the null inside the length: a literal
    is not flagged, so its [c_str] is refused. *)
Example literal_not_flagged : (r ← of_data (0%nat, 0%nat) 5; c_str r) ref_memory = Undef.
Proof. reflexivity. Qed.

Example empty_not_flagged : match of_cstr (0%nat, 5%nat) ref_memory with Ok (_, r) => is_null_term r | _ => true end = false.
Proof. reflexivity. Qed.

(** A null inside sets the flag, and taking the part in front of it off keeps it: [c_str] then gives
    a string that is not terminated. *)
Example remove_prefix_stale : (r ← of_data (2%nat, 0%nat) 4; r ← remove_prefix r 2; p ← c_str r; CountStringLength p kNoLimit) ref_memory = Undef.
Proof. vm_compute. reflexivity. Qed.

(** The copy reads the character behind the slice. *)
Example copy_reads_past : (r ← of_view (2%nat, 0%nat) 4; MakeStringCopy (fun _ => true) 3 r false) ref_memory = Undef.
Proof. vm_compute. reflexivity. Qed.

(** With [sizeof(TChar)] 2 the comparison is that of the little endian bytes: 0x100 is before 0xff. *)
Example wide_order : compare_numbers (bytes_of 2 256) (bytes_of 2 255) = -1.
Proof. reflexivity. Qed.
