(* ===== verification/SharedPointer.v ===== *)
(** * base::SharedPointer (memory/shared_pointer.h)

    [SharedPointer] objects at addresses, the control blocks they share, and threads that run
    the member functions in any order.  A step is one access to the atomic count of a block or
    the work a thread does on its own [SharedPointer] objects between two such accesses.

    As for [std::shared_ptr] only the count is safe for concurrent use: two threads may not
    use one [SharedPointer] object at a time unless both only read it.  [may_call] is that
    rule; [racing_copy] shows what happens without it. *)

From stdpp Require Import gmap.
From S2P Require Import Prelude Memory.

Set Default Proof Using "Type".
#[local] Open Scope Z_scope.

(** Fewer objects of sixteen bytes than this fit into the address space. *)
Definition kMaxObjects : Z := 2 ^ 60.

(** [pointer_] is a block and the offset of the subobject it was converted to. *)
Record Shared := mkShared { pointer_ : option (nat * Z); control_ : option nat }.

(** What remains of a member function.  [Init], [CopyFields], [MoveFields] and [New] begin the
    lifetime of an object, [End] ends it. *)
Inductive instr :=
  | Init (this : nat)
  | CopyFields (this other : nat) (up : Z)
  | MoveFields (this other : nat) (up : Z)
  | New (this : nat) (v : Z)
  | Retain (this : nat)
  | SwapFields (this other : nat)
  | Release (this : nat)
  | Destroy (b : nat)
  | SetNull (this : nat)
  | End_ (this : nat).

(** The member functions; [up] is what a conversion to a base class adds to a pointer, and
    [tmp] the temporary of the assignment operators. *)
Inductive op :=
  | Construct (this : nat)
  | CopyConstruct (this other : nat) (up : Z)
  | MoveConstruct (this other : nat) (up : Z)
  | Destruct (this : nat)
  | CopyAssign (this other tmp : nat)
  | MoveAssign (this other tmp : nat)
  | Reset (this : nat)
  | Swap (this other : nat)
  | MakeShared (this : nat) (v : Z).

#[export] Instance Shared_eq_dec : EqDecision Shared.
Proof. solve_decision. Defined.
#[export] Instance instr_eq_dec : EqDecision instr.
Proof. solve_decision. Defined.
#[export] Instance op_eq_dec : EqDecision op.
Proof. solve_decision. Defined.

Definition copy_construct (this other : nat) (up : Z) : list instr := [CopyFields this other up; Retain this].
Definition move_construct (this other : nat) (up : Z) : list instr := [MoveFields this other up].
Definition destruct_ (this : nat) : list instr := [Release this; End_ this].

(** An assignment builds a temporary, swaps it with [*this] and destroys it. *)
Definition copy_assign (this other tmp : nat) : list instr := copy_construct tmp other 0 ++ [SwapFields tmp this] ++ destruct_ tmp.
Definition move_assign (this other tmp : nat) : list instr := move_construct tmp other 0 ++ [SwapFields tmp this] ++ destruct_ tmp.

(** [Reset], and the assignment of [nullptr]. *)
Definition reset (this : nat) : list instr := [Release this; SetNull this].

Definition code (o : op) : list instr :=
  match o with
  | Construct this => [Init this]
  | CopyConstruct this other up => copy_construct this other up
  | MoveConstruct this other up => move_construct this other up
  | Destruct this => destruct_ this
  | CopyAssign this other tmp => copy_assign this other tmp
  | MoveAssign this other tmp => move_assign this other tmp
  | Reset this => reset this
  | Swap this other => [SwapFields this other]
  | MakeShared this v => [New this v]
  end.

(** The objects an operation creates, the existing ones it writes, and those it only reads. *)
Definition births (o : op) : list nat :=
  match o with
  | Construct this | CopyConstruct this _ _ | MoveConstruct this _ _ | MakeShared this _ => [this]
  | CopyAssign _ _ tmp | MoveAssign _ _ tmp => [tmp]
  | _ => []
  end.
Definition changes (o : op) : list nat :=
  match o with
  | Construct _ | CopyConstruct _ _ _ | MakeShared _ _ => []
  | MoveConstruct _ other _ => [other]
  | Destruct this | CopyAssign this _ _ | Reset this => [this]
  | MoveAssign this other _ | Swap this other => [this; other]
  end.
Definition reads (o : op) : list nat :=
  match o with CopyConstruct _ other _ | CopyAssign _ other _ => [other] | _ => [] end.
Definition writes (o : op) : list nat := births o ++ changes o.

Record Block := mkBlock { refs : Z; value : Z }.
Record Thread := mkThread { running : op; todo : list instr }.

(** [destroyed] lists the blocks whose destructor has run, the last first. *)
Record Sys := mkSys {
  objects : gmap nat Shared;
  blocks : gmap nat Block;
  next_block : nat;
  destroyed : list nat;
  threads : gmap nat Thread }.

Definition set_objects (s : Sys) m : Sys := mkSys m (blocks s) (next_block s) (destroyed s) (threads s).
Definition set_blocks (s : Sys) m : Sys := mkSys (objects s) m (next_block s) (destroyed s) (threads s).
Definition set_threads (s : Sys) m : Sys := mkSys (objects s) (blocks s) (next_block s) (destroyed s) m.

Definition object (s : Sys) (h : nat) : res Shared := match objects s !! h with Some p => Ok p | None => Undef end.
Definition block (s : Sys) (b : nat) : res Block := match blocks s !! b with Some k => Ok k | None => Undef end.
Definition is_new (s : Sys) (h : nat) : bool := bool_decide (objects s !! h = None).

Definition null : Shared := mkShared None None.

(** A null pointer stays null when it is converted. *)
Definition convert (up : Z) (p : Shared) : Shared := mkShared ((fun '(b, off) => (b, off + up)) <$> pointer_ p) (control_ p).

(** [fetch_add] and [fetch_sub] on the count of a block, with the value before. *)
Definition fetch_refs (s : Sys) (b : nat) (d : Z) : res (Sys * Z) :=
  k ← block s b; Ok (set_blocks s (<[b := mkBlock (u64 (refs k + d)) (value k)]> (blocks s)), refs k).

(** One instruction; the result is the state and what must be done before the rest. *)
Definition exec (s : Sys) (i : instr) : res (Sys * list instr) :=
  match i with
  | Init this => if is_new s this then Ok (set_objects s (<[this := null]> (objects s)), []) else Undef
  | CopyFields this other up =>
      p ← object s other;
      if is_new s this then Ok (set_objects s (<[this := convert up p]> (objects s)), []) else Undef
  | MoveFields this other up =>
      p ← object s other;
      if is_new s this then Ok (set_objects s (<[other := null]> (<[this := convert up p]> (objects s))), []) else Undef
  | New this v =>
      let b := next_block s in
      if is_new s this then Ok (mkSys (<[this := mkShared (Some (b, 0)) (Some b)]> (objects s)) (<[b := mkBlock 1 v]> (blocks s)) (S b) (destroyed s) (threads s), []) else Undef
  | Retain this =>
      p ← object s this;
      match control_ p with Some b => '(s, _) ← fetch_refs s b 1; Ok (s, []) | None => Ok (s, []) end
  | SwapFields this other =>
      p ← object s this; q ← object s other;
      Ok (set_objects s (<[other := p]> (<[this := q]> (objects s))), [])
  | Release this =>
      p ← object s this;
      match control_ p with
      | Some b => '(s, old) ← fetch_refs s b (-1); Ok (s, if old =? 1 then [Destroy b] else [])
      | None => Ok (s, [])
      end
  | Destroy b =>
      k ← block s b;
      Ok (mkSys (objects s) (delete b (blocks s)) (next_block s) (b :: destroyed s) (threads s), [])
  | SetNull this => p ← object s this; Ok (set_objects s (<[this := null]> (objects s)), [])
  | End_ this => p ← object s this; Ok (set_objects s (delete this (objects s)), [])
  end.

(** No data race between two operations. *)
Definition race_free (o o' : op) : Prop :=
  Forall (fun h => h ∉ writes o' ++ reads o') (writes o) /\ Forall (fun h => h ∉ writes o') (reads o).

(** What a caller must see to: the objects it uses exist, the ones it creates do not, and no
    other thread is in a call that conflicts. *)
Definition may_call (s : Sys) (o : op) : Prop :=
  Forall (fun h => objects s !! h = None /\ Z.of_nat h < kMaxObjects) (births o) /\
  Forall (fun h => is_Some (objects s !! h)) (changes o ++ reads o) /\
  map_Forall (fun _ th => race_free o (running th)) (threads s).

#[export] Instance race_free_dec o o' : Decision (race_free o o').
Proof. apply _. Defined.
#[export] Instance may_call_dec s o : Decision (may_call s o).
Proof. apply _. Defined.

Inductive choice := Call (o : op) | Go.

(** The thread is between calls when nothing remains to be done. *)
Definition resume (s : Sys) (t : nat) (o : op) (l : list instr) : Sys :=
  set_threads s (match l with [] => delete t (threads s) | _ => <[t := mkThread o l]> (threads s) end).

(** [None] where the choice does not apply. *)
Definition step (s : Sys) (t : nat) (c : choice) : option (res Sys) :=
  match threads s !! t, c with
  | None, Call o => if decide (may_call s o) then Some (Ok (resume s t o (code o))) else None
  | Some (mkThread o (i :: l)), Go => Some ('(s, l') ← exec s i; Ok (resume s t o (l' ++ l)))
  | _, _ => None
  end.

(** ** The accessors *)

Definition get (p : Shared) : option (nat * Z) := pointer_ p.
Definition to_bool (p : Shared) : bool := bool_decide (pointer_ p <> None).
Definition equal (p q : Shared) : bool := bool_decide (pointer_ p = pointer_ q).

(** [operator*] and [operator->] on the whole object. *)
Definition deref (s : Sys) (p : Shared) : res Z :=
  match pointer_ p with Some (b, _) => k ← block s b; Ok (value k) | None => Undef end.

Definition use_count (s : Sys) (p : Shared) : res Z :=
  match control_ p with Some b => k ← block s b; Ok (refs k) | None => Ok 0 end.

(** ** Reachable states *)

Definition start : Sys := mkSys ∅ ∅ 0 [] ∅.

Inductive reachable : Sys -> Prop :=
  | reach_start : reachable start
  | reach_step s t c s' : reachable s -> step s t c = Some (Ok s') -> reachable s'.

Fixpoint run_steps (s : Sys) (cs : list (nat * choice)) : res Sys :=
  match cs with
  | [] => Ok s
  | (t, c) :: cs => match step s t c with Some r => s ← r; run_steps s cs | None => Fatal end
  end.

Lemma run_steps_reachable s cs s' : reachable s -> run_steps s cs = Ok s' -> reachable s'.
Proof.
  revert s. induction cs as [|[t c] cs IH]; intros s H; cbn [run_steps]; [by intros [= <-]|].
  destruct (step s t c) as [[s1| |]|] eqn:E; try done. cbn. apply IH. by eapply reach_step.
Qed.

(** ** Counting references *)

Section Count.

Implicit Types (m : gmap nat nat) (h b : nat).

Definition count m b : Z := Z.of_nat (size (filter (fun kv : nat * nat => kv.2 = b) m)).
Definition set_held h (o : option nat) m : gmap nat nat := partial_alter (fun _ => o) h m.

Lemma lookup_set_held h o m x : set_held h o m !! x = if decide (x = h) then o else m !! x.
Proof. unfold set_held. case_decide as E; [subst; apply lookup_partial_alter_eq|by apply lookup_partial_alter_ne]. Qed.

Lemma count_delete h m b : count (delete h m) b = count m b - (if decide (m !! h = Some b) then 1 else 0).
Proof.
  unfold count. rewrite map_filter_delete. set (f := filter _ m). destruct (decide (m !! h = Some b)) as [E|E].
  - assert (Ef : f !! h = Some b) by (apply map_lookup_filter_Some; done). pose proof (map_size_delete h f) as Hd. rewrite Ef in Hd.
    assert (size f <> 0%nat); [|lia]. intros H0%map_size_empty_iff. rewrite H0, lookup_empty in Ef. done.
  - rewrite delete_id; [lia|]. apply map_lookup_filter_None. destruct (m !! h) as [c|]; [right|by left]. intros c' [= <-] Hc. cbn in Hc. by subst.
Qed.

Lemma count_insert_new h c m b : m !! h = None -> count (<[h := c]> m) b = count m b + (if decide (Some c = Some b) then 1 else 0).
Proof.
  intros E. unfold count. destruct (decide (Some c = Some b)) as [[= ->]|Hne].
  - rewrite map_filter_insert_True by done. rewrite map_size_insert_None; [lia|]. apply map_lookup_filter_None. by left.
  - rewrite map_filter_insert_False by (cbn; congruence). rewrite delete_id by done. lia.
Qed.

Lemma count_set h o m b : count (set_held h o m) b = count m b - (if decide (m !! h = Some b) then 1 else 0) + (if decide (o = Some b) then 1 else 0).
Proof.
  destruct o as [c|].
  - change (set_held h (Some c) m) with (<[h := c]> m). rewrite <- insert_delete_eq, count_insert_new by apply lookup_delete_eq. by rewrite count_delete.
  - change (set_held h None m) with (delete h m). rewrite count_delete, (decide_False (P := None = Some b)) by done. lia.
Qed.

Lemma count_nonneg m b : 0 <= count m b.
Proof. unfold count. lia. Qed.

Lemma count_pos h m b : m !! h = Some b -> 0 < count m b.
Proof. intros E. pose proof (count_set h None m b) as H. pose proof (count_nonneg (set_held h None m) b). rewrite decide_True, decide_False in H by done. lia. Qed.

Lemma count_zero m b : (forall h, m !! h <> Some b) -> count m b = 0.
Proof.
  intros H. unfold count. replace (filter _ m) with (∅ : gmap nat nat); [by rewrite map_size_empty|]. symmetry. apply map_empty. intros h. apply map_lookup_filter_None.
  destruct (m !! h) as [c|] eqn:E; [right|by left]. intros c' [= <-] Hc. cbn in Hc. subst. by apply (H h).
Qed.

Lemma count_held m b : 0 < count m b -> exists h, m !! h = Some b.
Proof.
  unfold count. set (f := filter _ m). intros H. destruct (decide (f = ∅)) as [E|E]; [rewrite E, map_size_empty in H; lia|].
  destruct (map_choose f E) as (h & c & Hc). apply map_lookup_filter_Some in Hc as [Hc Hb]. cbn in Hb. subst. eauto.
Qed.

(** As many numbers below [n] as there are. *)
Lemma count_le m b n : (forall h c, m !! h = Some c -> Z.of_nat h < n) -> count m b <= Z.max 0 n.
Proof.
  intros H. unfold count. set (f := filter _ m). rewrite <- (size_dom f).
  assert (Hs : dom f ⊆ set_seq (C := gset nat) 0 (Z.to_nat n)).
  { intros h [c Hc]%elem_of_dom. apply map_lookup_filter_Some in Hc as [Hc _]. apply elem_of_set_seq. specialize (H h c Hc). lia. }
  apply subseteq_size in Hs. rewrite size_set_seq in Hs. lia.
Qed.

End Count.

(** ** The invariant of the memory

    [held] says which objects are counted by which block.  An object is [Settled] when it is
    counted by the block it names, and [Loose] between the two halves of a member function. *)

Inductive status := Absent | Settled | Loose.

#[export] Instance status_eq_dec : EqDecision status.
Proof. solve_decision. Defined.

Definition is_status (objs : gmap nat Shared) (held : gmap nat nat) (st : status) (h : nat) : Prop :=
  match st with
  | Absent => objs !! h = None /\ held !! h = None
  | Settled => exists p, objs !! h = Some p /\ held !! h = control_ p
  | Loose => exists p, objs !! h = Some p /\ held !! h = None
  end.

Record mem_inv (s : Sys) (held : gmap nat nat) (w : nat -> status) : Prop := {
  mi_status h : is_status (objects s) held (w h) h;
  mi_object h p : objects s !! h = Some p -> Z.of_nat h < kMaxObjects /\ fst <$> pointer_ p = control_ p;
  mi_refs b k : blocks s !! b = Some k -> refs k = count held b;
  mi_held h b : held !! h = Some b -> is_Some (blocks s !! b);
  mi_blocks b : is_Some (blocks s !! b) \/ b ∈ destroyed s <-> (b < next_block s)%nat;
  mi_destroyed b : b ∈ destroyed s -> blocks s !! b = None;
  mi_once : NoDup (destroyed s) }.

(** A block nobody is counted by any more. *)
Definition dying (s : Sys) (b : nat) : Prop := exists k, blocks s !! b = Some k /\ refs k = 0.

Definition upd (w : nat -> status) (h : nat) (st : status) : nat -> status := fun x => if decide (x = h) then st else w x.

Definition instr_writes (i : instr) : list nat :=
  match i with
  | Init h | CopyFields h _ _ | New h _ | Retain h | Release h | SetNull h | End_ h => [h]
  | MoveFields h o _ | SwapFields h o => [h; o]
  | Destroy _ => []
  end.
Definition instr_reads (i : instr) : list nat := match i with CopyFields _ o _ => [o] | _ => [] end.

(** What an instruction does to the objects it works on, if they are as it needs them. *)
Definition view_step (i : instr) (w : nat -> status) : option (nat -> status) :=
  let from h st r := if decide (w h = st) then r else None in
  match i with
  | Init h | New h _ => from h Absent (Some (upd w h Settled))
  | CopyFields h o _ => from h Absent (from o Settled (Some (upd w h Loose)))
  | MoveFields h o _ => from h Absent (from o Settled (Some (upd w h Settled)))
  | Retain h | SetNull h => from h Loose (Some (upd w h Settled))
  | SwapFields h o => from h Settled (from o Settled (Some w))
  | Release h => from h Settled (Some (upd w h Loose))
  | Destroy _ => Some w
  | End_ h => from h Loose (Some (upd w h Absent))
  end.

Lemma mem_held_bound s held w h b : mem_inv s held w -> held !! h = Some b -> Z.of_nat h < kMaxObjects.
Proof.
  intros M E. pose proof (mi_status _ _ _ M h) as Hs. destruct (w h); cbn in Hs; [destruct Hs; congruence| |]; destruct Hs as (p & Hp & ?); by apply (mi_object _ _ _ M h p).
Qed.

(** The objects change and the blocks do not. *)
Lemma mem_objects s held w objs' held' w' : mem_inv s held w -> (forall h, is_status objs' held' (w' h) h) ->
  (forall h p, objs' !! h = Some p -> Z.of_nat h < kMaxObjects /\ fst <$> pointer_ p = control_ p) ->
  (forall b, count held' b = count held b) -> mem_inv (set_objects s objs') held' w'.
Proof.
  intros M H1 H2 H3. pose proof M as [_ _ Hr Hh Hb Hd Ho]. split; cbn; try done.
  - intros b k Hk. rewrite H3. by apply Hr.
  - intros h b E. pose proof (count_pos _ _ _ E) as Hp. rewrite H3 in Hp. destruct (count_held _ _ Hp) as [h' Hh']. by eapply Hh.
Qed.

Lemma mem_count_le objs held (w : nat -> status) b : (forall h, is_status objs held (w h) h) ->
  (forall h p, objs !! h = Some p -> Z.of_nat h < kMaxObjects /\ fst <$> pointer_ p = control_ p) -> count held b <= kMaxObjects.
Proof.
  intros H1 H2. pose proof (count_le held b kMaxObjects) as H. assert (0 < kMaxObjects) by done. rewrite Z.max_r in H by lia. apply H.
  intros h c E. specialize (H1 h). destruct (w h); cbn in H1; [destruct H1; congruence| |]; destruct H1 as (p & Hp & ?); by apply (H2 h p).
Qed.

(** The count of one block changes with the number of objects it counts. *)
Lemma mem_fetch s held w b k d held' w' : mem_inv s held w -> blocks s !! b = Some k -> (forall h, is_status (objects s) held' (w' h) h) ->
  (forall b', count held' b' = count held b' + if decide (b = b') then d else 0) ->
  exists s', fetch_refs s b d = Ok (s', refs k) /\ mem_inv s' held' w' /\ objects s' = objects s /\ threads s' = threads s /\
    blocks s' = <[b := mkBlock (count held' b) (value k)]> (blocks s).
Proof.
  intros M Hk Hst Hc. pose proof M as [_ Hob Hr Hh Hb Hd Ho]. unfold fetch_refs, block. rewrite Hk. cbn.
  assert (E : u64 (refs k + d) = count held' b).
  { rewrite (Hr b k Hk). specialize (Hc b). rewrite decide_True in Hc by done. rewrite <- Hc. apply wrap_small. split; [apply count_nonneg|].
    pose proof (mem_count_le _ _ _ b Hst Hob). assert (kMaxObjects < 2 ^ 64) by done. lia. }
  rewrite E. eexists. split; [done|]. split; [|done]. split; cbn; try done.
  - intros b' k'. rewrite lookup_insert. case_decide as Eb; [intros [= <-]; cbn; by subst|]. intros Hk'. rewrite Hc, decide_False by done. rewrite (Hr b' k' Hk'). lia.
  - intros h b' E'. rewrite lookup_insert. case_decide as Eb; [done|]. pose proof (count_pos _ _ _ E') as Hp. rewrite Hc, decide_False in Hp by done.
    destruct (count_held held b') as [h' Hh']; [lia|]. by eapply Hh.
  - intros b'. rewrite <- Hb. rewrite lookup_insert. case_decide as Eb; [subst|done]. split; intros _; left; eauto.
  - intros b' Hb'. rewrite lookup_insert. case_decide as Eb; [subst; rewrite (Hd _ Hb') in Hk; done|by apply Hd].
Qed.

(** ** One instruction *)

(** A fresh copy of an object that is counted. *)
Definition copy_of (s : Sys) (held : gmap nat nat) (h o : nat) : Prop :=
  exists p q, objects s !! h = Some p /\ objects s !! o = Some q /\ control_ p = control_ q /\ held !! o = control_ q.

Record effect (s : Sys) (held : gmap nat nat) (i : instr) (s' : Sys) (l' : list instr) (held' : gmap nat nat) : Prop := {
  ef_threads : threads s' = threads s;
  ef_frame h : h ∉ instr_writes i -> objects s' !! h = objects s !! h /\ held' !! h = held !! h;
  ef_dying b : dying s' b <-> dying s b /\ i <> Destroy b \/ l' = [Destroy b];
  ef_list : l' = [] \/ exists b, l' = [Destroy b] /\ ~ dying s b;
  ef_copy h o up : i = CopyFields h o up -> l' = [] /\ copy_of s' held' h o }.

Lemma effect_objects s held i objs' held' : (forall b, i <> Destroy b) ->
  (forall h, h ∉ instr_writes i -> objs' !! h = objects s !! h /\ held' !! h = held !! h) ->
  (forall h o up, i = CopyFields h o up -> copy_of (set_objects s objs') held' h o) ->
  effect s held i (set_objects s objs') [] held'.
Proof. intros Hi Hf Hc. split; try done; [|by left|by eauto]. intros b. split; [intros H; left; by split|]. by intros [[? _]|?]. Qed.

Lemma view_from {A} (w : nat -> status) h st (r : option A) x : (if decide (w h = st) then r else None) = Some x -> w h = st /\ r = Some x.
Proof. case_decide; [done|done]. Qed.

Lemma not_in_one (x h : nat) : x ∉ [h] -> x <> h.
Proof. set_solver. Qed.

Lemma not_in_two (x h o : nat) : x ∉ [h; o] -> x <> h /\ x <> o.
Proof. set_solver. Qed.

(** Statuses after some objects changed. *)
Lemma status_upd objs held w h st objs' held' : (forall x, is_status objs held (w x) x) ->
  (forall x, x <> h -> objs' !! x = objs !! x /\ held' !! x = held !! x) -> is_status objs' held' st h -> forall x, is_status objs' held' (upd w h st x) x.
Proof.
  intros H Hf Hh x. unfold upd. case_decide as E; [by subst|]. specialize (H x). destruct (Hf x E) as [E1 E2]. unfold is_status in *. rewrite E1, E2. done.
Qed.

Lemma objects_insert (objs : gmap nat Shared) h p : (forall x q, objs !! x = Some q -> Z.of_nat x < kMaxObjects /\ fst <$> pointer_ q = control_ q) ->
  Z.of_nat h < kMaxObjects -> fst <$> pointer_ p = control_ p -> forall x q, <[h := p]> objs !! x = Some q -> Z.of_nat x < kMaxObjects /\ fst <$> pointer_ q = control_ q.
Proof. intros H Hh Hp x q. rewrite lookup_insert. case_decide; [intros [= <-]; by subst|apply H]. Qed.

Lemma convert_control up p : control_ (convert up p) = control_ p.
Proof. done. Qed.

Lemma convert_pointer up p : fst <$> pointer_ p = control_ p -> fst <$> pointer_ (convert up p) = control_ (convert up p).
Proof. cbn. intros <-. destruct p as [[[b off]|] c]; done. Qed.

(** What each instruction does to a memory that is in order. *)
Definition exec_good (s : Sys) (held : gmap nat nat) (i : instr) (w' : nat -> status) : Prop :=
  exists s' l' held', exec s i = Ok (s', l') /\ mem_inv s' held' w' /\ effect s held i s' l' held'.

(** An object that is counted is given other contents, with the count to match. *)
Lemma status_replace objs held1 (w1 : nat -> status) h p : (forall x, is_status objs held1 (w1 x) x) -> w1 h = Settled ->
  forall x, is_status (<[h := p]> objs) (set_held h (control_ p) held1) (w1 x) x.
Proof.
  intros H Hh x. replace (w1 x) with (upd w1 h Settled x) by (unfold upd; case_decide; by subst).
  eapply status_upd; [done|intros y Hy; by rewrite lookup_insert_ne, lookup_set_held, decide_False|]. exists p. by rewrite lookup_insert_eq, lookup_set_held, decide_True.
Qed.

(** The instructions that touch the count of a block. *)
Lemma effect_blocks s held i s' l' held' : threads s' = threads s -> objects s' = objects s -> (forall h, h ∉ instr_writes i -> held' !! h = held !! h) ->
  (forall b, i <> Destroy b) -> (forall h o up, i <> CopyFields h o up) ->
  (forall b, dying s' b <-> dying s b \/ l' = [Destroy b]) -> (l' = [] \/ exists b, l' = [Destroy b] /\ ~ dying s b) -> effect s held i s' l' held'.
Proof.
  intros H1 H2 H3 H4 H5 H6 H7. split; [done|intros h Hh; by rewrite H2, H3| |done|intros h o up E; by destruct (H5 h o up)].
  intros b. rewrite H6. split; (intros [H|H]; [left|by right]); [by split; [|apply H4]|apply H].
Qed.

Section Exec.

Set Default Proof Using "All".

Context (s : Sys) (held : gmap nat nat) (w : nat -> status) (M : mem_inv s held w).

Lemma settled h : w h = Settled -> exists p, objects s !! h = Some p /\ held !! h = control_ p.
Proof. intros E. pose proof (mi_status _ _ _ M h) as H. by rewrite E in H. Qed.

Lemma loose h : w h = Loose -> exists p, objects s !! h = Some p /\ held !! h = None.
Proof. intros E. pose proof (mi_status _ _ _ M h) as H. by rewrite E in H. Qed.

Lemma absent h : w h = Absent -> objects s !! h = None /\ held !! h = None.
Proof. intros E. pose proof (mi_status _ _ _ M h) as H. by rewrite E in H. Qed.

Lemma exec_Init h : w h = Absent -> Z.of_nat h < kMaxObjects -> exec_good s held (Init h) (upd w h Settled).
Proof.
  intros Hh Hb. destruct (absent h Hh) as [E1 E2]. eexists _, [], held. cbn. unfold is_new. rewrite bool_decide_true by done. split; [done|]. split.
  - eapply mem_objects; [done| | |done].
    + eapply status_upd; [by apply (mi_status _ _ _ M)|intros x Hx; by rewrite lookup_insert_ne|]. exists null. by rewrite lookup_insert_eq.
    + by apply objects_insert; [apply (mi_object _ _ _ M)| |].
  - apply effect_objects; [done| |done]. cbn. intros x Hx%not_in_one. by rewrite lookup_insert_ne.
Qed.

Lemma exec_SetNull h : w h = Loose -> exec_good s held (SetNull h) (upd w h Settled).
Proof.
  intros Hh. destruct (loose h Hh) as (p & E1 & E2). eexists _, [], held. cbn. unfold object. rewrite E1. cbn. split; [done|]. split.
  - eapply mem_objects; [done| | |done].
    + eapply status_upd; [by apply (mi_status _ _ _ M)|intros x Hx; by rewrite lookup_insert_ne|]. exists null. by rewrite lookup_insert_eq.
    + apply objects_insert; [apply (mi_object _ _ _ M)| |done]. by apply (mi_object _ _ _ M h p).
  - apply effect_objects; [done| |done]. cbn. intros x Hx%not_in_one. by rewrite lookup_insert_ne.
Qed.

Lemma exec_End h : w h = Loose -> exec_good s held (End_ h) (upd w h Absent).
Proof.
  intros Hh. destruct (loose h Hh) as (p & E1 & E2). eexists _, [], held. cbn. unfold object. rewrite E1. cbn. split; [done|]. split.
  - eapply mem_objects; [done| | |done].
    + eapply status_upd; [by apply (mi_status _ _ _ M)|intros x Hx; by rewrite lookup_delete_ne|]. cbn. by rewrite lookup_delete_eq.
    + intros x q. rewrite lookup_delete_Some. intros [_ Hq]. by apply (mi_object _ _ _ M x q).
  - apply effect_objects; [done| |done]. cbn. intros x Hx%not_in_one. by rewrite lookup_delete_ne.
Qed.

Lemma exec_Copy h o up : w h = Absent -> w o = Settled -> Z.of_nat h < kMaxObjects -> exec_good s held (CopyFields h o up) (upd w h Loose).
Proof.
  intros Hh Ho Hb. destruct (absent h Hh) as [E1 E2]. destruct (settled o Ho) as (q & Q1 & Q2). assert (Hne : o <> h) by congruence.
  eexists _, [], held. cbn. unfold object, is_new. rewrite Q1, bool_decide_true by done. cbn. split; [done|]. split.
  - eapply mem_objects; [done| | |done].
    + eapply status_upd; [by apply (mi_status _ _ _ M)|intros x Hx; by rewrite lookup_insert_ne|]. exists (convert up q). by rewrite lookup_insert_eq.
    + apply objects_insert; [apply (mi_object _ _ _ M)|done|]. apply convert_pointer. by apply (mi_object _ _ _ M o q).
  - apply effect_objects; [done| |].
    + cbn. intros x Hx%not_in_one. by rewrite lookup_insert_ne.
    + intros h' o' up' [= <- <- <-]. exists (convert up q), q. cbn. rewrite lookup_insert_eq, lookup_insert_ne by done. done.
Qed.

Lemma exec_Move h o up : w h = Absent -> w o = Settled -> Z.of_nat h < kMaxObjects -> exec_good s held (MoveFields h o up) (upd w h Settled).
Proof.
  intros Hh Ho Hb. destruct (absent h Hh) as [E1 E2]. destruct (settled o Ho) as (q & Q1 & Q2). assert (Hne : o <> h) by congruence.
  eexists _, [], (set_held o (control_ null) (set_held h (control_ (convert up q)) held)). cbn [exec]. unfold object, is_new. rewrite Q1, bool_decide_true by done. cbn [mbind res_bind]. split; [done|]. split.
  - eapply mem_objects; [done| | |].
    + apply status_replace; [|unfold upd; rewrite decide_False; done]. eapply status_upd; [by apply (mi_status _ _ _ M)| |].
      * intros x Hx. by rewrite lookup_insert_ne, lookup_set_held, decide_False.
      * exists (convert up q). by rewrite lookup_insert_eq, lookup_set_held, decide_True.
    + apply objects_insert; [apply objects_insert; [apply (mi_object _ _ _ M)|done|]| |done]; [apply convert_pointer|]; by apply (mi_object _ _ _ M o q).
    + intros b. rewrite !count_set, lookup_set_held, (decide_False (P := o = h)) by done. rewrite E2, Q2. cbn. rewrite !(decide_False (P := None = Some b)) by done. lia.
  - apply effect_objects; [done| |done]. cbn [instr_writes]. intros x [H1 H2]%not_in_two. by rewrite !lookup_insert_ne, !lookup_set_held, !decide_False.
Qed.

Lemma exec_Swap h o : w h = Settled -> w o = Settled -> exec_good s held (SwapFields h o) w.
Proof.
  intros Hh Ho. destruct (settled h Hh) as (p & P1 & P2). destruct (settled o Ho) as (q & Q1 & Q2).
  eexists _, [], (set_held o (control_ p) (set_held h (control_ q) held)). cbn. unfold object. rewrite P1, Q1. cbn. split; [done|]. split.
  - eapply mem_objects; [done| | |].
    + apply status_replace; [|done]. apply status_replace; [|done]. by apply (mi_status _ _ _ M).
    + apply objects_insert; [apply objects_insert; [apply (mi_object _ _ _ M)| |]| |]; first [by apply (mi_object _ _ _ M h p)|by apply (mi_object _ _ _ M o q)].
    + intros b. rewrite !count_set, lookup_set_held. destruct (decide (o = h)) as [->|Hne]; [replace q with p in * by congruence|]; rewrite ?P2, ?Q2; lia.
  - apply effect_objects; [done| |done]. cbn [instr_writes]. intros x [H1 H2]%not_in_two. by rewrite !lookup_insert_ne, !lookup_set_held, !decide_False.
Qed.

Lemma exec_Retain h o : w h = Loose -> copy_of s held h o -> exec_good s held (Retain h) (upd w h Settled).
Proof.
  intros Hh (p & q & P1 & Q1 & Ec & Hq). destruct (loose h Hh) as (p' & P1' & P2). rewrite P1 in P1'. injection P1' as <-. unfold exec_good. cbn. unfold object. rewrite P1. cbn.
  assert (Hs : forall x, is_status (objects s) (set_held h (control_ p) held) (upd w h Settled x) x).
  { eapply status_upd; [by apply (mi_status _ _ _ M)|intros x Hx; by rewrite lookup_set_held, decide_False|]. exists p. by rewrite lookup_set_held, decide_True. }
  assert (Hf : forall x, x ∉ [h] -> set_held h (control_ p) held !! x = held !! x) by (intros x Hx%not_in_one; by rewrite lookup_set_held, decide_False).
  destruct (control_ p) as [b|] eqn:Eb.
  - rewrite <- Ec in Hq. destruct (mi_held _ _ _ M o b Hq) as [k Hk].
    destruct (mem_fetch s held w b k 1 _ _ M Hk Hs) as (s' & Ef & M' & Eo & Et & Ebl).
    { intros b'. rewrite count_set, P2, (decide_False (P := None = Some b')) by done. destruct (decide (b = b')) as [->|]; [rewrite decide_True|rewrite decide_False by congruence]; (done || lia). }
    rewrite Ef. cbn. exists s', [], (set_held h (Some b) held). split; [done|]. split; [done|]. apply effect_blocks; auto; try done.
    intros b'. assert (Hp : 0 < count held b) by by eapply count_pos. assert (Hr := mi_refs _ _ _ M b k Hk). unfold dying. rewrite Ebl. split.
    + intros (k' & Hk' & E0). left. rewrite lookup_insert in Hk'. case_decide as E; [injection Hk' as <-; cbn in E0|by eauto].
      pose proof (count_pos h (set_held h (Some b) held) b ltac:(by rewrite lookup_set_held, decide_True)). lia.
    + intros [(k' & Hk' & E0)|]; [|done]. exists k'. rewrite lookup_insert_ne; [done|]. intros <-. rewrite Hk in Hk'. injection Hk' as <-. lia.
  - eexists s, [], held. split; [done|]. split; [|by apply effect_blocks; auto; try done; intros b; split; [auto|intros [?|?]]].
    assert (E : set_held h None held = held) by (apply map_eq; intros x; rewrite lookup_set_held; case_decide; by subst). rewrite E in Hs.
    pose proof M as [_ ? ? ? ? ? ?]. by split.
Qed.

Lemma exec_Release h : w h = Settled -> exec_good s held (Release h) (upd w h Loose).
Proof.
  intros Hh. destruct (settled h Hh) as (p & P1 & P2). unfold exec_good. cbn. unfold object. rewrite P1. cbn.
  assert (Hs : forall x, is_status (objects s) (set_held h None held) (upd w h Loose x) x).
  { eapply status_upd; [by apply (mi_status _ _ _ M)|intros x Hx; by rewrite lookup_set_held, decide_False|]. exists p. by rewrite lookup_set_held, decide_True. }
  assert (Hf : forall x, x ∉ [h] -> set_held h None held !! x = held !! x) by (intros x Hx%not_in_one; by rewrite lookup_set_held, decide_False).
  destruct (control_ p) as [b|] eqn:Eb.
  - destruct (mi_held _ _ _ M h b P2) as [k Hk]. destruct (mem_fetch s held w b k (-1) _ _ M Hk Hs) as (s' & Ef & M' & Eo & Et & Ebl).
    { intros b'. rewrite count_set, P2, (decide_False (P := None = Some b')) by done. destruct (decide (b = b')) as [->|]; [rewrite decide_True|rewrite decide_False by congruence]; (done || lia). }
    rewrite Ef. cbn. exists s', (if refs k =? 1 then [Destroy b] else []), (set_held h None held). split; [done|]. split; [done|].
    assert (Hp : 0 < count held b) by by eapply count_pos. assert (Hr := mi_refs _ _ _ M b k Hk).
    assert (Hc : count (set_held h None held) b = count held b - 1) by (rewrite count_set, P2, decide_True, decide_False by done; lia).
    assert (Hn : ~ dying s b) by (intros (k' & Hk' & E0); rewrite Hk in Hk'; injection Hk' as <-; lia).
    apply effect_blocks; auto; try done.
    + intros b'. unfold dying. rewrite Ebl. split.
      * intros (k' & Hk' & E0). rewrite lookup_insert in Hk'. case_decide as E; [|by eauto]. injection Hk' as <-. cbn in E0. right. subst b'. destruct (Z.eqb_spec (refs k) 1); [done|lia].
      * intros [(k' & Hk' & E0)|El]; [exists k'; rewrite lookup_insert_ne; [done|]; intros <-; rewrite Hk in Hk'; injection Hk' as <-; lia|].
        destruct (Z.eqb_spec (refs k) 1); [|done]. injection El as ->. eexists. rewrite lookup_insert_eq. split; [done|]. cbn. lia.
    + destruct (refs k =? 1); [right; eauto|by left].
  - eexists s, [], held. split; [done|]. split; [|by apply effect_blocks; auto; try done; intros b; split; [auto|intros [?|?]]].
    assert (E : set_held h None held = held) by (apply map_eq; intros x; rewrite lookup_set_held; case_decide; by subst). rewrite E in Hs.
    pose proof M as [_ ? ? ? ? ? ?]. by split.
Qed.

Lemma exec_Destroy b : dying s b -> exec_good s held (Destroy b) w.
Proof.
  intros (k & Hk & H0). pose proof M as [Hs Hob Hr Hh Hb Hd Hn]. eexists _, [], held. cbn. unfold block. rewrite Hk. cbn. split; [done|]. split; [split; cbn|split; cbn].
  - done.
  - done.
  - intros b' k'. rewrite lookup_delete_Some. intros [_ ?]. by apply Hr.
  - intros h b' E. rewrite lookup_delete_ne; [by eapply Hh|]. intros <-. pose proof (count_pos _ _ _ E). pose proof (Hr b k Hk). lia.
  - intros b'. rewrite <- Hb. rewrite lookup_delete, elem_of_cons. case_decide as E; [subst|].
    + split; intros _; [left; eauto|by right; left].
    + split; intros [?|H]; auto; destruct H as [->|?]; [done|auto].
  - intros b'. rewrite elem_of_cons. intros [->|H]; [apply lookup_delete_eq|]. rewrite lookup_delete. case_decide; [done|by apply Hd].
  - apply list.NoDup_cons. split; [|done]. intros H. rewrite (Hd b H) in Hk. done.
  - done.
  - done.
  - intros b'. unfold dying. cbn. split.
    + intros (k' & Hk' & E0). apply lookup_delete_Some in Hk' as [Hne Hk']. left. split; [eauto|congruence].
    + intros [[(k' & Hk' & E0) Hne]|]; [|done]. exists k'. rewrite lookup_delete_ne; [done|congruence].
  - by left.
  - done.
Qed.

Lemma exec_New h v : w h = Absent -> Z.of_nat h < kMaxObjects -> exec_good s held (New h v) (upd w h Settled).
Proof.
  intros Hh Hb. destruct (absent h Hh) as [E1 E2]. set (b := next_block s). pose proof M as [Hs Hob Hr Hhe Hbl Hd Hn].
  assert (Nb : blocks s !! b = None /\ b ∉ destroyed s).
  { split; [destruct (blocks s !! b) as [k|] eqn:E; [|done]|intros Hi]; exfalso; [assert (H : is_Some (blocks s !! b)) by eauto|]; pose proof (proj1 (Hbl b) ltac:(auto)); unfold b in *; lia. }
  destruct Nb as [N1 N2]. assert (Hz : count held b = 0) by (apply count_zero; intros x E; destruct (Hhe x b E); congruence).
  eexists _, [], (set_held h (Some b) held). cbn. unfold is_new. rewrite bool_decide_true by done. split; [done|]. split; [split; cbn; fold b|split; cbn; fold b].
  - eapply status_upd; [done|intros x Hx; by rewrite lookup_insert_ne, lookup_set_held, decide_False|]. eexists. rewrite lookup_insert_eq. split; [done|]. by rewrite lookup_set_held, decide_True.
  - by apply objects_insert.
  - intros b' k. rewrite lookup_insert, count_set, E2, (decide_False (P := None = Some b')) by done. case_decide as E; [intros [= <-]; subst b'; rewrite decide_True, Hz by done; done|].
    intros Hk. rewrite decide_False by congruence. rewrite (Hr b' k Hk). lia.
  - intros x b'. rewrite lookup_set_held, lookup_insert. case_decide as E; [intros [= <-]; rewrite decide_True by done; eauto|]. intros Hx. case_decide; [done|by eapply Hhe].
  - intros b'. rewrite lookup_insert. case_decide as E; [subst b'; split; intros _; [unfold b; lia|left; eauto]|]. rewrite Hbl. unfold b in E. lia.
  - intros b' Hi. rewrite lookup_insert_ne; [by apply Hd|]. by intros <-.
  - done.
  - done.
  - cbn [instr_writes]. intros x Hx%not_in_one. by rewrite lookup_insert_ne, lookup_set_held, decide_False.
  - intros b'. unfold dying. cbn. rewrite lookup_insert. case_decide as E; [subst b'|].
    + split; [intros (k & [= <-] & E0); done|]. intros [[(k & Hk & _) _]|]; [congruence|done].
    + split; [intros H; left; split; [done|congruence]|by intros [[H _]|]].
  - by left.
  - done.
Qed.

(** Any instruction that finds its objects as it needs them. *)
Lemma exec_ok i w' : view_step i w = Some w' -> Forall (fun h => Z.of_nat h < kMaxObjects) (instr_writes i) ->
  (forall h, i = Retain h -> exists o, copy_of s held h o) -> (forall b, i = Destroy b -> dying s b) -> exec_good s held i w'.
Proof.
  intros Hv Hb Hc Hd. destruct i as [h|h o up|h o up|h v|h|h o|h|b|h|h]; cbn in Hv, Hb;
    repeat match goal with H : (if decide (_ = _) then _ else None) = Some _ |- _ => apply view_from in H as [? H] end; injection Hv as <-.
  - by apply exec_Init; try exact (Forall_inv Hb).
  - by apply exec_Copy; try exact (Forall_inv Hb).
  - by apply exec_Move; try exact (Forall_inv Hb).
  - by apply exec_New; try exact (Forall_inv Hb).
  - destruct (Hc h eq_refl) as [o Ho]. by eapply exec_Retain.
  - by apply exec_Swap.
  - by apply exec_Release.
  - apply exec_Destroy. by apply Hd.
  - by apply exec_SetNull.
  - by apply exec_End.
Qed.

End Exec.

Set Default Proof Using "Type".

(** ** The invariant of the threads *)

(** The rest of a member function finds its objects as it needs them and leaves none loose. *)
Fixpoint ends (l : list instr) (w : nat -> status) (ws : list nat) : Prop :=
  match l with
  | [] => forall h, h ∈ ws -> w h <> Loose
  | i :: l => match view_step i w with Some w' => ends l w' ws | None => False end
  end.

(** [Retain] directly follows the copy of an object the operation reads. *)
Fixpoint copies (rs : list nat) (l : list instr) : Prop :=
  match l with
  | [] => True
  | CopyFields h o _ :: l' => (exists l'', l' = Retain h :: l'') /\ o ∈ rs /\ copies rs l'
  | _ :: l' => (forall h l'', l' <> Retain h :: l'') /\ copies rs l'
  end.

Definition is_destroy (i : instr) : Prop := match i with Destroy _ => True | _ => False end.

Definition within (o : op) (i : instr) : Prop :=
  Forall (fun h => h ∈ writes o) (instr_writes i) /\ Forall (fun h => h ∈ reads o) (instr_reads i).

Record good_thread (w : nat -> status) (o : op) (l : list instr) : Prop := {
  gt_ends : ends l w (writes o);
  gt_within : Forall (within o) l;
  gt_bound : Forall (fun h => Z.of_nat h < kMaxObjects) (writes o);
  gt_copies : copies (reads o) l;
  gt_destroy : Forall (fun i => ~ is_destroy i) (tail l) }.

Record inv (s : Sys) (held : gmap nat nat) (w : nat -> status) : Prop := {
  inv_mem : mem_inv s held w;
  inv_thread t o l : threads s !! t = Some (mkThread o l) -> good_thread w o l;
  inv_race t u a b : t <> u -> threads s !! t = Some a -> threads s !! u = Some b -> race_free (running a) (running b);
  inv_loose h : w h = Loose -> exists t th, threads s !! t = Some th /\ h ∈ writes (running th);
  inv_copy t o h l : threads s !! t = Some (mkThread o (Retain h :: l)) -> exists o', o' ∈ reads o /\ copy_of s held h o';
  inv_dying b : dying s b <-> exists t th, threads s !! t = Some th /\ Destroy b ∈ todo th;
  inv_dying_once b t u a c : threads s !! t = Some a -> threads s !! u = Some c -> Destroy b ∈ todo a -> Destroy b ∈ todo c -> t = u }.

Lemma race_free_sym o o' : race_free o o' -> race_free o' o.
Proof.
  unfold race_free. rewrite !list.Forall_forall. intros [H1 H2]. split; intros h Hh.
  - intros [Hw|Hr]%elem_of_app; [apply (H1 h Hw); apply elem_of_app; by left|by apply (H2 h Hr)].
  - intros Hw. apply (H1 h Hw). apply elem_of_app. by right.
Qed.

Lemma race_free_disjoint o o' h : race_free o o' -> h ∈ writes o -> h ∉ writes o' ++ reads o'.
Proof. intros [H _]. rewrite list.Forall_forall in H. apply H. Qed.

(** An instruction of one operation leaves the objects of a race-free one alone. *)
Lemma race_free_within o o' i h : race_free o o' -> within o i -> h ∈ writes o' ++ reads o' -> h ∉ instr_writes i.
Proof. intros Hr [Hw _] Hh Hi. rewrite list.Forall_forall in Hw. by apply (race_free_disjoint o o' h Hr (Hw h Hi)). Qed.

Lemma view_step_frame i w w' h : view_step i w = Some w' -> h ∉ instr_writes i -> w' h = w h.
Proof.
  intros Hv Hh. destruct i; cbn in Hv, Hh;
    repeat match goal with H : (if decide (_ = _) then _ else None) = Some _ |- _ => apply view_from in H as [_ H] end; injection Hv as <-; try done;
    unfold upd; (rewrite decide_False; [done|]); first [by apply not_in_one|by apply (not_in_two _ _ _ Hh)].
Qed.

(** What an instruction needs and does depends on its own objects only. *)
Lemma view_step_ext i w1 w2 w1' (F : list nat) : (forall h, h ∈ F -> w1 h = w2 h) -> Forall (fun h => h ∈ F) (instr_writes i ++ instr_reads i) -> view_step i w1 = Some w1' ->
  exists w2', view_step i w2 = Some w2' /\ forall h, h ∈ F -> w1' h = w2' h.
Proof.
  intros E Hf Hv. rewrite list.Forall_forall in Hf. assert (Eu : forall a st x, x ∈ F -> upd w1 a st x = upd w2 a st x) by (intros a st x Hx; unfold upd; case_decide; auto).
  destruct i; cbn in *; repeat match goal with H : (if decide (_ = _) then _ else None) = Some _ |- _ => apply view_from in H as [? H] end; injection Hv as <-;
    repeat match goal with H : w1 ?x = ?st |- _ => rewrite E in H by (apply Hf; set_solver); rewrite H end; repeat (case_decide; [|done]); eauto.
Qed.

Lemma ends_ext o l w1 w2 : (forall h, h ∈ writes o ++ reads o -> w1 h = w2 h) -> Forall (within o) l -> ends l w1 (writes o) -> ends l w2 (writes o).
Proof.
  revert w1 w2. induction l as [|i l IH]; intros w1 w2 E Hw; cbn; [intros H h Hh; rewrite <- E; [by apply H|apply elem_of_app; by left]|].
  apply list.Forall_cons in Hw as [[Hi1 Hi2] Hw]. destruct (view_step i w1) as [w1'|] eqn:Ev; [|done]. intros H.
  destruct (view_step_ext i w1 w2 w1' (writes o ++ reads o) E) as (w2' & -> & E'); [|done|by eapply IH].
  rewrite list.Forall_app. split; (eapply list.Forall_impl; [done|]); cbn; intros x; rewrite elem_of_app; auto.
Qed.

Lemma lookup_resume s t o l u : threads (resume s t o l) !! u = if decide (u = t) then match l with [] => None | _ => Some (mkThread o l) end else threads s !! u.
Proof. unfold resume. destruct l; cbn; [rewrite lookup_delete|rewrite lookup_insert]; repeat case_decide; congruence. Qed.

(** ** A step keeps the invariant *)

Lemma step_go s held w t o i l : inv s held w -> threads s !! t = Some (mkThread o (i :: l)) ->
  exists s1 l' held' w', exec s i = Ok (s1, l') /\ view_step i w = Some w' /\ mem_inv s1 held' w' /\ effect s held i s1 l' held'.
Proof.
  intros H Ht. pose proof (inv_thread _ _ _ H _ _ _ Ht) as [He Hw Hb Hc Hd]. cbn in He. destruct (view_step i w) as [w'|] eqn:Ev; [|done].
  apply list.Forall_cons in Hw as [[Hi1 Hi2] Hw].
  destruct (exec_ok s held w (inv_mem _ _ _ H) i w' Ev) as (s1 & l' & held' & E & M & F); [| | |by exists s1, l', held', w'].
  - eapply list.Forall_impl; [exact Hi1|]. cbn. rewrite list.Forall_forall in Hb. apply Hb.
  - intros h ->. destruct (inv_copy _ _ _ H t o h l Ht) as (o' & _ & ?). eauto.
  - intros b ->. apply (inv_dying _ _ _ H). exists t. eexists. split; [exact Ht|]. cbn. apply list_elem_of_here.
Qed.

(** The thread that has taken a step. *)
Lemma good_thread_next w w' o i l l' : good_thread w o (i :: l) -> view_step i w = Some w' -> l' = [] \/ (exists b, l' = [Destroy b]) /\ (forall h o up, i <> CopyFields h o up) ->
  good_thread w' o (l' ++ l).
Proof.
  intros [He Hw Hb Hc Hd] Ev Hl. cbn in He, Hd. rewrite Ev in He. apply list.Forall_cons in Hw as [_ Hw].
  assert (Hc' : copies (reads o) l) by (destruct i; cbn in Hc; tauto). destruct Hl as [-> | [[b ->] Hi]]; cbn.
  - split; try done. by destruct l as [|j l]; [|apply list.Forall_cons in Hd as [_ Hd]].
  - split; try done; [by constructor|]. split; [|done]. destruct i; cbn in Hc; try apply Hc. by destruct (Hi this other up).
Qed.

(** The other threads do not notice. *)
Lemma good_thread_frame w w' o i o' l' : good_thread w o' l' -> view_step i w = Some w' -> within o i -> race_free o o' -> good_thread w' o' l'.
Proof.
  intros [He Hw Hb Hc Hd] Ev Hi Hr. split; try done. eapply ends_ext; [|done|exact He]. intros h Hh. symmetry. eapply view_step_frame; [exact Ev|]. by eapply race_free_within.
Qed.

Lemma copy_frame s held i s1 l' held' h o : effect s held i s1 l' held' -> h ∉ instr_writes i -> o ∉ instr_writes i -> copy_of s held h o -> copy_of s1 held' h o.
Proof. intros F Hh Ho (p & q & H). exists p, q. destruct (ef_frame _ _ _ _ _ _ F h Hh) as [-> _]. by destruct (ef_frame _ _ _ _ _ _ F o Ho) as [-> ->]. Qed.

(** After a copy comes [Retain], and only there. *)
Lemma copies_head rs i h l : copies rs (i :: Retain h :: l) -> exists o up, i = CopyFields h o up /\ o ∈ rs.
Proof.
  intros Hc. destruct i as [?|h' o up|? ? ?|? ?|?|? ?|?|?|?|?]; cbn in Hc; try (by destruct Hc as [Hc _]; destruct (Hc h l)).
  destruct Hc as ([l'' [= ->]] & Ho & _). eauto.
Qed.

Section Go.

Context (s : Sys) (held : gmap nat nat) (w : nat -> status) (t : nat) (o : op) (i : instr) (l : list instr).
Context (H : inv s held w) (Ht : threads s !! t = Some (mkThread o (i :: l))).
Context (s1 : Sys) (l' : list instr) (held' : gmap nat nat) (w' : nat -> status).
Context (Ev : view_step i w = Some w') (M : mem_inv s1 held' w') (F : effect s held i s1 l' held').

Lemma go_thread : good_thread w o (i :: l).
Proof using H Ht. exact (inv_thread _ _ _ H _ _ _ Ht). Qed.

Lemma go_within : within o i.
Proof using H Ht. pose proof (gt_within _ _ _ go_thread) as Hw. by apply list.Forall_cons in Hw as [? _]. Qed.

Lemma go_lookup u o' k : threads (resume s1 t o (l' ++ l)) !! u = Some (mkThread o' k) ->
  u = t /\ o' = o /\ k = l' ++ l \/ u <> t /\ threads s !! u = Some (mkThread o' k).
Proof using F. rewrite lookup_resume, (ef_threads _ _ _ _ _ _ F). case_decide; [|auto]. destruct (l' ++ l); [done|]. intros [= <- <-]. auto. Qed.

(** Its own operation is the only one that names the objects it works on. *)
Lemma go_race u o' k : u <> t -> threads s !! u = Some (mkThread o' k) -> race_free o o'.
Proof using H Ht. intros Hne Hu. by apply (inv_race _ _ _ H t u _ _ (not_eq_sym Hne) Ht Hu). Qed.

Lemma go_next : good_thread w' o (l' ++ l).
Proof using H Ht Ev F.
  eapply good_thread_next; [exact go_thread|exact Ev|]. destruct (ef_list _ _ _ _ _ _ F) as [->|(b & -> & _)]; [by left|right]. split; [eauto|].
  intros h o' up E. by destruct (ef_copy _ _ _ _ _ _ F h o' up E).
Qed.

Lemma go_no_destroy b : Destroy b ∉ l.
Proof using H Ht. intros Hi. pose proof (gt_destroy _ _ _ go_thread) as Hd. cbn in Hd. rewrite list.Forall_forall in Hd. by apply (Hd _ Hi). Qed.

Lemma go_new_destroy b : Destroy b ∈ l' ++ l <-> l' = [Destroy b].
Proof using H Ht F.
  rewrite elem_of_app. split; [|intros ->; left; by apply list_elem_of_singleton]. intros [Hi|Hi]; [|by destruct (go_no_destroy b)].
  destruct (ef_list _ _ _ _ _ _ F) as [->|(c & -> & _)]; [by apply not_elem_of_nil in Hi|]. by apply list_elem_of_singleton in Hi as [= ->].
Qed.

Lemma go_dying b : dying s1 b <-> exists u th, threads (resume s1 t o (l' ++ l)) !! u = Some th /\ Destroy b ∈ todo th.
Proof using H Ht F.
  rewrite (ef_dying _ _ _ _ _ _ F), (inv_dying _ _ _ H b). split.
  - intros [[(u & [o' k] & Hu & Hb) Hi]|El].
    + assert (Hne : u <> t); [intros ->; rewrite Ht in Hu; injection Hu as <- <-; cbn in Hb; apply elem_of_cons in Hb as [?|?]; [done|by destruct (go_no_destroy b)]|].
      exists u, (mkThread o' k). by rewrite lookup_resume, decide_False, (ef_threads _ _ _ _ _ _ F).
    + exists t, (mkThread o (l' ++ l)). rewrite lookup_resume, decide_True, El by done. split; [done|]. apply list_elem_of_here.
  - intros (u & [o' k] & Hu & Hb). destruct (go_lookup _ _ _ Hu) as [(-> & -> & ->)|[Hne Hu']]; [right; by apply go_new_destroy|left].
    split; [eauto|]. intros E. apply Hne. eapply (inv_dying_once _ _ _ H b u t _ _ Hu' Ht Hb). cbn. rewrite E. apply list_elem_of_here.
Qed.

Lemma go_inv : inv (resume s1 t o (l' ++ l)) held' w'.
Proof using All.
  pose proof go_within as Hw. split.
  - destruct M. by split.
  - intros u o' k Hu. destruct (go_lookup _ _ _ Hu) as [(-> & -> & ->)|[Hne Hu']]; [exact go_next|].
    eapply good_thread_frame; [exact (inv_thread _ _ _ H _ _ _ Hu')|exact Ev|exact Hw|by eapply go_race].
  - intros u v [o1 k1] [o2 k2] Hne Hu Hv. cbn. destruct (go_lookup _ _ _ Hu) as [(-> & -> & ->)|[Hne1 Hu']]; destruct (go_lookup _ _ _ Hv) as [(-> & -> & ->)|[Hne2 Hv']]; [done|by eapply go_race|apply race_free_sym; by eapply go_race|].
    by apply (inv_race _ _ _ H u v _ _ Hne Hu' Hv').
  - intros h Hh. pose proof go_next as Hn. assert (Hmine : h ∈ writes o -> exists t0 th, threads (resume s1 t o (l' ++ l)) !! t0 = Some th /\ h ∈ writes (running th)).
    { intros Hin. exists t. rewrite lookup_resume, decide_True by done. destruct (l' ++ l) as [|j k]; [by destruct (gt_ends _ _ _ Hn h Hin)|]. eexists. by split. }
    destruct (decide (h ∈ instr_writes i)) as [Hi|Hi]; [apply Hmine; destruct Hw as [Hw _]; rewrite list.Forall_forall in Hw; by apply Hw|].
    rewrite (view_step_frame i w w' h Ev Hi) in Hh. destruct (inv_loose _ _ _ H h Hh) as (u & [o' k] & Hu & Hin). destruct (decide (u = t)) as [->|Hne].
    + rewrite Ht in Hu. injection Hu as <- <-. by apply Hmine.
    + exists u, (mkThread o' k). by rewrite lookup_resume, decide_False, (ef_threads _ _ _ _ _ _ F).
  - intros u o' h k Hu. destruct (go_lookup _ _ _ Hu) as [(-> & -> & E)|[Hne Hu']].
    + destruct (ef_list _ _ _ _ _ _ F) as [->|(b & -> & _)]; [|done]. cbn in E. pose proof (gt_copies _ _ _ go_thread) as Hc. rewrite <- E in Hc.
      destruct (copies_head _ _ _ _ Hc) as (o' & up & Ei & Ho). exists o'. split; [done|]. by apply (ef_copy _ _ _ _ _ _ F _ _ _ Ei).
    + destruct (inv_copy _ _ _ H u o' h k Hu') as (x & Hx & Hcp). exists x. split; [done|]. pose proof (go_race _ _ _ Hne Hu') as Hr.
      pose proof (gt_within _ _ _ (inv_thread _ _ _ H _ _ _ Hu')) as Hwu. apply list.Forall_cons in Hwu as [[Hh _] _]. apply list.Forall_cons in Hh as [Hh _].
      change (copy_of s1 held' h x). eapply copy_frame; [exact F| | |exact Hcp]; apply (race_free_within o o' i _ Hr Hw); apply elem_of_app; auto.
  - exact go_dying.
  - intros b u v [o1 k1] [o2 k2] Hu Hv Hb1 Hb2. cbn in Hb1, Hb2. destruct (go_lookup _ _ _ Hu) as [(-> & -> & ->)|[Hne1 Hu']]; destruct (go_lookup _ _ _ Hv) as [(-> & -> & ->)|[Hne2 Hv']]; try done.
    + exfalso. apply go_new_destroy in Hb1. destruct (ef_list _ _ _ _ _ _ F) as [->|(c & -> & Hc)]; [done|]. injection Hb1 as ->. apply Hc, (inv_dying _ _ _ H). eauto.
    + exfalso. apply go_new_destroy in Hb2. destruct (ef_list _ _ _ _ _ _ F) as [->|(c & -> & Hc)]; [done|]. injection Hb2 as ->. apply Hc, (inv_dying _ _ _ H). eauto.
    + by apply (inv_dying_once _ _ _ H b u v _ _ Hu' Hv').
Qed.

End Go.

(** ** A call *)

Lemma code_nonempty o : code o <> [].
Proof. by destruct o. Qed.

Lemma code_destroy o b : Destroy b ∉ code o.
Proof. destruct o; cbn; intros Hi; repeat (apply elem_of_cons in Hi as [?|Hi]; [done|]); by apply not_elem_of_nil in Hi. Qed.

Section Call.

Context (s : Sys) (held : gmap nat nat) (w : nat -> status) (H : inv s held w) (o : op) (Hc : may_call s o).

Lemma call_births h : h ∈ births o -> w h = Absent /\ Z.of_nat h < kMaxObjects.
Proof using H Hc.
  intros Hh. destruct Hc as [Hb _]. rewrite list.Forall_forall in Hb. destruct (Hb h Hh) as [E Hm]. split; [|done].
  pose proof (mi_status _ _ _ (inv_mem _ _ _ H) h) as Hs. destruct (w h); cbn in Hs; [done| |]; destruct Hs as (p & Hp & _); congruence.
Qed.

Lemma call_uses h : h ∈ changes o ++ reads o -> w h = Settled /\ Z.of_nat h < kMaxObjects.
Proof using H Hc.
  intros Hh. destruct Hc as (_ & Hu & Hr). rewrite list.Forall_forall in Hu. destruct (Hu h Hh) as [p Hp]. split; [|by apply (mi_object _ _ _ (inv_mem _ _ _ H) h p)].
  pose proof (mi_status _ _ _ (inv_mem _ _ _ H) h) as Hs. destruct (w h) eqn:E; cbn in Hs; [destruct Hs; congruence|done|]. exfalso.
  destruct (inv_loose _ _ _ H h E) as (u & th & Hut & Hin). specialize (Hr u th Hut). cbn in Hr. apply race_free_sym in Hr.
  apply (race_free_disjoint _ _ h Hr Hin). unfold writes. rewrite <- app_assoc. apply elem_of_app. by right.
Qed.

Ltac views := unfold upd; repeat (case_decide; subst; try congruence).

Lemma call_ends : ends (code o) w (writes o).
Proof using H Hc.
  assert (Hw : forall h, h ∈ writes o -> w h <> Loose) by (intros h [Hh|Hh]%elem_of_app; [destruct (call_births h Hh)|destruct (call_uses h); [apply elem_of_app; by left|]]; congruence).
  pose proof call_births as Hb. pose proof call_uses as Hu. clear Hc. destruct o; cbn in *;
    repeat match goal with
    | Hb : forall h, h ∈ [?x] -> _ |- _ => destruct (Hb x (list_elem_of_here _ _)) as [? _]; clear Hb
    | Hu : forall h, h ∈ [?x; ?y] -> _ |- _ => destruct (Hu x (list_elem_of_here _ _)) as [? _]; destruct (Hu y (list_elem_of_further _ _ _ (list_elem_of_here _ _))) as [? _]; clear Hu
    end; views; intros h Hh; pose proof (Hw h Hh); views; done.
Qed.

Lemma call_good : good_thread w o (code o).
Proof using H Hc.
  split.
  - exact call_ends.
  - unfold within, writes. destruct o; cbn; repeat constructor; set_solver.
  - rewrite list.Forall_forall. intros h [Hh|Hh]%elem_of_app; [by apply call_births|]. apply call_uses, elem_of_app. by left.
  - destruct o; cbn; repeat split; try done; try (by eexists); set_solver.
  - destruct o; cbn; repeat constructor; by intros [].
Qed.

Lemma call_inv t : threads s !! t = None -> inv (resume s t o (code o)) held w.
Proof using H Hc.
  intros Ht. pose proof (code_nonempty o) as Hn.
  assert (Hl : forall u, threads (resume s t o (code o)) !! u = if decide (u = t) then Some (mkThread o (code o)) else threads s !! u).
  { intros u. rewrite lookup_resume. by destruct (code o). }
  assert (Hr : forall u a, threads s !! u = Some a -> race_free o (running a)) by (intros u a Hu; destruct Hc as (_ & _ & Hr); by apply (Hr u a)).
  pose proof H as [Hm Hth Hrace Hlo Hcp Hdy Hon]. split.
  - destruct Hm. by split.
  - intros u o' k. rewrite Hl. case_decide; [intros [= <- <-]; exact call_good|apply Hth].
  - intros u v a b Hne. rewrite !Hl. repeat case_decide; subst; [done|intros [= <-] Hv; by apply (Hr v)|intros Hu [= <-]; apply race_free_sym; by apply (Hr u)|by apply Hrace].
  - intros h Hh. destruct (Hlo h Hh) as (u & th & Hu & Hin). exists u, th. rewrite Hl, decide_False; [done|congruence].
  - intros u o' h k. rewrite Hl. case_decide; [|apply Hcp]. intros [= <- E]. by destruct o.
  - intros b. change (dying s b <-> exists u th, threads (resume s t o (code o)) !! u = Some th /\ Destroy b ∈ todo th). rewrite Hdy. split; intros (u & th & Hu & Hin).
    + exists u, th. rewrite Hl, decide_False; [done|congruence].
    + rewrite Hl in Hu. case_decide; [injection Hu as <-; by destruct (code_destroy o b)|eauto].
  - intros b u v a c. rewrite !Hl. repeat case_decide; subst; try done; [intros [= <-] _ Hi _|intros _ [= <-] _ Hi|by apply Hon]; by destruct (code_destroy o b).
Qed.

End Call.

Lemma sharing_start_inv : inv start ∅ (fun _ => Absent).
Proof.
  unfold start. split; cbn; try (intros *; rewrite ?lookup_empty; done).
  - split; cbn; try (intros *; rewrite ?lookup_empty; done); [|constructor]. intros b. rewrite lookup_empty. split; [intros [[? ?]|Hi]; [done|by apply not_elem_of_nil in Hi]|lia].
  - intros b. split; [intros (k & Hk & _)|intros (t & th & Ht & _)]; [by destruct (lookup_empty_Some b k)|by rewrite lookup_empty in Ht].
Qed.

(** Every step there is goes well. *)
Lemma sharing_step_inv s held w t c r : inv s held w -> step s t c = Some r -> exists s' held' w', r = Ok s' /\ inv s' held' w'.
Proof.
  intros H. unfold step. destruct (threads s !! t) as [[o [|i l]]|] eqn:Et; destruct c as [o'|]; try done.
  - intros [= <-]. destruct (step_go _ _ _ _ _ _ _ H Et) as (s1 & l' & held' & w' & -> & Ev & M & F). cbn. eexists _, held', w'. split; [done|]. by eapply go_inv.
  - case_decide as Hc; [|done]. intros [= <-]. eexists _, held, w. split; [done|]. by apply call_inv.
Qed.

Lemma sharing_inv s : reachable s -> exists held w, inv s held w.
Proof. induction 1 as [|s t c s' _ (held & w & H) Hs]; [eexists _, _; apply sharing_start_inv|]. destruct (sharing_step_inv _ _ _ _ _ _ H Hs) as (s2 & held' & w' & [= <-] & H'). eauto. Qed.

(** ** What the class promises *)

(** The [SharedPointer] objects that share a block. *)
Definition owners (s : Sys) (b : nat) : Z := Z.of_nat (size (filter (fun hp : nat * Shared => control_ hp.2 = Some b) (objects s))).

(** No thread is in a call that writes the object. *)
Definition at_rest (s : Sys) (h : nat) : Prop := map_Forall (fun _ th => h ∉ writes (running th)) (threads s).

Lemma at_rest_settled s held w h p : inv s held w -> at_rest s h -> objects s !! h = Some p -> held !! h = control_ p.
Proof.
  intros H Hr Hp. pose proof (mi_status _ _ _ (inv_mem _ _ _ H) h) as Hs. destruct (w h) eqn:E; cbn in Hs; [destruct Hs; congruence|destruct Hs as (q & Hq & ?); congruence|].
  destruct (inv_loose _ _ _ H h E) as (u & th & Hu & Hi). by destruct (Hr u th Hu).
Qed.

Lemma absent_not_held s held w h : inv s held w -> objects s !! h = None -> held !! h = None.
Proof. intros H Hp. pose proof (mi_status _ _ _ (inv_mem _ _ _ H) h) as Hs. destruct (w h); cbn in Hs; [apply Hs| |]; destruct Hs as (p & ? & _); congruence. Qed.

Lemma quiet_count s held w b : inv s held w -> threads s = ∅ -> count held b = owners s b.
Proof.
  intros H Ht. unfold count, owners. f_equal. rewrite <- !size_dom. f_equal. apply set_eq. intros h. rewrite !elem_of_dom. unfold is_Some.
  assert (Hr : at_rest s h) by (unfold at_rest; rewrite Ht; apply map_Forall_empty).
  split; intros [x Hx]; apply map_lookup_filter_Some in Hx as [Hx Hb]; cbn in Hb.
  - subst x. destruct (objects s !! h) as [p|] eqn:Ep; [|rewrite (absent_not_held _ _ _ _ H Ep) in Hx; done].
    exists p. apply map_lookup_filter_Some. rewrite (at_rest_settled _ _ _ _ _ H Hr Ep) in Hx. done.
  - exists b. apply map_lookup_filter_Some. rewrite (at_rest_settled _ _ _ _ _ H Hr Hx). done.
Qed.

Lemma rest_alive s held w h p b : inv s held w -> at_rest s h -> objects s !! h = Some p -> control_ p = Some b -> exists k, blocks s !! b = Some k /\ 0 < refs k.
Proof.
  intros H Hr Hp Hb. pose proof (at_rest_settled _ _ _ _ _ H Hr Hp) as Hh. rewrite Hb in Hh. pose proof (inv_mem _ _ _ H) as M.
  destruct (mi_held _ _ _ M h b Hh) as [k Hk]. exists k. split; [done|]. rewrite (mi_refs _ _ _ M b k Hk). by eapply count_pos.
Qed.

(** With no call under way every block is counted by its owners and has some. *)
Lemma quiet_blocks s held w b k : inv s held w -> threads s = ∅ -> blocks s !! b = Some k -> refs k = owners s b /\ 0 < refs k.
Proof.
  intros H Ht Hk. pose proof (mi_refs _ _ _ (inv_mem _ _ _ H) b k Hk) as Hr. rewrite (quiet_count _ _ _ b H Ht) in Hr. split; [done|].
  assert (refs k <> 0); [|unfold owners in Hr; lia]. intros H0. destruct (proj1 (inv_dying _ _ _ H b) ltac:(by exists k)) as (u & th & Hu & _). by rewrite Ht, lookup_empty in Hu.
Qed.

(** C31. Whatever the threads do, as long as no two of them write or write and read one
    [SharedPointer] object at the same time: no call uses a destroyed block; an object at rest
    is null or points into a block that is alive; between calls a block is alive exactly while
    some object shares it, and its count is the number of those objects; and every block that
    is gone was destroyed exactly once. *)
Theorem SharedPointer_shared s : reachable s ->
  (forall t c r, step s t c = Some r -> exists s', r = Ok s') /\
  (forall h p, objects s !! h = Some p -> at_rest s h ->
    fst <$> get p = control_ p /\ forall b, control_ p = Some b -> exists k, blocks s !! b = Some k /\ use_count s p = Ok (refs k) /\ 0 < refs k /\ deref s p = Ok (value k)) /\
  (threads s = ∅ -> forall b, (is_Some (blocks s !! b) <-> 0 < owners s b) /\ forall k, blocks s !! b = Some k -> refs k = owners s b) /\
  (NoDup (destroyed s) /\ forall b, b ∈ destroyed s <-> (b < next_block s)%nat /\ blocks s !! b = None).
Proof.
  intros (held & w & H)%sharing_inv. pose proof (inv_mem _ _ _ H) as M. split; [|split; [|split; [|split]]].
  - intros t c r Hs. destruct (sharing_step_inv _ _ _ _ _ _ H Hs) as (s' & ? & ? & ? & _). eauto.
  - intros h p Hp Hr. destruct (mi_object _ _ _ M h p Hp) as [_ Hf]. split; [done|]. intros b Hb. destruct (rest_alive _ _ _ _ _ _ H Hr Hp Hb) as (k & Hk & Hpos). exists k.
    unfold use_count, deref, block. rewrite Hb in *. rewrite Hk. destruct (pointer_ p) as [[b' off]|]; [|done]. injection Hf as ->. by rewrite Hk.
  - intros Ht b. split; [|intros k Hk; by apply (quiet_blocks _ _ _ _ _ H Ht Hk)]. split.
    + intros [k Hk]. destruct (quiet_blocks _ _ _ _ _ H Ht Hk). lia.
    + intros Ho. rewrite <- (quiet_count _ _ _ b H Ht) in Ho. destruct (count_held _ _ Ho) as [h Hh]. by eapply mi_held.
  - apply (mi_once _ _ _ M).
  - intros b. split.
    + intros Hb. split; [apply (mi_blocks _ _ _ M); by right|by apply (mi_destroyed _ _ _ M)].
    + intros [Hb Hn]. apply (mi_blocks _ _ _ M) in Hb as [[k Hk]|]; [congruence|done].
Qed.

(** Two threads copy object 0 at the same time, a third object is assigned, and all are
    destroyed again. *)
Definition sharing : list (nat * choice) :=
  [(0%nat, Call (MakeShared 0 7)); (0%nat, Go);
   (1%nat, Call (CopyConstruct 1 0 8)); (2%nat, Call (CopyConstruct 2 0 0)); (1%nat, Go); (2%nat, Go); (2%nat, Go); (1%nat, Go);
   (0%nat, Call (MakeShared 3 9)); (0%nat, Go); (0%nat, Call (CopyAssign 3 0 4)); (0%nat, Go); (0%nat, Go); (0%nat, Go); (0%nat, Go); (0%nat, Go); (0%nat, Go)].

Definition unsharing : list (nat * choice) :=
  [(0%nat, Call (Destruct 0)); (1%nat, Call (Destruct 1)); (0%nat, Go); (1%nat, Go); (1%nat, Go); (0%nat, Go);
   (2%nat, Call (MoveAssign 2 3 5)); (2%nat, Go); (2%nat, Go); (2%nat, Go); (2%nat, Go); (2%nat, Call (Reset 2)); (2%nat, Go); (2%nat, Go); (2%nat, Go)].

Definition reached (cs : list (nat * choice)) : Sys := match run_steps start cs with Ok s => s | _ => start end.

Lemma sharing_runs : (destroyed (reached sharing), owners (reached sharing) 0, refs <$> blocks (reached sharing) !! 0%nat) = ([1%nat], 4, Some 4).
Proof. by vm_compute. Qed.

Lemma reached_reachable cs s : run_steps start cs = Ok s -> reachable (reached cs).
Proof. intros E. unfold reached. rewrite E. eapply run_steps_reachable; [apply reach_start|exact E]. Qed.

Lemma SharedPointer_shared_witness : let s := reached (sharing ++ unsharing) in
  reachable s /\ destroyed s = [0%nat; 1%nat] /\ NoDup (destroyed s) /\ ~ 0 < owners s 0.
Proof.
  intros s. assert (H : reachable s) by (eapply reached_reachable; vm_compute; reflexivity). pose proof (SharedPointer_shared s H) as (_ & _ & H3 & H4 & _).
  split; [exact H|]. split; [vm_compute; reflexivity|]. split; [exact H4|]. intros Ho. apply (proj1 (H3 ltac:(vm_compute; reflexivity) 0%nat)) in Ho. vm_compute in Ho. by destruct Ho.
Defined.

(** An object may be assigned to itself, and moved into itself. *)
Lemma self_assignment : let s := reached [(0%nat, Call (MakeShared 0 7)); (0%nat, Go); (0%nat, Call (CopyAssign 0 0 1)); (0%nat, Go); (0%nat, Go); (0%nat, Go); (0%nat, Go); (0%nat, Go);
    (0%nat, Call (MoveAssign 0 0 1)); (0%nat, Go); (0%nat, Go); (0%nat, Go); (0%nat, Go)] in
  objects s !! 0%nat = Some (mkShared (Some (0%nat, 0)) (Some 0%nat)) /\ owners s 0 = 1 /\ threads s = ∅.
Proof. by vm_compute. Qed.

Fixpoint exec_all (s : Sys) (l : list instr) : res Sys :=
  match l with [] => Ok s | i :: l => '(s, l') ← exec s i; s ← foldl (fun r j => s ← r; '(s, _) ← exec s j; Ok s) (Ok s) l'; exec_all s l end.

(** One thread copies object 0 while another resets it: between the copy of the fields and the
    increment the block is destroyed, and the increment reaches freed memory. *)
Lemma racing_copy : let s := reached [(0%nat, Call (MakeShared 0 7)); (0%nat, Go)] in
  exec_all s [CopyFields 1 0 0; Release 0; SetNull 0; Retain 1] = Undef.
Proof. by vm_compute. Qed.
