(* ===== verification/Links.v ===== *)
(** * Linked lists of nodes

    What the links of the nodes on a list are, stated for every node at once: the node behind
    the first part of a split of the list points at the head of what follows and at the last of
    what precedes.  The ends point at [right] and [left]: null for an open list, the root for a
    circular one.  An update is right when it sets the links of the two neighbours. *)

From S2P Require Import Prelude.

Set Default Proof Using "Type".

Section Links.

Context {P : Type} (ptr : nat -> P).

Definition first (right : P) (l : list nat) : P := match l with [] => right | x :: _ => ptr x end.
Definition final (left : P) (l : list nat) : P := match list.last l with None => left | Some x => ptr x end.

(** [nxt] and [prv] are the link fields of the nodes. *)
Definition nexts (nxt : nat -> option P) (right : P) (l : list nat) : Prop :=
  forall l1 x l2, l = l1 ++ x :: l2 -> nxt x = Some (first right l2).

Definition prevs (prv : nat -> option P) (left : P) (l : list nat) : Prop :=
  forall l1 x l2, l = l1 ++ x :: l2 -> prv x = Some (final left l1).

Lemma first_app right l1 l2 : first right (l1 ++ l2) = first (first right l2) l1.
Proof. by destruct l1. Qed.

Lemma final_app left l1 l2 : final left (l1 ++ l2) = final (final left l1) l2.
Proof. unfold final. rewrite last_app. by destruct (list.last l2). Qed.

Lemma final_snoc left l x : final left (l ++ [x]) = ptr x.
Proof. by rewrite final_app. Qed.

Lemma in_middle (l1 l2 : list nat) x : x ∈ l1 ++ x :: l2.
Proof. apply elem_of_app. right. apply list_elem_of_here. Qed.

(** A list split at two places. *)
Lemma split_cases (a b l1 l2 : list nat) (y x : nat) : a ++ y :: b = l1 ++ x :: l2 ->
  (exists k, a = l1 ++ x :: k /\ l2 = k ++ y :: b) \/ (a = l1 /\ y = x /\ b = l2) \/ (exists k, b = k ++ x :: l2 /\ l1 = a ++ y :: k).
Proof.
  intros [(k & E1 & E2)|(k & E1 & E2)]%app_eq_inv.
  - destruct k as [|z k]; cbn in E2; injection E2 as -> ->; [right; left; by rewrite app_nil_r in E1|left; eauto].
  - destruct k as [|z k]; cbn in E2; injection E2 as -> ->; [right; left; by rewrite app_nil_r in E1|right; right; eauto].
Qed.

Lemma app_split_cases (a b l1 l2 : list nat) (x : nat) : a ++ b = l1 ++ x :: l2 ->
  (exists k, a = l1 ++ x :: k /\ l2 = k ++ b) \/ (exists k, b = k ++ x :: l2 /\ l1 = a ++ k).
Proof.
  intros [(k & E1 & E2)|(k & E1 & E2)]%app_eq_inv; [|by right; eauto].
  destruct k as [|z k]; cbn in E2; [right; exists []; rewrite app_nil_r in *; by subst|injection E2 as -> ->; left; eauto].
Qed.

(** With distinct nodes a node splits a list in one way. *)
Lemma split_unique (a b c d : list nat) (x : nat) : NoDup (a ++ x :: b) -> a ++ x :: b = c ++ x :: d -> a = c /\ b = d.
Proof.
  intros Hn E. destruct (split_cases a b c d x x E) as [(k & -> & ->)|[(-> & _ & ->)|(k & -> & ->)]]; [|done|]; exfalso.
  - rewrite <- app_assoc in Hn. apply list.NoDup_app in Hn as (_ & _ & Hn). cbn in Hn. apply list.NoDup_cons in Hn as [Hn _]. apply Hn, in_middle.
  - apply list.NoDup_app in Hn as (_ & _ & Hn). apply list.NoDup_cons in Hn as [Hn _]. apply Hn, in_middle.
Qed.

Lemma nexts_at nxt right a x b : nexts nxt right (a ++ x :: b) -> nxt x = Some (first right b).
Proof. intros H. exact (H a x b eq_refl). Qed.

Lemma prevs_at prv left a x b : prevs prv left (a ++ x :: b) -> prv x = Some (final left a).
Proof. intros H. exact (H a x b eq_refl). Qed.

Lemma nexts_ext nxt nxt' right l : (forall x, x ∈ l -> nxt' x = nxt x) -> nexts nxt right l -> nexts nxt' right l.
Proof. intros E H l1 x l2 ->. rewrite E by apply in_middle. exact (H l1 x l2 eq_refl). Qed.

Lemma prevs_ext prv prv' left l : (forall x, x ∈ l -> prv' x = prv x) -> prevs prv left l -> prevs prv' left l.
Proof. intros E H l1 x l2 ->. rewrite E by apply in_middle. exact (H l1 x l2 eq_refl). Qed.

Lemma nexts_nil nxt right : nexts nxt right [].
Proof. intros l1 x l2 E. by destruct l1. Qed.

Lemma prevs_nil prv left : prevs prv left [].
Proof. intros l1 x l2 E. by destruct l1. Qed.

Lemma last_not_in (l1 : list nat) x k : NoDup (l1 ++ x :: k) -> list.last (l1 ++ x :: k) = Some x -> k = [].
Proof.
  intros Hn Hl. destruct k as [|z k]; [done|]. exfalso. apply list.NoDup_app in Hn as (_ & _ & Hn). apply list.NoDup_cons in Hn as [Hx _]. apply Hx.
  replace (l1 ++ x :: z :: k) with ((l1 ++ [x]) ++ z :: k) in Hl by (by rewrite <- app_assoc). rewrite last_app in Hl.
  destruct (list.last (z :: k)) as [u|] eqn:E; [injection Hl as ->; by apply last_Some_elem_of|by apply last_None in E].
Qed.

(** Lists that meet: the links of the first part lead into the second. *)
Lemma nexts_app nxt right a b : nexts nxt right (a ++ b) <-> nexts nxt (first right b) a /\ nexts nxt right b.
Proof.
  split.
  - intros H. split; intros l1 x l2 ->; [rewrite <- first_app; apply (H l1 x (l2 ++ b)); by rewrite <- app_assoc|apply (H (a ++ l1) x l2); by rewrite <- app_assoc].
  - intros [Ha Hb] l1 x l2 [(k & -> & ->)|(k & -> & ->)]%app_split_cases; [rewrite first_app; by apply (Ha l1 x k)|by apply (Hb k x l2)].
Qed.

Lemma prevs_app prv left a b : prevs prv left (a ++ b) <-> prevs prv left a /\ prevs prv (final left a) b.
Proof.
  split.
  - intros H. split; intros l1 x l2 ->; [apply (H l1 x (l2 ++ b)); by rewrite <- app_assoc|rewrite <- final_app; apply (H (a ++ l1) x l2); by rewrite <- app_assoc].
  - intros [Ha Hb] l1 x l2 [(k & -> & ->)|(k & -> & ->)]%app_split_cases; [by apply (Ha l1 x k)|rewrite final_app; by apply (Hb k x l2)].
Qed.

Lemma nexts_cons nxt right x l : nexts nxt right (x :: l) <-> nxt x = Some (first right l) /\ nexts nxt right l.
Proof.
  rewrite (nexts_app nxt right [x] l). split; intros [H1 H2]; (split; [|done]); [exact (H1 [] x [] eq_refl)|].
  intros l1 y l2 E. destruct l1 as [|z l1]; [injection E as <- <-; done|]. injection E as -> E. by destruct l1.
Qed.

Lemma prevs_cons prv left x l : prevs prv left (x :: l) <-> prv x = Some left /\ prevs prv (ptr x) l.
Proof.
  rewrite (prevs_app prv left [x] l). cbn. split; intros [H1 H2]; (split; [|done]); [exact (H1 [] x [] eq_refl)|].
  intros l1 y l2 E. destruct l1 as [|z l1]; [injection E as <- <-; done|]. injection E as -> E. by destruct l1.
Qed.

Lemma prevs_snoc prv left l x : prevs prv left (l ++ [x]) <-> prevs prv left l /\ prv x = Some (final left l).
Proof. rewrite prevs_app, prevs_cons. split; [by intros (? & ? & _)|intros [? ?]; split; [done|split; [done|apply prevs_nil]]]. Qed.

Lemma nexts_snoc nxt right l x : nexts nxt right (l ++ [x]) <-> nexts nxt (ptr x) l /\ nxt x = Some right.
Proof. rewrite nexts_app, nexts_cons. split; [by intros (? & ? & _)|intros [? ?]; split; [done|split; [done|apply nexts_nil]]]. Qed.

(** The end a list leads to is changed in its last node only. *)
Lemma nexts_redirect nxt nxt' r r' l : NoDup l -> (forall x, x ∈ l -> list.last l <> Some x -> nxt' x = nxt x) -> (forall x, list.last l = Some x -> nxt' x = Some r') -> nexts nxt r l -> nexts nxt' r' l.
Proof.
  intros Hn H1 H2 H l1 x l2 ->. destruct l2 as [|z l2]; [apply H2; by rewrite last_app|]. rewrite H1; [exact (H l1 x (z :: l2) eq_refl)|apply in_middle|].
  intros E. by apply last_not_in in E.
Qed.

Lemma prevs_redirect prv prv' r r' l : NoDup l -> (forall x, x ∈ l -> head l <> Some x -> prv' x = prv x) -> (forall x, head l = Some x -> prv' x = Some r') -> prevs prv r l -> prevs prv' r' l.
Proof.
  intros Hn H1 H2 H l1 x l2 ->. destruct l1 as [|z l1]; [by apply H2|]. rewrite H1; [rewrite (H (z :: l1) x l2 eq_refl)|apply in_middle|].
  - f_equal. change (z :: l1) with ([z] ++ l1). by rewrite !final_app.
  - intros [= ->]. apply list.NoDup_cons in Hn as [Hn _]. apply Hn, in_middle.
Qed.

End Links.
