(* ===== verification/LinkedList.v ===== *)
(** * base::LinkedList (containers/linked_list.h, linked_list.cc)

    Intrusive circular lists: the nodes live where their owner put them, each list has a root
    node that is linked to itself while the list is empty.  The memory holds any number of lists
    and of nodes in no list; the contract is a list of nodes per root. *)

From stdpp Require Import gmap.
From S2P Require Import Prelude Memory Refine Links.

Set Default Proof Using "Type".

(** [LinkNodeBase]; a null pointer is [None]. *)
Record Link := mkLink { previous_ : option nat; next_ : option nat }.

#[export] Instance Link_eq_dec : EqDecision Link.
Proof. solve_decision. Defined.

Abbreviation Heap := (gmap nat Link).

Definition node (h : Heap) (p : option nat) : res Link := match p ≫= fun a => h !! a with Some n => Ok n | None => Undef end.
Definition set_next (h : Heap) (p : option nat) (q : option nat) : res Heap :=
  match p with Some a => n ← node h p; Ok (<[a := mkLink (previous_ n) q]> h) | None => Undef end.
Definition set_previous (h : Heap) (p : option nat) (q : option nat) : res Heap :=
  match p with Some a => n ← node h p; Ok (<[a := mkLink q (next_ n)]> h) | None => Undef end.

(** ** LinkNodeBase *)

Definition new_node (h : Heap) (this : nat) : Heap := <[this := mkLink None None]> h.
Definition new_linked (h : Heap) (this : nat) (previous next : option nat) : Heap := <[this := mkLink previous next]> h.

(** The move constructor takes the place of [rhs] in its list. *)
Definition move_node (h : Heap) (this rhs : nat) : res Heap :=
  n ← node h (Some rhs);
  let h := new_node h this in
  h ← set_next h (Some this) (next_ n);
  h ← set_next h (Some rhs) None;
  h ← set_previous h (Some this) (previous_ n);
  h ← set_previous h (Some rhs) None;
  match next_ n with
  | Some _ => h ← set_previous h (next_ n) (Some this); set_next h (previous_ n) (Some this)
  | None => Ok h
  end.

Definition RemoveFromList (h : Heap) (this : nat) : res Heap :=
  n ← node h (Some this);
  h ← set_next h (previous_ n) (next_ n);
  n ← node h (Some this);
  h ← set_previous h (next_ n) (previous_ n);
  h ← set_next h (Some this) None;
  set_previous h (Some this) None.

(** The debug checks refuse a node that is in a list. *)
Definition dcheck (b : bool) : res () := if b then Ok () else Undef.

Definition InsertBeforeBase (h : Heap) (this e : nat) : res Heap :=
  n ← node h (Some this);
  _ ← dcheck (bool_decide (previous_ n = None));
  _ ← dcheck (bool_decide (next_ n = None));
  h ← set_next h (Some this) (Some e);
  ne ← node h (Some e);
  h ← set_previous h (Some this) (previous_ ne);
  ne ← node h (Some e);
  h ← set_next h (previous_ ne) (Some this);
  set_previous h (Some e) (Some this).

Definition InsertAfterBase (h : Heap) (this e : nat) : res Heap :=
  n ← node h (Some this);
  _ ← dcheck (bool_decide (previous_ n = None));
  _ ← dcheck (bool_decide (next_ n = None));
  ne ← node h (Some e);
  h ← set_next h (Some this) (next_ ne);
  h ← set_previous h (Some this) (Some e);
  ne ← node h (Some e);
  h ← set_previous h (next_ ne) (Some this);
  set_next h (Some e) (Some this).

(** ** LinkedList, known by the address of its root *)

Definition new_list (h : Heap) (root_ : nat) : Heap := new_linked h root_ (Some root_) (Some root_).
Definition Append (h : Heap) (root_ e : nat) : res Heap := InsertBeforeBase h e root_.
Definition head_ (h : Heap) (root_ : nat) : res (option nat) := n ← node h (Some root_); Ok (next_ n).
Definition tail_ (h : Heap) (root_ : nat) : res (option nat) := n ← node h (Some root_); Ok (previous_ n).
Definition end_of (root_ : nat) : option nat := Some root_.
Definition empty_ (h : Heap) (root_ : nat) : res bool := p ← head_ h root_; Ok (bool_decide (p = end_of root_)).

(** The loop over a list that the header shows, and its mirror image. *)
Fixpoint walk (field : Link -> option nat) (fuel : nat) (h : Heap) (root_ : nat) (p : option nat) : res (list nat) :=
  match fuel with
  | O => Undef
  | S fuel =>
    if decide (p = end_of root_) then Ok []
    else match p with Some a => n ← node h p; l ← walk field fuel h root_ (field n); Ok (a :: l) | None => Undef end
  end.

Definition forward (h : Heap) (root_ : nat) : res (list nat) := p ← head_ h root_; walk next_ (S (size h)) h root_ p.
Definition backward (h : Heap) (root_ : nat) : res (list nat) := p ← tail_ h root_; walk previous_ (S (size h)) h root_ p.

(** ** Rings *)

Definition nxt (h : Heap) (x : nat) : option nat := n ← h !! x; next_ n.
Definition prv (h : Heap) (x : nat) : option nat := n ← h !! x; previous_ n.

(** The root and the nodes of a list, linked in a circle. *)
Definition ring (h : Heap) (r : nat) (l : list nat) : Prop :=
  NoDup (r :: l) /\ nexts id (nxt h) r (r :: l) /\ prevs id (prv h) r (l ++ [r]).

Lemma ring_ext h h' r l : (forall x, x ∈ r :: l -> h' !! x = h !! x) -> ring h r l -> ring h' r l.
Proof.
  intros E (Hn & H1 & H2). split; [done|]. split; [eapply nexts_ext; [|exact H1]|eapply prevs_ext; [|exact H2]]; intros x Hx; unfold nxt, prv; rewrite E; try done.
  rewrite elem_of_cons. apply elem_of_app in Hx as [Hx|Hx%list_elem_of_singleton]; auto.
Qed.

(** The neighbours at a place of the ring. *)
Lemma ring_at h r a b : ring h r (a ++ b) -> nxt h (final id r a) = Some (first id r b) /\ prv h (first id r b) = Some (final id r a).
Proof.
  intros (_ & H1 & H2). split.
  - destruct a as [|x a _] using rev_ind; [exact (H1 [] r b eq_refl)|]. rewrite final_snoc. apply (H1 (r :: a) x b). by rewrite <- app_assoc.
  - destruct b as [|x b]; [apply (H2 a r []); by rewrite app_nil_r|]. apply (H2 a x (b ++ [r])). by rewrite <- app_assoc.
Qed.

Definition with_next (x : nat) (q : option nat) (h : Heap) : Heap := alter (fun n => mkLink (previous_ n) q) x h.
Definition with_previous (x : nat) (q : option nat) (h : Heap) : Heap := alter (fun n => mkLink q (next_ n)) x h.

Lemma set_next_ok h x q : is_Some (h !! x) -> set_next h (Some x) q = Ok (with_next x q h).
Proof. intros [n E]. unfold set_next, node, with_next. cbn. rewrite E. cbn. f_equal. apply map_eq. intros y. destruct (decide (y = x)) as [->|]; [by rewrite lookup_insert_eq, lookup_alter_eq, E|by rewrite lookup_insert_ne, lookup_alter_ne]. Qed.

Lemma set_previous_ok h x q : is_Some (h !! x) -> set_previous h (Some x) q = Ok (with_previous x q h).
Proof. intros [n E]. unfold set_previous, node, with_previous. cbn. rewrite E. cbn. f_equal. apply map_eq. intros y. destruct (decide (y = x)) as [->|]; [by rewrite lookup_insert_eq, lookup_alter_eq, E|by rewrite lookup_insert_ne, lookup_alter_ne]. Qed.

Lemma node_ok h x : is_Some (h !! x) -> exists n, node h (Some x) = Ok n /\ next_ n = nxt h x /\ previous_ n = prv h x.
Proof. intros [n E]. exists n. unfold node, nxt, prv. cbn. by rewrite E. Qed.

Lemma in_with_next h x q y : is_Some (with_next x q h !! y) <-> is_Some (h !! y).
Proof. unfold with_next. apply lookup_alter_is_Some. Qed.

Lemma in_with_previous h x q y : is_Some (with_previous x q h !! y) <-> is_Some (h !! y).
Proof. unfold with_previous. apply lookup_alter_is_Some. Qed.

Lemma nxt_with_next h x q y : is_Some (h !! x) -> nxt (with_next x q h) y = if decide (y = x) then q else nxt h y.
Proof. intros [n E]. unfold nxt, with_next. case_decide as Ey; [subst; by rewrite lookup_alter_eq, E|by rewrite lookup_alter_ne]. Qed.

Lemma prv_with_next h x q y : prv (with_next x q h) y = prv h y.
Proof. unfold prv, with_next. destruct (decide (y = x)) as [->|]; [rewrite lookup_alter_eq; by destruct (h !! x)|by rewrite lookup_alter_ne]. Qed.

Lemma prv_with_previous h x q y : is_Some (h !! x) -> prv (with_previous x q h) y = if decide (y = x) then q else prv h y.
Proof. intros [n E]. unfold prv, with_previous. case_decide as Ey; [subst; by rewrite lookup_alter_eq, E|by rewrite lookup_alter_ne]. Qed.

Lemma nxt_with_previous h x q y : nxt (with_previous x q h) y = nxt h y.
Proof. unfold nxt, with_previous. destruct (decide (y = x)) as [->|]; [rewrite lookup_alter_eq; by destruct (h !! x)|by rewrite lookup_alter_ne]. Qed.

(** ** Replacing a part of a ring *)

Lemma final_in r a : final id r a ∈ r :: a.
Proof. unfold final. destruct (list.last a) as [x|] eqn:E; [|apply list_elem_of_here]. apply list_elem_of_further. by apply last_Some_elem_of. Qed.

Lemma first_in r b : first id r b ∈ b ++ [r].
Proof. destruct b; apply list_elem_of_here. Qed.

Lemma last_final r a : list.last (r :: a) = Some (final id r a).
Proof. unfold final. change (r :: a) with ([r] ++ a). rewrite last_app. by destruct (list.last a). Qed.

Lemma head_first r b : head (b ++ [r]) = Some (first id r b).
Proof. by destruct b. Qed.

Lemma ring_parts (r : nat) a m b : NoDup (r :: a ++ m ++ b) ->
  NoDup (r :: a) /\ NoDup (b ++ [r]) /\ (forall y, y ∈ r :: a -> y ∉ m ++ b) /\ (forall y, y ∈ b ++ [r] -> y ∉ a ++ m).
Proof.
  intros Hn. assert (Hn' : NoDup ((r :: a) ++ m ++ b)) by done. apply list.NoDup_app in Hn' as (H1 & H2 & H3).
  apply list.NoDup_cons in Hn as [Hr Hn]. rewrite app_assoc in Hn. apply list.NoDup_app in Hn as (H4 & H5 & H6).
  split; [done|]. split; [|split; [exact H2|]].
  - apply list.NoDup_app. split; [done|]. split; [intros x Hx Hx'%list_elem_of_singleton; subst; apply Hr; rewrite !elem_of_app; auto|apply NoDup_singleton].
  - intros y [Hy|Hy%list_elem_of_singleton]%elem_of_app Hi; [by apply (H5 y Hi)|subst; apply Hr; rewrite elem_of_app in Hi; rewrite !elem_of_app; tauto].
Qed.

(** The part [m] of a ring becomes [m']: the neighbours are redirected and the rest stays. *)
Lemma ring_splice h h' r a m m' b : ring h r (a ++ m ++ b) -> NoDup (r :: a ++ m' ++ b) ->
  nexts id (nxt h') (first id r b) m' -> prevs id (prv h') (final id r a) m' ->
  nxt h' (final id r a) = Some (first id (first id r b) m') -> prv h' (first id r b) = Some (final id (final id r a) m') ->
  (forall y, y ∈ r :: a ++ b -> y <> final id r a -> nxt h' y = nxt h y) ->
  (forall y, y ∈ r :: a ++ b -> y <> first id r b -> prv h' y = prv h y) -> ring h' r (a ++ m' ++ b).
Proof.
  intros (Hn & H1 & H2) Hn' M1 M2 E1 E2 F1 F2. destruct (ring_parts _ _ _ _ Hn) as (Na & Nb & Da & Db). split; [done|]. split.
  - rewrite app_comm_cons. change (r :: a ++ m ++ b) with ((r :: a) ++ m ++ b) in H1. apply nexts_app in H1 as [Ha H1]. apply nexts_app in H1 as [_ Hb].
    rewrite first_app in Ha. apply nexts_app. rewrite first_app. split; [|apply nexts_app; split; [done|]].
    + eapply nexts_redirect; [done| | |exact Ha].
      * intros y Hy Hl. apply F1; [|intros ->; by rewrite last_final in Hl]. rewrite app_comm_cons, elem_of_app. by left.
      * intros y Hl. rewrite last_final in Hl. by injection Hl as <-.
    + eapply nexts_ext; [|exact Hb]. intros y Hy. apply F1; [rewrite app_comm_cons, elem_of_app; by right|]. intros ->. apply (Da (final id r a) (final_in r a)). apply elem_of_app. by right.
  - rewrite <- !app_assoc in H2 |- *. apply prevs_app in H2 as [Ha H2]. apply prevs_app in H2 as [_ Hb].
    apply prevs_app. split; [|apply prevs_app; split; [done|]].
    + eapply prevs_ext; [|exact Ha]. intros y Hy. apply F2; [rewrite elem_of_cons, elem_of_app; auto|]. intros ->. apply (Db (first id r b) (first_in r b)). apply elem_of_app. by left.
    + eapply prevs_redirect; [done| | |exact Hb].
      * intros y Hy Hl. apply F2; [|intros ->; by rewrite head_first in Hl]. rewrite elem_of_cons, elem_of_app. apply elem_of_app in Hy as [?| ->%list_elem_of_singleton]; auto.
      * intros y Hl. rewrite head_first in Hl. by injection Hl as <-.
Qed.

(** ** The operations on a ring *)

Definition is_loose (h : Heap) (e : nat) : Prop := h !! e = Some (mkLink None None).

Lemma ring_in h r l x : ring h r l -> x ∈ r :: l -> is_Some (h !! x).
Proof.
  intros (_ & H & _) Hx. apply list_elem_of_split in Hx as (l1 & l2 & E). specialize (H l1 x l2 E). unfold nxt in H. destruct (h !! x); [eauto|done].
Qed.

(** What linking [e] in between two neighbours does. *)
Definition linked (h : Heap) (p e n : nat) (h' : Heap) : Prop :=
  (forall y, nxt h' y = if decide (y = p) then Some e else if decide (y = e) then Some n else nxt h y) /\
  (forall y, prv h' y = if decide (y = n) then Some e else if decide (y = e) then Some p else prv h y) /\
  (forall y, is_Some (h' !! y) <-> is_Some (h !! y)).

Lemma ring_linked h h' r a b e : ring h r (a ++ b) -> e ∉ r :: a ++ b -> linked h (final id r a) e (first id r b) h' -> ring h' r (a ++ e :: b).
Proof.
  intros H He (E1 & E2 & _). pose proof H as (Hn & _ & _).
  assert (Hf : e <> final id r a) by (intros ->; apply He; rewrite app_comm_cons, elem_of_app; left; apply final_in).
  assert (Hs : e <> first id r b).
  { intros ->. apply He. pose proof (first_in r b) as Hi. rewrite elem_of_cons, elem_of_app. apply elem_of_app in Hi as [?| ->%list_elem_of_singleton]; auto. }
  change (a ++ e :: b) with (a ++ [e] ++ b). apply (ring_splice h h' r a [] [e] b H).
  - assert (Hp : r :: a ++ [e] ++ b ≡ₚ e :: r :: a ++ b) by (cbn; rewrite perm_swap; apply perm_skip; symmetry; apply Permutation_middle).
    rewrite Hp. by apply list.NoDup_cons.
  - apply nexts_cons. split; [|apply nexts_nil]. by rewrite E1, decide_False, decide_True.
  - apply prevs_cons. split; [|apply prevs_nil]. by rewrite E2, decide_False, decide_True.
  - by rewrite E1, decide_True.
  - by rewrite E2, decide_True.
  - intros y Hy Hy'. rewrite E1, decide_False, decide_False; [done| |done]. by intros ->.
  - intros y Hy Hy'. rewrite E2, decide_False, decide_False; [done| |done]. by intros ->.
Qed.

Lemma link_eq h h' y : (is_Some (h' !! y) <-> is_Some (h !! y)) -> nxt h' y = nxt h y -> prv h' y = prv h y -> h' !! y = h !! y.
Proof.
  unfold nxt, prv, is_Some. intros Hs. destruct (h !! y) as [[p n]|], (h' !! y) as [[p' n']|]; cbn; [congruence| | |done]; intros _ _; exfalso.
  - destruct (proj2 Hs); eauto; done.
  - destruct (proj1 Hs); eauto; done.
Qed.

Ltac known := repeat first [apply (proj2 (in_with_next _ _ _ _))|apply (proj2 (in_with_previous _ _ _ _))]; assumption.
Ltac fields := repeat first [rewrite nxt_with_previous|rewrite prv_with_next|rewrite nxt_with_next by known|rewrite prv_with_previous by known].
Ltac next_node n := match goal with |- context [node ?h (Some ?x)] => let I := fresh in let E := fresh in let E1 := fresh "N" in let E2 := fresh "P" in
  assert (I : is_Some (h !! x)) by known; destruct (node_ok h x I) as (n & E & E1 & E2); rewrite E; cbn [mbind res_bind]; rewrite ?E1, ?E2; clear I E end.

Lemma loose_node h e : is_loose h e -> node h (Some e) = Ok (mkLink None None).
Proof. unfold is_loose, node. cbn. by intros ->. Qed.

Lemma InsertBefore_ok h e x p : is_loose h e -> is_Some (h !! x) -> prv h x = Some p -> is_Some (h !! p) -> e <> x -> e <> p ->
  exists h', InsertBeforeBase h e x = Ok h' /\ linked h p e x h'.
Proof.
  intros He Hx Hp Ip Nx Np. assert (Ie : is_Some (h !! e)) by (rewrite He; eauto). unfold InsertBeforeBase. rewrite (loose_node h e He). cbn [mbind res_bind previous_ next_]. rewrite !bool_decide_true by done. cbn [dcheck mbind res_bind].
  rewrite (set_next_ok h e) by done. cbn [mbind res_bind]. next_node n1. rewrite set_previous_ok by known. cbn [mbind res_bind]. next_node n2. fields. rewrite (decide_False (P := x = e)) by done. rewrite Hp.
  rewrite set_next_ok by known. cbn [mbind res_bind]. rewrite set_previous_ok by known. eexists. split; [done|]. split; [|split]; intros y.
  - fields. repeat case_decide; congruence.
  - fields. repeat case_decide; congruence.
  - repeat rewrite ?in_with_next, ?in_with_previous. done.
Qed.

Lemma InsertAfter_ok h e x n : is_loose h e -> is_Some (h !! x) -> nxt h x = Some n -> is_Some (h !! n) -> e <> x -> e <> n ->
  exists h', InsertAfterBase h e x = Ok h' /\ linked h x e n h'.
Proof.
  intros He Hx Hn In Nx Nn. assert (Ie : is_Some (h !! e)) by (rewrite He; eauto). unfold InsertAfterBase. rewrite (loose_node h e He). cbn [mbind res_bind previous_ next_]. rewrite !bool_decide_true by done. cbn [dcheck mbind res_bind].
  next_node n1. rewrite (set_next_ok h e) by done. cbn [mbind res_bind]. rewrite set_previous_ok by known. cbn [mbind res_bind]. next_node n2. fields. rewrite (decide_False (P := x = e)) by done. rewrite Hn.
  rewrite set_previous_ok by known. cbn [mbind res_bind]. rewrite set_next_ok by known. eexists. split; [done|]. split; [|split]; intros y.
  - fields. repeat case_decide; congruence.
  - fields. repeat case_decide; congruence.
  - repeat rewrite ?in_with_next, ?in_with_previous. done.
Qed.

(** What taking [e] out from between its neighbours does. *)
Definition unlinked (h : Heap) (p e n : nat) (h' : Heap) : Prop :=
  (forall y, nxt h' y = if decide (y = e) then None else if decide (y = p) then Some n else nxt h y) /\
  (forall y, prv h' y = if decide (y = e) then None else if decide (y = n) then Some p else prv h y) /\
  (forall y, is_Some (h' !! y) <-> is_Some (h !! y)).

Lemma Remove_ok h p e n : is_Some (h !! e) -> nxt h e = Some n -> prv h e = Some p -> is_Some (h !! p) -> is_Some (h !! n) -> e <> p -> e <> n ->
  exists h', RemoveFromList h e = Ok h' /\ unlinked h p e n h'.
Proof.
  intros Ie En Ep Ip In Np Nn. unfold RemoveFromList. next_node n1. rewrite En, Ep. rewrite set_next_ok by done. cbn [mbind res_bind]. next_node n2. fields.
  rewrite (decide_False (P := e = p)) by done. rewrite En, Ep. rewrite set_previous_ok by known. cbn [mbind res_bind]. rewrite set_next_ok by known. cbn [mbind res_bind]. rewrite set_previous_ok by known.
  eexists. split; [done|]. split; [|split]; intros y.
  - fields. repeat case_decide; congruence.
  - fields. repeat case_decide; congruence.
  - repeat rewrite ?in_with_next, ?in_with_previous. done.
Qed.

Lemma Remove_loose h p e n h' : is_Some (h !! e) -> unlinked h p e n h' -> is_loose h' e.
Proof.
  intros Ie (E1 & E2 & E3). unfold is_loose. specialize (E1 e). specialize (E2 e). rewrite decide_True in E1, E2 by done. apply E3 in Ie as [[q q'] Hq]. unfold nxt, prv in *. rewrite Hq in *. cbn in *. by subst.
Qed.

Lemma ring_unlinked h h' r a b e : ring h r (a ++ e :: b) -> unlinked h (final id r a) e (first id r b) h' -> ring h' r (a ++ b).
Proof.
  intros H (E1 & E2 & _). pose proof H as (Hn & _ & _). change (a ++ b) with (a ++ [] ++ b). change (a ++ e :: b) with (a ++ [e] ++ b) in *.
  assert (Hp : r :: a ++ [e] ++ b ≡ₚ e :: r :: a ++ b) by (cbn; rewrite perm_swap; apply perm_skip; symmetry; apply Permutation_middle).
  pose proof Hn as Hn'. rewrite Hp in Hn'. apply list.NoDup_cons in Hn' as [He Hn'].
  destruct (ring_parts _ _ _ _ Hn) as (_ & _ & Da & Db). assert (Hf : final id r a <> e) by (intros E; apply (Da _ (final_in r a)); rewrite E; apply list_elem_of_here).
  assert (Hs : first id r b <> e) by (intros E; apply (Db _ (first_in r b)); rewrite E, elem_of_app; right; apply list_elem_of_here).
  apply (ring_splice h h' r a [e] [] b H); [done|apply nexts_nil|apply prevs_nil| | | |].
  - by rewrite E1, decide_False, decide_True.
  - by rewrite E2, decide_False, decide_True.
  - intros y Hy Hy'. rewrite E1, !decide_False; [done|done|]. by intros ->.
  - intros y Hy Hy'. rewrite E2, !decide_False; [done|done|]. by intros ->.
Qed.

(** What moving [e] to a new place [c] does. *)
Definition moved (h : Heap) (p c e n : nat) (h' : Heap) : Prop :=
  (forall y, nxt h' y = if decide (y = p) then Some c else if decide (y = c) then Some n else if decide (y = e) then None else nxt h y) /\
  (forall y, prv h' y = if decide (y = n) then Some c else if decide (y = c) then Some p else if decide (y = e) then None else prv h y) /\
  (forall y, is_Some (h' !! y) <-> y = c \/ is_Some (h !! y)).

Lemma in_new h c y : is_Some (new_node h c !! y) <-> y = c \/ is_Some (h !! y).
Proof. unfold new_node. rewrite lookup_insert. case_decide as E; [subst; split; eauto|]. split; [by right|]. by intros [->|?]. Qed.

Lemma nxt_new h c y : nxt (new_node h c) y = if decide (y = c) then None else nxt h y.
Proof. unfold nxt, new_node. rewrite lookup_insert. case_decide as E; [subst; by rewrite decide_True|]. rewrite decide_False; [done|congruence]. Qed.

Lemma prv_new h c y : prv (new_node h c) y = if decide (y = c) then None else prv h y.
Proof. unfold prv, new_node. rewrite lookup_insert. case_decide as E; [subst; by rewrite decide_True|]. rewrite decide_False; [done|congruence]. Qed.

Lemma Move_ok h p c e n : is_Some (h !! e) -> nxt h e = Some n -> prv h e = Some p -> is_Some (h !! p) -> is_Some (h !! n) -> h !! c = None -> e <> p -> e <> n ->
  exists h', move_node h c e = Ok h' /\ moved h p c e n h'.
Proof.
  intros Ie En Ep Ip In Hc Np Nn. assert (Nc : forall y, is_Some (h !! y) -> y <> c) by (intros y [z Hz] ->; congruence).
  unfold move_node. next_node n1. rewrite En, Ep. pose proof (in_new h c) as Hin. assert (Ic : is_Some (new_node h c !! c)) by (apply Hin; auto).
  pose proof (proj2 (Hin e) (or_intror Ie)) as Ie'. pose proof (proj2 (Hin p) (or_intror Ip)) as Ip'. pose proof (proj2 (Hin n) (or_intror In)) as In'.
  pose proof (nxt_new h c) as E1. pose proof (prv_new h c) as E2. set (h0 := new_node h c) in *. clearbody h0.
  rewrite (set_next_ok h0 c) by done. cbn [mbind res_bind]. rewrite set_next_ok by known. cbn [mbind res_bind]. rewrite set_previous_ok by known. cbn [mbind res_bind]. rewrite set_previous_ok by known. cbn [mbind res_bind].
  rewrite set_previous_ok by known. cbn [mbind res_bind]. rewrite set_next_ok by known. eexists. split; [done|].
  pose proof (Nc e Ie). pose proof (Nc p Ip). pose proof (Nc n In). split; [|split]; intros y.
  - fields. rewrite E1. repeat case_decide; congruence.
  - fields. rewrite E2. repeat case_decide; congruence.
  - repeat rewrite ?in_with_next, ?in_with_previous. apply Hin.
Qed.

Lemma Move_loose_ok h c e : is_loose h e -> h !! c = None -> exists h', move_node h c e = Ok h' /\ is_loose h' c /\ is_loose h' e /\ forall y, y <> c -> y <> e -> h' !! y = h !! y.
Proof.
  intros He Hc. unfold is_loose in He. assert (Hne : c <> e) by congruence. eexists. unfold move_node. rewrite (loose_node h e He). cbn [mbind res_bind previous_ next_].
  unfold set_next, set_previous, node, new_node. cbn. repeat (rewrite ?lookup_insert_eq; rewrite ?lookup_insert_ne by done; rewrite ?He; cbn). split; [done|].
  unfold is_loose. split; [|split]; [| |intros y Hy1 Hy2]; repeat (rewrite ?lookup_insert_eq; rewrite ?lookup_insert_ne by done); done.
Qed.

Lemma ring_moved h h' r a b c e : ring h r (a ++ e :: b) -> c ∉ r :: a ++ e :: b -> moved h (final id r a) c e (first id r b) h' -> ring h' r (a ++ c :: b).
Proof.
  intros H Hc (E1 & E2 & _). pose proof H as (Hn & _ & _). change (a ++ c :: b) with (a ++ [c] ++ b). change (a ++ e :: b) with (a ++ [e] ++ b) in *.
  assert (Hp : forall z, r :: a ++ [z] ++ b ≡ₚ z :: r :: a ++ b) by (intros z; cbn; rewrite perm_swap; apply perm_skip; symmetry; apply Permutation_middle).
  pose proof Hn as Hn'. rewrite Hp in Hn', Hc. apply list.NoDup_cons in Hn' as [He Hn']. apply not_elem_of_cons in Hc as [Hce Hc].
  destruct (ring_parts _ _ _ _ Hn) as (_ & _ & Da & Db).
  assert (Fi : final id r a ∈ r :: a ++ b) by (rewrite app_comm_cons, elem_of_app; left; apply final_in).
  assert (Si : first id r b ∈ r :: a ++ b) by (pose proof (first_in r b) as Hi; rewrite elem_of_cons, elem_of_app; apply elem_of_app in Hi as [?| ->%list_elem_of_singleton]; auto).
  apply (ring_splice h h' r a [e] [c] b H); [rewrite Hp; by apply list.NoDup_cons|apply nexts_cons; split; [|apply nexts_nil]|apply prevs_cons; split; [|apply prevs_nil]| | | |].
  - rewrite E1, decide_False, decide_True; [done|done|congruence].
  - rewrite E2, decide_False, decide_True; [done|done|congruence].
  - by rewrite E1, decide_True.
  - by rewrite E2, decide_True.
  - intros y Hy Hy'. rewrite E1, !decide_False; [done|congruence|congruence|done].
  - intros y Hy Hy'. rewrite E2, !decide_False; [done|congruence|congruence|done].
Qed.

(** ** The contract *)

Record Lists := mkLists { rings : gmap nat (list nat); loose : gset nat }.

Inductive op :=
  | NewNode (a : nat) | NewList (r : nat) | PushBack (r e : nat) | Before (r e x : nat) | After (r e x : nat) | Remove (r e : nat)
  | Move (r c e : nat) | MoveLoose (c e : nat) | Head (r : nat) | Tail (r : nat) | IsEmpty (r : nat) | Forward (r : nat) | Backward (r : nat).

Inductive out := Done | Node (a : nat) | Flag (b : bool) | Nodes (l : list nat).

Definition run_op (o : op) (h : Heap) : res (Heap * out) :=
  match o with
  | NewNode a => Ok (new_node h a, Done)
  | NewList r => Ok (new_list h r, Done)
  | PushBack r e => h ← Append h r e; Ok (h, Done)
  | Before _ e x => h ← InsertBeforeBase h e x; Ok (h, Done)
  | After _ e x => h ← InsertAfterBase h e x; Ok (h, Done)
  | Remove _ e => h ← RemoveFromList h e; Ok (h, Done)
  | Move _ c e | MoveLoose c e => h ← move_node h c e; Ok (h, Done)
  | Head r => p ← head_ h r; match p with Some a => Ok (h, Node a) | None => Undef end
  | Tail r => p ← tail_ h r; match p with Some a => Ok (h, Node a) | None => Undef end
  | IsEmpty r => b ← empty_ h r; Ok (h, Flag b)
  | Forward r => l ← forward h r; Ok (h, Nodes l)
  | Backward r => l ← backward h r; Ok (h, Nodes l)
  end.

(** The parts of a list in front of [x] and behind it. *)
Fixpoint cut (x : nat) (l : list nat) : option (list nat * list nat) :=
  match l with
  | [] => None
  | y :: l => if decide (y = x) then Some ([], l) else '(a, b) ← cut x l; Some (y :: a, b)
  end.

Definition insert_before (r e x : nat) (l : list nat) : option (list nat) :=
  if decide (x = r) then Some (l ++ [e]) else '(a, b) ← cut x l; Some (a ++ e :: x :: b).
Definition insert_after (r e x : nat) (l : list nat) : option (list nat) :=
  if decide (x = r) then Some (e :: l) else '(a, b) ← cut x l; Some (a ++ x :: e :: b).

Definition unused (st : Lists) (a : nat) : Prop := (a ∉ loose st) /\ map_Forall (fun r l => a ∉ r :: l) (rings st).

#[export] Instance unused_dec st a : Decision (unused st a).
Proof. apply _. Defined.

Definition set_ring (st : Lists) (r : nat) (l : list nat) (fr : gset nat) : Lists := mkLists (<[r := l]> (rings st)) fr.

(** A node is inserted only if it is in no list and taken out only of the list it is in. *)
Definition spec_op (o : op) (st : Lists) : option (Lists * out) :=
  match o with
  | NewNode a => if decide (unused st a) then Some (mkLists (rings st) ({[a]} ∪ loose st), Done) else None
  | NewList r => if decide (unused st r) then Some (set_ring st r [] (loose st), Done) else None
  | PushBack r e => l ← rings st !! r; if decide (e ∈ loose st) then Some (set_ring st r (l ++ [e]) (loose st ∖ {[e]}), Done) else None
  | Before r e x => l ← rings st !! r; l' ← insert_before r e x l; if decide (e ∈ loose st) then Some (set_ring st r l' (loose st ∖ {[e]}), Done) else None
  | After r e x => l ← rings st !! r; l' ← insert_after r e x l; if decide (e ∈ loose st) then Some (set_ring st r l' (loose st ∖ {[e]}), Done) else None
  | Remove r e => l ← rings st !! r; '(a, b) ← cut e l; Some (set_ring st r (a ++ b) ({[e]} ∪ loose st), Done)
  | Move r c e => l ← rings st !! r; '(a, b) ← cut e l; if decide (unused st c) then Some (set_ring st r (a ++ c :: b) ({[e]} ∪ loose st), Done) else None
  | MoveLoose c e => if decide (e ∈ loose st /\ unused st c) then Some (mkLists (rings st) ({[c]} ∪ loose st), Done) else None
  | Head r => l ← rings st !! r; Some (st, Node (first id r l))
  | Tail r => l ← rings st !! r; Some (st, Node (final id r l))
  | IsEmpty r => l ← rings st !! r; Some (st, Flag (bool_decide (l = [])))
  | Forward r => l ← rings st !! r; Some (st, Nodes l)
  | Backward r => l ← rings st !! r; Some (st, Nodes (rev l))
  end.

Record rep (h : Heap) (st : Lists) : Prop := {
  rep_ring r l : rings st !! r = Some l -> ring h r l;
  rep_loose e : e ∈ loose st -> is_loose h e;
  rep_used x : is_Some (h !! x) <-> ~ unused st x;
  rep_apart r r' l l' x : rings st !! r = Some l -> rings st !! r' = Some l' -> x ∈ r :: l -> x ∈ r' :: l' -> r = r' }.

(** ** Each operation keeps to the contract *)

Lemma used_iff st x : ~ unused st x <-> x ∈ loose st \/ exists r l, rings st !! r = Some l /\ x ∈ r :: l.
Proof.
  split.
  - intros H. destruct (decide (x ∈ loose st)) as [?|Hl]; [by left|right].
    destruct (decide (map_Forall (fun r l => x ∉ r :: l) (rings st))) as [Hf|Hf]; [by destruct H|].
    apply map_not_Forall in Hf as (r & l & Hr & Hx); [|apply _]. exists r, l. split; [done|]. by apply dec_stable in Hx.
  - intros [H|(r & l & Hr & Hx)] [H1 H2]; [done|]. exact (H2 r l Hr Hx).
Qed.

Lemma ring_not_loose h r l x : ring h r l -> x ∈ r :: l -> ~ is_loose h x.
Proof. intros (_ & H & _) (l1 & l2 & E)%list_elem_of_split Hl. specialize (H l1 x l2 E). unfold nxt in H. by rewrite Hl in H. Qed.

Lemma rep_free h st r l e : rep h st -> rings st !! r = Some l -> e ∈ loose st -> e ∉ r :: l.
Proof. intros H Hr He Hi. eapply ring_not_loose; [by eapply rep_ring|exact Hi|by eapply rep_loose]. Qed.

Lemma rep_member h st r l x : rep h st -> rings st !! r = Some l -> x ∈ r :: l -> is_Some (h !! x).
Proof. intros H Hr Hx. eapply ring_in; [by eapply rep_ring|done]. Qed.

Lemma rep_unused h st x : rep h st -> unused st x -> h !! x = None.
Proof. intros H Hx. apply eq_None_not_Some. intros Hs. by apply (rep_used _ _ H) in Hs. Qed.

(** One ring is changed, with nodes that were in no other. *)
Lemma ring_update h h' st r l l' fr' : rep h st -> rings st !! r = Some l -> ring h' r l' -> (forall e, e ∈ fr' -> is_loose h' e) ->
  (forall x, x ∈ l' -> x ∈ l \/ x ∈ loose st \/ unused st x) -> (forall x, x ∈ fr' -> x ∈ l \/ x ∈ loose st) ->
  (forall x, x ∈ l -> x ∈ l' \/ x ∈ fr') -> (forall x, x ∈ loose st -> x ∈ l' \/ x ∈ fr') ->
  (forall x, is_Some (h' !! x) <-> is_Some (h !! x) \/ x ∈ l') ->
  (forall y, y ∉ r :: l -> y ∉ r :: l' -> y ∉ loose st -> h' !! y = h !! y) -> rep h' (set_ring st r l' fr').
Proof.
  intros H Hr Hring Hfr L1 L2 L3 L4 Hd Hf.
  assert (Hoth : forall r2 l2 x, r2 <> r -> rings st !! r2 = Some l2 -> x ∈ r2 :: l2 -> (x ∉ r :: l) /\ (x ∉ r :: l') /\ (x ∉ loose st)).
  { intros r2 l2 x Hne H2 Hx. assert (N1 : x ∉ r :: l) by (intros Hi; apply Hne; by eapply rep_apart). assert (N2 : x ∉ loose st) by (intros Hi; by eapply rep_free).
    split; [done|]. split; [|done]. rewrite elem_of_cons in *. intros [->|Hi]; [by apply N1; left|]. destruct (L1 x Hi) as [?|[?|Hu]]; [by apply N1; right|done|].
    pose proof (rep_member _ _ _ _ x H H2 ltac:(by apply elem_of_cons)) as Hs. by rewrite (rep_unused _ _ _ H Hu) in Hs; destruct Hs. }
  split; cbn.
  - intros r2 l2. rewrite lookup_insert. case_decide as E; [intros [= <-]; by subst|]. intros H2. eapply ring_ext; [|by eapply rep_ring]. intros x Hx.
    destruct (Hoth r2 l2 x (not_eq_sym E) H2 Hx) as (? & ? & ?). by apply Hf.
  - exact Hfr.
  - intros x. rewrite Hd, (rep_used _ _ H), !used_iff. cbn. split.
    + intros [[Hl|(r2 & l2 & H2 & Hx)]|Hx].
      * destruct (L4 x Hl); [right; exists r, l'; rewrite lookup_insert_eq, elem_of_cons; auto|by left].
      * destruct (decide (r2 = r)) as [->|Hne]; [|right; exists r2, l2; by rewrite lookup_insert_ne]. rewrite Hr in H2. injection H2 as <-.
        apply elem_of_cons in Hx as [->|Hx]; [|destruct (L3 x Hx) as [?|?]; [|by left]]; right; exists r, l'; rewrite lookup_insert_eq, elem_of_cons; auto.
      * right. exists r, l'. rewrite lookup_insert_eq, elem_of_cons. auto.
    + intros [Hl|(r2 & l2 & H2 & Hx)].
      * destruct (L2 x Hl); [left; right; exists r, l; rewrite elem_of_cons; auto|left; by left].
      * destruct (decide (r2 = r)) as [->|Hne]; [|rewrite lookup_insert_ne in H2 by done; left; right; eauto]. rewrite lookup_insert_eq in H2. injection H2 as <-.
        apply elem_of_cons in Hx as [->|Hx]; [|by right]. left. right. exists r, l. rewrite elem_of_cons. auto.
  - intros r1 r2 l1 l2 x. rewrite !lookup_insert. repeat case_decide; subst; try congruence.
    + intros [= <-] H2 Hx Hx2. by destruct (Hoth r2 l2 x ltac:(congruence) H2 Hx2) as (_ & ? & _).
    + intros H1 [= <-] Hx Hx2. by destruct (Hoth r1 l1 x ltac:(congruence) H1 Hx) as (_ & ? & _).
    + by apply (rep_apart _ _ H).
Qed.

Lemma cut_Some x l a b : cut x l = Some (a, b) -> l = a ++ x :: b.
Proof.
  revert a. induction l as [|y l IH]; intros a; cbn; [done|]. case_decide as E; [intros [= <- <-]; by subst|].
  destruct (cut x l) as [[a1 b1]|]; cbn; [|done]. intros [= <- <-]. by rewrite (IH a1).
Qed.

Lemma linked_frame h h' p e n y : linked h p e n h' -> y <> p -> y <> e -> y <> n -> h' !! y = h !! y.
Proof. intros (E1 & E2 & E3) H1 H2 H3. apply link_eq; [apply E3|by rewrite E1, !decide_False|by rewrite E2, !decide_False]. Qed.

Lemma unlinked_frame h h' p e n y : unlinked h p e n h' -> y <> p -> y <> e -> y <> n -> h' !! y = h !! y.
Proof. intros (E1 & E2 & E3) H1 H2 H3. apply link_eq; [apply E3|by rewrite E1, !decide_False|by rewrite E2, !decide_False]. Qed.

Lemma final_member r a b : final id r a ∈ r :: a ++ b.
Proof. rewrite app_comm_cons, elem_of_app. left. apply final_in. Qed.

Lemma first_member r a b : first id r b ∈ r :: a ++ b.
Proof. pose proof (first_in r b) as Hi. rewrite elem_of_cons, elem_of_app. apply elem_of_app in Hi as [?| ->%list_elem_of_singleton]; auto. Qed.

Section Ring.

Context (h : Heap) (st : Lists) (r : nat) (H : rep h st).

Lemma rep_loose_frame h' e x : (forall y, y <> e -> is_loose h y -> h' !! y = h !! y) -> x ∈ loose st ∖ {[e]} -> is_loose h' x.
Proof using H. intros Hf [Hx Hne]%elem_of_difference. apply not_elem_of_singleton in Hne. pose proof (rep_loose _ _ H x Hx) as Hl. unfold is_loose in *. by rewrite Hf. Qed.

(** The neighbours a place of the ring has. *)
Lemma place_ok a b : rings st !! r = Some (a ++ b) ->
  nxt h (final id r a) = Some (first id r b) /\ prv h (first id r b) = Some (final id r a) /\ is_Some (h !! final id r a) /\ is_Some (h !! first id r b) /\
  forall e, e ∈ loose st -> e <> final id r a /\ e <> first id r b.
Proof using H.
  intros Hr. destruct (ring_at _ _ _ _ (rep_ring _ _ H _ _ Hr)) as [E1 E2]. split; [done|]. split; [done|].
  split; [eapply rep_member; [exact H|exact Hr|apply final_member]|]. split; [eapply rep_member; [exact H|exact Hr|apply first_member]|].
  intros e He. pose proof (rep_free _ _ _ _ _ H Hr He) as Hn. split; intros ->; apply Hn; [apply final_member|apply first_member].
Qed.

Lemma ring_insert_ok a b e h' : rings st !! r = Some (a ++ b) -> e ∈ loose st -> linked h (final id r a) e (first id r b) h' -> rep h' (set_ring st r (a ++ e :: b) (loose st ∖ {[e]})).
Proof using H.
  intros Hr He HL. pose proof (rep_free _ _ _ _ _ H Hr He) as Hn. destruct (place_ok a b Hr) as (_ & _ & _ & _ & Hne). destruct (Hne e He) as [N1 N2].
  eapply ring_update; [exact H|exact Hr|by eapply ring_linked; [by eapply rep_ring|done|exact HL]| | | | | | |].
  - intros x Hx. eapply rep_loose_frame; [|exact Hx]. intros y Hy Hl. eapply linked_frame; [exact HL| |done|]; intros ->; (eapply ring_not_loose; [by eapply rep_ring| |exact Hl]); [apply final_member|apply first_member].
  - intros x. rewrite !elem_of_app, elem_of_cons. intros [?|[->|?]]; auto.
  - intros x [? _]%elem_of_difference. auto.
  - intros x. rewrite !elem_of_app, elem_of_cons. tauto.
  - intros x Hx. destruct (decide (x = e)) as [->|Hxe]; [left; rewrite elem_of_app, elem_of_cons; auto|right]. apply elem_of_difference. by rewrite not_elem_of_singleton.
  - intros x. destruct HL as (_ & _ & ->). split; [by left|]. intros [?|Hx]; [done|]. rewrite elem_of_app, elem_of_cons in Hx.
    destruct (decide (x = e)) as [->|Hxe]; [rewrite (rep_loose _ _ H e He); eauto|]. eapply rep_member; [exact H|exact Hr|]. rewrite elem_of_cons, elem_of_app. tauto.
  - intros y H1 H2 _. eapply linked_frame; [exact HL| | |]; intros ->; [by apply H1, final_member| |by apply H1, first_member]. apply H2. rewrite elem_of_cons, elem_of_app, elem_of_cons. auto.
Qed.

Lemma before_ok l l' e x : rings st !! r = Some l -> insert_before r e x l = Some l' -> e ∈ loose st ->
  exists h', InsertBeforeBase h e x = Ok h' /\ rep h' (set_ring st r l' (loose st ∖ {[e]})).
Proof using H.
  intros Hr Hl He. assert (Hs : exists a b, l = a ++ b /\ l' = a ++ e :: b /\ x = first id r b).
  { unfold insert_before in Hl. case_decide as E; [injection Hl as <-; exists l, []; by rewrite app_nil_r|]. destruct (cut x l) as [[a b]|] eqn:Ec; cbn in Hl; [|done]. injection Hl as <-.
    apply cut_Some in Ec as ->. by exists a, (x :: b). }
  destruct Hs as (a & b & -> & -> & ->). destruct (place_ok a b Hr) as (E1 & E2 & I1 & I2 & Hne). destruct (Hne e He) as [N1 N2].
  destruct (InsertBefore_ok h e _ _ (rep_loose _ _ H e He) I2 E2 I1 N2 N1) as (h' & -> & HL). exists h'. split; [done|]. by apply ring_insert_ok.
Qed.

Lemma after_ok l l' e x : rings st !! r = Some l -> insert_after r e x l = Some l' -> e ∈ loose st ->
  exists h', InsertAfterBase h e x = Ok h' /\ rep h' (set_ring st r l' (loose st ∖ {[e]})).
Proof using H.
  intros Hr Hl He. assert (Hs : exists a b, l = a ++ b /\ l' = a ++ e :: b /\ x = final id r a).
  { unfold insert_after in Hl. case_decide as E; [injection Hl as <-; by exists [], l|]. destruct (cut x l) as [[a b]|] eqn:Ec; cbn in Hl; [|done]. injection Hl as <-.
    apply cut_Some in Ec as ->. exists (a ++ [x]), b. rewrite final_snoc, <- !app_assoc. done. }
  destruct Hs as (a & b & -> & -> & ->). destruct (place_ok a b Hr) as (E1 & E2 & I1 & I2 & Hne). destruct (Hne e He) as [N1 N2].
  destruct (InsertAfter_ok h e _ _ (rep_loose _ _ H e He) I1 E1 I2 N1 N2) as (h' & -> & HL). exists h'. split; [done|]. by apply ring_insert_ok.
Qed.

(** A node of the ring and its neighbours. *)
Lemma inner_ok a b e : rings st !! r = Some (a ++ e :: b) ->
  nxt h e = Some (first id r b) /\ prv h e = Some (final id r a) /\ is_Some (h !! e) /\ is_Some (h !! final id r a) /\ is_Some (h !! first id r b) /\ e <> final id r a /\ e <> first id r b.
Proof using H.
  intros Hr. pose proof (rep_ring _ _ H _ _ Hr) as (Hn & H1 & H2). split; [apply (H1 (r :: a) e b); done|]. split; [apply (H2 a e (b ++ [r])); by rewrite <- app_assoc|].
  change (a ++ e :: b) with (a ++ [e] ++ b) in *. destruct (ring_parts _ _ _ _ Hn) as (_ & _ & Da & Db).
  split; [eapply rep_member; [exact H|exact Hr|]; rewrite elem_of_cons, !elem_of_app, list_elem_of_singleton; auto|].
  split; [eapply rep_member; [exact H|exact Hr|apply final_member]|].
  split; [eapply rep_member; [exact H|exact Hr|]; rewrite app_assoc; apply first_member|].
  split; intros E; [apply (Da _ (final_in r a)); rewrite <- E; apply list_elem_of_here|apply (Db _ (first_in r b)); rewrite <- E, elem_of_app; right; apply list_elem_of_here].
Qed.

Lemma ring_remove_ok a b e : rings st !! r = Some (a ++ e :: b) -> exists h', RemoveFromList h e = Ok h' /\ rep h' (set_ring st r (a ++ b) ({[e]} ∪ loose st)).
Proof using H.
  intros Hr. destruct (inner_ok a b e Hr) as (E1 & E2 & Ie & I1 & I2 & N1 & N2). destruct (Remove_ok h _ e _ Ie E1 E2 I1 I2 N1 N2) as (h' & E & HU). exists h'. split; [done|].
  eapply ring_update; [exact H|exact Hr|eapply ring_unlinked; [by eapply rep_ring|exact HU]| | | | | | |].
  - intros x [->%elem_of_singleton|Hx]%elem_of_union; [by eapply Remove_loose|]. pose proof (rep_loose _ _ H x Hx) as Hl. unfold is_loose. rewrite <- Hl.
    pose proof (rep_free _ _ _ _ _ H Hr Hx) as Hn. eapply unlinked_frame; [exact HU| | |]; intros ->; apply Hn; [apply final_member|rewrite elem_of_cons, elem_of_app, elem_of_cons; auto|].
    change (a ++ e :: b) with (a ++ [e] ++ b). rewrite app_assoc. apply first_member.
  - intros x. rewrite !elem_of_app, elem_of_cons. tauto.
  - intros x [->%elem_of_singleton|Hx]%elem_of_union; [left; rewrite elem_of_app, elem_of_cons; auto|by right].
  - intros x. rewrite !elem_of_app, elem_of_cons, elem_of_union, elem_of_singleton. tauto.
  - intros x Hx. right. apply elem_of_union. by right.
  - intros x. destruct HU as (_ & _ & ->). split; [by left|]. intros [?|Hx]; [done|]. eapply rep_member; [exact H|exact Hr|]. rewrite elem_of_app in Hx. rewrite elem_of_cons, elem_of_app, elem_of_cons. tauto.
  - intros y H1 _ _. eapply unlinked_frame; [exact HU| | |]; intros ->; apply H1; [apply final_member|rewrite elem_of_cons, elem_of_app, elem_of_cons; auto|].
    change (a ++ e :: b) with (a ++ [e] ++ b). rewrite app_assoc. apply first_member.
Qed.

Lemma move_ok a b c e : rings st !! r = Some (a ++ e :: b) -> unused st c -> exists h', move_node h c e = Ok h' /\ rep h' (set_ring st r (a ++ c :: b) ({[e]} ∪ loose st)).
Proof using H.
  intros Hr Hc. pose proof (rep_unused _ _ _ H Hc) as Nc. destruct (inner_ok a b e Hr) as (E1 & E2 & Ie & I1 & I2 & N1 & N2).
  destruct (Move_ok h _ c e _ Ie E1 E2 I1 I2 Nc N1 N2) as (h' & E & HM). exists h'. split; [done|].
  assert (Hin : forall x, is_Some (h !! x) -> x <> c) by (intros x [z Hz] ->; congruence). pose proof HM as (M1 & M2 & M3).
  assert (Hcr : c ∉ r :: a ++ e :: b) by (intros Hi; by apply (Hin c); [eapply rep_member|]).
  assert (Fr : forall y, y <> final id r a -> y <> first id r b -> y <> c -> y <> e -> h' !! y = h !! y).
  { intros y Y1 Y2 Y3 Y4. apply link_eq; [rewrite M3; split; [by intros [->|?]|by right]|by rewrite M1, !decide_False|by rewrite M2, !decide_False]. }
  assert (Hfm : first id r b ∈ r :: a ++ e :: b) by (change (a ++ e :: b) with (a ++ [e] ++ b); rewrite app_assoc; apply first_member).
  assert (Hem : e ∈ r :: a ++ e :: b) by (rewrite elem_of_cons, elem_of_app, elem_of_cons; auto).
  eapply ring_update; [exact H|exact Hr|eapply ring_moved; [by eapply rep_ring|done|exact HM]| | | | | | |].
  - intros x [->%elem_of_singleton|Hx]%elem_of_union.
    + specialize (M1 e). specialize (M2 e). pose proof (Hin e Ie) as Hec. rewrite (decide_False (P := e = _)), decide_False, decide_True in M1 by done. rewrite (decide_False (P := e = _)), decide_False, decide_True in M2 by done. unfold is_loose. destruct (proj2 (M3 e) (or_intror Ie)) as [[q q'] Hq]. unfold nxt, prv in *. rewrite Hq in *. cbn in *. by subst.
    + pose proof (rep_loose _ _ H x Hx) as Hl. unfold is_loose. rewrite <- Hl. pose proof (rep_free _ _ _ _ _ H Hr Hx) as Hn. apply Fr; [intros ->; apply Hn, final_member|intros ->; by apply Hn|by apply Hin; rewrite Hl|intros ->; by apply Hn].
  - intros x. rewrite !elem_of_app, !elem_of_cons. intros [?|[->|?]]; auto.
  - intros x [->%elem_of_singleton|Hx]%elem_of_union; [left; rewrite elem_of_app, elem_of_cons; auto|by right].
  - intros x. rewrite !elem_of_app, !elem_of_cons, elem_of_union, elem_of_singleton. tauto.
  - intros x Hx. right. apply elem_of_union. by right.
  - intros x. rewrite M3, elem_of_app, elem_of_cons. split; [tauto|]. intros [?|Hx]; [by right|]. destruct (decide (x = c)); [by left|right]. eapply rep_member; [exact H|exact Hr|]. rewrite elem_of_cons, elem_of_app, elem_of_cons. tauto.
  - intros y H1 H2 _. apply Fr; [intros ->; apply H1, final_member|intros ->; by apply H1|intros ->; apply H2; rewrite elem_of_cons, elem_of_app, elem_of_cons; auto|intros ->; by apply H1].
Qed.

(** ** Walking around *)

Lemma walk_forward a b fuel : rings st !! r = Some (a ++ b) -> (length b < fuel)%nat -> walk next_ fuel h r (Some (first id r b)) = Ok b.
Proof using H.
  revert a fuel. induction b as [|x b IH]; intros a fuel Hr Hf; (destruct fuel as [|fuel]; [cbn in Hf; lia|]); cbn [walk].
  - by rewrite decide_True.
  - pose proof (rep_ring _ _ H _ _ Hr) as (Hn & _ & _). destruct (inner_ok a b x Hr) as (E1 & _ & Ix & _). cbn [first].
    rewrite decide_False; [|intros [= ->]; apply list.NoDup_cons in Hn as [Hn _]; apply Hn, in_middle]. change (id x) with x. destruct (node_ok h x Ix) as (n & En & N1 & _). rewrite En. cbn [mbind res_bind]. rewrite N1, E1.
    rewrite (IH (a ++ [x])); [done|by rewrite <- app_assoc|cbn in Hf; lia].
Qed.

Lemma walk_backward a b fuel : rings st !! r = Some (a ++ b) -> (length a < fuel)%nat -> walk previous_ fuel h r (Some (final id r a)) = Ok (rev a).
Proof using H.
  revert b fuel. induction a as [|x a IH] using rev_ind; intros b fuel Hr Hf; (destruct fuel as [|fuel]; [lia|]); cbn [walk].
  - by rewrite decide_True.
  - rewrite <- app_assoc in Hr. cbn in Hr. pose proof (rep_ring _ _ H _ _ Hr) as (Hn & _ & _). destruct (inner_ok a b x Hr) as (_ & E2 & Ix & _). rewrite final_snoc.
    rewrite decide_False; [|intros [= ->]; apply list.NoDup_cons in Hn as [Hn _]; apply Hn, in_middle]. change (id x) with x. destruct (node_ok h x Ix) as (n & En & _ & N2). rewrite En. cbn [mbind res_bind]. rewrite N2, E2.
    rewrite (IH (x :: b)); [by rewrite rev_app_distr|done|rewrite length_app in Hf; cbn in Hf; lia].
Qed.

(** A list has fewer nodes than the memory. *)
Lemma ring_size l : rings st !! r = Some l -> (length l < S (size h))%nat.
Proof using H.
  intros Hr. pose proof (rep_ring _ _ H _ _ Hr) as (Hn & _ & _). apply list.NoDup_cons in Hn as [_ Hn]. assert (Hs : list_to_set l ⊆ dom h).
  { intros x Hx%elem_of_list_to_set. apply elem_of_dom. eapply rep_member; [exact H|exact Hr|]. by apply list_elem_of_further. }
  apply subseteq_size in Hs. rewrite size_list_to_set, size_dom in Hs by done. lia.
Qed.

Lemma ends_ok l : rings st !! r = Some l -> head_ h r = Ok (Some (first id r l)) /\ tail_ h r = Ok (Some (final id r l)).
Proof using H.
  intros Hr. assert (Hr' : rings st !! r = Some (l ++ [])) by (by rewrite app_nil_r). destruct (place_ok [] l Hr) as (E1 & _ & I1 & _). destruct (place_ok l [] Hr') as (_ & E2 & _).
  cbn in E1, E2, I1. unfold head_, tail_. destruct (node_ok h r I1) as (n & -> & N1 & N2). cbn [mbind res_bind]. rewrite N1, N2, E1, E2. done.
Qed.

End Ring.

Lemma unused_apart st r l a : unused st a -> rings st !! r = Some l -> a ∉ r :: l.
Proof. intros [_ Hu] Hr. exact (Hu r l Hr). Qed.

Lemma new_node_ok h st a : rep h st -> unused st a -> rep (new_node h a) (mkLists (rings st) ({[a]} ∪ loose st)).
Proof.
  intros H Hu. pose proof (rep_unused _ _ _ H Hu) as Na. assert (Hf : forall x, x <> a -> new_node h a !! x = h !! x) by (intros x Hx; unfold new_node; by rewrite lookup_insert_ne).
  split; cbn.
  - intros r l Hr. eapply ring_ext; [|by eapply rep_ring]. intros x Hx. apply Hf. intros ->. by eapply unused_apart.
  - intros e [->%elem_of_singleton|He]%elem_of_union; [unfold is_loose, new_node; by rewrite lookup_insert_eq|]. pose proof (rep_loose _ _ H e He) as Hl. unfold is_loose. rewrite Hf; [done|]. intros ->. congruence.
  - intros x. rewrite in_new, (rep_used _ _ H), !used_iff. cbn. rewrite elem_of_union, elem_of_singleton. tauto.
  - apply (rep_apart _ _ H).
Qed.

Lemma new_list_ok h st r : rep h st -> unused st r -> rep (new_list h r) (set_ring st r [] (loose st)).
Proof.
  intros H Hu. pose proof (rep_unused _ _ _ H Hu) as Nr. assert (Hf : forall x, x <> r -> new_list h r !! x = h !! x) by (intros x Hx; unfold new_list, new_linked; by rewrite lookup_insert_ne).
  assert (Nn : rings st !! r = None). { destruct (rings st !! r) as [l|] eqn:E; [|done]. exfalso. apply (unused_apart _ _ _ _ Hu E), list_elem_of_here. }
  split; cbn.
  - intros r2 l2. rewrite lookup_insert. case_decide as E; [intros [= <-]; subst r2|].
    + split; [apply NoDup_singleton|]. split; [apply nexts_cons; split; [|apply nexts_nil]|apply prevs_cons; split; [|apply prevs_nil]]; unfold nxt, prv, new_list, new_linked; by rewrite lookup_insert_eq.
    + intros H2. eapply ring_ext; [|by eapply rep_ring]. intros x Hx. apply Hf. intros ->. by eapply unused_apart.
  - intros e He. pose proof (rep_loose _ _ H e He) as Hl. unfold is_loose. rewrite Hf; [done|]. intros ->. congruence.
  - intros x. unfold new_list, new_linked. rewrite (used_iff (set_ring st r [] (loose st))). cbn. split.
    + rewrite lookup_insert. case_decide as E; [intros _; right; exists r, []; subst; rewrite lookup_insert_eq; split; [done|apply list_elem_of_here]|].
      intros [?|(r2 & l2 & H2 & Hx)]%(rep_used _ _ H)%used_iff; [by left|right]. exists r2, l2. rewrite lookup_insert_ne; [done|]. intros <-. congruence.
    + destruct (decide (x = r)) as [->|Hne]; [rewrite lookup_insert_eq; eauto|]. rewrite lookup_insert_ne by done. intros Hx. apply (rep_used _ _ H), used_iff. destruct Hx as [?|(r2 & l2 & H2 & Hx)]; [by left|right].
      destruct (decide (r2 = r)) as [->|Hr2]; [rewrite lookup_insert_eq in H2; injection H2 as <-; by apply list_elem_of_singleton in Hx|]. rewrite lookup_insert_ne in H2 by done. eauto.
  - intros r1 r2 l1 l2 x. rewrite !lookup_insert. repeat case_decide; subst; try congruence.
    + intros [= <-] H2 ->%list_elem_of_singleton Hx. by destruct (unused_apart _ _ _ _ Hu H2).
    + intros H1 [= <-] Hx ->%list_elem_of_singleton. by destruct (unused_apart _ _ _ _ Hu H1).
    + by apply (rep_apart _ _ H).
Qed.

Lemma move_loose_ok h st c e : rep h st -> e ∈ loose st -> unused st c -> exists h', move_node h c e = Ok h' /\ rep h' (mkLists (rings st) ({[c]} ∪ loose st)).
Proof.
  intros H He Hc. pose proof (rep_unused _ _ _ H Hc) as Nc. destruct (Move_loose_ok h c e (rep_loose _ _ H e He) Nc) as (h' & E & L1 & L2 & Hf). exists h'. split; [done|].
  assert (Heq : forall y, h' !! y = new_node h c !! y).
  { intros y. unfold new_node. rewrite lookup_insert. case_decide as Ey; [by subst|]. destruct (decide (y = e)) as [->|]; [rewrite L2; symmetry; by apply (rep_loose _ _ H)|by apply Hf]. }
  rewrite (map_eq _ _ Heq). by apply new_node_ok.
Qed.

#[export] Instance list_refines : Refines run_op spec_op (fun _ _ => True) rep.
Proof.
  intros R o h st st' res H Hs _. destruct o as [a|r|r e|r e x|r e x|r e|r c e|c e|r|r|r|r|r]; cbn [run_op spec_op] in *.
  - case_decide as Hu; [|done]. injection Hs as <- <-. split; [by apply new_node_ok|done].
  - case_decide as Hu; [|done]. injection Hs as <- <-. split; [by apply new_list_ok|done].
  - destruct (rings st !! r) as [l|] eqn:Er; cbn in Hs; [|done]. case_decide as He; [|done]. injection Hs as <- <-. unfold Append.
    destruct (before_ok h st r H l (l ++ [e]) e r Er ltac:(unfold insert_before; by rewrite decide_True) He) as (h' & -> & H'). done.
  - destruct (rings st !! r) as [l|] eqn:Er; cbn in Hs; [|done]. destruct (insert_before r e x l) as [l'|] eqn:El; cbn in Hs; [|done]. case_decide as He; [|done]. injection Hs as <- <-.
    destruct (before_ok h st r H l l' e x Er El He) as (h' & -> & H'). done.
  - destruct (rings st !! r) as [l|] eqn:Er; cbn in Hs; [|done]. destruct (insert_after r e x l) as [l'|] eqn:El; cbn in Hs; [|done]. case_decide as He; [|done]. injection Hs as <- <-.
    destruct (after_ok h st r H l l' e x Er El He) as (h' & -> & H'). done.
  - destruct (rings st !! r) as [l|] eqn:Er; cbn in Hs; [|done]. destruct (cut e l) as [[a b]|] eqn:Ec; cbn in Hs; [|done]. injection Hs as <- <-. apply cut_Some in Ec as ->.
    destruct (ring_remove_ok h st r H a b e Er) as (h' & -> & H'). done.
  - destruct (rings st !! r) as [l|] eqn:Er; cbn in Hs; [|done]. destruct (cut e l) as [[a b]|] eqn:Ec; cbn in Hs; [|done]. case_decide as Hc; [|done]. injection Hs as <- <-. apply cut_Some in Ec as ->.
    destruct (move_ok h st r H a b c e Er Hc) as (h' & -> & H'). done.
  - case_decide as Hc; [|done]. injection Hs as <- <-. destruct Hc as [He Hc]. destruct (move_loose_ok h st c e H He Hc) as (h' & -> & H'). done.
  - destruct (rings st !! r) as [l|] eqn:Er; cbn in Hs; [|done]. injection Hs as <- <-. destruct (ends_ok h st r H l Er) as [-> _]. done.
  - destruct (rings st !! r) as [l|] eqn:Er; cbn in Hs; [|done]. injection Hs as <- <-. destruct (ends_ok h st r H l Er) as [_ ->]. done.
  - destruct (rings st !! r) as [l|] eqn:Er; cbn in Hs; [|done]. injection Hs as <- <-. unfold empty_. destruct (ends_ok h st r H l Er) as [-> _]. cbn. split; [done|]. f_equal. unfold end_of.
    destruct l as [|x l]; [by rewrite !bool_decide_true|]. rewrite !bool_decide_false; [done|done|]. intros [= E]. pose proof (rep_ring _ _ H _ _ Er) as (Hn & _ & _). apply list.NoDup_cons in Hn as [Hn _]. apply Hn. unfold id in E. rewrite E. apply list_elem_of_here.
  - destruct (rings st !! r) as [l|] eqn:Er; cbn in Hs; [|done]. injection Hs as <- <-. unfold forward. destruct (ends_ok h st r H l Er) as [-> _]. cbn [mbind res_bind].
    by rewrite (walk_forward h st r H [] l _ Er (ring_size h st r H l Er)).
  - destruct (rings st !! r) as [l|] eqn:Er; cbn in Hs; [|done]. injection Hs as <- <-. unfold backward. destruct (ends_ok h st r H l Er) as [_ ->]. cbn [mbind res_bind].
    rewrite (walk_backward h st r H l [] _); [done|by rewrite app_nil_r|exact (ring_size h st r H l Er)].
Qed.

Lemma rep_start : rep ∅ (mkLists ∅ ∅).
Proof.
  split; cbn; try (intros *; rewrite ?lookup_empty; done). intros x. rewrite used_iff. cbn. rewrite lookup_empty. split; [by intros []|].
  intros [Hx|(r & l & Hr & _)]; [by apply elem_of_empty in Hx|by rewrite lookup_empty in Hr].
Qed.

(** C32. Every program over any number of lists and nodes that inserts only nodes that are in no
    list runs without touching memory that is not a node, keeps each list a circle that reads
    the same from both ends, and gives the answers of plain lists. *)
Theorem LinkedList_programs os st' outs :
  spec_ops spec_op os (mkLists ∅ ∅) = Some (st', outs) ->
  exists h', run_ops run_op os ∅ = Ok (h', outs) /\
    forall r l, rings st' !! r = Some l -> forward h' r = Ok l /\ backward h' r = Ok (rev l).
Proof.
  intros Hs. destruct (programs_refine run_op spec_op (fun _ _ => True) rep os ∅ _ st' outs rep_start Hs) as (_ & _ & H3).
  destruct (H3 (needs_nothing spec_op _ (fun _ _ => I) os _)) as (h' & E & H). exists h'. split; [done|]. intros r l Hr. destruct (ends_ok h' st' r H l Hr) as [E1 E2]. unfold forward, backward. rewrite E1, E2. cbn [mbind res_bind].
  split; [by rewrite (walk_forward h' st' r H [] l _ Hr (ring_size h' st' r H l Hr))|]. rewrite (walk_backward h' st' r H l [] _); [done|by rewrite app_nil_r|exact (ring_size h' st' r H l Hr)].
Qed.

Definition list_example : list op :=
  [NewList 0; IsEmpty 0; NewNode 1; NewNode 2; NewNode 3; PushBack 0 1; PushBack 0 2; Before 0 3 2; Forward 0; NewList 10; Remove 0 1; After 10 1 10; Move 0 5 3; MoveLoose 6 3;
   Before 10 6 10; Backward 10; Head 0; Tail 0].

Definition list_example_end : Lists := mkLists (<[0%nat := [5; 2]%nat]> (<[10%nat := [1; 6]%nat]> ∅)) {[3%nat]}.

Lemma LinkedList_programs_witness : exists h', run_ops run_op list_example ∅ = Ok (h', [Done; Flag true; Done; Done; Done; Done; Done; Done; Nodes [1; 3; 2]; Done; Done; Done; Done; Done; Done; Nodes [6; 1]; Node 5; Node 2]%nat) /\ forward h' 0 = Ok [5; 2]%nat.
Proof.
  destruct (LinkedList_programs list_example list_example_end
    [Done; Flag true; Done; Done; Done; Done; Done; Done; Nodes [1; 3; 2]; Done; Done; Done; Done; Done; Done; Nodes [6; 1]; Node 5; Node 2]%nat ltac:(vm_compute; reflexivity)) as (h' & E & Hl).
  exists h'. split; [exact E|]. exact (proj1 (Hl 0%nat [5; 2]%nat eq_refl)).
Defined.

(** A node that is in no list has null links, contrary to the comment in [RemoveFromList], and
    taking it out of a list it is not in follows them. *)
Lemma remove_twice : run_ops run_op [NewNode 1; NewList 0; PushBack 0 1; Remove 0 1; Remove 0 1]%nat ∅ = Undef.
Proof. by vm_compute. Qed.
