(* ===== verification/ConcurrentOrderedMap.v ===== *)
(** * base::ConcurrentOrderedMap (containers/concurrent_ordered_map.h)

    A chained hash map whose nodes are also on a doubly linked list in insertion order.  Every
    public member holds the mutex of the map from its first access to its last (insert makes its
    node before it takes the lock, where no other thread can see it), so a member is one step of
    the thread that calls it, and threads interleave whole members.

    The contract is a list of entries, the oldest first: keys may repeat, and find and remove
    mean the newest entry of a key. *)

From stdpp Require Import gmap.
From S2P Require Import Prelude Memory Refine Links.

Set Default Proof Using "Type".
#[local] Open Scope Z_scope.

Section ConcurrentOrderedMap.

Context {K V : Type} `{EqDecision K}.

(** [Hash<Key>]. *)
Context (hash : K -> Z).

Record Node := mkNode { key : K; value : V; next : option nat; orderNext : option nat; orderPrev : option nat }.

Record Map := mkMap {
  nodes : gmap nat Node;
  fresh_ : nat;
  buckets_ : list (option nat);
  orderHead_ : option nat;
  orderTail_ : option nat;
  size_ : Z }.

Definition set_value (v : V) (n : Node) : Node := mkNode (key n) v (next n) (orderNext n) (orderPrev n).
Definition set_entry (e : K * V) (n : Node) : Node := mkNode e.1 e.2 (next n) (orderNext n) (orderPrev n).
Definition set_next (q : option nat) (n : Node) : Node := mkNode (key n) (value n) q (orderNext n) (orderPrev n).
Definition set_orderNext (q : option nat) (n : Node) : Node := mkNode (key n) (value n) (next n) q (orderPrev n).
Definition set_orderPrev (q : option nat) (n : Node) : Node := mkNode (key n) (value n) (next n) (orderNext n) q.

Definition with_nodes (m : Map) h : Map := mkMap h (fresh_ m) (buckets_ m) (orderHead_ m) (orderTail_ m) (size_ m).
Definition with_head (m : Map) p : Map := mkMap (nodes m) (fresh_ m) (buckets_ m) p (orderTail_ m) (size_ m).
Definition with_tail (m : Map) p : Map := mkMap (nodes m) (fresh_ m) (buckets_ m) (orderHead_ m) p (size_ m).
Definition with_size (m : Map) z : Map := mkMap (nodes m) (fresh_ m) (buckets_ m) (orderHead_ m) (orderTail_ m) z.

Definition node (m : Map) (a : nat) : res Node := match nodes m !! a with Some n => Ok n | None => Undef end.
Definition modify (a : nat) (f : Node -> Node) (m : Map) : res Map := n ← node m a; Ok (with_nodes m (<[a := f n]> (nodes m))).
Definition delete_node (a : nat) (m : Map) : res Map := n ← node m a; Ok (with_nodes m (delete a (nodes m))).

Definition new_node (k : K) (v : V) (m : Map) : Map * nat :=
  (mkMap (<[fresh_ m := mkNode k v None None None]> (nodes m)) (S (fresh_ m)) (buckets_ m) (orderHead_ m) (orderTail_ m) (size_ m), fresh_ m).

Definition bucket (m : Map) (i : nat) : res (option nat) := match buckets_ m !! i with Some p => Ok p | None => Undef end.
Definition set_bucket (m : Map) (i : nat) (p : option nat) : res Map :=
  if (i <? length (buckets_ m))%nat then Ok (mkMap (nodes m) (fresh_ m) (<[i := p]> (buckets_ m)) (orderHead_ m) (orderTail_ m) (size_ m)) else Undef.

(** The constructor refuses a map without buckets. *)
Definition new_map (bucketCount : nat) : res Map :=
  if (0 <? bucketCount)%nat then Ok (mkMap ∅ 0 (replicate bucketCount None) None None 0) else Undef.

Definition BucketIndex (m : Map) (k : K) : nat := Z.to_nat (u64 (hash k) mod Z.of_nat (length (buckets_ m))).

Definition BucketPushFront (m : Map) (a : nat) : res Map :=
  n ← node m a;
  let idx := BucketIndex m (key n) in
  p ← bucket m idx;
  m ← modify a (set_next p) m;
  set_bucket m idx (Some a).

Definition OrderListAppend (m : Map) (a : nat) : res Map :=
  m ← modify a (set_orderPrev (orderTail_ m)) m;
  m ← modify a (set_orderNext None) m;
  m ← (match orderTail_ m with Some t => modify t (set_orderNext (Some a)) m | None => Ok (with_head m (Some a)) end);
  Ok (with_tail m (Some a)).

Definition OrderListUnlink (m : Map) (a : nat) : res Map :=
  n ← node m a;
  m ← (match orderPrev n with Some p => modify p (set_orderNext (orderNext n)) m | None => Ok (with_head m (orderNext n)) end);
  n ← node m a;
  match orderNext n with Some q => modify q (set_orderPrev (orderPrev n)) m | None => Ok (with_tail m (orderPrev n)) end.

(** The search of a bucket. *)
Fixpoint find_loop (fuel : nat) (m : Map) (k : K) (p : option nat) : res (option nat) :=
  match fuel with
  | O => Undef
  | S fuel =>
    match p with
    | None => Ok None
    | Some a => n ← node m a; if decide (key n = k) then Ok (Some a) else find_loop fuel m k (next n)
    end
  end.

Definition find_node (m : Map) (k : K) : res (option nat) := p ← bucket m (BucketIndex m k); find_loop (S (size (nodes m))) m k p.

Definition insert (m : Map) (k : K) (v : V) : res Map :=
  let '(m, a) := new_node k v m in
  m ← BucketPushFront m a;
  m ← OrderListAppend m a;
  Ok (with_size m (u64 (size_ m + 1))).

Definition insert_or_assign (m : Map) (k : K) (v : V) : res (Map * bool) :=
  r ← find_node m k;
  match r with
  | Some a => m ← modify a (set_value v) m; Ok (m, false)
  | None =>
    let idx := BucketIndex m k in
    let '(m, a) := new_node k v m in
    p ← bucket m idx;
    m ← modify a (set_next p) m;
    m ← set_bucket m idx (Some a);
    m ← OrderListAppend m a;
    Ok (with_size m (u64 (size_ m + 1)), true)
  end.

(** The loop of [remove] also knows the node before the current one. *)
Fixpoint remove_loop (fuel : nat) (m : Map) (k : K) (idx : nat) (prev current : option nat) : res (Map * bool) :=
  match fuel with
  | O => Undef
  | S fuel =>
    match current with
    | None => Ok (m, false)
    | Some a =>
      n ← node m a;
      if decide (key n = k) then
        m ← (match prev with Some p => modify p (set_next (next n)) m | None => set_bucket m idx (next n) end);
        m ← OrderListUnlink m a;
        m ← delete_node a m;
        Ok (with_size m (u64 (size_ m - 1)), true)
      else remove_loop fuel m k idx current (next n)
    end
  end.

Definition remove (m : Map) (k : K) : res (Map * bool) :=
  let idx := BucketIndex m k in
  p ← bucket m idx;
  remove_loop (S (size (nodes m))) m k idx None p.

(** The loop that deletes all nodes, along the order list. *)
Fixpoint delete_all (fuel : nat) (m : Map) (p : option nat) : res Map :=
  match fuel with
  | O => Undef
  | S fuel => match p with None => Ok m | Some a => n ← node m a; m ← delete_node a m; delete_all fuel m (orderNext n) end
  end.

Definition clear (m : Map) : res Map :=
  m ← delete_all (S (size (nodes m))) m (orderHead_ m);
  Ok (mkMap (nodes m) (fresh_ m) (replicate (length (buckets_ m)) None) None None 0).

(** The destructor; nothing may be left. *)
Definition destroy (m : Map) : res (gmap nat Node) := m ← delete_all (S (size (nodes m))) m (orderHead_ m); Ok (nodes m).

Definition find (m : Map) (k : K) : res (option V) :=
  r ← find_node m k; match r with Some a => n ← node m a; Ok (Some (value n)) | None => Ok None end.
Definition contains (m : Map) (k : K) : res bool := r ← find_node m k; Ok (bool_decide (r <> None)).
Definition map_size (m : Map) : Z := size_ m.
Definition empty (m : Map) : bool := size_ m =? 0.

(** The entries the functor sees. *)
Fixpoint order_loop (fuel : nat) (m : Map) (p : option nat) : res (list (K * V)) :=
  match fuel with
  | O => Undef
  | S fuel => match p with None => Ok [] | Some a => n ← node m a; l ← order_loop fuel m (orderNext n); Ok ((key n, value n) :: l) end
  end.

Definition for_each_in_order (m : Map) : res (list (K * V)) := order_loop (S (size (nodes m))) m (orderHead_ m).

(** The functor may write both the key and the value it is given. *)
Fixpoint order_mut_loop (f : K * V -> K * V) (fuel : nat) (m : Map) (p : option nat) : res Map :=
  match fuel with
  | O => Undef
  | S fuel => match p with None => Ok m | Some a => m ← modify a (fun n => set_entry (f (key n, value n)) n) m; n ← node m a; order_mut_loop f fuel m (orderNext n) end
  end.

Definition for_each_in_order_mut (f : K * V -> K * V) (m : Map) : res Map := order_mut_loop f (S (size (nodes m))) m (orderHead_ m).

(** ** Fields of nodes *)

Definition field {A} (g : Node -> A) (h : gmap nat Node) (x : nat) : option A := g <$> h !! x.

Lemma field_same {A} (g : Node -> A) h x f y : (forall n, g (f n) = g n) -> field g (alter f x h) y = field g h y.
Proof. intros E. unfold field. destruct (decide (y = x)) as [->|]; [rewrite lookup_alter_eq; destruct (h !! x); cbn; by rewrite ?E|by rewrite lookup_alter_ne]. Qed.

Lemma field_set {A} (g : Node -> A) h x f q y : (forall n, g (f n) = q) -> is_Some (h !! x) -> field g (alter f x h) y = if decide (y = x) then Some q else field g h y.
Proof. intros E [n Hn]. unfold field. case_decide as Ey; [subst; rewrite lookup_alter_eq, Hn; cbn; by rewrite E|by rewrite lookup_alter_ne]. Qed.

Lemma field_new {A} (g : Node -> A) h x n y : field g (<[x := n]> h) y = if decide (y = x) then Some (g n) else field g h y.
Proof. unfold field. rewrite lookup_insert. case_decide as E; [subst; by rewrite decide_True|]. rewrite decide_False; [done|congruence]. Qed.

Lemma field_delete {A} (g : Node -> A) h x y : y <> x -> field g (delete x h) y = field g h y.
Proof. intros Hne. unfold field. by rewrite lookup_delete_ne. Qed.

Lemma modify_ok a f m : is_Some (nodes m !! a) -> modify a f m = Ok (with_nodes m (alter f a (nodes m))).
Proof.
  intros [n Hn]. unfold modify, node. rewrite Hn. cbn. do 2 f_equal. apply map_eq. intros y.
  destruct (decide (y = a)) as [->|]; [by rewrite lookup_insert_eq, lookup_alter_eq, Hn|by rewrite lookup_insert_ne, lookup_alter_ne].
Qed.

Lemma node_there m a : is_Some (nodes m !! a) -> exists n, node m a = Ok n /\ nodes m !! a = Some n.
Proof. intros [n Hn]. exists n. unfold node. by rewrite Hn. Qed.

(** ** The representation *)

Abbreviation firsts := (first Some None).
Abbreviation finals := (final Some None).

Definition bucket_of (c : nat) (k : K) : nat := Z.to_nat (u64 (hash k) mod Z.of_nat c).
Definition in_bucket (h : gmap nat Node) (c i : nat) (a : nat) : bool := match h !! a with Some n => (bucket_of c (key n) =? i)%nat | None => false end.

(** The newest node is in front. *)
Definition bucket_list (h : gmap nat Node) (c : nat) (ids : list nat) (i : nat) : list nat := rev (filter (fun a => in_bucket h c i a = true) ids).

Definition entry (h : gmap nat Node) (a : nat) : option (K * V) := (fun n => (key n, value n)) <$> h !! a.
Definition entries (h : gmap nat Node) (ids : list nat) : list (K * V) := omap (entry h) ids.

Record order_ok (h : gmap nat Node) (hd tl : option nat) (ids : list nat) : Prop := {
  or_head : hd = firsts ids;
  or_tail : tl = finals ids;
  or_next : nexts Some (field orderNext h) None ids;
  or_prev : prevs Some (field orderPrev h) None ids }.

Definition bucket_ok (h : gmap nat Node) (bs : list (option nat)) (ids : list nat) (i : nat) : Prop :=
  bs !! i = Some (firsts (bucket_list h (length bs) ids i)) /\ nexts Some (field next h) None (bucket_list h (length bs) ids i).

Record shape (m : Map) (ids : list nat) : Prop := {
  sh_nodup : NoDup ids;
  sh_dom x : is_Some (nodes m !! x) <-> x ∈ ids;
  sh_fresh x : x ∈ ids -> (x < fresh_ m)%nat;
  sh_order : order_ok (nodes m) (orderHead_ m) (orderTail_ m) ids;
  sh_count : (0 < length (buckets_ m))%nat;
  sh_bucket i : (i < length (buckets_ m))%nat -> bucket_ok (nodes m) (buckets_ m) ids i;
  sh_size : size_ m = u64 (Z.of_nat (length ids)) }.

Lemma index_lt c k : (0 < c)%nat -> (bucket_of c k < c)%nat.
Proof. intros Hc. unfold bucket_of. pose proof (Z.mod_pos_bound (u64 (hash k)) (Z.of_nat c) ltac:(lia)). lia. Qed.

Lemma in_bucket_same h h' c i a : field key h' a = field key h a -> in_bucket h' c i a = in_bucket h c i a.
Proof. unfold field, in_bucket. intros E. destruct (h !! a), (h' !! a); cbn in E; congruence. Qed.

Lemma bucket_list_same h h' c ids i : (forall a, a ∈ ids -> field key h' a = field key h a) -> bucket_list h' c ids i = bucket_list h c ids i.
Proof.
  intros E. unfold bucket_list. f_equal. induction ids as [|a ids IH]; [done|]. rewrite !filter_cons. rewrite (in_bucket_same h h' c i a) by (apply E; apply list_elem_of_here).
  rewrite IH by (intros b Hb; apply E; by apply list_elem_of_further). done.
Qed.

Lemma bucket_list_snoc h c ids i a : bucket_list h c (ids ++ [a]) i = (if in_bucket h c i a then [a] else []) ++ bucket_list h c ids i.
Proof. unfold bucket_list. rewrite list.filter_app, rev_app_distr. f_equal. rewrite filter_cons, filter_nil. by destruct (in_bucket h c i a); [rewrite decide_True|rewrite decide_False]. Qed.

Lemma in_bucket_list h c ids i a : a ∈ bucket_list h c ids i <-> a ∈ ids /\ in_bucket h c i a = true.
Proof. unfold bucket_list. rewrite <- Permutation_rev, list_elem_of_filter. tauto. Qed.

Lemma bucket_nodup h c ids i : NoDup ids -> NoDup (bucket_list h c ids i).
Proof. intros H. unfold bucket_list. rewrite <- Permutation_rev. by apply list.NoDup_filter. Qed.

Lemma shape_in m ids a : shape m ids -> a ∈ ids -> exists n, node m a = Ok n /\ nodes m !! a = Some n.
Proof. intros H Ha. apply node_there. by apply (sh_dom _ _ H). Qed.

Lemma shape_size m ids : shape m ids -> (length ids < S (size (nodes m)))%nat.
Proof.
  intros H. assert (Hs : list_to_set (C := gset nat) ids ⊆ dom (nodes m)). { intros x Hx%elem_of_list_to_set. apply elem_of_dom. by apply (sh_dom _ _ H). }
  apply subseteq_size in Hs. rewrite size_list_to_set, size_dom in Hs by apply (sh_nodup _ _ H). lia.
Qed.

(** ** The search *)

Fixpoint hit (h : gmap nat Node) (k : K) (l : list nat) : option nat :=
  match l with [] => None | a :: l => if decide (field key h a = Some k) then Some a else hit h k l end.

Lemma hit_Some h k l a : hit h k l = Some a -> exists b c, l = b ++ a :: c /\ field key h a = Some k /\ forall x, x ∈ b -> field key h x <> Some k.
Proof.
  induction l as [|y l IH]; cbn; [done|]. case_decide as E.
  - intros [= ->]. exists [], l. split; [done|]. split; [done|]. intros x Hx. by apply not_elem_of_nil in Hx.
  - intros H. destruct (IH H) as (b & c & -> & Hk & Hb). exists (y :: b), c. split; [done|]. split; [done|]. intros x [->|Hx]%elem_of_cons; [done|by apply Hb].
Qed.

Lemma hit_None h k l : hit h k l = None -> forall x, x ∈ l -> field key h x <> Some k.
Proof. induction l as [|y l IH]; cbn; [intros _ x Hx; by apply not_elem_of_nil in Hx|]. case_decide as E; [done|]. intros H x [->|Hx]%elem_of_cons; [done|by apply IH]. Qed.

Lemma key_node m a n k : nodes m !! a = Some n -> (field key (nodes m) a = Some k <-> key n = k).
Proof. unfold field. intros ->. cbn. split; [by intros [= ->]|by intros ->]. Qed.

Lemma bucket_search_ok m k l fuel : nexts Some (field next (nodes m)) None l -> (forall a, a ∈ l -> is_Some (nodes m !! a)) -> (length l < fuel)%nat ->
  find_loop fuel m k (firsts l) = Ok (hit (nodes m) k l).
Proof.
  revert fuel. induction l as [|a l IH]; intros fuel Hl Hin Hf; (destruct fuel as [|fuel]; [cbn in Hf; lia|]); cbn; [done|].
  destruct (node_there m a (Hin a (list_elem_of_here _ _))) as (n & -> & En). cbn. pose proof (key_node m a n k En) as Hk. apply nexts_cons in Hl as [Hn Hl].
  destruct (decide (key n = k)) as [E|E]; [rewrite decide_True; [done|by apply Hk]|]. rewrite decide_False; [|intros F; by apply E, Hk]. unfold field in Hn. rewrite En in Hn. injection Hn as ->.
  apply IH; [done|intros b Hb; apply Hin; by apply list_elem_of_further|cbn in Hf; lia].
Qed.

Lemma bucket_list_length h c ids i : (length (bucket_list h c ids i) <= length ids)%nat.
Proof. unfold bucket_list. rewrite length_rev. apply length_filter. Qed.

Lemma bucket_in m ids i a : shape m ids -> a ∈ bucket_list (nodes m) (length (buckets_ m)) ids i -> is_Some (nodes m !! a).
Proof. intros H [Ha _]%in_bucket_list. by apply (sh_dom _ _ H). Qed.

Definition home (m : Map) (ids : list nat) (k : K) : list nat := bucket_list (nodes m) (length (buckets_ m)) ids (BucketIndex m k).

Lemma bucket_head m ids k : shape m ids -> bucket m (BucketIndex m k) = Ok (firsts (home m ids k)) /\ nexts Some (field next (nodes m)) None (home m ids k).
Proof.
  intros H. destruct (sh_bucket _ _ H (BucketIndex m k)) as [E Hn]; [apply index_lt, (sh_count _ _ H)|]. unfold bucket. by rewrite E.
Qed.

Lemma find_node_ok m ids k : shape m ids -> find_node m k = Ok (hit (nodes m) k (home m ids k)).
Proof.
  intros H. unfold find_node. destruct (bucket_head m ids k H) as [-> Hn]. cbn [mbind res_bind]. apply bucket_search_ok; [done|intros a; by apply bucket_in|].
  pose proof (bucket_list_length (nodes m) (length (buckets_ m)) ids (BucketIndex m k)). pose proof (shape_size _ _ H). unfold home. lia.
Qed.

(** The first hit in its bucket is the newest node of the key. *)
Definition newest (h : gmap nat Node) (k : K) (i1 : list nat) (a : nat) (i2 : list nat) : Prop :=
  field key h a = Some k /\ forall x, x ∈ i2 -> field key h x <> Some k.

Lemma key_bucket h c k x : field key h x = Some k -> in_bucket h c (bucket_of c k) x = true.
Proof. unfold field, in_bucket. destruct (h !! x) as [n|]; [|done]. intros [= ->]. by rewrite Nat.eqb_refl. Qed.

Lemma bucket_list_split h c i1 a i2 i : in_bucket h c i a = true -> bucket_list h c (i1 ++ a :: i2) i = bucket_list h c i2 i ++ a :: bucket_list h c i1 i.
Proof. intros E. unfold bucket_list. rewrite list.filter_app, filter_cons, decide_True by done. rewrite rev_app_distr. cbn. by rewrite <- app_assoc. Qed.

Lemma bucket_skip h c i1 a i2 i : in_bucket h c i a = false -> bucket_list h c (i1 ++ a :: i2) i = bucket_list h c (i1 ++ i2) i.
Proof. intros E. unfold bucket_list. rewrite !list.filter_app, filter_cons, decide_False by congruence. done. Qed.

Lemma bucket_both h c i1 i2 i : bucket_list h c (i1 ++ i2) i = bucket_list h c i2 i ++ bucket_list h c i1 i.
Proof. unfold bucket_list. by rewrite list.filter_app, rev_app_distr. Qed.

Lemma newest_hit m ids k a : shape m ids -> hit (nodes m) k (home m ids k) = Some a -> exists i1 i2, ids = i1 ++ a :: i2 /\ newest (nodes m) k i1 a i2.
Proof.
  intros H Hh. destruct (hit_Some _ _ _ _ Hh) as (b & c & E & Hk & Hb). assert (Ha : a ∈ home m ids k) by (rewrite E; apply in_middle). pose proof Ha as Ha'. apply in_bucket_list in Ha' as [Ha' Hin].
  apply list_elem_of_split in Ha' as (i1 & i2 & ->). exists i1, i2. split; [done|]. split; [done|]. intros x Hx Hkx.
  pose proof (bucket_nodup (nodes m) (length (buckets_ m)) _ (BucketIndex m k) (sh_nodup _ _ H)) as Hn. unfold home in E. rewrite (bucket_list_split _ _ _ _ _ _ Hin) in E, Hn.
  destruct (split_unique _ _ _ _ _ Hn E) as [Eb _]. apply (Hb x); [|done]. rewrite <- Eb. apply in_bucket_list. split; [done|]. by apply key_bucket.
Qed.

Lemma newest_none m ids k : shape m ids -> hit (nodes m) k (home m ids k) = None -> forall x, x ∈ ids -> field key (nodes m) x <> Some k.
Proof. intros H Hh x Hx Hk. apply (hit_None _ _ _ Hh x); [|done]. apply in_bucket_list. split; [done|]. by apply key_bucket. Qed.

(** ** The newest entry of a list *)

Fixpoint cut_last (k : K) (l : list (K * V)) : option (list (K * V) * V * list (K * V)) :=
  match l with
  | [] => None
  | (k', v) :: l =>
    match cut_last k l with
    | Some (a, v', b) => Some ((k', v) :: a, v', b)
    | None => if decide (k' = k) then Some ([], v, l) else None
    end
  end.

Lemma cut_last_None k l : (forall v, (k, v) ∉ l) -> cut_last k l = None.
Proof.
  induction l as [|[k' v] l IH]; intros H; cbn; [done|]. rewrite IH by (intros v' Hv'; apply (H v'); by apply list_elem_of_further).
  rewrite decide_False; [done|]. intros ->. apply (H v), list_elem_of_here.
Qed.

Lemma cut_last_Some k l1 v l2 : (forall v', (k, v') ∉ l2) -> cut_last k (l1 ++ (k, v) :: l2) = Some (l1, v, l2).
Proof. intros H. induction l1 as [|[k' v'] l1 IH]; cbn; [by rewrite (cut_last_None _ _ H), decide_True|]. by rewrite IH. Qed.

Lemma order_entries_app h l1 l2 : entries h (l1 ++ l2) = entries h l1 ++ entries h l2.
Proof. apply omap_app. Qed.

Lemma entries_cons h a l : entries h (a :: l) = match entry h a with Some e => e :: entries h l | None => entries h l end.
Proof. done. Qed.

Lemma order_entries_same h h' l : (forall a, a ∈ l -> field key h' a = field key h a /\ field value h' a = field value h a) -> entries h' l = entries h l.
Proof.
  intros E. induction l as [|a l IH]; [done|]. rewrite !entries_cons. destruct (E a (list_elem_of_here _ _)) as [E1 E2].
  rewrite IH by (intros b Hb; apply E; by apply list_elem_of_further). unfold entry, field in *. destruct (h !! a) as [n|], (h' !! a) as [n'|]; cbn in *; try done. injection E1 as ->. by injection E2 as ->.
Qed.

Lemma in_entries h l k v : (k, v) ∈ entries h l -> exists a, a ∈ l /\ field key h a = Some k.
Proof. intros (a & Ha & E)%list_elem_of_omap. exists a. split; [done|]. unfold entry, field in *. destruct (h !! a) as [n|]; [|done]. cbn in *. congruence. Qed.

Lemma cut_newest h k i1 a i2 n : newest h k i1 a i2 -> h !! a = Some n -> cut_last k (entries h (i1 ++ a :: i2)) = Some (entries h i1, value n, entries h i2).
Proof.
  intros [Hk Hn] Ha. rewrite order_entries_app, entries_cons. assert (E : entry h a = Some (k, value n)) by (unfold entry, field in *; rewrite Ha in *; cbn in *; congruence). rewrite E.
  apply cut_last_Some. intros v (x & Hx & Hkx)%in_entries. by apply (Hn x).
Qed.

Lemma cut_none h k ids : (forall x, x ∈ ids -> field key h x <> Some k) -> cut_last k (entries h ids) = None.
Proof. intros H. apply cut_last_None. intros v (x & Hx & Hk)%in_entries. by apply (H x). Qed.

(** ** A new node *)

(** The nodes after [a] was put in front of bucket node [p] and behind order node [tl]. *)
Definition append_nodes (h : gmap nat Node) (a : nat) (tl : option nat) : gmap nat Node :=
  let h := alter (set_orderNext None) a (alter (set_orderPrev tl) a h) in
  match tl with Some t => alter (set_orderNext (Some a)) t h | None => h end.
Definition push_nodes (h : gmap nat Node) (a : nat) (k : K) (v : V) (p tl : option nat) : gmap nat Node :=
  append_nodes (alter (set_next p) a (<[a := mkNode k v None None None]> h)) a tl.

Definition append_head (hd tl : option nat) (a : nat) : option nat := match tl with Some _ => hd | None => Some a end.

Lemma order_append_ok m a : is_Some (nodes m !! a) -> (forall t, orderTail_ m = Some t -> is_Some (nodes m !! t)) ->
  OrderListAppend m a = Ok (mkMap (append_nodes (nodes m) a (orderTail_ m)) (fresh_ m) (buckets_ m) (append_head (orderHead_ m) (orderTail_ m) a) (Some a) (size_ m)).
Proof.
  intros Ha Ht. unfold OrderListAppend. rewrite modify_ok by done. cbn [mbind res_bind]. rewrite modify_ok by (by apply lookup_alter_is_Some). cbn. unfold append_nodes.
  destruct (orderTail_ m) as [t|]; [|done]. rewrite modify_ok; [done|]. cbn. rewrite !lookup_alter_is_Some. by apply Ht.
Qed.

Record push_fields (h : gmap nat Node) (a : nat) (k : K) (v : V) (p tl : option nat) (h' : gmap nat Node) : Prop := {
  pf_key y : field key h' y = if decide (y = a) then Some k else field key h y;
  pf_value y : field value h' y = if decide (y = a) then Some v else field value h y;
  pf_next y : field next h' y = if decide (y = a) then Some p else field next h y;
  pf_prev y : field orderPrev h' y = if decide (y = a) then Some tl else field orderPrev h y;
  pf_order y : field orderNext h' y = if decide (tl = Some y) then Some (Some a) else if decide (y = a) then Some None else field orderNext h y;
  pf_dom y : is_Some (h' !! y) <-> y = a \/ is_Some (h !! y) }.

Lemma push_fields_ok h a k v p tl : (forall t, tl = Some t -> is_Some (h !! t)) -> push_fields h a k v p tl (push_nodes h a k v p tl).
Proof.
  intros Ht. unfold push_nodes, append_nodes. set (h0 := <[a := mkNode k v None None None]> h).
  assert (Ha : is_Some (h0 !! a)) by (unfold h0; rewrite lookup_insert_eq; eauto). assert (Hd : forall y, is_Some (h0 !! y) <-> y = a \/ is_Some (h !! y)).
  { intros y. unfold h0. rewrite lookup_insert. case_decide as E; [subst; split; eauto|]. split; [by right|]. by intros [->|?]. }
  assert (Hf : forall A (g : Node -> A) y, field g h0 y = if decide (y = a) then Some (g (mkNode k v None None None)) else field g h y) by (intros A g y; apply field_new).
  clearbody h0. destruct tl as [t|].
  - assert (It : is_Some (h0 !! t)) by (apply Hd; right; by apply Ht). split; intros y; try (rewrite !field_same by done; apply Hf).
    + by rewrite !field_same by done; rewrite (field_set next _ _ _ p) by done; rewrite Hf; case_decide.
    + rewrite !(field_same orderPrev (alter (set_orderNext None) _ _)), (field_same orderPrev (alter (set_orderPrev _) _ _)) by done.
      rewrite (field_set orderPrev _ _ _ (Some t)) by (done || by apply lookup_alter_is_Some). rewrite field_same, Hf by done. by case_decide.
    + rewrite (field_set orderNext _ _ _ (Some a)) by (done || by rewrite !lookup_alter_is_Some). rewrite (field_set orderNext _ _ _ None) by (done || by rewrite !lookup_alter_is_Some). rewrite !field_same, Hf by done.
      repeat case_decide; congruence.
    + rewrite !lookup_alter_is_Some. apply Hd.
  - split; intros y; try (rewrite !field_same by done; apply Hf).
    + by rewrite !field_same by done; rewrite (field_set next _ _ _ p) by done; rewrite Hf; case_decide.
    + rewrite field_same by done. rewrite (field_set orderPrev _ _ _ None) by (done || by apply lookup_alter_is_Some). rewrite field_same, Hf by done. by case_decide.
    + rewrite (field_set orderNext _ _ _ None) by (done || by rewrite !lookup_alter_is_Some). rewrite !field_same, Hf by done. by repeat case_decide.
    + rewrite !lookup_alter_is_Some. apply Hd.
Qed.

Lemma finals_last l : finals l = list.last l.
Proof. unfold final. by destruct (list.last l). Qed.

Lemma finals_some l : l <> [] -> exists t, finals l = Some t.
Proof. rewrite finals_last. intros Hl. destruct (list.last l) as [t|] eqn:E; [eauto|by apply last_None in E]. Qed.

Lemma push_order h hd ids a k v p tl h' : order_ok h hd tl ids -> NoDup ids -> a ∉ ids -> push_fields h a k v p tl h' -> order_ok h' (append_head hd tl a) (Some a) (ids ++ [a]).
Proof.
  intros [-> -> Hn Hp] Hd Ha F. split.
  - rewrite finals_last, first_app. destruct ids as [|x ids]; [done|]. cbn [first]. by destruct (list.last (x :: ids)) eqn:E; [|apply last_None in E].
  - by rewrite final_snoc.
  - apply nexts_snoc. split.
    + eapply nexts_redirect; [done| | |exact Hn].
      * intros x Hx Hl. rewrite (pf_order _ _ _ _ _ _ _ F), finals_last, decide_False, decide_False; [done|by intros ->|done].
      * intros x Hl. by rewrite (pf_order _ _ _ _ _ _ _ F), finals_last, decide_True.
    + rewrite (pf_order _ _ _ _ _ _ _ F), finals_last, decide_False, decide_True; [done|done|]. intros Hl. by apply Ha, last_Some_elem_of.
  - apply prevs_snoc. split; [|by rewrite (pf_prev _ _ _ _ _ _ _ F), decide_True].
    eapply prevs_ext; [|exact Hp]. intros x Hx. rewrite (pf_prev _ _ _ _ _ _ _ F), decide_False; [done|]. by intros ->.
Qed.

Lemma push_list h a k v p tl h' c ids i : push_fields h a k v p tl h' -> a ∉ ids ->
  bucket_list h' c (ids ++ [a]) i = (if (bucket_of c k =? i)%nat then [a] else []) ++ bucket_list h c ids i.
Proof.
  intros F Ha. rewrite bucket_list_snoc. f_equal.
  - pose proof (pf_key _ _ _ _ _ _ _ F a) as E. rewrite decide_True in E by done. unfold field, in_bucket in *. destruct (h' !! a) as [n|]; [|done]. injection E as ->. done.
  - apply bucket_list_same. intros x Hx. rewrite (pf_key _ _ _ _ _ _ _ F), decide_False; [done|]. by intros ->.
Qed.

Lemma push_bucket m ids a k v tl h' i : shape m ids -> a ∉ ids -> push_fields (nodes m) a k v (firsts (home m ids k)) tl h' -> (i < length (buckets_ m))%nat ->
  bucket_ok h' (<[BucketIndex m k := Some a]> (buckets_ m)) (ids ++ [a]) i.
Proof.
  intros H Ha F Hi. destruct (sh_bucket _ _ H i Hi) as [Hb Hn]. unfold bucket_ok. rewrite length_insert, (push_list _ _ _ _ _ _ _ _ _ _ F Ha).
  assert (Hext : nexts Some (field next h') None (bucket_list (nodes m) (length (buckets_ m)) ids i)).
  { eapply nexts_ext; [|exact Hn]. intros x [Hx _]%in_bucket_list. rewrite (pf_next _ _ _ _ _ _ _ F), decide_False; [done|]. by intros ->. }
  unfold BucketIndex. fold (bucket_of (length (buckets_ m)) k). destruct (Nat.eqb_spec (bucket_of (length (buckets_ m)) k) i) as [<-|Hne].
  - rewrite list_lookup_insert_eq by done. split; [done|]. cbn [app]. apply nexts_cons. split; [|done]. by rewrite (pf_next _ _ _ _ _ _ _ F), decide_True.
  - rewrite list_lookup_insert_ne by done. done.
Qed.

Definition pushed (m : Map) (ids : list nat) (k : K) (v : V) : Map :=
  mkMap (push_nodes (nodes m) (fresh_ m) k v (firsts (home m ids k)) (orderTail_ m)) (S (fresh_ m)) (<[BucketIndex m k := Some (fresh_ m)]> (buckets_ m))
    (append_head (orderHead_ m) (orderTail_ m) (fresh_ m)) (Some (fresh_ m)) (u64 (size_ m + 1)).

Lemma fresh_not_in m ids : shape m ids -> fresh_ m ∉ ids.
Proof. intros H Hi. pose proof (sh_fresh _ _ H _ Hi). lia. Qed.

Lemma tail_in m ids t : shape m ids -> orderTail_ m = Some t -> is_Some (nodes m !! t).
Proof. intros H E. rewrite (or_tail _ _ _ _ (sh_order _ _ H)), finals_last in E. apply (sh_dom _ _ H). by apply last_Some_elem_of. Qed.

Lemma pushed_shape m ids k v : shape m ids -> shape (pushed m ids k v) (ids ++ [fresh_ m]).
Proof.
  intros H. pose proof (fresh_not_in _ _ H) as Ha. pose proof (push_fields_ok (nodes m) (fresh_ m) k v (firsts (home m ids k)) (orderTail_ m) (fun t => tail_in m ids t H)) as F. split; cbn [pushed nodes fresh_ buckets_ orderHead_ orderTail_ size_].
  - apply list.NoDup_app. split; [apply (sh_nodup _ _ H)|]. split; [intros x Hx ->%list_elem_of_singleton; done|apply NoDup_singleton].
  - intros x. rewrite (pf_dom _ _ _ _ _ _ _ F), (sh_dom _ _ H), elem_of_app, list_elem_of_singleton. tauto.
  - intros x [Hx| ->%list_elem_of_singleton]%elem_of_app; [pose proof (sh_fresh _ _ H x Hx)|]; lia.
  - apply (push_order _ _ _ _ _ _ _ _ _ (sh_order _ _ H) (sh_nodup _ _ H) Ha F).
  - rewrite length_insert. apply (sh_count _ _ H).
  - intros i. rewrite length_insert. by apply (push_bucket m ids _ k v (orderTail_ m)).
  - rewrite (sh_size _ _ H), length_app. cbn. rewrite wrap_add_idemp. f_equal. lia.
Qed.

Lemma pushed_entries m ids k v : shape m ids -> entries (nodes (pushed m ids k v)) (ids ++ [fresh_ m]) = entries (nodes m) ids ++ [(k, v)].
Proof.
  intros H. pose proof (fresh_not_in _ _ H) as Ha. pose proof (push_fields_ok (nodes m) (fresh_ m) k v (firsts (home m ids k)) (orderTail_ m) (fun t => tail_in m ids t H)) as F. cbn [pushed nodes]. rewrite order_entries_app. f_equal.
  - apply order_entries_same. intros x Hx. rewrite (pf_key _ _ _ _ _ _ _ F), (pf_value _ _ _ _ _ _ _ F), !decide_False; [done| |]; by intros ->.
  - rewrite entries_cons. pose proof (pf_key _ _ _ _ _ _ _ F (fresh_ m)) as E1. pose proof (pf_value _ _ _ _ _ _ _ F (fresh_ m)) as E2. rewrite decide_True in E1 by done. rewrite decide_True in E2 by done.
    unfold entry, field in *. destruct (push_nodes _ _ _ _ _ _ !! fresh_ m) as [n|]; cbn in *; [|done]. congruence.
Qed.

(** Both insertions lead there. *)
Lemma push_steps m ids k v (m1 : Map) : shape m ids -> m1 = (new_node k v m).1 ->
  (m2 ← modify (fresh_ m) (set_next (firsts (home m ids k))) m1; m2 ← set_bucket m2 (BucketIndex m k) (Some (fresh_ m)); m2 ← OrderListAppend m2 (fresh_ m); Ok (with_size m2 (u64 (size_ m2 + 1)))) = Ok (pushed m ids k v).
Proof.
  intros H ->. rewrite modify_ok by (cbn; rewrite lookup_insert_eq; eauto). cbn [mbind res_bind]. unfold set_bucket. cbn [with_nodes new_node fst nodes fresh_ buckets_ orderHead_ orderTail_ size_].
  rewrite (proj2 (Nat.ltb_lt _ _)) by apply index_lt, (sh_count _ _ H). cbn [mbind res_bind]. rewrite order_append_ok; [done| |]; cbn [nodes orderTail_].
  - rewrite lookup_alter_is_Some, lookup_insert_eq. eauto.
  - intros t Ht. rewrite lookup_alter_is_Some, lookup_insert. case_decide; [eauto|]. by eapply tail_in.
Qed.

Lemma insert_ok_ m ids k v : shape m ids -> insert m k v = Ok (pushed m ids k v).
Proof.
  intros H. pose proof (push_steps m ids k v _ H eq_refl) as E. destruct (bucket_head m ids k H) as [Eb _]. unfold insert. unfold new_node in *. cbn [fst] in E. unfold BucketPushFront.
  unfold node at 1. cbn [nodes]. rewrite lookup_insert_eq. cbn [mbind res_bind key]. change (bucket _ _) with (bucket m (BucketIndex m k)). rewrite Eb. cbn [mbind res_bind].
  change (BucketIndex (mkMap _ _ (buckets_ m) _ _ _) k) with (BucketIndex m k). destruct (modify _ _ _) as [m2| |]; cbn [mbind res_bind] in *; done.
Qed.

Lemma insert_or_assign_new m ids k v : shape m ids -> hit (nodes m) k (home m ids k) = None -> insert_or_assign m k v = Ok (pushed m ids k v, true).
Proof.
  intros H Hh. pose proof (push_steps m ids k v _ H eq_refl) as E. destruct (bucket_head m ids k H) as [Eb _]. unfold insert_or_assign. rewrite (find_node_ok m ids k H), Hh. cbn [mbind res_bind]. unfold new_node in *. cbn [fst] in E.
  change (bucket (mkMap _ _ (buckets_ m) _ _ _) _) with (bucket m (BucketIndex m k)). rewrite Eb. cbn [mbind res_bind].
  destruct (modify _ _ _) as [m2| |]; cbn [mbind res_bind] in *; [|done|done]. destruct (set_bucket _ _ _) as [m3| |]; cbn [mbind res_bind] in *; [|done|done].
  destruct (OrderListAppend _ _) as [m4| |]; cbn [mbind res_bind] in *; [|done|done]. congruence.
Qed.

(** ** A node less *)

Definition redirect (p : option nat) (f : Node -> Node) (h : gmap nat Node) : gmap nat Node := match p with Some x => alter f x h | None => h end.

Definition unlink_nodes (h : gmap nat Node) (a : nat) (prev : option nat) (n : Node) : gmap nat Node :=
  delete a (redirect (orderNext n) (set_orderPrev (orderPrev n)) (redirect (orderPrev n) (set_orderNext (orderNext n)) (redirect prev (set_next (next n)) h))).

Definition unlinked (m : Map) (idx a : nat) (prev : option nat) (n : Node) : Map :=
  mkMap (unlink_nodes (nodes m) a prev n) (fresh_ m) (match prev with Some _ => buckets_ m | None => <[idx := next n]> (buckets_ m) end)
    (match orderPrev n with Some _ => orderHead_ m | None => orderNext n end) (match orderNext n with Some _ => orderTail_ m | None => orderPrev n end) (u64 (size_ m - 1)).

Record unlink_fields (h : gmap nat Node) (a : nat) (prev : option nat) (n : Node) (h' : gmap nat Node) : Prop := {
  uf_key y : y <> a -> field key h' y = field key h y;
  uf_value y : y <> a -> field value h' y = field value h y;
  uf_next y : y <> a -> field next h' y = if decide (prev = Some y) then Some (next n) else field next h y;
  uf_order y : y <> a -> field orderNext h' y = if decide (orderPrev n = Some y) then Some (orderNext n) else field orderNext h y;
  uf_prev y : y <> a -> field orderPrev h' y = if decide (orderNext n = Some y) then Some (orderPrev n) else field orderPrev h y;
  uf_dom y : is_Some (h' !! y) <-> y <> a /\ is_Some (h !! y) }.

Lemma redirect_dom p f h y : is_Some (redirect p f h !! y) <-> is_Some (h !! y).
Proof. destruct p; [apply lookup_alter_is_Some|done]. Qed.

Lemma redirect_same {A} (g : Node -> A) p f h y : (forall n, g (f n) = g n) -> field g (redirect p f h) y = field g h y.
Proof. intros E. destruct p; [by apply field_same|done]. Qed.

Lemma redirect_set {A} (g : Node -> A) p f q h y : (forall n, g (f n) = q) -> (forall x, p = Some x -> is_Some (h !! x)) -> field g (redirect p f h) y = if decide (p = Some y) then Some q else field g h y.
Proof.
  intros E Hp. destruct p as [x|]; [|done]. cbn. rewrite (field_set g _ _ _ q) by (done || by apply Hp). destruct (decide (y = x)) as [->|Hne]; [by rewrite decide_True|]. rewrite decide_False; [done|congruence].
Qed.

Lemma unlink_fields_ok h a prev n : (forall x, prev = Some x -> is_Some (h !! x)) -> (forall x, orderNext n = Some x -> is_Some (h !! x)) -> (forall x, orderPrev n = Some x -> is_Some (h !! x)) ->
  unlink_fields h a prev n (unlink_nodes h a prev n).
Proof.
  intros H1 H2 H3. unfold unlink_nodes. split; intros y; try (intros Hy; rewrite field_delete by done).
  - by rewrite !redirect_same.
  - by rewrite !redirect_same.
  - rewrite (redirect_same next), (redirect_same next) by done. by rewrite (redirect_set next _ _ (next n)).
  - rewrite (redirect_same orderNext) by done. rewrite (redirect_set orderNext _ _ (orderNext n)); [by rewrite (redirect_same orderNext)|done|]. intros x Hx. apply redirect_dom. by apply H3.
  - rewrite (redirect_set orderPrev _ _ (orderPrev n)); [by rewrite !(redirect_same orderPrev)|done|]. intros x Hx. apply redirect_dom, redirect_dom. by apply H2.
  - rewrite lookup_delete_is_Some, !redirect_dom. split; intros [? ?]; (split; [congruence|done]).
Qed.

Lemma unlink_order h hd tl i1 a i2 prev n h' : order_ok h hd tl (i1 ++ a :: i2) -> NoDup (i1 ++ a :: i2) -> h !! a = Some n -> unlink_fields h a prev n h' ->
  orderNext n = firsts i2 /\ orderPrev n = finals i1 /\
  order_ok h' (match orderPrev n with Some _ => hd | None => orderNext n end) (match orderNext n with Some _ => tl | None => orderPrev n end) (i1 ++ i2).
Proof.
  intros [-> -> Hn Hp] Hd Ha F. pose proof (nexts_at Some _ _ _ _ _ Hn) as En. pose proof (prevs_at Some _ _ _ _ _ Hp) as Ep. unfold field in En, Ep. rewrite Ha in En, Ep. injection En as En. injection Ep as Ep.
  split; [done|]. split; [done|]. apply list.NoDup_app in Hd as (D1 & D12 & D2). apply list.NoDup_cons in D2 as [Da D2].
  assert (N1 : forall x, x ∈ i1 -> x <> a) by (intros x Hx ->; apply (D12 a Hx), list_elem_of_here). assert (N2 : forall x, x ∈ i2 -> x <> a) by (by intros x Hx ->).
  apply nexts_app in Hn as [Hn1 Hn2]. apply nexts_cons in Hn2 as [_ Hn2]. apply prevs_app in Hp as [Hp1 Hp2]. apply prevs_cons in Hp2 as [_ Hp2]. split.
  - rewrite En, Ep, finals_last. destruct i1 as [|x i1]; [done|]. by destruct (list.last (x :: i1)) eqn:E; [|apply last_None in E].
  - rewrite En, Ep. destruct i2 as [|x i2]; [by rewrite app_nil_r|]. cbn [first]. rewrite !final_app, !finals_last. unfold final. change (a :: x :: i2) with ([a] ++ (x :: i2)). rewrite last_app. by destruct (list.last (x :: i2)) eqn:E; [|apply last_None in E].
  - apply nexts_app. split.
    + eapply nexts_redirect; [done| | |exact Hn1].
      * intros x Hx Hl. rewrite (uf_order _ _ _ _ _ F), Ep, finals_last, decide_False; [done|done|by apply N1].
      * intros x Hl. rewrite (uf_order _ _ _ _ _ F), Ep, finals_last, decide_True, En; [done|done|]. by apply N1, last_Some_elem_of.
    + eapply nexts_ext; [|exact Hn2]. intros x Hx. rewrite (uf_order _ _ _ _ _ F), Ep, finals_last, decide_False; [done| |by apply N2].
      intros Hl. apply (D12 x); [by apply last_Some_elem_of|]. by apply list_elem_of_further.
  - apply prevs_app. split.
    + eapply prevs_ext; [|exact Hp1]. intros x Hx. rewrite (uf_prev _ _ _ _ _ F), En, decide_False; [done| |by apply N1].
      intros Hl. apply (D12 x); [done|]. apply list_elem_of_further. destruct i2; [done|]. injection Hl as ->. apply list_elem_of_here.
    + eapply prevs_redirect; [done| | |exact Hp2].
      * intros x Hx Hl. rewrite (uf_prev _ _ _ _ _ F), En, decide_False; [done| |by apply N2]. intros E. apply Hl. by destruct i2.
      * intros x Hl. assert (Hx : x ∈ i2) by (destruct i2; [done|]; injection Hl as ->; apply list_elem_of_here). rewrite (uf_prev _ _ _ _ _ F), En, decide_True, Ep; [done| |by apply N2]. by destruct i2.
Qed.

Lemma unlink_bucket m i1 a i2 n b c h' i : shape m (i1 ++ a :: i2) -> nodes m !! a = Some n -> home m (i1 ++ a :: i2) (key n) = b ++ a :: c ->
  unlink_fields (nodes m) a (finals b) n h' -> (i < length (buckets_ m))%nat ->
  next n = firsts c /\ bucket_ok h' (match finals b with Some _ => buckets_ m | None => <[BucketIndex m (key n) := next n]> (buckets_ m) end) (i1 ++ i2) i.
Proof.
  intros H Ha Hb F Hi. pose proof (sh_nodup _ _ H) as Hd. set (c0 := length (buckets_ m)) in *. set (idx := BucketIndex m (key n)).
  assert (Hin : in_bucket (nodes m) c0 idx a = true) by (apply (key_bucket (nodes m) c0 (key n) a); unfold field; by rewrite Ha).
  pose proof (bucket_nodup (nodes m) c0 _ idx Hd) as Hbd. unfold home in Hb. fold c0 idx in Hb. pose proof Hb as Hb'. rewrite (bucket_list_split _ _ _ _ _ _ Hin) in Hb', Hbd. destruct (split_unique _ _ _ _ _ Hbd Hb') as [Eb Ec].
  destruct (sh_bucket _ _ H idx (index_lt _ _ (sh_count _ _ H))) as [Hbh Hbn]. fold c0 in Hbh, Hbn. rewrite Hb in Hbh, Hbn.
  pose proof (nexts_at Some _ _ _ _ _ Hbn) as En. unfold field in En. rewrite Ha in En. injection En as En. split; [done|].
  assert (Hna : forall x, x ∈ i1 ++ i2 -> x <> a).
  { intros x Hx ->. apply list.NoDup_app in Hd as (_ & D12 & D2). apply list.NoDup_cons in D2 as [Da _]. apply elem_of_app in Hx as [Hx|Hx]; [apply (D12 a Hx), list_elem_of_here|done]. }
  assert (Hl : forall j, bucket_list h' c0 (i1 ++ i2) j = bucket_list (nodes m) c0 (i1 ++ i2) j) by (intros j; apply bucket_list_same; intros x Hx; apply (uf_key _ _ _ _ _ F); by apply Hna).
  assert (Hlen : length (match finals b with Some _ => buckets_ m | None => <[idx := next n]> (buckets_ m) end) = c0) by (destruct (finals b); [done|by rewrite length_insert]).
  unfold bucket_ok. rewrite Hlen, Hl. destruct (decide (i = idx)) as [->|Hne].
  - rewrite bucket_both, Eb, Ec. split.
    + destruct b as [|x b].
      * cbn. rewrite list_lookup_insert_eq by done. by rewrite En.
      * destruct (finals_some (x :: b) ltac:(done)) as [t ->]. done.
    + apply nexts_app in Hbn as [Hn1 Hn2]. apply nexts_cons in Hn2 as [_ Hn2]. rewrite Hb' in Hbd. apply list.NoDup_app in Hbd as (D1 & D12 & D2). apply list.NoDup_cons in D2 as [Da D2].
      apply nexts_app. split.
      * eapply nexts_redirect; [done| | |exact Hn1].
        -- intros x Hx Hlx. rewrite (uf_next _ _ _ _ _ F), finals_last, decide_False; [done|done|]. intros ->. apply (D12 a Hx), list_elem_of_here.
        -- intros x Hlx. rewrite (uf_next _ _ _ _ _ F), finals_last, decide_True, En; [done|done|]. intros ->. apply (D12 a (last_Some_elem_of _ _ Hlx)), list_elem_of_here.
      * eapply nexts_ext; [|exact Hn2]. intros x Hx. rewrite (uf_next _ _ _ _ _ F), finals_last, decide_False; [done| |by intros ->].
        intros Hlx. apply (D12 x (last_Some_elem_of _ _ Hlx)). by apply list_elem_of_further.
  - assert (Hout : in_bucket (nodes m) c0 i a = false).
    { unfold in_bucket in *. rewrite Ha in *. apply Nat.eqb_eq in Hin. apply Nat.eqb_neq. congruence. }
    destruct (sh_bucket _ _ H i Hi) as [Hih Hin2]. fold c0 in Hih, Hin2. rewrite (bucket_skip _ _ _ _ _ _ Hout) in Hih, Hin2. split.
    + destruct (finals b); [done|]. by rewrite list_lookup_insert_ne.
    + eapply nexts_ext; [|exact Hin2]. intros x Hx. apply in_bucket_list in Hx as [Hx Hxi]. rewrite (uf_next _ _ _ _ _ F), finals_last, decide_False; [done| |by apply Hna].
      intros Hlx. apply last_Some_elem_of in Hlx. rewrite <- Eb in Hlx. apply in_bucket_list in Hlx as [_ Hxx]. unfold in_bucket in *. destruct (nodes m !! x); [|done]. apply Nat.eqb_eq in Hxi, Hxx. congruence.
Qed.

Lemma bucket_node m ids i x : shape m ids -> x ∈ bucket_list (nodes m) (length (buckets_ m)) ids i -> is_Some (nodes m !! x).
Proof. intros H [Hx _]%in_bucket_list. by apply (sh_dom _ _ H). Qed.

(** The neighbours of a node are nodes. *)
Lemma unlink_ready m i1 a i2 n b c : shape m (i1 ++ a :: i2) -> nodes m !! a = Some n -> home m (i1 ++ a :: i2) (key n) = b ++ a :: c ->
  (forall x, finals b = Some x -> is_Some (nodes m !! x) /\ x <> a) /\ (forall x, orderNext n = Some x -> is_Some (nodes m !! x) /\ x <> a) /\ (forall x, orderPrev n = Some x -> is_Some (nodes m !! x) /\ x <> a).
Proof.
  intros H Ha Hb. pose proof (sh_nodup _ _ H) as Hd. pose proof (sh_order _ _ H) as [_ _ Hn Hp]. pose proof (nexts_at Some _ _ _ _ _ Hn) as En. pose proof (prevs_at Some _ _ _ _ _ Hp) as Ep. unfold field in En, Ep. rewrite Ha in En, Ep. injection En as En. injection Ep as Ep.
  pose proof (bucket_nodup (nodes m) (length (buckets_ m)) _ (BucketIndex m (key n)) Hd) as Hbd. unfold home in Hb. rewrite Hb in Hbd.
  apply list.NoDup_app in Hd as (_ & D12 & D2). apply list.NoDup_cons in D2 as [Da _]. split; [|split]; intros x Hx.
  - rewrite finals_last in Hx. apply last_Some_elem_of in Hx. split; [eapply (bucket_node m _ (BucketIndex m (key n)) x H); rewrite Hb; apply elem_of_app; by left|]. intros ->. apply list.NoDup_app in Hbd as (_ & Hbd & _). apply (Hbd a Hx), list_elem_of_here.
  - rewrite En in Hx. assert (Hi : x ∈ i2) by (destruct i2; [done|]; injection Hx as ->; apply list_elem_of_here). split; [|by intros ->]. apply (sh_dom _ _ H). rewrite elem_of_app, elem_of_cons. auto.
  - rewrite Ep, finals_last in Hx. apply last_Some_elem_of in Hx. split; [|intros ->; apply (D12 a Hx), list_elem_of_here]. apply (sh_dom _ _ H). rewrite elem_of_app. auto.
Qed.

Lemma unlinked_shape m i1 a i2 n b c : shape m (i1 ++ a :: i2) -> nodes m !! a = Some n -> home m (i1 ++ a :: i2) (key n) = b ++ a :: c ->
  shape (unlinked m (BucketIndex m (key n)) a (finals b) n) (i1 ++ i2) /\ entries (nodes (unlinked m (BucketIndex m (key n)) a (finals b) n)) (i1 ++ i2) = entries (nodes m) i1 ++ entries (nodes m) i2.
Proof.
  intros H Ha Hb. destruct (unlink_ready m i1 a i2 n b c H Ha Hb) as (R1 & R2 & R3). pose proof (sh_nodup _ _ H) as Hd.
  pose proof (unlink_fields_ok (nodes m) a (finals b) n (fun x Hx => proj1 (R1 x Hx)) (fun x Hx => proj1 (R2 x Hx)) (fun x Hx => proj1 (R3 x Hx))) as F.
  destruct (unlink_order _ _ _ _ _ _ _ _ _ (sh_order _ _ H) Hd Ha F) as (_ & _ & Ho).
  pose proof Hd as Hd2. apply list.NoDup_app in Hd2 as (D1 & D12 & D2). apply list.NoDup_cons in D2 as [Da D2].
  assert (Hna : forall x, x ∈ i1 ++ i2 -> x <> a) by (intros x Hx ->; apply elem_of_app in Hx as [Hx|Hx]; [apply (D12 a Hx), list_elem_of_here|done]).
  split; [split|]; cbn [unlinked nodes fresh_ buckets_ orderHead_ orderTail_ size_].
  - apply list.NoDup_app. split; [done|]. split; [|done]. intros x Hx Hx2. apply (D12 x Hx). by apply list_elem_of_further.
  - intros x. rewrite (uf_dom _ _ _ _ _ F), (sh_dom _ _ H), !elem_of_app, elem_of_cons. split; [tauto|]. intros Hx. split; [apply Hna; by apply elem_of_app|tauto].
  - intros x Hx. apply (sh_fresh _ _ H). rewrite elem_of_app in *. rewrite elem_of_cons. tauto.
  - exact Ho.
  - destruct (finals b); [|rewrite length_insert]; apply (sh_count _ _ H).
  - intros i Hi. apply (unlink_bucket m i1 a i2 n b c _ i H Ha Hb F). destruct (finals b); [done|by rewrite length_insert in Hi].
  - rewrite (sh_size _ _ H), !length_app. cbn [length]. change (u64 (Z.of_nat (length i1 + S (length i2))) - 1) with (u64 (Z.of_nat (length i1 + S (length i2))) + -1). rewrite wrap_add_idemp. f_equal. lia.
  - rewrite <- order_entries_app. apply order_entries_same. intros x Hx. split; [apply (uf_key _ _ _ _ _ F)|apply (uf_value _ _ _ _ _ F)]; by apply Hna.
Qed.

Lemma redirect_modify m p f : (forall x, p = Some x -> is_Some (nodes m !! x)) -> match p with Some x => modify x f m | None => Ok m end = Ok (with_nodes m (redirect p f (nodes m))).
Proof. intros H. destruct p as [x|]; [by apply modify_ok, H|]. by destruct m. Qed.

(** The steps taken where the node is found. *)
Lemma unlink_steps m idx a prev n : nodes m !! a = Some n -> (idx < length (buckets_ m))%nat ->
  (forall x, prev = Some x -> is_Some (nodes m !! x) /\ x <> a) -> (forall x, orderNext n = Some x -> is_Some (nodes m !! x) /\ x <> a) -> (forall x, orderPrev n = Some x -> is_Some (nodes m !! x) /\ x <> a) ->
  (m1 ← (match prev with Some p => modify p (set_next (next n)) m | None => set_bucket m idx (next n) end); m2 ← OrderListUnlink m1 a; m3 ← delete_node a m2; Ok (with_size m3 (u64 (size_ m3 - 1)), true)) =
  Ok (unlinked m idx a prev n, true).
Proof.
  intros Ha Hidx R1 R2 R3.
  assert (E1 : exists m1, match prev with Some p => modify p (set_next (next n)) m | None => set_bucket m idx (next n) end = Ok m1 /\ nodes m1 = redirect prev (set_next (next n)) (nodes m) /\
    buckets_ m1 = (match prev with Some _ => buckets_ m | None => <[idx := next n]> (buckets_ m) end) /\ fresh_ m1 = fresh_ m /\ orderHead_ m1 = orderHead_ m /\ orderTail_ m1 = orderTail_ m /\ size_ m1 = size_ m).
  { destruct prev as [p|]; [rewrite modify_ok by (by apply R1)|unfold set_bucket; rewrite (proj2 (Nat.ltb_lt _ _)) by done]; eexists; (split; [done|]); done. }
  destruct E1 as (m1 & -> & En & Eb & Ef & Eh & Et & Es). cbn [mbind res_bind].
  assert (Hkeep : forall p f h, (forall x, p = Some x -> x <> a) -> redirect p f h !! a = h !! a) by (intros [x|] f h Hx; [apply lookup_alter_ne; by apply Hx|done]).
  assert (A1 : nodes m1 !! a = Some n) by (rewrite En, Hkeep; [done|intros x Hx; by apply R1]).
  unfold OrderListUnlink, node. rewrite A1. cbn [mbind res_bind].
  assert (E2 : exists m2, match orderPrev n with Some p => modify p (set_orderNext (orderNext n)) m1 | None => Ok (with_head m1 (orderNext n)) end = Ok m2 /\
    nodes m2 = redirect (orderPrev n) (set_orderNext (orderNext n)) (nodes m1) /\ orderHead_ m2 = (match orderPrev n with Some _ => orderHead_ m1 | None => orderNext n end) /\
    buckets_ m2 = buckets_ m1 /\ fresh_ m2 = fresh_ m1 /\ orderTail_ m2 = orderTail_ m1 /\ size_ m2 = size_ m1).
  { destruct (orderPrev n) as [p|] eqn:Ep; [rewrite modify_ok by (rewrite En; apply redirect_dom; by apply R3)|]; eexists; (split; [done|]); done. }
  destruct E2 as (m2 & -> & En2 & Eh2 & Eb2 & Ef2 & Et2 & Es2). cbn [mbind res_bind]. assert (A2 : nodes m2 !! a = Some n) by (rewrite En2, Hkeep; [done|intros x Hx; by apply R3]).
  rewrite A2. cbn [mbind res_bind].
  assert (E3 : exists m3, match orderNext n with Some q => modify q (set_orderPrev (orderPrev n)) m2 | None => Ok (with_tail m2 (orderPrev n)) end = Ok m3 /\
    nodes m3 = redirect (orderNext n) (set_orderPrev (orderPrev n)) (nodes m2) /\ orderTail_ m3 = (match orderNext n with Some _ => orderTail_ m2 | None => orderPrev n end) /\
    buckets_ m3 = buckets_ m2 /\ fresh_ m3 = fresh_ m2 /\ orderHead_ m3 = orderHead_ m2 /\ size_ m3 = size_ m2).
  { destruct (orderNext n) as [q|] eqn:Eq; [rewrite modify_ok by (rewrite En2, En; apply redirect_dom, redirect_dom; by apply R2)|]; eexists; (split; [done|]); done. }
  destruct E3 as (m3 & -> & En3 & Et3 & Eb3 & Ef3 & Eh3 & Es3). cbn [mbind res_bind]. assert (A3 : nodes m3 !! a = Some n) by (rewrite En3, Hkeep; [done|intros x Hx; by apply R2]).
  unfold delete_node, node. rewrite A3. cbn [mbind res_bind]. unfold unlinked, unlink_nodes, with_size, with_nodes. cbn. rewrite <- En, <- En2, <- En3, <- Eb, <- Eb2, <- Eb3, <- Ef, <- Ef2, <- Ef3, <- Es, <- Es2, <- Es3, <- Eh, <- Eh2, <- Eh3, <- Et, <- Et2, <- Et3. done.
Qed.

Lemma remove_loop_none m k idx fuel b l : nexts Some (field next (nodes m)) None l -> (forall a, a ∈ l -> is_Some (nodes m !! a)) -> (length l < fuel)%nat -> hit (nodes m) k l = None ->
  remove_loop fuel m k idx b (firsts l) = Ok (m, false).
Proof.
  revert fuel b. induction l as [|a l IH]; intros fuel b Hl Hin Hf Hh; (destruct fuel as [|fuel]; [cbn in Hf; lia|]); cbn in *; [done|].
  destruct (node_there m a (Hin a (list_elem_of_here _ _))) as (n & -> & En). cbn. pose proof (key_node m a n k En) as Hk. apply nexts_cons in Hl as [Hn Hl]. case_decide as E; [done|].
  rewrite decide_False; [|intros F; by apply E, Hk]. unfold field in Hn. rewrite En in Hn. injection Hn as ->. apply IH; [done|intros x Hx; apply Hin; by apply list_elem_of_further|lia|done].
Qed.

Lemma remove_loop_hit m k idx fuel b0 b a c n : nexts Some (field next (nodes m)) None (b ++ a :: c) -> (forall x, x ∈ b ++ a :: c -> is_Some (nodes m !! x)) -> (length b < fuel)%nat ->
  (forall x, x ∈ b -> field key (nodes m) x <> Some k) -> nodes m !! a = Some n -> key n = k ->
  remove_loop fuel m k idx (finals b0) (firsts (b ++ a :: c)) =
  (m1 ← (match finals (b0 ++ b) with Some p => modify p (set_next (next n)) m | None => set_bucket m idx (next n) end); m2 ← OrderListUnlink m1 a; m3 ← delete_node a m2; Ok (with_size m3 (u64 (size_ m3 - 1)), true)).
Proof.
  revert fuel b0. induction b as [|x b IH]; intros fuel b0 Hl Hin Hf Hb Ha Hk; (destruct fuel as [|fuel]; [cbn in Hf; lia|]); cbn [app first].
  - rewrite app_nil_r. cbn [remove_loop]. unfold node at 1. rewrite Ha. cbn [mbind res_bind]. by rewrite decide_True.
  - cbn [remove_loop]. destruct (node_there m x (Hin x (list_elem_of_here _ _))) as (nx & -> & En). cbn [mbind res_bind]. rewrite decide_False; [|intros E; apply (Hb x (list_elem_of_here _ _)); by apply (key_node m x nx k En)].
    cbn [app] in Hl. apply nexts_cons in Hl as [Hn Hl]. unfold field in Hn. rewrite En in Hn. injection Hn as ->. replace (b0 ++ x :: b) with ((b0 ++ [x]) ++ b) by (by rewrite <- app_assoc). rewrite <- (final_snoc Some None b0 x).
    apply IH; [done|intros y Hy; apply Hin; by apply list_elem_of_further|cbn in Hf; lia|intros y Hy; apply Hb; by apply list_elem_of_further|done|done].
Qed.

Lemma remove_spec m ids k : shape m ids -> match hit (nodes m) k (home m ids k) with
  | None => remove m k = Ok (m, false)
  | Some a => exists i1 i2 n m', ids = i1 ++ a :: i2 /\ nodes m !! a = Some n /\ newest (nodes m) k i1 a i2 /\ remove m k = Ok (m', true) /\
      shape m' (i1 ++ i2) /\ entries (nodes m') (i1 ++ i2) = entries (nodes m) i1 ++ entries (nodes m) i2
  end.
Proof.
  intros H. destruct (bucket_head m ids k H) as [Eb Hn]. assert (Hlen : (length (home m ids k) < S (size (nodes m)))%nat).
  { pose proof (bucket_list_length (nodes m) (length (buckets_ m)) ids (BucketIndex m k)). pose proof (shape_size _ _ H). unfold home. lia. }
  assert (Hin : forall a, a ∈ home m ids k -> is_Some (nodes m !! a)) by (intros a; by apply bucket_in). unfold remove. rewrite Eb. cbn [mbind res_bind].
  destruct (hit (nodes m) k (home m ids k)) as [a|] eqn:Eh; [|by apply remove_loop_none]. destruct (newest_hit _ _ _ _ H Eh) as (i1 & i2 & -> & Hnew). destruct (hit_Some _ _ _ _ Eh) as (b & c & Ebc & Hk & Hb).
  assert (Ha : is_Some (nodes m !! a)) by (apply Hin; rewrite Ebc; apply in_middle). destruct Ha as [n Ha]. assert (Hkn : key n = k) by (by apply (key_node m a n k Ha)).
  exists i1, i2, n, (unlinked m (BucketIndex m k) a (finals b) n). split; [done|]. split; [done|]. split; [done|]. rewrite <- Hkn in Ebc. destruct (unlink_ready m i1 a i2 n b c H Ha Ebc) as (R1 & R2 & R3).
  destruct (unlinked_shape m i1 a i2 n b c H Ha Ebc) as [Hs He]. rewrite Hkn in Hs, He, Ebc. split; [|done]. rewrite Ebc in Hn, Hin, Hlen |- *.
  change (remove_loop (S (size (nodes m))) m k (BucketIndex m k) None) with (remove_loop (S (size (nodes m))) m k (BucketIndex m k) (finals [])).
  assert (Hlb : (length b < S (size (nodes m)))%nat) by (rewrite length_app in Hlen; cbn in Hlen; lia). rewrite (remove_loop_hit m k _ _ [] b a c n Hn Hin Hlb Hb Ha Hkn). cbn [app]. apply unlink_steps; try done. apply index_lt, (sh_count _ _ H).
Qed.

(** ** The loops along the order list *)

Lemma delete_all_ok m l fuel : NoDup l -> nexts Some (field orderNext (nodes m)) None l -> (forall a, a ∈ l -> is_Some (nodes m !! a)) -> (length l < fuel)%nat ->
  exists h, delete_all fuel m (firsts l) = Ok (with_nodes m h) /\ forall x, is_Some (h !! x) <-> is_Some (nodes m !! x) /\ (x ∉ l).
Proof.
  revert m fuel. induction l as [|a l IH]; intros m fuel Hd Hl Hin Hf; (destruct fuel as [|fuel]; [cbn in Hf; lia|]); cbn [first delete_all].
  - exists (nodes m). split; [by destruct m|]. intros x. split; [intros Hx; split; [done|apply not_elem_of_nil]|by intros [? _]].
  - destruct (node_there m a (Hin a (list_elem_of_here _ _))) as (n & E & En). rewrite E. cbn [mbind res_bind]. unfold delete_node. rewrite E. cbn [mbind res_bind].
    apply list.NoDup_cons in Hd as [Ha Hd]. apply nexts_cons in Hl as [Hn Hl]. unfold field in Hn. rewrite En in Hn. injection Hn as ->.
    destruct (IH (with_nodes m (delete a (nodes m))) fuel Hd) as (h & -> & Hh).
    + eapply nexts_ext; [|exact Hl]. intros x Hx. cbn. rewrite field_delete; [done|]. by intros ->.
    + intros x Hx. cbn. rewrite lookup_delete_is_Some. split; [by intros ->|apply Hin; by apply list_elem_of_further].
    + cbn in Hf. lia.
    + exists h. split; [done|]. intros x. rewrite Hh. cbn. rewrite lookup_delete_is_Some, not_elem_of_cons. split; [intros [[? ?] ?]; done|intros (? & ? & ?); done].
Qed.

Lemma delete_all_shape m ids : shape m ids -> delete_all (S (size (nodes m))) m (orderHead_ m) = Ok (with_nodes m ∅).
Proof.
  intros H. pose proof (sh_order _ _ H) as [Eh _ Hn _]. rewrite Eh. destruct (delete_all_ok m ids _ (sh_nodup _ _ H) Hn (fun a Ha => proj2 (sh_dom _ _ H a) Ha) (shape_size _ _ H)) as (h & -> & Hh).
  do 2 f_equal. apply map_empty. intros x. apply eq_None_not_Some. intros [Hx Hn']%Hh. by apply Hn', (sh_dom _ _ H).
Qed.

Lemma order_loop_ok m l fuel : nexts Some (field orderNext (nodes m)) None l -> (forall a, a ∈ l -> is_Some (nodes m !! a)) -> (length l < fuel)%nat -> order_loop fuel m (firsts l) = Ok (entries (nodes m) l).
Proof.
  revert fuel. induction l as [|a l IH]; intros fuel Hl Hin Hf; (destruct fuel as [|fuel]; [cbn in Hf; lia|]); cbn [first order_loop]; [done|].
  destruct (node_there m a (Hin a (list_elem_of_here _ _))) as (n & -> & En). cbn [mbind res_bind]. apply nexts_cons in Hl as [Hn Hl]. unfold field in Hn. rewrite En in Hn. injection Hn as ->.
  rewrite IH; [|done|intros x Hx; apply Hin; by apply list_elem_of_further|cbn in Hf; lia]. cbn [mbind res_bind]. rewrite entries_cons. unfold entry. by rewrite En.
Qed.

(** A change of values keeps the shape. *)
Lemma value_shape m h ids : shape m ids -> (forall x, is_Some (h !! x) <-> is_Some (nodes m !! x)) -> (forall x, field key h x = field key (nodes m) x) ->
  (forall x, field next h x = field next (nodes m) x) -> (forall x, field orderNext h x = field orderNext (nodes m) x) -> (forall x, field orderPrev h x = field orderPrev (nodes m) x) -> shape (with_nodes m h) ids.
Proof.
  intros H Hd F1 F2 F3 F4. pose proof H as [S1 S2 S3 [O1 O2 O3 O4] S5 S6 S7]. split; cbn; try done.
  - intros x. by rewrite Hd.
  - split; try done; [by eapply nexts_ext; [|exact O3]|by eapply prevs_ext; [|exact O4]].
  - intros i Hi. destruct (S6 i Hi) as [B1 B2]. unfold bucket_ok. rewrite (bucket_list_same (nodes m) h) by done. split; [done|]. by eapply nexts_ext; [|exact B2].
Qed.

Lemma modify_shape m ids a f : shape m ids -> a ∈ ids -> (forall n, nodes m !! a = Some n -> key (f n) = key n /\ next (f n) = next n /\ orderNext (f n) = orderNext n /\ orderPrev (f n) = orderPrev n) ->
  shape (with_nodes m (alter f a (nodes m))) ids.
Proof.
  intros H Ha Hf. assert (Hg : forall A (g : Node -> A) x, (forall n, nodes m !! a = Some n -> g (f n) = g n) -> field g (alter f a (nodes m)) x = field g (nodes m) x).
  { intros A g x Hg. unfold field. destruct (decide (x = a)) as [->|]; [rewrite lookup_alter_eq; destruct (nodes m !! a) as [n|]; cbn; [by rewrite Hg|done]|by rewrite lookup_alter_ne]. }
  apply value_shape; try done; [intros x; apply lookup_alter_is_Some| | | |]; intros x; apply Hg; intros n Hn; by apply Hf.
Qed.

Lemma order_mut_ok f m ids l0 l fuel : shape m ids -> ids = l0 ++ l -> (forall k v, (f (k, v)).1 = k) -> (length l < fuel)%nat ->
  exists m', order_mut_loop f fuel m (firsts l) = Ok m' /\ shape m' ids /\ entries (nodes m') ids = entries (nodes m) l0 ++ (f <$> entries (nodes m) l).
Proof.
  revert m l0 fuel. induction l as [|a l IH]; intros m l0 fuel H El Hf Hfu; (destruct fuel as [|fuel]; [cbn in Hfu; lia|]); cbn [first order_mut_loop].
  - exists m. split; [done|]. split; [done|]. by rewrite El, order_entries_app.
  - assert (Ha : a ∈ ids) by (rewrite El; apply in_middle). pose proof (proj2 (sh_dom _ _ H a) Ha) as [n Hn]. rewrite modify_ok by eauto. cbn [mbind res_bind]. set (g := fun n => set_entry (f (key n, value n)) n).
    assert (H' : shape (with_nodes m (alter g a (nodes m))) ids) by (apply modify_shape; [done|done|]; intros n' _; unfold g; cbn; by rewrite Hf).
    unfold node. cbn [with_nodes nodes]. rewrite lookup_alter_eq, Hn. cbn [fmap option_fmap option_map mbind res_bind].
    assert (En : orderNext (g n) = firsts l). { pose proof (or_next _ _ _ _ (sh_order _ _ H)) as Ho. rewrite El in Ho. apply nexts_at in Ho. unfold field in Ho. rewrite Hn in Ho. injection Ho as Ho. exact Ho. }
    rewrite En. destruct (IH _ (l0 ++ [a]) fuel H' ltac:(by rewrite <- app_assoc) Hf ltac:(cbn in Hfu; lia)) as (m' & -> & Hs & He). exists m'. split; [done|]. split; [done|]. rewrite He. cbn [with_nodes nodes].
    pose proof (sh_nodup _ _ H) as Hd. rewrite El in Hd. apply list.NoDup_app in Hd as (_ & D12 & D2). apply list.NoDup_cons in D2 as [Da _].
    assert (Hoff : forall l', (a ∉ l') -> entries (alter g a (nodes m)) l' = entries (nodes m) l').
    { intros l' Hl'. apply order_entries_same. intros x Hx. unfold field. rewrite lookup_alter_ne; [done|]. intros ->. done. }
    rewrite order_entries_app, (Hoff l), (Hoff l0); [|intros Hi; apply (D12 a Hi), list_elem_of_here|done]. rewrite !entries_cons. unfold entry at 1 2. rewrite lookup_alter_eq, Hn. cbn. rewrite <- app_assoc. cbn. do 2 f_equal. by destruct (f (key n, value n)).
Qed.

Lemma new_shape c : (0 < c)%nat -> shape (mkMap ∅ 0 (replicate c None) None None 0) [].
Proof.
  intros Hc. split; cbn; try done.
  - constructor.
  - intros x. rewrite lookup_empty. split; [by intros []|by intros ?%not_elem_of_nil].
  - intros x Hx. by apply not_elem_of_nil in Hx.
  - split; [done|done|apply nexts_nil|apply prevs_nil].
  - by rewrite length_replicate.
  - intros i Hi. rewrite length_replicate in Hi. split; [by rewrite lookup_replicate_2|apply nexts_nil].
Qed.

(** ** The contract *)

Inductive op :=
  | Insert (k : K) (v : V) | InsertOrAssign (k : K) (v : V) | Remove (k : K) | Clear | Find (k : K) | Contains (k : K) | Size | IsEmpty | ForEach
  | ForEachMut (g : K -> V -> V)  (** a functor that leaves the keys alone *).

Inductive out := Done | Flag (b : bool) | Value (v : option V) | Count (z : Z) | Entries (l : list (K * V)).

Definition keep_key (g : K -> V -> V) (e : K * V) : K * V := (e.1, g e.1 e.2).

Definition run_op (o : op) (m : Map) : res (Map * out) :=
  match o with
  | Insert k v => m ← insert m k v; Ok (m, Done)
  | InsertOrAssign k v => '(m, b) ← insert_or_assign m k v; Ok (m, Flag b)
  | Remove k => '(m, b) ← remove m k; Ok (m, Flag b)
  | Clear => m ← clear m; Ok (m, Done)
  | Find k => v ← find m k; Ok (m, Value v)
  | Contains k => b ← contains m k; Ok (m, Flag b)
  | Size => Ok (m, Count (map_size m))
  | IsEmpty => Ok (m, Flag (empty m))
  | ForEach => l ← for_each_in_order m; Ok (m, Entries l)
  | ForEachMut g => m ← for_each_in_order_mut (keep_key g) m; Ok (m, Done)
  end.

Definition spec_op (o : op) (l : list (K * V)) : option (list (K * V) * out) :=
  Some (match o with
  | Insert k v => (l ++ [(k, v)], Done)
  | InsertOrAssign k v => match cut_last k l with Some (a, _, b) => (a ++ (k, v) :: b, Flag false) | None => (l ++ [(k, v)], Flag true) end
  | Remove k => match cut_last k l with Some (a, _, b) => (a ++ b, Flag true) | None => (l, Flag false) end
  | Clear => ([], Done)
  | Find k => (l, Value (match cut_last k l with Some (_, v, _) => Some v | None => None end))
  | Contains k => (l, Flag (match cut_last k l with Some _ => true | None => false end))
  | Size => (l, Count (u64 (Z.of_nat (length l))))
  | IsEmpty => (l, Flag (u64 (Z.of_nat (length l)) =? 0))
  | ForEach => (l, Entries l)
  | ForEachMut g => (keep_key g <$> l, Done)
  end).

Definition rel (m : Map) (l : list (K * V)) : Prop := exists ids, shape m ids /\ entries (nodes m) ids = l.

Lemma entries_length m ids : shape m ids -> length (entries (nodes m) ids) = length ids.
Proof.
  intros H. assert (Hin : forall a, a ∈ ids -> is_Some (nodes m !! a)) by (intros a; apply (sh_dom _ _ H)). clear H. induction ids as [|a ids IH]; [done|]. rewrite entries_cons. destruct (Hin a (list_elem_of_here _ _)) as [n Hn].
  unfold entry at 1. rewrite Hn. cbn. f_equal. apply IH. intros b Hb. apply Hin. by apply list_elem_of_further.
Qed.

(** What the search finds is the newest entry. *)
Lemma hit_entry m ids k : shape m ids -> match hit (nodes m) k (home m ids k) with
  | Some a => exists i1 i2 n, ids = i1 ++ a :: i2 /\ nodes m !! a = Some n /\ key n = k /\ cut_last k (entries (nodes m) ids) = Some (entries (nodes m) i1, value n, entries (nodes m) i2)
  | None => cut_last k (entries (nodes m) ids) = None
  end.
Proof.
  intros H. destruct (hit (nodes m) k (home m ids k)) as [a|] eqn:Eh; [|apply cut_none; by apply (newest_none m ids k H)].
  destruct (newest_hit _ _ _ _ H Eh) as (i1 & i2 & -> & Hnew). destruct (proj2 (sh_dom _ _ H a) (in_middle _ _ _)) as [n Hn]. exists i1, i2, n. split; [done|]. split; [done|].
  split; [by apply (key_node m a n k Hn), Hnew|by apply cut_newest].
Qed.

Lemma assign_rel m i1 a i2 n v : shape m (i1 ++ a :: i2) -> nodes m !! a = Some n ->
  rel (with_nodes m (alter (set_value v) a (nodes m))) (entries (nodes m) i1 ++ (key n, v) :: entries (nodes m) i2).
Proof.
  intros H Hn. exists (i1 ++ a :: i2). split; [apply modify_shape; [done|apply in_middle|done]|]. cbn. rewrite order_entries_app, entries_cons. unfold entry at 1. rewrite lookup_alter_eq, Hn. cbn.
  pose proof (sh_nodup _ _ H) as Hd. apply list.NoDup_app in Hd as (_ & D12 & D2). apply list.NoDup_cons in D2 as [Da _].
  assert (Hoff : forall l', (a ∉ l') -> entries (alter (set_value v) a (nodes m)) l' = entries (nodes m) l').
  { intros l' Hl'. apply order_entries_same. intros x Hx. unfold field. rewrite lookup_alter_ne; [done|]. by intros ->. }
  rewrite (Hoff i1), (Hoff i2); [done|done|]. intros Hi. apply (D12 a Hi), list_elem_of_here.
Qed.

#[export] Instance map_refines : Refines run_op spec_op (fun _ _ => True) rel.
Proof.
  intros R o m l l' r (ids & H & <-) Hs _. injection Hs as Hs. assert (Hr : rel m (entries (nodes m) ids)) by (by exists ids). destruct o as [k v|k v|k| |k|k| | | |g]; cbn [run_op] in *.
  - injection Hs as <- <-. rewrite (insert_ok_ m ids k v H). cbn. split; [|done]. eexists. split; [by apply pushed_shape|by apply pushed_entries].
  - pose proof (hit_entry m ids k H) as Hh. destruct (hit (nodes m) k (home m ids k)) as [a|] eqn:Eh.
    + destruct Hh as (i1 & i2 & n & -> & Hn & Hk & Ec). rewrite Ec in Hs. injection Hs as <- <-. unfold insert_or_assign. rewrite (find_node_ok m _ k H), Eh. cbn [mbind res_bind]. rewrite modify_ok by eauto. cbn.
      split; [|done]. rewrite <- Hk. by apply assign_rel.
    + rewrite Hh in Hs. injection Hs as <- <-. rewrite (insert_or_assign_new m ids k v H Eh). cbn. split; [|done]. eexists. split; [by apply pushed_shape|by apply pushed_entries].
  - pose proof (remove_spec m ids k H) as Hrem. pose proof (hit_entry m ids k H) as Hh. destruct (hit (nodes m) k (home m ids k)) as [a|].
    + destruct Hrem as (i1 & i2 & n & m' & -> & Hn & _ & -> & H' & He). destruct Hh as (j1 & j2 & n' & E & _ & _ & Ec). destruct (split_unique _ _ _ _ _ (sh_nodup _ _ H) E) as [<- <-]. rewrite Ec in Hs. injection Hs as <- <-.
      cbn. split; [|done]. by exists (i1 ++ i2).
    + rewrite Hh in Hs. injection Hs as <- <-. rewrite Hrem. done.
  - injection Hs as <- <-. unfold clear. rewrite (delete_all_shape m ids H). cbn. split; [|done]. exists []. split; [|done]. destruct (new_shape _ (sh_count _ _ H)) as [? ? ? ? ? ? ?]. split; try done. intros x Hx. by apply not_elem_of_nil in Hx.
  - injection Hs as <- <-. unfold find. rewrite (find_node_ok m ids k H). cbn [mbind res_bind]. pose proof (hit_entry m ids k H) as Hh. destruct (hit (nodes m) k (home m ids k)) as [a|]; [|by rewrite Hh].
    destruct Hh as (i1 & i2 & n & -> & Hn & Hk & ->). unfold node. rewrite Hn. done.
  - injection Hs as <- <-. unfold contains. rewrite (find_node_ok m ids k H). cbn [mbind res_bind]. pose proof (hit_entry m ids k H) as Hh. destruct (hit (nodes m) k (home m ids k)) as [a|]; [|by rewrite Hh].
    destruct Hh as (i1 & i2 & n & -> & Hn & Hk & ->). done.
  - injection Hs as <- <-. cbn. split; [done|]. unfold map_size. by rewrite (sh_size _ _ H), (entries_length m ids H).
  - injection Hs as <- <-. cbn. split; [done|]. unfold empty. by rewrite (sh_size _ _ H), (entries_length m ids H).
  - injection Hs as <- <-. unfold for_each_in_order. pose proof (sh_order _ _ H) as [Eh _ Hn _]. rewrite Eh, (order_loop_ok m ids); [done|done|intros a; by apply (sh_dom _ _ H)|by apply shape_size].
  - injection Hs as <- <-. unfold for_each_in_order_mut. pose proof (sh_order _ _ H) as [Eh _ _ _]. rewrite Eh. destruct (order_mut_ok (keep_key g) m ids [] ids _ H eq_refl ltac:(done) (shape_size _ _ H)) as (m' & -> & H' & He). cbn. split; [|done]. by exists ids.
Qed.

(** C33. Whatever members the threads call, in whatever order the lock admits them, no call
    touches freed memory; the answers are those of a list of entries in insertion order in
    which find, remove and assignment mean the newest entry of a key; the order list holds
    exactly these entries; and the destructor frees every node. *)
Theorem ConcurrentOrderedMap_programs c os l' outs : (0 < c)%nat -> spec_ops spec_op os [] = Some (l', outs) ->
  exists m0 m', new_map c = Ok m0 /\ run_ops run_op os m0 = Ok (m', outs) /\ for_each_in_order m' = Ok l' /\ destroy m' = Ok ∅.
Proof.
  intros Hc Hs. pose proof (new_shape c Hc) as H0. set (m0 := mkMap ∅ 0 (replicate c None) None None 0) in *. assert (R0 : rel m0 []) by (by exists []).
  destruct (programs_refine run_op spec_op (fun _ _ => True) rel os m0 [] l' outs R0 Hs) as (_ & _ & H3).
  destruct (H3 (needs_nothing spec_op _ (fun _ _ => I) os [])) as (m' & E & ids & H & He). exists m0, m'. unfold new_map. rewrite (proj2 (Nat.ltb_lt _ _)) by done. split; [done|]. split; [done|]. split.
  - unfold for_each_in_order. pose proof (sh_order _ _ H) as [Eh _ Ho _]. rewrite Eh, (order_loop_ok m' ids); [by rewrite He|done|intros a; by apply (sh_dom _ _ H)|by apply shape_size].
  - unfold destroy. by rewrite (delete_all_shape m' ids H).
Qed.

End ConcurrentOrderedMap.

Definition map_example : list (@op Z Z) :=
  [Insert 1 10; Insert 2 20; Insert 1 11; Find 1; InsertOrAssign 3 30; InsertOrAssign 1 12; ForEach; Remove 1; Find 1; Remove 1; Remove 1; Contains 3; ForEachMut Z.add; ForEach; Size; Clear; IsEmpty; Insert 9 9].

Lemma ConcurrentOrderedMap_programs_witness : exists m0 m', new_map 2 = Ok m0 /\
  run_ops (run_op id) map_example m0 = Ok (m', [Done; Done; Done; Value (Some 11); Flag true; Flag false; Entries [(1, 10); (2, 20); (1, 12); (3, 30)]; Flag true; Value (Some 10); Flag true; Flag false;
    Flag true; Done; Entries [(2, 22); (3, 33)]; Count 2; Done; Flag true; Done]) /\ destroy m' = Ok ∅.
Proof.
  destruct (ConcurrentOrderedMap_programs (fun k => k) 2 map_example [(9, 9)] _ ltac:(lia) ltac:(vm_compute; reflexivity)) as (m0 & m' & E1 & E2 & _ & E3).
  exists m0, m'. split; [exact E1|]. split; [exact E2|exact E3].
Defined.

(** [for_each_in_order_mut] hands out the key by mutable reference: a functor that writes it
    leaves the entry in the bucket of the old key, where no search for the new one looks. *)
Lemma mutated_key_lost :
  (m ← new_map 2; m ← insert id m 1 10; m ← for_each_in_order_mut (fun e : Z * Z => (2, e.2)) m; v ← find id m 2; l ← for_each_in_order m; Ok (v, l)) = Ok (None, [(2, 10)]).
Proof. by vm_compute. Qed.
