(* ===== verification/Options.v ===== *)
(** * Options and option files (option.h, option_file.cc, containers/init_chain.h, strings/string_compare.h)

    The registry is the list of the registered options in the order [VisitAll] meets them.  A
    C string is its characters up to the null, a [StringRef] the characters it shows; files are
    their contents.  Options of type [bool], of any integer type, [f64] and [const char*] are
    modelled; an [f32] option adds a narrowing conversion of the language to the [f64] one.  Names
    are not null.  The count [VisitAll] returns and its [clear] argument have no user here. *)

From S2P Require Import Prelude IntParse FloatParse FloatFormat Format FormatSpec FormatParse FormatTemplate.
From Stdlib Require Import String Ascii.

Set Default Proof Using "Type".
#[local] Open Scope Z_scope.
#[local] Open Scope list_scope.

Definition text := list Z.

(** A string literal. *)
Definition str (s : string) : text := map (fun a => Z.of_nat (nat_of_ascii a)) (list_ascii_of_string s).

(** ** string_compare.h, for characters of one byte *)

Fixpoint Strcmp (lhs rhs : text) : Z :=
  let c1 := u8 (deref lhs) in
  let c2 := u8 (deref rhs) in
  if negb (c1 =? c2) then (if c1 <? c2 then -1 else 1)
  else if c1 =? 0 then 0
  else match lhs with _ :: lhs => Strcmp lhs (List.tl rhs) | [] => 0 end.

Fixpoint Strncmp (lhs rhs : text) (limit : nat) : Z :=
  match limit with
  | O => 0
  | S limit =>
    let c1 := u8 (deref lhs) in
    let c2 := u8 (deref rhs) in
    if negb (c1 =? c2) then (if c1 <? c2 then -1 else 1)
    else if c1 =? 0 then 0
    else Strncmp (List.tl lhs) (List.tl rhs) limit
  end.

Definition StrEqual (lhs rhs : text) : bool := Strcmp lhs rhs =? 0.

(** ** Option<T> *)

(** The value of an option with its type; integers of [w] bits, floats as encodings, and a
    string option that is null or owns its text. *)
Inductive OptionValue :=
  | OBool (b : bool)
  | OInt (is_signed : bool) (w : Z) (v : Z)
  | OF64 (v : Z)
  | OText (s : option text).

#[export] Instance OptionValue_eq_dec : EqDecision OptionValue.
Proof. solve_decision. Defined.

Record OptionBase := mkOption {
  name_ : text;
  env_ : option text;
  desc_ : option text;
  value_ : OptionValue;
  default_ : OptionValue;
  overridden_ : bool }.

Definition with_value (o : OptionBase) (v : OptionValue) : OptionBase := mkOption (name_ o) (env_ o) (desc_ o) v (default_ o) (overridden_ o).
Definition with_overridden (o : OptionBase) (b : bool) : OptionBase := mkOption (name_ o) (env_ o) (desc_ o) (value_ o) (default_ o) b.

(** The constructor; it also puts the option in front of the chain. *)
Definition new_option (name : text) (default : OptionValue) (env desc : option text) : OptionBase := mkOption name env desc default default false.
Definition Register (chain : list OptionBase) (o : OptionBase) : list OptionBase := o :: chain.

Definition ParseBool (t : text) : option bool :=
  if StrEqual t (str "1") || StrEqual t (str "true") || StrEqual t (str "on") || StrEqual t (str "yes") then Some true
  else if (deref t =? 0) || StrEqual t (str "0") || StrEqual t (str "false") || StrEqual t (str "off") || StrEqual t (str "no") then Some false
  else match ParseInteger (Some t) 0 with
    | Some (v, rest) => if deref rest =? 0 then Some (negb (v =? 0)) else None
    | None => None
    end.

(** [static_cast] to the type of the option. *)
Definition narrow (is_signed : bool) (w v : Z) : Z := if is_signed then swrap w v else wrap w v.

(** [ParseOption], and [Option::ParseFromString], which copies the text into a string option. *)
Definition ParseFromString (t : text) (v : OptionValue) : option OptionValue :=
  match v with
  | OBool _ => OBool <$> ParseBool t
  | OInt is_signed w _ => (fun '(v, _) => OInt is_signed w (narrow is_signed w v)) <$> ParseInteger (Some t) 0
  | OF64 _ => (fun '(v, _) => OF64 v) <$> ParseFloat (Some t)
  | OText _ => Some (OText (Some t))
  end.

Definition SetFromString (o : OptionBase) (t : text) : OptionBase * bool :=
  match ParseFromString t (value_ o) with Some v => (with_overridden (with_value o v) true, true) | None => (o, false) end.

Definition Reset (o : OptionBase) : OptionBase := with_overridden (with_value o (default_ o)) false.

Definition format_arg (v : OptionValue) : Value :=
  match v with OBool b => VBool b | OInt is_signed _ v => VInt is_signed v | OF64 v => VDouble v | OText s => VCStr s end.

(** The buffer afterwards and the length of the text. *)
Definition FormatValue (v : OptionValue) (buffer : text) : text * nat :=
  match v with
  | OText None => (match buffer with [] => [] | _ => <[0%nat := 0]> buffer end, 0%nat)
  | _ => FormatTo buffer (List.length buffer) true (Some (str "{}")) [format_arg v]
  end.

(** ** Option files *)

Inductive OptionApply := kOverride | kFillUnset.

Record Result := mkResult { applied : nat; skipped : nat; unknown : nat; invalid : nat; read : bool }.

Definition no_result : Result := mkResult 0 0 0 0 false.
Definition count_applied (r : Result) := mkResult (S (applied r)) (skipped r) (unknown r) (invalid r) (read r).
Definition count_skipped (r : Result) := mkResult (applied r) (S (skipped r)) (unknown r) (invalid r) (read r).
Definition count_unknown (r : Result) := mkResult (applied r) (skipped r) (S (unknown r)) (invalid r) (read r).
Definition count_invalid (r : Result) := mkResult (applied r) (skipped r) (unknown r) (S (invalid r)) (read r).

(** [String(data, length).c_str()]: what follows a null is not seen. *)
Fixpoint InternValue (value : text) : text := match value with [] => [] | c :: value => if c =? 0 then [] else c :: InternValue value end.

Definition IsSpace (c : Z) : bool := (c =? 32) || (c =? 9) || (c =? 13) || (c =? 10).

Fixpoint trim_front (t : text) : text := match t with c :: t' => if IsSpace c then trim_front t' else t | [] => [] end.

(** Both loops stop where they meet. *)
Definition Trim (t : text) : text := rev (trim_front (rev (trim_front t))).

Definition Unquote (value : text) : text :=
  if (List.length value <? 2)%nat then value
  else
    let first := List.nth 0 value 0 in
    if ((first =? 34) || (first =? 39)) && (List.nth (List.length value - 1) value 0 =? first)
    then take (List.length value - 2) (drop 1 value)
    else value.

Definition IsComment (line : text) : bool :=
  if List.nth 0 line 0 =? 35 then true
  else (2 <=? List.length line)%nat && (List.nth 0 line 0 =? 47) && (List.nth 1 line 0 =? 47).

Definition Matches (o : OptionBase) (name : text) : bool :=
  if decide (name = name_ o) then true
  else match env_ o with Some e => bool_decide (name = e) | None => false end.

(** The text in front of the first [c] and behind it. *)
Fixpoint split_at (c : Z) (t : text) : text * option text :=
  match t with
  | [] => ([], None)
  | d :: t => if d =? c then ([], Some t) else let '(a, b) := split_at c t in (d :: a, b)
  end.

(** What the visit of the options has seen: [matched], [failed] and [held]. *)
Record Seen := mkSeen { matched : nat; failed : nat; held : nat }.

Definition visit_option (name : text) (apply : OptionApply) (stable : option text) (o : OptionBase) (s : Seen) : OptionBase * Seen :=
  if negb (Matches o name) then (o, s)
  else
    let s := mkSeen (S (matched s)) (failed s) (held s) in
    if (match apply with kFillUnset => true | kOverride => false end) && overridden_ o then (o, mkSeen (matched s) (failed s) (S (held s)))
    else match stable with
      | None => (Reset o, s)
      | Some t => let '(o, ok) := SetFromString o t in (o, if ok then s else mkSeen (matched s) (S (failed s)) (held s))
      end.

(** [OptionBase::VisitAll] with a functor that changes the options and its own state. *)
Fixpoint VisitAll {S} (f : OptionBase -> S -> OptionBase * S) (os : list OptionBase) (s : S) : list OptionBase * S :=
  match os with
  | [] => ([], s)
  | o :: os => let '(o, s) := f o s in let '(os, s) := VisitAll f os s in (o :: os, s)
  end.

Definition ApplyEntry (entry : text) (apply : OptionApply) (result : Result) (os : list OptionBase) : Result * list OptionBase :=
  let first := List.nth 0 entry 0 in
  let signed_ := (first =? 43) || (first =? 45) in
  let body := if signed_ then drop 1 entry else entry in
  let reset := first =? 45 in
  let '(before, assign) := split_at 61 body in
  let name := Trim (match assign with None => body | Some _ => before end) in
  if bool_decide (name = []) then (count_invalid result, os)
  else if (match assign with None => true | Some _ => false end) && (List.length body =? List.length entry)%nat then (count_invalid result, os)
  else
    let value := match assign with None => str "1" | Some after => Unquote (Trim after) end in
    let stable := if reset then None else Some (InternValue value) in
    let '(os, s) := VisitAll (visit_option name apply stable) os (mkSeen 0 0 0) in
    (if (matched s =? 0)%nat then count_unknown result
     else if negb (failed s =? 0)%nat then count_invalid result
     else if (held s =? matched s)%nat then count_skipped result
     else count_applied result, os).

Definition FindOption (name : text) (os : list OptionBase) : option OptionBase :=
  snd (VisitAll (fun o found => (o, if bool_decide (found = None) && Matches o name then Some o else found)) os None).

Definition SetOptionValue (name value : text) (os : list OptionBase) : list OptionBase * bool :=
  let stable := InternValue value in
  VisitAll (fun o set => if Matches o name then let '(o, ok) := SetFromString o stable in (o, set || ok) else (o, set)) os false.

(** One turn per line; the last line ends the text. *)
Fixpoint apply_lines (fuel : nat) (t : text) (apply : OptionApply) (result : Result) (os : list OptionBase) : Result * list OptionBase :=
  match fuel with
  | O => (result, os)
  | S fuel =>
    let '(l, rest) := split_at 10 t in
    let line := Trim l in
    let '(result, os) := if negb (bool_decide (line = [])) && negb (IsComment line) then ApplyEntry line apply result os else (result, os) in
    match rest with None => (result, os) | Some rest => apply_lines fuel rest apply result os end
  end.

Definition ApplyOptionText (t : text) (apply : OptionApply) (os : list OptionBase) : Result * list OptionBase :=
  apply_lines (S (List.length t)) t apply (mkResult 0 0 0 0 true) os.

(** [content] is what [ReadFile] returns. *)
Definition ApplyOptionFile (content : option text) (apply : OptionApply) (os : list OptionBase) : Result * list OptionBase :=
  match content with
  | None => (no_result, os)
  | Some content => if (List.length content =? 0)%nat then (mkResult 0 0 0 0 true, os) else ApplyOptionText content apply os
  end.

(** [value] is the local buffer; every option writes it anew. *)
Fixpoint append_options (os : list OptionBase) (overridden_only : bool) (value : text) (out : text) : text :=
  match os with
  | [] => out
  | o :: os =>
    if overridden_only && negb (overridden_ o) then append_options os overridden_only value out
    else
      let out := match desc_ o with Some (c :: d) => out ++ str "// " ++ (c :: d) ++ [10] | _ => out end in
      let '(value, _) := FormatValue (value_ o) value in
      append_options os overridden_only value (out ++ [43] ++ name_ o ++ [61] ++ InternValue value ++ [10])
  end.

Definition AppendOptionText (out : text) (overridden_only : bool) (buffer : text) (os : list OptionBase) : text := append_options os overridden_only buffer out.

(** The text [WriteOptionFile] writes. *)
Definition WriteOptionFile (overridden_only : bool) (buffer : text) (os : list OptionBase) : text := AppendOptionText [] overridden_only buffer os.

(** [getenv] is what [GetEnvironmentVariable] finds. *)
Definition InitOptionsFromEnv (getenv : text -> option text) (os : list OptionBase) : list OptionBase * nat :=
  VisitAll (fun o n =>
    match env_ o with
    | None => (o, n)
    | Some e => match getenv e with Some t => let '(o, ok) := SetFromString o t in (o, if ok then S n else n) | None => (o, n) end
    end) os 0%nat.

(** ** What an option prints *)

Definition value_text (v : OptionValue) : text := match v with OText None => [] | _ => arg_text (MakeArg true (format_arg v)) default_spec end.

Lemma format_braces a : Format true (Some (str "{}")) [a] = arg_text (MakeArg true a) default_spec.
Proof. change (str "{}") with [123; 125]. unfold Format, FormatTo_string, FormatCore. cbn -[FormatArgValue MakeArg]. by rewrite FormatArgValue_text. Qed.

Lemma InternValue_id t rest : Forall (fun c => c <> 0) t -> InternValue (t ++ 0 :: rest) = t.
Proof. induction 1 as [|c t Hc _ IH]; [done|]. cbn. rewrite (proj2 (Z.eqb_neq c 0)) by done. by rewrite IH. Qed.

Lemma InternValue_whole t : Forall (fun c => c <> 0) t -> InternValue t = t.
Proof. induction 1 as [|c t Hc _ IH]; [done|]. cbn. rewrite (proj2 (Z.eqb_neq c 0)) by done. by rewrite IH. Qed.

(** The buffer holds the text as long as it has room for it. *)
Lemma FormatValue_text v buffer : v <> OText None -> (List.length (value_text v) < List.length buffer)%nat -> Forall (fun c => c <> 0) (value_text v) ->
  InternValue (fst (FormatValue v buffer)) = value_text v /\ List.length (fst (FormatValue v buffer)) = List.length buffer.
Proof.
  intros Hv Hl H0. assert (E : FormatValue v buffer = FormatTo buffer (List.length buffer) true (Some (str "{}")) [format_arg v]) by (destruct v as [| | |[s|]]; done).
  assert (Et : value_text v = arg_text (MakeArg true (format_arg v)) default_spec) by (destruct v as [| | |[s|]]; done).
  rewrite E, FormatTo_snprintf_ok by (destruct buffer; [cbn in Hl; lia|done]). rewrite format_braces, <- Et. cbn [fst]. rewrite Nat.min_l by lia. rewrite take_ge by lia. split.
  - by apply InternValue_id.
  - rewrite !length_app, length_drop. cbn. lia.
Qed.

(** A text that comes back from a line of a file as it was. *)
Record line_text (t : text) : Prop := {
  lt_trim : Trim t = t;
  lt_quote : Unquote t = t;
  lt_null : Forall (fun c => c <> 0) t;
  lt_line : Forall (fun c => c <> 10) t }.

Lemma trim_front_plain c t : IsSpace c = false -> trim_front (c :: t) = c :: t.
Proof. cbn. by intros ->. Qed.

Lemma Trim_plain t : t = [] \/ (exists c t', t = c :: t' /\ IsSpace c = false) /\ (exists t' c, t = t' ++ [c] /\ IsSpace c = false) -> Trim t = t.
Proof.
  intros [->|[(c & t' & E1 & H1) (t2 & d & E2 & H2)]]; [done|]. unfold Trim. rewrite E1, trim_front_plain, <- E1, E2 by done.
  rewrite rev_app_distr. cbn [rev app]. rewrite trim_front_plain by done. cbn [rev]. by rewrite rev_involutive.
Qed.

(** Digits, a sign in front. *)
Lemma plain_line_text t : t <> [] -> Forall (fun c => c = 45 \/ 48 <= c <= 57) t -> line_text t.
Proof.
  intros Hne Hf. assert (Hs : forall c, c ∈ t -> IsSpace c = false /\ c <> 34 /\ c <> 39).
  { intros c Hc. rewrite list.Forall_forall in Hf. specialize (Hf c Hc). unfold IsSpace. rewrite !orb_false_iff, !Z.eqb_neq. lia. } split.
  - apply Trim_plain. right. split.
    + destruct t as [|c t]; [done|]. exists c, t. split; [done|]. apply Hs, list_elem_of_here.
    + destruct (exists_last Hne) as (t' & c & ->). exists t', c. split; [done|]. apply Hs, elem_of_app. right. apply list_elem_of_here.
  - unfold Unquote. destruct t as [|c t]; [done|]. cbn [List.nth]. destruct (Hs c (list_elem_of_here _ _)) as (_ & H1 & H2). rewrite (proj2 (Z.eqb_neq c 34)), (proj2 (Z.eqb_neq c 39)) by done. cbn. by case_if.
  - eapply list.Forall_impl; [exact Hf|]. cbn. lia.
  - eapply list.Forall_impl; [exact Hf|]. cbn. lia.
Qed.

(** ** Integers *)

Lemma digit_loop_last fuel abs base : 2 <= base <= 36 -> 0 < abs < base ^ Z.of_nat fuel -> exists ds d, digit_loop fuel abs base false = map (dchar false) (ds ++ [d]) /\ 0 < d < base.
Proof.
  intros Hb. revert abs. induction fuel as [|fuel IH]; intros abs Ha; [cbn in Ha; lia|]. cbn [digit_loop]. rewrite (proj2 (Z.eqb_neq abs 0)) by lia.
  rewrite Nat2Z.inj_succ, Z.pow_succ_r in Ha by lia. pose proof (Z.mod_pos_bound abs base ltac:(lia)). pose proof (Z.div_mod abs base ltac:(lia)).
  destruct (Z.eq_dec (abs / base) 0) as [E|E].
  - exists [], (abs mod base). rewrite E. destruct fuel; cbn; split; (done || lia).
  - destruct (IH (abs / base)) as (ds & d & -> & Hd); [split; [pose proof (Z.div_pos abs base); lia|apply Z.div_lt_upper_bound; lia]|].
    exists (abs mod base :: ds), d. split; [done|lia].
Qed.

Definition int_text (negative : bool) (abs : Z) : text := (if negative then [45] else []) ++ integer_digits abs 10 false.

Lemma integer_text_default abs negative : integer_text abs negative default_spec = int_text negative abs.
Proof.
  unfold integer_text, int_text. cbn. unfold aligned_text, or_align. cbn. rewrite fill_text_0 by lia. cbn. unfold sign_char. cbn. by rewrite app_nil_r.
Qed.

(** The digits of a number: no leading zero. *)
Lemma digits_head abs : fits 64 abs -> exists d ds, integer_digits abs 10 false = dchar false d :: map (dchar false) ds /\ Forall (fun d => 0 <= d < 10) (d :: ds) /\ (d = 0 -> ds = []) /\ (List.length ds <= 64)%nat.
Proof.
  intros Ha. destruct (integer_digits_spec abs 10 false ltac:(lia) Ha) as (ds & E & Hf & Hne & Hv). unfold fits in Ha.
  assert (Hl : (List.length ds <= 64)%nat).
  { rewrite <- (length_map (dchar false)), <- E. unfold integer_digits. case_if; [cbn; lia|]. rewrite length_rev. clear. generalize 64%nat as n. intros n. revert abs. induction n as [|n IH]; intros abs; cbn; [lia|]. case_if; cbn; [lia|]. specialize (IH (abs / 10)). lia. }
  destruct (Z.eq_dec abs 0) as [->|H0]; [exists 0, []; split; [done|]; split; [by repeat constructor|]; split; [done|cbn; lia]|].
  destruct (digit_loop_last 64 abs 10 ltac:(lia)) as (ds' & d & E' & Hd).
  { split; [lia|]. eapply Z.lt_le_trans; [apply Ha|]. change (Z.of_nat 64) with 64. apply Z.pow_le_mono_l. lia. }
  assert (E2 : integer_digits abs 10 false = dchar false d :: map (dchar false) (rev ds')).
  { unfold integer_digits. rewrite (proj2 (Z.eqb_neq abs 0)) by done. by rewrite E', <- map_rev, rev_app_distr. }
  rewrite E2 in E. destruct ds as [|d0 ds]; [done|]. injection E as Ed Es. exists d0, ds. rewrite E2, Ed, Es. split; [done|]. split; [done|]. split; [|cbn in Hl; lia].
  intros ->. exfalso. revert Ed. unfold dchar. case_if; case_if; lia.
Qed.

Lemma dchar_digit d : 0 <= d < 10 -> 48 <= dchar false d <= 57.
Proof. unfold dchar. case_if; lia. Qed.

Lemma skip_int_text negative abs : fits 64 abs -> SkipSpaceAndSign (int_text negative abs) = (integer_digits abs 10 false, negative).
Proof.
  intros Ha. destruct (digits_head abs Ha) as (d & ds & E & Hf & _). inversion_clear Hf as [|? ? Hd _]. pose proof (dchar_digit d Hd) as Hc. unfold int_text. rewrite E. unfold SkipSpaceAndSign.
  destruct negative; cbn [app skip_space]; [done|]. assert (Hs : IntParse.IsSpace (dchar false d) = false) by (unfold IntParse.IsSpace; rewrite !orb_false_iff, !Z.eqb_neq; lia).
  rewrite Hs. cbn [deref hd]. by rewrite (proj2 (Z.eqb_neq _ 43)), (proj2 (Z.eqb_neq _ 45)) by lia.
Qed.

(** Without a leading zero the parser finds the radix to be ten. *)
Lemma radix_ten abs : fits 64 abs -> ApplyRadixPrefix (integer_digits abs 10 false) 0 = (integer_digits abs 10 false, 10).
Proof.
  intros Ha. destruct (digits_head abs Ha) as (d & ds & -> & Hf & Hz & _). inversion_clear Hf as [|? ? Hd _]. unfold ApplyRadixPrefix. cbn [Z.eqb orb]. unfold deref_at. cbn [List.nth].
  destruct (Z.eq_dec d 0) as [->|Hne]; [by rewrite (Hz eq_refl)|]. assert (E : (dchar false d =? 48) = false) by (apply Z.eqb_neq; unfold dchar; case_if; lia). by rewrite E.
Qed.

Lemma ParseInteger_ten negative abs : fits 64 abs -> ParseInteger (Some (int_text negative abs)) 0 = ParseInteger (Some (int_text negative abs)) 10.
Proof. intros Ha. unfold ParseInteger. rewrite skip_int_text by done. rewrite radix_ten by done. by unfold ApplyRadixPrefix. Qed.

Lemma int_text_line negative abs : fits 64 abs -> line_text (int_text negative abs) /\ (List.length (int_text negative abs) <= 66)%nat.
Proof.
  intros Ha. destruct (digits_head abs Ha) as (d & ds & E & Hf & _ & Hl). unfold int_text. rewrite E. change (dchar false d :: map (dchar false) ds) with (map (dchar false) (d :: ds)). split.
  - apply plain_line_text; [by destruct negative|]. apply list.Forall_app. split; [destruct negative; repeat constructor; lia|].
    apply List.Forall_map. eapply list.Forall_impl; [exact Hf|]. intros x Hx. right. by apply dchar_digit.
  - rewrite length_app, length_map. cbn. destruct negative; cbn; lia.
Qed.

Lemma value_text_int is_signed w v : - 2 ^ 63 <= v < 2 ^ 63 -> (is_signed = false -> 0 <= v) ->
  value_text (OInt is_signed w v) = int_text (v <? 0) (Z.abs v) /\ exists rest, ParseInteger (Some (value_text (OInt is_signed w v))) 0 = Some (v, rest).
Proof.
  intros Hv Hs. assert (E : value_text (OInt is_signed w v) = arg_text (kI64 v) default_spec /\ (if v <? 0 then u64 (0 - u64 v) else u64 v) = Z.abs v).
  { cbn -[wrap]. unfold fits, wrap. pow_lit. destruct is_signed; cbn -[Z.modulo]; (destruct (Z.ltb_spec v 0); [|]); try (specialize (Hs eq_refl); lia).
    - split; [done|]. dlia.
    - split; [done|]. dlia.
    - rewrite Z.mod_small by lia. split; [done|lia]. }
  destruct E as [E Ea]. assert (Ha : fits 64 (Z.abs v)) by (unfold fits; pow_lit; lia). rewrite E. cbn [arg_text]. rewrite Ea, integer_text_default. split; [done|].
  destruct (format_parse_integer ([] : list Z) v default_spec Hv) as (t & rest & E1 & E2); [split; [done|]; split; [done|done]|].
  rewrite FormatArgValue_text in E1. cbn [arg_text] in E1. rewrite Ea, integer_text_default in E1. assert (Et : t = int_text (v <? 0) (Z.abs v)) by (symmetry; exact E1). subst t.
  exists rest. rewrite ParseInteger_ten by done. exact E2.
Qed.


(** ** Reading back what was written *)

Definition same_type (v v' : OptionValue) : Prop :=
  match v, v' with
  | OBool _, OBool _ | OF64 _, OF64 _ | OText _, OText _ => True
  | OInt is_signed w _, OInt is_signed' w' _ => is_signed = is_signed' /\ w = w'
  | _, _ => False
  end.

(** The values that the text of an option file can hold; the buffer has 512 bytes. *)
Definition writable (v : OptionValue) : Prop :=
  match v with
  | OBool _ => True
  | OInt is_signed w v => - 2 ^ 63 <= v < 2 ^ 63 /\ (is_signed = false -> 0 <= v) /\ narrow is_signed w v = v
  | OF64 f => line_text (value_text v) /\ Z.of_nat (List.length (value_text v)) < 512 /\ exists rest, ParseFloat (Some (value_text v)) = Some (f, rest)
  | OText (Some s) => line_text s /\ Z.of_nat (List.length s) < 512
  | OText None => False
  end.

Lemma value_text_string s : Z.of_nat (List.length s) < 512 -> value_text (OText (Some s)) = s.
Proof.
  intros Hs. unfold value_text. cbn -[arg_text]. cbn. unfold aligned_text, or_align. cbn. rewrite fill_text_0 by (rewrite swrap_small by (pow_lit; lia); lia). by rewrite app_nil_r.
Qed.

Lemma writable_text v : writable v -> v <> OText None /\ line_text (value_text v) /\ Z.of_nat (List.length (value_text v)) < 512.
Proof.
  destruct v as [b|sg w v|f|[s|]]; cbn -[value_text].
  - intros _. split; [done|]. split; [|by destruct b].
    destruct b; (split; [reflexivity|reflexivity|vm_compute; repeat constructor; discriminate|vm_compute; repeat constructor; discriminate]).
  - intros (Hv & Hs & _). destruct (value_text_int sg w v Hv Hs) as [E _]. split; [done|]. rewrite E. destruct (int_text_line (v <? 0) (Z.abs v)); [unfold fits; pow_lit; lia|]. split; [done|lia].
  - by intros (Hl & Hr & _).
  - intros [Hl Hr]. by rewrite value_text_string.
  - done.
Qed.

Lemma writable_reads v v' : writable v -> same_type v' v -> ParseFromString (value_text v) v' = Some v.
Proof.
  destruct v as [b|sg w v|f|[s|]]; destruct v' as [b'|sg' w' v'|f'|s']; cbn -[value_text ParseInteger ParseFloat]; try done.
  - intros _ _. destruct b; vm_compute; reflexivity.
  - intros (Hv & Hs & Hn) [-> ->]. destruct (value_text_int sg w v Hv Hs) as (_ & rest & E). rewrite E. cbn. by rewrite Hn.
  - intros (_ & _ & rest & E) _. by rewrite E.
  - intros [_ Hr] _. by rewrite value_text_string.
Qed.

(** *** The lines of the text *)

Definition desc_line (o : OptionBase) : text := match desc_ o with Some (c :: d) => str "// " ++ (c :: d) ++ [10] | _ => [] end.
Definition entry (o : OptionBase) : text := [43] ++ name_ o ++ [61] ++ value_text (value_ o).
Definition written (overridden_only : bool) (o : OptionBase) : bool := negb overridden_only || overridden_ o.
Definition file_text (overridden_only : bool) (os : list OptionBase) : text := List.concat (map (fun o => desc_line o ++ entry o ++ [10]) (List.filter (written overridden_only) os)).

Lemma append_options_text oo buffer os : Forall (fun o => writable (value_ o)) (List.filter (written oo) os) -> Z.of_nat (List.length buffer) = 512 -> forall out, append_options os oo buffer out = out ++ file_text oo os.
Proof.
  intros Hw. revert buffer. unfold file_text. induction os as [|o os IH]; intros buffer Hb out; cbn [append_options List.filter map List.concat]; [by rewrite app_nil_r|].
  cbn [List.filter] in Hw. assert (Eo : oo && negb (overridden_ o) = negb (written oo o)) by (unfold written; by destruct oo, (overridden_ o)). rewrite Eo.
  destruct (written oo o); cbn [negb]; [|by apply IH]. inversion_clear Hw as [|? ? Ho Hs].
  destruct (writable_text _ Ho) as (Hn & Hl & Hr). destruct (FormatValue_text (value_ o) buffer Hn) as [E El]; [lia|apply Hl|].
  destruct (FormatValue (value_ o) buffer) as [value n]. cbn [fst] in E, El. rewrite IH, E by (done || lia). cbn [map List.concat]. unfold desc_line, entry.
  destruct (desc_ o) as [[|c d]|]; by rewrite <- ?app_assoc.
Qed.

Lemma split_line l rest : Forall (fun c => c <> 10) l -> split_at 10 (l ++ 10 :: rest) = (l, Some rest).
Proof. induction 1 as [|c l Hc _ IH]; [done|]. cbn. rewrite (proj2 (Z.eqb_neq c 10)) by done. by rewrite IH. Qed.

Lemma split_name n v : Forall (fun c => c <> 61) n -> split_at 61 (n ++ 61 :: v) = (n, Some v).
Proof. induction 1 as [|c l Hc _ IH]; [done|]. cbn. rewrite (proj2 (Z.eqb_neq c 61)) by done. by rewrite IH. Qed.

(** One turn of the loop. *)
Definition apply_line (l : text) (apply : OptionApply) (result : Result) (os : list OptionBase) : Result * list OptionBase :=
  if negb (bool_decide (Trim l = [])) && negb (IsComment (Trim l)) then ApplyEntry (Trim l) apply result os else (result, os).

Lemma apply_lines_step fuel l rest apply result os : Forall (fun c => c <> 10) l ->
  apply_lines (S fuel) (l ++ 10 :: rest) apply result os = apply_lines fuel rest apply (fst (apply_line l apply result os)) (snd (apply_line l apply result os)).
Proof. intros Hl. cbn [apply_lines]. rewrite split_line by done. unfold apply_line. case_if; [|done]. by destruct (ApplyEntry _ _ _ _). Qed.

Lemma trim_front_app a c b : IsSpace c = false -> trim_front (a ++ c :: b) = trim_front a ++ c :: b.
Proof. intros Hc. induction a as [|x a IH]; cbn; [by rewrite Hc|]. by destruct (IsSpace x). Qed.

(** A line that starts as a comment is one, whatever stands behind. *)
Lemma comment_line l apply result os : apply_line (47 :: 47 :: l) apply result os = (result, os).
Proof.
  unfold apply_line. assert (E : exists l', Trim (47 :: 47 :: l) = 47 :: 47 :: l').
  { unfold Trim. rewrite trim_front_plain by done. cbn [rev]. rewrite <- app_assoc. cbn [app]. rewrite trim_front_app by done.
    rewrite rev_app_distr. cbn. by eexists. }
  by destruct E as [l' ->].
Qed.

(** *** The effect of an entry *)

(** An option and the one a file is read into, which has the same declaration. *)
Definition same_declaration (p : OptionBase * OptionBase) : Prop :=
  name_ (fst p) = name_ (snd p) /\ env_ (fst p) = env_ (snd p) /\ desc_ (fst p) = desc_ (snd p) /\ default_ (fst p) = default_ (snd p) /\ same_type (value_ (snd p)) (value_ (fst p)).

(** A name that stands in one line of text and is found again. *)
Record name_text (n : text) : Prop := {
  nt_trim : Trim n = n;
  nt_some : n <> [];
  nt_assign : Forall (fun c => c <> 61) n;
  nt_line : Forall (fun c => c <> 10) n }.

(** The option after the entries of the names [ns]. *)
Definition now (ns : list text) (p : OptionBase * OptionBase) : OptionBase := if existsb (Matches (fst p)) ns then with_overridden (fst p) true else snd p.

Lemma Matches_now ns p n : same_declaration p -> Matches (now ns p) n = Matches (fst p) n.
Proof. destruct p as [t c]. intros (E1 & E2 & _). cbn in *. unfold now. cbn. case_if; unfold Matches; cbn; by rewrite ?E1, ?E2. Qed.

Lemma with_now ns p : same_declaration p -> with_overridden (with_value (now ns p) (value_ (fst p))) true = with_overridden (fst p) true.
Proof. destruct p as [[] []]. unfold same_declaration, now. cbn. intros (-> & -> & -> & -> & _). by case_if. Qed.

Lemma same_type_refl v : same_type v v.
Proof. by destruct v. Qed.

(** The visit of one entry gives every option that goes by the name its value. *)
Lemma visit_now n v ns ps s : writable v -> Forall same_declaration ps -> Forall (fun p => Matches (fst p) n = true -> value_ (fst p) = v) ps ->
  exists k, VisitAll (visit_option n kOverride (Some (value_text v))) (map (now ns) ps) s = (map (now (n :: ns)) ps, mkSeen (matched s + k) (failed s) (held s)) /\
    ((exists p, p ∈ ps /\ Matches (fst p) n = true) -> (0 < k)%nat).
Proof.
  intros Hv Hd. revert s. induction Hd as [|p ps Hp _ IH]; intros s Hc.
  - exists 0%nat. split; [destruct s; cbn; by rewrite Nat.add_0_r|]. intros (p & Hp & _). by apply not_elem_of_nil in Hp.
  - inversion_clear Hc as [|? ? Hcp Hcs]. cbn [map VisitAll]. unfold visit_option at 1. rewrite Matches_now by done.
    assert (En : now (n :: ns) p = if Matches (fst p) n then with_overridden (fst p) true else now ns p) by (unfold now; cbn; by destruct (Matches (fst p) n)).
    destruct (Matches (fst p) n) eqn:Em; cbn [negb andb].
    + assert (Et : same_type (value_ (now ns p)) v).
      { rewrite <- (Hcp eq_refl). unfold now. case_if; [apply same_type_refl|]. apply Hp. }
      unfold SetFromString. rewrite (writable_reads v _ Hv Et), <- (Hcp eq_refl), with_now, (Hcp eq_refl) by done.
      destruct (IH (mkSeen (S (matched s)) (failed s) (held s)) Hcs) as (k & -> & _). exists (S k). split; [|lia]. cbn. rewrite En. do 2 f_equal. lia.
    + destruct (IH s Hcs) as (k & -> & Hk). exists k. rewrite En. split; [done|]. intros (q & Hq & Eq). apply Hk. exists q. split; [|done].
      apply elem_of_cons in Hq. destruct Hq as [->|]; [congruence|done].
Qed.

Lemma ApplyEntry_entry o ns ps result : name_text (name_ o) -> writable (value_ o) -> Forall same_declaration ps ->
  Forall (fun p => Matches (fst p) (name_ o) = true -> value_ (fst p) = value_ o) ps -> (exists p, p ∈ ps /\ Matches (fst p) (name_ o) = true) ->
  ApplyEntry (entry o) kOverride result (map (now ns) ps) = (count_applied result, map (now (name_ o :: ns)) ps).
Proof.
  intros [Nt Ns Na _] Hw Hd Hc Hex. destruct (writable_text _ Hw) as (_ & [Lt Lq L0 _] & _). unfold ApplyEntry, entry. cbn [app List.nth drop].
  change ((43 =? 43) || (43 =? 45)) with true. change (43 =? 45) with false. rewrite drop_0, split_name by done. rewrite Nt, bool_decide_eq_false_2 by done. cbn [andb].
  rewrite Lt, Lq, InternValue_whole by done.
  destruct (visit_now (name_ o) (value_ o) ns ps (mkSeen 0 0 0) Hw Hd Hc) as (k & -> & Hk). specialize (Hk Hex). cbn.
  destruct k as [|k]; [lia|]. done.
Qed.

Lemma trim_front_head t : match trim_front t with [] => True | c :: _ => IsSpace c = false end.
Proof. induction t as [|c t IH]; cbn; [done|]. by destruct (IsSpace c) eqn:E. Qed.

Lemma Trim_last t d : Trim (t ++ [d]) = t ++ [d] -> IsSpace d = false.
Proof.
  intros E. pose proof (trim_front_head (rev (trim_front (t ++ [d])))) as H. unfold Trim in E. apply (f_equal (@rev Z)) in E.
  rewrite rev_involutive in E. rewrite E, rev_app_distr in H. exact H.
Qed.

Lemma entry_line o : name_text (name_ o) -> writable (value_ o) -> Forall (fun c => c <> 10) (entry o) /\ Trim (entry o) = entry o /\ IsComment (entry o) = false.
Proof.
  intros Hn Hw. destruct (writable_text _ Hw) as (_ & [Lt _ _ Ll] & _). unfold entry. split.
  - repeat (apply list.Forall_app; split); try done; [by repeat constructor|apply Hn|by repeat constructor].
  - split; [|by unfold IsComment; cbn -[Nat.leb]; destruct (Nat.leb _ _)]. apply Trim_plain. right. split; [exists 43, (name_ o ++ [61] ++ value_text (value_ o)); done|]. destruct (value_text (value_ o)) as [|c t] eqn:E.
    + exists ([43] ++ name_ o), 61. by rewrite <- app_assoc.
    + destruct (exists_last (l := c :: t)) as (t' & d & Ed); [done|]. exists ([43] ++ name_ o ++ [61] ++ t'), d. rewrite Ed, <- !app_assoc. split; [done|].
      apply (Trim_last t'). by rewrite <- Ed.
Qed.

(** *** The whole file *)

Definition desc_text (o : OptionBase) : Prop := match desc_ o with Some d => Forall (fun c => c <> 10) d | None => True end.

(** An option whose entry can be read. *)
Record filed (o : OptionBase) : Prop := {
  fl_name : name_text (name_ o);
  fl_desc : desc_text o;
  fl_value : writable (value_ o) }.

Fixpoint count_lines (n : nat) (r : Result) : Result := match n with O => r | S n => count_lines n (count_applied r) end.

Lemma count_lines_spec n r : count_lines n r = mkResult (applied r + n) (skipped r) (unknown r) (invalid r) (read r).
Proof. revert r. induction n as [|n IH]; intros r; cbn; [destruct r; cbn; by rewrite Nat.add_0_r|]. rewrite IH. cbn. f_equal. lia. Qed.

(** The lines of one option. *)
Lemma option_lines o (ns : list text) ps result (rest : text) fuel : filed o -> Forall same_declaration ps -> Forall (fun p => Matches (fst p) (name_ o) = true -> value_ (fst p) = value_ o) ps ->
  (exists p, p ∈ ps /\ Matches (fst p) (name_ o) = true) -> (List.length (desc_line o ++ entry o ++ [10%Z] ++ rest) < fuel)%nat ->
  exists fuel', (List.length rest < fuel')%nat /\
    apply_lines fuel (desc_line o ++ entry o ++ [10] ++ rest) kOverride result (map (now ns) ps) = apply_lines fuel' rest kOverride (count_applied result) (map (now (name_ o :: ns)) ps).
Proof.
  intros [Hn Hd Hw] Hp Hc Hex Hf. assert (He : forall fuel r, (List.length (entry o ++ [10%Z] ++ rest) < fuel)%nat -> exists fuel', (List.length rest < fuel')%nat /\
    apply_lines fuel (entry o ++ [10] ++ rest) kOverride r (map (now ns) ps) = apply_lines fuel' rest kOverride (count_applied r) (map (now (name_ o :: ns)) ps)).
  { intros [|f] r Hl; [lia|]. exists f. split; [rewrite !length_app in Hl; cbn in Hl; lia|]. destruct (entry_line o Hn Hw) as (H10 & Ht & Hi). cbn [app]. rewrite apply_lines_step by done.
    assert (E : apply_line (entry o) kOverride r (map (now ns) ps) = (count_applied r, map (now (name_ o :: ns)) ps)) by (unfold apply_line; rewrite Ht, Hi; by apply ApplyEntry_entry).
    by rewrite E. }
  unfold desc_line, desc_text in *. destruct (desc_ o) as [[|c d]|]; cbn [app]; [by apply He| |by apply He].
  destruct fuel as [|fuel]; [lia|]. cbn [app] in Hf |- *.
  assert (E : (str "// " ++ c :: d ++ [10]) ++ entry o ++ 10 :: rest = (47 :: 47 :: 32 :: c :: d) ++ 10 :: (entry o ++ [10] ++ rest)) by (cbn; by rewrite <- app_assoc).
  rewrite E in Hf |- *. rewrite (apply_lines_step fuel (47 :: 47 :: 32 :: c :: d)) by (repeat (apply List.Forall_cons; [lia|]); exact Hd).
  rewrite comment_line. cbn [fst snd]. apply He. rewrite length_app in Hf. cbn [List.length] in Hf. unfold text in *. lia.
Qed.

Lemma file_lines os (ns : list text) ps result fuel : Forall filed os -> Forall same_declaration ps ->
  Forall (fun o => Forall (fun p => Matches (fst p) (name_ o) = true -> value_ (fst p) = value_ o) ps /\ exists p, p ∈ ps /\ Matches (fst p) (name_ o) = true) os ->
  (List.length (List.concat (map (fun o => desc_line o ++ entry o ++ [10%Z]) os)) < fuel)%nat ->
  apply_lines fuel (List.concat (map (fun o => desc_line o ++ entry o ++ [10]) os)) kOverride result (map (now ns) ps) =
    (count_lines (List.length os) result, map (now (rev (map name_ os) ++ ns)) ps).
Proof.
  intros Ho Hp. revert ns result fuel. induction Ho as [|o os Hf _ IH]; intros ns result fuel Hc Hl.
  - cbn in *. destruct fuel; [lia|]. reflexivity.
  - inversion_clear Hc as [|? ? [Hc1 Hc2] Hcs]. cbn [map List.concat] in *. rewrite <- !app_assoc in *.
    destruct (option_lines o ns ps result _ fuel Hf Hp Hc1 Hc2 Hl) as (fuel' & Hl' & ->). rewrite IH by done. cbn [List.length count_lines rev]. by rewrite <- app_assoc.
Qed.

(** Every name the file holds means options that the file has with the same value. *)
Definition consistent (overridden_only : bool) (os : list OptionBase) : Prop :=
  forall o p, o ∈ os -> p ∈ os -> written overridden_only o = true -> Matches p (name_ o) = true -> written overridden_only p = true /\ value_ p = value_ o.

Definition reload (overridden_only : bool) (o fresh : OptionBase) : OptionBase := if written overridden_only o then with_overridden o true else fresh.

Lemma written_elem oo o os : o ∈ List.filter (written oo) os <-> o ∈ os /\ written oo o = true.
Proof. rewrite !list_elem_of_In. apply filter_In. Qed.

Lemma Matches_own o : Matches o (name_ o) = true.
Proof. unfold Matches. by rewrite decide_True. Qed.

Lemma reload_now oo ps : consistent oo (map fst ps) -> map (now (rev (map name_ (List.filter (written oo) (map fst ps))))) ps = map (fun p => reload oo (fst p) (snd p)) ps.
Proof.
  intros Hc. apply map_ext_in. intros p Hp. unfold now, reload.
  assert (Hin : fst p ∈ map fst ps) by (apply list_elem_of_In; by apply in_map). destruct (existsb _ _) eqn:E; symmetry.
  - apply existsb_exists in E. destruct E as (n & Hn & Em). apply in_rev, in_map_iff in Hn. destruct Hn as (o & <- & Ho). apply filter_In in Ho.
    destruct (Hc o (fst p)) as [-> _]; [apply list_elem_of_In, Ho|done|apply Ho|done|done].
  - destruct (written oo (fst p)) eqn:Ew; [|done]. enough (existsb (Matches (fst p)) (rev (map name_ (List.filter (written oo) (map fst ps)))) = true) by congruence.
    apply existsb_exists. exists (name_ (fst p)). split; [|apply Matches_own]. apply in_rev. rewrite rev_involutive. apply in_map, filter_In. split; [by apply in_map|done].
Qed.

Lemma reload_pairs oo buffer ps : Z.of_nat (List.length buffer) = 512 -> Forall filed (List.filter (written oo) (map fst ps)) -> consistent oo (map fst ps) -> Forall same_declaration ps ->
  ApplyOptionText (WriteOptionFile oo buffer (map fst ps)) kOverride (map snd ps) =
    (mkResult (List.length (List.filter (written oo) (map fst ps))) 0 0 0 true, map (fun p => reload oo (fst p) (snd p)) ps).
Proof.
  intros Hb Hf Hc Hd. unfold ApplyOptionText, WriteOptionFile, AppendOptionText.
  rewrite append_options_text by (done || (eapply list.Forall_impl; [exact Hf|]; by intros ? [])). cbn [app]. unfold file_text.
  change (map snd ps) with (map (now []) ps). rewrite file_lines; [|done|done| |lia].
  - rewrite count_lines_spec, app_nil_r, reload_now by done. done.
  - apply list.Forall_forall. intros o Ho. apply written_elem in Ho. destruct Ho as [Hin Hw]. split.
    + apply list.Forall_forall. intros p Hp Em. apply (Hc o (fst p)); [done| |done|done]. apply list_elem_of_In, in_map. by apply list_elem_of_In.
    + apply list_elem_of_In, in_map_iff in Hin. destruct Hin as (p & <- & Hp). exists p. split; [by apply list_elem_of_In|apply Matches_own].
Qed.


(** A flag, a size shared by two modules and a title; the file has the ones set. *)
Definition sample : list OptionBase :=
  [mkOption (str "log.verbose") (Some (str "VERBOSE")) (Some (str "say more")) (OBool true) (OBool false) true;
   mkOption (str "win.width") None None (OInt true 32 (-5)) (OInt true 32 1920) true;
   mkOption (str "win.height") None (Some []) (OInt false 16 1080) (OInt false 16 1080) false;
   mkOption (str "other.width") (Some (str "win.width")) None (OInt true 32 (-5)) (OInt true 32 640) true;
   mkOption (str "title") None (Some (str "shown on top")) (OText (Some (str "a b"))) (OText None) true].


(** ** The rest of the contract *)

(** The comparison decides equality of the texts. *)
Lemma StrEqual_spec l r : Forall (fun c => 0 < c < 256) l -> Forall (fun c => 0 < c < 256) r -> StrEqual l r = true <-> l = r.
Proof.
  intros Hl. revert r. unfold StrEqual. induction Hl as [|c l Hc _ IH]; intros r Hr; destruct Hr as [|d r Hd Hr]; cbn [Strcmp deref hd]; [done| | |].
  - change (u8 0) with 0. rewrite (wrap_small 8 d) by (unfold fits; lia). rewrite (proj2 (Z.eqb_neq 0 d)) by lia. cbn. case_if; done.
  - change (u8 0) with 0. rewrite (wrap_small 8 c) by (unfold fits; lia). rewrite (proj2 (Z.eqb_neq c 0)) by lia. cbn. case_if; done.
  - rewrite !wrap_small by (unfold fits; lia). destruct (Z.eqb_spec c d) as [<-|Hn]; cbn [negb].
    + rewrite (proj2 (Z.eqb_neq c 0)) by lia. cbn [List.tl]. rewrite IH by done. split; [by intros ->|by intros [=]].
    + split; [|by intros [=]]. case_if; done.
Qed.

(** An entry counts once. *)
Definition total (r : Result) : nat := applied r + skipped r + unknown r + invalid r.

Lemma ApplyEntry_counts e apply r os : total (fst (ApplyEntry e apply r os)) = S (total r) /\ read (fst (ApplyEntry e apply r os)) = read r.
Proof.
  unfold ApplyEntry. destruct (split_at _ _) as [before assign]. destruct (bool_decide _); [unfold total; cbn; split; [lia|done]|]. destruct (_ && _); [unfold total; cbn; split; [lia|done]|].
  destruct (VisitAll _ _ _) as [os' s]. cbn [fst]. repeat case_if; unfold total; cbn; (split; [lia|done]).
Qed.

(** A layer of defaults leaves the options that are set alone. *)
Lemma ApplyEntry_fill e r os i o : os !! i = Some o -> overridden_ o = true -> snd (ApplyEntry e kFillUnset r os) !! i = Some o.
Proof.
  intros Hi Ho. assert (Hv : forall n st s, fst (VisitAll (visit_option n kFillUnset st) os s) !! i = Some o).
  { intros n st. revert i Hi. induction os as [|x os' IH]; intros i Hi s; [done|]. cbn [VisitAll]. destruct (visit_option n kFillUnset st x s) as [x' s'] eqn:E. specialize (IH (Nat.pred i)).
    destruct (VisitAll _ os' s') as [os2 s2] eqn:E2. cbn [fst]. destruct i as [|i]; cbn in *; [|by specialize (IH Hi s'); rewrite E2 in IH].
    injection Hi as ->. f_equal. unfold visit_option in E. rewrite Ho in E. cbn in E. destruct (negb _); by injection E. }
  unfold ApplyEntry. destruct (split_at _ _) as [before assign]. destruct (bool_decide _); [done|]. destruct (_ && _); [done|].
  match goal with |- context [VisitAll (visit_option ?n _ ?st) os ?s] => specialize (Hv n st s); destruct (VisitAll (visit_option n kFillUnset st) os s) end. exact Hv.
Qed.

(** ** Where a file does not come back *)

Definition one (v d : OptionValue) (desc : option text) : list OptionBase := [mkOption (str "x") None desc v d true].
Definition back (os : list OptionBase) : Result * list OptionBase := ApplyOptionText (WriteOptionFile true (repeat 0 512) os) kOverride (map Reset os).

(** Blanks around a text, and quotes around it, are lost. *)
Example blanks_lost : map value_ (snd (back (one (OText (Some (str " a "))) (OText None) None))) = [OText (Some (str "a"))].
Proof. vm_compute. reflexivity. Qed.

Example quotes_lost : map value_ (snd (back (one (OText (Some (str "'a'"))) (OText None) None))) = [OText (Some (str "a"))].
Proof. vm_compute. reflexivity. Qed.

(** The second line of a value or of a description is an entry of its own. *)
Example second_line_invalid : let r := back (one (OText (Some (str "a" ++ [10] ++ str "b"))) (OText None) None) in applied (fst r) = 1%nat /\ invalid (fst r) = 1%nat /\ map value_ (snd r) = [OText (Some (str "a"))].
Proof. vm_compute. done. Qed.

Example description_invalid : invalid (fst (back (one (OBool true) (OBool false) (Some (str "first" ++ [10] ++ str "second"))))) = 1%nat.
Proof. vm_compute. done. Qed.

(** A null text comes back as an empty one. *)
Example null_lost : map value_ (snd (back (one (OText None) (OText None) None))) = [OText (Some [])].
Proof. vm_compute. done. Qed.

(** Six digits of a third are written. *)
Example fraction_lost : WriteOptionFile true (repeat 0 512) (one (OF64 4599676419421066581) (OF64 0) None) = str "+x=0.333333" ++ [10] /\
  bool_decide (map value_ (snd (back (one (OF64 4599676419421066581) (OF64 0) None))) = [OF64 4599676419421066581]) = false.
Proof. split; vm_compute; reflexivity. Qed.

(** The integers above those of [i64]: the parser takes the text back as the greatest of them or refuses it. *)
Example unsigned_lost : (fun r => (invalid (fst r), map value_ (snd r))) (back (one (OInt false 64 (2 ^ 64 - 1)) (OInt false 64 0) None)) = (0%nat, [OInt false 64 (2 ^ 63 - 1)]).
Proof. vm_compute. done. Qed.

(** An integer that does not fit the option is cut to its width; what follows the digits is ignored. *)
Example integer_cut : ParseFromString (str "300") (OInt false 8 0) = Some (OInt false 8 44) /\ ParseFromString (str "12abc") (OInt true 32 0) = Some (OInt true 32 12) /\ ParseFromString (str "12abc") (OBool false) = None.
Proof. vm_compute. done. Qed.
