(* ===== verification/ConditionVariable.v ===== *)
(** * base::ConditionVariable (threading/condition_variable.h, condition_variable_linux.cc)

    A counter of notifications that waiters sleep on.  Threads take steps in any order; a step
    is one access to [seq_] or [waiters_], one entry into the kernel, or one call on the lock
    that guards the data of the predicate.  The lock is held by one thread at a time; a sleep
    compares and sleeps in one step, as a futex does, and may end for no reason or by timeout.

    [advances] counts the notifications; [seq_] is that count in 32 bits.  A thread that makes
    the predicate true owes a [NotifyAll] and does not wait before it. *)

From stdpp Require Import list.
From S2P Require Import Prelude.

Set Default Proof Using "Type".
#[local] Open Scope Z_scope.

(** [Wait], [WaitUntil] (which [WaitFor] with a predicate calls), and [WaitFor] without one. *)
Inductive kind := Forever | Until | Once.

(** Where a thread stands.  [owes]: it has made the predicate true and not told all waiters.
    In a wait: before the predicate, the load of [seq_], the unlock, the registration, the
    sleep, asleep, before the end of the registration, before the lock.  In a notification,
    with the lock held or not: before the load of [waiters_] and before the wake. *)
Inductive place :=
  | Outside (owes : bool)
  | Inside (owes : bool)
  | CheckPred (k : kind)
  | LoadSeq (k : kind)
  | Unlock (k : kind) (seq : Z)
  | Register (k : kind) (seq : Z)
  | Sleep (k : kind) (seq : Z)
  | Asleep (k : kind)
  | Leave (k : kind)
  | Relock (k : kind)
  | NotifyLoad (all locked owes : bool)
  | NotifyWake (all locked owes : bool).

#[export] Instance kind_eq_dec : EqDecision kind.
Proof. solve_decision. Defined.
#[export] Instance place_eq_dec : EqDecision place.
Proof. solve_decision. Defined.

Section ConditionVariable.

Context {D : Type} (pred : D -> bool).

Record Sys := mkSys { data : D; owner : option nat; seq_ : Z; waiters_ : Z; advances : Z; places : list place }.

(** What the client, the scheduler and the clock decide. *)
Inductive choice := DoLock | DoUnlock | Write (d : D) | CallWait (k : kind) | CallNotify (all : bool) | Go | Spurious | TimeUp | WakeOne (u : nat).

Definition goto (s : Sys) (t : nat) (p : place) : Sys := mkSys (data s) (owner s) (seq_ s) (waiters_ s) (advances s) (<[t := p]> (places s)).
Definition with_owner (s : Sys) (o : option nat) : Sys := mkSys (data s) o (seq_ s) (waiters_ s) (advances s) (places s).
Definition with_data (s : Sys) (d : D) : Sys := mkSys d (owner s) (seq_ s) (waiters_ s) (advances s) (places s).
Definition with_waiters (s : Sys) (n : Z) : Sys := mkSys (data s) (owner s) (seq_ s) n (advances s) (places s).

Definition lock (s : Sys) (t : nat) (p : place) : option Sys := match owner s with None => Some (goto (with_owner s (Some t)) t p) | Some _ => None end.
Definition unlock (s : Sys) (t : nat) (p : place) : Sys := goto (with_owner s None) t p.

(** The head of the loop; [WaitFor] without a predicate has none. *)
Definition wait_start (k : kind) : place := match k with Once => LoadSeq Once | _ => CheckPred k end.
Definition wait_end (k : kind) : place := match k with Once => Inside false | _ => CheckPred k end.

Definition Wait_check (s : Sys) (t : nat) (k : kind) : Sys := goto s t (if pred (data s) then Inside false else LoadSeq k).
(** [now >= deadline] *)
Definition Wait_expired (s : Sys) (t : nat) : option Sys := if pred (data s) then None else Some (goto s t (Inside false)).

Definition WaitWhileEquals_register (s : Sys) (t : nat) (k : kind) (seq : Z) : Sys := goto (with_waiters s (u32 (waiters_ s + 1))) t (Sleep k seq).
Definition SleepWhileEquals (s : Sys) (t : nat) (k : kind) (seq : Z) : Sys := goto s t (if seq_ s =? seq then Asleep k else Leave k).
Definition WaitWhileEquals_leave (s : Sys) (t : nat) (k : kind) : Sys := goto (with_waiters s (u32 (waiters_ s - 1))) t (Relock k).

Definition back (locked owes : bool) : place := if locked then Inside owes else Outside owes.

(** [Advance]: the increment, then the load. *)
Definition Advance_add (s : Sys) (t : nat) (all locked owes : bool) : Sys :=
  goto (mkSys (data s) (owner s) (u32 (seq_ s + 1)) (waiters_ s) (advances s + 1) (places s)) t (NotifyLoad all locked (negb all && owes)).
Definition Advance_load (s : Sys) (t : nat) (all locked owes : bool) : Sys := goto s t (if waiters_ s =? 0 then back locked owes else NotifyWake all locked owes).

Definition awake (p : place) : place := match p with Asleep k => Leave k | p => p end.

Definition WakeAll (s : Sys) (t : nat) (locked owes : bool) : Sys :=
  goto (mkSys (data s) (owner s) (seq_ s) (waiters_ s) (advances s) (map awake (places s))) t (back locked owes).
Definition WakeOne_ (s : Sys) (t u : nat) (locked owes : bool) : option Sys :=
  match places s !! u with Some (Asleep k) => Some (goto (goto s u (Leave k)) t (back locked owes)) | _ => None end.
Definition WakeNobody (s : Sys) (t : nat) (locked owes : bool) : option Sys :=
  if forallb (fun p => bool_decide (awake p = p)) (places s) then Some (goto s t (back locked owes)) else None.

(** [None] where the choice does not apply, or the thread has to wait for the lock. *)
Definition step (s : Sys) (t : nat) (c : choice) : option Sys :=
  p ← places s !! t;
  match p, c with
  | Outside owes, DoLock => lock s t (Inside owes)
  | Inside owes, DoUnlock => Some (unlock s t (Outside owes))
  | Inside owes, Write d => Some (goto (with_data s d) t (Inside (owes || negb (pred (data s)) && pred d)))
  | Inside owes, CallWait k => if owes then None else Some (goto s t (wait_start k))
  | CheckPred k, Go => Some (Wait_check s t k)
  | CheckPred k, TimeUp => match k with Until => Wait_expired s t | _ => None end
  | LoadSeq k, Go => Some (goto s t (Unlock k (seq_ s)))
  | Unlock k seq, Go => Some (unlock s t (Register k seq))
  | Register k seq, Go => Some (WaitWhileEquals_register s t k seq)
  | Sleep k seq, Go => Some (SleepWhileEquals s t k seq)
  | Sleep k _, TimeUp => match k with Forever => None | _ => Some (goto s t (Leave k)) end
  | Asleep k, Spurious => Some (goto s t (Leave k))
  | Leave k, Go => Some (WaitWhileEquals_leave s t k)
  | Relock k, Go => lock s t (wait_end k)
  | Outside owes, CallNotify all => Some (Advance_add s t all false owes)
  | Inside owes, CallNotify all => Some (Advance_add s t all true owes)
  | NotifyLoad all locked owes, Go => Some (Advance_load s t all locked owes)
  | NotifyWake all locked owes, Go => if all then Some (WakeAll s t locked owes) else WakeNobody s t locked owes
  | NotifyWake all locked owes, WakeOne u => if all then None else WakeOne_ s t u locked owes
  | _, _ => None
  end.

Fixpoint run_steps (s : Sys) (ms : list (nat * choice)) : option Sys :=
  match ms with [] => Some s | (t, c) :: ms => s ← step s t c; run_steps s ms end.

(** [n] threads. *)
Definition start (d : D) (n : nat) : Sys := mkSys d None 0 0 0 (replicate n (Outside false)).

(** ** Invariant *)

Definition holds_lock (p : place) : bool :=
  match p with Inside _ | CheckPred _ | LoadSeq _ | Unlock _ _ | NotifyLoad _ true _ | NotifyWake _ true _ => true | _ => false end.
Definition registered (p : place) : bool := match p with Sleep _ _ | Asleep _ | Leave _ => true | _ => false end.

(** A thread that has still to tell all waiters, and one that is telling them. *)
Definition owing (p : place) : bool := match p with Outside o | Inside o | NotifyLoad _ _ o | NotifyWake _ _ o => o | _ => false end.
Definition telling (p : place) : bool := match p with NotifyLoad true _ _ | NotifyWake true _ _ => true | _ => false end.

Definition someone (f : place -> bool) (s : Sys) : Prop := exists u p, places s !! u = Some p /\ f p = true.

(** What a thread knows of the predicate where it stands. *)
Definition place_ok (s : Sys) (p : place) : Prop :=
  match p with
  | LoadSeq k => k <> Once -> pred (data s) = false
  | Unlock k q | Register k q | Sleep k q => q <= advances s /\ (k <> Once -> pred (data s) = true -> q < advances s \/ someone owing s)
  | Asleep k => k <> Once -> pred (data s) = true -> someone owing s \/ someone telling s
  | _ => True
  end.

Record inv (s : Sys) : Prop := {
  i_owner : forall t, owner s = Some t <-> exists p, places s !! t = Some p /\ holds_lock p = true;
  i_seq : 0 <= advances s /\ seq_ s = u32 (advances s);
  i_waiters : waiters_ s = u32 (Z.of_nat (List.length (List.filter registered (places s))));
  i_place : forall t p, places s !! t = Some p -> place_ok s p }.

(** ** Moves of one thread *)

Lemma someone_new f s s' t p p' : places s !! t = Some p -> places s' = <[t := p']> (places s) -> f p' = true -> someone f s'.
Proof using Type. intros Ht E Hp. exists t, p'. rewrite E. split; [|done]. apply list_lookup_insert_eq. by eapply lookup_lt_Some. Qed.

Lemma someone_move f s s' t p p' : places s !! t = Some p -> places s' = <[t := p']> (places s) -> (f p = true -> f p' = true) -> someone f s -> someone f s'.
Proof using Type.
  intros Ht E Hp (u & q & Hu & Hq). destruct (decide (u = t)) as [->|Hne].
  - rewrite Ht in Hu. injection Hu as <-. eapply someone_new; [done|done|by apply Hp].
  - exists u, q. rewrite E, list_lookup_insert_ne by done. done.
Qed.

Lemma place_ok_mono s s' q : advances s' = advances s -> (pred (data s') = true -> pred (data s) = true) ->
  (someone owing s -> someone owing s') -> (forall k, q = Asleep k -> someone telling s -> someone telling s') -> place_ok s q -> place_ok s' q.
Proof using Type.
  intros Ea Hp Ho Ht. destruct q; cbn; try done; rewrite ?Ea.
  - intros H Hk. specialize (H Hk). destruct (pred (data s')); [|done]. by rewrite Hp in H.
  - intros [? H]. split; [done|]. intros Hk Ep. destruct (H Hk (Hp Ep)) as [|]; [by left|right; by apply Ho].
  - intros [? H]. split; [done|]. intros Hk Ep. destruct (H Hk (Hp Ep)) as [|]; [by left|right; by apply Ho].
  - intros [? H]. split; [done|]. intros Hk Ep. destruct (H Hk (Hp Ep)) as [|]; [by left|right; by apply Ho].
  - intros H Hk Ep. destruct (H Hk (Hp Ep)) as [|]; [left; by apply Ho|right; by eapply Ht].
Qed.

Lemma filter_insert (l : list place) t p p' : l !! t = Some p ->
  Z.of_nat (List.length (List.filter registered (<[t := p']> l))) = Z.of_nat (List.length (List.filter registered l)) + Z.b2z (registered p') - Z.b2z (registered p).
Proof using Type.
  revert t. induction l as [|x l IH]; intros [|t] Ht; [done|done| |].
  - injection Ht as ->. cbn. destruct (registered p), (registered p'); cbn; lia.
  - cbn in Ht. specialize (IH t Ht). change (<[S t := p']> (x :: l)) with (x :: <[t := p']> l). cbn [List.filter]. destruct (registered x); cbn [List.length]; lia.
Qed.

(** The lock stays where it is, is let go, or is taken. *)
Definition lock_move (s s' : Sys) (t : nat) (p p' : place) : Prop :=
  (holds_lock p' = holds_lock p /\ owner s' = owner s) \/ (holds_lock p = true /\ holds_lock p' = false /\ owner s' = None) \/ (owner s = None /\ holds_lock p' = true /\ owner s' = Some t).

Lemma owner_move s s' t p p' : (forall u, owner s = Some u <-> exists p, places s !! u = Some p /\ holds_lock p = true) -> places s !! t = Some p -> places s' = <[t := p']> (places s) -> lock_move s s' t p p' ->
  forall u, owner s' = Some u <-> exists p, places s' !! u = Some p /\ holds_lock p = true.
Proof using Type.
  intros H Ht E Hl u. rewrite E. destruct (decide (u = t)) as [->|Hne].
  - rewrite list_lookup_insert_eq by (by eapply lookup_lt_Some). specialize (H t). rewrite Ht in H. destruct Hl as [(Eh & Eo)|[(E1 & E2 & E3)|(E1 & E2 & E3)]].
    + rewrite Eo, H. split; intros (q & [= <-] & Hq); eexists; (split; [done|]); congruence.
    + rewrite E3. split; [done|]. intros (q & [= <-] & Hq). congruence.
    + rewrite E3. split; [|done]. intros _. by exists p'.
  - rewrite list_lookup_insert_ne by done. pose proof (proj2 (H t)) as Hot. specialize (H u). destruct Hl as [(Eh & Eo)|[(E1 & E2 & E3)|(E1 & E2 & E3)]]; [by rewrite Eo| |].
    + rewrite E3. split; [done|]. intros Hx. exfalso. apply H in Hx. rewrite Hot in Hx by eauto. by injection Hx as ->.
    + rewrite E3. split; [intros [= ->]; done|]. intros Hx. apply H in Hx. congruence.
Qed.

Lemma inv_move s s' t p p' : inv s -> places s !! t = Some p -> places s' = <[t := p']> (places s) -> lock_move s s' t p p' ->
  0 <= advances s' /\ seq_ s' = u32 (advances s') -> waiters_ s' = u32 (waiters_ s + (Z.b2z (registered p') - Z.b2z (registered p))) ->
  (forall u q, u <> t -> places s !! u = Some q -> place_ok s q -> place_ok s' q) -> place_ok s' p' -> inv s'.
Proof using Type.
  intros [H1 H2 H3 H4] Ht E Hl Hs Hw Ho Hp. split; [by eapply owner_move|done| |].
  - rewrite Hw, H3, E, (filter_insert _ _ _ _ Ht), wrap_add_idemp. f_equal. lia.
  - intros u q Hu. rewrite E in Hu. destruct (decide (u = t)) as [->|Hne].
    + rewrite list_lookup_insert_eq in Hu by (by eapply lookup_lt_Some). by injection Hu as <-.
    + rewrite list_lookup_insert_ne in Hu by done. by eapply Ho, H4.
Qed.

Lemma inv_plain s s' t p p' : inv s -> places s !! t = Some p -> places s' = <[t := p']> (places s) -> lock_move s s' t p p' ->
  data s' = data s -> advances s' = advances s -> seq_ s' = seq_ s -> waiters_ s' = u32 (waiters_ s + (Z.b2z (registered p') - Z.b2z (registered p))) ->
  (owing p = true -> owing p' = true) -> (telling p = true -> telling p' = true) -> place_ok s' p' -> inv s'.
Proof using Type.
  intros H Ht E Hl Ed Ea Es Hw Ho Hn Hp. eapply inv_move; [done..| | | |done].
  - rewrite Ea, Es. apply H.
  - done.
  - intros u q _ _. apply place_ok_mono; [done|by rewrite Ed|by eapply someone_move|intros _ _; by eapply someone_move].
Qed.

Lemma waiters_same s : inv s -> waiters_ s = u32 (waiters_ s + 0).
Proof using Type. intros H. rewrite Z.add_0_r, (i_waiters _ H). by rewrite wrap_wrap. Qed.

Lemma exclusive s t u p q : inv s -> places s !! t = Some p -> places s !! u = Some q -> holds_lock p = true -> holds_lock q = true -> t = u.
Proof using Type.
  intros H Ht Hu Hp Hq. assert (E1 : owner s = Some t) by (apply (i_owner _ H); eauto). assert (E2 : owner s = Some u) by (apply (i_owner _ H); eauto). congruence.
Qed.

(** A call on the predicate's data. *)
Lemma inv_write s t owes d : inv s -> places s !! t = Some (Inside owes) -> inv (goto (with_data s d) t (Inside (owes || negb (pred (data s)) && pred d))).
Proof using Type.
  intros H Ht. set (s' := goto _ _ _). assert (E : places s' = <[t := Inside (owes || negb (pred (data s)) && pred d)]> (places s)) by done.
  eapply inv_move; [done|done|exact E|by left|pose proof (i_seq _ H) as Hsq; exact Hsq|exact (waiters_same s H)| |done]. intros u q Hne Hu Hq. cbn [data with_data goto] in *. destruct (pred d) eqn:Ed.
  - destruct (pred (data s)) eqn:Ep.
    + apply (place_ok_mono s); [done|by intros|eapply someone_move; [exact Ht|exact E|]|intros _ _; eapply someone_move; [exact Ht|exact E|done]|done]. cbn. by intros ->.
    + assert (Ho : someone owing s') by (eapply someone_new; [exact Ht|exact E|]; cbn; by rewrite orb_true_r).
      destruct q; cbn in *; try done.
      * exfalso. apply Hne. by eapply (exclusive s u t).
      * split; [apply Hq|]. auto.
      * split; [apply Hq|]. auto.
      * split; [apply Hq|]. auto.
      * auto.
  - destruct q; cbn in *; try done; rewrite ?Ed; try done; (split; [apply Hq|done]).
Qed.

(** The increment: whoever is about to sleep will not, and whoever sleeps will be told by
    this thread unless another owes it. *)
Lemma inv_increment s t p all locked owes : inv s -> places s !! t = Some p -> p = back locked owes -> inv (Advance_add s t all locked owes).
Proof using Type.
  intros H Ht ->. unfold Advance_add. set (s' := goto _ _ _). pose proof (i_seq _ H) as [Ha Es].
  assert (E : places s' = <[t := NotifyLoad all locked (negb all && owes)]> (places s)) by done.
  eapply inv_move; [done|done|exact E|left; by destruct locked| | | |done].
  - cbn. split; [lia|]. by rewrite Es, wrap_add_idemp.
  - cbn. destruct locked; by apply waiters_same.
  - intros u q Hne Hu Hq. destruct q; cbn in *; try done; try (split; [lia|]; intros _ _; left; lia).
    intros Hk Hp. destruct (Hq Hk Hp) as [Ho|Ho].
    + destruct all; [right; eapply someone_new; [exact Ht|exact E|done]|left]. eapply someone_move; [exact Ht|exact E| |done]. cbn. by destruct locked.
    + right. eapply someone_move; [exact Ht|exact E| |done]. by destruct locked.
Qed.

Lemma filter_none (l : list place) t p : List.length (List.filter registered l) = 0%nat -> l !! t = Some p -> registered p = false.
Proof using Type.
  intros H Ht. destruct (registered p) eqn:E; [|done]. apply nil_length_inv in H. apply list_elem_of_lookup_2, list_elem_of_In in Ht.
  assert (In p (List.filter registered l)) as Hin by (by apply filter_In). by rewrite H in Hin.
Qed.

(** No waiter is registered: nobody sleeps. *)
Lemma inv_nobody s t all locked owes : inv s -> Z.of_nat (List.length (places s)) < 2 ^ 32 -> places s !! t = Some (NotifyLoad all locked owes) -> waiters_ s = 0 -> inv (goto s t (back locked owes)).
Proof using Type.
  intros H Hn Ht Hw. assert (Hz : List.length (List.filter registered (places s)) = 0%nat).
  { pose proof (i_waiters _ H) as Ew. rewrite Hw in Ew. pose proof (filter_length_le registered (places s)). rewrite wrap_small in Ew by (unfold fits; lia). lia. }
  eapply inv_move; [done|done|done|left; by destruct locked|pose proof (i_seq _ H) as Hsq; exact Hsq|cbn; destruct locked; cbn; by apply waiters_same| |by destruct locked].
  intros u q _ Hu. apply place_ok_mono; [done|done|eapply someone_move; [exact Ht|done|]; by destruct locked|].
  intros k ->. by pose proof (filter_none _ _ _ Hz Hu).
Qed.

Lemma filter_awake (l : list place) : List.length (List.filter registered (map awake l)) = List.length (List.filter registered l).
Proof using Type. induction l as [|[] l IH]; cbn; congruence. Qed.

Lemma awake_same p : holds_lock (awake p) = holds_lock p /\ registered (awake p) = registered p /\ owing (awake p) = owing p /\ telling (awake p) = telling p.
Proof using Type. by destruct p. Qed.

Lemma awake_not k p : awake p <> Asleep k.
Proof using Type. by destruct p. Qed.

Lemma lookup_awake (l : list place) u : map awake l !! u = awake <$> l !! u.
Proof using Type. exact (list_lookup_fmap awake l u). Qed.

Lemma someone_awake f s s' : places s' = map awake (places s) -> (forall p, f (awake p) = f p) -> someone f s -> someone f s'.
Proof using Type. intros E Hf (u & p & Hu & Hp). exists u, (awake p). rewrite E, Hf. split; [|done]. by rewrite lookup_awake, Hu. Qed.

(** Nobody sleeps any more. *)
Lemma inv_awake s : inv s -> inv (mkSys (data s) (owner s) (seq_ s) (waiters_ s) (advances s) (map awake (places s))).
Proof using Type.
  intros [H1 H2 H3 H4]. set (s' := mkSys _ _ _ _ _ _). assert (El : forall t, places s' !! t = awake <$> places s !! t) by (intros t; apply lookup_awake). split.
  - intros t. change (owner s') with (owner s). rewrite H1, El. split.
    + intros (p & -> & Hp). exists (awake p). split; [done|]. by rewrite (proj1 (awake_same p)).
    + destruct (places s !! t) as [p|]; [|by intros (? & ? & _)]. intros (q & [= <-] & Hq). exists p. split; [done|]. by rewrite (proj1 (awake_same p)) in Hq.
  - done.
  - cbn. by rewrite filter_awake.
  - intros t q Hq. rewrite El in Hq. destruct (places s !! t) as [p|] eqn:Ep; [|done]. injection Hq as <-. specialize (H4 t p Ep).
    assert (Hcase : (exists k, p = Asleep k) \/ awake p = p) by (destruct p; eauto). destruct Hcase as [[k ->]|Hn]; [done|]. rewrite Hn.
    apply (place_ok_mono s); [done|done| | |done].
    + apply someone_awake; [done|]. intros x. apply awake_same.
    + intros k ->. by destruct (awake_not k (Asleep k)).
Qed.

Lemma inv_wake_all s t locked owes : inv s -> places s !! t = Some (NotifyWake true locked owes) -> inv (WakeAll s t locked owes).
Proof using Type.
  intros H Ht. unfold WakeAll. pose proof (inv_awake s H) as H1. set (s1 := mkSys _ _ _ _ _ _) in *.
  assert (El : forall u, places s1 !! u = awake <$> places s !! u) by (intros u; apply lookup_awake). assert (Ht1 : places s1 !! t = Some (NotifyWake true locked owes)) by (by rewrite El, Ht).
  pose proof (i_seq _ H1) as Hsq. pose proof (waiters_same s1 H1) as Hws.
  eapply (inv_move s1); [done|exact Ht1|done|left; by destruct locked|exact Hsq|destruct locked; exact Hws| |by destruct locked].
  intros u q _ Hu. apply place_ok_mono; [done|done|eapply someone_move; [exact Ht1|done|]; by destruct locked|].
  intros k ->. rewrite El in Hu. destruct (places s !! u) as [p|]; [|done]. injection Hu as Hu. by apply awake_not in Hu.
Qed.

Lemma step_keeps_inv s t c s' : inv s -> Z.of_nat (List.length (places s)) < 2 ^ 32 -> advances s < 2 ^ 32 -> step s t c = Some s' -> inv s'.
Proof using Type.
  intros H Hn Ha Hstep. unfold step in Hstep. destruct (places s !! t) as [p|] eqn:Ht; [|done]. cbn [mbind option_bind] in Hstep.
  pose proof (i_place _ H t p Ht) as Hok. pose proof (waiters_same s H) as Hws. pose proof (i_seq _ H) as [Ha0 Es]. rewrite wrap_small in Es by (unfold fits; lia).
  assert (Htake : forall p', lock s t p' = Some s' -> holds_lock p = false -> holds_lock p' = true -> registered p = false -> registered p' = false -> (owing p = true -> owing p' = true) -> telling p = false -> place_ok s' p' -> inv s').
  { intros p' El E1 E2 E3 E4 E5 E6 E7. unfold lock in El. destruct (owner s) eqn:Eo; [done|]. injection El as <-.
    eapply (inv_plain s _ t p p'); try done; [by right; right|rewrite E3, E4; exact Hws|by rewrite E6]. }
  assert (Hkeep : forall p', s' = goto s t p' -> holds_lock p' = holds_lock p -> registered p' = registered p -> (owing p = true -> owing p' = true) -> telling p = false -> place_ok s' p' -> inv s').
  { intros p' -> E1 E2 E3 E4 E5. eapply (inv_plain s _ t p p'); try done; [by left|rewrite E2, Z.sub_diag; exact Hws|by rewrite E4]. }
  assert (Hrel : forall p', s' = unlock s t p' -> holds_lock p = true -> holds_lock p' = false -> registered p = false -> registered p' = false -> (owing p = true -> owing p' = true) -> telling p = false -> place_ok s' p' -> inv s').
  { intros p' -> E1 E2 E3 E4 E5 E6 E7. eapply (inv_plain s _ t p p'); try done; [by right; left|rewrite E3, E4; exact Hws|by rewrite E6]. }
  destruct p as [o|o|k|k|k q|k q|k q|k|k|k|all locked o|all locked o], c as [| |d|k'|all'| | | |u]; try done; cbn [place_ok] in Hok.
  - by eapply Htake.
  - injection Hstep as <-. by eapply inv_increment.
  - injection Hstep as <-. by eapply Hrel.
  - injection Hstep as <-. by apply inv_write.
  - destruct o; [done|]. injection Hstep as <-. eapply Hkeep; [done|by destruct k'..|]. destruct k'; cbn; try done; by intros [].
  - injection Hstep as <-. by eapply inv_increment.
  - unfold Wait_check in Hstep. destruct (pred (data s)) eqn:Ep; injection Hstep as <-; (eapply Hkeep; [done..|]); [done|by intros _].
  - destruct k; try done. unfold Wait_expired in Hstep. destruct (pred (data s)); [done|]. injection Hstep as <-. by eapply Hkeep.
  - injection Hstep as <-. eapply Hkeep; try done. cbn. rewrite Es. split; [lia|]. intros Hk Ep. by rewrite Hok in Ep.
  - injection Hstep as <-. eapply Hrel; try done. cbn. destruct Hok as [Hq Hok]. split; [done|]. intros Hk Ep. destruct (Hok Hk Ep) as [|Ho]; [by left|right]. by eapply someone_move.
  - injection Hstep as <-. eapply (inv_plain s _ t); try done; [by left|]. cbn. destruct Hok as [Hq Hok]. split; [done|]. intros Hk Ep. destruct (Hok Hk Ep) as [|Ho]; [by left|right]. by eapply someone_move.
  - unfold SleepWhileEquals in Hstep. rewrite Es in Hstep. destruct (Z.eqb_spec (advances s) q) as [<-|Hne]; injection Hstep as <-; eapply Hkeep; try done.
    cbn. intros Hk Ep. destruct Hok as [_ Hok]. destruct (Hok Hk Ep) as [|Ho]; [lia|left]. by eapply someone_move.
  - destruct k; try done; injection Hstep as <-; by eapply Hkeep.
  - injection Hstep as <-. by eapply Hkeep.
  - injection Hstep as <-. eapply (inv_plain s _ t); try done; by left.
  - eapply Htake; [exact Hstep|done|by destruct k..].
  - unfold Advance_load in Hstep. destruct (Z.eqb_spec (waiters_ s) 0) as [E0|Hne]; injection Hstep as <-; [by eapply inv_nobody|].
    eapply (inv_plain s _ t); try done; by left.
  - destruct all.
    + injection Hstep as <-. by apply inv_wake_all.
    + unfold WakeNobody in Hstep. destruct (forallb _ _); [|done]. injection Hstep as <-. by eapply Hkeep; [done|destruct locked..].
  - destruct all; [done|]. unfold WakeOne_ in Hstep. destruct (places s !! u) as [[]|] eqn:Eu; try done. injection Hstep as <-.
    assert (Hne : u <> t) by (intros ->; congruence). assert (H1 : inv (goto s u (Leave k))) by (eapply (inv_plain s _ u); try done; by left).
    eapply (inv_plain (goto s u (Leave k)) _ t (NotifyWake false locked o) (back locked o)); try done; try (by destruct locked).
    + cbn. by rewrite list_lookup_insert_ne.
    + left. by destruct locked.
Qed.

Lemma start_has_inv d n : inv (start d n).
Proof using Type.
  assert (E : forall t p, places (start d n) !! t = Some p -> p = Outside false) by (intros t p Ht; by apply lookup_replicate_1 in Ht as [-> _]). split.
  - intros t. split; [done|]. intros (p & Ht & Hp). by rewrite (E _ _ Ht) in Hp.
  - done.
  - cbn. replace (List.filter registered (replicate n (Outside false))) with (@nil place); [done|]. clear E. by induction n.
  - intros t p Ht. by rewrite (E _ _ Ht).
Qed.

Lemma step_mono s t c s' : step s t c = Some s' -> advances s <= advances s' /\ List.length (places s') = List.length (places s).
Proof using Type.
  unfold step. destruct (places s !! t) as [p|]; [|done]. cbn [mbind option_bind].
  assert (Hl : forall s1 u q, List.length (places (goto s1 u q)) = List.length (places s1)) by (intros; apply length_insert).
  destruct p, c; try done; unfold lock, unlock, Wait_expired, WakeNobody, WakeOne_, WakeAll, Advance_add; repeat case_match; intros E; try done; injection E as <-; cbn; rewrite ?length_insert, ?length_map; split; (done || lia).
Qed.

Lemma run_inv s ms s' : inv s -> Z.of_nat (List.length (places s)) < 2 ^ 32 -> run_steps s ms = Some s' -> advances s' < 2 ^ 32 ->
  inv s' /\ List.length (places s') = List.length (places s) /\ advances s <= advances s'.
Proof using Type.
  revert s. induction ms as [|[t c] ms IH]; intros s H Hn Hr Ha; cbn in Hr.
  - injection Hr as <-. split; [done|]. split; [done|lia].
  - destruct (step s t c) as [s1|] eqn:E; [|done]. cbn in Hr. destruct (step_mono _ _ _ _ E) as [Hm El].
    assert (Hmono : forall ms s1, run_steps s1 ms = Some s' -> advances s1 <= advances s').
    { clear. intros ms. induction ms as [|[u c] ms IH]; intros s1 Hr; cbn in Hr; [injection Hr as <-; lia|]. destruct (step s1 u c) as [s2|] eqn:E; [|done]. specialize (IH s2 Hr). apply step_mono in E. lia. }
    specialize (Hmono _ _ Hr). destruct (IH s1) as (Hi & Hl & Hle); [by eapply step_keeps_inv; [done|done|lia|exact E]|by rewrite El|done|done|].
    split; [done|]. split; [by rewrite Hl|lia].
Qed.

(** Two steps of a thread that is telling all waiters wake whoever sleeps. *)
Lemma telling_wakes s t u k p : inv s -> Z.of_nat (List.length (places s)) < 2 ^ 32 -> places s !! t = Some (Asleep k) -> places s !! u = Some p -> telling p = true ->
  exists n s', (n <= 2)%nat /\ run_steps s (repeat (u, Go) n) = Some s' /\ places s' !! t = Some (Leave k).
Proof using Type.
  intros H Hn Ht Hu Hp. assert (Hne : t <> u) by (intros ->; rewrite Ht in Hu; injection Hu as <-; done).
  assert (Hwake : forall s locked o, places s !! t = Some (Asleep k) -> places s !! u = Some (NotifyWake true locked o) -> exists s', step s u Go = Some s' /\ places s' !! t = Some (Leave k)).
  { intros s1 locked o Ht1 Hu1. unfold step. rewrite Hu1. cbn. eexists. split; [done|]. cbn. rewrite list_lookup_insert_ne by done. by rewrite lookup_awake, Ht1. }
  destruct p as [| | | | | | | | | |[] locked o|[] locked o]; try done.
  - assert (Hw : waiters_ s <> 0).
    { intros E0. pose proof (i_waiters _ H) as Ew. rewrite E0 in Ew. pose proof (filter_length_le registered (places s)). rewrite wrap_small in Ew by (unfold fits; lia).
      by pose proof (filter_none (places s) t (Asleep k) ltac:(lia) Ht). }
    set (s1 := goto s u (NotifyWake true locked o)). assert (E1 : step s u Go = Some s1) by (unfold step; rewrite Hu; cbn; unfold Advance_load; by rewrite (proj2 (Z.eqb_neq _ _) Hw)).
    destruct (Hwake s1 locked o) as (s2 & E2 & Ht2); [by cbn; rewrite list_lookup_insert_ne|cbn; apply list_lookup_insert_eq; by eapply lookup_lt_Some|].
    exists 2%nat, s2. split; [lia|]. cbn. rewrite E1. cbn. rewrite E2. done.
  - destruct (Hwake s locked o Ht Hu) as (s1 & E1 & Ht1). exists 1%nat, s1. split; [lia|]. cbn. by rewrite E1.
Qed.

(** C35. No wake-up is lost.  Whatever the interleaving of threads that write the data under
    the lock, wait, time out, wake for no reason and notify, at most one of them holds the lock, also when
    a wait returns; and a thread that sleeps in a wait while the predicate holds will be told:
    a thread that made the predicate true has still to call [NotifyAll], or one is inside it
    and its next two steps wake the sleeper.  Fewer than 2^32 threads and notifications. *)
Theorem ConditionVariable_no_lost_wakeup d n ms s : Z.of_nat n < 2 ^ 32 -> run_steps (start d n) ms = Some s -> advances s < 2 ^ 32 ->
  (forall t u p q, places s !! t = Some p -> places s !! u = Some q -> holds_lock p = true -> holds_lock q = true -> t = u) /\
  (forall t k, places s !! t = Some (Asleep k) -> k <> Once -> pred (data s) = true ->
    someone owing s \/ exists u m s', (m <= 2)%nat /\ run_steps s (repeat (u, Go) m) = Some s' /\ places s' !! t = Some (Leave k)).
Proof using Type.
  intros Hn Hr Ha. destruct (run_inv _ ms s (start_has_inv d n)) as (H & Hl & _); [by cbn; rewrite length_replicate|done|done|]. split.
  - intros t u p q Ht Hu Hp Hq. by eapply exclusive.
  - intros t k Ht Hk Hp. destruct (i_place _ H _ _ Ht Hk Hp) as [Ho|(u & p & Hu & Htell)]; [by left|right].
    exists u. eapply telling_wakes; [done| |done|exact Hu|done]. rewrite Hl. cbn. by rewrite length_replicate.
Qed.

End ConditionVariable.

(** A waiter that sleeps while another thread makes the predicate true and notifies. *)
Definition example_run : list (nat * choice (D := bool)) :=
  [(0, DoLock); (0, CallWait Forever); (0, Go); (0, Go); (0, Go); (0, Go); (0, Go); (1, DoLock); (1, Write true); (1, DoUnlock); (1, CallNotify true)]%nat.

Definition after {D} (pred : D -> bool) (s : Sys) (ms : list (nat * choice)) : Sys := default s (run_steps pred s ms).

Lemma ConditionVariable_no_lost_wakeup_witness : let s := after id (start false 2) example_run in
  places s = [Asleep Forever; NotifyLoad true false false] /\ data s = true /\
  exists u m s', (m <= 2)%nat /\ run_steps id s (repeat (u, Go) m) = Some s' /\ places s' !! 0%nat = Some (Leave Forever).
Proof.
  cbn zeta. split; [vm_compute; reflexivity|]. split; [vm_compute; reflexivity|].
  destruct (ConditionVariable_no_lost_wakeup id false 2 example_run (after id (start false 2) example_run)) as [_ H]; [reflexivity|vm_compute; reflexivity|vm_compute; reflexivity|].
  destruct (H 0%nat Forever) as [(u & p & Hu & Hp)|Hw]; [vm_compute; reflexivity|done|vm_compute; reflexivity| |exact Hw].
  exfalso. change (places (after id (start false 2) example_run)) with [Asleep Forever; NotifyLoad true false false] in Hu. destruct u as [|[|u]]; [injection Hu as <-|injection Hu as <-|]; done.
Defined.

(** [NotifyOne] tells one waiter: the other sleeps on though the predicate holds. *)
Example notify_one_leaves_one : places (after id (start false 3)
  ([(0, DoLock); (0, CallWait Forever); (0, Go); (0, Go); (0, Go); (0, Go); (0, Go); (1, DoLock); (1, CallWait Forever); (1, Go); (1, Go); (1, Go); (1, Go); (1, Go);
    (2, DoLock); (2, Write true); (2, DoUnlock); (2, CallNotify false); (2, Go); (2, WakeOne 0)]%nat)) = [Leave Forever; Asleep Forever; Outside true].
Proof. reflexivity. Qed.

(** A notification between the unlock and the sleep is not missed. *)
Example notify_before_sleep : places (after id (start false 2)
  ([(0, DoLock); (0, CallWait Forever); (0, Go); (0, Go); (0, Go); (1, DoLock); (1, Write true); (1, CallNotify true); (1, Go); (1, DoUnlock); (0, Go); (0, Go)]%nat)) = [Leave Forever; Outside false].
Proof. reflexivity. Qed.
