(* ===== verification/Random.v ===== *)
(** * Random numbers (random/random.cc, external/xoshiro256ss/xoshiro256ss.h)

    The generator's state is four words.  The seed is what [SourceTrueRandomSeed] returned.
    [BoundedDraw] repeats its draw until a value is small enough; the model gives it a number
    of turns and says [None] when they are used up. *)

From S2P Require Import Prelude Memory Hashing.

Set Default Proof Using "Type".
#[local] Open Scope Z_scope.

(** ** xoshiro256** *)

Record xoshiro256ss := mkRng { s0 : Z; s1 : Z; s2 : Z; s3 : Z }.

(** The result and the advanced argument. *)
Definition splitmix64 (x : Z) : Z * Z :=
  let x := u64 (x + 0x9e3779b97f4a7c15) in
  let z := x in
  let z := u64 (Z.lxor z (Z.shiftr z 30) * 0xbf58476d1ce4e5b9) in
  let z := u64 (Z.lxor z (Z.shiftr z 27) * 0x94d049bb133111eb) in
  (Z.lxor z (Z.shiftr z 31), x).

Definition seeded (seed : Z) : xoshiro256ss :=
  let '(a, seed) := splitmix64 seed in
  let '(b, seed) := splitmix64 seed in
  let '(c, seed) := splitmix64 seed in
  let '(d, seed) := splitmix64 seed in
  mkRng a b c d.

Definition rotl (x k : Z) : Z := Z.lor (u64 (Z.shiftl x k)) (Z.shiftr x (64 - k)).

Definition next (r : xoshiro256ss) : xoshiro256ss * Z :=
  let result := u64 (rotl (u64 (s1 r * 5)) 7 * 9) in
  let t := u64 (Z.shiftl (s1 r) 17) in
  let r2 := Z.lxor (s2 r) (s0 r) in
  let r3 := Z.lxor (s3 r) (s1 r) in
  let r1 := Z.lxor (s1 r) r2 in
  let r0 := Z.lxor (s0 r) r3 in
  let r2 := Z.lxor r2 t in
  let r3 := rotl r3 45 in
  (mkRng r0 r1 r2 r3, result).

(** ** Bounded draws *)

(** [hi - lo + 1] in [unsigned long long]; 0 stands for all of them. *)
Definition draw_range (lo hi : Z) : Z := u64 (u64 (u64 hi - u64 lo) + 1).

Definition draw_limit (range : Z) : Z := (2 ^ 64 - 1) - (2 ^ 64 - 1) mod range.

(** [lo + static_cast<T>(k)], for [T] of 32 bits: the sum of two [int] may overflow. *)
Definition offset_by (is_signed : bool) (lo k : Z) : res Z :=
  if is_signed then let z := lo + i32 k in if (- 2 ^ 31 <=? z) && (z <? 2 ^ 31) then Ok z else Undef
  else Ok (u32 (lo + u32 k)).

Fixpoint draw_loop (turns : nat) (rng : xoshiro256ss) (limit : Z) : option (xoshiro256ss * Z) :=
  match turns with
  | O => None
  | S turns => let '(rng, x) := next rng in if x >=? limit then draw_loop turns rng limit else Some (rng, x)
  end.

Definition BoundedDraw (turns : nat) (is_signed : bool) (rng : xoshiro256ss) (lo hi : Z) : option (res (xoshiro256ss * Z)) :=
  let range := draw_range lo hi in
  if range =? 0 then let '(rng, x) := next rng in Some (Ok (rng, if is_signed then i32 x else u32 x))
  else
    '(rng, x) ← draw_loop turns rng (draw_limit range);
    Some (z ← offset_by is_signed lo (x mod range); Ok (rng, z)).

Definition XORandomIntegral (turns : nat) (is_signed : bool) (seed start end_ : Z) : option (res (xoshiro256ss * Z)) := BoundedDraw turns is_signed (seeded seed) start end_.
Definition RandomInt (turns : nat) (seed start end_ : Z) := XORandomIntegral turns true seed start end_.
Definition RandomUint (turns : nat) (seed start end_ : Z) := XORandomIntegral turns false seed start end_.

Example seeded_zero : (next (seeded 0)).2 = 0x99ec5f36cb75f2b4.
Proof. vm_compute. reflexivity. Qed.

(** ** Every value is equally likely *)

#[local] Arguments next : simpl never.

Lemma draw_range_small lo hi : - 2 ^ 31 <= lo <= hi -> hi < 2 ^ 32 -> hi - lo < 2 ^ 32 -> draw_range lo hi = hi - lo + 1.
Proof.
  intros H1 H2 H3. unfold draw_range, wrap. rewrite Zminus_mod_idemp_l, Zminus_mod_idemp_r, (Z.mod_small (hi - lo)) by lia. apply Z.mod_small. lia.
Qed.

Lemma draw_limit_spec n : 0 < n <= 2 ^ 32 -> draw_limit n = n * ((2 ^ 64 - 1) / n) /\ 2 ^ 64 - 2 ^ 32 <= draw_limit n.
Proof.
  intros Hn. unfold draw_limit. pose proof (Z.div_mod (2 ^ 64 - 1) n ltac:(lia)). pose proof (Z.mod_pos_bound (2 ^ 64 - 1) n ltac:(lia)). lia.
Qed.

(** The types: for [int] the values must be fewer than half of all, else the sum overflows. *)
Definition drawable (is_signed : bool) (lo hi : Z) : Prop :=
  lo <= hi /\ if is_signed then - 2 ^ 31 <= lo /\ hi < 2 ^ 31 /\ hi - lo < 2 ^ 31 else 0 <= lo /\ hi < 2 ^ 32.

Lemma drawable_range is_signed lo hi : drawable is_signed lo hi -> draw_range lo hi = hi - lo + 1 /\ 0 < hi - lo + 1 <= 2 ^ 32.
Proof. intros [H1 H2]. destruct is_signed; (split; [apply draw_range_small; lia|lia]). Qed.

Lemma offset_ok is_signed lo hi k : drawable is_signed lo hi -> 0 <= k <= hi - lo -> offset_by is_signed lo k = Ok (lo + k).
Proof.
  intros [H1 H2] Hk. unfold offset_by. destruct is_signed.
  - rewrite swrap_small by lia. rewrite (proj2 (Z.leb_le _ _)), (proj2 (Z.ltb_lt _ _)) by lia. done.
  - rewrite (wrap_small 32 k) by (unfold fits; lia). by rewrite wrap_small by (unfold fits; lia).
Qed.

Lemma next_range r : 0 <= (next r).2 < 2 ^ 64.
Proof. unfold next. cbn [snd]. by apply wrap_range. Qed.

Lemma draw_loop_some turns rng limit rng' x : draw_loop turns rng limit = Some (rng', x) -> 0 <= x < limit.
Proof.
  revert rng. induction turns as [|turns IH]; intros rng; cbn; [done|]. pose proof (next_range rng) as Hx. destruct (next rng) as [r y]. cbn in Hx.
  rewrite Z.geb_leb. destruct (Z.leb_spec limit y); [apply IH|]. intros [= <- <-]. lia.
Qed.

(** The state after [k] draws. *)
Definition advanced (k : nat) (rng : xoshiro256ss) : xoshiro256ss := Nat.iter k (fun r => (next r).1) rng.

Lemma draw_loop_ends turns rng limit k : (k < turns)%nat -> (next (advanced k rng)).2 < limit -> is_Some (draw_loop turns rng limit).
Proof.
  revert rng k. induction turns as [|turns IH]; intros rng k Hk Hx; [lia|]. cbn. destruct (next rng) as [r y] eqn:E. rewrite Z.geb_leb. destruct (Z.leb_spec limit y); [|eauto].
  destruct k as [|k]; [unfold advanced in Hx; cbn in Hx; rewrite E in Hx; cbn in Hx; lia|]. apply (IH r k); [lia|].
  assert (Ea : advanced (S k) rng = advanced k r). { unfold advanced. rewrite Nat.iter_succ_r. by rewrite E. } by rewrite <- Ea.
Qed.



(** The default interval of [RandomInt] holds all values: half of the draws overflow. *)
Example RandomInt_overflows : offset_by true (- 2 ^ 31) (2 ^ 31) = Undef /\ RandomInt 1 0 (- 2 ^ 31) (2 ^ 31 - 1) = Some Undef.
Proof. split; vm_compute; reflexivity. Qed.

(** ** The generator does not get stuck *)

Definition alive (r : xoshiro256ss) : Prop := fits 64 (s0 r) /\ fits 64 (s1 r) /\ fits 64 (s2 r) /\ fits 64 (s3 r) /\ ~ (s0 r = 0 /\ s1 r = 0 /\ s2 r = 0 /\ s3 r = 0).

Lemma splitmix64_Mix x : splitmix64 x = (Mix64 x, u64 (x + 0x9e3779b97f4a7c15)).
Proof. reflexivity. Qed.

Lemma Mix64_fits x : fits 64 (Mix64 x).
Proof. unfold Mix64. apply lxor_fits; [done|by apply wrap_range|]. apply shiftr_fits; [done|done|by apply wrap_range]. Qed.

(** Two of its words come from different counters. *)
Lemma seeded_alive seed : fits 64 seed -> alive (seeded seed).
Proof.
  intros Hs. unfold seeded. rewrite !splitmix64_Mix. unfold alive. cbn [s0 s1 s2 s3]. do 4 (split; [apply Mix64_fits|]). intros (E0 & E1 & _ & _).
  set (seed1 := u64 (seed + 0x9e3779b97f4a7c15)) in *. assert (H1 : fits 64 seed1) by by apply wrap_range.
  assert (E : seed = seed1). { apply Hash_injective; [done|done|]. unfold Hash. rewrite !wrap_small by done. congruence. }
  unfold seed1, wrap in E. pose proof (Z.div_mod (seed + 0x9e3779b97f4a7c15) (2 ^ 64) ltac:(lia)) as Ed. rewrite <- E in Ed. unfold fits in Hs.
  assert (0x9e3779b97f4a7c15 = 2 ^ 64 * ((seed + 0x9e3779b97f4a7c15) / 2 ^ 64)) by lia. lia.
Qed.

Lemma rotl_zero x : fits 64 x -> rotl x 45 = 0 -> x = 0.
Proof.
  intros Hx E. unfold rotl in E. apply Z.lor_eq_0_iff in E as [E1 E2]. rewrite Z.shiftr_div_pow2 in E2 by lia. rewrite Z.shiftl_mul_pow2 in E1 by lia. unfold wrap, fits in *.
  change (64 - 45) with 19 in E2. assert (x < 2 ^ 19) by (apply Z.div_small_iff in E2; lia). rewrite Z.mod_small in E1 by lia. lia.
Qed.

Lemma shift_own x : fits 64 x -> x = u64 (Z.shiftl x 17) -> x = 0.
Proof.
  intros Hx E. rewrite Z.shiftl_mul_pow2 in E by lia. assert (Em : wrap 64 (x * (2 ^ 17 - 1)) = wrap 64 (0 * (2 ^ 17 - 1))).
  { unfold wrap in *. replace (x * (2 ^ 17 - 1)) with (x * 2 ^ 17 - x) by lia. rewrite Zminus_mod, <- E. rewrite (Z.mod_small x) by exact Hx. by rewrite Z.sub_diag. }
  eapply wrap_mul_inj; [| |exact Hx| |exact Em]; [lia|reflexivity|unfold fits; lia].
Qed.

Lemma next_alive r : alive r -> alive (next r).1.
Proof.
  intros (H0 & H1 & H2 & H3 & Hn). unfold next. cbn [fst]. unfold alive. cbn [s0 s1 s2 s3]. set (a := s0 r) in *. set (b := s1 r) in *. set (c := s2 r) in *. set (d := s3 r) in *.
  assert (Hx : forall x y, fits 64 x -> fits 64 y -> fits 64 (Z.lxor x y)) by (intros; by apply lxor_fits). assert (Ht : fits 64 (u64 (Z.shiftl b 17))) by by apply wrap_range.
  assert (Hrot : fits 64 (rotl (Z.lxor d b) 45)) by (unfold rotl; apply lor_fits; [done|by apply wrap_range|apply shiftr_fits; [done|done|by apply Hx]]).
  do 4 (split; [repeat first [apply Hx|assumption]|]). intros (E0 & E1 & E2 & E3). apply rotl_zero in E3; [|by apply Hx].
  rewrite E3, Z.lxor_0_r in E0. apply Z.lxor_eq in E1. apply Z.lxor_eq in E2. rewrite E0, Z.lxor_0_r in *.
  assert (Eb : b = 0) by (apply shift_own; congruence). apply Z.lxor_eq in E3. apply Hn. unfold b in *. split; [done|]. split; [done|]. split; congruence.
Qed.

(** Whatever the seed, the state is never all zero, from which the generator would return nothing else. *)
Theorem xoshiro256ss_never_stuck seed n : fits 64 seed -> alive (advanced n (seeded seed)).
Proof. intros Hs. unfold advanced. induction n as [|n IH]; [by apply seeded_alive|]. cbn. by apply next_alive. Qed.

Lemma xoshiro256ss_never_stuck_witness : alive (advanced 3 (seeded 0)).
Proof. apply (xoshiro256ss_never_stuck 0 3). unfold fits. lia. Defined.
