(* ===== verification/SmallString.v ===== *)
(** * base::BasicSmallString<char, N> (strings/small_string.h): the code

    The characters of a small string are in the object, in a block [this] of [N + 1] bytes; those
    of a large one in a buffer of the allocator.  The union with its flag is [Rep]: the fields in
    use besides the inline characters, which the fields of a large string overwrite.  The size
    type has 32 bits, a character is one byte. *)

From stdpp Require Import gmap.
From S2P Require Import Prelude Memory CMemory BaseString BaseStringSearch.

Set Default Proof Using "Type".
#[local] Open Scope Z_scope.

Inductive Rep := SmallRep (size : Z) | LargeRep (data : nat) (size capacity : Z).

Definition npos : Z := 2 ^ 32 - 1.
Definition kMaxCapacity : Z := 2 ^ 32 - 2.
Definition max_size : Z := kMaxCapacity.

Section SmallString.

Context (allocates : Z -> bool) (N : Z).

Definition kInlineCapacity : Z := N.

(** ** The helpers *)

Definition is_large_ (r : Rep) : bool := match r with SmallRep _ => false | LargeRep _ _ _ => true end.
Definition data_of_ (this : nat) (r : Rep) : ptr := match r with SmallRep _ => (this, 0%nat) | LargeRep d _ _ => (d, 0%nat) end.
Definition get_size (r : Rep) : Z := match r with SmallRep n => n | LargeRep _ n _ => n end.
Definition get_capacity (r : Rep) : Z := match r with SmallRep _ => kInlineCapacity | LargeRep _ _ c => c end.
Definition set_size (r : Rep) (new_size : Z) : Rep := match r with SmallRep _ => SmallRep new_size | LargeRep d _ c => LargeRep d new_size c end.

Definition terminate (this : nat) (r : Rep) : Prog () := store_byte (advance_ptr (data_of_ this r) (get_size r)) 0.

Definition buffer_byte_size (capacity : Z) : Z := u64 (u64 (capacity + 1) * 1).

Definition allocate_buffer (capacity : Z) : Prog nat :=
  _ ← lift (fatal_check (capacity <=? kMaxCapacity));
  data ← Allocate allocates (buffer_byte_size capacity);
  lift (match data with Some data => Ok data | None => Fatal end).

Definition checked_length_sum (a b : Z) : Prog Z := _ ← lift (fatal_check (a <=? (2 ^ 32 - 1) - b)); mret (u32 (a + b)).

Definition init_empty (this : nat) : Prog Rep := _ ← store_byte (this, 0%nat) 0; mret (SmallRep 0).

Definition deallocate_large_if_needed (r : Rep) : Prog () := match r with LargeRep d _ c => Free d (buffer_byte_size c) | SmallRep _ => mret () end.

(** The assignments to [large_], which lie over the inline characters. *)
Definition become_large (this data : nat) (size capacity : Z) : Prog Rep :=
  _ ← store_bytes (this, 0%nat) (replicate (Z.to_nat (N + 1)) Uninit); mret (LargeRep data size capacity).

Definition new_capacity_for (required : Z) : Z :=
  let headroom := kMaxCapacity - required in
  let extra := required / 2 in
  u32 (required + (if extra <? headroom then extra else headroom)).

Definition grow_to (this : nat) (r : Rep) (required : Z) : Prog Rep :=
  if required <=? get_capacity r then mret r
  else
    _ ← lift (fatal_check (required <=? kMaxCapacity));
    let new_capacity := new_capacity_for required in
    new_data ← allocate_buffer new_capacity;
    let cur_size := get_size r in
    _ ← (if 0 <? cur_size then MemCopy (new_data, 0%nat) (data_of_ this r) (Z.to_nat cur_size) else mret ());
    _ ← store_byte (new_data, Z.to_nat cur_size) 0;
    _ ← deallocate_large_if_needed r;
    become_large this new_data cur_size new_capacity.

(** [if (n > get_capacity()) grow_to(n);] *)
Definition grow_if (this : nat) (r : Rep) (n : Z) : Prog Rep := if get_capacity r <? n then grow_to this r n else mret r.

(** [set_size(n); terminate();] *)
Definition finish (this : nat) (r : Rep) (n : Z) : Prog Rep := let r := set_size r n in _ ← terminate this r; mret r.

(** ** Contents *)

Definition clear (this : nat) (r : Rep) : Prog Rep := let r := set_size r 0 in _ ← store_byte (data_of_ this r) 0; mret r.

Definition assign (this : nat) (r : Rep) (str : option ptr) (len : Z) : Prog Rep :=
  match str with
  | None => clear this r
  | Some str =>
    if len =? 0 then clear this r
    else
      r ← grow_if this r len;
      _ ← MemCopy (data_of_ this r) str (Z.to_nat len);
      finish this r len
  end.

(** The cast cuts the length to 32 bits. *)
Definition assign_cstr (this : nat) (r : Rep) (str : ptr) : Prog Rep := n ← CountStringLength str kNoLimit; assign this r (Some str) (u32 n).

Definition reserve (this : nat) (r : Rep) (new_capacity : Z) : Prog Rep := grow_if this r new_capacity.

Definition resize (this : nat) (r : Rep) (new_size : Z) : Prog Rep :=
  let old_size := get_size r in
  r ← (if old_size <? new_size then
         r ← reserve this r new_size; _ ← MemSet (advance_ptr (data_of_ this r) old_size) 0 (Z.to_nat (new_size - old_size)); mret r
       else mret r);
  finish this r new_size.

Definition shrink_to_fit (this : nat) (r : Rep) : Prog Rep :=
  match r with
  | SmallRep _ => mret r
  | LargeRep data cur capacity =>
    if cur <=? kInlineCapacity then
      _ ← MemCopy (this, 0%nat) (data, 0%nat) (Z.to_nat cur);
      _ ← store_byte (this, Z.to_nat cur) 0;
      _ ← Free data (buffer_byte_size capacity);
      mret (SmallRep cur)
    else if cur <? capacity then
      new_data ← allocate_buffer cur;
      _ ← MemCopy (new_data, 0%nat) (data, 0%nat) (Z.to_nat cur);
      _ ← store_byte (new_data, Z.to_nat cur) 0;
      _ ← Free data (buffer_byte_size capacity);
      mret (LargeRep new_data cur cur)
    else mret r
  end.

(** ** Modification *)

Definition append (this : nat) (r : Rep) (str : ptr) (count : Z) : Prog Rep :=
  if count =? 0 then mret r
  else
    let old_size := get_size r in
    new_size ← checked_length_sum old_size count;
    r ← grow_if this r new_size;
    _ ← MemCopy (advance_ptr (data_of_ this r) old_size) str (Z.to_nat count);
    finish this r new_size.

Definition append_cstr (this : nat) (r : Rep) (str : ptr) : Prog Rep :=
  length ← CountStringLength str kNoLimit; _ ← lift (fatal_check (length <=? kMaxCapacity)); append this r str (u32 length).

Definition push_back (this : nat) (r : Rep) (c : Z) : Prog Rep :=
  let old_size := get_size r in
  new_size ← checked_length_sum old_size 1;
  r ← grow_if this r new_size;
  _ ← store_byte (advance_ptr (data_of_ this r) old_size) c;
  finish this r new_size.

Definition insert (this : nat) (r : Rep) (pos count c : Z) : Prog Rep :=
  _ ← bug_check (pos <=? get_size r);
  if count =? 0 then mret r
  else
    let old_size := get_size r in
    new_size ← checked_length_sum old_size count;
    r ← grow_if this r new_size;
    let d := data_of_ this r in
    _ ← MemMove (advance_ptr d (pos + count)) (advance_ptr d pos) (Z.to_nat (old_size - pos));
    _ ← fill_chars (Z.to_nat count) (advance_ptr d pos) c;
    finish this r new_size.

Definition erase (this : nat) (r : Rep) (pos count : Z) : Prog Rep :=
  let cur := get_size r in
  _ ← bug_check (pos <=? cur);
  let count := Z.min count (cur - pos) in
  if count =? 0 then mret r
  else
    let d := data_of_ this r in
    _ ← MemMove (advance_ptr d pos) (advance_ptr d (pos + count)) (Z.to_nat (cur - pos - count));
    finish this r (cur - count).

Definition remove_suffix (this : nat) (r : Rep) (n : Z) : Prog Rep :=
  let cur := get_size r in _ ← bug_check (n <=? cur); finish this r (cur - n).

Definition set_at (this : nat) (r : Rep) (i c : Z) : Prog Rep :=
  _ ← bug_check (i <? get_size r); _ ← store_byte (advance_ptr (data_of_ this r) i) c; mret r.

(** ** Constructors and assignments; the storage of the object is there *)

Definition construct_cstr (this : nat) (str : option ptr) : Prog Rep := r ← init_empty this; match str with Some str => assign_cstr this r str | None => mret r end.
Definition construct_chars (this : nat) (str : option ptr) (len : Z) : Prog Rep := r ← init_empty this; assign this r str len.

Definition construct_fill (this : nat) (count c : Z) : Prog Rep :=
  r ← init_empty this;
  if 0 <? count then
    r ← grow_to this r count;
    _ ← fill_chars (Z.to_nat count) (data_of_ this r) c;
    finish this r count
  else mret r.

Definition construct_array (this : nat) (arr : ptr) (array_size : Z) : Prog Rep :=
  r ← init_empty this; n ← CountStringLength arr (if 0 <? array_size then array_size - 1 else 0); assign this r (Some arr) (u32 n).

(** A string is named by its block and its fields. *)
Definition copy_construct (this : nat) (other : nat) (ro : Rep) : Prog Rep := construct_chars this (Some (data_of_ other ro)) (get_size ro).

(** The constructor from a string of another type, with [size] characters at [str]. *)
Definition construct_string (this : nat) (str : ptr) (size : Z) : Prog Rep := construct_chars this (Some str) (u32 size).

(** The results are the new string and what is left of [other]. *)
Definition move_construct (this other : nat) (ro : Rep) : Prog (Rep * Rep) :=
  match ro with
  | LargeRep d n c => r ← become_large this d n c; ro ← init_empty other; mret (r, ro)
  | SmallRep n => _ ← MemCopy (this, 0%nat) (other, 0%nat) (Z.to_nat (n + 1)); ro ← init_empty other; mret (SmallRep n, ro)
  end.

Definition move_assign (this : nat) (r : Rep) (other : nat) (ro : Rep) : Prog (Rep * Rep) :=
  if (this =? other)%nat then mret (r, ro) else _ ← deallocate_large_if_needed r; move_construct this other ro.

Definition copy_assign (this : nat) (r : Rep) (other : nat) (ro : Rep) : Prog Rep :=
  if (this =? other)%nat then mret r else assign this r (Some (data_of_ other ro)) (get_size ro).

Definition destruct_string (r : Rep) : Prog () := deallocate_large_if_needed r.

(** [result] is the storage of the new string. *)
Definition substr (result this : nat) (r : Rep) (pos count : Z) : Prog Rep :=
  let cur := get_size r in
  _ ← bug_check (pos <=? cur);
  construct_chars result (Some (advance_ptr (data_of_ this r) pos)) (Z.min count (cur - pos)).

(** ** Reading *)

Definition at_ (this : nat) (r : Rep) (i : Z) : Prog Z := _ ← bug_check (i <? get_size r); load_byte (advance_ptr (data_of_ this r) i).
Definition back (this : nat) (r : Rep) : Prog Z := _ ← bug_check (negb (get_size r =? 0)); load_byte (advance_ptr (data_of_ this r) (get_size r - 1)).
Definition empty (r : Rep) : bool := get_size r =? 0.
Definition is_inline (r : Rep) : bool := negb (is_large_ r).

Definition compare_chars (this : nat) (r : Rep) (str : ptr) (count : Z) : Prog Z :=
  let left_size := get_size r in
  let min_size := Z.min left_size count in
  result ← MemCompare (data_of_ this r) str (Z.to_nat min_size);
  mret (if negb (result =? 0) then result else if left_size <? count then -1 else if count <? left_size then 1 else 0).

Definition compare (this : nat) (r : Rep) (other : nat) (ro : Rep) : Prog Z := compare_chars this r (data_of_ other ro) (get_size ro).
Definition compare_cstr (this : nat) (r : Rep) (str : ptr) : Prog Z := n ← CountStringLength str kNoLimit; compare_chars this r str (u32 n).

Definition equal (this : nat) (r : Rep) (other : nat) (ro : Rep) : Prog bool :=
  if negb (get_size r =? get_size ro) then mret false
  else c ← MemCompare (data_of_ this r) (data_of_ other ro) (Z.to_nat (get_size r)); mret (c =? 0).

Definition equal_cstr (this : nat) (r : Rep) (rhs : option ptr) : Prog bool :=
  match rhs with
  | None => mret (empty r)
  | Some rhs =>
    rhs_len ← CountStringLength rhs kNoLimit;
    if negb (rhs_len =? get_size r) then mret false else c ← MemCompare (data_of_ this r) rhs (Z.to_nat (get_size r)); mret (c =? 0)
  end.

Definition less (this : nat) (r : Rep) (other : nat) (ro : Rep) : Prog bool := c ← compare this r other ro; mret (c <? 0).
Definition less_equal (this : nat) (r : Rep) (other : nat) (ro : Rep) : Prog bool := c ← compare this r other ro; mret (c <=? 0).
Definition greater (this : nat) (r : Rep) (other : nat) (ro : Rep) : Prog bool := c ← compare this r other ro; mret (0 <? c).
Definition greater_equal (this : nat) (r : Rep) (other : nat) (ro : Rep) : Prog bool := c ← compare this r other ro; mret (0 <=? c).
Definition not_equal (this : nat) (r : Rep) (other : nat) (ro : Rep) : Prog bool := b ← equal this r other ro; mret (negb b).

(** [for (i = pos; i < cur; ++i)] *)
Fixpoint char_loop (n : nat) (d : ptr) (c i : Z) : Prog Z :=
  match n with O => mret npos | S n => x ← load_byte (advance_ptr d i); if x =? c then mret i else char_loop n d c (i + 1) end.

Definition find_char (this : nat) (r : Rep) (c pos : Z) : Prog Z :=
  let cur := get_size r in if cur <=? pos then mret npos else char_loop (Z.to_nat (cur - pos)) (data_of_ this r) c pos.

(** [for (i = pos; i <= last; ++i)] *)
Fixpoint occurrence_loop (n : nat) (d s : ptr) (s_len i : Z) : Prog Z :=
  match n with
  | O => mret npos
  | S n => c ← MemCompare (advance_ptr d i) s (Z.to_nat s_len); if c =? 0 then mret i else occurrence_loop n d s s_len (i + 1)
  end.

Definition find_cstr (this : nat) (r : Rep) (s : option ptr) (pos : Z) : Prog Z :=
  match s with
  | None => mret npos
  | Some s =>
    n ← CountStringLength s kNoLimit;
    let s_len := u32 n in
    let cur := get_size r in
    if s_len =? 0 then mret (if pos <=? cur then pos else npos)
    else if cur <? u32 (pos + s_len) then mret npos
    else occurrence_loop (Z.to_nat (u32 (cur - s_len) + 1 - pos)) (data_of_ this r) s s_len pos
  end.

Definition find_string (this : nat) (r : Rep) (other : nat) (ro : Rep) (pos : Z) : Prog Z := find_cstr this r (Some (data_of_ other ro)) pos.

(** [for (;; --i)] *)
Fixpoint down_loop (i : nat) (d : ptr) (c : Z) : Prog Z :=
  x ← load_byte (advance_ptr d (Z.of_nat i));
  if x =? c then mret (Z.of_nat i) else match i with O => mret npos | S i => down_loop i d c end.

Definition find_last_of (this : nat) (r : Rep) (c pos : Z) : Prog Z :=
  let cur := get_size r in
  if cur =? 0 then mret npos
  else down_loop (Z.to_nat (if (pos =? npos) || (cur <=? pos) then cur - 1 else pos)) (data_of_ this r) c.

End SmallString.
