(* ===== verification/SmallStringRep.v ===== *)
(** * base::BasicSmallString in memory (strings/small_string.h)

    When the inline block and the buffer of a string stand for a text ([text_at]), and what each
    modifier and constructor leaves: the text, the exact capacity, and nothing else touched.  The
    source of a copy may lie in the string itself as long as the string does not grow and the
    copied ranges do not overlap; the code asks for no more than that. *)

From stdpp Require Import gmap.
From S2P Require Import Prelude Memory Refine CMemory BaseString BaseStringRep BaseStringModify BaseStringConstruct BaseStringSearch SmallString.

Set Default Proof Using "Type".
#[local] Open Scope Z_scope.

(** The same names in both files mean the small string here. *)
Abbreviation kMaxCapacity := SmallString.kMaxCapacity.
Abbreviation npos := SmallString.npos.
Abbreviation get_size := SmallString.get_size.
Abbreviation set_size := SmallString.set_size.
Abbreviation clear := SmallString.clear.

Lemma small_max : kMaxCapacity = 2 ^ 32 - 2.
Proof. done. Qed.

Definition lay (r : Rep) : layout := match r with SmallRep _ => Small | LargeRep d _ c => Large d c end.

Section SmallString.

Context (allocates : Z -> bool) (N : Z) (HN : 0 < N <= kMaxCapacity).

(** ** The representation *)

Definition holds (m : memory) (this : nat) (r : Rep) (buf : list mbyte) : Prop :=
  (exists chars, blocks m !! this = Some (false, chars) /\ Z.of_nat (length chars) = N + 1 /\ (is_large_ r = false -> chars = buf)) /\
  match r with
  | SmallRep n => 0 <= n <= N
  | LargeRep d n c => d <> this /\ blocks m !! d = Some (true, buf) /\ Z.of_nat (length buf) = c + 1 /\ N < c <= kMaxCapacity /\ 0 <= n <= c
  end.

(** The string is the text [l]. *)
Definition text_at (m : memory) (this : nat) (r : Rep) (l : list Z) : Prop :=
  exists buf, holds m this r buf /\ get_size r = Z.of_nat (length l) /\ text_buffer l buf.

Abbreviation capacity := (get_capacity N).
Definition block_of (this : nat) (r : Rep) : nat := (data_of_ this r).1.

Lemma data_block this r : data_of_ this r = (block_of this r, 0%nat).
Proof using Type. by destruct r. Qed.

Lemma holds_block m this r buf : holds m this r buf -> exists d, blocks m !! block_of this r = Some (d, buf).
Proof using Type. intros [(c & E & _ & Ec) H]. destruct r; [exists false; rewrite <- (Ec eq_refl); exact E|exists true; apply H]. Qed.

Lemma holds_length m this r buf : holds m this r buf -> Z.of_nat (length buf) = capacity r + 1 /\ 0 <= get_size r <= capacity r /\ N <= capacity r <= kMaxCapacity.
Proof using HN. intros [(c & E & El & Ec) H]. destruct r; cbn in *; [rewrite <- (Ec eq_refl)|]; unfold kInlineCapacity; lia. Qed.

Lemma small_holds_apart m this r buf : holds m this r buf -> data_of (lay r) <> Some this.
Proof using Type. intros [_ H]. destruct r; [done|]. destruct H as [Hn _]. cbn. congruence. Qed.

Lemma holds_resize m this r buf k : holds m this r buf -> 0 <= k <= capacity r -> holds m this (set_size r k) buf.
Proof using Type.
  intros [H1 H2] Hk. destruct r as [n|d n c]; [by split|]. destruct H2 as (?&?&?&?&_). split; [done|]. cbn in *. split_and!; (done || lia).
Qed.

Lemma lay_resize r k : lay (set_size r k) = lay r.
Proof using Type. by destruct r. Qed.

Lemma cap_resize r k : capacity (set_size r k) = capacity r.
Proof using Type. by destruct r. Qed.

Lemma block_resize this r k : block_of this (set_size r k) = block_of this r.
Proof using Type. by destruct r. Qed.

(** A write to a block that is there. *)
Lemma frame_block_write m this l a x : is_Some (blocks m !! a) -> a = this \/ data_of l = Some a -> frame this l l m (with_block m a x).
Proof using Type.
  intros Hs Ha. split; auto.
  - intros b Hb Hd _. apply with_block_same. intros ->. by destruct Ha.
  - intros Hw b Hb. cbn. destruct (decide (b = a)) as [->|Hne]; [by apply Hw|apply Hw; by rewrite with_block_same in Hb].
Qed.

Lemma put_bytes m this r buf off xs : holds m this r buf -> (off + length xs <= length buf)%nat ->
  exists m', store_bytes (block_of this r, off) xs m = Ok (m', ()) /\ holds m' this r (splice buf off xs) /\ frame this (lay r) (lay r) m m'.
Proof using Type.
  intros H Hoff. destruct (holds_block _ _ _ _ H) as [d Ed]. rewrite (store_bytes_ok (block_of this r, off) xs m d buf Ed Hoff). cbn [fst snd].
  eexists. split; [done|]. split; [|apply frame_block_write; [eauto|destruct r; cbn; auto]].
  destruct H as [(c & E & El & Ec) H]. destruct r as [n|d' n c']; cbn [block_of data_of_ fst] in *; split.
  - rewrite E in Ed. injection Ed as <- Ed. eexists. split; [apply with_block_at|]. rewrite length_splice by done. split; [by rewrite <- Ed|done].
  - done.
  - exists c. split; [|by split]. rewrite with_block_same; [done|]. intros ->. by destruct H.
  - destruct H as (H1 & H2 & H3 & H4 & H5). rewrite H2 in Ed. injection Ed as <-. rewrite with_block_at, length_splice by done. done.
Qed.

(** [set_size(k); terminate();] *)
Lemma small_finish_ok m this r buf k : holds m this r buf -> 0 <= k <= capacity r ->
  exists m', finish this r k m = Ok (m', set_size r k) /\ holds m' this (set_size r k) (splice buf (Z.to_nat k) [Byte 0]) /\ frame this (lay r) (lay (set_size r k)) m m'.
Proof using HN.
  intros H Hk. pose proof (holds_resize _ _ _ _ _ H Hk) as H1. pose proof (holds_length _ _ _ _ H1) as [Hl _]. rewrite cap_resize in Hl.
  destruct (put_bytes m this (set_size r k) buf (Z.to_nat k) [Byte 0] H1) as (m' & E & H' & F); [cbn; lia|].
  exists m'. split; [|split; [done|by rewrite lay_resize in *]]. unfold finish, terminate, store_byte. rewrite data_block. unfold advance_ptr. cbn [fst snd]. rewrite Nat.add_0_l.
  replace (get_size (set_size r k)) with k by (by destruct r). by rewrite (prog_bind _ _ _ _ _ E).
Qed.

(** What a modifier leaves. *)
Definition becomes (this : nat) (r : Rep) (m : memory) (l' : list Z) (cap' : Z) (q : memory * Rep) : Prop :=
  text_at q.1 this q.2 l' /\ capacity q.2 = cap' /\ frame this (lay r) (lay q.2) m q.1.

Lemma text_apart m this r l : text_at m this r l -> data_of (lay r) <> Some this.
Proof using Type. intros (buf & H & _). by eapply small_holds_apart. Qed.

Lemma text_cap m this r l : text_at m this r l -> Z.of_nat (length l) <= capacity r /\ N <= capacity r <= kMaxCapacity.
Proof using HN. intros (buf & H & E & _). apply holds_length in H. lia. Qed.

Lemma becomes_keep m this r l : text_at m this r l -> becomes this r m l (capacity r) (m, r).
Proof using Type. intros H. split; [done|]. split; [done|apply frame_refl]. Qed.

Lemma small_finish_becomes R m m1 this r l' rest n buf : mem_wf m -> frame this (lay r) (lay r) m m1 -> holds m1 this r buf ->
  buf = (Byte <$> l') ++ rest -> n = Z.of_nat (length l') -> n <= capacity r -> wp R (finish this r n m1) (becomes this r m l' (capacity r)).
Proof using HN.
  intros Hw F H E -> Hn. destruct (small_finish_ok m1 this r buf (Z.of_nat (length l')) H) as (m2 & E2 & H2 & F2); [lia|].
  eapply prog_wp_done; [exact E2|]. cbn [fst snd]. pose proof (holds_length _ _ _ _ H) as [Hl _]. split; [|split; [apply cap_resize|eapply frame_trans; [done|by eapply small_holds_apart|exact F|exact F2]]].
  exists (splice buf (Z.to_nat (Z.of_nat (length l'))) [Byte 0]). split; [done|]. split; [by destruct r|]. rewrite Nat2Z.id. eapply BaseStringRep.terminate; [exact E|lia].
Qed.

(** A step that may replace the buffer, then a modifier. *)
Lemma wp_then R (p : Prog Rep) (k : Rep -> Prog Rep) m this r l c l' c' : mem_wf m -> data_of (lay r) <> Some this ->
  wp R (p m) (becomes this r m l c) ->
  (forall m1 r1, mem_wf m1 -> text_at m1 this r1 l -> capacity r1 = c -> frame this (lay r) (lay r1) m m1 -> wp R (k r1 m1) (becomes this r1 m1 l' c')) ->
  wp R ((p ≫= k) m) (becomes this r m l' c').
Proof using Type.
  intros Hw Ha Hp Hk. refine (prog_wp_bind R p k m _ (fun m1 r1 => becomes this r m l c (m1, r1)) _ _); [eapply wp_mono; [exact Hp|by intros [? ?]]|].
  intros m1 r1 (H1 & Hc & F1). cbn [fst snd] in *. eapply wp_mono; [apply (Hk m1 r1 (fr_wf _ _ _ _ _ F1 Hw) H1 Hc F1)|].
  intros [m2 r2] (H2 & Hc2 & F2). split; [done|]. split; [done|]. eapply frame_trans; [done|done|exact F1|exact F2].
Qed.

(** ** Fresh buffers *)

(** The allocator grants a buffer for so many characters. *)
Definition granted (cap : Z) : Prop := cap <= kMaxCapacity /\ allocates (cap + 1) = true.

Lemma buffer_bytes_exact cap : 0 <= cap <= kMaxCapacity -> SmallString.buffer_byte_size cap = cap + 1.
Proof using Type. unfold kMaxCapacity, SmallString.kMaxCapacity. intros H. unfold SmallString.buffer_byte_size. rewrite Z.mul_1_r. rewrite !(wrap_small 64) by (rewrite ?(wrap_small 64); unfold fits; lia). done. Qed.

Lemma allocate_small R cap m (P : memory * nat -> Prop) : 0 <= cap -> (R -> granted cap) ->
  (cap <= kMaxCapacity -> P (with_fresh m (replicate (Z.to_nat (cap + 1)) Uninit), next_block m)) ->
  wp R (SmallString.allocate_buffer allocates cap m) P.
Proof using Type.
  intros Hc HR HP. unfold SmallString.allocate_buffer, mbind, Prog_bind, lift, fatal_check. destruct (Z.leb_spec cap kMaxCapacity) as [Hle|Hgt]; cbn.
  - rewrite buffer_bytes_exact by done. unfold Allocate. destruct (allocates (cap + 1)) eqn:E; cbn; [by apply HP|]. intros r. destruct (HR r). congruence.
  - intros r. destruct (HR r). lia.
Qed.

Lemma new_capacity_range n : 0 <= n <= kMaxCapacity -> n <= new_capacity_for n <= kMaxCapacity.
Proof using Type.
  unfold kMaxCapacity, SmallString.kMaxCapacity, new_capacity_for. intros Hn. change SmallString.kMaxCapacity with (2 ^ 32 - 2). pose proof (Z.div_pos n 2). cbv zeta.
  destruct (Z.ltb_spec (n / 2) (2 ^ 32 - 2 - n)); rewrite wrap_small by (unfold fits; lia); lia.
Qed.

Lemma small_release_ok m0 this r buf buf' : mem_wf m0 -> holds m0 this r buf ->
  exists m1, deallocate_large_if_needed r (with_fresh m0 buf') = Ok (m1, ()) /\ next_block m1 = S (next_block m0) /\
    forall b, blocks m1 !! b = if decide (data_of (lay r) = Some b) then None else if decide (b = next_block m0) then Some (true, buf') else blocks m0 !! b.
Proof using HN.
  intros Hw H. pose proof (holds_length _ _ _ _ H) as (Hl & _ & Hc). destruct H as [_ H]. destruct r as [n|d n c]; cbn [lay data_of deallocate_large_if_needed].
  - eexists. split; [done|]. split; [done|]. intros b. rewrite decide_False by done. by apply fresh_lookup.
  - destruct H as (H1 & H2 & H3 & H4 & H5). cbn in Hc. rewrite buffer_bytes_exact by lia. rewrite (free_ok d (c + 1) _ buf).
    + eexists. split; [done|]. split; [done|]. intros b. cbn. destruct (decide (Some d = Some b)) as [[= ->]|Hne]; [apply lookup_delete_eq|].
      rewrite lookup_delete_ne by congruence. by apply fresh_lookup.
    + rewrite fresh_lookup by done. rewrite decide_False; [done|]. specialize (Hw d ltac:(eauto)). lia.
    + done.
Qed.

(** Another buffer in the place of the released one; the inline block may be written. *)
Lemma replace_large m0 m1 m2 this r buf buf' k cap c : mem_wf m0 -> holds m0 this r buf ->
  next_block m1 = S (next_block m0) ->
  (forall b, blocks m1 !! b = if decide (data_of (lay r) = Some b) then None else if decide (b = next_block m0) then Some (true, buf') else blocks m0 !! b) ->
  blocks m2 !! this = Some (false, c) -> Z.of_nat (length c) = N + 1 -> (forall b, b <> this -> blocks m2 !! b = blocks m1 !! b) -> next_block m2 = next_block m1 ->
  Z.of_nat (length buf') = cap + 1 -> N < cap <= kMaxCapacity -> 0 <= k <= cap ->
  holds m2 this (LargeRep (next_block m0) k cap) buf' /\ frame this (lay r) (Large (next_block m0) cap) m0 m2.
Proof using HN.
  intros Hw H En Hm1 Ec Elc Hm2 En2 Hlen Hcap Hk. pose proof (small_holds_apart _ _ _ _ H) as Hap. destruct H as [(c0 & E & El & _) H].
  assert (Hthis : (this < next_block m0)%nat) by (apply Hw; eauto). assert (Hne : next_block m0 <> this) by lia.
  assert (Hdl : data_of (lay r) <> Some (next_block m0)).
  { destruct r as [|d n c']; [done|]. destruct H as (_ & H2 & _). cbn. intros [= ->]. specialize (Hw _ ltac:(eauto)). lia. }
  split; [split; [by exists c|]|split].
  - split; [done|]. split; [|done]. rewrite Hm2 by done. rewrite Hm1, decide_False by done. by rewrite decide_True.
  - intros b Hb H1 H2. rewrite Hm2 by done. rewrite Hm1, decide_False by done. rewrite decide_False; [done|]. intros ->. by apply H2.
  - intros b Hb. right. rewrite Hm2 by (intros ->; done). by rewrite Hm1, decide_True.
  - intros b [= <-]. by right.
  - lia.
  - intros _ b. rewrite En2, En. destruct (decide (b = this)) as [->|Hb]; [lia|]. rewrite Hm2, Hm1 by done.
    destruct (decide (data_of (lay r) = Some b)); [by intros [? ?]|]. destruct (decide (b = next_block m0)) as [->|]; [lia|]. intros Hs. specialize (Hw b Hs). lia.
Qed.

(** The fields of the union over the released string. *)
Lemma install_large m0 this r buf buf' k cap : mem_wf m0 -> holds m0 this r buf -> Z.of_nat (length buf') = cap + 1 -> N < cap <= kMaxCapacity -> 0 <= k <= cap ->
  exists m', (_ ← deallocate_large_if_needed r; become_large N this (next_block m0) k cap) (with_fresh m0 buf') = Ok (m', LargeRep (next_block m0) k cap) /\
    holds m' this (LargeRep (next_block m0) k cap) buf' /\ frame this (lay r) (Large (next_block m0) cap) m0 m'.
Proof using HN.
  intros Hw H Hlen Hcap Hk. destruct (small_release_ok m0 this r buf buf' Hw H) as (m1 & E1 & En & Hm1). rewrite (prog_bind _ _ _ _ _ E1).
  pose proof (small_holds_apart _ _ _ _ H) as Hap. pose proof H as [(c & E & El & _) _]. assert (Hthis : (this < next_block m0)%nat) by (apply Hw; eauto).
  assert (Et : blocks m1 !! this = Some (false, c)) by (rewrite Hm1, decide_False by done; by rewrite decide_False by lia).
  assert (Hc : (0 + length (replicate (Z.to_nat (N + 1)) Uninit) <= length c)%nat) by (rewrite length_replicate; lia).
  unfold become_large. rewrite (prog_bind _ _ m1 _ () (store_bytes_ok (this, 0%nat) _ m1 false c Et Hc)). cbn [fst snd].
  eexists. split; [done|]. apply (replace_large m0 m1 _ this r buf buf' k cap (splice c 0 (replicate (Z.to_nat (N + 1)) Uninit))); try done; [apply with_block_at|by rewrite length_splice|]. intros b Hb. by apply with_block_same.
Qed.

(** ** Growing *)

Definition grown (cap n : Z) : Z := if cap <? n then new_capacity_for n else cap.

(** The allocator grants the growth to [n] characters, where there is one. *)
Definition grants_growth (cap n : Z) : Prop := cap < n -> n <= kMaxCapacity /\ allocates (new_capacity_for n + 1) = true.

Lemma small_grown_range cap n : 0 <= n <= kMaxCapacity -> n <= grown cap n.
Proof using Type. intros Hn. unfold grown. destruct (Z.ltb_spec cap n); [|done]. by apply new_capacity_range. Qed.

(** A granted growth stays below the ceiling. *)
Lemma granted_bound cap n (R : Prop) : cap <= kMaxCapacity -> (R -> grants_growth cap n) -> R -> n <= kMaxCapacity.
Proof using Type. intros Hc HR r. destruct (Z.lt_ge_cases cap n) as [H|]; [apply (HR r H)|lia]. Qed.

(** The text in a buffer that is not the string's yet, and its terminator. *)
Lemma fresh_text (l : list Z) c : (length l < c)%nat ->
  let buf := splice (splice (replicate c Uninit) 0 (Byte <$> l)) (length l) [Byte 0] in text_buffer l buf /\ length buf = c.
Proof using Type.
  intros Hc. cbv zeta. destruct (text_splice [] (replicate c Uninit) 0 l ltac:(done)) as (rest & Er).
  split; [eapply BaseStringRep.terminate; [exact Er|lengths]|lengths].
Qed.

Lemma text_readable m this r l : text_at m this r l -> readable m (data_of_ this r) (l ++ [0]).
Proof using Type.
  intros (buf & H & _ & junk & ->). destruct (holds_block _ _ _ _ H) as [d Ed]. rewrite data_block. right. eexists d, _. split; [exact Ed|]. cbn [fst snd].
  rewrite drop_0. replace ((Byte <$> l) ++ Byte 0 :: junk) with ((Byte <$> l ++ [0]) ++ junk) by (by rewrite fmap_app, <- app_assoc).
  split; [rewrite fmap_app; lengths|]. replace (length (l ++ [0])) with (length (Byte <$> l ++ [0])) by apply length_fmap. by rewrite take_app_length.
Qed.

(** Characters of the string from a position on. *)
Lemma text_part m this r l off n : text_at m this r l -> (off + n <= length l)%nat -> readable m (block_of this r, off) (take n (drop off l)).
Proof using Type.
  intros H Hl. pose proof (readable_drop m _ _ off (text_readable _ _ _ _ H)) as Hr. rewrite data_block in Hr. cbn [fst snd Nat.add] in Hr.
  apply (readable_prefix _ _ _ n) in Hr. by rewrite drop_app_le, take_app_le in Hr by (rewrite ?length_drop; lia).
Qed.

Lemma text_whole m this r l : text_at m this r l -> readable m (data_of_ this r) l.
Proof using Type. intros H. pose proof (text_part m this r l 0 (length l) H ltac:(lia)) as Hr. by rewrite drop_0, firstn_all, <- data_block in Hr. Qed.

(** What growing leaves. *)
Definition room (this : nat) (r : Rep) (m : memory) (l : list Z) (n : Z) (q : memory * Rep) : Prop :=
  becomes this r m l (grown (capacity r) n) q /\ n <= capacity q.2 /\ (capacity r < n \/ q = (m, r)).

Lemma room_keep m this r l n : text_at m this r l -> n <= capacity r -> room this r m l n (m, r).
Proof using Type. intros H Hn. unfold room, grown. rewrite (proj2 (Z.ltb_ge _ _)) by done. split; [by apply becomes_keep|]. by split; [|right]. Qed.

Lemma small_grow_ok R m this r l n : mem_wf m -> text_at m this r l -> 0 <= n -> (R -> grants_growth (capacity r) n) ->
  wp R (grow_to allocates N this r n m) (room this r m l n).
Proof using HN.
  intros Hw H Hn HR. unfold grow_to, grants_growth in *. rewrite Z.leb_antisym. destruct (Z.ltb_spec (capacity r) n) as [Hlt|]; cbn [negb]; [|by apply room_keep].
  unfold lift, fatal_check. destruct (Z.leb_spec n kMaxCapacity) as [Hmax|Hgt]; [|cbn; intros x; destruct (HR x Hlt); lia]. eapply wp_step; [done|]. cbv zeta.
  pose proof (new_capacity_range n ltac:(lia)) as Hnew. pose proof (text_cap _ _ _ _ H) as [Hl Hc]. set (cap := new_capacity_for n) in *.
  refine (prog_wp_bind _ _ _ _ _ (fun m1 d => m1 = with_fresh m (replicate (Z.to_nat (cap + 1)) Uninit) /\ d = next_block m) _ _).
  { apply allocate_small; [lia| |done]. intros x. split; [lia|]. by apply HR. }
  intros m1 d [-> ->]. pose proof H as (buf & Hb & Es & _). rewrite Es. rewrite Nat2Z.id.
  eapply wp_step with (m' := with_fresh m (splice (replicate (Z.to_nat (cap + 1)) Uninit) 0 (Byte <$> l))) (a := ()).
  { destruct (Z.ltb_spec 0 (Z.of_nat (length l))); [apply (copy_fresh m _ _ l 0 Hw (text_whole _ _ _ _ H)); lengths|].
    assert (El : length l = 0%nat) by lia. apply nil_length_inv in El. subst l. cbn. by rewrite splice_nil. }
  destruct (fresh_text l (Z.to_nat (cap + 1)) ltac:(lia)) as [Ht Hlen]. eapply wp_step; [apply (fresh_write m _ (length l) [Byte 0]); [done|lengths]|].
  destruct (install_large m this r buf (splice (splice (replicate (Z.to_nat (cap + 1)) Uninit) 0 (Byte <$> l)) (length l) [Byte 0]) (Z.of_nat (length l)) cap Hw Hb) as (m' & E & H' & F); [lia|lia|lia|].
  eapply prog_wp_done; [exact E|]. unfold room, grown. rewrite (proj2 (Z.ltb_lt _ _)) by done. cbn [fst snd]. split; [|split; [cbn; lia|by left]]. split; [by eexists|by split].
Qed.

Lemma grow_if_ok R m this r l n : mem_wf m -> text_at m this r l -> 0 <= n -> (R -> grants_growth (capacity r) n) ->
  wp R (grow_if allocates N this r n m) (room this r m l n).
Proof using HN.
  intros Hw H Hn HR. unfold grow_if. destruct (Z.ltb_spec (capacity r) n); [by apply small_grow_ok|]. by apply room_keep.
Qed.

Lemma room_then R (p : Prog Rep) (k : Rep -> Prog Rep) m this r l n l' : mem_wf m -> text_at m this r l -> wp R (p m) (room this r m l n) ->
  (forall m1 r1, mem_wf m1 -> text_at m1 this r1 l -> n <= capacity r1 -> frame this (lay r) (lay r1) m m1 -> (capacity r < n \/ (m1, r1) = (m, r)) ->
     wp R (k r1 m1) (becomes this r1 m1 l' (capacity r1))) ->
  wp R ((p ≫= k) m) (becomes this r m l' (grown (capacity r) n)).
Proof using Type.
  intros Hw H Hp Hk. refine (prog_wp_bind R p k m _ (fun m1 r1 => room this r m l n (m1, r1)) _ _); [eapply wp_mono; [exact Hp|by intros [? ?]]|].
  intros m1 r1 ((H1 & Hc & F1) & Hn & Hd). cbn [fst snd] in *. eapply wp_mono; [apply (Hk m1 r1 (fr_wf _ _ _ _ _ F1 Hw) H1 Hn F1 Hd)|].
  intros [m2 r2] (H2 & Hc2 & F2). split; [done|]. split; [by rewrite Hc2|]. eapply frame_trans; [done|by eapply text_apart|exact F1|exact F2].
Qed.

(** ** Writing into the buffer *)

(** Characters that can be copied to position [off] of the string once it has room for [need]:
    outside of the string, or in it when it does not grow and the ranges do not overlap. *)
Definition source_ok (m : memory) (this : nat) (r : Rep) (p : ptr) (xs : list Z) (off : nat) (need : Z) : Prop :=
  readable m p xs /\
  (xs = [] \/ (p.1 <> this /\ data_of (lay r) <> Some p.1) \/ (need <= capacity r /\ overlap (block_of this r, off) p (length xs) = false)).

Lemma overlap_apart a b n : a.1 <> b.1 -> overlap a b n = false.
Proof using Type. intros H. unfold overlap. by rewrite (proj2 (Nat.eqb_neq _ _)). Qed.

Lemma source_after m this r p xs off need m1 r1 : mem_wf m -> source_ok m this r p xs off need -> (capacity r < need \/ (m1, r1) = (m, r)) ->
  frame this (lay r) (lay r1) m m1 -> source_ok m1 this r1 p xs off need.
Proof using Type.
  intros Hw [Hr Hs] [Hg|[= -> ->]] F; [|by split]. destruct Hs as [->|[[H1 H2]|[H1 _]]]; [by split; [left|left]| |lia].
  destruct xs as [|x xs]; [by split; [left|left]|]. pose proof (readable_block _ _ _ _ Hr) as Hb. specialize (Hw _ Hb).
  assert (H3 : data_of (lay r1) <> Some p.1). { intros E. destruct (fr_new _ _ _ _ _ F _ E) as [|]; [done|lia]. }
  split; [|by right; left]. eapply readable_same; [|exact Hr]. intros _. by apply (fr_same _ _ _ _ _ F).
Qed.

Lemma move_put m this r buf p xs off : holds m this r buf -> readable m p xs -> (off + length xs <= length buf)%nat ->
  exists m', MemMove (block_of this r, off) p (length xs) m = Ok (m', ()) /\ holds m' this r (splice buf off (Byte <$> xs)) /\ frame this (lay r) (lay r) m m'.
Proof using Type.
  intros H Hr Hl. destruct xs as [|x xs].
  { exists m. split; [done|]. cbn. rewrite splice_nil. split; [done|apply frame_refl]. }
  unfold MemMove. rewrite (proj2 (Nat.eqb_neq (length (x :: xs)) 0)) by done. rewrite (prog_bind _ _ _ _ _ (readable_load _ _ _ _ Hr)).
  apply put_bytes; [done|]. by rewrite length_fmap.
Qed.

Lemma fill_put n c : forall m this r buf off, mem_wf m -> holds m this r buf -> (off + n <= length buf)%nat ->
  exists m', fill_chars n (block_of this r, off) c m = Ok (m', ()) /\ holds m' this r (splice buf off (replicate n (Byte c))) /\ frame this (lay r) (lay r) m m'.
Proof using Type.
  induction n as [|n IH]; intros m this r buf off Hw H Hl; cbn [fill_chars replicate].
  - exists m. rewrite splice_nil. split; [done|]. split; [done|apply frame_refl].
  - destruct (put_bytes m this r buf off [Byte c] H) as (m1 & E1 & H1 & F1); [cbn; lia|]. unfold store_byte. rewrite (prog_bind _ _ _ _ _ E1).
    unfold advance_ptr. cbn [fst snd]. change (Z.to_nat 1) with 1%nat. rewrite Nat.add_1_r.
    destruct (IH m1 this r _ (S off) (fr_wf _ _ _ _ _ F1 Hw) H1) as (m2 & E2 & H2 & F2); [rewrite length_splice by (cbn; lia); lia|].
    exists m2. split; [exact E2|]. rewrite splice_cons in H2 by lia. split; [done|]. eapply frame_trans; [done|by eapply small_holds_apart|done|done].
Qed.

(** A write from a position of the text on, then the size. *)
Lemma store_finish R (p : Prog ()) m this r l ys off z : mem_wf m -> text_at m this r l -> (off <= length l)%nat -> z = Z.of_nat (off + length ys) -> z <= capacity r ->
  (forall buf, holds m this r buf -> (off + length ys <= length buf)%nat ->
     exists m', p m = Ok (m', ()) /\ holds m' this r (splice buf off (Byte <$> ys)) /\ frame this (lay r) (lay r) m m') ->
  wp R ((_ ← p; finish this r z) m) (becomes this r m (take off l ++ ys) (capacity r)).
Proof using HN.
  intros Hw (buf & Hb & Es & junk & Ej) Hoff Hz Hc Hp. pose proof (holds_length _ _ _ _ Hb) as [Hl _].
  destruct (Hp buf Hb) as (m1 & E1 & H1 & F1); [lia|]. eapply wp_step; [exact E1|]. destruct (text_splice l (Byte 0 :: junk) off ys Hoff) as (rest & Er).
  eapply (small_finish_becomes R m m1 this r _ rest z); [done|exact F1|exact H1| |lengths|done]. by rewrite <- Er, Ej.
Qed.

(** Characters from a position of the text on, then the size. *)
Lemma copy_finish R m this r l p xs off z : mem_wf m -> text_at m this r l -> source_ok m this r p xs off z -> (off <= length l)%nat ->
  z = Z.of_nat (off + length xs) -> z <= capacity r ->
  wp R ((_ ← MemCopy (block_of this r, off) p (length xs); finish this r z) m) (becomes this r m (take off l ++ xs) (capacity r)).
Proof using HN.
  intros Hw H [Hr Hs] Hoff Hz Hc. apply store_finish; try done. intros buf Hb Hl. unfold MemCopy.
  replace (overlap _ _ _) with false; [by apply move_put|]. symmetry. destruct Hs as [->|[[H1 H2]|[_ ->]]]; [|apply overlap_apart|done].
  - unfold overlap. cbn [fst snd length]. apply andb_false_iff. destruct (Nat.ltb_spec off (p.2 + 0)); [right; apply Nat.ltb_ge; lia|left; by rewrite andb_false_r].
  - cbn [fst]. destruct r; cbn in *; congruence.
Qed.

Lemma advance_data this r k : advance_ptr (data_of_ this r) (Z.of_nat k) = (block_of this r, k).
Proof using Type. rewrite data_block. unfold advance_ptr. cbn [fst snd Nat.add]. by rewrite Nat2Z.id. Qed.

(** Room first, then the characters: [assign] and [append]. *)
Lemma grow_copy R m this r l p xs off z : mem_wf m -> text_at m this r l -> source_ok m this r p xs off z -> (off <= length l)%nat ->
  z = Z.of_nat (off + length xs) -> (R -> grants_growth (capacity r) z) ->
  wp R ((r ← grow_if allocates N this r z; _ ← MemCopy (advance_ptr (data_of_ this r) (Z.of_nat off)) p (length xs); finish this r z) m)
    (becomes this r m (take off l ++ xs) (grown (capacity r) z)).
Proof using HN.
  intros Hw H Hs Hoff Hz HR. eapply room_then; [done|exact H|apply grow_if_ok; [done|done|lia|exact HR]|].
  intros m1 r1 Hw1 H1 Hc1 F1 Hd. rewrite advance_data. apply copy_finish; [done|done|exact (source_after m this r p xs off z m1 r1 Hw Hs Hd F1)|done|done|done].
Qed.

Abbreviation size_z l := (Z.of_nat (length l)).

Lemma text_size m this r l : text_at m this r l -> get_size r = size_z l.
Proof using Type. by intros (buf & _ & E & _). Qed.

Lemma small_sum_ok R a b (k : Z -> Prog Rep) m P : 0 <= a < 2 ^ 32 -> 0 <= b < 2 ^ 32 -> (R -> a + b < 2 ^ 32) ->
  (a + b < 2 ^ 32 -> wp R (k (a + b) m) P) -> wp R ((SmallString.checked_length_sum a b ≫= k) m) P.
Proof using Type.
  intros Ha Hb HR Hk. unfold SmallString.checked_length_sum, fatal_check. destruct (Z.leb_spec a (2 ^ 32 - 1 - b)).
  - rewrite wrap_small by (unfold fits; lia). eapply wp_step; [done|]. apply Hk. lia.
  - cbn. intros r. specialize (HR r). lia.
Qed.

(** [data()[0] = 0] and the size. *)
Lemma small_clear_ok R m this r l : mem_wf m -> text_at m this r l -> wp R (clear this r m) (becomes this r m [] (capacity r)).
Proof using HN.
  intros Hw Ht. pose proof (text_cap _ _ _ _ Ht) as [_ Hc]. destruct Ht as (buf & H & _). assert (H0 : holds m this (set_size r 0) buf) by (apply holds_resize; [done|lia]).
  pose proof (holds_length _ _ _ _ H0) as [Hl _]. rewrite cap_resize in Hl. destruct (put_bytes m this (set_size r 0) buf 0 [Byte 0] H0) as (m1 & E & H1 & F); [cbn [length]; lia|].
  unfold clear, SmallString.clear, store_byte. rewrite data_block. eapply wp_step; [exact E|]. eapply prog_wp_done; [done|]. split; [|split; [apply cap_resize|cbn [fst snd]; rewrite lay_resize in *; exact F]].
  eexists. split; [exact H1|]. split; [by destruct r|]. by eexists.
Qed.

Lemma small_assign_ok R m this r l p xs : mem_wf m -> text_at m this r l -> source_ok m this r p xs 0 (size_z xs) -> (R -> grants_growth (capacity r) (size_z xs)) ->
  wp R (SmallString.assign allocates N this r (Some p) (size_z xs) m) (becomes this r m xs (grown (capacity r) (size_z xs))).
Proof using HN.
  intros Hw H Hs HR. unfold SmallString.assign. destruct (Z.eqb_spec (size_z xs) 0) as [E|E].
  { destruct xs; [|cbn in E; lia]. unfold grown. pose proof (text_cap _ _ _ _ H) as [? ?]. rewrite (proj2 (Z.ltb_ge _ _)) by (cbn; lia). by eapply small_clear_ok. }
  rewrite Nat2Z.id.
  assert (Hk : forall r, data_of_ this r = advance_ptr (data_of_ this r) (Z.of_nat 0)) by (intros r0; by destruct r0).
  pose proof (grow_copy R m this r l p xs 0 (size_z xs) Hw H Hs ltac:(lia) ltac:(lia) HR) as Hg.
  unfold mbind, Prog_bind in Hg |- *. destruct (grow_if allocates N this r (size_z xs) m) as [[m1 r1]| |]; [|done|done].
  cbn -[advance_ptr Z.of_nat MemCopy finish data_of_ take] in Hg |- *. rewrite <- Hk in Hg. exact Hg.
Qed.

Lemma small_append_ok R m this r l p xs : mem_wf m -> text_at m this r l -> source_ok m this r p xs (length l) (size_z l + size_z xs) -> size_z xs < 2 ^ 32 ->
  (R -> grants_growth (capacity r) (size_z l + size_z xs)) ->
  wp R (SmallString.append allocates N this r p (size_z xs) m) (becomes this r m (l ++ xs) (grown (capacity r) (size_z l + size_z xs))).
Proof using HN.
  intros Hw H Hs Hfit HR. pose proof (text_cap _ _ _ _ H) as [Hl [_ Hc]]. pose proof small_max as Ek. unfold SmallString.append. destruct (Z.eqb_spec (size_z xs) 0) as [E|E].
  { destruct xs; [|cbn in E; lia]. rewrite app_nil_r. unfold grown. rewrite (proj2 (Z.ltb_ge _ _)) by (cbn; lia). by apply becomes_keep. }
  rewrite (text_size _ _ _ _ H). apply small_sum_ok; [lia|lia| |].
  { intros x. pose proof (granted_bound _ _ R Hc HR x). lia. }
  intros _. rewrite Nat2Z.id. pose proof (grow_copy R m this r l p xs (length l) (size_z l + size_z xs) Hw H Hs ltac:(lia) ltac:(lia) HR) as Hg. by rewrite firstn_all in Hg.
Qed.

Lemma small_reserve_ok R m this r l n : mem_wf m -> text_at m this r l -> 0 <= n -> (R -> grants_growth (capacity r) n) ->
  wp R (SmallString.reserve allocates N this r n m) (becomes this r m l (grown (capacity r) n)).
Proof using HN. intros Hw H Hn HR. eapply wp_mono; [exact (grow_if_ok R m this r l n Hw H Hn HR)|]. by intros q [? _]. Qed.

(** The size alone: a prefix. *)
Lemma small_shorten_ok R m this r l k z : mem_wf m -> text_at m this r l -> (k <= length l)%nat -> z = Z.of_nat k -> wp R (finish this r z m) (becomes this r m (take k l) (capacity r)).
Proof using HN.
  intros Hw H Hk ->. pose proof (text_cap _ _ _ _ H) as [Hl _]. destruct H as (buf & Hb & Es & junk & Ej).
  eapply (small_finish_becomes R m m this r (take k l) ((Byte <$> drop k l) ++ Byte 0 :: junk)); [done|apply frame_refl|exact Hb| |lengths|lia].
  by rewrite Ej, app_assoc, <- fmap_app, take_drop.
Qed.

Lemma small_resize_ok R m this r l n : mem_wf m -> text_at m this r l -> (R -> grants_growth (capacity r) (Z.of_nat n)) ->
  wp R (SmallString.resize allocates N this r (Z.of_nat n) m) (becomes this r m (take n l ++ replicate (n - length l) 0) (grown (capacity r) (Z.of_nat n))).
Proof using HN.
  intros Hw H HR. unfold SmallString.resize. cbv zeta. rewrite (text_size _ _ _ _ H). pose proof (text_cap _ _ _ _ H) as [Hl _].
  destruct (Z.ltb_spec (size_z l) (Z.of_nat n)) as [Hlt|Hge].
  - rewrite take_ge by lia. apply wp_assoc. eapply room_then; [done|exact H|apply grow_if_ok; [done|done|lia|exact HR]|].
    intros m1 r1 Hw1 H1 Hc1 F1 _. apply wp_assoc. rewrite advance_data.
    pose proof (store_finish R (MemSet (block_of this r1, length l) 0 (n - length l)) m1 this r1 l (replicate (n - length l) 0) (length l) (Z.of_nat n) Hw1 H1) as Hf.
    rewrite firstn_all, length_replicate in Hf. replace (Z.to_nat (Z.of_nat n - size_z l)) with (n - length l)%nat by lia.
    apply Hf; [done|lia|done|]. intros buf Hb Hlen. unfold MemSet. destruct (Nat.eqb_spec (n - length l) 0) as [E|_]; [lia|].
    rewrite fmap_replicate. apply put_bytes; [done|]. by rewrite length_replicate.
  - replace (n - length l)%nat with 0%nat by lia. cbn [replicate]. rewrite app_nil_r. unfold grown. rewrite (proj2 (Z.ltb_ge _ _)) by lia.
    eapply wp_step; [done|]. by apply small_shorten_ok; [| |lia|].
Qed.

Lemma small_push_back_ok R m this r l c : mem_wf m -> text_at m this r l -> (R -> grants_growth (capacity r) (size_z l + 1)) ->
  wp R (SmallString.push_back allocates N this r c m) (becomes this r m (l ++ [c]) (grown (capacity r) (size_z l + 1))).
Proof using HN.
  intros Hw H HR. pose proof (text_cap _ _ _ _ H) as [Hl [_ Hc]]. pose proof small_max as Ek. unfold SmallString.push_back. cbv zeta. rewrite (text_size _ _ _ _ H).
  apply small_sum_ok; [lia|lia|intros x; pose proof (granted_bound _ _ R Hc HR x); lia|]. intros _.
  eapply room_then; [done|exact H|apply grow_if_ok; [done|done|lia|exact HR]|]. intros m1 r1 Hw1 H1 Hc1 F1 _. rewrite advance_data.
  pose proof (store_finish R (store_byte (block_of this r1, length l) c) m1 this r1 l [c] (length l) (size_z l + 1) Hw1 H1) as Hf. rewrite firstn_all in Hf.
  apply Hf; [done|cbn; lia|done|]. intros buf Hb Hlen. by apply (put_bytes m1 this r1 buf (length l) [Byte c]).
Qed.

(** [count] copies of [c] at [pos]; the rest moves up first. *)
Lemma small_insert_ok R m this r l pos count c : mem_wf m -> text_at m this r l -> (pos <= length l)%nat -> Z.of_nat count < 2 ^ 32 ->
  (R -> grants_growth (capacity r) (size_z l + Z.of_nat count)) ->
  wp R (SmallString.insert allocates N this r (Z.of_nat pos) (Z.of_nat count) c m)
    (becomes this r m (take pos l ++ replicate count c ++ drop pos l) (grown (capacity r) (size_z l + Z.of_nat count))).
Proof using HN.
  intros Hw H Hp Hfit HR. pose proof (text_cap _ _ _ _ H) as [Hl [_ Hc]]. pose proof small_max as Ek. unfold SmallString.insert. rewrite (text_size _ _ _ _ H).
  unfold bug_check, dcheck. rewrite (proj2 (Z.leb_le _ _)) by lia. refine (wp_step _ _ _ m m () _ eq_refl _).
  destruct (Z.eqb_spec (Z.of_nat count) 0) as [E0|Hne].
  { assert (count = 0%nat) as -> by lia. cbn [replicate app]. rewrite take_drop. unfold grown. rewrite Z.add_0_r, (proj2 (Z.ltb_ge _ _) Hl). by apply becomes_keep. }
  cbv zeta. apply small_sum_ok; [lia|lia|intros x; pose proof (granted_bound _ _ R Hc HR x); lia|]. intros _.
  eapply room_then; [done|exact H|apply grow_if_ok; [done|done|lia|exact HR]|]. intros m1 r1 Hw1 H1 Hc1 F1 _.
  replace (Z.of_nat pos + Z.of_nat count) with (Z.of_nat (pos + count)) by lia. rewrite !advance_data, Nat2Z.id.
  pose proof (text_part m1 this r1 l pos (length l - pos) H1 ltac:(lia)) as Hr. assert (Ed : length (drop pos l) = (length l - pos)%nat) by apply length_drop.
  rewrite <- Ed, firstn_all in Hr. destruct H1 as (buf & Hb & _ & junk & Ej). pose proof (holds_length _ _ _ _ Hb) as [Hbl _].
  replace (Z.to_nat (size_z l - Z.of_nat pos)) with (length (drop pos l)) by lia.
  destruct (move_put m1 this r1 buf _ _ (pos + count) Hb Hr) as (m2 & E2 & H2 & F2); [lia|]. eapply wp_step; [exact E2|].
  pose proof (fr_wf _ _ _ _ _ F2 Hw1) as Hw2. destruct (fill_put count c m2 this r1 _ pos Hw2 H2) as (m3 & E3 & H3 & F3); [lengths|]. eapply wp_step; [exact E3|].
  pose proof (splice_before buf pos (Byte <$> drop pos l) (replicate count (Byte c))) as Es. rewrite length_replicate in Es. rewrite Es in H3 by lia.
  rewrite <- fmap_replicate, <- fmap_app in H3. destruct (text_splice l (Byte 0 :: junk) pos (replicate count c ++ drop pos l) Hp) as (rest & Er).
  eapply (small_finish_becomes R m1 m3 this r1 _ rest); [done|exact (frame_trans _ _ _ _ _ _ _ Hw1 (small_holds_apart _ _ _ _ Hb) F2 F3)|exact H3|by rewrite Ej|lengths|lia].
Qed.

Lemma small_erase_ok R m this r l pos count : mem_wf m -> text_at m this r l -> (pos <= length l)%nat -> 0 <= count ->
  wp R (SmallString.erase this r (Z.of_nat pos) count m)
    (becomes this r m (take pos l ++ drop (pos + Z.to_nat (Z.min count (size_z l - Z.of_nat pos))) l) (capacity r)).
Proof using HN.
  intros Hw H Hp Hc. pose proof (text_cap _ _ _ _ H) as [Hl _]. unfold SmallString.erase. cbv zeta. rewrite (text_size _ _ _ _ H).
  unfold bug_check, dcheck. rewrite (proj2 (Z.leb_le _ _)) by lia. refine (wp_step _ _ _ m m () _ eq_refl _). set (n := Z.min count (size_z l - Z.of_nat pos)).
  destruct (Z.eqb_spec n 0) as [->|Hne]; [change (Z.to_nat 0) with 0%nat; rewrite Nat.add_0_r, take_drop; by apply becomes_keep|].
  replace (Z.of_nat pos + n) with (Z.of_nat (pos + Z.to_nat n)) by lia. rewrite !advance_data. set (xs := drop (pos + Z.to_nat n) l).
  assert (Hxs : length xs = (length l - pos - Z.to_nat n)%nat) by (unfold xs; rewrite length_drop; lia). replace (Z.to_nat (size_z l - Z.of_nat pos - n)) with (length xs) by lia.
  pose proof (text_part m this r l (pos + Z.to_nat n) (length xs) H ltac:(lia)) as Hr. fold xs in Hr. rewrite firstn_all in Hr.
  apply store_finish; [done|done|done|lia|lia|]. intros buf Hb Hlen. by apply move_put.
Qed.

Lemma small_remove_suffix_ok R m this r l n : mem_wf m -> text_at m this r l -> (n <= length l)%nat ->
  wp R (SmallString.remove_suffix this r (Z.of_nat n) m) (becomes this r m (take (length l - n) l) (capacity r)).
Proof using HN.
  intros Hw H Hn. unfold SmallString.remove_suffix. cbv zeta. rewrite (text_size _ _ _ _ H). unfold bug_check, dcheck. rewrite (proj2 (Z.leb_le _ _)) by lia.
  refine (wp_step _ _ _ m m () _ eq_refl _). apply small_shorten_ok; [done|done|lia|lia].
Qed.

Lemma small_set_at_ok R m this r l i c : mem_wf m -> text_at m this r l -> (i < length l)%nat ->
  wp R (SmallString.set_at this r (Z.of_nat i) c m) (becomes this r m (<[i := c]> l) (capacity r)).
Proof using HN.
  intros Hw H Hi. unfold SmallString.set_at. rewrite (text_size _ _ _ _ H). unfold bug_check, dcheck. rewrite (proj2 (Z.ltb_lt _ _)) by lia.
  refine (wp_step _ _ _ m m () _ eq_refl _). rewrite advance_data. destruct H as (buf & Hb & Es & junk & Ej).
  destruct (put_bytes m this r buf i [Byte c] Hb) as (m1 & E1 & H1 & F1); [rewrite Ej; lengths|]. eapply wp_step; [exact E1|]. eapply prog_wp_done; [done|].
  split; [|by split]. exists (splice buf i [Byte c]). split; [done|]. split; [by rewrite length_insert|]. exists junk.
  rewrite Ej, splice_one by (rewrite length_app, length_fmap; lia). rewrite insert_app_l by (rewrite length_fmap; lia). by rewrite list_fmap_insert.
Qed.

(** A text that fits inline leaves its buffer. *)
Lemma small_shrink_inline_ok R m this d n c l : mem_wf m -> text_at m this (LargeRep d n c) l -> size_z l <= N ->
  wp R (SmallString.shrink_to_fit allocates N this (LargeRep d n c) m) (becomes this (LargeRep d n c) m l N).
Proof using HN.
  intros Hw H Hle. pose proof (text_whole _ _ _ _ H) as Hr. pose proof (text_size _ _ _ _ H) as En. destruct H as (buf & Hb & _ & Ht). pose proof (holds_length _ _ _ _ Hb) as (Hlen & _ & Hcap).
  destruct Hb as [(ch & E & El & _) (Hd & Ed & _ & _ & Hn)]. cbn in En, Hlen, Hcap, Hr. subst n. unfold SmallString.shrink_to_fit, kInlineCapacity.
  rewrite (proj2 (Z.leb_le _ _)) by lia. rewrite Nat2Z.id.
  set (c1 := splice ch 0 (Byte <$> l)). assert (H1 : MemCopy (this, 0%nat) (d, 0%nat) (length l) m = Ok (with_block m this (false, c1), ())).
  { unfold MemCopy. rewrite overlap_apart by (cbn; congruence). destruct l as [|x l].
    - unfold c1. cbn. rewrite splice_nil. do 2 f_equal. unfold with_block. rewrite insert_id by done. by destruct m.
    - unfold MemMove. rewrite (proj2 (Nat.eqb_neq (length (x :: l)) 0)) by done. rewrite (prog_bind _ _ _ _ _ (readable_load _ _ _ _ Hr)).
      apply (store_bytes_ok (this, 0%nat) _ m false ch E). rewrite length_fmap. cbn [snd length] in *. lia. }
  eapply wp_step; [exact H1|]. assert (Hl1 : length c1 = length ch) by (unfold c1; rewrite length_splice; [done|rewrite length_fmap; lia]).
  eapply wp_step; [eapply (store_bytes_ok (this, length l)); [apply with_block_at|cbn [snd length]; lia]|]. cbn [fst snd]. rewrite with_block_twice. set (c2 := splice c1 (length l) [Byte 0]).
  assert (Hl2 : length c2 = length ch) by (unfold c2; rewrite length_splice; [done|cbn [length]; lia]).
  set (m2 := with_block m this (false, c2)). assert (Ed2 : blocks m2 !! d = Some (true, buf)) by (unfold m2; by rewrite with_block_same).
  eapply wp_step; [apply (free_ok d _ m2 buf Ed2); rewrite buffer_bytes_exact by lia; lia|]. eapply prog_wp_done; [done|]. split; [|split; [done|split]]; cbn [fst snd lay data_of].
  - exists c2. split; [split; [|lia]|split; [done|]].
    + exists c2. cbn [blocks]. rewrite lookup_delete_ne by done. unfold m2. rewrite with_block_at. split; [done|]. split; [lia|done].
    + destruct (text_splice [] ch 0 l ltac:(done)) as (rest & Er). unfold c2. eapply BaseStringRep.terminate; [unfold c1; exact Er|]. lia.
  - intros b H2 H3 _. cbn [blocks]. rewrite lookup_delete_ne by congruence. unfold m2. by apply with_block_same.
  - intros b [= <-]. right. apply lookup_delete_eq.
  - done.
  - done.
  - intros _ b. cbn [blocks next_block]. destruct (decide (b = d)) as [->|Hne]; [rewrite lookup_delete_eq; by intros [? ?]|]. rewrite lookup_delete_ne by done. unfold m2.
    destruct (decide (b = this)) as [->|Hnt]; [intros _; apply Hw; eauto|]. rewrite with_block_same by done. apply Hw.
Qed.

Lemma small_shrink_to_fit_ok R m this r l : mem_wf m -> text_at m this r l -> (R -> N < size_z l < capacity r -> granted (size_z l)) ->
  wp R (SmallString.shrink_to_fit allocates N this r m) (becomes this r m l (Z.max N (size_z l))).
Proof using HN.
  intros Hw H HR. destruct r as [n|d n c].
  { pose proof (text_cap _ _ _ _ H) as [Hl _]. cbn in Hl. unfold kInlineCapacity in Hl. rewrite Z.max_l by done. by apply becomes_keep. }
  destruct (Z.le_gt_cases (size_z l) N) as [Hle|Hgt]; [rewrite Z.max_l by done; by apply small_shrink_inline_ok|]. rewrite Z.max_r by lia.
  pose proof (text_size _ _ _ _ H) as En. pose proof (text_cap _ _ _ _ H) as (Hl & _ & Hc). cbn in En, Hl, Hc, HR. subst n. unfold SmallString.shrink_to_fit, kInlineCapacity.
  rewrite (proj2 (Z.leb_gt _ _)) by lia. destruct (Z.ltb_spec (size_z l) c) as [Hlt|Hge].
  - refine (prog_wp_bind _ _ _ _ _ (fun m1 b => m1 = with_fresh m (replicate (Z.to_nat (size_z l + 1)) Uninit) /\ b = next_block m) _ _).
    { apply allocate_small; [lia| |done]. intros x. by apply HR. }
    intros m1 b [-> ->]. rewrite Nat2Z.id. eapply wp_step; [apply (copy_fresh m _ _ l 0 Hw (text_whole _ _ _ _ H)); lengths|].
    destruct (fresh_text l (Z.to_nat (size_z l + 1)) ltac:(lia)) as [Ht Hlen]. eapply wp_step; [apply (fresh_write m _ (length l) [Byte 0]); [done|lengths]|].
    destruct H as (buf & Hb & _). pose proof Hb as [(ch & E & El & _) _]. set (buf' := splice _ (length l) [Byte 0]).
    destruct (small_release_ok m this _ buf buf' Hw Hb) as (m2 & E2 & N2 & Hm2). eapply wp_step; [exact E2|]. eapply prog_wp_done; [done|].
    assert (Ec : blocks m2 !! this = Some (false, ch)).
    { rewrite Hm2, decide_False by (by eapply small_holds_apart). rewrite decide_False; [done|]. intros ->. specialize (Hw (next_block m) ltac:(eauto)). lia. }
    destruct (replace_large m m2 m2 this _ buf buf' (size_z l) (size_z l) ch Hw Hb N2 Hm2 Ec El) as [Hh F]; [done|done|unfold buf'; lia|lia|lia|].
    split; [by exists buf'|by split].
  - assert (size_z l = c) as <- by lia. by apply (becomes_keep m this (LargeRep d (size_z l) (size_z l))).
Qed.

(** ** Construction *)

Definition inline_storage (m : memory) (this : nat) : Prop := exists c, blocks m !! this = Some (false, c) /\ Z.of_nat (length c) = N + 1.

Lemma small_init_ok m this : inline_storage m this ->
  exists m', SmallString.init_empty this m = Ok (m', SmallRep 0) /\ text_at m' this (SmallRep 0) [] /\ frame this Small Small m m'.
Proof using HN.
  intros (c & E & El). unfold SmallString.init_empty, store_byte. rewrite (prog_bind _ _ _ _ _ (store_bytes_ok (this, 0%nat) [Byte 0] m false c E ltac:(cbn [snd length]; lia))). cbn [fst snd].
  eexists. split; [done|]. split; [|apply frame_block_write; [eauto|by left]]. exists (splice c 0 [Byte 0]). split; [split; [|lia]|split; [done|by eexists]].
  eexists. split; [apply with_block_at|]. by rewrite length_splice by (cbn [length]; lia).
Qed.

Lemma small_wp_init R (k : Rep -> Prog Rep) m this l c : mem_wf m -> inline_storage m this ->
  (forall m1, mem_wf m1 -> text_at m1 this (SmallRep 0) [] -> frame this Small Small m m1 -> wp R (k (SmallRep 0) m1) (becomes this (SmallRep 0) m1 l c)) ->
  wp R ((SmallString.init_empty this ≫= k) m) (becomes this (SmallRep 0) m l c).
Proof using HN.
  intros Hw Hs Hk. destruct (small_init_ok m this Hs) as (m1 & E1 & H1 & F1). eapply wp_step; [exact E1|].
  eapply wp_mono; [apply (Hk m1 (fr_wf _ _ _ _ _ F1 Hw) H1 F1)|]. intros q (H2 & Hc & F2). split; [done|]. split; [done|]. by eapply frame_trans.
Qed.

(** Characters outside of the storage. *)
Lemma outside_source m m1 this p xs : readable m p xs -> p.1 <> this -> frame this Small Small m m1 -> source_ok m1 this (SmallRep 0) p xs 0 (size_z xs).
Proof using Type. intros Hr Hp F. split; [|by right; left]. eapply readable_same; [|exact Hr]. intros _. by apply (fr_same _ _ _ _ _ F). Qed.

Lemma small_construct_chars_ok R m this p xs : mem_wf m -> inline_storage m this -> readable m p xs -> p.1 <> this -> (R -> grants_growth N (size_z xs)) ->
  wp R (SmallString.construct_chars allocates N this (Some p) (size_z xs) m) (becomes this (SmallRep 0) m xs (grown N (size_z xs))).
Proof using HN.
  intros Hw Hs Hr Hp HR. unfold SmallString.construct_chars. apply small_wp_init; [done|done|]. intros m1 Hw1 H1 F1.
  apply (small_assign_ok R m1 this (SmallRep 0) [] p xs Hw1 H1); [by eapply outside_source|done].
Qed.

Lemma small_construct_fill_ok R m this n c : mem_wf m -> inline_storage m this -> (R -> grants_growth N (Z.of_nat n)) ->
  wp R (SmallString.construct_fill allocates N this (Z.of_nat n) c m) (becomes this (SmallRep 0) m (replicate n c) (grown N (Z.of_nat n))).
Proof using HN.
  intros Hw Hs HR. unfold SmallString.construct_fill. apply small_wp_init; [done|done|]. intros m1 Hw1 H1 F1. destruct (Z.ltb_spec 0 (Z.of_nat n)) as [Hn|Hn].
  - eapply (room_then R _ _ m1 this (SmallRep 0) []); [done|done|apply small_grow_ok; [done|done|lia|exact HR]|]. intros m2 r2 Hw2 H2 Hc2 F2 _. rewrite data_block, Nat2Z.id.
    pose proof (store_finish R (fill_chars n (block_of this r2, 0%nat) c) m2 this r2 [] (replicate n c) 0 (Z.of_nat n) Hw2 H2) as Hf.
    rewrite length_replicate in Hf. apply Hf; [done|done|done|]. intros buf Hb Hlen. rewrite fmap_replicate. by apply fill_put.
  - assert (n = 0%nat) as -> by lia. unfold grown. rewrite (proj2 (Z.ltb_ge _ _)) by (cbn; lia). by apply becomes_keep.
Qed.

(** The characters of an array up to a null, its last place not looked at. *)
Lemma small_construct_array_ok R m this arr z zs : mem_wf m -> inline_storage m this -> readable m arr (z :: zs) -> arr.1 <> this -> size_z (z :: zs) < 2 ^ 32 ->
  let xs := until_zero (take (length zs) (z :: zs)) in (R -> grants_growth N (size_z xs)) ->
  wp R (SmallString.construct_array allocates N this arr (size_z (z :: zs)) m) (becomes this (SmallRep 0) m xs (grown N (size_z xs))).
Proof using HN.
  intros Hw Hs Hr Hne Hfit xs HR. unfold SmallString.construct_array. apply small_wp_init; [done|done|]. intros m1 Hw1 H1 F1.
  assert (Hr1 : readable m1 arr (z :: zs)) by (eapply readable_same; [intros _; by apply (fr_same _ _ _ _ _ F1)|done]).
  rewrite (proj2 (Z.ltb_lt _ _)) by (cbn; lia). replace (size_z (z :: zs) - 1) with (size_z zs) by (cbn; lia).
  eapply wp_step; [apply (CountStringLength_ok m1 arr z zs (size_z zs) Hr1); [right; cbn; lia|lia]|].
  assert (Ex : size_z xs = Z.min (size_z zs) (size_z (until_zero (z :: zs)))) by (unfold xs; rewrite until_zero_min; lia).
  rewrite <- Ex, wrap_small by (unfold fits; cbn [length] in Hfit; lia). apply (small_assign_ok R m1 this (SmallRep 0) [] arr xs Hw1 H1); [|done].
  apply (outside_source m m1); [|done|done]. assert (Exs : xs = take (length xs) (z :: zs)).
  { unfold xs. rewrite <- until_zero_take at 1. rewrite take_take. f_equal. pose proof (until_zero_length (take (length zs) (z :: zs))) as Hu. rewrite length_take in Hu. lia. }
  rewrite Exs. by apply readable_prefix.
Qed.

(** ** Two objects, and the end of one *)

Definition owns (this : nat) (r : Rep) (b : nat) : Prop := b = this \/ data_of (lay r) = Some b.

#[export] Instance owns_dec this r b : Decision (owns this r b).
Proof. unfold owns. apply _. Defined.

Lemma block_owned this r : owns this r (block_of this r).
Proof using Type. destruct r; [by left|by right]. Qed.

Lemma text_block m this r l b : text_at m this r l -> owns this r b -> is_Some (blocks m !! b).
Proof using Type. intros (buf & [(c & E & _) H] & _) [->|Hb]; [eauto|]. destruct r; [done|]. destruct H as (_ & Ed & _). injection Hb as <-. eauto. Qed.

Lemma text_kept m m' this r l : (forall b, owns this r b -> blocks m' !! b = blocks m !! b) -> text_at m this r l -> text_at m' this r l.
Proof using Type.
  intros Hs (buf & [(c & E & El & Ec) H] & Ht). exists buf. split; [|done]. split.
  - exists c. rewrite Hs by (by left). by split.
  - destruct r; [done|]. destruct H as (H1 & H2 & H3). split; [done|]. rewrite Hs by (by right). by split.
Qed.

(** A string on its own is not touched by what happens to another one. *)
Lemma text_other m m' this r l that l1 l2 : mem_wf m -> text_at m this r l -> frame that l1 l2 m m' -> ~ owns this r that -> (forall b, data_of l1 = Some b -> ~ owns this r b) ->
  text_at m' this r l.
Proof using Type.
  intros Hw H F Hn Hd. eapply text_kept; [|exact H]. intros b Hb. apply (fr_same _ _ _ _ _ F); [by intros ->|intros E; by apply (Hd b)|].
  intros E. destruct (fr_new _ _ _ _ _ F b E) as [E1|Hge]; [by apply (Hd b)|]. specialize (Hw b (text_block _ _ _ _ _ H Hb)). lia.
Qed.

Lemma small_destroy_ok m this r l : mem_wf m -> text_at m this r l ->
  exists m', (_ ← destruct_string r; end_object this) m = Ok (m', ()) /\ next_block m' = next_block m /\
    forall b, blocks m' !! b = if decide (owns this r b) then None else blocks m !! b.
Proof using HN.
  intros Hw (buf & Hb & _). pose proof (holds_length _ _ _ _ Hb) as (Hl & _ & Hc). destruct Hb as [(c & E & El & _) H]. unfold destruct_string. destruct r as [n|d n cap].
  - rewrite (prog_bind _ _ m m ()) by done. unfold end_object. rewrite E. eexists. split; [done|]. split; [done|]. intros b. cbn [blocks].
    destruct (decide (owns this (SmallRep n) b)) as [[->|Hb]|Hb]; [apply lookup_delete_eq|done|]. apply lookup_delete_ne. intros ->. apply Hb. by left.
  - destruct H as (Hd & Ed & Hlen & Hcap & _). cbn in Hl. cbn [deallocate_large_if_needed].
    assert (Ef : Free d (SmallString.buffer_byte_size cap) m = Ok (mkMemory (delete d (blocks m)) (next_block m), ())) by (apply (free_ok d _ m buf Ed); rewrite buffer_bytes_exact by lia; lia).
    rewrite (prog_bind _ _ _ _ _ Ef). assert (E1 : blocks (mkMemory (delete d (blocks m)) (next_block m)) !! this = Some (false, c)) by (cbn [blocks]; by rewrite lookup_delete_ne).
    unfold end_object. rewrite E1. eexists. split; [done|]. split; [done|]. intros b. cbn [blocks].
    destruct (decide (owns this (LargeRep d n cap) b)) as [[->|[= ->]]|Hb].
    + apply lookup_delete_eq.
    + rewrite lookup_delete_ne by done. apply lookup_delete_eq.
    + rewrite !lookup_delete_ne; [done|intros ->; apply Hb; by right|intros ->; apply Hb; by left].
Qed.

(** The new object takes the buffer or the characters; the old one is the empty string. *)
Lemma small_move_construct_ok m this other ro l : mem_wf m -> inline_storage m this -> text_at m other ro l -> ~ owns other ro this ->
  exists m' r', move_construct N this other ro m = Ok (m', (r', SmallRep 0)) /\ text_at m' this r' l /\ capacity r' = capacity ro /\ data_of (lay r') = data_of (lay ro) /\
    text_at m' other (SmallRep 0) [] /\ next_block m' = next_block m /\ forall b, b <> this -> b <> other -> blocks m' !! b = blocks m !! b.
Proof using HN.
  intros Hw (c0 & E0 & El0) H Hn. assert (Hne : this <> other) by (intros ->; apply Hn; by left). pose proof (text_size _ _ _ _ H) as En. pose proof (text_cap _ _ _ _ H) as (Hl & _ & Hcap).
  assert (Hinit : forall m1, next_block m1 = next_block m -> is_Some (blocks m1 !! this) -> blocks m1 !! other = blocks m !! other -> (forall b, b <> this -> blocks m1 !! b = blocks m !! b) ->
    exists m2, SmallString.init_empty other m1 = Ok (m2, SmallRep 0) /\ text_at m2 other (SmallRep 0) [] /\ next_block m2 = next_block m /\
      blocks m2 !! this = blocks m1 !! this /\ (forall b, b <> this -> b <> other -> blocks m2 !! b = blocks m !! b)).
  { intros m1 N1 _ Eo Hs. assert (Ho : inline_storage m1 other) by (destruct H as (buf & [(c & E & El & _) _] & _); exists c; split; [exact (eq_trans Eo E)|done]).
    destruct Ho as (c & E & El). unfold SmallString.init_empty, store_byte. rewrite (prog_bind _ _ _ _ _ (store_bytes_ok (other, 0%nat) [Byte 0] m1 false c E ltac:(cbn [snd length]; lia))). cbn [fst snd].
    eexists. split; [done|]. split; [|split; [done|split; [by apply with_block_same|intros b H1 H2; rewrite with_block_same by done; by apply Hs]]].
    exists (splice c 0 [Byte 0]). split; [split; [|lia]|split; [done|by eexists]]. eexists. split; [apply with_block_at|]. by rewrite length_splice by (cbn [length]; lia). }
  destruct ro as [n|d n c].
  - cbn in En, Hl. subst n. cbn [move_construct]. destruct H as (buf & Hb & _ & junk & Ej). pose proof (holds_length _ _ _ _ Hb) as [Hbl _]. destruct (holds_block _ _ _ _ Hb) as [dd Eb]. cbn [block_of data_of_ fst] in Eb.
    set (xs := l ++ [0]). assert (Hr : readable m (other, 0%nat) xs) by (apply (text_readable m other (SmallRep (size_z l))); exists buf; split; [done|split; [done|by exists junk]]).
    replace (Z.to_nat (size_z l + 1)) with (length xs) by (unfold xs; rewrite length_app; cbn; lia).
    assert (H1 : MemCopy (this, 0%nat) (other, 0%nat) (length xs) m = Ok (with_block m this (false, splice c0 0 (Byte <$> xs)), ())).
    { unfold MemCopy. rewrite overlap_apart by (by cbn). unfold MemMove. assert (Hx : exists x ys, xs = x :: ys) by (unfold xs; destruct l; by do 2 eexists). destruct Hx as (x & ys & Ex). rewrite Ex in *.
      rewrite (proj2 (Nat.eqb_neq (length (x :: ys)) 0)) by done. rewrite (prog_bind _ _ _ _ _ (readable_load _ _ _ _ Hr)).
      apply (store_bytes_ok (this, 0%nat) _ m false c0 E0). rewrite length_fmap, <- Ex. unfold xs. rewrite length_app. cbn in *. unfold kInlineCapacity in *. lia. }
    rewrite (prog_bind _ _ _ _ _ H1). destruct (Hinit (with_block m this (false, splice c0 0 (Byte <$> xs)))) as (m2 & E2 & H2 & N2 & Et & Hs2); [done|rewrite with_block_at; eauto|by apply with_block_same|intros b; by apply with_block_same|].
    rewrite (prog_bind _ _ _ _ _ E2). eexists _, _. split; [done|]. split; [|split; [done|split; [done|split; [done|by split]]]].
    exists (splice c0 0 (Byte <$> xs)). split; [split; [|cbn in *; unfold kInlineCapacity in *; lia]|split; [done|]].
    + eexists. split; [exact (eq_trans Et (with_block_at _ _ _))|]. rewrite length_splice; [done|]. rewrite length_fmap. unfold xs. rewrite length_app. cbn in *. unfold kInlineCapacity in *. lia.
    + eexists. unfold splice, xs. cbn [take app]. by rewrite fmap_app, <- app_assoc.
  - cbn [move_construct]. assert (Hc0 : (0 + length (replicate (Z.to_nat (N + 1)) Uninit) <= length c0)%nat) by (rewrite length_replicate; lia). unfold become_large. rewrite (prog_bind _ _ m (with_block m this (false, splice c0 0 (replicate (Z.to_nat (N + 1)) Uninit))) (LargeRep d n c)).
    2: { by rewrite (prog_bind _ _ _ _ _ (store_bytes_ok (this, 0%nat) _ m false c0 E0 Hc0)). }
    destruct (Hinit (with_block m this (false, splice c0 0 (replicate (Z.to_nat (N + 1)) Uninit)))) as (m2 & E2 & H2 & N2 & Et & Hs2); [done|rewrite with_block_at; eauto|by apply with_block_same|intros b; by apply with_block_same|].
    rewrite (prog_bind _ _ _ _ _ E2). eexists _, _. split; [done|]. split; [|split; [done|split; [done|split; [done|by split]]]].
    destruct H as (buf & [_ (Hd & Ed & Hrest)] & Es & Ht). exists buf. split; [|by split]. split.
    + eexists. split; [exact (eq_trans Et (with_block_at _ _ _))|]. rewrite length_splice by done. by split.
    + split; [intros ->; apply Hn; by right|]. split; [|done]. rewrite Hs2; [done|intros ->; apply Hn; by right|done].
Qed.

End SmallString.
