(* ===== verification/SmallStringSpec.v ===== *)
(** * base::BasicSmallString: its contract (strings/small_string.h)

    What the observers return, and whole programs over a string: constructions, edits, reads,
    copies, moves and destructions.  The arguments point into character arrays of the caller or
    into the string itself; [spec_small] is [None] where the code asks too much: a source in the
    string when the string grows or the ranges overlap, a length that 32 bits do not hold. *)

From stdpp Require Import gmap.
From S2P Require Import Prelude Memory Refine CMemory BaseString BaseStringRep BaseStringModify BaseStringConstruct BaseStringSearch BaseStringSpec SmallString SmallStringRep.

Set Default Proof Using "Type".
#[local] Open Scope Z_scope.

(** The same names in several files mean the small string here. *)
Abbreviation kMaxCapacity := SmallString.kMaxCapacity.
Abbreviation npos := SmallString.npos.
Abbreviation get_size := SmallString.get_size.
Abbreviation holds := SmallStringRep.holds.
Abbreviation becomes := SmallStringRep.becomes.

(** A position found, or 2^32 - 1. *)
Definition index32 (o : option nat) : Z := match o with Some i => Z.of_nat i | None => npos end.

Section Observers.

Context (N : Z) (HN : 0 < N <= kMaxCapacity).
Context {m : memory} {this : nat} {r : Rep} {l : list Z} (H : text_at N m this r l).

Abbreviation size_z l := (Z.of_nat (length l)).

Lemma small_byte i x : (l ++ [0]) !! i = Some x -> load_byte (advance_ptr (data_of_ this r) (Z.of_nat i)) m = Ok (m, x).
Proof using H. intros Ex. exact (readable_byte m _ _ i x (text_readable _ _ _ _ _ H) Ex). Qed.

Lemma small_char i x : l !! i = Some x -> load_byte (advance_ptr (data_of_ this r) (Z.of_nat i)) m = Ok (m, x).
Proof using H. intros Ex. apply small_byte. by apply lookup_app_l_Some. Qed.

Lemma small_at_ok i x : l !! i = Some x -> SmallString.at_ this r (Z.of_nat i) m = Ok (m, x).
Proof using H.
  intros Ex. pose proof (lookup_lt_Some _ _ _ Ex). unfold SmallString.at_. rewrite (text_size _ _ _ _ _ H), (proj2 (Z.ltb_lt _ _)) by lia.
  rewrite (prog_bind _ _ m m ()) by done. by apply small_char.
Qed.

Lemma small_back_ok x : l !! (length l - 1)%nat = Some x -> SmallString.back this r m = Ok (m, x).
Proof using H.
  intros Ex. pose proof (lookup_lt_Some _ _ _ Ex). unfold SmallString.back. rewrite (text_size _ _ _ _ _ H), (proj2 (Z.eqb_neq _ _)) by lia.
  rewrite (prog_bind _ _ m m ()) by done. replace (size_z l - 1) with (Z.of_nat (length l - 1)) by lia. by apply small_char.
Qed.

Lemma small_compare_at pos k q ys : (pos + k <= length l)%nat -> readable m q ys -> length ys = k ->
  MemCompare (advance_ptr (data_of_ this r) (Z.of_nat pos)) q k m = Ok (m, compare_numbers (take k (drop pos l)) ys).
Proof using H.
  intros Hp Hy El. rewrite advance_data. pose proof (text_part _ _ _ _ _ pos k H Hp) as Hr.
  assert (Ek : length (take k (drop pos l)) = k) by (rewrite length_take, length_drop; lia). rewrite <- Ek at 1. apply MemCompare_ok; [done|done|lia].
Qed.

Lemma small_compare_chars_ok q ys : readable m q ys -> SmallString.compare_chars this r q (size_z ys) m = Ok (m, lex_compare l ys).
Proof using H.
  intros Hy. unfold SmallString.compare_chars. cbv zeta. rewrite (text_size _ _ _ _ _ H). set (n := Nat.min (length l) (length ys)).
  replace (Z.to_nat (Z.min (size_z l) (size_z ys))) with n by lia.
  pose proof (small_compare_at 0 n q (take n ys) ltac:(lia) (readable_prefix _ _ _ _ Hy) ltac:(rewrite length_take; lia)) as E.
  assert (E0 : advance_ptr (data_of_ this r) (Z.of_nat 0) = data_of_ this r) by (by destruct r). rewrite E0 in E. rewrite (prog_bind _ _ _ _ _ E), drop_0.
  unfold mret, Prog_ret. do 2 f_equal. exact (lex_compare_split l ys).
Qed.

Lemma small_compare_ok other ro lo : text_at N m other ro lo -> SmallString.compare this r other ro m = Ok (m, lex_compare l lo).
Proof using H.
  intros Ho. unfold SmallString.compare. rewrite (text_size _ _ _ _ _ Ho). apply small_compare_chars_ok. by eapply text_whole.
Qed.

Lemma small_equal_part q ys : readable m q ys -> length ys = length l ->
  (c ← MemCompare (data_of_ this r) q (Z.to_nat (size_z l)); mret (c =? 0)) m = Ok (m, bool_decide (l = ys)).
Proof using H.
  intros Hy El. rewrite Nat2Z.id. rewrite (prog_bind _ _ _ _ _ (MemCompare_ok m _ q l ys (text_whole _ _ _ _ _ H) Hy (eq_sym El))).
  unfold mret, Prog_ret. by rewrite compare_numbers_eq.
Qed.

Lemma small_equal_ok other ro lo : text_at N m other ro lo -> SmallString.equal this r other ro m = Ok (m, bool_decide (l = lo)).
Proof using H.
  intros Ho. unfold SmallString.equal. rewrite (text_size _ _ _ _ _ H), (text_size _ _ _ _ _ Ho). destruct (Z.eqb_spec (size_z l) (size_z lo)) as [E|E]; cbn [negb].
  - apply small_equal_part; [by eapply text_whole|lia].
  - unfold mret, Prog_ret. rewrite bool_decide_false; [done|]. by intros ->.
Qed.

Lemma small_equal_cstr_ok q ys : cstring_at m q ys -> size_z ys < kNoLimit -> SmallString.equal_cstr this r (Some q) m = Ok (m, bool_decide (l = ys)).
Proof using H.
  intros Hy Hf. unfold SmallString.equal_cstr. rewrite (prog_bind _ _ _ _ _ (cstring_count _ _ _ Hy Hf)), (text_size _ _ _ _ _ H).
  destruct (Z.eqb_spec (size_z ys) (size_z l)) as [E|E]; cbn [negb].
  - apply small_equal_part; [by apply cstring_readable|lia].
  - unfold mret, Prog_ret. rewrite bool_decide_false; [done|]. by intros ->.
Qed.

Lemma small_char_loop_ok c n i : (i + n = length l)%nat -> char_loop n (data_of_ this r) c (Z.of_nat i) m = Ok (m, index32 (first_at (char_test l (fun x => x =? c)) n i)).
Proof using H.
  revert i. induction n as [|n IH]; intros i Hi; [done|]. cbn [char_loop first_at]. destruct (lookup_lt_is_Some_2 l i ltac:(lia)) as [x Ex].
  rewrite (prog_bind _ _ _ _ _ (small_char i x Ex)). unfold char_test at 1. rewrite Ex. destruct (x =? c); [done|].
  replace (Z.of_nat i + 1) with (Z.of_nat (S i)) by lia. apply IH. lia.
Qed.

Lemma small_find_char_ok c pos : SmallString.find_char this r c (Z.of_nat pos) m = Ok (m, index32 (first_at (char_test l (fun x => x =? c)) (length l - pos) pos)).
Proof using H.
  unfold SmallString.find_char. cbv zeta. rewrite (text_size _ _ _ _ _ H). destruct (Z.leb_spec (size_z l) (Z.of_nat pos)) as [Hle|Hlt].
  - by replace (length l - pos)%nat with 0%nat by lia.
  - replace (Z.to_nat (size_z l - Z.of_nat pos)) with (length l - pos)%nat by lia. apply small_char_loop_ok. lia.
Qed.

Lemma small_occurrence_loop_ok q ys n i : readable m q ys -> (i + n + length ys = S (length l))%nat ->
  occurrence_loop n (data_of_ this r) q (size_z ys) (Z.of_nat i) m = Ok (m, index32 (first_at (occurs l ys) n i)).
Proof using H.
  intros Hy. revert i. induction n as [|n IH]; intros i Hi; [done|]. cbn [occurrence_loop first_at].
  rewrite Nat2Z.id, (prog_bind _ _ _ _ _ (small_compare_at i (length ys) q ys ltac:(lia) Hy eq_refl)).
  rewrite compare_numbers_eq by (rewrite length_take, length_drop; lia). change (bool_decide (take (length ys) (drop i l) = ys)) with (occurs l ys i).
  destruct (occurs l ys i); [done|]. replace (Z.of_nat i + 1) with (Z.of_nat (S i)) by lia. apply IH. lia.
Qed.

(** The sum [pos + s_len] is one of 32 bits. *)
Lemma small_find_cstr_ok q ys pos : cstring_at m q ys -> Z.of_nat pos + size_z ys < 2 ^ 32 ->
  SmallString.find_cstr this r (Some q) (Z.of_nat pos) m = Ok (m, index32 (first_at (occurs l ys) (S (length l) - pos) pos)).
Proof using H HN.
  intros Hy Hf. pose proof (text_cap N HN _ _ _ _ H) as (Hl & _ & Hc). pose proof small_max as Ek. unfold SmallString.find_cstr. rewrite (prog_bind _ _ _ _ _ (cstring_count _ _ _ Hy ltac:(change kNoLimit with (2 ^ 64 - 1); lia))).
  cbv zeta. rewrite (text_size _ _ _ _ _ H). rewrite (wrap_small 32 (size_z ys)) by (unfold fits; lia). destruct (Z.eqb_spec (size_z ys) 0) as [E|E].
  { destruct ys; [|cbn in E; lia]. destruct (Z.leb_spec (Z.of_nat pos) (size_z l)).
    - replace (S (length l) - pos)%nat with (S (length l - pos)) by lia. cbn [first_at]. unfold occurs. cbn [length take]. by rewrite bool_decide_true.
    - by replace (S (length l) - pos)%nat with 0%nat by lia. }
  rewrite wrap_small by (unfold fits; lia). assert (Hne : ys <> []) by (by intros ->). destruct (Z.ltb_spec (size_z l) (Z.of_nat pos + size_z ys)) as [Hlt|Hge].
  { rewrite (first_at_cut _ _ 0); [done|lia|]. intros j Hj. apply occurs_short; [lia|done]. }
  rewrite wrap_small by (unfold fits; lia). rewrite (first_at_cut _ _ (length l - length ys + 1 - pos)); [|lia|intros j Hj; apply occurs_short; [lia|done]].
  replace (Z.to_nat (size_z l - size_z ys + 1 - Z.of_nat pos)) with (length l - length ys + 1 - pos)%nat by lia.
  apply small_occurrence_loop_ok; [by apply cstring_readable|lia].
Qed.

Lemma small_down_loop_ok c i : (i < length l)%nat -> down_loop i (data_of_ this r) c m = Ok (m, index32 (last_at (char_test l (fun x => x =? c)) i)).
Proof using H.
  induction i as [|i IH]; intros Hi; destruct (lookup_lt_is_Some_2 l _ Hi) as [x Ex]; cbn [down_loop last_at];
    rewrite (prog_bind _ _ _ _ _ (small_char _ x Ex)); unfold char_test at 1; rewrite Ex; destruct (x =? c); try done.
  apply IH. lia.
Qed.

Lemma small_find_last_of_ok c pos : SmallString.find_last_of this r c (Z.of_nat pos) m = Ok (m, index32 (last_before (char_test l (fun x => x =? c)) (Z.of_nat pos) (length l))).
Proof using H HN.
  pose proof (text_cap N HN _ _ _ _ H) as (Hl & _ & Hc). pose proof small_max as Ek. unfold SmallString.find_last_of. cbv zeta. rewrite (text_size _ _ _ _ _ H).
  destruct (length l) as [|k] eqn:El; [done|]. rewrite (proj2 (Z.eqb_neq _ 0)) by lia. cbn [last_before].
  replace (Z.to_nat (if (Z.of_nat pos =? npos) || (Z.of_nat (S k) <=? Z.of_nat pos) then Z.of_nat (S k) - 1 else Z.of_nat pos)) with (Z.to_nat (Z.min (Z.of_nat pos) (Z.of_nat k))); [apply small_down_loop_ok; lia|].
  change npos with (2 ^ 32 - 1). destruct (Z.eqb_spec (Z.of_nat pos) (2 ^ 32 - 1)), (Z.leb_spec (Z.of_nat (S k)) (Z.of_nat pos)); cbn [orb]; lia.
Qed.

Lemma small_text_ok : load_numbers (data_of_ this r) (S (length l)) m = Ok (m, l ++ [0]).
Proof using H.
  destruct (text_readable _ _ _ _ _ H) as [E|(d & c & E & Hl & Et)]; [by destruct l|].
  assert (En : S (length l) = length (l ++ [0])) by (rewrite length_app; cbn; lia). rewrite En. by eapply load_numbers_ok.
Qed.

Lemma small_inline : SmallString.is_inline r = (SmallString.get_capacity N r =? N).
Proof using H HN.
  destruct H as (buf & [_ Hb] & _). destruct r as [n|d n c]; cbn; unfold kInlineCapacity; [by rewrite Z.eqb_refl|]. symmetry. apply Z.eqb_neq. lia.
Qed.

End Observers.

(** ** Programs *)

(** A pointer argument: null, into an array of the caller, or [data() + off]. *)
Inductive small_source := SNull | SArr (a off : nat) | SSelf (off : nat).

#[export] Instance small_source_eq_dec : EqDecision small_source.
Proof. solve_decision. Defined.

Inductive small_edit :=
  | SClear
  | SAssignChars (p : small_source) (n : nat)
  | SAssignCStr (p : small_source)
  | SReserve (n : nat)
  | SResize (n : nat)
  | SShrinkToFit
  | SAppendChars (p : small_source) (n : nat)
  | SAppendCStr (p : small_source)
  | SPushBack (c : Z)
  | SInsert (pos n : nat) (c : Z)
  | SErase (pos : nat) (count : Z)
  | SRemoveSuffix (n : nat)
  | SSetAt (pos : nat) (c : Z).

Inductive small_make :=
  | SMEmpty
  | SMCStr (p : small_source)
  | SMChars (p : small_source) (n : nat)
  | SMFill (n : nat) (c : Z)
  | SMArray (a : nat).

(** A new object from the string, which ends then. *)
Inductive small_renew := SMove | SCopy | SSubstr (pos : nat) (count : Z).

Inductive small_query :=
  | SQSize
  | SQCapacity
  | SQIsInline
  | SQEmpty
  | SQAt (pos : nat)
  | SQBack
  | SQCStr
  | SQCompareCStr (p : small_source)
  | SQCompareChars (p : small_source) (n : nat)
  | SQEqualCStr (p : small_source)
  | SQFindChar (c : Z) (pos : nat)
  | SQFind (p : small_source) (pos : nat)
  | SQFindLastOf (c : Z) (pos : nat).

Inductive small_op := SMake (k : small_make) | SEdit (e : small_edit) | SRenew (k : small_renew) | SDestroy | SAsk (q : small_query).

Section SmallPrograms.

Context (allocates : Z -> bool) (N : Z) (HN : 0 < N <= kMaxCapacity).
(** The character arrays of the caller. *)
Context (lits : gmap nat (list Z)).

(** ** Execution *)

Abbreviation object := (option (nat * Rep)).

Definition small_pointer (o : object) (p : small_source) : Prog (option ptr) :=
  match p, o with
  | SNull, _ => mret None
  | SArr a off, _ => mret (Some (a, off))
  | SSelf off, Some (this, r) => mret (Some (advance_ptr (data_of_ this r) (Z.of_nat off)))
  | SSelf _, None => lift Undef
  end.

Definition small_some_pointer (o : object) (p : small_source) : Prog ptr := q ← small_pointer o p; lift (match q with Some q => Ok q | None => Undef end).

Definition run_small_edit (this : nat) (r : Rep) (e : small_edit) : Prog Rep :=
  let pointer := small_pointer (Some (this, r)) in
  let some_pointer := small_some_pointer (Some (this, r)) in
  match e with
  | SClear => SmallString.clear this r
  | SAssignChars p n => q ← pointer p; SmallString.assign allocates N this r q (Z.of_nat n)
  | SAssignCStr p => q ← some_pointer p; SmallString.assign_cstr allocates N this r q
  | SReserve n => SmallString.reserve allocates N this r (Z.of_nat n)
  | SResize n => SmallString.resize allocates N this r (Z.of_nat n)
  | SShrinkToFit => SmallString.shrink_to_fit allocates N this r
  | SAppendChars p n => q ← some_pointer p; SmallString.append allocates N this r q (Z.of_nat n)
  | SAppendCStr p => q ← some_pointer p; SmallString.append_cstr allocates N this r q
  | SPushBack c => SmallString.push_back allocates N this r c
  | SInsert pos n c => SmallString.insert allocates N this r (Z.of_nat pos) (Z.of_nat n) c
  | SErase pos count => SmallString.erase this r (Z.of_nat pos) count
  | SRemoveSuffix n => SmallString.remove_suffix this r (Z.of_nat n)
  | SSetAt pos c => SmallString.set_at this r (Z.of_nat pos) c
  end.

Definition run_small_make (this : nat) (k : small_make) : Prog Rep :=
  match k with
  | SMEmpty => SmallString.init_empty this
  | SMCStr p => q ← small_pointer None p; SmallString.construct_cstr allocates N this q
  | SMChars p n => q ← small_pointer None p; SmallString.construct_chars allocates N this q (Z.of_nat n)
  | SMFill n c => SmallString.construct_fill allocates N this (Z.of_nat n) c
  | SMArray a => n ← block_length (a, 0%nat); SmallString.construct_array allocates N this (a, 0%nat) (Z.of_nat n)
  end.

(** The new fields and those of the old object. *)
Definition run_small_renew (this other : nat) (ro : Rep) (k : small_renew) : Prog (Rep * Rep) :=
  match k with
  | SMove => SmallString.move_construct N this other ro
  | SCopy => r ← SmallString.copy_construct allocates N this other ro; mret (r, ro)
  | SSubstr pos count => r ← SmallString.substr allocates N this other ro (Z.of_nat pos) count; mret (r, ro)
  end.

Definition run_small_query (this : nat) (r : Rep) (q : small_query) : Prog value :=
  let some_pointer := small_some_pointer (Some (this, r)) in
  match q with
  | SQSize => ask_num (mret (get_size r))
  | SQCapacity => ask_num (mret (SmallString.get_capacity N r))
  | SQIsInline => ask_bool (mret (SmallString.is_inline r))
  | SQEmpty => ask_bool (mret (SmallString.empty r))
  | SQAt pos => ask_num (SmallString.at_ this r (Z.of_nat pos))
  | SQBack => ask_num (SmallString.back this r)
  | SQCStr => xs ← load_numbers (data_of_ this r) (S (Z.to_nat (get_size r))); mret (Chars xs)
  | SQCompareCStr p => s ← some_pointer p; ask_num (SmallString.compare_cstr this r s)
  | SQCompareChars p n => s ← some_pointer p; ask_num (SmallString.compare_chars this r s (Z.of_nat n))
  | SQEqualCStr p => s ← small_pointer (Some (this, r)) p; ask_bool (SmallString.equal_cstr this r s)
  | SQFindChar c pos => ask_num (SmallString.find_char this r c (Z.of_nat pos))
  | SQFind p pos => s ← small_pointer (Some (this, r)) p; ask_num (SmallString.find_cstr this r s (Z.of_nat pos))
  | SQFindLastOf c pos => ask_num (SmallString.find_last_of this r c (Z.of_nat pos))
  end.

Definition the_object (o : object) : Prog (nat * Rep) := lift (match o with Some x => Ok x | None => Undef end).

Definition run_small (op : small_op) (st : memory * object) : res ((memory * object) * option value) :=
  let o := st.2 in
  '(m, (o, v)) ← match op with
    | SMake k =>
        _ ← lift (match o with Some _ => Undef | None => Ok () end);
        this ← begin_object (Z.to_nat (N + 1)); r ← run_small_make this k; mret (Some (this, r), None)
    | SEdit e => '(this, r) ← the_object o; r ← run_small_edit this r e; mret (Some (this, r), None)
    | SRenew k =>
        '(other, ro) ← the_object o; this ← begin_object (Z.to_nat (N + 1));
        rs ← run_small_renew this other ro k; _ ← (_ ← SmallString.destruct_string rs.2; end_object other); mret (Some (this, rs.1), None)
    | SDestroy => '(this, r) ← the_object o; _ ← (_ ← SmallString.destruct_string r; end_object this); mret (None, None)
    | SAsk q => '(this, r) ← the_object o; v ← run_small_query this r q; mret (o, Some v)
    end st.1;
  Ok ((m, o), v).

(** ** Meaning *)

Abbreviation text := (list Z * Z)%type.

(** What can be read from a pointer on. *)
Definition small_chars_at (l : option (list Z)) (p : small_source) : option (list Z) :=
  match p with
  | SNull => None
  | SArr a off => zs ← lits !! a; guard_ (off <=? length zs)%nat (Some (drop off zs))
  | SSelf off => l ← l; guard_ (off <=? length l)%nat (Some (drop off (l ++ [0])))
  end.

(** A null-terminated text whose length 32 bits hold. *)
Definition small_cstr_at (l : option (list Z)) (p : small_source) : option (list Z) :=
  zs ← small_chars_at l p; let xs := until_zero zs in guard_ ((length xs <? length zs)%nat && (Z.of_nat (length xs) <? 2 ^ 32)) (Some xs).

Definition small_some_chars (l : option (list Z)) (p : small_source) (n : nat) : option (list Z) :=
  zs ← small_chars_at l p; guard_ ((n <=? length zs)%nat && (Z.of_nat n <? 2 ^ 32)) (Some (take n zs)).

(** A copy of [n] characters to position [at_] of a string that needs room for [need]: the source
    is not the string, or the string does not grow and the ranges are apart. *)
Definition copies (p : small_source) (n at_ : nat) (cap need : Z) : bool :=
  match p with SSelf off => (need <=? cap) && negb ((at_ <? off + n)%nat && (off <? at_ + n)%nat) | _ => true end.

Abbreviation len l := (Z.of_nat (length l)).
Abbreviation grown := SmallStringRep.grown.

Definition spec_small_edit (e : small_edit) (l : list Z) (cap : Z) : option text :=
  match e with
  | SClear => Some ([], cap)
  | SAssignChars SNull _ => Some ([], cap)
  | SAssignChars p n => xs ← small_some_chars (Some l) p n; guard_ (copies p n 0 cap (Z.of_nat n)) (Some (xs, grown cap (Z.of_nat n)))
  | SAssignCStr p => xs ← small_cstr_at (Some l) p; guard_ (copies p (length xs) 0 cap (len xs)) (Some (xs, grown cap (len xs)))
  | SReserve n => guard_ (Z.of_nat n <? 2 ^ 32) (Some (l, grown cap (Z.of_nat n)))
  | SResize n => guard_ (Z.of_nat n <? 2 ^ 32) (Some (take n l ++ replicate (n - length l) 0, grown cap (Z.of_nat n)))
  | SShrinkToFit => Some (l, Z.max N (len l))
  | SAppendChars p n =>
      xs ← small_some_chars (Some l) p n; guard_ (copies p n (length l) cap (len l + Z.of_nat n)) (Some (l ++ xs, grown cap (len l + Z.of_nat n)))
  | SAppendCStr p =>
      xs ← small_cstr_at (Some l) p; guard_ (copies p (length xs) (length l) cap (len l + len xs)) (Some (l ++ xs, grown cap (len l + len xs)))
  | SPushBack c => Some (l ++ [c], grown cap (len l + 1))
  | SInsert pos n c => guard_ ((pos <=? length l)%nat && (Z.of_nat n <? 2 ^ 32)) (Some (take pos l ++ replicate n c ++ drop pos l, grown cap (len l + Z.of_nat n)))
  | SErase pos count =>
      guard_ ((pos <=? length l)%nat && (0 <=? count)) (Some (take pos l ++ drop (pos + Z.to_nat (Z.min count (len l - Z.of_nat pos))) l, cap))
  | SRemoveSuffix n => guard_ (n <=? length l)%nat (Some (take (length l - n) l, cap))
  | SSetAt pos c => guard_ (pos <? length l)%nat (Some (<[pos := c]> l, cap))
  end.

Definition spec_small_make (k : small_make) : option text :=
  match k with
  | SMEmpty => Some ([], N)
  | SMCStr SNull => Some ([], N)
  | SMCStr p => xs ← small_cstr_at None p; Some (xs, grown N (len xs))
  | SMChars SNull _ => Some ([], N)
  | SMChars p n => xs ← small_some_chars None p n; Some (xs, grown N (len xs))
  | SMFill n c => guard_ (Z.of_nat n <? 2 ^ 32) (Some (replicate n c, grown N (Z.of_nat n)))
  | SMArray a =>
      zs ← lits !! a; let xs := until_zero (take (length zs - 1) zs) in
      guard_ (negb (length zs =? 0)%nat && (len zs <? 2 ^ 32)) (Some (xs, grown N (len xs)))
  end.

Definition spec_small_renew (k : small_renew) (l : list Z) (cap : Z) : option text :=
  match k with
  | SMove => Some (l, cap)
  | SCopy => Some (l, grown N (len l))
  | SSubstr pos count =>
      let xs := take (Z.to_nat (Z.min count (len l - Z.of_nat pos))) (drop pos l) in
      guard_ ((pos <=? length l)%nat && (0 <=? count)) (Some (xs, grown N (len xs)))
  end.

(** [pos + s_len] is a sum of 32 bits. *)
Definition spec_small_query (q : small_query) (l : list Z) (cap : Z) : option value :=
  match q with
  | SQSize => num (len l)
  | SQCapacity => num cap
  | SQIsInline => flag (cap =? N)
  | SQEmpty => flag (bool_decide (l = []))
  | SQAt pos => x ← l !! pos; num x
  | SQBack => guard_ (negb (length l =? 0)%nat) (x ← l !! (length l - 1)%nat; num x)
  | SQCStr => Some (Chars (l ++ [0]))
  | SQCompareCStr p => xs ← small_cstr_at (Some l) p; num (lex_compare l xs)
  | SQCompareChars p n => xs ← small_some_chars (Some l) p n; num (lex_compare l xs)
  | SQEqualCStr SNull => flag (bool_decide (l = []))
  | SQEqualCStr p => xs ← small_cstr_at (Some l) p; flag (bool_decide (l = xs))
  | SQFindChar c pos => num (index32 (first_at (char_test l (fun x => x =? c)) (length l - pos) pos))
  | SQFind SNull _ => num npos
  | SQFind p pos => xs ← small_cstr_at (Some l) p; guard_ (Z.of_nat pos + len xs <? 2 ^ 32) (num (index32 (first_at (occurs l xs) (S (length l) - pos) pos)))
  | SQFindLastOf c pos => num (index32 (last_before (char_test l (fun x => x =? c)) (Z.of_nat pos) (length l)))
  end.

Definition spec_small (op : small_op) (a : option text) : option (option text * option value) :=
  match op with
  | SMake k => match a with Some _ => None | None => b ← spec_small_make k; Some (Some b, None) end
  | SEdit e => '(l, cap) ← a; b ← spec_small_edit e l cap; Some (Some b, None)
  | SRenew k => '(l, cap) ← a; b ← spec_small_renew k l cap; Some (Some b, None)
  | SDestroy => _ ← a; Some (None, None)
  | SAsk q => '(l, cap) ← a; v ← spec_small_query q l cap; Some (a, Some v)
  end.

(** The allocator grants the buffer an operation that leaves [l'] may ask for. *)
Definition need_small_edit (e : small_edit) (l : list Z) (cap : Z) (l' : list Z) : Prop :=
  match e with
  | SShrinkToFit => N < len l < cap -> granted allocates (len l)
  | SReserve n => grants_growth allocates cap (Z.of_nat n)
  | _ => grants_growth allocates cap (len l')
  end.

Definition need_small (op : small_op) (a : option text) : Prop :=
  match op, a with
  | SMake k, _ => match spec_small_make k with Some (l', _) => grants_growth allocates N (len l') | None => True end
  | SEdit e, Some (l, cap) => match spec_small_edit e l cap with Some (l', _) => need_small_edit e l cap l' | None => True end
  | SRenew (SCopy as k), Some (l, cap) | SRenew (SSubstr _ _ as k), Some (l, cap) =>
      match spec_small_renew k l cap with Some (l', _) => grants_growth allocates N (len l') | None => True end
  | _, _ => True
  end.

(** ** The relation *)

(** The arrays are there, and every other block is accounted for. *)
Record accounted (m : memory) (own : nat -> Prop) : Prop := {
  ac_wf : mem_wf m;
  ac_literal a zs : lits !! a = Some zs -> blocks m !! a = Some (false, Byte <$> zs);
  ac_all b : is_Some (blocks m !! b) -> is_Some (lits !! b) \/ own b;
}.

Definition small_rel (st : memory * object) (a : option text) : Prop :=
  match st.2, a with
  | None, None => accounted st.1 (fun _ => False)
  | Some (this, r), Some (l, cap) => accounted st.1 (owns this r) /\ lits !! this = None /\ text_at N st.1 this r l /\ SmallString.get_capacity N r = cap
  | _, _ => False
  end.

Lemma literal_outside m own this r l a zs : accounted m own -> lits !! this = None -> text_at N m this r l -> lits !! a = Some zs -> ~ owns this r a.
Proof using Type.
  intros A Hthis (buf & [_ H] & _) Ha [->|Hd]; [by rewrite Hthis in Ha|]. destruct r as [|d n c]; [done|]. injection Hd as ->. destruct H as (_ & Ed & _).
  pose proof (eq_trans (eq_sym Ed) (ac_literal _ _ A _ _ Ha)). done.
Qed.

Lemma accounted_frame m m' this r r' (P : nat -> Prop) : accounted m (fun b => owns this r b \/ P b) -> frame this (lay r) (lay r') m m' ->
  (forall a zs, lits !! a = Some zs -> ~ owns this r a) -> accounted m' (fun b => owns this r' b \/ P b).
Proof using Type.
  intros [Hw Hl Ha] F Hn. split.
  - by apply (fr_wf _ _ _ _ _ F).
  - intros a zs Ez. pose proof (Hn a zs Ez) as Hna. pose proof (Hl a zs Ez) as Em. refine (eq_trans _ Em). apply (fr_same _ _ _ _ _ F); [intros ->; apply Hna; by left|intros E; apply Hna; by right|].
    intros E. destruct (fr_new _ _ _ _ _ F a E) as [E1|Hge]; [apply Hna; by right|]. specialize (Hw a ltac:(eauto)). lia.
  - intros b Hb. destruct (decide (owns this r' b)) as [|Hno]; [by right; left|]. destruct (decide (data_of (lay r) = Some b)) as [Ed|Ed].
    { destruct (fr_freed _ _ _ _ _ F b Ed) as [E|E]; [destruct Hno; by right|]. rewrite E in Hb. by destruct Hb. }
    rewrite (fr_same _ _ _ _ _ F) in Hb; [|intros ->; apply Hno; by left|done|intros E; apply Hno; by right].
    destruct (Ha b Hb) as [|[[->|]|]]; [by left|destruct Hno; by left|done|by right; right].
Qed.

Lemma accounted_weaken m (P Q : nat -> Prop) : (forall b, P b -> Q b) -> accounted m P -> accounted m Q.
Proof using Type. intros H [A B C]. split; [done|done|]. intros b Hb. destruct (C b Hb); [by left|right; by apply H]. Qed.

(** New storage. *)
Lemma open_small (m : memory) own : accounted m own ->
  exists m1, begin_object (Z.to_nat (N + 1)) m = Ok (m1, next_block m) /\ inline_storage N m1 (next_block m) /\ lits !! next_block m = None /\
    ~ is_Some (blocks m !! next_block m) /\ (forall b, is_Some (blocks m !! b) -> blocks m1 !! b = blocks m !! b) /\
    accounted m1 (fun b => owns (next_block m) (SmallRep 0) b \/ own b).
Proof using HN.
  intros [Hw Hl Ha]. set (a := next_block m). eexists. split; [done|]. set (m1 := mkMemory _ _).
  assert (Hfree : ~ is_Some (blocks m !! a)) by (intros Hs; specialize (Hw a Hs); unfold a in Hw; lia).
  assert (Hsame : forall b, is_Some (blocks m !! b) -> blocks m1 !! b = blocks m !! b) by (intros b Hb; apply lookup_insert_ne; intros <-; done).
  split; [eexists; split; [apply lookup_insert_eq|rewrite length_replicate; lia]|]. split; [|split; [done|split; [done|split]]].
  - destruct (lits !! a) as [zs|] eqn:E; [|done]. destruct Hfree. exists (false, Byte <$> zs). by apply Hl.
  - intros b Hb. destruct (decide (b = a)) as [->|Hne]; [cbn; unfold a; lia|]. unfold m1 in Hb. cbn in Hb. rewrite lookup_insert_ne in Hb by done. specialize (Hw b Hb). cbn. lia.
  - intros b zs Ez. refine (eq_trans (Hsame b _) (Hl _ _ Ez)). exists (false, Byte <$> zs). by apply Hl.
  - intros b Hb. destruct (decide (b = a)) as [->|Hne]; [right; left; by left|]. unfold m1 in Hb. cbn in Hb. rewrite lookup_insert_ne in Hb by done. destruct (Ha b Hb); [by left|by right; right].
Qed.

(** An edit of the one string. *)
Lemma small_rel_edit m this r l cap l' cap' q : small_rel (m, Some (this, r)) (Some (l, cap)) -> becomes N this r m l' cap' q -> small_rel (q.1, Some (this, q.2)) (Some (l', cap')).
Proof using Type.
  intros (A & Hthis & Ht & _) (H' & Hc' & F). cbn [fst snd] in *. split; [|by split].
  pose proof (accounted_frame m q.1 this r q.2 (fun _ => False)) as Hf. eapply accounted_weaken; [|apply Hf; [|done|]].
  - by intros b [|].
  - eapply accounted_weaken; [|exact A]. by left.
  - intros a zs. by eapply literal_outside.
Qed.

(** A construction in new storage beside the string. *)
Lemma small_rel_make (m1 : memory) this own l cap q : lits !! this = None -> accounted m1 (fun b => owns this (SmallRep 0) b \/ own b) -> becomes N this (SmallRep 0) m1 l cap q ->
  accounted q.1 (fun b => owns this q.2 b \/ own b).
Proof using Type.
  intros Hthis A (H' & Hc' & F). eapply accounted_frame; [exact A|done|]. intros a zs Ez [->|]; [by rewrite Hthis in Ez|done].
Qed.

(** ** Arguments *)

Lemma literal_readable m own a off zs : accounted m own -> lits !! a = Some zs -> (off <= length zs)%nat -> readable m (a, off) (drop off zs).
Proof using Type.
  intros A Ha Hoff. apply (readable_drop m (a, 0%nat)). right. exists false, (Byte <$> zs). split; [exact (ac_literal _ _ A _ _ Ha)|]. cbn [fst snd].
  rewrite length_fmap, drop_0, take_ge by (by rewrite length_fmap). done.
Qed.

Lemma guard_some {A} b (x : option A) y : guard_ b x = Some y -> b = true /\ x = Some y.
Proof using Type. by destruct b. Qed.

(** The arrays of the caller lie outside of the string. *)
Lemma literal_pointer m own o p zs : accounted m own -> small_chars_at None p = Some zs ->
  exists a off zs', p = SArr a off /\ lits !! a = Some zs' /\ small_pointer o p m = Ok (m, Some (a, off)) /\ readable m (a, off) zs.
Proof using Type.
  intros A. destruct p as [|a off|off]; [done| |done]. cbn [small_chars_at]. destruct (lits !! a) as [ys|] eqn:Ea; [|done]. intros [Hoff Ez]%guard_some. apply Nat.leb_le in Hoff.
  injection Ez as <-. exists a, off, ys. split; [done|]. split; [done|]. split; [done|]. by eapply literal_readable.
Qed.

Section Arguments.

Context {m : memory} {this : nat} {r : Rep} {l : list Z}.
Context (A : accounted m (owns this r)) (Hthis : lits !! this = None) (H : text_at N m this r l).

Lemma small_pointer_ok p zs : small_chars_at (Some l) p = Some zs ->
  exists q, small_pointer (Some (this, r)) p m = Ok (m, Some q) /\ readable m q zs /\
    match p with SNull => False | SArr a _ => ~ owns this r q.1 | SSelf off => q = (block_of this r, off) end.
Proof using A H Hthis.
  destruct p as [|a off|off]; [done| |].
  - intros Hp. destruct (literal_pointer m _ (Some (this, r)) (SArr a off) zs A Hp) as (b & k & ys & [= <- <-] & Ea & E & Hr). exists (a, off). split; [done|]. split; [done|].
    cbn [fst]. by eapply literal_outside.
  - cbn [small_chars_at]. intros [Hoff Ez]%guard_some. injection Ez as <-. eexists. split; [cbn; reflexivity|]. rewrite advance_data. split; [|done].
    pose proof (readable_drop m _ _ off (text_readable _ _ _ _ _ H)) as Hr. by rewrite data_block in Hr.
Qed.

Lemma source_of p xs n at_ need q zs : small_chars_at (Some l) p = Some zs -> small_pointer (Some (this, r)) p m = Ok (m, Some q) ->
  xs = take n zs -> length xs = n -> copies p n at_ (SmallString.get_capacity N r) need = true -> source_ok N m this r q xs at_ need.
Proof using A H Hthis.
  intros Hp Eq -> Hn Hc. destruct (small_pointer_ok p zs Hp) as (q' & E & Hr & Ha). rewrite E in Eq. injection Eq as ->. split; [by apply readable_prefix|]. right.
  destruct p as [|a off|off]; [done| |].
  - left. split; [intros E1; apply Ha; by left|intros Ed; apply Ha; by right].
  - right. subst q. cbn in Hc. apply andb_true_iff in Hc as [Hc Ho]. split; [by apply Z.leb_le|]. unfold overlap. cbn [fst snd]. rewrite Hn, Nat.eqb_refl. by apply negb_true_iff.
Qed.

(** A null-terminated argument. *)
Lemma cstr_pointer p xs : small_cstr_at (Some l) p = Some xs ->
  exists q zs, small_chars_at (Some l) p = Some zs /\ small_pointer (Some (this, r)) p m = Ok (m, Some q) /\ cstring_at m q xs /\ Z.of_nat (length xs) < 2 ^ 32 /\
    xs = take (length xs) zs.
Proof using A H Hthis.
  unfold small_cstr_at. destruct (small_chars_at (Some l) p) as [zs|] eqn:Ep; [|done]. cbn. intros [Hg Ex]%guard_some. injection Ex as <-. apply andb_true_iff in Hg as [H1 H2].
  apply Nat.ltb_lt in H1. apply Z.ltb_lt in H2. destruct (small_pointer_ok p zs Ep) as (q & E & Hr & _). exists q, zs. split; [done|]. split; [done|]. split; [by exists zs|]. split; [done|].
  symmetry. apply until_zero_take.
Qed.

Lemma chars_pointer p n xs : small_some_chars (Some l) p n = Some xs ->
  exists q zs, small_chars_at (Some l) p = Some zs /\ small_pointer (Some (this, r)) p m = Ok (m, Some q) /\ readable m q xs /\ Z.of_nat n < 2 ^ 32 /\ xs = take n zs /\ length xs = n.
Proof using A H Hthis.
  unfold small_some_chars. destruct (small_chars_at (Some l) p) as [zs|] eqn:Ep; [|done]. cbn. intros [Hg Ex]%guard_some. injection Ex as <-. apply andb_true_iff in Hg as [H1 H2].
  apply Nat.leb_le in H1. apply Z.ltb_lt in H2. destruct (small_pointer_ok p zs Ep) as (q & E & Hr & _). exists q, zs. split; [done|]. split; [done|]. split; [by apply readable_prefix|]. split; [done|].
  split; [done|]. rewrite length_take. lia.
Qed.

(** ** Edits *)

Abbreviation capacity := (SmallString.get_capacity N).

Lemma small_edit_ok (R : Prop) e l' cap' : spec_small_edit e l (capacity r) = Some (l', cap') -> (R -> need_small_edit e l (capacity r) l') ->
  wp R (run_small_edit this r e m) (becomes N this r m l' cap').
Proof using A H Hthis HN.
  pose proof (ac_wf _ _ A) as Hw. pose proof (text_cap N HN _ _ _ _ H) as (Hl & _ & Hcap).
  destruct e as [|p n|p|n|n| |p n|p|c|pos n c|pos count|n|pos c]; cbn [spec_small_edit run_small_edit need_small_edit].
  - intros [= <- <-] HR. by eapply small_clear_ok.
  - destruct (decide (p = SNull)) as [->|Hp].
    { intros [= <- <-] HR. eapply wp_step; [done|]. by eapply small_clear_ok. }
    intros Hs HR. assert (Hs' : (xs ← small_some_chars (Some l) p n; guard_ (copies p n 0 (capacity r) (Z.of_nat n)) (Some (xs, grown (capacity r) (Z.of_nat n)))) = Some (l', cap')) by (by destruct p).
    destruct (small_some_chars (Some l) p n) as [xs|] eqn:Ex; [|done]. cbn in Hs'. apply guard_some in Hs' as [Hc [= <- <-]].
    destruct (chars_pointer _ _ _ Ex) as (q & zs & Ez & Eq & _ & _ & Et & En). eapply wp_step; [exact Eq|]. rewrite <- En in *.
    eapply small_assign_ok; [done|done|done| |done]. exact (source_of p xs (length xs) 0 _ q zs Ez Eq Et eq_refl Hc).
  - destruct (small_cstr_at (Some l) p) as [xs|] eqn:Ex; [|done]. cbn. intros [Hc [= <- <-]]%guard_some HR.
    destruct (cstr_pointer _ _ Ex) as (q & zs & Ez & Eq & Hs & Hf & Et). unfold small_some_pointer. apply wp_assoc. eapply wp_step; [exact Eq|]. eapply wp_step; [done|].
    unfold SmallString.assign_cstr. eapply wp_step; [apply (cstring_count _ _ _ Hs); change kNoLimit with (2 ^ 64 - 1); lia|]. rewrite wrap_small by (unfold fits; lia).
    eapply small_assign_ok; [done|done|done| |done]. exact (source_of p xs (length xs) 0 _ q zs Ez Eq Et eq_refl Hc).
  - intros [Hn [= <- <-]]%guard_some HR. apply small_reserve_ok; [done|done|done|lia|done].
  - intros [Hn [= <- <-]]%guard_some HR. apply Z.ltb_lt in Hn. apply small_resize_ok; [done|done|done|]. intros x Hlt. specialize (HR x). revert HR.
    rewrite length_app, length_take, length_replicate. replace (n `min` length l + (n - length l))%nat with n by lia. intros HR. by apply HR.
  - intros [= <- <-] HR. by apply small_shrink_to_fit_ok.
  - destruct (small_some_chars (Some l) p n) as [xs|] eqn:Ex; [|done]. cbn. intros [Hc [= <- <-]]%guard_some HR.
    destruct (chars_pointer _ _ _ Ex) as (q & zs & Ez & Eq & _ & Hf & Et & En). unfold small_some_pointer. apply wp_assoc. eapply wp_step; [exact Eq|]. eapply wp_step; [done|]. rewrite <- En in *.
    rewrite length_app, Nat2Z.inj_add in HR. eapply small_append_ok; [done|done|done| |done|done]. exact (source_of p xs (length xs) (length l) _ q zs Ez Eq Et eq_refl Hc).
  - destruct (small_cstr_at (Some l) p) as [xs|] eqn:Ex; [|done]. cbn. intros [Hc [= <- <-]]%guard_some HR. rewrite length_app, Nat2Z.inj_add in HR.
    destruct (cstr_pointer _ _ Ex) as (q & zs & Ez & Eq & Hs & Hf & Et). unfold small_some_pointer. apply wp_assoc. eapply wp_step; [exact Eq|]. eapply wp_step; [done|].
    unfold SmallString.append_cstr. eapply wp_step; [apply (cstring_count _ _ _ Hs); change kNoLimit with (2 ^ 64 - 1); lia|].
    unfold lift, fatal_check. destruct (Z.leb_spec (len xs) kMaxCapacity) as [Hle|Hgt].
    + eapply wp_step; [done|]. rewrite wrap_small by (unfold fits; lia). eapply small_append_ok; [done|done|done| |done|done].
      exact (source_of p xs (length xs) (length l) _ q zs Ez Eq Et eq_refl Hc).
    + cbn. intros x. pose proof (granted_bound allocates _ _ R Hcap HR x). lia.
  - intros [= <- <-] HR. rewrite length_app, Nat2Z.inj_add in HR. by apply small_push_back_ok.
  - intros [Hg [= <- <-]]%guard_some HR. apply andb_true_iff in Hg as [Hp Hn]. apply Nat.leb_le in Hp. apply Z.ltb_lt in Hn.
    apply small_insert_ok; [done|done|done|done|done|]. intros x. specialize (HR x). revert HR. rewrite !length_app, length_take, length_replicate, length_drop.
    replace (Z.of_nat (pos `min` length l + (n + (length l - pos)))) with (len l + Z.of_nat n) by lia. done.
  - intros [Hg [= <- <-]]%guard_some HR. apply andb_true_iff in Hg as [Hp Hc]. apply Nat.leb_le in Hp. apply Z.leb_le in Hc. by apply small_erase_ok.
  - intros [Hg [= <- <-]]%guard_some HR. apply Nat.leb_le in Hg. by apply small_remove_suffix_ok.
  - intros [Hg [= <- <-]]%guard_some HR. apply Nat.ltb_lt in Hg. by apply small_set_at_ok.
Qed.

(** ** Queries *)

Lemma small_some_pointer_ok p q : small_pointer (Some (this, r)) p m = Ok (m, Some q) -> small_some_pointer (Some (this, r)) p m = Ok (m, q).
Proof using Type. intros E. unfold small_some_pointer. by rewrite (prog_bind _ _ _ _ _ E). Qed.

Lemma small_ask_num_ok (p : Prog Z) z : p m = Ok (m, z) -> ask_num p m = Ok (m, Num z).
Proof using Type. intros E. unfold ask_num. by rewrite (prog_bind _ _ _ _ _ E). Qed.

Lemma small_ask_bool_ok (p : Prog bool) b : p m = Ok (m, b) -> ask_bool p m = Ok (m, Bool b).
Proof using Type. intros E. unfold ask_bool. by rewrite (prog_bind _ _ _ _ _ E). Qed.

Lemma small_query_ok q v : spec_small_query q l (capacity r) = Some v -> run_small_query this r q m = Ok (m, v).
Proof using A H Hthis HN.
  destruct q as [| | | |pos| | |p|p n|p|c pos|p pos|c pos]; cbn [spec_small_query run_small_query].
  - intros [= <-]. apply small_ask_num_ok. by rewrite (text_size _ _ _ _ _ H).
  - intros [= <-]. by apply small_ask_num_ok.
  - intros [= <-]. apply small_ask_bool_ok. by rewrite (small_inline N HN H).
  - intros [= <-]. apply small_ask_bool_ok. unfold SmallString.empty. by rewrite (text_size _ _ _ _ _ H), size_zero.
  - destruct (l !! pos) as [x|] eqn:Ex; [|done]. intros [= <-]. apply small_ask_num_ok. by apply (small_at_ok N H).
  - intros [_ Hv]%guard_some. destruct (l !! (length l - 1)%nat) as [x|] eqn:Ex; [|done]. injection Hv as <-. apply small_ask_num_ok. by apply (small_back_ok N H).
  - intros [= <-]. rewrite (text_size _ _ _ _ _ H), Nat2Z.id. by rewrite (prog_bind _ _ _ _ _ (small_text_ok N H)).
  - destruct (small_cstr_at (Some l) p) as [xs|] eqn:Ex; [|done]. intros [= <-]. destruct (cstr_pointer _ _ Ex) as (s & zs & _ & Es & Hs & Hf & _).
    rewrite (prog_bind _ _ _ _ _ (small_some_pointer_ok _ _ Es)). apply small_ask_num_ok. unfold SmallString.compare_cstr.
    rewrite (prog_bind _ _ _ _ _ (cstring_count _ _ _ Hs ltac:(change kNoLimit with (2 ^ 64 - 1); lia))), wrap_small by (unfold fits; lia).
    apply (small_compare_chars_ok N H). by apply cstring_readable.
  - destruct (small_some_chars (Some l) p n) as [xs|] eqn:Ex; [|done]. intros [= <-]. destruct (chars_pointer _ _ _ Ex) as (s & zs & _ & Es & Hs & Hf & _ & En).
    rewrite (prog_bind _ _ _ _ _ (small_some_pointer_ok _ _ Es)). apply small_ask_num_ok. rewrite <- En. by apply (small_compare_chars_ok N H).
  - destruct (decide (p = SNull)) as [->|Hp].
    { intros [= <-]. change (ask_bool (SmallString.equal_cstr this r None) m = Ok (m, Bool (bool_decide (l = [])))). apply small_ask_bool_ok. unfold SmallString.equal_cstr, SmallString.empty. by rewrite (text_size _ _ _ _ _ H), size_zero. }
    intros Hs0. assert (Hs : (xs ← small_cstr_at (Some l) p; flag (bool_decide (l = xs))) = Some v) by (by destruct p). clear Hs0.
    destruct (small_cstr_at (Some l) p) as [xs|] eqn:Ex; [|done]. injection Hs as <-. destruct (cstr_pointer _ _ Ex) as (s & zs & _ & Es & Hs & Hf & _).
    rewrite (prog_bind _ _ _ _ _ Es). apply small_ask_bool_ok. apply (small_equal_cstr_ok N H); [done|]. change kNoLimit with (2 ^ 64 - 1). lia.
  - intros [= <-]. apply small_ask_num_ok. by apply (small_find_char_ok N H).
  - destruct (decide (p = SNull)) as [->|Hp]; [intros [= <-]; done|].
    intros Hs0. assert (Hs : (xs ← small_cstr_at (Some l) p; guard_ (Z.of_nat pos + len xs <? 2 ^ 32) (num (index32 (first_at (occurs l xs) (S (length l) - pos) pos)))) = Some v) by (by destruct p). clear Hs0.
    destruct (small_cstr_at (Some l) p) as [xs|] eqn:Ex; [|done]. apply guard_some in Hs as [Hg [= <-]]. apply Z.ltb_lt in Hg. destruct (cstr_pointer _ _ Ex) as (s & zs & _ & Es & Hs & Hf & _).
    rewrite (prog_bind _ _ _ _ _ Es). apply small_ask_num_ok. by apply (small_find_cstr_ok N HN H).
  - intros [= <-]. apply small_ask_num_ok. by apply (small_find_last_of_ok N HN H).
Qed.

End Arguments.

(** ** Constructions *)

Lemma small_make_ok (R : Prop) (m1 : memory) this k own l' cap' : accounted m1 (fun b => owns this (SmallRep 0) b \/ own b) -> lits !! this = None -> inline_storage N m1 this ->
  spec_small_make k = Some (l', cap') -> (R -> grants_growth allocates N (Z.of_nat (length l'))) -> wp R (run_small_make this k m1) (becomes N this (SmallRep 0) m1 l' cap').
Proof using HN.
  intros A Hthis Hs Hk HR. pose proof (ac_wf _ _ A) as Hw.
  assert (Hout : forall a zs, lits !! a = Some zs -> a <> this) by (intros a zs E ->; by rewrite Hthis in E).
  assert (Hempty : wp R (SmallString.init_empty this m1) (becomes N this (SmallRep 0) m1 [] N)).
  { destruct (small_init_ok N HN m1 this Hs) as (m2 & E & H & F). eapply prog_wp_done; [exact E|]. by split. }
  destruct k as [|p|p n|n c|a]; cbn [spec_small_make run_small_make] in *.
  - by injection Hk as <- <-.
  - destruct (decide (p = SNull)) as [->|Hp].
    { injection Hk as <- <-. eapply wp_step; [done|]. unfold SmallString.construct_cstr. refine (prog_wp_bind _ _ _ _ _ (fun m2 r2 => becomes N this (SmallRep 0) m1 [] N (m2, r2)) _ _); [eapply wp_mono; [exact Hempty|by intros [? ?]]|]. done. }
    assert (Hk' : (xs ← small_cstr_at None p; Some (xs, grown N (len xs))) = Some (l', cap')) by (by destruct p). clear Hk. unfold small_cstr_at in Hk'.
    destruct (small_chars_at None p) as [zs|] eqn:Ez; [|done]. cbn in Hk'. destruct (guard_ _ (Some (until_zero zs))) as [xs|] eqn:Eg; [|done]. cbn in Hk'. injection Hk' as <- <-.
    apply guard_some in Eg as [Hg [= <-]]. apply andb_true_iff in Hg as [H1 H2]. apply Nat.ltb_lt in H1. apply Z.ltb_lt in H2.
    destruct (literal_pointer m1 _ None p zs A Ez) as (a & off & ys & -> & Ea & Eq & Hr). eapply wp_step; [exact Eq|]. unfold SmallString.construct_cstr.
    apply small_wp_init; [done|done|done|]. intros m2 Hw2 Ht2 F2. unfold SmallString.assign_cstr.
    assert (Hr2 : readable m2 (a, off) zs) by (eapply readable_same; [intros _; apply (fr_same _ _ _ _ _ F2); [by eapply Hout|done|done]|done]).
    eapply wp_step; [apply (cstring_count m2 (a, off) (until_zero zs)); [by exists zs|change kNoLimit with (2 ^ 64 - 1); lia]|]. rewrite wrap_small by (unfold fits; lia).
    apply (small_assign_ok allocates N HN R m2 this (SmallRep 0) []); [done|done| |done]. apply (outside_source N m1); [|by eapply Hout|done].
    rewrite <- until_zero_take. by apply readable_prefix.
  - destruct (decide (p = SNull)) as [->|Hp].
    { injection Hk as <- <-. eapply wp_step; [done|]. unfold SmallString.construct_chars. apply small_wp_init; [done|done|done|]. intros m2 Hw2 Ht2 F2. by apply (small_clear_ok N HN R m2 this (SmallRep 0) []). }
    assert (Hk' : (xs ← small_some_chars None p n; Some (xs, grown N (len xs))) = Some (l', cap')) by (by destruct p). clear Hk. unfold small_some_chars in Hk'.
    destruct (small_chars_at None p) as [zs|] eqn:Ez; [|done]. cbn in Hk'. destruct (guard_ _ (Some (take n zs))) as [xs|] eqn:Eg; [|done]. cbn in Hk'. injection Hk' as <- <-.
    apply guard_some in Eg as [Hg [= <-]]. apply andb_true_iff in Hg as [H1 H2]. apply Nat.leb_le in H1.
    destruct (literal_pointer m1 _ None p zs A Ez) as (a & off & ys & -> & Ea & Eq & Hr). eapply wp_step; [exact Eq|].
    assert (En : length (take n zs) = n) by (rewrite length_take; lia). rewrite <- En at 1. apply small_construct_chars_ok; [done|done|done|by apply readable_prefix|by eapply Hout|done].
  - apply guard_some in Hk as [_ [= <- <-]]. rewrite length_replicate in HR. by apply small_construct_fill_ok.
  - destruct (lits !! a) as [zs|] eqn:Ea; [|done]. cbn in Hk. apply guard_some in Hk as [Hg [= <- <-]]. apply andb_true_iff in Hg as [H1 H2]. apply Z.ltb_lt in H2.
    destruct zs as [|z zs]; [done|]. cbn [length] in *. rewrite Nat.sub_succ, Nat.sub_0_r in *. pose proof (literal_readable m1 _ a 0 (z :: zs) A Ea ltac:(cbn; lia)) as Hr.
    eapply wp_step with (m' := m1) (a := length (z :: zs)). { unfold block_length. cbn [fst]. rewrite (ac_literal _ _ A _ _ Ea). by rewrite length_fmap. }
    apply (small_construct_array_ok allocates N HN R m1 this (a, 0%nat) z zs); [done|done|done|by eapply Hout|done|done].
Qed.

(** ** A new object for an old one *)

Lemma destroyed (m : memory) (P : nat -> Prop) other ro lo : accounted m (fun b => P b \/ owns other ro b) -> text_at N m other ro lo -> (forall a zs, lits !! a = Some zs -> ~ owns other ro a) ->
  exists m', (_ ← SmallString.destruct_string ro; end_object other) m = Ok (m', ()) /\ accounted m' P /\ forall b, ~ owns other ro b -> blocks m' !! b = blocks m !! b.
Proof using HN.
  intros [Hw Hl Ha] H Hn. destruct (small_destroy_ok N HN m other ro lo Hw H) as (m' & E & En & Hb). exists m'. split; [done|].
  assert (Hs : forall b, ~ owns other ro b -> blocks m' !! b = blocks m !! b) by (intros b Hno; by rewrite Hb, decide_False).
  assert (Hi : forall b, is_Some (blocks m' !! b) -> is_Some (blocks m !! b) /\ ~ owns other ro b).
  { intros b. rewrite Hb. destruct (decide (owns other ro b)); [by intros [? ?]|done]. }
  split; [split|done].
  - intros b [Hx _]%Hi. rewrite En. by apply Hw.
  - intros a zs Ea. refine (eq_trans (Hs a _) (Hl a zs Ea)). by eapply Hn.
  - intros b [Hx Hno]%Hi. destruct (Ha b Hx) as [|[|]]; [by left|by right|done].
Qed.

Lemma renew_end (m2 : memory) this r2 l2 other ro lo : accounted m2 (fun b => owns this r2 b \/ owns other ro b) -> lits !! this = None ->
  text_at N m2 this r2 l2 -> text_at N m2 other ro lo -> (forall b, owns this r2 b -> ~ owns other ro b) -> (forall a zs, lits !! a = Some zs -> ~ owns other ro a) ->
  exists m3, (_ ← SmallString.destruct_string ro; end_object other) m2 = Ok (m3, ()) /\ small_rel (m3, Some (this, r2)) (Some (l2, SmallString.get_capacity N r2)).
Proof using HN.
  intros A Hthis H2 Ho Hd Hn. destruct (destroyed m2 _ other ro lo A Ho Hn) as (m3 & E & A3 & Hs). exists m3. split; [done|]. split; [done|]. split; [done|]. split; [|done].
  eapply text_kept; [|exact H2]. intros b Hb. by apply Hs, Hd.
Qed.

Lemma small_renew_ok (R : Prop) m other ro l k l' cap' : accounted m (owns other ro) -> lits !! other = None -> text_at N m other ro l ->
  spec_small_renew k l (SmallString.get_capacity N ro) = Some (l', cap') -> (R -> match k with SMove => True | _ => grants_growth allocates N (Z.of_nat (length l')) end) ->
  wp R ((this ← begin_object (Z.to_nat (N + 1)); rs ← run_small_renew this other ro k; _ ← (_ ← SmallString.destruct_string rs.2; end_object other); mret (Some (this, rs.1), None : option value)) m)
    (fun q => small_rel (q.1, q.2.1) (Some (l', cap')) /\ q.2.2 = None).
Proof using HN.
  intros A Hother H Hk HR. destruct (open_small m _ A) as (m1 & E1 & Hs1 & Hthis & Hfree & Hsame & A1). set (this := next_block m) in *. eapply wp_step; [exact E1|].
  assert (Ho1 : text_at N m1 other ro l) by (eapply text_kept; [|exact H]; intros b Hb; apply Hsame; by eapply text_block).
  assert (Hno : ~ owns other ro this) by (intros Hb; apply Hfree; by eapply text_block).
  assert (Hlit : forall a zs, lits !! a = Some zs -> ~ owns other ro a) by (intros a zs; by eapply literal_outside). pose proof (ac_wf _ _ A1) as Hw1.
  assert (Hcopy : forall p xs, readable m1 p xs -> p.1 <> this -> (R -> grants_growth allocates N (Z.of_nat (length xs))) ->
    wp R ((r ← SmallString.construct_chars allocates N this (Some p) (Z.of_nat (length xs)); rs ← mret (r, ro); _ ← (_ ← SmallString.destruct_string rs.2; end_object other); mret (Some (this, rs.1), None : option value)) m1)
      (fun q => small_rel (q.1, q.2.1) (Some (xs, grown N (Z.of_nat (length xs)))) /\ q.2.2 = None)).
  { intros p xs Hr Hp Hg. refine (prog_wp_bind _ _ _ _ _ (fun m2 r2 => becomes N this (SmallRep 0) m1 xs (grown N (Z.of_nat (length xs))) (m2, r2)) _ _).
    { eapply wp_mono; [by apply small_construct_chars_ok|by intros [? ?]]. }
    intros m2 r2 Hb. pose proof (small_rel_make m1 this _ xs _ (m2, r2) Hthis A1 Hb) as A2. destruct Hb as (H2 & Hc2 & F2). cbn [fst snd] in *. eapply wp_step; [done|].
    assert (Ho2 : text_at N m2 other ro l) by (eapply (text_other N m1 m2 other ro l this); [done|done|exact F2|done|done]).
    destruct (renew_end m2 this r2 xs other ro l A2 Hthis H2 Ho2) as (m3 & E3 & Hr3); [|done|].
    - intros b [->|Eb]; [done|]. destruct (fr_new _ _ _ _ _ F2 b Eb) as [|Hge]; [done|]. intros Hb. specialize (Hw1 b (text_block _ _ _ _ _ _ Ho1 Hb)). lia.
    - eapply wp_step; [exact E3|]. cbn. by rewrite <- Hc2. }
  destruct k as [| |pos count]; cbn [spec_small_renew run_small_renew] in *.
  - injection Hk as <- <-. destruct (small_move_construct_ok N HN m1 this other ro l Hw1 Hs1 Ho1 Hno) as (m2 & r2 & E2 & H2 & Hc2 & Hd2 & Ho2 & N2 & Hs2). eapply wp_step; [exact E2|]. cbn [fst snd].
    destruct (renew_end m2 this r2 l other (SmallRep 0) []) as (m3 & E3 & Hr3); [|done|done|done| | |].
    + destruct A1 as [_ Hl1 Ha1]. assert (Hin : forall b, is_Some (blocks m2 !! b) -> is_Some (blocks m1 !! b)).
      { intros b Hb. destruct (decide (b = this)) as [->|H3]; [destruct Hs1 as (c & Ec & _); exists (false, c); exact Ec|]. destruct (decide (b = other)) as [->|H4]; [by eapply text_block; [|left]|]. by rewrite Hs2 in Hb. }
      split.
      * intros b Hb. rewrite N2. by apply Hw1, Hin.
      * intros a zs Ea. refine (eq_trans (Hs2 a _ _) (Hl1 a zs Ea)); [intros ->; by rewrite Hthis in Ea|intros ->; by rewrite Hother in Ea].
      * intros b Hb. destruct (Ha1 b (Hin b Hb)) as [|[[->|]|[->|Eb]]]; [by left|by right; left; left|done|by right; right; left|]. right. left. right. by rewrite Hd2.
    + intros b Hb [->|]; [|done]. destruct Hb as [->|Eb]; [apply Hno; by left|]. rewrite Hd2 in Eb. by apply (text_apart _ _ _ _ _ H).
    + intros a zs Ea [->|]; [by rewrite Hother in Ea|done].
    + eapply wp_step; [exact E3|]. cbn. by rewrite <- Hc2.
  - injection Hk as <- <-. unfold SmallString.copy_construct. rewrite (text_size _ _ _ _ _ H). apply wp_assoc. apply Hcopy; [by eapply text_whole| |done]. rewrite data_block. cbn [fst]. intros E. apply Hno. rewrite <- E. apply block_owned.
  - apply guard_some in Hk as [Hg [= <- <-]]. apply andb_true_iff in Hg as [Hp Hc]. apply Nat.leb_le in Hp. apply Z.leb_le in Hc. unfold SmallString.substr. cbv zeta. rewrite (text_size _ _ _ _ _ H).
    unfold bug_check, dcheck. rewrite (proj2 (Z.leb_le _ _)) by lia. set (n := Z.to_nat (Z.min count (Z.of_nat (length l) - Z.of_nat pos))) in *. set (xs := take n (drop pos l)) in *.
    assert (En : length xs = n) by (unfold xs; rewrite length_take, length_drop; lia).
    replace (Z.min count (Z.of_nat (length l) - Z.of_nat pos)) with (Z.of_nat (length xs)) by lia. apply wp_assoc. apply wp_assoc. refine (wp_step _ _ _ m1 m1 () _ eq_refl _).
    rewrite advance_data. apply Hcopy; [eapply text_part; [exact Ho1|lia]| |done]. cbn [fst]. intros E. apply Hno. rewrite <- E. apply block_owned.
Qed.

(** ** Whole programs *)

Lemma small_wp_result (R : Prop) (p : Prog (object * option value)) m a v : wp R (p m) (fun q => small_rel (q.1, q.2.1) a /\ q.2.2 = v) ->
  wp R ('(m, (o, v)) ← p m; Ok ((m, o), v)) (fun q => small_rel q.1 a /\ q.2 = v).
Proof using Type. destruct (p m) as [[m1 [o w]]| |]; done. Qed.

#[export] Instance small_refines : Refines run_small spec_small need_small small_rel.
Proof using HN.
  intros R op [m o] a a' v Hrel Hspec HR. unfold run_small. cbn [fst snd]. apply small_wp_result.
  destruct op as [k|e|k| |q]; cbn [spec_small need_small] in Hspec, HR.
  - destruct a as [|]; [done|]. destruct o as [[? ?]|]; [done|]. unfold small_rel in Hrel. cbn [fst snd] in Hrel. destruct (spec_small_make k) as [[l cap]|] eqn:Ek; [|done]. cbn in Hspec. injection Hspec as <- <-.
    destruct (open_small m _ Hrel) as (m1 & E1 & Hs1 & Hthis & _ & _ & A1). eapply wp_step; [done|]. eapply wp_step; [exact E1|].
    refine (prog_wp_bind _ _ _ _ _ (fun m2 r2 => becomes N (next_block m) (SmallRep 0) m1 l cap (m2, r2)) _ _).
    { eapply wp_mono; [exact (small_make_ok R m1 (next_block m) k (fun _ => False) l cap A1 Hthis Hs1 Ek HR)|by intros [? ?]]. }
    intros m2 r2 Hb. pose proof (small_rel_make m1 _ _ l cap (m2, r2) Hthis A1 Hb) as A2. destruct Hb as (H2 & Hc & _). eapply prog_wp_done; [done|]. cbn [fst snd] in *. split; [|done].
    split; [|by split]. cbn [fst snd]. eapply accounted_weaken; [|exact A2]. by intros b [|].
  - destruct a as [[l cap]|]; [|done]. destruct o as [[this r]|]; [|done]. cbn in Hspec, HR. destruct (spec_small_edit e l cap) as [[l' cap']|] eqn:Ee; [|done]. injection Hspec as <- <-.
    pose proof Hrel as (A & Hthis & Ht & Hc). cbn [fst snd] in *. rewrite <- Hc in Ee, HR. eapply wp_step; [done|].
    refine (prog_wp_bind _ _ _ _ _ (fun m2 r2 => becomes N this r m l' cap' (m2, r2)) _ _).
    { eapply wp_mono; [exact (small_edit_ok A Hthis Ht R e l' cap' Ee HR)|by intros [? ?]]. }
    intros m2 r2 Hb. eapply prog_wp_done; [done|]. split; [|done]. exact (small_rel_edit m this r l cap l' cap' (m2, r2) Hrel Hb).
  - destruct a as [[l cap]|]; [|done]. destruct o as [[other ro]|]; [|done]. cbn in Hspec. destruct (spec_small_renew k l cap) as [[l' cap']|] eqn:Ek; [|done]. injection Hspec as <- <-.
    pose proof Hrel as (A & Hother & Ht & Hc). cbn [fst snd] in *. rewrite <- Hc in Ek. eapply wp_step; [done|]. apply (small_renew_ok R m other ro l k l' cap' A Hother Ht Ek).
    intros x. specialize (HR x). by destruct k.
  - destruct a as [[l cap]|]; [|done]. destruct o as [[this r]|]; [|done]. cbn in Hspec. injection Hspec as <- <-. pose proof Hrel as (A & Hthis & Ht & Hc). cbn [fst snd] in *. eapply wp_step; [done|].
    assert (A' : accounted m (fun b => False \/ owns this r b)) by (eapply accounted_weaken; [|exact A]; by right).
    destruct (destroyed m _ this r l A' Ht) as (m' & E & A2 & _); [intros a zs; by eapply literal_outside|]. eapply wp_step; [exact E|]. eapply prog_wp_done; [done|]. by split.
  - destruct a as [[l cap]|]; [|done]. destruct o as [[this r]|]; [|done]. cbn in Hspec. pose proof Hrel as (A & Hthis & Ht & Hc). cbn [fst snd] in *. rewrite <- Hc in Hspec.
    destruct (spec_small_query q l (SmallString.get_capacity N r)) as [w|] eqn:Eq; [|done]. injection Hspec as <- <-. eapply wp_step; [done|].
    eapply wp_step; [exact (small_query_ok A Hthis Ht q w Eq)|]. eapply prog_wp_done; [done|]. split; [|done]. split; [done|]. by split.
Qed.

(** C37. A program over a small string: constructions from null-terminated texts, ranges, fills
    and arrays, edits, reads, copies, moves, substrings and the destruction.  When the contract
    accepts it, the code breaks no rule of memory; if it returns, string, capacity and answers
    are those of the contract, and no buffer is left over; and with the buffers granted it
    returns. *)
Theorem SmallString_programs os st a a' outs : small_rel st a -> spec_ops spec_small os a = Some (a', outs) ->
  run_ops run_small os st <> Undef /\
  (forall st' outs', run_ops run_small os st = Ok (st', outs') -> small_rel st' a' /\ outs' = outs) /\
  (needs spec_small need_small os a -> exists st', run_ops run_small os st = Ok (st', outs) /\ small_rel st' a').
Proof using HN. intros H Hs. by apply (programs_refine run_small spec_small need_small small_rel). Qed.

End SmallPrograms.

(** "ab", grown past three inline characters, an insertion, a move, a search, the end. *)
Definition small_program : list small_op :=
  [SMake (SMCStr (SArr 0 0)); SEdit (SAppendChars (SArr 0 0) 2); SEdit (SInsert 1 1 120); SRenew SMove; SAsk SQCapacity; SAsk (SQFind (SArr 0 1) 2); SAsk SQCStr; SDestroy].

Definition small_lits : gmap nat (list Z) := {[0%nat := [97; 98; 0]]}.
Definition small_start : memory := mkMemory {[0%nat := (false, Byte <$> [97; 98; 0])]} 1.

Lemma small_start_related : small_rel 3 small_lits (small_start, None) None.
Proof.
  assert (Hb : forall b, is_Some (blocks small_start !! b) -> b = 0%nat) by (intros b [x Hb]; unfold small_start in Hb; cbn [blocks] in Hb; apply lookup_singleton_Some in Hb as [? _]; done).
  split.
  - intros b ->%Hb. cbn. lia.
  - intros a zs Ha. unfold small_lits in Ha. apply lookup_singleton_Some in Ha as [<- <-]. reflexivity.
  - intros b ->%Hb. left. by eexists.
Qed.

Lemma SmallString_programs_witness :
  let prog := run_ops (run_small (fun _ => true) 3) small_program (small_start, None) in
  prog <> Undef /\
  (forall st' outs', prog = Ok (st', outs') ->
     small_rel 3 small_lits st' None /\ outs' = [None; None; None; None; Some (Num 6); Some (Num 2); Some (Chars [97; 120; 98; 97; 98; 0]); None]) /\
  (True -> exists st', prog = Ok (st', [None; None; None; None; Some (Num 6); Some (Num 2); Some (Chars [97; 120; 98; 97; 98; 0]); None]) /\ small_rel 3 small_lits st' None).
Proof.
  destruct (SmallString_programs (fun _ => true) 3 ltac:(unfold kMaxCapacity, SmallString.kMaxCapacity; lia) small_lits small_program (small_start, None) None None
    [None; None; None; None; Some (Num 6); Some (Num 2); Some (Chars [97; 120; 98; 97; 98; 0]); None]) as (H1 & H2 & H3).
  - exact small_start_related.
  - vm_compute. reflexivity.
  - split; [exact H1|]. split; [exact H2|]. intros _. apply H3. repeat split; vm_compute; (done || (intros; split; [discriminate|reflexivity])).
Defined.

(** ** Where the contract stops *)

(** A source in the string does not survive the growth: [append(data(), 2)] of a full string
    reads the inline characters after the fields of the large string lie over them, or the
    buffer after it was freed. *)
Example append_own_inline_text :
  run_ops (run_small (fun _ => true) 3) [SMake (SMChars (SArr 0 0) 2); SEdit (SAppendChars (SSelf 0) 2); SAsk SQCStr] (small_start, None) = Undef.
Proof. vm_compute. reflexivity. Qed.

Example append_own_heap_text :
  run_ops (run_small (fun _ => true) 1) [SMake (SMFill 3 97); SEdit (SAppendChars (SSelf 0) 3)] (small_start, None) = Undef.
Proof. vm_compute. reflexivity. Qed.

(** Without growth it is fine. *)
Example append_own_text_fits : exists m,
  run_ops (run_small (fun _ => true) 5) [SMake (SMChars (SArr 0 0) 2); SEdit (SAppendChars (SSelf 0) 2); SAsk SQCStr; SDestroy] (small_start, None) =
    Ok ((m, None), [None; None; Some (Chars [97; 98; 97; 98; 0]); None]).
Proof. eexists. vm_compute. reflexivity. Qed.

(** [assign] of the string's own overlapping tail copies overlapping ranges with [MemCopy]. *)
Example assign_own_tail_overlaps :
  run_ops (run_small (fun _ => true) 5) [SMake (SMFill 4 97); SEdit (SAssignChars (SSelf 1) 3)] (small_start, None) = Undef.
Proof. vm_compute. reflexivity. Qed.

(** [pos + s_len] and [cur - s_len] wrap: the search for "ab" in "a" from 2^32 - 2 on reads there. *)
Example find_position_wraps :
  SmallString.find_cstr 1 (SmallRep 1) (Some (0%nat, 0%nat)) (2 ^ 32 - 2)
    (mkMemory {[0%nat := (false, Byte <$> [97; 98; 0]); 1%nat := (false, Byte <$> [97; 0])]} 2) = Undef.
Proof.
  set (m := mkMemory _ _). unfold SmallString.find_cstr.
  rewrite (prog_bind _ _ m m 2) by (vm_compute; reflexivity). cbv zeta. change (u32 2) with 2. change (2 =? 0) with false. cbv iota.
  change (SmallString.get_size (SmallRep 1)) with 1. change (u32 (2 ^ 32 - 2 + 2)) with 0. change (1 <? 0) with false. cbv iota.
  change (Z.to_nat (u32 (1 - 2) + 1 - (2 ^ 32 - 2))) with 2%nat. cbn [occurrence_loop].
  assert (E : MemCompare (advance_ptr (data_of_ 1 (SmallRep 1)) (2 ^ 32 - 2)) (0%nat, 0%nat) 2 m = Undef).
  { unfold MemCompare, load_numbers, mbind, Prog_bind, load_bytes, advance_ptr, data_of_. cbn [fst snd Nat.eqb]. change (blocks m !! 1%nat) with (Some (false, Byte <$> [97; 0])). cbv iota beta.
    rewrite (proj2 (Nat.leb_gt _ _)) by (cbn [length fmap list_fmap]; lia). done. }
  unfold mbind, Prog_bind. change (Z.to_nat 2) with 2%nat. by rewrite E.
Qed.
