(* ===== verification/Path.v ===== *)
(** * Paths (filesystem/path.cc, filesystem/posix/path_posix.cc)

    The POSIX code.  A path is the text of its buffer; the members of [base::String] it calls are
    written on texts, as BaseStringSpec.v specifies and BaseStringRefine.v proves them ([resize],
    [erase], [push_back], [append], [operator[]] with its check).  Conversions of the argument of
    a constructor to UTF-8 are those of CodeConvert.v. *)

From stdpp Require Import gmap.
From S2P Require Import Prelude Memory BaseStringSearch.

Set Default Proof Using "Type".
#[local] Open Scope Z_scope.

(** ** The buffer *)

Abbreviation Path := (list Z).

Definition kStringNotFoundPos : Z := 2 ^ 64 - 1.
Definition separator : Z := 47.
Definition kCurrentDirectory : Path := [46].

Definition char_at (path : Path) (i : Z) : res Z := match path !! Z.to_nat i with Some c => Ok c | None => Undef end.
Definition resize_path (path : Path) (n : Z) : Path := take (Z.to_nat n) path ++ replicate (Z.to_nat n - length path) 0.

(** ** path.cc: helpers *)

Definition is_letter (c : Z) : bool := (65 <=? c) && (c <=? 90) || (97 <=? c) && (c <=? 122).

Definition FindDriveLetter (path : Path) : res Z :=
  if 2 <=? Z.of_nat (length path) then
    c ← char_at path 1;
    if c =? 58 then (d ← char_at path 0; Ok (if is_letter d then 1 else kStringNotFoundPos)) else Ok kStringNotFoundPos
  else Ok kStringNotFoundPos.

(** The backslash counts too. *)
Definition IsSeparator (c : Z) : bool := (c =? 92) || (c =? separator).

Definition find_last_separator (path : Path) : Z :=
  match last_before (char_test path IsSeparator) kStringNotFoundPos (length path) with Some i => Z.of_nat i | None => kStringNotFoundPos end.

(** ** path_posix.cc *)

(** Out of fuel is no result. *)
Fixpoint Normalize_loop (fuel : nat) (buffer : Path) (i : Z) : res Path :=
  match fuel with
  | O => Undef
  | S fuel =>
    if i <? Z.of_nat (length buffer) then
      c ← char_at buffer i;
      let matches := c =? 47 in
      next ← (if matches && (u64 (i + 1) <? Z.of_nat (length buffer)) then char_at buffer (i + 1) else Ok 0);
      let twice := next =? 47 in
      let '(buffer, j) := if twice then (delete (Z.to_nat (i + 1)) buffer, u64 (i - 1)) else (buffer, i) in
      let buffer := if matches then <[Z.to_nat i := separator]> buffer else buffer in
      Normalize_loop fuel buffer (u64 (j + 1))
    else Ok buffer
  end.

Definition Normalize (buffer : Path) : res Path := Normalize_loop (S (length buffer)) buffer 0.

Definition construct (text : Path) : res Path := Normalize text.

Definition AppendExtension (path ascii_only : Path) (ensure_dot : bool) : res (bool * Path) :=
  match ascii_only with
  | [] => Ok (false, path)
  | c :: _ => Ok (true, (if negb (c =? 46) && ensure_dot then path ++ [46] else path) ++ ascii_only)
  end.

(** ** path.cc *)

Definition Append (path other : Path) : res Path := Normalize ((path ++ [separator]) ++ other).

(** [operator/]; the copy of the left side is normalised too. *)
Definition join (lhs rhs : Path) : res Path := path ← construct lhs; Append path rhs.

(** [for (pos = length; pos > start && IsSeparator(path[pos - 1]); --pos)] *)
Fixpoint strip_loop (pos : nat) (start : Z) (path : Path) (last_stripped : Z) : res Path :=
  match pos with
  | O => Ok path
  | S pos' =>
    if Z.of_nat pos >? start then
      c ← char_at path (Z.of_nat pos - 1);
      if IsSeparator c then
        keep ← (if negb (Z.of_nat pos =? start + 1) || (last_stripped =? start + 2) then Ok false else f ← char_at path (start - 1); Ok (IsSeparator f));
        if keep : bool then strip_loop pos' start path last_stripped
        else strip_loop pos' start (resize_path path (Z.of_nat pos - 1)) (Z.of_nat pos)
      else Ok path
    else Ok path
  end.

Definition StripTrailingSeparators (path : Path) : res Path :=
  letter ← FindDriveLetter path; strip_loop (length path) (u64 (letter + 2)) path kStringNotFoundPos.

Definition DirName (this : Path) : res Path :=
  path ← construct this;
  path ← StripTrailingSeparators path;
  letter ← FindDriveLetter path;
  let last_separator := find_last_separator path in
  path ← (if last_separator =? kStringNotFoundPos then Ok (resize_path path (u64 (letter + 1)))
    else if last_separator =? u64 (letter + 1) then Ok (resize_path path (u64 (letter + 2)))
    else
      root ← (if last_separator =? u64 (letter + 2) then c ← char_at path (u64 (letter + 1)); Ok (IsSeparator c) else Ok false);
      if root : bool then Ok (resize_path path (u64 (letter + 3)))
      else if negb (last_separator =? 0) then Ok (resize_path path last_separator) else Ok path);
  path ← StripTrailingSeparators path;
  Ok (if (length path =? 0)%nat then kCurrentDirectory else path).

Definition BaseName (this : Path) : res Path :=
  path ← construct this;
  path ← StripTrailingSeparators path;
  letter ← FindDriveLetter path;
  let path := if negb (letter =? kStringNotFoundPos) then drop (Z.to_nat (letter + 1)) path else path in
  let last_separator := find_last_separator path in
  Ok (if negb (last_separator =? kStringNotFoundPos) && (last_separator <? u64 (Z.of_nat (length path) - 1)) then drop (Z.to_nat (last_separator + 1)) path else path).

Example path_samples :
  DirName [47; 97; 47; 47; 98; 47] = Ok [47; 97] /\ BaseName [47; 97; 47; 47; 98; 47] = Ok [98] /\ DirName [97] = Ok [46] /\ DirName [47] = Ok [47] /\ BaseName [47] = Ok [47] /\
  DirName [99; 58; 47; 97] = Ok [99; 58; 47] /\ DirName [92; 92; 97] = Ok [92; 92] /\ BaseName [97; 92; 98] = Ok [98] /\ DirName [] = Ok [46] /\ BaseName [99; 58; 120] = Ok [120].
Proof. vm_compute. repeat split. Qed.

(** ** One separator in a row *)

Fixpoint collapse (path : Path) : Path :=
  match path with
  | c :: (d :: _) as rest => if (c =? 47) && (d =? 47) then collapse rest else c :: collapse rest
  | _ => path
  end.

(** No two separators meet. *)
Fixpoint normal (path : Path) : bool :=
  match path with
  | c :: (d :: _) as rest => negb ((c =? 47) && (d =? 47)) && normal rest
  | _ => true
  end.

Lemma collapse_cons c d rest : collapse (c :: d :: rest) = if (c =? 47) && (d =? 47) then collapse (d :: rest) else c :: collapse (d :: rest).
Proof. done. Qed.

Lemma normal_cons c d rest : normal (c :: d :: rest) = negb ((c =? 47) && (d =? 47)) && normal (d :: rest).
Proof. done. Qed.

(** The first character stays. *)
Lemma collapse_head c rest : exists rest', collapse (c :: rest) = c :: rest'.
Proof.
  revert c. induction rest as [|d rest IH]; intros c; [by exists []|]. rewrite collapse_cons. destruct ((c =? 47) && (d =? 47)) eqn:E; [|by eexists].
  apply andb_true_iff in E as [Ec Ed]. apply Z.eqb_eq in Ec as ->. apply Z.eqb_eq in Ed as ->. apply IH.
Qed.

Lemma collapse_normal path : normal (collapse path) = true.
Proof.
  induction path as [|c rest IH]; [done|]. destruct rest as [|d rest]; [done|]. rewrite collapse_cons. destruct ((c =? 47) && (d =? 47)) eqn:E; [exact IH|].
  destruct (collapse_head d rest) as [rest' Er]. rewrite Er in *. by rewrite normal_cons, E.
Qed.

Lemma collapse_same path : normal path = true -> collapse path = path.
Proof.
  induction path as [|c rest IH]; [done|]. destruct rest as [|d rest]; [done|]. rewrite normal_cons, collapse_cons. intros [Hn Hr]%andb_true_iff. apply negb_true_iff in Hn.
  by rewrite Hn, IH.
Qed.

Lemma collapse_length path : (length (collapse path) <= length path)%nat.
Proof.
  induction path as [|c rest IH]; [done|]. destruct rest as [|d rest]; [done|]. rewrite collapse_cons. destruct ((c =? 47) && (d =? 47)); cbn [length] in *; lia.
Qed.

Lemma collapse_elem c path : c ∈ collapse path -> c ∈ path.
Proof.
  induction path as [|x rest IH]; [done|]. destruct rest as [|d rest]; [done|]. rewrite collapse_cons. destruct ((x =? 47) && (d =? 47)); [intros H; right; by apply IH|].
  intros [->|H]%elem_of_cons; [by left|right; by apply IH].
Qed.

Lemma path_char_ok path i c : path !! i = Some c -> char_at path (Z.of_nat i) = Ok c.
Proof. intros E. unfold char_at. by rewrite Nat2Z.id, E. Qed.

Lemma Normalize_loop_ok fuel pre rest : (length rest < fuel)%nat -> Z.of_nat (length pre + length rest) < 2 ^ 63 ->
  Normalize_loop fuel (pre ++ rest) (Z.of_nat (length pre)) = Ok (pre ++ collapse rest).
Proof.
  revert pre rest. induction fuel as [|fuel IH]; intros pre rest Hf Hb; [lia|]. cbn [Normalize_loop]. rewrite length_app.
  destruct rest as [|c rest]; [rewrite (proj2 (Z.ltb_ge _ _)) by (cbn; lia); done|]. cbn [length] in *. rewrite (proj2 (Z.ltb_lt _ _)) by lia.
  rewrite (path_char_ok _ _ c) by (by rewrite list_lookup_middle). cbn [mbind res_bind]. rewrite (wrap_small 64 (Z.of_nat (length pre) + 1)) by (unfold fits; lia).
  replace (Z.of_nat (length pre) + 1) with (Z.of_nat (S (length pre))) by lia. rewrite !Nat2Z.id.
  assert (Hstep : u64 (Z.of_nat (length pre) + 1) = Z.of_nat (length (pre ++ [c]))) by (rewrite length_app, wrap_small by (unfold fits; lia); cbn; lia).
  assert (Hkeep : (if c =? 47 then <[length pre := separator]> (pre ++ c :: rest) else pre ++ c :: rest) = (pre ++ [c]) ++ rest).
  { rewrite <- app_assoc. cbn [app]. destruct (Z.eqb_spec c 47) as [->|]; [|done]. rewrite insert_app_r_alt by lia. by rewrite Nat.sub_diag. }
  destruct rest as [|d rest].
  - rewrite (proj2 (Z.ltb_ge _ _)) by (cbn [length]; lia). rewrite andb_false_r. cbn [mbind res_bind]. change (0 =? 47) with false. cbv iota zeta. rewrite Hkeep, Hstep, IH by (rewrite ?length_app; cbn in *; lia). cbn. by rewrite app_nil_r.
  - rewrite (proj2 (Z.ltb_lt _ _)) by (cbn [length]; lia). rewrite andb_true_r, collapse_cons. destruct (Z.eqb_spec c 47) as [->|Hc]; cbn [andb].
    + rewrite (path_char_ok _ _ d) by (rewrite lookup_app_r by lia; by replace (S (length pre) - length pre)%nat with 1%nat by lia). cbn [mbind res_bind]. destruct (Z.eqb_spec d 47) as [->|Hd].
      * cbv iota zeta. replace (delete (S (length pre)) (pre ++ 47 :: 47 :: rest)) with (pre ++ 47 :: rest).
        2: { replace (S (length pre)) with (length (pre ++ [47])) by (rewrite length_app; cbn; lia). change (pre ++ 47 :: 47 :: rest) with (pre ++ [47] ++ 47 :: rest). rewrite app_assoc, delete_middle. by rewrite <- app_assoc. }
        replace (u64 (u64 (Z.of_nat (length pre) - 1) + 1)) with (Z.of_nat (length pre)).
        2: { unfold wrap. rewrite Zplus_mod_idemp_l. replace (Z.of_nat (length pre) - 1 + 1) with (Z.of_nat (length pre)) by lia. symmetry. apply Z.mod_small. cbn in *. lia. }
        rewrite insert_app_r_alt, Nat.sub_diag by lia. cbn [list_insert insert]. apply IH; cbn [length] in *; lia.
      * cbv iota zeta. rewrite Hkeep, Hstep, IH by (rewrite ?length_app; cbn [length] in *; lia). by rewrite <- app_assoc.
    + cbn [mbind res_bind]. change (0 =? 47) with false. cbv iota zeta. rewrite Hkeep, Hstep, IH by (rewrite ?length_app; cbn [length] in *; lia). by rewrite <- app_assoc.
Qed.

Lemma Normalize_ok path : Z.of_nat (length path) < 2 ^ 63 -> Normalize path = Ok (collapse path).
Proof. intros H. apply (Normalize_loop_ok _ [] path); [lia|done]. Qed.

(** ** The parts of a path *)

(** A drive letter and its colon, and the rest. *)
Definition drive (path : Path) : Path := match path with c :: 58 :: _ => if is_letter c then [c; 58] else [] | _ => [] end.

(** A last separator goes, unless it is all there is. *)
Definition trim (rest : Path) : Path := match reverse rest with c :: (_ :: _) as front => if c =? 47 then reverse front else rest | _ => rest end.

Lemma FindDriveLetter_ok path : FindDriveLetter path = Ok (match drive path with [] => kStringNotFoundPos | _ => 1 end).
Proof.
  unfold FindDriveLetter, drive. destruct path as [|c [|d path]]; [done|done|]. rewrite (proj2 (Z.leb_le _ _)) by (cbn [length]; lia).
  change (char_at (c :: d :: path) 1) with (Ok d). change (char_at (c :: d :: path) 0) with (Ok c). cbn [mbind res_bind]. destruct (Z.eqb_spec d 58) as [->|Hd]; [by destruct (is_letter c)|].
  destruct d as [|p|p]; try done. repeat (destruct p as [p|p|]; try done).
Qed.

Lemma drive_split path : exists rest, path = drive path ++ rest /\ drive path = take (length (drive path)) path /\ drop (length (drive path)) path = rest.
Proof.
  exists (drop (length (drive path)) path). assert (E : drive path = take (length (drive path)) path); [|split; [by rewrite E at 1; rewrite take_drop|done]].
  unfold drive. destruct path as [|c [|d path]]; [done|done|]. destruct d as [|p|p]; try done. repeat (destruct p as [p|p|]; try done). by destruct (is_letter c).
Qed.

Lemma drive_length path : length (drive path) = 0%nat \/ length (drive path) = 2%nat.
Proof.
  unfold drive. destruct path as [|c [|d path]]; [by left|by left|]. destruct d as [|p|p]; try by left. repeat (destruct p as [p|p|]; try by left). destruct (is_letter c); [by right|by left].
Qed.

(** The positions of the code: the letter and what follows it. *)
Lemma drive_letter path k : 0 <= k < 2 ^ 32 -> u64 (match drive path with [] => kStringNotFoundPos | _ => 1 end + (1 + k)) = Z.of_nat (length (drive path)) + k.
Proof.
  intros Hk. unfold kStringNotFoundPos. destruct (drive_length path) as [E|E]; destruct (drive path) as [|x dr]; try done.
  - replace (2 ^ 64 - 1 + (1 + k)) with (k + 1 * 2 ^ 64) by lia. unfold wrap. rewrite Z_mod_plus_full. apply Z.mod_small. lia.
  - rewrite E, wrap_small by (unfold fits; lia). lia.
Qed.

(** What keeps the first two characters keeps the drive. *)
Lemma drive_prefix path k : (length (drive path) <= k)%nat -> drive (take k path) = drive path.
Proof.
  unfold drive. destruct path as [|c [|d path]]; [by rewrite take_nil|destruct k; cbn; by rewrite ?take_nil|]. destruct k as [|[|k]]; cbn [take]; [| |done];
    (destruct d as [|p|p]; try done; repeat (destruct p as [p|p|]; try done); destruct (is_letter c); cbn; [lia|done]).
Qed.

Lemma drive_no_separator path c : c ∈ drive path -> IsSeparator c = false.
Proof.
  unfold drive. destruct path as [|a [|d path]]; [by intros ?%elem_of_nil|by intros ?%elem_of_nil|]. destruct d as [|p|p]; try by intros ?%elem_of_nil.
  repeat (destruct p as [p|p|]; try by intros ?%elem_of_nil). destruct (is_letter a) eqn:E; [|by intros ?%elem_of_nil]. intros [->|[->|?%elem_of_nil]%elem_of_cons]%elem_of_cons; [|done|done].
  unfold is_letter in E. unfold IsSeparator, separator. apply orb_true_iff in E. rewrite !andb_true_iff, !Z.leb_le in E. apply orb_false_iff. rewrite !Z.eqb_neq. lia.
Qed.

Lemma normal_meet a x y b : normal (a ++ x :: y :: b) = true -> ~ (x = 47 /\ y = 47).
Proof.
  induction a as [|z a IH]; cbn [app].
  - rewrite normal_cons. intros [Hn _]%andb_true_iff [-> ->]. done.
  - destruct a as [|w a]; cbn [app] in *; rewrite normal_cons; intros [_ Hr]%andb_true_iff; by apply IH.
Qed.

Lemma normal_app_l a b : normal (a ++ b) = true -> normal a = true.
Proof.
  induction a as [|x a IH]; [done|]. destruct a as [|y a]; [done|]. cbn [app] in *. rewrite !normal_cons. intros [-> Hr]%andb_true_iff. by apply IH.
Qed.

Definition plain (path : Path) : Prop := normal path = true /\ (92 ∉ path).

Lemma plain_separator path c : plain path -> c ∈ path -> IsSeparator c = true -> c = 47.
Proof.
  intros [_ Hb] Hc Hs. unfold IsSeparator in Hs. apply orb_true_iff in Hs as [Hs|Hs]; apply Z.eqb_eq in Hs; [by subst|done].
Qed.

Lemma plain_other path c : plain path -> c ∈ path -> c <> 47 -> IsSeparator c = false.
Proof. intros Hp Hc Hn. apply not_true_iff_false. intros Hs. apply Hn. by eapply plain_separator. Qed.

Lemma plain_app_l a b : plain (a ++ b) -> plain a.
Proof. intros [Hn Hb]. split; [by eapply normal_app_l|set_solver]. Qed.

Lemma resize_app a b : resize_path (a ++ b) (Z.of_nat (length a)) = a.
Proof. unfold resize_path. rewrite Nat2Z.id, take_app_length, length_app. replace (length a - (length a + length b))%nat with 0%nat by lia. apply app_nil_r. Qed.

(** ** Trailing separators *)

Lemma strip_stop pos start path ls : Z.of_nat pos <= start -> strip_loop pos start path ls = Ok path.
Proof. intros H. destruct pos; [done|]. cbn [strip_loop]. rewrite Z.gtb_ltb. by rewrite (proj2 (Z.ltb_ge _ _)). Qed.

Lemma strip_other start path c ls : IsSeparator c = false -> strip_loop (length (path ++ [c])) start (path ++ [c]) ls = Ok (path ++ [c]).
Proof.
  intros Hc. rewrite length_app. cbn [length]. rewrite Nat.add_1_r. cbn [strip_loop]. destruct (_ >? _); [|done].
  replace (Z.of_nat (S (length path)) - 1) with (Z.of_nat (length path)) by lia. rewrite (path_char_ok _ _ c) by (by rewrite list_lookup_middle). cbn [mbind res_bind]. by rewrite Hc.
Qed.

Lemma trim_snoc q c : trim (q ++ [c]) = match q with [] => [c] | _ => if c =? 47 then q else q ++ [c] end.
Proof.
  unfold trim. rewrite reverse_snoc. destruct q as [|x q] using rev_ind; [done|]. rewrite reverse_snoc. cbn [app]. destruct q; cbn [app]; (destruct (c =? 47); [|done]);
    rewrite <- reverse_snoc; by rewrite reverse_involutive.
Qed.

Section Strip.

Context (dr q : Path) (Hd : drive (dr ++ q) = dr) (Hp : plain (dr ++ q)) (Hlen : Z.of_nat (length (dr ++ q)) < 2 ^ 62).

Lemma strip_ok : StripTrailingSeparators (dr ++ q) = Ok (dr ++ trim q).
Proof using Hd Hp Hlen.
  unfold StripTrailingSeparators. rewrite FindDriveLetter_ok, Hd. cbn [mbind res_bind]. pose proof (drive_letter (dr ++ q) 1 ltac:(lia)) as Es. rewrite Hd in Es. change (1 + 1) with 2 in Es. rewrite Es.
  destruct q as [|c q' _] using rev_ind; [change (trim []) with (@nil Z); rewrite app_nil_r in *; by rewrite strip_stop by lia|]. rewrite trim_snoc. rewrite app_assoc in *. rewrite length_app in Hlen. cbn [length] in Hlen.
  destruct (Z.eqb_spec c 47) as [->|Hc]; [|rewrite strip_other; [rewrite <- app_assoc; by destruct q'|]; eapply plain_other; [exact Hp|set_solver|done]].
  destruct q' as [|x q' _] using rev_ind. { rewrite app_nil_r in *. rewrite strip_stop; [done|]. rewrite length_app. cbn. lia. }
  assert (Hx : x <> 47).
  { intros ->. destruct Hp as [Hn _]. assert (E : (dr ++ q' ++ [47]) ++ [47] = (dr ++ q') ++ [47; 47]) by (by rewrite <- !app_assoc). rewrite E in Hn. by apply (normal_meet (dr ++ q') 47 47 []) in Hn; destruct Hn. }
  assert (Hs : IsSeparator x = false) by (eapply plain_other; [exact Hp|set_solver|done]). set (p := dr ++ q' ++ [x]) in *.
  assert (Elen : length p = (length dr + length q' + 1)%nat) by (unfold p; rewrite !length_app; cbn; lia).
  rewrite length_app. cbn [length]. rewrite Nat.add_1_r. cbn [strip_loop]. rewrite Z.gtb_ltb, (proj2 (Z.ltb_lt _ _)) by lia.
  replace (Z.of_nat (S (length p)) - 1) with (Z.of_nat (length p)) by lia. rewrite (path_char_ok _ _ 47) by (by rewrite list_lookup_middle). cbn [mbind res_bind].
  change (IsSeparator 47) with true. cbv iota.
  assert (Ek : (if negb (Z.of_nat (S (length p)) =? Z.of_nat (length dr) + 1 + 1) || (kStringNotFoundPos =? Z.of_nat (length dr) + 1 + 2) then Ok false
     else f ← char_at (p ++ [47]) (Z.of_nat (length dr) + 1 - 1); Ok (IsSeparator f)) = Ok false).
  { destruct (Z.eqb_spec (Z.of_nat (S (length p))) (Z.of_nat (length dr) + 1 + 1)) as [E|E]; [|done]. cbn [negb orb]. destruct (_ =? _); [done|]. destruct q' as [|? ?]; [|cbn [length] in *; lia].
    replace (Z.of_nat (length dr) + 1 - 1) with (Z.of_nat (length dr)) by lia. rewrite (path_char_ok _ _ x); [cbn; by rewrite Hs|]. unfold p. cbn [app]. rewrite <- app_assoc. cbn [app]. by rewrite list_lookup_middle. }
  cbn [mbind res_bind] in Ek. unfold mbind, res_bind in Ek |- *. rewrite Ek. rewrite resize_app. assert (Hq : exists y z, q' ++ [x] = y :: z) by (destruct q'; by do 2 eexists). destruct Hq as (y & z & Eq).
  rewrite Eq, <- Eq. unfold p. rewrite app_assoc. rewrite strip_other by done. by rewrite <- app_assoc.
Qed.

End Strip.

(** ** The last separator *)

Lemma last_separator_none path : (forall c, c ∈ path -> IsSeparator c = false) -> find_last_separator path = kStringNotFoundPos.
Proof.
  intros H. unfold find_last_separator, last_before. destruct (length path) as [|k]; [done|].
  pose proof (last_at_spec (char_test path IsSeparator) (Z.to_nat (Z.min kStringNotFoundPos (Z.of_nat k)))) as Hs. destruct (last_at _ _) as [i|]; [|done].
  destruct Hs as (_ & Hi & _). unfold char_test in Hi. destruct (path !! i) as [c|] eqn:E; [|done]. by rewrite (H c) in Hi by (by eapply list_elem_of_lookup_2).
Qed.

Lemma last_separator_some d c b : IsSeparator c = true -> (forall x, x ∈ b -> IsSeparator x = false) -> Z.of_nat (length (d ++ c :: b)) < 2 ^ 62 ->
  find_last_separator (d ++ c :: b) = Z.of_nat (length d).
Proof.
  intros Hc Hb Hlen. unfold find_last_separator, last_before. rewrite length_app in *. cbn [length] in *. rewrite Nat.add_succ_r. set (path := d ++ c :: b).
  change kStringNotFoundPos with (2 ^ 64 - 1). rewrite Z.min_r, Nat2Z.id by lia.
  pose proof (last_at_spec (char_test path IsSeparator) (length d + length b)) as Hs. assert (Hd : char_test path IsSeparator (length d) = true) by (unfold char_test, path; by rewrite list_lookup_middle).
  destruct (last_at _ _) as [i|].
  - destruct Hs as (Hi & Ei & Hlast). destruct (decide (i < length d)%nat); [rewrite Hlast in Hd by lia; done|]. destruct (decide (i = length d)) as [->|]; [done|].
    unfold char_test, path in Ei. rewrite lookup_app_r in Ei by lia. destruct (i - length d)%nat as [|j] eqn:Ej; [lia|]. cbn in Ei. destruct (b !! j) as [x|] eqn:Ex; [|done].
    by rewrite (Hb x) in Ei by (by eapply list_elem_of_lookup_2).
  - rewrite Hs in Hd by lia. done.
Qed.

(** The part in front of the last component, and the component. *)
Lemma last_component t : (47 ∉ t) \/ exists d b, t = d ++ 47 :: b /\ (47 ∉ b).
Proof. destruct (decide (47 ∈ t)) as [H|H]; [right|by left]. by apply list_elem_of_split_r in H as (d & b & -> & Hb); exists d, b. Qed.

Section Components.

Context (n dr t : Path).
Context (Hn : plain n) (Hlen : Z.of_nat (length n) < 2 ^ 62) (Hdr : dr = drive n) (Ht : t = trim (drop (length dr) n)).

Lemma parts_eq : n = dr ++ drop (length dr) n.
Proof using Hdr. destruct (drive_split n) as (rest & E & _ & Er). by rewrite Hdr, Er. Qed.

Lemma trim_prefix q : exists e, q = trim q ++ e.
Proof using Type.
  destruct q as [|c q _] using rev_ind; [by exists []|]. rewrite trim_snoc. destruct q; [exists []; by rewrite app_nil_r|]. destruct (c =? 47); [by exists [c]|exists []; by rewrite app_nil_r].
Qed.

Lemma stripped_prefix : exists e, n = (dr ++ t) ++ e.
Proof using Hdr Ht. destruct (trim_prefix (drop (length dr) n)) as [e E]. exists e. rewrite <- app_assoc, Ht, <- E. apply parts_eq. Qed.

(** Every prefix that keeps the drive. *)
Lemma part_ok a e : n = (dr ++ a) ++ e -> drive (dr ++ a) = dr /\ plain (dr ++ a) /\ Z.of_nat (length (dr ++ a)) < 2 ^ 62.
Proof using Hn Hlen Hdr.
  intros E. split; [|split].
  - assert (Ea : dr ++ a = take (length (dr ++ a)) n) by (by rewrite E, take_app_length). rewrite Ea, drive_prefix; [done|]. rewrite <- Hdr, length_app. lia.
  - rewrite E in Hn. by eapply plain_app_l.
  - rewrite E, length_app in Hlen. lia.
Qed.

Lemma stripped : StripTrailingSeparators n = Ok (dr ++ t).
Proof using Hn Hlen Hdr Ht.
  pose proof parts_eq as E. destruct (part_ok (drop (length dr) n) []) as (H1 & H2 & H3); [by rewrite app_nil_r|].
  rewrite E at 1. rewrite Ht. by apply strip_ok.
Qed.

(** A part that ends in no separator is left alone. *)
Lemma strip_same a e : n = (dr ++ a) ++ e -> trim a = a -> StripTrailingSeparators (dr ++ a) = Ok (dr ++ a).
Proof using Hn Hlen Hdr. intros E Ea. destruct (part_ok a e E) as (H1 & H2 & H3). rewrite strip_ok by done. by rewrite Ea. Qed.

Lemma drive_other c : c ∈ dr -> IsSeparator c = false.
Proof using Hdr. rewrite Hdr. apply drive_no_separator. Qed.

Lemma letter_of a e : n = (dr ++ a) ++ e -> FindDriveLetter (dr ++ a) = Ok (match drive n with [] => kStringNotFoundPos | _ => 1 end).
Proof using Hn Hlen Hdr. intros E. destruct (part_ok a e E) as (H1 & _). by rewrite FindDriveLetter_ok, H1, <- Hdr. Qed.

Lemma trim_twice q : normal q = true -> trim (trim q) = trim q.
Proof using Type.
  intros Hq. destruct q as [|c q _] using rev_ind; [done|]. rewrite trim_snoc. destruct q as [|x q _] using rev_ind; [done|].
  destruct (Z.eqb_spec c 47) as [->|Hc].
  - assert (E : q ++ [x] <> []) by (by destruct q). assert (Hx : x <> 47) by (intros ->; rewrite <- app_assoc in Hq; by apply (normal_meet q 47 47 []) in Hq; destruct Hq).
    replace (match q ++ [x] with [] => [47] | _ :: _ => q ++ [x] end) with (q ++ [x]) by (by destruct (q ++ [x])). rewrite trim_snoc. rewrite (proj2 (Z.eqb_neq _ _)) by done. by destruct q.
  - replace (match q ++ [x] with [] => [c] | _ :: _ => (q ++ [x]) ++ [c] end) with ((q ++ [x]) ++ [c]) by (by destruct q). rewrite trim_snoc. rewrite (proj2 (Z.eqb_neq _ _)) by done. by destruct q.
Qed.

Lemma trim_other q c : c <> 47 -> trim (q ++ [c]) = q ++ [c].
Proof using Type. intros Hc. rewrite trim_snoc, (proj2 (Z.eqb_neq _ _)) by done. by destruct q. Qed.

Lemma single_plain c : (47 ∉ t) -> c ∈ dr ++ t -> IsSeparator c = false.
Proof using Hn Hlen Hdr Ht.
  intros H47 [Hc|Hc]%elem_of_app; [by apply drive_other|]. destruct stripped_prefix as [e E]. destruct (part_ok t e E) as (_ & Hp & _).
  eapply plain_other; [exact Hp|set_solver|]. by intros ->.
Qed.

(** With a separator: [d / b]. *)
Lemma component_parts d b : t = d ++ 47 :: b -> (47 ∉ b) ->
  (forall x, x ∈ b -> IsSeparator x = false) /\ (d <> [] -> trim d = d) /\ (b = [] -> d = []) /\ (forall x, d = [x] -> IsSeparator x = false).
Proof using Hn Hlen Hdr Ht.
  intros E Hb. destruct stripped_prefix as [e Ee]. destruct (part_ok t e Ee) as (_ & Hp & _). rewrite E in Hp.
  assert (Hlast : forall d' x, d = d' ++ [x] -> x <> 47).
  { intros d' x -> ->. destruct Hp as [Hnn _]. assert (Ex : dr ++ (d' ++ [47]) ++ 47 :: b = (dr ++ d') ++ 47 :: 47 :: b) by (by rewrite <- !app_assoc). rewrite Ex in Hnn. by apply normal_meet in Hnn; destruct Hnn. }
  split; [|split; [|split]].
  - intros x Hx. eapply plain_other; [exact Hp|set_solver|]. by intros ->.
  - intros Hd. destruct d as [|x d' _] using rev_ind; [done|]. apply trim_other. by eapply Hlast.
  - intros ->. destruct d as [|x d' _] using rev_ind; [done|]. exfalso. pose proof parts_eq as En. set (q := drop (length dr) n) in *.
    destruct q as [|c q' _] using rev_ind; [rewrite Ht in E; by destruct d'|]. rewrite trim_snoc in Ht. destruct q' as [|y q' _] using rev_ind.
    { rewrite Ht in E. apply (f_equal length) in E. rewrite !length_app in E. cbn in E. lia. }
    assert (Eq : t = if c =? 47 then q' ++ [y] else (q' ++ [y]) ++ [c]) by (rewrite Ht; by destruct q'). rewrite E in Eq. destruct (Z.eqb_spec c 47) as [->|Hc].
    + apply app_inj_tail in Eq as [_ <-]. destruct Hn as [Hnn _]. rewrite En in Hnn. assert (Ex : dr ++ (q' ++ [47]) ++ [47] = (dr ++ q') ++ [47; 47]) by (by rewrite <- !app_assoc).
      rewrite Ex in Hnn. by apply (normal_meet (dr ++ q') 47 47 []) in Hnn; destruct Hnn.
    + apply app_inj_tail in Eq as [_ <-]. done.
  - intros x ->. eapply plain_other; [exact Hp|set_solver|]. by apply (Hlast [] x).
Qed.

Context (this : Path) (Hthis : n = collapse this) (Hsize : Z.of_nat (length this) < 2 ^ 62).

Lemma constructed : construct this = Ok n.
Proof using Hthis Hsize. unfold construct. rewrite Normalize_ok by lia. by rewrite Hthis. Qed.

Lemma letter_plus k : 0 <= k < 2 ^ 32 -> u64 (match drive n with [] => kStringNotFoundPos | _ => 1 end + (1 + k)) = Z.of_nat (length dr) + k.
Proof using Hdr. intros Hk. rewrite drive_letter by done. by rewrite Hdr. Qed.

Lemma DirName_single : (47 ∉ t) -> DirName this = Ok (if (length dr =? 0)%nat then kCurrentDirectory else dr).
Proof using Hn Hlen Hdr Ht Hthis Hsize.
  intros H47. destruct stripped_prefix as [e E]. unfold DirName. rewrite constructed. cbn [mbind res_bind]. rewrite stripped. cbn [mbind res_bind]. rewrite (letter_of t e E). cbn [mbind res_bind].
  rewrite last_separator_none by (intros c; by apply single_plain). rewrite Z.eqb_refl. pose proof (letter_plus 0 ltac:(lia)) as El. change (1 + 0) with 1 in El. rewrite El, Z.add_0_r, resize_app. cbn [mbind res_bind].
  assert (E0 : n = (dr ++ []) ++ t ++ e) by (by rewrite app_nil_r, app_assoc). pose proof (strip_same [] _ E0 eq_refl) as Es. rewrite app_nil_r in Es. rewrite Es. done.
Qed.

Lemma BaseName_single : (47 ∉ t) -> BaseName this = Ok t.
Proof using Hn Hlen Hdr Ht Hthis Hsize.
  intros H47. destruct stripped_prefix as [e E]. unfold BaseName. rewrite constructed. cbn [mbind res_bind]. rewrite stripped. cbn [mbind res_bind]. rewrite (letter_of t e E). cbn [mbind res_bind].
  assert (Ed : (if negb (match drive n with [] => kStringNotFoundPos | _ => 1 end =? kStringNotFoundPos) then drop (Z.to_nat (match drive n with [] => kStringNotFoundPos | _ => 1 end + 1)) (dr ++ t) else dr ++ t) = t).
  { rewrite Hdr. destruct (drive_length n) as [El|El]; destruct (drive n) as [|x d]; try done. destruct d as [|y [|]]; done. }
  cbv zeta. rewrite Ed. rewrite last_separator_none by (intros c Hc; apply single_plain; set_solver). done.
Qed.

Lemma DirName_component d b : t = d ++ 47 :: b -> (47 ∉ b) -> DirName this = Ok (dr ++ match d with [] => [47] | _ => d end).
Proof using Hn Hlen Hdr Ht Hthis Hsize.
  intros E Hb. destruct (component_parts d b E Hb) as (Hbs & Hdt & Hbd & Hd1). destruct stripped_prefix as [e Ee]. destruct (part_ok t e Ee) as (_ & _ & Hl).
  unfold DirName. rewrite constructed. cbn [mbind res_bind]. rewrite stripped. cbn [mbind res_bind]. rewrite (letter_of t e Ee). cbn [mbind res_bind].
  pose proof (letter_plus 0 ltac:(lia)) as E0. pose proof (letter_plus 1 ltac:(lia)) as E1. pose proof (letter_plus 2 ltac:(lia)) as E2. change (1 + 0) with 1 in E0. change (1 + 1) with 2 in E1. change (1 + 2) with 3 in E2. rewrite E0, E1, E2.
  rewrite E in *. rewrite app_assoc in *. rewrite length_app in Hl. cbn [length] in Hl. rewrite last_separator_some by (done || (rewrite length_app; cbn [length]; lia)). rewrite length_app in *.
  rewrite (proj2 (Z.eqb_neq _ kStringNotFoundPos)) by (change kStringNotFoundPos with (2 ^ 64 - 1); lia).
  destruct d as [|x d].
  - rewrite !app_nil_r. cbn [length]. rewrite (proj2 (Z.eqb_eq _ _)) by lia. cbn [mbind res_bind]. assert (Er : resize_path (dr ++ 47 :: b) (Z.of_nat (length dr) + 1) = dr ++ [47]).
    { replace (Z.of_nat (length dr) + 1) with (Z.of_nat (length (dr ++ [47]))) by (rewrite length_app; cbn; lia). change (dr ++ 47 :: b) with (dr ++ [47] ++ b). rewrite app_assoc. apply resize_app. }
    rewrite Er. assert (Ep : n = (dr ++ [47]) ++ b ++ e) by (rewrite Ee, app_nil_r, <- !app_assoc; done). rewrite (strip_same [47] _ Ep eq_refl). cbn [mbind res_bind]. by destruct dr.
  - rewrite (proj2 (Z.eqb_neq _ (Z.of_nat (length dr) + 0))) by (cbn [length]; lia).
    assert (Er : (if Z.of_nat (length dr + length (x :: d)) =? Z.of_nat (length dr) + 1 then c ← char_at ((dr ++ x :: d) ++ 47 :: b) (Z.of_nat (length dr) + 0); Ok (IsSeparator c) else Ok false) = Ok false).
    { destruct (Z.eqb_spec (Z.of_nat (length dr + length (x :: d))) (Z.of_nat (length dr) + 1)) as [El|]; [|done]. destruct d as [|]; [|cbn [length] in El; lia].
      rewrite Z.add_0_r, <- app_assoc. cbn [app]. rewrite (path_char_ok _ _ x) by (by rewrite list_lookup_middle). cbn [mbind res_bind]. by rewrite (Hd1 x eq_refl). }
    rewrite Er. cbn [mbind res_bind]. rewrite (proj2 (Z.eqb_neq _ 0)) by (cbn [length]; lia). cbn [negb mbind res_bind]. rewrite <- length_app, resize_app.
    assert (Ep : n = (dr ++ x :: d) ++ (47 :: b) ++ e) by (rewrite Ee, <- !app_assoc; done). rewrite (strip_same (x :: d) _ Ep (Hdt ltac:(done))). cbn [mbind res_bind].
    rewrite length_app. cbn [length]. by rewrite (proj2 (Nat.eqb_neq _ 0)) by lia.
Qed.

Lemma BaseName_component d b : t = d ++ 47 :: b -> (47 ∉ b) -> BaseName this = Ok (match b with [] => [47] | _ => b end).
Proof using Hn Hlen Hdr Ht Hthis Hsize.
  intros E Hb. destruct (component_parts d b E Hb) as (Hbs & _ & Hbd & _). destruct stripped_prefix as [e Ee]. destruct (part_ok t e Ee) as (_ & _ & Hl).
  unfold BaseName. rewrite constructed. cbn [mbind res_bind]. rewrite stripped. cbn [mbind res_bind]. rewrite (letter_of t e Ee). cbn [mbind res_bind].
  assert (Ed : (if negb (match drive n with [] => kStringNotFoundPos | _ => 1 end =? kStringNotFoundPos) then drop (Z.to_nat (match drive n with [] => kStringNotFoundPos | _ => 1 end + 1)) (dr ++ t) else dr ++ t) = t).
  { rewrite Hdr. destruct (drive_length n) as [El|El]; destruct (drive n) as [|x dd]; try done. destruct dd as [|y [|]]; done. }
  cbv zeta. rewrite Ed. rewrite length_app in Hl. rewrite E in *. rewrite length_app in Hl. cbn [length] in Hl. rewrite last_separator_some by (done || (rewrite length_app; cbn [length]; lia)).
  rewrite (proj2 (Z.eqb_neq _ kStringNotFoundPos)) by (change kStringNotFoundPos with (2 ^ 64 - 1); lia). cbn [negb andb]. rewrite length_app. cbn [length]. rewrite wrap_small by (unfold fits; lia).
  destruct b as [|x b]; [rewrite (Hbd eq_refl) in *; rewrite (proj2 (Z.ltb_ge _ _)) by (cbn; lia); done|]. cbn [length]. rewrite (proj2 (Z.ltb_lt _ _)) by lia.
  replace (Z.to_nat (Z.of_nat (length d) + 1)) with (length (d ++ [47])) by (rewrite length_app; cbn; lia). change (d ++ 47 :: x :: b) with (d ++ [47] ++ x :: b). by rewrite app_assoc, drop_app_length.
Qed.

End Components.

(** ** The parts together again *)

(** A path without its trailing separator. *)
Definition trimmed (path : Path) : Path := let n := collapse path in drive n ++ trim (drop (length (drive n)) n).

(** C38. For a path without backslashes, with [s] its text after the collapse of repeated
    separators and the removal of a trailing one: a single component is its own base name, in
    the current directory or that of its drive; the root is its own directory and base name;
    and otherwise the base name is what follows the last separator and the directory joined
    with the base name is [s] again. *)
Theorem Path_dir_base path : (92 ∉ path) -> Z.of_nat (length path) < 2 ^ 61 ->
  let s := trimmed path in let dr := drive (collapse path) in let rest := drop (length dr) s in
  Normalize path = Ok (collapse path) /\ normal (collapse path) = true /\
  exists d b, DirName path = Ok d /\ BaseName path = Ok b /\
    (((47 ∉ rest) /\ b = rest /\ d = if (length dr =? 0)%nat then kCurrentDirectory else dr) \/
     (rest = [47] /\ b = [47] /\ d = s) \/
     ((47 ∉ b) /\ b <> [] /\ (exists a, s = a ++ 47 :: b) /\ join d b = Ok s)).
Proof.
  intros Hb Hlen. set (n := collapse path). intros s dr rest. split; [apply Normalize_ok; lia|]. split; [apply collapse_normal|].
  assert (Hnl : Z.of_nat (length n) < 2 ^ 61) by (pose proof (collapse_length path); unfold n; lia).
  assert (Hn : plain n) by (split; [apply collapse_normal|intros H; apply Hb; by apply collapse_elem]).
  set (t := trim (drop (length dr) n)). assert (Hs : s = dr ++ t) by done. assert (Er : rest = t) by (unfold rest; by rewrite Hs, drop_app_length). rewrite Er. clear Er rest.
  pose proof (stripped_prefix n dr t eq_refl eq_refl) as [e Ee]. destruct (last_component t) as [H47|(d & b & Et & Hb47)].
  - eexists _, _. split; [apply (DirName_single n dr t Hn ltac:(lia) eq_refl eq_refl path eq_refl ltac:(lia) H47)|]. split; [apply (BaseName_single n dr t Hn ltac:(lia) eq_refl eq_refl path eq_refl ltac:(lia) H47)|]. by left.
  - destruct (component_parts n dr t Hn ltac:(lia) eq_refl eq_refl d b Et Hb47) as (_ & _ & Hbd & _).
    eexists _, _. split; [apply (DirName_component n dr t Hn ltac:(lia) eq_refl eq_refl path eq_refl ltac:(lia) d b Et Hb47)|].
    split; [apply (BaseName_component n dr t Hn ltac:(lia) eq_refl eq_refl path eq_refl ltac:(lia) d b Et Hb47)|]. right. destruct b as [|x b].
    { left. rewrite (Hbd eq_refl) in *. cbn in Et. split; [done|]. split; [done|]. by rewrite Hs, Et. }
    right. split; [done|]. split; [done|]. split; [exists (dr ++ d); by rewrite Hs, Et, app_assoc|].
    set (p := dr ++ match d with [] => [47] | _ => d end). assert (Hsn : normal s = true) by (destruct Hn as [Hnn _]; rewrite Ee in Hnn; by eapply normal_app_l).
    assert (Hsp : exists e', s = p ++ e'). { unfold p. rewrite Hs, Et. destruct d; [exists (x :: b)|exists (47 :: x :: b)]; by rewrite <- app_assoc. }
    assert (Hpn : normal p = true) by (destruct Hsp as [e' E']; rewrite E' in Hsn; by eapply normal_app_l).
    assert (Hsl : Z.of_nat (length s) < 2 ^ 61) by (rewrite Hs; rewrite Ee, length_app in Hnl; lia).
    assert (Hpl : Z.of_nat (length p) < 2 ^ 61) by (destruct Hsp as [e' E']; rewrite E', length_app in Hsl; lia).
    unfold join, construct, Append. rewrite Normalize_ok by lia. cbn [mbind res_bind]. rewrite (collapse_same p Hpn).
    assert (Hxl : Z.of_nat (length (x :: b)) < 2 ^ 61) by (rewrite Hs, Et, !length_app in Hsl; cbn [length] in *; lia).
    rewrite Normalize_ok by (rewrite !length_app; cbn [length] in *; lia). f_equal. unfold p. destruct d as [|y d].
    + assert (E2 : ((dr ++ [47]) ++ [separator]) ++ x :: b = dr ++ 47 :: 47 :: x :: b) by (by rewrite <- !app_assoc). rewrite E2.
      assert (E3 : dr ++ 47 :: x :: b = s) by (by rewrite Hs, Et). rewrite <- E3 in Hsn |- *. clear -Hsn. induction dr as [|z r IH]; cbn [app] in *.
      * rewrite collapse_cons. cbn [Z.eqb andb]. by apply collapse_same.
      * assert (Hz : normal (r ++ 47 :: x :: b) = true) by (destruct r; cbn [app] in *; rewrite normal_cons in Hsn; by apply andb_true_iff in Hsn as [_ ?]). specialize (IH Hz).
        destruct r as [|w r]; cbn [app] in *; rewrite normal_cons in Hsn; apply andb_true_iff in Hsn as [Hw _]; apply negb_true_iff in Hw; rewrite collapse_cons, Hw; by rewrite IH.
    + assert (E2 : ((dr ++ y :: d) ++ [separator]) ++ x :: b = s) by (rewrite Hs, Et, <- !app_assoc; done). rewrite E2. by apply collapse_same.
Qed.

(** "c:/usr//lib/" *)
Lemma Path_dir_base_witness :
  let path := [99; 58; 47; 117; 47; 47; 108; 47] in
  let s := trimmed path in let dr := drive (collapse path) in let rest := drop (length dr) s in
  s = [99; 58; 47; 117; 47; 108] /\ Normalize path = Ok (collapse path) /\ normal (collapse path) = true /\
  exists d b, DirName path = Ok d /\ BaseName path = Ok b /\
    (((47 ∉ rest) /\ b = rest /\ d = if (length dr =? 0)%nat then kCurrentDirectory else dr) \/
     (rest = [47] /\ b = [47] /\ d = s) \/
     ((47 ∉ b) /\ b <> [] /\ (exists a, s = a ++ 47 :: b) /\ join d b = Ok s)).
Proof.
  split; [reflexivity|]. apply (Path_dir_base [99; 58; 47; 117; 47; 47; 108; 47]); [|cbn; lia].
  intros H. repeat (apply elem_of_cons in H as [H|H]; [discriminate H|]). by apply elem_of_nil in H.
Defined.

(** On POSIX too a backslash separates in [DirName] and [BaseName], but not in [Normalize], and
    a letter and a colon are a drive. *)
Example backslash_separates : BaseName [97; 92; 98] = Ok [98] /\ DirName [97; 92; 98] = Ok [97] /\ Normalize [97; 92; 92; 98] = Ok [97; 92; 92; 98].
Proof. vm_compute. by repeat split. Qed.

Example colon_is_drive : BaseName [97; 58; 98] = Ok [98] /\ DirName [97; 58; 98] = Ok [97; 58].
Proof. vm_compute. by repeat split. Qed.

(** [AppendExtension] does not normalise. *)
Example extension_not_normal : exists p, AppendExtension [97] [47; 47; 98] true = Ok (true, p) /\ normal p = false.
Proof. eexists. split; [reflexivity|]. vm_compute. done. Qed.
