(* ===== verification/FileOs.v ===== *)
(** * Files as the operating system keeps them

    What the file layer relies on: the system calls it makes, what POSIX and Linux document about
    them for regular files ([exec]), and the class of kernels that behave so ([Kernel]).  A kernel
    may interrupt a call, transfer fewer bytes than asked for, or fail at any time; it keeps its
    files only as documented.  [Scripted] is a kernel that runs and takes such events from a list. *)

From stdpp Require Import gmap.
From S2P Require Import Prelude Memory.

Set Default Proof Using "Type".
#[local] Open Scope Z_scope.

(** ** The numbers of errno.h and fcntl.h on Linux *)

Definition EPERM : Z := 1.
Definition ENOENT : Z := 2.
Definition EINTR : Z := 4.
Definition EIO : Z := 5.
Definition EBADF : Z := 9.
Definition ENOMEM : Z := 12.
Definition EACCES : Z := 13.
Definition EBUSY : Z := 16.
Definition EEXIST : Z := 17.
Definition ENOTDIR : Z := 20.
Definition EISDIR : Z := 21.
Definition EINVAL : Z := 22.
Definition ENFILE : Z := 23.
Definition EMFILE : Z := 24.
Definition ETXTBSY : Z := 26.
Definition ENOSPC : Z := 28.
Definition EROFS : Z := 30.
Definition EOVERFLOW : Z := 75.

Definition O_WRONLY : Z := 1.
Definition O_RDWR : Z := 2.
Definition O_CREAT : Z := 64.
Definition O_EXCL : Z := 128.
Definition O_NOCTTY : Z := 256.
Definition O_TRUNC : Z := 512.
Definition O_APPEND : Z := 1024.
Definition O_NDELAY : Z := 2048.

Definition F_RDLCK : Z := 0.
Definition F_WRLCK : Z := 1.
Definition F_UNLCK : Z := 2.

Definition S_IFREG : Z := 32768.

Definition flag_set (flags f : Z) : bool := negb (Z.land flags f =? 0).

(** ** The files *)

Inductive Node := Regular (contents : list Z) | Other.

(** What [open] makes and descriptors refer to; [dup] shares it. *)
Record Desc := mkDesc { inode : positive; offset : Z; readable : bool; writable : bool; appends : bool }.

Record Files := mkFiles { names : gmap (list Z) positive; nodes : gmap positive Node; descs : gmap positive Desc }.

Record System := mkSystem { files : Files; fds : gmap Z positive }.

Definition fresh_key {A} (m : gmap positive A) : positive := Pos.succ (map_fold (fun k _ r => Pos.max k r) 1%positive m).

Definition set_node (i : positive) (c : list Z) (F : Files) : Files := mkFiles (names F) (<[i := Regular c]> (nodes F)) (descs F).
Definition set_offset (d : positive) (ds : Desc) (o : Z) (F : Files) : Files :=
  mkFiles (names F) (nodes F) (<[d := mkDesc (inode ds) o (readable ds) (writable ds) (appends ds)]> (descs F)).

Definition len (l : list Z) : Z := Z.of_nat (length l).

(** The bytes at an offset; a gap behind the end reads as zeros. *)
Definition read_at (c : list Z) (off n : Z) : list Z := take (Z.to_nat n) (drop (Z.to_nat off) c).
Definition write_at (c : list Z) (off : Z) (bs : list Z) : list Z :=
  take (Z.to_nat off) c ++ replicate (Z.to_nat off - length c) 0 ++ bs ++ drop (Z.to_nat off + length bs) c.
Definition resize (c : list Z) (n : Z) : list Z := take (Z.to_nat n) c ++ replicate (Z.to_nat n - length c) 0.

(** ** The calls *)

Inductive call :=
| Pread (fd n off : Z) | Read_ (fd n : Z) | Pwrite (fd : Z) (bs : list Z) (off : Z) | Write_ (fd : Z) (bs : list Z)
| Lseek (fd off whence : Z) | Getfl (fd : Z) | Ftruncate (fd length : Z) | Fstat (fd : Z) | Fdatasync (fd : Z)
| Dup (fd : Z) | Setlk (fd type : Z) | Open (path : list Z) (flags mode : Z) | Close_ (fd : Z) | Unlink (path : list Z).

(** What a call returns and stores through its pointer, or [-1] with [errno]. *)
Inductive answer := Ret (n : Z) (out : list Z) | Err (errno : Z).

#[export] Instance answer_eq_dec : EqDecision answer.
Proof. solve_decision. Defined.

(** One file of a descriptor, and nothing about what is not a regular file. *)
Definition with_file (S : System) (fd : Z) (k : positive -> Desc -> list Z -> System * answer) : option (System * answer) :=
  match fds S !! fd with
  | None => Some (S, Err EBADF)
  | Some d => ds ← descs (files S) !! d; match nodes (files S) !! inode ds with Some (Regular c) => Some (k d ds c) | _ => None end
  end.

Definition open_desc (i : positive) (flags : Z) : Desc :=
  let access := Z.land flags 3 in mkDesc i 0 ((access =? 0) || (access =? O_RDWR)) ((access =? O_WRONLY) || (access =? O_RDWR)) (flag_set flags O_APPEND).

Definition opened (S : System) (F : Files) (newfd : Z) (ds : Desc) : System * answer :=
  let d := fresh_key (descs F) in (mkSystem (mkFiles (names F) (nodes F) (<[d := ds]> (descs F))) (<[newfd := d]> (fds S)), Ret newfd []).

(** At most [lim] bytes are transferred; [newfd] is the descriptor a call makes. *)
Definition exec (lim newfd : Z) (c : call) (S : System) : option (System * answer) :=
  let F := files S in
  match c with
  | Pread fd n off => with_file S fd (fun d ds c =>
      if negb (readable ds) then (S, Err EBADF) else if off <? 0 then (S, Err EINVAL) else
      let bs := read_at c off (Z.min lim n) in (S, Ret (len bs) bs))
  | Read_ fd n => with_file S fd (fun d ds c =>
      if negb (readable ds) then (S, Err EBADF) else
      let bs := read_at c (offset ds) (Z.min lim n) in (mkSystem (set_offset d ds (offset ds + len bs) F) (fds S), Ret (len bs) bs))
  | Pwrite fd bs off => with_file S fd (fun d ds c =>
      if negb (writable ds) then (S, Err EBADF) else if off <? 0 then (S, Err EINVAL) else if (length bs =? 0)%nat then (S, Ret 0 []) else
      let bs := take (Z.to_nat lim) bs in
      (mkSystem (set_node (inode ds) (write_at c (if appends ds then len c else off) bs) F) (fds S), Ret (len bs) []))
  | Write_ fd bs => with_file S fd (fun d ds c =>
      if negb (writable ds) then (S, Err EBADF) else if (length bs =? 0)%nat then (S, Ret 0 []) else
      let bs := take (Z.to_nat lim) bs in let at_ := if appends ds then len c else offset ds in
      (mkSystem (set_offset d ds (at_ + len bs) (set_node (inode ds) (write_at c at_ bs) F)) (fds S), Ret (len bs) []))
  | Lseek fd off whence => with_file S fd (fun d ds c =>
      let new := (if whence =? 0 then 0 else if whence =? 1 then offset ds else len c) + off in
      if new <? 0 then (S, Err EINVAL) else if 2 ^ 63 <=? new then (S, Err EOVERFLOW) else (mkSystem (set_offset d ds new F) (fds S), Ret new []))
  | Getfl fd => with_file S fd (fun d ds c =>
      (S, Ret (Z.lor (if readable ds then if writable ds then O_RDWR else 0 else O_WRONLY) (if appends ds then O_APPEND else 0)) []))
  | Ftruncate fd n => with_file S fd (fun d ds c =>
      if negb (writable ds) || (n <? 0) then (S, Err EINVAL) else (mkSystem (set_node (inode ds) (resize c n) F) (fds S), Ret 0 []))
  | Fstat fd => with_file S fd (fun d ds c => (S, Ret 0 [S_IFREG; len c]))
  | Fdatasync fd => with_file S fd (fun d ds c => (S, Ret 0 []))
  | Dup fd => with_file S fd (fun d ds c => (mkSystem F (<[newfd := d]> (fds S)), Ret newfd []))
  | Setlk fd type => with_file S fd (fun d ds c =>
      if (type =? F_RDLCK) && negb (readable ds) || (type =? F_WRLCK) && negb (writable ds) then (S, Err EBADF) else (S, Ret 0 []))
  | Open path flags _ =>
      match names F !! path with
      | None =>
        if flag_set flags O_CREAT then
          let i := fresh_key (nodes F) in
          Some (opened S (mkFiles (<[path := i]> (names F)) (<[i := Regular []]> (nodes F)) (descs F)) newfd (open_desc i flags))
        else Some (S, Err ENOENT)
      | Some i =>
        if flag_set flags O_CREAT && flag_set flags O_EXCL then Some (S, Err EEXIST) else
        match nodes F !! i with
        | Some (Regular c) =>
          if flag_set flags O_TRUNC then (if writable (open_desc i flags) then Some (opened S (set_node i [] F) newfd (open_desc i flags)) else None)
          else Some (opened S F newfd (open_desc i flags))
        | _ => None
        end
      end
  | Close_ fd => Some (if decide (is_Some (fds S !! fd)) then (mkSystem F (delete fd (fds S)), Ret 0 []) else (S, Err EBADF))
  | Unlink path => Some (if decide (is_Some (names F !! path)) then (mkSystem (mkFiles (delete path (names F)) (nodes F) (descs F)) (fds S), Ret 0 []) else (S, Err ENOENT))
  end.

(** A failing [close] closes all the same; every other failing call changes nothing. *)
Definition on_error (c : call) (S : System) : System := match c with Close_ fd => mkSystem (files S) (delete fd (fds S)) | _ => S end.

(** The calls that Linux never interrupts. *)
Definition interruptible (c : call) : bool := match c with Lseek _ _ _ | Getfl _ | Fstat _ | Unlink _ => false | _ => true end.

(** The calls that succeed on every descriptor of a regular file. *)
Definition can_fail (c : call) : bool := match c with Lseek _ _ _ | Getfl _ => false | _ => true end.

Definition unused (S : System) (fd : Z) : Prop := 0 <= fd /\ fds S !! fd = None.

(** ** Kernels

    [patience] bounds how often in a row a call is still interrupted; from a [calm] state on no
    call fails but for the reasons [exec] knows. *)
Class Kernel (OS : Type) := {
  syscall : call -> OS -> OS * answer;
  view : OS -> System;
  patience : OS -> nat;
  calm : OS -> Prop;
  syscall_interrupted c s s' : syscall c s = (s', Err EINTR) ->
    interruptible c = true /\ view s' = on_error c (view s) /\ (patience s' < patience s)%nat /\ (calm s -> calm s');
  syscall_answers c s s' r : syscall c s = (s', r) -> r <> Err EINTR ->
    (exists lim fd, 0 < lim /\ unused (view s) fd /\ (exec lim fd c (view s) = None \/ exec lim fd c (view s) = Some (view s', r)) /\ (calm s -> calm s')) \/
    (can_fail c = true /\ ~ calm s /\ view s' = on_error c (view s) /\ exists e, r = Err e /\ e <> 0);
}.

(** ** Keys that are not in use *)

Lemma fresh_key_above {A} (m : gmap positive A) k x : m !! k = Some x -> (k < fresh_key m)%positive.
Proof.
  unfold fresh_key. revert k x. apply (map_fold_weak_ind (fun r m => forall k x, m !! k = Some x -> (k < Pos.succ r)%positive)).
  - intros k x H. by rewrite lookup_empty in H.
  - intros j y m' r _ IH k x [[<- <-]|[_ H]]%lookup_insert_Some; [lia|]. specialize (IH k x H). lia.
Qed.

Lemma fresh_key_None {A} (m : gmap positive A) : m !! fresh_key m = None.
Proof. destruct (m !! fresh_key m) as [x|] eqn:E; [|done]. apply fresh_key_above in E. lia. Qed.

(** ** A kernel that follows a script *)

Inductive event := Interrupt | Short (n : positive) | Fault (errno : positive).

Record Scripted := mkScripted { system : System; script : list event }.

Definition free_fd (m : gmap Z positive) : Z := 1 + map_fold (fun k _ r => Z.max k r) 2 m.

Fixpoint interrupts (l : list event) : nat := match l with Interrupt :: l => S (interrupts l) | _ => O end.

Definition is_fault (e : event) : bool := match e with Fault _ => true | _ => false end.

(** Without an event a call moves this many bytes. *)
Definition kMost : Z := 64.

(** What lies outside [exec] is refused. *)
Definition perform (lim : Z) (c : call) (S : System) (rest : list event) : Scripted * answer :=
  match exec lim (free_fd (fds S)) c S with Some (S', r) => (mkScripted S' rest, r) | None => (mkScripted S rest, Err EINVAL) end.

Definition scripted_call (c : call) (m : Scripted) : Scripted * answer :=
  let S := system m in
  match script m with
  | [] => perform kMost c S []
  | Interrupt :: rest => if interruptible c then (mkScripted (on_error c S) rest, Err EINTR) else perform kMost c S rest
  | Short n :: rest => perform (Z.pos n) c S rest
  | Fault e :: rest => if (Z.pos e =? EINTR) || negb (can_fail c) then perform kMost c S rest else (mkScripted (on_error c S) rest, Err (Z.pos e))
  end.

Lemma free_fd_unused S : unused S (free_fd (fds S)).
Proof.
  assert (H : forall m : gmap Z positive, 2 <= map_fold (fun k _ r => Z.max k r) 2 m /\ forall k x, m !! k = Some x -> k <= map_fold (fun k _ r => Z.max k r) 2 m).
  { apply (map_fold_weak_ind (fun r m => 2 <= r /\ forall k x, m !! k = Some x -> k <= r)).
    - split; [done|]. intros k x H. by rewrite lookup_empty in H.
    - intros j y m r _ [H1 H2]. split; [lia|]. intros k x [[<- <-]|[_ H]]%lookup_insert_Some; [lia|]. specialize (H2 k x H). lia. }
  destruct (H (fds S)) as [H1 H2]. split; [unfold free_fd; lia|]. destruct (fds S !! free_fd (fds S)) as [x|] eqn:E; [|done]. apply H2 in E. unfold free_fd in E. lia.
Qed.

Lemma with_file_answer S fd k p (P : answer -> Prop) : with_file S fd k = Some p -> P (Err EBADF) -> (forall d ds c, P (k d ds c).2) -> P p.2.
Proof.
  unfold with_file. intros H H1 H2. destruct (fds S !! fd) as [d|]; [|by injection H as <-]. destruct (descs (files S) !! d) as [ds|]; cbn in H; [|done].
  destruct (nodes (files S) !! inode ds) as [[c|]|]; [|done..]. injection H as <-. apply H2.
Qed.

(** The reasons [exec] knows are none of an interruption. *)
Lemma exec_not_interrupted lim fd c S p : exec lim fd c S = Some p -> p.2 <> Err EINTR.
Proof.
  destruct c; cbn [exec]; intros H; try (apply (with_file_answer _ _ _ _ (fun r => r <> Err EINTR) H); [done|intros; cbn beta; repeat case_match; intros [=]]);
    repeat case_match; simplify_eq/=; try done.
Qed.

Lemma perform_not_interrupted lim c S rest s' r : perform lim c S rest = (s', r) -> r <> Err EINTR.
Proof. unfold perform. destruct (exec _ _ c S) as [[S' r']|] eqn:E; intros [= <- <-]; [exact (exec_not_interrupted _ _ _ _ _ E)|done]. Qed.

Lemma perform_answers lim c S rest s' r : 0 < lim -> perform lim c S rest = (s', r) ->
  script s' = rest /\ exists lim fd, 0 < lim /\ unused S fd /\ (exec lim fd c S = None \/ exec lim fd c S = Some (system s', r)) .
Proof.
  intros Hl. unfold perform. destruct (exec _ _ c S) as [[S' r']|] eqn:E; intros [= <- <-]; (split; [done|]); exists lim, (free_fd (fds S)); (split; [done|]); (split; [apply free_fd_unused|]); [by right|by left].
Qed.

#[export, refine] Instance scripted_kernel : Kernel Scripted := {
  syscall := scripted_call; view := system; patience m := interrupts (script m); calm m := Forall (fun e => is_fault e = false) (script m) }.
Proof.
  - intros c [S l] s'. unfold scripted_call. cbn [system script]. destruct l as [|[|n|e] l]; intros H.
    + by apply perform_not_interrupted in H.
    + destruct (interruptible c) eqn:Ei; [injection H as <-; cbn; split; [done|]; split; [done|]; split; [lia|by intros [_ ?]%Forall_cons_1]|].
      by apply perform_not_interrupted in H.
    + by apply perform_not_interrupted in H.
    + destruct (Z.eqb_spec (Z.pos e) EINTR) as [He|He]; [by apply perform_not_interrupted in H|]. destruct (can_fail c); [|by apply perform_not_interrupted in H]. apply (f_equal snd) in H. cbn in H. congruence.
  - intros c [S l] s' r. unfold scripted_call. cbn [system script].
    assert (Hp : forall lim rest (P : Prop), 0 < lim -> (P -> Forall (fun e => is_fault e = false) rest) -> perform lim c S rest = (s', r) ->
      exists lim fd, 0 < lim /\ unused S fd /\ (exec lim fd c S = None \/ exec lim fd c S = Some (system s', r)) /\ (P -> Forall (fun e => is_fault e = false) (script s'))).
    { intros lim rest P Hl HP H. destruct (perform_answers _ _ _ _ _ _ Hl H) as (E & lim' & fd & H1 & H2 & H3). exists lim', fd. rewrite E. auto. }
    assert (calm_tail : forall e l, Forall (fun e => is_fault e = false) (e :: l) -> Forall (fun e => is_fault e = false) l) by (by intros e0 l0 [_ ?]%Forall_cons_1).
    destruct l as [|[|n|e] l]; intros H Hr.
    + left. eapply Hp; [|exact (fun H => H)|exact H]; done.
    + destruct (interruptible c); [by injection H as _ <-|]. left. eapply Hp; [|apply calm_tail|exact H]; done.
    + left. eapply Hp; [|apply calm_tail|exact H]; done.
    + destruct ((Z.pos e =? EINTR) || negb (can_fail c)) eqn:Ef; [left; eapply Hp; [|apply calm_tail|exact H]; done|]. apply orb_false_iff in Ef as [_ Ef]. apply negb_false_iff in Ef. right. split; [done|]. injection H as <- <-. cbn. split; [by intros [? _]%Forall_cons_1|]. split; [done|]. by exists (Z.pos e).
Defined.
