(* ===== verification/FileIo.v ===== *)
(** * base::File (filesystem/file.h, file.cc, posix/file_posix.cc, posix/eintr_wrapper.h)

    The POSIX code over any kernel of FileOs.v.  A [File] is a value, a buffer the list of its
    bytes; a transfer past the end of a buffer, a failed [BASE_DCHECK] and [BASE_IMPOSSIBLE] are
    [Undef].  [ndebug] says which of the two retry loops is compiled in; the one without a limit
    gets as many turns as the kernel is patient.  [errno] is read from the answer that set it. *)

From stdpp Require Import gmap strings.
From S2P Require Import Prelude Memory CodeConvert FileOs.

Set Default Proof Using "Type".
#[local] Open Scope Z_scope.

(** ** Stateful computations *)

Definition M (OS A : Type) : Type := OS -> res (OS * A).
#[export] Instance M_ret {OS} : MRet (M OS) := fun A a s => Ok (s, a).
#[export] Instance M_bind {OS} : MBind (M OS) := fun A B k m s => match m s with Ok (s, a) => k a s | Fatal => Fatal | Undef => Undef end.
Definition lift {OS A} (r : res A) : M OS A := fun s => match r with Ok a => Ok (s, a) | Fatal => Fatal | Undef => Undef end.

(** ** file.h *)

Definition FLAG_OPEN : Z := 1.
Definition FLAG_CREATE : Z := 2.
Definition FLAG_OPEN_ALWAYS : Z := 4.
Definition FLAG_CREATE_ALWAYS : Z := 8.
Definition FLAG_OPEN_TRUNCATED : Z := 16.
Definition FLAG_READ : Z := 32.
Definition FLAG_WRITE : Z := 64.
Definition FLAG_APPEND : Z := 128.
Definition FLAG_ASYNC : Z := 1024.
Definition FLAG_DELETE_ON_CLOSE : Z := 8192.
Definition FLAG_WRITE_ATTRIBUTES : Z := 16384.
Definition FLAG_TERMINAL_DEVICE : Z := 65536.

Inductive Error :=
| FILE_OK | FILE_ERROR_FAILED | FILE_ERROR_IN_USE | FILE_ERROR_EXISTS | FILE_ERROR_NOT_FOUND | FILE_ERROR_ACCESS_DENIED
| FILE_ERROR_TOO_MANY_OPENED | FILE_ERROR_NO_MEMORY | FILE_ERROR_NO_SPACE | FILE_ERROR_NOT_A_DIRECTORY | FILE_ERROR_INVALID_OPERATION
| FILE_ERROR_SECURITY | FILE_ERROR_ABORT | FILE_ERROR_NOT_A_FILE | FILE_ERROR_NOT_EMPTY | FILE_ERROR_INVALID_URL | FILE_ERROR_IO | FILE_ERROR_MAX.

Inductive Whence := FROM_BEGIN | FROM_CURRENT | FROM_END.
Definition whence_number (w : Whence) : Z := match w with FROM_BEGIN => 0 | FROM_CURRENT => 1 | FROM_END => 2 end.

Inductive LockMode := kShared | kExclusive.

Record Info := mkInfo { size : Z; is_directory : bool; is_symbolic_link : bool }.

Record File := mkFile { file_ : Z; path_ : list Z; error_details_ : Error; created_ : bool; async_ : bool }.

Definition new_file : File := mkFile (-1) [] FILE_ERROR_FAILED false false.

Definition IsValid (f : File) : bool := negb (file_ f =? -1).

(** [File(PlatformFile, bool)] and [File(ScopedPlatformFile, bool)] *)
Definition file_of (fd : Z) (async : bool) : res File := _ ← dcheck (-1 <=? fd); Ok (mkFile fd [] FILE_OK false async).
Definition file_of_error (e : Error) : File := mkFile (-1) [] e false false.

Definition GetPlatformFile (f : File) : Z := file_ f.

Definition with_fd (f : File) (fd : Z) : File := mkFile fd (path_ f) (error_details_ f) (created_ f) (async_ f).

(** [ScopedFD::release] *)
Definition TakePlatformFile (f : File) : Z * File := (file_ f, with_fd f (-1)).

Definition ErrorToString (e : Error) : res string :=
  match e with
  | FILE_OK => Ok "FILE_OK" | FILE_ERROR_FAILED => Ok "FILE_ERROR_FAILED" | FILE_ERROR_IN_USE => Ok "FILE_ERROR_IN_USE"
  | FILE_ERROR_EXISTS => Ok "FILE_ERROR_EXISTS" | FILE_ERROR_NOT_FOUND => Ok "FILE_ERROR_NOT_FOUND"
  | FILE_ERROR_ACCESS_DENIED => Ok "FILE_ERROR_ACCESS_DENIED" | FILE_ERROR_TOO_MANY_OPENED => Ok "FILE_ERROR_TOO_MANY_OPENED"
  | FILE_ERROR_NO_MEMORY => Ok "FILE_ERROR_NO_MEMORY" | FILE_ERROR_NO_SPACE => Ok "FILE_ERROR_NO_SPACE"
  | FILE_ERROR_NOT_A_DIRECTORY => Ok "FILE_ERROR_NOT_A_DIRECTORY" | FILE_ERROR_INVALID_OPERATION => Ok "FILE_ERROR_INVALID_OPERATION"
  | FILE_ERROR_SECURITY => Ok "FILE_ERROR_SECURITY" | FILE_ERROR_ABORT => Ok "FILE_ERROR_ABORT" | FILE_ERROR_NOT_A_FILE => Ok "FILE_ERROR_NOT_A_FILE"
  | FILE_ERROR_NOT_EMPTY => Ok "FILE_ERROR_NOT_EMPTY" | FILE_ERROR_INVALID_URL => Ok "FILE_ERROR_INVALID_URL" | FILE_ERROR_IO => Ok "FILE_ERROR_IO"
  | FILE_ERROR_MAX => Undef
  end%string.

Definition OSErrorToFileError (saved_errno : Z) : res Error :=
  if (saved_errno =? EACCES) || (saved_errno =? EISDIR) || (saved_errno =? EROFS) || (saved_errno =? EPERM) then Ok FILE_ERROR_ACCESS_DENIED
  else if (saved_errno =? EBUSY) || (saved_errno =? ETXTBSY) then Ok FILE_ERROR_IN_USE
  else if saved_errno =? EEXIST then Ok FILE_ERROR_EXISTS
  else if saved_errno =? EIO then Ok FILE_ERROR_IO
  else if saved_errno =? ENOENT then Ok FILE_ERROR_NOT_FOUND
  else if (saved_errno =? ENFILE) || (saved_errno =? EMFILE) then Ok FILE_ERROR_TOO_MANY_OPENED
  else if saved_errno =? ENOMEM then Ok FILE_ERROR_NO_MEMORY
  else if saved_errno =? ENOSPC then Ok FILE_ERROR_NO_SPACE
  else if saved_errno =? ENOTDIR then Ok FILE_ERROR_NOT_A_DIRECTORY
  else _ ← dcheck (negb (0 =? saved_errno)); Ok FILE_ERROR_FAILED.

(** ** System calls and their answers *)

Definition rv_of (r : answer) : Z := match r with Ret n _ => n | Err _ => -1 end.
Definition errno_of (r : answer) : Z := match r with Ret _ _ => 0 | Err e => e end.
Definition out_of (r : answer) : list Z := match r with Ret _ out => out | Err _ => [] end.
Definition interrupted (r : answer) : bool := match r with Ret _ _ => false | Err e => e =? EINTR end.

(** What [errno] says now. *)
Definition GetLastFileError (r : answer) : res Error := OSErrorToFileError (errno_of r).

Definition FromStat (st : list Z) : res Info :=
  match st with
  | [st_mode; st_size] => Ok (mkInfo st_size (Z.land st_mode 61440 =? 16384) (Z.land st_mode 61440 =? 40960))
  | _ => Undef
  end.

(** [offset + bytes_done], an [i64] and an [int]. *)
Definition add_offset (off k : Z) : res Z := if off + k <? 2 ^ 63 then Ok (off + k) else Undef.

(** The bytes of a buffer from [i] on are overwritten. *)
Definition store (data : list Z) (i : Z) (bs : list Z) : res (list Z) :=
  if i + len bs <=? len data then Ok (take (Z.to_nat i) data ++ bs ++ drop (Z.to_nat i + length bs) data) else Undef.

Definition FcntlFlockType (mode : option LockMode) : Z :=
  match mode with None => F_UNLCK | Some kShared => F_RDLCK | Some kExclusive => F_WRLCK end.

(** The characters in front of the null. *)
Fixpoint c_string (text : list Z) : list Z := match text with c :: text => if c =? 0 then [] else c :: c_string text | [] => [] end.

(** The first half of [DoInitialize]. *)
Definition open_flags (flags : Z) : res Z :=
  let create := if flag_set flags FLAG_CREATE then Z.lor O_CREAT O_EXCL else 0 in
  create ← (if flag_set flags FLAG_CREATE_ALWAYS then _ ← dcheck (create =? 0); _ ← dcheck (flag_set flags FLAG_WRITE); Ok (Z.lor O_CREAT O_TRUNC) else Ok create);
  create ← (if flag_set flags FLAG_OPEN_TRUNCATED then _ ← dcheck (create =? 0); _ ← dcheck (flag_set flags FLAG_WRITE); Ok O_TRUNC else Ok create);
  if (create =? 0) && negb (flag_set flags FLAG_OPEN) && negb (flag_set flags FLAG_OPEN_ALWAYS) then Undef else
  access ← (if flag_set flags FLAG_WRITE && flag_set flags FLAG_READ then Ok (Z.lor create O_RDWR)
    else if flag_set flags FLAG_WRITE then Ok (Z.lor create O_WRONLY)
    else if negb (flag_set flags FLAG_READ) && negb (flag_set flags FLAG_WRITE_ATTRIBUTES) && negb (flag_set flags FLAG_APPEND) && negb (flag_set flags FLAG_OPEN_ALWAYS) then Undef
    else Ok create);
  let access := if flag_set flags FLAG_TERMINAL_DEVICE then Z.lor access (Z.lor O_NOCTTY O_NDELAY) else access in
  Ok (if flag_set flags FLAG_APPEND && flag_set flags FLAG_READ then Z.lor access (Z.lor O_APPEND O_RDWR)
    else if flag_set flags FLAG_APPEND then Z.lor access (Z.lor O_APPEND O_WRONLY) else access).

(** [S_IRUSR | S_IWUSR] *)
Definition kMode : Z := 384.

Section FileCode.

Context {OS : Type} `{Kernel OS}.
Context (ndebug : bool).

(** What the allocator grants. *)
Context (grants : Z -> bool).

Definition sys (c : call) : M OS answer := fun s => Ok (syscall c s).

(** ** eintr_wrapper.h *)

Fixpoint eintr_loop (fuel : nat) (eintr_wrapper_counter : Z) (c : call) : M OS answer :=
  match fuel with
  | O => lift Undef
  | S fuel =>
    r ← sys c;
    if interrupted r && (ndebug || (eintr_wrapper_counter <? 100)) then eintr_loop fuel (eintr_wrapper_counter + 1) c else mret r
  end.

Definition HANDLE_EINTR (c : call) : M OS answer := fun s => eintr_loop (S (patience s)) 0 c s.

Definition IGNORE_EINTR (c : call) : M OS answer := r ← sys c; mret (if interrupted r then Ret 0 [] else r).

(** ** scoped_file.cc, scoped_generic.h *)

Definition Free (fd : Z) : M OS unit :=
  r ← IGNORE_EINTR (Close_ fd);
  let ret := if negb (rv_of r =? 0) && negb (errno_of r =? EBADF) then 0 else rv_of r in
  lift (dcheck (0 =? ret)).

Definition FreeIfNecessary (fd : Z) : M OS unit := if negb (fd =? -1) then Free fd else mret tt.

(** [file_.reset(value)]; a self-reset terminates. *)
Definition reset (f : File) (value : Z) : M OS File :=
  if negb (file_ f =? -1) && (file_ f =? value) then lift Fatal else _ ← FreeIfNecessary (file_ f); mret (with_fd f value).

(** ** file_posix.cc *)

Definition IsOpenAppend (fd : Z) : M OS bool := r ← sys (Getfl fd); mret (flag_set (rv_of r) O_APPEND).

Definition CallFtruncate (fd length : Z) : M OS Z := r ← HANDLE_EINTR (Ftruncate fd length); mret (rv_of r).

Definition CallFcntlFlock (fd : Z) (mode : option LockMode) : M OS Error :=
  r ← HANDLE_EINTR (Setlk fd (FcntlFlockType mode));
  if rv_of r =? -1 then lift (GetLastFileError r) else mret FILE_OK.

Definition Close (f : File) : M OS File := if negb (IsValid f) then mret f else reset f (-1).

Definition Seek (f : File) (whence : Whence) (offset : Z) : M OS Z :=
  _ ← lift (dcheck (IsValid f)); r ← sys (Lseek (file_ f) offset (whence_number whence)); mret (rv_of r).

(** The loops of [Read] and [ReadAtCurrentPos]; [next] is the call they make with
    [bytes_read] bytes behind them. *)
Fixpoint read_loop (fuel : nat) (next : Z -> res call) (data : list Z) (size bytes_read : Z) : M OS (list Z * Z) :=
  match fuel with
  | O => lift Undef
  | S fuel =>
    c ← lift (next bytes_read);
    _ ← lift (dcheck (size <=? len data));
    r ← HANDLE_EINTR c;
    let rv := i32 (rv_of r) in
    if rv <=? 0 then mret (data, if bytes_read =? 0 then rv else bytes_read) else
    data ← lift (store data bytes_read (out_of r));
    let bytes_read := bytes_read + rv in
    if bytes_read <? size then read_loop fuel next data size bytes_read else mret (data, if bytes_read =? 0 then rv else bytes_read)
  end.

Definition Read (f : File) (offset : Z) (data : list Z) (size : Z) : M OS (list Z * Z) :=
  _ ← lift (dcheck (IsValid f));
  if size <? 0 then mret (data, -1) else
  read_loop (S (Z.to_nat size)) (fun bytes_read => o ← add_offset offset bytes_read; Ok (Pread (file_ f) (size - bytes_read) o)) data size 0.

Definition ReadAtCurrentPos (f : File) (data : list Z) (size : Z) : M OS (list Z * Z) :=
  _ ← lift (dcheck (IsValid f));
  if size <? 0 then mret (data, -1) else
  read_loop (S (Z.to_nat size)) (fun bytes_read => Ok (Read_ (file_ f) (size - bytes_read))) data size 0.

(** One call; a negative [size] is cast to the size of a buffer as it is. *)
Definition read_once (c : call) (data : list Z) (count : Z) : M OS (list Z * Z) :=
  _ ← lift (dcheck (count <=? len data));
  r ← HANDLE_EINTR c;
  data ← lift (store data 0 (out_of r));
  mret (data, i32 (rv_of r)).

Definition ReadNoBestEffort (f : File) (offset : Z) (data : list Z) (size : Z) : M OS (list Z * Z) :=
  _ ← lift (dcheck (IsValid f)); read_once (Pread (file_ f) (u64 size) offset) data (u64 size).

Definition ReadAtCurrentPosNoBestEffort (f : File) (data : list Z) (size : Z) : M OS (list Z * Z) :=
  _ ← lift (dcheck (IsValid f));
  if size <? 0 then mret (data, -1) else read_once (Read_ (file_ f) size) data size.

(** The loops of [Write] and [WriteAtCurrentPos]; [next] is the call that writes some bytes
    behind [bytes_written] others. *)
Fixpoint write_loop (fuel : nat) (next : Z -> list Z -> res call) (data : list Z) (total bytes_written : Z) : M OS Z :=
  match fuel with
  | O => lift Undef
  | S fuel =>
    _ ← lift (dcheck (total <=? len data));
    c ← lift (next bytes_written (take (Z.to_nat (total - bytes_written)) (drop (Z.to_nat bytes_written) data)));
    r ← HANDLE_EINTR c;
    let rv := i32 (rv_of r) in
    if rv <=? 0 then mret (if bytes_written =? 0 then rv else bytes_written) else
    let bytes_written := bytes_written + rv in
    if bytes_written <? total then write_loop fuel next data total bytes_written else mret (if bytes_written =? 0 then rv else bytes_written)
  end.

Definition WriteAtCurrentPos (f : File) (data : list Z) (size : Z) : M OS Z :=
  _ ← lift (dcheck (IsValid f));
  if size <? 0 then mret (-1) else write_loop (S (Z.to_nat size)) (fun _ bs => Ok (Write_ (file_ f) bs)) data size 0.

Definition Write (f : File) (offset : Z) (data : list Z) (size : Z) : M OS Z :=
  if 2 ^ 31 - 1 <? size then mret (-1) else
  let total := size in
  append ← IsOpenAppend (file_ f);
  if append : bool then WriteAtCurrentPos f data total else
  _ ← lift (dcheck (IsValid f));
  write_loop (S (Z.to_nat total)) (fun bytes_written bs => o ← add_offset offset bytes_written; Ok (Pwrite (file_ f) bs o)) data total 0.

Definition WriteAtCurrentPosNoBestEffort (f : File) (data : list Z) (size : Z) : M OS Z :=
  _ ← lift (dcheck (IsValid f));
  if size <? 0 then mret (-1) else
  _ ← lift (dcheck (size <=? len data));
  r ← HANDLE_EINTR (Write_ (file_ f) (take (Z.to_nat size) data)); mret (i32 (rv_of r)).

Definition GetLength (f : File) : M OS Z :=
  _ ← lift (dcheck (IsValid f));
  r ← sys (Fstat (file_ f));
  if negb (rv_of r =? 0) then mret (-1) else info ← lift (FromStat (out_of r)); mret (size info).

Definition SetLength (f : File) (length : Z) : M OS bool :=
  _ ← lift (dcheck (IsValid f)); rv ← CallFtruncate (file_ f) length; mret (rv =? 0).

Definition GetInfo (f : File) : M OS (option Info) :=
  _ ← lift (dcheck (IsValid f));
  r ← sys (Fstat (file_ f));
  if negb (rv_of r =? 0) then mret None else info ← lift (FromStat (out_of r)); mret (Some info).

Definition Lock (f : File) (mode : LockMode) : M OS Error := CallFcntlFlock (file_ f) (Some mode).
Definition Unlock (f : File) : M OS Error := CallFcntlFlock (file_ f) None.

Definition Flush (f : File) : M OS bool := _ ← lift (dcheck (IsValid f)); r ← HANDLE_EINTR (Fdatasync (file_ f)); mret (rv_of r =? 0).

Definition Duplicate (f : File) : M OS File :=
  if negb (IsValid f) then mret new_file else
  r ← HANDLE_EINTR (Dup (GetPlatformFile f));
  if rv_of r =? -1 then e ← lift (GetLastFileError r); mret (file_of_error e) else lift (file_of (rv_of r) (async_ f)).

Definition DoInitialize (f : File) (path : list Z) (flags : Z) : M OS File :=
  _ ← lift (dcheck (negb (IsValid f)));
  let f := mkFile (file_ f) (path_ f) (error_details_ f) false (async_ f) in
  oflags ← lift (open_flags flags);
  _ ← lift (dcheck (IsStringUTF8AndReportIdx path =? 0));
  let utf8_path_buf := c_string path in
  r ← HANDLE_EINTR (Open utf8_path_buf oflags kMode);
  '(r, created) ← (if flag_set flags FLAG_OPEN_ALWAYS && (rv_of r <? 0) then
      r ← HANDLE_EINTR (Open utf8_path_buf (Z.lor oflags O_CREAT) kMode); mret (r, 0 <=? rv_of r)
    else mret (r, false));
  let f := mkFile (file_ f) (path_ f) (error_details_ f) created (async_ f) in
  if rv_of r <? 0 then e ← lift (GetLastFileError r); mret (mkFile (file_ f) (path_ f) e (created_ f) (async_ f)) else
  let created := created || flag_set flags (Z.lor FLAG_CREATE_ALWAYS FLAG_CREATE) in
  _ ← (if flag_set flags FLAG_DELETE_ON_CLOSE then sys (Unlink utf8_path_buf) else mret r);
  reset (mkFile (file_ f) (path_ f) FILE_OK created (flag_set flags FLAG_ASYNC)) (rv_of r).

Definition SetPlatformFile (f : File) (fd : Z) : M OS File := _ ← lift (dcheck (negb (IsValid f))); reset f fd.

(** ** file.cc *)

Definition Initialize (f : File) (path : list Z) (flags : Z) : M OS File :=
  DoInitialize (mkFile (file_ f) path (error_details_ f) (created_ f) (async_ f)) path flags.

(** [File(const Path&, u32)] *)
Definition open_file (path : list Z) (flags : Z) : M OS File := Initialize (mkFile (-1) [] FILE_OK false false) path flags.

(** The move constructor. *)
Definition move_file (other : File) : File * File :=
  let '(fd, rest) := TakePlatformFile other in (mkFile fd (path_ rest) (error_details_ rest) (created_ rest) (async_ rest), rest).

Definition ReadAndCheck (f : File) (offset : Z) (data : list Z) : M OS (list Z * bool) :=
  let size := i32 (len data) in '(data, n) ← Read f offset data size; mret (data, n =? size).

Definition ReadAtCurrentPosAndCheck (f : File) (data : list Z) : M OS (list Z * bool) :=
  let size := i32 (len data) in '(data, n) ← ReadAtCurrentPos f data size; mret (data, n =? size).

(** The [int] becomes a [mem_size] again. *)
Definition WriteAndCheck (f : File) (offset : Z) (data : list Z) : M OS bool :=
  let size := i32 (len data) in n ← Write f offset data (u64 size); mret (n =? size).

Definition WriteAtCurrentPosAndCheck (f : File) (data : list Z) : M OS bool :=
  let size := i32 (len data) in n ← WriteAtCurrentPos f data size; mret (n =? size).

(** [new u8[count]]; a byte without a value is [-1]. *)
Definition make_bytes (count : Z) : res (list Z) := if grants count then Ok (replicate (Z.to_nat count) (-1)) else Fatal.

(** The contents, and what is stored through [opt_size] if the file could be opened. *)
Definition ReadFile (path : list Z) : M OS (option (list Z) * option Z) :=
  file ← open_file path (Z.lor FLAG_OPEN FLAG_READ);
  if negb (IsValid file) then mret (None, None) else
  length ← Seek file FROM_END 0;
  content ← lift (make_bytes (u64 length));
  _ ← Seek file FROM_BEGIN 0;
  '(content, read) ← Read file 0 content (i32 length);
  _ ← Close file;
  mret (if read =? length then Some content else None, Some length).

Definition WriteFile (path data : list Z) (size : Z) : M OS bool :=
  file ← open_file path (Z.lor FLAG_CREATE_ALWAYS FLAG_WRITE);
  if negb (IsValid file) then mret false else
  r ← Write file 0 data (u64 (i32 size));
  _ ← Close file;
  mret (r =? size).

(** [operator=(File&&)] on files that stand at places of their own; [this] may be [other]. *)
Definition assign_file (files : gmap nat File) (this other : nat) : M OS (gmap nat File) :=
  let at_ (files : gmap nat File) i : M OS File := lift (match files !! i with Some f => Ok f | None => Undef end) in
  f ← at_ files this; f ← Close f;
  let files := <[this := f]> files in
  o ← at_ files other;
  let '(fd, o) := TakePlatformFile o in
  let files := <[other := o]> files in
  f ← at_ files this; f ← SetPlatformFile f fd;
  let files := <[this := f]> files in
  o ← at_ files other;
  mret (<[this := mkFile (file_ f) (path_ o) (error_details_ o) (created_ o) (async_ o)]> files).

End FileCode.
