(* ===== verification/FileIoSpec.v ===== *)
(** * base::File: what its operations do

    Over a kernel that interrupts calls and transfers less than asked for, the operations of
    [File] behave as on files that are plain lists of bytes. *)

From stdpp Require Import gmap.
From S2P Require Import Prelude Memory CodeConvert FileOs FileIo.

Set Default Proof Using "Type".
#[local] Open Scope Z_scope.

(** ** Bytes at offsets *)

Lemma len_nonneg l : 0 <= len l.
Proof. unfold len. lia. Qed.

Lemma len_app l k : len (l ++ k) = len l + len k.
Proof. unfold len. rewrite length_app. lia. Qed.

Lemma len_read_at c off n : 0 <= off -> 0 <= n -> len (read_at c off n) = Z.max 0 (Z.min n (len c - off)).
Proof. intros. unfold len, read_at. rewrite length_take, length_drop. lia. Qed.

Lemma read_at_app c off a b : 0 <= off -> 0 <= a -> 0 <= b -> len (read_at c off a) = a -> read_at c off a ++ read_at c (off + a) b = read_at c off (a + b).
Proof.
  intros Ho Ha Hb Hl. unfold read_at in *. replace (Z.to_nat (a + b)) with (Z.to_nat a + Z.to_nat b)%nat by lia.
  replace (Z.to_nat (off + a)) with (Z.to_nat off + Z.to_nat a)%nat by lia. rewrite <- drop_drop. apply take_take_drop.
Qed.

(** Reading [n] bytes or as many as there are is the same. *)
Lemma read_at_exact c off n : 0 <= off -> 0 <= n -> read_at c off n = read_at c off (len (read_at c off n)).
Proof.
  intros Ho Hn. rewrite len_read_at by done. unfold read_at. destruct (Z.leb_spec n (len c - off)).
  - f_equal. lia.
  - unfold len in *. rewrite !take_ge; [done|rewrite length_drop; lia..].
Qed.

Lemma read_all c : read_at c 0 (len c) = c.
Proof. unfold read_at, len. rewrite Nat2Z.id. cbn [Z.to_nat drop]. by apply take_ge. Qed.

Lemma write_at_nil c off : 0 <= off <= len c -> write_at c off [] = c.
Proof.
  unfold len, write_at. intros H. replace (Z.to_nat off - length c)%nat with 0%nat by lia. cbn [replicate app length]. rewrite Nat.add_0_r. apply take_drop.
Qed.

Lemma len_write_at c off bs : 0 <= off -> len (write_at c off bs) = Z.max (len c) (off + len bs).
Proof. intros. unfold len, write_at. rewrite !length_app, length_take, length_replicate, length_drop. lia. Qed.

Lemma write_at_end c bs : write_at c (len c) bs = c ++ bs.
Proof.
  unfold write_at, len. rewrite Nat2Z.id, take_ge, Nat.sub_diag by done. cbn [replicate app]. rewrite drop_ge by lia. by rewrite app_nil_r.
Qed.

Lemma write_at_append c off x y : 0 <= off -> write_at (write_at c off x) (off + len x) y = write_at c off (x ++ y).
Proof.
  intros Ho. unfold write_at at 1. pose proof (len_write_at c off x Ho) as Hl. unfold len in Hl |- *.
  replace (Z.to_nat (off + Z.of_nat (length x)) - length (write_at c off x))%nat with 0%nat by lia. cbn [replicate app].
  assert (E : write_at c off x = (take (Z.to_nat off) c ++ replicate (Z.to_nat off - length c) 0 ++ x) ++ drop (Z.to_nat off + length x) c) by (unfold write_at; by rewrite <- !app_assoc).
  assert (El : length (take (Z.to_nat off) c ++ replicate (Z.to_nat off - length c) 0 ++ x) = Z.to_nat (off + Z.of_nat (length x))).
  { rewrite !length_app, length_take, length_replicate. clear -Ho. lia. }
  clear Hl. rewrite E. rewrite take_app_length' by done. rewrite drop_app_ge by lia. rewrite El, drop_drop. unfold write_at. rewrite <- !app_assoc, length_app. do 5 f_equal. lia.
Qed.

Lemma read_written c off bs : 0 <= off -> read_at (write_at c off bs) off (len bs) = bs.
Proof.
  intros Ho. unfold read_at, write_at, len. rewrite app_assoc, drop_app_length' by (rewrite length_app, length_take, length_replicate; lia).
  rewrite Nat2Z.id. by apply take_app_length'.
Qed.

(** ** What the flags of [Initialize] mean *)

(** Exactly one of the five ways to open or create a file, an access mode, and writing where the
    contents are dropped. *)
Definition valid_flags (flags : Z) : bool :=
  let b2z (b : bool) := if b then 1 else 0 in
  (b2z (flag_set flags FLAG_OPEN) + b2z (flag_set flags FLAG_CREATE) + b2z (flag_set flags FLAG_OPEN_ALWAYS) + b2z (flag_set flags FLAG_CREATE_ALWAYS) + b2z (flag_set flags FLAG_OPEN_TRUNCATED) =? 1) &&
  implb (flag_set flags FLAG_CREATE_ALWAYS || flag_set flags FLAG_OPEN_TRUNCATED) (flag_set flags FLAG_WRITE) &&
  (flag_set flags FLAG_READ || flag_set flags FLAG_WRITE || flag_set flags FLAG_APPEND || flag_set flags FLAG_WRITE_ATTRIBUTES || flag_set flags FLAG_OPEN_ALWAYS).

Definition desc_of (flags : Z) (i : positive) : Desc :=
  let writes := flag_set flags FLAG_WRITE || flag_set flags FLAG_APPEND in mkDesc i 0 (flag_set flags FLAG_READ || negb writes) writes (flag_set flags FLAG_APPEND).

Definition add_desc (F : Files) (ds : Desc) : Files := mkFiles (names F) (nodes F) (<[fresh_key (descs F) := ds]> (descs F)).

(** The files afterwards, the description that was opened, the error and [created()]. *)
Definition spec_open (F : Files) (path : list Z) (flags : Z) : option (Files * option positive * Error * bool) :=
  let gone F := if flag_set flags FLAG_DELETE_ON_CLOSE then mkFiles (delete path (names F)) (nodes F) (descs F) else F in
  match names F !! path with
  | None =>
    if flag_set flags FLAG_OPEN || flag_set flags FLAG_OPEN_TRUNCATED then Some (F, None, FILE_ERROR_NOT_FOUND, false) else
    let i := fresh_key (nodes F) in
    let F := mkFiles (<[path := i]> (names F)) (<[i := Regular []]> (nodes F)) (descs F) in
    Some (gone (add_desc F (desc_of flags i)), Some (fresh_key (descs F)), FILE_OK, true)
  | Some i =>
    if flag_set flags FLAG_CREATE then Some (F, None, FILE_ERROR_EXISTS, false) else
    match nodes F !! i with
    | Some (Regular c) =>
      let F := if flag_set flags FLAG_CREATE_ALWAYS || flag_set flags FLAG_OPEN_TRUNCATED then set_node i [] F else F in
      Some (gone (add_desc F (desc_of flags i)), Some (fresh_key (descs F)), FILE_OK, flag_set flags FLAG_CREATE_ALWAYS)
    | _ => None
    end
  end.

Lemma flag_set_either flags f g : flag_set flags (Z.lor f g) = flag_set flags f || flag_set flags g.
Proof. unfold flag_set. rewrite Z.land_lor_distr_r. destruct (Z.eqb_spec (Z.lor (Z.land flags f) (Z.land flags g)) 0) as [E|E]; rewrite Z.lor_eq_0_iff in E; destruct (Z.eqb_spec (Z.land flags f) 0), (Z.eqb_spec (Z.land flags g) 0); cbn; done || tauto. Qed.

Lemma valid_shape flags : valid_flags flags = true ->
  (flag_set flags FLAG_CREATE || flag_set flags FLAG_CREATE_ALWAYS || flag_set flags FLAG_OPEN_ALWAYS) = negb (flag_set flags FLAG_OPEN || flag_set flags FLAG_OPEN_TRUNCATED) /\
  (flag_set flags FLAG_OPEN_ALWAYS = true -> flag_set flags FLAG_CREATE = false /\ flag_set flags FLAG_CREATE_ALWAYS = false) /\
  (flag_set flags FLAG_CREATE = true -> flag_set flags FLAG_OPEN_ALWAYS = false) /\
  (flag_set flags FLAG_CREATE_ALWAYS || flag_set flags FLAG_OPEN_TRUNCATED = true -> flag_set flags FLAG_WRITE = true).
Proof.
  unfold valid_flags. destruct (flag_set flags FLAG_OPEN), (flag_set flags FLAG_CREATE), (flag_set flags FLAG_OPEN_ALWAYS), (flag_set flags FLAG_CREATE_ALWAYS), (flag_set flags FLAG_OPEN_TRUNCATED); try discriminate;
  destruct (flag_set flags FLAG_WRITE); try discriminate; done.
Qed.

(** What [DoInitialize] asks of the system. *)
Record asks (flags o : Z) : Prop := {
  asks_creat : flag_set o O_CREAT = flag_set flags FLAG_CREATE || flag_set flags FLAG_CREATE_ALWAYS;
  asks_excl : flag_set o O_EXCL = flag_set flags FLAG_CREATE;
  asks_trunc : flag_set o O_TRUNC = flag_set flags FLAG_CREATE_ALWAYS || flag_set flags FLAG_OPEN_TRUNCATED;
  asks_desc i : open_desc i o = desc_of flags i;
}.

Lemma asks_iff flags o : open_desc 1 o = desc_of flags 1 -> forall i, open_desc i o = desc_of flags i.
Proof. unfold open_desc, desc_of. intros [= E1 E2 E3] i. by rewrite E1, E2, E3. Qed.

Lemma open_flags_ok flags : valid_flags flags = true ->
  exists o, open_flags flags = Ok o /\ asks flags o /\
    (flag_set flags FLAG_OPEN_ALWAYS = true -> flag_set (Z.lor o O_CREAT) O_CREAT = true /\ flag_set (Z.lor o O_CREAT) O_EXCL = false /\ flag_set (Z.lor o O_CREAT) O_TRUNC = false /\
       forall i, open_desc i (Z.lor o O_CREAT) = desc_of flags i).
Proof.
  intros Hv. enough (exists o, open_flags flags = Ok o /\ flag_set o O_CREAT = flag_set flags FLAG_CREATE || flag_set flags FLAG_CREATE_ALWAYS /\ flag_set o O_EXCL = flag_set flags FLAG_CREATE /\
    flag_set o O_TRUNC = flag_set flags FLAG_CREATE_ALWAYS || flag_set flags FLAG_OPEN_TRUNCATED /\ open_desc 1 o = desc_of flags 1 /\
    (flag_set flags FLAG_OPEN_ALWAYS = true -> flag_set (Z.lor o O_CREAT) O_CREAT = true /\ flag_set (Z.lor o O_CREAT) O_EXCL = false /\ flag_set (Z.lor o O_CREAT) O_TRUNC = false /\ open_desc 1 (Z.lor o O_CREAT) = desc_of flags 1)) as (o & E & E1 & E2 & E3 & E4 & E5).
  { exists o. split; [done|]. split; [split; try done; by apply asks_iff|]. intros Ho. destruct (E5 Ho) as (? & ? & ? & ?). repeat split; try done. by apply asks_iff. }
  revert Hv. unfold valid_flags, open_flags, desc_of.
  destruct (flag_set flags FLAG_OPEN), (flag_set flags FLAG_CREATE), (flag_set flags FLAG_OPEN_ALWAYS), (flag_set flags FLAG_CREATE_ALWAYS), (flag_set flags FLAG_OPEN_TRUNCATED); try discriminate;
  destruct (flag_set flags FLAG_READ), (flag_set flags FLAG_WRITE), (flag_set flags FLAG_APPEND), (flag_set flags FLAG_WRITE_ATTRIBUTES), (flag_set flags FLAG_TERMINAL_DEVICE); intros Hv;
    try discriminate Hv; eexists; (split; [reflexivity|]); vm_compute; repeat split; done.
Qed.

(** ** What reads and writes mean on a list of bytes *)

(** [None] where the buffer is too short or the offsets leave 64 bits. *)
Definition spec_read (ds : Desc) (c : list Z) (off : Z) (data : list Z) (size : Z) : option (list Z * Z) :=
  if size <? 0 then Some (data, -1) else
  if decide (size <= len data /\ size < 2 ^ 31 /\ off + size < 2 ^ 63) then
    if negb (readable ds) || (off <? 0) then Some (data, -1) else
    let bs := read_at c off size in Some (bs ++ drop (length bs) data, len bs)
  else None.

(** At the position, or at the end of a file that was opened for appending. *)
Definition spec_write_here (F : Files) (d : positive) (ds : Desc) (c data : list Z) (size : Z) : option (Files * Z) :=
  if size <? 0 then Some (F, -1) else
  if decide (size <= len data /\ size < 2 ^ 31) then
    if negb (writable ds) then Some (F, -1) else
    let at_ := if appends ds then len c else offset ds in
    Some (if size =? 0 then F else set_offset d ds (at_ + size) (set_node (inode ds) (write_at c at_ (take (Z.to_nat size) data)) F), size)
  else None.

Definition spec_write (F : Files) (d : positive) (ds : Desc) (c : list Z) (off : Z) (data : list Z) (size : Z) : option (Files * Z) :=
  if 2 ^ 31 - 1 <? size then Some (F, -1) else
  if size <? 0 then None else
  if appends ds then spec_write_here F d ds c data size else
  if decide (size <= len data /\ off + size < 2 ^ 63) then
    if negb (writable ds) || (off <? 0) then Some (F, -1) else
    Some (if size =? 0 then F else set_node (inode ds) (write_at c off (take (Z.to_nat size) data)) F, size)
  else None.

(** What [ReadFile] gives: the contents if their number is an [int], and their number. *)
Definition spec_read_file (F : Files) (path : list Z) : option (Files * (option (list Z) * option Z)) :=
  match names F !! path with
  | None => Some (F, (None, None))
  | Some i =>
    match nodes F !! i with
    | Some (Regular c) => if decide (len c < 2 ^ 63) then Some (add_desc F (mkDesc i 0 true false false), (if decide (len c < 2 ^ 31) then Some c else None, Some (len c))) else None
    | _ => None
    end
  end.

(** [WriteFile] of at most as many bytes as an [int] counts: the file holds them and nothing else. *)
Definition spec_write_file (F : Files) (path data : list Z) (size : Z) : option (Files * bool) :=
  if decide (0 <= size < 2 ^ 31 /\ size <= len data) then
    match spec_open F path (Z.lor FLAG_CREATE_ALWAYS FLAG_WRITE) with
    | Some (F, Some d, _, _) => ds ← descs F !! d; Some (set_node (inode ds) (take (Z.to_nat size) data) F, true)
    | _ => None
    end
  else None.

(** The file behind a description that was just opened. *)
Lemma spec_open_file F path flags F' d e cr : spec_open F path flags = Some (F', Some d, e, cr) ->
  exists i c, descs F' !! d = Some (desc_of flags i) /\ nodes F' !! i = Some (Regular c) /\ (flag_set flags FLAG_CREATE_ALWAYS || flag_set flags FLAG_OPEN_TRUNCATED = true -> c = []) /\
    (flag_set flags FLAG_DELETE_ON_CLOSE = false -> names F' !! path = Some i).
Proof.
  unfold spec_open. destruct (names F !! path) as [i|] eqn:En.
  - destruct (flag_set flags FLAG_CREATE); [done|]. destruct (nodes F !! i) as [[c|]|] eqn:Ei; [|done..]. intros [= <- <- <- <-].
    destruct (flag_set flags FLAG_CREATE_ALWAYS || flag_set flags FLAG_OPEN_TRUNCATED).
    + exists i, []. destruct (flag_set flags FLAG_DELETE_ON_CLOSE); cbn; rewrite !lookup_insert_eq; done.
    + exists i, c. destruct (flag_set flags FLAG_DELETE_ON_CLOSE); cbn; rewrite lookup_insert_eq; done.
  - destruct (flag_set flags FLAG_OPEN || flag_set flags FLAG_OPEN_TRUNCATED); [done|]. intros [= <- <- <- <-]. exists (fresh_key (nodes F)), [].
    destruct (flag_set flags FLAG_DELETE_ON_CLOSE); cbn; rewrite !lookup_insert_eq; done.
Qed.

(** ** Triples *)

Definition wpM {OS A} (R : Prop) (m : M OS A) (s : OS) (P : OS -> A -> Prop) : Prop := wp R (m s) (fun p => P p.1 p.2).

Section Triples.

Context {OS : Type} `{Kernel OS}.

Lemma wpM_bind {A B} R (m : M OS A) (k : A -> M OS B) s P : wpM R m s (fun s a => wpM R (k a) s P) -> wpM R (m ≫= k) s P.
Proof. unfold wpM, mbind, M_bind. by destruct (m s) as [[s' a]| |]. Qed.

Lemma wpM_ret {A} R (a : A) s (P : OS -> A -> Prop) : P s a -> wpM R (mret a) s P.
Proof. done. Qed.

Lemma wpM_ok {A} R (a : A) s (P : OS -> A -> Prop) : P s a -> wpM R (lift (Ok a)) s P.
Proof. done. Qed.

Lemma wpM_check R b s (P : OS -> unit -> Prop) : b = true -> P s tt -> wpM R (lift (dcheck b)) s P.
Proof. by intros ->. Qed.

Lemma wpM_mono {A} R (m : M OS A) s (P Q : OS -> A -> Prop) : wpM R m s P -> (forall s a, P s a -> Q s a) -> wpM R m s Q.
Proof. intros Hm HPQ. eapply wp_mono; [exact Hm|]. intros [s' a]. apply HPQ. Qed.

Lemma wpM_seq {A B} R (m : M OS A) (k : A -> M OS B) s P Q : wpM R m s Q -> (forall s a, Q s a -> wpM R (k a) s P) -> wpM R (m ≫= k) s P.
Proof. intros Hm Hk. apply wpM_bind. by eapply wpM_mono. Qed.

(** ** Answers *)

(** What the kernel may answer to a call that is not interrupted. *)
Definition answered (c : call) (s s' : OS) (r : answer) : Prop :=
  (exists lim fd, 0 < lim /\ unused (view s) fd /\ (exec lim fd c (view s) = None \/ exec lim fd c (view s) = Some (view s', r)) /\ (calm s -> calm s')) \/
  (can_fail c = true /\ ~ calm s /\ view s' = on_error c (view s) /\ exists e, r = Err e /\ e <> 0).

Context (ndebug : bool).

(** With the limit on retries, no call is interrupted more often than it allows. *)
Definition retries_suffice : Prop := ndebug = true \/ forall s : OS, (patience s <= 100)%nat.

Context (Hretries : retries_suffice).

Definition not_close (c : call) : Prop := forall S, on_error c S = S.

Lemma eintr_loop_ok fuel k c s : not_close c -> (patience s < fuel)%nat -> ndebug = true \/ Z.of_nat (patience s) + k <= 100 ->
  exists s1 s' r, view s1 = view s /\ (calm s -> calm s1) /\ answered c s1 s' r /\ eintr_loop ndebug fuel k c s = Ok (s', r).
Proof.
  intros Hc. revert s k. induction fuel as [|fuel IH]; intros s k Hf Hk; [lia|]. cbn [eintr_loop]. unfold mbind, M_bind, sys.
  destruct (syscall c s) as [s' r] eqn:E. cbn. destruct (decide (r = Err EINTR)) as [->|Hr].
  - pose proof (syscall_interrupted c s s' E) as (_ & Ev & Hp & Hcalm). rewrite (Hc _) in Ev. cbn [interrupted]. rewrite Z.eqb_refl. cbn [andb].
    assert (Eb : ndebug || (k <? 100) = true) by (destruct Hk as [->|Hk]; [done|]; rewrite (proj2 (Z.ltb_lt _ _)) by lia; apply orb_true_r).
    rewrite Eb. destruct (IH s' (k + 1) ltac:(lia)) as (s1 & s2 & r & E1 & E2 & E3 & E4); [destruct Hk; [by left|right; lia]|].
    exists s1, s2, r. rewrite E1. split; [done|]. split; [tauto|]. done.
  - assert (Ei : interrupted r = false) by (destruct r as [|e]; [done|]; cbn; apply Z.eqb_neq; congruence). rewrite Ei. cbn.
    exists s, s', r. split; [done|]. split; [done|]. split; [|done]. exact (syscall_answers c s s' r E Hr).
Qed.

(** In the end a call is answered. *)
Lemma handle_ok c s : not_close c -> exists s1 s' r, view s1 = view s /\ (calm s -> calm s1) /\ answered c s1 s' r /\ HANDLE_EINTR ndebug c s = Ok (s', r).
Proof using Hretries.
  intros Hc. apply eintr_loop_ok; [done|lia|]. destruct Hretries as [|Hp]; [by left|]. right. specialize (Hp s). lia.
Qed.

(** A call on a regular file, as its client sees it: [exec] whatever the limit, or a failure. *)
Lemma wpM_handle R c s (P : OS -> answer -> Prop) : not_close c ->
  (forall lim fd, 0 < lim -> unused (view s) fd -> exists p, exec lim fd c (view s) = Some p /\ forall s', view s' = p.1 -> (calm s -> calm s') -> P s' p.2) ->
  (forall s' e, can_fail c = true -> ~ calm s -> view s' = view s -> e <> 0 -> P s' (Err e)) ->
  wpM R (HANDLE_EINTR ndebug c) s P.
Proof using Hretries.
  intros Hc He Hf. destruct (handle_ok c s Hc) as (s1 & s' & r & Ev & Hcalm & Ha & E). unfold wpM. rewrite E. cbn.
  destruct Ha as [(lim & fd & Hl & Hu & Hex & Hcalm')|(Hcf & Hn & Hv & e & -> & Hne)].
  - rewrite Ev in *. destruct (He lim fd Hl Hu) as (p & Ep & HP). destruct Hex as [Hex|Hex]; rewrite Ep in Hex; [done|]. injection Hex as ->. apply HP; [done|tauto].
  - rewrite (Hc _), Ev in Hv. apply Hf; [done|tauto|done|done].
Qed.

Lemma wpM_sys R c s (P : OS -> answer -> Prop) : not_close c -> interruptible c = false ->
  (forall lim fd, 0 < lim -> unused (view s) fd -> exists p, exec lim fd c (view s) = Some p /\ forall s', view s' = p.1 -> (calm s -> calm s') -> P s' p.2) ->
  (forall s' e, can_fail c = true -> ~ calm s -> view s' = view s -> e <> 0 -> P s' (Err e)) ->
  wpM R (sys c) s P.
Proof.
  intros Hc Hi He Hf. unfold wpM, sys. cbn. destruct (syscall c s) as [s' r] eqn:E. cbn.
  assert (Hr : r <> Err EINTR) by (intros ->; by destruct (syscall_interrupted c s s' E) as [? _]; congruence).
  destruct (syscall_answers c s s' r E Hr) as [(lim & fd & Hl & Hu & Hex & Hcalm')|(Hcf & Hn & Hv & e & -> & Hne)].
  - destruct (He lim fd Hl Hu) as (p & Ep & HP). destruct Hex as [Hex|Hex]; rewrite Ep in Hex; [done|]. injection Hex as ->. apply HP; [done|tauto].
  - rewrite (Hc _) in Hv. apply Hf; done.
Qed.

(** ** The loops

    [V b] is the system when [b] bytes have been transferred. *)

Definition landed (c : list Z) (off k : Z) (data : list Z) : list Z := read_at c off k ++ drop (Z.to_nat k) data.

Lemma len_landed c off k data : 0 <= k <= len data -> len (read_at c off k) = k -> len (landed c off k data) = len data.
Proof. intros Hk E. unfold landed. rewrite len_app, E. unfold len in *. rewrite length_drop. lia. Qed.

Lemma store_landed c off k n data : 0 <= off -> 0 <= k -> 0 <= n -> k + n <= len data -> len (read_at c off k) = k ->
  let bs := read_at c (off + k) n in store (landed c off k data) k bs = Ok (landed c off (k + len bs) data).
Proof.
  intros Ho Hk Hn Hb E bs. unfold store. rewrite len_landed by (done || lia). assert (Hl : len bs <= n) by (unfold bs; rewrite len_read_at; lia).
  rewrite (proj2 (Z.leb_le _ _)) by lia. f_equal. unfold landed. pose proof (len_nonneg bs).
  rewrite take_app_length' by (unfold len in *; lia). rewrite drop_app_ge by (unfold len in *; lia). rewrite drop_drop, app_assoc. f_equal.
  - unfold bs at 1. rewrite (read_at_exact c (off + k) n) by lia. fold bs. apply read_at_app; lia || done.
  - f_equal. unfold len in *. lia.
Qed.

(** How a loop that has moved [k] of at most [most] bytes ends. *)
Definition moved (s s' : OS) (k n most : Z) : Prop := (n = k \/ n = -1 /\ k = 0 /\ ~ calm s) /\ (calm s -> calm s' /\ k = most).

Lemma moved_later s s1 s' k n most : (calm s -> calm s1) -> moved s1 s' k n most -> moved s s' k n most.
Proof. unfold moved. intros Hc [[->|(-> & -> & Hn)] Hm]; (split; [|tauto]); [by left|right; tauto]. Qed.

Lemma failed_moved s s' b n most : ~ calm s -> n = (if b =? 0 then -1 else b) -> moved s s' b n most.
Proof. intros Hn ->. split; [|done]. destruct (Z.eqb_spec b 0) as [->|]; [by right|by left]. Qed.

Lemma read_loop_ok R next (V : Z -> System) c off data size :
  (forall b, 0 <= b -> b < size \/ b = 0 -> exists cl, next b = Ok cl /\ not_close cl /\
     forall lim fd, 0 < lim -> let bs := read_at c (off + b) (Z.min lim (size - b)) in exec lim fd cl (V b) = Some (V (b + len bs), Ret (len bs) bs)) ->
  0 <= off -> 0 <= size <= len data -> size < 2 ^ 31 ->
  forall fuel b s, view s = V b -> 0 <= b -> b < size \/ b = 0 -> len (read_at c off b) = b -> (Z.to_nat (size - b) < fuel)%nat ->
  wpM R (read_loop ndebug fuel next (landed c off b data) size b) s (fun s' '(data', n) =>
    exists k, 0 <= k <= size /\ view s' = V k /\ data' = landed c off k data /\ moved s s' k n (len (read_at c off size))).
Proof using Hretries.
  intros Hnext Ho Hs Hw. induction fuel as [|fuel IH]; intros b s Ev Hb Hbs El Hf; [lia|]. cbn [read_loop].
  destruct (Hnext b Hb Hbs) as (cl & En & Hc & Hex). apply wpM_bind. rewrite En. apply wpM_ok. apply wpM_bind, wpM_check.
  { rewrite len_landed by (done || lia). apply Z.leb_le; lia. }
  apply wpM_bind, wpM_handle; [done|..].
  - intros lim fd Hl _. rewrite Ev. eexists. split; [exact (Hex lim fd Hl)|]. cbn. intros s' Ev' Hcalm. set (bs := read_at c (off + b) (Z.min lim (size - b))) in *.
    assert (Hlb : len bs = Z.max 0 (Z.min (Z.min lim (size - b)) (len c - (off + b)))) by (apply len_read_at; lia).
    pose proof (len_read_at c off b Ho Hb) as El'. pose proof (len_read_at c off size Ho ltac:(lia)) as Els. pose proof (len_nonneg c).
    rewrite swrap_small by lia. destruct (Z.leb_spec (len bs) 0).
    + apply wpM_ret. exists b. split; [lia|]. split; [rewrite Ev'; f_equal; lia|]. split; [done|]. split; [left; destruct (Z.eqb_spec b 0); lia|].
      intros Hcs. split; [auto|]. lia.
    + apply wpM_bind. cbn [out_of]. unfold bs. rewrite store_landed by (done || lia). fold bs. apply wpM_ok.
      assert (Eb : len (read_at c off (b + len bs)) = b + len bs) by (rewrite len_read_at; lia). destruct (Z.ltb_spec (b + len bs) size).
      * eapply wpM_mono; [apply IH; [done|lia|lia|done|lia]|]. intros s2 [data2 n] (k & Hk & E1 & E2 & Hm). exists k. split; [done|]. split; [done|]. split; [done|]. by eapply moved_later.
      * apply wpM_ret. exists (b + len bs). split; [lia|]. split; [done|]. split; [done|]. split; [left; rewrite (proj2 (Z.eqb_neq _ _)); lia|].
        intros Hcs. split; [auto|]. lia.
  - intros s' e _ Hn Ev' _. cbn. apply wpM_ret. exists b. split; [lia|]. split; [congruence|]. split; [done|]. by apply failed_moved.
Qed.

Lemma write_loop_ok R next (V : Z -> System) data total :
  (forall b, 0 <= b -> b < total \/ b = 0 -> let rest := take (Z.to_nat (total - b)) (drop (Z.to_nat b) data) in exists cl, next b rest = Ok cl /\ not_close cl /\
     forall lim fd, 0 < lim -> exec lim fd cl (V b) = Some (V (b + Z.min lim (total - b)), Ret (Z.min lim (total - b)) [])) ->
  0 <= total <= len data -> total < 2 ^ 31 ->
  forall fuel b s, view s = V b -> 0 <= b -> b < total \/ b = 0 -> (Z.to_nat (total - b) < fuel)%nat ->
  wpM R (write_loop ndebug fuel next data total b) s (fun s' n => exists k, 0 <= k <= total /\ view s' = V k /\ moved s s' k n total).
Proof using Hretries.
  intros Hnext Ht Hw. induction fuel as [|fuel IH]; intros b s Ev Hb Hbs Hf; [lia|]. cbn [write_loop].
  apply wpM_bind, wpM_check; [apply Z.leb_le; lia|]. destruct (Hnext b Hb Hbs) as (cl & En & Hc & Hex). apply wpM_bind. rewrite En. apply wpM_ok.
  apply wpM_bind, wpM_handle; [done|..].
  - intros lim fd Hl _. rewrite Ev. eexists. split; [exact (Hex lim fd Hl)|]. cbn. intros s' Ev' Hcalm. rewrite swrap_small by lia.
    destruct (Z.leb_spec (Z.min lim (total - b)) 0).
    + apply wpM_ret. exists b. split; [lia|]. split; [rewrite Ev'; f_equal; lia|]. split; [left; destruct (Z.eqb_spec b 0); lia|]. intros Hcs. split; [auto|lia].
    + destruct (Z.ltb_spec (b + Z.min lim (total - b)) total).
      * eapply wpM_mono; [apply IH; [done|lia..]|]. intros s2 n (k & Hk & E1 & Hm). exists k. split; [done|]. split; [done|]. by eapply moved_later.
      * apply wpM_ret. exists (b + Z.min lim (total - b)). split; [lia|]. split; [done|]. split; [left; rewrite (proj2 (Z.eqb_neq _ _)); lia|]. intros Hcs. split; [auto|lia].
  - intros s' e _ Hn Ev' _. cbn. apply wpM_ret. exists b. split; [lia|]. split; [congruence|]. by apply failed_moved.
Qed.

(** A call that is refused. *)
Lemma read_loop_refused R next cl e fuel data size s :
  next 0 = Ok cl -> not_close cl -> (forall lim fd, 0 < lim -> exec lim fd cl (view s) = Some (view s, Err e)) -> size <= len data ->
  wpM R (read_loop ndebug (S fuel) next data size 0) s (fun s' '(data', n) => view s' = view s /\ (calm s -> calm s') /\ data' = data /\ n = -1).
Proof using Hretries.
  intros En Hc Hex Hs. cbn [read_loop]. apply wpM_bind. rewrite En. apply wpM_ok. apply wpM_bind, wpM_check; [apply Z.leb_le; lia|]. apply wpM_bind, wpM_handle; [done|..].
  - intros lim fd Hl _. eexists. split; [exact (Hex lim fd Hl)|]. done.
  - intros s' e' _ Hn Ev _. cbn. by apply wpM_ret.
Qed.

Lemma write_loop_refused R next cl e fuel data total s :
  next 0 (take (Z.to_nat total) data) = Ok cl -> not_close cl -> (forall lim fd, 0 < lim -> exec lim fd cl (view s) = Some (view s, Err e)) -> total <= len data ->
  wpM R (write_loop ndebug (S fuel) next data total 0) s (fun s' n => view s' = view s /\ (calm s -> calm s') /\ n = -1).
Proof using Hretries.
  intros En Hc Hex Hs. cbn [write_loop]. apply wpM_bind, wpM_check; [apply Z.leb_le; lia|]. apply wpM_bind. rewrite Z.sub_0_r. change (drop (Z.to_nat 0) data) with data. rewrite En. apply wpM_ok. apply wpM_bind, wpM_handle; [done|..].
  - intros lim fd Hl _. eexists. split; [exact (Hex lim fd Hl)|]. done.
  - intros s' e' _ Hn Ev _. cbn. by apply wpM_ret.
Qed.

(** ** Open files *)

Definition on_file (S : System) (fd : Z) (d : positive) (ds : Desc) (c : list Z) : Prop :=
  fds S !! fd = Some d /\ descs (files S) !! d = Some ds /\ nodes (files S) !! inode ds = Some (Regular c).

Lemma with_file_eq S fd d ds c k : on_file S fd d ds c -> with_file S fd k = Some (k d ds c).
Proof. intros (E1 & E2 & E3). unfold with_file. rewrite E1, E2. cbn. by rewrite E3. Qed.

(** The system with the position and the contents of one file replaced. *)
Definition put (S : System) (d : positive) (ds : Desc) (o : Z) (c : list Z) : System :=
  mkSystem (set_offset d ds o (set_node (inode ds) c (files S))) (fds S).

Lemma put_nothing S fd d ds c : on_file S fd d ds c -> put S d ds (offset ds) c = S.
Proof.
  intros (E1 & E2 & E3). unfold put, set_offset, set_node. cbn. destruct S as [[N O D] fdm], ds; cbn in *. by rewrite !insert_id.
Qed.

Definition at_offset (ds : Desc) (o : Z) : Desc := mkDesc (inode ds) o (readable ds) (writable ds) (appends ds).

Lemma on_put S fd d ds c o c' : on_file S fd d ds c -> on_file (put S d ds o c') fd d (at_offset ds o) c'.
Proof. intros (E1 & E2 & E3). split; [done|]. cbn. by rewrite !lookup_insert_eq. Qed.

Lemma put_put S d ds o c o' c' : put (put S d ds o c) d (at_offset ds o) o' c' = put S d ds o' c'.
Proof. unfold put, set_offset, set_node. cbn. by rewrite !insert_insert_eq. Qed.



(** Reads move nothing but the position. *)
Lemma exec_pread S fd d ds c lim nfd n off : on_file S fd d ds c -> readable ds = true -> 0 <= off ->
  exec lim nfd (Pread fd n off) S = Some (S, Ret (len (read_at c off (Z.min lim n))) (read_at c off (Z.min lim n))).
Proof. intros Hf Hr Ho. cbn [exec]. rewrite (with_file_eq _ _ _ _ _ _ Hf), Hr, (proj2 (Z.ltb_ge _ _)) by done. done. Qed.

Lemma exec_read S fd d ds c lim nfd n : on_file S fd d ds c -> readable ds = true ->
  exec lim nfd (Read_ fd n) S = Some (put S d ds (offset ds + len (read_at c (offset ds) (Z.min lim n))) c, Ret (len (read_at c (offset ds) (Z.min lim n))) (read_at c (offset ds) (Z.min lim n))).
Proof.
  intros Hf Hr. cbn [exec]. rewrite (with_file_eq _ _ _ _ _ _ Hf), Hr. cbn [negb]. do 2 f_equal. unfold put, set_offset, set_node. cbn.
  destruct Hf as (_ & _ & E3). by rewrite (insert_id (nodes (files S))).
Qed.

Lemma exec_pwrite S fd d ds c lim nfd bs off : on_file S fd d ds c -> writable ds = true -> appends ds = false -> 0 <= off -> bs <> [] ->
  exec lim nfd (Pwrite fd bs off) S = Some (put S d ds (offset ds) (write_at c off (take (Z.to_nat lim) bs)), Ret (len (take (Z.to_nat lim) bs)) []).
Proof.
  intros Hf Hw Ha Ho Hb. cbn [exec]. rewrite (with_file_eq _ _ _ _ _ _ Hf), Hw, Ha, (proj2 (Z.ltb_ge _ _)) by done. cbn [negb]. destruct bs; [done|]. cbn [length Nat.eqb].
  do 2 f_equal. unfold put, set_offset, set_node. cbn. destruct Hf as (_ & E2 & _), ds. cbn in *. by rewrite (insert_id (descs (files S))).
Qed.

Lemma exec_write S fd d ds c lim nfd bs : on_file S fd d ds c -> writable ds = true -> bs <> [] ->
  let at_ := if appends ds then len c else offset ds in
  exec lim nfd (Write_ fd bs) S = Some (put S d ds (at_ + len (take (Z.to_nat lim) bs)) (write_at c at_ (take (Z.to_nat lim) bs)), Ret (len (take (Z.to_nat lim) bs)) []).
Proof. intros Hf Hw Hb. cbn [exec]. rewrite (with_file_eq _ _ _ _ _ _ Hf), Hw. cbn [negb]. by destruct bs. Qed.

(** ** Reads and writes as a whole

    [k] bytes have arrived; on a calm kernel that is all there are. *)

Lemma landed_0 c off data : landed c off 0 data = data.
Proof. done. Qed.

Lemma Read_transfers R f off data size s d ds c :
  IsValid f = true -> on_file (view s) (file_ f) d ds c -> readable ds = true -> 0 <= off -> 0 <= size <= len data -> size < 2 ^ 31 -> off + size < 2 ^ 63 ->
  wpM R (Read ndebug f off data size) s (fun s' '(data', n) =>
    exists k, 0 <= k <= size /\ view s' = view s /\ data' = landed c off k data /\ moved s s' k n (len (read_at c off size))).
Proof using Hretries.
  intros Hv Hf Hr Ho Hs Hw Hb. unfold Read. apply wpM_bind, wpM_check; [done|]. rewrite (proj2 (Z.ltb_ge _ _)) by lia. rewrite <- (landed_0 c off data) at 1.
  apply (read_loop_ok R _ (fun _ => view s)); [|done..|lia|by right|unfold read_at; done|lia].
  intros b Hb0 Hbs. eexists. unfold add_offset. rewrite (proj2 (Z.ltb_lt _ _)) by lia. split; [done|]. split; [done|].
  intros lim fd Hl. apply (exec_pread _ _ d ds c); [done|done|lia].
Qed.

Lemma ReadAtCurrentPos_transfers R f data size s d ds c :
  IsValid f = true -> on_file (view s) (file_ f) d ds c -> readable ds = true -> 0 <= offset ds -> 0 <= size <= len data -> size < 2 ^ 31 ->
  wpM R (ReadAtCurrentPos ndebug f data size) s (fun s' '(data', n) =>
    exists k, 0 <= k <= size /\ view s' = put (view s) d ds (offset ds + k) c /\ data' = landed c (offset ds) k data /\ moved s s' k n (len (read_at c (offset ds) size))).
Proof using Hretries.
  intros Hv Hf Hr Ho Hs Hw. unfold ReadAtCurrentPos. apply wpM_bind, wpM_check; [done|]. rewrite (proj2 (Z.ltb_ge _ _)) by lia. rewrite <- (landed_0 c (offset ds) data) at 1.
  apply (read_loop_ok R _ (fun b => put (view s) d ds (offset ds + b) c)); [|done..| |lia|by right|unfold read_at; done|lia].
  - intros b Hb0 Hbs. eexists. split; [done|]. split; [done|]. intros lim fd Hl bs. subst bs.
    rewrite (exec_read _ (file_ f) d (at_offset ds (offset ds + b)) c) by (done || by eapply on_put). rewrite put_put. cbn [offset at_offset]. by rewrite Z.add_assoc.
  - rewrite Z.add_0_r. symmetry. by eapply put_nothing.
Qed.

(** What a file holds when [k] bytes have been written to it. *)
Definition written (S : System) (d : positive) (ds : Desc) (o : Z) (c : list Z) (off k : Z) (data : list Z) : System :=
  if k =? 0 then S else put S d ds o (write_at c off (take (Z.to_nat k) data)).

(** One more piece behind [b] bytes. *)
Lemma write_at_more c off b data lim total : 0 <= off -> 0 < b < total -> total <= len data -> 0 < lim ->
  write_at (write_at c off (take (Z.to_nat b) data)) (off + b) (take (Z.to_nat lim) (take (Z.to_nat (total - b)) (drop (Z.to_nat b) data))) =
  write_at c off (take (Z.to_nat (b + Z.min lim (total - b))) data).
Proof.
  intros Ho Hb Ht Hl. unfold len in Ht. replace (off + b) with (off + len (take (Z.to_nat b) data)) by (unfold len; rewrite length_take; lia).
  rewrite write_at_append by done. f_equal. rewrite take_take, take_take_drop. f_equal. lia.
Qed.

Lemma rest_length data b total lim : 0 <= b <= total -> total <= len data -> 0 < lim ->
  len (take (Z.to_nat lim) (take (Z.to_nat (total - b)) (drop (Z.to_nat b) data))) = Z.min lim (total - b).
Proof. unfold len. intros. rewrite !length_take, length_drop. lia. Qed.

Lemma rest_nonempty data b total : 0 <= b < total -> total <= len data -> take (Z.to_nat (total - b)) (drop (Z.to_nat b) data) <> [].
Proof. intros Hb Ht E. apply (f_equal length) in E. unfold len in Ht. rewrite length_take, length_drop in E. cbn in E. lia. Qed.

Lemma Pwrite_transfers R f off data total s d ds c :
  on_file (view s) (file_ f) d ds c -> writable ds = true -> appends ds = false -> 0 <= off -> 0 <= total <= len data -> total < 2 ^ 31 -> off + total < 2 ^ 63 ->
  wpM R (write_loop ndebug (S (Z.to_nat total)) (fun bytes_written bs => o ← add_offset off bytes_written; Ok (Pwrite (file_ f) bs o)) data total 0) s
    (fun s' n => exists k, 0 <= k <= total /\ view s' = written (view s) d ds (offset ds) c off k data /\ moved s s' k n total).
Proof using Hretries.
  intros Hf Hw Ha Ho Ht Hs Hb. apply (write_loop_ok R _ (fun b => written (view s) d ds (offset ds) c off b data)); [|done..|lia|by right|lia].
  intros b Hb0 Hbt rest. exists (Pwrite (file_ f) rest (off + b)). unfold add_offset. rewrite (proj2 (Z.ltb_lt _ _)) by lia. split; [done|]. split; [done|].
  intros lim fd Hl. pose proof (rest_length data b total lim ltac:(lia) ltac:(lia) Hl) as Er. destruct (decide (b < total)) as [Hbt'|Hbt'].
  - pose proof (rest_nonempty data b total ltac:(lia) ltac:(lia)) as Hne. unfold written. rewrite (proj2 (Z.eqb_neq (b + _) 0)) by lia. destruct (Z.eqb_spec b 0) as [->|Hb1].
    + rewrite (exec_pwrite _ _ d ds c) by (done || lia). unfold rest in *. rewrite Er. rewrite Z.add_0_r, Z.sub_0_r, Z.add_0_l. cbn [Z.to_nat drop].
      do 4 f_equal. by rewrite take_take, <- Z2Nat.inj_min.
    + rewrite (exec_pwrite _ _ d (at_offset ds (offset ds)) (write_at c off (take (Z.to_nat b) data))) by (by eapply on_put) || done || lia.
      unfold rest in *. rewrite Er, put_put. cbn [offset at_offset]. by rewrite write_at_more by lia.
  - assert (b = 0 /\ total = 0) as [-> ->] by lia. cbn [exec]. rewrite (with_file_eq _ _ _ _ _ _ Hf), Hw, (proj2 (Z.ltb_ge _ _)) by lia. unfold rest. cbn.
    rewrite Z.min_r by lia. done.
Qed.

Lemma Write_transfers R f data total s d ds c :
  on_file (view s) (file_ f) d ds c -> writable ds = true -> 0 <= offset ds -> 0 <= total <= len data -> total < 2 ^ 31 ->
  let at_ := if appends ds then len c else offset ds in
  wpM R (write_loop ndebug (S (Z.to_nat total)) (fun _ bs => Ok (Write_ (file_ f) bs)) data total 0) s
    (fun s' n => exists k, 0 <= k <= total /\ view s' = written (view s) d ds (at_ + k) c at_ k data /\ moved s s' k n total).
Proof using Hretries.
  intros Hf Hw Ho Ht Hs at_. assert (Hat : 0 <= at_) by (unfold at_, len; case_match; lia).
  apply (write_loop_ok R _ (fun b => written (view s) d ds (at_ + b) c at_ b data)); [|done..|lia|by right|lia].
  intros b Hb0 Hbt rest. exists (Write_ (file_ f) rest). split; [done|]. split; [done|].
  intros lim fd Hl. pose proof (rest_length data b total lim ltac:(lia) ltac:(lia) Hl) as Er. destruct (decide (b < total)) as [Hbt'|Hbt'].
  - pose proof (rest_nonempty data b total ltac:(lia) ltac:(lia)) as Hne. unfold written. rewrite (proj2 (Z.eqb_neq (b + _) 0)) by lia. destruct (Z.eqb_spec b 0) as [->|Hb1].
    + rewrite (exec_write _ _ d ds c) by (done || lia). unfold rest in *. rewrite Er. fold at_. rewrite Z.sub_0_r, Z.add_0_l. cbn [Z.to_nat drop].
      do 4 f_equal. by rewrite take_take, <- Z2Nat.inj_min.
    + rewrite (exec_write _ _ d (at_offset ds (at_ + b)) (write_at c at_ (take (Z.to_nat b) data))) by (by eapply on_put) || done || lia.
      unfold rest in *. rewrite Er, put_put. cbn [offset at_offset appends].
      replace (if appends ds then len (write_at c at_ (take (Z.to_nat b) data)) else at_ + b) with (at_ + b).
      2: { unfold at_. destruct (appends ds) eqn:Ea; [|done]. rewrite write_at_end, len_app. unfold len. rewrite length_take. unfold len in Ht. lia. }
      by rewrite write_at_more, <- Z.add_assoc by lia.
  - assert (b = 0 /\ total = 0) as [-> ->] by lia. cbn [exec]. rewrite (with_file_eq _ _ _ _ _ _ Hf), Hw. unfold rest. cbn.
    rewrite Z.min_r by lia. done.
Qed.

(** ** Calls on a calm kernel *)

Lemma wpM_handle_calm R c s p (P : OS -> answer -> Prop) : not_close c -> calm s -> (forall lim fd, 0 < lim -> unused (view s) fd -> exec lim fd c (view s) = Some p) ->
  (forall s', calm s' -> view s' = p.1 -> P s' p.2) -> wpM R (HANDLE_EINTR ndebug c) s P.
Proof using Hretries.
  intros Hc Hs He HP. apply wpM_handle; [done|..].
  - intros lim fd Hl Hu. exists p. split; [by apply (He lim fd)|]. auto.
  - done.
Qed.

Lemma wpM_sys_calm R c s p (P : OS -> answer -> Prop) : not_close c -> interruptible c = false -> calm s -> (forall lim fd, 0 < lim -> unused (view s) fd -> exec lim fd c (view s) = Some p) ->
  (forall s', calm s' -> view s' = p.1 -> P s' p.2) -> wpM R (sys c) s P.
Proof.
  intros Hc Hi Hs He HP. apply wpM_sys; [done..|idtac|done]. intros lim fd Hl Hu. exists p. split; [by apply (He lim fd)|]. auto.
Qed.

(** Calls that make a descriptor. *)
Lemma wpM_handle_new R c s (p : Z -> System * answer) (P : OS -> answer -> Prop) : not_close c -> calm s ->
  (forall lim fd, 0 < lim -> unused (view s) fd -> exec lim fd c (view s) = Some (p fd)) ->
  (forall s' fd, calm s' -> unused (view s) fd -> view s' = (p fd).1 -> P s' (p fd).2) -> wpM R (HANDLE_EINTR ndebug c) s P.
Proof using Hretries.
  intros Hc Hs He HP. apply wpM_handle; [done|..].
  - intros lim fd Hl Hu. exists (p fd). split; [by apply (He lim fd)|]. auto.
  - done.
Qed.

Lemma wpM_unlink R path s : calm s ->
  wpM R (sys (Unlink path)) s (fun s' _ => calm s' /\ view s' = mkSystem (mkFiles (delete path (names (files (view s)))) (nodes (files (view s))) (descs (files (view s)))) (fds (view s))).
Proof.
  intros Hs. apply wpM_sys; [done..|idtac|done]. intros lim fd _ _. cbn [exec]. eexists. split; [done|]. intros s' Ev Hc. split; [auto|]. rewrite Ev. destruct (decide _) as [|Hn]; [done|].
  cbn. destruct (names _ !! path) eqn:E; [by destruct Hn|]. rewrite delete_id by done. by destruct (view s) as [[]].
Qed.

(** A descriptor is closed whatever [close] says. *)
Lemma Free_ok R fd s : calm s -> is_Some (fds (view s) !! fd) ->
  wpM R (Free fd) s (fun s' _ => calm s' /\ view s' = mkSystem (files (view s)) (delete fd (fds (view s)))).
Proof.
  intros Hs Hfd. unfold Free, IGNORE_EINTR, wpM, mbind, M_bind, sys. destruct (syscall (Close_ fd) s) as [s' r] eqn:E. cbn.
  destruct (decide (r = Err EINTR)) as [->|Hr].
  - destruct (syscall_interrupted _ _ _ E) as (_ & Ev & _ & Hc). cbn. auto.
  - destruct (syscall_answers _ _ _ _ E Hr) as [(lim & nfd & _ & _ & Hex & Hc)|(_ & Hn & _)]; [|done]. cbn [exec] in Hex. rewrite decide_True in Hex by done.
    destruct Hex as [|Hex]; [done|]. injection Hex as Ev <-. cbn. auto.
Qed.

Lemma reset_ok R f fd s : calm s -> is_Some (fds (view s) !! file_ f) -> file_ f <> -1 -> file_ f <> fd ->
  wpM R (reset f fd) s (fun s' f' => calm s' /\ view s' = mkSystem (files (view s)) (delete (file_ f) (fds (view s))) /\ f' = with_fd f fd).
Proof.
  intros Hs Hfd Hv Hne. unfold reset. rewrite (proj2 (Z.eqb_neq _ _) Hne), andb_false_r. unfold FreeIfNecessary. rewrite (proj2 (Z.eqb_neq _ _) Hv). cbn [negb].
  eapply wpM_seq; [by apply Free_ok|]. intros s' _ [Hc Ev]. by apply wpM_ret.
Qed.

Lemma reset_empty R f fd s : file_ f = -1 -> wpM R (reset f fd) s (fun s' f' => s' = s /\ f' = with_fd f fd).
Proof. intros E. unfold reset, FreeIfNecessary. rewrite E. done. Qed.

Lemma Close_ok R f s : calm s -> is_Some (fds (view s) !! file_ f) -> file_ f <> -1 ->
  wpM R (Close f) s (fun s' f' => calm s' /\ view s' = mkSystem (files (view s)) (delete (file_ f) (fds (view s))) /\ f' = with_fd f (-1)).
Proof. intros Hs Hfd Hv. unfold Close, IsValid. rewrite (proj2 (Z.eqb_neq _ _) Hv). by apply reset_ok. Qed.

Lemma Close_empty R f s : file_ f = -1 -> wpM R (Close f) s (fun s' f' => s' = s /\ f' = f).
Proof. intros E. unfold Close, IsValid. by rewrite E. Qed.

(** ** Single calls on an open file *)

Lemma IsOpenAppend_ok R fd d ds c s : on_file (view s) fd d ds c ->
  wpM R (IsOpenAppend fd) s (fun s' b => view s' = view s /\ (calm s -> calm s') /\ b = appends ds).
Proof.
  intros Hf. unfold IsOpenAppend. apply wpM_bind, wpM_sys; [done..|idtac|done]. intros lim nfd _ _. cbn [exec]. rewrite (with_file_eq _ _ _ _ _ _ Hf). eexists. split; [done|].
  intros s' Ev Hc. apply wpM_ret. split; [done|]. split; [done|]. cbn. by destruct (readable ds), (writable ds), (appends ds).
Qed.

Definition seek_base (whence : Whence) (o : Z) (c : list Z) : Z := match whence with FROM_BEGIN => 0 | FROM_CURRENT => o | FROM_END => len c end.

Lemma Seek_ok R f w off s d ds c : calm s -> IsValid f = true -> on_file (view s) (file_ f) d ds c ->
  let new := seek_base w (offset ds) c + off in
  wpM R (Seek f w off) s (fun s' n => calm s' /\
    if (new <? 0) || (2 ^ 63 <=? new) then view s' = view s /\ n = -1 else view s' = mkSystem (set_offset d ds new (files (view s))) (fds (view s)) /\ n = new).
Proof.
  intros Hs Hv Hf new. unfold Seek. apply wpM_bind, wpM_check; [done|]. apply wpM_bind.
  eapply wpM_sys_calm; [done..| |].
  - intros lim fd _ _. cbn [exec]. rewrite (with_file_eq _ _ _ _ _ _ Hf). replace (if whence_number w =? 0 then 0 else if whence_number w =? 1 then offset ds else len c) with (seek_base w (offset ds) c) by (by destruct w).
    fold new. reflexivity.
  - intros s' Hc Ev. apply wpM_ret. split; [done|]. rewrite Ev. destruct (new <? 0); [done|]. destruct (2 ^ 63 <=? new); done.
Qed.

Lemma GetLength_ok R f s d ds c : calm s -> IsValid f = true -> on_file (view s) (file_ f) d ds c ->
  wpM R (GetLength f) s (fun s' n => calm s' /\ view s' = view s /\ n = len c).
Proof.
  intros Hs Hv Hf. unfold GetLength. apply wpM_bind, wpM_check; [done|]. apply wpM_bind. eapply wpM_sys_calm; [done..| |].
  - intros lim fd _ _. cbn [exec]. rewrite (with_file_eq _ _ _ _ _ _ Hf). reflexivity.
  - intros s' Hc Ev. done.
Qed.

Lemma GetInfo_ok R f s d ds c : calm s -> IsValid f = true -> on_file (view s) (file_ f) d ds c ->
  wpM R (GetInfo f) s (fun s' i => calm s' /\ view s' = view s /\ i = Some (mkInfo (len c) false false)).
Proof.
  intros Hs Hv Hf. unfold GetInfo. apply wpM_bind, wpM_check; [done|]. apply wpM_bind. eapply wpM_sys_calm; [done..| |].
  - intros lim fd _ _. cbn [exec]. rewrite (with_file_eq _ _ _ _ _ _ Hf). reflexivity.
  - intros s' Hc Ev. done.
Qed.

Lemma SetLength_ok R f n s d ds c : calm s -> IsValid f = true -> on_file (view s) (file_ f) d ds c ->
  wpM R (SetLength ndebug f n) s (fun s' b => calm s' /\
    if negb (writable ds) || (n <? 0) then view s' = view s /\ b = false
    else view s' = mkSystem (set_node (inode ds) (resize c n) (files (view s))) (fds (view s)) /\ b = true).
Proof using Hretries.
  intros Hs Hv Hf. unfold SetLength, CallFtruncate. apply wpM_bind, wpM_check; [done|]. apply wpM_bind, wpM_bind. eapply wpM_handle_calm; [done..| |].
  - intros lim fd _ _. cbn [exec]. rewrite (with_file_eq _ _ _ _ _ _ Hf). reflexivity.
  - intros s' Hc Ev. apply wpM_ret, wpM_ret. split; [done|]. rewrite Ev. by destruct (negb (writable ds) || (n <? 0)).
Qed.

Lemma Flush_ok R f s d ds c : calm s -> IsValid f = true -> on_file (view s) (file_ f) d ds c ->
  wpM R (Flush ndebug f) s (fun s' b => calm s' /\ view s' = view s /\ b = true).
Proof using Hretries.
  intros Hs Hv Hf. unfold Flush. apply wpM_bind, wpM_check; [done|]. apply wpM_bind. eapply wpM_handle_calm; [done..| |].
  - intros lim fd _ _. cbn [exec]. rewrite (with_file_eq _ _ _ _ _ _ Hf). reflexivity.
  - intros s' Hc Ev. done.
Qed.

Lemma CallFcntlFlock_ok R fd mode s d ds c : calm s -> on_file (view s) fd d ds c ->
  wpM R (CallFcntlFlock ndebug fd mode) s (fun s' e => calm s' /\ view s' = view s /\
    e = match mode with Some kShared => if readable ds then FILE_OK else FILE_ERROR_FAILED | Some kExclusive => if writable ds then FILE_OK else FILE_ERROR_FAILED | None => FILE_OK end).
Proof using Hretries.
  intros Hs Hf. unfold CallFcntlFlock. apply wpM_bind. eapply wpM_handle_calm; [done..| |].
  - intros lim nfd _ _. cbn [exec]. rewrite (with_file_eq _ _ _ _ _ _ Hf). reflexivity.
  - intros s' Hc Ev. destruct mode as [[]|]; [destruct (readable ds)|destruct (writable ds)|]; cbn in *; done.
Qed.

Lemma Duplicate_ok R f s d ds c : calm s -> IsValid f = true -> on_file (view s) (file_ f) d ds c ->
  wpM R (Duplicate ndebug f) s (fun s' g => exists fd, calm s' /\ unused (view s) fd /\ view s' = mkSystem (files (view s)) (<[fd := d]> (fds (view s))) /\
    g = mkFile fd [] FILE_OK false (async_ f)).
Proof using Hretries.
  intros Hs Hv Hf. unfold Duplicate. rewrite Hv. cbn [negb]. apply wpM_bind.
  apply (wpM_handle_new R _ _ (fun fd => (mkSystem (files (view s)) (<[fd := d]> (fds (view s))), Ret fd []))); [done..| |].
  - intros lim nfd _ _. cbn [exec]. by rewrite (with_file_eq _ _ _ _ _ _ Hf).
  - intros s' fd Hc [Hu1 Hu2] Ev. cbn [snd rv_of]. rewrite (proj2 (Z.eqb_neq _ _)) by lia. unfold file_of. rewrite (proj2 (Z.leb_le _ _)) by lia. cbn. exists fd. done.
Qed.

(** ** Opening *)

(** What one [open] answers. *)
Definition open_result (S : System) (path : list Z) (o : Z) (fd : Z) : option (System * answer) := exec 1 fd (Open path o kMode) S.

Lemma exec_open_lim lim fd path o S : exec lim fd (Open path o kMode) S = open_result S path o fd.
Proof. done. Qed.

(** The answer of a call that either fails or makes a descriptor. *)
Lemma wpM_open R path o s (p : Z -> System * answer) (P : OS -> answer -> Prop) : calm s -> (forall fd, open_result (view s) path o fd = Some (p fd)) ->
  (forall s' fd, calm s' -> unused (view s) fd -> view s' = (p fd).1 -> P s' (p fd).2) -> wpM R (HANDLE_EINTR ndebug (Open path o kMode)) s P.
Proof using Hretries. intros Hs Ho HP. apply (wpM_handle_new R _ _ p); [done|done| |done]. intros lim fd _ _. rewrite exec_open_lim. apply Ho. Qed.

(** The rest of [DoInitialize] once a descriptor is there. *)
Definition opened_as (f : File) (path : list Z) (flags : Z) (e : Error) (cr : bool) (od : option positive) (S : System) (S' : System) (f' : File) : Prop :=
  match od with
  | None => fds S' = fds S /\ f' = mkFile (-1) path e cr (async_ f)
  | Some d => exists fd, unused S fd /\ fds S' = <[fd := d]> (fds S) /\ f' = mkFile fd path e cr (flag_set flags FLAG_ASYNC)
  end.

Definition finish_open (f : File) (path : list Z) (flags : Z) (rc : answer * bool) : M OS File :=
  let '(r, created) := rc in
  let f := mkFile (file_ f) (path_ f) (error_details_ f) created (async_ f) in
  if rv_of r <? 0 then e ← lift (GetLastFileError r); mret (mkFile (file_ f) (path_ f) e (created_ f) (async_ f)) else
  let created := created || flag_set flags (Z.lor FLAG_CREATE_ALWAYS FLAG_CREATE) in
  _ ← (if flag_set flags FLAG_DELETE_ON_CLOSE then sys (Unlink (c_string path)) else mret r);
  reset (mkFile (file_ f) (path_ f) FILE_OK created (flag_set flags FLAG_ASYNC)) (rv_of r).

Lemma finish_open_ok R f path flags cr F d fd S s : calm s -> file_ f = -1 -> path_ f = path -> unused S fd -> view s = mkSystem F (<[fd := d]> (fds S)) ->
  wpM R (finish_open f path flags (Ret fd [], cr)) s (fun s' f' => calm s' /\
    files (view s') = (if flag_set flags FLAG_DELETE_ON_CLOSE then mkFiles (delete (c_string path) (names F)) (nodes F) (descs F) else F) /\
    opened_as f path flags FILE_OK (cr || flag_set flags FLAG_CREATE_ALWAYS || flag_set flags FLAG_CREATE) (Some d) S (view s') f').
Proof.
  intros Hs Ef Ep [Hfd Hu] Ev. unfold finish_open. cbn [rv_of]. rewrite (proj2 (Z.ltb_ge _ _)) by lia. apply wpM_bind.
  eapply (wpM_mono R _ _ (fun s' _ => calm s' /\ files (view s') = (if flag_set flags FLAG_DELETE_ON_CLOSE then mkFiles (delete (c_string path) (names F)) (nodes F) (descs F) else F) /\ fds (view s') = <[fd := d]> (fds S))).
  { destruct (flag_set flags FLAG_DELETE_ON_CLOSE).
    - eapply wpM_mono; [by apply wpM_unlink|]. intros s' _ [Hc E]. rewrite Ev in E. rewrite E. done.
    - apply wpM_ret. rewrite Ev. done. }
  intros s' _ (Hc & E1 & E2). eapply wpM_mono; [by apply reset_empty|]. intros s2 f2 [-> ->]. split; [done|]. split; [done|]. exists fd. split; [done|]. split; [done|].
  unfold with_fd. cbn. rewrite Ep. by rewrite flag_set_either, orb_assoc.
Qed.

Lemma finish_open_failed R f path flags cr errno e s : file_ f = -1 -> path_ f = path -> OSErrorToFileError errno = Ok e ->
  wpM R (finish_open f path flags (Err errno, cr)) s (fun s' f' => s' = s /\ f' = mkFile (-1) path e cr (async_ f)).
Proof. intros Ef Ep Ee. unfold finish_open. cbn [rv_of Z.ltb]. cbn. unfold GetLastFileError, wpM, mbind, M_bind, lift. cbn. rewrite Ee. cbn. by rewrite Ef, Ep. Qed.

Lemma Initialize_ok R f path flags s F od e cr : calm s -> file_ f = -1 -> valid_flags flags = true -> IsStringUTF8AndReportIdx path = 0 ->
  spec_open (files (view s)) (c_string path) flags = Some (F, od, e, cr) ->
  wpM R (Initialize ndebug f path flags) s (fun s' f' => calm s' /\ files (view s') = F /\ opened_as f path flags e cr od (view s) (view s') f').
Proof using Hretries.
  intros Hs Ef Hv Hu Hspec. destruct (open_flags_ok flags Hv) as (o & Eo & [Hcr Hex Htr Hd] & Ha). unfold Initialize, DoInitialize.
  apply wpM_bind, wpM_check; [unfold IsValid; cbn; by rewrite Ef|]. apply wpM_bind. rewrite Eo. apply wpM_ok. apply wpM_bind, wpM_check; [by apply Z.eqb_eq|]. cbn [file_ path_ error_details_ async_].
  set (f0 := mkFile (file_ f) path (error_details_ f) false (async_ f)).
  change (wpM R (r ← HANDLE_EINTR ndebug (Open (c_string path) o kMode);
    rc ← (if flag_set flags FLAG_OPEN_ALWAYS && (rv_of r <? 0) then r ← HANDLE_EINTR ndebug (Open (c_string path) (Z.lor o O_CREAT) kMode); mret (r, 0 <=? rv_of r) else mret (r, false));
    finish_open f0 path flags rc) s (fun s' f' => calm s' /\ files (view s') = F /\ opened_as f path flags e cr od (view s) (view s') f')).
  destruct (valid_shape flags Hv) as (Hsh & Hoa & Hc & Hwr). set (S := view s) in *. unfold spec_open in Hspec.
  assert (Hopen : forall s1 fd F1 ds cr0, calm s1 -> unused S fd -> view s1 = (opened S F1 fd ds).1 ->
    (if flag_set flags FLAG_DELETE_ON_CLOSE then mkFiles (delete (c_string path) (names F1)) (nodes F1) (descs (add_desc F1 ds)) else add_desc F1 ds) = F ->
    od = Some (fresh_key (descs F1)) -> e = FILE_OK -> cr = cr0 || flag_set flags FLAG_CREATE_ALWAYS || flag_set flags FLAG_CREATE ->
    wpM R (finish_open f0 path flags (Ret fd [], cr0)) s1 (fun s' f' => calm s' /\ files (view s') = F /\ opened_as f path flags e cr od S (view s') f')).
  { intros s1 fd F1 ds cr0 Hc1 Hu1 Ev1 EF -> -> ->. eapply wpM_mono; [eapply (finish_open_ok R f0 path flags cr0 (add_desc F1 ds)); [done|done|done|exact Hu1|exact Ev1]|].
    intros s' f' (H1 & H2 & H3). split; [done|]. split; [by rewrite H2, <- EF|]. exact H3. }
  destruct (names (files S) !! c_string path) as [i|] eqn:En.
  - assert (Hfirst : forall fd, open_result S (c_string path) o fd = (if flag_set flags FLAG_CREATE then Some (S, Err EEXIST) else
      match nodes (files S) !! i with Some (Regular c) => Some (opened S (if flag_set flags FLAG_CREATE_ALWAYS || flag_set flags FLAG_OPEN_TRUNCATED then set_node i [] (files S) else files S) fd (desc_of flags i)) | _ => None end)).
    { intros fd. unfold open_result. cbn [exec]. rewrite En, Hcr, Hex, Htr, Hd. destruct (flag_set flags FLAG_CREATE); [done|]. rewrite andb_false_r. destruct (nodes (files S) !! i) as [[c|]|]; [|done..].
      destruct (flag_set flags FLAG_CREATE_ALWAYS || flag_set flags FLAG_OPEN_TRUNCATED); [|done]. unfold desc_of. cbn [writable]. by rewrite (Hwr eq_refl). }
    destruct (flag_set flags FLAG_CREATE) eqn:Ec.
    + injection Hspec as <- <- <- <-. apply wpM_bind. apply (wpM_open R _ _ _ (fun _ => (S, Err EEXIST))); [done|exact Hfirst|]. intros s1 fd Hc1 _ Ev1. rewrite (Hc eq_refl). cbn [andb].
      apply wpM_bind, wpM_ret. eapply wpM_mono; [by eapply (finish_open_failed R f0)|]. intros s' f' [-> ->]. cbn in Ev1. split; [done|]. split; [by rewrite Ev1|]. split; [by rewrite Ev1|done].
    + destruct (nodes (files S) !! i) as [[c|]|]; [|done..]. injection Hspec as <- <- <- <-. apply wpM_bind. apply (wpM_open R _ _ _ _ _ Hs Hfirst). intros s1 fd Hc1 Hu1 Ev1. cbn [snd opened rv_of].
      rewrite (proj2 (Z.ltb_ge _ _)) by apply Hu1. rewrite andb_false_r. apply wpM_bind, wpM_ret. eapply Hopen; [done|done|exact Ev1|..]; [|by destruct (_ || _)|done|cbn; by rewrite orb_false_r].
      by destruct (_ || _).
  - rewrite <- Hcr in Hsh. destruct (flag_set flags FLAG_OPEN || flag_set flags FLAG_OPEN_TRUNCATED) eqn:Eo1.
    + injection Hspec as <- <- <- <-. apply orb_false_iff in Hsh as [Hsh1 Hsh2]. apply wpM_bind. apply (wpM_open R _ _ _ (fun _ => (S, Err ENOENT))); [done|intros fd; fold S; unfold open_result; cbn [exec]; by rewrite En, Hsh1|].
      intros s1 fd Hc1 _ Ev1. rewrite Hsh2. cbn [andb]. apply wpM_bind, wpM_ret. eapply wpM_mono; [by eapply (finish_open_failed R f0)|]. intros s' f' [-> ->]. cbn in Ev1. split; [done|]. split; [by rewrite Ev1|]. split; [by rewrite Ev1|done].
    + injection Hspec as EF <- <- <-. set (F1 := mkFiles (<[c_string path := fresh_key (nodes (files S))]> (names (files S))) (<[fresh_key (nodes (files S)) := Regular []]> (nodes (files S))) (descs (files S))) in *.
      destruct (flag_set o O_CREAT) eqn:Eoc.
      * apply wpM_bind. apply (wpM_open R _ _ _ (fun fd => opened S F1 fd (desc_of flags (fresh_key (nodes (files S)))))); [done|intros fd; fold S; unfold open_result; cbn [exec]; by rewrite En, Eoc, Hd|].
        intros s1 fd Hc1 Hu1 Ev1. cbn [snd opened rv_of]. rewrite (proj2 (Z.ltb_ge _ _)) by apply Hu1. rewrite andb_false_r. apply wpM_bind, wpM_ret.
        eapply Hopen; [done|done|exact Ev1|exact EF|done|done|]. cbn [orb]. rewrite orb_comm. exact Hcr.
      * cbn in Hsh. rewrite Hsh. cbn [andb]. destruct (Ha Hsh) as (A1 & A2 & A3 & A4). apply wpM_bind. apply (wpM_open R _ _ _ (fun _ => (S, Err ENOENT))); [done|intros fd; fold S; unfold open_result; cbn [exec]; by rewrite En, Eoc|].
        intros s1 fd1 Hc1 _ Ev1. cbn [snd rv_of fst] in *. cbn [Z.ltb]. apply wpM_bind, wpM_bind.
        apply (wpM_open R _ _ _ (fun fd => opened S F1 fd (desc_of flags (fresh_key (nodes (files S)))))); [done|intros fd; rewrite Ev1; unfold open_result; cbn [exec]; by rewrite En, A1, A4|].
        intros s2 fd Hc2 Hu2 Ev2. rewrite Ev1 in Hu2. cbn [snd opened rv_of]. apply wpM_ret. rewrite (proj2 (Z.leb_le _ _)) by apply Hu2.
        eapply Hopen; [done|done|exact Ev2|exact EF|done|done|done].
Qed.

(** ** Reads and writes on a calm kernel *)

Lemma moved_calm s s' k n most : calm s -> moved s s' k n most -> calm s' /\ n = most /\ k = most.
Proof. intros Hs [[->|(_ & _ & Hn)] Hm]; [|done]. destruct (Hm Hs) as [? ->]. done. Qed.

Lemma landed_spec c off size data : 0 <= off -> 0 <= size -> landed c off (len (read_at c off size)) data = read_at c off size ++ drop (length (read_at c off size)) data.
Proof. intros Ho Hs. unfold landed. rewrite <- (read_at_exact c off size) by done. unfold len. by rewrite Nat2Z.id. Qed.

Lemma refused_read S fd d ds c lim nfd n off : on_file S fd d ds c -> negb (readable ds) || (off <? 0) = true ->
  exec lim nfd (Pread fd n off) S = Some (S, Err (if negb (readable ds) then EBADF else EINVAL)).
Proof. intros Hf Hr. cbn [exec]. rewrite (with_file_eq _ _ _ _ _ _ Hf). destruct (negb (readable ds)); [done|]. cbn in Hr. by rewrite Hr. Qed.

Lemma Read_ok R f off data size s d ds c data' n : calm s -> IsValid f = true -> on_file (view s) (file_ f) d ds c -> spec_read ds c off data size = Some (data', n) ->
  wpM R (Read ndebug f off data size) s (fun s' r => calm s' /\ view s' = view s /\ r = (data', n)).
Proof using Hretries.
  intros Hs Hv Hf. unfold spec_read. destruct (Z.ltb_spec size 0) as [Hz|Hz].
  { intros [= <- <-]. unfold Read. apply wpM_bind, wpM_check; [done|]. rewrite (proj2 (Z.ltb_lt _ _)) by lia. by apply wpM_ret. }
  destruct (decide _) as [(H1 & H2 & H3)|]; [|done]. destruct (negb (readable ds) || (off <? 0)) eqn:Er.
  - intros [= <- <-]. unfold Read. apply wpM_bind, wpM_check; [done|]. rewrite (proj2 (Z.ltb_ge _ _)) by lia. eapply wpM_mono.
    + eapply read_loop_refused; [unfold add_offset; rewrite (proj2 (Z.ltb_lt _ _)) by lia; reflexivity|done| |done]. intros lim fd _. rewrite Z.add_0_r. by eapply refused_read.
    + intros s' [data' n] (Ev & Hc & -> & ->). auto.
  - apply orb_false_iff in Er as [Er Eo]. apply negb_false_iff in Er. apply Z.ltb_ge in Eo. intros [= <- <-].
    eapply wpM_mono; [eapply (Read_transfers R f off data size s d ds c); done || lia|]. intros s' [data' n] (k & Hk & Ev & -> & Hm).
    destruct (moved_calm _ _ _ _ _ Hs Hm) as (Hc & -> & ->). split; [done|]. split; [done|]. by rewrite landed_spec.
Qed.

Lemma ReadAtCurrentPos_ok R f data size s d ds c data' n : calm s -> IsValid f = true -> on_file (view s) (file_ f) d ds c -> 0 <= offset ds ->
  spec_read ds c (offset ds) data size = Some (data', n) ->
  wpM R (ReadAtCurrentPos ndebug f data size) s (fun s' r => calm s' /\ view s' = put (view s) d ds (offset ds + Z.max 0 n) c /\ r = (data', n)).
Proof using Hretries.
  intros Hs Hv Hf Ho. unfold spec_read. destruct (Z.ltb_spec size 0) as [Hz|Hz].
  { intros [= <- <-]. unfold ReadAtCurrentPos. apply wpM_bind, wpM_check; [done|]. rewrite (proj2 (Z.ltb_lt _ _)) by lia. apply wpM_ret. split; [done|]. split; [|done].
    cbn. rewrite Z.add_0_r. symmetry. by eapply put_nothing. }
  destruct (decide _) as [(H1 & H2 & H3)|]; [|done]. rewrite (proj2 (Z.ltb_ge (offset ds) 0)), orb_false_r by done. destruct (readable ds) eqn:Er; cbn [negb].
  - intros [= <- <-]. eapply wpM_mono; [eapply (ReadAtCurrentPos_transfers R f data size s d ds c); done || lia|]. intros s' [data' n] (k & Hk & Ev & -> & Hm).
    destruct (moved_calm _ _ _ _ _ Hs Hm) as (Hc & -> & ->). split; [done|]. rewrite Ev, Z.max_r by apply len_nonneg. split; [done|]. by rewrite landed_spec.
  - intros [= <- <-]. unfold ReadAtCurrentPos. apply wpM_bind, wpM_check; [done|]. rewrite (proj2 (Z.ltb_ge _ _)) by lia. eapply wpM_mono.
    + eapply read_loop_refused; [reflexivity|done| |done]. intros lim fd _. cbn [exec]. rewrite (with_file_eq _ _ _ _ _ _ Hf), Er. reflexivity.
    + intros s' [data' n] (Ev & Hc & -> & ->). split; [auto|]. split; [|done]. rewrite Ev. cbn. rewrite Z.add_0_r. symmetry. by eapply put_nothing.
Qed.

Lemma written_files S d ds o c off k data : written S d ds o c off k data =
  mkSystem (if k =? 0 then files S else set_offset d ds o (set_node (inode ds) (write_at c off (take (Z.to_nat k) data)) (files S))) (fds S).
Proof. unfold written. destruct (k =? 0); [by destruct S|done]. Qed.

Lemma set_offset_id d ds F : descs F !! d = Some ds -> set_offset d ds (offset ds) F = F.
Proof. intros E. destruct F as [N O D], ds. unfold set_offset. cbn in *. by rewrite insert_id. Qed.

Lemma WriteAtCurrentPos_ok R f data size s d ds c F n : calm s -> IsValid f = true -> on_file (view s) (file_ f) d ds c -> 0 <= offset ds ->
  spec_write_here (files (view s)) d ds c data size = Some (F, n) ->
  wpM R (WriteAtCurrentPos ndebug f data size) s (fun s' n' => calm s' /\ view s' = mkSystem F (fds (view s)) /\ n' = n).
Proof using Hretries.
  intros Hs Hv Hf Ho. unfold spec_write_here, WriteAtCurrentPos. intros Hspec. apply wpM_bind, wpM_check; [done|]. destruct (Z.ltb_spec size 0) as [Hz|Hz].
  { injection Hspec as <- <-. apply wpM_ret. by destruct (view s). }
  destruct (decide _) as [(H1 & H2)|]; [|done]. destruct (writable ds) eqn:Ew; cbn [negb] in Hspec; injection Hspec as <- <-.
  - eapply wpM_mono; [eapply (Write_transfers R f data size s d ds c); done || lia|]. intros s' n (k & Hk & Ev & Hm).
    destruct (moved_calm _ _ _ _ _ Hs Hm) as (Hc & -> & ->). split; [done|]. by rewrite Ev, written_files.
  - eapply wpM_mono.
    + eapply write_loop_refused; [reflexivity|done| |done]. intros lim fd _. cbn [exec]. rewrite (with_file_eq _ _ _ _ _ _ Hf), Ew. reflexivity.
    + intros s' n (Ev & Hc & ->). split; [auto|]. split; [|done]. rewrite Ev. by destruct (view s).
Qed.

Lemma Write_ok R f off data size s d ds c F n : calm s -> IsValid f = true -> on_file (view s) (file_ f) d ds c -> 0 <= offset ds ->
  spec_write (files (view s)) d ds c off data size = Some (F, n) ->
  wpM R (Write ndebug f off data size) s (fun s' n' => calm s' /\ view s' = mkSystem F (fds (view s)) /\ n' = n).
Proof using Hretries.
  intros Hs Hv Hf Ho. unfold spec_write, Write. intros Hspec. destruct (2 ^ 31 - 1 <? size) eqn:Eb.
  { injection Hspec as <- <-. apply wpM_ret. by destruct (view s). }
  apply Z.ltb_ge in Eb. destruct (Z.ltb_spec size 0) as [|Hz]; [done|]. apply wpM_bind. eapply wpM_mono; [by eapply IsOpenAppend_ok|]. intros s1 b (Ev1 & Hc1 & ->).
  rewrite <- Ev1 in *. specialize (Hc1 Hs). destruct (appends ds) eqn:Ea; [by eapply WriteAtCurrentPos_ok|].
  apply wpM_bind, wpM_check; [done|]. destruct (decide _) as [(H1 & H2)|]; [|done]. destruct (negb (writable ds) || (off <? 0)) eqn:Ew; injection Hspec as <- <-.
  - eapply wpM_mono.
    + eapply write_loop_refused; [unfold add_offset; rewrite (proj2 (Z.ltb_lt _ _)) by lia; reflexivity|done| |done]. intros lim fd _. rewrite Z.add_0_r. cbn [exec]. rewrite (with_file_eq _ _ _ _ _ _ Hf).
      instantiate (1 := if negb (writable ds) then EBADF else EINVAL). destruct (negb (writable ds)); [done|]. cbn in Ew. by rewrite Ew.
    + intros s' n (Ev & Hc & ->). split; [auto|]. split; [|done]. rewrite Ev. by destruct (view s1).
  - apply orb_false_iff in Ew as [Ew Eo]. apply negb_false_iff in Ew. apply Z.ltb_ge in Eo.
    eapply wpM_mono; [eapply (Pwrite_transfers R f off data size s1 d ds c); done || lia|]. intros s' n (k & Hk & Ev & Hm).
    destruct (moved_calm _ _ _ _ _ Hc1 Hm) as (Hc & -> & ->). split; [done|]. split; [|done]. rewrite Ev, written_files. f_equal. destruct (size =? 0); [done|]. apply set_offset_id. apply Hf.
Qed.

(** ** Whole files *)

Lemma open_file_ok R path flags s F od e cr : calm s -> valid_flags flags = true -> IsStringUTF8AndReportIdx path = 0 ->
  spec_open (files (view s)) (c_string path) flags = Some (F, od, e, cr) ->
  wpM R (open_file ndebug path flags) s (fun s' f' => calm s' /\ files (view s') = F /\ opened_as (mkFile (-1) [] FILE_OK false false) path flags e cr od (view s) (view s') f').
Proof using Hretries. intros. by apply Initialize_ok. Qed.

(** Closing what was just opened gives the descriptors back. *)
Lemma Close_opened R f fd d m F s : calm s -> file_ f = fd -> fd <> -1 -> m !! fd = None -> view s = mkSystem F (<[fd := d]> m) ->
  wpM R (Close f) s (fun s' _ => calm s' /\ view s' = mkSystem F m).
Proof.
  intros Hs Ef Hv Hm Ev. eapply wpM_mono; [apply Close_ok; [done| |by rewrite Ef]|].
  - rewrite Ev, Ef. cbn. rewrite lookup_insert_eq. by eexists.
  - intros s' f' (Hc & Ev' & _). split; [done|]. rewrite Ev', Ev, Ef. cbn. f_equal. by apply delete_insert_id.
Qed.

(** Reading into a buffer of the length of the file, of which an [int] counts the bytes asked for. *)
Lemma spec_read_fresh c i : len c < 2 ^ 63 -> exists data n,
  spec_read (mkDesc i 0 true false false) c 0 (replicate (Z.to_nat (len c)) (-1)) (i32 (len c)) = Some (data, n) /\
  (if n =? len c then Some data else None) = (if decide (len c < 2 ^ 31) then Some c else None).
Proof.
  intros Hlen. pose proof (len_nonneg c) as Hlc. set (m := i32 (len c)). assert (Hm : m <= len c /\ m < 2 ^ 31 /\ (len c < 2 ^ 31 -> m = len c)).
  { unfold m. pose proof (swrap_range 32 (len c) ltac:(lia)). split; [|split; [lia|intros; by rewrite swrap_small by lia]].
    unfold swrap, wrap. pose proof (Z.mod_le (len c) (2 ^ 32) ltac:(lia) ltac:(lia)). destruct (_ <? _); lia. }
  assert (Hdl : len (replicate (Z.to_nat (len c)) (-1)) = len c) by (unfold len; rewrite length_replicate; lia).
  unfold spec_read. rewrite Hdl. cbn [readable negb orb]. change (0 <? 0) with false. destruct (Z.ltb_spec m 0).
  - eexists _, _. split; [done|]. rewrite (proj2 (Z.eqb_neq _ _)) by lia. by rewrite decide_False by lia.
  - rewrite decide_True by lia. eexists _, _. split; [done|]. rewrite len_read_at, Z.sub_0_r by lia. destruct (decide (len c < 2 ^ 31)) as [Hs31|Hs31].
    + destruct Hm as (_ & _ & ->); [|done]. rewrite (proj2 (Z.eqb_eq _ _)) by lia. f_equal. rewrite read_all, drop_ge by (rewrite length_replicate; unfold len; lia). apply app_nil_r.
    + by rewrite (proj2 (Z.eqb_neq _ _)) by lia.
Qed.

Lemma ReadFile_ok (R : Prop) grants path s F r : calm s -> IsStringUTF8AndReportIdx path = 0 -> spec_read_file (files (view s)) (c_string path) = Some (F, r) ->
  (R -> forall n, r.2 = Some n -> grants n = true) ->
  wpM R (ReadFile ndebug grants path) s (fun s' r' => calm s' /\ view s' = mkSystem F (fds (view s)) /\ r' = r).
Proof using Hretries.
  intros Hs Hu Hspec HR. unfold ReadFile. apply wpM_bind. unfold spec_read_file in Hspec. destruct (names (files (view s)) !! c_string path) as [i|] eqn:En.
  - destruct (nodes (files (view s)) !! i) as [[c|]|] eqn:Ei; [|done..]. destruct (decide (len c < 2 ^ 63)) as [Hlen|]; [|done]. injection Hspec as <- <-. cbn [snd] in HR.
    set (F1 := add_desc (files (view s)) (mkDesc i 0 true false false)). set (d := fresh_key (descs (files (view s)))).
    eapply wpM_mono; [apply (open_file_ok R path _ s F1 (Some d) FILE_OK false); [done|done|done|]|].
    { unfold spec_open. rewrite En, Ei. done. }
    intros s1 f (Hc1 & E1 & fd & [Hfd Hfree] & E2 & ->). rewrite (proj2 (negb_false_iff _)) by (unfold IsValid; cbn; apply negb_true_iff, Z.eqb_neq; lia).
    assert (Hf : on_file (view s1) fd d (mkDesc i 0 true false false) c).
    { split; [rewrite E2; apply lookup_insert_eq|]. rewrite E1. split; [apply lookup_insert_eq|exact Ei]. }
    assert (Hv : IsValid (mkFile fd path FILE_OK false (flag_set (Z.lor FLAG_OPEN FLAG_READ) FLAG_ASYNC)) = true) by (unfold IsValid; cbn; apply negb_true_iff, Z.eqb_neq; lia).
    pose proof (len_nonneg c) as Hlc. apply wpM_bind. eapply wpM_mono; [by eapply Seek_ok|]. intros s2 len2 [Hc2 H2]. cbn [seek_base] in H2. rewrite Z.add_0_r, (proj2 (Z.ltb_ge _ _)), (proj2 (Z.leb_gt _ _)) in H2 by lia. destruct H2 as [Ev2 ->].
    assert (Hf2 : on_file (view s2) fd d (mkDesc i (len c) true false false) c).
    { rewrite Ev2. destruct Hf as (G1 & G2 & G3). split; [done|]. cbn. rewrite lookup_insert_eq. done. }
    rewrite (wrap_small 64 (len c)) by (unfold fits; lia). apply wpM_bind. unfold make_bytes. destruct (grants (len c)) eqn:Eg.
    2: { intros HR'. specialize (HR HR' _ eq_refl). congruence. }
    apply wpM_ok. apply wpM_bind. eapply wpM_mono; [by eapply (Seek_ok R _ FROM_BEGIN 0)|]. intros s3 n3 [Hc3 H3]. destruct H3 as [Ev3 _].
    assert (Ev : view s3 = mkSystem F1 (<[fd := d]> (fds (view s)))).
    { rewrite Ev3, Ev2. cbn. rewrite E1, E2. unfold F1, add_desc, set_offset. cbn. fold d. by rewrite !insert_insert_eq. }
    assert (Hf3 : on_file (view s3) fd d (mkDesc i 0 true false false) c).
    { rewrite Ev. split; [apply lookup_insert_eq|]. split; [apply lookup_insert_eq|exact Ei]. }
    destruct (spec_read_fresh c i Hlen) as (data & n & Er & Ed). apply wpM_bind.
    eapply wpM_mono; [eapply Read_ok; [done| |exact Hf3|exact Er]; done|]. intros s4 r4 (Hc4 & Ev4 & ->). apply wpM_bind.
    eapply wpM_mono; [eapply (Close_opened R _ fd d (fds (view s)) F1); [done|done|lia|done|by rewrite Ev4]|]. intros s5 _ [Hc5 Ev5]. apply wpM_ret. by rewrite Ed.
  - injection Hspec as <- <-. eapply wpM_mono; [apply (open_file_ok R path _ s (files (view s)) None FILE_ERROR_NOT_FOUND false); [done|done|done|unfold spec_open; by rewrite En]|].
    intros s1 f (Hc1 & E1 & E2 & ->). apply wpM_ret. split; [done|]. split; [|done]. rewrite <- E1, <- E2. by destruct (view s1).
Qed.

Lemma WriteFile_ok R path data size s F b : calm s -> IsStringUTF8AndReportIdx path = 0 -> spec_write_file (files (view s)) (c_string path) data size = Some (F, b) ->
  wpM R (WriteFile ndebug path data size) s (fun s' b' => calm s' /\ view s' = mkSystem F (fds (view s)) /\ b' = b).
Proof using Hretries.
  intros Hs Hu. unfold spec_write_file. destruct (decide _) as [(H1 & H2)|]; [|done]. destruct (spec_open (files (view s)) (c_string path) _) as [[[[F1 [d|]] e] cr]|] eqn:Eo; [|done..].
  destruct (spec_open_file _ _ _ _ _ _ _ Eo) as (i & c & Ed & Ei & Hcont & _). rewrite (Hcont eq_refl) in Ei. clear Hcont. rewrite Ed. intros [= <- <-]. cbn [inode desc_of].
  unfold WriteFile. apply wpM_bind. eapply wpM_mono; [by eapply open_file_ok|]. intros s1 f (Hc1 & E1 & fd & [Hfd Hfree] & E2 & ->).
  assert (Hv : forall a b, IsValid (mkFile fd path a b (flag_set (Z.lor FLAG_CREATE_ALWAYS FLAG_WRITE) FLAG_ASYNC)) = true) by (intros; unfold IsValid; cbn; apply negb_true_iff, Z.eqb_neq; lia). rewrite Hv. cbn [negb].
  set (ds := desc_of (Z.lor FLAG_CREATE_ALWAYS FLAG_WRITE) i) in *. assert (Hf : on_file (view s1) fd d ds []).
  { split; [rewrite E2; apply lookup_insert_eq|]. rewrite E1. done. }
  rewrite swrap_small, (wrap_small 64) by (unfold fits; lia). apply wpM_bind.
  eapply wpM_mono; [eapply (Write_ok R _ 0 data size s1 d ds [] (set_node i (take (Z.to_nat size) data) F1) size); [done|done|exact Hf|done|]|].
  { unfold spec_write. rewrite (proj2 (Z.ltb_ge _ _)), (proj2 (Z.ltb_ge size 0)) by lia. cbn [appends ds desc_of]. change (flag_set (Z.lor FLAG_CREATE_ALWAYS FLAG_WRITE) FLAG_APPEND) with false. cbv iota.
    rewrite decide_True by lia. change (negb (writable ds) || (0 <? 0)) with false. cbv iota. f_equal. f_equal. rewrite E1. destruct (Z.eqb_spec size 0) as [->|].
    - unfold set_node. cbn [Z.to_nat take]. rewrite insert_id by done. by destruct F1.
    - f_equal. unfold write_at. cbn [Z.to_nat take length replicate app]. rewrite drop_nil. apply app_nil_r. }
  intros s2 n (Hc2 & Ev2 & ->). apply wpM_bind. eapply wpM_mono; [eapply (Close_opened R _ fd d (fds (view s)) _); [done|done|lia|done|by rewrite Ev2, E2]|].
  intros s3 _ [Hc3 Ev3]. apply wpM_ret. split; [done|]. split; [done|]. by rewrite Z.eqb_refl.
Qed.

End Triples.
