(* ===== verification/FileIoPrograms.v ===== *)
(** * base::File: its contract

    Programs over any number of [File] objects, their files and positions, whole files included.
    The abstract state is the files by name and contents, and for every object the description it
    has open; descriptors, interruptions and short transfers are gone.  The relation says that each
    descriptor is one the process had before or belongs to exactly one object: none leaks, and none
    is closed twice. *)

From stdpp Require Import gmap.
From S2P Require Import Prelude Memory Refine CodeConvert FileOs FileIo FileIoSpec.

Set Default Proof Using "Type".
#[local] Open Scope Z_scope.

(** ** Programs *)

Inductive Op :=
| New (n : nat) | Init (n : nat) (path : list Z) (flags : Z) | CloseOp (n : nat) | Delete (n : nat)
| MoveTo (n m : nat) | AssignTo (n m : nat) | DuplicateTo (n m : nat)
| ReadOp (n : nat) (off : Z) (data : list Z) (size : Z) | ReadHere (n : nat) (data : list Z) (size : Z)
| WriteOp (n : nat) (off : Z) (data : list Z) (size : Z) | WriteHere (n : nat) (data : list Z) (size : Z)
| ReadChecked (n : nat) (off : Z) (data : list Z) | WriteChecked (n : nat) (off : Z) (data : list Z)
| SeekOp (n : nat) (whence : Whence) (off : Z) | LengthOp (n : nat) | SetLengthOp (n : nat) (length : Z)
| InfoOp (n : nat) | FlushOp (n : nat) | LockOp (n : nat) (mode : LockMode) | UnlockOp (n : nat)
| ReadFileOp (path : list Z) | WriteFileOp (path data : list Z) (size : Z).

Inductive Out :=
| OFile (valid : bool) (path : list Z) (error : Error) (created async : bool)
| OBytes (data : list Z) (n : Z) | OChecked (data : list Z) (b : bool) | OInt (n : Z) | OBool (b : bool) | OInfo (i : option Info) | OError (e : Error)
| OContents (r : option (list Z) * option Z) | ODone.

Definition status (f : File) : Out := OFile (IsValid f) (path_ f) (error_details_ f) (created_ f) (async_ f).

Section Step.

Context {OS : Type} `{Kernel OS} (ndebug : bool) (grants : Z -> bool).

Abbreviation State := (OS * gmap nat File)%type.

(** A member that leaves the object as it is. *)
Definition query {A} (n : nat) (m : File -> M OS A) (out : A -> Out) (st : State) : res (State * Out) :=
  match st.2 !! n with
  | Some f => match m f st.1 with Ok (s, a) => Ok ((s, st.2), out a) | Fatal => Fatal | Undef => Undef end
  | None => Undef
  end.

Definition change (n : nat) (m : File -> M OS File) (st : State) : res (State * Out) :=
  match st.2 !! n with
  | Some f => match m f st.1 with Ok (s, f) => Ok ((s, <[n := f]> st.2), status f) | Fatal => Fatal | Undef => Undef end
  | None => Undef
  end.

Definition free_place (n : nat) (st : State) : res unit := match st.2 !! n with None => Ok tt | Some _ => Undef end.

Definition step (o : Op) (st : State) : res (State * Out) :=
  match o with
  | New n => _ ← free_place n st; Ok ((st.1, <[n := new_file]> st.2), status new_file)
  | Init n path flags => change n (fun f => Initialize ndebug f path flags) st
  | CloseOp n => change n Close st
  | Delete n => match st.2 !! n with Some f => match Close f st.1 with Ok (s, _) => Ok ((s, delete n st.2), ODone) | Fatal => Fatal | Undef => Undef end | None => Undef end
  | MoveTo n m => _ ← free_place n st; match st.2 !! m with Some f => let '(f, rest) := move_file f in Ok ((st.1, <[n := f]> (<[m := rest]> st.2)), status f) | None => Undef end
  | AssignTo n m => match assign_file st.2 n m st.1 with Ok (s, objs) => match objs !! n with Some f => Ok ((s, objs), status f) | None => Undef end | Fatal => Fatal | Undef => Undef end
  | DuplicateTo n m => _ ← free_place n st;
      match st.2 !! m with Some f => match Duplicate ndebug f st.1 with Ok (s, g) => Ok ((s, <[n := g]> st.2), status g) | Fatal => Fatal | Undef => Undef end | None => Undef end
  | ReadOp n off data size => query n (fun f => Read ndebug f off data size) (fun r => OBytes r.1 r.2) st
  | ReadHere n data size => query n (fun f => ReadAtCurrentPos ndebug f data size) (fun r => OBytes r.1 r.2) st
  | WriteOp n off data size => query n (fun f => Write ndebug f off data size) OInt st
  | WriteHere n data size => query n (fun f => WriteAtCurrentPos ndebug f data size) OInt st
  | ReadChecked n off data => query n (fun f => ReadAndCheck ndebug f off data) (fun r => OChecked r.1 r.2) st
  | WriteChecked n off data => query n (fun f => WriteAndCheck ndebug f off data) OBool st
  | SeekOp n whence off => query n (fun f => Seek f whence off) OInt st
  | LengthOp n => query n GetLength OInt st
  | SetLengthOp n length => query n (fun f => SetLength ndebug f length) OBool st
  | InfoOp n => query n GetInfo OInfo st
  | FlushOp n => query n (Flush ndebug) OBool st
  | LockOp n mode => query n (fun f => Lock ndebug f mode) OError st
  | UnlockOp n => query n (Unlock ndebug) OError st
  | ReadFileOp path => match ReadFile ndebug grants path st.1 with Ok (s, r) => Ok ((s, st.2), OContents r) | Fatal => Fatal | Undef => Undef end
  | WriteFileOp path data size => match WriteFile ndebug path data size st.1 with Ok (s, b) => Ok ((s, st.2), OBool b) | Fatal => Fatal | Undef => Undef end
  end.

End Step.

(** ** What they mean *)

(** A [File] with the description it has open. *)
Record AFile := mkAFile { a_desc : option positive; a_path : list Z; a_error : Error; a_created : bool; a_async : bool }.

Abbreviation AState := (Files * gmap nat AFile)%type.

Definition a_status (f : AFile) : Out := OFile (match a_desc f with Some _ => true | None => false end) (a_path f) (a_error f) (a_created f) (a_async f).

Definition shut (f : AFile) : AFile := mkAFile None (a_path f) (a_error f) (a_created f) (a_async f).

(** The description and the contents an object works on. *)
Definition at_file (a : AState) (n : nat) : option (positive * Desc * list Z) :=
  f ← a.2 !! n; d ← a_desc f; ds ← descs a.1 !! d; match nodes a.1 !! inode ds with Some (Regular c) => Some (d, ds, c) | _ => None end.

Definition vacant (a : AState) (n : nat) : option unit := match a.2 !! n with None => Some tt | Some _ => None end.

Definition spec (o : Op) (a : AState) : option (AState * Out) :=
  match o with
  | New n => _ ← vacant a n; Some ((a.1, <[n := mkAFile None [] FILE_ERROR_FAILED false false]> a.2), OFile false [] FILE_ERROR_FAILED false false)
  | Init n path flags => f ← a.2 !! n;
      if decide (a_desc f = None /\ valid_flags flags = true /\ IsStringUTF8AndReportIdx path = 0) then
        '(F, od, e, cr) ← spec_open a.1 (c_string path) flags;
        let f := mkAFile od path e cr (if od is Some _ then flag_set flags FLAG_ASYNC else a_async f) in Some ((F, <[n := f]> a.2), a_status f)
      else None
  | CloseOp n => f ← a.2 !! n; Some ((a.1, <[n := shut f]> a.2), a_status (shut f))
  | Delete n => _ ← a.2 !! n; Some ((a.1, delete n a.2), ODone)
  | MoveTo n m => _ ← vacant a n; f ← a.2 !! m; Some ((a.1, <[n := f]> (<[m := shut f]> a.2)), a_status f)
  | AssignTo n m => f ← a.2 !! n; g ← a.2 !! m;
      if decide (n = m) then Some ((a.1, <[n := shut f]> a.2), a_status (shut f)) else Some ((a.1, <[n := g]> (<[m := shut g]> a.2)), a_status g)
  | DuplicateTo n m => _ ← vacant a n; f ← a.2 !! m;
      match a_desc f with
      | None => let g := mkAFile None [] FILE_ERROR_FAILED false false in Some ((a.1, <[n := g]> a.2), a_status g)
      | Some d => _ ← at_file a m; let g := mkAFile (Some d) [] FILE_OK false (a_async f) in Some ((a.1, <[n := g]> a.2), a_status g)
      end
  | ReadOp n off data size => '(d, ds, c) ← at_file a n; r ← spec_read ds c off data size; Some (a, OBytes r.1 r.2)
  | ReadHere n data size => '(d, ds, c) ← at_file a n; r ← spec_read ds c (offset ds) data size; Some ((set_offset d ds (offset ds + Z.max 0 r.2) a.1, a.2), OBytes r.1 r.2)
  | WriteOp n off data size => '(d, ds, c) ← at_file a n; '(F, r) ← spec_write a.1 d ds c off data size; Some ((F, a.2), OInt r)
  | WriteHere n data size => '(d, ds, c) ← at_file a n; '(F, r) ← spec_write_here a.1 d ds c data size; Some ((F, a.2), OInt r)
  | ReadChecked n off data => '(d, ds, c) ← at_file a n;
      if decide (len data < 2 ^ 31) then r ← spec_read ds c off data (len data); Some (a, OChecked r.1 (r.2 =? len data)) else None
  | WriteChecked n off data => '(d, ds, c) ← at_file a n;
      if decide (len data < 2 ^ 31) then '(F, r) ← spec_write a.1 d ds c off data (len data); Some ((F, a.2), OBool (r =? len data)) else None
  | SeekOp n whence off => '(d, ds, c) ← at_file a n; let new := seek_base whence (offset ds) c + off in
      if (new <? 0) || (2 ^ 63 <=? new) then Some (a, OInt (-1)) else Some ((set_offset d ds new a.1, a.2), OInt new)
  | LengthOp n => '(d, ds, c) ← at_file a n; Some (a, OInt (len c))
  | SetLengthOp n length => '(d, ds, c) ← at_file a n;
      if negb (writable ds) || (length <? 0) then Some (a, OBool false) else Some ((set_node (inode ds) (resize c length) a.1, a.2), OBool true)
  | InfoOp n => '(d, ds, c) ← at_file a n; Some (a, OInfo (Some (mkInfo (len c) false false)))
  | FlushOp n => '(d, ds, c) ← at_file a n; Some (a, OBool true)
  | LockOp n mode => '(d, ds, c) ← at_file a n; Some (a, OError (if match mode with kShared => readable ds | kExclusive => writable ds end then FILE_OK else FILE_ERROR_FAILED))
  | UnlockOp n => '(d, ds, c) ← at_file a n; Some (a, OError FILE_OK)
  | ReadFileOp path => if decide (IsStringUTF8AndReportIdx path = 0) then '(F, r) ← spec_read_file a.1 (c_string path); Some ((F, a.2), OContents r) else None
  | WriteFileOp path data size => if decide (IsStringUTF8AndReportIdx path = 0) then '(F, b) ← spec_write_file a.1 (c_string path) data size; Some ((F, a.2), OBool b) else None
  end.

(** [ReadFile] makes room for the whole file. *)
Definition need (grants : Z -> bool) (o : Op) (a : AState) : Prop :=
  match o with ReadFileOp path => forall F r n, spec_read_file a.1 (c_string path) = Some (F, r) -> r.2 = Some n -> grants n = true | _ => True end.

(** ** Who owns which descriptor *)

(** [own n] is the descriptor of object [n], or [-1]; [outside] are those of others. *)
Record book (outside fdm : gmap Z positive) (own : nat -> Z) : Prop := {
  book_one n m : own n = own m -> own n <> -1 -> n = m;
  book_open fd : is_Some (fdm !! fd) <-> is_Some (outside !! fd) \/ (fd <> -1 /\ exists n, own n = fd);
  book_outside n : own n <> -1 -> outside !! own n = None;
  book_kept fd d : outside !! fd = Some d -> fdm !! fd = Some d;
}.

Definition fd_at (objs : gmap nat File) (n : nat) : Z := match objs !! n with Some f => file_ f | None => -1 end.

Definition set_own (own : nat -> Z) (n : nat) (fd : Z) (k : nat) : Z := if decide (k = n) then fd else own k.

Lemma fd_at_insert objs n f k : fd_at (<[n := f]> objs) k = set_own (fd_at objs) n (file_ f) k.
Proof. unfold fd_at, set_own. destruct (decide (k = n)) as [->|]; [by rewrite lookup_insert_eq|by rewrite lookup_insert_ne]. Qed.

Lemma fd_at_delete objs n k : fd_at (delete n objs) k = set_own (fd_at objs) n (-1) k.
Proof. unfold fd_at, set_own. destruct (decide (k = n)) as [->|]; [by rewrite lookup_delete_eq|by rewrite lookup_delete_ne]. Qed.

Section Book.

Context (outside : gmap Z positive).

Lemma book_ext fdm own own' : (forall k, own' k = own k) -> book outside fdm own -> book outside fdm own'.
Proof.
  intros E [H1 H2 H3 H4]. split.
  - intros n m. rewrite !E. apply H1.
  - intros fd. rewrite H2. by setoid_rewrite E.
  - intros n. rewrite E. apply H3.
  - exact H4.
Qed.

Lemma book_close fdm own n : book outside fdm own -> own n <> -1 -> book outside (delete (own n) fdm) (set_own own n (-1)).
Proof.
  intros [H1 H2 H3 H4] Hn. unfold set_own. split.
  - intros k m. destruct (decide (k = n)), (decide (m = n)); try done; try (intros <-; done). apply H1.
  - intros fd. destruct (decide (fd = own n)) as [->|Hfd].
    + rewrite lookup_delete_eq, (H3 n Hn). split; [by intros []|]. intros [[]|(_ & k & Ek)]; [done|]. destruct (decide (k = n)); [congruence|]. by apply H1 in Ek; [|congruence].
    + rewrite lookup_delete_ne, H2 by done. apply or_iff_compat_l. split; intros (Hf & k & Ek); (split; [done|]); exists k; [by rewrite decide_False by congruence|]. by destruct (decide (k = n)); [congruence|].
  - intros k. destruct (decide (k = n)); [done|]. apply H3.
  - intros fd d Hd. rewrite lookup_delete_ne; [by apply H4|]. intros <-. rewrite H3 in Hd by done. done.
Qed.

Lemma book_new fdm own n fd d : book outside fdm own -> own n = -1 -> 0 <= fd -> fdm !! fd = None -> book outside (<[fd := d]> fdm) (set_own own n fd).
Proof.
  intros [H1 H2 H3 H4] Hn Hfd Hnew. assert (Hno : forall k, own k <> fd).
  { intros k Ek. assert (is_Some (fdm !! fd)) as [? ?] by (apply H2; right; split; [lia|by exists k]). congruence. }
  assert (Hout : outside !! fd = None) by (destruct (outside !! fd) as [x|] eqn:E; [apply H4 in E; congruence|done]).
  unfold set_own. split.
  - intros k m. destruct (decide (k = n)), (decide (m = n)); first [by apply H1|by intros E; destruct (Hno m)|by intros E; destruct (Hno k)|congruence].
  - intros fd'. destruct (decide (fd' = fd)) as [->|Hne].
    + rewrite lookup_insert_eq. split; [|by eexists]. intros _. right. split; [lia|]. exists n. by rewrite decide_True.
    + rewrite lookup_insert_ne, H2 by done. apply or_iff_compat_l. split; intros (Hf & k & Ek); (split; [done|]); exists k; [by rewrite decide_False by congruence|]. by destruct (decide (k = n)); [congruence|].
  - intros k. destruct (decide (k = n)); [done|]. apply H3.
  - intros fd' d' Hd. rewrite lookup_insert_ne; [by apply H4|]. intros <-. congruence.
Qed.

(** The descriptor of one object becomes that of another. *)
Lemma book_move fdm own n m : book outside fdm own -> own n = -1 -> n <> m -> book outside fdm (set_own (set_own own m (-1)) n (own m)).
Proof.
  intros [H1 H2 H3 H4] Hn Hnm. unfold set_own. split.
  - assert (Hm : forall k, own m = own k -> own m <> -1 -> k = m) by (intros k E Hne; symmetry; by apply H1).
    intros k l. destruct (decide (k = n)), (decide (l = n)), (decide (k = m)), (decide (l = m)); intros E Hne; try congruence; first [by apply Hm in E; congruence|by symmetry in E; apply Hm in E; congruence|by apply H1].
  - intros fd. rewrite H2. apply or_iff_compat_l. split; intros (Hf & k & Ek); (split; [done|]).
    + destruct (decide (k = m)) as [->|]; [exists n; by rewrite decide_True|]. exists k. rewrite !decide_False by congruence. done.
    + destruct (decide (k = n)); [by exists m|]. destruct (decide (k = m)); [congruence|]. by exists k.
  - intros k. destruct (decide (k = n)); [apply H3|]. destruct (decide (k = m)); [done|]. apply H3.
  - exact H4.
Qed.

End Book.

(** ** Implementation and contract *)

Definition described (fdm : gmap Z positive) (f : File) (af : AFile) : Prop :=
  path_ f = a_path af /\ error_details_ f = a_error af /\ created_ f = a_created af /\ async_ f = a_async af /\
  match a_desc af with Some d => file_ f <> -1 /\ fdm !! file_ f = Some d | None => file_ f = -1 end.

Definition offsets_ok (F : Files) : Prop := forall d ds, descs F !! d = Some ds -> 0 <= offset ds.

Lemma offsets_set F d ds o : offsets_ok F -> 0 <= o -> offsets_ok (set_offset d ds o F).
Proof. intros HF Ho d' ds' H. cbn in H. apply lookup_insert_Some in H as [[<- <-]|[_ H]]; [done|by eapply HF]. Qed.

Lemma offsets_add F i fl : offsets_ok F -> offsets_ok (add_desc F (desc_of fl i)).
Proof. intros HF d' ds' H. cbn in H. apply lookup_insert_Some in H as [[<- <-]|[_ H]]; [done|by eapply HF]. Qed.

Lemma offsets_open F path flags F' od e cr : offsets_ok F -> spec_open F path flags = Some (F', od, e, cr) -> offsets_ok F'.
Proof.
  intros HF. pose proof (offsets_add F) as Ha. unfold spec_open. repeat case_match; intros; simplify_eq; try done; apply (Ha _ flags HF).
Qed.

Lemma offsets_read_file F path F' r : offsets_ok F -> spec_read_file F path = Some (F', r) -> offsets_ok F'.
Proof. intros HF. unfold spec_read_file. repeat case_match; intros; simplify_eq; try done; apply (offsets_add F _ FLAG_READ HF). Qed.

Lemma offsets_write_file F path data size F' b : offsets_ok F -> spec_write_file F path data size = Some (F', b) -> offsets_ok F'.
Proof.
  intros HF. unfold spec_write_file. destruct (decide _); [|done]. destruct (spec_open F path _) as [[[[F1 [d|]] e] cr]|] eqn:Eo; [|done..]. apply offsets_open in Eo; [|done].
  destruct (descs F1 !! d); [|done]. by intros [= <- _].
Qed.

Lemma offsets_write_here F d ds c data size F' n : offsets_ok F -> descs F !! d = Some ds -> spec_write_here F d ds c data size = Some (F', n) -> offsets_ok F'.
Proof.
  intros HF Hd. unfold spec_write_here. destruct (Z.ltb_spec size 0); [by intros [= <- _]|]. destruct (decide _); [|done]. destruct (negb (writable ds)); [by intros [= <- _]|]. intros [= <- _].
  destruct (size =? 0); [done|]. apply offsets_set; [done|]. specialize (HF _ _ Hd). pose proof (len_nonneg c). destruct (appends ds); lia.
Qed.

Lemma offsets_write F d ds c off data size F' n : offsets_ok F -> descs F !! d = Some ds -> spec_write F d ds c off data size = Some (F', n) -> offsets_ok F'.
Proof.
  intros HF Hd. unfold spec_write. destruct (2 ^ 31 - 1 <? size); [by intros [= <- _]|]. destruct (size <? 0); [done|]. destruct (appends ds); [by apply offsets_write_here|].
  destruct (decide _); [|done]. destruct (negb (writable ds) || (off <? 0)); intros [= <- _]; [done|]. by destruct (size =? 0).
Qed.

Section Refinement.

Context {OS : Type} `{Kernel OS} (ndebug : bool) (Hretries : retries_suffice (OS := OS) ndebug) (grants : Z -> bool).
Context (outside : gmap Z positive).

Abbreviation State := (OS * gmap nat File)%type.

Record related (st : State) (a : AState) : Prop := {
  rel_calm : calm st.1;
  rel_files : files (view st.1) = a.1;
  rel_offsets : offsets_ok a.1;
  rel_book : book outside (fds (view st.1)) (fd_at st.2);
  rel_objs n : match st.2 !! n, a.2 !! n with Some f, Some af => described (fds (view st.1)) f af | None, None => True | _, _ => False end;
}.

Lemma related_object st a n af : related st a -> a.2 !! n = Some af -> exists f, st.2 !! n = Some f /\ described (fds (view st.1)) f af.
Proof. intros Hr E. pose proof (rel_objs _ _ Hr n) as Ho. rewrite E in Ho. destruct (st.2 !! n) as [f|]; [|done]. by exists f. Qed.

Lemma related_vacant st a n : related st a -> a.2 !! n = None -> st.2 !! n = None.
Proof. intros Hr E. pose proof (rel_objs _ _ Hr n) as Ho. rewrite E in Ho. by destruct (st.2 !! n). Qed.

Lemma described_status fdm f af : described fdm f af -> status f = a_status af.
Proof.
  intros (E1 & E2 & E3 & E4 & Ed). unfold status, a_status, IsValid. rewrite E1, E2, E3, E4. destruct (a_desc af) as [d|].
  - destruct Ed as [Hne _]. by rewrite (proj2 (Z.eqb_neq _ _)).
  - by rewrite Ed.
Qed.

(** The file an object works on. *)
Lemma related_at st a n d ds c : related st a -> at_file a n = Some (d, ds, c) ->
  exists f, st.2 !! n = Some f /\ IsValid f = true /\ on_file (view st.1) (file_ f) d ds c /\ 0 <= offset ds /\ files (view st.1) = a.1.
Proof.
  intros Hr Ha. unfold at_file in Ha. destruct (a.2 !! n) as [af|] eqn:En; cbn in Ha; [|done]. destruct (a_desc af) as [d'|] eqn:Ed; cbn in Ha; [|done].
  destruct (descs a.1 !! d') as [ds'|] eqn:Es; cbn in Ha; [|done]. destruct (nodes a.1 !! inode ds') as [[c'|]|] eqn:Ec; [|done..]. injection Ha as -> -> ->.
  destruct (related_object _ _ _ _ Hr En) as (f & Ef & _ & _ & _ & _ & Hd). rewrite Ed in Hd. destruct Hd as [Hne Hl]. exists f. split; [done|].
  split; [unfold IsValid; by rewrite (proj2 (Z.eqb_neq _ _))|]. pose proof (rel_files _ _ Hr) as EF. split; [split; [done|]; by rewrite EF|]. split; [by eapply (rel_offsets _ _ Hr)|done].
Qed.

(** The descriptors stay, the files move on. *)
Lemma related_files s objs a s' F : related (s, objs) a -> calm s' -> view s' = mkSystem F (fds (view s)) -> offsets_ok F -> related (s', objs) (F, a.2).
Proof. intros [H1 H2 H3 H4 H5] Hc Ev Ho. split; cbn [fst snd] in *; rewrite ?Ev; done. Qed.

(** One object changes hands with the system. *)
Lemma related_change s objs a s' F n f af : related (s, objs) a -> calm s' -> files (view s') = F -> offsets_ok F ->
  book outside (fds (view s')) (set_own (fd_at objs) n (file_ f)) -> described (fds (view s')) f af ->
  (forall k, k <> n -> fd_at objs k <> -1 -> fds (view s') !! fd_at objs k = fds (view s) !! fd_at objs k) ->
  related (s', <[n := f]> objs) (F, <[n := af]> a.2).
Proof.
  intros Hr Hc EF Ho Hb Hd Hk. split; cbn [fst snd]; [done..| |].
  - eapply book_ext; [|exact Hb]. intros k. apply fd_at_insert.
  - intros k. destruct (decide (k = n)) as [->|Hne]; [by rewrite !lookup_insert_eq|]. rewrite !lookup_insert_ne by done.
    pose proof (rel_objs _ _ Hr k) as Hobj. cbn [fst snd] in Hobj. specialize (Hk k Hne). unfold fd_at in Hk. destruct (objs !! k) as [g|], (a.2 !! k) as [ag|]; [|done..].
    destruct Hobj as (E1 & E2 & E3 & E4 & E5). do 4 (split; [done|]). destruct (a_desc ag) as [d|]; [|done]. destruct E5 as [Hne1 E5]. split; [done|]. by rewrite (Hk Hne1).
Qed.

Lemma fd_at_some (objs : gmap nat File) n f : objs !! n = Some f -> fd_at objs n = file_ f.
Proof. unfold fd_at. by intros ->. Qed.

Lemma fd_at_none (objs : gmap nat File) n : objs !! n = None -> fd_at objs n = -1.
Proof. unfold fd_at. by intros ->. Qed.

(** *** Members that leave their object alone *)

Lemma step_query {A} (R : Prop) n (m : File -> M OS A) out s objs a f F r : related (s, objs) a -> objs !! n = Some f ->
  wpM R (m f) s (fun s' x => calm s' /\ view s' = mkSystem F (fds (view s)) /\ out x = r) -> offsets_ok F ->
  wp R (query n m out (s, objs)) (fun p => related p.1 (F, a.2) /\ p.2 = r).
Proof.
  intros Hr Ef Hm Ho. unfold query. cbn [fst snd]. rewrite Ef. unfold wpM in Hm. destruct (m f s) as [[s' x]| |]; cbn in Hm |- *; [|done..].
  destruct Hm as (Hc & Ev & <-). split; [|done]. by eapply related_files.
Qed.

(** *** Closing *)

(** [Close] gives the descriptor back, if there is one. *)
Lemma close_ok (R : Prop) s objs a n f af : related (s, objs) a -> objs !! n = Some f -> a.2 !! n = Some af ->
  wpM R (Close f) s (fun s' f' => related (s', <[n := f']> objs) (a.1, <[n := shut af]> a.2) /\ f' = with_fd f (-1)).
Proof.
  intros Hr Ef Ea. pose proof (rel_objs _ _ Hr n) as Hd. cbn [fst snd] in Hd. rewrite Ef, Ea in Hd. destruct Hd as (E1 & E2 & E3 & E4 & E5). pose proof (fd_at_some objs n f Ef) as Efd.
  destruct (a_desc af) as [d|] eqn:Ed.
  - destruct E5 as [Hne Hl]. eapply wpM_mono; [apply Close_ok; [apply Hr|by eexists|done]|]. intros s' f' (Hc & Ev & ->). split; [|done]. eapply related_change; [exact Hr|done|rewrite Ev; apply Hr|apply Hr|..].
    + rewrite Ev. cbn [fds file_ with_fd]. rewrite <- Efd. apply book_close; [apply Hr|by rewrite Efd].
    + done.
    + intros k Hk Hown. rewrite Ev. cbn [fds]. rewrite lookup_delete_ne; [done|]. intros E. apply Hk. apply (book_one _ _ _ (rel_book _ _ Hr)); cbn; congruence.
  - eapply wpM_mono; [by apply Close_empty|]. intros s' f' [-> ->]. assert (Ew : with_fd f (-1) = f) by (rewrite <- E5; by destruct f). split; [|by rewrite Ew].
    eapply related_change; [exact Hr|apply Hr|apply Hr|apply Hr| | |done].
    + eapply book_ext; [|apply Hr]. intros k. unfold set_own. cbn. destruct (decide (k = n)) as [->|]; [by rewrite Efd|done].
    + done.
Qed.

(** *** Opening, duplicating, moving *)

(** An object without a descriptor gets a new one. *)
Lemma related_opened s objs a s' F n f af fd d : related (s, objs) a -> fd_at objs n = -1 -> calm s' -> files (view s') = F -> offsets_ok F ->
  unused (view s) fd -> fds (view s') = <[fd := d]> (fds (view s)) -> file_ f = fd -> a_desc af = Some d ->
  path_ f = a_path af -> error_details_ f = a_error af -> created_ f = a_created af -> async_ f = a_async af ->
  related (s', <[n := f]> objs) (F, <[n := af]> a.2).
Proof.
  intros Hr Hn Hc EF Ho [Hu1 Hu2] Efd Ef Ed E1 E2 E3 E4. eapply related_change; [exact Hr|done|done|done|..].
  - rewrite Efd, Ef. apply book_new; [apply Hr|done..].
  - unfold described. do 4 (split; [done|]). rewrite Ed, Ef, Efd, lookup_insert_eq. split; [lia|done].
  - intros k Hk Hown. rewrite Efd, lookup_insert_ne; [done|]. intros E. assert (Hs : is_Some (fds (view s) !! fd)) by (apply (book_open _ _ _ (rel_book _ _ Hr)); right; split; [lia|by exists k]). rewrite Hu2 in Hs. by destruct Hs.
Qed.

(** An object without a descriptor is made or changed. *)
Lemma related_closed s objs a s' F n f af : related (s, objs) a -> fd_at objs n = -1 -> calm s' -> files (view s') = F -> offsets_ok F ->
  fds (view s') = fds (view s) -> file_ f = -1 -> a_desc af = None ->
  path_ f = a_path af -> error_details_ f = a_error af -> created_ f = a_created af -> async_ f = a_async af ->
  related (s', <[n := f]> objs) (F, <[n := af]> a.2).
Proof.
  intros Hr Hn Hc EF Ho Efd Ef Ed E1 E2 E3 E4. eapply related_change; [exact Hr|done|done|done|..].
  - rewrite Efd. eapply book_ext; [|apply Hr]. intros k. unfold set_own. cbn. destruct (decide (k = n)) as [->|]; [congruence|done].
  - unfold described. do 4 (split; [done|]). by rewrite Ed.
  - intros k Hk Hown. by rewrite Efd.
Qed.

Lemma step_init R n path flags st a a' r : related st a -> spec (Init n path flags) a = Some (a', r) ->
  wp R (step ndebug grants (Init n path flags) st) (fun p => related p.1 a' /\ p.2 = r).
Proof using Hretries.
  destruct st as [s objs]. intros Hr. cbn [spec step]. destruct (a.2 !! n) as [af|] eqn:En; cbn [mbind option_bind]; [|done].
  destruct (decide _) as [(Ed & Hv & Hu)|]; [|done]. destruct (spec_open a.1 (c_string path) flags) as [[[[F od] e] cr]|] eqn:Eo; cbn [mbind option_bind]; [|done]. intros [= <- <-].
  destruct (related_object _ _ _ _ Hr En) as (f & Ef & Hd). destruct Hd as (E1 & E2 & E3 & E4 & E5). rewrite Ed in E5. cbn [fst snd] in *.
  assert (Hown : fd_at objs n = -1) by (by rewrite (fd_at_some objs n f Ef)). assert (HoF : offsets_ok F) by (eapply offsets_open; [apply Hr|exact Eo]).
  unfold change. cbn [fst snd]. rewrite Ef.
  assert (Hm : wpM R (Initialize ndebug f path flags) s (fun s' f' => calm s' /\ files (view s') = F /\ opened_as f path flags e cr od (view s) (view s') f')).
  { apply Initialize_ok; [done|apply Hr|done|done|done|]. pose proof (rel_files _ _ Hr) as EF. cbn [fst] in EF. by rewrite EF. }
  unfold wpM in Hm. destruct (Initialize ndebug f path flags s) as [[s' f']| |]; cbn [wp fst snd] in Hm |- *; [|done..]. destruct Hm as (Hc & EF & Hop). destruct od as [d|]; cbn in Hop.
  - destruct Hop as (fd & Hun & Efds & ->). split; [eapply related_opened; [exact Hr|exact Hown|done|done|done|exact Hun|exact Efds|done..]|].
    unfold status, a_status, IsValid. cbn. by rewrite (proj2 (Z.eqb_neq _ _)) by (destruct Hun; lia).
  - destruct Hop as [Efds ->]. split; [by eapply related_closed; [exact Hr|exact Hown|..]|]. unfold status, a_status, IsValid. cbn. by rewrite E4.
Qed.

Lemma step_duplicate R n m st a a' r : related st a -> spec (DuplicateTo n m) a = Some (a', r) ->
  wp R (step ndebug grants (DuplicateTo n m) st) (fun p => related p.1 a' /\ p.2 = r).
Proof using Hretries.
  destruct st as [s objs]. intros Hr. cbn [spec step]. unfold vacant, free_place. destruct (a.2 !! n) as [|] eqn:En; cbn [mbind option_bind]; [done|].
  destruct (a.2 !! m) as [af|] eqn:Em; cbn [mbind option_bind]; [|done]. pose proof (related_vacant _ _ _ Hr En) as Efn. cbn [fst snd] in *. rewrite Efn. cbn [mbind res_bind].
  destruct (related_object _ _ _ _ Hr Em) as (f & Ef & Hd). cbn [fst snd] in *. rewrite Ef. destruct (a_desc af) as [d|] eqn:Ed.
  - destruct (at_file a m) as [[[d' ds] c]|] eqn:Ea; cbn [mbind option_bind]; [|done]. intros [= <- <-]. destruct (related_at _ _ _ _ _ _ Hr Ea) as (f' & Ef' & Hv & Hon & _ & EF). cbn [fst snd] in *. rewrite Ef in Ef'. injection Ef' as <-.
    assert (d' = d) as -> by (unfold at_file in Ea; rewrite Em in Ea; cbn in Ea; rewrite Ed in Ea; cbn in Ea; destruct (descs a.1 !! d); cbn in Ea; [|done]; repeat case_match; congruence).
    pose proof (Duplicate_ok ndebug Hretries R f s d ds c (rel_calm _ _ Hr) Hv Hon) as Hm. unfold wpM in Hm. destruct (Duplicate ndebug f s) as [[s' g]| |]; cbn [wp fst snd] in Hm |- *; [|done..].
    destruct Hm as (fd & Hc & Hun & Ev & ->). split.
    + eapply related_opened; [exact Hr|by apply fd_at_none|done|by rewrite Ev|apply Hr|exact Hun|by rewrite Ev|done..|]. by destruct Hd as (_ & _ & _ & ? & _).
    + unfold status, a_status, IsValid. cbn. rewrite (proj2 (Z.eqb_neq _ _)) by (destruct Hun; lia). f_equal. by destruct Hd as (_ & _ & _ & ? & _).
  - intros [= <- <-]. destruct Hd as (_ & _ & _ & _ & E5). rewrite Ed in E5. unfold Duplicate, IsValid. rewrite E5. cbn. split; [|done]. eapply related_closed; [exact Hr|by apply fd_at_none|apply Hr|apply Hr|apply Hr|done..].
Qed.

(** What moves from [m] to [n] when [n] has no descriptor. *)
Lemma related_moved s objs a n m f af g : related (s, objs) a -> fd_at objs n = -1 -> n <> m -> objs !! m = Some f -> a.2 !! m = Some af ->
  g = with_fd f (-1) -> related (s, <[n := f]> (<[m := g]> objs)) (a.1, <[n := af]> (<[m := shut af]> a.2)).
Proof.
  intros Hr Hn Hnm Ef Ea ->. destruct (related_object _ _ _ _ Hr Ea) as (f' & Ef' & Hd). cbn [fst snd] in *. rewrite Ef in Ef'. injection Ef' as <-.
  split; cbn [fst snd]; [apply Hr..| |].
  - eapply book_ext; [|eapply (book_move outside _ (fd_at objs) n m); [apply Hr|done|done]]. intros k. rewrite fd_at_insert. unfold set_own at 1 2. rewrite fd_at_insert, (fd_at_some objs m f Ef). done.
  - intros k. destruct (decide (k = n)) as [->|Hkn]; [by rewrite !lookup_insert_eq|]. rewrite !(lookup_insert_ne _ n k) by done.
    destruct (decide (k = m)) as [->|Hkm]; [|by rewrite !lookup_insert_ne by done; apply (rel_objs _ _ Hr)]. rewrite !lookup_insert_eq. destruct Hd as (E1 & E2 & E3 & E4 & _). done.
Qed.

Lemma step_move R n m st a a' r : related st a -> spec (MoveTo n m) a = Some (a', r) ->
  wp R (step ndebug grants (MoveTo n m) st) (fun p => related p.1 a' /\ p.2 = r).
Proof.
  destruct st as [s objs]. intros Hr. cbn [spec step]. unfold vacant, free_place. destruct (a.2 !! n) as [|] eqn:En; cbn [mbind option_bind]; [done|].
  destruct (a.2 !! m) as [af|] eqn:Em; cbn [mbind option_bind]; [|done]. intros [= <- <-]. pose proof (related_vacant _ _ _ Hr En) as Efn. cbn [fst snd] in *. rewrite Efn. cbn [mbind res_bind].
  destruct (related_object _ _ _ _ Hr Em) as (f & Ef & Hd). cbn [fst snd] in *. rewrite Ef. unfold move_file, TakePlatformFile. cbn. assert (Hnm : n <> m) by congruence. split.
  - replace (mkFile _ _ _ _ _) with f by (by destruct f). by eapply related_moved; [exact Hr|apply fd_at_none|..].
  - rewrite <- (described_status _ _ _ Hd). by destruct f.
Qed.

Lemma step_assign R n m st a a' r : related st a -> spec (AssignTo n m) a = Some (a', r) ->
  wp R (step ndebug grants (AssignTo n m) st) (fun p => related p.1 a' /\ p.2 = r).
Proof.
  destruct st as [s objs]. intros Hr. cbn [spec step fst snd]. destruct (a.2 !! n) as [af|] eqn:En; cbn [mbind option_bind]; [|done]. destruct (a.2 !! m) as [ag|] eqn:Em; cbn [mbind option_bind]; [|done]. intros Hspec.
  destruct (related_object _ _ _ _ Hr En) as (f & Ef & Hd). destruct (related_object _ _ _ _ Hr Em) as (g & Eg & Hdg). cbn [fst snd] in *.
  enough (Hm : wpM R (assign_file objs n m) s (fun s' objs' => exists f', objs' !! n = Some f' /\ related (s', objs') a' /\ status f' = r)).
  { unfold wpM in Hm. destruct (assign_file objs n m s) as [[s' objs']| |]; cbn [wp fst snd] in Hm |- *; [|done..]. destruct Hm as (f' & -> & Hr' & <-). done. }
  unfold assign_file. apply wpM_bind. rewrite Ef. apply wpM_ok. apply wpM_bind. eapply wpM_mono; [by eapply close_ok|]. intros s1 f1 [Hr1 ->]. cbn [fst] in *.
  assert (Hown : fd_at (<[n := with_fd f (-1)]> objs) n = -1) by (rewrite fd_at_insert; unfold set_own; by rewrite decide_True).
  destruct (decide (n = m)) as [->|Hnm].
  - injection Hspec as <- <-. apply wpM_bind. rewrite lookup_insert_eq. apply wpM_ok. cbn [TakePlatformFile file_ with_fd path_ error_details_ created_ async_].
    apply wpM_bind. rewrite !lookup_insert_eq. apply wpM_ok. apply wpM_bind. unfold SetPlatformFile. apply wpM_bind, wpM_check; [done|]. eapply wpM_mono; [by apply reset_empty|]. intros s2 f2 [-> ->].
    apply wpM_bind. rewrite lookup_insert_eq. apply wpM_ok, wpM_ret. rewrite !insert_insert_eq. eexists. split; [apply lookup_insert_eq|]. split; [exact Hr1|].
    destruct Hd as (E1 & E2 & E3 & E4 & _). unfold status, a_status, IsValid. cbn. congruence.
  - injection Hspec as <- <-. apply wpM_bind. rewrite lookup_insert_ne, Eg by done. apply wpM_ok. cbn [TakePlatformFile].
    apply wpM_bind. rewrite lookup_insert_ne, lookup_insert_eq by done. apply wpM_ok. apply wpM_bind. unfold SetPlatformFile. apply wpM_bind, wpM_check; [done|]. eapply wpM_mono; [by apply reset_empty|]. intros s2 f2 [-> ->].
    apply wpM_bind. rewrite lookup_insert_ne, lookup_insert_eq by done. apply wpM_ok, wpM_ret. eexists. split; [apply lookup_insert_eq|]. cbn [with_fd file_ path_ error_details_ created_ async_]. split.
    + assert (Hr2 := related_moved _ _ _ n m g ag _ Hr1 Hown Hnm ltac:(by rewrite lookup_insert_ne) ltac:(cbn; by rewrite lookup_insert_ne) eq_refl). cbn [fst snd] in Hr2.
      rewrite !(insert_insert_ne _ n m) in Hr2 by done. rewrite !insert_insert_eq in Hr2. rewrite !(insert_insert_ne _ n m), !insert_insert_eq by done. replace (mkFile _ _ _ _ _) with g by (by destruct g). exact Hr2.
    + rewrite <- (described_status _ _ _ Hdg). by destruct g.
Qed.

(** *** The members that work on an open file *)

(** A member of an open object that leaves files [F] behind. *)
Lemma step_open_query {A} R n (m : File -> M OS A) out s objs Fa aobjs d ds c F r : related (s, objs) (Fa, aobjs) -> at_file (Fa, aobjs) n = Some (d, ds, c) ->
  (forall f, calm s -> IsValid f = true -> on_file (view s) (file_ f) d ds c -> 0 <= offset ds -> files (view s) = Fa ->
     wpM R (m f) s (fun s' x => calm s' /\ view s' = mkSystem F (fds (view s)) /\ out x = r)) -> offsets_ok F ->
  wp R (query n m out (s, objs)) (fun p => related p.1 (F, aobjs) /\ p.2 = r).
Proof.
  intros Hr Ha Hm Ho. destruct (related_at _ _ _ _ _ _ Hr Ha) as (f & Ef & Hv & Hon & Hoff & EF). cbn [fst snd] in *.
  apply (step_query R n m out s objs (Fa, aobjs) f F r Hr Ef); [|done]. apply Hm; [apply (rel_calm _ _ Hr)|done..].
Qed.

Lemma same_view (S : System) F : files S = F -> S = mkSystem F (fds S).
Proof. intros <-. by destruct S. Qed.

Lemma ReadAndCheck_ok R f off data s d ds c r : calm s -> IsValid f = true -> on_file (view s) (file_ f) d ds c -> len data < 2 ^ 31 -> spec_read ds c off data (len data) = Some r ->
  wpM R (ReadAndCheck ndebug f off data) s (fun s' x => calm s' /\ view s' = view s /\ x = (r.1, r.2 =? len data)).
Proof using Hretries.
  intros Hs Hv Hf Hl Hspec. pose proof (len_nonneg data). unfold ReadAndCheck. rewrite swrap_small by lia. apply wpM_bind. destruct r as [data' n].
  eapply wpM_mono; [by eapply Read_ok|]. intros s' x (Hc & Ev & ->). by apply wpM_ret.
Qed.

Lemma WriteAndCheck_ok R f off data s d ds c F n : calm s -> IsValid f = true -> on_file (view s) (file_ f) d ds c -> 0 <= offset ds -> len data < 2 ^ 31 ->
  spec_write (files (view s)) d ds c off data (len data) = Some (F, n) ->
  wpM R (WriteAndCheck ndebug f off data) s (fun s' x => calm s' /\ view s' = mkSystem F (fds (view s)) /\ x = (n =? len data)).
Proof using Hretries.
  intros Hs Hv Hf Ho Hl Hspec. pose proof (len_nonneg data). unfold WriteAndCheck. rewrite swrap_small, wrap_small by (unfold fits; lia). apply wpM_bind.
  eapply wpM_mono; [by eapply Write_ok|]. intros s' x (Hc & Ev & ->). by apply wpM_ret.
Qed.

Definition reading (o : Op) : bool := match o with ReadOp _ _ _ _ | ReadHere _ _ _ | ReadChecked _ _ _ | SeekOp _ _ _ | LengthOp _ | InfoOp _ | FlushOp _ | LockOp _ _ | UnlockOp _ => true | _ => false end.
Definition writing (o : Op) : bool := match o with WriteOp _ _ _ _ | WriteHere _ _ _ | WriteChecked _ _ _ | SetLengthOp _ _ => true | _ => false end.

Ltac open_case := match goal with |- context [at_file ?a ?n] => let Ea := fresh "Ea" in destruct (at_file a n) as [[[? ?] ?]|] eqn:Ea; cbn [mbind option_bind]; [|done] end.

Lemma reading_ok R o s objs Fa aobjs a' r : reading o = true -> related (s, objs) (Fa, aobjs) -> spec o (Fa, aobjs) = Some (a', r) ->
  wp R (step ndebug grants o (s, objs)) (fun p => related p.1 a' /\ p.2 = r).
Proof using Hretries.
  intros Ho Hr. pose proof (rel_offsets _ _ Hr) as HoF. cbn [fst] in HoF. destruct o; try discriminate Ho; cbn [spec step fst snd]; open_case.
  - destruct (spec_read _ _ off data size) as [[data' n']|] eqn:Er; cbn [mbind option_bind]; [|done]. intros [= <- <-]. eapply step_open_query; [exact Hr|exact Ea| |done]. intros f Hc Hv Hon Hoff EF.
    eapply wpM_mono; [by eapply Read_ok|]. intros s' x (Hc' & Ev & ->). split; [done|]. by rewrite Ev, <- same_view.
  - destruct (spec_read _ _ _ data size) as [[data' n']|] eqn:Er; cbn [mbind option_bind]; [|done]. intros [= <- <-]. cbn [snd]. eapply step_open_query; [exact Hr|exact Ea| |].
    + intros f Hc Hv Hon Hoff EF. eapply wpM_mono; [by eapply ReadAtCurrentPos_ok|]. intros s' x (Hc' & Ev & ->). split; [done|]. rewrite Ev. unfold put, set_offset, set_node. cbn. destruct Hon as (_ & _ & E3). by rewrite EF, insert_id by (by rewrite <- EF).
    + destruct (related_at _ _ _ _ _ _ Hr Ea) as (_ & _ & _ & _ & Hoff & _). apply offsets_set; [done|lia].
  - destruct (decide _) as [Hl|]; [|done]. destruct (spec_read _ _ off data _) as [[data' n']|] eqn:Er; cbn [mbind option_bind]; [|done]. intros [= <- <-]. eapply step_open_query; [exact Hr|exact Ea| |done]. intros f Hc Hv Hon Hoff EF.
    eapply wpM_mono; [by eapply ReadAndCheck_ok|]. intros s' x (Hc' & Ev & ->). split; [done|]. by rewrite Ev, <- same_view.
  - destruct ((_ <? 0) || _) eqn:Eb; intros [= <- <-]; (eapply step_open_query; [exact Hr|exact Ea| |]); try (intros f Hc Hv Hon Hoff EF; eapply wpM_mono; [by eapply Seek_ok|]; intros s' x [Hc' Hx]; rewrite Eb in Hx; destruct Hx as [Ev ->]; split; [done|]; rewrite Ev).
    + by rewrite <- same_view.
    + done.
    + by rewrite EF.
    + apply orb_false_iff in Eb as [Eb _]. apply Z.ltb_ge in Eb. by apply offsets_set.
  - intros [= <- <-]. eapply step_open_query; [exact Hr|exact Ea| |done]. intros f Hc Hv Hon Hoff EF. eapply wpM_mono; [by eapply GetLength_ok|]. intros s' x (Hc' & Ev & ->). split; [done|]. by rewrite Ev, <- same_view.
  - intros [= <- <-]. eapply step_open_query; [exact Hr|exact Ea| |done]. intros f Hc Hv Hon Hoff EF. eapply wpM_mono; [by eapply GetInfo_ok|]. intros s' x (Hc' & Ev & ->). split; [done|]. by rewrite Ev, <- same_view.
  - intros [= <- <-]. eapply step_open_query; [exact Hr|exact Ea| |done]. intros f Hc Hv Hon Hoff EF. eapply wpM_mono; [by eapply Flush_ok|]. intros s' x (Hc' & Ev & ->). split; [done|]. by rewrite Ev, <- same_view.
  - intros [= <- <-]. eapply step_open_query; [exact Hr|exact Ea| |done]. intros f Hc Hv Hon Hoff EF. eapply wpM_mono; [by eapply CallFcntlFlock_ok|]. intros s' x (Hc' & Ev & ->). split; [done|]. rewrite Ev, <- same_view by done. split; [done|]. by destruct mode.
  - intros [= <- <-]. eapply step_open_query; [exact Hr|exact Ea| |done]. intros f Hc Hv Hon Hoff EF. eapply wpM_mono; [by eapply CallFcntlFlock_ok|]. intros s' x (Hc' & Ev & ->). split; [done|]. by rewrite Ev, <- same_view.
Qed.

Lemma writing_ok R o s objs Fa aobjs a' r : writing o = true -> related (s, objs) (Fa, aobjs) -> spec o (Fa, aobjs) = Some (a', r) ->
  wp R (step ndebug grants o (s, objs)) (fun p => related p.1 a' /\ p.2 = r).
Proof using Hretries.
  intros Ho Hr. pose proof (rel_offsets _ _ Hr) as HoF. cbn [fst] in HoF. destruct o; try discriminate Ho; cbn [spec step fst snd]; open_case; destruct (related_at _ _ _ _ _ _ Hr Ea) as (f0 & _ & _ & (_ & Hds & _) & Hoff0 & EF0); cbn [fst] in *; rewrite EF0 in Hds.
  - destruct (spec_write _ _ _ _ off data size) as [[F n']|] eqn:Er; cbn [mbind option_bind]; [|done]. intros [= <- <-]. eapply step_open_query; [exact Hr|exact Ea| |by eapply offsets_write]. intros f Hc Hv Hon Hoff EF.
    eapply wpM_mono; [eapply Write_ok; try done; by rewrite EF|]. intros s' x (Hc' & Ev & ->). done.
  - destruct (spec_write_here _ _ _ _ data size) as [[F n']|] eqn:Er; cbn [mbind option_bind]; [|done]. intros [= <- <-]. eapply step_open_query; [exact Hr|exact Ea| |by eapply offsets_write_here]. intros f Hc Hv Hon Hoff EF.
    eapply wpM_mono; [eapply WriteAtCurrentPos_ok; try done; by rewrite EF|]. intros s' x (Hc' & Ev & ->). done.
  - destruct (decide _) as [Hl|]; [|done]. destruct (spec_write _ _ _ _ off data _) as [[F n']|] eqn:Er; cbn [mbind option_bind]; [|done]. intros [= <- <-]. eapply step_open_query; [exact Hr|exact Ea| |by eapply offsets_write]. intros f Hc Hv Hon Hoff EF.
    eapply wpM_mono; [eapply WriteAndCheck_ok; try done; by rewrite EF|]. intros s' x (Hc' & Ev & ->). done.
  - destruct (negb _ || _) eqn:Eb; intros [= <- <-]; (eapply step_open_query; [exact Hr|exact Ea| |done]); intros f Hc Hv Hon Hoff EF; (eapply wpM_mono; [by eapply SetLength_ok|]); intros s' x [Hc' Hx]; rewrite Eb in Hx; destruct Hx as [Ev ->]; (split; [done|]); rewrite Ev.
    + by rewrite <- same_view.
    + by rewrite EF.
Qed.

(** *** All of them *)

Lemma refines : Refines (step ndebug grants) spec (need grants) related.
Proof using Hretries.
  intros R o [s objs] [Fa aobjs] a' r Hr Hspec Hneed. destruct (reading o) eqn:E1; [by eapply reading_ok|]. destruct (writing o) eqn:E2; [by eapply writing_ok|].
  destruct o; try discriminate E1; try discriminate E2; clear E1 E2.
  - cbn [spec step fst snd] in *. unfold vacant, free_place in *. cbn [snd] in *. destruct (aobjs !! n) eqn:En; cbn [mbind option_bind] in Hspec; [done|]. injection Hspec as <- <-.
    pose proof (related_vacant _ _ _ Hr En) as Efn. cbn [snd] in Efn. rewrite Efn. cbn. split; [|done]. apply (related_closed s objs (Fa, aobjs) s Fa n new_file (mkAFile None [] FILE_ERROR_FAILED false false) Hr); try done; [by apply fd_at_none|apply Hr..].
  - by eapply step_init.
  - cbn [spec step fst snd] in *. destruct (aobjs !! n) as [af|] eqn:En; cbn [mbind option_bind] in Hspec; [|done]. injection Hspec as <- <-. destruct (related_object _ _ _ _ Hr En) as (f & Ef & Hd). cbn [fst snd] in *.
    pose proof (close_ok R s objs _ n f af Hr Ef En) as Hm. unfold change. cbn [fst snd]. rewrite Ef. unfold wpM in Hm. destruct (Close f s) as [[s' f']| |]; cbn [wp fst snd] in Hm |- *; [|done..]. destruct Hm as [Hr' ->]. split; [done|].
    destruct Hd as (H1 & H2 & H3 & H4 & _). unfold status, a_status, IsValid. cbn. congruence.
  - cbn [spec step fst snd] in *. destruct (aobjs !! n) as [af|] eqn:En; cbn [mbind option_bind] in Hspec; [|done]. injection Hspec as <- <-. destruct (related_object _ _ _ _ Hr En) as (f & Ef & Hd). cbn [fst snd] in *.
    pose proof (close_ok R s objs _ n f af Hr Ef En) as Hm. rewrite Ef. unfold wpM in Hm. destruct (Close f s) as [[s' f']| |]; cbn [wp fst snd] in Hm |- *; [|done..]. destruct Hm as [[C1 C2 C3 C4 C5] ->]. split; [|done]. cbn [fst snd] in *. split; cbn [fst snd]; [done..| |].
    + eapply book_ext; [|exact C4]. intros k. rewrite fd_at_insert, fd_at_delete. done.
    + intros k. specialize (C5 k). destruct (decide (k = n)) as [->|]; [by rewrite !lookup_delete_eq|]. rewrite !lookup_delete_ne by done. by rewrite !lookup_insert_ne in C5 by done.
  - by eapply step_move.
  - by eapply step_assign.
  - by eapply step_duplicate.
  - cbn [spec step fst snd need] in *. destruct (decide _) as [Hu|]; [|done]. destruct (spec_read_file Fa (c_string path)) as [[F r']|] eqn:Er; cbn [mbind option_bind] in Hspec; [|done]. injection Hspec as <- <-.
    assert (EF : files (view s) = Fa) by apply (rel_files _ _ Hr). assert (Hm := ReadFile_ok ndebug Hretries R grants path s F r' (rel_calm _ _ Hr) Hu ltac:(by rewrite EF) (fun x n E => Hneed x _ _ _ eq_refl E)).
    unfold wpM in Hm. destruct (ReadFile ndebug grants path s) as [[s' x]| |]; cbn [wp fst snd] in Hm |- *; [|done..]. destruct Hm as (Hc & Ev & ->). split; [|done]. apply (related_files s objs (Fa, aobjs) s' F Hr Hc Ev). eapply offsets_read_file; [apply Hr|exact Er].
  - cbn [spec step fst snd] in *. destruct (decide _) as [Hu|]; [|done]. destruct (spec_write_file Fa (c_string path) data size) as [[F b]|] eqn:Er; cbn [mbind option_bind] in Hspec; [|done]. injection Hspec as <- <-.
    assert (EF : files (view s) = Fa) by apply (rel_files _ _ Hr). assert (Hm := WriteFile_ok ndebug Hretries R path data size s F b (rel_calm _ _ Hr) Hu ltac:(by rewrite EF)).
    unfold wpM in Hm. destruct (WriteFile ndebug path data size s) as [[s' x]| |]; cbn [wp fst snd] in Hm |- *; [|done..]. destruct Hm as (Hc & Ev & ->). split; [|done]. apply (related_files s objs (Fa, aobjs) s' F Hr Hc Ev). eapply offsets_write_file; [apply Hr|exact Er].
Qed.

End Refinement.

Lemma related_start {OS} `{Kernel OS} (s : OS) : calm s -> offsets_ok (files (view s)) -> related (fds (view s)) (s, ∅) (files (view s), ∅).
Proof.
  intros Hc Ho. split; cbn [fst snd]; [done..| |].
  - assert (En : forall n, fd_at ∅ n = -1) by (intros n; unfold fd_at; by rewrite lookup_empty). split.
    + intros n m _. by rewrite En.
    + intros fd. split; [by left|]. intros [|(Hf & n & E)]; [done|]. rewrite En in E. congruence.
    + intros n. by rewrite En.
    + done.
  - intros n. by rewrite !lookup_empty.
Qed.

(** When no object is left the process has the descriptors it started with. *)
Lemma related_end {OS} `{Kernel OS} outside (st : OS * gmap nat File) a : related outside st a -> a.2 = ∅ -> fds (view st.1) = outside.
Proof.
  intros Hr Ea. assert (En : forall n, fd_at st.2 n = -1).
  { intros n. unfold fd_at. pose proof (rel_objs _ _ _ Hr n) as Ho. rewrite Ea, lookup_empty in Ho. by destruct (st.2 !! n). }
  destruct (rel_book _ _ _ Hr) as [_ Hopen _ Hkept]. apply map_eq. intros fd. destruct (outside !! fd) as [d|] eqn:E; [by apply Hkept|].
  destruct (fds (view st.1) !! fd) as [d|] eqn:E'; [|done]. exfalso. assert (Hs : is_Some (fds (view st.1) !! fd)) by (by eexists). apply Hopen in Hs as [Hs|(Hf & n & En')]; [rewrite E in Hs; by destruct Hs|]. rewrite En in En'. congruence.
Qed.

(** C39. Programs over [File] objects refine programs over lists of bytes.  On every kernel that may
    interrupt any call, transfer any part of what is asked and pick any free descriptor, a program
    of openings with any valid flags, reads, writes and seeks by position and by offset, appends,
    truncations, duplicates, moves, assignments (to itself too), locks, closings and whole-file
    reads and writes that the specification accepts breaks no rule and gives its answers; the files
    are the specified ones; every descriptor it opened belongs to exactly one object, so when all
    objects are gone exactly the descriptors from before are open. *)
Theorem File_programs {OS} `{Kernel OS} (ndebug : bool) (grants : Z -> bool) (os : list Op) (s : OS) (a : Files * gmap nat AFile) (outs : list Out) :
  retries_suffice (OS := OS) ndebug -> calm s -> offsets_ok (files (view s)) -> spec_ops spec os (files (view s), ∅) = Some (a, outs) ->
  run_ops (step ndebug grants) os (s, ∅) <> Undef /\
  (forall st outs', run_ops (step ndebug grants) os (s, ∅) = Ok (st, outs') ->
     outs' = outs /\ files (view st.1) = a.1 /\ related (fds (view s)) st a /\ (a.2 = ∅ -> fds (view st.1) = fds (view s))) /\
  (needs spec (need grants) os (files (view s), ∅) -> exists st, run_ops (step ndebug grants) os (s, ∅) = Ok (st, outs)).
Proof.
  intros Hret Hc Ho Hspec. destruct (programs_refine (step ndebug grants) spec (need grants) (related (fds (view s))) (Refines0 := refines ndebug Hret grants (fds (view s))) os (s, ∅) _ a outs (related_start s Hc Ho) Hspec) as (H1 & H2 & H3).
  split; [done|]. split.
  - intros st outs' Hrun. destruct (H2 _ _ Hrun) as [Hr ->]. split; [done|]. split; [apply Hr|]. split; [done|]. by apply related_end.
  - intros Hn. destruct (H3 Hn) as (st & Hrun & _). by exists st.
Qed.

(** A program for a disk with one file of three bytes. *)
Definition sample_files : Files := mkFiles {[ [97] := 1%positive ]} {[ 1%positive := Regular [10; 11; 12] ]} ∅.
Definition sample_system : System := mkSystem sample_files {[ 0 := 9%positive; 1 := 9%positive; 2 := 9%positive ]}.
Definition sample_kernel : Scripted := mkScripted sample_system [Interrupt; Interrupt; Short 2; Interrupt; Short 1; Interrupt; Short 1; Short 3; Interrupt; Short 1; Short 1; Interrupt].

Definition sample_program : list Op :=
  [New 0; Init 0 [97] (Z.lor FLAG_OPEN (Z.lor FLAG_READ FLAG_WRITE)); ReadOp 0 1 [0; 0; 0; 0] 4; WriteOp 0 2 [20; 21; 22] 3; DuplicateTo 1 0; ReadHere 1 [0; 0] 2; SeekOp 0 FROM_CURRENT 1;
   WriteHere 1 [30] 1; New 2; Init 2 [98] (Z.lor FLAG_OPEN_ALWAYS FLAG_APPEND); WriteOp 2 0 [40; 41] 2; WriteOp 2 0 [42] 1; ReadFileOp [98]; AssignTo 0 2; LengthOp 0; AssignTo 0 0;
   WriteFileOp [98] [50] 1; ReadFileOp [98]; ReadFileOp [97]; Delete 0; Delete 1; Delete 2].

Definition sample_answers : list Out :=
  [OFile false [] FILE_ERROR_FAILED false false; OFile true [97] FILE_OK false false; OBytes [11; 12; 0; 0] 2; OInt 3; OFile true [] FILE_OK false false; OBytes [10; 11] 2; OInt 3;
   OInt 1; OFile false [] FILE_ERROR_FAILED false false; OFile true [98] FILE_OK true false; OInt 2; OInt 1; OContents (Some [40; 41; 42], Some 3); OFile true [98] FILE_OK true false; OInt 3;
   OFile false [98] FILE_OK true false; OBool true; OContents (Some [50], Some 1); OContents (Some [10; 11; 20; 30; 22], Some 5); ODone; ODone; ODone].

Lemma File_programs_witness :
  exists st, run_ops (step true (fun _ => true)) sample_program (sample_kernel, ∅) = Ok (st, sample_answers) /\ fds (view st.1) = fds sample_system /\ script st.1 = [].
Proof.
  assert (H : exists F, spec_ops spec sample_program (sample_files, ∅) = Some ((F, ∅), sample_answers)) by (eexists; vm_compute; reflexivity). destruct H as [F HF].
  destruct (File_programs true (fun _ => true) sample_program sample_kernel (F, ∅) sample_answers) as (_ & H2 & H3); [by left|repeat constructor|intros d ds Hd; vm_compute in Hd; done|exact HF|].
  assert (Hrun : exists st, run_ops (step true (fun _ => true)) sample_program (sample_kernel, ∅) = Ok (st, sample_answers) /\ script st.1 = []) by (eexists; vm_compute; split; reflexivity).
  destruct Hrun as (st & Hrun & Hscript). exists st. split; [exact Hrun|]. destruct (H2 _ _ Hrun) as (_ & _ & _ & H4). split; [by apply H4|exact Hscript].
Defined.

(** ** When calls fail *)

Lemma wpM_runs {OS A} (m : M OS A) s (P : OS -> A -> Prop) : wpM True m s P -> exists s' a, m s = Ok (s', a) /\ P s' a.
Proof. unfold wpM. destruct (m s) as [[s' a]| |]; cbn; [eauto|by intros []|done]. Qed.

Section Transfers.

Context {OS : Type} `{Kernel OS} (ndebug : bool) (Hretries : retries_suffice (OS := OS) ndebug).

(** [Write] by offset, or at the end of a file opened for appending. *)
Lemma Write_moves R f off data size s d ds c : IsValid f = true -> on_file (view s) (file_ f) d ds c -> writable ds = true -> 0 <= offset ds -> 0 <= off -> 0 <= size <= len data -> size < 2 ^ 31 -> off + size < 2 ^ 63 ->
  let at_ := if appends ds then len c else off in
  wpM R (Write ndebug f off data size) s (fun s' n => exists k, 0 <= k <= size /\ view s' = written (view s) d ds (if appends ds then at_ + k else offset ds) c at_ k data /\ moved s s' k n size).
Proof using Hretries.
  intros Hv Hf Hw Ho Hoff Hs Hw31 Hb at_. unfold Write. rewrite (proj2 (Z.ltb_ge _ _)) by lia. apply wpM_bind. eapply wpM_mono; [by eapply IsOpenAppend_ok|]. intros s1 b (Ev & Hc & ->). rewrite <- Ev in *.
  subst at_. destruct (appends ds) eqn:Ea.
  - unfold WriteAtCurrentPos. apply wpM_bind, wpM_check; [done|]. rewrite (proj2 (Z.ltb_ge _ _)) by lia.
    assert (Hm := Write_transfers ndebug Hretries R f data size s1 d ds c Hf Hw Ho Hs Hw31). rewrite Ea in Hm. eapply wpM_mono; [exact Hm|]. intros s' n (k & Hk & E & Hmv). exists k. split; [done|]. split; [done|]. by eapply moved_later.
  - apply wpM_bind, wpM_check; [done|]. eapply wpM_mono; [by eapply Pwrite_transfers|]. intros s' n (k & Hk & E & Hmv). exists k. split; [done|]. split; [done|]. by eapply moved_later.
Qed.

End Transfers.

(** C40. Whatever calls fail, [Read], [ReadAtCurrentPos], [Write] and [WriteAtCurrentPos] return, and
    what they return is what happened: [k] bytes from the right place of the file stand at the
    start of the buffer and the rest of the buffer is untouched, or the first [k] bytes of the
    buffer stand at the right place of the file and nowhere else; the result is [k], or [-1] when
    nothing was moved because of an error; the position moves by [k] when it is used.  Without an
    error everything there is has been moved. *)
Theorem File_transfers {OS} `{Kernel OS} (ndebug : bool) (f : File) (off : Z) (data : list Z) (size : Z) (s : OS) (d : positive) (ds : Desc) (c : list Z) :
  retries_suffice (OS := OS) ndebug -> IsValid f = true -> on_file (view s) (file_ f) d ds c -> 0 <= offset ds -> 0 <= off -> 0 <= size <= len data -> size < 2 ^ 31 -> off + size < 2 ^ 63 ->
  (readable ds = true ->
     (exists s' data' n k, Read ndebug f off data size s = Ok (s', (data', n)) /\ 0 <= k <= size /\ view s' = view s /\
        data' = read_at c off k ++ drop (Z.to_nat k) data /\ moved s s' k n (len (read_at c off size))) /\
     (exists s' data' n k, ReadAtCurrentPos ndebug f data size s = Ok (s', (data', n)) /\ 0 <= k <= size /\ view s' = put (view s) d ds (offset ds + k) c /\
        data' = read_at c (offset ds) k ++ drop (Z.to_nat k) data /\ moved s s' k n (len (read_at c (offset ds) size)))) /\
  (writable ds = true ->
     (exists s' n k, let at_ := if appends ds then len c else off in Write ndebug f off data size s = Ok (s', n) /\ 0 <= k <= size /\
        view s' = written (view s) d ds (if appends ds then at_ + k else offset ds) c at_ k data /\ moved s s' k n size) /\
     (exists s' n k, let at_ := if appends ds then len c else offset ds in WriteAtCurrentPos ndebug f data size s = Ok (s', n) /\ 0 <= k <= size /\
        view s' = written (view s) d ds (at_ + k) c at_ k data /\ moved s s' k n size)).
Proof.
  intros Hret Hv Hf Ho Hoff Hs Hw Hb. split; intros Hm; split.
  - destruct (wpM_runs _ _ _ (Read_transfers ndebug Hret True f off data size s d ds c Hv Hf Hm Hoff Hs Hw Hb)) as (s' & [data' n] & E & k & Hk). by exists s', data', n, k.
  - destruct (wpM_runs _ _ _ (ReadAtCurrentPos_transfers ndebug Hret True f data size s d ds c Hv Hf Hm Ho Hs Hw)) as (s' & [data' n] & E & k & Hk). by exists s', data', n, k.
  - destruct (wpM_runs _ _ _ (Write_moves ndebug Hret True f off data size s d ds c Hv Hf Hm Ho Hoff Hs Hw Hb)) as (s' & n & E & k & Hk). by exists s', n, k.
  - assert (Hx := Write_transfers ndebug Hret True f data size s d ds c Hf Hm Ho Hs Hw). destruct (wpM_runs (WriteAtCurrentPos ndebug f data size) s _ ltac:(unfold WriteAtCurrentPos; apply wpM_bind, wpM_check; [done|]; rewrite (proj2 (Z.ltb_ge _ _)) by lia; exact Hx)) as (s' & n & E & k & Hk). by exists s', n, k.
Qed.

(** The disk is full after two bytes. *)
Definition full_disk : Scripted :=
  mkScripted (mkSystem (mkFiles (names sample_files) (nodes sample_files) {[ 5%positive := mkDesc 1 1 true true false ]}) {[ 3 := 5%positive ]}) [Interrupt; Short 2; Interrupt; Fault 28].

Lemma File_transfers_witness :
  exists s' n k, Write true (mkFile 3 [97] FILE_OK false false) 3 [1; 2; 3; 4] 4 full_disk = Ok (s', n) /\ 0 <= k <= 4 /\
    view s' = written (view full_disk) 5 (mkDesc 1 1 true true false) 1 [10; 11; 12] 3 k [1; 2; 3; 4] /\ moved full_disk s' k n 4 /\
  Write true (mkFile 3 [97] FILE_OK false false) 3 [1; 2; 3; 4] 4 full_disk = Ok (s', 2).
Proof.
  destruct (File_transfers true (mkFile 3 [97] FILE_OK false false) 3 [1; 2; 3; 4] 4 full_disk 5 (mkDesc 1 1 true true false) [10; 11; 12]) as [_ Hw]; try done; [by left|].
  destruct (proj1 (Hw eq_refl)) as (s' & n & k & E & H1 & H2 & H3). exists s', n, k. split; [exact E|]. split; [exact H1|]. split; [exact H2|]. split; [exact H3|].
  assert (E2 : exists s2, Write true (mkFile 3 [97] FILE_OK false false) 3 [1; 2; 3; 4] 4 full_disk = Ok (s2, 2)) by (eexists; vm_compute; reflexivity). destruct E2 as (s2 & E2). rewrite E in E2. injection E2 as -> ->. exact E.
Defined.

(** ** Consequences and limits *)

(** What [WriteFile] wrote [ReadFile] reads. *)
Lemma write_read_file F path data size F' b : spec_write_file F path data size = Some (F', b) ->
  exists F'', spec_read_file F' path = Some (F'', (Some (take (Z.to_nat size) data), Some size)).
Proof.
  unfold spec_write_file. destruct (decide _) as [(H1 & H2)|]; [|done]. destruct (spec_open F path _) as [[[[F1 [d|]] e] cr]|] eqn:Eo; [|done..].
  destruct (descs F1 !! d) as [ds|] eqn:Ed; cbn [mbind option_bind]; [|done]. intros [= <- _].
  destruct (spec_open_file _ _ _ _ _ _ _ Eo) as (i & c & Ed' & _ & _ & En). specialize (En eq_refl). rewrite Ed in Ed'. injection Ed' as ->. cbn [inode desc_of].
  assert (El : len (take (Z.to_nat size) data) = size) by (unfold len in *; rewrite length_take; lia).
  unfold spec_read_file. cbn [names nodes set_node]. rewrite En, lookup_insert_eq, El. rewrite !decide_True by lia. by eexists.
Qed.

Section Limits.

Context {OS : Type} `{Kernel OS} (ndebug : bool).

(** The length of a span becomes an [int]: of one that is one byte short of 4 GB nothing is
    written or read, and the answer is that all was. *)
Lemma nothing_written_checked f off data (s : OS) : len data = 2 ^ 32 - 1 -> WriteAndCheck ndebug f off data s = Ok (s, true).
Proof. intros E. unfold WriteAndCheck. rewrite E. reflexivity. Qed.

Lemma nothing_read_checked f off data (s : OS) : IsValid f = true -> len data = 2 ^ 32 - 1 -> ReadAndCheck ndebug f off data s = Ok (s, (data, true)).
Proof. intros Hv E. unfold ReadAndCheck, Read. rewrite E, Hv. reflexivity. Qed.

End Limits.

Definition contents_of (path : list Z) (m : Scripted) : option Node := let F := files (system m) in i ← names F !! path; nodes F !! i.

(** [WriteFile] of [-1] bytes empties the file and reports success. *)
Example minus_one_written : exists m, WriteFile true [97] [1; 2; 3] (-1) sample_kernel = Ok (m, true) /\ contents_of [97] m = Some (Regular []).
Proof. eexists. vm_compute. split; reflexivity. Qed.

(** A file that was there counts as created when the first attempt to open it failed. *)
Example created_but_old :
  match open_file true [97] (Z.lor FLAG_OPEN_ALWAYS FLAG_READ) (mkScripted sample_system [Fault 24]) with
  | Ok (m, f) => IsValid f = true /\ created_ f = true /\ contents_of [97] m = Some (Regular [10; 11; 12])
  | _ => False
  end.
Proof. vm_compute. repeat split. Qed.

Definition open_sample : Scripted := mkScripted (system full_disk) [].

(** A negative size is refused by all reads but one. *)
Example negative_size : 
  ReadNoBestEffort true (mkFile 3 [97] FILE_OK false false) 0 [0] (-1) open_sample = Undef /\
  ReadAtCurrentPosNoBestEffort true (mkFile 3 [97] FILE_OK false false) [0] (-1) open_sample = Ok (open_sample, ([0], -1)) /\
  Read true (mkFile 3 [97] FILE_OK false false) 0 [0] (-1) open_sample = Ok (open_sample, ([0], -1)).
Proof. vm_compute. repeat split. Qed.

(** The build with checks gives up after 100 retries, the other one never. *)
Example persistent_interruption :
  let m := mkScripted (system full_disk) (replicate 101 Interrupt) in
  (exists m', Read false (mkFile 3 [97] FILE_OK false false) 0 [0] 1 m = Ok (m', ([0], -1))) /\ (exists m', Read true (mkFile 3 [97] FILE_OK false false) 0 [0] 1 m = Ok (m', ([10], 1))).
Proof. split; eexists; vm_compute; reflexivity. Qed.
